(* ===== verification/_CoqProject ===== *)
-Q . S2P
Prelude.v
Search.v
Lru.v
Bytes.v
Records.v
Codec.v
Disk.v
SegmentFormat.v
SegmentScan.v
SegmentWriter.v
Log.v
LogRecovery.v
LogSafety.v
Checkpoint.v
Dedup.v
ProducerSeq.v
Produce.v
Txn.v
Subject.v
Wire.v
Messages.v
WireExact.v
TxnStore.v
TxnCommit.v
TxnSafety.v
Isr.v
Epochs.v
LeaderLease.v
DataPlane.v
Cursor.v
CursorSnapshot.v
Attempt.v
Delivery.v
Lease.v
KeyShared.v
Confirm.v
Ttl.v
Backpressure.v
ProduceLog.v
Actor.v
ActorSafety.v
Dlq.v
WorkGroup.v
Restart.v
Engine.v
DeadLetter.v
PollSafety.v
EngineInv.v
Findings.v
