(* ===== verification/Prelude.v ===== *)
(** * IronBus: a verification development

    IronBus is a message bus: producers append records to a segmented log on
    disk, consumers poll work-groups over it, and a cluster replicates the log
    and releases acknowledgements when a quorum has synced.  This library models
    the parts of it that decide, and states what makes them correct.  Paths are
    below [src/crates/].

    ** Parts and files

    - Foundations.  [Prelude]: machine integers with their saturating and checked
      operations, the error monad [res] with a panic value, ordered iteration of
      maps.  [Search]: binary search as the standard library defines it.
      [Bytes]: little-endian integers in byte buffers ([ironbus-core/src/raw.rs]).
      [Lru]: the lazily pruned recency heap that the registries share.
    - Storage ([ironbus-core/src] and [ironbus-storage/src]).  [Records]: flags
      and materialized records ([types.rs], [segment.rs]).  [Codec]: the record
      frame ([codec.rs], [format.rs]).  [Disk]: the file interface as a class,
      the simulated disk and the fault injector ([io.rs], [fault.rs]).
      [SegmentFormat]: headers, footers and compaction blocks (core
      [segment.rs]).  [SegmentScan] and [SegmentWriter]: reading and writing one
      segment file (storage [segment.rs]).  [Log]: the log over several segments,
      its directory and its loss report ([log.rs], [fs.rs], [loss.rs]);
      [LogRecovery]: opening one after a crash; [LogSafety]: runs of its
      operations and power loss.  [Checkpoint]: the two-slot checkpoint file
      ([checkpoint.rs]).
    - Production.  [Dedup]: deduplication windows ([ironbus-core/src/dedup.rs]);
      [ProducerSeq]: producer sequences ([producer_seq.rs]); [Produce]: the
      appends of the engine that use them, the sequence checkpoint and restarts
      ([ironbus-server/src/engine.rs]).  Two-phase produce: [Txn]: the lifecycle
      table and the back-check schedule ([ironbus-core/src/txn.rs]); [TxnStore]:
      the transaction log ([ironbus-storage/src/txn.rs]); [TxnCommit]: prepare,
      commit, rollback and back-checks in the engine; [TxnSafety]: their runs
      with crashes.  Over the log itself: [ProduceLog]: the produce handlers of
      the engine with admission, delay resolution, durability levels and staged
      barriers; [Actor]: the thread that owns the engine, with its legacy and its
      pipelined loop, the flusher and the fast-reject gate
      ([ironbus-server/src/actor.rs], [flusher.rs], [produce_gate.rs]);
      [ActorSafety]: what it promises its producers.
    - The wire ([ironbus-proto/src]).  [Wire]: frames ([frame.rs]); [Messages]:
      the body of every frame ([message.rs]); [WireExact]: what its decoders
      accept.
    - Replication.  [Isr]: in-sync replicas, the quorum commit and the
      acknowledgement gate ([ironbus-server/src/cluster/isr.rs]).  [Epochs]:
      leader epochs and log divergence ([ironbus-core/src/epoch_cache.rs]).
      [LeaderLease]: leases and fencing ([leader_lease.rs]).  [DataPlane]: the
      leader side of the controller, the produce-ack seam and the client gate
      ([cluster/dataplane.rs], [cluster/client_ack.rs], the reply path of
      [session.rs]).
    - Consumption, in the core.  [Cursor] and [CursorSnapshot]: the ack cursor
      ([cursor.rs]); [Attempt]: delivery counts ([attempt.rs]); [Delivery]: the
      delivery policy; [Lease]: the lease table ([lease.rs]); [KeyShared]: key
      routing ([keyshared.rs]); [Confirm]: producer confirms ([confirm.rs]);
      [Ttl]: lifetimes and delays ([ttl.rs], [delay.rs]); [Subject]: subjects and
      patterns ([subject.rs]); [Backpressure]: CoDel, AIMD, token bucket, retry
      budget ([backpressure.rs]).
    - The engine ([ironbus-server/src/engine.rs]).  [Dlq]: the dead-letter sink
      (storage [dlq.rs]); [WorkGroup]: the state of one group; [Restart]: its
      counts over crashes; [Engine]: the handlers; [DeadLetter], [PollSafety] and
      [EngineInv]: what they guarantee together; [Findings]: runs in which the
      code and its documentation disagree.

    ** How the code is written down

    A function of the source is a function here, with the source's name where it
    is free; a method that changes its object takes and returns it.  An error is
    a value of [res]; a panic is [Panic], and the theorems that rule it out say
    so.  A machine integer is a [Z] with its range as a hypothesis or an
    invariant; every saturating, checked or wrapping operation of the source is
    that operation here.  A [BTreeMap] is a [gmap] iterated in key order, a
    [VecDeque] or [Vec] a list.  A file is an instance of [RandomAccessFile]:
    the laws say what a failed or torn write and a failed sync may leave, and
    both the simulated disk and the fault injector over any file satisfy them.
    Checksums and hashes of third-party crates are class parameters ([Crc32c],
    [Xxh3], [Streaming], the key hash); witnesses give them concrete functions.

    ** What the theorems show

    - Durability: a record appended before a sync that returned is in every
      image a crash can leave, at its offset; recovery finds a prefix of what was
      accepted; a sealed, torn or damaged segment scans to exactly the records
      it should ([SegmentWriter], [SegmentScan], [Disk]).  Over several
      segments: after any run of appends, rolls, seals and syncs, with faults,
      a power loss leaves a directory that opens, and the log opened holds every
      record that a sync confirmed ([LogRecovery], [LogSafety]).
    - Codecs: round trips, canonical bytes, no panic on any input ([Codec],
      [SegmentFormat], [CursorSnapshot], [Attempt], [Dlq], [Ttl], [WireExact]).
    - Delivery: what a poll delivers and may commit past, when it may idle, that
      nothing is lost, that a dead letter reaches each target once, that an ended
      lease is fenced, that key order is kept, and that the counts survive
      crashes ([PollSafety], [DeadLetter], [EngineInv], [Lease], [KeyShared],
      [Restart], [WorkGroup]).
    - Production: a checkpoint file is a crash-safe register; a dedup registry
      answers as a list of recent ids and is bounded; a sequenced produce appends
      each number once, in order; a transaction's outcome never flips, its log
      replays to the state it describes, and its message is appended exactly once
      under three conditions on crashes that are shown to be needed
      ([Checkpoint], [Dedup], [Produce], [Txn], [TxnStore], [TxnSafety]).
    - The append actor: an acknowledged produce is durable, every produce is
      answered exactly once, and the loop sleeps with replies parked only while a
      barrier is in flight, except after a roll that fails in a linger
      ([ActorSafety]).
    - Refinement: the run-length cursor is the set of acked offsets, the pausing
      lease clock is a clock that stands still, the confirm registry emits only
      justified terminals ([Cursor], [WorkGroup], [Confirm]).
    - Replication: no acknowledgement before its quorum, to the connection that
      waits for it; divergence is found exactly; leadership is fenced ([Isr],
      [DataPlane], [Epochs], [LeaderLease]).
    - Rate control: bounds of the bucket and the retry budget, when CoDel sheds
      ([Backpressure]).

    ** Recursion

    Loops over data are structural.  Fuel occurs where a loop runs on a file or a
    search range: the exact read takes the byte count ([Disk.read_exact_total]
    shows it returns), binary search the length of the slice, the scans the
    length of the file plus one, the search for the last non-zero byte the
    length of the file; each is shown to be enough where it is used.  The waits of
    the actor take as many rounds as completions can follow each other while
    nothing is appended, which is two ([ActorSafety.at_poll], [at_wait_all],
    [throttle_enough]).  What runs beside the actor is an oracle, asked before
    each call that reaches the engine, the channel or the flusher.

    ** Not modelled

    Sockets, sessions and connection threads: the handlers of the engine are
    modelled as atomic, which the actor makes them, and the connections are what
    its oracle sends.  The log's indexes, retention, compaction and read cursors:
    [Log] models its creation, opening, appends, rolls and syncs, and the consumer
    side of the engine sees a log as a view of records with offsets.  Of the
    produce side: named streams, partitions, confirmed produces, compression and
    the drop-oldest policy.  Raft-backed metadata and the fetch path of
    replication.  Encryption of payloads and cold storage, which wrap third-party code.  Metrics, administration, the clients,
    the command line and the benchmarks. *)

From stdpp Require Export base gmap list sorting strings.
From Stdlib Require Export ZArith Lia.

#[global] Open Scope Z_scope.

(** ** Machine integers

    A Rust [u8], [u16], [u32] or [u64] is a [Z] in range.  The literals keep
    [lia] linear. *)

Definition u8_max : Z := 255.
Definition u16_max : Z := 65535.
Definition u32_max : Z := 4294967295.
Definition u64_max : Z := 18446744073709551615.

Definition is_u8 (z : Z) : Prop := 0 <= z <= u8_max.
Definition is_u16 (z : Z) : Prop := 0 <= z <= u16_max.
Definition is_u32 (z : Z) : Prop := 0 <= z <= u32_max.
Definition is_u64 (z : Z) : Prop := 0 <= z <= u64_max.

(** [saturating_add], [saturating_sub], [saturating_mul], [checked_add] and
    [checked_sub] at a given maximum. *)
Definition sat_add (max a b : Z) : Z := Z.min (a + b) max.
Definition sat_sub (a b : Z) : Z := Z.max 0 (a - b).
Definition sat_mul (max a b : Z) : Z := Z.min (a * b) max.
Definition checked_add (max a b : Z) : option Z :=
  if a + b <=? max then Some (a + b) else None.
Definition checked_sub (a b : Z) : option Z :=
  if b <=? a then Some (a - b) else None.

Abbreviation sat_add64 := (sat_add u64_max).
Abbreviation sat_add32 := (sat_add u32_max).
Abbreviation sat_mul64 := (sat_mul u64_max).
Abbreviation checked_add64 := (checked_add u64_max).

(** [x += 1] of a release build. *)
Definition wrap_inc (x : Z) : Z := (x + 1) mod (u64_max + 1).

(** Unfold the machine-integer vocabulary and call [lia]. *)
Ltac ulia :=
  unfold sat_add, sat_sub, sat_mul, checked_add, checked_sub,
    is_u8, is_u16, is_u32, is_u64, u8_max, u16_max, u32_max, u64_max in *;
  lia.

(** ** Fallible code

    A Rust function that returns [Result] may also panic (an index or a slice
    out of range, an overflow of a plain [+] in a checked build).  A panic is a
    third outcome, so that its absence is a theorem and not an assumption. *)

Inductive res (A E : Type) : Type :=
| Ok (a : A)
| Err (e : E)
| Panic.
Arguments Ok {A E} _.
Arguments Err {A E} _.
Arguments Panic {A E}.

Definition res_bind {A B E} (r : res A E) (k : A -> res B E) : res B E :=
  match r with
  | Ok a => k a
  | Err e => Err e
  | Panic => Panic
  end.

(** An operation that panics instead of returning an error. *)
Definition or_panic {A E} (o : option A) : res A E :=
  match o with Some a => Ok a | None => Panic end.

(** [Result::map_err]. *)
Definition map_err {A E F} (f : E -> F) (r : res A E) : res A F :=
  match r with
  | Ok a => Ok a
  | Err e => Err (f e)
  | Panic => Panic
  end.

Declare Scope ironbus_scope.
Delimit Scope ironbus_scope with ib.
#[global] Open Scope ironbus_scope.

Notation "'let?' x ':=' c1 'in' c2" := (res_bind c1 (fun x => c2))
  (at level 10, x pattern, c1 at level 100, c2 at level 200) : ironbus_scope.

(** [if cond { return Err(e) }; k]. *)
Notation "'fail?' b 'with' e 'in' k" := (if b then Err e else k)
  (at level 10, b at level 100, e at level 100, k at level 200) : ironbus_scope.

Definition no_panic {A E} (r : res A E) : Prop :=
  match r with Panic => False | _ => True end.

Lemma res_bind_ok {A B E} (r : res A E) (k : A -> res B E) b :
  res_bind r k = Ok b <-> exists a, r = Ok a /\ k a = Ok b.
Proof. destruct r; simpl; (split; [eauto|intros (?&?&?)]); congruence. Qed.

Lemma or_panic_ok {A E} (o : option A) a : @or_panic A E o = Ok a <-> o = Some a.
Proof. destruct o; naive_solver. Qed.

(** Walk a successful run of fallible code: every step returned, no guard
    fired. *)
Ltac inv_ok H :=
  repeat match type of H with
  | res_bind _ _ = Ok _ =>
      let x := fresh "x" in let E := fresh "E" in
      apply res_bind_ok in H as (x & E & H);
      try (apply or_panic_ok in E); cbn beta in H
  | (if ?b then Err _ else _) = Ok _ =>
      let E := fresh "G" in destruct b eqn:E; [discriminate H|]; cbn beta in H
  end.

(** Prove [Forall P l] on a concrete list, element by element. *)
Ltac forall_concrete :=
  repeat first [apply Forall_nil_2 | apply Forall_cons_2]; simpl; try ulia.

(** ** Booleans from comparisons *)

(** Turn every boolean integer comparison of the context into its
    proposition. *)
Ltac bool_to_prop :=
  repeat match goal with
  | H : (_ <? _)%Z = true |- _ => apply Z.ltb_lt in H
  | H : (_ <? _)%Z = false |- _ => apply Z.ltb_ge in H
  | H : (_ <=? _)%Z = true |- _ => apply Z.leb_le in H
  | H : (_ <=? _)%Z = false |- _ => apply Z.leb_gt in H
  | H : (_ =? _)%Z = true |- _ => apply Z.eqb_eq in H
  | H : (_ =? _)%Z = false |- _ => apply Z.eqb_neq in H
  | H : (_ && _)%bool = true |- _ => apply andb_true_iff in H as [? ?]
  | H : (_ && _)%bool = false |- _ => apply andb_false_iff in H
  | H : (_ || _)%bool = true |- _ => apply orb_true_iff in H
  | H : (_ || _)%bool = false |- _ => apply orb_false_iff in H as [? ?]
  | H : negb _ = true |- _ => apply negb_true_iff in H
  | H : negb _ = false |- _ => apply negb_false_iff in H
  end.

(** Split on the scrutinee of the outermost [if] or [match] of the goal (or of
    the hypothesis), recording the case. *)
Ltac case_if :=
  match goal with
  | |- context [if ?b then _ else _] => destruct b eqn:?
  end; bool_to_prop; simpl in *.

Ltac case_if_in H :=
  match type of H with
  | context [if ?b then _ else _] => destruct b eqn:?
  end; bool_to_prop; simpl in *.

(** ** Lists *)

Section lists.
Context {A : Type}.
Implicit Types (l : list A).

Lemma drop_cons_lookup l i x : l !! i = Some x -> drop i l = x :: drop (S i) l.
Proof. revert i; induction l as [|y l IH]; intros [|i] ?; naive_solver. Qed.

Lemma Forall_take_drop (P : A -> Prop) l n m :
  Forall P l -> Forall P (take n (drop m l)).
Proof. intros. by apply Forall_take, Forall_drop. Qed.


Lemma filter_none (P : A -> Prop) `{forall x, Decision (P x)} l :
  (forall x, x ∈ l -> ~ P x) -> filter P l = [].
Proof.
  induction l as [|x l IH]; intros Hn; [done|].
  rewrite filter_cons_False by (apply Hn, list_elem_of_here).
  apply IH. intros y Hy. by apply Hn, list_elem_of_further.
Qed.

Lemma filter_all (P : A -> Prop) `{forall x, Decision (P x)} l :
  (forall x, x ∈ l -> P x) -> filter P l = l.
Proof.
  induction l as [|x l IH]; intros Hn; [done|].
  rewrite filter_cons_True by (apply Hn, list_elem_of_here).
  f_equal. apply IH. intros y Hy. by apply Hn, list_elem_of_further.
Qed.
End lists.

(** ** [BTreeMap]

    A [BTreeMap<u64, V>] is a [gmap Z V]; its iteration order is the list of
    its bindings sorted by key. *)

Section btree.
Context {V : Type}.
Implicit Types (m : gmap Z V).

Definition key_le (p q : Z * V) : Prop := p.1 <= q.1.

#[export] Instance key_le_dec : RelDecision key_le.
Proof. intros p q. unfold key_le. apply _. Defined.

#[export] Instance key_le_total : Total key_le.
Proof. intros p q. unfold key_le. lia. Qed.

#[export] Instance key_le_trans : Transitive key_le.
Proof. intros p q r. unfold key_le. lia. Qed.

(** [map.into_iter().collect()] *)
Definition btree_list m : list (Z * V) := merge_sort key_le (map_to_list m).

Lemma btree_list_perm m : btree_list m ≡ₚ map_to_list m.
Proof. apply merge_sort_Permutation. Qed.

Lemma elem_of_btree_list m k v : (k, v) ∈ btree_list m <-> m !! k = Some v.
Proof. rewrite btree_list_perm. apply elem_of_map_to_list. Qed.

Lemma length_btree_list m : length (btree_list m) = size m.
Proof. rewrite btree_list_perm. apply length_map_to_list. Qed.

Lemma NoDup_btree_keys m : NoDup (btree_list m).*1.
Proof. rewrite btree_list_perm. apply NoDup_fst_map_to_list. Qed.

(** Iteration is strictly ascending in the key. *)
Lemma btree_list_sorted m : StronglySorted (fun p q => p.1 < q.1) (btree_list m).
Proof.
  pose proof (NoDup_btree_keys m) as Hnd.
  pose proof (StronglySorted_merge_sort key_le (map_to_list m)) as Hs.
  fold (btree_list m) in Hs. revert Hs Hnd.
  induction (btree_list m) as [|p l IH]; intros Hs Hnd; [constructor|].
  apply StronglySorted_inv in Hs as [Hs Hall].
  apply NoDup_cons in Hnd as [Hp Hnd].
  constructor; [by apply IH|].
  rewrite Forall_forall in Hall |- *. intros q Hq.
  specialize (Hall q Hq). unfold key_le in Hall.
  assert (p.1 <> q.1); [|lia].
  intros Heq. apply Hp. rewrite Heq. by apply list_elem_of_fmap_2.
Qed.

(** The listing is the only strictly ascending list with the entries of the
    map. *)
Lemma btree_list_intro m l :
  StronglySorted (fun p q => p.1 < q.1) l ->
  (forall k v, (k, v) ∈ l <-> m !! k = Some v) -> btree_list m = l.
Proof.
  intros Hs Hel. apply (StronglySorted_unique_strong (fun p q => p.1 < q.1));
    [intros; lia|apply btree_list_sorted|done|].
  apply NoDup_Permutation.
  - apply (NoDup_fmap_1 fst), NoDup_btree_keys.
  - clear Hel. induction Hs as [|p l Hl IH Hp]; constructor; [|done].
    intros Hin. rewrite Forall_forall in Hp. specialize (Hp p Hin). lia.
  - intros [k v]. by rewrite elem_of_btree_list, Hel.
Qed.

Lemma btree_list_cons m k v l :
  btree_list m = (k, v) :: l ->
  m !! k = Some v /\ btree_list (delete k m) = l /\ Forall (fun p => k < p.1) l.
Proof.
  intros E. pose proof (btree_list_sorted m) as Hs. rewrite E in Hs.
  apply StronglySorted_inv in Hs as [Hs Hall].
  assert (Hk : m !! k = Some v) by (apply elem_of_btree_list; rewrite E; apply list_elem_of_here).
  split; [done|]. split; [|done]. apply btree_list_intro; [done|]. intros k' v'.
  rewrite lookup_delete_Some, <- elem_of_btree_list, E, elem_of_cons.
  rewrite Forall_forall in Hall. split.
  - intros Hin. specialize (Hall _ Hin). simpl in Hall. split; [lia|by right].
  - intros [Hne [[= -> ->]|Hin]]; [done|exact Hin].
Qed.

Lemma btree_list_nil m : btree_list m = [] <-> m = ∅.
Proof.
  split; [|intros ->; apply btree_list_intro; [constructor|]; intros k v;
    by rewrite lookup_empty, elem_of_nil].
  intros E. apply map_eq. intros k. rewrite lookup_empty. destruct (m !! k) as [v|] eqn:Ek; [|done].
  apply elem_of_btree_list in Ek. rewrite E in Ek. by apply not_elem_of_nil in Ek.
Qed.

Lemma StronglySorted_filter {A} (R : relation A) (P : A -> Prop) `{forall x, Decision (P x)} l :
  StronglySorted R l -> StronglySorted R (filter P l).
Proof.
  induction 1 as [|x l Hl IH Hx]; [constructor|]. rewrite filter_cons. case_decide; [|done].
  constructor; [done|]. rewrite Forall_forall in Hx |- *.
  intros y [_ Hy]%list_elem_of_filter. by apply Hx.
Qed.

Lemma btree_list_filter (P : Z * V -> Prop) `{forall x, Decision (P x)} m :
  btree_list (filter P m) = filter P (btree_list m).
Proof.
  apply btree_list_intro; [apply StronglySorted_filter, btree_list_sorted|].
  intros k v. rewrite list_elem_of_filter, elem_of_btree_list, map_lookup_filter_Some. naive_solver.
Qed.

Lemma size_delete_Some m k v : m !! k = Some v -> size m = S (size (delete k m)).
Proof.
  intros Hk. rewrite <- (insert_delete_id m k v Hk) at 1.
  by rewrite map_size_insert_None by apply lookup_delete_eq.
Qed.

(** [BTreeMap::first_key_value] and [BTreeMap::pop_first] *)
Definition first_key_value m : option (Z * V) := head (btree_list m).
Definition pop_first m : option (Z * V * gmap Z V) :=
  match head (btree_list m) with
  | Some (k, v) => Some (k, v, delete k m)
  | None => None
  end.

(** Rebuilding the map from its listing is the identity. *)
Lemma list_to_map_btree_list m : list_to_map (btree_list m) = m.
Proof.
  rewrite (list_to_map_proper (btree_list m) (map_to_list m));
    [apply list_to_map_to_list|apply NoDup_btree_keys|apply btree_list_perm].
Qed.

End btree.

(** [BTreeSet] of integers: a set, iterated in ascending order. *)
Definition btreeset_list (s : gset Z) : list Z := merge_sort Z.le (elements s).

Lemma elem_of_btreeset_list s x : x ∈ btreeset_list s <-> x ∈ s.
Proof.
  unfold btreeset_list. rewrite (merge_sort_Permutation Z.le (elements s)).
  apply elem_of_elements.
Qed.

(** The lexicographic order of byte strings ([Ord] on [Vec<u8>] and [str]). *)
Fixpoint bytes_leb (a b : list Z) : bool :=
  match a, b with
  | [], _ => true
  | _ :: _, [] => false
  | x :: a, y :: b => if x <? y then true else if y <? x then false else bytes_leb a b
  end.

Definition bytes_key_le {V} (p q : list Z * V) : Prop := bytes_leb p.1 q.1 = true.

#[export] Instance bytes_key_le_dec {V} : RelDecision (@bytes_key_le V).
Proof. intros p q. unfold bytes_key_le. apply _. Defined.

(** A [BTreeMap] with byte-string keys, listed in key order. *)
Definition bytes_map_list {V} (m : gmap (list Z) V) : list (list Z * V) :=
  merge_sort bytes_key_le (map_to_list m).

Lemma elem_of_bytes_map_list {V} (m : gmap (list Z) V) k v :
  (k, v) ∈ bytes_map_list m <-> m !! k = Some v.
Proof.
  unfold bytes_map_list. rewrite (merge_sort_Permutation bytes_key_le (map_to_list m)).
  apply elem_of_map_to_list.
Qed.
