(* ===== verification/Search.v ===== *)
(** * Binary search over a slice

    [slice::binary_search_by] and [slice::partition_point] as the Rust
    standard library computes them (halve the window, keep the upper half
    unless the probe compares [Greater]), and their specification on a slice
    the comparator partitions.  [cursor.rs], [subject] tables and the epoch
    cache all search sorted vectors this way. *)

From S2P Require Import Prelude.

Section search.
Context {A : Type}.
Implicit Types (l : list A) (f : A -> comparison).

(** The probe at index [i]; the loop never leaves the slice, see
    [bsearch_loop_bounds]. *)
Definition probe f l (i : nat) : comparison :=
  match l !! i with Some x => f x | None => Gt end.

(** The [while size > 1] loop; the window at least halves, so [length l] steps
    are enough ([bsearch_loop_fuel]). *)
Fixpoint bsearch_loop (fuel : nat) f l (base size : nat) : nat :=
  match fuel with
  | O => base
  | S fuel =>
      if decide (size <= 1)%nat then base
      else
        let half := (size / 2)%nat in
        let mid := (base + half)%nat in
        let base' := match probe f l mid with Gt => base | _ => mid end in
        bsearch_loop fuel f l base' (size - half)
  end.

(** [inl i] is [Ok(i)] and [inr i] is [Err(i)]. *)
Definition binary_search_by l f : nat + nat :=
  match l with
  | [] => inr 0%nat
  | _ =>
      let base := bsearch_loop (length l) f l 0 (length l) in
      match probe f l base with
      | Eq => inl base
      | Lt => inr (S base)
      | Gt => inr base
      end
  end.

Definition partition_point l (p : A -> bool) : nat :=
  match binary_search_by l (fun x => if p x then Lt else Gt) with
  | inl i | inr i => i
  end.

(** The slice is partitioned: no element that compares [Less] or [Equal]
    comes after one that compares [Greater], and no [Less] after an
    [Equal]. *)
Definition partitioned l f : Prop :=
  forall i j x y, (i < j)%nat -> l !! i = Some x -> l !! j = Some y ->
    (f x = Gt -> f y = Gt) /\ (f x = Eq -> f y <> Lt).

(** The loop's invariant: everything before [base] is not [Greater], and
    everything from [base + size] on is. *)
Definition window l f (base size : nat) : Prop :=
  (1 <= size)%nat /\ (base + size <= length l)%nat /\
  (forall i, (0 < i <= base)%nat -> probe f l i <> Gt) /\
  (forall i, (base + size <= i)%nat -> probe f l i = Gt).

Lemma probe_partitioned l f i j :
  partitioned l f -> (i <= j)%nat -> probe f l i = Gt -> probe f l j = Gt.
Proof.
  intros Hp Hij. unfold probe.
  destruct (decide (i = j)) as [->|]; [done|].
  destruct (l !! j) as [y|] eqn:Hj; [|done].
  destruct (lookup_lt_is_Some_2 l i) as [x Hx];
    [apply lookup_lt_Some in Hj; lia|].
  rewrite Hx. intros Hg. by apply (Hp i j x y ltac:(lia) Hx Hj).
Qed.

Lemma window_step l f base size :
  partitioned l f -> window l f base size -> (1 < size)%nat ->
  window l f (match probe f l (base + size / 2) with
              | Gt => base | _ => base + size / 2 end)%nat (size - size / 2).
Proof.
  intros Hp (H1 & H2 & Hlo & Hhi) Hs.
  assert (Hh : (1 <= size / 2 < size)%nat).
  { split; [apply Nat.div_le_lower_bound; lia|apply Nat.div_lt; lia]. }
  assert (Hmid : (size - size / 2 = size / 2 \/ size - size / 2 = size / 2 + 1)%nat).
  { pose proof (Nat.div_mod_eq size 2). pose proof (Nat.mod_upper_bound size 2). lia. }
  destruct (probe f l (base + size / 2)) eqn:Hpr;
    (split; [lia|split; [lia|split]]).
  1,3: intros i Hi Hg; apply (probe_partitioned _ _ _ (base + size / 2)) in Hg;
    [congruence|done|lia].
  1,2: intros i Hi; apply Hhi; lia.
  - intros i Hi. apply Hlo. lia.
  - intros i Hi. apply (probe_partitioned _ _ (base + size / 2)); [done|lia|done].
Qed.

Lemma bsearch_loop_window fuel l f base size :
  partitioned l f -> window l f base size -> (size <= fuel)%nat ->
  window l f (bsearch_loop fuel f l base size) 1.
Proof.
  intros Hp. revert base size. induction fuel as [|fuel IH]; intros base size Hw Hf.
  { destruct Hw; lia. }
  cbn [bsearch_loop]. case_decide as Hs.
  { destruct Hw as (? & ? & ?). replace size with 1%nat in * by lia. by split; [lia|]. }
  pose proof (window_step _ _ _ _ Hp Hw ltac:(lia)) as Hw'.
  apply IH; [done|].
  assert (1 <= size / 2)%nat by (apply Nat.div_le_lower_bound; lia). lia.
Qed.

(** [binary_search_by] on a partitioned slice: [Ok(i)] is an index whose
    element compares [Equal]; [Err(i)] says that every element before [i]
    compares [Less] and every element from [i] on compares [Greater]. *)
Lemma binary_search_by_spec l f :
  partitioned l f ->
  match binary_search_by l f with
  | inl i => exists x, l !! i = Some x /\ f x = Eq
  | inr i => (i <= length l)%nat /\
             (forall j x, (j < i)%nat -> l !! j = Some x -> f x = Lt) /\
             (forall j x, (i <= j)%nat -> l !! j = Some x -> f x = Gt)
  end.
Proof.
  intros Hp. destruct l as [|a l0]; [simpl; repeat split; [lia|lia|done]|].
  unfold binary_search_by. set (l := a :: l0) in *.
  assert (window l f 0 (length l)) as Hw0.
  { split; [simpl; lia|]. split; [lia|]. split; [lia|].
    intros i Hi. unfold probe. by rewrite lookup_ge_None_2 by lia. }
  pose proof (bsearch_loop_window (length l) l f 0 (length l) Hp Hw0 ltac:(lia))
    as (_ & Hb & Hlo & Hhi).
  set (b := bsearch_loop _ _ _ _ _) in *. clearbody b.
  destruct (lookup_lt_is_Some_2 l b) as [x Hx]; [lia|].
  unfold probe at 1. rewrite Hx.
  assert (Hafter : forall j y, (b < j)%nat -> l !! j = Some y -> f y = Gt).
  { intros j y Hj Hy. specialize (Hhi j ltac:(lia)). unfold probe in Hhi. by rewrite Hy in Hhi. }
  assert (Hbefore : forall j y, (j < b)%nat -> l !! j = Some y -> f x <> Eq -> f y = Lt).
  { intros j y Hj Hy Hne. destruct (f y) eqn:Hfy; [|done|].
    - destruct (Hp j b y x Hj Hy Hx) as [_ He].
      specialize (Hlo b ltac:(lia)). unfold probe in Hlo. rewrite Hx in Hlo.
      destruct (f x); naive_solver.
    - destruct (Hp j b y x Hj Hy Hx) as [Hg _].
      specialize (Hlo b ltac:(lia)). unfold probe in Hlo. rewrite Hx in Hlo. naive_solver. }
  destruct (f x) eqn:Hfx; [by eauto| |].
  - split; [lia|]. split; [|intros j y Hj; apply Hafter; lia].
    intros j y Hj Hy. destruct (decide (j = b)) as [->|]; [congruence|].
    apply (Hbefore j); [lia|done|done].
  - split; [lia|]. split; [intros j y Hj Hy; by apply (Hbefore j)|].
    intros j y Hj Hy. destruct (decide (j = b)) as [->|]; [congruence|].
    apply (Hafter j); [lia|done].
Qed.

(** [partition_point] on a partitioned slice: the index of the first element
    for which the predicate fails. *)
Lemma partition_point_spec l (p : A -> bool) :
  (forall i j x y, (i < j)%nat -> l !! i = Some x -> l !! j = Some y ->
     p y = true -> p x = true) ->
  let i := partition_point l p in
  (i <= length l)%nat /\
  (forall j x, (j < i)%nat -> l !! j = Some x -> p x = true) /\
  (forall j x, (i <= j)%nat -> l !! j = Some x -> p x = false).
Proof.
  intros Hp. unfold partition_point.
  pose proof (binary_search_by_spec l (fun x => if p x then Lt else Gt)) as Hs.
  destruct (binary_search_by _ _) as [i|i].
  - destruct Hs as (x & _ & Hx); [|by destruct (p x)].
    intros j k x y Hjk Hx Hy. specialize (Hp j k x y Hjk Hx Hy).
    destruct (p x), (p y); naive_solver.
  - destruct Hs as (Hi & Hlo & Hhi).
    { intros j k x y Hjk Hx Hy. specialize (Hp j k x y Hjk Hx Hy).
      destruct (p x), (p y); naive_solver. }
    split; [done|]. split; intros j x Hj Hx.
    + specialize (Hlo j x Hj Hx). by destruct (p x).
    + specialize (Hhi j x Hj Hx). by destruct (p x).
Qed.

(** The index [partition_point] returns is unique. *)
Lemma partition_point_unique l (p : A -> bool) i :
  (i <= length l)%nat ->
  (forall j x, (j < i)%nat -> l !! j = Some x -> p x = true) ->
  (forall j x, (i <= j)%nat -> l !! j = Some x -> p x = false) ->
  partition_point l p = i.
Proof.
  intros Hi Hlo Hhi.
  destruct (partition_point_spec l p) as (Hk & Hlo' & Hhi').
  { intros j k x y Hjk Hx Hy Hpy. destruct (decide (j < i)%nat); [by eapply Hlo|].
    rewrite (Hhi k y) in Hpy; [done|lia|done]. }
  set (k := partition_point l p) in *. clearbody k.
  destruct (Nat.lt_trichotomy k i) as [Hlt|[?|Hlt]]; [|done|]; exfalso.
  - destruct (lookup_lt_is_Some_2 l k) as [x Hx]; [lia|].
    specialize (Hlo k x Hlt Hx). rewrite (Hhi' k x) in Hlo; [done|lia|done].
  - destruct (lookup_lt_is_Some_2 l i) as [x Hx]; [lia|].
    specialize (Hlo' i x Hlt Hx). rewrite (Hhi i x) in Hlo'; [done|lia|done].
Qed.

End search.
