(* ===== verification/Lru.v ===== *)
(** * Bounded tables with least-recently-touched eviction

    The dedup windows, the producer sequences and the transaction tombstones
    ([dedup.rs], [producer_seq.rs], [txn.rs]) bound the number of their entries,
    whose keys come from the wire, in the same way: a min-heap of
    [(last touch, key)] with lazy invalidation finds the entry to drop.  The heap
    of the standard library is modelled by its elements in ascending order: a
    push inserts, a pop takes the first. *)

From S2P Require Import Prelude.

(** ** The order of heap entries *)

Lemma bytes_leb_refl a : bytes_leb a a = true.
Proof. induction a as [|x a IH]; [done|]. cbn. by rewrite Z.ltb_irrefl. Qed.

Lemma bytes_leb_total a b : bytes_leb a b = true \/ bytes_leb b a = true.
Proof.
  revert b. induction a as [|x a IH]; intros [|y b]; cbn; auto.
  destruct (Z.ltb_spec x y), (Z.ltb_spec y x); auto; lia.
Qed.

Lemma bytes_leb_trans a b c : bytes_leb a b = true -> bytes_leb b c = true -> bytes_leb a c = true.
Proof.
  revert b c. induction a as [|x a IH]; intros [|y b] [|z c]; cbn; try done.
  destruct (Z.ltb_spec x y), (Z.ltb_spec y x), (Z.ltb_spec y z), (Z.ltb_spec z y), (Z.ltb_spec x z), (Z.ltb_spec z x);
    try done; try lia. apply IH.
Qed.

Lemma bytes_leb_antisym a b : bytes_leb a b = true -> bytes_leb b a = true -> a = b.
Proof.
  revert b. induction a as [|x a IH]; intros [|y b]; cbn; try done.
  destruct (Z.ltb_spec x y), (Z.ltb_spec y x); try done; try lia. intros. f_equal; [lia|auto].
Qed.

(** [(u64, Vec<u8>)], compared lexicographically. *)
Definition touch_leb (a b : Z * list Z) : bool := (a.1 <? b.1) || ((a.1 =? b.1) && bytes_leb a.2 b.2).
Definition touch_le (a b : Z * list Z) : Prop := touch_leb a b = true.

Lemma touch_le_spec a b : touch_le a b <-> a.1 < b.1 \/ (a.1 = b.1 /\ bytes_leb a.2 b.2 = true).
Proof.
  unfold touch_le, touch_leb. rewrite orb_true_iff, andb_true_iff, Z.ltb_lt, Z.eqb_eq. done.
Qed.
#[export] Instance touch_le_dec : RelDecision touch_le.
Proof. intros a b. unfold touch_le. apply _. Defined.
#[export] Instance touch_le_total : Total touch_le.
Proof. intros a b. rewrite !touch_le_spec. pose proof (bytes_leb_total a.2 b.2). destruct (Z.lt_total a.1 b.1); naive_solver lia. Qed.
#[export] Instance touch_le_trans : Transitive touch_le.
Proof.
  intros a b c. rewrite !touch_le_spec. intros [|[Hab Lab]] [|[Hbc Lbc]]; [left; lia..|].
  right. split; [lia|]. by eapply bytes_leb_trans.
Qed.

(** ** The heap *)

Fixpoint heap_push (x : Z * list Z) (h : list (Z * list Z)) : list (Z * list Z) :=
  match h with
  | [] => [x]
  | y :: h' => if touch_leb x y then x :: h else y :: heap_push x h'
  end.

Lemma heap_push_perm x h : heap_push x h ≡ₚ x :: h.
Proof. induction h as [|y h IH]; cbn; [done|]. case_match; [done|]. rewrite IH. apply Permutation_swap. Qed.

Lemma heap_push_sorted x h : StronglySorted touch_le h -> StronglySorted touch_le (heap_push x h).
Proof.
  induction 1 as [|y h Hs IH Hy]; cbn; [repeat constructor|]. destruct (touch_leb x y) eqn:Hxy.
  - constructor; [by constructor|]. constructor; [done|]. eapply Forall_impl; [exact Hy|]. intros z Hz. by transitivity y.
  - constructor; [done|]. rewrite heap_push_perm. constructor; [|done].
    destruct (total touch_le x y) as [Hle|Hle]; [by unfold touch_le in Hle; rewrite Hxy in Hle|done].
Qed.

Definition heap_collect (l : list (Z * list Z)) : list (Z * list Z) := foldr heap_push [] l.

Lemma heap_collect_perm l : heap_collect l ≡ₚ l.
Proof. induction l as [|x l IH]; [done|]. cbn. by rewrite heap_push_perm, IH. Qed.
Lemma heap_collect_sorted l : StronglySorted touch_le (heap_collect l).
Proof. induction l; [constructor|]. by apply heap_push_sorted. Qed.

(** ** The table *)

Section table.
Context {V : Type} (last_touch : V -> Z).
Implicit Types (m : gmap (list Z) V) (lru : list (Z * list Z)).

(** [while len >= cap { pop, or break; remove the key if the entry is current }] *)
Fixpoint evict_loop (cap : nat) m lru : gmap (list Z) V * list (Z * list Z) :=
  if (size m <? cap)%nat then (m, lru)
  else
    match lru with
    | [] => (m, [])
    | (touch, key) :: lru =>
        match m !! key with
        | Some v => evict_loop cap (if last_touch v =? touch then delete key m else m) lru
        | None => evict_loop cap m lru
        end
    end.

Lemma evict_loop_subset cap m lru : fst (evict_loop cap m lru) ⊆ m.
Proof.
  revert m. induction lru as [|[touch key] lru IH]; intros m; cbn [evict_loop]; (destruct (_ <? _)%nat; [done|]); [done|].
  destruct (m !! key) as [v|]; [|apply IH]. destruct (_ =? _); [|apply IH]. etransitivity; [apply IH|apply delete_subseteq].
Qed.

Definition lru_entries m : list (Z * list Z) := (fun p => (last_touch p.2, p.1)) <$> map_to_list m.

(** Push the touch; rebuild the heap when it has grown past twice the table. *)
Definition touch_lru m lru (key : list Z) (now : Z) : list (Z * list Z) :=
  let lru := heap_push (now, key) lru in
  if (size m * 2 <? length lru)%nat then heap_collect (lru_entries m) else lru.

(** Every entry is in the heap under its current touch. *)
Definition lru_ok m lru : Prop :=
  StronglySorted touch_le lru /\ forall key v, m !! key = Some v -> (last_touch v, key) ∈ lru.

Lemma elem_of_lru_entries m t key : (t, key) ∈ lru_entries m <-> exists v, m !! key = Some v /\ last_touch v = t.
Proof.
  unfold lru_entries. rewrite list_elem_of_fmap. split.
  - intros ([k v] & [= -> ->] & Hin). apply elem_of_map_to_list in Hin. eauto.
  - intros (v & Hv & <-). exists (key, v). split; [done|]. by apply elem_of_map_to_list.
Qed.

(** Touching [key], whose entry already carries the time. *)
Lemma touch_lru_ok m lru key now v :
  lru_ok (delete key m) lru -> m !! key = Some v -> last_touch v = now -> lru_ok m (touch_lru m lru key now).
Proof.
  intros [Hs Hin] Hv Hn. unfold touch_lru. case_match.
  - split; [apply heap_collect_sorted|]. intros k w Hw. rewrite heap_collect_perm, elem_of_lru_entries. eauto.
  - split; [by apply heap_push_sorted|]. intros k w Hw. rewrite heap_push_perm. destruct (decide (k = key)) as [->|Hne].
    + rewrite Hv in Hw. injection Hw as <-. rewrite Hn. left.
    + right. apply Hin. by rewrite lookup_delete_ne.
Qed.

Lemma lru_ok_subset m m' lru : m' ⊆ m -> lru_ok m lru -> lru_ok m' lru.
Proof. intros Hsub [Hs Hin]. split; [done|]. intros k v Hk. apply Hin. by eapply lookup_weaken. Qed.

(** The heap never holds more than twice the table. *)
Lemma touch_lru_length m lru key now : (length (touch_lru m lru key now) <= size m * 2)%nat.
Proof.
  unfold touch_lru. destruct (Nat.ltb_spec (size m * 2) (length (heap_push (now, key) lru))); [|done].
  rewrite heap_collect_perm. unfold lru_entries. rewrite length_fmap, length_map_to_list. lia.
Qed.

(** What eviction removes: the least recently touched entries, just enough to
    make room. *)
Definition evicts (cap : nat) m m' : Prop :=
  m' ⊆ m /\ (size m' < cap)%nat /\ ((size m < cap)%nat -> m' = m) /\
  ((cap <= size m)%nat -> (cap <= S (size m'))%nat) /\
  forall k v k' v', m !! k = Some v -> m' !! k = None -> m' !! k' = Some v' -> touch_le (last_touch v, k) (last_touch v', k').

Lemma evict_loop_spec cap m lru :
  (0 < cap)%nat -> lru_ok m lru ->
  evicts cap m (fst (evict_loop cap m lru)) /\ lru_ok (fst (evict_loop cap m lru)) (snd (evict_loop cap m lru)).
Proof.
  intros Hcap. revert m. induction lru as [|[t key] lru IH]; intros m Hok; cbn [evict_loop];
    destruct (Nat.ltb_spec (size m) cap) as [Hlt|Hge].
  1, 3: by split; [split_and!; try done; [lia|naive_solver]|].
  - exfalso. destruct (map_choose m) as (k & v & Hk).
    { intros ->. rewrite map_size_empty in Hge. lia. }
    destruct Hok as [_ Hin]. apply Hin in Hk. by apply not_elem_of_nil in Hk.
  - destruct Hok as [Hs Hin]. apply StronglySorted_inv in Hs as [Hs Hall]. rewrite Forall_forall in Hall.
    assert (Hskip : (forall v, m !! key = Some v -> last_touch v <> t) -> lru_ok m lru).
    { intros Hne. split; [done|]. intros k v Hk. pose proof (Hin k v Hk) as Hx. apply elem_of_cons in Hx as [[= Ht ->]|Hx]; [|done].
      by destruct (Hne v Hk). }
    destruct (m !! key) as [v|] eqn:Hkey; [|by apply IH, Hskip].
    destruct (Z.eqb_spec (last_touch v) t) as [Ht|Ht]; [|apply IH, Hskip; naive_solver].
    pose proof (map_size_delete_Some key m ltac:(by rewrite Hkey)) as Hsz.
    assert (Hok' : lru_ok (delete key m) lru).
    { split; [done|]. intros k w [Hne Hk]%lookup_delete_Some. pose proof (Hin k w Hk) as Hx.
      apply elem_of_cons in Hx as [[= _ ->]|Hx]; [done|done]. }
    destruct (IH _ Hok') as [(Hsub & Hsmall & Hsame & Hone & Hleast) Hok2]. split; [|done]. split_and!; [|done|lia| |].
    + etransitivity; [exact Hsub|apply delete_subseteq].
    + intros _. destruct (decide (cap <= size (delete key m))%nat) as [Hc|Hc]; [by apply Hone|].
      rewrite Hsame by lia. lia.
    + intros k w k' w' Hk Hno Hk'. destruct (decide (k = key)) as [->|Hne].
      * rewrite Hkey in Hk. injection Hk as <-. rewrite Ht. apply Hall.
        pose proof (lookup_weaken _ _ _ _ Hk' Hsub) as Hm. by apply Hok' in Hm.
      * eapply Hleast; [by rewrite lookup_delete_ne|done..].
Qed.
End table.
