(* ===== verification/Bytes.v ===== *)
(** * Byte strings

    Little-endian integers in byte buffers ([raw.rs], and the [read_u64] /
    [read_u32] helpers of [cursor.rs] and [attempt.rs]), bounds-checked reads
    that panic out of range, and the checksum crates as interfaces.  A byte is
    a [Z] in [0, 255]; a buffer position is a [nat]. *)

From S2P Require Import Prelude.

(** ** Little-endian integers *)

(** [to_le_bytes] of an [n]-byte integer. *)
Fixpoint le_bytes (n : nat) (z : Z) : list Z :=
  match n with
  | O => []
  | S n => z mod 256 :: le_bytes n (z / 256)
  end.

(** [from_le_bytes]. *)
Fixpoint le_val (l : list Z) : Z :=
  match l with
  | [] => 0
  | b :: l => b + 256 * le_val l
  end.

Definition bytes_ok (l : list Z) : Prop := Forall is_u8 l.

Lemma length_le_bytes n z : length (le_bytes n z) = n.
Proof. revert z. induction n; simpl; auto. Qed.

Lemma le_bytes_ok n z : bytes_ok (le_bytes n z).
Proof.
  revert z. induction n as [|n IH]; intros z; constructor; [|apply IH].
  pose proof (Z.mod_pos_bound z 256). ulia.
Qed.

Lemma le_val_le_bytes n z :
  0 <= z < 256 ^ Z.of_nat n -> le_val (le_bytes n z) = z.
Proof.
  revert z. induction n as [|n IH]; intros z Hz; cbn [le_bytes le_val].
  { change (256 ^ Z.of_nat 0) with 1 in Hz. lia. }
  rewrite Nat2Z.inj_succ, Z.pow_succ_r in Hz by lia.
  rewrite IH; [pose proof (Z.div_mod z 256); lia|].
  split; [apply Z.div_pos; lia|apply Z.div_lt_upper_bound; lia].
Qed.

Lemma le_bytes_le_val l : bytes_ok l -> le_bytes (length l) (le_val l) = l.
Proof.
  induction 1 as [|b l Hb _ IH]; [done|]. cbn [length le_bytes le_val].
  assert (Hm : (b + 256 * le_val l) mod 256 = b).
  { rewrite Z.mul_comm, Z.mod_add by lia. apply Z.mod_small. ulia. }
  assert (Hd : (b + 256 * le_val l) / 256 = le_val l).
  { rewrite Z.mul_comm, Z.div_add by lia. rewrite Z.div_small by ulia. lia. }
  by rewrite Hm, Hd, IH.
Qed.

Lemma le_bytes_le_val' n l :
  length l = n -> bytes_ok l -> le_bytes n (le_val l) = l.
Proof. intros <-. apply le_bytes_le_val. Qed.

Lemma le_val_bounds l : bytes_ok l -> 0 <= le_val l < 256 ^ Z.of_nat (length l).
Proof.
  induction 1 as [|b l Hb _ IH]; cbn [length le_val]; [simpl; lia|].
  rewrite Nat2Z.inj_succ, Z.pow_succ_r by lia. ulia.
Qed.

(** ** Reads

    [u64::from_le_bytes(buf[at..at + 8])]: out of range, the slice panics, the
    model returns [None]. *)
Definition read_le (n : nat) (buf : list Z) (pos : nat) : option Z :=
  if decide (pos + n <= length buf)%nat
  then Some (le_val (take n (drop pos buf))) else None.

Definition read_u8 (buf : list Z) (pos : nat) : option Z := buf !! pos.
Definition read_u16 (buf : list Z) (pos : nat) : option Z := read_le 2 buf pos.
Definition read_u32 (buf : list Z) (pos : nat) : option Z := read_le 4 buf pos.
Definition read_u64 (buf : list Z) (pos : nat) : option Z := read_le 8 buf pos.

(** [&buf[from..to]] *)
Definition slice (buf : list Z) (from to : nat) : option (list Z) :=
  if decide (from <= to <= length buf)%nat
  then Some (take (to - from) (drop from buf)) else None.

Lemma read_le_app_r n l1 l2 pos :
  (length l1 <= pos)%nat -> read_le n (l1 ++ l2) pos = read_le n l2 (pos - length l1).
Proof.
  intros Hp. unfold read_le. rewrite length_app, drop_app_ge by lia.
  by repeat case_decide; try lia.
Qed.

Lemma read_le_app_l n l1 l2 pos :
  (pos + n <= length l1)%nat -> read_le n (l1 ++ l2) pos = read_le n l1 pos.
Proof.
  intros Hp. unfold read_le. rewrite length_app, drop_app_le by lia.
  rewrite take_app_le by (rewrite length_drop; lia).
  by repeat case_decide; try lia.
Qed.

Lemma read_le_head n z l :
  0 <= z < 256 ^ Z.of_nat n -> read_le n (le_bytes n z ++ l) 0 = Some z.
Proof.
  intros Hz. rewrite read_le_app_l by (rewrite length_le_bytes; lia).
  unfold read_le. rewrite drop_0, length_le_bytes.
  rewrite take_ge by (rewrite length_le_bytes; lia).
  case_decide; [|lia]. by rewrite le_val_le_bytes.
Qed.

Lemma read_le_Some n buf pos :
  (pos + n <= length buf)%nat ->
  read_le n buf pos = Some (le_val (take n (drop pos buf))).
Proof. intros. unfold read_le. by case_decide. Qed.

Lemma read_le_is_Some n buf pos :
  (pos + n <= length buf)%nat -> exists z, read_le n buf pos = Some z.
Proof. intros. rewrite read_le_Some by done. eauto. Qed.

Lemma read_le_bounds n buf pos z :
  bytes_ok buf -> read_le n buf pos = Some z -> 0 <= z < 256 ^ Z.of_nat n.
Proof.
  intros Hb. unfold read_le. case_decide as Hl; [|done]. intros [= <-].
  pose proof (le_val_bounds (take n (drop pos buf))) as Hv.
  rewrite length_take, length_drop in Hv.
  replace (n `min` (length buf - pos))%nat with n in Hv by lia.
  apply Hv. by apply Forall_take_drop.
Qed.

(** Re-encoding what was read gives back the bytes read. *)
Lemma read_le_bytes n buf pos z :
  bytes_ok buf -> read_le n buf pos = Some z ->
  le_bytes n z = take n (drop pos buf).
Proof.
  intros Hb. unfold read_le. case_decide as Hl; [|done]. intros [= <-].
  rewrite <- (le_bytes_le_val (take n (drop pos buf))) at 2
    by by apply Forall_take_drop.
  f_equal. rewrite length_take, length_drop. lia.
Qed.

(** Reading the middle part of a concatenation. *)
Lemma read_le_mid n l1 b l2 pos :
  length l1 = pos -> length b = n -> read_le n (l1 ++ b ++ l2) pos = Some (le_val b).
Proof.
  intros <- <-. rewrite read_le_app_r, Nat.sub_diag by lia.
  rewrite read_le_Some by (rewrite length_app; lia).
  by rewrite drop_0, take_app_length.
Qed.

Lemma le_val_u64 b : length b = 8%nat -> bytes_ok b -> is_u64 (le_val b).
Proof.
  intros Hl Hb. pose proof (le_val_bounds b Hb) as Hv. rewrite Hl in Hv.
  change (256 ^ Z.of_nat 8) with 18446744073709551616 in Hv. ulia.
Qed.
Lemma le_val_u32 b : length b = 4%nat -> bytes_ok b -> is_u32 (le_val b).
Proof.
  intros Hl Hb. pose proof (le_val_bounds b Hb) as Hv. rewrite Hl in Hv.
  change (256 ^ Z.of_nat 4) with 4294967296 in Hv. ulia.
Qed.

Lemma slice_Some buf a b :
  (a <= b <= length buf)%nat -> slice buf a b = Some (take (b - a) (drop a buf)).
Proof. intros. unfold slice. by case_decide. Qed.

Lemma slice_0 buf b : (b <= length buf)%nat -> slice buf 0 b = Some (take b buf).
Proof. intros. rewrite slice_Some by lia. by rewrite drop_0, Nat.sub_0_r. Qed.

(** Reading and slicing where the rest of the buffer is known. *)
Lemma read_le_at n buf pos b rest :
  (0 < n)%nat -> drop pos buf = b ++ rest -> length b = n -> read_le n buf pos = Some (le_val b).
Proof.
  intros Hn Hd Hb. assert (Hl : (pos + n <= length buf)%nat).
  { pose proof (f_equal length Hd) as Hlen. rewrite length_drop, length_app in Hlen. lia. }
  rewrite read_le_Some by done. by rewrite Hd, take_app_length' by done.
Qed.

Lemma slice_at buf a b x rest :
  (a <= length buf)%nat -> drop a buf = x ++ rest -> (a + length x = b)%nat -> slice buf a b = Some x.
Proof.
  intros Ha Hd Hb. pose proof (f_equal length Hd) as Hlen. rewrite length_drop, length_app in Hlen.
  rewrite slice_Some by lia. rewrite Hd, take_app_length' by lia. done.
Qed.

Lemma slice_inv buf a b x :
  slice buf a b = Some x -> (a <= b <= length buf)%nat /\ x = take (b - a) (drop a buf).
Proof. unfold slice. case_decide; [|done]. by intros [= <-]. Qed.

(** A buffer is the chunk at a position and what follows it. *)
Lemma take_drop_at {A} (l : list A) p n : take n (drop p l) ++ drop (p + n) l = drop p l.
Proof. by rewrite <- drop_drop, take_drop. Qed.

Lemma u32_pow z : is_u32 z -> 0 <= z < 256 ^ Z.of_nat 4.
Proof. change (256 ^ Z.of_nat 4) with 4294967296. ulia. Qed.
Lemma u64_pow z : is_u64 z -> 0 <= z < 256 ^ Z.of_nat 8.
Proof. change (256 ^ Z.of_nat 8) with 18446744073709551616. ulia. Qed.
Lemma u16_pow z : is_u16 z -> 0 <= z < 256 ^ Z.of_nat 2.
Proof. change (256 ^ Z.of_nat 2) with 65536. ulia. Qed.

(** [u16::try_from(len)] *)
Definition u16_try_from (n : nat) : option Z :=
  if Z.of_nat n <=? u16_max then Some (Z.of_nat n) else None.

Lemma u16_try_from_Some n : Z.of_nat n <= u16_max -> u16_try_from n = Some (Z.of_nat n).
Proof. intros H. unfold u16_try_from. by rewrite (proj2 (Z.leb_le _ _)). Qed.

Lemma u16_try_from_inv n x : u16_try_from n = Some x -> x = Z.of_nat n /\ Z.of_nat n <= u16_max.
Proof. unfold u16_try_from. destruct (Z.leb_spec (Z.of_nat n) u16_max); [|done]. by intros [= <-]. Qed.

Lemma le_bytes_u16_len n : Z.of_nat n <= u16_max -> Z.to_nat (le_val (le_bytes 2 (Z.of_nat n))) = n.
Proof. intros H. rewrite le_val_le_bytes by (apply u16_pow; ulia). lia. Qed.

Lemma read_u64_bounds buf pos z :
  bytes_ok buf -> read_u64 buf pos = Some z -> is_u64 z.
Proof.
  intros Hb Hr. apply (read_le_bounds 8) in Hr; [|done].
  change (256 ^ Z.of_nat 8) with 18446744073709551616 in Hr. ulia.
Qed.
Lemma read_u32_bounds buf pos z :
  bytes_ok buf -> read_u32 buf pos = Some z -> is_u32 z.
Proof.
  intros Hb Hr. apply (read_le_bounds 4) in Hr; [|done].
  change (256 ^ Z.of_nat 4) with 4294967296 in Hr. ulia.
Qed.
Lemma read_u16_bounds buf pos z :
  bytes_ok buf -> read_u16 buf pos = Some z -> is_u16 z.
Proof.
  intros Hb Hr. apply (read_le_bounds 2) in Hr; [|done].
  change (256 ^ Z.of_nat 2) with 65536 in Hr. ulia.
Qed.

Lemma read_le_range n buf pos z : read_le n buf pos = Some z -> (pos + n <= length buf)%nat.
Proof. unfold read_le. by case_decide. Qed.

Lemma read_le_None n buf pos : read_le n buf pos = None -> (length buf < pos + n)%nat.
Proof. intros Hn. destruct (decide (pos + n <= length buf)%nat) as [Hl|Hl]; [|lia]. by rewrite read_le_Some in Hn. Qed.

Lemma slice_None buf a b : slice buf a b = None -> ~ (a <= b <= length buf)%nat.
Proof. intros Hn Hl. by rewrite slice_Some in Hn. Qed.

Lemma slice_len buf a b x : slice buf a b = Some x -> (a <= b <= length buf)%nat /\ length x = (b - a)%nat.
Proof. intros Hs. apply slice_inv in Hs as [Hl ->]. rewrite length_take, length_drop. lia. Qed.

Lemma no_panic_bind {A B E} (r : res A E) (k : A -> res B E) :
  no_panic r -> (forall a, r = Ok a -> no_panic (k a)) -> no_panic (res_bind r k).
Proof. destruct r; simpl; auto. Qed.

(** Walk fallible code whose every read should be in range: the goals left are
    the reads the context does not already justify. *)
Ltac no_panic_step :=
  match goal with
  | |- no_panic (if ?b then Err _ else _) =>
      let G := fresh "G" in destruct b eqn:G; [exact I|]; try apply bool_decide_eq_false in G
  | |- no_panic (res_bind (or_panic ?o) _) =>
      let E := fresh "E" in
      destruct o eqn:E; cbn [or_panic res_bind];
      [try apply slice_len in E as [? ?]
      |exfalso; first [apply read_le_None in E | apply slice_None in E | apply lookup_ge_None in E]]
  | |- no_panic (or_panic ?o) =>
      let E := fresh "E" in
      destruct o eqn:E; cbn [or_panic];
      [exact I
      |exfalso; first [apply read_le_None in E | apply slice_None in E | apply lookup_ge_None in E]]
  | |- no_panic (Ok _) => exact I
  | |- no_panic (Err _) => exact I
  end.
Ltac no_panic_walk := repeat (no_panic_step; try lia).

#[global] Opaque le_bytes le_val read_le.

Create HintDb bytes discriminated.
#[export] Hint Resolve le_bytes_ok u32_pow u64_pow u16_pow
  read_u64_bounds read_u32_bounds read_u16_bounds : bytes.

(** ** Checksum crates

    [crc32c] and [xxh3] are third-party crates; the code relies on each being
    a function of the bytes into its integer width. *)

Class Crc32c := {
  crc32c : list Z -> Z;
  crc32c_u32 : forall l, is_u32 (crc32c l)
}.

Class Xxh3 := {
  xxh3_64 : list Z -> Z;
  xxh3_u64 : forall l, is_u64 (xxh3_64 l)
}.

#[export] Hint Resolve crc32c_u32 xxh3_u64 : bytes.

(** A concrete CRC32C (Castagnoli, reflected polynomial [0x82F63B78], bit by
    bit), for evaluating the codecs on concrete inputs. *)
Fixpoint crc_bits (n : nat) (c : Z) : Z :=
  match n with
  | O => c
  | S n => crc_bits n (if Z.odd c then Z.lxor (Z.shiftr c 1) 2197175160
                       else Z.shiftr c 1)
  end.

Definition crc_run (l : list Z) : Z :=
  Z.lxor (foldl (fun c b => crc_bits 8 (Z.lxor c b)) u32_max l) u32_max.

Program Definition castagnoli : Crc32c :=
  {| crc32c l := crc_run l mod (u32_max + 1) |}.
Next Obligation. intros l. pose proof (Z.mod_pos_bound (crc_run l) (u32_max + 1)). ulia. Qed.

(** The CRC32C check value of "123456789". *)
Example castagnoli_check :
  @crc32c castagnoli [49; 50; 51; 52; 53; 54; 55; 56; 57] = 3808858755.
Proof. vm_compute. reflexivity. Qed.

(** A stand-in for the second checksum in evaluations: it only has to be a
    function into [u64]. *)
Program Definition sum64 : Xxh3 :=
  {| xxh3_64 l := foldl (fun a b => (a * 257 + b) mod (u64_max + 1)) 1 l mod (u64_max + 1) |}.
Next Obligation.
  intros l. pose proof (Z.mod_pos_bound
    (foldl (fun a b => (a * 257 + b) mod (u64_max + 1)) 1 l) (u64_max + 1)). ulia.
Qed.
