(* ===== verification/Records.v ===== *)
(** * Records ([types.rs] and [segment.rs])

    The flag byte of a stored record and the materialized record a read returns;
    the frame codec, the segment reader, the dead-letter sink and the engine all
    speak of these. *)

From S2P Require Import Prelude.

(** ** [RecordFlags] *)

Definition COMPRESSED : Z := 1.
Definition HAS_KEY : Z := 2.
Definition HAS_XXH3 : Z := 4.
Definition HAS_SUBJECT : Z := 8.
Definition HAS_STREAM_TAG : Z := 16.
Definition ENCRYPTED : Z := 32.

Definition flags_contain (f other : Z) : bool := Z.land f other =? other.
Definition flags_with (f other : Z) : Z := Z.lor f other.
(** The codec clears bits by masking the raw byte. *)
Definition flags_without (f other : Z) : Z := Z.land f (Z.lxor other u8_max).

(** ** [OwnedRecord] *)

Record OwnedRecord := mk_record {
  r_offset : Z;
  r_seq : Z;
  r_timestamp_ms : Z;
  r_flags : Z;
  r_key : list Z;
  r_headers : list Z;
  r_payload : list Z;
  r_subject : list Z;
  r_stream_tag : list Z
}.
