(* ===== verification/Codec.v ===== *)
(** * The record frame ([codec.rs], [format.rs], [RecordFlags] of [types.rs])

    A frame is a 36-byte header, an optional stream tag or subject field, the
    body (key, headers, payload), an optional second checksum and an 8-byte
    trailer.  Encoding and decoding are inverse on the bytes, a decoder never
    reads out of range, a torn frame is told from a corrupt one, and the length
    can be learnt from the front of a frame alone.

    A length is a [nat] and compared through [Z.of_nat]; [usize] holds 64 bits,
    so the conversions from values below the 1 GiB ceiling do not fail.
    [debug_assert]s are compiled out of a release build. *)

From S2P Require Import Prelude Bytes Records.

(** ** Layout constants *)

Definition FORMAT_VERSION : Z := 1.
Definition RECORD_MAGIC : Z := 18754.
Definition RECORD_HEADER_LEN : nat := 36.
Definition RECORD_TRAILER_LEN : nat := 8.
Definition RECORD_XXH3_LEN : nat := 8.
Definition RECORD_SUBJECT_LEN_PREFIX : nat := 2.
Definition RECORD_SUBJECT_CRC_LEN : nat := 4.
Definition RECORD_STREAM_TAG_LEN_PREFIX : nat := 2.
Definition RECORD_STREAM_TAG_CRC_LEN : nat := 4.
Definition RECORD_HEADER_CRC_END : nat := 32.
Definition AEAD_TAG_LEN : nat := 16.
Definition MAX_RECORD_BYTES_CEILING : Z := 1073741824.
Definition XXH3_PAYLOAD_THRESHOLD : Z := 65536.

(** ** Flags *)

(** [if on { flags.with(bit) } else { from_bits(flags.bits() & !bit.bits()) }] *)
Definition flags_derive (f bit : Z) (on : bool) : Z :=
  if on then flags_with f bit else flags_without f bit.

(** ** Data *)

Record RecordView := mk_record_view {
  v_seq : Z;
  v_timestamp_ms : Z;
  v_flags : Z;
  v_key : list Z;
  v_headers : list Z;
  v_payload : list Z
}.

Record EncryptedRecordView := mk_encrypted_view {
  ev_seq : Z;
  ev_timestamp_ms : Z;
  ev_flags : Z;
  ev_key_len : Z;
  ev_hdr_len : Z;
  ev_payload_len : Z;
  ev_ciphertext : list Z;
  ev_tag : list Z
}.

Record BodyChecksums := mk_checksums {
  body_crc : Z;
  body_xxh3 : option Z
}.

Inductive EncodeError := EncodeTooLarge.

Inductive DecodeError :=
| Truncated
| BadMagic
| UnsupportedVersion (version : Z)
| BadHeaderCrc
| BadBodyCrc
| BadXxh3
| BadSubjectCrc
| BadStreamTagCrc
| BadLength
| TooLarge
| Encrypted.

(** The incremental interfaces of the two checksum crates: appending to a
    running CRC32C, and a hasher fed piece by piece. *)
Class Streaming `{Crc32c} `{Xxh3} := {
  crc32c_append : Z -> list Z -> Z;
  crc32c_append_spec : forall a b, crc32c_append (crc32c a) b = crc32c (a ++ b);
  xxh3_digest : list (list Z) -> Z;
  xxh3_digest_spec : forall ls, xxh3_digest ls = xxh3_64 (concat ls)
}.

Definition body_of (rec : RecordView) : list Z := v_key rec ++ v_headers rec ++ v_payload rec.

Definition wants_xxh3 (body_len : nat) : bool := XXH3_PAYLOAD_THRESHOLD <=? Z.of_nat body_len.

Section codec.
Context `{Crc32c} `{Xxh3}.

(** ** Encoding *)

(** [u32::try_from(len)] and [u16::try_from(len)] *)
Definition try_u32 (n : nat) : res Z EncodeError :=
  if Z.of_nat n <=? u32_max then Ok (Z.of_nat n) else Err EncodeTooLarge.
Definition try_u16 (n : nat) : res Z EncodeError :=
  if Z.of_nat n <=? u16_max then Ok (Z.of_nat n) else Err EncodeTooLarge.

(** Header bytes [0, 32), then the header CRC. *)
Definition header_prefix (flags seq timestamp_ms key_len hdr_len payload_len : Z) : list Z :=
  le_bytes 2 RECORD_MAGIC ++ [FORMAT_VERSION] ++ [flags] ++ le_bytes 8 seq ++ le_bytes 8 timestamp_ms ++
  le_bytes 4 key_len ++ le_bytes 4 hdr_len ++ le_bytes 4 payload_len.
Definition header_bytes (flags seq timestamp_ms key_len hdr_len payload_len : Z) : list Z :=
  let h := header_prefix flags seq timestamp_ms key_len hdr_len payload_len in
  h ++ le_bytes 4 (crc32c h).

(** The optional post-header field: length, bytes, CRC over both. *)
Definition slot_field (bytes : list Z) : list Z :=
  match bytes with
  | [] => []
  | _ =>
      let f := le_bytes 2 (Z.of_nat (length bytes)) ++ bytes in
      f ++ le_bytes 4 (crc32c f)
  end.

(** [encode_impl], with [out] and the number of bytes appended to it. *)
Definition encode_impl (rec : RecordView) (subject stream_tag : list Z) (precomputed : option BodyChecksums)
    (out : list Z) : res (list Z * nat) EncodeError :=
  let? key_len := try_u32 (length (v_key rec)) in
  let? hdr_len := try_u32 (length (v_headers rec)) in
  let? payload_len := try_u32 (length (v_payload rec)) in
  let has_stream_tag := negb (bool_decide (stream_tag = [])) in
  let? _ := try_u16 (length stream_tag) in
  let stream_tag_field :=
    if has_stream_tag
    then (RECORD_STREAM_TAG_LEN_PREFIX + length stream_tag + RECORD_STREAM_TAG_CRC_LEN)%nat else 0%nat in
  let has_subject := negb (bool_decide (subject = [])) in
  let? _ := try_u16 (length subject) in
  let subject_field :=
    if has_subject
    then (RECORD_SUBJECT_LEN_PREFIX + length subject + RECORD_SUBJECT_CRC_LEN)%nat else 0%nat in
  let body_len := (length (v_key rec) + length (v_headers rec) + length (v_payload rec))%nat in
  let has_xxh3 := wants_xxh3 body_len in
  let xxh3_field := if has_xxh3 then RECORD_XXH3_LEN else 0%nat in
  let total :=
    (RECORD_HEADER_LEN + stream_tag_field + subject_field + body_len + xxh3_field + RECORD_TRAILER_LEN)%nat in
  let? total_u32 := try_u32 total in
  fail? MAX_RECORD_BYTES_CEILING <? total_u32 with EncodeTooLarge in
  let flags := flags_derive (v_flags rec) HAS_KEY (negb (bool_decide (v_key rec = []))) in
  let flags := flags_derive flags HAS_XXH3 has_xxh3 in
  let flags := flags_derive flags HAS_SUBJECT has_subject in
  let flags := flags_derive flags HAS_STREAM_TAG has_stream_tag in
  let header := header_bytes flags (v_seq rec) (v_timestamp_ms rec) key_len hdr_len payload_len in
  let body := body_of rec in
  let checksums :=
    match precomputed with
    | Some c => c
    | None => mk_checksums (crc32c body) (if has_xxh3 then Some (xxh3_64 body) else None)
    end in
  let xxh3_bytes := if has_xxh3 then le_bytes 8 (default (xxh3_64 body) (body_xxh3 checksums)) else [] in
  Ok (out ++ header ++ slot_field stream_tag ++ slot_field subject ++ body ++ xxh3_bytes ++
        le_bytes 4 (body_crc checksums) ++ le_bytes 4 total_u32, total).

Definition encode (rec : RecordView) (out : list Z) := encode_impl rec [] [] None out.
Definition encode_with_stream_tag (rec : RecordView) (tag out : list Z) := encode_impl rec [] tag None out.
Definition encode_with_subject (rec : RecordView) (subject out : list Z) := encode_impl rec subject [] None out.
Definition encode_precomputed (rec : RecordView) (c : BodyChecksums) (out : list Z) :=
  encode_impl rec [] [] (Some c) out.
Definition encode_precomputed_with_stream_tag (rec : RecordView) (tag : list Z) (c : BodyChecksums) (out : list Z) :=
  encode_impl rec [] tag (Some c) out.
Definition encode_precomputed_with_subject (rec : RecordView) (subject : list Z) (c : BodyChecksums) (out : list Z) :=
  encode_impl rec subject [] (Some c) out.

(** [BodyChecksums::compute] *)
Definition compute_checksums `{!Streaming} (key headers payload : list Z) : BodyChecksums :=
  let body_len := (length key + length headers + length payload)%nat in
  let crc := crc32c key in
  let crc := crc32c_append crc headers in
  let crc := crc32c_append crc payload in
  mk_checksums crc (if wants_xxh3 body_len then Some (xxh3_digest [key; headers; payload]) else None).

(** [encode_encrypted] frames what the cipher produced. *)
Definition encode_encrypted (seq timestamp_ms extra_flags key_len hdr_len payload_len : Z)
    (ciphertext tag out : list Z) : res (list Z * nat) EncodeError :=
  let body_disk_len := (length ciphertext + AEAD_TAG_LEN)%nat in
  let has_xxh3 := wants_xxh3 body_disk_len in
  let xxh3_field := if has_xxh3 then RECORD_XXH3_LEN else 0%nat in
  let total := (RECORD_HEADER_LEN + body_disk_len + xxh3_field + RECORD_TRAILER_LEN)%nat in
  let? total_u32 := try_u32 total in
  fail? MAX_RECORD_BYTES_CEILING <? total_u32 with EncodeTooLarge in
  let flags := flags_with extra_flags ENCRYPTED in
  let flags := flags_derive flags HAS_KEY (negb (key_len =? 0)) in
  let flags := flags_derive flags HAS_XXH3 has_xxh3 in
  let flags := flags_without flags (Z.lor HAS_SUBJECT HAS_STREAM_TAG) in
  let header := header_bytes flags seq timestamp_ms key_len hdr_len payload_len in
  let body := ciphertext ++ tag in
  Ok (out ++ header ++ body ++ (if has_xxh3 then le_bytes 8 (xxh3_64 body) else []) ++
        le_bytes 4 (crc32c body) ++ le_bytes 4 total_u32, total).

(** ** Decoding *)

(** The checks every decoder starts with: length, magic, version, header CRC.
    The result is the trusted flags byte. *)
Definition validate_header (input : list Z) : res Z DecodeError :=
  fail? bool_decide (length input < RECORD_HEADER_LEN)%nat with Truncated in
  let? magic := or_panic (read_u16 input 0) in
  fail? negb (magic =? RECORD_MAGIC) with BadMagic in
  let? version := or_panic (read_u8 input 2) in
  fail? negb (version =? FORMAT_VERSION) with UnsupportedVersion version in
  let? stored := or_panic (read_u32 input 32) in
  let? covered := or_panic (slice input 0 RECORD_HEADER_CRC_END) in
  fail? negb (crc32c covered =? stored) with BadHeaderCrc in
  or_panic (read_u8 input 3).

(** The length prefix of the post-header slot, when its flag is set. *)
Definition slot_len (input : list Z) (pos : nat) (present : bool) : res nat DecodeError :=
  if present then
    fail? bool_decide (length input < pos + 2)%nat with Truncated in
    let? n := or_panic (read_u16 input pos) in
    Ok (Z.to_nat n)
  else Ok 0%nat.

(** [decoded_len] *)
Definition decoded_len (header : list Z) : res nat DecodeError :=
  let? flags := validate_header header in
  let encrypted := flags_contain flags ENCRYPTED in
  fail? encrypted && (flags_contain flags HAS_SUBJECT || flags_contain flags HAS_STREAM_TAG) with BadLength in
  let aead_tag_field := if encrypted then AEAD_TAG_LEN else 0%nat in
  fail? flags_contain flags HAS_STREAM_TAG && flags_contain flags HAS_SUBJECT with BadLength in
  let? tag_len := slot_len header RECORD_HEADER_LEN (flags_contain flags HAS_STREAM_TAG) in
  let stream_tag_field :=
    if flags_contain flags HAS_STREAM_TAG
    then (RECORD_STREAM_TAG_LEN_PREFIX + tag_len + RECORD_STREAM_TAG_CRC_LEN)%nat else 0%nat in
  let? subject_len := slot_len header RECORD_HEADER_LEN (flags_contain flags HAS_SUBJECT) in
  let subject_field :=
    if flags_contain flags HAS_SUBJECT
    then (RECORD_SUBJECT_LEN_PREFIX + subject_len + RECORD_SUBJECT_CRC_LEN)%nat else 0%nat in
  let xxh3_field := if flags_contain flags HAS_XXH3 then RECORD_XXH3_LEN else 0%nat in
  let? key_len := or_panic (read_u32 header 20) in
  let? hdr_len := or_panic (read_u32 header 24) in
  let? payload_len := or_panic (read_u32 header 28) in
  let total64 :=
    key_len + hdr_len + payload_len +
    Z.of_nat (RECORD_HEADER_LEN + stream_tag_field + subject_field + xxh3_field + aead_tag_field
              + RECORD_TRAILER_LEN) in
  fail? MAX_RECORD_BYTES_CEILING <? total64 with TooLarge in
  Ok (Z.to_nat total64).

(** The optional field itself: its CRC, then its bytes. *)
Definition slot_bytes (input : list Z) (pos len : nat) (present : bool) (bad : DecodeError)
    : res (list Z) DecodeError :=
  if present then
    let? field := or_panic (slice input pos (pos + (2 + len + 4))) in
    let? bytes := or_panic (slice field 2 (2 + len)) in
    let? stored := or_panic (read_u32 field (2 + len)) in
    let? covered := or_panic (slice field 0 (2 + len)) in
    fail? negb (crc32c covered =? stored) with bad in
    Ok bytes
  else Ok [].

(** [decode_inner]: the view, the subject, the stream tag and the bytes
    consumed. *)
Definition decode_inner (input : list Z) : res (RecordView * list Z * list Z * nat) DecodeError :=
  let? flags := validate_header input in
  fail? flags_contain flags ENCRYPTED with Encrypted in
  let has_stream_tag := flags_contain flags HAS_STREAM_TAG in
  let has_subject := flags_contain flags HAS_SUBJECT in
  fail? has_stream_tag && has_subject with BadLength in
  let? stream_tag_len := slot_len input RECORD_HEADER_LEN has_stream_tag in
  fail? has_stream_tag && (stream_tag_len =? 0)%nat with BadLength in
  let stream_tag_field :=
    if has_stream_tag
    then (RECORD_STREAM_TAG_LEN_PREFIX + stream_tag_len + RECORD_STREAM_TAG_CRC_LEN)%nat else 0%nat in
  let subject_off := (RECORD_HEADER_LEN + stream_tag_field)%nat in
  let? subject_len := slot_len input subject_off has_subject in
  fail? has_subject && (subject_len =? 0)%nat with BadLength in
  let subject_field :=
    if has_subject
    then (RECORD_SUBJECT_LEN_PREFIX + subject_len + RECORD_SUBJECT_CRC_LEN)%nat else 0%nat in
  let xxh3_field := if flags_contain flags HAS_XXH3 then RECORD_XXH3_LEN else 0%nat in
  let? key_len_u32 := or_panic (read_u32 input 20) in
  let? hdr_len_u32 := or_panic (read_u32 input 24) in
  let? payload_len_u32 := or_panic (read_u32 input 28) in
  let total64 :=
    key_len_u32 + hdr_len_u32 + payload_len_u32 +
    Z.of_nat (RECORD_HEADER_LEN + stream_tag_field + subject_field + xxh3_field + RECORD_TRAILER_LEN) in
  fail? MAX_RECORD_BYTES_CEILING <? total64 with TooLarge in
  let total := Z.to_nat total64 in
  fail? bool_decide (length input < total)%nat with Truncated in
  let key_len := Z.to_nat key_len_u32 in
  let hdr_len := Z.to_nat hdr_len_u32 in
  let body_len :=
    (total - RECORD_HEADER_LEN - stream_tag_field - subject_field - RECORD_TRAILER_LEN - xxh3_field)%nat in
  fail? negb (Bool.eqb (flags_contain flags HAS_KEY) (negb (key_len =? 0)%nat)) with BadLength in
  fail? negb (Bool.eqb (flags_contain flags HAS_XXH3) (wants_xxh3 body_len)) with BadLength in
  let? stream_tag := slot_bytes input RECORD_HEADER_LEN stream_tag_len has_stream_tag BadStreamTagCrc in
  let? subject := slot_bytes input subject_off subject_len has_subject BadSubjectCrc in
  let body_start := (RECORD_HEADER_LEN + stream_tag_field + subject_field)%nat in
  let? body := or_panic (slice input body_start (body_start + body_len)) in
  let? xxh3_bytes := or_panic (slice input (body_start + body_len) (body_start + body_len + xxh3_field)) in
  let? trailer := or_panic (slice input (total - RECORD_TRAILER_LEN) total) in
  let? stored_body_crc := or_panic (read_u32 trailer 0) in
  let? stored_total := or_panic (read_u32 trailer 4) in
  fail? negb (stored_total =? total64) with BadLength in
  fail? negb (crc32c body =? stored_body_crc) with BadBodyCrc in
  let? _ :=
    if flags_contain flags HAS_XXH3 then
      let? stored_xxh3 := or_panic (read_u64 xxh3_bytes 0) in
      fail? negb (xxh3_64 body =? stored_xxh3) with BadXxh3 in Ok tt
    else Ok tt in
  let? seq := or_panic (read_u64 input 4) in
  let? timestamp_ms := or_panic (read_u64 input 12) in
  let? key := or_panic (slice body 0 key_len) in
  let? headers := or_panic (slice body key_len (key_len + hdr_len)) in
  let? payload := or_panic (slice body (key_len + hdr_len) (length body)) in
  Ok (mk_record_view seq timestamp_ms flags key headers payload, subject, stream_tag, total).

Definition decode (input : list Z) : res (RecordView * nat) DecodeError :=
  let? (view, _, _, total) := decode_inner input in Ok (view, total).
Definition decode_with_subject (input : list Z) : res (RecordView * list Z * nat) DecodeError :=
  let? (view, subject, _, total) := decode_inner input in Ok (view, subject, total).
Definition decode_with_stream_tag (input : list Z) : res (RecordView * list Z * nat) DecodeError :=
  let? (view, _, tag, total) := decode_inner input in Ok (view, tag, total).

(** [decode_encrypted] *)
Definition decode_encrypted (input : list Z) : res (EncryptedRecordView * nat) DecodeError :=
  let? flags := validate_header input in
  fail? negb (flags_contain flags ENCRYPTED) || flags_contain flags HAS_SUBJECT ||
        flags_contain flags HAS_STREAM_TAG with BadLength in
  let? key_len_u32 := or_panic (read_u32 input 20) in
  let? hdr_len_u32 := or_panic (read_u32 input 24) in
  let? payload_len_u32 := or_panic (read_u32 input 28) in
  let plaintext_len64 := key_len_u32 + hdr_len_u32 + payload_len_u32 in
  let body_disk_len64 := plaintext_len64 + Z.of_nat AEAD_TAG_LEN in
  let has_xxh3 := XXH3_PAYLOAD_THRESHOLD <=? body_disk_len64 in
  fail? negb (Bool.eqb (flags_contain flags HAS_XXH3) has_xxh3) with BadLength in
  let xxh3_field := if has_xxh3 then RECORD_XXH3_LEN else 0%nat in
  let total64 := Z.of_nat RECORD_HEADER_LEN + body_disk_len64 + Z.of_nat (xxh3_field + RECORD_TRAILER_LEN) in
  fail? MAX_RECORD_BYTES_CEILING <? total64 with TooLarge in
  let total := Z.to_nat total64 in
  fail? bool_decide (length input < total)%nat with Truncated in
  fail? negb (Bool.eqb (flags_contain flags HAS_KEY) (negb (key_len_u32 =? 0))) with BadLength in
  let body_disk_len := Z.to_nat body_disk_len64 in
  let plaintext_len := Z.to_nat plaintext_len64 in
  let? body := or_panic (slice input RECORD_HEADER_LEN (RECORD_HEADER_LEN + body_disk_len)) in
  let? xxh3_bytes := or_panic (slice input (RECORD_HEADER_LEN + body_disk_len) (total - RECORD_TRAILER_LEN)) in
  let? trailer := or_panic (slice input (total - RECORD_TRAILER_LEN) total) in
  let? stored_body_crc := or_panic (read_u32 trailer 0) in
  let? stored_total := or_panic (read_u32 trailer 4) in
  fail? negb (stored_total =? total64) with BadLength in
  fail? negb (crc32c body =? stored_body_crc) with BadBodyCrc in
  let? _ :=
    if has_xxh3 then
      let? stored_xxh3 := or_panic (read_u64 xxh3_bytes 0) in
      fail? negb (xxh3_64 body =? stored_xxh3) with BadXxh3 in Ok tt
    else Ok tt in
  let? seq := or_panic (read_u64 input 4) in
  let? timestamp_ms := or_panic (read_u64 input 12) in
  let? ciphertext := or_panic (slice body 0 plaintext_len) in
  let? tag := or_panic (slice body plaintext_len (length body)) in
  Ok (mk_encrypted_view seq timestamp_ms flags key_len_u32 hdr_len_u32 payload_len_u32 ciphertext tag, total).

(** ** Frames

    The bytes of a record whose flags agree with its fields. *)

Definition slot_size (bytes : list Z) : nat :=
  match bytes with [] => 0 | _ => 2 + length bytes + 4 end%nat.

Definition xxh3_size (rec : RecordView) : nat :=
  if wants_xxh3 (length (body_of rec)) then RECORD_XXH3_LEN else 0%nat.

Definition xxh3_bytes_of (body : list Z) : list Z :=
  if wants_xxh3 (length body) then le_bytes 8 (xxh3_64 body) else [].

Definition frame_len (rec : RecordView) (subject tag : list Z) : nat :=
  (RECORD_HEADER_LEN + slot_size tag + slot_size subject + length (body_of rec) + xxh3_size rec
   + RECORD_TRAILER_LEN)%nat.

Definition view_header (rec : RecordView) : list Z :=
  header_bytes (v_flags rec) (v_seq rec) (v_timestamp_ms rec) (Z.of_nat (length (v_key rec)))
    (Z.of_nat (length (v_headers rec))) (Z.of_nat (length (v_payload rec))).

Definition frame (rec : RecordView) (subject tag : list Z) : list Z :=
  view_header rec ++ slot_field tag ++ slot_field subject ++ body_of rec ++
  xxh3_bytes_of (body_of rec) ++ le_bytes 4 (crc32c (body_of rec)) ++
  le_bytes 4 (Z.of_nat (frame_len rec subject tag)).

Definition nonempty (l : list Z) : bool := match l with [] => false | _ => true end.

(** The derived flags agree with the fields, and everything fits. *)
Record frame_ok (rec : RecordView) (subject tag : list Z) : Prop := {
  fo_flags : is_u8 (v_flags rec);
  fo_seq : is_u64 (v_seq rec);
  fo_time : is_u64 (v_timestamp_ms rec);
  fo_body : bytes_ok (body_of rec);
  fo_slots : bytes_ok subject /\ bytes_ok tag;
  fo_key : flags_contain (v_flags rec) HAS_KEY = nonempty (v_key rec);
  fo_xxh3 : flags_contain (v_flags rec) HAS_XXH3 = wants_xxh3 (length (body_of rec));
  fo_subject : flags_contain (v_flags rec) HAS_SUBJECT = nonempty subject;
  fo_tag : flags_contain (v_flags rec) HAS_STREAM_TAG = nonempty tag;
  fo_plain : flags_contain (v_flags rec) ENCRYPTED = false;
  fo_one : subject = [] \/ tag = [];
  fo_lens : Z.of_nat (length subject) <= u16_max /\ Z.of_nat (length tag) <= u16_max;
  fo_size : Z.of_nat (frame_len rec subject tag) <= MAX_RECORD_BYTES_CEILING
}.

(** Splitting a buffer at the start of a chunk. *)
Ltac drop_chunks :=
  repeat (rewrite drop_app_ge by (rewrite ?length_le_bytes; cbn [length]; lia);
          rewrite ?length_le_bytes; cbn [length Nat.sub]);
  rewrite ?drop_0.

Lemma length_header_prefix f s t k h p : length (header_prefix f s t k h p) = 32%nat.
Proof. unfold header_prefix. rewrite !length_app, !length_le_bytes. reflexivity. Qed.

Lemma length_header_bytes f s t k h p : length (header_bytes f s t k h p) = 36%nat.
Proof. unfold header_bytes. by rewrite length_app, length_header_prefix, length_le_bytes. Qed.

Lemma length_slot_field b : length (slot_field b) = slot_size b.
Proof. destruct b as [|z b]; [done|]. unfold slot_field, slot_size. rewrite !length_app, !length_le_bytes. simpl. lia. Qed.

Lemma length_frame rec subject tag : length (frame rec subject tag) = frame_len rec subject tag.
Proof.
  unfold frame, frame_len, view_header, xxh3_size, xxh3_bytes_of. rewrite !length_app, length_header_bytes, !length_slot_field, !length_le_bytes.
  destruct (wants_xxh3 _); rewrite ?length_le_bytes; cbn [length]; unfold RECORD_HEADER_LEN, RECORD_XXH3_LEN, RECORD_TRAILER_LEN; lia.
Qed.

(** *** The header *)

Section header.
Context (f s t k h p : Z) (rest : list Z).
Let input := header_bytes f s t k h p ++ rest.

Lemma header_read_at n pos b tl :
  (0 < n)%nat -> drop pos (header_prefix f s t k h p) = b ++ tl -> length b = n -> (pos <= 32)%nat ->
  read_le n input pos = Some (le_val b).
Proof.
  intros Hn Hd Hb Hp. eapply read_le_at; [done| |done]. unfold input, header_bytes.
  rewrite <- !app_assoc, drop_app_le by (rewrite length_header_prefix; lia).
  rewrite Hd, <- !app_assoc. reflexivity.
Qed.

Lemma header_fields :
  is_u64 s -> is_u64 t -> is_u32 k -> is_u32 h -> is_u32 p ->
  read_u64 input 4 = Some s /\ read_u64 input 12 = Some t /\ read_u32 input 20 = Some k /\
  read_u32 input 24 = Some h /\ read_u32 input 28 = Some p.
Proof.
  intros Hs Ht Hk Hh Hp. unfold read_u64, read_u32. repeat split.
  - rewrite (header_read_at 8 4 (le_bytes 8 s)
      (le_bytes 8 t ++ le_bytes 4 k ++ le_bytes 4 h ++ le_bytes 4 p)); try lia;
      [by rewrite le_val_le_bytes by eauto with bytes|unfold header_prefix; by drop_chunks|apply length_le_bytes].
  - rewrite (header_read_at 8 12 (le_bytes 8 t) (le_bytes 4 k ++ le_bytes 4 h ++ le_bytes 4 p)); try lia;
      [by rewrite le_val_le_bytes by eauto with bytes|unfold header_prefix; by drop_chunks|apply length_le_bytes].
  - rewrite (header_read_at 4 20 (le_bytes 4 k) (le_bytes 4 h ++ le_bytes 4 p)); try lia;
      [by rewrite le_val_le_bytes by eauto with bytes|unfold header_prefix; by drop_chunks|apply length_le_bytes].
  - rewrite (header_read_at 4 24 (le_bytes 4 h) (le_bytes 4 p)); try lia;
      [by rewrite le_val_le_bytes by eauto with bytes|unfold header_prefix; by drop_chunks|apply length_le_bytes].
  - rewrite (header_read_at 4 28 (le_bytes 4 p) []); try lia;
      [by rewrite le_val_le_bytes by eauto with bytes|unfold header_prefix; rewrite app_nil_r; by drop_chunks|apply length_le_bytes].
Qed.

Lemma validate_header_bytes : validate_header input = Ok f.
Proof.
  unfold validate_header. rewrite bool_decide_eq_false_2
    by (unfold input; rewrite length_app, length_header_bytes; unfold RECORD_HEADER_LEN; lia).
  unfold read_u16. rewrite (header_read_at 2 0 (le_bytes 2 RECORD_MAGIC)
    ([FORMAT_VERSION] ++ [f] ++ le_bytes 8 s ++ le_bytes 8 t ++ le_bytes 4 k ++ le_bytes 4 h ++ le_bytes 4 p));
    [|lia|reflexivity|apply length_le_bytes|lia].
  rewrite le_val_le_bytes by (unfold RECORD_MAGIC; simpl; lia). cbn [or_panic res_bind]. rewrite Z.eqb_refl. cbn [negb].
  assert (H2 : read_u8 input 2 = Some FORMAT_VERSION /\ read_u8 input 3 = Some f).
  { unfold read_u8, input, header_bytes, header_prefix. rewrite <- !app_assoc.
    split; (rewrite lookup_app_r by (rewrite length_le_bytes; lia)); by rewrite length_le_bytes. }
  destruct H2 as [-> ->]. cbn [or_panic res_bind]. rewrite Z.eqb_refl. cbn [negb].
  unfold read_u32, input, header_bytes. rewrite <- app_assoc.
  rewrite read_le_mid by (rewrite ?length_header_prefix, ?length_le_bytes; done).
  rewrite le_val_le_bytes by eauto with bytes. cbn [or_panic res_bind].
  rewrite (slice_at _ 0 RECORD_HEADER_CRC_END (header_prefix f s t k h p) (le_bytes 4 (crc32c (header_prefix f s t k h p)) ++ rest)).
  - cbn [or_panic res_bind]. by rewrite Z.eqb_refl.
  - lia.
  - done.
  - by rewrite length_header_prefix.
Qed.
End header.

(** Consecutive chunks of a buffer. *)
Lemma chunk_cons n m p q (l : list Z) :
  (p + n = q)%nat -> take n (drop p l) ++ take m (drop q l) = take (n + m) (drop p l).
Proof. intros <-. by rewrite <- drop_drop, take_take_drop. Qed.

Lemma read_u8_chunk (l : list Z) p x : read_u8 l p = Some x -> [x] = take 1 (drop p l).
Proof. intros Hx. by rewrite (drop_cons_lookup l p x Hx). Qed.

Lemma validate_header_inv input f :
  bytes_ok input -> validate_header input = Ok f ->
  exists s t k h p, is_u8 f /\ is_u64 s /\ is_u64 t /\ is_u32 k /\ is_u32 h /\ is_u32 p /\
    input = header_bytes f s t k h p ++ drop 36 input.
Proof.
  intros Hb Hv. unfold validate_header in Hv. inv_ok Hv. apply or_panic_ok in Hv. bool_to_prop.
  apply bool_decide_eq_false in G. unfold RECORD_HEADER_LEN in G.
  assert (Hl : (36 <= length input)%nat) by lia.
  assert (R : forall n pos, (pos + n <= 36)%nat -> exists z, read_le n input pos = Some z).
  { intros n pos Hp. apply read_le_is_Some. lia. }
  destruct (R 8%nat 4%nat ltac:(lia)) as [s Hs], (R 8%nat 12%nat ltac:(lia)) as [t Ht],
    (R 4%nat 20%nat ltac:(lia)) as [k Hk], (R 4%nat 24%nat ltac:(lia)) as [h Hh], (R 4%nat 28%nat ltac:(lia)) as [p Hp].
  exists s, t, k, h, p.
  split; [exact (proj1 (Forall_forall _ _) Hb f (list_elem_of_lookup_2 _ _ _ Hv))|].
  split; [exact (read_u64_bounds _ _ _ Hb Hs)|]. split; [exact (read_u64_bounds _ _ _ Hb Ht)|].
  split; [exact (read_u32_bounds _ _ _ Hb Hk)|]. split; [exact (read_u32_bounds _ _ _ Hb Hh)|].
  split; [exact (read_u32_bounds _ _ _ Hb Hp)|].
  assert (Hpre : header_prefix f s t k h p = take 32 input).
  { unfold header_prefix. subst x x0.
    rewrite (read_le_bytes 2 input 0 RECORD_MAGIC), (read_le_bytes 8 input 4 s), (read_le_bytes 8 input 12 t),
      (read_le_bytes 4 input 20 k), (read_le_bytes 4 input 24 h), (read_le_bytes 4 input 28 p) by done.
    rewrite (read_u8_chunk input 2 FORMAT_VERSION), (read_u8_chunk input 3 f) by done.
    rewrite (chunk_cons 4 4 24 28), (chunk_cons 4 _ 20 24), (chunk_cons 8 _ 12 20), (chunk_cons 8 _ 4 12),
      (chunk_cons 1 _ 3 4), (chunk_cons 1 _ 2 3), (chunk_cons 2 _ 0 2) by reflexivity. done. }
  unfold header_bytes. rewrite Hpre.
  rewrite slice_0 in E2 by (unfold RECORD_HEADER_CRC_END; lia). injection E2 as <-.
  change RECORD_HEADER_CRC_END with 32%nat in G2. rewrite G2, (read_le_bytes 4 input 32 x1) by done.
  change (take 32 input) with (take 32 (drop 0 input)). rewrite (chunk_cons 32 4 0 32), drop_0 by reflexivity. by rewrite take_drop.
Qed.

(** *** The optional field *)

Lemma slot_len_at pre b rest pos present :
  length pre = pos -> present = nonempty b -> Z.of_nat (length b) <= u16_max ->
  slot_len (pre ++ slot_field b ++ rest) pos present = Ok (length b).
Proof.
  intros <- -> Hb. destruct b as [|z b]; [done|]. cbn [nonempty slot_len]. unfold slot_field.
  rewrite bool_decide_eq_false_2 by (rewrite !length_app, length_le_bytes; lia).
  unfold read_u16. rewrite <- !app_assoc, read_le_mid by (rewrite ?length_le_bytes; done).
  rewrite le_val_le_bytes by (apply u16_pow; ulia). cbn [or_panic res_bind]. by rewrite Nat2Z.id.
Qed.

Lemma slot_bytes_at pre b rest pos present bad :
  length pre = pos -> present = nonempty b ->
  slot_bytes (pre ++ slot_field b ++ rest) pos (length b) present bad = Ok b.
Proof.
  intros <- ->. destruct b as [|z b]; [done|]. cbn [nonempty slot_bytes].
  set (c := z :: b). pose proof (length_slot_field c) as Hs. unfold slot_size in Hs. cbn [c] in Hs. fold c in Hs.
  rewrite (slice_at _ _ _ (slot_field c) rest); [|rewrite length_app; lia|apply drop_app_length|lia].
  cbn [or_panic res_bind]. unfold slot_field at 1 2 3. cbn [c]. fold c.
  set (fl := le_bytes 2 (Z.of_nat (length c)) ++ c).
  assert (Hfl : length fl = (2 + length c)%nat) by (unfold fl; by rewrite length_app, length_le_bytes).
  rewrite (slice_at _ 2 _ c (le_bytes 4 (crc32c fl))).
  2: rewrite length_app; lia.
  2: unfold fl; rewrite <- app_assoc, drop_app_ge by (rewrite length_le_bytes; lia); by rewrite length_le_bytes.
  2: lia.
  cbn [or_panic res_bind]. unfold read_u32.
  rewrite (read_le_at 4 _ _ (le_bytes 4 (crc32c fl)) []); [|lia| |apply length_le_bytes].
  2: rewrite app_nil_r, <- Hfl; apply drop_app_length.
  cbn [or_panic res_bind]. rewrite (slice_at _ 0 _ fl (le_bytes 4 (crc32c fl))); [|lia|done|lia].
  cbn [or_panic res_bind]. rewrite le_val_le_bytes by eauto with bytes. by rewrite Z.eqb_refl.
Qed.

Lemma slot_inv input pos present n bad b :
  bytes_ok input -> slot_len input pos present = Ok n -> (present && (n =? 0)%nat) = false ->
  slot_bytes input pos n present bad = Ok b ->
  present = nonempty b /\ length b = n /\ Z.of_nat n <= u16_max /\ bytes_ok b /\
  drop pos input = slot_field b ++ drop (pos + slot_size b) input.
Proof.
  intros Hb Hn Hz Hs. destruct present.
  2: { injection Hn as <-. injection Hs as <-. cbn [slot_field slot_size app nonempty]. rewrite Nat.add_0_r.
       repeat split; try ulia. constructor. }
  unfold slot_len in Hn. inv_ok Hn. injection Hn as <-. unfold slot_bytes in Hs. inv_ok Hs. injection Hs as <-.
  cbn [andb] in Hz. apply Nat.eqb_neq in Hz. bool_to_prop. apply bool_decide_eq_false in G.
  pose proof (read_u16_bounds _ _ _ Hb E) as Hx. set (m := Z.to_nat x) in *.
  apply slice_inv in E0 as [Hin ->], E1 as [_ ->], E3 as [_ ->].
  replace (pos + (2 + m + 4) - pos)%nat with (2 + m + 4)%nat in * by lia.
  set (fd := take (2 + m + 4) (drop pos input)) in *.
  assert (Hfd : length fd = (2 + m + 4)%nat) by (unfold fd; rewrite length_take, length_drop; lia).
  assert (Hfb : bytes_ok fd) by (unfold fd; by apply Forall_take_drop).
  replace (2 + m - 2)%nat with m in * by lia. rewrite drop_0, Nat.sub_0_r in *.
  set (b := take m (drop 2 fd)).
  assert (Hlb : length b = m) by (unfold b; rewrite length_take, length_drop; lia).
  assert (Hbz : b <> []) by (intros Hb0; rewrite Hb0 in Hlb; simpl in Hlb; lia).
  split; [by destruct b|]. split; [done|]. split; [unfold m; ulia|]. split; [unfold b; by apply Forall_take_drop|].
  assert (Hsz : slot_size b = (2 + m + 4)%nat) by (unfold slot_size; destruct b; [done|lia]).
  rewrite Hsz, <- (take_drop_at input pos (2 + m + 4)). fold fd. f_equal.
  assert (H2 : le_bytes 2 (Z.of_nat (length b)) ++ b = take (2 + m) fd).
  { rewrite Hlb. unfold m. rewrite Z2Nat.id by ulia. rewrite (read_le_bytes 2 input pos x) by done.
    unfold b. rewrite <- take_take_drop. f_equal. unfold fd. rewrite take_take. by rewrite Nat.min_l by lia. }
  assert (Hsf : slot_field b = (le_bytes 2 (Z.of_nat (length b)) ++ b) ++
      le_bytes 4 (crc32c (le_bytes 2 (Z.of_nat (length b)) ++ b))) by (unfold slot_field; by destruct b).
  rewrite Hsf, H2, G0, (read_le_bytes 4 fd (2 + m) x2) by done.
  rewrite take_take_drop. symmetry. apply take_ge. lia.
Qed.

(** *** Whole frames *)

Lemma slot_size_if b : (if nonempty b then 2 + length b + 4 else 0)%nat = slot_size b.
Proof. by destruct b. Qed.

Lemma nonempty_length b : nonempty b && (length b =? 0)%nat = false.
Proof. by destruct b. Qed.

Lemma nonempty_not_both a b : a = [] \/ b = [] -> nonempty b && nonempty a = false.
Proof. intros [-> | ->]; [apply andb_false_r|done]. Qed.

Lemma body_lens rec :
  length (body_of rec) = (length (v_key rec) + length (v_headers rec) + length (v_payload rec))%nat.
Proof. unfold body_of. rewrite !length_app. lia. Qed.

(** The sum the decoders compute. *)
Lemma frame_total rec subject tag :
  Z.of_nat (length (v_key rec)) + Z.of_nat (length (v_headers rec)) + Z.of_nat (length (v_payload rec)) +
    Z.of_nat (RECORD_HEADER_LEN + slot_size tag + slot_size subject + xxh3_size rec + RECORD_TRAILER_LEN) =
  Z.of_nat (frame_len rec subject tag).
Proof. unfold frame_len. rewrite body_lens. lia. Qed.

Lemma frame_fields_u32 rec subject tag :
  frame_ok rec subject tag ->
  is_u32 (Z.of_nat (length (v_key rec))) /\ is_u32 (Z.of_nat (length (v_headers rec))) /\
  is_u32 (Z.of_nat (length (v_payload rec))) /\ is_u32 (Z.of_nat (frame_len rec subject tag)).
Proof.
  intros Hok. pose proof (fo_size _ _ _ Hok) as Hs. unfold MAX_RECORD_BYTES_CEILING in Hs.
  pose proof (frame_total rec subject tag). ulia.
Qed.

(** Everything the decoder does before it looks past the post-header slot, on
    an input that starts like a frame. *)
Lemma decode_front rec subject tag rest :
  frame_ok rec subject tag ->
  let input := view_header rec ++ slot_field tag ++ slot_field subject ++ rest in
  validate_header input = Ok (v_flags rec) /\
  slot_len input RECORD_HEADER_LEN (nonempty tag) = Ok (length tag) /\
  slot_len input (RECORD_HEADER_LEN + slot_size tag) (nonempty subject) = Ok (length subject) /\
  (forall bad, slot_bytes input RECORD_HEADER_LEN (length tag) (nonempty tag) bad = Ok tag) /\
  (forall bad, slot_bytes input (RECORD_HEADER_LEN + slot_size tag) (length subject) (nonempty subject) bad = Ok subject) /\
  read_u32 input 20 = Some (Z.of_nat (length (v_key rec))) /\
  read_u32 input 24 = Some (Z.of_nat (length (v_headers rec))) /\
  read_u32 input 28 = Some (Z.of_nat (length (v_payload rec))) /\
  read_u64 input 4 = Some (v_seq rec) /\ read_u64 input 12 = Some (v_timestamp_ms rec).
Proof.
  intros Hok input. destruct (frame_fields_u32 rec subject tag Hok) as (Hk & Hh & Hp & _).
  pose proof (fo_lens _ _ _ Hok) as [Hls Hlt].
  assert (Hh36 : length (view_header rec) = RECORD_HEADER_LEN) by apply length_header_bytes.
  assert (Hpre : length (view_header rec ++ slot_field tag) = (RECORD_HEADER_LEN + slot_size tag)%nat)
    by (by rewrite length_app, Hh36, length_slot_field).
  split; [apply validate_header_bytes|]. split; [by apply slot_len_at|].
  split; [unfold input; rewrite app_assoc; by apply slot_len_at|].
  split; [intros bad; by apply slot_bytes_at|].
  split; [intros bad; unfold input; rewrite app_assoc; by apply slot_bytes_at|].
  destruct (header_fields (v_flags rec) (v_seq rec) (v_timestamp_ms rec) _ _ _
    (slot_field tag ++ slot_field subject ++ rest) (fo_seq _ _ _ Hok) (fo_time _ _ _ Hok) Hk Hh Hp)
    as (H4 & H12 & H20 & H24 & H28). done.
Qed.

Lemma xxh3_size_if rec subject tag :
  frame_ok rec subject tag ->
  (if flags_contain (v_flags rec) HAS_XXH3 then RECORD_XXH3_LEN else 0%nat) = xxh3_size rec.
Proof. intros Hok. unfold xxh3_size. by rewrite (fo_xxh3 _ _ _ Hok). Qed.

(** The body, its xxh3 and the trailer, in a buffer that holds them. *)
Lemma tail_slices input start body xx total rest :
  is_u32 total ->
  drop start input = body ++ xx ++ (le_bytes 4 (crc32c body) ++ le_bytes 4 total) ++ rest ->
  let fin := (start + length body + length xx + RECORD_TRAILER_LEN)%nat in
  slice input start (start + length body) = Some body /\
  slice input (start + length body) (start + length body + length xx) = Some xx /\
  slice input (fin - RECORD_TRAILER_LEN) fin = Some (le_bytes 4 (crc32c body) ++ le_bytes 4 total) /\
  read_u32 (le_bytes 4 (crc32c body) ++ le_bytes 4 total) 0 = Some (crc32c body) /\
  read_u32 (le_bytes 4 (crc32c body) ++ le_bytes 4 total) 4 = Some total.
Proof.
  intros Hu Hd fin. set (tr := le_bytes 4 (crc32c body) ++ le_bytes 4 total) in *.
  assert (Htr : length tr = RECORD_TRAILER_LEN) by (unfold tr; by rewrite length_app, !length_le_bytes).
  assert (Hl : (length input - start = length body + length xx + 8 + length rest)%nat).
  { rewrite <- length_drop, Hd, !length_app, Htr. unfold RECORD_TRAILER_LEN. lia. }
  unfold fin, RECORD_TRAILER_LEN in *.
  assert (Hxd : drop (start + length body) input = xx ++ tr ++ rest)
    by (rewrite <- drop_drop, Hd; apply drop_app_length).
  split; [apply (slice_at _ _ _ _ (xx ++ tr ++ rest)); (done || lia)|].
  split; [apply (slice_at _ _ _ _ (tr ++ rest)); (done || lia)|].
  split; [apply (slice_at _ _ _ _ rest); [lia| |lia]|].
  { rewrite Nat.add_sub, <- drop_drop, Hxd. apply drop_app_length. }
  unfold tr, read_u32. split; [apply read_le_head; eauto with bytes|].
  rewrite (read_le_at 4 _ 4 (le_bytes 4 total) []);
    [|lia|rewrite app_nil_r; apply drop_app_length'; by rewrite length_le_bytes|apply length_le_bytes].
  by rewrite le_val_le_bytes by eauto with bytes.
Qed.

Lemma body_slices rec :
  let body := body_of rec in
  let k := length (v_key rec) in
  let h := length (v_headers rec) in
  slice body 0 k = Some (v_key rec) /\ slice body k (k + h) = Some (v_headers rec) /\
  slice body (k + h) (length body) = Some (v_payload rec).
Proof.
  cbv zeta. rewrite body_lens.
  split; [apply (slice_at _ _ _ _ (v_headers rec ++ v_payload rec)); (done || rewrite ?body_lens; lia)|].
  split; [apply (slice_at _ _ _ _ (v_payload rec)); [rewrite body_lens; lia|apply drop_app_length|lia]|].
  apply (slice_at _ _ _ _ []); [rewrite body_lens; lia| |lia].
  unfold body_of. rewrite app_nil_r, <- drop_drop, drop_app_length. apply drop_app_length.
Qed.

Lemma xxh3_check body :
  (if wants_xxh3 (length body) then
      let? stored_xxh3 := or_panic (read_u64 (xxh3_bytes_of body) 0) in
      fail? negb (xxh3_64 body =? stored_xxh3) with BadXxh3 in Ok tt else Ok tt) = Ok tt.
Proof.
  unfold xxh3_bytes_of. destruct (wants_xxh3 _); [|done]. rewrite <- (app_nil_r (le_bytes 8 _)). unfold read_u64.
  rewrite read_le_head by eauto with bytes. cbn [or_panic res_bind]. by rewrite Z.eqb_refl.
Qed.

Lemma length_xxh3_bytes_of body :
  length (xxh3_bytes_of body) = if wants_xxh3 (length body) then RECORD_XXH3_LEN else 0%nat.
Proof. unfold xxh3_bytes_of. destruct (wants_xxh3 _); [apply length_le_bytes|done]. Qed.

Lemma length_xxh3_bytes rec : length (xxh3_bytes_of (body_of rec)) = xxh3_size rec.
Proof. apply length_xxh3_bytes_of. Qed.

Lemma frame_start rec subject tag rest :
  drop (RECORD_HEADER_LEN + slot_size tag + slot_size subject) (frame rec subject tag ++ rest) =
  body_of rec ++ xxh3_bytes_of (body_of rec) ++
    (le_bytes 4 (crc32c (body_of rec)) ++ le_bytes 4 (Z.of_nat (frame_len rec subject tag))) ++ rest.
Proof.
  unfold frame. rewrite <- !app_assoc. rewrite <- !drop_drop.
  rewrite (drop_app_length' (view_header rec)) by (symmetry; apply length_header_bytes).
  rewrite (drop_app_length' (slot_field tag)) by (symmetry; apply length_slot_field).
  apply drop_app_length'. symmetry. apply length_slot_field.
Qed.

Lemma decode_frame rec subject tag rest :
  frame_ok rec subject tag ->
  decode_inner (frame rec subject tag ++ rest) = Ok (rec, subject, tag, frame_len rec subject tag).
Proof.
  intros Hok. destruct (frame_fields_u32 rec subject tag Hok) as (_ & _ & _ & Hu).
  destruct (tail_slices _ _ _ _ _ _ Hu (frame_start rec subject tag rest)) as (Sb & Sx & St & R0 & R4).
  rewrite length_xxh3_bytes in Sx, St.
  assert (Hlen : length (frame rec subject tag ++ rest) = (frame_len rec subject tag + length rest)%nat)
    by (by rewrite length_app, length_frame).
  destruct (decode_front rec subject tag (body_of rec ++ xxh3_bytes_of (body_of rec) ++
    (le_bytes 4 (crc32c (body_of rec)) ++ le_bytes 4 (Z.of_nat (frame_len rec subject tag))) ++ rest) Hok)
    as (Hv & Hlt & Hls & Hbt & Hbs & H20 & H24 & H28 & H4 & H12).
  replace (view_header rec ++ slot_field tag ++ slot_field subject ++ body_of rec ++ _) with
    (frame rec subject tag ++ rest) in * by (unfold frame; by rewrite <- !app_assoc).
  set (input := frame rec subject tag ++ rest) in *.
  unfold decode_inner. rewrite Hv. cbn [res_bind].
  rewrite (fo_plain _ _ _ Hok), (fo_tag _ _ _ Hok), (fo_subject _ _ _ Hok), (nonempty_not_both _ _ (fo_one _ _ _ Hok)).
  rewrite Hlt. cbn [res_bind]. rewrite nonempty_length.
  unfold RECORD_STREAM_TAG_LEN_PREFIX, RECORD_STREAM_TAG_CRC_LEN, RECORD_SUBJECT_LEN_PREFIX, RECORD_SUBJECT_CRC_LEN.
  rewrite slot_size_if, Hls. cbn [res_bind]. rewrite nonempty_length, slot_size_if, H20, H24, H28. cbn [or_panic res_bind].
  rewrite (xxh3_size_if rec subject tag Hok), frame_total.
  rewrite (proj2 (Z.ltb_ge _ _)) by apply Hok. rewrite !Nat2Z.id, bool_decide_eq_false_2 by lia.
  rewrite (fo_key _ _ _ Hok), (fo_xxh3 _ _ _ Hok).
  assert (Hkey : nonempty (v_key rec) = negb (length (v_key rec) =? 0)%nat) by (by destruct (v_key rec)).
  rewrite <- Hkey, eqb_reflx. cbn [negb].
  replace (frame_len rec subject tag - RECORD_HEADER_LEN - slot_size tag - slot_size subject - RECORD_TRAILER_LEN
    - xxh3_size rec)%nat with (length (body_of rec)) by (unfold frame_len; lia).
  rewrite eqb_reflx, Hbt, Hbs, Sb, Sx. unfold frame_len at 1 2. cbn [negb or_panic res_bind].
  rewrite St. cbn [or_panic res_bind]. rewrite R0, R4. cbn [or_panic res_bind]. rewrite !Z.eqb_refl, xxh3_check, H4, H12.
  cbn [negb or_panic res_bind]. destruct (body_slices rec) as (-> & -> & ->). cbn [or_panic res_bind]. by destruct rec.
Qed.

(** Reading the tail back: the bytes between the slot and the end of the frame. *)
Lemma tail_inv input start blen xlen total body xx tr :
  bytes_ok input ->
  slice input start (start + blen) = Some body ->
  slice input (start + blen) (start + blen + xlen) = Some xx ->
  slice input (start + blen + xlen) (start + blen + xlen + 8) = Some tr ->
  read_u32 tr 0 = Some (crc32c body) -> read_u32 tr 4 = Some total ->
  length body = blen /\ length xx = xlen /\ bytes_ok body /\ bytes_ok xx /\
  drop start input = body ++ xx ++ le_bytes 4 (crc32c body) ++ le_bytes 4 total ++
    drop (start + blen + xlen + 8) input.
Proof.
  intros Hb Eb Ex Et R0 R4. apply slice_inv in Eb as [Hib Eb], Ex as [Hix Ex], Et as [Hit Et].
  rewrite Nat.add_comm, Nat.add_sub in Eb. rewrite Nat.add_comm, Nat.add_sub in Ex.
  rewrite (Nat.add_comm _ 8), Nat.add_sub in Et.
  assert (Htb : bytes_ok tr) by (subst tr; by apply Forall_take_drop).
  assert (Htl : length tr = 8%nat) by (subst tr; rewrite length_take, length_drop; lia).
  assert (Htr : le_bytes 4 (crc32c body) ++ le_bytes 4 total = tr).
  { rewrite (read_le_bytes 4 tr 0 (crc32c body)), (read_le_bytes 4 tr 4 total) by done.
    rewrite (chunk_cons 4 4 0 4) by done. rewrite drop_0. apply take_ge. lia. }
  rewrite (app_assoc (le_bytes 4 _)), Htr.
  split; [subst body; rewrite length_take, length_drop; lia|]. split; [subst xx; rewrite length_take, length_drop; lia|].
  split; [subst body; by apply Forall_take_drop|]. split; [subst xx; by apply Forall_take_drop|].
  rewrite <- (take_drop_at input start blen), <- Eb. f_equal.
  rewrite <- (take_drop_at input (start + blen) xlen), <- Ex. f_equal.
  rewrite <- (take_drop_at input (start + blen + xlen) 8), <- Et. done.
Qed.

Lemma xxh3_check_inv (flag : bool) xx body :
  bytes_ok xx -> length xx = (if flag then RECORD_XXH3_LEN else 0%nat) -> flag = wants_xxh3 (length body) ->
  (if flag then
      let? stored_xxh3 := or_panic (read_u64 xx 0) in
      fail? negb (xxh3_64 body =? stored_xxh3) with BadXxh3 in Ok tt else Ok tt) = Ok tt ->
  xx = xxh3_bytes_of body.
Proof.
  intros Hb Hl Hf Hc. unfold xxh3_bytes_of. rewrite <- Hf. destruct flag.
  - inv_ok Hc. bool_to_prop. rewrite G, (read_le_bytes 8 xx 0 x) by done. rewrite drop_0. symmetry. apply take_ge. by rewrite Hl.
  - by apply nil_length_inv.
Qed.

Lemma body_of_slices body k h key headers payload s t f :
  slice body 0 k = Some key -> slice body k (k + h) = Some headers -> slice body (k + h) (length body) = Some payload ->
  body_of (mk_record_view s t f key headers payload) = body /\ length key = k /\ length headers = h /\
  length payload = (length body - k - h)%nat.
Proof.
  intros Ek Eh Ep. apply slice_inv in Ek as [Hk ->], Eh as [Hh ->], Ep as [Hp ->].
  unfold body_of. cbn [v_key v_headers v_payload].
  rewrite Nat.sub_0_r, drop_0, (Nat.add_comm k h), Nat.add_sub, (Nat.add_comm h k).
  rewrite !length_take, !length_drop. split; [|lia].
  rewrite (chunk_cons h) by done. change (take k body) with (take k (drop 0 body)).
  rewrite (chunk_cons k) by done. rewrite drop_0. apply take_ge. lia.
Qed.

(** Only frames decode, and to what they frame. *)
Lemma decode_canonical input rec subject tag n :
  bytes_ok input -> decode_inner input = Ok (rec, subject, tag, n) ->
  frame_ok rec subject tag /\ n = frame_len rec subject tag /\ input = frame rec subject tag ++ drop n input.
Proof.
  intros Hb Hd. unfold decode_inner in Hd. inv_ok Hd. injection Hd as <- <- <- Hn.
  destruct (slot_inv _ _ _ _ _ _ Hb E0 G1 E5) as (Htag & Hlt & Hmt & Hbt & Dt).
  destruct (slot_inv _ _ _ _ _ _ Hb E1 G2 E6) as (Hsub & Hls & Hms & Hbs & Ds).
  destruct (validate_header_inv input x Hb E) as (s & t & k & h & p & Hf & Hs & Ht & Hk & Hh & Hp & Hin).
  pose proof (header_fields x s t k h p (drop 36 input) Hs Ht Hk Hh Hp) as (F4 & F12 & F20 & F24 & F28).
  rewrite <- Hin in F4, F12, F20, F24, F28.
  apply negb_false_iff, eqb_prop in G5, G6. apply negb_false_iff, Z.eqb_eq in G7, G8. apply Z.ltb_ge in G3.
  apply bool_decide_eq_false, Nat.nlt_ge in G4. simplify_eq.
  unfold RECORD_STREAM_TAG_LEN_PREFIX, RECORD_STREAM_TAG_CRC_LEN, RECORD_SUBJECT_LEN_PREFIX, RECORD_SUBJECT_CRC_LEN in *.
  rewrite Htag, Hsub in *. rewrite !slot_size_if in *.
  set (xf := if flags_contain x HAS_XXH3 then RECORD_XXH3_LEN else 0%nat) in *.
  set (start := (RECORD_HEADER_LEN + slot_size x5 + slot_size x6)%nat) in *.
  set (total64 := x2 + x3 + x4 + Z.of_nat (start + xf + RECORD_TRAILER_LEN)) in *.
  assert (Hxf : (xf <= 8)%nat) by (unfold xf; clear; destruct (flags_contain x HAS_XXH3); unfold RECORD_XXH3_LEN; lia).
  set (blen := Z.to_nat (x2 + x3 + x4)).
  assert (Htot : Z.to_nat total64 = (start + blen + xf + 8)%nat)
    by (unfold total64, blen, RECORD_TRAILER_LEN; clear -Hk Hh Hp; ulia).
  assert (Hblen : (Z.to_nat total64 - RECORD_HEADER_LEN - slot_size x5 - slot_size x6 - RECORD_TRAILER_LEN - xf)%nat = blen)
    by (rewrite Htot; unfold start, RECORD_TRAILER_LEN; lia).
  rewrite Hblen in *. rewrite Htot in *. unfold RECORD_TRAILER_LEN in E9. rewrite Nat.add_sub in E9.
  destruct (tail_inv input start blen xf total64 x7 x8 x9 Hb E7 E8 E9 E10 E11) as (Hl7 & Hl8 & Hb7 & Hb8 & Dd).
  destruct x12. rewrite <- Hl7 in G6. apply xxh3_check_inv in E12; [|done|done|done].
  destruct (body_of_slices x7 _ _ _ _ _ x13 x14 x E15 E16 E17) as (Hbody & Hkl & Hhl & Hpl).
  set (rec := mk_record_view x13 x14 x x15 x16 x17) in *.
  assert (Hpl' : length x17 = Z.to_nat x4) by (rewrite Hpl, Hl7; unfold is_u32, blen in *; clear -Hk Hh Hp; lia).
  assert (Hfl : frame_len rec x6 x5 = (start + blen + xf + 8)%nat).
  { unfold frame_len, xxh3_size. rewrite Hbody, <- G6, Hl7. unfold start, xf, RECORD_TRAILER_LEN. lia. }
  match goal with |- _ /\ ?a = _ /\ _ => change a with (Z.to_nat total64) end. rewrite Htot, Hfl.
  split; [|split; [done|]].
  - constructor; rewrite ?Hbody; try done.
    + cbn. rewrite G5, <- Hkl. by destruct x15.
    + destruct x6; [by left|]. right. by destruct x5.
    + rewrite Hfl, <- Htot. rewrite Z2Nat.id by (unfold total64; ulia). done.
  - unfold frame, view_header. cbn [v_flags v_seq v_timestamp_ms v_key v_headers v_payload rec].
    rewrite Hbody, Hkl, Hhl, Hpl', Hfl, !Z2Nat.id by ulia.
    rewrite <- Htot at 1. rewrite Z2Nat.id by (unfold total64; ulia).
    rewrite <- !app_assoc, <- E12, <- Dd, <- Ds, <- Dt. exact Hin.
Qed.

(** *** What the encoder writes *)

Definition derived_flags (f : Z) (key xxh3 subject tag : bool) : Z :=
  flags_derive (flags_derive (flags_derive (flags_derive f HAS_KEY key) HAS_XXH3 xxh3) HAS_SUBJECT subject)
    HAS_STREAM_TAG tag.

Definition derived (rec : RecordView) (subject tag : list Z) : RecordView :=
  mk_record_view (v_seq rec) (v_timestamp_ms rec)
    (derived_flags (v_flags rec) (nonempty (v_key rec)) (wants_xxh3 (length (body_of rec))) (nonempty subject) (nonempty tag))
    (v_key rec) (v_headers rec) (v_payload rec).

Definition flag_ok (f : Z) (k x s t : bool) : bool :=
  let d := derived_flags f k x s t in
  (0 <=? d) && (d <=? u8_max) && Bool.eqb (flags_contain d HAS_KEY) k && Bool.eqb (flags_contain d HAS_XXH3) x &&
  Bool.eqb (flags_contain d HAS_SUBJECT) s && Bool.eqb (flags_contain d HAS_STREAM_TAG) t &&
  Bool.eqb (flags_contain d ENCRYPTED) (flags_contain f ENCRYPTED) &&
  Bool.eqb (flags_contain d COMPRESSED) (flags_contain f COMPRESSED).

Lemma forallb_u8 (P : Z -> bool) :
  forallb (fun n => P (Z.of_nat n)) (seq 0 256) = true -> forall f, is_u8 f -> P f = true.
Proof.
  rewrite forallb_forall. intros HP f Hf. specialize (HP (Z.to_nat f)).
  rewrite Z2Nat.id in HP by ulia. apply HP, in_seq. ulia.
Qed.

Lemma flag_ok_true f k x s t : is_u8 f -> flag_ok f k x s t = true.
Proof. revert f. destruct k, x, s, t; apply forallb_u8; vm_compute; reflexivity. Qed.

(** The derived bits are the derived ones, the caller's others survive. *)
Lemma derived_flags_spec f k x s t :
  is_u8 f ->
  let d := derived_flags f k x s t in
  is_u8 d /\ flags_contain d HAS_KEY = k /\ flags_contain d HAS_XXH3 = x /\ flags_contain d HAS_SUBJECT = s /\
  flags_contain d HAS_STREAM_TAG = t /\ flags_contain d ENCRYPTED = flags_contain f ENCRYPTED /\
  flags_contain d COMPRESSED = flags_contain f COMPRESSED.
Proof.
  intros Hf d. pose proof (flag_ok_true f k x s t Hf) as Ht. unfold flag_ok in Ht. fold d in Ht.
  rewrite !andb_true_iff, !eqb_true_iff in Ht.
  destruct Ht as (((((((H1 & H2) & H3) & H4) & H5) & H6) & H7) & H8). apply Z.leb_le in H1, H2.
  split; [ulia|]. done.
Qed.

Definition fits (rec : RecordView) (subject tag : list Z) : bool :=
  (Z.of_nat (length tag) <=? u16_max) && (Z.of_nat (length subject) <=? u16_max) &&
  (Z.of_nat (frame_len rec subject tag) <=? MAX_RECORD_BYTES_CEILING).

(** What the types of [encode]'s arguments give, for a plaintext record with at
    most one of the two slots. *)
Definition encodable (rec : RecordView) (subject tag : list Z) : Prop :=
  (is_u8 (v_flags rec) /\ is_u64 (v_seq rec) /\ is_u64 (v_timestamp_ms rec)) /\
  (bytes_ok (body_of rec) /\ bytes_ok subject /\ bytes_ok tag) /\
  flags_contain (v_flags rec) ENCRYPTED = false /\ (subject = [] \/ tag = []).

Lemma derived_frame_ok rec subject tag :
  encodable rec subject tag -> fits rec subject tag = true -> frame_ok (derived rec subject tag) subject tag.
Proof.
  intros ((Hf & Hs & Ht) & (Hb & Hbs & Hbt) & He & Ho) Hfit.
  unfold fits in Hfit. rewrite !andb_true_iff, !Z.leb_le in Hfit. destruct Hfit as [[Hlt Hls] Hn].
  destruct (derived_flags_spec (v_flags rec) (nonempty (v_key rec)) (wants_xxh3 (length (body_of rec)))
    (nonempty subject) (nonempty tag) Hf) as (D0 & D1 & D2 & D3 & D4 & D5 & _).
  constructor; cbn; try done. by rewrite D5.
Qed.

Lemma nonempty_decide (l : list Z) : negb (bool_decide (l = [])) = nonempty l.
Proof. by destruct l. Qed.

Lemma encode_frame rec subject tag out :
  encode_impl rec subject tag None out =
  if fits rec subject tag
  then Ok (out ++ frame (derived rec subject tag) subject tag, frame_len rec subject tag)
  else Err EncodeTooLarge.
Proof.
  unfold encode_impl, fits. rewrite !nonempty_decide.
  unfold RECORD_STREAM_TAG_LEN_PREFIX, RECORD_STREAM_TAG_CRC_LEN, RECORD_SUBJECT_LEN_PREFIX, RECORD_SUBJECT_CRC_LEN.
  rewrite !slot_size_if, <- !body_lens.
  change (if wants_xxh3 (length (body_of rec)) then RECORD_XXH3_LEN else 0%nat) with (xxh3_size rec).
  fold (frame_len rec subject tag). pose proof (frame_total rec subject tag) as Ht.
  unfold try_u32, try_u16. 
  destruct (Z.leb_spec (Z.of_nat (frame_len rec subject tag)) MAX_RECORD_BYTES_CEILING) as [Hn|Hn].
  - unfold MAX_RECORD_BYTES_CEILING in Hn.
    rewrite !(proj2 (Z.leb_le _ u32_max)) by ulia. cbn [res_bind].
    destruct (Z.leb_spec (Z.of_nat (length tag)) u16_max); cbn [res_bind andb]; [|done].
    destruct (Z.leb_spec (Z.of_nat (length subject)) u16_max); cbn [res_bind andb]; [|done].
    rewrite (proj2 (Z.ltb_ge _ _)) by (unfold MAX_RECORD_BYTES_CEILING; ulia).
    cbn [body_crc body_xxh3]. unfold frame. change (body_of (derived rec subject tag)) with (body_of rec).
    change (frame_len (derived rec subject tag) subject tag) with (frame_len rec subject tag).
    unfold xxh3_bytes_of, view_header, derived, derived_flags. cbn [v_flags v_seq v_timestamp_ms v_key v_headers v_payload].
    destruct (wants_xxh3 (length (body_of rec))); reflexivity.
  - rewrite andb_false_r. repeat (case_match; cbn [res_bind]; try done; bool_to_prop; try lia).
Qed.

Lemma precomputed_agree `{!Streaming} rec subject tag out :
  encode_impl rec subject tag (Some (compute_checksums (v_key rec) (v_headers rec) (v_payload rec))) out =
  encode_impl rec subject tag None out.
Proof.
  unfold encode_impl, compute_checksums. rewrite !crc32c_append_spec, xxh3_digest_spec. cbn [concat body_crc body_xxh3].
  rewrite app_nil_r. unfold body_of. rewrite <- app_assoc. reflexivity.
Qed.

(** *** Prefixes of a frame *)

Lemma slot_len_torn pre b rest j pos :
  length pre = pos -> Z.of_nat (length b) <= u16_max ->
  let r := slot_len (pre ++ take j (slot_field b ++ rest)) pos (nonempty b) in
  r = Ok (length b) \/ (j < 2)%nat /\ r = Err Truncated.
Proof.
  intros <- Hb r. unfold r. destruct b as [|z b]; [by left|]. cbn [nonempty slot_len].
  rewrite length_app, length_take. pose proof (length_slot_field (z :: b)) as Hsz. cbn [slot_size] in Hsz.
  destruct (Nat.ltb_spec j 2) as [Hj|Hj].
  - right. by rewrite bool_decide_eq_true_2 by lia.
  - left. rewrite bool_decide_eq_false_2 by (rewrite length_app; lia). unfold slot_field, read_u16. rewrite <- !app_assoc.
    rewrite take_app_ge by (rewrite length_le_bytes; lia). rewrite read_le_mid by (rewrite ?length_le_bytes; done).
    rewrite le_val_le_bytes by (apply u16_pow; ulia). cbn [or_panic res_bind]. by rewrite Nat2Z.id.
Qed.

(** The front of a frame, cut anywhere past the fixed header: the header is
    whole, the length of the slot may be cut. *)
Lemma cut_front rec subject tag rest k :
  frame_ok rec subject tag -> (36 <= k)%nat ->
  let input := take k (frame rec subject tag ++ rest) in
  let torn (r : res nat DecodeError) n := r = Ok n \/ (k < 38)%nat /\ r = Err Truncated in
  validate_header input = Ok (v_flags rec) /\
  read_u32 input 20 = Some (Z.of_nat (length (v_key rec))) /\
  read_u32 input 24 = Some (Z.of_nat (length (v_headers rec))) /\
  read_u32 input 28 = Some (Z.of_nat (length (v_payload rec))) /\
  torn (slot_len input RECORD_HEADER_LEN (nonempty tag)) (length tag) /\
  torn (slot_len input RECORD_HEADER_LEN (nonempty subject)) (length subject) /\
  torn (slot_len input (RECORD_HEADER_LEN + slot_size tag) (nonempty subject)) (length subject).
Proof.
  intros Hok Hk input torn. destruct (frame_fields_u32 rec subject tag Hok) as (Uk & Uh & Up & Un).
  assert (Hh36 : length (view_header rec) = RECORD_HEADER_LEN) by apply length_header_bytes.
  unfold input, frame. rewrite <- !app_assoc, take_app_ge, Hh36 by (rewrite Hh36; unfold RECORD_HEADER_LEN; lia).
  set (cut := body_of rec ++ _). clearbody cut. clear input.
  set (input := view_header rec ++ _).
  destruct (header_fields (v_flags rec) (v_seq rec) (v_timestamp_ms rec) _ _ _
    (take (k - RECORD_HEADER_LEN) (slot_field tag ++ slot_field subject ++ cut)) (fo_seq _ _ _ Hok) (fo_time _ _ _ Hok) Uk Uh Up)
    as (_ & _ & H20 & H24 & H28).
  split; [apply validate_header_bytes|]. split; [exact H20|]. split; [exact H24|]. split; [exact H28|].
  pose proof (fo_lens _ _ _ Hok) as [Hls Hlt].
  assert (Hj : (k - RECORD_HEADER_LEN < 2 -> k < 38)%nat) by (unfold RECORD_HEADER_LEN; lia).
  split.
  { destruct (slot_len_torn (view_header rec) tag (slot_field subject ++ cut) (k - RECORD_HEADER_LEN) _ Hh36 Hlt) as [?|[??]];
      [left|right]; auto. }
  assert (Hsub : torn (slot_len input RECORD_HEADER_LEN (nonempty subject)) (length subject)).
  { destruct (fo_one _ _ _ Hok) as [-> | Htag]; [by left|]. unfold input. rewrite Htag. cbn [slot_field app].
    destruct (slot_len_torn (view_header rec) subject cut (k - RECORD_HEADER_LEN) _ Hh36 Hls) as [?|[??]];
      [left|right]; auto. }
  split; [done|]. destruct (fo_one _ _ _ Hok) as [-> | ->]; [by left|]. cbn [slot_size]. by rewrite Nat.add_0_r.
Qed.

Lemma decode_torn rec subject tag k :
  frame_ok rec subject tag -> (k < frame_len rec subject tag)%nat ->
  decode_inner (take k (frame rec subject tag)) = Err Truncated.
Proof.
  intros Hok Hk. assert (Hlen : length (take k (frame rec subject tag)) = k) by (rewrite length_take, length_frame; lia).
  destruct (decide (k < 36)%nat) as [Hs|Hs].
  { unfold decode_inner, validate_header. by rewrite Hlen, bool_decide_eq_true_2 by (unfold RECORD_HEADER_LEN; lia). }
  destruct (cut_front rec subject tag [] k Hok ltac:(lia)) as (Hv & H20 & H24 & H28 & Ht & _ & Hsub).
  rewrite app_nil_r in *. set (input := take k _) in *. unfold decode_inner. rewrite Hv. cbn [res_bind].
  rewrite (fo_plain _ _ _ Hok), (fo_subject _ _ _ Hok), (fo_tag _ _ _ Hok), (nonempty_not_both _ _ (fo_one _ _ _ Hok)).
  destruct Ht as [-> | [_ ->]]; [|done]. cbn [res_bind]. rewrite nonempty_length.
  unfold RECORD_STREAM_TAG_LEN_PREFIX, RECORD_STREAM_TAG_CRC_LEN, RECORD_SUBJECT_LEN_PREFIX, RECORD_SUBJECT_CRC_LEN.
  rewrite slot_size_if. destruct Hsub as [-> | [_ ->]]; [|done]. cbn [res_bind].
  rewrite nonempty_length, slot_size_if, H20, H24, H28. cbn [or_panic res_bind].
  rewrite (xxh3_size_if rec subject tag Hok), frame_total.
  rewrite (proj2 (Z.ltb_ge _ _)) by apply Hok. by rewrite Nat2Z.id, bool_decide_eq_true_2 by lia.
Qed.

(** The length of a frame is known from its first 38 bytes, and from the header
    alone when the slot is empty. *)
Lemma decoded_len_front rec subject tag rest k :
  frame_ok rec subject tag -> (38 <= k)%nat \/ (36 <= k)%nat /\ subject = [] /\ tag = [] ->
  decoded_len (take k (frame rec subject tag ++ rest)) = Ok (frame_len rec subject tag).
Proof.
  intros Hok Hk. destruct (cut_front rec subject tag rest k Hok ltac:(lia)) as (Hv & H20 & H24 & H28 & Ht & Hsub & _).
  set (input := take k _) in *. unfold decoded_len. rewrite Hv. cbn [res_bind].
  rewrite (fo_plain _ _ _ Hok), (fo_subject _ _ _ Hok), (fo_tag _ _ _ Hok), (nonempty_not_both _ _ (fo_one _ _ _ Hok)).
  assert (Lt : slot_len input RECORD_HEADER_LEN (nonempty tag) = Ok (length tag)).
  { destruct Ht as [-> | [? He]]; [done|]. destruct Hk as [|(_ & _ & ->)]; [lia|done]. }
  assert (Ls : slot_len input RECORD_HEADER_LEN (nonempty subject) = Ok (length subject)).
  { destruct Hsub as [-> | [? He]]; [done|]. destruct Hk as [|(_ & -> & _)]; [lia|done]. }
  cbn [andb]. rewrite Lt, Ls. cbn [res_bind].
  unfold RECORD_STREAM_TAG_LEN_PREFIX, RECORD_STREAM_TAG_CRC_LEN, RECORD_SUBJECT_LEN_PREFIX, RECORD_SUBJECT_CRC_LEN.
  rewrite !slot_size_if, H20, H24, H28. cbn [or_panic res_bind].
  rewrite (xxh3_size_if rec subject tag Hok), Nat.add_0_r, frame_total.
  rewrite (proj2 (Z.ltb_ge _ _)) by apply Hok. by rewrite Nat2Z.id.
Qed.

Lemma frame_flags_byte rec subject tag rest : (frame rec subject tag ++ rest) !! 3%nat = Some (v_flags rec).
Proof.
  unfold frame, view_header, header_bytes, header_prefix. rewrite <- !app_assoc.
  rewrite lookup_app_r by (rewrite length_le_bytes; lia). by rewrite length_le_bytes.
Qed.

(** *** No read is out of range *)

Lemma validate_header_len input f : validate_header input = Ok f -> (36 <= length input)%nat.
Proof. unfold validate_header. intros Hv. inv_ok Hv. apply bool_decide_eq_false in G. unfold RECORD_HEADER_LEN in G. lia. Qed.

Lemma slot_len_no_panic input pos present : no_panic (slot_len input pos present).
Proof. destruct present; [|done]. unfold slot_len. by no_panic_walk. Qed.

Lemma slot_bytes_no_panic input pos len present bad :
  (present = true -> pos + (2 + len + 4) <= length input)%nat ->
  no_panic (slot_bytes input pos len present bad).
Proof. intros Hl. destruct present; [|done]. specialize (Hl eq_refl). unfold slot_bytes. by no_panic_walk. Qed.

Lemma validate_header_no_panic input : no_panic (validate_header input).
Proof. unfold validate_header, RECORD_HEADER_LEN, RECORD_HEADER_CRC_END. by no_panic_walk. Qed.

Lemma decoded_len_no_panic input : no_panic (decoded_len input).
Proof.
  unfold decoded_len. apply no_panic_bind; [apply validate_header_no_panic|]. intros f Hf.
  apply validate_header_len in Hf. no_panic_step. no_panic_step.
  apply no_panic_bind; [apply slot_len_no_panic|]. intros lt _.
  apply no_panic_bind; [apply slot_len_no_panic|]. intros ls _. by no_panic_walk.
Qed.

Lemma decoded_len_pos input n : bytes_ok input -> decoded_len input = Ok n -> (44 <= n)%nat.
Proof.
  intros Hb Hd. unfold decoded_len in Hd. inv_ok Hd. injection Hd as <-.
  pose proof (read_u32_bounds _ _ _ Hb E2) as H2. pose proof (read_u32_bounds _ _ _ Hb E3) as H3.
  pose proof (read_u32_bounds _ _ _ Hb E4) as H4. unfold is_u32 in *. clear -H2 H3 H4.
  unfold RECORD_HEADER_LEN, RECORD_TRAILER_LEN. repeat case_match; lia.
Qed.

Lemma decode_inner_no_panic input : bytes_ok input -> no_panic (decode_inner input).
Proof.
  intros Hb. unfold decode_inner. apply no_panic_bind; [apply validate_header_no_panic|]. intros f Hf.
  apply validate_header_len in Hf.
  no_panic_step. no_panic_step.
  apply no_panic_bind; [apply slot_len_no_panic|]. intros lt Hlt. no_panic_step.
  apply no_panic_bind; [apply slot_len_no_panic|]. intros ls Hls. no_panic_step.
  unfold RECORD_STREAM_TAG_LEN_PREFIX, RECORD_STREAM_TAG_CRC_LEN, RECORD_SUBJECT_LEN_PREFIX, RECORD_SUBJECT_CRC_LEN.
  set (tf := if flags_contain f HAS_STREAM_TAG then _ else _). set (sf := if flags_contain f HAS_SUBJECT then _ else _).
  set (xf := if flags_contain f HAS_XXH3 then _ else _).
  do 3 (no_panic_step; [|lia]).
  repeat match goal with E : read_u32 _ _ = Some _ |- _ => apply (read_u32_bounds _ _ _ Hb) in E end.
  do 4 no_panic_step.
  set (start := (RECORD_HEADER_LEN + tf + sf)%nat) in *. set (total := Z.to_nat _) in *.
  assert (Ht : total = (start + (Z.to_nat z + Z.to_nat z0 + Z.to_nat z1) + xf + 8)%nat)
    by (unfold total, is_u32, RECORD_TRAILER_LEN in *; clear -E E0 E1; lia).
  replace (total - RECORD_HEADER_LEN - tf - sf - RECORD_TRAILER_LEN - xf)%nat
    with (Z.to_nat z + Z.to_nat z0 + Z.to_nat z1)%nat by (unfold RECORD_TRAILER_LEN; lia).
  clearbody total. unfold RECORD_TRAILER_LEN.
  apply no_panic_bind; [apply slot_bytes_no_panic; intros Hp; unfold start, tf in *; rewrite Hp in *; lia|]. intros tb _.
  apply no_panic_bind; [apply slot_bytes_no_panic; intros Hp; unfold start, sf in *; rewrite Hp in *; lia|]. intros sb _.
  do 5 (no_panic_step; [|lia]). do 2 no_panic_step.
  apply no_panic_bind.
  { destruct (flags_contain f HAS_XXH3); [|done]. unfold xf, RECORD_XXH3_LEN in *. by no_panic_walk. }
  intros _ _. by no_panic_walk.
Qed.

(** *** Claims *)

Lemma derived_flags_id f :
  is_u8 f ->
  derived_flags f (flags_contain f HAS_KEY) (flags_contain f HAS_XXH3) (flags_contain f HAS_SUBJECT)
    (flags_contain f HAS_STREAM_TAG) = f.
Proof.
  intros Hf. apply Z.eqb_eq. revert f Hf.
  apply (forallb_u8 (fun f => derived_flags f (flags_contain f HAS_KEY) (flags_contain f HAS_XXH3)
    (flags_contain f HAS_SUBJECT) (flags_contain f HAS_STREAM_TAG) =? f)). vm_compute. reflexivity.
Qed.

Lemma frame_ok_derived rec subject tag : frame_ok rec subject tag -> derived rec subject tag = rec.
Proof.
  intros Hok. pose proof (derived_flags_id _ (fo_flags _ _ _ Hok)) as Hf.
  rewrite (fo_key _ _ _ Hok), (fo_xxh3 _ _ _ Hok), (fo_subject _ _ _ Hok), (fo_tag _ _ _ Hok) in Hf.
  unfold derived. rewrite Hf. by destruct rec.
Qed.

Lemma frame_ok_fits rec subject tag : frame_ok rec subject tag -> fits rec subject tag = true.
Proof.
  intros Hok. unfold fits. pose proof (fo_lens _ _ _ Hok) as [??]. pose proof (fo_size _ _ _ Hok).
  rewrite !(proj2 (Z.leb_le _ _)) by done. done.
Qed.

(** C13: The record decoder accepts exactly the frames the encoder writes.  On
    any bytes it does not panic; when it succeeds the encoder maps what it
    returned back to the very bytes it consumed; and what it refuses does not
    begin with any frame of the encoder. *)
Theorem record_codec_exact input :
  bytes_ok input ->
  match decode_inner input with
  | Ok (rec, subject, tag, n) =>
      (n <= length input)%nat /\ encode_impl rec subject tag None [] = Ok (take n input, n)
  | Err _ =>
      forall rec subject tag bytes n,
        encodable rec subject tag -> encode_impl rec subject tag None [] = Ok (bytes, n) -> ~ bytes `prefix_of` input
  | Panic => False
  end.
Proof.
  intros Hb. pose proof (decode_inner_no_panic input Hb) as Hp.
  destruct (decode_inner input) as [[[[rec subject] tag] n]|e|] eqn:Hd; [| |done].
  - apply decode_canonical in Hd as (Hok & -> & Hin); [|done].
    rewrite encode_frame, frame_ok_fits, frame_ok_derived by done.
    assert (Hl : length (frame rec subject tag) = frame_len rec subject tag) by apply length_frame.
    split; [rewrite Hin, length_app, Hl; lia|]. rewrite Hin. rewrite take_app_length' by lia. done.
  - intros rec subject tag bytes n Hr Henc [rest ->]. rewrite encode_frame in Henc.
    destruct (fits rec subject tag) eqn:Hfit; [|done]. injection Henc as <- <-.
    rewrite decode_frame in Hd; [done|]. by apply derived_frame_ok.
Qed.

(** What is encoded is what is decoded.  A record the encoder accepts is
    appended to the buffer as one frame, is read back from wherever that frame
    starts, whatever follows it, with its fields, its subject or stream tag and
    its caller flags; a record it refuses is one over a length limit; and
    checksums computed ahead of time give the same bytes. *)
Theorem record_encode_decode `{!Streaming} rec subject tag out rest :
  encodable rec subject tag ->
  encode_impl rec subject tag (Some (compute_checksums (v_key rec) (v_headers rec) (v_payload rec))) out =
    encode_impl rec subject tag None out /\
  match encode_impl rec subject tag None out with
  | Ok (buf, n) =>
      length buf = (length out + n)%nat /\ take (length out) buf = out /\
      exists rec', decode_inner (drop (length out) buf ++ rest) = Ok (rec', subject, tag, n) /\
        body_of rec' = body_of rec /\ v_key rec' = v_key rec /\ v_headers rec' = v_headers rec /\
        v_seq rec' = v_seq rec /\ v_timestamp_ms rec' = v_timestamp_ms rec /\
        flags_contain (v_flags rec') COMPRESSED = flags_contain (v_flags rec) COMPRESSED
  | Err EncodeTooLarge => fits rec subject tag = false
  | Panic => False
  end.
Proof.
  intros Hr. split; [apply precomputed_agree|]. rewrite encode_frame.
  destruct (fits rec subject tag) eqn:Hfit; [|done].
  rewrite length_app, length_frame, take_app_length, drop_app_length.
  split; [done|]. split; [done|]. exists (derived rec subject tag).
  split; [apply (decode_frame (derived rec subject tag)); by apply derived_frame_ok|].
  repeat split; try done. cbn. apply derived_flags_spec, Hr.
Qed.

(** A torn frame is told from a corrupt one.  Cut short anywhere, a frame
    the encoder wrote is reported truncated and nothing else; and from 38 bytes
    of it on, whatever else follows, the length probe already knows the size
    of the whole. *)
Theorem torn_frame_truncated rec subject tag bytes n :
  encodable rec subject tag -> encode_impl rec subject tag None [] = Ok (bytes, n) ->
  length bytes = n /\
  (forall k, (k < n)%nat -> decode_inner (take k bytes) = Err Truncated) /\
  (forall k rest, (38 <= k)%nat -> decoded_len (take k (bytes ++ rest)) = Ok n).
Proof.
  intros Hr Henc. rewrite encode_frame in Henc. destruct (fits rec subject tag) eqn:Hfit; [|done].
  pose proof (derived_frame_ok _ _ _ Hr Hfit) as Hok. injection Henc as <- <-.
  split; [apply (length_frame (derived rec subject tag))|]. split; [intros k Hk; by apply (decode_torn (derived rec subject tag))|].
  intros k rest Hk. apply (decoded_len_front (derived rec subject tag)); [done|by left].
Qed.

(** *** Encrypted frames *)

Definition encrypted_flags (f : Z) (key xxh3 : bool) : Z :=
  flags_without (flags_derive (flags_derive (flags_with f ENCRYPTED) HAS_KEY key) HAS_XXH3 xxh3)
    (Z.lor HAS_SUBJECT HAS_STREAM_TAG).

Lemma encrypted_flags_spec f k x :
  is_u8 f ->
  let d := encrypted_flags f k x in
  flags_contain d ENCRYPTED = true /\ flags_contain d HAS_SUBJECT = false /\ flags_contain d HAS_STREAM_TAG = false /\
  flags_contain d HAS_KEY = k /\ flags_contain d HAS_XXH3 = x.
Proof.
  intros Hf d.
  assert (Ht : flags_contain d ENCRYPTED && negb (flags_contain d HAS_SUBJECT) && negb (flags_contain d HAS_STREAM_TAG) &&
    Bool.eqb (flags_contain d HAS_KEY) k && Bool.eqb (flags_contain d HAS_XXH3) x = true).
  { unfold d. clear d. revert f Hf. destruct k, x; apply forallb_u8; vm_compute; reflexivity. }
  rewrite !andb_true_iff, !negb_true_iff, !eqb_true_iff in Ht. destruct Ht as [[[[? ?] ?] ?] ?]. done.
Qed.

Lemma wants_xxh3_Z n z : z = Z.of_nat n -> (XXH3_PAYLOAD_THRESHOLD <=? z) = wants_xxh3 n.
Proof. by intros ->. Qed.

Lemma decode_encrypted_frame f seq ts k h p ciphertext tag rest :
  let body := ciphertext ++ tag in
  let total := (RECORD_HEADER_LEN + length body + length (xxh3_bytes_of body) + RECORD_TRAILER_LEN)%nat in
  is_u64 seq -> is_u64 ts -> 0 <= k -> 0 <= h -> 0 <= p ->
  k + h + p = Z.of_nat (length ciphertext) -> length tag = AEAD_TAG_LEN ->
  Z.of_nat total <= MAX_RECORD_BYTES_CEILING ->
  flags_contain f ENCRYPTED = true -> flags_contain f HAS_SUBJECT = false -> flags_contain f HAS_STREAM_TAG = false ->
  flags_contain f HAS_KEY = negb (k =? 0) -> flags_contain f HAS_XXH3 = wants_xxh3 (length body) ->
  decode_encrypted (header_bytes f seq ts k h p ++ body ++ xxh3_bytes_of body ++
    (le_bytes 4 (crc32c body) ++ le_bytes 4 (Z.of_nat total)) ++ rest) =
  Ok (mk_encrypted_view seq ts f k h p ciphertext tag, total).
Proof.
  intros body total Hs Ht Hk Hh Hp Hsum Htag Hc F1 F2 F3 F4 F5.
  assert (Hbl : length body = (length ciphertext + AEAD_TAG_LEN)%nat) by (unfold body; by rewrite length_app, Htag).
  pose proof (length_xxh3_bytes_of body) as Hxl.
  assert (Hu : is_u32 (Z.of_nat total) /\ is_u32 k /\ is_u32 h /\ is_u32 p).
  { unfold MAX_RECORD_BYTES_CEILING in Hc. unfold total in *. ulia. }
  destruct Hu as (Hu & Uk & Uh & Up).
  set (tl := body ++ xxh3_bytes_of body ++ (le_bytes 4 (crc32c body) ++ le_bytes 4 (Z.of_nat total)) ++ rest).
  destruct (header_fields f seq ts k h p tl Hs Ht Uk Uh Up) as (H4 & H12 & H20 & H24 & H28).
  pose proof (validate_header_bytes f seq ts k h p tl) as Hv.
  destruct (tail_slices (header_bytes f seq ts k h p ++ tl) RECORD_HEADER_LEN _ _ _ rest Hu
    ltac:(apply drop_app_length'; symmetry; apply length_header_bytes)) as (Sb & Sx & St & R0 & R4).
  fold body total in Sb, Sx, St.
  assert (Hlen : (total <= length (header_bytes f seq ts k h p ++ tl))%nat).
  { unfold tl, total. rewrite !length_app, length_header_bytes, !length_le_bytes. unfold RECORD_HEADER_LEN, RECORD_TRAILER_LEN. lia. }
  set (input := header_bytes f seq ts k h p ++ tl) in *.
  unfold decode_encrypted. rewrite Hv. cbn [res_bind]. rewrite F1, F2, F3. cbn [negb orb].
  rewrite H20, H24, H28. cbn [or_panic res_bind]. rewrite Hsum, (wants_xxh3_Z (length body)) by lia.
  rewrite F5, eqb_reflx, <- Hxl. cbn [negb].
  replace (Z.of_nat RECORD_HEADER_LEN + (Z.of_nat (length ciphertext) + Z.of_nat AEAD_TAG_LEN) +
    Z.of_nat (length (xxh3_bytes_of body) + RECORD_TRAILER_LEN)) with (Z.of_nat total) by (unfold total; lia).
  rewrite (proj2 (Z.ltb_ge _ _)) by done. rewrite Nat2Z.id, bool_decide_eq_false_2 by lia. rewrite F4, eqb_reflx. cbn [negb].
  replace (Z.to_nat (Z.of_nat (length ciphertext) + Z.of_nat AEAD_TAG_LEN)) with (length body) by lia.
  rewrite Nat2Z.id. rewrite Sb. cbn [or_panic res_bind].
  replace (total - RECORD_TRAILER_LEN)%nat with (RECORD_HEADER_LEN + length body + length (xxh3_bytes_of body))%nat in *
    by (unfold total; lia).
  rewrite Sx. cbn [or_panic res_bind]. rewrite St. cbn [or_panic res_bind]. rewrite R0, R4. cbn [or_panic res_bind].
  rewrite !Z.eqb_refl, xxh3_check, H4, H12. cbn [negb or_panic res_bind].
  rewrite (slice_at body 0 _ ciphertext tag) by (done || lia). cbn [or_panic res_bind].
  rewrite (slice_at body _ _ tag []); [done|lia|rewrite app_nil_r; apply drop_app_length|lia].
Qed.

(** An encrypted frame gives back the ciphertext, the authentication tag
    and the plaintext lengths it was built from; the plaintext decoder refuses
    it as encrypted, and the two slots are never set on it. *)
Theorem encrypted_roundtrip seq ts flags k h p ciphertext tag out rest :
  is_u64 seq -> is_u64 ts -> is_u8 flags -> 0 <= k -> 0 <= h -> 0 <= p ->
  k + h + p = Z.of_nat (length ciphertext) -> length tag = AEAD_TAG_LEN ->
  match encode_encrypted seq ts flags k h p ciphertext tag out with
  | Ok (buf, n) =>
      exists f, decode_encrypted (drop (length out) buf ++ rest) = Ok (mk_encrypted_view seq ts f k h p ciphertext tag, n) /\
        flags_contain f ENCRYPTED = true /\ flags_contain f HAS_SUBJECT = false /\ flags_contain f HAS_STREAM_TAG = false /\
        decode_inner (drop (length out) buf ++ rest) = Err Encrypted
  | Err EncodeTooLarge =>
      MAX_RECORD_BYTES_CEILING < Z.of_nat (RECORD_HEADER_LEN + (length ciphertext + AEAD_TAG_LEN) +
        (if wants_xxh3 (length ciphertext + AEAD_TAG_LEN) then RECORD_XXH3_LEN else 0) + RECORD_TRAILER_LEN)
  | Panic => False
  end.
Proof.
  intros Hs Ht Hf Hk Hh Hp Hsum Htag. set (body := ciphertext ++ tag).
  assert (Hbl : (length ciphertext + AEAD_TAG_LEN)%nat = length body) by (unfold body; by rewrite length_app, Htag).
  unfold encode_encrypted, try_u32. rewrite Hbl, <- length_xxh3_bytes_of. fold body. fold (xxh3_bytes_of body).
  set (total := (RECORD_HEADER_LEN + _ + _ + RECORD_TRAILER_LEN)%nat).
  destruct (Z.leb_spec (Z.of_nat total) u32_max) as [Hu|Hu]; cbn [res_bind].
  2: { unfold MAX_RECORD_BYTES_CEILING. ulia. }
  destruct (Z.ltb_spec MAX_RECORD_BYTES_CEILING (Z.of_nat total)) as [Hc|Hc]; [exact Hc|].
  fold (encrypted_flags flags (negb (k =? 0)) (wants_xxh3 (length body))). set (f := encrypted_flags _ _ _).
  destruct (encrypted_flags_spec flags (negb (k =? 0)) (wants_xxh3 (length body)) Hf) as (F1 & F2 & F3 & F4 & F5).
  fold f in F1, F2, F3, F4, F5.
  exists f. rewrite drop_app_length, <- !app_assoc. split; [|split; [done|split; [done|split; [done|]]]].
  - rewrite (app_assoc (le_bytes 4 _)). by apply decode_encrypted_frame.
  - unfold decode_inner. rewrite validate_header_bytes. cbn [res_bind]. by rewrite F1.
Qed.
End codec.

(** ** Evaluation *)

(** A running checksum that can be continued, for evaluating the streaming
    interface. *)
Definition sum32_step (a b : Z) : Z := (a * 257 + b) mod (u32_max + 1).

Lemma sum32_range l : is_u32 (foldl sum32_step 1 l).
Proof.
  induction l as [|b l _] using rev_ind; [cbn; ulia|]. rewrite foldl_app. cbn.
  unfold sum32_step at 1. pose proof (Z.mod_pos_bound (foldl sum32_step 1 l * 257 + b) (u32_max + 1)). ulia.
Qed.

Definition sum32 : Crc32c := {| crc32c := foldl sum32_step 1; crc32c_u32 := sum32_range |}.

Program Definition sums : @Streaming sum32 sum64 :=
  {| crc32c_append := foldl sum32_step; xxh3_digest ls := @xxh3_64 sum64 (concat ls) |}.
Next Obligation. intros a b. symmetry. apply foldl_app. Qed.
Next Obligation. done. Qed.

Section evaluation.
#[local] Existing Instance castagnoli.
#[local] Existing Instance sum64.

Definition demo_record : RecordView := mk_record_view 7 1700000000000 COMPRESSED [107] [] [104; 105].
Definition demo_input : list Z :=
  match encode_with_subject demo_record [97; 46; 98] [] with Ok (b, _) => b ++ [0; 0] | _ => [] end.

Lemma record_codec_exact_witness :
  exists rec, decode_inner demo_input = Ok (rec, [97; 46; 98], [], 56%nat) /\
    encode_impl rec [97; 46; 98] [] None [] = Ok (take 56 demo_input, 56%nat).
Proof.
  assert (Hb : bytes_ok demo_input) by (apply (bool_decide_unpack _); vm_compute; exact I).
  pose proof (record_codec_exact demo_input Hb) as Hx.
  destruct (decode_inner demo_input) as [[[[rec s] t] n]|e|] eqn:Hd; vm_compute in Hd; [|discriminate Hd|discriminate Hd].
  injection Hd as <- <- <- <-. eexists. split; [reflexivity|]. exact (proj2 Hx).
Defined.

Lemma torn_frame_truncated_witness :
  encodable demo_record [97; 46; 98] [] /\
  decode_inner (take 55 (take 56 demo_input)) = Err Truncated /\
  decoded_len (take 38 (take 56 demo_input ++ [])) = Ok 56%nat.
Proof.
  assert (He : encodable demo_record [97; 46; 98] []).
  { split; [repeat split; vm_compute; congruence|]. split; [|split; [reflexivity|by right]]. split; [|split]; apply (bool_decide_unpack _); vm_compute; exact I. }
  split; [exact He|].
  destruct (@torn_frame_truncated castagnoli sum64 demo_record [97; 46; 98] [] (take 56 demo_input) 56 He ltac:(vm_compute; reflexivity))
    as (_ & Ht & Hl).
  split; [apply Ht; lia|apply Hl; lia].
Defined.

Lemma encrypted_roundtrip_witness :
  exists buf f,
    encode_encrypted 3 5 0 1 0 2 [9; 8; 7] (replicate 16 1) [1; 1] = Ok (buf, 63%nat) /\
    decode_encrypted (drop 2 buf ++ [4]) = Ok (mk_encrypted_view 3 5 f 1 0 2 [9; 8; 7] (replicate 16 1), 63%nat).
Proof.
  pose proof (@encrypted_roundtrip castagnoli sum64 3 5 0 1 0 2 [9; 8; 7] (replicate 16 1) [1; 1] [4] ltac:(ulia) ltac:(ulia) ltac:(ulia)
    ltac:(lia) ltac:(lia) ltac:(lia) eq_refl eq_refl) as Hx.
  destruct (encode_encrypted 3 5 0 1 0 2 [9; 8; 7] (replicate 16 1) [1; 1]) as [[buf n]|e|] eqn:He;
    pose proof He as Hn; vm_compute in Hn; [|discriminate Hn|discriminate Hn].
  assert (n = 63%nat) as -> by congruence. destruct Hx as (f & Hd & _). exists buf, f. split; [reflexivity|exact Hd].
Defined.
End evaluation.

Lemma record_encode_decode_witness :
  exists rec', @decode_inner sum32 sum64 (@frame sum32 sum64 (derived demo_record [] [116]) [] [116] ++ [0]) =
      Ok (rec', [], [116], 54%nat) /\ v_key rec' = [107].
Proof.
  assert (He : encodable demo_record [] [116]).
  { split; [repeat split; vm_compute; congruence|]. split; [|split; [reflexivity|by left]]. split; [|split]; apply (bool_decide_unpack _); vm_compute; exact I. }
  pose proof (@record_encode_decode sum32 sum64 sums demo_record [] [116] [] [0] He) as [_ Hx].
  rewrite (@encode_frame sum32 sum64) in Hx.
  destruct (fits demo_record [] [116]) eqn:Hf; [|vm_compute in Hf; discriminate Hf].
  destruct Hx as (_ & _ & rec' & Hd & _ & Hk & _). exists rec'. split; [exact Hd|exact Hk].
Defined.
