(* ===== verification/Disk.v ===== *)
(** * The file seam ([io.rs], and the fault injector of [fault.rs])

    Storage reads and writes through one interface, [RandomAccessFile].  Here it
    is a class: the operations, what a reader sees ([live]), what a power loss
    leaves ([durable]), and the laws the layers above rely on.  The in-memory
    file of the deterministic simulation and the fault-injecting wrapper are
    instances; the first keeps a list of dirty byte ranges so that a data sync
    copies only what was written, and is shown to leave the same image a copy of
    the whole file would.

    Positions and lengths are [nat]; [usize] is 64 bits wide, so the conversions
    from [u64] do not fail. *)

From S2P Require Import Prelude Bytes.

(** ** Byte images *)

(** [live.resize(end, 0)] when the write runs past the end, then the copy. *)
Definition splice (l : list Z) (off : nat) (buf : list Z) : list Z :=
  let fin := (off + length buf)%nat in
  let l := if decide (length l < fin)%nat then resize fin 0 l else l in
  take off l ++ buf ++ drop fin l.

(** Copy [src[a..b]] over [dst[a..b]]. *)
Definition copy_range (src dst : list Z) (r : nat * nat) : list Z :=
  take (fst r) dst ++ take (snd r - fst r) (drop (fst r) src) ++ drop (snd r) dst.

(** ** The in-memory file *)

Record FileState := mk_file {
  fs_live : list Z;
  fs_durable : list Z;
  fs_dirty : list (nat * nat)
}.

(** [dirty.sort_unstable()]: the lexicographic order on pairs. *)
Definition pair_le (x y : nat * nat) : Prop := (fst x < fst y \/ fst x = fst y /\ snd x <= snd y)%nat.
#[global] Instance pair_le_dec x y : Decision (pair_le x y).
Proof. unfold pair_le. apply _. Defined.

(** The merge loop, [merged] in reverse. *)
Fixpoint merge_ranges (merged todo : list (nat * nat)) : list (nat * nat) :=
  match todo with
  | [] => rev merged
  | (x, y) :: todo =>
      match merged with
      | (m0, m1) :: rest =>
          if (x <=? m1)%nat then merge_ranges ((m0, max m1 y) :: rest) todo
          else merge_ranges ((x, y) :: merged) todo
      | [] => merge_ranges [(x, y)] todo
      end
  end.

Definition mark_dirty (dirty : list (nat * nat)) (a b : nat) : list (nat * nat) :=
  if (b <=? a)%nat then dirty
  else match last dirty with
       | None => dirty ++ [(a, b)]
       | Some (l0, l1) =>
           if (l0 <=? a)%nat then
             if (a <=? l1)%nat then take (length dirty - 1) dirty ++ [(l0, max l1 b)]
             else dirty ++ [(a, b)]
           else merge_ranges [] (merge_sort pair_le (dirty ++ [(a, b)]))
       end.

Definition mem_from_bytes (bytes : list Z) : FileState := mk_file bytes bytes [].

(** [read_at]: at most [n] bytes, fewer near the end, none past it. *)
Definition mem_read_at (s : FileState) (n off : nat) : list Z :=
  if decide (length (fs_live s) <= off)%nat then [] else take (min (length (fs_live s) - off) n) (drop off (fs_live s)).

Definition mem_write_all_at (s : FileState) (buf : list Z) (off : nat) : FileState * bool :=
  let fin := (off + length buf)%nat in
  if u64_max <? Z.of_nat fin then (s, false)
  else
    (mk_file (splice (fs_live s) off buf) (fs_durable s)
       (mark_dirty (fs_dirty s) (min off (length (fs_live s))) fin), true).

(** [let b = b.min(live.len()); let a = a.min(b);] *)
Definition clamp_range (len : nat) (r : nat * nat) : nat * nat :=
  let b := min (snd r) len in (min (fst r) b, b).

Definition mem_sync_data (s : FileState) : FileState :=
  let durable :=
    if decide (length (fs_durable s) < length (fs_live s))%nat
    then resize (length (fs_live s)) 0 (fs_durable s) else fs_durable s in
  mk_file (fs_live s)
    (foldl (fun d r => copy_range (fs_live s) d (clamp_range (length (fs_live s)) r)) durable (fs_dirty s)) [].

Definition mem_sync_all (s : FileState) : FileState := mk_file (fs_live s) (fs_live s) [].

(** The [retain_mut] of a truncation. *)
Fixpoint clamp_dirty (len : nat) (dirty : list (nat * nat)) : list (nat * nat) :=
  match dirty with
  | [] => []
  | (a, b) :: dirty =>
      if (len <=? a)%nat then clamp_dirty len dirty
      else if (a <? min b len)%nat then (a, min b len) :: clamp_dirty len dirty
      else clamp_dirty len dirty
  end.

Definition mem_set_len (s : FileState) (len : nat) : FileState :=
  let old_len := length (fs_live s) in
  mk_file (resize len 0 (fs_live s)) (fs_durable s)
    (if decide (old_len < len)%nat then mark_dirty (fs_dirty s) old_len len else clamp_dirty len (fs_dirty s)).

Definition simulate_power_loss (s : FileState) : FileState := mk_file (fs_durable s) (fs_durable s) [].

(** The seeded choice of [simulate_power_loss_reorder], on 64-bit words. *)
Definition wrap64 (z : Z) : Z := Z.land z u64_max.
Definition xorshift (seed : Z) : Z :=
  let x := Z.lxor seed 11400714819323198485 in
  let x := Z.lxor x (Z.shiftr x 12) in
  let x := Z.lxor x (wrap64 (Z.shiftl x 25)) in
  let x := Z.lxor x (Z.shiftr x 27) in
  wrap64 (x * 2685821657736338717).

Definition simulate_power_loss_reorder (s : FileState) (seed : Z) : FileState * nat :=
  let durable_len := length (fs_durable s) in
  if decide (length (fs_live s) <= durable_len)%nat then (mk_file (fs_durable s) (fs_durable s) (fs_dirty s), 0%nat)
  else
    let surplus := Z.of_nat (length (fs_live s) - durable_len) in
    let kept := Z.to_nat (xorshift seed mod surplus) in
    let live := fs_durable s ++ take kept (drop durable_len (fs_live s)) in
    (mk_file live live [], kept).

(** ** The interface *)

(** Every byte of the image [m], and where it ends, comes from [a] or from [b]. *)
Definition blend (a b m : list Z) : Prop := forall i, m !! i = a !! i \/ m !! i = b !! i.

(** A sound file does not change bytes behind the caller's back.  A failed
    write may leave a prefix of its bytes; a failed sync may have made any of
    the unsynced bytes durable. *)
Class RandomAccessFile (F : Type) := {
  f_sound : F -> Prop;
  f_live : F -> list Z;
  f_durable : F -> list Z;
  read_at : F -> nat -> nat -> option (list Z);
  write_all_at : F -> list Z -> nat -> F * bool;
  sync_data : F -> F * bool;
  sync_all : F -> F * bool;
  set_len : F -> nat -> F * bool;
  read_at_spec f n off b :
    read_at f n off = Some b ->
    b `prefix_of` drop off (f_live f) /\ (length b <= n)%nat /\ (b = [] -> n = 0%nat \/ drop off (f_live f) = []);
  write_ok f buf off f' :
    f_sound f -> write_all_at f buf off = (f', true) ->
    f_sound f' /\ f_live f' = splice (f_live f) off buf /\ f_durable f' = f_durable f;
  write_err f buf off f' :
    f_sound f -> write_all_at f buf off = (f', false) ->
    f_sound f' /\ f_durable f' = f_durable f /\
    (f_live f' = f_live f \/ exists k, f_live f' = splice (f_live f) off (take k buf));
  sync_data_ok f f' :
    f_sound f -> sync_data f = (f', true) ->
    f_sound f' /\ f_live f' = f_live f /\ f_durable f' = f_live f ++ drop (length (f_live f)) (f_durable f);
  sync_all_ok f f' :
    f_sound f -> sync_all f = (f', true) -> f_sound f' /\ f_live f' = f_live f /\ f_durable f' = f_live f;
  sync_data_err f f' :
    f_sound f -> sync_data f = (f', false) ->
    f_sound f' /\ f_live f' = f_live f /\ blend (f_durable f) (f_live f) (f_durable f');
  sync_all_err f f' :
    f_sound f -> sync_all f = (f', false) ->
    f_sound f' /\ f_live f' = f_live f /\ blend (f_durable f) (f_live f) (f_durable f');
  set_len_ok f n f' :
    f_sound f -> set_len f n = (f', true) ->
    f_sound f' /\ f_live f' = resize n 0 (f_live f) /\ f_durable f' = f_durable f;
  set_len_err f n f' :
    f_sound f -> set_len f n = (f', false) -> f_sound f' /\ f_live f' = f_live f /\ f_durable f' = f_durable f
}.

Inductive ReadError := ReadIo | UnexpectedEof.

(** [read_exact_at]: read until the buffer is full; a read of nothing is the
    end of the file.  Every round but the last reads at least one byte. *)
Fixpoint read_exact_fuel `{RandomAccessFile F} (fuel : nat) (f : F) (n off : nat) : res (list Z) ReadError :=
  match n with
  | O => Ok []
  | _ =>
      match fuel with
      | O => Panic
      | S fuel =>
          match read_at f n off with
          | None => Err ReadIo
          | Some [] => Err UnexpectedEof
          | Some b => let? rest := read_exact_fuel fuel f (n - length b) (off + length b) in Ok (b ++ rest)
          end
      end
  end.
Definition read_exact_at `{RandomAccessFile F} (f : F) (n off : nat) : res (list Z) ReadError :=
  read_exact_fuel n f n off.

(** ** Fault injection *)

(** The armed faults of [FaultControl] that act on file operations; the gates
    only delay a call. *)
Record FaultFile (F : Type) := mk_fault {
  ff_inner : F;
  ff_fail_sync : bool;
  ff_fail_write : bool;
  ff_fail_read : bool;
  ff_torn_write : option nat;
  ff_checksum_flip : option nat;
  ff_short_read : nat
}.
Arguments mk_fault {F}. Arguments ff_inner {F}. Arguments ff_fail_sync {F}. Arguments ff_fail_write {F}.
Arguments ff_fail_read {F}. Arguments ff_torn_write {F}. Arguments ff_checksum_flip {F}. Arguments ff_short_read {F}.

Section fault.
Context `{RandomAccessFile F}.

Definition with_inner (f : FaultFile F) (i : F) (torn flip : option nat) : FaultFile F :=
  mk_fault i (ff_fail_sync f) (ff_fail_write f) (ff_fail_read f) torn flip (ff_short_read f).

Definition fault_read_at (f : FaultFile F) (n off : nat) : option (list Z) :=
  if ff_fail_read f then None
  else if (0 <? ff_short_read f)%nat then read_at (ff_inner f) (min (ff_short_read f) n) off
  else read_at (ff_inner f) n off.

(** [take_checksum_flip]: the index to flip, when the armed offset is written. *)
Definition take_checksum_flip (f : FaultFile F) (off len : nat) : option nat :=
  match ff_checksum_flip f with
  | Some flip => if ((off <=? flip) && (flip <? off + len))%nat then Some (flip - off)%nat else None
  | None => None
  end.

Definition fault_write_all_at (f : FaultFile F) (buf : list Z) (off : nat) : FaultFile F * bool :=
  match take_checksum_flip f off (length buf) with
  | Some idx =>
      let '(i, ok) := write_all_at (ff_inner f) (alter (fun b => Z.lxor b 1) idx buf) off in
      (with_inner f i (ff_torn_write f) None, ok)
  | None =>
      match ff_torn_write f with
      | Some prefix =>
          let '(i, _) := write_all_at (ff_inner f) (take (min (length buf) prefix) buf) off in
          (with_inner f i None (ff_checksum_flip f), false)
      | None =>
          if ff_fail_write f then (f, false)
          else let '(i, ok) := write_all_at (ff_inner f) buf off in
               (with_inner f i None (ff_checksum_flip f), ok)
      end
  end.

Definition fault_sync (sync : F -> F * bool) (f : FaultFile F) : FaultFile F * bool :=
  if ff_fail_sync f then (f, false)
  else let '(i, ok) := sync (ff_inner f) in (with_inner f i (ff_torn_write f) (ff_checksum_flip f), ok).

Definition fault_set_len (f : FaultFile F) (n : nat) : FaultFile F * bool :=
  let '(i, ok) := set_len (ff_inner f) n in (with_inner f i (ff_torn_write f) (ff_checksum_flip f), ok).
End fault.

(** ** The file as two images

    What the in-memory file means: the live bytes and the durable ones, with a
    data sync that copies everything. *)

Inductive FileOp :=
| OpWrite (buf : list Z) (off : nat)
| OpSyncData
| OpSyncAll
| OpSetLen (len : nat)
| OpPowerLoss
| OpPowerLossReorder (seed : Z).

Definition file_step (s : FileState) (o : FileOp) : FileState :=
  match o with
  | OpWrite buf off => fst (mem_write_all_at s buf off)
  | OpSyncData => mem_sync_data s
  | OpSyncAll => mem_sync_all s
  | OpSetLen len => mem_set_len s len
  | OpPowerLoss => simulate_power_loss s
  | OpPowerLossReorder seed => fst (simulate_power_loss_reorder s seed)
  end.

Definition image_step (i : list Z * list Z) (o : FileOp) : list Z * list Z :=
  let '(live, durable) := i in
  match o with
  | OpWrite buf off => (if u64_max <? Z.of_nat (off + length buf) then live else splice live off buf, durable)
  | OpSyncData => (live, live ++ drop (length live) durable)
  | OpSyncAll => (live, live)
  | OpSetLen len => (resize len 0 live, durable)
  | OpPowerLoss => (durable, durable)
  | OpPowerLossReorder seed =>
      let surplus := Z.of_nat (length live - length durable) in
      let image := durable ++ take (Z.to_nat (xorshift seed mod surplus)) (drop (length durable) live) in
      if decide (length live <= length durable)%nat then (durable, durable) else (image, image)
  end.

Definition images (s : FileState) : list Z * list Z := (fs_live s, fs_durable s).

(** ** Images, byte by byte *)

Lemma length_splice l off buf : length (splice l off buf) = max (length l) (off + length buf).
Proof.
  unfold splice. case_decide.
  - rewrite !length_app, length_take, length_drop, length_resize. lia.
  - rewrite !length_app, length_take, length_drop. lia.
Qed.

Lemma lookup_zero_resize n (l : list Z) i :
  resize n 0 l !! i = if decide (i < n)%nat then Some (default 0 (l !! i)) else None.
Proof.
  case_decide as Hi.
  - destruct (decide (i < length l)%nat) as [Hl|Hl].
    + rewrite lookup_resize by done. destruct (lookup_lt_is_Some_2 l i Hl) as [z ->]. done.
    + rewrite lookup_resize_new by lia. by rewrite lookup_ge_None_2 by lia.
  - by apply lookup_ge_None_2; rewrite length_resize; lia.
Qed.

Lemma lookup_splice l off buf i :
  splice l off buf !! i =
  if decide (off <= i < off + length buf)%nat then buf !! (i - off)%nat
  else if decide (i < length l)%nat then l !! i
  else if decide (i < off)%nat then Some 0 else None.
Proof.
  unfold splice. cbv zeta. set (l' := if decide (length l < off + length buf)%nat then _ else _).
  assert (Hl' : (off + length buf <= length l')%nat) by (unfold l'; case_decide; rewrite ?length_resize; lia).
  assert (Hi' : l' !! i = if decide (i < length l)%nat then l !! i
                          else if decide (i < off + length buf)%nat then Some 0 else None).
  { unfold l'. case_decide as Hc.
    - rewrite lookup_zero_resize. repeat case_decide; try lia; try done.
      + destruct (lookup_lt_is_Some_2 l i ltac:(done)) as [z Hz]. by rewrite Hz.
      + by rewrite lookup_ge_None_2 by lia.
    - repeat case_decide; try lia; try done. by rewrite lookup_ge_None_2 by lia. }
  destruct (decide (off <= i < off + length buf)%nat) as [Hi|Hi].
  - rewrite lookup_app_r by (rewrite length_take; lia). rewrite length_take, Nat.min_l by lia.
    by rewrite lookup_app_l by lia.
  - destruct (decide (i < off)%nat) as [Ho|Ho].
    + rewrite lookup_app_l by (rewrite length_take; lia). rewrite lookup_take_lt by done. rewrite Hi'.
      repeat case_decide; try lia; done.
    + rewrite app_assoc, lookup_app_r by (rewrite length_app, length_take; lia).
      rewrite length_app, length_take, Nat.min_l by lia. rewrite lookup_drop.
      replace (off + length buf + (i - (off + length buf)))%nat with i by lia. rewrite Hi'.
      repeat case_decide; try lia; done.
Qed.

(** A write at the end appends; one below it leaves what is before untouched. *)
Lemma splice_take l off buf n : (n <= off)%nat -> (n <= length l)%nat -> take n (splice l off buf) = take n l.
Proof.
  intros Hn Hl. apply list_eq. intros i. destruct (decide (i < n)%nat) as [Hi|Hi].
  - rewrite !lookup_take_lt, lookup_splice by done. repeat case_decide; try lia; done.
  - rewrite !lookup_take_ge by lia. done.
Qed.

Lemma splice_at l off buf :
  (off <= length l)%nat -> take (off + length buf) (splice l off buf) = take off l ++ buf.
Proof.
  intros Hl. apply list_eq. intros i. destruct (decide (i < off + length buf)%nat) as [Hi|Hi].
  - rewrite lookup_take_lt, lookup_splice by done. destruct (decide (off <= i < off + length buf)%nat) as [Ho|Ho].
    + rewrite lookup_app_r by (rewrite length_take; lia). by rewrite length_take, Nat.min_l by lia.
    + rewrite lookup_app_l by (rewrite length_take; lia). rewrite lookup_take_lt by lia. repeat case_decide; try lia; done.
  - rewrite lookup_take_ge by lia. symmetry. apply lookup_ge_None_2. rewrite length_app, length_take. lia.
Qed.

Lemma blend_refl_l a b : blend a b a.
Proof. by left. Qed.
Lemma blend_refl_r a b : blend a b b.
Proof. by right. Qed.

Lemma blend_prefix a b m n : blend a b m -> take n b = take n a -> take n m = take n a.
Proof.
  intros Hm Hn. apply list_eq. intros i. destruct (decide (i < n)%nat) as [Hi|Hi].
  - rewrite !lookup_take_lt by done. destruct (Hm i) as [->| ->]; [done|].
    rewrite <- (lookup_take_lt b n i), <- (lookup_take_lt a n i) by done. by rewrite Hn.
  - rewrite !lookup_take_ge by lia. done.
Qed.

Lemma length_copy_range src dst r :
  (fst r <= snd r)%nat -> (snd r <= length src)%nat -> (snd r <= length dst)%nat ->
  length (copy_range src dst r) = length dst.
Proof. intros. unfold copy_range. rewrite !length_app, !length_take, !length_drop. lia. Qed.

Lemma lookup_copy_range src dst r i :
  (fst r <= snd r)%nat -> (snd r <= length src)%nat -> (snd r <= length dst)%nat ->
  copy_range src dst r !! i = if decide (fst r <= i < snd r)%nat then src !! i else dst !! i.
Proof.
  intros H1 H2 H3. unfold copy_range. destruct (decide (i < fst r)%nat) as [Hi|Hi].
  - rewrite lookup_app_l by (rewrite length_take; lia). rewrite lookup_take_lt by done. case_decide; [lia|done].
  - rewrite lookup_app_r by (rewrite length_take; lia). rewrite length_take, Nat.min_l by lia. case_decide as Hr.
    + rewrite lookup_app_l by (rewrite length_take, length_drop; lia). rewrite lookup_take_lt by lia.
      rewrite lookup_drop. f_equal. lia.
    + rewrite lookup_app_r by (rewrite length_take, length_drop; lia).
      rewrite length_take, length_drop, lookup_drop. f_equal. lia.
Qed.

(** ** The dirty ranges *)

Definition covered (d : list (nat * nat)) (i : nat) : Prop := Exists (fun r => fst r <= i < snd r)%nat d.

#[global] Instance covered_dec d i : Decision (covered d i).
Proof. unfold covered. apply _. Defined.

Lemma covered_app d1 d2 i : covered (d1 ++ d2) i <-> covered d1 i \/ covered d2 i.
Proof. apply Exists_app. Qed.
Lemma covered_cons r d i : covered (r :: d) i <-> (fst r <= i < snd r)%nat \/ covered d i.
Proof. apply Exists_cons. Qed.
Lemma covered_nil i : ~ covered [] i.
Proof. intros Hc. by apply Exists_nil in Hc. Qed.
Lemma covered_perm d1 d2 i : d1 ≡ₚ d2 -> covered d1 i <-> covered d2 i.
Proof. intros Hp. unfold covered. by rewrite Hp. Qed.

Lemma merge_ranges_covered todo merged i :
  StronglySorted pair_le todo ->
  (forall m0 m1 rest, merged = (m0, m1) :: rest -> Forall (fun r => m0 <= fst r)%nat todo) ->
  covered (merge_ranges merged todo) i <-> covered merged i \/ covered todo i.
Proof.
  revert merged. induction todo as [|[x y] todo IH]; intros merged Hs Hm.
  - cbn. rewrite (covered_perm (rev merged) merged) by (symmetry; apply Permutation_rev).
    pose proof (covered_nil i). tauto.
  - apply StronglySorted_inv in Hs as [Hs Hle]. cbn [merge_ranges].
    assert (Hx : Forall (fun r => x <= fst r)%nat todo).
    { eapply Forall_impl; [exact Hle|]. intros r Hr. unfold pair_le in Hr. simpl in Hr. lia. }
    destruct merged as [|[m0 m1] rest].
    + rewrite IH; [|done|intros ? ? ? [= <- <- <-]; done].
      rewrite !covered_cons. cbn. pose proof (covered_nil i). tauto.
    + specialize (Hm m0 m1 rest eq_refl). apply Forall_cons in Hm as [Hm0 Hm].
      destruct (Nat.leb_spec x m1).
      * rewrite IH; [|done|intros ? ? ? [= <- <- <-]; done]. rewrite !covered_cons. cbn in *.
        assert ((m0 <= i < m1 `max` y)%nat <-> (m0 <= i < m1)%nat \/ (x <= i < y)%nat) as -> by lia. tauto.
      * rewrite IH; [|done|intros ? ? ? [= <- <- <-]; done]. rewrite !covered_cons. cbn. tauto.
Qed.

#[global] Instance pair_le_trans : Transitive pair_le.
Proof. intros x y z. unfold pair_le. lia. Qed.
#[global] Instance pair_le_total : Total pair_le.
Proof. intros x y. unfold pair_le. lia. Qed.

Lemma mark_dirty_covered d a b i : covered (mark_dirty d a b) i <-> covered d i \/ (a <= i < b)%nat.
Proof.
  unfold mark_dirty. destruct (Nat.leb_spec b a); [intuition lia|].
  assert (Hone : covered [(a, b)] i <-> (a <= i < b)%nat).
  { rewrite covered_cons. cbn. pose proof (covered_nil i). tauto. }
  destruct (last d) as [[l0 l1]|] eqn:Hl.
  2: { apply last_None in Hl as ->. rewrite covered_app, Hone. tauto. }
  apply last_Some in Hl as [d' ->]. destruct (Nat.leb_spec l0 a); [destruct (Nat.leb_spec a l1)|].
  - rewrite length_app. cbn [length]. rewrite Nat.add_sub, take_app_length, !covered_app, !covered_cons. cbn.
    assert ((l0 <= i < l1 `max` b)%nat <-> (l0 <= i < l1)%nat \/ (a <= i < b)%nat) as -> by lia.
    pose proof (covered_nil i). tauto.
  - rewrite covered_app, Hone. tauto.
  - rewrite merge_ranges_covered; [|apply StronglySorted_merge_sort; apply _|done].
    rewrite (covered_perm (merge_sort pair_le _) ((d' ++ [(l0, l1)]) ++ [(a, b)])) by apply merge_sort_Permutation.
    rewrite (covered_app (d' ++ _)), Hone. pose proof (covered_nil i). tauto.
Qed.

Lemma clamp_dirty_covered len d i : covered (clamp_dirty len d) i <-> covered d i /\ (i < len)%nat.
Proof.
  induction d as [|[a b] d IH]; [cbn; pose proof (covered_nil i); tauto|].
  cbn [clamp_dirty]. rewrite covered_cons. cbn [fst snd]. destruct (Nat.leb_spec len a).
  - rewrite IH. cbn. intuition lia.
  - destruct (Nat.ltb_spec a (b `min` len)); rewrite ?covered_cons, IH; cbn [fst snd]; intuition lia.
Qed.

(** Every live byte outside the dirty ranges is the durable one. *)
Definition dirty_sound (s : FileState) : Prop :=
  forall i, (i < length (fs_live s))%nat -> ~ covered (fs_dirty s) i -> fs_live s !! i = fs_durable s !! i.

Lemma foldl_copy_lookup live (clamp : nat * nat -> nat * nat) ranges d i :
  (forall r, fst (clamp r) <= snd (clamp r) /\ snd (clamp r) <= length live)%nat -> (length live <= length d)%nat ->
  let d' := foldl (fun d r => copy_range live d (clamp r)) d ranges in
  length d' = length d /\
  d' !! i = if decide (covered (map clamp ranges) i) then live !! i else d !! i.
Proof.
  intros Hc. revert d. induction ranges as [|r ranges IH]; intros d Hd; cbn.
  { split; [done|]. case_decide as Hn; [by apply covered_nil in Hn|done]. }
  destruct (Hc r) as [H1 H2].
  assert (Hl : length (copy_range live d (clamp r)) = length d) by (apply length_copy_range; lia).
  destruct (IH (copy_range live d (clamp r)) ltac:(lia)) as [IH1 IH2]. split; [lia|]. rewrite IH2.
  rewrite lookup_copy_range by lia.
  assert (Hco : covered (clamp r :: map clamp ranges) i <->
    (fst (clamp r) <= i < snd (clamp r))%nat \/ covered (map clamp ranges) i) by apply covered_cons.
  repeat case_decide; try done; tauto.
Qed.

(** Copying the dirty ranges alone leaves the image copying everything would. *)
Lemma mem_sync_data_image s :
  dirty_sound s -> fs_durable (mem_sync_data s) = fs_live s ++ drop (length (fs_live s)) (fs_durable s).
Proof.
  intros Hs. unfold mem_sync_data. cbn [fs_durable]. set (d := if decide _ then _ else _).
  set (clamp := clamp_range (length (fs_live s))).
  assert (Hd : (length (fs_live s) <= length d)%nat /\ length d = max (length (fs_live s)) (length (fs_durable s))).
  { unfold d. case_decide; rewrite ?length_resize; lia. }
  assert (Hc : forall r, (fst (clamp r) <= snd (clamp r) /\ snd (clamp r) <= length (fs_live s))%nat).
  { intros r. unfold clamp, clamp_range. cbn. lia. }
  apply list_eq. intros i.
  destruct (foldl_copy_lookup (fs_live s) clamp (fs_dirty s) d i Hc ltac:(lia)) as [_ ->].
  assert (Hmap : covered (map clamp (fs_dirty s)) i <-> covered (fs_dirty s) i /\ (i < length (fs_live s))%nat).
  { induction (fs_dirty s) as [|[a b] l IH]; [cbn; pose proof (covered_nil i); tauto|].
    cbn [map]. rewrite !covered_cons, IH. unfold clamp, clamp_range. cbn. intuition lia. }
  destruct (decide (i < length (fs_live s))%nat) as [Hi|Hi].
  - rewrite lookup_app_l by done. case_decide as Hcov; [done|]. rewrite (Hs i Hi) by tauto.
    unfold d. case_decide; [|done]. rewrite lookup_zero_resize. rewrite decide_True by done.
    rewrite <- (Hs i Hi) by tauto. destruct (lookup_lt_is_Some_2 _ _ Hi) as [z Hz]. by rewrite Hz.
  - rewrite lookup_app_r by lia. rewrite lookup_drop, decide_False by (rewrite Hmap; tauto).
    replace (length (fs_live s) + (i - length (fs_live s)))%nat with i by lia.
    unfold d. case_decide; [|done]. rewrite lookup_ge_None_2 by (rewrite length_resize; lia).
    by rewrite lookup_ge_None_2 by lia.
Qed.

Lemma mem_write_sound s buf off s' b :
  dirty_sound s -> mem_write_all_at s buf off = (s', b) -> dirty_sound s'.
Proof.
  intros Hs. unfold mem_write_all_at. case_match; intros [= <- <-]; [done|].
  intros i Hi Hc. cbn in *. rewrite mark_dirty_covered in Hc. rewrite length_splice in Hi.
  rewrite lookup_splice. rewrite decide_False by lia. case_decide; [apply Hs; tauto|].
  exfalso. apply Hc. right. lia.
Qed.

Lemma mem_set_len_sound s len : dirty_sound s -> dirty_sound (mem_set_len s len).
Proof.
  intros Hs i Hi Hc. cbn in *. rewrite length_resize in Hi. rewrite lookup_zero_resize, decide_True by done.
  case_decide as Hl.
  - rewrite mark_dirty_covered in Hc. rewrite <- Hs by (tauto || lia).
    destruct (lookup_lt_is_Some_2 (fs_live s) i) as [z Hz]; [lia|by rewrite Hz].
  - rewrite clamp_dirty_covered in Hc. rewrite <- Hs by (tauto || lia).
    destruct (lookup_lt_is_Some_2 (fs_live s) i) as [z Hz]; [lia|by rewrite Hz].
Qed.

(** ** The instances *)

#[export] Program Instance mem_file : RandomAccessFile FileState := {|
  f_sound := dirty_sound;
  f_live := fs_live;
  f_durable := fs_durable;
  read_at s n off := Some (mem_read_at s n off);
  write_all_at := mem_write_all_at;
  sync_data s := (mem_sync_data s, true);
  sync_all s := (mem_sync_all s, true);
  set_len s n := (mem_set_len s n, true)
|}.
Next Obligation.
  intros s n off b [= <-]. unfold mem_read_at. case_decide as Hl.
  - split; [apply prefix_nil|]. split; [cbn; lia|]. intros _. right. by apply drop_ge.
  - split; [apply prefix_take|]. rewrite length_take, length_drop. split; [lia|].
    intros Hn. apply (f_equal length) in Hn. rewrite length_take, length_drop in Hn. cbn in Hn. left. lia.
Qed.
Next Obligation.
  intros s buf off s' Hs Hw. split; [by eapply mem_write_sound|].
  unfold mem_write_all_at in Hw. case_match; [done|]. by injection Hw as <-.
Qed.
Next Obligation.
  intros s buf off s' Hs Hw. unfold mem_write_all_at in Hw. case_match; [|done]. injection Hw as <-. auto.
Qed.
Next Obligation.
  intros s s' Hs [= <-]. split; [|by rewrite mem_sync_data_image].
  intros i Hi _. cbn [fs_live mem_sync_data] in *. rewrite mem_sync_data_image by done. by rewrite lookup_app_l.
Qed.
Next Obligation. intros s s' Hs [= <-]. done. Qed.
Next Obligation. done. Qed.
Next Obligation. done. Qed.
Next Obligation. intros s n s' Hs [= <-]. split; [by apply mem_set_len_sound|done]. Qed.
Next Obligation. done. Qed.

#[export] Program Instance fault_file `{RandomAccessFile F} : RandomAccessFile (FaultFile F) := {|
  f_sound f := f_sound (ff_inner f) /\ ff_checksum_flip f = None;
  f_live f := f_live (ff_inner f);
  f_durable f := f_durable (ff_inner f);
  read_at := fault_read_at;
  write_all_at := fault_write_all_at;
  sync_data := fault_sync sync_data;
  sync_all := fault_sync sync_all;
  set_len := fault_set_len
|}.
Next Obligation.
  intros F HF f n off b. unfold fault_read_at. case_match; [done|]. case_match eqn:Hs; intros Hr; apply read_at_spec in Hr; [|done].
  apply Nat.ltb_lt in Hs. destruct Hr as (? & ? & Hn). split; [done|]. split; [lia|].
  intros Hb. destruct (Hn Hb) as [Hz|]; [left; lia|by right].
Qed.
Next Obligation.
  intros F HF f buf off f' [Hs Hf] Hw. unfold fault_write_all_at, take_checksum_flip in Hw. rewrite Hf in Hw.
  case_match; [destruct (write_all_at _ _ _); done|]. case_match; [done|].
  destruct (write_all_at (ff_inner f) buf off) as [i ok] eqn:Hi. injection Hw as <- ->.
  destruct (write_ok _ _ _ _ Hs Hi) as (? & ? & ?). done.
Qed.
Next Obligation.
  intros F HF f buf off f' [Hs Hf] Hw. unfold fault_write_all_at, take_checksum_flip in Hw. rewrite Hf in Hw.
  case_match eqn:Ht.
  - destruct (write_all_at (ff_inner f) _ off) as [i ok] eqn:Hi. injection Hw as <-. cbn. destruct ok.
    + destruct (write_ok _ _ _ _ Hs Hi) as (? & ? & ?). repeat split; try done. right. eauto.
    + destruct (write_err _ _ _ _ Hs Hi) as (? & ? & [Hl|[k Hl]]); repeat split; try done; [by left|].
      right. rewrite take_take in Hl. eauto.
  - case_match; [by injection Hw as <-; auto|].
    destruct (write_all_at (ff_inner f) buf off) as [i ok] eqn:Hi. injection Hw as <- ->.
    by destruct (write_err _ _ _ _ Hs Hi) as (? & ? & ?).
Qed.
Next Obligation.
  intros F HF f f' [Hs Hf]. unfold fault_sync. case_match; [done|].
  destruct (sync_data (ff_inner f)) as [i ok] eqn:Hi. intros [= <- ->].
  by destruct (sync_data_ok _ _ Hs Hi) as (? & ? & ?).
Qed.
Next Obligation.
  intros F HF f f' [Hs Hf]. unfold fault_sync. case_match; [done|].
  destruct (sync_all (ff_inner f)) as [i ok] eqn:Hi. intros [= <- ->].
  by destruct (sync_all_ok _ _ Hs Hi) as (? & ? & ?).
Qed.
Next Obligation.
  intros F HF f f' [Hs Hf]. unfold fault_sync. case_match; [intros [= <-]; split_and!; try done; apply blend_refl_l|].
  destruct (sync_data (ff_inner f)) as [i ok] eqn:Hi. intros [= <- ->].
  by destruct (sync_data_err _ _ Hs Hi) as (? & ? & ?).
Qed.
Next Obligation.
  intros F HF f f' [Hs Hf]. unfold fault_sync. case_match; [intros [= <-]; split_and!; try done; apply blend_refl_l|].
  destruct (sync_all (ff_inner f)) as [i ok] eqn:Hi. intros [= <- ->].
  by destruct (sync_all_err _ _ Hs Hi) as (? & ? & ?).
Qed.
Next Obligation.
  intros F HF f n f' [Hs Hf]. unfold fault_set_len.
  destruct (set_len (ff_inner f) n) as [i ok] eqn:Hi. intros [= <- ->].
  by destruct (set_len_ok _ _ _ Hs Hi) as (? & ? & ?).
Qed.
Next Obligation.
  intros F HF f n f' [Hs Hf]. unfold fault_set_len.
  destruct (set_len (ff_inner f) n) as [i ok] eqn:Hi. intros [= <- ->].
  by destruct (set_len_err _ _ _ Hs Hi) as (? & ? & ?).
Qed.

(** ** Theorems *)

Lemma file_step_images s o :
  dirty_sound s -> dirty_sound (file_step s o) /\ images (file_step s o) = image_step (images s) o.
Proof.
  intros Hs. destruct o as [buf off| | |len| |seed]; cbn [file_step image_step images].
  - unfold mem_write_all_at. destruct (mem_write_all_at s buf off) as [s' b] eqn:Hw.
    pose proof (mem_write_sound _ _ _ _ _ Hs Hw). unfold mem_write_all_at in Hw. unfold images.
    case_match; injection Hw as <- <-; auto.
  - destruct (@sync_data_ok _ mem_file s _ Hs eq_refl) as (H1 & _ & _).
    split; [exact H1|]. unfold images. by rewrite mem_sync_data_image.
  - by split.
  - split; [by apply mem_set_len_sound|done].
  - by split.
  - unfold simulate_power_loss_reorder, images. case_decide; by split.
Qed.

(** C21: The dirty-range bookkeeping is invisible.  Over any sequence of writes
    (in any order and position), truncations and growths, data syncs, full
    syncs and power losses, the in-memory file shows and keeps exactly the bytes
    of a file whose data sync copies everything. *)
Theorem dirty_sync_exact ops s :
  dirty_sound s -> images (foldl file_step s ops) = foldl image_step (images s) ops.
Proof.
  revert s. induction ops as [|o ops IH]; intros s Hs; [done|]. cbn [foldl].
  destruct (file_step_images s o Hs) as [Hs' <-]. by apply IH.
Qed.

Lemma dirty_sync_exact_witness :
  images (foldl file_step (mem_from_bytes [1; 2; 3; 4])
    [OpWrite [9; 9] 6; OpWrite [7] 0; OpWrite [5; 5; 5] 2; OpSetLen 7; OpSyncData; OpPowerLoss])
  = ([7; 2; 5; 5; 5; 0; 9], [7; 2; 5; 5; 5; 0; 9]).
Proof.
  rewrite (dirty_sync_exact _ (mem_from_bytes [1; 2; 3; 4])); [reflexivity|]. intros i _ _. reflexivity.
Defined.

(** What a power cut leaves: every synced byte, and a strict prefix of the
    unsynced surplus. *)
Lemma power_loss_reorder_image s seed :
  let s' := fst (simulate_power_loss_reorder s seed) in
  exists k, fs_live s' = fs_durable s ++ take k (drop (length (fs_durable s)) (fs_live s)) /\
    ((length (fs_durable s) < length (fs_live s))%nat -> (length (fs_durable s) + k < length (fs_live s))%nat).
Proof.
  cbn. unfold simulate_power_loss_reorder. case_decide as Hl.
  - exists 0%nat. cbn. rewrite app_nil_r. split; [done|lia].
  - cbn. eexists. split; [done|]. intros Hs.
    pose proof (Z.mod_pos_bound (xorshift seed) (Z.of_nat (length (fs_live s) - length (fs_durable s)))). lia.
Qed.

Definition read_exactly `{RandomAccessFile F} (f : F) (n off : nat) (r : res (list Z) ReadError) : Prop :=
  match r with
  | Ok b => b = take n (drop off (f_live f)) /\ length b = n
  | Err UnexpectedEof => (length (f_live f) < off + n)%nat
  | Err ReadIo => exists n' off', read_at f n' off' = None
  | Panic => False
  end.

Lemma read_exact_fuel_spec `{RandomAccessFile F} (f : F) fuel n off :
  (n <= fuel)%nat -> read_exactly f n off (read_exact_fuel fuel f n off).
Proof.
  unfold read_exactly.
  revert n off. induction fuel as [|fuel IH]; intros [|n] off Hn; [done|lia|done|]. cbn.
  destruct (read_at f (S n) off) as [[|z b]|] eqn:Hr; [| |eauto].
  - apply read_at_spec in Hr as (_ & _ & He). destruct (He eq_refl) as [|Hd]; [lia|].
    apply (f_equal length) in Hd. rewrite length_drop in Hd. cbn in Hd. lia.
  - apply read_at_spec in Hr as ([rest Hd] & Hl & _). cbn in Hl.
    assert (Hrest : drop (off + S (length b)) (f_live f) = rest).
    { rewrite <- drop_drop, Hd. by apply (drop_app_length' (z :: b)). }
    specialize (IH (n - length b)%nat (off + S (length b))%nat ltac:(lia)).
    cbn [length Nat.sub]. revert IH. destruct (read_exact_fuel fuel f _ _) as [x|[]|]; cbn; intros IH; [|exact IH|lia|exact IH].
    destruct IH as [-> IHl]. rewrite Hrest in *. split; [|cbn; rewrite length_app; lia].
    rewrite Hd. change (z :: b ++ rest) with ((z :: b) ++ rest). rewrite take_app. cbn. f_equal.
    by rewrite (take_ge b n) by lia.
Qed.

(** C40: Reading exactly [n] bytes ends and is exact: whatever pieces the
    backend hands out, at most [n] reads fill the buffer with the bytes at the
    offset, or report the end of the file exactly when it is there; with no read
    error injected, one of the two happens. *)
Theorem read_exact_total `{RandomAccessFile F} (f : F) n off :
  match read_exact_at f n off with
  | Ok b => b = take n (drop off (f_live f)) /\ length b = n
  | Err UnexpectedEof => (length (f_live f) < off + n)%nat
  | Err ReadIo => exists n' off', read_at f n' off' = None
  | Panic => False
  end.
Proof.
  exact (read_exact_fuel_spec f n n off (le_n n)).
Qed.
