(* ===== verification/SegmentFormat.v ===== *)
(** * Segment headers, footers and compaction metadata ([core/src/segment.rs])

    The 64-byte header every segment file starts with, the 32-byte footer a
    sealed one ends with, and the 44-byte block a compacted one carries after
    its footer.  All three are little-endian and protected by a CRC32C. *)

From S2P Require Import Prelude Bytes Codec.

(** ** Layout *)

Definition SEGMENT_MAGIC : list Z := [73; 82; 79; 78; 66; 85; 83; 0].
Definition SEGMENT_HEADER_LEN : nat := 64.
Definition SEGMENT_FOOTER_LEN : nat := 32.
Definition COMPACTION_META_LEN : nat := 44.
Definition CHECKSUM_ALGO_CRC32C : Z := 1.
Definition FORMAT_VERSION_COMPACTED : Z := 2.
Definition SEGMENT_FLAG_COMPACTED : Z := 1.
Definition SEGMENT_FLAG_ENCRYPTED : Z := 2.
Definition SEGMENT_FOOTER_MAGIC : Z := 18003.
Definition AEAD_SUITE_NONE : Z := 0.

(** ** Data *)

Record SegmentHeader := mk_header {
  sh_segment_id : Z;
  sh_base_seq : Z;
  sh_base_offset : Z;
  sh_created_unix_ms : Z;
  sh_flags : Z
}.

Record SegmentFooter := mk_footer {
  sf_segment_id : Z;
  sf_last_seq : Z;
  sf_record_count : Z
}.

Record CompactionMeta := mk_meta {
  cm_covered_base_offset : Z;
  cm_covered_end_offset : Z;
  cm_covered_base_seq : Z;
  cm_covered_end_seq : Z;
  cm_highest_covered_source_id : Z
}.

Inductive SegmentError :=
| SegTruncated
| SegBadMagic
| SegUnsupportedVersion (version : Z)
| SegUnsupportedChecksumAlgo (algo : Z)
| SegBadCrc.

Definition is_compacted (h : SegmentHeader) : bool := negb (Z.land (sh_flags h) SEGMENT_FLAG_COMPACTED =? 0).
Definition is_encrypted (h : SegmentHeader) : bool := negb (Z.land (sh_flags h) SEGMENT_FLAG_ENCRYPTED =? 0).

Section segment_format.
Context `{Crc32c}.

(** ** Header *)

(** Bytes [0, 60). *)
Definition seg_header_prefix (h : SegmentHeader) (flags aead_suite key_id : Z) : list Z :=
  SEGMENT_MAGIC ++ [if is_compacted h then FORMAT_VERSION_COMPACTED else FORMAT_VERSION] ++ [CHECKSUM_ALGO_CRC32C] ++
  le_bytes 2 flags ++ le_bytes 8 (sh_segment_id h) ++ le_bytes 8 (sh_base_seq h) ++ le_bytes 8 (sh_base_offset h) ++
  le_bytes 8 (sh_created_unix_ms h) ++ [aead_suite] ++ le_bytes 8 key_id ++ replicate 7 0.

Definition header_encode_inner (h : SegmentHeader) (flags aead_suite key_id : Z) : list Z :=
  let p := seg_header_prefix h flags aead_suite key_id in p ++ le_bytes 4 (crc32c p).
Definition header_encode (h : SegmentHeader) : list Z := header_encode_inner h (sh_flags h) AEAD_SUITE_NONE 0.
Definition header_encode_encrypted (h : SegmentHeader) (aead_suite key_id : Z) : list Z :=
  header_encode_inner h (Z.lor (sh_flags h) SEGMENT_FLAG_ENCRYPTED) aead_suite key_id.

Definition aead_params (bytes : list Z) : res (option (Z * Z)) SegmentError :=
  if bool_decide (length bytes < SEGMENT_HEADER_LEN)%nat then Ok None
  else
    let? flags := or_panic (read_u16 bytes 10) in
    if Z.land flags SEGMENT_FLAG_ENCRYPTED =? 0 then Ok None
    else
      let? suite := or_panic (read_u8 bytes 44) in
      let? key_id := or_panic (read_u64 bytes 45) in
      Ok (Some (suite, key_id)).

Definition header_decode_inner (bytes : list Z) (allow_v2 : bool) : res SegmentHeader SegmentError :=
  fail? bool_decide (length bytes < SEGMENT_HEADER_LEN)%nat with SegTruncated in
  let? magic := or_panic (slice bytes 0 8) in
  fail? negb (bool_decide (magic = SEGMENT_MAGIC)) with SegBadMagic in
  let? version := or_panic (read_u8 bytes 8) in
  let? flags := or_panic (read_u16 bytes 10) in
  let compacted := negb (Z.land flags SEGMENT_FLAG_COMPACTED =? 0) in
  let v1_ok := (version =? FORMAT_VERSION) && negb compacted in
  let v2_ok := allow_v2 && (version =? FORMAT_VERSION_COMPACTED) && compacted in
  fail? negb (v1_ok || v2_ok) with SegUnsupportedVersion version in
  let? algo := or_panic (read_u8 bytes 9) in
  fail? negb (algo =? CHECKSUM_ALGO_CRC32C) with SegUnsupportedChecksumAlgo algo in
  let? covered := or_panic (slice bytes 0 60) in
  let? stored := or_panic (read_u32 bytes 60) in
  fail? negb (crc32c covered =? stored) with SegBadCrc in
  let? segment_id := or_panic (read_u64 bytes 12) in
  let? base_seq := or_panic (read_u64 bytes 20) in
  let? base_offset := or_panic (read_u64 bytes 28) in
  let? created := or_panic (read_u64 bytes 36) in
  Ok (mk_header segment_id base_seq base_offset created flags).
Definition header_decode (bytes : list Z) := header_decode_inner bytes true.
Definition decode_v1_only (bytes : list Z) := header_decode_inner bytes false.

(** ** Footer *)

Definition footer_prefix (f : SegmentFooter) (version : Z) : list Z :=
  le_bytes 2 SEGMENT_FOOTER_MAGIC ++ [version] ++ [CHECKSUM_ALGO_CRC32C] ++ le_bytes 8 (sf_segment_id f) ++
  le_bytes 8 (sf_last_seq f) ++ le_bytes 4 (sf_record_count f) ++ replicate 4 0.
Definition encode_with_version (f : SegmentFooter) (version : Z) : list Z :=
  let p := footer_prefix f version in p ++ le_bytes 4 (crc32c p).
Definition footer_encode (f : SegmentFooter) : list Z := encode_with_version f FORMAT_VERSION.
Definition footer_encode_v2 (f : SegmentFooter) : list Z := encode_with_version f FORMAT_VERSION_COMPACTED.

Definition footer_decode (bytes : list Z) : res SegmentFooter SegmentError :=
  fail? bool_decide (length bytes < SEGMENT_FOOTER_LEN)%nat with SegTruncated in
  let? magic := or_panic (read_u16 bytes 0) in
  fail? negb (magic =? SEGMENT_FOOTER_MAGIC) with SegBadMagic in
  let? version := or_panic (read_u8 bytes 2) in
  fail? negb (version =? FORMAT_VERSION) && negb (version =? FORMAT_VERSION_COMPACTED) with SegUnsupportedVersion version in
  let? algo := or_panic (read_u8 bytes 3) in
  fail? negb (algo =? CHECKSUM_ALGO_CRC32C) with SegUnsupportedChecksumAlgo algo in
  let? covered := or_panic (slice bytes 0 28) in
  let? stored := or_panic (read_u32 bytes 28) in
  fail? negb (crc32c covered =? stored) with SegBadCrc in
  let? segment_id := or_panic (read_u64 bytes 4) in
  let? last_seq := or_panic (read_u64 bytes 12) in
  let? record_count := or_panic (read_u32 bytes 20) in
  Ok (mk_footer segment_id last_seq record_count).

(** ** Compaction metadata *)

Definition meta_prefix (m : CompactionMeta) : list Z :=
  le_bytes 8 (cm_covered_base_offset m) ++ le_bytes 8 (cm_covered_end_offset m) ++ le_bytes 8 (cm_covered_base_seq m) ++
  le_bytes 8 (cm_covered_end_seq m) ++ le_bytes 8 (cm_highest_covered_source_id m).
Definition meta_encode (m : CompactionMeta) : list Z := meta_prefix m ++ le_bytes 4 (crc32c (meta_prefix m)).

Definition meta_decode (bytes : list Z) : res CompactionMeta SegmentError :=
  fail? bool_decide (length bytes < COMPACTION_META_LEN)%nat with SegTruncated in
  let? covered := or_panic (slice bytes 0 40) in
  let? stored := or_panic (read_u32 bytes 40) in
  fail? negb (crc32c covered =? stored) with SegBadCrc in
  let? base_offset := or_panic (read_u64 bytes 0) in
  let? end_offset := or_panic (read_u64 bytes 8) in
  let? base_seq := or_panic (read_u64 bytes 16) in
  let? end_seq := or_panic (read_u64 bytes 24) in
  let? highest := or_panic (read_u64 bytes 32) in
  Ok (mk_meta base_offset end_offset base_seq end_seq highest).

(** ** Round trips *)

Definition header_ok (h : SegmentHeader) : Prop :=
  is_u64 (sh_segment_id h) /\ is_u64 (sh_base_seq h) /\ is_u64 (sh_base_offset h) /\
  is_u64 (sh_created_unix_ms h) /\ is_u16 (sh_flags h).
Definition footer_ok (f : SegmentFooter) : Prop :=
  is_u64 (sf_segment_id f) /\ is_u64 (sf_last_seq f) /\ is_u32 (sf_record_count f).
Definition cmeta_ok (m : CompactionMeta) : Prop :=
  is_u64 (cm_covered_base_offset m) /\ is_u64 (cm_covered_end_offset m) /\ is_u64 (cm_covered_base_seq m) /\
  is_u64 (cm_covered_end_seq m) /\ is_u64 (cm_highest_covered_source_id m).

(** Read the field at a position of a buffer written field by field. *)
Ltac at_field :=
  repeat (rewrite read_le_app_r by (rewrite ?length_le_bytes, ?length_replicate; cbn [length SEGMENT_MAGIC]; lia);
          rewrite ?length_le_bytes, ?length_replicate; cbn [length SEGMENT_MAGIC Nat.sub]);
  apply read_le_head; eauto with bytes.

(** A block followed by its CRC. *)
Lemma crc_block p rest n :
  length p = n ->
  slice ((p ++ le_bytes 4 (crc32c p)) ++ rest) 0 n = Some p /\
  read_u32 ((p ++ le_bytes 4 (crc32c p)) ++ rest) n = Some (crc32c p).
Proof.
  intros <-. rewrite <- app_assoc. split; [apply (slice_at _ _ _ _ (le_bytes 4 (crc32c p) ++ rest)); (done || lia)|].
  unfold read_u32. rewrite read_le_mid by (rewrite ?length_le_bytes; done). by rewrite le_val_le_bytes by eauto with bytes.
Qed.

Lemma read_in_block n p rest pos z :
  read_le n p pos = Some z -> read_le n ((p ++ le_bytes 4 (crc32c p)) ++ rest) pos = Some z.
Proof.
  intros Hr. pose proof (read_le_range _ _ _ _ Hr). rewrite <- app_assoc, read_le_app_l; done.
Qed.

Lemma length_header_encode_inner h flags suite key : length (header_encode_inner h flags suite key) = SEGMENT_HEADER_LEN.
Proof. unfold header_encode_inner, seg_header_prefix. rewrite !length_app, !length_le_bytes. reflexivity. Qed.
Lemma length_header_encode h : length (header_encode h) = SEGMENT_HEADER_LEN.
Proof. apply length_header_encode_inner. Qed.
Lemma length_encode_with_version f v : length (encode_with_version f v) = SEGMENT_FOOTER_LEN.
Proof. unfold encode_with_version, footer_prefix. rewrite !length_app, !length_le_bytes, length_replicate. reflexivity. Qed.
Lemma length_footer_encode f : length (footer_encode f) = SEGMENT_FOOTER_LEN.
Proof. apply length_encode_with_version. Qed.
Lemma length_meta_encode m : length (meta_encode m) = COMPACTION_META_LEN.
Proof. unfold meta_encode, meta_prefix. rewrite !length_app, !length_le_bytes. reflexivity. Qed.

Lemma seg_header_fields h flags suite key :
  header_ok h -> is_u16 flags ->
  let p := seg_header_prefix h flags suite key in
  length p = 60%nat /\ take 8 p = SEGMENT_MAGIC /\
  p !! 8%nat = Some (if is_compacted h then FORMAT_VERSION_COMPACTED else FORMAT_VERSION) /\
  p !! 9%nat = Some CHECKSUM_ALGO_CRC32C /\ p !! 44%nat = Some suite /\
  read_u16 p 10 = Some flags /\ read_u64 p 12 = Some (sh_segment_id h) /\ read_u64 p 20 = Some (sh_base_seq h) /\
  read_u64 p 28 = Some (sh_base_offset h) /\ read_u64 p 36 = Some (sh_created_unix_ms h) /\
  (is_u64 key -> read_u64 p 45 = Some key).
Proof.
  intros (H1 & H2 & H3 & H4 & _) Hf p. unfold p, seg_header_prefix, read_u16, read_u64.
  split; [rewrite !length_app, !length_le_bytes; reflexivity|]. split; [reflexivity|]. split; [reflexivity|]. split; [reflexivity|].
  split.
  { do 8 (rewrite lookup_app_r by (rewrite ?length_le_bytes; cbn [length SEGMENT_MAGIC]; lia);
      rewrite ?length_le_bytes; cbn [length SEGMENT_MAGIC Nat.sub]). reflexivity. }
  split; [at_field|]. split; [at_field|]. split; [at_field|]. split; [at_field|]. split; [at_field|]. intros Hk. at_field.
Qed.

Lemma header_decode_encode h flags suite key rest allow_v2 :
  header_ok h -> is_u16 flags -> negb (Z.land flags SEGMENT_FLAG_COMPACTED =? 0) = is_compacted h ->
  header_decode_inner (header_encode_inner h flags suite key ++ rest) allow_v2 =
  if is_compacted h && negb allow_v2 then Err (SegUnsupportedVersion FORMAT_VERSION_COMPACTED)
  else Ok (mk_header (sh_segment_id h) (sh_base_seq h) (sh_base_offset h) (sh_created_unix_ms h) flags).
Proof.
  intros Hh Hf Hc. destruct (seg_header_fields h flags suite key Hh Hf) as (Hl & P0 & P8 & P9 & _ & R10 & R12 & R20 & R28 & R36 & _).
  unfold header_decode_inner, header_encode_inner. set (p := seg_header_prefix h flags suite key) in *.
  assert (Hlen : (64 <= length ((p ++ le_bytes 4 (crc32c p)) ++ rest))%nat) by (rewrite !length_app, length_le_bytes; lia).
  destruct (crc_block p rest 60 Hl) as [-> ->].
  rewrite bool_decide_eq_false_2 by (unfold SEGMENT_HEADER_LEN; lia).
  rewrite slice_0 by lia. rewrite take_app_le by (rewrite length_app; lia). rewrite take_app_le by lia. rewrite P0.
  unfold read_u8. rewrite !(lookup_app_l (p ++ _)) by (rewrite length_app; lia). rewrite !(lookup_app_l p) by lia.
  rewrite P8, P9. unfold read_u16, read_u64 in *.
  rewrite (read_in_block _ p rest _ _ R10), (read_in_block _ p rest _ _ R12), (read_in_block _ p rest _ _ R20),
    (read_in_block _ p rest _ _ R28), (read_in_block _ p rest _ _ R36).
  cbn [or_panic res_bind]. rewrite bool_decide_eq_true_2 by done. rewrite Hc, Z.eqb_refl.
  destruct (is_compacted h), allow_v2; cbn; by rewrite ?Z.eqb_refl.
Qed.

Lemma footer_decode_encode f version rest :
  footer_ok f -> version = FORMAT_VERSION \/ version = FORMAT_VERSION_COMPACTED ->
  footer_decode (encode_with_version f version ++ rest) = Ok f.
Proof.
  intros (H1 & H2 & H3) Hv. unfold footer_decode, encode_with_version. set (p := footer_prefix f version).
  assert (Hl : length p = 28%nat) by (unfold p, footer_prefix; by rewrite !length_app, !length_le_bytes, length_replicate).
  assert (R0 : read_le 2 p 0 = Some SEGMENT_FOOTER_MAGIC) by (apply read_le_head; vm_compute; split; congruence).
  assert (R4 : read_le 8 p 4 = Some (sf_segment_id f)) by (unfold p, footer_prefix; at_field).
  assert (R12 : read_le 8 p 12 = Some (sf_last_seq f)) by (unfold p, footer_prefix; at_field).
  assert (R20 : read_le 4 p 20 = Some (sf_record_count f)) by (unfold p, footer_prefix; at_field).
  assert (P2 : p !! 2%nat = Some version /\ p !! 3%nat = Some CHECKSUM_ALGO_CRC32C).
  { unfold p, footer_prefix. split; (rewrite lookup_app_r by (rewrite length_le_bytes; lia)); by rewrite length_le_bytes. }
  destruct (crc_block p rest 28 Hl) as [-> ->]. destruct P2 as [P2 P3].
  rewrite bool_decide_eq_false_2 by (unfold SEGMENT_FOOTER_LEN; rewrite !length_app, length_le_bytes; lia).
  unfold read_u8, read_u16, read_u32, read_u64. rewrite !(lookup_app_l (p ++ _)) by (rewrite length_app; lia).
  rewrite !(lookup_app_l p) by lia. rewrite P2, P3.
  rewrite (read_in_block _ p rest _ _ R0), (read_in_block _ p rest _ _ R4), (read_in_block _ p rest _ _ R12),
    (read_in_block _ p rest _ _ R20).
  cbn [or_panic res_bind]. rewrite !Z.eqb_refl. destruct Hv as [-> | ->]; cbn; by destruct f.
Qed.

Lemma meta_decode_encode m rest : cmeta_ok m -> meta_decode (meta_encode m ++ rest) = Ok m.
Proof.
  intros (H1 & H2 & H3 & H4 & H5). unfold meta_decode, meta_encode. set (p := meta_prefix m).
  assert (Hl : length p = 40%nat) by (unfold p, meta_prefix; by rewrite !length_app, !length_le_bytes).
  assert (R0 : read_le 8 p 0 = Some (cm_covered_base_offset m)) by (unfold p, meta_prefix; at_field).
  assert (R8 : read_le 8 p 8 = Some (cm_covered_end_offset m)) by (unfold p, meta_prefix; at_field).
  assert (R16 : read_le 8 p 16 = Some (cm_covered_base_seq m)) by (unfold p, meta_prefix; at_field).
  assert (R24 : read_le 8 p 24 = Some (cm_covered_end_seq m)) by (unfold p, meta_prefix; at_field).
  assert (R32 : read_le 8 p 32 = Some (cm_highest_covered_source_id m)).
  { unfold p, meta_prefix. rewrite <- (app_nil_r (le_bytes 8 (cm_highest_covered_source_id m))). at_field. }
  destruct (crc_block p rest 40 Hl) as [-> ->].
  rewrite bool_decide_eq_false_2 by (unfold COMPACTION_META_LEN; rewrite !length_app, length_le_bytes; lia).
  unfold read_u64.
  rewrite (read_in_block _ p rest _ _ R0), (read_in_block _ p rest _ _ R8), (read_in_block _ p rest _ _ R16),
    (read_in_block _ p rest _ _ R24), (read_in_block _ p rest _ _ R32).
  cbn [or_panic res_bind]. rewrite Z.eqb_refl. cbn. by destruct m.
Qed.

(** *** No panics *)

Lemma header_decode_no_panic bytes allow_v2 : no_panic (header_decode_inner bytes allow_v2).
Proof. unfold header_decode_inner, SEGMENT_HEADER_LEN. by no_panic_walk. Qed.
Lemma footer_decode_no_panic bytes : no_panic (footer_decode bytes).
Proof. unfold footer_decode, SEGMENT_FOOTER_LEN. by no_panic_walk. Qed.
Lemma meta_decode_no_panic bytes : no_panic (meta_decode bytes).
Proof. unfold meta_decode, COMPACTION_META_LEN. by no_panic_walk. Qed.

(** *** The encryption bit *)

Lemma lor_lt_pow2 a b n : 0 <= n -> 0 <= a < 2 ^ n -> 0 <= b < 2 ^ n -> 0 <= Z.lor a b < 2 ^ n.
Proof.
  intros Hn Ha Hb. assert (H0 : 0 <= Z.lor a b) by (apply Z.lor_nonneg; lia). split; [done|].
  destruct (Z.eq_dec (Z.lor a b) 0) as [-> | Hz]; [lia|].
  apply Z.log2_lt_pow2; [lia|]. rewrite Z.log2_lor by lia.
  assert (Hlog : forall c, 0 <= c < 2 ^ n -> 0 < n -> Z.log2 c < n).
  { intros c Hc Hn0. destruct (Z.eq_dec c 0) as [-> | Hc0]; [simpl; lia|]. apply Z.log2_lt_pow2; lia. }
  assert (0 < n). { destruct (Z.eq_dec n 0) as [-> |]; [|lia]. exfalso. apply Hz. replace a with 0 by (simpl in *; lia).
    replace b with 0 by (simpl in *; lia). done. }
  pose proof (Hlog a Ha). pose proof (Hlog b Hb). lia.
Qed.

Lemma encrypted_flag f :
  is_u16 f ->
  let f' := Z.lor f SEGMENT_FLAG_ENCRYPTED in
  is_u16 f' /\ Z.land f' SEGMENT_FLAG_COMPACTED = Z.land f SEGMENT_FLAG_COMPACTED /\
  (Z.land f' SEGMENT_FLAG_ENCRYPTED =? 0) = false.
Proof.
  intros Hf f'. unfold f', SEGMENT_FLAG_ENCRYPTED, SEGMENT_FLAG_COMPACTED.
  split; [|split].
  - pose proof (lor_lt_pow2 f 2 16). change (2 ^ 16) with 65536 in *. ulia.
  - rewrite Z.land_lor_distr_l. change (Z.land 2 1) with 0. apply Z.lor_0_r.
  - rewrite Z.land_lor_distr_l. change (Z.land 2 2) with 2. apply Z.eqb_neq. rewrite Z.lor_eq_0_iff. lia.
Qed.

Lemma aead_params_encode h flags suite key rest :
  header_ok h -> is_u16 flags -> is_u64 key ->
  aead_params (header_encode_inner h flags suite key ++ rest) =
  Ok (if Z.land flags SEGMENT_FLAG_ENCRYPTED =? 0 then None else Some (suite, key)).
Proof.
  intros Hh Hf Hk. destruct (seg_header_fields h flags suite key Hh Hf) as (Hl & _ & _ & _ & P44 & R10 & _ & _ & _ & _ & R45).
  specialize (R45 Hk). unfold aead_params, header_encode_inner. set (p := seg_header_prefix h flags suite key) in *.
  rewrite bool_decide_eq_false_2 by (unfold SEGMENT_HEADER_LEN; rewrite !length_app, length_le_bytes; lia).
  unfold read_u8, read_u16, read_u64 in *. rewrite (read_in_block _ p rest _ _ R10), (read_in_block _ p rest _ _ R45).
  rewrite !(lookup_app_l (p ++ _)) by (rewrite length_app; lia). rewrite !(lookup_app_l p) by lia. rewrite P44.
  cbn [or_panic res_bind]. by case_match.
Qed.

(** Segment headers, footers and compaction blocks are read back as they
    were written, whatever follows them; a reader that only knows version 1
    refuses a compacted segment and reads any other; an encrypted header names
    its cipher and key and is otherwise the same header; and no bytes make any
    of the three decoders read out of range. *)
Theorem segment_structures_roundtrip h f m suite key rest :
  header_ok h -> footer_ok f -> cmeta_ok m -> is_u64 key ->
  let he := mk_header (sh_segment_id h) (sh_base_seq h) (sh_base_offset h) (sh_created_unix_ms h)
              (Z.lor (sh_flags h) SEGMENT_FLAG_ENCRYPTED) in
  header_decode (header_encode h ++ rest) = Ok h /\
  decode_v1_only (header_encode h ++ rest) =
    (if is_compacted h then Err (SegUnsupportedVersion FORMAT_VERSION_COMPACTED) else Ok h) /\
  aead_params (header_encode h ++ rest) = Ok (if is_encrypted h then Some (AEAD_SUITE_NONE, 0) else None) /\
  header_decode (header_encode_encrypted h suite key ++ rest) = Ok he /\
  aead_params (header_encode_encrypted h suite key ++ rest) = Ok (Some (suite, key)) /\
  footer_decode (footer_encode f ++ rest) = Ok f /\ footer_decode (footer_encode_v2 f ++ rest) = Ok f /\
  meta_decode (meta_encode m ++ rest) = Ok m /\
  (forall bytes, no_panic (header_decode bytes) /\ no_panic (footer_decode bytes) /\ no_panic (meta_decode bytes)).
Proof.
  intros Hh Hf Hm Hk he. assert (Hfl : is_u16 (sh_flags h)) by apply Hh.
  destruct (encrypted_flag _ Hfl) as (He1 & He2 & He3).
  unfold header_decode, decode_v1_only, header_encode, header_encode_encrypted.
  rewrite !header_decode_encode, !aead_params_encode, He3 by (done || ulia || (by rewrite He2)).
  rewrite !andb_false_r, andb_true_r. unfold is_encrypted.
  split; [by destruct h|]. split; [destruct (is_compacted h); by destruct h|].
  split; [by destruct (Z.land (sh_flags h) SEGMENT_FLAG_ENCRYPTED =? 0)|].
  split; [done|]. split; [done|]. split; [apply footer_decode_encode; auto|]. split; [apply footer_decode_encode; auto|].
  split; [by apply meta_decode_encode|]. intros bytes.
  split; [apply header_decode_no_panic|split; [apply footer_decode_no_panic|apply meta_decode_no_panic]].
Qed.
End segment_format.

Definition demo_seg_header : SegmentHeader := mk_header 3 100 100 1700000000000 SEGMENT_FLAG_COMPACTED.

Lemma segment_structures_roundtrip_witness :
  @header_decode castagnoli (@header_encode castagnoli demo_seg_header ++ [1; 2]) = Ok demo_seg_header /\
  @decode_v1_only castagnoli (@header_encode castagnoli demo_seg_header ++ [1; 2]) = Err (SegUnsupportedVersion 2).
Proof.
  destruct (@segment_structures_roundtrip castagnoli demo_seg_header (mk_footer 3 120 20) (mk_meta 0 1 0 1 2) 1 77 [1; 2]
    ltac:(repeat split; vm_compute; congruence) ltac:(repeat split; vm_compute; congruence)
    ltac:(repeat split; vm_compute; congruence) ltac:(ulia)) as (H1 & H2 & _).
  split; [exact H1|exact H2].
Defined.
