(* ===== verification/SegmentScan.v ===== *)
(** * Reading a segment back ([SegmentReader] of [storage/src/segment.rs])

    The two recovery scans of a segment file: the buffered one, which returns
    the records, and the streaming one, which walks the same bytes through a
    bounded window and returns what the writer needs to resume.  A segment cut
    anywhere gives back exactly the records that lie before the cut; the bytes
    of a record are never taken for a seal; and both scans agree.

    A reader works on the bytes of the file.  Without the [encryption] feature a
    buffered scan never decrypts; the streaming scan walks encrypted frames too,
    as the source does. *)

From S2P Require Import Prelude Bytes Records Codec SegmentFormat.

(** ** Data *)

Inductive CapViolation := PerEvent (bytes_skipped cap : Z) | GlobalCap (total_bytes_skipped cap : Z).

Inductive StorageError :=
| StIo
| StSegment (e : SegmentError)
| SegmentFull
| FooterSegmentMismatch (header footer : Z)
| RecoveredSequenceMismatch (index : nat) (expected found : Z)
| UnsealedPredecessor (segment_id : Z)
| SegmentIdMismatch (file_id header_id : Z)
| SegmentChainBroken (segment_id expected_base_offset found_base_offset expected_base_seq found_base_seq : Z)
| WriterFrozen
| TruncateOutOfRange (requested earliest next_offset : Z)
| ExcessiveRecoveryLoss (violation : CapViolation)
| AtCapacity (durable_bytes cap : Z)
| DailyWriteBudgetExceeded (bytes_today budget : Z).

Inductive ReasonCode := TornTail | CorruptRecordHeader | CorruptRecordBody | CorruptSegmentHeader.

Definition from_view (offset : Z) (v : RecordView) (subject : list Z) : OwnedRecord :=
  mk_record offset (v_seq v) (v_timestamp_ms v) (v_flags v) (v_key v) (v_headers v) (v_payload v) subject [].

Definition encoded_len (r : OwnedRecord) : nat :=
  let body_len := (length (r_key r) + length (r_headers r) + length (r_payload r))%nat in
  let xxh3_field := if wants_xxh3 body_len then RECORD_XXH3_LEN else 0%nat in
  let subject_field :=
    match r_subject r with [] => 0 | s => RECORD_SUBJECT_LEN_PREFIX + length s + RECORD_SUBJECT_CRC_LEN end%nat in
  let tag_field :=
    match r_stream_tag r with [] => 0 | s => RECORD_STREAM_TAG_LEN_PREFIX + length s + RECORD_STREAM_TAG_CRC_LEN end%nat in
  (RECORD_HEADER_LEN + subject_field + tag_field + body_len + xxh3_field + RECORD_TRAILER_LEN)%nat.

Record SegmentScan := mk_scan {
  sc_header : SegmentHeader;
  sc_records : list OwnedRecord;
  sc_footer : option SegmentFooter;
  sc_clean : bool;
  sc_valid_end : nat
}.

Record RecoveryScan := mk_recovery {
  rs_header : SegmentHeader;
  rs_footer : option SegmentFooter;
  rs_record_count : Z;
  rs_max_timestamp_ms : Z;
  rs_last_seq : Z;
  rs_clean : bool;
  rs_tail_reason : option ReasonCode;
  rs_valid_end : nat
}.

Record BodyWalk := mk_walk {
  bw_count : Z;
  bw_max_timestamp_ms : Z;
  bw_last_seq : Z;
  bw_cursor : nat;
  bw_clean : bool;
  bw_tail_reason : option ReasonCode
}.

Record SegmentReader := mk_reader {
  r_file : list Z;
  r_header : SegmentHeader;
  r_file_len : nat
}.

(** [read_exact_at] on the bytes of the file. *)
Definition read_file (file : list Z) (n off : nat) : res (list Z) StorageError :=
  match slice file off (off + n) with Some b => Ok b | None => Err StIo end.

(** [has_post_header_prefix_field] *)
Definition has_post_header_prefix_field (flags_byte : Z) : bool :=
  flags_contain flags_byte HAS_SUBJECT || flags_contain flags_byte HAS_STREAM_TAG.

Definition RECOVERY_WINDOW_BYTES : nat := 256 * 1024.

Section scan.
Context `{Crc32c} `{Xxh3}.

Definition reader_open (file : list Z) : res SegmentReader StorageError :=
  fail? bool_decide (length file < SEGMENT_HEADER_LEN)%nat with StSegment SegTruncated in
  let? hbuf := read_file file SEGMENT_HEADER_LEN 0 in
  let? header := map_err StSegment (header_decode hbuf) in
  Ok (mk_reader file header (length file)).

Definition with_data_end (r : SegmentReader) (fin : nat) : SegmentReader :=
  mk_reader (r_file r) (r_header r) (min (r_file_len r) (max fin SEGMENT_HEADER_LEN)).

(** ** The buffered scan *)

(** The [while cursor < body.len()] loop, on the bytes from [cursor] on; [idx]
    records were pushed before.  Every round consumes a whole frame, so the
    length of the bytes is fuel enough. *)
Fixpoint scan_loop (fuel : nat) (base_offset : Z) (idx : nat) (body : list Z)
    : res (list OwnedRecord * nat * bool) StorageError :=
  match body with
  | [] => Ok ([], 0%nat, true)
  | _ =>
      match fuel with
      | O => Panic
      | S fuel =>
          match decode_with_subject body with
          | Ok (view, subject, consumed) =>
              let offset := sat_add64 base_offset (Z.of_nat idx) in
              let? (records, cursor, clean) := scan_loop fuel base_offset (S idx) (drop consumed body) in
              Ok (from_view offset view subject :: records, (consumed + cursor)%nat, clean)
          | Err _ => Ok ([], 0%nat, false)
          | Panic => Panic
          end
      end
  end.

Definition scan_body (r : SegmentReader) (start fin : nat) : res (list OwnedRecord * nat * bool) StorageError :=
  let? body := read_file (r_file r) (fin - start) start in
  scan_loop (length body) (sh_base_offset (r_header r)) 0 body.

(** The trailing 32 bytes as a footer candidate. *)
Definition footer_candidate (r : SegmentReader) : res (option SegmentFooter) StorageError :=
  if (SEGMENT_HEADER_LEN + SEGMENT_FOOTER_LEN <=? r_file_len r)%nat then
    let? fbuf := read_file (r_file r) SEGMENT_FOOTER_LEN (r_file_len r - SEGMENT_FOOTER_LEN) in
    match footer_decode fbuf with Ok f => Ok (Some f) | Err _ => Ok None | Panic => Panic end
  else Ok None.

Definition scan (r : SegmentReader) : res SegmentScan StorageError :=
  let header_end := SEGMENT_HEADER_LEN in
  let unsealed :=
    let? (records, cursor, clean) := scan_body r header_end (r_file_len r) in
    Ok (mk_scan (r_header r) records None clean (header_end + cursor)) in
  let? candidate := footer_candidate r in
  match candidate with
  | Some footer =>
      let body_end := (r_file_len r - SEGMENT_FOOTER_LEN)%nat in
      let? (records, cursor, clean) := scan_body r header_end body_end in
      let ends_at_footer := clean && (header_end + cursor =? body_end)%nat in
      let expected_last_seq := match last records with Some rec => r_seq rec | None => sh_base_seq (r_header r) end in
      let body_matches := (sf_record_count footer =? Z.of_nat (length records)) && (sf_last_seq footer =? expected_last_seq) in
      if ends_at_footer && body_matches then
        fail? negb (sf_segment_id footer =? sh_segment_id (r_header r))
          with FooterSegmentMismatch (sh_segment_id (r_header r)) (sf_segment_id footer) in
        Ok (mk_scan (r_header r) records (Some footer) true body_end)
      else unsealed
  | None => unsealed
  end.

(** ** The streaming scan *)

(** [fill_window]: the window afterwards. *)
Definition fill_window (file win : list Z) (win_start pos need remaining : nat) : res (list Z * nat) StorageError :=
  let have := if (win_start <=? pos)%nat then (length win - (pos - win_start))%nat else 0%nat in
  if (need <=? have)%nat then Ok (win, win_start)
  else
    let want := max need (min RECOVERY_WINDOW_BYTES remaining) in
    let? dst := read_file file want pos in
    Ok (dst, pos).

(** The decoder the segment calls for: sequence, timestamp, bytes consumed. *)
Definition decode_frame_for (header : SegmentHeader) (bytes : list Z) : res (Z * Z * nat) DecodeError :=
  if is_encrypted header then
    let? (v, consumed) := decode_encrypted bytes in Ok (ev_seq v, ev_timestamp_ms v, consumed)
  else
    let? (v, consumed) := decode bytes in Ok (v_seq v, v_timestamp_ms v, consumed).

(** The [while pos < end] loop. *)
Fixpoint stream_loop (fuel : nat) (header : SegmentHeader) (file win : list Z) (win_start pos fin start : nat)
    (count max_ts last_seq : Z) : res BodyWalk StorageError :=
  let stop reason := Ok (mk_walk count max_ts last_seq (pos - start) (match reason with None => true | _ => false end) reason) in
  if (fin <=? pos)%nat then stop None
  else
    match fuel with
    | O => Panic
    | S fuel =>
        let remaining := (fin - pos)%nat in
        if (remaining <? RECORD_HEADER_LEN)%nat then stop (Some TornTail)
        else
          let? (win, win_start) := fill_window file win win_start pos RECORD_HEADER_LEN remaining in
          let? flags := or_panic (read_u8 win (pos - win_start + 3)) in
          let? (win, win_start) :=
            if has_post_header_prefix_field flags && (RECORD_HEADER_LEN + RECORD_SUBJECT_LEN_PREFIX <=? remaining)%nat
            then fill_window file win win_start pos (RECORD_HEADER_LEN + RECORD_SUBJECT_LEN_PREFIX) remaining
            else Ok (win, win_start) in
          match decoded_len (drop (pos - win_start) win) with
          | Panic => Panic
          | Err _ => stop (Some CorruptRecordHeader)
          | Ok total =>
              if (remaining <? total)%nat then stop (Some TornTail)
              else
                let? (win, win_start) := fill_window file win win_start pos total remaining in
                let? bytes := or_panic (slice win (pos - win_start) (pos - win_start + total)) in
                match decode_frame_for header bytes with
                | Panic => Panic
                | Err _ => stop (Some CorruptRecordBody)
                | Ok (seq, timestamp_ms, consumed) =>
                    match checked_add64 (sh_base_seq header) count with
                    | None => Err SegmentFull
                    | Some expected =>
                        fail? negb (seq =? expected) with RecoveredSequenceMismatch (Z.to_nat count) expected seq in
                        stream_loop fuel header file win win_start (pos + consumed) fin start
                          (count + 1) (Z.max max_ts timestamp_ms) seq
                    end
                end
          end
    end.

Definition scan_body_streaming (r : SegmentReader) (start fin : nat) : res BodyWalk StorageError :=
  stream_loop (fin - start) (r_header r) (r_file r) [] start start fin start 0 0 (sh_base_seq (r_header r)).

Definition scan_recovery (r : SegmentReader) : res RecoveryScan StorageError :=
  let header_end := SEGMENT_HEADER_LEN in
  let unsealed :=
    let? walk := scan_body_streaming r header_end (r_file_len r) in
    Ok (mk_recovery (r_header r) None (bw_count walk) (bw_max_timestamp_ms walk) (bw_last_seq walk) (bw_clean walk)
          (bw_tail_reason walk) (header_end + bw_cursor walk)) in
  let? candidate := footer_candidate r in
  match candidate with
  | Some footer =>
      let body_end := (r_file_len r - SEGMENT_FOOTER_LEN)%nat in
      let? walk := scan_body_streaming r header_end body_end in
      let ends_at_footer := bw_clean walk && (header_end + bw_cursor walk =? body_end)%nat in
      let body_matches := (sf_record_count footer =? bw_count walk) && (sf_last_seq footer =? bw_last_seq walk) in
      if ends_at_footer && body_matches then
        fail? negb (sf_segment_id footer =? sh_segment_id (r_header r))
          with FooterSegmentMismatch (sh_segment_id (r_header r)) (sf_segment_id footer) in
        Ok (mk_recovery (r_header r) (Some footer) (bw_count walk) (bw_max_timestamp_ms walk) (bw_last_seq walk) true
              None body_end)
      else unsealed
  | None => unsealed
  end.

(** ** What a segment holds

    A segment's body is a run of frames; [owned] is what reading them gives. *)

Definition Entry : Type := RecordView * list Z * list Z.

Definition entry_frame (e : Entry) : list Z := let '(rec, subject, tag) := e in frame rec subject tag.
Definition entry_ok (e : Entry) : Prop := let '(rec, subject, tag) := e in frame_ok rec subject tag.
Definition entry_len (e : Entry) : nat := let '(rec, subject, tag) := e in frame_len rec subject tag.
Definition entry_seq (e : Entry) : Z := let '(rec, _, _) := e in v_seq rec.
Definition entry_time (e : Entry) : Z := let '(rec, _, _) := e in v_timestamp_ms rec.

Definition frames (es : list Entry) : list Z := concat (map entry_frame es).

Fixpoint owned (base_offset : Z) (idx : nat) (es : list Entry) : list OwnedRecord :=
  match es with
  | [] => []
  | (rec, subject, _) :: es => from_view (sat_add64 base_offset (Z.of_nat idx)) rec subject :: owned base_offset (S idx) es
  end.

(** How many whole frames lie in the first [k] bytes. *)
Fixpoint fit (k : nat) (es : list Entry) : nat :=
  match es with
  | [] => 0
  | e :: es => if (entry_len e <=? k)%nat then S (fit (k - entry_len e) es) else 0
  end.

Definition last_seq_of (base_seq : Z) (es : list Entry) : Z :=
  match last es with Some e => entry_seq e | None => base_seq end.

Lemma length_entry_frame e : length (entry_frame e) = entry_len e.
Proof. destruct e as [[rec s] t]. apply length_frame. Qed.

Lemma entry_len_pos e : (44 <= entry_len e)%nat.
Proof. destruct e as [[rec s] t]. unfold entry_len, frame_len, RECORD_HEADER_LEN, RECORD_TRAILER_LEN. lia. Qed.

Lemma frames_cons e es : frames (e :: es) = entry_frame e ++ frames es.
Proof. done. Qed.
Lemma frames_app es es' : frames (es ++ es') = frames es ++ frames es'.
Proof. unfold frames. by rewrite map_app, concat_app. Qed.

Lemma length_owned base idx es : length (owned base idx es) = length es.
Proof. revert idx. induction es as [|[[rec s] t] es IH]; intros idx; cbn; [done|]. by rewrite IH. Qed.

Lemma owned_last base idx es :
  match last (owned base idx es) with Some r => Some (r_seq r) | None => None end = entry_seq <$> last es.
Proof.
  revert idx. induction es as [|[[rec s] t] es IH]; intros idx; [done|]. destruct es as [|e es]; [done|].
  cbn [owned]. destruct e as [[rec' s'] t']. specialize (IH (S idx)). cbn [owned] in *. exact IH.
Qed.

(** *** One round *)

Definition scan_bytes (base_offset : Z) (idx : nat) (body : list Z) := scan_loop (length body) base_offset idx body.

Lemma scan_fuel fuel base idx body :
  bytes_ok body -> (length body <= fuel)%nat -> scan_loop fuel base idx body = scan_bytes base idx body.
Proof.
  unfold scan_bytes. intros Hb Hf. remember (length body) as n eqn:Hn.
  assert (Hle : (length body <= n)%nat) by lia. clear Hn. revert n idx body Hb Hf Hle.
  induction fuel as [|fuel IH]; intros n idx body Hb Hf Hle.
  { destruct body; [by destruct n|simpl in *; lia]. }
  destruct body as [|z body]; [by destruct n|]. destruct n as [|n]; [simpl in Hle; lia|].
  cbn [scan_loop]. unfold decode_with_subject.
  destruct (decode_inner (z :: body)) as [[[[v s] t] c]|e|] eqn:Hd; [|done|done]. cbn [res_bind].
  apply decode_canonical in Hd as (Hok & -> & Hin); [|done].
  pose proof (entry_len_pos (v, s, t)) as Hpos. unfold entry_len in Hpos.
  assert (Hl : (length (drop (frame_len v s t) (z :: body)) <= min fuel n)%nat) by (rewrite length_drop; simpl in *; lia).
  rewrite (IH n); [done|by apply Forall_drop|lia|lia].
Qed.

Lemma scan_bytes_frame base idx e rest :
  entry_ok e -> bytes_ok (entry_frame e ++ rest) ->
  scan_bytes base idx (entry_frame e ++ rest) =
  let? (records, cursor, clean) := scan_bytes base (S idx) rest in
  Ok (owned base idx [e] ++ records, (entry_len e + cursor)%nat, clean).
Proof.
  intros Hok Hb. destruct e as [[rec s] t]. cbn [entry_ok entry_frame entry_len owned] in *.
  pose proof (length_frame rec s t) as Hl. pose proof (entry_len_pos (rec, s, t)) as Hpos. unfold entry_len in Hpos.
  unfold scan_bytes at 1. rewrite length_app, Hl.
  destruct (frame rec s t ++ rest) as [|z body] eqn:Hin.
  { apply (f_equal length) in Hin. rewrite length_app, Hl in Hin. simpl in Hin. lia. }
  replace (frame_len rec s t + length rest)%nat with (S (frame_len rec s t - 1 + length rest)) by lia.
  cbn [scan_loop]. rewrite <- Hin. unfold decode_with_subject. rewrite decode_frame by done. cbn [res_bind].
  rewrite drop_app_length' by lia. rewrite scan_fuel; [reflexivity| |lia].
  rewrite <- Hin in Hb. by apply Forall_app in Hb as [_ Hb].
Qed.

Lemma owned_app base idx es es' : owned base idx (es ++ es') = owned base idx es ++ owned base (idx + length es) es'.
Proof.
  revert idx. induction es as [|[[rec s] t] es IH]; intros idx; cbn; [by rewrite Nat.add_0_r|].
  rewrite IH. do 2 f_equal. f_equal. lia.
Qed.

Lemma scan_bytes_frames base idx es rest :
  Forall entry_ok es -> bytes_ok (frames es ++ rest) ->
  scan_bytes base idx (frames es ++ rest) =
  let? (records, cursor, clean) := scan_bytes base (idx + length es) rest in
  Ok (owned base idx es ++ records, (length (frames es) + cursor)%nat, clean).
Proof.
  revert idx. induction es as [|e es IH]; intros idx Hok Hb.
  { change (frames [] ++ rest) with rest. cbn [length]. rewrite Nat.add_0_r.
    by destruct (scan_bytes base idx rest) as [[[? ?] ?]| |]. }
  apply Forall_cons in Hok as [He Hok]. rewrite frames_cons, <- app_assoc in Hb |- *.
  rewrite scan_bytes_frame by done. rewrite IH; [|done|by apply Forall_app in Hb as [_ Hb]].
  cbn [length]. rewrite Nat.add_succ_r. change (S idx + length es)%nat with (S (idx + length es)).
  destruct (scan_bytes base (S (idx + length es)) rest) as [[[rs c] cl]| |]; cbn [res_bind]; [|done|done].
  rewrite length_app, length_entry_frame. destruct e as [[rec s] t]. cbn [owned app]. do 3 f_equal. lia.
Qed.

Lemma scan_bytes_nil base idx : scan_bytes base idx [] = Ok ([], 0%nat, true).
Proof. done. Qed.

Lemma scan_bytes_bad base idx body e :
  body <> [] -> decode_inner body = Err e -> scan_bytes base idx body = Ok ([], 0%nat, false).
Proof. intros Hb Hd. destruct body as [|z body]; [done|]. unfold scan_bytes. cbn [length scan_loop]. unfold decode_with_subject. by rewrite Hd. Qed.

(** Any bytes are a run of frames and a tail that is not one; the scan finds
    the run. *)
Lemma scan_bytes_spec base idx body :
  bytes_ok body ->
  exists es tail, body = frames es ++ tail /\ Forall entry_ok es /\
    (tail = [] \/ exists e, decode_inner tail = Err e) /\
    scan_bytes base idx body = Ok (owned base idx es, length (frames es), bool_decide (tail = [])).
Proof.
  remember (length body) as n eqn:Hn. revert body idx Hn.
  induction (lt_wf n) as [n _ IH]. intros body idx -> Hb.
  destruct (decide (body = [])) as [-> | Hne].
  { exists [], []. split; [done|]. split; [constructor|]. split; [by left|done]. }
  pose proof (decode_inner_no_panic body Hb) as Hp.
  destruct (decode_inner body) as [[[[v s] t] c]|e|] eqn:Hd; [| |done].
  - apply decode_canonical in Hd as (Hok & -> & Hin); [|done].
    pose proof (entry_len_pos (v, s, t)) as Hpos. unfold entry_len in Hpos.
    set (rest := drop (frame_len v s t) body) in *.
    assert (Hbr : bytes_ok rest) by (by apply Forall_drop).
    destruct (IH (length rest)) with (body := rest) (idx := S idx) as (es & tail & Hr & Hes & Ht & Hs); [|done|done|].
    { apply (f_equal length) in Hin. rewrite length_app, length_frame in Hin. lia. }
    exists ((v, s, t) :: es), tail. split; [by rewrite frames_cons, <- app_assoc, <- Hr|]. split; [by constructor|]. split; [done|].
    rewrite Hin in Hb |- *. rewrite (scan_bytes_frame base idx (v, s, t)) by done. rewrite Hs. cbn [res_bind owned app].
    by rewrite frames_cons, length_app, length_entry_frame.
  - exists [], body. split; [done|]. split; [constructor|]. split; [by eauto|].
    rewrite (scan_bytes_bad _ _ _ e) by done. by rewrite bool_decide_eq_false_2.
Qed.

(** *** Cutting a run of frames *)

Lemma fit_le k es : (fit k es <= length es)%nat.
Proof. revert k. induction es as [|e es IH]; intros k; cbn; [lia|]. case_match; [specialize (IH (k - entry_len e)%nat)|]; lia. Qed.

Lemma frames_cut k es :
  exists torn, take k (frames es) = frames (take (fit k es) es) ++ torn /\
    (torn = [] \/ exists e j, es !! fit k es = Some e /\ (0 < j < entry_len e)%nat /\ torn = take j (entry_frame e)).
Proof.
  revert k. induction es as [|e es IH]; intros k.
  { exists []. split; [unfold frames; cbn; by destruct k|by left]. }
  cbn [fit]. rewrite frames_cons. destruct (Nat.leb_spec (entry_len e) k) as [Hk|Hk].
  - destruct (IH (k - entry_len e)%nat) as (torn & Ht & Hc). exists torn. cbn [take]. rewrite frames_cons, <- app_assoc, <- Ht.
    split; [|exact Hc]. rewrite take_app_ge by (rewrite length_entry_frame; lia). by rewrite length_entry_frame.
  - cbn [take]. rewrite take_app_le by (rewrite length_entry_frame; lia). exists (take k (entry_frame e)). split; [done|].
    destruct k as [|k]; [by left|]. right. exists e, (S k). split; [done|]. split; [lia|done].
Qed.

Lemma length_frames_cut k es : (k <= length (frames es))%nat -> (length (frames (take (fit k es) es)) <= k)%nat.
Proof.
  intros Hk. destruct (frames_cut k es) as (torn & Ht & _). apply (f_equal length) in Ht.
  rewrite length_take, length_app in Ht. lia.
Qed.

Lemma decode_torn_entry e j :
  entry_ok e -> (0 < j < entry_len e)%nat -> decode_inner (take j (entry_frame e)) = Err Truncated.
Proof. intros Hok Hj. destruct e as [[rec s] t]. apply decode_torn; [done|]. unfold entry_len in Hj. lia. Qed.

(** Reading a run of frames that was cut gives the frames before the cut. *)
Lemma scan_bytes_cut base es k :
  Forall entry_ok es -> bytes_ok (frames es) ->
  let whole := frames (take (fit k es) es) in
  scan_bytes base 0 (take k (frames es)) =
  Ok (owned base 0 (take (fit k es) es), length whole, bool_decide (take k (frames es) = whole)).
Proof.
  intros Hok Hb whole. destruct (frames_cut k es) as (torn & Ht & Hc). fold whole in Ht. rewrite Ht.
  assert (Hwok : Forall entry_ok (take (fit k es) es)) by (by apply Forall_take).
  unfold whole at 1. rewrite scan_bytes_frames; [|done|fold whole; rewrite <- Ht; by apply Forall_take].
  destruct Hc as [-> | (e & j & He & Hj & ->)].
  - rewrite scan_bytes_nil. cbn [res_bind]. rewrite !app_nil_r, Nat.add_0_r, bool_decide_eq_true_2 by done. done.
  - assert (Heok : entry_ok e) by exact (Forall_lookup_1 _ _ _ _ Hok He).
    assert (Hne : take j (entry_frame e) <> []).
    { intros Hn. apply (f_equal length) in Hn. rewrite length_take, length_entry_frame in Hn. simpl in Hn. lia. }
    rewrite (scan_bytes_bad _ _ _ Truncated); [|done|by apply decode_torn_entry]. cbn [res_bind].
    rewrite app_nil_r, Nat.add_0_r, bool_decide_eq_false_2; [done|].
    intros Heq. apply Hne. apply (f_equal length) in Heq. rewrite length_app in Heq. apply nil_length_inv. lia.
Qed.

Lemma frame_bytes_ok rec subject tag : frame_ok rec subject tag -> bytes_ok (frame rec subject tag).
Proof.
  intros Hok. destruct (fo_slots _ _ _ Hok) as [Hs Ht].
  assert (Hslot : forall b, bytes_ok b -> bytes_ok (slot_field b)).
  { intros b Hb. destruct b; [constructor|]. unfold slot_field, bytes_ok in *. rewrite !Forall_app.
    repeat split; try apply le_bytes_ok; exact Hb. }
  assert (Hpre : bytes_ok (header_prefix (v_flags rec) (v_seq rec) (v_timestamp_ms rec) (Z.of_nat (length (v_key rec)))
    (Z.of_nat (length (v_headers rec))) (Z.of_nat (length (v_payload rec))))).
  { unfold header_prefix, bytes_ok. rewrite !Forall_app.
    repeat split; try apply le_bytes_ok; repeat constructor; try (vm_compute; congruence); apply (fo_flags _ _ _ Hok). }
  unfold frame, view_header, header_bytes, xxh3_bytes_of, bytes_ok. rewrite !Forall_app. repeat split; try apply le_bytes_ok.
  - apply Hpre.
  - by apply Hslot.
  - by apply Hslot.
  - apply (fo_body _ _ _ Hok).
  - case_match; [apply le_bytes_ok|constructor].
Qed.

Lemma frames_bytes_ok es : Forall entry_ok es -> bytes_ok (frames es).
Proof.
  induction 1 as [|e es He _ IH]; [constructor|]. rewrite frames_cons. apply Forall_app. split; [|done].
  destruct e as [[rec s] t]. by apply frame_bytes_ok.
Qed.
#[local] Hint Resolve frames_bytes_ok : bytes.

(** *** Whole files *)

Section image.
Context (h : SegmentHeader) (Hh : header_ok h).

Lemma open_image body : reader_open (header_encode h ++ body) = Ok (mk_reader (header_encode h ++ body) h (SEGMENT_HEADER_LEN + length body)).
Proof.
  unfold reader_open, read_file. pose proof (length_header_encode h) as Hl.
  rewrite bool_decide_eq_false_2 by (rewrite length_app, Hl; lia).
  rewrite (slice_at _ 0 _ (header_encode h) body); [|lia|done|lia]. cbn [res_bind].
  rewrite <- (app_nil_r (header_encode h)) at 1. unfold header_decode, header_encode.
  rewrite header_decode_encode by (done || apply Hh). rewrite andb_false_r. cbn [map_err res_bind].
  rewrite length_app. unfold header_encode in Hl. rewrite Hl. by destruct h.
Qed.

Let reader (body : list Z) : SegmentReader := mk_reader (header_encode h ++ body) h (SEGMENT_HEADER_LEN + length body).

Lemma scan_body_image body n :
  (n <= length body)%nat ->
  scan_body (reader body) SEGMENT_HEADER_LEN (SEGMENT_HEADER_LEN + n) = scan_bytes (sh_base_offset h) 0 (take n body).
Proof.
  intros Hn. unfold scan_body, reader, read_file. cbn [r_file r_header].
  replace (SEGMENT_HEADER_LEN + n - SEGMENT_HEADER_LEN)%nat with n by lia.
  rewrite (slice_at _ _ _ (take n body) (drop n body)); [done| | |].
  - rewrite length_app, length_header_encode. lia.
  - rewrite drop_app_length' by (by rewrite length_header_encode). by rewrite take_drop.
  - rewrite length_take. lia.
Qed.

Lemma footer_candidate_image body :
  footer_candidate (reader body) =
  if (SEGMENT_FOOTER_LEN <=? length body)%nat
  then match footer_decode (drop (length body - SEGMENT_FOOTER_LEN) body) with Ok f => Ok (Some f) | Err _ => Ok None | Panic => Panic end
  else Ok None.
Proof.
  unfold footer_candidate, reader. cbn [r_file r_file_len]. unfold SEGMENT_HEADER_LEN, SEGMENT_FOOTER_LEN.
  destruct (Nat.leb_spec 32 (length body)) as [Hl|Hl].
  - rewrite (proj2 (Nat.leb_le _ _)) by lia. unfold read_file.
    rewrite (slice_at _ _ _ (drop (length body - 32) body) []); [done| | |].
    + rewrite length_app, length_header_encode. unfold SEGMENT_HEADER_LEN. lia.
    + rewrite app_nil_r. rewrite drop_app_ge by (rewrite length_header_encode; unfold SEGMENT_HEADER_LEN; lia).
      rewrite length_header_encode. by f_equal.
    + rewrite length_drop. lia.
  - by rewrite (proj2 (Nat.leb_gt _ _)) by lia.
Qed.

(** The first bytes of a record are not a footer. *)
Lemma frame_not_footer e n :
  (SEGMENT_FOOTER_LEN <= n)%nat -> footer_decode (take n (entry_frame e)) = Err SegBadMagic.
Proof.
  intros Hn. unfold SEGMENT_FOOTER_LEN in Hn. unfold footer_decode.
  pose proof (length_entry_frame e) as Hl. pose proof (entry_len_pos e).
  rewrite bool_decide_eq_false_2 by (rewrite length_take; unfold SEGMENT_FOOTER_LEN; lia).
  destruct e as [[rec s] t]. unfold read_u16. cbn [entry_frame]. unfold frame, view_header, header_bytes, header_prefix.
  rewrite <- !app_assoc, take_app_ge by (rewrite length_le_bytes; lia).
  rewrite read_le_head by (vm_compute; split; congruence). reflexivity.
Qed.

(** A cut that leaves 32 bytes after a frame boundary leaves the start of a
    record there. *)
Lemma cut_no_seal es k f :
  Forall entry_ok es -> (SEGMENT_FOOTER_LEN <= k <= length (frames es))%nat ->
  length (frames (take (fit (k - SEGMENT_FOOTER_LEN) es) es)) = (k - SEGMENT_FOOTER_LEN)%nat ->
  footer_decode (drop (k - SEGMENT_FOOTER_LEN) (take k (frames es))) <> Ok f.
Proof.
  intros Hok Hk Hw. set (i := fit (k - SEGMENT_FOOTER_LEN) es) in *. unfold SEGMENT_FOOTER_LEN in *.
  pose proof (take_drop i es) as Hes. destruct (drop i es) as [|e rest] eqn:Hd.
  { exfalso. rewrite app_nil_r in Hes. rewrite Hes in Hw. lia. }
  assert (Heok : entry_ok e).
  { rewrite <- Hes in Hok. apply Forall_app in Hok as [_ Hok]. by apply Forall_cons in Hok as [He _]. }
  assert (Hdrop : drop (k - 32) (take k (frames es)) = take 32 (entry_frame e ++ frames rest)).
  { rewrite <- Hes, frames_app, frames_cons. rewrite <- Hw. rewrite skipn_firstn_comm, drop_app_length. f_equal. lia. }
  rewrite Hdrop. pose proof (length_entry_frame e). pose proof (entry_len_pos e).
  rewrite take_app_le, frame_not_footer by (unfold SEGMENT_FOOTER_LEN; lia). done.
Qed.

Lemma scan_unsealed body :
  (forall f records cursor,
     (SEGMENT_FOOTER_LEN <= length body)%nat ->
     footer_decode (drop (length body - SEGMENT_FOOTER_LEN) body) = Ok f ->
     scan_bytes (sh_base_offset h) 0 (take (length body - SEGMENT_FOOTER_LEN) body) <> Ok (records, cursor, true) \/
     cursor <> (length body - SEGMENT_FOOTER_LEN)%nat) ->
  bytes_ok body ->
  scan (reader body) =
  let? (records, cursor, clean) := scan_bytes (sh_base_offset h) 0 body in
  Ok (mk_scan h records None clean (SEGMENT_HEADER_LEN + cursor)).
Proof.
  intros Hns Hb. unfold scan. rewrite footer_candidate_image. cbn [r_file_len reader r_header].
  rewrite (scan_body_image body (length body)), take_ge by lia.
  destruct (Nat.leb_spec SEGMENT_FOOTER_LEN (length body)) as [Hl|Hl]; [|done].
  pose proof (footer_decode_no_panic (drop (length body - SEGMENT_FOOTER_LEN) body)) as Hp.
  destruct (footer_decode (drop (length body - SEGMENT_FOOTER_LEN) body)) as [f| |] eqn:Hf; cbn [res_bind]; [|done|done].
  replace (SEGMENT_HEADER_LEN + length body - SEGMENT_FOOTER_LEN)%nat
    with (SEGMENT_HEADER_LEN + (length body - SEGMENT_FOOTER_LEN))%nat by lia.
  rewrite scan_body_image by lia.
  destruct (scan_bytes_spec (sh_base_offset h) 0 (take (length body - SEGMENT_FOOTER_LEN) body)) as (es & tl & _ & _ & _ & Hs);
    [by apply Forall_take|].
  rewrite Hs. cbn [res_bind]. destruct (bool_decide (tl = []) && _ && _) eqn:Hc; [|done]. exfalso.
  rewrite !andb_true_iff in Hc. destruct Hc as [[Ht Hc] _]. apply Nat.eqb_eq in Hc. rewrite Ht in Hs.
  destruct (Hns f (owned (sh_base_offset h) 0 es) (length (frames es)) Hl eq_refl) as [Hne|Hne]; [by apply Hne|apply Hne; lia].
Qed.

(** A segment cut anywhere after its header: the records before the cut. *)
Lemma scan_image_cut es k :
  Forall entry_ok es -> (k <= length (frames es))%nat ->
  let whole := take (fit k es) es in
  scan (reader (take k (frames es))) =
  Ok (mk_scan h (owned (sh_base_offset h) 0 whole) None (bool_decide (take k (frames es) = frames whole))
        (SEGMENT_HEADER_LEN + length (frames whole))).
Proof.
  intros Hok Hk whole. assert (Hb : bytes_ok (frames es)) by (by apply frames_bytes_ok).
  rewrite scan_unsealed; [|intros f rs c|by apply Forall_take].
  - rewrite scan_bytes_cut by done. done.
  - rewrite length_take, Nat.min_l by lia. intros Hl Hf.
    rewrite take_take, Nat.min_l by lia. rewrite scan_bytes_cut by done.
    destruct (decide (length (frames (take (fit (k - SEGMENT_FOOTER_LEN) es) es)) = (k - SEGMENT_FOOTER_LEN)%nat)) as [Hw|Hw].
    + exfalso. by apply (cut_no_seal es k f).
    + destruct (decide (c = (k - SEGMENT_FOOTER_LEN)%nat)) as [-> |]; [|by right]. left. intros [= _ ? _]. done.
Qed.

(** A sealed segment: all its records and the footer. *)
Lemma scan_image_sealed es seg_id :
  Forall entry_ok es -> Z.of_nat (length es) <= u32_max -> is_u64 seg_id -> is_u64 (last_seq_of (sh_base_seq h) es) ->
  let footer := mk_footer seg_id (last_seq_of (sh_base_seq h) es) (Z.of_nat (length es)) in
  scan (reader (frames es ++ footer_encode footer)) =
  if seg_id =? sh_segment_id h
  then Ok (mk_scan h (owned (sh_base_offset h) 0 es) (Some footer) true (SEGMENT_HEADER_LEN + length (frames es)))
  else Err (FooterSegmentMismatch (sh_segment_id h) seg_id).
Proof.
  intros Hok Hn Hid Hls footer. assert (Hb : bytes_ok (frames es)) by (by apply frames_bytes_ok).
  assert (Hlen : length (frames es ++ footer_encode footer) = (length (frames es) + SEGMENT_FOOTER_LEN)%nat)
    by (by rewrite length_app, length_footer_encode).
  unfold scan. rewrite footer_candidate_image. rewrite Hlen. rewrite (proj2 (Nat.leb_le _ _)) by lia.
  rewrite Nat.add_sub, drop_app_length.
  rewrite <- (app_nil_r (footer_encode footer)) at 1. unfold footer_encode at 1.
  rewrite footer_decode_encode by (first [left; reflexivity | unfold footer_ok; cbn; ulia]). cbn [res_bind].
  cbn [r_file_len reader r_header]. rewrite Hlen.
  replace (SEGMENT_HEADER_LEN + (length (frames es) + SEGMENT_FOOTER_LEN) - SEGMENT_FOOTER_LEN)%nat
    with (SEGMENT_HEADER_LEN + length (frames es))%nat by lia.
  rewrite scan_body_image by lia. rewrite take_app_length.
  pose proof (scan_bytes_frames (sh_base_offset h) 0 es [] Hok) as Hs. rewrite app_nil_r in Hs. rewrite (Hs Hb).
  rewrite scan_bytes_nil. cbn [res_bind]. rewrite app_nil_r, Nat.add_0_r, Nat.eqb_refl, length_owned. cbn [andb].
  assert (Hlast : match last (owned (sh_base_offset h) 0 es) with Some rec => r_seq rec | None => sh_base_seq h end
    = last_seq_of (sh_base_seq h) es).
  { pose proof (owned_last (sh_base_offset h) 0 es) as Ho. unfold last_seq_of.
    destruct (last (owned (sh_base_offset h) 0 es)), (last es); simplify_eq/=; done. }
  rewrite Hlast. cbn [sf_record_count sf_last_seq sf_segment_id footer]. rewrite !Z.eqb_refl. cbn [andb].
  by destruct (seg_id =? sh_segment_id h).
Qed.
End image.

(** ** The window *)

(** The window holds the bytes of the file from its start on. *)
Definition window_ok (file win : list Z) (win_start pos fin : nat) : Prop :=
  (win_start <= pos)%nat /\ (win_start + length win <= fin)%nat /\ win = take (length win) (drop win_start file).

(** From [pos] on it holds [m] bytes of the region. *)
Definition holds (file win : list Z) (win_start pos fin m : nat) : Prop :=
  window_ok file win win_start pos fin /\ (m <= fin - pos)%nat /\
  drop (pos - win_start) win = take m (take (fin - pos) (drop pos file)) /\ length (drop (pos - win_start) win) = m.

Lemma fill_window_spec file win win_start pos fin need :
  (fin <= length file)%nat -> (pos < fin)%nat -> (0 < need <= fin - pos)%nat -> window_ok file win win_start pos fin ->
  exists win' win_start' m, fill_window file win win_start pos need (fin - pos) = Ok (win', win_start') /\
    holds file win' win_start' pos fin m /\ (need <= m)%nat.
Proof.
  intros Hf Hp Hn (Hs & He & Hw). unfold fill_window. rewrite (proj2 (Nat.leb_le win_start pos)) by lia.
  destruct (Nat.leb_spec need (length win - (pos - win_start))) as [Hh|Hh].
  - exists win, win_start, (length win - (pos - win_start))%nat. split; [done|]. split; [|lia].
    split; [done|]. split; [lia|]. rewrite length_drop. split; [|done].
    rewrite Hw at 1. rewrite skipn_firstn_comm, drop_drop.
    replace (win_start + (pos - win_start))%nat with pos by lia. rewrite take_take. f_equal. lia.
  - set (want := max need (min RECOVERY_WINDOW_BYTES (fin - pos))). unfold read_file.
    rewrite slice_Some by lia. replace (pos + want - pos)%nat with want by lia. cbn [res_bind].
    set (w := take want (drop pos file)).
    assert (Hl : length w = want) by (unfold w; rewrite length_take, length_drop; lia).
    exists w, pos, want. split; [done|]. split; [|lia].
    unfold holds, window_ok. rewrite Nat.sub_diag, drop_0, Hl. split; [repeat split; lia || done|].
    split; [lia|]. split; [|done]. rewrite take_take. unfold w. f_equal. lia.
Qed.

Lemma holds_slice file win win_start pos fin m n :
  holds file win win_start pos fin m -> (n <= m)%nat -> (0 < m)%nat ->
  slice win (pos - win_start) (pos - win_start + n) = Some (take n (take (fin - pos) (drop pos file))).
Proof.
  intros (_ & Hm & Hd & Hl) Hn Hz. rewrite length_drop in Hl. rewrite slice_Some by lia.
  replace (pos - win_start + n - (pos - win_start))%nat with n by lia. rewrite Hd, take_take. do 2 f_equal. lia.
Qed.

Lemma holds_lookup file win win_start pos fin m i :
  holds file win win_start pos fin m -> (i < m)%nat ->
  win !! (pos - win_start + i)%nat = take (fin - pos) (drop pos file) !! i.
Proof.
  intros (_ & Hm & Hd & Hl) Hi. rewrite <- lookup_drop, Hd. by rewrite lookup_take_lt.
Qed.

(** ** The walk *)

(** The first sequence that is not the next one. *)
Fixpoint seq_gap (base_seq count : Z) (es : list Entry) : option StorageError :=
  match es with
  | [] => None
  | e :: es =>
      match checked_add64 base_seq count with
      | None => Some SegmentFull
      | Some expected =>
          if entry_seq e =? expected then seq_gap base_seq (count + 1) es
          else Some (RecoveredSequenceMismatch (Z.to_nat count) expected (entry_seq e))
      end
  end.

Definition max_time (start : Z) (es : list Entry) : Z := foldl (fun m e => Z.max m (entry_time e)) start es.

Section walk.
Context (header : SegmentHeader) (file : list Z) (fin start : nat).
Hypothesis (Hplain : is_encrypted header = false) (Hfin : (fin <= length file)%nat) (Hbytes : bytes_ok file).

Let rest (pos : nat) : list Z := take (fin - pos) (drop pos file).

Lemma length_rest pos : (pos <= fin)%nat -> length (rest pos) = (fin - pos)%nat.
Proof. intros. unfold rest. rewrite length_take, length_drop. lia. Qed.

Lemma rest_bytes pos : bytes_ok (rest pos).
Proof. unfold rest. by apply Forall_take, Forall_drop. Qed.

(** One round up to the length of the next frame: the window holds the front of
    what is left. *)
Lemma stream_front win win_start pos :
  (pos < fin)%nat -> (36 <= fin - pos)%nat -> window_ok file win win_start pos fin ->
  exists win1 ws1 win2 ws2 m flags,
    fill_window file win win_start pos RECORD_HEADER_LEN (fin - pos) = Ok (win1, ws1) /\
    read_u8 win1 (pos - ws1 + 3) = Some flags /\ rest pos !! 3%nat = Some flags /\
    (if has_post_header_prefix_field flags && (RECORD_HEADER_LEN + RECORD_SUBJECT_LEN_PREFIX <=? fin - pos)%nat
     then fill_window file win1 ws1 pos (RECORD_HEADER_LEN + RECORD_SUBJECT_LEN_PREFIX) (fin - pos)
     else Ok (win1, ws1)) = Ok (win2, ws2) /\
    holds file win2 ws2 pos fin m /\ (36 <= m)%nat /\
    (has_post_header_prefix_field flags = true -> (38 <= fin - pos)%nat -> (38 <= m)%nat).
Proof.
  intros Hp Hr Hw. destruct (fill_window_spec file win win_start pos fin 36 Hfin Hp ltac:(lia) Hw) as (w1 & s1 & m1 & E1 & H1 & Hm1).
  destruct (lookup_lt_is_Some_2 (rest pos) 3) as [flags Hfl]; [rewrite length_rest; lia|].
  assert (Hu8 : read_u8 w1 (pos - s1 + 3) = Some flags) by (unfold read_u8; rewrite (holds_lookup _ _ _ _ _ _ _ H1) by lia; done).
  destruct (has_post_header_prefix_field flags && (38 <=? fin - pos)%nat) eqn:Hc.
  - pose proof Hc as Hc'. apply andb_true_iff in Hc' as [_ Hc']. apply Nat.leb_le in Hc'.
    destruct (fill_window_spec file w1 s1 pos fin 38 Hfin Hp ltac:(lia) (proj1 H1)) as (w2 & s2 & m2 & E2 & H2 & Hm2).
    exists w1, s1, w2, s2, m2, flags. split; [exact E1|]. split; [done|]. split; [done|].
    split; [|split; [exact H2|split; [lia|lia]]].
    change (RECORD_HEADER_LEN + RECORD_SUBJECT_LEN_PREFIX)%nat with 38%nat. rewrite Hc. exact E2.
  - exists w1, s1, w1, s1, m1, flags. split; [exact E1|]. split; [done|]. split; [done|].
    change (RECORD_HEADER_LEN + RECORD_SUBJECT_LEN_PREFIX)%nat with 38%nat. rewrite Hc.
    split; [done|]. split; [done|]. split; [lia|]. intros Hh H38. rewrite Hh in Hc. apply Nat.leb_gt in Hc. lia.
Qed.

Lemma decode_frame_for_plain bytes :
  decode_frame_for header bytes =
  let? (v, _, _, n) := decode_inner bytes in Ok (v_seq v, v_timestamp_ms v, n).
Proof. unfold decode_frame_for, decode. rewrite Hplain. by destruct (decode_inner bytes) as [[[[v s] t] n]| |]. Qed.

(** Bytes that are not a frame stop the walk where they start. *)
Lemma stream_stop fuel win win_start pos count max_ts last_seq e :
  (pos < fin)%nat -> window_ok file win win_start pos fin -> decode_inner (rest pos) = Err e ->
  exists reason, stream_loop (S fuel) header file win win_start pos fin start count max_ts last_seq =
    Ok (mk_walk count max_ts last_seq (pos - start) false (Some reason)).
Proof.
  intros Hp Hw He. cbn [stream_loop]. rewrite (proj2 (Nat.leb_gt _ _)) by lia. unfold RECORD_HEADER_LEN at 1.
  destruct (Nat.ltb_spec (fin - pos) 36) as [Hs|Hs]; [by eexists|].
  destruct (stream_front win win_start pos Hp Hs Hw) as (w1 & s1 & w2 & s2 & m & flags & E1 & Eu & _ & E2 & H2 & Hm & _).
  rewrite E1. cbn [res_bind]. rewrite Eu. cbn [or_panic res_bind]. rewrite E2. cbn [res_bind].
  pose proof (decoded_len_no_panic (drop (pos - s2) w2)) as Hnp.
  destruct (decoded_len (drop (pos - s2) w2)) as [total| |] eqn:Hd; [|by eexists|done].
  destruct (Nat.ltb_spec (fin - pos) total) as [Ht|Ht]; [by eexists|].
  assert (Hpos : (44 <= total)%nat).
  { apply (decoded_len_pos (drop (pos - s2) w2)); [|done]. destruct H2 as (_ & _ & -> & _). apply Forall_take, rest_bytes. }
  destruct (fill_window_spec file w2 s2 pos fin total Hfin Hp ltac:(lia) (proj1 H2)) as (w3 & s3 & m3 & E3 & H3 & Hm3).
  rewrite E3. cbn [res_bind]. rewrite (holds_slice _ _ _ _ _ _ _ H3) by lia. fold (rest pos). cbn [or_panic res_bind].
  rewrite decode_frame_for_plain.
  pose proof (decode_inner_no_panic (take total (rest pos)) ltac:(apply Forall_take, rest_bytes)) as Hnp'.
  destruct (decode_inner (take total (rest pos))) as [[[[v s] t] n]| |] eqn:Hdi; cbn [res_bind]; [|by eexists|done].
  exfalso. apply decode_canonical in Hdi as (Hok & _ & Hin); [|apply Forall_take, rest_bytes].
  assert (Hr : rest pos = frame v s t ++ (drop n (take total (rest pos)) ++ drop total (rest pos))).
  { rewrite app_assoc, <- Hin. symmetry. apply take_drop. }
  rewrite Hr, decode_frame in He by done. done.
Qed.

(** A frame is walked over. *)
Lemma stream_step fuel win win_start pos count max_ts last_seq e tl :
  (pos < fin)%nat -> window_ok file win win_start pos fin -> entry_ok e -> rest pos = entry_frame e ++ tl ->
  exists win' win_start', window_ok file win' win_start' (pos + entry_len e) fin /\
    stream_loop (S fuel) header file win win_start pos fin start count max_ts last_seq =
    match checked_add64 (sh_base_seq header) count with
    | None => Err SegmentFull
    | Some expected =>
        fail? negb (entry_seq e =? expected) with RecoveredSequenceMismatch (Z.to_nat count) expected (entry_seq e) in
        stream_loop fuel header file win' win_start' (pos + entry_len e) fin start (count + 1)
          (Z.max max_ts (entry_time e)) (entry_seq e)
    end.
Proof.
  intros Hp Hw Hok Hr. pose proof (entry_len_pos e) as Hpos. pose proof (length_entry_frame e) as Hl.
  assert (Hlen : (fin - pos = entry_len e + length tl)%nat).
  { rewrite <- (length_rest pos) by lia. by rewrite Hr, length_app, Hl. }
  destruct e as [[rec s] t]. cbn [entry_ok entry_frame entry_len entry_seq entry_time] in *.
  destruct (stream_front win win_start pos Hp ltac:(lia) Hw) as (w1 & s1 & w2 & s2 & m & flags & E1 & Eu & Ef & E2 & H2 & Hm & Hm').
  rewrite Hr, frame_flags_byte in Ef. injection Ef as <-.
  assert (Hd : decoded_len (drop (pos - s2) w2) = Ok (frame_len rec s t)).
  { destruct H2 as (_ & _ & -> & _). fold (rest pos). rewrite Hr. apply decoded_len_front; [done|].
    unfold has_post_header_prefix_field in Hm'. rewrite (fo_subject _ _ _ Hok), (fo_tag _ _ _ Hok) in Hm'.
    destruct s as [|z s], t as [|z' t]; cbn in Hm'; [by right|left|left|left]; apply Hm'; (done || lia). }
  destruct (fill_window_spec file w2 s2 pos fin (frame_len rec s t) Hfin Hp ltac:(lia) (proj1 H2)) as (w3 & s3 & m3 & E3 & H3 & Hm3).
  exists w3, s3. split.
  { destruct H3 as ((? & ? & ?) & _). unfold window_ok. split; [lia|done]. }
  cbn [stream_loop]. rewrite (proj2 (Nat.leb_gt _ _)) by lia. unfold RECORD_HEADER_LEN at 1.
  rewrite (proj2 (Nat.ltb_ge _ _)) by lia. rewrite E1. cbn [res_bind]. rewrite Eu. cbn [or_panic res_bind].
  rewrite E2. cbn [res_bind]. rewrite Hd. rewrite (proj2 (Nat.ltb_ge _ _)) by lia. rewrite E3. cbn [res_bind].
  rewrite (holds_slice _ _ _ _ _ _ _ H3) by lia. fold (rest pos). cbn [or_panic res_bind].
  rewrite decode_frame_for_plain, Hr, take_app_length' by lia. rewrite <- (app_nil_r (frame rec s t)), decode_frame by done.
  cbn [res_bind]. reflexivity.
Qed.

Lemma stream_loop_spec fuel es tail win win_start pos count max_ts last_seq :
  (start <= pos <= fin)%nat -> (fin - pos <= fuel)%nat -> window_ok file win win_start pos fin ->
  Forall entry_ok es -> (tail = [] \/ exists e, decode_inner tail = Err e) -> rest pos = frames es ++ tail ->
  match seq_gap (sh_base_seq header) count es with
  | Some err => stream_loop fuel header file win win_start pos fin start count max_ts last_seq = Err err
  | None =>
      exists reason, stream_loop fuel header file win win_start pos fin start count max_ts last_seq =
        Ok (mk_walk (count + Z.of_nat (length es)) (max_time max_ts es) (last_seq_of last_seq es)
              (pos - start + length (frames es)) (bool_decide (tail = [])) reason) /\
        (reason = None <-> tail = [])
  end.
Proof.
  revert fuel win win_start pos count max_ts last_seq.
  induction es as [|e es IH]; intros fuel win win_start pos count max_ts last_seq Hp Hf Hw Hok Ht Hr.
  - change (frames [] ++ tail) with tail in Hr. cbn [seq_gap length max_time foldl last_seq_of last Z.of_nat]. change (length (frames [])) with 0%nat.
    rewrite Z.add_0_r, Nat.add_0_r. pose proof (length_rest pos ltac:(lia)) as Hl. rewrite Hr in Hl.
    destruct (decide (tail = [])) as [-> | Hne].
    + exists None. split; [|done]. simpl in Hl. destruct fuel; cbn [stream_loop]; by rewrite (proj2 (Nat.leb_le _ _)) by lia.
    + destruct Ht as [|[e He]]; [done|]. destruct tail as [|z tail]; [done|]. simpl in Hl.
      destruct fuel as [|fuel]; [lia|]. rewrite <- Hr in He.
      destruct (stream_stop fuel win win_start pos count max_ts last_seq e ltac:(lia) Hw He) as [reason Hs].
      exists (Some reason). rewrite Hs. split; [by rewrite bool_decide_eq_false_2|done].
  - apply Forall_cons in Hok as [He Hok]. rewrite frames_cons, <- app_assoc in Hr.
    pose proof (entry_len_pos e) as Hpos. pose proof (length_rest pos ltac:(lia)) as Hl.
    rewrite Hr, length_app, length_entry_frame in Hl. destruct fuel as [|fuel]; [lia|].
    destruct (stream_step fuel win win_start pos count max_ts last_seq e _ ltac:(lia) Hw He Hr) as (w' & s' & Hw' & Hs).
    cbn [seq_gap]. rewrite Hs. destruct (checked_add64 (sh_base_seq header) count) as [expected|]; [|done].
    destruct (entry_seq e =? expected) eqn:Hq; cbn [negb]; [|done].
    assert (Hr' : rest (pos + entry_len e) = frames es ++ tail).
    { unfold rest in *. rewrite <- drop_drop. rewrite Nat.sub_add_distr, <- skipn_firstn_comm, Hr.
      apply drop_app_length'. by rewrite length_entry_frame. }
    specialize (IH fuel w' s' (pos + entry_len e)%nat (count + 1) (Z.max max_ts (entry_time e)) (entry_seq e)
      ltac:(lia) ltac:(lia) Hw' Hok Ht Hr').
    destruct (seq_gap (sh_base_seq header) (count + 1) es); [done|]. destruct IH as (reason & -> & Hreason).
    exists reason. split; [|done]. rewrite frames_cons, length_app, length_entry_frame. f_equal. f_equal.
    + cbn [length]. lia.
    + unfold last_seq_of. rewrite last_cons. by destruct (last es).
    + lia.
Qed.
End walk.

(** ** The two scans agree *)

Definition records_last_seq (base_seq : Z) (rs : list OwnedRecord) : Z :=
  match last rs with Some r => r_seq r | None => base_seq end.
Definition records_max_time (rs : list OwnedRecord) : Z := foldl (fun m r => Z.max m (r_timestamp_ms r)) 0 rs.

(** Sequences count up from the segment's base. *)
Definition dense (base_seq : Z) (rs : list OwnedRecord) : Prop :=
  forall i r, rs !! i = Some r -> r_seq r = base_seq + Z.of_nat i.

Lemma owned_at base idx es i r :
  owned base idx es !! i = Some r -> exists e, es !! i = Some e /\ r_seq r = entry_seq e.
Proof.
  revert idx i. induction es as [|[[rec s] t] es IH]; intros idx [|i] Hr; try done; cbn in Hr.
  - injection Hr as <-. by exists (rec, s, t).
  - by apply IH in Hr.
Qed.

Lemma owned_at_2 base idx es i e :
  es !! i = Some e -> exists r, owned base idx es !! i = Some r /\ r_seq r = entry_seq e.
Proof.
  revert idx i. induction es as [|[[rec s] t] es IH]; intros idx [|i] He; try done; cbn in He.
  - injection He as <-. by eexists.
  - by apply (IH (S idx)) in He.
Qed.

Lemma owned_last_seq base base_seq es : records_last_seq base_seq (owned base 0 es) = last_seq_of base_seq es.
Proof.
  unfold records_last_seq, last_seq_of. pose proof (owned_last base 0 es) as Hl.
  destruct (last (owned base 0 es)), (last es); by simplify_eq/=.
Qed.

Lemma owned_max_time base idx es m :
  foldl (fun m r => Z.max m (r_timestamp_ms r)) m (owned base idx es) = max_time m es.
Proof. revert idx m. induction es as [|[[rec s] t] es IH]; intros idx m; [done|]. cbn. apply IH. Qed.

Lemma seq_gap_None base_seq count es :
  seq_gap base_seq count es = None -> forall i e, es !! i = Some e -> entry_seq e = base_seq + count + Z.of_nat i.
Proof.
  revert count. induction es as [|e es IH]; intros count Hg i e' Hi; [done|]. cbn in Hg.
  unfold checked_add in Hg. destruct (base_seq + count <=? u64_max); [|done].
  destruct (Z.eqb_spec (entry_seq e) (base_seq + count)); [|done].
  destruct i as [|i]; cbn in Hi; [injection Hi as <-; lia|]. apply (IH (count + 1) Hg) in Hi. lia.
Qed.

Lemma seq_gap_Some base_seq count es err :
  0 <= count -> seq_gap base_seq count es = Some err ->
  err = SegmentFull /\ (exists i, (i < length es)%nat /\ u64_max < base_seq + count + Z.of_nat i) \/
  exists i e, es !! i = Some e /\ entry_seq e <> base_seq + count + Z.of_nat i /\
    err = RecoveredSequenceMismatch (Z.to_nat count + i) (base_seq + count + Z.of_nat i) (entry_seq e).
Proof.
  revert count. induction es as [|e es IH]; intros count Hc0 Hg; [done|]. cbn in Hg.
  unfold checked_add in Hg. destruct (Z.leb_spec (base_seq + count) u64_max).
  2: { left. split; [congruence|]. exists 0%nat. cbn [length]. lia. }
  destruct (Z.eqb_spec (entry_seq e) (base_seq + count)).
  - destruct (IH (count + 1) ltac:(lia) Hg) as [[-> (i & Hi & Hm)]|(i & e' & Hi & Hne & ->)].
    { left. split; [done|]. exists (S i). cbn [length]. lia. }
    right. exists (S i), e'. split; [done|]. split; [lia|]. f_equal; lia.
  - right. exists 0%nat, e. split; [done|]. split; [lia|]. injection Hg as <-. f_equal; lia.
Qed.

(** One region, both ways. *)
Lemma region_agree r fin :
  is_encrypted (r_header r) = false -> bytes_ok (r_file r) -> (SEGMENT_HEADER_LEN <= fin <= length (r_file r))%nat ->
  exists records cursor clean, scan_body r SEGMENT_HEADER_LEN fin = Ok (records, cursor, clean) /\
  match scan_body_streaming r SEGMENT_HEADER_LEN fin with
  | Ok w => dense (sh_base_seq (r_header r)) records /\ bw_count w = Z.of_nat (length records) /\
      bw_last_seq w = records_last_seq (sh_base_seq (r_header r)) records /\
      bw_max_timestamp_ms w = records_max_time records /\ bw_cursor w = cursor /\ bw_clean w = clean /\
      (bw_tail_reason w = None <-> clean = true)
  | Err (RecoveredSequenceMismatch i expected found) =>
      expected = sh_base_seq (r_header r) + Z.of_nat i /\ found <> expected /\
      exists rec, records !! i = Some rec /\ r_seq rec = found
  | Err SegmentFull => u64_max < sh_base_seq (r_header r) + Z.of_nat (length records)
  | _ => False
  end.
Proof.
  intros Hp Hb Hf. set (body := take (fin - SEGMENT_HEADER_LEN) (drop SEGMENT_HEADER_LEN (r_file r))).
  destruct (scan_bytes_spec (sh_base_offset (r_header r)) 0 body) as (es & tail & Hin & Hok & Ht & Hs).
  { by apply Forall_take, Forall_drop. }
  exists (owned (sh_base_offset (r_header r)) 0 es), (length (frames es)), (bool_decide (tail = [])).
  split.
  { unfold scan_body, read_file. rewrite slice_Some by lia.
    replace (SEGMENT_HEADER_LEN + (fin - SEGMENT_HEADER_LEN) - SEGMENT_HEADER_LEN)%nat with (fin - SEGMENT_HEADER_LEN)%nat by lia.
    exact Hs. }
  pose proof (stream_loop_spec (r_header r) (r_file r) fin SEGMENT_HEADER_LEN Hp (proj2 Hf) Hb (fin - SEGMENT_HEADER_LEN) es tail
    [] SEGMENT_HEADER_LEN SEGMENT_HEADER_LEN 0 0 (sh_base_seq (r_header r)) ltac:(lia) ltac:(lia)) as Hw.
  specialize (Hw ltac:(split; [lia|split; [cbn [length]; lia|done]]) Hok Ht Hin). unfold scan_body_streaming.
  destruct (seq_gap (sh_base_seq (r_header r)) 0 es) as [err|] eqn:Hg.
  - rewrite Hw. apply seq_gap_Some in Hg as [[-> (i & Hi & Hm)]|(i & e & Hi & Hne & ->)]; [rewrite length_owned; lia| |lia].
    rewrite Z.add_0_r in *. split; [done|]. split; [done|].
    destruct (owned_at_2 (sh_base_offset (r_header r)) 0 es i e Hi) as (rec & Hrec & Hq). by exists rec.
  - destruct Hw as (reason & -> & Hreason). cbn [bw_count bw_last_seq bw_max_timestamp_ms bw_cursor bw_clean bw_tail_reason].
    split.
    { intros i rec Hi. apply owned_at in Hi as (e & Hi & ->). rewrite (seq_gap_None _ _ _ Hg i e Hi). lia. }
    rewrite length_owned, owned_last_seq. unfold records_max_time. rewrite owned_max_time, bool_decide_eq_true.
    split; [lia|]. split; [done|]. split; [done|]. split; [lia|]. done.
Qed.

Lemma footer_candidate_total r :
  (r_file_len r <= length (r_file r))%nat ->
  match footer_candidate r with
  | Ok (Some _) => (SEGMENT_HEADER_LEN + SEGMENT_FOOTER_LEN <= r_file_len r)%nat
  | Ok None => True
  | _ => False
  end.
Proof.
  intros Hl. unfold footer_candidate.
  destruct (Nat.leb_spec (SEGMENT_HEADER_LEN + SEGMENT_FOOTER_LEN) (r_file_len r)); [|done].
  unfold read_file. rewrite slice_Some by lia. cbn [res_bind].
  pose proof (footer_decode_no_panic (take (r_file_len r - SEGMENT_FOOTER_LEN + SEGMENT_FOOTER_LEN -
    (r_file_len r - SEGMENT_FOOTER_LEN)) (drop (r_file_len r - SEGMENT_FOOTER_LEN) (r_file r)))) as Hn.
  by destruct (footer_decode _).
Qed.

(** What the streaming scan's outcome says of the buffered one's. *)
Definition scans_agree (r : SegmentReader) (streaming : res RecoveryScan StorageError) (buffered : res SegmentScan StorageError)
    : Prop :=
  match streaming with
  | Ok s =>
      exists sc, buffered = Ok sc /\ dense (sh_base_seq (r_header r)) (sc_records sc) /\
        rs_header s = sc_header sc /\ rs_footer s = sc_footer sc /\
        rs_record_count s = Z.of_nat (length (sc_records sc)) /\
        rs_last_seq s = records_last_seq (sh_base_seq (r_header r)) (sc_records sc) /\
        rs_max_timestamp_ms s = records_max_time (sc_records sc) /\
        rs_clean s = sc_clean sc /\ (rs_tail_reason s = None <-> sc_clean sc = true) /\ rs_valid_end s = sc_valid_end sc
  | Err (FooterSegmentMismatch a b) => buffered = Err (FooterSegmentMismatch a b)
  | Err e =>
      exists fin records cursor clean, scan_body r SEGMENT_HEADER_LEN fin = Ok (records, cursor, clean) /\
        match e with
        | RecoveredSequenceMismatch i expected found =>
            expected = sh_base_seq (r_header r) + Z.of_nat i /\ found <> expected /\
            exists rec, records !! i = Some rec /\ r_seq rec = found
        | SegmentFull => u64_max < sh_base_seq (r_header r) + Z.of_nat (length records)
        | _ => False
        end
  | Panic => False
  end.

Lemma unsealed_agree r fin :
  is_encrypted (r_header r) = false -> bytes_ok (r_file r) -> (SEGMENT_HEADER_LEN <= fin <= length (r_file r))%nat ->
  scans_agree r
    (let? walk := scan_body_streaming r SEGMENT_HEADER_LEN fin in
     Ok (mk_recovery (r_header r) None (bw_count walk) (bw_max_timestamp_ms walk) (bw_last_seq walk) (bw_clean walk)
           (bw_tail_reason walk) (SEGMENT_HEADER_LEN + bw_cursor walk)))
    (let? (records, cursor, clean) := scan_body r SEGMENT_HEADER_LEN fin in
     Ok (mk_scan (r_header r) records None clean (SEGMENT_HEADER_LEN + cursor))).
Proof.
  intros Hp Hb Hl. destruct (region_agree r fin Hp Hb Hl) as (rs & c & cl & Hs & Hw). rewrite Hs. cbn [res_bind].
  destruct (scan_body_streaming r SEGMENT_HEADER_LEN fin) as [w|e|]; cbn [res_bind]; [| |done].
  - destruct Hw as (Hd & -> & -> & -> & -> & -> & Hr). eexists. split; [done|]. by cbn.
  - destruct e; try done; exists fin, rs, c, cl; done.
Qed.

Lemma scan_recovery_agrees r :
  is_encrypted (r_header r) = false -> bytes_ok (r_file r) ->
  (SEGMENT_HEADER_LEN <= r_file_len r <= length (r_file r))%nat ->
  scans_agree r (scan_recovery r) (scan r).
Proof.
  intros Hp Hb Hl. unfold scan_recovery, scan. pose proof (unsealed_agree r (r_file_len r) Hp Hb Hl) as Hu.
  pose proof (footer_candidate_total r ltac:(lia)) as Hc.
  destruct (footer_candidate r) as [[footer|]|e|] eqn:Hf; cbn [res_bind]; [|exact Hu|done|done].
  destruct (region_agree r (r_file_len r - SEGMENT_FOOTER_LEN) Hp Hb ltac:(lia)) as (rs1 & c1 & cl1 & Hs1 & Hw1).
  rewrite Hs1. cbn [res_bind].
  destruct (scan_body_streaming r SEGMENT_HEADER_LEN (r_file_len r - SEGMENT_FOOTER_LEN)) as [w1|e|]; cbn [res_bind]; [| |done].
  - destruct Hw1 as (Hd & -> & -> & Ht & -> & -> & Hr). fold (records_last_seq (sh_base_seq (r_header r)) rs1).
    destruct (cl1 && _ && _); [|exact Hu].
    destruct (sf_segment_id footer =? sh_segment_id (r_header r)); cbn [negb]; [|done].
    eexists. split; [done|]. cbn. rewrite Ht. repeat split; done.
  - destruct e; try done; exists (r_file_len r - SEGMENT_FOOTER_LEN)%nat, rs1, c1, cl1; done.
Qed.


Lemma fit_maximal k es e :
  es !! fit k es = Some e -> (k <= length (frames es))%nat -> (k < length (frames (take (fit k es) es)) + entry_len e)%nat.
Proof.
  revert k. induction es as [|e' es IH]; intros k He Hk; [done|]. cbn [fit] in *. rewrite frames_cons, length_app, length_entry_frame in Hk.
  destruct (Nat.leb_spec (entry_len e') k) as [Hl|Hl].
  - cbn [take]. rewrite frames_cons, length_app, length_entry_frame. specialize (IH (k - entry_len e')%nat He ltac:(lia)). lia.
  - injection He as <-. cbn [take]. change (frames []) with (@nil Z). simpl. lia.
Qed.

(** C20: A segment file cut anywhere gives back the records before the cut and
    no others.  Opened after its last bytes were lost, a segment is scanned
    without error as unsealed; the records are those whose frames are whole,
    with their offsets and fields; the valid prefix ends with the last of them;
    and the scan is clean exactly when the cut fell between two records.  In
    particular no record's bytes are taken for a seal.  Cut inside the header,
    the file is refused as truncated. *)
Theorem torn_segment_exact h es k :
  header_ok h -> Forall entry_ok es -> (k <= length (header_encode h ++ frames es))%nat ->
  let image := take k (header_encode h ++ frames es) in
  let n := fit (k - SEGMENT_HEADER_LEN) es in
  let valid_end := (SEGMENT_HEADER_LEN + length (frames (take n es)))%nat in
  ((k < SEGMENT_HEADER_LEN)%nat -> reader_open image = Err (StSegment SegTruncated)) /\
  ((SEGMENT_HEADER_LEN <= k)%nat ->
     (exists r, reader_open image = Ok r /\
        scan r = Ok (mk_scan h (owned (sh_base_offset h) 0 (take n es)) None (bool_decide (k = valid_end)) valid_end)) /\
     (valid_end <= k)%nat /\ forall e, es !! n = Some e -> (k < valid_end + entry_len e)%nat).
Proof.
  intros Hh Hok Hk image n valid_end. pose proof (length_header_encode h) as Hl. rewrite length_app, Hl in Hk.
  split; intros Hs.
  { unfold reader_open, image. by rewrite bool_decide_eq_true_2 by (rewrite length_take, length_app, Hl; lia). }
  assert (Him : image = header_encode h ++ take (k - SEGMENT_HEADER_LEN) (frames es)).
  { unfold image. rewrite take_app_ge by lia. by rewrite Hl. }
  pose proof (length_frames_cut (k - SEGMENT_HEADER_LEN) es ltac:(lia)) as Hcut. fold n in Hcut.
  split; [|split; [unfold valid_end; lia|]].
  - rewrite Him, open_image by done. eexists. split; [done|]. rewrite scan_image_cut by (done || lia). fold n.
    fold valid_end. do 2 f_equal. apply bool_decide_ext. destruct (frames_cut (k - SEGMENT_HEADER_LEN) es) as (torn & Ht & _).
    fold n in Ht. unfold valid_end. split; intros He.
    + apply (f_equal length) in He. rewrite length_take in He. lia.
    + rewrite Ht. apply (f_equal length) in Ht. rewrite length_take, length_app in Ht.
      rewrite (nil_length_inv torn) by lia. apply app_nil_r.
  - intros e He. pose proof (fit_maximal (k - SEGMENT_HEADER_LEN) es e He ltac:(lia)). fold n in H1. unfold valid_end. lia.
Qed.

Lemma scan_bytes_prefix base es junk :
  Forall entry_ok es -> bytes_ok junk ->
  exists rs c cl, scan_bytes base 0 (frames es ++ junk) = Ok (owned base 0 es ++ rs, (length (frames es) + c)%nat, cl).
Proof.
  intros Hok Hj. rewrite scan_bytes_frames; [|done|apply Forall_app; split; [by apply frames_bytes_ok|done]].
  destruct (scan_bytes_spec base (0 + length es) junk Hj) as (es' & tl & _ & _ & _ & ->). cbn [res_bind]. eauto.
Qed.

Lemma frames_room es i e :
  es !! i = Some e -> (length (frames (take i es)) + entry_len e <= length (frames es))%nat.
Proof.
  intros He. rewrite <- (take_drop_middle es i e He) at 2. rewrite frames_app, frames_cons, !length_app, length_entry_frame. lia.
Qed.

(** What was durable stays first.  When the bytes of a segment's synced
    records are followed by anything at all - records that were being written,
    pages that reached the disk out of order, garbage - the scan returns at
    least those records, first and in order, and its valid prefix covers them.
    It refuses the segment only over a footer that describes its records but
    names another segment. *)
Lemma durable_prefix_survives h es junk :
  header_ok h -> Forall entry_ok es -> bytes_ok junk ->
  exists r, reader_open (header_encode h ++ frames es ++ junk) = Ok r /\
    match scan r with
    | Ok sc => owned (sh_base_offset h) 0 es `prefix_of` sc_records sc /\
               (SEGMENT_HEADER_LEN + length (frames es) <= sc_valid_end sc)%nat
    | Err (FooterSegmentMismatch a b) => a = sh_segment_id h /\ b <> a
    | _ => False
    end.
Proof.
  intros Hh Hok Hj. assert (Hb : bytes_ok (frames es)) by (by apply frames_bytes_ok).
  assert (Hbb : bytes_ok (frames es ++ junk)) by (by apply Forall_app).
  set (body := frames es ++ junk). eexists. split; [by apply open_image|].
  unfold scan. rewrite footer_candidate_image by done. cbn [r_header r_file_len].
  destruct (scan_bytes_prefix (sh_base_offset h) es junk Hok Hj) as (rs & c & cl & Hfull). fold body in Hfull.
  rewrite (scan_body_image h body (length body)), take_ge by (done || lia). rewrite Hfull. cbn [res_bind].
  destruct (Nat.leb_spec SEGMENT_FOOTER_LEN (length body)) as [Hl|Hl].
  2: { cbn. split; [by apply prefix_app_r|lia]. }
  pose proof (footer_decode_no_panic (drop (length body - SEGMENT_FOOTER_LEN) body)) as Hp.
  destruct (footer_decode (drop (length body - SEGMENT_FOOTER_LEN) body)) as [f|e|]; cbn [res_bind]; [| |done].
  2: { cbn. split; [by apply prefix_app_r|lia]. }
  replace (SEGMENT_HEADER_LEN + length body - SEGMENT_FOOTER_LEN)%nat
    with (SEGMENT_HEADER_LEN + (length body - SEGMENT_FOOTER_LEN))%nat by lia.
  rewrite scan_body_image by (done || lia).
  set (n := (length body - SEGMENT_FOOTER_LEN)%nat). assert (Hnb : n = (length body - 32)%nat) by done.
  destruct (decide (length (frames es) <= n)%nat) as [Hn|Hn].
  - unfold body. rewrite take_app_ge by lia.
    destruct (scan_bytes_prefix (sh_base_offset h) es (take (n - length (frames es)) junk) Hok ltac:(by apply Forall_take))
      as (rs1 & c1 & cl1 & ->). cbn [res_bind].
    destruct (cl1 && _ && _); [|cbn; split; [by apply prefix_app_r|lia]].
    destruct (Z.eqb_spec (sf_segment_id f) (sh_segment_id h)); cbn; [|done]. split; [by apply prefix_app_r|lia].
  - unfold body at 1. rewrite take_app_le by lia. rewrite scan_bytes_cut by done. cbn [res_bind].
    destruct (bool_decide _ && _ && _) eqn:Hc; [|cbn; split; [by apply prefix_app_r|lia]]. exfalso.
    rewrite !andb_true_iff in Hc. destruct Hc as [[_ Hc] _]. apply Nat.eqb_eq in Hc.
    destruct (es !! fit n es) as [e|] eqn:He.
    + pose proof (fit_maximal n es e He ltac:(lia)). pose proof (frames_room es (fit n es) e He).
      pose proof (entry_len_pos e). unfold body in Hnb, Hl. rewrite length_app in Hnb, Hl. unfold SEGMENT_FOOTER_LEN in Hl. lia.
    + apply lookup_ge_None_1 in He. rewrite take_ge in Hc by lia. lia.
Qed.
End scan.

(** ** Evaluation *)

Section evaluation.
#[local] Existing Instance castagnoli.
#[local] Existing Instance sum64.

Definition demo_header : SegmentHeader := mk_header 3 100 40 0 0.
Definition demo_view (seq : Z) : RecordView := mk_record_view seq (2000 - seq) 0 [107] [] [104; 105].
Definition demo_entry (seq : Z) (subject : list Z) : Entry := (derived (demo_view seq) subject [], subject, []).
Definition demo_entries : list Entry := [demo_entry 100 []; demo_entry 101 [97; 46; 98]; demo_entry 102 []].

Lemma demo_view_encodable seq subject :
  is_u64 seq -> is_u64 (2000 - seq) -> bytes_ok subject -> encodable (demo_view seq) subject [].
Proof.
  intros Hs Ht Hb. split; [split; [vm_compute; split; congruence|done]|]. split; [|split; [reflexivity|by right]].
  split; [apply (bool_decide_unpack _); vm_compute; exact I|]. split; [done|constructor].
Qed.

Lemma demo_entry_ok seq subject :
  is_u64 seq -> is_u64 (2000 - seq) -> bytes_ok subject -> Z.of_nat (length subject) <= 100 ->
  entry_ok (demo_entry seq subject).
Proof.
  intros Hs Ht Hb Hl. apply derived_frame_ok.
  - by apply demo_view_encodable.
  - unfold fits, frame_len. assert (Hsz : (slot_size subject <= 106)%nat) by (unfold slot_size; destruct subject; simpl in *; lia).
    cbn [length demo_view body_of v_key v_headers v_payload app xxh3_size wants_xxh3].
    change (xxh3_size (demo_view seq)) with 0%nat. cbn [slot_size].
    rewrite !andb_true_iff, !Z.leb_le. unfold RECORD_HEADER_LEN, RECORD_TRAILER_LEN, MAX_RECORD_BYTES_CEILING. ulia.
Qed.

Lemma demo_entries_ok : Forall entry_ok demo_entries.
Proof.
  repeat apply Forall_cons_2; try apply Forall_nil_2; apply demo_entry_ok;
    first [ulia | vm_compute; congruence | apply (bool_decide_unpack _); vm_compute; exact I].
Qed.

Lemma demo_header_ok : header_ok demo_header.
Proof. repeat split; vm_compute; congruence. Qed.

(** Cut two bytes short of the third record's end. *)
Lemma torn_segment_exact_witness :
  exists r, reader_open (take 212 (header_encode demo_header ++ frames demo_entries)) = Ok r /\
    scan r = Ok (mk_scan demo_header (owned 40 0 (take 2 demo_entries)) None false 167).
Proof.
  destruct (torn_segment_exact demo_header demo_entries 212 demo_header_ok demo_entries_ok) as [_ Ht];
    [apply Nat.leb_le; vm_compute; reflexivity|].
  destruct Ht as [(r & Hr & Hs) _]; [apply Nat.leb_le; vm_compute; reflexivity|].
  exists r. split; [exact Hr|]. rewrite Hs. vm_compute. reflexivity.
Defined.

Definition demo_reader : SegmentReader :=
  let file := header_encode demo_header ++ frames demo_entries ++ [1; 2; 3] in mk_reader file demo_header (length file).

End evaluation.
