(* ===== verification/SegmentWriter.v ===== *)
(** * Writing a segment ([SegmentWriter] of [storage/src/segment.rs])

    Appends are framed into a pending buffer and reach the file in one write at
    a flush point: a sync, a seal, or the buffer reaching its cap.  The writer is
    modelled over any file of the storage interface, failed and torn writes and
    failed syncs included; a record is durable once a sync after it returned.

    An operation returns the new writer with its outcome, since a failed one
    changes state too.  Encryption at rest is a feature the model leaves out. *)

From S2P Require Import Prelude Bytes Records Codec Disk SegmentFormat SegmentScan.

Definition PENDING_SPILL_BYTES : nat := 256 * 1024.

Section writer.
Context `{Crc32c} `{Xxh3} `{RandomAccessFile F}.

(** ** Data *)

Record SegmentWriter := mk_writer {
  w_file : F;
  w_header : SegmentHeader;
  w_write_pos : Z;
  w_record_count : Z;
  w_last_seq : Z;
  w_max_timestamp_ms : Z;
  w_pending : list Z;
  w_pending_base : Z
}.

Definition with_buffer (w : SegmentWriter) (write_pos : Z) (pending : list Z) : SegmentWriter :=
  mk_writer (w_file w) (w_header w) write_pos (w_record_count w) (w_last_seq w) (w_max_timestamp_ms w) pending
    (w_pending_base w).
Definition with_file (w : SegmentWriter) (file : F) (pending : list Z) (pending_base : Z) : SegmentWriter :=
  mk_writer file (w_header w) (w_write_pos w) (w_record_count w) (w_last_seq w) (w_max_timestamp_ms w) pending pending_base.

(** [record_count += 1; last_seq = seq; max_timestamp_ms = max(..)] *)
Definition count_record (w : SegmentWriter) (seq timestamp_ms : Z) : SegmentWriter :=
  mk_writer (w_file w) (w_header w) (w_write_pos w) (w_record_count w + 1) seq (Z.max (w_max_timestamp_ms w) timestamp_ms)
    (w_pending w) (w_pending_base w).

(** ** Operations *)

Definition writer_create (file : F) (header : SegmentHeader) : res SegmentWriter StorageError :=
  match write_all_at file (header_encode header) 0 with
  | (file, true) =>
      Ok (mk_writer file header (Z.of_nat SEGMENT_HEADER_LEN) 0 (sh_base_seq header) 0 [] (Z.of_nat SEGMENT_HEADER_LEN))
  | (_, false) => Err StIo
  end.

Definition writer_resume (file : F) (header : SegmentHeader) (write_pos record_count last_seq max_timestamp_ms : Z)
    : SegmentWriter :=
  mk_writer file header write_pos record_count last_seq max_timestamp_ms [] write_pos.

(** [encode_plaintext], on the pending buffer. *)
Definition encode_plaintext (pending : list Z) (record : RecordView) (subject stream_tag : list Z)
    (precomputed : option BodyChecksums) : res (list Z * nat) EncodeError :=
  match stream_tag with
  | [] =>
      match precomputed, subject with
      | Some checksums, [] => encode_precomputed record checksums pending
      | None, [] => encode record pending
      | Some checksums, _ => encode_precomputed_with_subject record subject checksums pending
      | None, _ => encode_with_subject record subject pending
      end
  | _ =>
      match precomputed with
      | Some checksums => encode_precomputed_with_stream_tag record stream_tag checksums pending
      | None => encode_with_stream_tag record stream_tag pending
      end
  end.

Definition flush_pending (w : SegmentWriter) : SegmentWriter * res unit StorageError :=
  match w_pending w with
  | [] => (w, Ok tt)
  | _ =>
      match write_all_at (w_file w) (w_pending w) (Z.to_nat (w_pending_base w)) with
      | (file, true) => (with_file w file [] (w_write_pos w), Ok tt)
      | (file, false) => (with_file w file (w_pending w) (w_pending_base w), Err StIo)
      end
  end.

(** What follows the framing in every append: the position, the spill and the
    roll back of a spill that failed.  [grown] is the buffer with the frame. *)
Definition append_grown (w : SegmentWriter) (grown : list Z) (seq timestamp_ms offset : Z)
    : SegmentWriter * res Z StorageError :=
  let before := length (w_pending w) in
  let len := Z.of_nat (length grown - before) in
  let pos_before := w_write_pos w in
  match checked_add64 pos_before len with
  | None => (with_buffer w pos_before grown, Err SegmentFull)
  | Some fin =>
      let w1 := with_buffer w fin grown in
      if (PENDING_SPILL_BYTES <=? length grown)%nat then
        match flush_pending w1 with
        | (w2, Ok _) => (count_record w2 seq timestamp_ms, Ok offset)
        | (w2, Err e) => (with_buffer w2 pos_before (take before (w_pending w2)), Err e)
        | (w2, Panic) => (w2, Panic)
        end
      else (count_record w1 seq timestamp_ms, Ok offset)
  end.

Definition append_encoded (w : SegmentWriter) (record : RecordView) (subject stream_tag : list Z)
    (precomputed : option BodyChecksums) : SegmentWriter * res Z StorageError :=
  if w_record_count w =? u32_max then (w, Err SegmentFull)
  else
    match checked_add64 (sh_base_offset (w_header w)) (w_record_count w) with
    | None => (w, Err SegmentFull)
    | Some offset =>
        match encode_plaintext (w_pending w) record subject stream_tag precomputed with
        | Ok (grown, _) => append_grown w grown (v_seq record) (v_timestamp_ms record) offset
        | Err _ => (w, Err SegmentFull)
        | Panic => (w, Panic)
        end
    end.

Definition append (w : SegmentWriter) (record : RecordView) := append_encoded w record [] [] None.
Definition append_with_subject (w : SegmentWriter) (record : RecordView) (subject : list Z) :=
  append_encoded w record subject [] None.
Definition append_with_stream_tag (w : SegmentWriter) (record : RecordView) (tag : list Z) :=
  append_encoded w record [] tag None.
Definition append_precomputed (w : SegmentWriter) (record : RecordView) (c : BodyChecksums) :=
  append_encoded w record [] [] (Some c).
Definition append_precomputed_with_subject (w : SegmentWriter) (record : RecordView) (subject : list Z) (c : BodyChecksums) :=
  append_encoded w record subject [] (Some c).
Definition append_precomputed_with_stream_tag (w : SegmentWriter) (record : RecordView) (tag : list Z) (c : BodyChecksums) :=
  append_encoded w record [] tag (Some c).

Definition append_verbatim (w : SegmentWriter) (bytes : list Z) (seq timestamp_ms : Z) : SegmentWriter * res Z StorageError :=
  if w_record_count w =? u32_max then (w, Err SegmentFull)
  else
    match checked_add64 (sh_base_offset (w_header w)) (w_record_count w) with
    | None => (w, Err SegmentFull)
    | Some offset => append_grown w (w_pending w ++ bytes) seq timestamp_ms offset
    end.

Definition writer_sync (w : SegmentWriter) : SegmentWriter * res unit StorageError :=
  match flush_pending w with
  | (w, Ok _) =>
      match sync_data (w_file w) with
      | (file, ok) => (with_file w file (w_pending w) (w_pending_base w), if ok then Ok tt else Err StIo)
      end
  | (w, e) => (w, e)
  end.

(** [sync_data_only] *)
Definition sync_data_only (w : SegmentWriter) : SegmentWriter * res unit StorageError :=
  match sync_data (w_file w) with
  | (file, ok) => (with_file w file (w_pending w) (w_pending_base w), if ok then Ok tt else Err StIo)
  end.

(** [seal] consumes the writer: the file it leaves, and the footer. *)
Definition seal (w : SegmentWriter) : F * res SegmentFooter StorageError :=
  match flush_pending w with
  | (w, Ok _) =>
      let footer := mk_footer (sh_segment_id (w_header w)) (w_last_seq w) (w_record_count w) in
      match write_all_at (w_file w) (footer_encode footer) (Z.to_nat (w_write_pos w)) with
      | (file, false) => (file, Err StIo)
      | (file, true) =>
          match checked_add64 (w_write_pos w) (Z.of_nat SEGMENT_FOOTER_LEN) with
          | None => (file, Err SegmentFull)
          | Some fin =>
              let '(file, cut) :=
                if fin <? Z.of_nat (length (f_live file)) then set_len file (Z.to_nat fin) else (file, true) in
              if cut then
                match sync_all file with (file, ok) => (file, if ok then Ok footer else Err StIo) end
              else (file, Err StIo)
          end
      end
  | (w, Err e) => (w_file w, Err e)
  | (w, Panic) => (w_file w, Panic)
  end.

Definition next_offset (w : SegmentWriter) : Z := sat_add64 (sh_base_offset (w_header w)) (w_record_count w).

(** ** Runs *)

Inductive WriterOp :=
| WAppend (record : RecordView) (subject stream_tag : list Z) (precomputed : bool)
| WFlush
| WSync.

(** The checksums the producing thread computed, when it did. *)
Definition checksums_for `{!Streaming} (record : RecordView) (precomputed : bool) : option BodyChecksums :=
  if precomputed then Some (compute_checksums (v_key record) (v_headers record) (v_payload record)) else None.

(** What a client sees of a run: the records whose append was accepted, the
    offsets the appends returned, and how many records a sync has confirmed. *)
Record Run := mk_run {
  run_writer : SegmentWriter;
  run_accepted : list Entry;
  run_offsets : list Z;
  run_confirmed : option nat
}.

Definition entry_of (record : RecordView) (subject tag : list Z) : Entry :=
  (derived record (match tag with [] => subject | _ => [] end) tag, match tag with [] => subject | _ => [] end, tag).

Definition run_step `{!Streaming} (r : Run) (o : WriterOp) : Run :=
  match o with
  | WAppend record subject tag pre =>
      match append_encoded (run_writer r) record subject tag (checksums_for record pre) with
      | (w, Ok off) =>
          mk_run w (run_accepted r ++ [entry_of record subject tag]) (run_offsets r ++ [off]) (run_confirmed r)
      | (w, _) => mk_run w (run_accepted r) (run_offsets r) (run_confirmed r)
      end
  | WFlush => mk_run (fst (flush_pending (run_writer r))) (run_accepted r) (run_offsets r) (run_confirmed r)
  | WSync =>
      match writer_sync (run_writer r) with
      | (w, Ok _) => mk_run w (run_accepted r) (run_offsets r) (Some (length (run_accepted r)))
      | (w, _) => mk_run w (run_accepted r) (run_offsets r) (run_confirmed r)
      end
  end.

(** ** The invariant *)

(** [flushed] are in the file, [buffered] in the pending buffer; when a sync has
    confirmed [n] records, they and the header are durable. *)
Record writer_inv (w : SegmentWriter) (flushed buffered : list Entry) (confirmed : option nat) : Prop := {
  wi_sound : f_sound (w_file w);
  wi_header : header_ok (w_header w);
  wi_ok : Forall entry_ok (flushed ++ buffered);
  wi_live : take (Z.to_nat (w_pending_base w)) (f_live (w_file w)) = header_encode (w_header w) ++ frames flushed;
  wi_base : w_pending_base w = Z.of_nat (SEGMENT_HEADER_LEN + length (frames flushed));
  wi_pending : w_pending w = frames buffered;
  wi_pos : w_write_pos w = w_pending_base w + Z.of_nat (length (frames buffered));
  wi_count : w_record_count w = Z.of_nat (length (flushed ++ buffered)) /\ w_record_count w <= u32_max;
  wi_last : w_last_seq w = last_seq_of (sh_base_seq (w_header w)) (flushed ++ buffered);
  wi_time : w_max_timestamp_ms w = max_time 0 (flushed ++ buffered);
  wi_offsets : sh_base_offset (w_header w) + w_record_count w <= u64_max + 1;
  wi_durable : match confirmed with
               | None => True
               | Some n => (n <= length flushed)%nat /\
                   header_encode (w_header w) ++ frames (take n flushed) `prefix_of` f_durable (w_file w)
               end
}.

(** Compute the writer's fields. *)
Ltac writer_cbn :=
  cbn [w_file w_header w_write_pos w_record_count w_last_seq w_max_timestamp_ms w_pending w_pending_base
       with_file with_buffer count_record fst].

Lemma wi_live_len w fl bu c : writer_inv w fl bu c -> (Z.to_nat (w_pending_base w) <= length (f_live (w_file w)))%nat.
Proof.
  intros Hi. pose proof (wi_live _ _ _ _ Hi) as Hl. apply (f_equal length) in Hl.
  rewrite length_take, length_app, length_header_encode, (wi_base _ _ _ _ Hi) in Hl.
  rewrite (wi_base _ _ _ _ Hi). unfold SEGMENT_HEADER_LEN in *. lia.
Qed.

(** Moving the buffer into the file. *)
Lemma flush_pending_inv w fl bu c :
  writer_inv w fl bu c ->
  match flush_pending w with
  | (w', Ok _) => writer_inv w' (fl ++ bu) [] c /\ w_pending w' = []
  | (w', Err _) => writer_inv w' fl bu c /\ w_write_pos w' = w_write_pos w /\ w_pending w' = w_pending w
  | (_, Panic) => False
  end.
Proof.
  intros Hi. pose proof (wi_live_len _ _ _ _ Hi) as Hlen. unfold flush_pending.
  destruct (w_pending w) as [|z p] eqn:Hp.
  - assert (Hbu : bu = []).
    { pose proof (wi_pending _ _ _ _ Hi) as Hpe. rewrite Hp in Hpe. destruct bu as [|e bu]; [done|].
      apply (f_equal length) in Hpe. rewrite frames_cons, length_app, length_entry_frame in Hpe.
      pose proof (entry_len_pos e). simpl in Hpe. lia. }
    subst bu. rewrite app_nil_r. split; [|done]. done.
  - rewrite <- Hp in *. clear z p Hp.
    destruct (write_all_at (w_file w) (w_pending w) (Z.to_nat (w_pending_base w))) as [f b] eqn:Hw. destruct b.
    + destruct (write_ok _ _ _ _ (wi_sound _ _ _ _ Hi) Hw) as (Hs & Hl & Hd). split; [|done].
      destruct Hi as [_ Hh Hok Hlive Hbase Hpend Hpos Hcnt Hlast Htime Hoff Hdur].
      constructor; writer_cbn; rewrite ?app_nil_r; try done.
      * assert (Hb0 : 0 <= w_pending_base w) by (rewrite Hbase; lia).
        rewrite Hl, Hpos, Z2Nat.inj_add, Nat2Z.id by lia.
        rewrite <- Hpend, splice_at, Hlive by done.
        by rewrite frames_app, Hpend, app_assoc.
      * rewrite Hpos, Hbase, frames_app, length_app. lia.
      * change (frames []) with (@nil Z). cbn [length]. lia.
      * destruct c as [n|]; [|done]. destruct Hdur as [Hn Hdur]. rewrite length_app. split; [lia|].
        rewrite take_app_le by lia. by rewrite Hd.
    + destruct (write_err _ _ _ _ (wi_sound _ _ _ _ Hi) Hw) as (Hs & Hd & Hl). split; [|done].
      destruct Hi as [_ Hh Hok Hlive Hbase Hpend Hpos Hcnt Hlast Htime Hoff Hdur].
      constructor; writer_cbn; try done.
      * rewrite <- Hlive. destruct Hl as [-> | [k ->]]; [done|]. by apply splice_take.
      * by rewrite Hd.
Qed.

Lemma flush_pending_count w seq ts :
  flush_pending (count_record w seq ts) =
  (count_record (fst (flush_pending w)) seq ts, snd (flush_pending w)).
Proof.
  unfold flush_pending. writer_cbn. destruct (w_pending w); [done|].
  destruct (write_all_at _ _ _) as [f b]. by destruct b.
Qed.

(** A spill that failed is rolled back to the state before the append, the file
    apart. *)
Lemma spill_rollback w fl bu c fin grown w2 e :
  writer_inv w fl bu c -> take (length (w_pending w)) grown = w_pending w ->
  flush_pending (with_buffer w fin grown) = (w2, Err e) ->
  writer_inv (with_buffer w2 (w_write_pos w) (take (length (w_pending w)) (w_pending w2))) fl bu c.
Proof.
  intros Hi Hg Hf. pose proof (wi_live_len _ _ _ _ Hi) as Hlen. unfold flush_pending in Hf. revert Hf. writer_cbn.
  destruct grown as [|z g] eqn:Hgr; [done|]. rewrite <- Hgr in *. clear z g Hgr.
  destruct (write_all_at (w_file w) grown (Z.to_nat (w_pending_base w))) as [f b] eqn:Hw. destruct b; [done|].
  intros [= <- _].
  destruct (write_err _ _ _ _ (wi_sound _ _ _ _ Hi) Hw) as (Hs & Hd & Hl).
  destruct Hi as [_ Hh Hok Hlive Hbase Hpend Hpos Hcnt Hlast Htime Hoff Hdur].
  constructor; writer_cbn; try done.
  - rewrite <- Hlive. destruct Hl as [-> | [k ->]]; [done|]. by apply splice_take.
  - by rewrite Hg.
  - by rewrite Hd.
Qed.

Lemma frames_len_bound es : Forall entry_ok es -> Z.of_nat (length (frames es)) <= 1073741824 * Z.of_nat (length es).
Proof.
  induction 1 as [|e es He _ IH]; [done|]. rewrite frames_cons, length_app, length_entry_frame. cbn [length].
  destruct e as [[rec s] t]. pose proof (fo_size _ _ _ He) as Hz. unfold MAX_RECORD_BYTES_CEILING in Hz. cbn [entry_len]. lia.
Qed.

(** The byte position cannot overflow: a segment holds fewer than 2^32 records
    of at most 1 GiB. *)
Lemma write_pos_bound w fl bu c e :
  writer_inv w fl bu c -> entry_ok e -> w_record_count w < u32_max ->
  checked_add64 (w_write_pos w) (Z.of_nat (entry_len e)) = Some (w_write_pos w + Z.of_nat (entry_len e)).
Proof.
  intros Hi He Hc. pose proof (frames_len_bound _ (wi_ok _ _ _ _ Hi)) as Hb.
  pose proof (frames_len_bound [e] ltac:(by constructor)) as Hbe.
  rewrite frames_cons, app_nil_r, length_entry_frame in Hbe. cbn [length] in Hbe.
  pose proof (wi_count _ _ _ _ Hi) as [Hcnt _]. rewrite frames_app, length_app in Hb.
  unfold checked_add. rewrite (proj2 (Z.leb_le _ _)); [done|].
  rewrite (wi_pos _ _ _ _ Hi), (wi_base _ _ _ _ Hi). unfold SEGMENT_HEADER_LEN, u32_max, u64_max in *. lia.
Qed.

(** The frame is in the buffer and counted. *)
Lemma grown_inv w fl bu c e :
  writer_inv w fl bu c -> entry_ok e -> w_record_count w < u32_max ->
  sh_base_offset (w_header w) + w_record_count w <= u64_max ->
  writer_inv (count_record (with_buffer w (w_write_pos w + Z.of_nat (entry_len e)) (w_pending w ++ entry_frame e))
    (entry_seq e) (entry_time e)) fl (bu ++ [e]) c.
Proof.
  intros Hi He Hc Ho. destruct Hi as [Hs Hh Hok Hlive Hbase Hpend Hpos Hcnt Hlast Htime Hoff Hdur].
  constructor; writer_cbn; try done.
  - rewrite app_assoc. apply Forall_app. split; [done|by constructor].
  - by rewrite frames_app, Hpend, frames_cons, app_nil_r.
  - rewrite frames_app, frames_cons, app_nil_r, length_app, length_entry_frame. lia.
  - rewrite app_assoc, length_app. cbn [length]. unfold u32_max in *. lia.
  - rewrite app_assoc. unfold last_seq_of. by rewrite last_snoc.
  - rewrite app_assoc. unfold max_time. rewrite foldl_app. cbn. unfold max_time in Htime. by rewrite Htime.
  - lia.
Qed.

Lemma append_grown_inv w fl bu c e offset :
  writer_inv w fl bu c -> entry_ok e -> w_record_count w < u32_max ->
  sh_base_offset (w_header w) + w_record_count w <= u64_max ->
  match append_grown w (w_pending w ++ entry_frame e) (entry_seq e) (entry_time e) offset with
  | (w', Ok off) => off = offset /\ exists fl' bu', writer_inv w' fl' bu' c /\ fl' ++ bu' = (fl ++ bu) ++ [e]
  | (w', Err _) => writer_inv w' fl bu c
  | (_, Panic) => False
  end.
Proof.
  intros Hi He Hc Ho. unfold append_grown. rewrite length_app, length_entry_frame.
  replace (length (w_pending w) + entry_len e - length (w_pending w))%nat with (entry_len e) by lia.
  rewrite (write_pos_bound _ _ _ _ _ Hi He Hc). set (fin := w_write_pos w + Z.of_nat (entry_len e)).
  set (w1 := with_buffer w fin (w_pending w ++ entry_frame e)).
  pose proof (grown_inv _ _ _ _ _ Hi He Hc Ho) as Hi1. fold fin w1 in Hi1.
  destruct (PENDING_SPILL_BYTES <=? _)%nat.
  - pose proof (flush_pending_inv _ _ _ _ Hi1) as Hf. rewrite flush_pending_count in Hf.
    destruct (flush_pending w1) as [w2 [[]|err|]] eqn:Hfl; cbn [fst snd] in Hf; [| |done].
    + split; [done|]. exists (fl ++ bu ++ [e]), []. split; [apply Hf|]. by rewrite app_nil_r, app_assoc.
    + exact (spill_rollback w fl bu c fin _ w2 err Hi (take_app_length _ _) Hfl).
  - split; [done|]. exists fl, (bu ++ [e]). split; [exact Hi1|]. by rewrite app_assoc.
Qed.

(** No operation touches the header. *)
Lemma flush_header w : w_header (fst (flush_pending w)) = w_header w.
Proof. unfold flush_pending. destruct (w_pending w); [done|]. destruct (write_all_at _ _ _) as [f b]. by destruct b. Qed.

Lemma append_grown_header w grown seq ts offset : w_header (fst (append_grown w grown seq ts offset)) = w_header w.
Proof.
  unfold append_grown. destruct (checked_add64 _ _); [|done]. case_match; [|done].
  pose proof (flush_header (with_buffer w z grown)) as Hh. destruct (flush_pending _) as [w2 [| |]]; exact Hh.
Qed.

Lemma append_header w record subject tag pre : w_header (fst (append_encoded w record subject tag pre)) = w_header w.
Proof.
  unfold append_encoded. case_match; [done|]. destruct (checked_add64 _ _); [|done].
  destruct (encode_plaintext _ _ _ _ _) as [[g n]| |]; [apply append_grown_header|done|done].
Qed.

(** ** Appending *)

Lemma encode_plaintext_frame `{!Streaming} pending record subject tag pre :
  let '(rec', subject', _) := entry_of record subject tag in
  encode_plaintext pending record subject tag (checksums_for record pre) =
  if fits record subject' tag
  then Ok (pending ++ entry_frame (entry_of record subject tag), frame_len record subject' tag)
  else Err EncodeTooLarge.
Proof.
  unfold entry_of, encode_plaintext, checksums_for, encode_precomputed, encode_precomputed_with_subject,
    encode_precomputed_with_stream_tag, encode_with_subject, encode_with_stream_tag, encode.
  destruct tag as [|z tag], pre, subject as [|z' subject]; rewrite ?precomputed_agree; apply encode_frame.
Qed.

(** An append either refuses and changes nothing, or grows the buffer by the
    frame of an entry. *)
Lemma append_cases `{!Streaming} w fl bu c record subject tag pre :
  writer_inv w fl bu c -> encodable record subject tag ->
  let e := entry_of record subject tag in
  append_encoded w record subject tag (checksums_for record pre) = (w, Err SegmentFull) \/
  entry_ok e /\ w_record_count w < u32_max /\ sh_base_offset (w_header w) + w_record_count w <= u64_max /\
  append_encoded w record subject tag (checksums_for record pre) =
    append_grown w (w_pending w ++ entry_frame e) (entry_seq e) (entry_time e)
      (sat_add64 (sh_base_offset (w_header w)) (Z.of_nat (length (fl ++ bu)))).
Proof.
  intros Hi Hen e. unfold append_encoded. pose proof (wi_count _ _ _ _ Hi) as [Hcnt Hmax].
  destruct (Z.eqb_spec (w_record_count w) u32_max) as [|Hc]; [by left|].
  unfold checked_add at 1 2. destruct (Z.leb_spec (sh_base_offset (w_header w) + w_record_count w) u64_max) as [Ho|]; [|by left].
  pose proof (encode_plaintext_frame (w_pending w) record subject tag pre) as Hp. cbn [entry_of] in Hp. rewrite Hp.
  set (subject' := match tag with [] => subject | _ => [] end) in *.
  assert (Hs : subject' = subject) by (unfold subject'; destruct tag; [done|]; destruct Hen as (_ & _ & _ & [-> |]); done).
  destruct (fits record subject' tag) eqn:Hf; [right|by left].
  assert (Hok : entry_ok e).
  { unfold e. cbn [entry_of entry_ok]. fold subject'. rewrite Hs in *. by apply derived_frame_ok. }
  split; [done|]. split; [lia|]. split; [done|]. rewrite <- Hcnt.
  replace (sat_add64 (sh_base_offset (w_header w)) (w_record_count w))
    with (sh_base_offset (w_header w) + w_record_count w) by (unfold sat_add; lia). done.
Qed.

Lemma append_inv `{!Streaming} w fl bu c record subject tag pre :
  writer_inv w fl bu c -> encodable record subject tag ->
  match append_encoded w record subject tag (checksums_for record pre) with
  | (w', Ok off) =>
      off = sat_add64 (sh_base_offset (w_header w)) (Z.of_nat (length (fl ++ bu))) /\
      exists fl' bu', writer_inv w' fl' bu' c /\ fl' ++ bu' = (fl ++ bu) ++ [entry_of record subject tag]
  | (w', Err _) => writer_inv w' fl bu c
  | (_, Panic) => False
  end.
Proof.
  intros Hi He. destruct (append_cases w fl bu c record subject tag pre Hi He) as [-> | (Hok & Hc & Ho & ->)]; [done|].
  by apply append_grown_inv.
Qed.

(** ** Syncing *)

Lemma confirmed_live w fl bu n :
  writer_inv w fl bu (Some n) ->
  let p := header_encode (w_header w) ++ frames (take n fl) in
  take (length p) (f_live (w_file w)) = p /\ take (length p) (f_durable (w_file w)) = p.
Proof.
  intros Hi p. destruct (wi_durable _ _ _ _ Hi) as [Hn [rest Hd]]. fold p in Hd.
  split; [|rewrite Hd; apply take_app_length].
  assert (Hp : p `prefix_of` f_live (w_file w)).
  { transitivity (header_encode (w_header w) ++ frames fl).
    - unfold p. rewrite <- (take_drop n fl) at 2. rewrite frames_app, app_assoc. by apply prefix_app_r.
    - rewrite <- (wi_live _ _ _ _ Hi). apply prefix_take. }
  destruct Hp as [r ->]. apply take_app_length.
Qed.

Lemma sync_inv w fl bu c :
  writer_inv w fl bu c ->
  match writer_sync w with
  | (w', Ok _) => writer_inv w' (fl ++ bu) [] (Some (length (fl ++ bu)))
  | (w', Err _) => exists fl' bu', writer_inv w' fl' bu' c /\ fl' ++ bu' = fl ++ bu
  | (_, Panic) => False
  end.
Proof.
  intros Hi. unfold writer_sync. pose proof (flush_pending_inv _ _ _ _ Hi) as Hf.
  destruct (flush_pending w) as [w1 [[]|e|]]; [|destruct Hf as [Hf _]; eauto|done].
  destruct Hf as [Hf Hp]. destruct (sync_data (w_file w1)) as [f ok] eqn:Hs. destruct ok.
  - destruct (sync_data_ok _ _ (wi_sound _ _ _ _ Hf) Hs) as (Hso & Hl & Hd).
    pose proof (wi_live _ _ _ _ Hf) as Hlive'.
    destruct Hf as [_ Hh Hok Hlive Hbase Hpend Hpos Hcnt Hlast Htime Hoff Hdur].
    constructor; writer_cbn; try done; [by rewrite Hl|]. split; [lia|]. rewrite take_ge by lia. rewrite Hd, <- Hlive'.
    transitivity (f_live (w_file w1)); [apply prefix_take|by apply prefix_app_r].
  - exists (fl ++ bu), []. split; [|apply app_nil_r].
    destruct (sync_data_err _ _ (wi_sound _ _ _ _ Hf) Hs) as (Hso & Hl & Hd).
    assert (Hdur' : match c with None => True | Some n => (n <= length (fl ++ bu))%nat /\
      header_encode (w_header w1) ++ frames (take n (fl ++ bu)) `prefix_of` f_durable f end).
    { destruct c as [n|]; [|done]. destruct (confirmed_live _ _ _ _ Hf) as [H1' H2'].
      split; [apply (wi_durable _ _ _ _ Hf)|].
      set (p := header_encode (w_header w1) ++ frames (take n (fl ++ bu))) in *.
      rewrite <- H2'. rewrite <- (blend_prefix _ _ _ (length p) Hd); [apply prefix_take|]. by rewrite H1', H2'. }
    destruct Hf as [_ Hh Hok Hlive Hbase Hpend Hpos Hcnt Hlast Htime Hoff _].
    constructor; writer_cbn; try done. by rewrite Hl.
Qed.

Lemma sync_header w : w_header (fst (writer_sync w)) = w_header w.
Proof.
  unfold writer_sync. pose proof (flush_header w) as Hh. destruct (flush_pending w) as [w1 [| |]]; try exact Hh.
  destruct (sync_data (w_file w1)). exact Hh.
Qed.

Lemma create_inv file header w :
  f_sound file -> header_ok header -> writer_create file header = Ok w ->
  writer_inv w [] [] None /\ w_header w = header.
Proof.
  intros Hs Hh Hc. unfold writer_create in Hc. destruct (write_all_at file (header_encode header) 0) as [f b] eqn:Hw.
  destruct b; [|done]. injection Hc as <-. destruct (write_ok _ _ _ _ Hs Hw) as (Hso & Hl & _). split; [|done].
  assert (Hlen : length (header_encode header) = SEGMENT_HEADER_LEN) by apply length_header_encode.
  constructor; writer_cbn; try done.
  - rewrite Nat2Z.id, Hl. change (frames []) with (@nil Z). rewrite app_nil_r, <- Hlen.
    exact (splice_at (f_live file) 0 (header_encode header) ltac:(lia)).
  - unfold header_ok, is_u64 in Hh. ulia.
Qed.

(** ** Whole runs *)

Definition op_ok (o : WriterOp) : Prop :=
  match o with WAppend record subject tag _ => encodable record subject tag | _ => True end.

(** Everything a run maintains. *)
Definition run_ok (header : SegmentHeader) (r : Run) : Prop :=
  (exists fl bu, writer_inv (run_writer r) fl bu (run_confirmed r) /\ fl ++ bu = run_accepted r) /\
  w_header (run_writer r) = header /\
  run_offsets r = map r_offset (owned (sh_base_offset header) 0 (run_accepted r)).

Lemma run_step_ok `{!Streaming} header r o : run_ok header r -> op_ok o -> run_ok header (run_step r o).
Proof.
  intros ((fl & bu & Hi & Ha) & Hw & Hoff) Ho. unfold run_step, run_ok. destruct o as [record subject tag pre| |].
  - pose proof (append_inv _ _ _ _ record subject tag pre Hi Ho) as Hs.
    pose proof (append_header (run_writer r) record subject tag (checksums_for record pre)) as Hh.
    destruct (append_encoded (run_writer r) record subject tag (checksums_for record pre)) as [w [off|e|]]; cbn in *; [| |done].
    + destruct Hs as (-> & fl' & bu' & Hi' & He). rewrite Hw, Ha in *. split; [eauto|]. split; [done|].
      rewrite owned_app, map_app, <- Hoff. done.
    + rewrite Hw in Hh. split; [eauto|done].
  - pose proof (flush_pending_inv _ _ _ _ Hi) as Hs. pose proof (flush_header (run_writer r)) as Hh. rewrite Hw in Hh.
    destruct (flush_pending (run_writer r)) as [w [[]|e|]]; cbn in *; [| |done]; destruct Hs as [Hs _].
    + split; [|done]. exists (fl ++ bu), []. by rewrite app_nil_r.
    + split; [eauto|done].
  - pose proof (sync_inv _ _ _ _ Hi) as Hs. pose proof (sync_header (run_writer r)) as Hh. rewrite Hw in Hh.
    destruct (writer_sync (run_writer r)) as [w [[]|e|]]; cbn in *; [| |done].
    + split; [|done]. exists (fl ++ bu), []. rewrite app_nil_r. split; [by rewrite <- Ha|done].
    + destruct Hs as (fl' & bu' & Hi' & He). split; [|done]. exists fl', bu'. split; [done|congruence].
Qed.

Lemma run_ops_ok `{!Streaming} header r ops : run_ok header r -> Forall op_ok ops -> run_ok header (foldl run_step r ops).
Proof.
  intros Hr Ho. revert r Hr. induction Ho as [|o ops Ho _ IH]; intros r Hr; [done|]. cbn [foldl]. by apply IH, run_step_ok.
Qed.

Lemma create_run_ok file header w :
  f_sound file -> header_ok header -> writer_create file header = Ok w -> run_ok header (mk_run w [] [] None).
Proof.
  intros Hs Hh Hc. destruct (create_inv _ _ _ Hs Hh Hc) as [Hi Hw]. split; [|done]. exists [], []. done.
Qed.

(** C12: A record confirmed by a sync survives every crash.  Start a segment on
    any file that does not corrupt bytes silently, and append, flush and sync in
    any order, with writes that fail or tear and syncs that fail.  When a sync
    has confirmed the first [n] accepted records, then after a crash that keeps
    the durable bytes, whatever else it leaves after them, the segment opens and
    its scan returns those records first, in order, at the offsets the appends
    returned. *)
Theorem confirmed_records_survive `{!Streaming} file header w ops n image :
  f_sound file -> header_ok header -> Forall op_ok ops -> writer_create file header = Ok w ->
  let r := foldl run_step (mk_run w [] [] None) ops in
  run_confirmed r = Some n -> f_durable (w_file (run_writer r)) `prefix_of` image -> bytes_ok image ->
  (n <= length (run_accepted r))%nat /\
  run_offsets r = map r_offset (owned (sh_base_offset header) 0 (run_accepted r)) /\
  exists reader, reader_open image = Ok reader /\
    match scan reader with
    | Ok sc => owned (sh_base_offset header) 0 (take n (run_accepted r)) `prefix_of` sc_records sc
    | Err (FooterSegmentMismatch a b) => a = sh_segment_id header /\ b <> a
    | _ => False
    end.
Proof.
  intros Hs Hh Ho Hc r Hn [junk Him] Hb.
  destruct (run_ops_ok header _ ops (create_run_ok _ _ _ Hs Hh Hc) Ho) as ((fl & bu & Hi & Ha) & Hw & Hoff). fold r in Hi, Ha, Hw, Hoff.
  rewrite Hn in Hi. destruct (wi_durable _ _ _ _ Hi) as [Hlen [rest Hd]].
  rewrite Hw in Hd. split; [rewrite <- Ha, length_app; lia|]. split; [exact Hoff|].
  assert (Hbj : bytes_ok (rest ++ junk)).
  { rewrite Him, Hd, <- app_assoc in Hb. by apply Forall_app in Hb as [_ Hb]. }
  assert (Hok : Forall entry_ok (take n fl)).
  { apply Forall_take. pose proof (wi_ok _ _ _ _ Hi) as Hok. by apply Forall_app in Hok as [Hok _]. }
  destruct (durable_prefix_survives header (take n fl) (rest ++ junk) Hh Hok Hbj) as (reader & Hr & Hsc).
  exists reader. rewrite Him, Hd, <- !app_assoc. split; [exact Hr|].
  rewrite <- Ha, take_app_le by lia. destruct (scan reader) as [sc|[]|]; try done. apply Hsc.
Qed.

(** ** Sealing *)

Lemma last_seq_u64 header es : header_ok header -> Forall entry_ok es -> is_u64 (last_seq_of (sh_base_seq header) es).
Proof.
  intros Hh Hok. unfold last_seq_of. destruct (last es) as [[[rec s] t]|] eqn:Hl; [|apply Hh].
  apply last_Some in Hl as [es' ->]. apply Forall_app in Hok as [_ Hok]. apply Forall_cons in Hok as [Hok _].
  apply (fo_seq _ _ _ Hok).
Qed.

Lemma checked_add64_Some a b c : checked_add64 a b = Some c -> c = a + b /\ c <= u64_max.
Proof. unfold checked_add. destruct (Z.leb_spec (a + b) u64_max); intros [= <-]. done. Qed.

(** A file cut or left at a length the image reaches. *)
Lemma cut_to (live image : list Z) :
  take (length image) live = image -> (length image <= length live)%nat -> resize (length image) 0 live = image.
Proof. intros Ht Hl. rewrite resize_le; [exact Ht|exact Hl]. Qed.

Lemma seal_image w fl bu c f footer :
  writer_inv w fl bu c -> seal w = (f, Ok footer) ->
  footer = mk_footer (sh_segment_id (w_header w)) (last_seq_of (sh_base_seq (w_header w)) (fl ++ bu))
             (Z.of_nat (length (fl ++ bu))) /\
  f_live f = header_encode (w_header w) ++ frames (fl ++ bu) ++ footer_encode footer /\ f_durable f = f_live f.
Proof.
  intros Hi Hs. unfold seal in Hs. pose proof (flush_pending_inv _ _ _ _ Hi) as Hf. pose proof (flush_header w) as Hh.
  destruct (flush_pending w) as [w1 [[]|e|]]; [|done|done]. cbn [fst] in Hh. destruct Hf as [Hf Hp].
  pose proof (wi_live_len _ _ _ _ Hf) as Hll.
  destruct Hf as [Hso _ Hok Hlive Hbase Hpend Hpos Hcnt Hlast Htime Hoff Hdur]. rewrite app_nil_r in *.
  rewrite Hh in *. change (frames []) with (@nil Z) in Hpos. cbn [length] in Hpos. rewrite Z.add_0_r in Hpos.
  rewrite (proj1 Hcnt), Hlast in Hs. set (ft := mk_footer _ _ _) in *. rewrite Hpos in *.
  destruct (write_all_at (w_file w1) (footer_encode ft) (Z.to_nat (w_pending_base w1))) as [f1 b] eqn:Hw.
  destruct b; [|done]. destruct (write_ok _ _ _ _ Hso Hw) as (Hso1 & Hl1 & Hd1).
  destruct (checked_add64 (w_pending_base w1) (Z.of_nat SEGMENT_FOOTER_LEN)) as [fin|] eqn:Hfin; [|done].
  set (image := header_encode (w_header w) ++ frames (fl ++ bu) ++ footer_encode ft).
  assert (Him : length image = (SEGMENT_HEADER_LEN + length (frames (fl ++ bu)) + SEGMENT_FOOTER_LEN)%nat).
  { unfold image. rewrite !length_app, length_header_encode, length_footer_encode. lia. }
  apply checked_add64_Some in Hfin as [Hfin _].
  assert (Hbase0 : 0 <= w_pending_base w1) by (rewrite Hbase; lia).
  assert (Hfl : Z.to_nat fin = length image) by (rewrite Hfin, Hbase, Him; lia).
  assert (Ht : take (length image) (f_live f1) = image).
  { rewrite Hl1. replace (length image) with (Z.to_nat (w_pending_base w1) + length (footer_encode ft))%nat
      by (rewrite Him, length_footer_encode, Hbase; lia).
    rewrite splice_at, Hlive by done. unfold image. by rewrite app_assoc. }
  assert (Hge : (length image <= length (f_live f1))%nat) by (apply (f_equal length) in Ht; rewrite length_take in Ht; lia).
  destruct (if fin <? Z.of_nat (length (f_live f1)) then set_len f1 (Z.to_nat fin) else (f1, true)) as [f2 b] eqn:Hc.
  destruct b; [|done].
  assert (H2 : f_sound f2 /\ f_live f2 = image).
  { destruct (Z.ltb_spec fin (Z.of_nat (length (f_live f1)))).
    - destruct (set_len_ok _ _ _ Hso1 Hc) as (? & -> & _). split; [done|]. rewrite Hfl. by apply cut_to.
    - injection Hc as <-. split; [done|]. rewrite <- Ht. symmetry. apply take_ge. lia. }
  destruct H2 as [Hso2 Hl2]. destruct (sync_all f2) as [f3 ok] eqn:Hsy. destruct ok; [|done]. injection Hs as <- <-.
  destruct (sync_all_ok _ _ Hso2 Hsy) as (_ & -> & ->). by rewrite Hl2.
Qed.

(** A sealed segment holds what was appended.  Sealing after any run leaves
    a file that is all durable and scans as sealed and clean, with every
    accepted record, and with the footer the seal returned: this segment's id,
    the last sequence and the number of records. *)
Theorem sealed_segment_exact `{!Streaming} file header w ops f footer :
  f_sound file -> header_ok header -> Forall op_ok ops -> writer_create file header = Ok w ->
  let r := foldl run_step (mk_run w [] [] None) ops in
  seal (run_writer r) = (f, Ok footer) ->
  f_durable f = f_live f /\ sf_segment_id footer = sh_segment_id header /\
  sf_record_count footer = Z.of_nat (length (run_accepted r)) /\
  exists reader, reader_open (f_live f) = Ok reader /\
    scan reader = Ok (mk_scan header (owned (sh_base_offset header) 0 (run_accepted r)) (Some footer) true
                        (SEGMENT_HEADER_LEN + length (frames (run_accepted r)))).
Proof.
  intros Hs Hh Ho Hc r Hse.
  destruct (run_ops_ok header _ ops (create_run_ok _ _ _ Hs Hh Hc) Ho) as ((fl & bu & Hi & Ha) & Hw & _). fold r in Hi, Ha, Hw.
  destruct (seal_image _ _ _ _ _ _ Hi Hse) as (-> & Hl & Hd). rewrite Hw, Ha in *.
  split; [done|]. split; [done|]. split; [done|]. rewrite Hl.
  eexists. split; [by apply open_image|].
  pose proof (wi_ok _ _ _ _ Hi) as Hok. pose proof (wi_count _ _ _ _ Hi) as Hcnt. rewrite Ha in Hok, Hcnt.
  rewrite scan_image_sealed; [by rewrite Z.eqb_refl|done|lia|apply Hh|by apply last_seq_u64].
Qed.
End writer.

Arguments SegmentWriter : clear implicits.
Arguments Run : clear implicits.

(** ** On the in-memory file

    With no write torn, the file holds the flushed frames and nothing else, so
    that a power loss can only cut them. *)

Section power_loss.
Context `{Crc32c} `{Xxh3} `{!Streaming}.

Definition mem_exact (w : SegmentWriter FileState) : Prop :=
  Z.of_nat (length (fs_live (w_file w))) = w_pending_base w /\ fs_durable (w_file w) `prefix_of` fs_live (w_file w).

Lemma flush_exact w fl bu c : writer_inv w fl bu c -> mem_exact w -> mem_exact (fst (flush_pending w)).
Proof.
  intros Hi [Hl Hd]. unfold flush_pending. destruct (w_pending w) as [|z p] eqn:Hp; [done|]. rewrite <- Hp in *.
  cbn [write_all_at mem_file]. unfold mem_write_all_at. destruct (u64_max <? _); [done|]. unfold mem_exact. cbn.
  pose proof (wi_pos _ _ _ _ Hi) as Hpos. rewrite <- (wi_pending _ _ _ _ Hi) in Hpos.
  rewrite length_splice. split; [lia|].
  transitivity (fs_live (w_file w)); [done|].
  rewrite <- (firstn_all (fs_live (w_file w))) at 1.
  rewrite <- (splice_take (fs_live (w_file w)) (Z.to_nat (w_pending_base w)) (w_pending w)) by lia. apply prefix_take.
Qed.

Lemma append_exact w fl bu c record subject tag pre :
  writer_inv w fl bu c -> mem_exact w -> encodable record subject tag ->
  mem_exact (fst (append_encoded w record subject tag (checksums_for record pre))).
Proof.
  intros Hi He Hen. destruct (append_cases w fl bu c record subject tag pre Hi Hen) as [-> | (Hok & Hc & Ho & ->)]; [done|].
  set (e := entry_of record subject tag) in *. unfold append_grown. rewrite length_app, length_entry_frame.
  replace (length (w_pending w) + entry_len e - length (w_pending w))%nat with (entry_len e) by lia.
  rewrite (write_pos_bound _ _ _ _ _ Hi Hok Hc). pose proof (grown_inv _ _ _ _ _ Hi Hok Hc Ho) as Hi1.
  set (w1 := with_buffer w _ _) in *.
  assert (Hx : mem_exact (fst (flush_pending w1))).
  { pose proof (flush_exact _ _ _ _ Hi1 He) as Hf. rewrite flush_pending_count in Hf. exact Hf. }
  case_match; [|exact He]. destruct (flush_pending w1) as [w2 [| |]]; exact Hx.
Qed.

Lemma sync_exact w fl bu c : writer_inv w fl bu c -> mem_exact w -> mem_exact (fst (writer_sync w)).
Proof.
  intros Hi He. unfold writer_sync. pose proof (flush_exact _ _ _ _ Hi He) as Hf.
  pose proof (flush_pending_inv _ _ _ _ Hi) as Hfi.
  destruct (flush_pending w) as [w1 [[]|e|]]; cbn [fst] in Hf; [|done|done]. destruct Hfi as [Hfi _].
  destruct Hf as [Hl Hd]. pose proof (mem_sync_data_image (w_file w1) (wi_sound _ _ _ _ Hfi)) as Hs.
  cbn [sync_data mem_file]. unfold mem_exact. cbn [fst w_file w_pending_base with_file].
  split; [exact Hl|]. rewrite Hs. cbn [fs_live mem_sync_data]. rewrite drop_ge by (by apply prefix_length). by rewrite app_nil_r.
Qed.

Lemma run_exact header r o : run_ok header r -> op_ok o -> mem_exact (run_writer r) -> mem_exact (run_writer (run_step r o)).
Proof.
  intros ((fl & bu & Hi & _) & _) Ho He. unfold run_step. destruct o as [record subject tag pre| |].
  - pose proof (append_exact _ _ _ _ record subject tag pre Hi He Ho) as Hx.
    destruct (append_encoded _ _ _ _ _) as [w [| |]]; exact Hx.
  - exact (flush_exact _ _ _ _ Hi He).
  - pose proof (sync_exact _ _ _ _ Hi He) as Hx. destruct (writer_sync _) as [w [| |]]; exact Hx.
Qed.

Lemma run_ops_exact header r ops :
  run_ok header r -> Forall op_ok ops -> mem_exact (run_writer r) -> mem_exact (run_writer (foldl run_step r ops)).
Proof.
  intros Hr Ho. revert r Hr. induction Ho as [|o ops Ho _ IH]; intros r Hr He; [done|]. cbn [foldl].
  apply IH; [by apply run_step_ok|by eapply run_exact].
Qed.

Lemma create_exact header w : writer_create (mem_from_bytes []) header = Ok w -> mem_exact w.
Proof.
  unfold writer_create. cbn [write_all_at mem_file]. unfold mem_write_all_at.
  destruct (u64_max <? _); [done|]. intros [= <-]. unfold mem_exact. cbn [w_file w_pending_base fs_live fs_durable mem_from_bytes].
  rewrite length_splice, length_header_encode. split; [unfold SEGMENT_HEADER_LEN; cbn [length]; lia|apply prefix_nil].
Qed.

(** What the losses leave of a file whose durable bytes are a prefix. *)
Lemma loss_image s loss :
  fs_durable s `prefix_of` fs_live s -> loss = OpPowerLoss \/ (exists seed, loss = OpPowerLossReorder seed) ->
  exists k, (length (fs_durable s) <= k <= length (fs_live s))%nat /\ fs_live (file_step s loss) = take k (fs_live s).
Proof.
  intros [rest Hp] Hloss. pose proof (f_equal length Hp) as Hl. rewrite length_app in Hl. destruct Hloss as [-> | [seed ->]].
  - exists (length (fs_durable s)). split; [lia|]. cbn. by rewrite Hp, take_app_length.
  - destruct (power_loss_reorder_image s seed) as (k & Hk & _). cbn [file_step]. rewrite Hk.
    exists (length (fs_durable s) + min k (length rest))%nat. split; [lia|]. rewrite Hp, drop_app_length, take_app_add.
    f_equal. destruct (decide (k <= length rest)%nat); [by rewrite Nat.min_l|]. rewrite !take_ge by lia. done.
Qed.

Lemma fit_ge n k es : (n <= length es)%nat -> (length (frames (take n es)) <= k)%nat -> (n <= fit k es)%nat.
Proof.
  revert n k. induction es as [|e es IH]; intros [|n] k Hn Hk; cbn [length] in Hn; try lia.
  cbn [take fit] in *. rewrite frames_cons, length_app, length_entry_frame in Hk. rewrite (proj2 (Nat.leb_le _ _)) by lia.
  specialize (IH n (k - entry_len e)%nat). lia.
Qed.

(** After a power loss a segment holds a prefix of what was appended, no
    shorter than what was confirmed.  On the simulation's disk, whose power loss
    keeps the synced bytes and an arbitrary strict prefix of the rest, any run
    of appends, flushes and syncs with at least one sync leaves a segment that
    opens and scans as unsealed with exactly the first [m] accepted records, [m]
    at least the number confirmed. *)
Theorem power_loss_leaves_prefix header w ops loss n :
  header_ok header -> Forall op_ok ops -> writer_create (mem_from_bytes []) header = Ok w ->
  loss = OpPowerLoss \/ (exists seed, loss = OpPowerLossReorder seed) ->
  let r := foldl run_step (mk_run w [] [] None) ops in
  run_confirmed r = Some n ->
  exists m reader clean, (n <= m <= length (run_accepted r))%nat /\
    reader_open (fs_live (file_step (w_file (run_writer r)) loss)) = Ok reader /\
    scan reader = Ok (mk_scan header (owned (sh_base_offset header) 0 (take m (run_accepted r))) None clean
                        (SEGMENT_HEADER_LEN + length (frames (take m (run_accepted r))))).
Proof.
  intros Hh Ho Hc Hloss r Hn. pose proof (create_run_ok (mem_from_bytes []) header w (fun _ _ _ => eq_refl) Hh Hc) as Hr0.
  pose proof (run_ops_exact header _ ops Hr0 Ho (create_exact _ _ Hc)) as [Hel Hed]. fold r in Hel, Hed.
  destruct (run_ops_ok header _ ops Hr0 Ho) as ((fl & bu & Hi & Ha) & Hw & _). fold r in Hi, Ha, Hw.
  destruct (loss_image _ loss Hed Hloss) as (k & Hk & ->).
  pose proof (wi_live _ _ _ _ Hi) as Hlive. cbn [f_live mem_file] in Hlive. rewrite <- Hel, Nat2Z.id, firstn_all, Hw in Hlive. rewrite Hlive in Hk |- *.
  pose proof (wi_ok _ _ _ _ Hi) as Hok. apply Forall_app in Hok as [Hok _].
  rewrite Hn in Hi. destruct (wi_durable _ _ _ _ Hi) as [Hnl Hdur]. rewrite Hw in Hdur. apply prefix_length in Hdur. cbn [f_durable mem_file] in Hdur.
  rewrite !length_app, length_header_encode in *. set (m := fit (k - SEGMENT_HEADER_LEN) fl).
  assert (Hm : (n <= m <= length fl)%nat) by (split; [apply fit_ge; lia|apply fit_le]).
  assert (Htm : take m (run_accepted r) = take m fl) by (rewrite <- Ha; apply take_app_le; lia).
  exists m. rewrite Htm.
  rewrite take_app_ge by (rewrite length_header_encode; lia). rewrite length_header_encode.
  eexists _, _. split; [rewrite <- Ha, length_app; lia|]. split; [by apply open_image|].
  rewrite scan_image_cut by (done || lia). done.
Qed.
End power_loss.

(** ** Evaluation *)

Section evaluation.
#[local] Existing Instance sum32.
#[local] Existing Instance sum64.
#[local] Existing Instance sums.

Definition demo_ops : list WriterOp :=
  [WAppend (demo_view 100) [] [] false; WAppend (demo_view 101) [97; 46; 98] [] true; WSync;
   WAppend (demo_view 102) [] [] false; WFlush].

Lemma demo_ops_ok : Forall op_ok demo_ops.
Proof.
  repeat apply Forall_cons_2; try apply Forall_nil_2; try exact I; apply demo_view_encodable;
    first [ulia | apply (bool_decide_unpack _); vm_compute; exact I].
Qed.

Definition demo_fault_file : FaultFile FileState := mk_fault (mem_from_bytes []) false false false None None 3.
Definition demo_fault_writer : SegmentWriter (FaultFile FileState) :=
  match writer_create demo_fault_file demo_header with Ok w => w | _ => writer_resume demo_fault_file demo_header 0 0 0 0 end.
Definition demo_fault_run := foldl run_step (mk_run demo_fault_writer [] [] None) demo_ops.

Lemma confirmed_records_survive_witness :
  exists reader, reader_open (f_durable (w_file (run_writer demo_fault_run)) ++ [7; 7]) = Ok reader /\
    match scan reader with
    | Ok sc => owned 40 0 (take 2 (run_accepted demo_fault_run)) `prefix_of` sc_records sc
    | Err (FooterSegmentMismatch a b) => a = 3 /\ b <> a
    | _ => False
    end.
Proof.
  refine (proj2 (proj2 (confirmed_records_survive demo_fault_file demo_header demo_fault_writer demo_ops 2
    (f_durable (w_file (run_writer demo_fault_run)) ++ [7; 7]) _ demo_header_ok demo_ops_ok _ _ _ _))).
  - split; [|reflexivity]. intros i _ _. reflexivity.
  - vm_compute. reflexivity.
  - vm_compute. reflexivity.
  - apply prefix_app_r. reflexivity.
  - apply (bool_decide_unpack _). vm_compute. exact I.
Defined.

Definition demo_writer : SegmentWriter FileState :=
  match writer_create (mem_from_bytes []) demo_header with Ok w => w | _ => writer_resume (mem_from_bytes []) demo_header 0 0 0 0 end.
Definition demo_run := foldl run_step (mk_run demo_writer [] [] None) demo_ops.

Lemma power_loss_leaves_prefix_witness :
  exists m reader clean, (2 <= m <= length (run_accepted demo_run))%nat /\
    reader_open (fs_live (file_step (w_file (run_writer demo_run)) (OpPowerLossReorder 12))) = Ok reader /\
    scan reader = Ok (mk_scan demo_header (owned 40 0 (take m (run_accepted demo_run))) None clean
                        (SEGMENT_HEADER_LEN + length (frames (take m (run_accepted demo_run))))).
Proof.
  apply (power_loss_leaves_prefix demo_header demo_writer demo_ops (OpPowerLossReorder 12) 2 demo_header_ok demo_ops_ok);
    [vm_compute; reflexivity|right; eauto|vm_compute; reflexivity].
Defined.

Lemma sealed_segment_exact_witness :
  exists f footer, seal (run_writer demo_run) = (f, Ok footer) /\ sf_record_count footer = 3 /\ f_durable f = f_live f.
Proof.
  destruct (seal (run_writer demo_run)) as [f [footer| |]] eqn:Hs; pose proof Hs as Hv; vm_compute in Hv; try discriminate Hv.
  exists f, footer. split; [reflexivity|].
  assert (Hf : f_sound (mem_from_bytes [])) by (intros i _ _; reflexivity).
  assert (Hc : writer_create (mem_from_bytes []) demo_header = Ok demo_writer) by (vm_compute; reflexivity).
  destruct (sealed_segment_exact (mem_from_bytes []) demo_header demo_writer demo_ops f footer Hf
    demo_header_ok demo_ops_ok Hc Hs) as (Hd & _ & Hn & _).
  split; [rewrite Hn; vm_compute; reflexivity|exact Hd].
Defined.
End evaluation.
