(* ===== verification/Log.v ===== *)
(** * The segmented log ([Log] of [storage/src/log.rs], [fs.rs], [loss.rs])

    A log is a directory of segment files, all sealed but the last.  Appends go
    to the active segment, which is sealed and replaced when it is full; a sync
    makes everything appended durable; opening a directory scans the segments,
    checks that they form one chain, cuts the torn tail of the last and resumes
    it.

    The directory is that of the simulation: entries become durable at a
    directory sync, bytes at a file sync, and files are shared by reference, so
    that a removed name comes back with its old file.  Whether a directory
    operation succeeds, the clock and the file a creation hands out come from
    the environment of each operation; files fail by their own instance of
    [RandomAccessFile].

    The model is of the ordinary log: no compacted, encrypted or cold segment.
    Left out are the seek and time indexes, the published read plane and the
    quarantine of lost bytes, which no operation here reads, and preallocation,
    which changes no byte of the simulated disk. *)

From S2P Require Import Prelude Bytes Records Codec Disk SegmentFormat SegmentScan SegmentWriter.

(** ** Data *)

Record LogConfig := mk_log_config {
  max_segment_bytes : Z;
  max_total_bytes : Z;
  daily_physical_write_budget_bytes : Z
}.

Definition MIN_MAX_SEGMENT_BYTES : Z :=
  Z.of_nat (SEGMENT_HEADER_LEN + SEGMENT_FOOTER_LEN + 2 * (RECORD_HEADER_LEN + RECORD_TRAILER_LEN)).

(** [LogConfig::new], with the value and the floor of its error. *)
Definition log_config_new (max_segment_bytes : Z) : res LogConfig (Z * Z) :=
  fail? max_segment_bytes <? MIN_MAX_SEGMENT_BYTES with (max_segment_bytes, MIN_MAX_SEGMENT_BYTES) in
  Ok (mk_log_config max_segment_bytes 0 0).

Definition FIRST_SEGMENT_ID : Z := 0.

(** What a producer supplies. *)
Record Append := mk_append {
  ap_timestamp_ms : Z;
  ap_flags : Z;
  ap_key : list Z;
  ap_headers : list Z;
  ap_payload : list Z
}.

Inductive AppendSource :=
| SrcEncode (record : Append) (precomputed : option BodyChecksums) (subject stream_tag : list Z)
| SrcVerbatim (frame : list Z) (view : RecordView).

Record SegmentSlot := mk_slot {
  sl_id : Z;
  sl_base_offset : Z;
  sl_record_count : Z;
  sl_max_timestamp_ms : Z
}.

Record LossEvent := mk_loss {
  le_segment_id : Z;
  le_byte_offset_start : Z;
  le_byte_offset_end : Z;
  le_bytes_skipped : Z;
  le_records_lost_estimate : Z;
  le_reason_code : ReasonCode
}.

Definition loss_span (segment_id start fin records : Z) (reason : ReasonCode) : LossEvent :=
  mk_loss segment_id start fin (sat_sub fin start) records reason.

Definition PER_EVENT_BYTE_CAP : Z := 64 * 1024 * 1024.

Definition global_loss_cap_bytes (durable_bytes : Z) : Z := durable_bytes / 100 * 1.

Definition total_bytes_skipped (events : list LossEvent) : Z := foldl (fun acc e => sat_add64 acc (le_bytes_skipped e)) 0 events.

Definition check_caps (events : list LossEvent) (per_event_cap global_cap : Z) : res unit CapViolation :=
  match find (fun e => per_event_cap <? le_bytes_skipped e) events with
  | Some e => Err (PerEvent (le_bytes_skipped e) per_event_cap)
  | None =>
      fail? global_cap <? total_bytes_skipped events with GlobalCap (total_bytes_skipped events) global_cap in
      Ok tt
  end.

(** The meters of the log. *)
Record Meters := mk_meters {
  m_sealed_record_bytes : Z;
  m_total_record_count : Z;
  m_logical_bytes_written : Z;
  m_physical_bytes_written : Z;
  m_physical_bytes_written_today : Z;
  m_physical_write_today_day : Z;
  m_daily_budget_sheds : Z;
  m_unsynced_record_bytes : Z
}.

Definition meters_zero : Meters := mk_meters 0 0 0 0 0 0 0 0.

Record PendingRoll := mk_pending_roll {
  pr_id : Z;
  pr_base_seq : Z;
  pr_base_offset : Z
}.

Record SyncTicket := mk_ticket {
  tk_target : Z;
  tk_segment_id : Z;
  tk_covered_bytes : Z
}.

Section log.
Context `{Crc32c} `{Xxh3} `{RandomAccessFile F}.

(** ** The directory *)

(** Files by number; the entries now and as of the last directory sync. *)
Record Dir := mk_dir {
  d_files : gmap nat F;
  d_live : gmap Z nat;
  d_durable : gmap Z nat
}.

Definition dir_empty : Dir := mk_dir ∅ ∅ ∅.

Definition put_file (d : Dir) (ino : nat) (f : F) : Dir := mk_dir (<[ino := f]> (d_files d)) (d_live d) (d_durable d).

Definition dir_open (d : Dir) (id : Z) : option (nat * F) :=
  match d_live d !! id with Some ino => pair ino <$> d_files d !! ino | None => None end.

(** A number no entry uses. *)
Definition fresh_ino (d : Dir) : nat := fresh (dom (d_files d)).

Definition dir_create_new (d : Dir) (id : Z) (file : F) (ok : bool) : Dir * option nat :=
  match d_live d !! id with
  | Some _ => (d, None)
  | None =>
      if ok then (mk_dir (<[fresh_ino d := file]> (d_files d)) (<[id := fresh_ino d]> (d_live d)) (d_durable d), Some (fresh_ino d))
      else (d, None)
  end.

Definition dir_remove (d : Dir) (id : Z) (ok : bool) : Dir * bool :=
  match d_live d !! id with
  | Some _ => if ok then (mk_dir (d_files d) (delete id (d_live d)) (d_durable d), true) else (d, false)
  | None => (d, false)
  end.

Definition dir_sync (d : Dir) (ok : bool) : Dir * bool :=
  if ok then (mk_dir (d_files d) (d_live d) (d_live d), true) else (d, false).

(** [segment_ids]: in ascending order. *)
Definition dir_segment_ids (d : Dir) : list Z := (btree_list (d_live d)).*1.

(** What an operation meets outside the log. *)
Record Env := mk_env {
  ev_unix_millis : Z;
  ev_file : F;
  ev_create_ok : bool;
  ev_remove_ok : bool;
  ev_sync_dir_ok : bool
}.

(** ** The log *)

(** The active writer with the number of its file, which the writer holds. *)
Record Log := mk_log {
  l_dir : Dir;
  l_config : LogConfig;
  l_active : option (nat * SegmentWriter F);
  l_active_id : Z;
  l_next_offset : Z;
  l_next_seq : Z;
  l_flushed_offset : Z;
  l_synced_offset : Z;
  l_segments : list SegmentSlot;
  l_loss : list LossEvent;
  l_recovered_truncated_bytes : Z;
  l_meters : Meters;
  l_pending_roll : option PendingRoll
}.

Definition with_dir (l : Log) (d : Dir) : Log :=
  mk_log d (l_config l) (l_active l) (l_active_id l) (l_next_offset l) (l_next_seq l) (l_flushed_offset l) (l_synced_offset l)
    (l_segments l) (l_loss l) (l_recovered_truncated_bytes l) (l_meters l) (l_pending_roll l).
Definition with_active (l : Log) (a : option (nat * SegmentWriter F)) : Log :=
  mk_log (l_dir l) (l_config l) a (l_active_id l) (l_next_offset l) (l_next_seq l) (l_flushed_offset l) (l_synced_offset l)
    (l_segments l) (l_loss l) (l_recovered_truncated_bytes l) (l_meters l) (l_pending_roll l).
Definition with_heads (l : Log) (next_offset next_seq flushed synced : Z) : Log :=
  mk_log (l_dir l) (l_config l) (l_active l) (l_active_id l) next_offset next_seq flushed synced
    (l_segments l) (l_loss l) (l_recovered_truncated_bytes l) (l_meters l) (l_pending_roll l).
Definition with_segments (l : Log) (active_id : Z) (segments : list SegmentSlot) : Log :=
  mk_log (l_dir l) (l_config l) (l_active l) active_id (l_next_offset l) (l_next_seq l) (l_flushed_offset l) (l_synced_offset l)
    segments (l_loss l) (l_recovered_truncated_bytes l) (l_meters l) (l_pending_roll l).
Definition with_loss (l : Log) (loss : list LossEvent) (truncated : Z) : Log :=
  mk_log (l_dir l) (l_config l) (l_active l) (l_active_id l) (l_next_offset l) (l_next_seq l) (l_flushed_offset l) (l_synced_offset l)
    (l_segments l) loss truncated (l_meters l) (l_pending_roll l).
Definition with_meters (l : Log) (m : Meters) : Log :=
  mk_log (l_dir l) (l_config l) (l_active l) (l_active_id l) (l_next_offset l) (l_next_seq l) (l_flushed_offset l) (l_synced_offset l)
    (l_segments l) (l_loss l) (l_recovered_truncated_bytes l) m (l_pending_roll l).
Definition with_pending (l : Log) (p : option PendingRoll) : Log :=
  mk_log (l_dir l) (l_config l) (l_active l) (l_active_id l) (l_next_offset l) (l_next_seq l) (l_flushed_offset l) (l_synced_offset l)
    (l_segments l) (l_loss l) (l_recovered_truncated_bytes l) (l_meters l) p.

(** The directory with the bytes the active writer has written. *)
Definition log_disk (l : Log) : Dir :=
  match l_active l with Some (ino, w) => put_file (l_dir l) ino (w_file w) | None => l_dir l end.

(** [self.active = None]: the file stays in the directory. *)
Definition drop_active (l : Log) : Log := with_active (with_dir l (log_disk l)) None.

(** A deferred roll can still be finished. *)
Definition is_writable (l : Log) : bool :=
  match l_active l, l_pending_roll l with None, None => false | _, _ => true end.

(** ** Meters *)

Definition MILLIS_PER_DAY : Z := 24 * 60 * 60 * 1000.

Definition roll_physical_day_if_needed (m : Meters) (now : Z) : Meters :=
  let day := now / MILLIS_PER_DAY in
  if negb (day =? m_physical_write_today_day m) then
    mk_meters (m_sealed_record_bytes m) (m_total_record_count m) (m_logical_bytes_written m) (m_physical_bytes_written m) 0 day
      (m_daily_budget_sheds m) (m_unsynced_record_bytes m)
  else m.

Definition charge_physical (m : Meters) (now bytes : Z) : Meters :=
  let m := roll_physical_day_if_needed m now in
  mk_meters (m_sealed_record_bytes m) (m_total_record_count m) (m_logical_bytes_written m)
    (sat_add64 (m_physical_bytes_written m) bytes) (sat_add64 (m_physical_bytes_written_today m) bytes)
    (m_physical_write_today_day m) (m_daily_budget_sheds m) (m_unsynced_record_bytes m).

Definition with_unsynced (m : Meters) (bytes : Z) : Meters :=
  mk_meters (m_sealed_record_bytes m) (m_total_record_count m) (m_logical_bytes_written m) (m_physical_bytes_written m)
    (m_physical_bytes_written_today m) (m_physical_write_today_day m) (m_daily_budget_sheds m) bytes.
Definition add_sealed (m : Meters) (bytes : Z) : Meters :=
  mk_meters (sat_add64 (m_sealed_record_bytes m) bytes) (m_total_record_count m) (m_logical_bytes_written m)
    (m_physical_bytes_written m) (m_physical_bytes_written_today m) (m_physical_write_today_day m) (m_daily_budget_sheds m)
    (m_unsynced_record_bytes m).
Definition count_shed (m : Meters) : Meters :=
  mk_meters (m_sealed_record_bytes m) (m_total_record_count m) (m_logical_bytes_written m) (m_physical_bytes_written m)
    (m_physical_bytes_written_today m) (m_physical_write_today_day m) (sat_add64 (m_daily_budget_sheds m) 1)
    (m_unsynced_record_bytes m).

(** The meters of an appended record of [logical] bytes. *)
Definition count_append (m : Meters) (logical : Z) : Meters :=
  mk_meters (m_sealed_record_bytes m) (m_total_record_count m) (sat_add64 (m_logical_bytes_written m) logical)
    (m_physical_bytes_written m) (m_physical_bytes_written_today m) (m_physical_write_today_day m) (m_daily_budget_sheds m)
    (sat_add64 (m_unsynced_record_bytes m) logical).
Definition count_total (m : Meters) : Meters :=
  mk_meters (m_sealed_record_bytes m) (sat_add64 (m_total_record_count m) 1) (m_logical_bytes_written m)
    (m_physical_bytes_written m) (m_physical_bytes_written_today m) (m_physical_write_today_day m) (m_daily_budget_sheds m)
    (m_unsynced_record_bytes m).

Definition record_bytes (w : SegmentWriter F) : Z := sat_sub (w_write_pos w) (Z.of_nat SEGMENT_HEADER_LEN).

Definition durable_record_bytes (l : Log) : Z :=
  sat_add64 (m_sealed_record_bytes (l_meters l)) (match l_active l with Some (_, w) => record_bytes w | None => 0 end).

(** ** Starting and sealing segments *)

Definition segment_header (id base_seq base_offset now : Z) : SegmentHeader := mk_header id base_seq base_offset now 0.

Definition install_started_segment (l : Log) (ev : Env) (ino : nat) (w : SegmentWriter F) (id base_offset : Z) : Log :=
  let l := with_meters l (charge_physical (l_meters l) (ev_unix_millis ev) (Z.of_nat SEGMENT_HEADER_LEN)) in
  with_segments (with_active l (Some (ino, w))) id (l_segments l ++ [mk_slot id base_offset 0 0]).

(** The file behind the handle after [SegmentWriter::create], which drops it
    when the header cannot be written. *)
Definition create_writer (file : F) (header : SegmentHeader) : F * res (SegmentWriter F) StorageError :=
  match writer_create file header with
  | Ok w => (w_file w, Ok w)
  | r => (fst (write_all_at file (header_encode header) 0), r)
  end.

Definition start_segment (l : Log) (ev : Env) (id base_seq base_offset : Z) : Log * res unit StorageError :=
  let header := segment_header id base_seq base_offset (ev_unix_millis ev) in
  match dir_create_new (l_dir l) id (ev_file ev) (ev_create_ok ev) with
  | (d, None) => (with_dir l d, Err StIo)
  | (d, Some ino) =>
      match create_writer (ev_file ev) header with
      | (file, Ok w) =>
          match writer_sync w with
          | (w, Ok _) =>
              match dir_sync (put_file d ino (w_file w)) (ev_sync_dir_ok ev) with
              | (d, true) => (install_started_segment (with_dir l d) ev ino w id base_offset, Ok tt)
              | (d, false) => (with_dir l d, Err StIo)
              end
          | (w, Err e) => (with_dir l (put_file d ino (w_file w)), Err e)
          | (w, Panic) => (with_dir l (put_file d ino (w_file w)), Panic)
          end
      | (file, Err e) => (with_dir l (put_file d ino file), Err e)
      | (file, Panic) => (with_dir l (put_file d ino file), Panic)
      end
  end.

Definition next_fresh_segment_id (l : Log) : res Z StorageError :=
  let highest := foldr (fun s m => Z.max (sl_id s) m) (l_active_id l) (l_segments l) in
  match checked_add64 highest 1 with Some id => Ok id | None => Err SegmentFull end.

Definition defer_roll (l : Log) (ev : Env) (id base_seq base_offset : Z) : Log :=
  with_pending (with_dir l (fst (dir_remove (l_dir l) id (ev_remove_ok ev)))) (Some (mk_pending_roll id base_seq base_offset)).

Definition create_or_defer_segment (l : Log) (ev : Env) (id base_seq base_offset : Z) : Log * res unit StorageError :=
  let l := with_dir l (fst (dir_remove (l_dir l) id (ev_remove_ok ev))) in
  let header := segment_header id base_seq base_offset (ev_unix_millis ev) in
  match dir_create_new (l_dir l) id (ev_file ev) (ev_create_ok ev) with
  | (d, None) => (defer_roll (with_dir l d) ev id base_seq base_offset, Err StIo)
  | (d, Some ino) =>
      match create_writer (ev_file ev) header with
      | (file, Err e) => (defer_roll (with_dir l (put_file d ino file)) ev id base_seq base_offset, Err e)
      | (file, Panic) => (with_dir l (put_file d ino file), Panic)
      | (file, Ok w) =>
          match writer_sync w with
          | (w, Ok _) =>
              match dir_sync (put_file d ino (w_file w)) (ev_sync_dir_ok ev) with
              | (d, true) => (with_pending (install_started_segment (with_dir l d) ev ino w id base_offset) None, Ok tt)
              | (d, false) => (with_pending (with_dir l d) None, Err WriterFrozen)
              end
          | (w, Err _) => (with_pending (with_dir l (put_file d ino (w_file w))) None, Err WriterFrozen)
          | (w, Panic) => (with_dir l (put_file d ino (w_file w)), Panic)
          end
      end
  end.

(** [if let Some(slot) = self.segments.last_mut()] *)
Definition close_last_slot (segments : list SegmentSlot) (record_count max_timestamp_ms : Z) : list SegmentSlot :=
  match last segments with
  | Some s => take (length segments - 1) segments ++ [mk_slot (sl_id s) (sl_base_offset s) record_count max_timestamp_ms]
  | None => segments
  end.

Definition roll (l : Log) (ev : Env) : Log * res unit StorageError :=
  match next_fresh_segment_id l with
  | Ok next_id =>
      match l_active l with
      | None => (l, Err WriterFrozen)
      | Some (ino, old) =>
          let old_record_bytes := record_bytes old in
          let l := with_segments (with_active l None) (l_active_id l)
                     (close_last_slot (l_segments l) (w_record_count old) (w_max_timestamp_ms old)) in
          match seal old with
          | (file, Ok _) =>
              let l := with_dir l (put_file (l_dir l) ino file) in
              let m := add_sealed (charge_physical (l_meters l) (ev_unix_millis ev) (Z.of_nat SEGMENT_FOOTER_LEN)) old_record_bytes in
              let l := with_meters (with_heads l (l_next_offset l) (l_next_seq l) (l_next_offset l) (l_next_offset l)) (with_unsynced m 0) in
              create_or_defer_segment l ev next_id (l_next_seq l) (l_next_offset l)
          | (file, Err _) => (with_dir l (put_file (l_dir l) ino file), Err WriterFrozen)
          | (file, Panic) => (with_dir l (put_file (l_dir l) ino file), Panic)
          end
      end
  | Err e => (l, Err e)
  | Panic => (l, Panic)
  end.

Definition ensure_writable (l : Log) (ev : Env) : Log * res unit StorageError :=
  match l_pending_roll l with
  | Some p => create_or_defer_segment l ev (pr_id p) (pr_base_seq p) (pr_base_offset p)
  | None => (l, Ok tt)
  end.

(** ** Appending *)

Definition view_of (record : Append) (seq : Z) : RecordView :=
  mk_record_view seq (ap_timestamp_ms record) (ap_flags record) (ap_key record) (ap_headers record) (ap_payload record).

Definition write_source (w : SegmentWriter F) (source : AppendSource) (seq : Z) : SegmentWriter F * res Z StorageError :=
  match source with
  | SrcEncode record precomputed subject stream_tag =>
      let view := view_of record seq in
      match stream_tag with
      | [] =>
          match precomputed, subject with
          | Some checksums, [] => append_precomputed w view checksums
          | None, [] => append w view
          | Some checksums, _ => append_precomputed_with_subject w view subject checksums
          | None, _ => append_with_subject w view subject
          end
      | _ =>
          match precomputed with
          | Some checksums => append_precomputed_with_stream_tag w view stream_tag checksums
          | None => append_with_stream_tag w view stream_tag
          end
      end
  | SrcVerbatim frame view => append_verbatim w frame seq (v_timestamp_ms view)
  end.

Definition source_len (source : AppendSource) : Z :=
  match source with
  | SrcEncode r _ _ _ => Z.of_nat (length (ap_key r) + length (ap_headers r) + length (ap_payload r))
  | SrcVerbatim _ v => Z.of_nat (length (v_key v) + length (v_headers v) + length (v_payload v))
  end.

(** [checked_next] *)
Definition checked_next (z : Z) : option Z := checked_add64 z 1.

(** The write itself, once the log has an active segment with room. *)
Definition append_active (l : Log) (ev : Env) (source : AppendSource) : Log * res Z StorageError :=
  let seq := l_next_seq l in
  match checked_next seq, checked_next (l_next_offset l), l_active l with
  | Some next_seq, Some next_offset, Some (ino, w) =>
      match write_source w source seq with
      | (w', Ok offset) =>
          let frame_len := sat_sub (w_write_pos w') (w_write_pos w) in
          let m := count_total (charge_physical (count_append (l_meters l) (source_len source)) (ev_unix_millis ev) frame_len) in
          (with_meters (with_heads (with_active l (Some (ino, w'))) next_offset next_seq (l_flushed_offset l) (l_synced_offset l)) m,
           Ok offset)
      | (w', Err e) => (with_active l (Some (ino, w')), Err e)
      | (w', Panic) => (with_active l (Some (ino, w')), Panic)
      end
  | Some _, Some _, None => (l, Err WriterFrozen)
  | _, _, _ => (l, Err SegmentFull)
  end.

Definition append_inner (l : Log) (ev : Env) (source : AppendSource) (allow_roll : bool) : Log * res Z StorageError :=
  let cap := max_total_bytes (l_config l) in
  let total := durable_record_bytes l in
  if negb (cap =? 0) && (cap <=? total) && (0 <? total) then (l, Err (AtCapacity total cap))
  else
    let budget := daily_physical_write_budget_bytes (l_config l) in
    let l := if negb (budget =? 0) then with_meters l (roll_physical_day_if_needed (l_meters l) (ev_unix_millis ev)) else l in
    let today := m_physical_bytes_written_today (l_meters l) in
    if negb (budget =? 0) && (budget <=? today) && (0 <? today)
    then (with_meters l (count_shed (l_meters l)), Err (DailyWriteBudgetExceeded today budget))
    else
      match ensure_writable l ev with
      | (l, Ok _) =>
          match l_active l with
          | None => (l, Err WriterFrozen)
          | Some (_, w) =>
              if allow_roll && (max_segment_bytes (l_config l) <=? w_write_pos w) && (0 <? w_record_count w) then
                match roll l ev with
                | (l, Ok _) => append_active l ev source
                | (l, Err e) => (l, Err e)
                | (l, Panic) => (l, Panic)
                end
              else append_active l ev source
          end
      | (l, Err e) => (l, Err e)
      | (l, Panic) => (l, Panic)
      end.

Definition append_frame_verbatim (l : Log) (ev : Env) (frame : list Z) (view : RecordView) := append_inner l ev (SrcVerbatim frame view) true.
Definition append_without_roll (l : Log) (ev : Env) (record : Append) := append_inner l ev (SrcEncode record None [] []) false.

Definition seal_active_segment (l : Log) (ev : Env) : Log * res unit StorageError :=
  match ensure_writable l ev with
  | (l, Ok _) =>
      match l_active l with
      | None => (l, Err WriterFrozen)
      | Some (_, w) => if w_record_count w =? 0 then (l, Ok tt) else roll l ev
      end
  | r => r
  end.

(** ** Syncing *)

(** Both heads at the end, and nothing at risk. *)
Definition all_synced (l : Log) : Log :=
  with_meters (with_heads l (l_next_offset l) (l_next_seq l) (l_next_offset l) (l_next_offset l)) (with_unsynced (l_meters l) 0).

Definition log_sync (l : Log) (ev : Env) : Log * res unit StorageError :=
  match ensure_writable l ev with
  | (l, Ok _) =>
      match l_active l with
      | None => (l, Err WriterFrozen)
      | Some (ino, w) =>
          match writer_sync w with
          | (w, Ok _) => (all_synced (with_active l (Some (ino, w))), Ok tt)
          | (w, Err _) => (drop_active (with_active l (Some (ino, w))), Err WriterFrozen)
          | (w, Panic) => (with_active l (Some (ino, w)), Panic)
          end
      end
  | r => r
  end.

Definition flush_no_sync (l : Log) (ev : Env) : Log * res unit StorageError :=
  match ensure_writable l ev with
  | (l, Ok _) =>
      match l_active l with
      | None => (l, Err WriterFrozen)
      | Some (ino, w) =>
          match flush_pending w with
          | (w, Ok _) =>
              (with_heads (with_active l (Some (ino, w))) (l_next_offset l) (l_next_seq l) (l_next_offset l) (l_synced_offset l), Ok tt)
          | (w, Err _) => (drop_active (with_active l (Some (ino, w))), Err WriterFrozen)
          | (w, Panic) => (with_active l (Some (ino, w)), Panic)
          end
      end
  | r => r
  end.

Definition has_unsynced_records (l : Log) : bool := is_writable l && negb (l_synced_offset l =? l_next_offset l).

(** The ticket of a staged barrier; the handle is the active file. *)
Definition prepare_async_sync (l : Log) (ev : Env) : Log * res (option SyncTicket) StorageError :=
  match ensure_writable l ev with
  | (l, Ok _) =>
      match l_active l with
      | None => (l, Err WriterFrozen)
      | Some (ino, w) =>
          if negb (has_unsynced_records l) then (l, Ok None)
          else
            match flush_pending w with
            | (w, Ok _) =>
                (with_active l (Some (ino, w)),
                 Ok (Some (mk_ticket (l_next_offset l) (l_active_id l) (m_unsynced_record_bytes (l_meters l)))))
            | (w, Err _) => (with_pending (drop_active (with_active l (Some (ino, w)))) None, Err WriterFrozen)
            | (w, Panic) => (with_active l (Some (ino, w)), Panic)
            end
      end
  | (l, Err e) => (l, Err e)
  | (l, Panic) => (l, Panic)
  end.

Definition complete_async_sync (l : Log) (t : SyncTicket) : Log :=
  if negb (is_writable l) || (tk_target t <=? l_synced_offset l) then l
  else
    let l := with_heads l (l_next_offset l) (l_next_seq l) (Z.max (l_flushed_offset l) (tk_target t)) (tk_target t) in
    with_meters l (with_unsynced (l_meters l) (sat_sub (m_unsynced_record_bytes (l_meters l)) (tk_covered_bytes t))).

Definition freeze_after_external_sync_failure (l : Log) : Log := with_pending (drop_active l) None.

(** The barrier another thread issues on the file of a ticket. *)
Definition external_sync (l : Log) (t : SyncTicket) : Log * bool :=
  match l_active l with
  | Some (ino, w) =>
      if l_active_id l =? tk_segment_id t then
        match sync_data_only w with
        | (w, Ok _) => (with_active l (Some (ino, w)), true)
        | (w, _) => (with_active l (Some (ino, w)), false)
        end
      else (l, true)
  | None => (l, true)
  end.

(** ** Opening *)

Record RecoveredChain := mk_chain {
  rc_slots : list SegmentSlot;
  rc_next_base_offset : Z;
  rc_next_base_seq : Z;
  rc_durable_bytes : Z;
  rc_total_record_count : Z;
  rc_highest : RecoveryScan
}.

Definition scan_segment (d : Dir) (id : Z) : res RecoveryScan StorageError :=
  match dir_open d id with
  | Some (_, f) => let? reader := reader_open (f_live f) in scan_recovery reader
  | None => Err StIo
  end.

(** The loop over the ids; [first] in the first round. *)
Fixpoint recover_loop (d : Dir) (ids : list Z) (first : bool) (acc : RecoveredChain) : res RecoveredChain StorageError :=
  match ids with
  | [] => Ok acc
  | id :: rest =>
      let? scan := scan_segment d id in
      let header := rs_header scan in
      fail? negb (sh_segment_id header =? id) with SegmentIdMismatch id (sh_segment_id header) in
      let base_offset := sh_base_offset header in
      let base_seq := sh_base_seq header in
      let slots := rc_slots acc ++ [mk_slot id base_offset (rs_record_count scan) (rs_max_timestamp_ms scan)] in
      fail? negb first && (negb (base_offset =? rc_next_base_offset acc) || negb (base_seq =? rc_next_base_seq acc))
        with SegmentChainBroken id (rc_next_base_offset acc) base_offset (rc_next_base_seq acc) base_seq in
      fail? match rest, rs_footer scan with _ :: _, None => true | _, _ => false end with UnsealedPredecessor id in
      match checked_add64 base_offset (rs_record_count scan), checked_add64 base_seq (rs_record_count scan) with
      | Some next_offset, Some next_seq =>
          recover_loop d rest false
            (mk_chain slots next_offset next_seq
               (sat_add64 (rc_durable_bytes acc) (sat_sub (Z.of_nat (rs_valid_end scan)) (Z.of_nat SEGMENT_HEADER_LEN)))
               (sat_add64 (rc_total_record_count acc) (rs_record_count scan)) scan)
      | _, _ => Err SegmentFull
      end
  end.

(** The last scan of the loop is the highest; no id, no scan. *)
Definition scan_recover_chain (d : Dir) (ids : list Z) : res RecoveredChain StorageError :=
  match ids with
  | [] => Err WriterFrozen
  | _ => recover_loop d ids true (mk_chain [] 0 0 0 0 (mk_recovery (segment_header 0 0 0 0) None 0 0 0 true None 0))
  end.

(** [last_nonzero_end]: backwards in chunks of 4096 bytes. *)
Fixpoint last_nonzero_loop (fuel : nat) (file : list Z) (start hi : nat) : nat :=
  if (hi <=? start)%nat then start
  else
    match fuel with
    | O => start
    | S fuel =>
        let lo := max (hi - 4096) start in
        let chunk := take (hi - lo) (drop lo file) in
        match list_find (fun b => b <> 0) (rev chunk) with
        | Some (i, _) => (lo + (length chunk - i))%nat
        | None => last_nonzero_loop fuel file start lo
        end
    end.
Definition last_nonzero_end (file : list Z) (start fin : nat) : nat := last_nonzero_loop fin file start fin.

Definition enforce_loss_caps (config : LogConfig) (loss : list LossEvent) (durable_bytes : Z) : res unit StorageError :=
  let per_event_cap := Z.min (max_segment_bytes config) PER_EVENT_BYTE_CAP in
  let global_cap := Z.max (global_loss_cap_bytes durable_bytes) per_event_cap in
  map_err ExcessiveRecoveryLoss (check_caps loss per_event_cap global_cap).

Definition segment_body_is_all_zero (file : list Z) : bool := forallb (Z.eqb 0) (drop SEGMENT_HEADER_LEN file).

(** The directory, the remaining ids, and the id that was removed. *)
Definition reap_bad_trailing_segment (d : Dir) (ev : Env) (ids : list Z) : Dir * res (list Z * option Z) StorageError :=
  match last ids with
  | None => (d, Ok (ids, None))
  | Some id =>
      if (length ids <? 2)%nat then (d, Ok (ids, None))
      else
        match dir_open d id with
        | None => (d, Err StIo)
        | Some (_, f) =>
            match reader_open (f_live f) with
            | Ok _ => (d, Ok (ids, None))
            | Err (StSegment _) =>
                if negb (segment_body_is_all_zero (f_live f)) then (d, Ok (ids, None))
                else
                  match dir_remove d id (ev_remove_ok ev) with
                  | (d, true) => (d, Ok (take (length ids - 1) ids, Some id))
                  | (d, false) => (d, Err StIo)
                  end
            | Err e => (d, Err e)
            | Panic => (d, Panic)
            end
        end
  end.

(** Reconciling the tail of the unsealed last segment: the file cut at the end
    of its valid prefix, and the loss. *)
Definition cut_tail (config : LogConfig) (f : F) (id durable_bytes : Z) (scan : RecoveryScan) : F * res (list LossEvent * Z) StorageError :=
  let len := length (f_live f) in
  let valid_end := rs_valid_end scan in
  if (valid_end <? len)%nat then
    let reported_end := last_nonzero_end (f_live f) valid_end len in
    let lost := Z.of_nat (reported_end - valid_end) in
    let loss :=
      if (valid_end <? reported_end)%nat
      then [loss_span id (Z.of_nat valid_end) (Z.of_nat reported_end) 1 (default TornTail (rs_tail_reason scan))] else [] in
    match (if (valid_end <? reported_end)%nat then enforce_loss_caps config loss durable_bytes else Ok tt) with
    | Ok _ =>
        match set_len f valid_end with
        | (f, true) => match sync_all f with (f, true) => (f, Ok (loss, lost)) | (f, false) => (f, Err StIo) end
        | (f, false) => (f, Err StIo)
        end
    | Err e => (f, Err e)
    | Panic => (f, Panic)
    end
  else (f, Ok ([], 0)).

Definition recovered_log (d : Dir) (config : LogConfig) (last_id : Z) (chain : RecoveredChain) (highest_record_bytes : Z) : Log :=
  mk_log d config None last_id (rc_next_base_offset chain) (rc_next_base_seq chain) (rc_next_base_offset chain)
    (rc_next_base_offset chain) (rc_slots chain) [] 0
    (mk_meters (sat_sub (rc_durable_bytes chain) highest_record_bytes) (rc_total_record_count chain) 0 0 0 0 0 0) None.

(** The directory as the attempt leaves it, and the log when it opens. *)
Definition recover (d : Dir) (config : LogConfig) (ev : Env) (ids : list Z) (last_id : Z) : Dir * res Log StorageError :=
  match scan_recover_chain d ids with
  | Err e => (d, Err e)
  | Panic => (d, Panic)
  | Ok chain =>
      let scan := rc_highest chain in
      let highest_record_bytes := sat_sub (Z.of_nat (rs_valid_end scan)) (Z.of_nat SEGMENT_HEADER_LEN) in
      let l := recovered_log d config last_id chain highest_record_bytes in
      match rs_footer scan with
      | Some _ =>
          match checked_add64 last_id 1 with
          | None => (d, Err SegmentFull)
          | Some next_id =>
              match start_segment (with_meters l (add_sealed (l_meters l) highest_record_bytes)) ev next_id (l_next_seq l) (l_next_offset l) with
              | (l, Ok _) => (log_disk l, let? _ := enforce_loss_caps config (l_loss l) (rc_durable_bytes chain) in Ok l)
              | (l, Err e) => (log_disk l, Err e)
              | (l, Panic) => (log_disk l, Panic)
              end
          end
      | None =>
          match dir_open d last_id with
          | None => (d, Err StIo)
          | Some (ino, f) =>
              match cut_tail config f last_id (rc_durable_bytes chain) scan with
              | (f, Ok (loss, lost)) =>
                  let l := with_loss (with_dir l (put_file d ino f)) loss lost in
                  if u32_max <? rs_record_count scan then (l_dir l, Err SegmentFull)
                  else
                    let w := writer_resume f (rs_header scan) (Z.of_nat (rs_valid_end scan)) (rs_record_count scan) (rs_last_seq scan)
                               (rs_max_timestamp_ms scan) in
                    (l_dir l, let? _ := enforce_loss_caps config loss (rc_durable_bytes chain) in Ok (with_active l (Some (ino, w))))
              | (f, Err e) => (put_file d ino f, Err e)
              | (f, Panic) => (put_file d ino f, Panic)
              end
          end
      end
  end.

Definition log_open (d : Dir) (config : LogConfig) (ev : Env) : Dir * res Log StorageError :=
  match reap_bad_trailing_segment d ev (dir_segment_ids d) with
  | (d, Err e) => (d, Err e)
  | (d, Panic) => (d, Panic)
  | (d, Ok (ids, reaped)) =>
      let report l :=
        match reaped with Some id => with_loss l (l_loss l ++ [loss_span id 0 0 0 CorruptSegmentHeader]) (l_recovered_truncated_bytes l) | None => l end in
      match last ids with
      | None =>
          let l := mk_log d config None FIRST_SEGMENT_ID 0 0 0 0 [] [] 0 meters_zero None in
          match start_segment l ev FIRST_SEGMENT_ID 0 0 with
          | (l, Ok _) => (log_disk l, Ok (report l))
          | (l, Err e) => (log_disk l, Err e)
          | (l, Panic) => (log_disk l, Panic)
          end
      | Some last_id => match recover d config ev ids last_id with (d, r) => (d, let? l := r in Ok (report l)) end
      end
  end.
End log.

Arguments Dir : clear implicits.
Arguments Env : clear implicits.
Arguments Log : clear implicits.
