(* ===== verification/LogRecovery.v ===== *)
(** * Opening a log after a power loss

    The disk a log runs on, the files a power loss leaves of its segments, what
    the recovery scan finds in them, and that opening the directory resumes the
    log at a prefix of what was appended. *)

From S2P Require Import Prelude Bytes Records Codec Disk SegmentFormat SegmentScan SegmentWriter Log.

Section scans.
Context `{Crc32c} `{Xxh3} `{!Streaming}.

(** ** Scanning the tail of a segment

    A segment whose last bytes were lost: the frames of [E], then a footer, cut
    after [k] bytes. *)

Definition tail_body (E : list Entry) (ft : SegmentFooter) (k : nat) : list Z := take k (frames E ++ footer_encode ft).

Lemma fit_all k E : (length (frames E) <= k)%nat -> fit k E = length E.
Proof.
  revert k. induction E as [|e E IH]; intros k Hk; [done|]. rewrite frames_cons, length_app, length_entry_frame in Hk. cbn [fit length].
  rewrite (proj2 (Nat.leb_le _ _)) by lia. by rewrite IH by lia.
Qed.

Lemma short_decode l : (length l < 36)%nat -> decode_inner l = Err Truncated.
Proof. intros Hl. unfold decode_inner, validate_header. by rewrite bool_decide_eq_true_2 by (unfold RECORD_HEADER_LEN; lia). Qed.

(** Blocks written field by field. *)
Ltac field_bytes :=
  repeat (apply Forall_app; split);
  first [apply le_bytes_ok | apply (bool_decide_unpack _); vm_compute; exact I].

Lemma footer_encode_bytes ft : bytes_ok (footer_encode ft).
Proof. unfold footer_encode, encode_with_version, footer_prefix, bytes_ok. field_bytes. Qed.

Lemma header_encode_bytes h : bytes_ok (header_encode h).
Proof.
  unfold header_encode, header_encode_inner, seg_header_prefix, bytes_ok. destruct (is_compacted h); field_bytes.
Qed.

Lemma tail_body_le E ft k : (k <= length (frames E))%nat -> tail_body E ft k = take k (frames E).
Proof. intros Hk. unfold tail_body. by rewrite take_app_le. Qed.

Lemma tail_body_gt E ft k :
  (length (frames E) <= k)%nat -> tail_body E ft k = frames E ++ take (k - length (frames E)) (footer_encode ft).
Proof. intros Hk. unfold tail_body. by rewrite take_app_ge. Qed.

Lemma length_tail_body E ft k : (k <= length (frames E) + 32)%nat -> length (tail_body E ft k) = k.
Proof. intros Hk. unfold tail_body. rewrite length_take, length_app, length_footer_encode. unfold SEGMENT_FOOTER_LEN. lia. Qed.

Lemma take_tail_body E ft k q : (q <= k)%nat -> take q (tail_body E ft k) = tail_body E ft q.
Proof. intros Hq. unfold tail_body. by rewrite take_take, Nat.min_l. Qed.

Lemma tail_body_bytes E ft k : Forall entry_ok E -> bytes_ok (tail_body E ft k).
Proof.
  intros Hok. apply Forall_take, Forall_app. split; [by apply frames_bytes_ok|apply footer_encode_bytes].
Qed.

Lemma scan_bytes_tail base E ft k :
  Forall entry_ok E ->
  let whole := take (fit k E) E in
  (k <= length (frames E) + 32)%nat ->
  exists clean, scan_bytes base 0 (tail_body E ft k) = Ok (owned base 0 whole, length (frames whole), clean) /\
    (clean = true -> length (frames whole) = k).
Proof.
  intros Hok whole Hk. assert (Hb : bytes_ok (frames E)) by (by apply frames_bytes_ok).
  destruct (decide (k <= length (frames E))%nat) as [Hle|Hgt].
  - rewrite tail_body_le by done. rewrite scan_bytes_cut by done. eexists. split; [done|].
    intros Hc%bool_decide_eq_true. apply (f_equal length) in Hc. rewrite length_take in Hc. unfold whole. lia.
  - rewrite tail_body_gt by lia. unfold whole. rewrite fit_all by lia. rewrite (take_ge E) by lia.
    set (j := take (k - length (frames E)) (footer_encode ft)).
    assert (Hj : (0 < length j <= 32)%nat) by (unfold j; rewrite length_take, length_footer_encode; unfold SEGMENT_FOOTER_LEN; lia).
    assert (Hbj : bytes_ok j) by (apply Forall_take, footer_encode_bytes).
    rewrite scan_bytes_frames; [|done|by apply Forall_app].
    rewrite (scan_bytes_bad base _ j Truncated); [|by destruct j; [cbn in Hj; lia|]|apply short_decode; lia].
    cbn [res_bind]. rewrite app_nil_r, Nat.add_0_r. exists false. done.
Qed.

(** No frame boundary lies within a footer's length of the end. *)
Lemma frames_boundary E n :
  length (frames (take n E)) = length (frames E) \/ (length (frames (take n E)) + 44 <= length (frames E))%nat.
Proof.
  rewrite <- (take_drop n E) at 2 4. rewrite frames_app, length_app. destruct (drop n E) as [|e rest]; [left; cbn; lia|right].
  rewrite frames_cons, length_app, length_entry_frame. pose proof (entry_len_pos e). lia.
Qed.

Context (h : SegmentHeader) (Hh : header_ok h).
Let reader (body : list Z) : SegmentReader := mk_reader (header_encode h ++ body) h (SEGMENT_HEADER_LEN + length body).

Lemma scan_tail E ft k :
  Forall entry_ok E -> (k < length (frames E) + 32)%nat ->
  let whole := take (fit k E) E in
  exists clean, scan (reader (tail_body E ft k)) =
    Ok (mk_scan h (owned (sh_base_offset h) 0 whole) None clean (SEGMENT_HEADER_LEN + length (frames whole))).
Proof.
  intros Hok Hk whole. destruct (decide (k <= length (frames E))%nat) as [Hle|Hgt].
  { rewrite tail_body_le by done. eexists. by apply scan_image_cut. }
  destruct (scan_bytes_tail (sh_base_offset h) E ft k Hok) as (clean & Hs & _); [lia|].
  exists clean. unfold reader. rewrite scan_unsealed; [by rewrite Hs| |by apply tail_body_bytes].
  intros f records cursor Hl _. rewrite length_tail_body in * by lia. rewrite take_tail_body by (unfold SEGMENT_FOOTER_LEN; lia).
  destruct (scan_bytes_tail (sh_base_offset h) E ft (k - SEGMENT_FOOTER_LEN) Hok) as (cl & Hs' & Hcl);
    [unfold SEGMENT_FOOTER_LEN; lia|].
  left. rewrite Hs'. intros [= _ _ ->]. specialize (Hcl eq_refl).
  pose proof (frames_boundary E (fit (k - SEGMENT_FOOTER_LEN) E)). unfold SEGMENT_FOOTER_LEN in *. lia.
Qed.

(** *** The recovery scan of a segment with dense sequences *)

Definition dense_entries (base : Z) (E : list Entry) : Prop := forall i e, E !! i = Some e -> entry_seq e = base + Z.of_nat i.

Lemma dense_take base E n : dense_entries base E -> dense_entries base (take n E).
Proof. intros Hd i e Hi. apply lookup_take_Some in Hi as [Hi _]. by apply Hd. Qed.

Lemma dense_app base E E' :
  dense_entries base (E ++ E') <-> dense_entries base E /\ dense_entries (base + Z.of_nat (length E)) E'.
Proof.
  split.
  - intros Hd. split; intros i e Hi; [apply Hd; by apply lookup_app_l_Some|].
    specialize (Hd (length E + i)%nat e). rewrite lookup_app_r in Hd by lia.
    replace (length E + i - length E)%nat with i in Hd by lia. rewrite (Hd Hi). lia.
  - intros [Hd Hd'] i e Hi. apply lookup_app_Some in Hi as [Hi|[Hl Hi]]; [by apply Hd|]. rewrite (Hd' _ _ Hi). lia.
Qed.

(** The footer a seal writes. *)
Definition seal_footer (E : list Entry) : SegmentFooter :=
  mk_footer (sh_segment_id h) (last_seq_of (sh_base_seq h) E) (Z.of_nat (length E)).

Lemma scan_tail_sealed E :
  Forall entry_ok E -> Z.of_nat (length E) <= u32_max ->
  scan (reader (tail_body E (seal_footer E) (length (frames E) + 32))) =
  Ok (mk_scan h (owned (sh_base_offset h) 0 E) (Some (seal_footer E)) true (SEGMENT_HEADER_LEN + length (frames E))).
Proof.
  intros Hok Hc. unfold tail_body. rewrite take_ge by (rewrite length_app, length_footer_encode; unfold SEGMENT_FOOTER_LEN; lia).
  unfold reader, seal_footer. rewrite scan_image_sealed; [by rewrite Z.eqb_refl|done|done|apply Hh|by apply last_seq_u64].
Qed.

(** What the scan finds in the cut tail: a seal when nothing is missing. *)
Definition tail_seal (E : list Entry) (k : nat) : option SegmentFooter :=
  if decide (k = length (frames E) + 32)%nat then Some (seal_footer E) else None.

Lemma scan_tail_all E k :
  Forall entry_ok E -> Z.of_nat (length E) <= u32_max -> (k <= length (frames E) + 32)%nat ->
  let whole := take (fit k E) E in
  exists clean, scan (reader (tail_body E (seal_footer E) k)) =
    Ok (mk_scan h (owned (sh_base_offset h) 0 whole) (tail_seal E k) clean (SEGMENT_HEADER_LEN + length (frames whole))).
Proof.
  intros Hok Hc Hk whole. unfold tail_seal, whole. case_decide as Hd.
  - subst k. rewrite fit_all by lia. rewrite (take_ge E) by lia. exists true. by apply scan_tail_sealed.
  - apply scan_tail; [done|lia].
Qed.

Lemma recovery_tail E k :
  is_encrypted h = false -> Forall entry_ok E -> Z.of_nat (length E) <= u32_max -> (k <= length (frames E) + 32)%nat ->
  dense_entries (sh_base_seq h) E -> sh_base_seq h + Z.of_nat (length E) <= u64_max ->
  let whole := take (fit k E) E in
  exists clean reason, scan_recovery (reader (tail_body E (seal_footer E) k)) =
    Ok (mk_recovery h (tail_seal E k) (Z.of_nat (length whole)) (max_time 0 whole) (last_seq_of (sh_base_seq h) whole)
          clean reason (SEGMENT_HEADER_LEN + length (frames whole))).
Proof.
  intros Hpl Hok Hc Hk Hd Hmax whole. set (body := tail_body E (seal_footer E) k).
  assert (Hlen : length body = k) by (by apply length_tail_body).
  assert (Hbytes : bytes_ok (header_encode h ++ body)).
  { apply Forall_app. split; [apply header_encode_bytes|by apply tail_body_bytes]. }
  pose proof (scan_recovery_agrees (reader body) Hpl Hbytes) as Hag. unfold reader in Hag. cbn [r_file_len r_file r_header] in Hag.
  rewrite length_app, length_header_encode in Hag. specialize (Hag ltac:(lia)). fold (reader body) in Hag.
  assert (Hreg : forall fin rs cur cl, scan_body (reader body) SEGMENT_HEADER_LEN fin = Ok (rs, cur, cl) ->
    exists n, rs = owned (sh_base_offset h) 0 (take n E)).
  { intros fin rs cur cl Hsb. unfold scan_body, reader, read_file in Hsb. cbn [r_file r_header] in Hsb.
    destruct (slice _ _ _) as [b|] eqn:Hsl; [|done]. cbn [res_bind] in Hsb. apply slice_inv in Hsl as [Hr ->].
    rewrite length_app, length_header_encode in Hr. rewrite drop_app_length' in Hsb by (by rewrite length_header_encode).
    unfold body in Hsb. rewrite take_tail_body in Hsb by lia.
    destruct (scan_bytes_tail (sh_base_offset h) E (seal_footer E) (SEGMENT_HEADER_LEN + (fin - SEGMENT_HEADER_LEN) - SEGMENT_HEADER_LEN) Hok)
      as (cl' & Hs & _); [lia|]. unfold scan_bytes in Hs. rewrite Hs in Hsb. injection Hsb as <- _ _. eauto. }
  destruct (scan_tail_all E k Hok Hc Hk) as (clean & Hscan). fold body whole in Hscan.
  destruct (scan_recovery (reader body)) as [s|e|]; cbn [scans_agree] in Hag.
  - destruct Hag as (sc & Hsc & _ & H1' & H2' & H3' & H4' & H5' & H6' & _ & H7'). rewrite Hscan in Hsc. injection Hsc as <-.
    cbn [sc_header sc_footer sc_records sc_clean sc_valid_end] in *. rewrite length_owned in H3'. exists clean, (rs_tail_reason s).
    rewrite owned_last_seq in H4'. unfold records_max_time in H5'. rewrite owned_max_time in H5'.
    destruct s as [s1 s2 s3 s4 s5 s6 s7 s8]; cbn [rs_header rs_footer rs_record_count rs_max_timestamp_ms rs_last_seq rs_clean rs_tail_reason rs_valid_end] in *.
    by rewrite H1', H2', H3', H4', H5', H6', H7'.
  - exfalso. rewrite Hscan in Hag. destruct e; try done; destruct Hag as (fin & rs & cur & cl & Hsb & Hag); try done;
      destruct (Hreg _ _ _ _ Hsb) as [n ->].
    + rewrite length_owned, length_take in Hag. cbn [r_header reader] in Hag. lia.
    + destruct Hag as (-> & Hne & rec & Hrec & Hseq). apply owned_at in Hrec as (e & He & Hse).
      apply lookup_take_Some in He as [He _]. apply Hne. rewrite <- Hseq, Hse. by apply Hd.
  - done.
Qed.
End scans.

(** ** The disk

    A file whose failing calls change nothing, and which a power loss cuts back
    to its durable bytes, or to some of the bytes after them. *)

Class CrashDisk (F : Type) `{RandomAccessFile F} := {
  q_ok : F -> Prop;
  q_healthy : F -> Prop;
  lose : F -> option Z -> F;
  q_sound f : q_ok f -> f_sound f;
  q_write f buf off f' ok :
    q_ok f -> write_all_at f buf off = (f', ok) ->
    q_ok f' /\ f_live f' = (if ok then splice (f_live f) off buf else f_live f) /\ f_durable f' = f_durable f;
  q_sync_data f f' ok :
    q_ok f -> sync_data f = (f', ok) ->
    q_ok f' /\ f_live f' = f_live f /\
    f_durable f' = if ok then f_live f ++ drop (length (f_live f)) (f_durable f) else f_durable f;
  q_sync_all f f' ok :
    q_ok f -> sync_all f = (f', ok) ->
    q_ok f' /\ f_live f' = f_live f /\ f_durable f' = if ok then f_live f else f_durable f;
  q_set_len f n f' ok :
    q_ok f -> set_len f n = (f', ok) ->
    q_ok f' /\ f_live f' = (if ok then resize n 0 (f_live f) else f_live f) /\ f_durable f' = f_durable f;
  healthy_write f buf off :
    q_healthy f -> Z.of_nat (off + length buf) <= u64_max -> exists f', write_all_at f buf off = (f', true) /\ q_healthy f';
  healthy_sync_data f : q_healthy f -> exists f', sync_data f = (f', true) /\ q_healthy f';
  healthy_sync_all f : q_healthy f -> exists f', sync_all f = (f', true) /\ q_healthy f';
  healthy_set_len f n : q_healthy f -> exists f', set_len f n = (f', true) /\ q_healthy f';
  lose_ok f loss : q_ok f -> q_ok (lose f loss) /\ q_healthy (lose f loss) /\ f_durable (lose f loss) = f_live (lose f loss);
  lose_image f loss :
    q_ok f -> f_durable f `prefix_of` f_live f ->
    exists k, (length (f_durable f) <= k <= length (f_live f))%nat /\ f_live (lose f loss) = take k (f_live f)
}.

(** The fault-injecting file over the simulated one, with no write torn and no
    bit flipped. *)
Definition quiet (f : FaultFile FileState) : Prop := f_sound f /\ ff_torn_write f = None.
Definition lose_file (s : FileState) (loss : option Z) : FileState :=
  match loss with None => simulate_power_loss s | Some seed => fst (simulate_power_loss_reorder s seed) end.

Lemma lose_settled s loss : dirty_sound (lose_file s loss) /\ fs_durable (lose_file s loss) = fs_live (lose_file s loss).
Proof.
  destruct loss as [seed|]; cbn; [|done]. unfold simulate_power_loss_reorder. case_decide; cbn; done.
Qed.

#[export] Program Instance crash_disk : CrashDisk (FaultFile FileState) := {|
  q_ok := quiet;
  q_healthy f := ff_fail_sync f = false /\ ff_fail_write f = false /\ ff_torn_write f = None /\ ff_checksum_flip f = None;
  lose f loss := mk_fault (lose_file (ff_inner f) loss) false false false None None 0
|}.
Next Obligation. by intros f [Hs _]. Qed.
Next Obligation.
  intros [s fs fw fr tw fl sr] buf off f' ok [[Hs Hfl] Ht]. cbn in Hs, Hfl, Ht. subst tw fl. cbn.
  unfold fault_write_all_at. cbn. destruct fw; [intros [= <- <-]; done|].
  destruct (mem_write_all_at s buf off) as [s' b] eqn:Hw. intros [= <- <-]. pose proof (mem_write_sound _ _ _ _ _ Hs Hw).
  unfold mem_write_all_at in Hw. case_match; injection Hw as <- <-; done.
Qed.
Next Obligation.
  intros [s fs fw fr tw fl sr] f' ok [[Hs Hfl] Ht]. cbn in Hs, Hfl, Ht. subst tw fl. cbn. unfold fault_sync. cbn.
  destruct fs; intros [= <- <-]; [done|]. cbn. split_and!; [|done|by apply mem_sync_data_image].
  split; [|done]. split; [|done]. cbn. destruct (@sync_data_ok _ mem_file s (mem_sync_data s) Hs eq_refl) as [Hs' _]. exact Hs'.
Qed.
Next Obligation.
  intros [s fs fw fr tw fl sr] f' ok [[Hs Hfl] Ht]. cbn in Hs, Hfl, Ht. subst tw fl. cbn. unfold fault_sync. cbn.
  destruct fs; intros [= <- <-]; done.
Qed.
Next Obligation.
  intros [s fs fw fr tw fl sr] n f' ok [[Hs Hfl] Ht]. cbn in Hs, Hfl, Ht. subst tw fl. cbn. unfold fault_set_len. cbn.
  intros [= <- <-]. split_and!; [|done|done]. split; [|done]. split; [|done]. by apply mem_set_len_sound.
Qed.
Next Obligation.
  intros [s fs fw fr tw fl sr] buf off (Hs & Hw & Ht & Hf) Hb. cbn in *. subst. unfold fault_write_all_at. cbn.
  unfold mem_write_all_at. rewrite (proj2 (Z.ltb_ge _ _)) by lia. by eexists.
Qed.
Next Obligation. intros [s fs fw fr tw fl sr] (Hs & Hw & Ht & Hf). cbn in *. subst. unfold fault_sync. cbn. by eexists. Qed.
Next Obligation. intros [s fs fw fr tw fl sr] (Hs & Hw & Ht & Hf). cbn in *. subst. unfold fault_sync. cbn. by eexists. Qed.
Next Obligation. intros [s fs fw fr tw fl sr] n (Hs & Hw & Ht & Hf). cbn in *. subst. unfold fault_set_len. cbn. by eexists. Qed.
Next Obligation. intros f loss _. destruct (lose_settled (ff_inner f) loss) as [Hd He]. cbn. done. Qed.
Next Obligation.
  intros f loss [[Hs _] _] Hp. cbn in *. destruct loss as [seed|].
  - destruct (loss_image (ff_inner f) (OpPowerLossReorder seed) Hp) as (k & Hk & He); [eauto|]. exists k. done.
  - destruct (loss_image (ff_inner f) OpPowerLoss Hp) as (k & Hk & He); [eauto|]. exists k. done.
Qed.

(** ** The directory of a log *)

Definition seg_header (i b : nat) (created : Z) : SegmentHeader :=
  segment_header (Z.of_nat i) (Z.of_nat b) (Z.of_nat b) created.

(** A power loss of [InMemoryFs], plain or with the bytes of one segment cut at
    a seed's choice.  Files without a durable entry are out of reach. *)
Definition dir_power_loss `{CrashDisk F} (d : Dir F) (active : option (Z * Z)) : Dir F :=
  let loss ino :=
    match active with Some (id, seed) => if decide (d_durable d !! id = Some ino) then Some seed else None | None => None end in
  mk_dir (map_imap (fun ino f => Some (lose f (loss ino))) (d_files d)) (d_durable d) (d_durable d).

Section disk.
Context `{Crc32c} `{Xxh3} `{!Streaming} `{CrashDisk F}.

(** The file of an unsealed segment: its header, frames and perhaps some of the
    footer, of which a prefix with the first [n] records is durable. *)
Definition tail_file (f : F) (i b : nat) (E : list Entry) (n : nat) : Prop :=
  exists t k, is_u64 t /\ (k <= length (frames E) + 32)%nat /\ ((length (frames E) < k)%nat -> E <> []) /\
    f_live f = header_encode (seg_header i b t) ++ tail_body E (seal_footer (seg_header i b t) E) k /\
    f_durable f `prefix_of` f_live f /\ (n <= length E)%nat /\
    (SEGMENT_HEADER_LEN + length (frames (take n E)) <= length (f_durable f))%nat.

Definition sealed_file (f : F) (i b : nat) (E : list Entry) : Prop :=
  exists t, is_u64 t /\ f_durable f = f_live f /\
    f_live f = header_encode (seg_header i b t) ++ frames E ++ footer_encode (seal_footer (seg_header i b t) E).

(** A durable entry, with its file. *)
Definition entry_at (d : Dir F) (i ino : nat) (f : F) : Prop :=
  d_live d !! Z.of_nat i = Some ino /\ d_durable d !! Z.of_nat i = Some ino /\ d_files d !! ino = Some f /\ q_ok f.

(** The directory holds the sealed segments [ss] and then, unless the next has
    not been started, the tail.  A next segment that was not started may have a
    live entry. *)
Record disk_ok (d : Dir F) (ss : list (list Entry)) (tail : option (list Entry * nat)) : Prop := {
  dk_sealed i E : ss !! i = Some E -> exists ino f, entry_at d i ino f /\ sealed_file f i (length (concat (take i ss))) E;
  dk_tail : match tail with
            | Some (E, n) => exists ino f, entry_at d (length ss) ino f /\ tail_file f (length ss) (length (concat ss)) E n
            | None => d_durable d !! Z.of_nat (length ss) = None
            end;
  dk_live id ino : d_live d !! id = Some ino -> 0 <= id <= Z.of_nat (length ss) /\ is_Some (d_files d !! ino);
  dk_durable id ino : d_durable d !! id = Some ino -> 0 <= id <= Z.of_nat (length ss) /\ is_Some (d_files d !! ino);
  dk_inj id1 id2 ino :
    d_live d !! id1 = Some ino \/ d_durable d !! id1 = Some ino ->
    d_live d !! id2 = Some ino \/ d_durable d !! id2 = Some ino -> id1 = id2
}.

Lemma disk_empty : disk_ok dir_empty [] None.
Proof. split; cbn; [done|done|done|done|intros ??? [?|?]; done]. Qed.

(** Writing one file leaves the entries of the others alone. *)
Lemma entry_put d i ino f ino' f' : entry_at d i ino f -> ino <> ino' -> entry_at (put_file d ino' f') i ino f.
Proof. intros (H1' & H2' & H3' & H4') Hne. repeat split; try done. cbn. by rewrite lookup_insert_ne. Qed.

Lemma put_is_Some (d : Dir F) ino ino' f : is_Some (d_files d !! ino) -> is_Some (d_files (put_file d ino' f) !! ino).
Proof. intros Hs. cbn. destruct (decide (ino' = ino)) as [-> |]; [by rewrite lookup_insert_eq|by rewrite lookup_insert_ne]. Qed.

(** Every durable entry is a segment's. *)
Lemma disk_entry d ss tail i ino : disk_ok d ss tail -> d_durable d !! Z.of_nat i = Some ino -> exists f, entry_at d i ino f.
Proof.
  intros Hd Hi. pose proof (dk_durable _ _ _ Hd _ _ Hi) as [Hr _]. destruct (decide (i = length ss)) as [-> |Hne].
  - pose proof (dk_tail _ _ _ Hd) as Ht. destruct tail as [[E n]|]; [|congruence]. destruct Ht as (ino' & f & He & _).
    exists f. pose proof He as (_ & He2 & _). rewrite Hi in He2. by injection He2 as <-.
  - assert (Hlt : (i < length ss)%nat) by lia. apply lookup_lt_is_Some in Hlt as [E HE].
    destruct (dk_sealed _ _ _ Hd _ _ HE) as (ino' & f & He & _). exists f.
    pose proof He as (_ & He2 & _). rewrite Hi in He2. by injection He2 as <-.
Qed.

(** *** Changes to the entry after the last sealed segment *)

Lemma disk_put_orphan d ss ino f :
  disk_ok d ss None -> d_live d !! Z.of_nat (length ss) = Some ino -> disk_ok (put_file d ino f) ss None.
Proof.
  intros Hd Hl. split; try apply Hd.
  - intros i E Hi. destruct (dk_sealed _ _ _ Hd i E Hi) as (ino' & f' & He & Hs). exists ino', f'. split; [|done].
    apply entry_put; [done|]. intros ->. apply lookup_lt_Some in Hi.
    pose proof (dk_inj _ _ _ Hd _ _ _ (or_introl (proj1 He)) (or_introl Hl)). lia.
  - intros id ino' Hid. apply (dk_live _ _ _ Hd) in Hid as [? ?]. split; [done|by apply put_is_Some].
  - intros id ino' Hid. apply (dk_durable _ _ _ Hd) in Hid as [? ?]. split; [done|by apply put_is_Some].
Qed.

Lemma disk_add d ss f :
  disk_ok d ss None ->
  disk_ok (mk_dir (<[fresh_ino d := f]> (d_files d)) (<[Z.of_nat (length ss) := fresh_ino d]> (d_live d)) (d_durable d)) ss None.
Proof.
  intros Hd. assert (Hfresh : d_files d !! fresh_ino d = None) by (apply not_elem_of_dom, is_fresh).
  assert (Hno : forall ino, is_Some (d_files d !! ino) -> ino <> fresh_ino d) by (intros ino [x Hx] ->; congruence).
  assert (Hsome : forall ino, is_Some (d_files d !! ino) -> is_Some (<[fresh_ino d := f]> (d_files d) !! ino)).
  { intros ino Hs. rewrite lookup_insert_ne; [done|]. by apply not_eq_sym, Hno. }
  split; cbn; try apply Hd.
  - intros i E Hi. destruct (dk_sealed _ _ _ Hd i E Hi) as (ino' & f' & (He1 & He2 & He3 & He4) & Hs). exists ino', f'.
    split; [|done]. apply lookup_lt_Some in Hi. repeat split; cbn; try done.
    + by rewrite lookup_insert_ne by lia.
    + rewrite lookup_insert_ne; [done|]. by apply not_eq_sym, Hno.
  - intros id ino Hid. apply lookup_insert_Some in Hid as [[<- <-]|[_ Hid]].
    + split; [lia|by rewrite lookup_insert_eq].
    + apply (dk_live _ _ _ Hd) in Hid as [? ?]. auto.
  - intros id ino Hid. apply (dk_durable _ _ _ Hd) in Hid as [? ?]. auto.
  - assert (Hold : forall id ino, <[Z.of_nat (length ss):=fresh_ino d]> (d_live d) !! id = Some ino \/ d_durable d !! id = Some ino ->
      id = Z.of_nat (length ss) /\ ino = fresh_ino d \/ ino <> fresh_ino d /\ (d_live d !! id = Some ino \/ d_durable d !! id = Some ino)).
    { intros id ino [Hl|Hdu].
      - apply lookup_insert_Some in Hl as [[<- <-]|[_ Hl]]; [by left|]. right. split; [|by left]. by eapply Hno, (dk_live _ _ _ Hd).
      - right. split; [|by right]. by eapply Hno, (dk_durable _ _ _ Hd). }
    intros id1 id2 ino [[-> ->]|[Hne H1']]%Hold [[-> ?]|[? H2']]%Hold; try done. by apply (dk_inj _ _ _ Hd id1 id2 ino).
Qed.

Lemma disk_remove d ss :
  disk_ok d ss None -> disk_ok (mk_dir (d_files d) (delete (Z.of_nat (length ss)) (d_live d)) (d_durable d)) ss None.
Proof.
  intros Hd. split; cbn; try apply Hd.
  - intros i E Hi. destruct (dk_sealed _ _ _ Hd i E Hi) as (ino' & f' & (He1 & He2 & He3 & He4) & Hs). exists ino', f'.
    split; [|done]. apply lookup_lt_Some in Hi. repeat split; cbn; try done. by rewrite lookup_delete_ne by lia.
  - intros id ino [_ Hid]%lookup_delete_Some. by apply (dk_live _ _ _ Hd).
  - intros id1 id2 ino H1' H2'. apply (dk_inj _ _ _ Hd id1 id2 ino); rewrite ?lookup_delete_Some in *; naive_solver.
Qed.

(** A directory sync once the new file has its header. *)
Lemma disk_publish d ss ino f :
  disk_ok d ss None -> d_live d !! Z.of_nat (length ss) = Some ino -> d_files d !! ino = Some f -> q_ok f ->
  tail_file f (length ss) (length (concat ss)) [] 0 -> disk_ok (mk_dir (d_files d) (d_live d) (d_live d)) ss (Some ([], 0%nat)).
Proof.
  intros Hd Hl Hf Hq Ht. split; cbn.
  - intros i E Hi. destruct (dk_sealed _ _ _ Hd i E Hi) as (ino' & f' & (He1 & He2 & He3 & He4) & Hs). exists ino', f'. done.
  - exists ino, f. done.
  - apply (dk_live _ _ _ Hd).
  - apply (dk_live _ _ _ Hd).
  - intros id1 id2 i' H1' H2'. apply (dk_inj _ _ _ Hd id1 id2 i'); naive_solver.
Qed.

(** *** Changes to the tail *)

Lemma disk_put_tail d ss E n ino f E' n' :
  disk_ok d ss (Some (E, n)) -> d_live d !! Z.of_nat (length ss) = Some ino -> q_ok f ->
  tail_file f (length ss) (length (concat ss)) E' n' -> disk_ok (put_file d ino f) ss (Some (E', n')).
Proof.
  intros Hd Hl Hq Ht. split; try apply Hd.
  - intros i E0 Hi. destruct (dk_sealed _ _ _ Hd i E0 Hi) as (ino' & f' & He & Hs). exists ino', f'. split; [|done].
    apply entry_put; [done|]. intros ->. apply lookup_lt_Some in Hi.
    pose proof (dk_inj _ _ _ Hd _ _ _ (or_introl (proj1 He)) (or_introl Hl)). lia.
  - destruct (dk_tail _ _ _ Hd) as (ino' & f' & (He1 & He2 & He3 & He4) & _). rewrite Hl in He1. injection He1 as <-.
    exists ino, f. split; [|done]. repeat split; cbn; try done. by rewrite lookup_insert_eq.
  - intros id ino' Hid. apply (dk_live _ _ _ Hd) in Hid as [? ?]. split; [done|by apply put_is_Some].
  - intros id ino' Hid. apply (dk_durable _ _ _ Hd) in Hid as [? ?]. split; [done|by apply put_is_Some].
Qed.

Lemma concat_snoc {A} (ss : list (list A)) E : concat (ss ++ [E]) = concat ss ++ E.
Proof. rewrite concat_app. cbn. by rewrite app_nil_r. Qed.

Lemma disk_seal d ss E n ino f :
  disk_ok d ss (Some (E, n)) -> entry_at d (length ss) ino f -> sealed_file f (length ss) (length (concat ss)) E ->
  disk_ok d (ss ++ [E]) None.
Proof.
  intros Hd He Hs. split; rewrite ?length_app; cbn [length].
  - intros i E0 Hi. apply lookup_snoc_Some in Hi as [[Hlt Hi]|[-> ->]].
    + rewrite take_app_le by lia. by apply (dk_sealed _ _ _ Hd).
    + exists ino, f. rewrite take_app_length. done.
  - destruct (d_durable d !! Z.of_nat (length ss + 1)) eqn:Hx; [|done]. apply (dk_durable _ _ _ Hd) in Hx as [? _]. lia.
  - intros id ino' Hid. apply (dk_live _ _ _ Hd) in Hid as [? ?]. split; [lia|done].
  - intros id ino' Hid. apply (dk_durable _ _ _ Hd) in Hid as [? ?]. split; [lia|done].
  - apply (dk_inj _ _ _ Hd).
Qed.

(** *** Power loss *)

Record settled (d : Dir F) : Prop := {
  st_entries : d_live d = d_durable d;
  st_files i ino f : entry_at d i ino f -> q_healthy f /\ f_durable f = f_live f
}.

Lemma lose_sealed f loss i b E : q_ok f -> sealed_file f i b E -> sealed_file (lose f loss) i b E.
Proof.
  intros Hq (t & Ht & Hd & Hl). destruct (lose_image f loss Hq) as (k & Hk & Hk'); [by rewrite Hd|].
  destruct (lose_ok f loss Hq) as (_ & _ & Hld). rewrite Hd in Hk. rewrite take_ge in Hk' by lia.
  exists t. split; [done|]. split; [done|]. by rewrite Hk'.
Qed.

Lemma lose_tail f loss i b E n : q_ok f -> tail_file f i b E n -> tail_file (lose f loss) i b E n.
Proof.
  intros Hq (t & k & Ht & Hk & Hne & Hl & Hp & Hn & Hd). destruct (lose_image f loss Hq Hp) as (q & Hqk & Hlive).
  destruct (lose_ok f loss Hq) as (_ & _ & Hld). exists t, (min (q - SEGMENT_HEADER_LEN) k).
  split; [done|]. split; [lia|]. split; [intros ?; apply Hne; lia|]. rewrite Hld. split; [|split_and!; [done|done|]].
  - rewrite Hlive, Hl. rewrite take_app_ge by (rewrite length_header_encode; lia). rewrite length_header_encode.
    f_equal. unfold tail_body. by rewrite take_take.
  - rewrite Hlive, length_take. lia.
Qed.

Lemma entry_loss d active i ino f :
  entry_at d i ino f -> exists loss, entry_at (dir_power_loss d active) i ino (lose f loss).
Proof.
  intros (H1' & H2' & H3' & H4'). eexists. split_and!; cbn; [done|done| |].
  - rewrite map_lookup_imap, H3'. cbn. reflexivity.
  - by apply lose_ok.
Qed.

Lemma disk_loss d ss tail active :
  disk_ok d ss tail ->
  disk_ok (dir_power_loss d active) ss tail /\ settled (dir_power_loss d active).
Proof.
  intros Hd.
  assert (Hsome : forall ino, is_Some (d_files d !! ino) -> is_Some (d_files (dir_power_loss d active) !! ino)).
  { intros ino [f Hf]. cbn. rewrite map_lookup_imap, Hf. by eexists. }
  split; split.
  - intros i E Hi. destruct (dk_sealed _ _ _ Hd i E Hi) as (ino & f & He & Hs).
    destruct (entry_loss d active i ino f He) as [loss Hloss]. exists ino, (lose f loss). split; [done|]. apply lose_sealed; [apply He|done].
  - pose proof (dk_tail _ _ _ Hd) as Ht. destruct tail as [[E n]|]; [|done]. destruct Ht as (ino & f & He & Ht).
    destruct (entry_loss d active _ ino f He) as [loss Hloss]. exists ino, (lose f loss). split; [done|]. apply lose_tail; [apply He|done].
  - intros id ino Hid. apply (dk_durable _ _ _ Hd) in Hid as [? ?]. auto.
  - intros id ino Hid. apply (dk_durable _ _ _ Hd) in Hid as [? ?]. auto.
  - cbn. intros id1 id2 ino H1' H2'. apply (dk_inj _ _ _ Hd id1 id2 ino); naive_solver.
  - done.
  - intros i ino f (_ & Hdu & Hf & _). cbn in *. rewrite map_lookup_imap in Hf. destruct (d_files d !! ino) as [f0|] eqn:Hf0; [|done].
    cbn in Hf. injection Hf as <-. destruct (disk_entry _ _ _ _ _ Hd Hdu) as (f1 & (_ & _ & Hf1 & Hq)).
    rewrite Hf0 in Hf1. injection Hf1 as <-. split; by apply lose_ok.
Qed.

(** *** The segments a settled directory lists *)

Definition tail_count (tail : option (list Entry * nat)) : nat := match tail with Some _ => 1 | None => 0 end.
Definition tail_entries (tail : option (list Entry * nat)) : list Entry := match tail with Some (E, _) => E | None => [] end.
Definition tail_confirmed (tail : option (list Entry * nat)) : nat := match tail with Some (_, n) => n | None => 0 end.

Lemma disk_ids_range d ss tail id :
  disk_ok d ss tail -> (tail = None -> d_live d !! Z.of_nat (length ss) = None) ->
  is_Some (d_live d !! id) <-> 0 <= id < Z.of_nat (length ss + tail_count tail).
Proof.
  intros Hd He. split.
  - intros [ino Hi]. pose proof (dk_live _ _ _ Hd id ino Hi) as [Hr _].
    destruct tail as [[E n]|]; cbn; [lia|]. specialize (He eq_refl). assert (id <> Z.of_nat (length ss)) by (intros ->; congruence). lia.
  - intros Hr. destruct (decide (id = Z.of_nat (length ss))) as [-> |Hne].
    + pose proof (dk_tail _ _ _ Hd) as Ht. destruct tail as [[E n]|]; cbn in *; [|lia].
      destruct Ht as (ino & f & (Hl & _) & _). by eexists.
    + assert (Hlt : (Z.to_nat id < length ss)%nat) by (destruct tail; cbn in *; lia). apply lookup_lt_is_Some in Hlt as [E Hi].
      destruct (dk_sealed _ _ _ Hd _ _ Hi) as (ino & f & (Hl & _) & _). rewrite Z2Nat.id in Hl by lia. by eexists.
Qed.

Lemma sorted_seqZ n m : StronglySorted Z.lt (seqZ m (Z.of_nat n)).
Proof.
  revert m. induction n as [|n IH]; intros m; [constructor|]. rewrite seqZ_cons by lia.
  replace (Z.pred (Z.of_nat (S n))) with (Z.of_nat n) by lia. constructor; [apply IH|].
  apply Forall_forall. intros x Hx%elem_of_seqZ. lia.
Qed.

Lemma disk_ids d ss tail :
  disk_ok d ss tail -> (tail = None -> d_live d !! Z.of_nat (length ss) = None) -> dir_segment_ids d = seqZ 0 (Z.of_nat (length ss + tail_count tail)).
Proof.
  intros Hd He. unfold dir_segment_ids. apply (StronglySorted_unique_strong Z.lt); [intros; lia| | |].
  - by apply (StronglySorted_fmap fst _ _ _ (fun _ _ Hpq => Hpq)), btree_list_sorted.
  - apply sorted_seqZ.
  - apply NoDup_Permutation; [apply NoDup_btree_keys|apply NoDup_seqZ|]. intros id. rewrite elem_of_seqZ.
    rewrite <- (disk_ids_range d ss tail id Hd He). rewrite list_elem_of_fmap. split.
    + intros ([k v] & -> & Hin%elem_of_btree_list). by eexists.
    + intros [ino Hi]. exists (id, ino). split; [done|]. by apply elem_of_btree_list.
Qed.

Lemma settled_ids d ss tail :
  disk_ok d ss tail -> d_live d = d_durable d -> dir_segment_ids d = seqZ 0 (Z.of_nat (length ss + tail_count tail)).
Proof. intros Hd Hs. apply disk_ids; [done|]. intros ->. rewrite Hs. apply (dk_tail _ _ _ Hd). Qed.

(** ** Walking the chain *)

Definition loss_cap (cfg : LogConfig) : Z := Z.min (max_segment_bytes cfg) PER_EVENT_BYTE_CAP.

(** The records are well formed, their sequences are their positions, and none
    is longer than what a recovery may drop. *)
Record content_ok (cfg : LogConfig) (ss : list (list Entry)) (tail : option (list Entry * nat)) : Prop := {
  co_entries : Forall entry_ok (concat ss ++ tail_entries tail);
  co_dense : dense_entries 0 (concat ss ++ tail_entries tail);
  co_len : Z.of_nat (length (concat ss ++ tail_entries tail)) <= u64_max;
  co_count : Forall (fun E => Z.of_nat (length E) <= u32_max) (ss ++ [tail_entries tail]);
  co_nonempty : Forall (fun E => E <> []) ss;
  co_size : Forall (fun e => Z.of_nat (entry_len e) <= loss_cap cfg) (concat ss ++ tail_entries tail)
}.

(** No segment is sealed empty, so there are no more of them than records. *)
Lemma content_ids cfg ss tail : content_ok cfg ss tail -> Z.of_nat (length ss) <= Z.of_nat (length (concat ss)) <= u64_max.
Proof.
  intros Hc. pose proof (co_len _ _ _ Hc) as Hl. rewrite length_app in Hl. split; [|lia].
  pose proof (co_nonempty _ _ _ Hc) as Hn. clear Hc Hl. induction Hn as [|E ss HE _ IH]; [done|].
  cbn. rewrite length_app. destruct E; [done|]. cbn [length]. lia.
Qed.

Lemma seg_header_ok i b t :
  Z.of_nat i <= u64_max -> Z.of_nat b <= u64_max -> is_u64 t -> header_ok (seg_header i b t).
Proof. intros Hi Hb Ht. unfold header_ok. cbn. repeat split; try apply Ht; ulia. Qed.

(** What the recovery scan reads of a segment whose first [m] records are whole. *)
Definition scanned (s : RecoveryScan) (i b : nat) (t : Z) (E : list Entry) (sealed : bool) : Prop :=
  rs_header s = seg_header i b t /\ match rs_footer s with Some _ => sealed = true | None => sealed = false end /\
    rs_record_count s = Z.of_nat (length E) /\ rs_max_timestamp_ms s = max_time 0 E /\
    rs_last_seq s = last_seq_of (Z.of_nat b) E /\ rs_valid_end s = (SEGMENT_HEADER_LEN + length (frames E))%nat.

Lemma scan_tail_file d i ino f b E t k :
  entry_at d i ino f -> is_u64 t -> Z.of_nat i <= u64_max -> (k <= length (frames E) + 32)%nat ->
  f_live f = header_encode (seg_header i b t) ++ tail_body E (seal_footer (seg_header i b t) E) k ->
  Forall entry_ok E -> dense_entries (Z.of_nat b) E -> Z.of_nat (b + length E) <= u64_max -> Z.of_nat (length E) <= u32_max ->
  exists s, scan_segment d (Z.of_nat i) = Ok s /\
    scanned s i b t (take (fit k E) E) (bool_decide (k = length (frames E) + 32)%nat).
Proof.
  intros (Hl & _ & Hf & _) Ht Hi Hk Hlive Hok Hd Hmax Hc.
  assert (Hh : header_ok (seg_header i b t)) by (apply seg_header_ok; (done || lia)).
  unfold scan_segment, dir_open. rewrite Hl, Hf. cbn [fmap option_fmap option_map]. rewrite Hlive, open_image by done. cbn [res_bind].
  destruct (recovery_tail (seg_header i b t) Hh E k) as (clean & reason & Hs); try done; [cbn; lia|].
  rewrite Hs. eexists. split; [done|]. unfold tail_seal. split; [done|].
  split; [|done]. cbn [rs_footer]. case_decide; case_bool_decide; done.
Qed.

(** The accumulator of the loop before segment [i]. *)
Definition chain_at (acc : RecoveredChain) (i b : nat) : Prop :=
  ((0 < i)%nat -> rc_next_base_offset acc = Z.of_nat b /\ rc_next_base_seq acc = Z.of_nat b) /\
  Forall (fun s => sl_id s < Z.of_nat i) (rc_slots acc).

Lemma recover_step d i b t E sealed s rest acc :
  scan_segment d (Z.of_nat i) = Ok s -> scanned s i b t E sealed -> chain_at acc i b -> Z.of_nat (b + length E) <= u64_max ->
  rest = [] \/ sealed = true ->
  exists acc', recover_loop d (Z.of_nat i :: rest) (i =? 0)%nat acc = recover_loop d rest false acc' /\
    chain_at acc' (S i) (b + length E) /\ rc_highest acc' = s.
Proof.
  intros Hs (Hh & Hfo & Hc & _) [Hb Hsl] Hmax Hrest. cbn [recover_loop]. rewrite Hs. cbn [res_bind].
  rewrite Hh. cbn [sh_segment_id sh_base_offset sh_base_seq seg_header segment_header]. rewrite Z.eqb_refl. cbn [negb].
  assert (Hchk : negb (i =? 0)%nat && (negb (Z.of_nat b =? rc_next_base_offset acc) || negb (Z.of_nat b =? rc_next_base_seq acc)) = false).
  { destruct (Nat.eqb_spec i 0); [done|]. destruct Hb as [-> ->]; [lia|]. by rewrite Z.eqb_refl. }
  rewrite Hchk.
  assert (Hun : match rest, rs_footer s with _ :: _, None => true | _, _ => false end = false).
  { destruct Hrest as [-> | ->]; [done|]. destruct (rs_footer s); [by destruct rest|done]. }
  rewrite Hun, Hc. unfold checked_add. rewrite (proj2 (Z.leb_le _ _)) by lia.
  eexists. split; [reflexivity|]. split; [|done]. split; cbn; [lia|]. apply Forall_app. split.
  - eapply Forall_impl; [exact Hsl|]. cbn. lia.
  - repeat constructor. cbn. lia.
Qed.

(** What the content gives of one run of records within it. *)
Record seg_ok (cfg : LogConfig) (i b : nat) (E : list Entry) : Prop := {
  sg_entries : Forall entry_ok E;
  sg_dense : dense_entries (Z.of_nat b) E;
  sg_max : Z.of_nat (b + length E) <= u64_max;
  sg_count : Z.of_nat (length E) <= u32_max;
  sg_id : Z.of_nat i <= u64_max;
  sg_size : Forall (fun e => Z.of_nat (entry_len e) <= loss_cap cfg) E
}.

Lemma content_part cfg ss tail pre E post :
  content_ok cfg ss tail -> concat ss ++ tail_entries tail = pre ++ E ++ post ->
  Forall entry_ok E /\ dense_entries (Z.of_nat (length pre)) E /\ Z.of_nat (length pre + length E) <= u64_max /\
  Forall (fun e => Z.of_nat (entry_len e) <= loss_cap cfg) E.
Proof.
  intros [Ho Hd Hl _ _ Hs] He. rewrite He in *. rewrite !Forall_app in Ho, Hs. rewrite !length_app in Hl.
  apply dense_app in Hd as [_ Hd]. apply dense_app in Hd as [Hd _]. split_and!; try apply Ho; try apply Hs; [done|lia].
Qed.

Lemma content_sealed cfg ss tail i E :
  content_ok cfg ss tail -> ss !! i = Some E -> seg_ok cfg i (length (concat (take i ss))) E.
Proof.
  intros Hc Hi. pose proof (lookup_lt_Some _ _ _ Hi) as Hlt.
  destruct (content_part cfg ss tail (concat (take i ss)) E (concat (drop (S i) ss) ++ tail_entries tail) Hc) as (H1' & H2' & H3' & H4').
  { rewrite <- (take_drop_middle ss i E Hi) at 1. rewrite concat_app. cbn. by rewrite <- !app_assoc. }
  split; try done.
  - pose proof (co_count _ _ _ Hc) as Hn. apply Forall_app in Hn as [Hn _]. by eapply Forall_lookup_1 in Hn.
  - pose proof (content_ids _ _ _ Hc). lia.
Qed.

Lemma content_tail cfg ss E n :
  content_ok cfg ss (Some (E, n)) -> seg_ok cfg (length ss) (length (concat ss)) E.
Proof.
  intros Hc. destruct (content_part cfg ss (Some (E, n)) (concat ss) E [] Hc) as (H1' & H2' & H3' & H4'); [by rewrite app_nil_r|].
  split; try done.
  - pose proof (co_count _ _ _ Hc) as Hn. apply Forall_app in Hn as [_ Hn]. by inversion_clear Hn.
  - pose proof (content_ids _ _ _ Hc). lia.
Qed.

Lemma sealed_scan cfg d i ino f b E :
  entry_at d i ino f -> sealed_file f i b E -> seg_ok cfg i b E ->
  exists s t, scan_segment d (Z.of_nat i) = Ok s /\ scanned s i b t E true.
Proof.
  intros He (t & Ht & _ & Hl) [Ho Hd Hm Hc Hi _].
  destruct (scan_tail_file d i ino f b E t (length (frames E) + 32) He Ht Hi ltac:(lia)) as (s & Hs & Hsc); try done.
  - rewrite Hl. unfold tail_body. rewrite take_ge; [done|]. rewrite length_app, length_footer_encode. unfold SEGMENT_FOOTER_LEN. lia.
  - rewrite fit_all in Hsc by lia. rewrite take_ge in Hsc by lia. rewrite bool_decide_eq_true_2 in Hsc by done. eauto.
Qed.

Lemma recover_sealed cfg d ss tail rest :
  disk_ok d ss tail -> content_ok cfg ss tail ->
  forall todo before acc, ss = before ++ todo -> chain_at acc (length before) (length (concat before)) ->
  (before <> [] -> is_Some (rs_footer (rc_highest acc))) ->
  exists acc', recover_loop d (seqZ (Z.of_nat (length before)) (Z.of_nat (length todo)) ++ rest) (length before =? 0)%nat acc =
      recover_loop d rest (length ss =? 0)%nat acc' /\
    chain_at acc' (length ss) (length (concat ss)) /\ (ss <> [] -> is_Some (rs_footer (rc_highest acc'))).
Proof.
  intros Hd Hc. induction todo as [|E todo IH]; intros before acc Hss Hacc Hhi.
  { rewrite app_nil_r in Hss. subst before. exists acc. done. }
  assert (Hi : ss !! length before = Some E) by (rewrite Hss; by apply list_lookup_middle).
  destruct (dk_sealed _ _ _ Hd _ _ Hi) as (ino & f & He & Hf). pose proof (content_sealed _ _ _ _ _ Hc Hi) as Hg.
  destruct (sealed_scan cfg d _ ino f _ E He Hf Hg) as (s & t & Hs & Hsc). rewrite Hss, take_app_length in Hsc, Hg.
  rewrite seqZ_cons by (cbn; lia). cbn [app]. replace (Z.pred (Z.of_nat (length (E :: todo)))) with (Z.of_nat (length todo)) by (cbn; lia).
  destruct (recover_step d _ _ t E true s (seqZ (Z.succ (Z.of_nat (length before))) (Z.of_nat (length todo)) ++ rest) acc Hs Hsc Hacc
    (sg_max _ _ _ _ Hg) (or_intror eq_refl)) as (acc' & Hr & Ha & Hhi').
  destruct (IH (before ++ [E]) acc') as (acc'' & Hr' & Ha' & Hh').
  - by rewrite <- app_assoc.
  - rewrite length_app, concat_snoc, length_app. cbn [length]. by rewrite Nat.add_1_r.
  - intros _. rewrite Hhi'. destruct Hsc as (_ & Hfo & _). destruct (rs_footer s); [by eexists|done].
  - exists acc''. rewrite Hr. rewrite length_app in Hr'. cbn [length] in Hr'. rewrite Nat.add_1_r in Hr'.
    replace (Z.of_nat (S (length before))) with (Z.succ (Z.of_nat (length before))) in Hr' by lia. done.
Qed.

(** The chain a settled directory gives: what the active segment resumes from,
    or a seal to go on after. *)
Lemma scan_chain cfg d ss tail :
  disk_ok d ss tail -> content_ok cfg ss tail -> d_live d = d_durable d -> (0 < length ss + tail_count tail)%nat ->
  match tail with
  | None =>
      exists chain, scan_recover_chain d (dir_segment_ids d) = Ok chain /\ chain_at chain (length ss) (length (concat ss)) /\
        is_Some (rs_footer (rc_highest chain))
  | Some (E, n) =>
      exists ino f t k chain, entry_at d (length ss) ino f /\ is_u64 t /\ (k <= length (frames E) + 32)%nat /\
        ((length (frames E) < k)%nat -> E <> []) /\
        (n <= length E)%nat /\ (SEGMENT_HEADER_LEN + length (frames (take n E)) <= length (f_durable f))%nat /\
        f_live f = header_encode (seg_header (length ss) (length (concat ss)) t) ++
          tail_body E (seal_footer (seg_header (length ss) (length (concat ss)) t) E) k /\
        scan_recover_chain d (dir_segment_ids d) = Ok chain /\
        chain_at chain (S (length ss)) (length (concat ss) + length (take (fit k E) E)) /\
        scanned (rc_highest chain) (length ss) (length (concat ss)) t (take (fit k E) E)
          (bool_decide (k = length (frames E) + 32)%nat)
  end.
Proof.
  intros Hd Hc Hs Hpos. rewrite (settled_ids d ss tail Hd Hs).
  set (start := mk_chain [] 0 0 0 0 (mk_recovery (segment_header 0 0 0 0) None 0 0 0 true None 0)).
  assert (Hids : exists x l, seqZ 0 (Z.of_nat (length ss + tail_count tail)) = x :: l) by (rewrite seqZ_cons by lia; eauto).
  assert (Hstart : chain_at start 0 0) by (split; [lia|constructor]).
  destruct tail as [[E n]|]; cbn [tail_count] in *.
  - destruct (dk_tail _ _ _ Hd) as (ino & f & He & (t & k & Ht & Hk & Hne & Hl & _ & Hn1 & Hn2)). pose proof (content_tail _ _ _ _ Hc) as Hg.
    destruct (scan_tail_file d _ ino f _ E t k He Ht (sg_id _ _ _ _ Hg) Hk Hl) as (s & Hsg & Hsc); try apply Hg.
    destruct (recover_sealed cfg d ss (Some (E, n)) [Z.of_nat (length ss)] Hd Hc ss [] start eq_refl Hstart ltac:(done)) as (acc & Hr & Ha & _).
    destruct (recover_step d _ _ _ _ _ s [] acc Hsg Hsc Ha) as (acc' & Hr' & Ha' & Hh'); [|by left|].
    { pose proof (sg_max _ _ _ _ Hg). rewrite length_take. lia. }
    exists ino, f, t, k, acc'. split_and!; try done; [|by rewrite Hh'].
    unfold scan_recover_chain. destruct Hids as (x & l & Hids). rewrite Hids, <- Hids. fold start.
    replace (Z.of_nat (length ss + 1)) with (Z.of_nat (length ss) + 1) by lia. rewrite seqZ_app by lia.
    cbn [length concat Nat.eqb] in Hr. rewrite Z.add_0_l. change (seqZ (Z.of_nat (length ss)) 1) with [0 + Z.of_nat (length ss)].
    rewrite Z.add_0_l. change (Z.of_nat 0) with 0 in Hr. rewrite Hr, Hr'. done.
  - destruct (recover_sealed cfg d ss None [] Hd Hc ss [] start eq_refl Hstart ltac:(done)) as (acc & Hr & Ha & Hh).
    exists acc. split; [|split; [done|apply Hh; destruct ss; cbn in Hpos; [lia|done]]].
    unfold scan_recover_chain. destruct Hids as (x & l & Hids). rewrite Hids, <- Hids. fold start.
    rewrite app_nil_r in Hr. rewrite Nat.add_0_r. exact Hr.
Qed.

(** ** Cutting the tail *)

Definition config_ok (cfg : LogConfig) : Prop := MIN_MAX_SEGMENT_BYTES <= max_segment_bytes cfg.

Lemma last_nonzero_bounds fuel file start hi :
  (start <= hi)%nat -> (start <= last_nonzero_loop fuel file start hi <= hi)%nat.
Proof.
  revert hi. induction fuel as [|fuel IH]; intros hi Hle; cbn [last_nonzero_loop]; destruct (Nat.leb_spec hi start); try lia.
  destruct (list_find _ _) as [[i x]|] eqn:Hf.
  - apply list_find_Some in Hf as (Hi & _). apply lookup_lt_Some in Hi. rewrite length_rev, length_take, length_drop in *. lia.
  - specialize (IH (max (hi - 4096) start) ltac:(lia)). lia.
Qed.

(** One loss within the cap is accepted. *)
Lemma single_loss_ok cfg id start fin reason durable :
  0 <= loss_cap cfg -> Z.of_nat (fin - start) <= loss_cap cfg ->
  enforce_loss_caps cfg [loss_span id (Z.of_nat start) (Z.of_nat fin) 1 reason] durable = Ok tt.
Proof.
  intros H0' Hl. unfold enforce_loss_caps. fold (loss_cap cfg). unfold check_caps, total_bytes_skipped, loss_span, sat_sub, sat_add. cbn.
  rewrite (proj2 (Z.ltb_ge (loss_cap cfg) _)) by lia. cbn. rewrite (proj2 (Z.ltb_ge _ _)); [done|]. lia.
Qed.

(** No more is torn off than a record or a footer. *)
Lemma torn_small cfg i b E k :
  config_ok cfg -> seg_ok cfg i b E -> (k < length (frames E) + 32)%nat ->
  let whole := length (frames (take (fit k E) E)) in (whole <= k)%nat /\ Z.of_nat (k - whole) <= loss_cap cfg.
Proof.
  intros Hcfg Hg Hk whole. assert (H32 : 32 <= loss_cap cfg).
  { unfold loss_cap, config_ok, MIN_MAX_SEGMENT_BYTES, PER_EVENT_BYTE_CAP, SEGMENT_HEADER_LEN, SEGMENT_FOOTER_LEN, RECORD_HEADER_LEN,
      RECORD_TRAILER_LEN in *. lia. }
  destruct (decide (length (frames E) <= k)%nat) as [Hge|Hlt].
  - unfold whole. rewrite fit_all by done. rewrite take_ge by lia. lia.
  - assert (Hw : (whole <= k)%nat) by (apply length_frames_cut; lia). split; [done|].
    destruct (E !! fit k E) as [e|] eqn:He.
    + pose proof (fit_maximal k E e He ltac:(lia)) as Hm. fold whole in Hm.
      pose proof (sg_size _ _ _ _ Hg) as Hz. eapply Forall_lookup_1 in Hz; [|exact He]. cbn in Hz. lia.
    + apply lookup_ge_None in He. unfold whole in *. rewrite take_ge in Hw by lia. lia.
Qed.

Lemma tail_body_whole E ft k :
  (k <= length (frames E) + 32)%nat -> take (length (frames (take (fit k E) E))) (tail_body E ft k) = frames (take (fit k E) E).
Proof.
  intros Hk. destruct (decide (length (frames E) <= k)%nat) as [Hge|Hlt].
  - rewrite fit_all by done. rewrite (take_ge E) by lia. rewrite tail_body_gt by done. apply take_app_length.
  - rewrite tail_body_le by lia. destruct (frames_cut k E) as (torn & -> & _). apply take_app_length.
Qed.

Lemma cut_tail_ok cfg f id durable scan h E k i b :
  config_ok cfg -> seg_ok cfg i b E -> q_ok f -> q_healthy f -> f_durable f = f_live f ->
  f_live f = header_encode h ++ tail_body E (seal_footer h E) k -> (k < length (frames E) + 32)%nat ->
  let whole := take (fit k E) E in
  rs_valid_end scan = (SEGMENT_HEADER_LEN + length (frames whole))%nat ->
  exists f' loss lost, cut_tail cfg f id durable scan = (f', Ok (loss, lost)) /\ q_ok f' /\
    f_live f' = header_encode h ++ frames whole /\ f_durable f' = f_live f' /\ enforce_loss_caps cfg loss durable = Ok tt.
Proof.
  intros Hcfg Hg Hq Hhe Hdu Hl Hk whole Hv. destruct (torn_small cfg i b E k Hcfg Hg Hk) as [Hw Hcap]. fold whole in Hw, Hcap.
  assert (Hlen : length (f_live f) = (SEGMENT_HEADER_LEN + k)%nat).
  { rewrite Hl, length_app, length_header_encode, length_tail_body by lia. done. }
  assert (Hcap0 : 0 <= loss_cap cfg) by lia.
  assert (Hnone : enforce_loss_caps cfg [] durable = Ok tt).
  { unfold enforce_loss_caps. fold (loss_cap cfg). unfold check_caps, total_bytes_skipped. cbn.
    by rewrite (proj2 (Z.ltb_ge _ _)) by lia. }
  assert (Htake : take (SEGMENT_HEADER_LEN + length (frames whole)) (f_live f) = header_encode h ++ frames whole).
  { rewrite Hl. rewrite take_app_ge by (rewrite length_header_encode; lia). rewrite length_header_encode.
    replace (SEGMENT_HEADER_LEN + length (frames whole) - SEGMENT_HEADER_LEN)%nat with (length (frames whole)) by lia.
    f_equal. apply tail_body_whole. lia. }
  unfold cut_tail. rewrite Hv, Hlen. destruct (Nat.ltb_spec (SEGMENT_HEADER_LEN + length (frames whole)) (SEGMENT_HEADER_LEN + k)) as [Hlt|Hge].
  - set (fin := last_nonzero_end _ _ _).
    assert (Hfin : (SEGMENT_HEADER_LEN + length (frames whole) <= fin <= SEGMENT_HEADER_LEN + k)%nat) by (apply last_nonzero_bounds; lia).
    destruct (healthy_set_len f (SEGMENT_HEADER_LEN + length (frames whole)) Hhe) as (f1 & Hf1 & Hh1).
    destruct (healthy_sync_all f1 Hh1) as (f2 & Hf2 & Hh2).
    destruct (q_set_len _ _ _ _ Hq Hf1) as (Hq1 & Hl1 & _). destruct (q_sync_all _ _ _ Hq1 Hf2) as (Hq2 & Hl2 & Hd2).
    rewrite resize_le in Hl1 by lia. rewrite Htake in Hl1.
    assert (Hc1 : forall r, enforce_loss_caps cfg [loss_span id (Z.of_nat (SEGMENT_HEADER_LEN + length (frames whole))) (Z.of_nat fin) 1 r] durable = Ok tt).
    { intros r. apply single_loss_ok; [done|lia]. }
    destruct (Nat.ltb_spec (SEGMENT_HEADER_LEN + length (frames whole)) fin); rewrite ?Hc1, Hf1, Hf2; do 3 eexists;
      (split; [reflexivity|]); rewrite Hl2, Hd2, Hl1; done.
  - exists f, [], 0. split; [done|]. split; [done|]. split; [|done]. rewrite <- Htake. symmetry. apply take_ge. lia.
Qed.

(** ** The state of an open log *)

(** The file holds the flushed frames and nothing else. *)
Definition exact (w : SegmentWriter F) : Prop :=
  q_ok (w_file w) /\ Z.of_nat (length (f_live (w_file w))) = w_pending_base w /\ f_durable (w_file w) `prefix_of` f_live (w_file w).

Lemma exact_live w fl bu c :
  writer_inv w fl bu c -> exact w -> f_live (w_file w) = header_encode (w_header w) ++ frames fl.
Proof.
  intros Hi (_ & Hl & _). rewrite <- (wi_live _ _ _ _ Hi), <- Hl, Nat2Z.id. symmetry. by apply take_ge.
Qed.

Lemma exact_tail w fl bu n i b t :
  writer_inv w fl bu (Some n) -> exact w -> w_header w = seg_header i b t -> is_u64 t -> tail_file (w_file w) i b (fl ++ bu) n.
Proof.
  intros Hi He Hh Ht. pose proof (exact_live _ _ _ _ Hi He) as Hl. rewrite Hh in Hl.
  destruct (wi_durable _ _ _ _ Hi) as [Hn Hd]. exists t, (length (frames fl)). split; [done|]. rewrite frames_app, length_app.
  split; [lia|]. split; [lia|]. split.
  { rewrite Hl. f_equal. rewrite tail_body_le by (rewrite frames_app, length_app; lia). by rewrite frames_app, take_app_length. }
  split; [apply He|]. split; [rewrite length_app; lia|]. apply prefix_length in Hd. rewrite length_app, length_header_encode in Hd.
  rewrite take_app_le by lia. done.
Qed.

Definition active_ok (l : Log F) (ss : list (list Entry)) (E : list Entry) (n ino : nat) (w : SegmentWriter F) : Prop :=
  exists fl bu t, E = fl ++ bu /\ is_u64 t /\ w_header w = seg_header (length ss) (length (concat ss)) t /\
    writer_inv w fl bu (Some n) /\ exact w /\ l_active_id l = Z.of_nat (length ss) /\ l_pending_roll l = None /\
    d_live (l_dir l) !! Z.of_nat (length ss) = Some ino.

(** An open log with the sealed segments [ss] and the tail: writing to it, frozen
    with it, or waiting to start it. *)
Record log_inv (cfg : LogConfig) (l : Log F) (ss : list (list Entry)) (tail : option (list Entry * nat)) : Prop := {
  li_disk : disk_ok (log_disk l) ss tail;
  li_content : content_ok cfg ss tail;
  li_config : l_config l = cfg;
  li_next : l_next_offset l = Z.of_nat (length (concat ss ++ tail_entries tail)) /\ l_next_seq l = l_next_offset l;
  li_synced : 0 <= l_synced_offset l <= Z.of_nat (length (concat ss) + tail_confirmed tail);
  li_slots : Forall (fun s => sl_id s <= l_active_id l) (l_segments l) /\ l_active_id l <= Z.of_nat (length ss);
  li_active : match l_active l, tail with
              | Some (ino, w), Some (E, n) => active_ok l ss E n ino w
              | None, None =>
                  l_pending_roll l = None \/
                  l_pending_roll l = Some (mk_pending_roll (Z.of_nat (length ss)) (l_next_seq l) (l_next_offset l))
              | None, Some _ => l_pending_roll l = None
              | Some _, None => False
              end
}.

(** Everything appended is in the file. *)
Definition is_flushed (l : Log F) : Prop := match l_active l with Some (_, w) => w_pending w = [] | None => False end.

(** ** Starting a segment *)

Record env_ok (ev : Env F) : Prop := {
  en_time : is_u64 (ev_unix_millis ev);
  en_file : q_ok (ev_file ev);
  en_empty : f_live (ev_file ev) = [] /\ f_durable (ev_file ev) = []
}.

Definition env_healthy (ev : Env F) : Prop := q_healthy (ev_file ev) /\ ev_create_ok ev = true /\ ev_sync_dir_ok ev = true.

Lemma create_exact_file ev h w :
  env_ok ev -> header_ok h -> writer_create (ev_file ev) h = Ok w -> writer_inv w [] [] None /\ w_header w = h /\ exact w.
Proof.
  intros [_ Hq [Hl Hd]] Hh Hc. destruct (create_inv _ _ _ (q_sound _ Hq) Hh Hc) as [Hi Hw]. split; [done|]. split; [done|].
  unfold writer_create in Hc. destruct (write_all_at (ev_file ev) (header_encode h) 0) as [f b] eqn:Hwr. destruct b; [|done].
  injection Hc as <-. destruct (q_write _ _ _ _ _ Hq Hwr) as (Hq' & Hl' & Hd'). split; [done|]. cbn [w_file w_pending_base].
  rewrite Hl', Hd', Hl, Hd, length_splice, length_header_encode. split; [cbn; lia|apply prefix_nil].
Qed.

Lemma flush_keeps_exact w fl bu c : writer_inv w fl bu c -> exact w -> exact (fst (flush_pending w)).
Proof.
  intros Hi (Hq & Hl & Hd). unfold flush_pending. destruct (w_pending w) as [|z p] eqn:Hp; [done|]. rewrite <- Hp in *.
  destruct (write_all_at (w_file w) (w_pending w) (Z.to_nat (w_pending_base w))) as [f b] eqn:Hw.
  destruct (q_write _ _ _ _ _ Hq Hw) as (Hq' & Hl' & Hd').
  pose proof (wi_pos _ _ _ _ Hi) as Hpos. rewrite <- (wi_pending _ _ _ _ Hi) in Hpos.
  destruct b; (split; [done|]); cbn [fst w_file w_pending_base with_file]; rewrite Hl', Hd'; [|done].
  rewrite length_splice. split; [lia|]. transitivity (f_live (w_file w)); [done|].
  rewrite <- (take_ge (f_live (w_file w)) (Z.to_nat (w_pending_base w))) at 1 by lia.
  rewrite <- (splice_take _ (Z.to_nat (w_pending_base w)) (w_pending w)) by lia. apply prefix_take.
Qed.

Lemma sync_file_exact w f ok :
  exact w -> sync_data (w_file w) = (f, ok) -> exact (with_file w f (w_pending w) (w_pending_base w)).
Proof.
  intros (Hq & Hl & Hd) Hs. destruct (q_sync_data _ _ _ Hq Hs) as (Hq' & Hl' & Hd'). split; [done|].
  cbn [w_file w_pending_base with_file]. rewrite Hl', Hd'. split; [done|]. destruct ok; [|done].
  rewrite drop_ge by (by apply prefix_length). by rewrite app_nil_r.
Qed.

Lemma sync_keeps_exact w fl bu c : writer_inv w fl bu c -> exact w -> exact (fst (writer_sync w)).
Proof.
  intros Hi He. unfold writer_sync. pose proof (flush_keeps_exact _ _ _ _ Hi He) as Hf.
  destruct (flush_pending w) as [w1 [[]|e|]]; cbn [fst] in *; [|done|done].
  destruct (sync_data (w_file w1)) as [f ok] eqn:Hs. by apply (sync_file_exact w1 f ok).
Qed.

(** Creating the next segment's file, writing and syncing its header, and
    publishing its entry: what is on the disk after each step. *)
Lemma start_file d ss ev :
  disk_ok d ss None -> env_ok ev -> Z.of_nat (length ss) <= u64_max -> Z.of_nat (length (concat ss)) <= u64_max ->
  let h := seg_header (length ss) (length (concat ss)) (ev_unix_millis ev) in
  match dir_create_new d (Z.of_nat (length ss)) (ev_file ev) (ev_create_ok ev) with
  | (d', None) => d' = d
  | (d', Some ino) =>
      match create_writer (ev_file ev) h with
      | (file, Err _) => disk_ok (put_file d' ino file) ss None
      | (_, Panic) => False
      | (_, Ok w) =>
          match writer_sync w with
          | (w, Err _) => disk_ok (put_file d' ino (w_file w)) ss None
          | (_, Panic) => False
          | (w, Ok _) =>
              let d := put_file d' ino (w_file w) in
              disk_ok d ss None /\ disk_ok (mk_dir (d_files d) (d_live d) (d_live d)) ss (Some ([], 0%nat)) /\
              d_live d !! Z.of_nat (length ss) = Some ino /\
              writer_inv w [] [] (Some 0%nat) /\ exact w /\ w_header w = h
          end
      end
  end.
Proof.
  intros Hd Hev Hk Hb h. assert (Hh : header_ok h) by (apply seg_header_ok; (done || apply Hev)).
  unfold dir_create_new. destruct (d_live d !! Z.of_nat (length ss)) as [i|] eqn:Hlive; [done|]. destruct (ev_create_ok ev); [|done].
  pose proof (disk_add d ss (ev_file ev) Hd) as Hd'. set (ino := fresh_ino d) in *. set (d' := mk_dir _ _ _) in *.
  assert (Hl' : d_live d' !! Z.of_nat (length ss) = Some ino) by (apply lookup_insert_eq).
  unfold create_writer. destruct (writer_create (ev_file ev) h) as [w|e|] eqn:Hc; [|by apply disk_put_orphan|].
  2: { unfold writer_create in Hc. destruct (write_all_at _ _ _) as [f []]; done. }
  destruct (create_exact_file ev h w Hev Hh Hc) as (Hi & Hw & He).
  pose proof (sync_inv _ _ _ _ Hi) as Hs. pose proof (sync_keeps_exact _ _ _ _ Hi He) as Hx. pose proof (sync_header w) as Hhd.
  destruct (writer_sync w) as [w' [[]|e|]]; cbn [fst] in *; [|by apply disk_put_orphan|done].
  rewrite Hw in Hhd. pose proof (disk_put_orphan d' ss ino (w_file w') Hd' Hl') as Hdp.
  split; [done|]. split; [|done]. eapply disk_publish; [done|exact Hl'|apply lookup_insert_eq|apply Hx|].
  by eapply (exact_tail w' [] [] 0); [exact Hs|done|exact Hhd|apply Hev].
Qed.

Lemma log_disk_None (l : Log F) : l_active l = None -> log_disk l = l_dir l.
Proof. intros Ha. unfold log_disk. by rewrite Ha. Qed.

(** A log whose segments are all sealed. *)
Record between (cfg : LogConfig) (l : Log F) (ss : list (list Entry)) : Prop := {
  bt_disk : disk_ok (l_dir l) ss None;
  bt_content : content_ok cfg ss None;
  bt_config : l_config l = cfg;
  bt_next : l_next_offset l = Z.of_nat (length (concat ss)) /\ l_next_seq l = l_next_offset l;
  bt_synced : 0 <= l_synced_offset l <= Z.of_nat (length (concat ss));
  bt_slots : Forall (fun s => sl_id s <= l_active_id l) (l_segments l) /\ l_active_id l <= Z.of_nat (length ss);
  bt_active : l_active l = None
}.

Lemma content_started cfg ss : content_ok cfg ss None -> content_ok cfg ss (Some ([], 0%nat)).
Proof. intros [H1' H2' H3' H4' H5' H6']. by split. Qed.

Lemma between_inv cfg l ss :
  between cfg l ss ->
  l_pending_roll l = None \/
  l_pending_roll l = Some (mk_pending_roll (Z.of_nat (length ss)) (l_next_seq l) (l_next_offset l)) ->
  log_inv cfg l ss None.
Proof.
  intros [H1' H2' H3' H4' H5' H6' H7'] Hp. split; cbn [tail_entries tail_confirmed]; rewrite ?app_nil_r, ?Nat.add_0_r; try done.
  - unfold log_disk. by rewrite H7'.
  - by rewrite H7'.
Qed.

Lemma inv_between cfg l ss : log_inv cfg l ss None -> between cfg l ss.
Proof.
  intros [H1' H2' H3' H4' H5' H6' H7']. destruct (l_active l) as [[ino w]|] eqn:Ha; [done|].
  cbn [tail_entries tail_confirmed] in *. rewrite app_nil_r in *. rewrite Nat.add_0_r in *.
  split; try done. unfold log_disk in H1'. by rewrite Ha in H1'.
Qed.

(** The log once the segment is installed. *)
Lemma installed_inv cfg l l' ss ev ino w :
  between cfg l ss -> env_ok ev ->
  disk_ok (l_dir l') ss (Some ([], 0%nat)) -> d_live (l_dir l') !! Z.of_nat (length ss) = Some ino ->
  writer_inv w [] [] (Some 0%nat) -> exact w -> w_header w = seg_header (length ss) (length (concat ss)) (ev_unix_millis ev) ->
  l_active l' = Some (ino, w) -> l_pending_roll l' = None -> l_active_id l' = Z.of_nat (length ss) ->
  l_segments l' = l_segments l ++ [mk_slot (Z.of_nat (length ss)) (l_next_offset l) 0 0] ->
  l_config l' = l_config l -> l_next_offset l' = l_next_offset l -> l_next_seq l' = l_next_seq l ->
  l_synced_offset l' = l_synced_offset l -> log_inv cfg l' ss (Some ([], 0%nat)).
Proof.
  intros [_ H2' H3' H4' H5' H6' H7'] Hev Hd Hl Hi He Hh Ha Hp Hid Hsl Hc Hn Hn' Hs.
  split; cbn [tail_entries tail_confirmed]; rewrite ?app_nil_r, ?Nat.add_0_r.
  - unfold log_disk. rewrite Ha. eapply disk_put_tail; [done|done|apply He|].
    by eapply (exact_tail w [] [] 0); [exact Hi|done|exact Hh|apply Hev].
  - by apply content_started.
  - congruence.
  - by rewrite Hn, Hn'.
  - by rewrite Hs.
  - rewrite Hsl, Hid. split; [|lia]. apply Forall_app. split; [|repeat constructor; cbn; lia].
    eapply Forall_impl; [apply H6'|]. cbn. lia.
  - rewrite Ha. exists [], [], (ev_unix_millis ev). split_and!; try done. apply Hev.
Qed.

Lemma next_header cfg l ss now :
  between cfg l ss ->
  segment_header (Z.of_nat (length ss)) (l_next_seq l) (l_next_offset l) now = seg_header (length ss) (length (concat ss)) now.
Proof. intros Hb. destruct (bt_next _ _ _ Hb) as [Hn Hn']. unfold seg_header. by rewrite Hn', Hn. Qed.

Lemma start_segment_inv cfg l ss ev :
  between cfg l ss -> l_pending_roll l = None -> env_ok ev ->
  match start_segment l ev (Z.of_nat (length ss)) (l_next_seq l) (l_next_offset l) with
  | (l', Ok _) =>
      log_inv cfg l' ss (Some ([], 0%nat)) /\ l_synced_offset l' = l_synced_offset l /\ l_loss l' = l_loss l /\ is_flushed l'
  | (l', Err _) => disk_ok (log_disk l') ss None
  | (_, Panic) => False
  end.
Proof.
  intros Hb Hp Hev. pose proof Hb as [Hd Hc _ [Hn Hn'] _ _ Ha]. pose proof (content_ids _ _ _ Hc) as Hids.
  pose proof (start_file (l_dir l) ss ev Hd Hev ltac:(lia) ltac:(lia)) as Hs. cbn zeta in Hs.
  unfold start_segment. rewrite (next_header _ _ _ _ Hb).
  destruct (dir_create_new _ _ _ _) as [d' [ino|]]; [|rewrite Hs, log_disk_None by done; exact Hd].
  destruct (create_writer _ _) as [file [w|e|]]; [|rewrite log_disk_None by done; exact Hs|done].
  destruct (writer_sync w) as [w' [[]|e|]]; [|rewrite log_disk_None by done; exact Hs|done].
  destruct Hs as (Hd1 & Hd2 & Hl & Hi & He & Hh). unfold dir_sync. destruct (ev_sync_dir_ok ev).
  - split; [|split; [done|split; [done|apply (wi_pending _ _ _ _ Hi)]]]. eapply (installed_inv cfg l _ ss ev ino w'); try done.
  - by rewrite log_disk_None.
Qed.

Lemma start_segment_healthy cfg l ss ev :
  between cfg l ss -> env_ok ev -> env_healthy ev -> d_live (l_dir l) !! Z.of_nat (length ss) = None ->
  exists l', start_segment l ev (Z.of_nat (length ss)) (l_next_seq l) (l_next_offset l) = (l', Ok tt).
Proof.
  intros Hb Hev (Hf & Hcr & Hsd) Hl. unfold start_segment, dir_create_new. rewrite Hl, Hcr.
  unfold create_writer, writer_create.
  destruct (healthy_write (ev_file ev) (header_encode (segment_header (Z.of_nat (length ss)) (l_next_seq l) (l_next_offset l) (ev_unix_millis ev))) 0 Hf)
    as (f' & Hw & Hf'); [rewrite length_header_encode; unfold SEGMENT_HEADER_LEN, u64_max; lia|].
  rewrite Hw. unfold writer_sync, flush_pending. cbn [w_pending w_file].
  destruct (healthy_sync_data f' Hf') as (f'' & Hs & _). rewrite Hs. unfold dir_sync. rewrite Hsd. eauto.
Qed.

Lemma between_dir cfg l ss d : between cfg l ss -> disk_ok d ss None -> between cfg (with_dir l d) ss.
Proof. intros [_ H2' H3' H4' H5' H6' H7'] Hd. by split. Qed.

Lemma between_remove cfg l ss ok :
  between cfg l ss -> between cfg (with_dir l (fst (dir_remove (l_dir l) (Z.of_nat (length ss)) ok))) ss.
Proof.
  intros Hb. apply between_dir; [done|]. pose proof (bt_disk _ _ _ Hb) as Hd. unfold dir_remove. destruct (d_live _ !! _); [|done].
  destruct ok; [by apply disk_remove|done].
Qed.

Lemma defer_inv cfg l ss ev :
  between cfg l ss ->
  log_inv cfg (defer_roll l ev (Z.of_nat (length ss)) (l_next_seq l) (l_next_offset l)) ss None.
Proof.
  intros Hb. pose proof (between_remove cfg l ss (ev_remove_ok ev) Hb) as [H1' H2' H3' H4' H5' H6' H7'].
  apply between_inv; [by split|]. by right.
Qed.

Lemma create_or_defer_inv cfg l ss ev :
  between cfg l ss -> env_ok ev ->
  match create_or_defer_segment l ev (Z.of_nat (length ss)) (l_next_seq l) (l_next_offset l) with
  | (l', Ok _) => log_inv cfg l' ss (Some ([], 0%nat)) /\ l_synced_offset l' = l_synced_offset l
  | (l', Err _) => log_inv cfg l' ss None /\ l_synced_offset l' = l_synced_offset l
  | (_, Panic) => False
  end.
Proof.
  intros Hb0 Hev. unfold create_or_defer_segment. pose proof (between_remove cfg l ss (ev_remove_ok ev) Hb0) as Hb.
  set (l1 := with_dir l _) in *. change (l_next_seq l) with (l_next_seq l1). change (l_next_offset l) with (l_next_offset l1).
  change (l_synced_offset l) with (l_synced_offset l1). clearbody l1. clear l Hb0. cbn zeta. rewrite (next_header _ _ _ _ Hb).
  pose proof (content_ids _ _ _ (bt_content _ _ _ Hb)) as Hids.
  pose proof (start_file (l_dir l1) ss ev (bt_disk _ _ _ Hb) Hev ltac:(lia) ltac:(lia)) as Hs. cbn zeta in Hs.
  destruct (dir_create_new _ _ _ _) as [d' [ino|]].
  2: { split; [|done]. subst d'. apply (defer_inv cfg (with_dir l1 (l_dir l1)) ss ev). apply between_dir; [done|apply Hb]. }
  destruct (create_writer _ _) as [file [w|e|]]; [| |done].
  2: { split; [|done]. apply (defer_inv cfg (with_dir l1 (put_file d' ino file)) ss ev). by apply between_dir. }
  destruct (writer_sync w) as [w' [[]|e|]]; [| |done].
  2: { split; [|done]. apply between_inv; [|by left]. destruct (between_dir cfg l1 ss _ Hb Hs). by split. }
  destruct Hs as (Hd1 & Hd2 & Hl & Hi & He & Hh). unfold dir_sync. destruct (ev_sync_dir_ok ev).
  - split; [|done]. eapply (installed_inv cfg l1 _ ss ev ino w'); try done.
  - split; [|done]. apply between_inv; [|by left]. destruct (between_dir cfg l1 ss _ Hb Hd1). by split.
Qed.

(** ** Opening *)

Lemma no_loss_ok cfg durable : config_ok cfg -> enforce_loss_caps cfg [] durable = Ok tt.
Proof.
  intros Hc. unfold enforce_loss_caps, check_caps, total_bytes_skipped. cbn.
  rewrite (proj2 (Z.ltb_ge _ _)); [done|]. unfold config_ok, MIN_MAX_SEGMENT_BYTES, PER_EVENT_BYTE_CAP in *. lia.
Qed.

(** All segments sealed: the next one is started. *)
Lemma recover_rolls_forward cfg d ss ev ids chain :
  config_ok cfg -> disk_ok d ss None -> content_ok cfg ss None -> env_ok ev -> ss <> [] ->
  scan_recover_chain d ids = Ok chain -> chain_at chain (length ss) (length (concat ss)) ->
  is_Some (rs_footer (rc_highest chain)) ->
  match recover d cfg ev ids (Z.of_nat (length ss - 1)) with
  | (_, Ok l) => log_inv cfg l ss (Some ([], 0%nat)) /\ l_synced_offset l = Z.of_nat (length (concat ss)) /\ is_flushed l
  | (d', Err _) => disk_ok d' ss None /\ ~ (env_healthy ev /\ d_live d !! Z.of_nat (length ss) = None)
  | (_, Panic) => False
  end.
Proof.
  intros Hcfg Hd Hc Hev Hne Hs [Hn Hsl] [ft Hft]. unfold recover. rewrite Hs, Hft.
  assert (Hpos : (0 < length ss)%nat) by (destruct ss; cbn; [done|lia]). destruct (Hn Hpos) as [Hn1 Hn2].
  pose proof (content_ids _ _ _ Hc) as Hids. unfold checked_add at 1. rewrite (proj2 (Z.leb_le _ _)) by lia.
  replace (Z.of_nat (length ss - 1) + 1) with (Z.of_nat (length ss)) by lia.
  set (l := with_meters _ _). change (l_next_seq (recovered_log _ _ _ _ _)) with (l_next_seq l).
  change (l_next_offset (recovered_log _ _ _ _ _)) with (l_next_offset l).
  assert (Hb : between cfg l ss).
  { split; cbn; try done; [by rewrite Hn1, Hn2|rewrite Hn1; lia|].
    split; [|lia]. eapply Forall_impl; [exact Hsl|]. cbn. lia. }
  pose proof (start_segment_inv cfg l ss ev Hb eq_refl Hev) as Hst. pose proof (start_segment_healthy cfg l ss ev Hb Hev) as Hhe.
  destruct (start_segment _ _ _ _ _) as [l' [[]|e|]]; [| |done].
  - destruct Hst as (Hi & Hsy & Hlo & Hfl). rewrite Hlo. cbn [l l_loss with_meters recovered_log]. rewrite no_loss_ok by done. cbn [res_bind].
    split; [done|]. split; [rewrite Hsy; exact Hn1|done].
  - split; [done|]. intros [He1 He2]. destruct (Hhe He1 He2) as [l'' Hl'']. congruence.
Qed.

(** The last one unsealed: its torn tail is cut and writing goes on. *)
Lemma resumed_inv cfg f i b t E :
  seg_ok cfg i b E -> q_ok f -> is_u64 t -> f_live f = header_encode (seg_header i b t) ++ frames E -> f_durable f = f_live f ->
  let w := writer_resume f (seg_header i b t) (Z.of_nat (SEGMENT_HEADER_LEN + length (frames E))) (Z.of_nat (length E))
             (last_seq_of (Z.of_nat b) E) (max_time 0 E) in
  writer_inv w E [] (Some (length E)) /\ exact w.
Proof.
  intros Hg Hq Ht Hl Hd w. assert (Hlen : length (f_live f) = (SEGMENT_HEADER_LEN + length (frames E))%nat).
  { rewrite Hl, length_app, length_header_encode. done. }
  split; [|split_and!; cbn; [done|by rewrite Hlen|by rewrite Hd]].
  pose proof (sg_max _ _ _ _ Hg). pose proof (sg_count _ _ _ _ Hg). pose proof (sg_id _ _ _ _ Hg).
  split; cbn [w w_file w_header w_pending_base w_pending w_write_pos w_record_count w_last_seq w_max_timestamp_ms writer_resume];
    rewrite ?app_nil_r.
  - by apply q_sound.
  - apply seg_header_ok; (done || lia).
  - apply Hg.
  - rewrite Nat2Z.id, <- Hlen, <- Hl. by apply take_ge.
  - done.
  - done.
  - cbn. lia.
  - done.
  - done.
  - done.
  - cbn. lia.
  - split; [lia|]. rewrite take_ge by lia. by rewrite Hd, Hl.
Qed.

Lemma content_cut cfg ss E n m n' : content_ok cfg ss (Some (E, n)) -> content_ok cfg ss (Some (take m E, n')).
Proof.
  intros [H1' H2' H3' H4' H5' H6']. cbn [tail_entries] in *.
  assert (He : concat ss ++ take m E = take (length (concat ss) + m) (concat ss ++ E)) by (by rewrite take_app_add).
  split; cbn [tail_entries]; try done.
  - rewrite He. by apply Forall_take.
  - rewrite He. by apply dense_take.
  - rewrite He, length_take. lia.
  - apply Forall_app in H4' as [H4' H7']. apply Forall_app. split; [done|]. inversion_clear H7'. repeat constructor. rewrite length_take. lia.
  - rewrite He. by apply Forall_take.
Qed.

Lemma recover_resumes cfg d ss E n ev ids ino f t k chain :
  config_ok cfg -> disk_ok d ss (Some (E, n)) -> content_ok cfg ss (Some (E, n)) -> settled d ->
  entry_at d (length ss) ino f -> is_u64 t -> (k < length (frames E) + 32)%nat ->
  f_live f = header_encode (seg_header (length ss) (length (concat ss)) t) ++
    tail_body E (seal_footer (seg_header (length ss) (length (concat ss)) t) E) k ->
  let whole := take (fit k E) E in
  scan_recover_chain d ids = Ok chain -> chain_at chain (S (length ss)) (length (concat ss) + length whole) ->
  scanned (rc_highest chain) (length ss) (length (concat ss)) t whole false ->
  exists d' l, recover d cfg ev ids (Z.of_nat (length ss)) = (d', Ok l) /\ log_inv cfg l ss (Some (whole, length whole)) /\
    l_synced_offset l = Z.of_nat (length (concat ss) + length whole) /\ is_flushed l.
Proof.
  intros Hcfg Hd Hc Hst He Ht Hk Hl whole Hs [Hn Hsl] (Hh' & Hf' & Hcn & Hmt & Hls & Hve).
  destruct (Hn ltac:(lia)) as [Hn1 Hn2]. destruct (st_files _ Hst _ _ _ He) as [Hhe Hdu]. pose proof He as (He1 & He2 & He3 & He4).
  pose proof (content_cut cfg ss E n (fit k E) (length whole) Hc) as Hc'. fold whole in Hc'.
  pose proof (content_tail _ _ _ _ Hc) as Hg. pose proof (content_tail _ _ _ _ Hc') as Hg'.
  destruct (cut_tail_ok cfg f (Z.of_nat (length ss)) (rc_durable_bytes chain) (rc_highest chain) _ E k _ _ Hcfg Hg He4 Hhe Hdu Hl Hk Hve)
    as (f' & loss & lost & Hcut & Hq' & Hl' & Hd' & Hcap).
  unfold recover. rewrite Hs. destruct (rs_footer (rc_highest chain)); [done|]. unfold dir_open at 1. rewrite He1, He3. cbn [fmap option_fmap option_map].
  rewrite Hcut, Hcap. cbn [res_bind]. rewrite Hcn, (proj2 (Z.ltb_ge _ _)) by (apply Hg').
  eexists _, _. split; [reflexivity|]. rewrite Hh', Hve, Hmt, Hls.
  destruct (resumed_inv cfg f' _ _ t whole Hg' Hq' Ht Hl' Hd') as [Hi Hx]. set (w := writer_resume _ _ _ _ _ _) in *.
  split; [|split; [exact Hn1|done]]. split; cbn [tail_entries tail_confirmed with_active l_active with_loss with_dir l_config l_next_offset l_next_seq
    l_synced_offset l_segments l_active_id recovered_log l_dir].
  - unfold log_disk. cbn [l_active with_active l_dir with_loss with_dir]. eapply disk_put_tail.
    + eapply disk_put_tail; [exact Hd|done|exact Hq'|]. eapply (exact_tail w whole [] (length whole)); [exact Hi|done|done|done].
    + done.
    + apply Hx.
    + pose proof (exact_tail w whole [] (length whole) _ _ t Hi Hx eq_refl Ht) as Htf. rewrite app_nil_r in Htf. exact Htf.
  - done.
  - done.
  - rewrite Hn1, Hn2, length_app. done.
  - rewrite Hn1. lia.
  - split; [|lia]. eapply Forall_impl; [exact Hsl|]. cbn. lia.
  - exists whole, [], t. split_and!; try done. by rewrite app_nil_r.
Qed.

Lemma last_seqZ_nat n : last (seqZ 0 (Z.of_nat (S n))) = Some (Z.of_nat n).
Proof. replace (Z.of_nat (S n)) with (Z.of_nat n + 1) by lia. rewrite seqZ_app by lia. apply last_snoc. Qed.

(** A segment with an entry that survived has its header, so none is removed. *)
Lemma reap_nothing cfg d ss tail ev :
  disk_ok d ss tail -> content_ok cfg ss tail -> d_live d = d_durable d ->
  reap_bad_trailing_segment d ev (dir_segment_ids d) = (d, Ok (dir_segment_ids d, None)).
Proof.
  intros Hd Hc Hs. rewrite (settled_ids d ss tail Hd Hs). destruct (length ss + tail_count tail)%nat as [|n] eqn:Hn; [done|].
  unfold reap_bad_trailing_segment. rewrite last_seqZ_nat. destruct (_ <? 2)%nat; [done|].
  assert (He : exists ino f b t body, entry_at d n ino f /\ f_live f = header_encode (seg_header n b t) ++ body /\ header_ok (seg_header n b t)).
  { destruct tail as [[E c]|]; cbn [tail_count] in Hn.
    - destruct (dk_tail _ _ _ Hd) as (ino & f & He & (t & k & Ht & _ & _ & Hl & _)). pose proof (content_tail _ _ _ _ Hc) as Hg.
      replace n with (length ss) by lia. exists ino, f, (length (concat ss)), t. eexists. split; [done|]. split; [done|].
      pose proof (sg_max _ _ _ _ Hg). apply seg_header_ok; [apply Hg|lia|done].
    - assert (Hlt : (n < length ss)%nat) by lia. apply lookup_lt_is_Some in Hlt as [E Hi].
      destruct (dk_sealed _ _ _ Hd _ _ Hi) as (ino & f & He & (t & Ht & _ & Hl)). pose proof (content_sealed _ _ _ _ _ Hc Hi) as Hg.
      exists ino, f. do 3 eexists. split; [done|]. split; [done|]. pose proof (sg_max _ _ _ _ Hg). apply seg_header_ok; [apply Hg|lia|done]. }
  destruct He as (ino & f & b & t & body & (Hl & _ & Hf & _) & Hlive & Hh). unfold dir_open. rewrite Hl, Hf.
  cbn [fmap option_fmap option_map]. by rewrite Hlive, open_image.
Qed.

Lemma content_sealed_tail cfg ss E n : content_ok cfg ss (Some (E, n)) -> E <> [] -> content_ok cfg (ss ++ [E]) None.
Proof.
  intros [H1' H2' H3' H4' H5' H6'] HE. cbn [tail_entries] in *. split; rewrite ?concat_snoc; cbn [tail_entries]; rewrite ?app_nil_r; try done.
  - rewrite Forall_app in H4'. rewrite !Forall_app. split; [done|]. constructor; [cbn; ulia|constructor].
  - apply Forall_app. split; [done|by constructor].
Qed.

(** What an attempt to open leaves, from the records [A] of which [c] are
    confirmed. *)
Definition opened (cfg : LogConfig) (ev : Env F) (A : list Entry) (c : nat) (r : Dir F * res (Log F) StorageError) : Prop :=
  match r with
  | (_, Ok l) => exists ss tail m, (c <= m <= length A)%nat /\ log_inv cfg l ss tail /\ concat ss ++ tail_entries tail = take m A /\
      l_synced_offset l = Z.of_nat m /\ is_flushed l
  | (d, Err _) => ~ env_healthy ev /\ exists ss tail, disk_ok d ss tail /\ content_ok cfg ss tail /\
      concat ss ++ tail_entries tail = A /\ (c <= length (concat ss) + tail_confirmed tail)%nat
  | (_, Panic) => False
  end.

(** Sealed segments only. *)
Lemma open_sealed cfg d ss ev ids chain c :
  config_ok cfg -> disk_ok d ss None -> content_ok cfg ss None -> env_ok ev -> ss <> [] -> d_live d !! Z.of_nat (length ss) = None ->
  scan_recover_chain d ids = Ok chain -> chain_at chain (length ss) (length (concat ss)) ->
  is_Some (rs_footer (rc_highest chain)) -> (c <= length (concat ss))%nat ->
  opened cfg ev (concat ss) c (recover d cfg ev ids (Z.of_nat (length ss - 1))).
Proof.
  intros Hcfg Hd Hc Hev Hne Hl Hs Hch Hf Hcn. pose proof (recover_rolls_forward cfg d ss ev ids chain Hcfg Hd Hc Hev Hne Hs Hch Hf) as Hr.
  destruct (recover d cfg ev ids _) as [d' [l|e|]]; [| |done].
  - destruct Hr as (Hi & Hsy & Hfl). exists ss, (Some ([], 0%nat)), (length (concat ss)). split; [lia|]. split; [done|].
    cbn. rewrite app_nil_r. split; [by rewrite take_ge|done].
  - destruct Hr as [Hd' Hh]. split; [naive_solver|]. exists ss, None. split; [done|]. split; [done|]. cbn.
    rewrite app_nil_r. split; [done|lia].
Qed.

Lemma open_inv cfg d ss tail ev :
  config_ok cfg -> disk_ok d ss tail -> content_ok cfg ss tail -> settled d -> env_ok ev ->
  opened cfg ev (concat ss ++ tail_entries tail) (length (concat ss) + tail_confirmed tail) (log_open d cfg ev).
Proof.
  intros Hcfg Hd Hc Hst Hev. pose proof (st_entries _ Hst) as Hs. unfold log_open. rewrite (reap_nothing cfg d ss tail ev Hd Hc Hs).
  assert (Hid : forall r : Dir F * res (Log F) StorageError, (let (d', x) := r in (d', let? l := x in Ok l)) = r) by (by intros [d' [| |]]).
  destruct (decide (0 < length ss + tail_count tail)%nat) as [Hpos|Hz].
  - pose proof (scan_chain cfg d ss tail Hd Hc Hs Hpos) as Hch. pose proof (settled_ids d ss tail Hd Hs) as Hids.
    destruct (length ss + tail_count tail)%nat as [|n] eqn:Hn; [lia|]. rewrite Hids at 1. rewrite last_seqZ_nat, Hid.
    destruct tail as [[E c]|]; cbn [tail_count tail_entries tail_confirmed] in *.
    + destruct Hch as (ino & f & t & k & chain & He & Ht & Hk & Hne & Hc1 & Hc2 & Hl & Hsc & Hca & Hsn).
      destruct (decide (k = length (frames E) + 32)%nat) as [Hfull|Hpart].
      * assert (HE : E <> []) by (apply Hne; lia). destruct (st_files _ Hst _ _ _ He) as [_ Hdu].
        rewrite fit_all, take_ge in Hca by lia.
        assert (Hsf : sealed_file f (length ss) (length (concat ss)) E).
        { exists t. split; [done|]. split; [done|]. rewrite Hl. f_equal. unfold tail_body. apply take_ge.
          rewrite length_app, length_footer_encode. unfold SEGMENT_FOOTER_LEN. lia. }
        pose proof (disk_seal d ss E c ino f Hd He Hsf) as Hd'. pose proof (content_sealed_tail _ _ _ _ Hc HE) as Hc'.
        rewrite <- concat_snoc. replace (Z.of_nat n) with (Z.of_nat (length (ss ++ [E]) - 1)) by (rewrite length_app; cbn; lia).
        eapply open_sealed; try done.
        -- by destruct ss.
        -- rewrite Hs. apply (dk_tail _ _ _ Hd').
        -- rewrite length_app, concat_snoc, length_app. cbn [length]. by rewrite Nat.add_1_r.
        -- destruct Hsn as (_ & Hfo & _). rewrite bool_decide_eq_true_2 in Hfo by done. by destruct (rs_footer _).
        -- rewrite concat_snoc, length_app. lia.
      * rewrite bool_decide_eq_false_2 in Hsn by done. replace n with (length ss) by lia.
        destruct (recover_resumes cfg d ss E c ev (dir_segment_ids d) ino f t k chain Hcfg Hd Hc Hst He Ht ltac:(lia) Hl Hsc Hca Hsn)
          as (d' & l & -> & Hi & Hsy & Hfl).
        exists ss, (Some (take (fit k E) E, length (take (fit k E) E))), (length (concat ss) + length (take (fit k E) E))%nat.
        split; [|split; [done|split; [|done]]].
        -- destruct (st_files _ Hst _ _ _ He) as [_ Hdu]. rewrite Hdu, Hl, length_app, length_header_encode, length_tail_body in Hc2 by done.
           pose proof (fit_ge c k E Hc1 ltac:(lia)). rewrite length_app, length_take. lia.
        -- cbn [tail_entries]. rewrite take_app_add. f_equal. rewrite length_take. pose proof (fit_le k E). by rewrite Nat.min_l.
    + destruct Hch as (chain & Hsc & Hca & Hf). rewrite app_nil_r, Nat.add_0_r.
      replace (Z.of_nat n) with (Z.of_nat (length ss - 1)) by lia. eapply open_sealed; try done.
      * destruct ss; cbn in *; [lia|done].
      * rewrite Hs. apply (dk_tail _ _ _ Hd).
  - assert (ss = []) as -> by (destruct ss; cbn in *; [done|lia]). destruct tail as [[E c]|]; cbn in Hz; [lia|].
    rewrite (settled_ids d [] None Hd Hs). cbn [length tail_count Nat.add]. change (last (seqZ 0 (Z.of_nat 0))) with (@None Z). cbn iota beta.
    set (l := mk_log _ _ _ _ _ _ _ _ _ _ _ _ _).
    assert (Hb : between cfg l []) by (split; cbn; done).
    pose proof (start_segment_inv cfg l [] ev Hb eq_refl Hev) as Hsi. pose proof (start_segment_healthy cfg l [] ev Hb Hev) as Hsh.
    change (Z.of_nat (length (@nil (list Entry)))) with 0 in Hsi, Hsh. change (l_next_seq l) with 0 in Hsi, Hsh. change (l_next_offset l) with 0 in Hsi, Hsh.
    unfold FIRST_SEGMENT_ID. destruct (start_segment l ev 0 0 0) as [l' [[]|e|]]; [| |done].
    + destruct Hsi as (Hi & Hsy & _ & Hfl). exists [], (Some ([], 0%nat)), 0%nat. split; [cbn; lia|]. done.
    + split; [|exists [], None; done]. intros Hh. destruct Hsh as [l'' Hl'']; [done| |done]. cbn. rewrite Hs. apply (dk_tail _ _ _ Hd).
Qed.
End disk.
