(* ===== verification/LogSafety.v ===== *)
(** * What a log keeps over power losses

    Runs of a log on a disk whose calls may fail, without effect, and which may
    lose power: every record the log reported synced is there when it opens
    again, at its offset, and nothing is there that was not appended.  Syncs may
    also be staged and completed later, by the barrier of another thread. *)

From S2P Require Import Prelude Bytes Records Codec Disk SegmentFormat SegmentScan SegmentWriter Log LogRecovery.

Section safety.
Context `{Crc32c} `{Xxh3} `{!Streaming} `{CrashDisk F}.

(** ** Steps of an open log

    The log holds the records [A], of which at least [c] are durable. *)

Definition durable_count (ss : list (list Entry)) (tail : option (list Entry * nat)) : nat := length (concat ss) + tail_confirmed tail.

(** The records a staged sync covers: durable, or written to the active file. *)
Definition ticket_ok (l : Log F) (ss : list (list Entry)) (tail : option (list Entry * nat)) (t : SyncTicket) : Prop :=
  match l_active l, tail with
  | Some (_, w), Some (E, _) =>
      tk_target t <= Z.of_nat (length (concat ss)) \/
      tk_segment_id t = Z.of_nat (length ss) /\ tk_target t <= Z.of_nat (length (concat ss ++ E)) /\
      Z.of_nat (SEGMENT_HEADER_LEN + length (frames (take (Z.to_nat (tk_target t) - length (concat ss)) E))) <= w_pending_base w
  | None, None => tk_target t <= Z.of_nat (length (concat ss))
  | _, _ => True
  end.

Definition log_ok (cfg : LogConfig) (l : Log F) (A : list Entry) (c : nat) (tk : option SyncTicket) : Prop :=
  exists ss tail, log_inv cfg l ss tail /\ concat ss ++ tail_entries tail = A /\ (c <= durable_count ss tail)%nat /\
    from_option (ticket_ok l ss tail) True tk.

Lemma log_ok_synced cfg l A c tk : log_ok cfg l A c tk -> log_ok cfg l A (max c (Z.to_nat (l_synced_offset l))) tk.
Proof.
  intros (ss & tail & Hi & HA & Hc & Ht). exists ss, tail. split; [done|]. split; [done|]. split; [|done].
  pose proof (li_synced _ _ _ _ Hi). unfold durable_count in *. lia.
Qed.

(** An operation's outcome: the records stay. *)
Definition keeps {R} (cfg : LogConfig) (A : list Entry) (c : nat) (tk : option SyncTicket) (r : Log F * res R StorageError) : Prop :=
  match r with (l, Ok _) | (l, Err _) => log_ok cfg l A c tk | (_, Panic) => False end.

(** A ticket of an earlier segment, and of a log without a tail. *)
Lemma ticket_sealed l ss tail t : tk_target t <= Z.of_nat (length (concat ss)) -> ticket_ok l ss tail t.
Proof. intros Ht. unfold ticket_ok. destruct (l_active l) as [[ino w]|], tail as [[E n]|]; auto. Qed.

Lemma durable_le cfg l ss tail : log_inv cfg l ss tail -> (durable_count ss tail <= length (concat ss ++ tail_entries tail))%nat.
Proof.
  intros Hi. pose proof (dk_tail _ _ _ (li_disk _ _ _ _ Hi)) as Ht. unfold durable_count. rewrite length_app.
  destruct tail as [[E n]|]; cbn; [|lia]. destruct Ht as (ino & f & _ & (t & k & _ & _ & _ & _ & _ & Hn & _)). lia.
Qed.

Lemma log_inv_meters cfg l ss tail m : log_inv cfg l ss tail -> log_inv cfg (with_meters l m) ss tail.
Proof. intros [H1' H2' H3' H4' H5' H6' H7']. by split. Qed.

Lemma put_file_twice (d : Dir F) ino f f' : put_file (put_file d ino f) ino f' = put_file d ino f'.
Proof. unfold put_file. cbn. by rewrite insert_insert_eq. Qed.

(** The writer moved on. *)
Lemma active_step cfg l l' ss E n ino w w' fl bu n' :
  log_inv cfg l ss (Some (E, n)) -> l_active l = Some (ino, w) ->
  writer_inv w' fl bu (Some n') -> exact w' -> w_header w' = w_header w -> content_ok cfg ss (Some (fl ++ bu, n')) ->
  l_active l' = Some (ino, w') -> l_dir l' = l_dir l -> l_config l' = l_config l -> l_active_id l' = l_active_id l ->
  l_segments l' = l_segments l -> l_pending_roll l' = l_pending_roll l ->
  l_next_offset l' = Z.of_nat (length (concat ss ++ fl ++ bu)) -> l_next_seq l' = l_next_offset l' ->
  0 <= l_synced_offset l' <= Z.of_nat (length (concat ss) + n') -> log_inv cfg l' ss (Some (fl ++ bu, n')).
Proof.
  intros [H1' H2' H3' H4' H5' H6' H7'] Ha Hw He Hh Hc Ha' Hd Hcf Hid Hsl Hp Hn Hs Hsy. rewrite Ha in H7'.
  destruct H7' as (fl0 & bu0 & t & _ & Ht & Hhd & _ & _ & Hid' & Hp' & Hl). rewrite Hhd in Hh.
  pose proof (exact_tail _ _ _ _ _ _ _ Hw He Hh Ht) as Htf. split; cbn [tail_entries tail_confirmed]; try done.
  - unfold log_disk in *. rewrite Ha', Hd. rewrite Ha in H1'.
    rewrite <- (put_file_twice _ _ (w_file w)).
    eapply disk_put_tail; [exact H1'|done|apply He|done].
  - congruence.
  - by rewrite Hsl, Hid.
  - rewrite Ha'. exists fl, bu, t. split_and!; try done; congruence.
Qed.

Lemma drop_inv cfg l ss tail : log_inv cfg l ss tail -> l_active l <> None -> log_inv cfg (drop_active l) ss tail.
Proof.
  intros [H1' H2' H3' H4' H5' H6' H7'] Ha. destruct (l_active l) as [[ino w]|] eqn:Hl; [|done]. split; try done.
  cbn. destruct tail as [[E n]|]; [|done]. by destruct H7' as (fl & bu & t & _ & _ & _ & _ & _ & _ & Hp & _).
Qed.

Lemma pending_none_inv cfg l ss tail :
  log_inv cfg l ss tail -> l_active l = None -> log_inv cfg (with_pending l None) ss tail.
Proof.
  intros [H1' H2' H3' H4' H5' H6' H7'] Ha. rewrite Ha in H7'. split; try done. cbn. rewrite Ha. destruct tail; [done|by left].
Qed.

(** What an active log gives. *)
Lemma active_parts cfg l ss tail ino w :
  log_inv cfg l ss tail -> l_active l = Some (ino, w) ->
  exists n fl bu t, tail = Some (fl ++ bu, n) /\ is_u64 t /\ w_header w = seg_header (length ss) (length (concat ss)) t /\
    writer_inv w fl bu (Some n) /\ exact w /\ l_active_id l = Z.of_nat (length ss) /\ l_pending_roll l = None.
Proof.
  intros Hi Ha. pose proof (li_active _ _ _ _ Hi) as H7'. rewrite Ha in H7'. destruct tail as [[E n]|]; [|done].
  destruct H7' as (fl & bu & t & -> & Ht & Hh & Hw & He & Hid & Hp & _). by exists n, fl, bu, t.
Qed.

Lemma log_ok_meters cfg l A c tk m : log_ok cfg l A c tk -> log_ok cfg (with_meters l m) A c tk.
Proof. intros (ss & tail & Hi & Hr). exists ss, tail. split; [by apply log_inv_meters|exact Hr]. Qed.

(** *** Starting a deferred segment *)

Lemma ensure_writable_ok cfg l ev A c tk : log_ok cfg l A c tk -> env_ok ev -> keeps cfg A c tk (ensure_writable l ev).
Proof.
  intros (ss & tail & Hi & HA & Hc & Ht) Hev. unfold ensure_writable. destruct (l_pending_roll l) as [p|] eqn:Hp; [|by exists ss, tail].
  pose proof (li_active _ _ _ _ Hi) as H7'. destruct (l_active l) as [[ino w]|] eqn:Ha.
  { destruct tail as [[E n]|]; [|done]. destruct H7' as (fl & bu & t & _ & _ & _ & _ & _ & _ & Hp' & _). congruence. }
  destruct tail as [[E n]|]; [congruence|]. destruct H7' as [H7'|H7']; [congruence|]. rewrite Hp in H7'. injection H7' as ->.
  cbn [pr_id pr_base_seq pr_base_offset]. pose proof (create_or_defer_inv cfg l ss ev (inv_between _ _ _ Hi) Hev) as Hs.
  unfold durable_count in Hc. cbn [tail_confirmed tail_entries] in *.
  assert (Htk : forall l' tail', from_option (ticket_ok l' ss tail') True tk).
  { intros l' tail'. destruct tk as [t|]; [|done]. apply ticket_sealed. cbn in Ht. unfold ticket_ok in Ht. by rewrite Ha in Ht. }
  destruct (create_or_defer_segment _ _ _ _ _) as [l' [[]|e|]]; [| |done].
  - exists ss, (Some ([], 0%nat)). split; [apply Hs|done].
  - exists ss, None. split; [apply Hs|done].
Qed.

(** *** Sealing *)

Lemma splice_end (l buf : list Z) : splice l (length l) buf = l ++ buf.
Proof.
  rewrite <- (take_ge (splice l (length l) buf) (length l + length buf)) by (rewrite length_splice; lia).
  rewrite splice_at by lia. by rewrite take_ge.
Qed.

Lemma tail_body_full E ft : tail_body E ft (length (frames E) + 32) = frames E ++ footer_encode ft.
Proof. unfold tail_body. apply take_ge. rewrite length_app, length_footer_encode. unfold SEGMENT_FOOTER_LEN. lia. Qed.

(** Sealing leaves the tail, with all or none of the footer, or a sealed segment. *)
Lemma seal_tail w fl bu n i b t :
  writer_inv w fl bu (Some n) -> exact w -> is_u64 t -> w_header w = seg_header i b t -> fl ++ bu <> [] ->
  match seal w with
  | (f, Ok _) => q_ok f /\ tail_file f i b (fl ++ bu) n /\ sealed_file f i b (fl ++ bu)
  | (f, Err _) => q_ok f /\ tail_file f i b (fl ++ bu) n
  | (_, Panic) => False
  end.
Proof.
  intros Hi He Ht Hh Hne. unfold seal. pose proof (flush_pending_inv _ _ _ _ Hi) as Hf. pose proof (flush_header w) as Hfh.
  pose proof (flush_keeps_exact _ _ _ _ Hi He) as Hfe. rewrite Hh in Hfh.
  destruct (flush_pending w) as [w1 [[]|e|]]; cbn [fst] in *; [| |done].
  2: { destruct Hf as [Hf _]. split; [apply Hfe|]. by eapply exact_tail. }
  destruct Hf as [Hf _]. pose proof (exact_live _ _ _ _ Hf Hfe) as Hl. pose proof (exact_tail _ _ _ _ _ _ _ Hf Hfe Hfh Ht) as Htl.
  rewrite app_nil_r in Htl. set (E := fl ++ bu) in *. destruct Hfe as (Hq & Hlen & Hpre).
  pose proof (wi_pos _ _ _ _ Hf) as Hpos. cbn in Hpos. rewrite Z.add_0_r in Hpos.
  assert (Hft : mk_footer (sh_segment_id (w_header w1)) (w_last_seq w1) (w_record_count w1) = seal_footer (seg_header i b t) E).
  { unfold seal_footer. rewrite (wi_last _ _ _ _ Hf), (proj1 (wi_count _ _ _ _ Hf)), Hfh, app_nil_r. done. }
  rewrite Hft. clear Hft. set (ft := seal_footer _ _). rewrite Hfh in Hl.
  destruct (write_all_at (w_file w1) (footer_encode ft) (Z.to_nat (w_write_pos w1))) as [f1 ok] eqn:Hw.
  destruct (q_write _ _ _ _ _ Hq Hw) as (Hq1 & Hl1 & Hd1).
  assert (Htail : forall f, f_live f = header_encode (seg_header i b t) ++ tail_body E ft (length (frames E) + 32) ->
    f_durable (w_file w1) `prefix_of` f_durable f -> f_durable f `prefix_of` f_live f -> tail_file f i b E n).
  { intros f Hlf Hdf Hpf. destruct Htl as (_ & _ & _ & _ & _ & _ & _ & Hn & Hnd). exists t, (length (frames E) + 32)%nat.
    apply prefix_length in Hdf. split_and!; try done; lia. }
  destruct ok.
  2: { split; [done|]. destruct Htl as (t' & k & ? & ? & ? & Hlk & Hpk & ? & ?). exists t', k. rewrite Hl1, Hd1. done. }
  rewrite Hpos, <- Hlen, Nat2Z.id, splice_end in Hl1.
  assert (Hl2 : f_live f1 = header_encode (seg_header i b t) ++ tail_body E ft (length (frames E) + 32)).
  { rewrite Hl1, Hl, tail_body_full, <- app_assoc. done. }
  assert (Hp1 : f_durable f1 `prefix_of` f_live f1) by (rewrite Hd1, Hl1; by apply prefix_app_r).
  destruct (checked_add64 (w_write_pos w1) (Z.of_nat SEGMENT_FOOTER_LEN)) as [fin|] eqn:Hfin.
  2: { split; [done|]. apply Htail; [done|by rewrite Hd1|done]. }
  apply checked_add64_Some in Hfin as [Hfin _].
  assert (Hnocut : (fin <? Z.of_nat (length (f_live f1))) = false).
  { apply Z.ltb_ge. rewrite Hl1, length_app, length_footer_encode. lia. }
  rewrite Hnocut. destruct (sync_all f1) as [f2 ok] eqn:Hsy. destruct (q_sync_all _ _ _ Hq1 Hsy) as (Hq2 & Hlv & Hdv).
  destruct ok.
  - split; [done|]. split; [apply Htail|].
    + by rewrite Hlv.
    + rewrite Hdv, Hl1. by apply prefix_app_r.
    + by rewrite Hlv, Hdv.
    + exists t. rewrite Hdv, Hlv, Hl2, tail_body_full. done.
  - split; [done|]. apply Htail; [by rewrite Hlv|by rewrite Hdv, Hd1|by rewrite Hdv, Hlv].
Qed.

(** *** Rolling *)

Lemma close_last_slot_ids segments n ts : sl_id <$> close_last_slot segments n ts = sl_id <$> segments.
Proof.
  unfold close_last_slot. destruct (last segments) as [s|] eqn:Hl; [|done]. apply last_Some in Hl as [init ->].
  rewrite length_app. cbn [length]. rewrite Nat.add_sub, take_app_length, !fmap_app. done.
Qed.

Lemma close_last_slot_bound segments n ts z :
  Forall (fun s => sl_id s <= z) segments -> Forall (fun s => sl_id s <= z) (close_last_slot segments n ts).
Proof.
  intros Hf. apply (Forall_fmap sl_id (fun i => i <= z)). rewrite close_last_slot_ids. by apply Forall_fmap.
Qed.

Lemma highest_slot segments z : Forall (fun s => sl_id s <= z) segments -> foldr (fun s m => Z.max (sl_id s) m) z segments = z.
Proof. induction 1 as [|s segments Hs _ IH]; [done|]. cbn. rewrite IH. lia. Qed.

(** After a seal, all of the log is durable and waits for its next segment. *)
Lemma sealed_between cfg l l' ss E n ino f :
  log_inv cfg l ss (Some (E, n)) -> (exists w, l_active l = Some (ino, w)) -> E <> [] -> q_ok f ->
  tail_file f (length ss) (length (concat ss)) E n -> sealed_file f (length ss) (length (concat ss)) E ->
  l_dir l' = put_file (l_dir l) ino f -> l_config l' = l_config l -> l_next_offset l' = l_next_offset l -> l_next_seq l' = l_next_seq l ->
  l_synced_offset l' = l_next_offset l -> l_active_id l' = l_active_id l -> l_active l' = None ->
  (exists k ts, l_segments l' = close_last_slot (l_segments l) k ts) -> between cfg l' (ss ++ [E]).
Proof.
  intros Hi [w Ha] HE Hq Ht Hs Hd Hc Hn Hns Hsy Hid Ha' (k & ts & Hsl).
  pose proof Hi as [H1' H2' H3' [H4a H4b] H5' [H6a H6b] H7']. rewrite Ha in H7'. destruct H7' as (_ & _ & _ & _ & _ & _ & _ & _ & _ & _ & Hl).
  assert (Hdk : disk_ok (l_dir l') ss (Some (E, n))).
  { rewrite Hd. unfold log_disk in H1'. rewrite Ha in H1'.
    rewrite <- (put_file_twice _ _ (w_file w)).
    eapply disk_put_tail; [exact H1'|done|done|done]. }
  cbn [tail_entries] in *. split.
  - eapply (disk_seal _ ss E n ino f); [done| |done]. pose proof (dk_tail _ _ _ Hdk) as (ino' & f' & (He1 & He2 & He3 & He4) & _).
    rewrite Hd in He1. cbn in He1. rewrite Hl in He1. injection He1 as <-. split; [by rewrite Hd|]. split; [done|].
    split; [|done]. rewrite Hd. cbn. by rewrite lookup_insert_eq.
  - by eapply content_sealed_tail.
  - congruence.
  - by rewrite Hn, Hns, concat_snoc.
  - rewrite Hsy, H4a, concat_snoc. lia.
  - rewrite Hsl, Hid, length_app. split; [by apply close_last_slot_bound|lia].
  - done.
Qed.

Lemma roll_ok cfg l ev A c tk :
  log_ok cfg l A c tk -> env_ok ev -> (forall ino w, l_active l = Some (ino, w) -> 0 < w_record_count w) ->
  keeps cfg A c tk (roll l ev).
Proof.
  intros (ss & tail & Hi & HA & Hc & Htk) Hev Hcnt. unfold roll, next_fresh_segment_id. pose proof (li_slots _ _ _ _ Hi) as [Hsl _].
  rewrite highest_slot by done. destruct (checked_add64 (l_active_id l) 1) as [next|] eqn:Hnext; [|by exists ss, tail].
  destruct (l_active l) as [[ino w]|] eqn:Ha; [|by exists ss, tail].
  destruct (active_parts _ _ _ _ _ _ Hi Ha) as (n & fl & bu & t & -> & Ht & Hh & Hw & He & Hid & Hp).
  apply checked_add64_Some in Hnext as [-> Hmax]. specialize (Hcnt ino w eq_refl).
  assert (HE : fl ++ bu <> []) by (intros HE; rewrite (proj1 (wi_count _ _ _ _ Hw)), HE in Hcnt; cbn in Hcnt; lia).
  pose proof (seal_tail w fl bu n _ _ t Hw He Ht Hh HE) as Hse. destruct (seal w) as [f [ft|e|]]; [| |done].
  - destruct Hse as (Hq & Htf & Hsf). set (l1 := with_meters _ _).
    assert (Hb : between cfg l1 (ss ++ [fl ++ bu])).
    { eapply (sealed_between cfg l l1 ss (fl ++ bu) n ino f); try done; [by eexists|by do 2 eexists]. }
    pose proof (create_or_defer_inv cfg l1 _ ev Hb Hev) as Hcr.
    replace (Z.of_nat (length (ss ++ [fl ++ bu]))) with (l_active_id l + 1) in Hcr by (rewrite length_app; cbn [length]; lia).
    cbn [tail_entries] in HA. unfold durable_count in Hc. cbn [tail_confirmed] in Hc.
    pose proof (proj1 (wi_durable _ _ _ _ Hw)) as Hn.
    change (l_next_seq l1) with (l_next_seq l) in Hcr. change (l_next_offset l1) with (l_next_offset l) in Hcr.
    assert (Hcon : length (concat (ss ++ [fl ++ bu])) = (length (concat ss) + length (fl ++ bu))%nat) by (rewrite concat_snoc; apply length_app).
    assert (Htk' : forall l' tail', from_option (ticket_ok l' (ss ++ [fl ++ bu]) tail') True tk).
    { intros l' tail'. destruct tk as [k|]; [|done]. apply ticket_sealed. cbn in Htk. unfold ticket_ok in Htk. rewrite Ha, length_app in Htk. lia. }
    destruct (create_or_defer_segment _ _ _ _ _) as [l' [[]|e|]]; [| |done].
    + exists (ss ++ [fl ++ bu]), (Some ([], 0%nat)). split; [apply Hcr|]. unfold durable_count. cbn [tail_entries tail_confirmed].
      rewrite app_nil_r, Hcon. rewrite length_app in *. rewrite concat_snoc. split; [done|]. split; [lia|done].
    + exists (ss ++ [fl ++ bu]), None. split; [apply Hcr|]. unfold durable_count. cbn [tail_entries tail_confirmed].
      rewrite app_nil_r, Hcon. rewrite length_app in *. rewrite concat_snoc. split; [done|]. split; [lia|done].
  - destruct Hse as (Hq & Htf). exists ss, (Some (fl ++ bu, n)). split; [|split; [done|split; [done|by destruct tk]]].
    destruct Hi as [H1' H2' H3' H4' H5' [H6a H6b] H7']. split; try done.
    + unfold log_disk in *. cbn. rewrite Ha in *. destruct H7' as (_ & _ & _ & _ & _ & _ & _ & _ & _ & _ & Hl).
      rewrite <- (put_file_twice _ _ (w_file w)). eapply disk_put_tail; done.
    + split; [by apply close_last_slot_bound|done].
Qed.

(** *** Appending *)

(** A source writes the frame of one entry, or is refused. *)
Definition source_writes (cfg : LogConfig) (source : AppendSource) (seq : Z) (e : Entry) : Prop :=
  entry_seq e = seq /\ Z.of_nat (entry_len e) <= loss_cap cfg /\
  forall (w : SegmentWriter F) fl bu c, writer_inv w fl bu c ->
    write_source w source seq = (w, Err SegmentFull) \/
    entry_ok e /\ w_record_count w < u32_max /\ sh_base_offset (w_header w) + w_record_count w <= u64_max /\
    write_source w source seq =
      append_grown w (w_pending w ++ entry_frame e) (entry_seq e) (entry_time e)
        (sat_add64 (sh_base_offset (w_header w)) (Z.of_nat (length (fl ++ bu)))).

Lemma encode_source_writes cfg record subject tag pre seq :
  encodable (view_of record seq) subject tag ->
  Z.of_nat (entry_len (entry_of (view_of record seq) subject tag)) <= loss_cap cfg ->
  source_writes cfg (SrcEncode record (checksums_for (view_of record seq) pre) subject tag) seq (entry_of (view_of record seq) subject tag).
Proof.
  intros Hen Hsz. split; [done|]. split; [done|]. intros w fl bu c Hw.
  assert (Hs : write_source w (SrcEncode record (checksums_for (view_of record seq) pre) subject tag) seq =
    append_encoded w (view_of record seq) subject tag (checksums_for (view_of record seq) pre)).
  { destruct Hen as (_ & _ & _ & Hst). unfold write_source, checksums_for. destruct tag as [|z tag], pre; try (destruct subject; done).
    all: by destruct Hst as [-> |]. }
  rewrite Hs. exact (append_cases w fl bu c _ subject tag pre Hw Hen).
Qed.

Lemma verbatim_source_writes cfg e :
  entry_ok e -> Z.of_nat (entry_len e) <= loss_cap cfg ->
  source_writes cfg (SrcVerbatim (entry_frame e) (fst (fst e))) (entry_seq e) e.
Proof.
  intros Hok Hsz. split; [done|]. split; [done|]. intros w fl bu c Hw. cbn [write_source]. unfold append_verbatim.
  pose proof (wi_count _ _ _ _ Hw) as [Hcnt Hmax].
  destruct (Z.eqb_spec (w_record_count w) u32_max) as [|Hc]; [by left|].
  unfold checked_add. destruct (Z.leb_spec (sh_base_offset (w_header w) + w_record_count w) u64_max) as [Ho|]; [|by left].
  right. split; [done|]. split; [lia|]. split; [done|]. rewrite <- Hcnt.
  replace (sat_add64 (sh_base_offset (w_header w)) (w_record_count w))
    with (sh_base_offset (w_header w) + w_record_count w) by (unfold sat_add; lia). by destruct e as [[rec sb] tg].
Qed.

Lemma append_grown_exact w fl bu c e offset :
  writer_inv w fl bu c -> exact w -> entry_ok e -> w_record_count w < u32_max ->
  sh_base_offset (w_header w) + w_record_count w <= u64_max ->
  exact (fst (append_grown w (w_pending w ++ entry_frame e) (entry_seq e) (entry_time e) offset)).
Proof.
  intros Hi He Hok Hc Ho. unfold append_grown. rewrite length_app, length_entry_frame.
  replace (length (w_pending w) + entry_len e - length (w_pending w))%nat with (entry_len e) by lia.
  rewrite (write_pos_bound _ _ _ _ _ Hi Hok Hc). pose proof (grown_inv _ _ _ _ _ Hi Hok Hc Ho) as Hi1.
  set (w1 := with_buffer w _ _) in *.
  assert (Hx : exact (fst (flush_pending w1))).
  { pose proof (flush_keeps_exact _ _ _ _ Hi1 He) as Hf. rewrite flush_pending_count in Hf. exact Hf. }
  case_match; [|exact He]. destruct (flush_pending w1) as [w2 [| |]]; exact Hx.
Qed.

Lemma content_append cfg ss E n n' e :
  content_ok cfg ss (Some (E, n)) -> entry_ok e -> entry_seq e = Z.of_nat (length (concat ss ++ E)) ->
  entry_seq e + 1 <= u64_max -> Z.of_nat (entry_len e) <= loss_cap cfg -> Z.of_nat (length E) + 1 <= u32_max ->
  content_ok cfg ss (Some (E ++ [e], n')).
Proof.
  intros [H1' H2' H3' H4' H5' H6'] Hok Hseq Hmax Hsz Hcnt. cbn [tail_entries] in *.
  split; cbn [tail_entries]; rewrite ?app_assoc; try done.
  - apply Forall_app. split; [done|by constructor].
  - apply dense_app. split; [done|]. intros [|i] e' Hi; [|done]. injection Hi as <-. lia.
  - rewrite length_app. cbn [length]. lia.
  - apply Forall_app in H4' as [H4' _]. apply Forall_app. split; [done|]. constructor; [|constructor]. rewrite length_app. cbn [length]. lia.
  - apply Forall_app. split; [done|by constructor].
Qed.

Lemma flush_base_mono w fl bu c : writer_inv w fl bu c -> w_pending_base w <= w_pending_base (fst (flush_pending w)).
Proof.
  intros Hi. unfold flush_pending. destruct (w_pending w); [done|]. destruct (write_all_at _ _ _) as [f []]; cbn; [|done].
  rewrite (wi_pos _ _ _ _ Hi). lia.
Qed.

Lemma append_base_mono w fl bu c e offset :
  writer_inv w fl bu c -> entry_ok e -> w_record_count w < u32_max -> sh_base_offset (w_header w) + w_record_count w <= u64_max ->
  w_pending_base w <= w_pending_base (fst (append_grown w (w_pending w ++ entry_frame e) (entry_seq e) (entry_time e) offset)).
Proof.
  intros Hi Hok Hc Ho. unfold append_grown. rewrite length_app, length_entry_frame.
  replace (length (w_pending w) + entry_len e - length (w_pending w))%nat with (entry_len e) by lia.
  rewrite (write_pos_bound _ _ _ _ _ Hi Hok Hc). pose proof (grown_inv _ _ _ _ _ Hi Hok Hc Ho) as Hi1.
  set (w1 := with_buffer w _ _) in *. pose proof (flush_base_mono _ _ _ _ Hi1) as Hm. rewrite flush_pending_count in Hm. cbn in Hm.
  case_match; [|cbn; lia]. destruct (flush_pending w1) as [w2 [| |]]; exact Hm.
Qed.

(** A ticket stays covered while the active segment grows. *)
Lemma ticket_grows l l' ss E E' n n' ino w w' tk :
  l_active l = Some (ino, w) -> l_active l' = Some (ino, w') -> E `prefix_of` E' -> w_pending_base w <= w_pending_base w' ->
  from_option (ticket_ok l ss (Some (E, n))) True tk -> from_option (ticket_ok l' ss (Some (E', n'))) True tk.
Proof.
  intros Ha Ha' [rest ->] Hb. destruct tk as [t|]; [|done]. cbn. unfold ticket_ok. rewrite Ha, Ha'.
  intros [Ht|(Hs & Ht & Hf)]; [by left|right]. rewrite app_assoc, (length_app _ rest). split; [done|]. split; [lia|].
  rewrite length_app in Ht. rewrite take_app_le by lia. lia.
Qed.

Lemma append_active_ok cfg l ev source A c tk e :
  log_ok cfg l A c tk -> source_writes cfg source (Z.of_nat (length A)) e ->
  match append_active l ev source with
  | (l', Ok off) => log_ok cfg l' (A ++ [e]) c tk /\ off = Z.of_nat (length A)
  | (l', Err _) => log_ok cfg l' A c tk
  | (_, Panic) => False
  end.
Proof.
  intros (ss & tail & Hi & HA & Hc & Htk) (Hseq & Hsz & Hsrc). pose proof (li_next _ _ _ _ Hi) as [Hn Hns]. rewrite HA in Hn.
  assert (Hsame : log_ok cfg l A c tk) by (by exists ss, tail). unfold append_active, checked_next. rewrite Hns.
  destruct (checked_add64 (l_next_offset l) 1) as [next|] eqn:Hnext; [|done]. apply checked_add64_Some in Hnext as [-> Hmax].
  destruct (l_active l) as [[ino w]|] eqn:Ha; [|done].
  destruct (active_parts _ _ _ _ _ _ Hi Ha) as (n & fl & bu & t & -> & Ht & Hh & Hw & He & Hid & Hp).
  cbn [tail_entries] in HA. rewrite Hn. destruct (Hsrc w fl bu _ Hw) as [-> | (Hok & Hcnt & Hoff & ->)].
  { exists ss, (Some (fl ++ bu, n)). split; [by eapply (active_step cfg l _ ss _ n ino w w fl bu n); try apply Hi|].
    split; [done|]. split; [done|]. by eapply (ticket_grows l _ ss _ _ n n ino w w). }
  set (offset := sat_add64 _ _). pose proof (append_grown_inv w fl bu (Some n) e offset Hw Hok Hcnt Hoff) as Hg.
  pose proof (append_grown_exact w fl bu (Some n) e offset Hw He Hok Hcnt Hoff) as Hx.
  pose proof (append_base_mono w fl bu (Some n) e offset Hw Hok Hcnt Hoff) as Hm.
  pose proof (append_grown_header w (w_pending w ++ entry_frame e) (entry_seq e) (entry_time e) offset) as Hhd.
  pose proof (li_synced _ _ _ _ Hi) as Hsy. pose proof (li_content _ _ _ _ Hi) as Hco.
  destruct (append_grown _ _ _ _ _) as [w' [off|err|]]; cbn [fst] in *; [| |done].
  - destruct Hg as (-> & fl' & bu' & Hw' & Hfb). split.
    + exists ss, (Some (fl' ++ bu', n)). split; [|split; [cbn [tail_entries]; by rewrite Hfb, <- HA, !app_assoc|split; [done|]]].
      * eapply (active_step cfg l _ ss _ n ino w w' fl' bu' n); try done.
        -- rewrite Hfb. pose proof (wi_count _ _ _ _ Hw) as [Hcn _].
           eapply content_append; [exact Hco|done|by rewrite Hseq, <- HA|rewrite Hseq; lia|done|lia].
        -- cbn. rewrite Hfb, app_assoc, HA, length_app. cbn [length]. lia.
      * eapply (ticket_grows l _ ss (fl ++ bu) _ n n ino w w'); try done. rewrite Hfb. by apply prefix_app_r.
    + unfold offset. rewrite Hh. cbn [sh_base_offset seg_header segment_header].
      assert (Hlen : length A = (length (concat ss) + length (fl ++ bu))%nat) by (rewrite <- HA; apply length_app). unfold sat_add. lia.
  - exists ss, (Some (fl ++ bu, n)). split; [eapply (active_step cfg l _ ss _ n ino w w' fl bu n); try done; apply Hi|].
    split; [done|]. split; [done|]. by eapply (ticket_grows l _ ss _ _ n n ino w w').
Qed.

Lemma append_inner_ok cfg l ev source allow_roll A c tk e :
  log_ok cfg l A c tk -> env_ok ev -> source_writes cfg source (Z.of_nat (length A)) e ->
  match append_inner l ev source allow_roll with
  | (l', Ok off) => log_ok cfg l' (A ++ [e]) c tk /\ off = Z.of_nat (length A)
  | (l', Err _) => log_ok cfg l' A c tk
  | (_, Panic) => False
  end.
Proof.
  intros Hl Hev Hs. unfold append_inner. cbv zeta. destruct (_ && _ && _); [done|]. set (l1 := if negb _ then with_meters l _ else l).
  assert (Hl1 : log_ok cfg l1 A c tk) by (unfold l1; destruct (negb _); [by apply log_ok_meters|done]). clearbody l1.
  destruct (_ && _ && _); [by apply log_ok_meters|]. pose proof (ensure_writable_ok cfg l1 ev A c tk Hl1 Hev) as He.
  destruct (ensure_writable l1 ev) as [l2 [[]|err|]]; cbn [keeps] in He; [|done|done].
  destruct (l_active l2) as [[ino w]|] eqn:Ha; [|done]. destruct (_ && _ && _) eqn:Hroll; [|by apply append_active_ok].
  apply andb_true_iff in Hroll as [_ Hpos%Z.ltb_lt].
  assert (Hr : keeps cfg A c tk (roll l2 ev)) by (apply roll_ok; [done|done|]; intros ino' w'; rewrite Ha; by intros [= <- <-]).
  destruct (roll l2 ev) as [l3 [[]|err|]]; cbn [keeps] in Hr; [by apply append_active_ok|done|done].
Qed.

Lemma seal_active_segment_ok cfg l ev A c tk : log_ok cfg l A c tk -> env_ok ev -> keeps cfg A c tk (seal_active_segment l ev).
Proof.
  intros Hl Hev. unfold seal_active_segment. pose proof (ensure_writable_ok cfg l ev A c tk Hl Hev) as He.
  destruct (ensure_writable l ev) as [l1 [[]|err|]]; [|done|done]. cbn [keeps] in He.
  destruct (l_active l1) as [[ino w]|] eqn:Ha; [|done]. destruct (Z.eqb_spec (w_record_count w) 0) as [|Hne]; [done|].
  apply roll_ok; [done|done|]. intros ino' w'. rewrite Ha. intros [= <- <-].
  destruct He as (ss & tail & Hi & _). destruct (active_parts _ _ _ _ _ _ Hi Ha) as (n & fl & bu & t & _ & _ & _ & Hw & _).
  pose proof (proj1 (wi_count _ _ _ _ Hw)). lia.
Qed.

(** *** Syncing *)

Lemma content_confirmed cfg ss E n n' : content_ok cfg ss (Some (E, n)) -> content_ok cfg ss (Some (E, n')).
Proof. intros [H1' H2' H3' H4' H5' H6']. by split. Qed.

(** A writer that failed to reach the disk is dropped. *)
Lemma frozen_ok cfg l A c tk ss n ino w w' fl bu :
  log_inv cfg l ss (Some (fl ++ bu, n)) -> l_active l = Some (ino, w) -> concat ss ++ fl ++ bu = A -> (c <= length (concat ss) + n)%nat ->
  (exists fl' bu', writer_inv w' fl' bu' (Some n) /\ fl' ++ bu' = fl ++ bu) -> exact w' -> w_header w' = w_header w ->
  let l' := drop_active (with_active l (Some (ino, w'))) in log_ok cfg l' A c tk /\ log_ok cfg (with_pending l' None) A c tk.
Proof.
  intros Hi Ha HA Hc (fl' & bu' & Hw' & Hfb) He Hh l'. rewrite <- Hfb in *.
  assert (Hl' : log_inv cfg l' ss (Some (fl' ++ bu', n))).
  { apply drop_inv; [|done]. eapply (active_step cfg l _ ss _ n ino w w' fl' bu' n); try done; apply Hi. }
  split; exists ss, (Some (fl' ++ bu', n)); (split; [|split; [done|split; [done|by destruct tk]]]); [done|by apply pending_none_inv].
Qed.

Lemma sync_base_mono w fl bu c : writer_inv w fl bu c -> w_pending_base w <= w_pending_base (fst (writer_sync w)).
Proof.
  intros Hi. unfold writer_sync. pose proof (flush_base_mono _ _ _ _ Hi) as Hm. destruct (flush_pending w) as [w1 [| |]]; try exact Hm.
  by destruct (sync_data _).
Qed.

Lemma log_sync_ok cfg l ev A c tk :
  log_ok cfg l A c tk -> env_ok ev ->
  keeps cfg A c tk (log_sync l ev) /\ (snd (log_sync l ev) = Ok tt -> l_synced_offset (fst (log_sync l ev)) = Z.of_nat (length A)).
Proof.
  intros Hl Hev. unfold log_sync. pose proof (ensure_writable_ok cfg l ev A c tk Hl Hev) as He.
  destruct (ensure_writable l ev) as [l1 [[]|err|]]; [|done|done]. cbn [keeps] in He.
  destruct (l_active l1) as [[ino w]|] eqn:Ha; [|done]. destruct He as (ss & tail & Hi & HA & Hc & Htk).
  destruct (active_parts _ _ _ _ _ _ Hi Ha) as (n & fl & bu & t & -> & Ht & Hh & Hw & Hx & Hid & Hp). cbn [tail_entries] in HA.
  pose proof (sync_inv _ _ _ _ Hw) as Hs. pose proof (sync_keeps_exact _ _ _ _ Hw Hx) as Hse. pose proof (sync_header w) as Hsh.
  pose proof (sync_base_mono _ _ _ _ Hw) as Hm. pose proof (li_next _ _ _ _ Hi) as [Hn Hns]. cbn [tail_entries] in Hn.
  destruct (writer_sync w) as [w' [[]|err|]]; cbn [fst] in *; [| |done].
  - split; [|intros _; cbn; by rewrite Hn, HA]. exists ss, (Some ((fl ++ bu) ++ [], length (fl ++ bu))).
    assert (Hnl : (n <= length fl)%nat) by (apply (wi_durable _ _ _ _ Hw)).
    split; [|split; [cbn; by rewrite app_nil_r|split]].
    + eapply (active_step cfg l1 _ ss _ n ino w w' (fl ++ bu) [] _); try done.
      * rewrite app_nil_r. eapply content_confirmed, Hi.
      * cbn. by rewrite app_nil_r.
      * cbn. rewrite Hn, length_app. lia.
    + unfold durable_count in *. cbn in *. rewrite length_app. lia.
    + rewrite app_nil_r. by eapply (ticket_grows l1 _ ss _ _ n _ ino w w').
  - split; [|done]. by eapply (frozen_ok cfg l1 A c tk ss n ino w w' fl bu).
Qed.

Lemma flush_no_sync_ok cfg l ev A c tk : log_ok cfg l A c tk -> env_ok ev -> keeps cfg A c tk (flush_no_sync l ev).
Proof.
  intros Hl Hev. unfold flush_no_sync. pose proof (ensure_writable_ok cfg l ev A c tk Hl Hev) as He.
  destruct (ensure_writable l ev) as [l1 [[]|err|]]; [|done|done]. cbn [keeps] in He.
  destruct (l_active l1) as [[ino w]|] eqn:Ha; [|done]. destruct He as (ss & tail & Hi & HA & Hc & Htk).
  destruct (active_parts _ _ _ _ _ _ Hi Ha) as (n & fl & bu & t & -> & Ht & Hh & Hw & Hx & Hid & Hp). cbn [tail_entries] in HA.
  pose proof (flush_pending_inv _ _ _ _ Hw) as Hs. pose proof (flush_keeps_exact _ _ _ _ Hw Hx) as Hse. pose proof (flush_header w) as Hsh.
  pose proof (flush_base_mono _ _ _ _ Hw) as Hm. pose proof (li_next _ _ _ _ Hi) as [Hn Hns]. cbn [tail_entries] in Hn.
  destruct (flush_pending w) as [w' [[]|err|]]; cbn [fst] in *; [| |done]; destruct Hs as [Hs _].
  - exists ss, (Some ((fl ++ bu) ++ [], n)). split; [|split; [cbn; by rewrite app_nil_r|split; [done|]]].
    + eapply (active_step cfg l1 _ ss _ n ino w w' (fl ++ bu) [] n); try done; [rewrite app_nil_r; apply Hi|cbn; by rewrite app_nil_r|apply Hi].
    + rewrite app_nil_r. by eapply (ticket_grows l1 _ ss _ _ n _ ino w w').
  - eapply (frozen_ok cfg l1 A c tk ss n ino w w' fl bu); eauto.
Qed.

(** *** Staged syncs *)

Lemma prepare_async_sync_ok cfg l ev A c tk :
  log_ok cfg l A c tk -> env_ok ev ->
  match prepare_async_sync l ev with
  | (l', Ok (Some t)) => log_ok cfg l' A c (Some t)
  | (l', Ok None) | (l', Err _) => log_ok cfg l' A c tk
  | (_, Panic) => False
  end.
Proof.
  intros Hl Hev. unfold prepare_async_sync. pose proof (ensure_writable_ok cfg l ev A c tk Hl Hev) as He.
  destruct (ensure_writable l ev) as [l1 [[]|err|]]; [|done|done]. cbn [keeps] in He.
  destruct (l_active l1) as [[ino w]|] eqn:Ha; [|done]. destruct (negb _); [done|]. destruct He as (ss & tail & Hi & HA & Hc & Htk).
  destruct (active_parts _ _ _ _ _ _ Hi Ha) as (n & fl & bu & t & -> & Ht & Hh & Hw & Hx & Hid & Hp). cbn [tail_entries] in HA.
  pose proof (flush_pending_inv _ _ _ _ Hw) as Hs. pose proof (flush_keeps_exact _ _ _ _ Hw Hx) as Hse. pose proof (flush_header w) as Hsh.
  pose proof (li_next _ _ _ _ Hi) as [Hn Hns]. cbn [tail_entries] in Hn.
  destruct (flush_pending w) as [w' [[]|err|]]; cbn [fst] in *; [| |done]; destruct Hs as [Hs _].
  - exists ss, (Some ((fl ++ bu) ++ [], n)). split; [|split; [cbn; by rewrite app_nil_r|split; [done|]]].
    + eapply (active_step cfg l1 _ ss _ n ino w w' (fl ++ bu) [] n); try done; [rewrite app_nil_r; apply Hi|cbn; by rewrite app_nil_r|apply Hi].
    + cbn. right. rewrite app_nil_r, (wi_base _ _ _ _ Hs), Hn. split; [done|]. split; [done|]. rewrite Nat2Z.id, length_app.
      rewrite take_ge by lia. done.
  - eapply (frozen_ok cfg l1 A c tk ss n ino w w' fl bu); eauto.
Qed.

(** What the syncing thread does with a ticket. *)
Definition finish_async_sync (l : Log F) (t : SyncTicket) : Log F :=
  match external_sync l t with
  | (l, true) => complete_async_sync l t
  | (l, false) => freeze_after_external_sync_failure l
  end.

Lemma sync_only_inv w fl bu n f ok :
  writer_inv w fl bu (Some n) -> exact w -> sync_data (w_file w) = (f, ok) ->
  writer_inv (with_file w f (w_pending w) (w_pending_base w)) fl bu (Some (if ok then length fl else n)).
Proof.
  intros Hi He Hs. pose proof (exact_live _ _ _ _ Hi He) as Hlv. destruct He as (Hq & Hl & Hd). destruct (q_sync_data _ _ _ Hq Hs) as (Hq' & Hl' & Hd').
  destruct Hi as [Hso Hh Hok Hlive Hbase Hpend Hpos Hcnt Hlast Htime Hoff Hdur].
  split; cbn [w_file w_header w_write_pos w_record_count w_last_seq w_max_timestamp_ms w_pending w_pending_base with_file]; try done.
  - by apply q_sound.
  - by rewrite Hl'.
  - rewrite Hd'. destruct ok; [|done]. split; [lia|]. rewrite take_ge by lia. rewrite Hlv. by apply prefix_app_r.
Qed.

Lemma frames_take_short E fl bu m :
  E = fl ++ bu -> (m <= length E)%nat -> (length (frames (take m E)) <= length (frames fl))%nat -> (m <= length fl)%nat.
Proof.
  intros -> Hm Hf. destruct (decide (m <= length fl)%nat) as [|Hgt]; [done|]. rewrite take_app_ge in Hf by lia. rewrite length_app in Hm.
  destruct bu as [|e bu]; [cbn in Hm; lia|]. destruct (m - length fl)%nat as [|k] eqn:Hk; [lia|]. cbn [take] in Hf.
  rewrite frames_app, frames_cons, !length_app, length_entry_frame in Hf. pose proof (entry_len_pos e). lia.
Qed.

(** Completing a staged sync moves the head no further than what is durable. *)
Lemma complete_ok cfg l A c ss tail t :
  log_inv cfg l ss tail -> concat ss ++ tail_entries tail = A -> (c <= durable_count ss tail)%nat ->
  (is_writable l = true -> tk_target t <= Z.of_nat (durable_count ss tail)) -> log_ok cfg (complete_async_sync l t) A c None.
Proof.
  intros Hi HA Hc Ht. unfold complete_async_sync. destruct (is_writable l) eqn:Hw; [|by exists ss, tail].
  cbn [negb orb]. destruct (Z.leb_spec (tk_target t) (l_synced_offset l)) as [|Hlt]; [by exists ss, tail|].
  exists ss, tail. split; [|done]. specialize (Ht ltac:(done)). pose proof (li_synced _ _ _ _ Hi). unfold durable_count in Ht.
  destruct Hi as [H1' H2' H3' H4' H5' H6' H7']. split; try done. cbn. lia.
Qed.

Lemma finish_async_sync_ok cfg l A c t : log_ok cfg l A c (Some t) -> log_ok cfg (finish_async_sync l t) A c None.
Proof.
  intros (ss & tail & Hi & HA & Hc & Htk). cbn in Htk. unfold finish_async_sync, external_sync.
  destruct (l_active l) as [[ino w]|] eqn:Ha.
  2: { eapply complete_ok; [done|done|done|]. pose proof (li_active _ _ _ _ Hi) as Hact. unfold is_writable, ticket_ok, durable_count in *.
       rewrite Ha in *. destruct tail as [[E n]|]; [by rewrite Hact|]. intros _. lia. }
  destruct (active_parts _ _ _ _ _ _ Hi Ha) as (n & fl & bu & tm & -> & Ht & Hh & Hw & Hx & Hid & Hp). unfold ticket_ok in Htk. rewrite Ha in Htk.
  destruct (Z.eqb_spec (l_active_id l) (tk_segment_id t)) as [Heq|Hne].
  2: { eapply complete_ok; [done|done|done|]. intros _. unfold durable_count. destruct Htk as [|(? & _)]; [lia|congruence]. }
  unfold sync_data_only. destruct (sync_data (w_file w)) as [f ok] eqn:Hs. pose proof (sync_only_inv _ _ _ _ _ _ Hw Hx Hs) as Hw'.
  pose proof (sync_file_exact _ _ _ Hx Hs) as Hx'. assert (Hnl : (n <= length fl)%nat) by (apply (wi_durable _ _ _ _ Hw)).
  pose proof (li_next _ _ _ _ Hi) as [Hn Hns]. cbn [tail_entries] in HA, Hn. pose proof (li_synced _ _ _ _ Hi) as Hsy. cbn [tail_confirmed] in Hsy.
  unfold durable_count in Hc. cbn [tail_confirmed] in Hc. destruct ok.
  - eapply (complete_ok cfg _ A c ss (Some (fl ++ bu, length fl))); [|done|unfold durable_count; cbn; lia|].
    + eapply (active_step cfg l _ ss _ n ino w _ fl bu (length fl)); try done; [eapply content_confirmed, Hi|cbn; lia].
    + intros _. unfold durable_count. cbn [tail_confirmed]. destruct Htk as [|(_ & Hle & Hf)]; [lia|].
      rewrite (wi_base _ _ _ _ Hw), length_app in *.
      pose proof (frames_take_short _ fl bu (Z.to_nat (tk_target t) - length (concat ss)) eq_refl ltac:(lia) ltac:(lia)). lia.
  - eapply (frozen_ok cfg l A c None ss n ino w _ fl bu); eauto.
Qed.

(** ** Reading the disk back *)

(** The records of every segment, in the order of the segments. *)
Fixpoint read_segments (d : Dir F) (ids : list Z) : res (list OwnedRecord) StorageError :=
  match ids with
  | [] => Ok []
  | id :: ids =>
      match dir_open d id with
      | None => Err StIo
      | Some (_, f) =>
          let? reader := reader_open (f_live f) in
          let? sc := scan reader in
          let? rest := read_segments d ids in
          Ok (sc_records sc ++ rest)
      end
  end.
Definition log_records (d : Dir F) : res (list OwnedRecord) StorageError := read_segments d (dir_segment_ids d).

Lemma owned_shift b idx E : owned (Z.of_nat b) idx E = owned 0 (b + idx) E.
Proof.
  revert idx. induction E as [|[[rec sb] tg] E IH]; intros idx; [done|]. cbn [owned]. rewrite IH.
  replace (b + S idx)%nat with (S (b + idx)) by lia. f_equal. unfold sat_add. f_equal. f_equal. lia.
Qed.

Lemma read_segment d i ino f b t E ft k ids :
  entry_at d i ino f -> is_u64 t -> Z.of_nat i <= u64_max -> Z.of_nat b <= u64_max ->
  f_live f = header_encode (seg_header i b t) ++ tail_body E ft k -> ft = seal_footer (seg_header i b t) E ->
  (k = length (frames E) \/ k = length (frames E) + 32)%nat -> Forall entry_ok E -> Z.of_nat (length E) <= u32_max ->
  read_segments d (Z.of_nat i :: ids) = let? rest := read_segments d ids in Ok (owned 0 b E ++ rest).
Proof.
  intros (Hl & _ & Hf & _) Ht Hi Hb Hlive -> Hk Hok Hc. cbn [read_segments]. unfold dir_open. rewrite Hl, Hf.
  cbn [fmap option_fmap option_map]. rewrite Hlive, open_image by (by apply seg_header_ok). cbn [res_bind].
  destruct (scan_tail_all (seg_header i b t) (seg_header_ok _ _ _ Hi Hb Ht) E k Hok Hc ltac:(lia)) as [clean Hs]. rewrite Hs. cbn [res_bind sc_records].
  rewrite fit_all by lia. rewrite (take_ge E) by lia. cbn [sh_base_offset seg_header segment_header]. by rewrite owned_shift, Nat.add_0_r.
Qed.

Lemma read_sealed cfg d ss tail rest :
  disk_ok d ss tail -> content_ok cfg ss tail ->
  forall todo before, ss = before ++ todo ->
  read_segments d (seqZ (Z.of_nat (length before)) (Z.of_nat (length todo)) ++ rest) =
  let? records := read_segments d rest in Ok (owned 0 (length (concat before)) (concat todo) ++ records).
Proof.
  intros Hd Hc. induction todo as [|E todo IH]; intros before Hss; [rewrite seqZ_nil by done; cbn; by destruct (read_segments d rest)|].
  assert (Hi : ss !! length before = Some E) by (rewrite Hss; by apply list_lookup_middle).
  destruct (dk_sealed _ _ _ Hd _ _ Hi) as (ino & f & He & (t & Ht & _ & Hl)). pose proof (content_sealed _ _ _ _ _ Hc Hi) as [Ho _ Hm Hcn Hid _].
  rewrite Hss, take_app_length in Hl, Hm. rewrite <- tail_body_full in Hl.
  rewrite seqZ_cons by (cbn; lia). cbn [app]. replace (Z.pred (Z.of_nat (length (E :: todo)))) with (Z.of_nat (length todo)) by (cbn; lia).
  rewrite (read_segment d _ ino f (length (concat before)) t E _ _ _ He Ht Hid ltac:(lia) Hl eq_refl (or_intror eq_refl) Ho Hcn).
  specialize (IH (before ++ [E])). rewrite length_app, concat_snoc in IH. cbn [length] in IH. rewrite Nat.add_1_r in IH.
  replace (Z.of_nat (S (length before))) with (Z.succ (Z.of_nat (length before))) in IH by lia. rewrite IH by (by rewrite <- app_assoc).
  destruct (read_segments d rest); cbn; [|done|done]. by rewrite owned_app, length_app, <- app_assoc.
Qed.

Lemma read_flushed cfg l ss tail :
  log_inv cfg l ss tail -> is_flushed l -> log_records (log_disk l) = Ok (owned 0 0 (concat ss ++ tail_entries tail)).
Proof.
  intros Hi Hfl. unfold is_flushed in Hfl. destruct (l_active l) as [[ino w]|] eqn:Ha; [|done].
  destruct (active_parts _ _ _ _ _ _ Hi Ha) as (n & fl & bu & t & -> & Ht & Hh & Hw & He & _). cbn [tail_entries].
  assert (bu = []) as ->.
  { rewrite (wi_pending _ _ _ _ Hw) in Hfl. destruct bu as [|e bu]; [done|]. apply (f_equal length) in Hfl.
    rewrite frames_cons, length_app, length_entry_frame in Hfl. pose proof (entry_len_pos e). cbn in Hfl. lia. }
  pose proof (li_disk _ _ _ _ Hi) as Hd. pose proof (li_content _ _ _ _ Hi) as Hc. pose proof (content_tail _ _ _ _ Hc) as [Ho _ Hm Hcn Hid _].
  destruct (dk_tail _ _ _ Hd) as (ino' & f & Hent & _). pose proof (exact_live _ _ _ _ Hw He) as Hl. rewrite Hh in Hl.
  assert (Hf : f = w_file w).
  { destruct Hent as (Hel & _ & Hef & _). pose proof (li_active _ _ _ _ Hi) as Hact. rewrite Ha in Hact.
    destruct Hact as (? & ? & ? & _ & _ & _ & _ & _ & _ & _ & Hl'). unfold log_disk in Hel, Hef. rewrite Ha in Hel, Hef. cbn in Hel, Hef.
    rewrite Hl' in Hel. injection Hel as <-. rewrite lookup_insert_eq in Hef. by injection Hef as <-. }
  subst f. unfold log_records. rewrite (disk_ids _ _ _ Hd ltac:(done)). cbn [tail_count].
  replace (Z.of_nat (length ss + 1)) with (Z.of_nat (length ss) + 1) by lia. rewrite seqZ_app by lia.
  change (seqZ (0 + Z.of_nat (length ss)) 1) with [0 + (0 + Z.of_nat (length ss))]. rewrite !Z.add_0_l.
  pose proof (read_sealed cfg _ ss _ [Z.of_nat (length ss)] Hd Hc ss [] eq_refl) as Hr. change (Z.of_nat (length (@nil (list Entry)))) with 0 in Hr.
  rewrite Hr. rewrite app_nil_r in *.
  rewrite (read_segment _ _ ino' (w_file w) (length (concat ss)) t fl (seal_footer (seg_header (length ss) (length (concat ss)) t) fl)
    (length (frames fl)) [] Hent Ht Hid ltac:(lia)); [|by rewrite Hl, tail_body_le, take_ge by lia|done|by left|done|done].
  cbn. by rewrite app_nil_r, owned_app.
Qed.

(** ** Runs *)

(** What happens to a log: its operations, faults armed on the active file, and
    power losses, after which it is opened again.  A follower appends a frame as
    it came once it has checked that the frame carries the next sequence. *)
Inductive LogOp :=
| LAppend (record : Append) (subject stream_tag : list Z) (precomputed allow_roll : bool)
| LVerbatim (e : Entry)
| LSync
| LFlush
| LSeal
| LStage
| LFinish
| LArm (arm : F -> F)
| LPowerLoss (active : option (Z * Z)).

(** The log, or the directory an attempt to open it left; the records whose
    append was accepted and that no power loss took, their offsets, and the
    furthest the log has reported as synced. *)
Record LogRun := mk_log_run {
  lr_state : Dir F + Log F;
  lr_ticket : option SyncTicket;
  lr_accepted : list Entry;
  lr_offsets : list Z;
  lr_confirmed : nat
}.

Definition log_start : LogRun := mk_log_run (inl dir_empty) None [] [] 0.

Definition run_disk (r : LogRun) : Dir F := match lr_state r with inl d => d | inr l => log_disk l end.

(** The run goes on with the log [l]. *)
Definition now (r : LogRun) (l : Log F) (tk : option SyncTicket) : LogRun :=
  mk_log_run (inr l) tk (lr_accepted r) (lr_offsets r) (max (lr_confirmed r) (Z.to_nat (l_synced_offset l))).
Definition took (r : LogRun) (result : Log F * res Z StorageError) (e : Entry) : LogRun :=
  match result with
  | (l, Ok off) =>
      mk_log_run (inr l) (lr_ticket r) (lr_accepted r ++ [e]) (lr_offsets r ++ [off]) (max (lr_confirmed r) (Z.to_nat (l_synced_offset l)))
  | (l, _) => now r l (lr_ticket r)
  end.

Definition arm_active (l : Log F) (arm : F -> F) : Log F :=
  match l_active l with
  | Some (ino, w) => with_active l (Some (ino, with_file w (arm (w_file w)) (w_pending w) (w_pending_base w)))
  | None => l
  end.

Definition log_step (cfg : LogConfig) (r : LogRun) (o : LogOp * Env F) : LogRun :=
  let '(o, ev) := o in
  match o, lr_state r with
  | LPowerLoss active, _ =>
      match log_open (dir_power_loss (run_disk r) active) cfg ev with
      | (_, Ok l) =>
          let kept := Z.to_nat (l_next_offset l) in
          mk_log_run (inr l) None (take kept (lr_accepted r)) (take kept (lr_offsets r))
            (max (lr_confirmed r) (Z.to_nat (l_synced_offset l)))
      | (d, _) => mk_log_run (inl d) None (lr_accepted r) (lr_offsets r) (lr_confirmed r)
      end
  | _, inl _ => r
  | LAppend record subject tag pre allow_roll, inr l =>
      let view := view_of record (l_next_seq l) in
      took r (append_inner l ev (SrcEncode record (checksums_for view pre) subject tag) allow_roll) (entry_of view subject tag)
  | LVerbatim e, inr l =>
      if entry_seq e =? l_next_seq l then took r (append_frame_verbatim l ev (entry_frame e) (fst (fst e))) e else r
  | LSync, inr l => now r (fst (log_sync l ev)) (lr_ticket r)
  | LFlush, inr l => now r (fst (flush_no_sync l ev)) (lr_ticket r)
  | LSeal, inr l => now r (fst (seal_active_segment l ev)) (lr_ticket r)
  | LStage, inr l =>
      match prepare_async_sync l ev with
      | (l, Ok (Some t)) => now r l (Some t)
      | (l, _) => now r l (lr_ticket r)
      end
  | LFinish, inr l => match lr_ticket r with Some t => now r (finish_async_sync l t) None | None => r end
  | LArm arm, inr l => now r (arm_active l arm) (lr_ticket r)
  end.

(** Records that can be written and are no longer than the loss cap of recovery;
    faults that do not touch the bytes. *)
Definition log_op_ok (cfg : LogConfig) (o : LogOp * Env F) : Prop :=
  env_ok (snd o) /\
  match fst o with
  | LAppend record subject tag _ _ =>
      forall seq, is_u64 seq -> encodable (view_of record seq) subject tag /\
        Z.of_nat (entry_len (entry_of (view_of record seq) subject tag)) <= loss_cap cfg
  | LVerbatim e => entry_ok e /\ Z.of_nat (entry_len e) <= loss_cap cfg
  | LArm arm => forall f, q_ok f -> q_ok (arm f) /\ f_live (arm f) = f_live f /\ f_durable (arm f) = f_durable f
  | _ => True
  end.

Definition run_inv (cfg : LogConfig) (r : LogRun) : Prop :=
  lr_offsets r = map r_offset (owned 0 0 (lr_accepted r)) /\
  match lr_state r with
  | inl d => exists ss tail, disk_ok d ss tail /\ content_ok cfg ss tail /\ concat ss ++ tail_entries tail = lr_accepted r /\
      (lr_confirmed r <= durable_count ss tail)%nat
  | inr l => log_ok cfg l (lr_accepted r) (lr_confirmed r) (lr_ticket r)
  end.

Lemma start_run_inv cfg : run_inv cfg log_start.
Proof.
  split; [done|]. exists [], None. split; [apply disk_empty|]. split; [|done]. split; cbn; try done. constructor; [cbn; ulia|constructor].
Qed.

Lemma now_inv cfg r l tk :
  lr_offsets r = map r_offset (owned 0 0 (lr_accepted r)) -> log_ok cfg l (lr_accepted r) (lr_confirmed r) tk -> run_inv cfg (now r l tk).
Proof. intros Ho Hl. split; [done|]. by apply log_ok_synced. Qed.

Lemma now_keeps {R} cfg r (x : Log F * res R StorageError) :
  lr_offsets r = map r_offset (owned 0 0 (lr_accepted r)) -> keeps cfg (lr_accepted r) (lr_confirmed r) (lr_ticket r) x ->
  run_inv cfg (now r (fst x) (lr_ticket r)).
Proof. intros Ho Hk. destruct x as [l [y|e|]]; cbn in *; [by apply now_inv|by apply now_inv|done]. Qed.

Lemma took_inv cfg r x e :
  lr_offsets r = map r_offset (owned 0 0 (lr_accepted r)) -> Z.of_nat (length (lr_accepted r)) <= u64_max ->
  match x with
  | (l', Ok off) => log_ok cfg l' (lr_accepted r ++ [e]) (lr_confirmed r) (lr_ticket r) /\ off = Z.of_nat (length (lr_accepted r))
  | (l', Err _) => log_ok cfg l' (lr_accepted r) (lr_confirmed r) (lr_ticket r)
  | (_, Panic) => False
  end -> run_inv cfg (took r x e).
Proof.
  intros Ho Hmax Hx. destruct x as [l [off|err|]]; cbn [took]; [|by apply now_inv|done]. destruct Hx as [Hl ->].
  split; [|by apply log_ok_synced]. cbn [lr_offsets lr_accepted]. rewrite owned_app, map_app, <- Ho. f_equal.
  destruct e as [[rec sb] tg]. cbn. unfold sat_add. f_equal. lia.
Qed.

Lemma arm_ok cfg l arm A c tk :
  log_ok cfg l A c tk -> (forall f, q_ok f -> q_ok (arm f) /\ f_live (arm f) = f_live f /\ f_durable (arm f) = f_durable f) ->
  log_ok cfg (arm_active l arm) A c tk.
Proof.
  intros (ss & tail & Hi & HA & Hc & Htk) Harm. unfold arm_active. destruct (l_active l) as [[ino w]|] eqn:Ha; [|by exists ss, tail].
  destruct (active_parts _ _ _ _ _ _ Hi Ha) as (n & fl & bu & t & -> & Ht & Hh & Hw & He & _).
  destruct He as (Hq & Hl & Hd). destruct (Harm _ Hq) as (Hq' & Hl' & Hd').
  exists ss, (Some (fl ++ bu, n)). split; [|split; [done|split; [done|by eapply (ticket_grows l _ ss _ _ n n ino w)]]].
  eapply (active_step cfg l _ ss _ n ino w (with_file w (arm (w_file w)) (w_pending w) (w_pending_base w)) fl bu n); try done; try apply Hi.
  - destruct Hw as [Hso Hhd Hok Hlive Hbase Hpend Hpos Hcnt Hlast Htime Hoff Hdur].
    split; cbn [w_file w_header w_write_pos w_record_count w_last_seq w_max_timestamp_ms w_pending w_pending_base with_file]; try done;
      [by apply q_sound|by rewrite Hl'|by rewrite Hd'].
  - split; cbn [w_file w_pending_base with_file]; [done|]. by rewrite Hl', Hd'.
Qed.

Lemma run_disk_ok cfg r :
  run_inv cfg r -> exists ss tail, disk_ok (run_disk r) ss tail /\ content_ok cfg ss tail /\
    concat ss ++ tail_entries tail = lr_accepted r /\ (lr_confirmed r <= durable_count ss tail)%nat.
Proof.
  intros [_ Hs]. unfold run_disk. destruct (lr_state r) as [d|l]; [done|]. destruct Hs as (ss & tail & Hi & HA & Hc & _).
  exists ss, tail. split; [apply Hi|]. split; [apply Hi|done].
Qed.

(** Opening after a power loss. *)
Lemma reopen_ok cfg r active ev :
  config_ok cfg -> run_inv cfg r -> env_ok ev ->
  opened cfg ev (lr_accepted r) (lr_confirmed r) (log_open (dir_power_loss (run_disk r) active) cfg ev).
Proof.
  intros Hcfg Hr Hev. destruct (run_disk_ok cfg r Hr) as (ss & tail & Hd & Hc & HA & Hcf).
  destruct (disk_loss _ ss tail active Hd) as [Hd' Hst]. pose proof (open_inv cfg _ ss tail ev Hcfg Hd' Hc Hst Hev) as Ho.
  rewrite HA in Ho. unfold durable_count in Hcf. destruct (log_open _ cfg ev) as [d' [l|e|]]; [| |done].
  - destruct Ho as (ss' & tail' & m & Hm & Hrest). exists ss', tail', m. split; [lia|done].
  - destruct Ho as (Hh & ss' & tail' & H1' & H2' & H3' & H4'). split; [done|]. exists ss', tail'. split_and!; try done. lia.
Qed.

Lemma owned_take base idx m E : take m (owned base idx E) = owned base idx (take m E).
Proof.
  revert m idx. induction E as [|[[rec sb] tg] E IH]; intros [|m] idx; try done. cbn. by rewrite IH.
Qed.

Lemma power_loss_step cfg r active ev :
  config_ok cfg -> run_inv cfg r -> env_ok ev -> run_inv cfg (log_step cfg r (LPowerLoss active, ev)).
Proof.
  intros Hcfg Hr Hev. pose proof (reopen_ok cfg r active ev Hcfg Hr Hev) as Ho. destruct Hr as [Hoff _]. cbn [log_step].
  destruct (log_open _ cfg ev) as [d' [l|e|]]; [| |done].
  - destruct Ho as (ss & tail & m & Hm & Hi & HA & Hsy & _). pose proof (li_next _ _ _ _ Hi) as [Hn _]. rewrite HA, length_take, Nat.min_l in Hn by lia.
    rewrite Hn, Hsy, Nat2Z.id. split; cbn [lr_offsets lr_accepted lr_state lr_confirmed lr_ticket].
    + rewrite Hoff, <- owned_take. symmetry. apply fmap_take.
    + exists ss, tail. split; [done|]. split; [done|]. pose proof (li_synced _ _ _ _ Hi). unfold durable_count. split; [lia|done].
  - destruct Ho as (_ & Ho). done.
Qed.

Lemma log_step_inv cfg r o : config_ok cfg -> run_inv cfg r -> log_op_ok cfg o -> run_inv cfg (log_step cfg r o).
Proof.
  intros Hcfg Hr Ho. destruct o as [o ev]. destruct Ho as [Hev Ho]. cbn [fst snd] in *. pose proof Hr as [Hoff Hst].
  destruct (lr_state r) as [d|l] eqn:Hs.
  { destruct o as [| | | | | | | |active]; try (cbn [log_step]; by rewrite Hs). by apply power_loss_step. }
  assert (Hlen : l_next_seq l = Z.of_nat (length (lr_accepted r)) /\ Z.of_nat (length (lr_accepted r)) <= u64_max).
  { destruct Hst as (ss & tail & Hi & <- & _). destruct (li_next _ _ _ _ Hi) as [Hn ->]. split; [done|apply (li_content _ _ _ _ Hi)]. }
  destruct Hlen as [Hn Hmax].
  destruct o as [record subject tag pre allow_roll|e| | | | | |arm|active]; try (cbn [log_step]; rewrite Hs); [| | | | | | | |by apply power_loss_step].
  - destruct (Ho (l_next_seq l)) as [Hen Hsz]; [rewrite Hn; ulia|]. apply took_inv; [done|done|]. apply append_inner_ok; [done|done|].
    rewrite <- Hn. by apply encode_source_writes.
  - destruct Ho as [Hok Hsz]. destruct (Z.eqb_spec (entry_seq e) (l_next_seq l)) as [Hq|]; [|done].
    apply took_inv; [done|done|]. apply append_inner_ok; [done|done|]. rewrite <- Hn, <- Hq. by apply verbatim_source_writes.
  - apply now_keeps; [done|]. by apply log_sync_ok.
  - apply now_keeps; [done|]. by apply flush_no_sync_ok.
  - apply now_keeps; [done|]. by apply seal_active_segment_ok.
  - pose proof (prepare_async_sync_ok cfg l ev _ _ _ Hst Hev) as Hp.
    destruct (prepare_async_sync l ev) as [l' [[t|]|err|]]; [by apply now_inv|by apply now_inv|by apply now_inv|done].
  - destruct (lr_ticket r) as [t|] eqn:Ht; [|done]. apply now_inv; [done|]. by apply finish_async_sync_ok.
  - apply now_inv; [done|]. by apply arm_ok.
Qed.

Lemma log_run_inv cfg r ops : config_ok cfg -> run_inv cfg r -> Forall (log_op_ok cfg) ops -> run_inv cfg (foldl (log_step cfg) r ops).
Proof.
  intros Hcfg Hr Ho. revert r Hr. induction Ho as [|o ops Ho _ IH]; intros r Hr; [done|]. cbn [foldl]. by apply IH, log_step_inv.
Qed.


(** A sync confirms every accepted record.  When [sync] returns, the synced
    head is the number of records accepted so far. *)
Theorem sync_confirms_all cfg ops ev l :
  config_ok cfg -> Forall (log_op_ok cfg) ops -> env_ok ev ->
  let r := foldl (log_step cfg) log_start ops in
  lr_state r = inr l -> snd (log_sync l ev) = Ok tt ->
  lr_confirmed (log_step cfg r (LSync, ev)) = length (lr_accepted (log_step cfg r (LSync, ev))).
Proof.
  intros Hcfg Hops Hev r Hs Hok. pose proof (log_run_inv cfg log_start ops Hcfg (start_run_inv cfg) Hops) as Hr. fold r in Hr.
  pose proof (log_step_inv cfg r (LSync, ev) Hcfg Hr (conj Hev I)) as [_ Hr']. pose proof Hr as [_ Hl]. rewrite Hs in Hl.
  destruct (log_sync_ok cfg l ev _ _ _ Hl Hev) as [_ Hsy]. specialize (Hsy Hok). cbn [log_step] in *. rewrite Hs in *. cbn in Hr' |- *.
  rewrite Hsy in *. destruct Hr' as (ss & tail & Hi & HA & Hc & _). pose proof (durable_le _ _ _ _ Hi) as Hd. rewrite HA in Hd. lia.
Qed.
End safety.

(** ** Evaluation *)

Section evaluation.
#[local] Existing Instance sum32.
#[local] Existing Instance sum64.
#[local] Existing Instance sums.

Abbreviation Disk := (FaultFile FileState).

Definition demo_new_file : Disk := mk_fault (mem_from_bytes []) false false false None None 0.
Definition demo_env : Env Disk := mk_env 5 demo_new_file true true true.
Definition demo_env_no_dir_sync : Env Disk := mk_env 5 demo_new_file true true false.
Definition demo_log_config : LogConfig := mk_log_config 184 0 0.
Definition demo_append (b : Z) : LogOp (F := Disk) * Env Disk := (LAppend (mk_append 7 0 [107] [] [b; b]) [] [] (b =? 2) true, demo_env).
Definition fail_syncs (f : Disk) : Disk :=
  mk_fault (ff_inner f) true (ff_fail_write f) (ff_fail_read f) (ff_torn_write f) (ff_checksum_flip f) (ff_short_read f).

(** Two rolls, a staged sync finished after more appends, a seal whose sync
    fails, and two power losses. *)
Definition demo_log_ops : list (LogOp (F := Disk) * Env Disk) :=
  [(LPowerLoss None, demo_env); demo_append 1; demo_append 2; (LSync, demo_env); demo_append 3; demo_append 4; (LStage, demo_env);
   demo_append 5; (LFinish, demo_env); demo_append 6; (LFlush, demo_env); (LPowerLoss (Some (1, 5)), demo_env);
   demo_append 7; (LArm fail_syncs, demo_env); (LSeal, demo_env)].
Definition demo_log_run := foldl (log_step demo_log_config) log_start demo_log_ops.

Lemma demo_env_ok : env_ok demo_env.
Proof. split; [vm_compute; split; congruence|split; [split; [intros i _ _; reflexivity|reflexivity]|reflexivity]|done]. Qed.

Lemma demo_append_ok b : is_u8 b -> log_op_ok demo_log_config (demo_append b).
Proof.
  intros Hb. split; [exact demo_env_ok|]. intros seq Hs. cbn [fst demo_append]. split; [|by destruct (b =? 2)].
  split; [split; [vm_compute; split; congruence|split; [done|vm_compute; split; congruence]]|]. split; [|split; [reflexivity|by right]].
  split; [|split; [constructor|constructor]]. repeat (constructor; [first [exact Hb|vm_compute; split; congruence]|]). constructor.
Qed.

Lemma demo_log_ops_ok : Forall (log_op_ok demo_log_config) demo_log_ops.
Proof.
  repeat (apply Forall_cons_2; [first [apply demo_append_ok; vm_compute; split; congruence | split; [exact demo_env_ok|exact I] | idtac]|]);
    try apply Forall_nil_2.
  split; [exact demo_env_ok|]. intros f [Hf Ht]. done.
Qed.

Lemma demo_config_ok : config_ok demo_log_config.
Proof. vm_compute. discriminate. Qed.

Lemma demo_env_healthy : env_healthy demo_env.
Proof. done. Qed.

Definition demo_synced_log : option (Log Disk) :=
  match lr_state (foldl (log_step demo_log_config) log_start (take 3 demo_log_ops)) with inr l => Some l | inl _ => None end.

Lemma sync_confirms_all_witness :
  lr_confirmed (log_step demo_log_config (foldl (log_step demo_log_config) log_start (take 3 demo_log_ops)) (LSync, demo_env)) = 2%nat.
Proof.
  destruct demo_synced_log as [l|] eqn:Hl; [|vm_compute in Hl; discriminate Hl].
  assert (Hs : lr_state (foldl (log_step demo_log_config) log_start (take 3 demo_log_ops)) = inr l).
  { unfold demo_synced_log in Hl. destruct (lr_state _) as [d|l']; [discriminate Hl|]. by injection Hl as ->. }
  rewrite (sync_confirms_all demo_log_config (take 3 demo_log_ops) demo_env l demo_config_ok (Forall_take _ _ _ demo_log_ops_ok) demo_env_ok Hs).
  - vm_compute. reflexivity.
  - vm_compute in Hl. injection Hl as <-. vm_compute. reflexivity.
Defined.

(** ** A restart without a power loss

    The process is gone and its files are as it left them, synced or not. *)
Definition restart (d : Dir Disk) : Dir Disk :=
  mk_dir ((fun f => mk_fault (ff_inner f) false false false None None 0) <$> d_files d) (d_live d) (d_durable d).

(** A run, a restart and more operations: what the log then reports as synced,
    and what it finds after a power loss. *)
Definition restarted (ops more : list (LogOp (F := Disk) * Env Disk))
    : option (Z * res (Z * list LossEvent) StorageError) :=
  let r := foldl (log_step demo_log_config) log_start ops in
  match snd (log_open (restart (run_disk r)) demo_log_config demo_env) with
  | Ok l =>
      let r := foldl (log_step demo_log_config) (now r l None) more in
      match lr_state r with
      | inr l =>
          Some (l_synced_offset l,
            let? l := snd (log_open (dir_power_loss (log_disk l) None) demo_log_config demo_env) in Ok (l_next_offset l, l_loss l))
      | inl _ => None
      end
  | _ => None
  end.


(** A record longer than a segment, flushed and torn by the power loss. *)
Definition big_ops : list (LogOp (F := Disk) * Env Disk) :=
  [(LPowerLoss None, demo_env); demo_append 1; (LSync, demo_env);
   (LAppend (mk_append 7 0 [107] [] (replicate 300 1)) [] [] false true, demo_env); (LFlush, demo_env)].

(** A torn record above the loss cap keeps the log from opening.  The record
    was accepted and never reported as synced; the power loss keeps more than
    one segment's worth of it, and opening refuses the loss. *)
Theorem torn_large_record_refused :
  let r := foldl (log_step demo_log_config) log_start big_ops in
  lr_confirmed r = 1%nat /\ length (lr_accepted r) = 2%nat /\
  snd (log_open (dir_power_loss (run_disk r) (Some (0, 2))) demo_log_config demo_env) = Err (ExcessiveRecoveryLoss (PerEvent 206 184)).
Proof. split; [vm_compute; reflexivity|]. split; vm_compute; reflexivity. Qed.
End evaluation.
