(* ===== verification/Checkpoint.v ===== *)
(** * Checkpoints ([storage/src/checkpoint.rs])

    A small value kept in a file of two slots.  A write goes to the slot its
    sequence number selects, under a CRC32C, so the value before it stays in the
    other slot.  The model runs over any file of the storage interface, with
    failed and torn writes, failed syncs and power cuts that leave any blend of
    the synced and the written bytes, and shows that a checkpoint is a register
    that a crash can only take back to the last value a write confirmed. *)

From S2P Require Import Prelude Bytes Records Codec Disk SegmentFormat SegmentScan.

Definition SEQ_LEN : nat := 8.
Definition LEN_LEN : nat := 2.
Definition CRC_LEN : nat := 4.
Definition SLOT_OVERHEAD : nat := SEQ_LEN + LEN_LEN + CRC_LEN.

Inductive SlotDecode :=
| SlotEmpty
| SlotCorrupt
| SlotValid (seq : Z) (payload : list Z).

Inductive RecoveredCheckpoint :=
| RecValid (payload : list Z)
| RecEmpty
| RecDamaged.

Definition into_option (r : RecoveredCheckpoint) : option (list Z) :=
  match r with RecValid payload => Some payload | RecEmpty | RecDamaged => None end.
Definition is_damaged (r : RecoveredCheckpoint) : bool :=
  match r with RecDamaged => true | _ => false end.

(** The artifacts of the damage counter, with their cell and label. *)
Inductive CheckpointArtifact :=
| ArtCursor | ArtAttempts | ArtCounters | ArtProducerSeq | ArtMetadataSnapshot | ArtSharedWalReap | ArtBindings
| ArtGeoCursor | ArtColdManifest.

Definition ALL_ARTIFACTS : list CheckpointArtifact :=
  [ArtCursor; ArtAttempts; ArtCounters; ArtProducerSeq; ArtMetadataSnapshot; ArtSharedWalReap; ArtBindings;
   ArtGeoCursor; ArtColdManifest].

Definition artifact_index (a : CheckpointArtifact) : nat :=
  match a with
  | ArtCursor => 0
  | ArtAttempts => 1
  | ArtCounters => 2
  | ArtProducerSeq => 3
  | ArtMetadataSnapshot => 4
  | ArtSharedWalReap => 5
  | ArtBindings => 6
  | ArtGeoCursor => 7
  | ArtColdManifest => 8
  end.

(** [fetch_add] on the cell: it wraps. *)
Definition record_checkpoint_damage (cells : list Z) (a : CheckpointArtifact) : list Z :=
  alter (fun n => (n + 1) mod (u64_max + 1)) (artifact_index a) cells.

Section slots.
Context `{Crc32c} (cap : nat).

Definition SLOT_LEN : nat := SLOT_OVERHEAD + cap.
Definition FILE_LEN : nat := SLOT_LEN * 2.

Definition decode_slot (slot : list Z) : res SlotDecode StorageError :=
  if negb (length slot =? SLOT_OVERHEAD + cap)%nat then Ok SlotEmpty
  else
    let? seq := or_panic (read_u64 slot 0) in
    if seq =? 0 then Ok SlotEmpty
    else
      let? len := or_panic (read_u16 slot SEQ_LEN) in
      let len := Z.to_nat len in
      if (cap <? len)%nat then Ok SlotCorrupt
      else
        let payload_start := (SEQ_LEN + LEN_LEN)%nat in
        let crc_start := (payload_start + cap)%nat in
        let? stored_crc := or_panic (read_u32 slot crc_start) in
        let? covered := or_panic (slice slot 0 (payload_start + len)) in
        if negb (crc32c covered =? stored_crc) then Ok SlotCorrupt
        else
          let? payload := or_panic (slice slot payload_start (payload_start + len)) in
          Ok (SlotValid seq payload).

Definition encode_slot (seq : Z) (payload : list Z) : list Z :=
  let len := length payload in
  let len_field := Z.min (Z.of_nat len) u16_max in
  let body := le_bytes 8 seq ++ le_bytes 2 len_field ++ payload in
  body ++ replicate (cap - len) 0 ++ le_bytes 4 (crc32c body).

(** ** The checkpoint *)

Context `{RandomAccessFile F}.

Record SlotCheckpoint := mk_checkpoint { cp_file : F; cp_next_seq : Z }.

(** The slot with the higher sequence, of those that are valid. *)
Definition best_slot (a b : SlotDecode) : option (Z * list Z) :=
  match a, b with
  | SlotValid sa pa, SlotValid sb pb => if sb <=? sa then Some (sa, pa) else Some (sb, pb)
  | SlotValid s p, _ | _, SlotValid s p => Some (s, p)
  | _, _ => None
  end.

Definition checkpoint_open (file : F) : res (SlotCheckpoint * RecoveredCheckpoint) StorageError :=
  let? buf :=
    if (FILE_LEN <=? length (f_live file))%nat then map_err (fun _ => StIo) (read_exact_at file FILE_LEN 0)
    else Ok (replicate FILE_LEN 0) in
  let? a := decode_slot (take SLOT_LEN buf) in
  let? b := decode_slot (take SLOT_LEN (drop SLOT_LEN buf)) in
  match best_slot a b with
  | Some (seq, payload) =>
      match checked_add64 seq 1 with
      | Some next_seq => Ok (mk_checkpoint file next_seq, RecValid payload)
      | None => Err SegmentFull
      end
  | None =>
      Ok (mk_checkpoint file 1, match a, b with SlotCorrupt, SlotCorrupt => RecDamaged | _, _ => RecEmpty end)
  end.

Definition checkpoint_write (c : SlotCheckpoint) (payload : list Z) : SlotCheckpoint * res unit StorageError :=
  if (cap <? length payload)%nat then (c, Err (StSegment SegTruncated))
  else
    let seq := cp_next_seq c in
    let slot_index := Z.to_nat (seq mod 2) in
    let offset := (slot_index * SLOT_LEN)%nat in
    match write_all_at (cp_file c) (encode_slot seq payload) offset with
    | (file, false) => (mk_checkpoint file seq, Err StIo)
    | (file, true) =>
        match sync_all file with
        | (file, false) => (mk_checkpoint file seq, Err StIo)
        | (file, true) =>
            match checked_add64 seq 1 with
            | Some next_seq => (mk_checkpoint file next_seq, Ok tt)
            | None => (mk_checkpoint file seq, Err SegmentFull)
            end
        end
    end.
End slots.

(** ** Slots *)

Section slot_theory.
Context `{Crc32c} (cap : nat) (Hcap : Z.of_nat cap <= u16_max).

Lemma length_encode_slot seq payload : (length payload <= cap)%nat -> length (encode_slot cap seq payload) = SLOT_LEN cap.
Proof.
  intros Hp. unfold encode_slot, SLOT_LEN, SLOT_OVERHEAD, SEQ_LEN, LEN_LEN, CRC_LEN.
  rewrite !length_app, !length_le_bytes, length_replicate. lia.
Qed.

Lemma decode_slot_total slot : exists d, decode_slot cap slot = Ok d.
Proof.
  unfold decode_slot. destruct (_ =? _)%nat eqn:Hl; cbn [negb]; [|eauto]. apply Nat.eqb_eq in Hl.
  unfold SLOT_OVERHEAD, SEQ_LEN, LEN_LEN, CRC_LEN in *.
  destruct (read_le_is_Some 8 slot 0) as [seq Hs]; [lia|]. unfold read_u64. rewrite Hs. cbn [or_panic res_bind].
  destruct (seq =? 0); [eauto|].
  destruct (read_le_is_Some 2 slot 8) as [len Hn]; [lia|]. unfold read_u16. rewrite Hn. cbn [or_panic res_bind].
  destruct (_ <? _)%nat eqn:Hc; [eauto|]. apply Nat.ltb_ge in Hc.
  destruct (read_le_is_Some 4 slot (8 + 2 + cap)) as [crc Hr]; [lia|]. unfold read_u32. rewrite Hr. cbn [or_panic res_bind].
  rewrite (slice_Some slot 0), (slice_Some slot (8 + 2)) by lia. cbn [or_panic res_bind]. destruct (negb _); eauto.
Qed.

Lemma decode_zero n : decode_slot cap (replicate n 0) = Ok SlotEmpty.
Proof.
  unfold decode_slot. rewrite length_replicate. destruct (_ =? _)%nat eqn:Hl; cbn [negb]; [|done]. apply Nat.eqb_eq in Hl.
  unfold read_u64. rewrite read_le_Some by (rewrite length_replicate; unfold SLOT_OVERHEAD, SEQ_LEN in *; lia).
  cbn [or_panic res_bind]. rewrite drop_0. rewrite take_replicate.
  replace (8 `min` n)%nat with 8%nat by (unfold SLOT_OVERHEAD, SEQ_LEN in *; lia). done.
Qed.

Lemma decode_encode_slot seq payload :
  is_u64 seq -> seq <> 0 -> (length payload <= cap)%nat ->
  decode_slot cap (encode_slot cap seq payload) = Ok (SlotValid seq payload).
Proof.
  intros Hs H0 Hp. pose proof (length_encode_slot seq payload Hp) as Hl. unfold decode_slot.
  change (SLOT_OVERHEAD + cap)%nat with (SLOT_LEN cap). rewrite Hl, Nat.eqb_refl. cbn [negb].
  unfold encode_slot in *. cbv zeta in *. set (len := Z.min _ _) in *. set (body := le_bytes 8 seq ++ _ ++ payload) in *.
  assert (Hlen : len = Z.of_nat (length payload)) by lia.
  assert (Hb : length body = (8 + 2 + length payload)%nat) by (subst body; rewrite !length_app, !length_le_bytes; lia).
  unfold SEQ_LEN, LEN_LEN.
  assert (R1 : read_u64 (body ++ replicate (cap - length payload) 0 ++ le_bytes 4 (crc32c body)) 0 = Some seq).
  { subst body. rewrite <- !app_assoc. by apply read_le_head, u64_pow. }
  assert (R2 : read_u16 (body ++ replicate (cap - length payload) 0 ++ le_bytes 4 (crc32c body)) 8 = Some len).
  { subst body. rewrite <- !app_assoc. unfold read_u16. rewrite read_le_mid by (by rewrite length_le_bytes).
    rewrite le_val_le_bytes; [done|]. apply u16_pow. ulia. }
  assert (R3 : read_u32 (body ++ replicate (cap - length payload) 0 ++ le_bytes 4 (crc32c body)) (8 + 2 + cap) = Some (crc32c body)).
  { rewrite app_assoc. unfold read_u32. rewrite read_le_app_r by (rewrite length_app, length_replicate; lia).
    rewrite length_app, length_replicate. replace (8 + 2 + cap - _)%nat with 0%nat by lia.
    rewrite <- (app_nil_r (le_bytes 4 _)). apply read_le_head, u32_pow, crc32c_u32. }
  rewrite R1. cbn [or_panic res_bind]. destruct (Z.eqb_spec seq 0) as [|_]; [done|].
  rewrite R2. cbn [or_panic res_bind]. replace (Z.to_nat len) with (length payload) by lia.
  destruct (Nat.ltb_spec cap (length payload)) as [|_]; [lia|].
  rewrite R3. cbn [or_panic res_bind]. rewrite <- Hb, slice_0 by (rewrite length_app; lia).
  rewrite take_app_length. cbn [or_panic res_bind]. rewrite Z.eqb_refl. cbn [negb].
  rewrite (slice_at _ _ _ payload (replicate (cap - length payload) 0 ++ le_bytes 4 (crc32c body))); [done| | |lia].
  - rewrite length_app. lia.
  - subst body. rewrite <- !app_assoc, !(app_assoc (le_bytes 8 seq)). apply drop_app_length'.
    by rewrite length_app, !length_le_bytes.
Qed.
End slot_theory.

(** ** Images *)

(** The slot of a sequence number. *)
Definition idx (n : Z) : nat := Z.to_nat (n mod 2).

Lemma idx_lt n : (idx n < 2)%nat.
Proof. unfold idx. pose proof (Z.mod_pos_bound n 2). lia. Qed.
Lemma idx_next n : idx (n + 1) = (1 - idx n)%nat.
Proof.
  unfold idx. pose proof (Z.mod_pos_bound n 2). rewrite <- Z.add_mod_idemp_l by lia.
  destruct (decide (n mod 2 = 0)) as [->|Hz]; [done|]. by replace (n mod 2) with 1 by lia.
Qed.
Lemma idx_skip n : idx (n + 1 + 1) = idx n.
Proof. rewrite !idx_next. pose proof (idx_lt n). lia. Qed.

Section images.
Context `{Crc32c} (cap : nat) (Hcap : Z.of_nat cap <= u16_max).
Local Notation slot_len := (SLOT_LEN cap).
Local Notation file_len := (FILE_LEN cap).

(** What opening reads as slot [i]. *)
Definition view (img : list Z) : list Z :=
  if (file_len <=? length img)%nat then take file_len img else replicate file_len 0.
Definition slot_of (img : list Z) (i : nat) : list Z := take slot_len (drop (i * slot_len) (view img)).
Definition reads (img : list Z) (i : nat) (d : SlotDecode) : Prop := decode_slot cap (slot_of img i) = Ok d.

Lemma reads_total img i : exists d, reads img i d.
Proof. apply decode_slot_total. Qed.
Lemma reads_fun img i d d' : reads img i d -> reads img i d' -> d = d'.
Proof. unfold reads. congruence. Qed.

Lemma slot_of_bytes img i b :
  (i < 2)%nat -> length b = slot_len -> (file_len <= length img)%nat ->
  (forall k, (k < slot_len)%nat -> img !! (i * slot_len + k)%nat = b !! k) -> slot_of img i = b.
Proof.
  intros Hi Hb Hl Hk. unfold slot_of, view. destruct (Nat.leb_spec file_len (length img)) as [_|]; [|lia].
  apply list_eq. intros k. destruct (decide (k < slot_len)%nat) as [Hlt|Hge].
  - rewrite lookup_take_lt, lookup_drop, lookup_take_lt by (unfold FILE_LEN; nia). auto.
  - rewrite lookup_take_ge by lia. symmetry. apply lookup_ge_None_2. lia.
Qed.

Lemma slot_of_short img i : (i < 2)%nat -> (length img < file_len)%nat -> slot_of img i = replicate slot_len 0.
Proof.
  intros Hi Hl. unfold slot_of, view. destruct (Nat.leb_spec file_len (length img)) as [|_]; [lia|].
  rewrite drop_replicate, take_replicate. f_equal. unfold FILE_LEN. nia.
Qed.

(** Every valid slot of [img] is one of the images it was made of. *)
Definition detected (sources : list (list Z)) (img : list Z) : Prop :=
  forall i s q, (i < 2)%nat -> reads img i (SlotValid s q) -> Exists (fun src => reads src i (SlotValid s q)) sources.

(** An image that holds the slot [b] of the confirmed sequence number [n], and
    in the other slot at most an older value or one attempted after it. *)
Record image_inv (n : Z) (b : list Z) (att : list (list Z)) (img : list Z) : Prop := {
  ii_len : 0 < n -> (file_len <= length img)%nat;
  ii_slot k : (k < slot_len)%nat ->
    img !! (idx n * slot_len + k)%nat = b !! k \/ n = 0 /\ img !! (idx n * slot_len + k)%nat = None;
  ii_other s q : reads img (idx (n + 1)) (SlotValid s q) -> (0 < n /\ s < n) \/ (s = n + 1 /\ q ∈ att)
}.

(** The confirmed value and its slot. *)
Definition anchor (n : Z) (conf : option (list Z)) (b : list Z) : Prop :=
  length b = slot_len /\ 0 <= n /\ n + 1 <= u64_max /\
  match conf with
  | Some p => 0 < n /\ decode_slot cap b = Ok (SlotValid n p)
  | None => n = 0 /\ b = replicate slot_len 0
  end.

Lemma anchor_slot n conf b att img : anchor n conf b -> image_inv n b att img -> slot_of img (idx n) = b.
Proof.
  intros (Hb & Hn & _ & Hc) [Hl Hs _]. destruct (decide (file_len <= length img)%nat) as [Hf|Hf].
  - apply slot_of_bytes; [apply idx_lt|done..|]. intros k Hk. destruct (Hs k Hk) as [|[_ Hno]]; [done|].
    apply lookup_ge_None_1 in Hno. pose proof (idx_lt n). unfold FILE_LEN in Hf. nia.
  - rewrite slot_of_short by (first [apply idx_lt|lia]). destruct conf as [p|].
    + destruct Hc as [Hp _]. specialize (Hl Hp). lia.
    + by destruct Hc as [_ ->].
Qed.

Lemma anchor_reads n conf b att img :
  anchor n conf b -> image_inv n b att img ->
  reads img (idx n) (match conf with Some p => SlotValid n p | None => SlotEmpty end).
Proof.
  intros Ha Hi. unfold reads. rewrite (anchor_slot _ _ _ _ _ Ha Hi). destruct Ha as (_ & _ & _ & Hc).
  destruct conf; [by destruct Hc|]. destruct Hc as [_ ->]. apply decode_zero.
Qed.

Lemma image_inv_blend n b att d l m :
  image_inv n b att d -> image_inv n b att l -> blend d l m -> detected [d; l] m -> image_inv n b att m.
Proof.
  intros [Dl Ds Do] [Ll Ls Lo] Hb Hd. split.
  - intros Hn. specialize (Dl Hn). specialize (Ll Hn). destruct (decide (file_len = 0)%nat) as [|Hz]; [lia|].
    assert (Hin : (file_len - 1 < length m)%nat).
    { apply lookup_lt_is_Some. destruct (Hb (file_len - 1)%nat) as [->| ->]; apply lookup_lt_is_Some; lia. }
    lia.
  - intros k Hk. destruct (Hb (idx n * slot_len + k)%nat) as [->| ->]; auto.
  - intros s q Hr. apply Hd in Hr; [|apply idx_lt]. rewrite !Exists_cons, Exists_nil in Hr.
    destruct Hr as [Hr|[Hr|[]]]; [exact (Do _ _ Hr)|exact (Lo _ _ Hr)].
Qed.

(** *** A write *)

Lemma length_written n b att img p k :
  image_inv n b att img -> 0 <= n -> (length p <= cap)%nat -> (slot_len <= k)%nat ->
  (file_len <= length (splice img (idx (n + 1) * slot_len) (take k (encode_slot cap (n + 1) p))))%nat.
Proof.
  intros Hi Hn Hp Hk. rewrite length_splice, length_take, length_encode_slot by done.
  destruct (decide (0 < n)) as [H1|H1]; [pose proof (ii_len _ _ _ _ Hi H1); lia|].
  replace n with 0 by lia. unfold FILE_LEN. change (idx (0 + 1)) with 1%nat. lia.
Qed.

Lemma written_reads n b att img p :
  image_inv n b att img -> 0 <= n -> n + 1 <= u64_max -> (length p <= cap)%nat ->
  slot_of (splice img (idx (n + 1) * slot_len) (encode_slot cap (n + 1) p)) (idx (n + 1)) = encode_slot cap (n + 1) p.
Proof.
  intros Hi Hn Hu Hp. pose proof (length_encode_slot cap (n + 1) p Hp) as Hl.
  pose proof (length_written _ _ _ _ p slot_len Hi Hn Hp (le_n _)) as Hf. rewrite take_ge in Hf by lia.
  apply slot_of_bytes; [apply idx_lt|done|done|]. intros k Hk. rewrite lookup_splice.
  repeat case_decide; try lia. f_equal. lia.
Qed.

Lemma image_inv_write n conf b att img p k :
  anchor n conf b -> image_inv n b att img -> (length p <= cap)%nat ->
  let off := (idx (n + 1) * slot_len)%nat in
  let slot := encode_slot cap (n + 1) p in
  detected [img; splice img off slot] (splice img off (take k slot)) ->
  image_inv n b (p :: att) (splice img off (take k slot)).
Proof.
  intros Ha Hi Hp off slot Hd. pose proof Ha as (Hb & Hn & Hu & Hc). split.
  - intros H1. rewrite length_splice. pose proof (ii_len _ _ _ _ Hi H1). lia.
  - intros j Hj. pose proof (ii_slot _ _ _ _ Hi j Hj) as Hs. subst off. rewrite idx_next in *. pose proof (idx_lt n) as Hlt.
    assert (Hl : (length (take k slot) <= slot_len)%nat)
      by (rewrite length_take; subst slot; rewrite length_encode_slot by done; lia).
    rewrite lookup_splice. case_decide; [nia|]. case_decide as Hin; [done|].
    rewrite (lookup_ge_None_2 img) in Hs by lia.
    destruct Hs as [Hs|[-> _]]; [symmetry in Hs; apply lookup_ge_None_1 in Hs; lia|].
    destruct conf as [p'|]; [lia|]. destruct Hc as [_ ->]. rewrite lookup_replicate_2 by done. case_decide; auto.
  - intros s q Hr. apply Hd in Hr; [|apply idx_lt]. rewrite !Exists_cons, Exists_nil in Hr. destruct Hr as [Hr|[Hr|[]]].
    + destruct (ii_other _ _ _ _ Hi s q Hr) as [?|[? ?]]; [by left|]. right. split; [done|by right].
    + unfold reads in Hr. subst slot off. rewrite (written_reads _ _ _ _ _ Hi), decode_encode_slot in Hr by (done || ulia).
      injection Hr as <- <-. right. split; [done|by left].
Qed.

(** A confirmed write moves the anchor to its own slot. *)
Lemma image_inv_confirm n conf b att img p :
  anchor n conf b -> image_inv n b att img -> (length p <= cap)%nat -> n + 2 <= u64_max ->
  let slot := encode_slot cap (n + 1) p in
  anchor (n + 1) (Some p) slot /\ image_inv (n + 1) slot [] (splice img (idx (n + 1) * slot_len) slot).
Proof.
  intros Ha Hi Hp H2 slot. pose proof Ha as (Hb & Hn & Hu & Hc). pose proof (length_encode_slot cap (n + 1) p Hp) as Hl.
  pose proof (length_written _ _ _ _ p slot_len Hi Hn Hp (le_n _)) as Hf. rewrite take_ge in Hf by lia.
  split.
  { split_and!; [done|lia|lia|lia|]. apply decode_encode_slot; [done|ulia|lia|done]. }
  split; [done| |].
  - intros k Hk. left. rewrite lookup_splice. repeat case_decide; try (subst slot; lia). f_equal. lia.
  - intros s q Hr. left. rewrite idx_skip in Hr.
    assert (Hin : image_inv n b (p :: att) (splice img (idx (n + 1) * slot_len) slot)).
    { rewrite <- (take_ge slot slot_len) by (subst slot; lia). eapply image_inv_write; try done. subst slot.
      rewrite take_ge by lia. intros i s' q' _ Hr'. right. left. exact Hr'. }
    pose proof (reads_fun _ _ _ _ Hr (anchor_reads _ _ _ _ _ Ha Hin)) as Hx.
    destruct conf; [injection Hx as -> _; lia|done].
Qed.

(** ** Opening *)

(** A value found in the other slot becomes the anchor. *)
Lemma image_inv_adopt n conf b att img q :
  anchor n conf b -> image_inv n b att img -> reads img (idx (n + 1)) (SlotValid (n + 1) q) -> n + 2 <= u64_max ->
  exists b', anchor (n + 1) (Some q) b' /\ image_inv (n + 1) b' [] img.
Proof.
  intros Ha Hi Hr Hu. pose proof Ha as (Hb & Hn & _ & Hc).
  assert (Hf : (file_len <= length img)%nat).
  { destruct (decide (file_len <= length img)%nat) as [|Hf]; [done|]. unfold reads in Hr.
    rewrite slot_of_short, decode_zero in Hr by (first [apply idx_lt|lia]). done. }
  assert (Hlen : length (slot_of img (idx (n + 1))) = slot_len).
  { unfold slot_of, view. destruct (Nat.leb_spec file_len (length img)) as [_|]; [|lia].
    rewrite length_take, length_drop, length_take. pose proof (idx_lt (n + 1)). unfold FILE_LEN in *. nia. }
  exists (slot_of img (idx (n + 1))). split; [split_and!; try done; lia|]. split; [done| |].
  - intros k Hk. left. unfold slot_of, view. destruct (Nat.leb_spec file_len (length img)) as [_|]; [|lia].
    pose proof (idx_lt (n + 1)). by rewrite lookup_take_lt, lookup_drop, lookup_take_lt by (unfold FILE_LEN in *; nia).
  - intros s q' Hr'. rewrite idx_skip in Hr'. pose proof (reads_fun _ _ _ _ Hr' (anchor_reads _ _ _ _ _ Ha Hi)) as Hx.
    destruct conf; [injection Hx as -> _; lia|done].
Qed.

Lemma best_of_image n conf b att img a a' :
  anchor n conf b -> image_inv n b att img -> reads img 0 a -> reads img 1 a' ->
  match best_slot a a' with
  | Some (s, q) =>
      (s = n /\ conf = Some q /\ image_inv n b [] img) \/
      (s = n + 1 /\ q ∈ att /\ reads img (idx (n + 1)) (SlotValid (n + 1) q))
  | None => conf = None /\ image_inv n b [] img /\ ~ (a = SlotCorrupt /\ a' = SlotCorrupt)
  end.
Proof.
  intros Ha Hi H0 H1. pose proof (anchor_reads _ _ _ _ _ Ha Hi) as Hr. pose proof (ii_other _ _ _ _ Hi) as Ho.
  assert (Hold : (forall s q, reads img (idx (n + 1)) (SlotValid s q) -> 0 < n /\ s < n) -> image_inv n b [] img).
  { intros Hs. destruct Hi as [Il Is _]. split; try done. intros s q Hq. left. eauto. }
  rewrite idx_next in *. destruct Ha as (_ & Hn & _ & Hc). pose proof (idx_lt n) as Hlt.
  destruct (idx n) as [|[|]]; [| |lia]; cbn [Nat.sub] in *.
  - rewrite <- (reads_fun _ _ _ _ Hr H0). destruct a' as [| |s q].
    1-2: destruct conf; cbn; [left|]; split_and!; try naive_solver; apply Hold; intros s q Hq;
      by pose proof (reads_fun _ _ _ _ H1 Hq).
    destruct (Ho s q H1) as [[Hp Hs]|[-> Hq]]; (destruct conf as [p|]; cbn; [|destruct Hc; auto with lia]).
    + destruct (Z.leb_spec s n); [|lia]. left. split_and!; try done. apply Hold. intros s' q' Hq'.
      pose proof (reads_fun _ _ _ _ H1 Hq') as [= <- <-]. auto.
    + destruct (Z.leb_spec (n + 1) n); [lia|]. auto.
  - rewrite <- (reads_fun _ _ _ _ Hr H1). destruct a as [| |s q].
    1-2: destruct conf; cbn; [left|]; split_and!; try naive_solver; apply Hold; intros s q Hq;
      by pose proof (reads_fun _ _ _ _ H0 Hq).
    destruct (Ho s q H0) as [[Hp Hs]|[-> Hq]]; (destruct conf as [p|]; cbn; [|destruct Hc; auto with lia]).
    + destruct (Z.leb_spec n s); [lia|]. left. split_and!; try done. apply Hold. intros s' q' Hq'.
      pose proof (reads_fun _ _ _ _ H0 Hq') as [= <- <-]. auto.
    + destruct (Z.leb_spec n (n + 1)); [|lia]. auto.
Qed.

Lemma detected_source sources img : img ∈ sources -> detected sources img.
Proof. intros Hin i s q _ Hr. apply Exists_exists. eauto. Qed.
End images.

(** ** Runs *)

Section runs.
Context `{Crc32c} (cap : nat) (Hcap : Z.of_nat cap <= u16_max) `{RandomAccessFile F}.
Local Notation slot_len := (SLOT_LEN cap).
Local Notation Checkpoint := (@SlotCheckpoint F).

Definition ck_inv (c : Checkpoint) (conf : option (list Z)) (att : list (list Z)) : Prop :=
  f_sound (cp_file c) /\ exists n b, cp_next_seq c = n + 1 /\ anchor cap n conf b /\
    image_inv cap n b att (f_live (cp_file c)) /\ image_inv cap n b att (f_durable (cp_file c)).

(** The file a power cut leaves: the bytes on disk are a blend of the synced and
    the written ones. *)
Definition power_cut (f f' : F) : Prop :=
  f_sound f' /\ f_durable f' = f_live f' /\ blend (f_durable f) (f_live f) (f_live f') /\
  detected cap [f_durable f; f_live f] (f_live f').

(** The checksum catches every slot a failed write of [payload] tore. *)
Definition tears_detected (c c' : Checkpoint) (payload : list Z) : Prop :=
  let seq := cp_next_seq c in
  let written := splice (f_live (cp_file c)) (idx seq * slot_len) (encode_slot cap seq payload) in
  detected cap [f_live (cp_file c); written] (f_live (cp_file c')) /\
  detected cap [f_durable (cp_file c); written] (f_durable (cp_file c')).

Lemma image_inv_more n b att att' img : att ⊆ att' -> image_inv cap n b att img -> image_inv cap n b att' img.
Proof. intros Hs [Hl Hb Ho]. split; try done. intros s q Hr. destruct (Ho s q Hr) as [|[? ?]]; auto. Qed.

Lemma checkpoint_write_inv c conf att payload :
  ck_inv c conf att -> tears_detected c (fst (checkpoint_write cap c payload)) payload ->
  match checkpoint_write cap c payload with
  | (c', Ok _) => (length payload <= cap)%nat /\ ck_inv c' (Some payload) []
  | (c', Err _) => ck_inv c' conf (payload :: att)
  | (_, Panic) => False
  end.
Proof.
  intros (Hs & n & b & Hseq & Ha & Il & Id). unfold tears_detected, checkpoint_write.
  destruct (Nat.ltb_spec cap (length payload)) as [Hp|Hp]; cbv zeta.
  { intros _. split; [done|]. exists n, b. split_and!; try done; (eapply image_inv_more; [|eassumption]; set_solver). }
  rewrite Hseq. fold (idx (n + 1)). set (slot := encode_slot cap (n + 1) payload).
  set (off := (idx (n + 1) * slot_len)%nat). pose proof (length_encode_slot cap (n + 1) payload Hp) as Hlen.
  pose proof Ha as (_ & Hn & Hu & _).
  destruct (write_all_at (cp_file c) slot off) as [f [|]] eqn:Hw.
  - destruct (write_ok _ _ _ _ Hs Hw) as (Hs1 & Hl1 & Hd1).
    assert (Iw : image_inv cap n b (payload :: att) (f_live f)).
    { rewrite Hl1. rewrite <- (take_ge slot slot_len) by (subst slot; lia). eapply image_inv_write; try done.
      rewrite take_ge by (fold slot; subst slot; lia). intros i s q _ Hr. right. left. exact Hr. }
    destruct (sync_all f) as [f2 [|]] eqn:Hy.
    + destruct (sync_all_ok _ _ Hs1 Hy) as (Hs2 & Hl2 & Hd2). unfold checked_add.
      destruct (Z.leb_spec (n + 1 + 1) u64_max) as [Hb|Hb]; intros _.
      * split; [done|]. split; [done|]. destruct (image_inv_confirm _ Hcap _ _ _ _ _ payload Ha Il Hp ltac:(lia)) as [Ha' Hi'].
        exists (n + 1), slot. cbn [cp_file cp_next_seq]. rewrite Hd2, Hl2, Hl1. done.
      * split; [done|]. exists n, b. cbn [cp_file cp_next_seq]. rewrite Hd2, Hl2. done.
    + destruct (sync_all_err _ _ Hs1 Hy) as (Hs2 & Hl2 & Hd2). cbn [fst cp_file]. intros [_ Hdet].
      split; [done|]. exists n, b. cbn [cp_file cp_next_seq]. rewrite Hl2. split_and!; try done.
      eapply image_inv_blend; [| |exact Hd2|rewrite Hl1, Hd1; exact Hdet]; [|done].
      rewrite Hd1. eapply image_inv_more; [|exact Id]. set_solver.
  - destruct (write_err _ _ _ _ Hs Hw) as (Hs1 & Hd1 & Hl1). cbn [fst cp_file]. intros [Hdet _].
    split; [done|]. exists n, b. cbn [cp_file cp_next_seq]. rewrite Hd1. split_and!; try done.
    + destruct Hl1 as [Hl1|[k Hl1]]; rewrite Hl1 in *; [|by eapply image_inv_write].
      eapply image_inv_more; [|exact Il]. set_solver.
    + eapply image_inv_more; [|exact Id]. set_solver.
Qed.

(** What opening finds, and when it fails. *)
Lemma checkpoint_open_inv f n conf b att :
  f_sound f -> f_durable f = f_live f -> anchor cap n conf b -> image_inv cap n b att (f_live f) ->
  match checkpoint_open cap f with
  | Ok (c, r) => r <> RecDamaged /\ ck_inv c (into_option r) [] /\ (into_option r = conf \/ exists q, r = RecValid q /\ q ∈ att)
  | Err e => (exists n off, read_at f n off = None) \/ e = SegmentFull /\ n + 1 = u64_max
  | Panic => False
  end.
Proof.
  intros Hs Hd Ha Hi. unfold checkpoint_open.
  assert (Hbuf : (exists e, (if (FILE_LEN cap <=? length (f_live f))%nat
      then map_err (fun _ => StIo) (read_exact_at f (FILE_LEN cap) 0) else Ok (replicate (FILE_LEN cap) 0)) = Err e
      /\ exists n off, read_at f n off = None) \/
    (if (FILE_LEN cap <=? length (f_live f))%nat
      then map_err (fun _ => StIo) (read_exact_at f (FILE_LEN cap) 0) else Ok (replicate (FILE_LEN cap) 0))
    = Ok (view cap (f_live f))).
  { unfold view. destruct (Nat.leb_spec (FILE_LEN cap) (length (f_live f))) as [Hl|Hl]; [|by right].
    pose proof (read_exact_fuel_spec f _ _ 0 (le_n (FILE_LEN cap))) as Hr. unfold read_exact_at.
    destruct (read_exact_fuel _ _ _ _) as [x|[]|]; cbn in *; [|by left; eauto|lia|done].
    right. destruct Hr as [-> _]. by rewrite drop_0. }
  destruct Hbuf as [(e & -> & He)| ->]; cbn [res_bind]; [by left|].
  destruct (reads_total cap (f_live f) 0) as [a H0'], (reads_total cap (f_live f) 1) as [a' H1'].
  pose proof (best_of_image _ _ _ _ _ _ _ _ Ha Hi H0' H1') as Hbest.
  unfold reads, slot_of in H0', H1'. rewrite Nat.mul_0_l, drop_0 in H0'. rewrite Nat.mul_1_l in H1'.
  rewrite H0', H1'. cbn [res_bind]. pose proof Ha as (_ & Hn & Hu & _).
  destruct (best_slot a a') as [[s q]|].
  - unfold checked_add. destruct (Z.leb_spec (s + 1) u64_max) as [Hb|Hb].
    + destruct Hbest as [(-> & -> & Hi')|(-> & Hq & Hr)].
      * split_and!; [done| |by left]. split; [done|]. exists n, b. cbn [cp_file cp_next_seq into_option]. rewrite Hd. done.
      * destruct (image_inv_adopt _ _ _ _ _ _ _ Ha Hi Hr ltac:(lia)) as (b' & Ha' & Hi').
        split_and!; [done| |by right; eauto]. split; [done|]. exists (n + 1), b'. cbn [cp_file cp_next_seq]. by rewrite Hd.
    + right. destruct Hbest as [(-> & _)|(-> & _)]; split; try done; lia.
  - destruct Hbest as (-> & Hi' & Hc). assert (Hr : into_option (match a, a' with SlotCorrupt, SlotCorrupt => RecDamaged | _, _ => RecEmpty end) = None)
      by (destruct a, a'; done).
    split_and!; [destruct a, a'; naive_solver| |by left]. rewrite Hr. split; [done|]. exists n, b. cbn [cp_file cp_next_seq].
    rewrite Hd. destruct Ha as (? & ? & ? & -> & ?). done.
Qed.

(** What the owner of a checkpoint sees: writes with their outcome, and what
    opening recovers after a power cut. *)
Inductive CkEvent :=
| Wrote (payload : list Z) (ok : bool)
| Reopened (r : RecoveredCheckpoint).

Inductive ck_step : Checkpoint -> CkEvent -> Checkpoint -> Prop :=
| step_write c payload c' r :
    checkpoint_write cap c payload = (c', r) -> tears_detected c c' payload ->
    ck_step c (Wrote payload (match r with Ok _ => true | _ => false end)) c'
| step_power_cut c f c' r :
    power_cut (cp_file c) f -> checkpoint_open cap f = Ok (c', r) -> ck_step c (Reopened r) c'.

Inductive ck_run : Checkpoint -> list CkEvent -> Checkpoint -> Prop :=
| run_nil c : ck_run c [] c
| run_cons c e c' evs c'' : ck_step c e c' -> ck_run c' evs c'' -> ck_run c (e :: evs) c''.

(** The specification: a register.  A confirmed write sets it, a failed one may
    or may not take effect, at the next crash at the latest; nothing else is
    ever recovered, and a file that crashes alone damaged is never reported. *)
Fixpoint register_allows (conf : option (list Z)) (att : list (list Z)) (evs : list CkEvent) : Prop :=
  match evs with
  | [] => True
  | Wrote payload true :: evs => register_allows (Some payload) [] evs
  | Wrote payload false :: evs => register_allows conf (payload :: att) evs
  | Reopened r :: evs =>
      r <> RecDamaged /\ (into_option r = conf \/ exists q, r = RecValid q /\ q ∈ att) /\
      register_allows (into_option r) [] evs
  end.

Lemma ck_step_inv c e c' conf att :
  ck_inv c conf att -> ck_step c e c' ->
  match e with
  | Wrote payload true => ck_inv c' (Some payload) []
  | Wrote payload false => ck_inv c' conf (payload :: att)
  | Reopened r => r <> RecDamaged /\ (into_option r = conf \/ exists q, r = RecValid q /\ q ∈ att) /\ ck_inv c' (into_option r) []
  end.
Proof.
  intros Hi Hs. destruct Hs as [c payload c' r Hw Ht|c f c' r (Hso & Hd & Hb & Hdet) Ho].
  - pose proof (checkpoint_write_inv c conf att payload Hi) as Hx. rewrite Hw in Hx. specialize (Hx Ht).
    destruct r; [by destruct Hx|done|done].
  - destruct Hi as (_ & n & b & _ & Ha & Il & Id).
    pose proof (checkpoint_open_inv f n conf b att Hso Hd Ha (image_inv_blend _ _ _ _ _ _ _ Id Il Hb Hdet)) as Hx.
    rewrite Ho in Hx. naive_solver.
Qed.

Lemma ck_run_allowed c evs c' conf att : ck_inv c conf att -> ck_run c evs c' -> register_allows conf att evs.
Proof.
  intros Hi Hr. revert conf att Hi. induction Hr as [c|c e c' evs c'' Hs _ IH]; intros conf att Hi; [done|].
  pose proof (ck_step_inv _ _ _ _ _ Hi Hs) as Hx. destruct e as [payload [|]|r]; cbn; [eauto..|]. destruct Hx as (? & ? & ?). eauto.
Qed.

Lemma ck_run_inv c evs c' conf att : ck_inv c conf att -> ck_run c evs c' -> exists conf' att', ck_inv c' conf' att'.
Proof.
  intros Hi Hr. revert conf att Hi. induction Hr as [c|c e c' evs c'' Hs _ IH]; intros conf att Hi; [eauto|].
  pose proof (ck_step_inv _ _ _ _ _ Hi Hs) as Hx. destruct e as [payload [|]|r]; [eauto..|]. destruct Hx as (? & ? & ?). eauto.
Qed.

Lemma fresh_inv f c r :
  f_sound f -> f_live f = [] -> f_durable f = [] -> checkpoint_open cap f = Ok (c, r) -> r = RecEmpty /\ ck_inv c None [].
Proof.
  intros Hs Hl Hd. unfold checkpoint_open. rewrite Hl. cbn [length].
  destruct (Nat.leb_spec (FILE_LEN cap) 0) as [Hz|_]; [unfold FILE_LEN, SLOT_LEN, SLOT_OVERHEAD, SEQ_LEN in Hz; lia|].
  cbn [res_bind]. rewrite drop_replicate, !take_replicate, !decode_zero. cbn. intros [= <- <-]. split; [done|]. split; [done|].
  exists 0, (replicate slot_len 0). cbn [cp_file cp_next_seq]. rewrite Hl, Hd.
  assert (Hi : image_inv cap 0 (replicate slot_len 0) [] []).
  { assert (Hz : (length ([] : list Z) < FILE_LEN cap)%nat)
      by (cbn [length]; unfold FILE_LEN, SLOT_LEN, SLOT_OVERHEAD, SEQ_LEN; lia).
    split; [lia|by right|]. intros s q Hr. unfold reads in Hr.
    by rewrite (slot_of_short cap [] _ (idx_lt _) Hz), decode_zero in Hr. }
  split_and!; try done. split_and!; [apply length_replicate|done..].
Qed.

(** C11: A checkpoint is a crash-safe register.  Over any life of a checkpoint
    from its creation -- writes that succeed, are torn, fail or cannot be
    synced, and power cuts that leave any blend of the synced and the written
    bytes, each followed by opening the file again -- opening recovers the last
    value a write confirmed or a value attempted after it, and it never reports
    damage, as long as the checksum catches torn slots. *)
Theorem checkpoint_is_register f c r evs c' :
  f_sound f -> f_live f = [] -> f_durable f = [] -> checkpoint_open cap f = Ok (c, r) -> ck_run c evs c' ->
  r = RecEmpty /\ register_allows None [] evs.
Proof.
  intros Hs Hl Hd Ho Hr. destruct (fresh_inv f c r Hs Hl Hd Ho) as [-> Hi]. split; [done|]. by eapply ck_run_allowed.
Qed.

(** A power cut never makes a checkpoint unreadable: opening what it left
    fails only when a read does, or when the sequence numbers are used up. *)
Theorem checkpoint_reopens f c r evs c' f' :
  f_sound f -> f_live f = [] -> f_durable f = [] -> checkpoint_open cap f = Ok (c, r) -> ck_run c evs c' ->
  power_cut (cp_file c') f' -> (forall n off, read_at f' n off <> None) -> cp_next_seq c' < u64_max ->
  exists c'' r', checkpoint_open cap f' = Ok (c'', r').
Proof.
  intros Hs Hl Hd Ho Hr (Hso & Hd' & Hb & Hdet) Hread Hseq. destruct (fresh_inv f c r Hs Hl Hd Ho) as [_ Hi].
  destruct (ck_run_inv _ _ _ _ _ Hi Hr) as (conf & att & _ & n & b & Hn & Ha & Il & Id).
  pose proof (checkpoint_open_inv f' n conf b att Hso Hd' Ha (image_inv_blend _ _ _ _ _ _ _ Id Il Hb Hdet)) as Hx.
  destruct (checkpoint_open cap f') as [[c'' r']|e|]; [eauto| |done].
  destruct Hx as [(? & ? & Hno)|[_ Hn']]; [by apply Hread in Hno|lia].
Qed.
End runs.

(** ** Evaluation *)

#[local] Existing Instance castagnoli.

Definition ck_file (fail_sync : bool) (torn : option nat) (s : FileState) : FaultFile FileState :=
  mk_fault s fail_sync false false torn None 0.
Definition rearm (fail_sync : bool) (torn : option nat) (c : @SlotCheckpoint (FaultFile FileState))
    : @SlotCheckpoint (FaultFile FileState) :=
  mk_checkpoint (ck_file fail_sync torn (ff_inner (cp_file c))) (cp_next_seq c).

(** A life of a checkpoint with room for one byte: the first write is torn after
    nine bytes, two are confirmed, then the power fails. *)
Definition ck_start : @SlotCheckpoint (FaultFile FileState) := mk_checkpoint (ck_file false (Some 9%nat) (mem_from_bytes [])) 1.
Definition ck_torn : @SlotCheckpoint (FaultFile FileState) := Eval vm_compute in fst (checkpoint_write 1 ck_start [1]).
Definition ck_one : @SlotCheckpoint (FaultFile FileState) := Eval vm_compute in fst (checkpoint_write 1 ck_torn [2]).
Definition ck_two : @SlotCheckpoint (FaultFile FileState) := Eval vm_compute in fst (checkpoint_write 1 ck_one [3]).
Definition ck_cut : FaultFile FileState :=
  Eval vm_compute in ck_file false None (simulate_power_loss (ff_inner (cp_file ck_two))).

Lemma ck_write_demo (c c' : @SlotCheckpoint (FaultFile FileState)) payload img :
  checkpoint_write 1 c payload = (c', Ok tt) ->
  splice (f_live (cp_file c)) (idx (cp_next_seq c) * SLOT_LEN 1) (encode_slot 1 (cp_next_seq c) payload) = img ->
  f_live (cp_file c') = img -> f_durable (cp_file c') = img -> ck_step 1 c (Wrote payload true) c'.
Proof.
  intros Hw Hi Hl Hd. apply (step_write 1 c payload c' (Ok tt)); [done|]. split; rewrite ?Hl, ?Hd, ?Hi; apply detected_source; set_solver.
Qed.

Definition ck_events : list CkEvent := [Wrote [1] false; Wrote [2] true; Wrote [3] true; Reopened (RecValid [3])].

Lemma demo_run : ck_run 1 ck_start ck_events (mk_checkpoint ck_cut 3).
Proof.
  apply (run_cons 1 _ _ ck_torn).
  { apply (step_write 1 ck_start [1] ck_torn (Err StIo)); [vm_compute; reflexivity|].
    split; intros i s q Hi Hr; (destruct i as [|[|]]; [vm_compute in Hr; discriminate Hr..|lia]). }
  apply (run_cons 1 _ _ ck_one); [eapply ck_write_demo; vm_compute; reflexivity|].
  apply (run_cons 1 _ _ ck_two); [eapply ck_write_demo; vm_compute; reflexivity|].
  apply (run_cons 1 _ _ (mk_checkpoint ck_cut 3)); [|apply run_nil].
  apply (step_power_cut 1 _ ck_cut); [|vm_compute; reflexivity]. split_and!; [|done|intros i; by left|].
  - split; [intros i _ _; reflexivity|done].
  - apply detected_source. set_solver.
Qed.

Lemma checkpoint_is_register_witness :
  RecEmpty = RecEmpty /\ register_allows None [] ck_events.
Proof.
  apply (checkpoint_is_register 1 ltac:(vm_compute; discriminate) (cp_file ck_start) ck_start RecEmpty ck_events (mk_checkpoint ck_cut 3)).
  - split; [intros i _ _; reflexivity|done].
  - reflexivity.
  - reflexivity.
  - vm_compute. reflexivity.
  - exact demo_run.
Defined.

Lemma checkpoint_reopens_witness : exists c r, checkpoint_open 1 ck_cut = Ok (c, r).
Proof.
  apply (checkpoint_reopens 1 ltac:(vm_compute; discriminate) (cp_file ck_start) ck_start RecEmpty ck_events (mk_checkpoint ck_cut 3) ck_cut).
  - split; [intros i _ _; reflexivity|done].
  - reflexivity.
  - reflexivity.
  - vm_compute. reflexivity.
  - exact demo_run.
  - split_and!; [split; [intros i _ _; reflexivity|done]|done|intros i; by left|]. apply detected_source. set_solver.
  - intros n off. discriminate.
  - vm_compute. reflexivity.
Defined.

(** The process dies between the write and the sync of one value, starts again
    without a power cut, and dies in the same way in the next write. *)
Definition ck_killed : @SlotCheckpoint (FaultFile FileState) := fst (checkpoint_write 1 (rearm true None ck_two) [4]).
Definition ck_restarted : res (@SlotCheckpoint (FaultFile FileState) * RecoveredCheckpoint) StorageError :=
  checkpoint_open 1 (cp_file (rearm false None ck_killed)).
Definition ck_killed_again : option (FileState * RecoveredCheckpoint) :=
  match ck_restarted with
  | Ok (c, r) => Some (ff_inner (cp_file (fst (checkpoint_write 1 (rearm true None c) [5]))), r)
  | _ => None
  end.

(** A restart without a power cut breaks the register.  After two confirmed
    values, a process that is killed before the sync of a third recovers that
    third value when it starts again, although it is not on disk, and then
    overwrites the only slot that is.  A power cut in that write can tear both
    slots: opening reports damage, which the code holds to be impossible from
    any crash, and both confirmed values are gone. *)
Theorem restart_loses_checkpoint :
  exists s, ck_killed_again = Some (s, RecValid [4]) /\
  exists m, blend (fs_durable s) (fs_live s) m /\ length m = FILE_LEN 1 /\
    match checkpoint_open 1 (ck_file false None (mem_from_bytes m)) with
    | Ok (_, r) => r = RecDamaged
    | _ => False
    end.
Proof.
  eexists. split; [vm_compute; reflexivity|].
  exists ([4] ++ drop 1 (take 15 (fs_durable (ff_inner (cp_file ck_two)))) ++ [3] ++ drop 16 (fs_durable (ff_inner (cp_file ck_two)))).
  split; [|split; vm_compute; reflexivity].
  intros i. cbn [fs_durable fs_live]. do 31 (destruct i as [|i]; [vm_compute; auto|]). by left.
Qed.
