(* ===== verification/Dedup.v ===== *)
(** * The dedup window ([core/src/dedup.rs])

    A publish may carry a message id; per producer the broker remembers the
    recent ids with the offsets of their records, bounded in number and in age,
    and answers a repeated id with the first offset.  A higher producer epoch
    fences the lower ones and starts an empty window.  The code keeps a queue, a
    hash map and a heap; the specification is a list. *)

From S2P Require Import Prelude Lru.

Record DedupConfig := mk_dedup_config { dc_max_ids : nat; dc_window_nanos : Z; dc_max_producers : nat }.

Inductive DedupDecision :=
| DedupFresh (out_of_window : bool)
| DedupDuplicate (offset : Z)
| DedupFenced (current_epoch : Z).

Record ProducerWindow := mk_window {
  pw_epoch : Z;
  pw_order : list (list Z * Z);
  pw_index : gmap (list Z) (Z * Z);
  pw_last_touch : Z
}.

Definition window_new (epoch now : Z) : ProducerWindow := mk_window epoch [] ∅ now.
Definition window_is_empty (w : ProducerWindow) : bool := bool_decide (pw_index w = ∅).
Definition window_touched (w : ProducerWindow) (now : Z) : ProducerWindow :=
  mk_window (pw_epoch w) (pw_order w) (pw_index w) now.

(** Remove the id from the map, if the map still holds this insertion of it. *)
Definition forget_insertion (index : gmap (list Z) (Z * Z)) (msg_id : list Z) (inserted : Z) : gmap (list Z) (Z * Z) :=
  match index !! msg_id with
  | Some (_, idx_inserted) => if idx_inserted =? inserted then delete msg_id index else index
  | None => index
  end.

Fixpoint expire_front (window_nanos now : Z) (order : list (list Z * Z)) (index : gmap (list Z) (Z * Z)) (evicted : bool)
    : list (list Z * Z) * gmap (list Z) (Z * Z) * bool :=
  match order with
  | [] => ([], index, evicted)
  | (msg_id, inserted) :: rest =>
      if sat_sub now inserted <? window_nanos then (order, index, evicted)
      else expire_front window_nanos now rest (forget_insertion index msg_id inserted) true
  end.

Definition evict_expired (w : ProducerWindow) (window_nanos now : Z) : ProducerWindow * bool :=
  if window_nanos =? 0 then (w, false)
  else
    let '(order, index, evicted) := expire_front window_nanos now (pw_order w) (pw_index w) false in
    (mk_window (pw_epoch w) order index (pw_last_touch w), evicted).

Fixpoint overflow_front (max_ids : nat) (order : list (list Z * Z)) (index : gmap (list Z) (Z * Z))
    : list (list Z * Z) * gmap (list Z) (Z * Z) :=
  match order with
  | [] => ([], index)
  | (msg_id, inserted) :: rest =>
      if (max_ids <? length order)%nat then overflow_front max_ids rest (forget_insertion index msg_id inserted)
      else (order, index)
  end.

Definition evict_overflow (w : ProducerWindow) (max_ids : nat) : ProducerWindow :=
  let '(order, index) := overflow_front max_ids (pw_order w) (pw_index w) in
  mk_window (pw_epoch w) order index (pw_last_touch w).

(** ** The registry *)

Record DedupRegistry := mk_dedup {
  dr_config : DedupConfig;
  dr_producers : gmap (list Z) ProducerWindow;
  dr_lru : list (Z * list Z)
}.

Definition dedup_new (c : DedupConfig) : DedupRegistry :=
  mk_dedup (mk_dedup_config (max (dc_max_ids c) 1) (dc_window_nanos c) (max (dc_max_producers c) 1)) ∅ [].

(** [retain]: expire each window and keep those that still hold an id. *)
Definition reap_empty_windows (r : DedupRegistry) (now : Z) : gmap (list Z) ProducerWindow :=
  let window_nanos := dc_window_nanos (dr_config r) in
  if window_nanos =? 0 then dr_producers r
  else
    filter (fun p => window_is_empty p.2 = false) ((fun w => fst (evict_expired w window_nanos now)) <$> dr_producers r).

Definition dedup_make_room (r : DedupRegistry) (producer_id : list Z) (now : Z) : DedupRegistry :=
  match dr_producers r !! producer_id with
  | Some _ => r
  | None =>
      let cap := dc_max_producers (dr_config r) in
      if (size (dr_producers r) <? cap)%nat then r
      else
        let '(producers, lru) := evict_loop pw_last_touch cap (reap_empty_windows r now) (dr_lru r) in
        mk_dedup (dr_config r) producers lru
  end.

(** Make room, insert the window if it is missing, and touch it. *)
Definition dedup_touch (r : DedupRegistry) (producer_id : list Z) (epoch now : Z) : DedupRegistry * ProducerWindow :=
  let r := dedup_make_room r producer_id now in
  let w := window_touched (default (window_new epoch now) (dr_producers r !! producer_id)) now in
  let producers := <[producer_id := w]> (dr_producers r) in
  (mk_dedup (dr_config r) producers (touch_lru pw_last_touch producers (dr_lru r) producer_id now), w).

Definition dedup_put (r : DedupRegistry) (producer_id : list Z) (w : ProducerWindow) : DedupRegistry :=
  mk_dedup (dr_config r) (<[producer_id := w]> (dr_producers r)) (dr_lru r).

Definition dedup_check (r : DedupRegistry) (producer_id : list Z) (epoch : Z) (msg_id : list Z) (now : Z)
    : DedupRegistry * DedupDecision :=
  let max_ids := dc_max_ids (dr_config r) in
  let window_nanos := dc_window_nanos (dr_config r) in
  let '(r, w) := dedup_touch r producer_id epoch now in
  if epoch <? pw_epoch w then (r, DedupFenced (pw_epoch w))
  else
    let w := if pw_epoch w <? epoch then mk_window epoch [] ∅ (pw_last_touch w) else w in
    let '(w, out_of_window) := evict_expired w window_nanos now in
    let w := evict_overflow w max_ids in
    (dedup_put r producer_id w,
     match pw_index w !! msg_id with
     | Some (offset, _) => DedupDuplicate offset
     | None => DedupFresh out_of_window
     end).

Definition dedup_record (r : DedupRegistry) (producer_id msg_id : list Z) (offset now : Z) : DedupRegistry :=
  let max_ids := dc_max_ids (dr_config r) in
  let window_nanos := dc_window_nanos (dr_config r) in
  let '(r, w) := dedup_touch r producer_id 0 now in
  let w := mk_window (pw_epoch w) (pw_order w ++ [(msg_id, now)]) (<[msg_id := (offset, now)]> (pw_index w)) (pw_last_touch w) in
  let '(w, _) := evict_expired w window_nanos now in
  dedup_put r producer_id (evict_overflow w max_ids).

(** ** Specification: a list of remembered ids per producer *)

Record Remembered := mk_rem { rm_id : list Z; rm_offset : Z; rm_time : Z }.

Definition window_fresh (c : DedupConfig) (now : Z) (m : Remembered) : Prop :=
  dc_window_nanos c = 0 \/ sat_sub now (rm_time m) < dc_window_nanos c.
#[export] Instance window_fresh_dec c now m : Decision (window_fresh c now m).
Proof. unfold window_fresh. apply _. Defined.

Definition last_n {A} (n : nat) (l : list A) : list A := drop (length l - n) l.

(** The ids young enough, and of those the latest [max_ids]. *)
Definition remember (c : DedupConfig) (now : Z) (l : list Remembered) : list Remembered :=
  last_n (dc_max_ids c) (filter (window_fresh c now) l).

Fixpoint find_id (msg_id : list Z) (l : list Remembered) : option Remembered :=
  match l with
  | [] => None
  | m :: l => if decide (rm_id m = msg_id) then Some m else find_id msg_id l
  end.

Local Notation spec_window := (Z * list Remembered)%type.

(** A publish that appends at [offset] when it is fresh. *)
Definition spec_produce (c : DedupConfig) (w : option spec_window) (epoch : Z) (msg_id : list Z) (offset now : Z)
    : spec_window * DedupDecision :=
  let '(e, l) := default (epoch, []) w in
  if epoch <? e then ((e, l), DedupFenced e)
  else
    let l := if e <? epoch then [] else l in
    let kept := remember c now l in
    match find_id msg_id kept with
    | Some m => ((epoch, kept), DedupDuplicate (rm_offset m))
    | None =>
        ((epoch, remember c now (kept ++ [mk_rem msg_id offset now])),
         DedupFresh (existsb (fun m => bool_decide (~ window_fresh c now m)) l))
    end.

(** The code's publish: check, and record when fresh. *)
Definition dedup_produce (r : DedupRegistry) (producer_id : list Z) (epoch : Z) (msg_id : list Z) (offset now : Z)
    : DedupRegistry * DedupDecision :=
  match dedup_check r producer_id epoch msg_id now with
  | (r, DedupFresh o) => (dedup_record r producer_id msg_id offset now, DedupFresh o)
  | (r, d) => (r, d)
  end.

(** ** One window *)

Definition order_of (l : list Remembered) : list (list Z * Z) := (fun m => (rm_id m, rm_time m)) <$> l.

(** The map holds exactly the listed ids. *)
Definition idx_rel (index : gmap (list Z) (Z * Z)) (l : list Remembered) : Prop :=
  NoDup (rm_id <$> l) /\ forall id o t, index !! id = Some (o, t) <-> mk_rem id o t ∈ l.

Definition in_time_order (l : list Remembered) : Prop := StronglySorted (fun a b => rm_time a <= rm_time b) l.

Lemma forget_front m l index :
  idx_rel index (m :: l) -> idx_rel (forget_insertion index (rm_id m) (rm_time m)) l.
Proof.
  intros [Hnd Hin]. cbn in Hnd. apply NoDup_cons in Hnd as [Hm Hnd]. split; [done|].
  assert (Hi : index !! rm_id m = Some (rm_offset m, rm_time m)) by (apply Hin; destruct m; left).
  unfold forget_insertion. rewrite Hi, Z.eqb_refl. intros id o t. rewrite lookup_delete_Some, Hin, elem_of_cons. split.
  - intros [Hne [<-|Hx]]; [by destruct Hne|done].
  - intros Hx. split; [|by right]. intros Heq. apply Hm. rewrite Heq. apply list_elem_of_fmap. by exists (mk_rem id o t).
Qed.

Lemma expire_front_spec c now l : forall index ev,
  dc_window_nanos c <> 0 -> idx_rel index l -> in_time_order l -> (forall m, m ∈ l -> rm_time m <= now) ->
  exists index', expire_front (dc_window_nanos c) now (order_of l) index ev =
    (order_of (filter (window_fresh c now) l), index', ev || existsb (fun m => bool_decide (~ window_fresh c now m)) l) /\
    idx_rel index' (filter (window_fresh c now) l).
Proof.
  induction l as [|m l IH]; intros index ev Hw Hi Hs Hn.
  { exists index. cbn. by rewrite orb_false_r. }
  apply StronglySorted_inv in Hs as [Hs Hm]. rewrite Forall_forall in Hm.
  cbn [order_of fmap list_fmap expire_front]. destruct (Z.ltb_spec (sat_sub now (rm_time m)) (dc_window_nanos c)) as [Hf|Hf].
  - exists index. assert (Hall : forall x, x ∈ m :: l -> window_fresh c now x).
    { intros x Hx. right. apply elem_of_cons in Hx as [->|Hx]; [done|]. pose proof (Hm x Hx). pose proof (Hn m ltac:(left)).
      unfold sat_sub in *. lia. }
    rewrite filter_all by done. split; [|done]. cbn [order_of fmap list_fmap]. f_equal. symmetry.
    assert (existsb (fun m => bool_decide (~ window_fresh c now m)) (m :: l) = false) as ->; [|apply orb_false_r].
    apply not_true_iff_false. intros (x & Hx & Hb)%existsb_exists. apply bool_decide_eq_true in Hb. apply Hb, Hall.
    by apply list_elem_of_In.
  - assert (Hno : ~ window_fresh c now m) by (intros [?|?]; [done|lia]).
    destruct (IH (forget_insertion index (rm_id m) (rm_time m)) true Hw (forget_front _ _ _ Hi) Hs) as (index' & Heq & Hr).
    { intros x Hx. apply Hn. by right. }
    exists index'. rewrite filter_cons_False by done. split; [|done]. fold (order_of l). rewrite Heq. cbn [existsb].
    rewrite (bool_decide_eq_true_2 (~ window_fresh c now m)) by done. cbn [orb]. by rewrite orb_true_r.
Qed.

Lemma overflow_front_spec n l : forall index,
  idx_rel index l -> exists index', overflow_front n (order_of l) index = (order_of (last_n n l), index') /\ idx_rel index' (last_n n l).
Proof.
  induction l as [|m l IH]; intros index Hi; [by exists index|].
  cbn [order_of fmap list_fmap overflow_front]. fold (order_of l). cbn [length].
  unfold order_of at 1. rewrite length_fmap. unfold last_n. cbn [length]. destruct (Nat.ltb_spec n (S (length l))) as [Hl|Hl].
  - destruct (IH _ (forget_front _ _ _ Hi)) as (index' & Heq & Hr). exists index'. rewrite Heq.
    replace (S (length l) - n)%nat with (S (length l - n)) by lia. done.
  - exists index. replace (S (length l) - n)%nat with 0%nat by lia. done.
Qed.

Record win_rel (w : ProducerWindow) (e : Z) (l : list Remembered) (now : Z) : Prop := {
  wr_epoch : pw_epoch w = e;
  wr_order : pw_order w = order_of l;
  wr_index : idx_rel (pw_index w) l;
  wr_sorted : in_time_order l;
  wr_past m : m ∈ l -> rm_time m <= now
}.

Lemma remember_sub c now l m : m ∈ remember c now l -> m ∈ l.
Proof.
  unfold remember, last_n. intros Hm. apply (list_elem_of_filter (window_fresh c now)).
  rewrite <- (take_drop (length (filter (window_fresh c now) l) - dc_max_ids c)). apply elem_of_app. by right.
Qed.

Lemma StronglySorted_drop {A} (R : relation A) n l : StronglySorted R l -> StronglySorted R (drop n l).
Proof. revert n. induction l as [|x l IH]; intros [|n] Hs; try done. apply StronglySorted_inv in Hs as [Hs _]. by apply IH. Qed.

Lemma evict_rel c w e l now :
  win_rel w e l now ->
  let '(w1, out) := evict_expired w (dc_window_nanos c) now in
  win_rel (evict_overflow w1 (dc_max_ids c)) e (remember c now l) now /\
  out = existsb (fun m => bool_decide (~ window_fresh c now m)) l /\
  pw_last_touch (evict_overflow w1 (dc_max_ids c)) = pw_last_touch w.
Proof.
  intros [He Ho Hi Hs Hp]. unfold evict_expired, evict_overflow, remember.
  assert (Hsub : forall l', (forall m, m ∈ last_n (dc_max_ids c) l' -> m ∈ l') /\
    (in_time_order l' -> in_time_order (last_n (dc_max_ids c) l'))).
  { intros l'. split; [|apply StronglySorted_drop]. intros m Hm. unfold last_n in Hm.
    rewrite <- (take_drop (length l' - dc_max_ids c) l'). apply elem_of_app. by right. }
  destruct (Z.eqb_spec (dc_window_nanos c) 0) as [Hz|Hz].
  - assert (Hall : forall x, window_fresh c now x) by (by left). rewrite filter_all by auto. rewrite Ho.
    destruct (overflow_front_spec (dc_max_ids c) l _ Hi) as (index' & -> & Hr).
    destruct (Hsub l) as [Hs1 Hs2]. split; [split; cbn; auto|]. split; [|done].
    symmetry. apply not_true_iff_false. intros (x & _ & Hb)%existsb_exists. apply bool_decide_eq_true in Hb. by apply Hb.
  - rewrite Ho. destruct (expire_front_spec c now l _ false Hz Hi Hs Hp) as (i1 & -> & Hr1). cbn [pw_order pw_index pw_epoch pw_last_touch].
    destruct (overflow_front_spec (dc_max_ids c) _ _ Hr1) as (i2 & -> & Hr2).
    destruct (Hsub (filter (window_fresh c now) l)) as [Hs1 Hs2]. split; [split; cbn; auto|done].
    + apply Hs2, StronglySorted_filter, Hs.
    + intros m Hm%Hs1. apply list_elem_of_filter in Hm as [_ Hm]. auto.
Qed.

Lemma find_id_index index l id :
  idx_rel index l -> find_id id l = match index !! id with Some (o, t) => Some (mk_rem id o t) | None => None end.
Proof.
  intros [Hnd Hin]. assert (Hf : forall m, find_id id l = Some m <-> m ∈ l /\ rm_id m = id).
  { clear Hin. induction l as [|x l IH]; cbn; intros m; [split; [done|]; by intros [?%not_elem_of_nil _]|].
    apply NoDup_cons in Hnd as [Hx Hnd]. specialize (IH Hnd). rewrite elem_of_cons. case_decide as Hd.
    - split; [intros [= <-]; auto|]. intros [[->|Hm] Hid]; [done|]. exfalso. apply Hx. rewrite Hd, <- Hid. by apply list_elem_of_fmap_2.
    - rewrite IH. split; [intros [? ?]; auto|]. intros [[->|?] ?]; [done|done]. }
  destruct (index !! id) as [[o t]|] eqn:Hi.
  - apply Hf. split; [by apply Hin|done].
  - destruct (find_id id l) as [m|]; [|done]. destruct (proj1 (Hf m) eq_refl) as [Hm <-]. destruct m as [i o t]. apply Hin in Hm. cbn in Hi.
    by rewrite Hi in Hm.
Qed.

(** ** Publishing *)

Definition reg_rel (r : DedupRegistry) (spec : gmap (list Z) (Z * list Remembered)) (now : Z) : Prop :=
  forall pid, match dr_producers r !! pid, spec !! pid with
              | Some w, Some (e, l) => win_rel w e l now
              | None, None => True
              | _, _ => False
              end.

Definition has_room (r : DedupRegistry) (pid : list Z) : Prop :=
  is_Some (dr_producers r !! pid) \/ (size (dr_producers r) < dc_max_producers (dr_config r))%nat.

Lemma win_rel_later w e l now now' t : win_rel w e l now -> now <= now' -> win_rel (window_touched w t) e l now'.
Proof. intros [? ? ? ? Hp] Hn. split; try done. intros m Hm. specialize (Hp m Hm). lia. Qed.

Lemma window_new_rel e t now : win_rel (window_new e t) e [] now.
Proof.
  split; try done; [|constructor|by intros m ?%not_elem_of_nil]. split; [constructor|]. intros id o ti. cbn.
  rewrite lookup_empty. split; [done|]. by intros ?%not_elem_of_nil.
Qed.

Lemma dedup_make_room_fits r pid now : has_room r pid -> dedup_make_room r pid now = r.
Proof.
  unfold has_room, dedup_make_room. destruct (dr_producers r !! pid); [done|]. intros [[? ?]|Hs]; [done|].
  by destruct (Nat.ltb_spec (size (dr_producers r)) (dc_max_producers (dr_config r))); [|lia].
Qed.

Lemma dedup_touch_fits r pid epoch now :
  has_room r pid ->
  let w := window_touched (default (window_new epoch now) (dr_producers r !! pid)) now in
  snd (dedup_touch r pid epoch now) = w /\ dr_producers (fst (dedup_touch r pid epoch now)) = <[pid := w]> (dr_producers r) /\
  dr_config (fst (dedup_touch r pid epoch now)) = dr_config r.
Proof. intros Hr. unfold dedup_touch. by rewrite dedup_make_room_fits. Qed.

Lemma reg_rel_put r spec now now' pid w e l :
  reg_rel r spec now -> now <= now' -> win_rel w e l now' ->
  forall r', dr_producers r' = <[pid := w]> (dr_producers r) -> reg_rel r' (<[pid := (e, l)]> spec) now'.
Proof.
  intros Hr Hn Hw r' Hp q. rewrite Hp. destruct (decide (q = pid)) as [->|Hne]; [by rewrite !lookup_insert_eq|].
  rewrite !lookup_insert_ne by done. specialize (Hr q). destruct (dr_producers r !! q) as [v|], (spec !! q) as [[e' l']|]; try done.
  destruct Hr as [? ? ? ? Hpast]. split; try done. intros m Hm. specialize (Hpast m Hm). lia.
Qed.

(** The record that follows a fresh check. *)
Lemma dedup_record_rel r pid id off now w e l c :
  dr_producers r !! pid = Some w -> dr_config r = c -> win_rel w e l now -> find_id id l = None ->
  exists w', dr_producers (dedup_record r pid id off now) = <[pid := w']> (dr_producers r) /\
    dr_config (dedup_record r pid id off now) = c /\ win_rel w' e (remember c now (l ++ [mk_rem id off now])) now.
Proof.
  intros Hw Hc Hr Hno. unfold dedup_record. rewrite Hc.
  destruct (dedup_touch_fits r pid 0 now) as (H1 & H2 & H3); [left; by eexists|].
  destruct (dedup_touch r pid 0 now) as [r1 w1]. cbn [fst snd] in *. rewrite Hw in H1. cbn [default] in H1. subst w1.
  set (w2 := mk_window _ _ _ _).
  assert (Hr2 : win_rel w2 e (l ++ [mk_rem id off now]) now).
  { destruct Hr as [He Ho Hi Hs Hp]. pose proof Hi as [Hnd Hin].
    assert (Hnew : id ∉ rm_id <$> l).
    { intros (m & Hid & Hm)%list_elem_of_fmap. destruct m as [i o t]. cbn in Hid. subst i. rewrite (find_id_index _ _ _ Hi) in Hno.
      apply Hin in Hm. by rewrite Hm in Hno. }
    split; cbn; [done|by rewrite Ho; unfold order_of; rewrite fmap_app| | |].
    - split; [rewrite fmap_app; apply NoDup_app; split_and!; [done|set_solver|apply NoDup_singleton]|].
      intros i o t. rewrite elem_of_app, list_elem_of_singleton. destruct (decide (i = id)) as [->|Hne].
      + rewrite lookup_insert_eq. split; [intros [= <- <-]; by right|]. intros [Hm|[= -> ->]]; [|done].
        destruct Hnew. apply list_elem_of_fmap. by exists (mk_rem id o t).
      + rewrite lookup_insert_ne by done. rewrite Hin. naive_solver.
    - unfold in_time_order. clear -Hs Hp. induction Hs as [|m l Hs IH Hm]; cbn; [repeat constructor|].
      constructor; [apply IH; intros; apply Hp; by right|]. apply Forall_app. split; [done|]. constructor; [|done].
      cbn. apply Hp. left.
    - intros m [Hm|Hm%list_elem_of_singleton]%elem_of_app; [auto|subst m; cbn; lia]. }
  pose proof (evict_rel c w2 e _ now Hr2) as Hev. destruct (evict_expired w2 _ now) as [w3 out]. destruct Hev as (Hw3 & _).
  exists (evict_overflow w3 (dc_max_ids c)). cbn [dedup_put dr_producers dr_config]. rewrite H2, H3.
  split; [by rewrite insert_insert_eq|done].
Qed.

Lemma dedup_produce_rel r spec c pid epoch id off now0 now :
  reg_rel r spec now0 -> now0 <= now -> dr_config r = c -> has_room r pid ->
  let '(r', d) := dedup_produce r pid epoch id off now in
  let '(w', d') := spec_produce c (spec !! pid) epoch id off now in
  d = d' /\ reg_rel r' (<[pid := w']> spec) now /\ dr_config r' = c /\ dom (dr_producers r') = {[pid]} ∪ dom (dr_producers r).
Proof.
  intros Hr Hn Hc Hroom. unfold dedup_produce, dedup_check. rewrite Hc.
  destruct (dedup_touch_fits r pid epoch now Hroom) as (H1 & H2 & H3).
  destruct (dedup_touch r pid epoch now) as [r1 w1]. cbn [fst snd] in *. rewrite <- H1 in H2.
  assert (Hrel : exists e l, default (epoch, []) (spec !! pid) = (e, l) /\ win_rel w1 e l now).
  { specialize (Hr pid). destruct (dr_producers r !! pid) as [w|], (spec !! pid) as [[e l]|]; try done; cbn [default] in *; subst w1.
    - exists e, l. split; [done|]. by eapply win_rel_later.
    - exists epoch, []. split; [done|]. apply (win_rel_later _ _ _ now); [apply window_new_rel|done]. }
  destruct Hrel as (e & l & Hdef & Hw1). unfold spec_produce. rewrite Hdef, (wr_epoch _ _ _ _ Hw1).
  destruct (Z.ltb_spec epoch e) as [Hlt|Hge].
  { split; [done|]. split; [exact (reg_rel_put r spec now0 now pid w1 e l Hr Hn Hw1 r1 H2)|]. split; [congruence|].
    rewrite H2. apply dom_insert_L. }
  set (l1 := if e <? epoch then [] else l). set (w2 := if e <? epoch then _ else w1).
  assert (Hw2 : win_rel w2 epoch l1 now).
  { subst w2 l1. destruct (Z.ltb_spec e epoch); [apply (window_new_rel epoch (pw_last_touch w1))|]. by replace epoch with e by lia. }
  pose proof (evict_rel c w2 epoch l1 now Hw2) as Hev. destruct (evict_expired w2 (dc_window_nanos c) now) as [w3 out].
  destruct Hev as (Hw3 & -> & _). set (w4 := evict_overflow w3 (dc_max_ids c)) in *.
  assert (Hput : dr_producers (dedup_put r1 pid w4) = <[pid := w4]> (dr_producers r))
    by (cbn; rewrite H2; apply insert_insert_eq).
  rewrite (find_id_index _ _ id (wr_index _ _ _ _ Hw3)). destruct (pw_index w4 !! id) as [[o t]|] eqn:Hidx.
  - split; [done|]. split; [exact (reg_rel_put r spec now0 now pid w4 epoch _ Hr Hn Hw3 _ Hput)|]. split; [cbn; congruence|].
    rewrite Hput. apply dom_insert_L.
  - destruct (dedup_record_rel (dedup_put r1 pid w4) pid id off now w4 epoch (remember c now l1) c) as (w5 & Hp5 & Hc5 & Hw5).
    + rewrite Hput. apply lookup_insert_eq.
    + cbn. congruence.
    + done.
    + by rewrite (find_id_index _ _ id (wr_index _ _ _ _ Hw3)), Hidx.
    + rewrite Hput, insert_insert_eq in Hp5. split; [done|].
      split; [exact (reg_rel_put r spec now0 now pid w5 epoch _ Hr Hn Hw5 _ Hp5)|]. split; [done|]. rewrite Hp5. apply dom_insert_L.
Qed.

Record Publish := mk_publish { pb_producer : list Z; pb_epoch : Z; pb_id : list Z; pb_offset : Z; pb_now : Z }.

Fixpoint dedup_run (r : DedupRegistry) (ops : list Publish) : list DedupDecision :=
  match ops with
  | [] => []
  | p :: ops =>
      let '(r, d) := dedup_produce r (pb_producer p) (pb_epoch p) (pb_id p) (pb_offset p) (pb_now p) in
      d :: dedup_run r ops
  end.

Fixpoint spec_run (c : DedupConfig) (m : gmap (list Z) (Z * list Remembered)) (ops : list Publish) : list DedupDecision :=
  match ops with
  | [] => []
  | p :: ops =>
      let '(w, d) := spec_produce c (m !! pb_producer p) (pb_epoch p) (pb_id p) (pb_offset p) (pb_now p) in
      d :: spec_run c (<[pb_producer p := w]> m) ops
  end.

Definition publish_times (now : Z) (ops : list Publish) : Prop := StronglySorted Z.le (now :: (pb_now <$> ops)).

Lemma dedup_run_spec c ops all : forall r spec now,
  dr_config r = c -> reg_rel r spec now -> publish_times now ops ->
  (size all <= dc_max_producers c)%nat -> dom (dr_producers r) ⊆ all -> (forall p, p ∈ ops -> pb_producer p ∈ all) ->
  dedup_run r ops = spec_run c spec ops.
Proof.
  induction ops as [|p ops IH]; intros r spec now Hc Hr Ht Hsz Hdom Hall; [done|]. cbn [dedup_run spec_run].
  unfold publish_times in Ht. cbn [fmap list_fmap] in Ht. apply StronglySorted_inv in Ht as [Ht Hle].
  apply Forall_cons in Hle as [Hn _].
  assert (Hroom : has_room r (pb_producer p)).
  { destruct (dr_producers r !! pb_producer p) as [w|] eqn:Hp; [left; by rewrite Hp|]. right. rewrite Hc, <- size_dom.
    eapply Nat.lt_le_trans; [|exact Hsz]. apply subset_size. split; [done|]. intros Hsub.
    apply not_elem_of_dom in Hp. apply Hp, Hsub, Hall. left. }
  pose proof (dedup_produce_rel r spec c _ (pb_epoch p) (pb_id p) (pb_offset p) now (pb_now p) Hr Hn Hc Hroom) as Hs.
  destruct (dedup_produce _ _ _ _ _ _) as [r' d], (spec_produce _ _ _ _ _ _) as [w' d'].
  destruct Hs as (-> & Hr' & Hc' & Hd). f_equal. apply (IH r' _ (pb_now p)); try done.
  - rewrite Hd. apply union_subseteq. split; [|done]. apply singleton_subseteq_l. apply Hall. left.
  - intros q Hq. apply Hall. by right.
Qed.

(** C23: The dedup registry remembers exactly the recent ids.  For publishes in
    clock order from no more producers than the registry tracks, the queue, the
    hash map and the heap answer as a list per producer does that keeps the ids
    of the current epoch younger than the window, the latest [max_ids] of them:
    a repeated id gets the offset of its first record, a stale epoch is fenced,
    any other id is fresh, and the out-of-window flag is raised exactly when an
    id has aged out. *)
Theorem dedup_refines_list c ops now :
  publish_times now ops ->
  (size (list_to_set (pb_producer <$> ops) : gset (list Z)) <= dc_max_producers (dr_config (dedup_new c)))%nat ->
  dedup_run (dedup_new c) ops = spec_run (dr_config (dedup_new c)) ∅ ops.
Proof.
  intros Ht Hsz. eapply (dedup_run_spec _ _ (list_to_set (pb_producer <$> ops))); [done| |exact Ht|exact Hsz| |].
  - intros pid. cbn [dedup_new dr_producers]. by rewrite !lookup_empty.
  - cbn. set_solver.
  - intros p Hp. apply elem_of_list_to_set. by apply list_elem_of_fmap_2.
Qed.

(** ** Memory *)

Definition win_bound (n : nat) (w : ProducerWindow) : Prop :=
  (length (pw_order w) <= n)%nat /\ forall id o t, pw_index w !! id = Some (o, t) -> (id, t) ∈ pw_order w.

Lemma forget_sub (index : gmap (list Z) (Z * Z)) id t rest :
  (forall i o u, index !! i = Some (o, u) -> (i, u) ∈ (id, t) :: rest) ->
  forall i o u, forget_insertion index id t !! i = Some (o, u) -> (i, u) ∈ rest.
Proof.
  intros Hin i o u Hi. unfold forget_insertion in Hi. destruct (index !! id) as [[o' t']|] eqn:Hid.
  - destruct (Z.eqb_spec t' t) as [->|Hne].
    + apply lookup_delete_Some in Hi as [Hne Hi]. apply Hin in Hi as [[= -> ->]|Hi]%elem_of_cons; [done|done].
    + pose proof (Hin i o u Hi) as [[= -> ->]|Hx]%elem_of_cons; [|done]. rewrite Hid in Hi. by injection Hi as _ ->.
  - pose proof (Hin i o u Hi) as [[= -> ->]|Hx]%elem_of_cons; [by rewrite Hid in Hi|done].
Qed.

Lemma expire_front_bound n wn now order : forall index ev,
  (length order <= n)%nat -> (forall i o u, index !! i = Some (o, u) -> (i, u) ∈ order) ->
  let '(order', index', _) := expire_front wn now order index ev in
  (length order' <= n)%nat /\ forall i o u, index' !! i = Some (o, u) -> (i, u) ∈ order'.
Proof.
  induction order as [|[id t] order IH]; intros index ev Hl Hin; cbn [expire_front]; [done|].
  destruct (sat_sub now t <? wn); [done|].
  apply IH; [cbn in Hl; lia|]. by apply forget_sub.
Qed.

Lemma overflow_front_bound n order : forall index,
  (forall i o u, index !! i = Some (o, u) -> (i, u) ∈ order) ->
  let '(order', index') := overflow_front n order index in
  (length order' <= n)%nat /\ forall i o u, index' !! i = Some (o, u) -> (i, u) ∈ order'.
Proof.
  induction order as [|[id t] order IH]; intros index Hin; cbn [overflow_front]; [split; [apply Nat.le_0_l|exact Hin]|].
  destruct (Nat.ltb_spec n (length ((id, t) :: order))) as [|Hl]; [apply IH; by apply forget_sub|done].
Qed.

Lemma evict_bound n w wn now :
  (forall id o t, pw_index w !! id = Some (o, t) -> (id, t) ∈ pw_order w) ->
  win_bound n (evict_overflow (fst (evict_expired w wn now)) n) /\
  (forall m, win_bound m w -> win_bound m (fst (evict_expired w wn now))).
Proof.
  intros Hin. unfold evict_expired. destruct (wn =? 0); cbn [fst].
  - split; [|done]. unfold evict_overflow. pose proof (overflow_front_bound n _ _ Hin) as Ho.
    by destruct (overflow_front _ _ _).
  - pose proof (expire_front_bound (length (pw_order w)) wn now _ _ false (le_n _) Hin) as He.
    split.
    + destruct (expire_front _ _ _ _ _) as [[o1 i1] b]. destruct He as [_ He]. unfold evict_overflow. cbn [fst pw_order pw_index].
      pose proof (overflow_front_bound n _ _ He) as Ho. by destruct (overflow_front _ _ _).
    + intros m [Hm _]. pose proof (expire_front_bound m wn now _ _ false Hm Hin) as He'. by destruct (expire_front _ _ _ _ _) as [[o1 i1] b].
Qed.

Record dedup_inv (r : DedupRegistry) : Prop := {
  di_caps : (0 < dc_max_producers (dr_config r))%nat;
  di_size : (size (dr_producers r) <= dc_max_producers (dr_config r))%nat;
  di_lru : lru_ok pw_last_touch (dr_producers r) (dr_lru r);
  di_heap : (length (dr_lru r) <= size (dr_producers r) * 2)%nat;
  di_windows pid w : dr_producers r !! pid = Some w -> win_bound (dc_max_ids (dr_config r)) w
}.

Lemma reap_lookup r now pid w :
  reap_empty_windows r now !! pid = Some w ->
  exists w0, dr_producers r !! pid = Some w0 /\ pw_last_touch w0 = pw_last_touch w /\
    (w = w0 \/ w = fst (evict_expired w0 (dc_window_nanos (dr_config r)) now)).
Proof.
  unfold reap_empty_windows. destruct (_ =? 0); [eauto|]. intros [Hw _]%map_lookup_filter_Some.
  rewrite lookup_fmap in Hw. destruct (dr_producers r !! pid) as [w0|]; [|done]. cbn in Hw. injection Hw as <-.
  exists w0. split; [done|]. split; [|by right]. unfold evict_expired. case_match; [done|].
  by destruct (expire_front _ _ _ _ _) as [[? ?] ?].
Qed.

Lemma reap_size r now : (size (reap_empty_windows r now) <= size (dr_producers r))%nat.
Proof.
  rewrite <- !size_dom. apply subseteq_size. intros pid [w Hw]%elem_of_dom. apply elem_of_dom.
  apply reap_lookup in Hw as (w0 & Hw0 & _). by eexists.
Qed.

Lemma dedup_make_room_inv r pid now :
  dedup_inv r ->
  let r' := dedup_make_room r pid now in
  dr_config r' = dr_config r /\ has_room r' pid /\ (size (dr_producers r') <= dc_max_producers (dr_config r))%nat /\
  lru_ok pw_last_touch (dr_producers r') (dr_lru r') /\
  forall q w, dr_producers r' !! q = Some w -> win_bound (dc_max_ids (dr_config r)) w.
Proof.
  intros [Hc Hs Hl _ Hw]. unfold dedup_make_room. destruct (dr_producers r !! pid) as [w|] eqn:Hp.
  { split_and!; try done. left. rewrite Hp. by eexists. }
  destruct (Nat.ltb_spec (size (dr_producers r)) (dc_max_producers (dr_config r))) as [Hlt|Hge].
  { split_and!; try done. by right. }
  assert (Hl' : lru_ok pw_last_touch (reap_empty_windows r now) (dr_lru r)).
  { destruct Hl as [Hsort Hin]. split; [done|]. intros k v Hk. apply reap_lookup in Hk as (v0 & Hk & <- & _). by apply Hin. }
  destruct (evict_loop_spec pw_last_touch _ _ _ Hc Hl') as [(Hsub & Hsm & _) Hok].
  destruct (evict_loop _ _ _ _) as [producers lru]. cbn in *. split_and!; try done; [by right|lia|].
  intros q w Hq. pose proof (lookup_weaken _ _ _ _ Hq Hsub) as Hr. apply reap_lookup in Hr as (w0 & H0 & _ & [->| ->]); [eauto|].
  pose proof (Hw q w0 H0) as Hb. apply (evict_bound (dc_max_ids (dr_config r))); [apply Hb|done].
Qed.

Lemma dedup_touch_inv r pid epoch now :
  dedup_inv r ->
  let '(r', w) := dedup_touch r pid epoch now in
  dedup_inv r' /\ dr_config r' = dr_config r /\ dr_producers r' !! pid = Some w /\ pw_last_touch w = now /\
  win_bound (dc_max_ids (dr_config r)) w.
Proof.
  intros Hi. unfold dedup_touch. destruct (dedup_make_room_inv r pid now Hi) as (Hc & Hroom & Hs & Hl & Hw).
  set (r1 := dedup_make_room r pid now) in *. set (w := window_touched _ now).
  assert (Hwb : win_bound (dc_max_ids (dr_config r)) w).
  { subst w. destruct (dr_producers r1 !! pid) as [w0|] eqn:Hp; [exact (Hw pid w0 Hp)|]. split; cbn; [lia|].
    intros id o t Hx. by rewrite lookup_empty in Hx. }
  split; [|split_and!; try done; apply lookup_insert_eq].
  split; cbn [dr_config dr_producers dr_lru].
  - rewrite Hc. apply Hi.
  - rewrite Hc. unfold has_room in Hroom. rewrite Hc in Hroom. rewrite map_size_insert.
    destruct (dr_producers r1 !! pid); [unfold id; lia|]. destruct Hroom as [[? ?]|?]; [done|lia].
  - eapply touch_lru_ok; [|apply lookup_insert_eq|done]. rewrite delete_insert_eq. eapply lru_ok_subset; [apply delete_subseteq|done].
  - apply touch_lru_length.
  - rewrite Hc. intros q v. destruct (decide (q = pid)) as [->|Hne]; [rewrite lookup_insert_eq; by intros [= <-]|].
    rewrite lookup_insert_ne by done. apply Hw.
Qed.

Lemma dedup_put_inv r pid w w' :
  dedup_inv r -> dr_producers r !! pid = Some w -> pw_last_touch w' = pw_last_touch w -> win_bound (dc_max_ids (dr_config r)) w' ->
  dedup_inv (dedup_put r pid w').
Proof.
  intros [Hc Hs Hl Hh Hw] Hp Ht Hb. assert (Hsz : size (<[pid := w']> (dr_producers r)) = size (dr_producers r))
    by (apply map_size_insert_Some; by rewrite Hp).
  split; cbn [dedup_put dr_config dr_producers dr_lru]; rewrite ?Hsz; try done.
  - destruct Hl as [Hsort Hin]. split; [done|]. intros k v. destruct (decide (k = pid)) as [->|Hne].
    + rewrite lookup_insert_eq. intros [= <-]. rewrite Ht. by apply Hin.
    + rewrite lookup_insert_ne by done. apply Hin.
  - intros q v. destruct (decide (q = pid)) as [->|Hne]; [rewrite lookup_insert_eq; by intros [= <-]|].
    rewrite lookup_insert_ne by done. apply Hw.
Qed.

Lemma evict_touch w n wn now :
  pw_last_touch (evict_overflow (fst (evict_expired w wn now)) n) = pw_last_touch w.
Proof.
  unfold evict_overflow. destruct (overflow_front _ _ _). cbn. unfold evict_expired. case_match; [done|].
  by destruct (expire_front _ _ _ _ _) as [[? ?] ?].
Qed.

Inductive DedupOp :=
| OpCheck (producer_id : list Z) (epoch : Z) (msg_id : list Z) (now : Z)
| OpRecord (producer_id msg_id : list Z) (offset now : Z).

Definition dedup_op (r : DedupRegistry) (o : DedupOp) : DedupRegistry :=
  match o with
  | OpCheck producer_id epoch msg_id now => fst (dedup_check r producer_id epoch msg_id now)
  | OpRecord producer_id msg_id offset now => dedup_record r producer_id msg_id offset now
  end.

Lemma dedup_op_inv r o : dedup_inv r -> dedup_inv (dedup_op r o).
Proof.
  intros Hi. destruct o as [pid epoch id now|pid id off now]; cbn [dedup_op].
  - unfold dedup_check. pose proof (dedup_touch_inv r pid epoch now Hi) as Ht.
    destruct (dedup_touch r pid epoch now) as [r1 w]. destruct Ht as (Hi1 & Hc1 & Hp & Hlt & Hb).
    destruct (epoch <? pw_epoch w); [done|].
    set (w2 := if pw_epoch w <? epoch then mk_window epoch [] ∅ (pw_last_touch w) else w).
    assert (Hw2 : win_bound (dc_max_ids (dr_config r)) w2 /\ pw_last_touch w2 = pw_last_touch w).
    { subst w2. case_match; [|done]. split; [|done]. split; cbn; [lia|]. intros i o t Hx. by rewrite lookup_empty in Hx. }
    destruct Hw2 as [Hb2 Ht2]. destruct (evict_bound (dc_max_ids (dr_config r)) w2 (dc_window_nanos (dr_config r)) now) as [He _]; [apply Hb2|].
    pose proof (evict_touch w2 (dc_max_ids (dr_config r)) (dc_window_nanos (dr_config r)) now) as Het.
    destruct (evict_expired w2 _ now) as [w3 out]. cbn [fst] in *. eapply dedup_put_inv; [done|done|congruence|by rewrite Hc1].
  - unfold dedup_record. pose proof (dedup_touch_inv r pid 0 now Hi) as Ht.
    destruct (dedup_touch r pid 0 now) as [r1 w]. destruct Ht as (Hi1 & Hc1 & Hp & Hlt & Hb). set (w2 := mk_window _ _ _ _).
    destruct (evict_bound (dc_max_ids (dr_config r)) w2 (dc_window_nanos (dr_config r)) now) as [He _].
    { intros i o t. cbn. intros Hx. apply elem_of_app. destruct (decide (i = id)) as [->|Hne].
      - rewrite lookup_insert_eq in Hx. injection Hx as _ <-. right. by apply list_elem_of_singleton.
      - rewrite lookup_insert_ne in Hx by done. left. destruct Hb as [_ Hb]. by eapply Hb. }
    pose proof (evict_touch w2 (dc_max_ids (dr_config r)) (dc_window_nanos (dr_config r)) now) as Het.
    destruct (evict_expired w2 _ now) as [w3 out]. cbn [fst] in *. eapply dedup_put_inv; [done|done|by rewrite Het|by rewrite Hc1].
Qed.

Lemma dedup_op_config r o : dedup_inv r -> dr_config (dedup_op r o) = dr_config r.
Proof.
  intros Hi. destruct o as [pid epoch id now|pid id off now]; cbn [dedup_op]; [unfold dedup_check|unfold dedup_record].
  - pose proof (dedup_touch_inv r pid epoch now Hi) as Ht. destruct (dedup_touch r pid epoch now) as [r1 w]. destruct Ht as (_ & Hc & _).
    case_match; [done|]. by destruct (evict_expired _ _ _).
  - pose proof (dedup_touch_inv r pid 0 now Hi) as Ht. destruct (dedup_touch r pid 0 now) as [r1 w]. destruct Ht as (_ & Hc & _).
    by destruct (evict_expired _ _ _).
Qed.

(** C39: The dedup registry is bounded against any client.  Whatever producer
    ids, message ids, epochs and times a run of checks and records uses, the
    registry holds at most [max_producers] windows, each with at most [max_ids]
    queued insertions and no more map entries than that, and at most two heap
    entries per window. *)
Theorem dedup_bounded c ops :
  let r := foldl dedup_op (dedup_new c) ops in
  (size (dr_producers r) <= max (dc_max_producers c) 1)%nat /\ (length (dr_lru r) <= 2 * max (dc_max_producers c) 1)%nat /\
  forall pid w, dr_producers r !! pid = Some w ->
    (length (pw_order w) <= max (dc_max_ids c) 1)%nat /\ (size (pw_index w) <= length (pw_order w))%nat.
Proof.
  assert (Hi : forall r, dedup_inv r -> dr_config r = dr_config (dedup_new c) ->
    dedup_inv (foldl dedup_op r ops) /\ dr_config (foldl dedup_op r ops) = dr_config (dedup_new c)).
  { induction ops as [|o ops IH]; intros r Hr Hc; [done|]. cbn [foldl]. apply IH; [by apply dedup_op_inv|]. by rewrite dedup_op_config. }
  destruct (Hi (dedup_new c)) as [[Hc Hs Hl Hh Hw] Hcfg]; [|done|].
  { split; cbn; [lia|rewrite map_size_empty; lia| |done|]; [split; [constructor|]|]; intros k v Hk; by rewrite lookup_empty in Hk. }
  set (r := foldl dedup_op (dedup_new c) ops) in *. rewrite Hcfg in Hs, Hw. cbn in Hs, Hw. cbv zeta.
  split; [done|]. split; [lia|]. intros pid w Hp. destruct (Hw pid w Hp) as [Hlen Hin]. split; [done|].
  rewrite <- size_dom, <- (length_fmap fst (pw_order w)).
  apply submseteq_length, NoDup_submseteq; [apply NoDup_elements|]. intros id [[o t] Hx]%elem_of_elements%elem_of_dom.
  apply list_elem_of_fmap. exists (id, t). split; [done|]. by eapply Hin.
Qed.

(** ** Evaluation *)

Definition demo_publishes : list Publish :=
  [mk_publish [1] 0 [7] 10 0; mk_publish [1] 0 [7] 11 5; mk_publish [2] 0 [7] 12 6; mk_publish [1] 0 [7] 13 200;
   mk_publish [1] 1 [7] 14 210; mk_publish [1] 0 [9] 15 211].

Lemma dedup_refines_list_witness :
  dedup_run (dedup_new (mk_dedup_config 2 100 2)) demo_publishes =
  [DedupFresh false; DedupDuplicate 10; DedupFresh false; DedupFresh true; DedupFresh false; DedupFenced 1].
Proof.
  rewrite (dedup_refines_list (mk_dedup_config 2 100 2) demo_publishes 0).
  - vm_compute. reflexivity.
  - repeat constructor; vm_compute; discriminate.
  - apply Nat.leb_le. vm_compute. reflexivity.
Defined.
