(* ===== verification/ProducerSeq.v ===== *)
(** * Idempotent producers ([core/src/producer_seq.rs])

    A producer numbers its publishes; the broker keeps, per producer and epoch,
    the last sequence number it accepted and the offset of that record.  The
    registry, its eviction, and the snapshot that carries it over a restart. *)

From S2P Require Import Prelude Bytes Lru.

Record ProducerSeq := mk_pseq {
  ps_epoch : Z;
  ps_last_seq : option Z;
  ps_last_offset : Z;
  ps_last_touch : Z
}.

Inductive SeqDecision :=
| SeqFresh
| SeqDuplicate (offset : Z)
| SeqOutOfOrder (expected : Z)
| SeqFenced (current_epoch : Z).

Record ProducerSeqRegistry := mk_seqs {
  sr_max_producers : nat;
  sr_producers : gmap (list Z) ProducerSeq;
  sr_lru : list (Z * list Z)
}.

Definition DEFAULT_MAX_SEQ_PRODUCERS : nat := 4096.

Definition seqs_new (max_producers : nat) : ProducerSeqRegistry := mk_seqs (max max_producers 1) ∅ [].

Definition high_water (r : ProducerSeqRegistry) (producer_id : list Z) : option (Z * option Z * Z) :=
  match sr_producers r !! producer_id with
  | Some p => Some (ps_epoch p, ps_last_seq p, ps_last_offset p)
  | None => None
  end.

Definition seq_make_room (r : ProducerSeqRegistry) (producer_id : list Z) : ProducerSeqRegistry :=
  match sr_producers r !! producer_id with
  | Some _ => r
  | None =>
      let '(producers, lru) := evict_loop ps_last_touch (sr_max_producers r) (sr_producers r) (sr_lru r) in
      mk_seqs (sr_max_producers r) producers lru
  end.

Definition seq_touched (p : ProducerSeq) (now : Z) : ProducerSeq :=
  mk_pseq (ps_epoch p) (ps_last_seq p) (ps_last_offset p) now.

(** Write the entry back and touch the heap. *)
Definition seq_put (r : ProducerSeqRegistry) (producer_id : list Z) (p : ProducerSeq) (now : Z) : ProducerSeqRegistry :=
  let producers := <[producer_id := p]> (sr_producers r) in
  mk_seqs (sr_max_producers r) producers (touch_lru ps_last_touch producers (sr_lru r) producer_id now).

(** The decision on an entry whose epoch is the presented one. *)
Definition seq_decide (p : ProducerSeq) (seq : Z) : SeqDecision :=
  match ps_last_seq p with
  | None => SeqFresh
  | Some last =>
      if seq <=? last then SeqDuplicate (ps_last_offset p)
      else if seq =? last + 1 then SeqFresh
      else SeqOutOfOrder (last + 1)
  end.

Definition seq_check (r : ProducerSeqRegistry) (producer_id : list Z) (epoch seq now : Z) : ProducerSeqRegistry * SeqDecision :=
  let r := seq_make_room r producer_id in
  let entry := default (mk_pseq epoch None 0 now) (sr_producers r !! producer_id) in
  let entry := seq_touched entry now in
  if epoch <? ps_epoch entry then (seq_put r producer_id entry now, SeqFenced (ps_epoch entry))
  else
    let entry := if ps_epoch entry <? epoch then mk_pseq epoch None (ps_last_offset entry) now else entry in
    (seq_put r producer_id entry now, seq_decide entry seq).

Definition seq_record (r : ProducerSeqRegistry) (producer_id : list Z) (epoch seq offset now : Z) : ProducerSeqRegistry :=
  let r := seq_make_room r producer_id in
  let entry := default (mk_pseq epoch None offset now) (sr_producers r !! producer_id) in
  let entry := seq_touched entry now in
  if epoch <? ps_epoch entry then seq_put r producer_id entry now
  else
    let entry := if ps_epoch entry <? epoch then mk_pseq epoch None (ps_last_offset entry) now else entry in
    let advance := match ps_last_seq entry with None => true | Some last => last <? seq end in
    let entry := if advance then mk_pseq (ps_epoch entry) (Some seq) offset now else entry in
    seq_put r producer_id entry now.

Definition seq_restore (r : ProducerSeqRegistry) (producer_id : list Z) (epoch last_seq last_offset now : Z) : ProducerSeqRegistry :=
  seq_put (seq_make_room r producer_id) producer_id (mk_pseq epoch (Some last_seq) last_offset now) now.

(** ** The snapshot *)

(** [(producer_id, epoch, last_seq, last_offset)] *)
Record SeqHighWater := mk_hw { hw_producer_id : list Z; hw_epoch : Z; hw_last_seq : Z; hw_last_offset : Z }.
#[export] Instance high_water_eq_dec : EqDecision SeqHighWater.
Proof. solve_decision. Defined.

Definition snapshot_pairs (r : ProducerSeqRegistry) : list SeqHighWater :=
  omap (fun kp => match ps_last_seq kp.2 with
                  | Some s => Some (mk_hw kp.1 (ps_epoch kp.2) s (ps_last_offset kp.2))
                  | None => None
                  end) (bytes_map_list (sr_producers r)).

Inductive SeqSnapshotError :=
| SqTruncated
| SqBadLength (len : nat)
| SqUnsupportedVersion (v : Z)
| SqCountMismatch (declared actual : Z)
| SqBadCrc
| SqNotSorted.

Definition SEQ_SNAPSHOT_VERSION : Z := 1.
Definition SEQ_SNAPSHOT_MIN_LEN : nat := 1 + 4 + 4.

Section snapshot.
Context `{Crc32c}.

Definition encode_high_water (e : SeqHighWater) : list Z :=
  let plen := Z.min (Z.of_nat (length (hw_producer_id e))) u16_max in
  le_bytes 2 plen ++ take (Z.to_nat plen) (hw_producer_id e) ++
  le_bytes 8 (hw_epoch e) ++ le_bytes 8 (hw_last_seq e) ++ le_bytes 8 (hw_last_offset e).

Definition encode_seq_snapshot (entries : list SeqHighWater) (out : list Z) : list Z :=
  let body :=
    [SEQ_SNAPSHOT_VERSION] ++ le_bytes 4 (Z.min (Z.of_nat (length entries)) u32_max) ++ flat_map encode_high_water entries in
  out ++ body ++ le_bytes 4 (crc32c body).

(** The [while pos < crc_at] loop; each round consumes at least 26 bytes, so the
    input length is fuel enough. *)
Fixpoint read_high_waters (fuel : nat) (input : list Z) (pos crc_at : nat) (prev : option (list Z))
    : res (list SeqHighWater) SeqSnapshotError :=
  match fuel with
  | O => Panic
  | S fuel =>
      if negb (pos <? crc_at)%nat then Ok []
      else
        fail? (crc_at <? pos + 2)%nat with SqBadLength (length input) in
        let? plen := or_panic (read_u16 input pos) in
        let plen := Z.to_nat plen in
        let pos := (pos + 2)%nat in
        let entry_tail := (pos + plen + 24)%nat in
        fail? (crc_at <? entry_tail)%nat with SqBadLength (length input) in
        let? pid := or_panic (slice input pos (pos + plen)) in
        let pos := (pos + plen)%nat in
        let? epoch := or_panic (read_u64 input pos) in
        let? last_seq := or_panic (read_u64 input (pos + 8)) in
        let? last_offset := or_panic (read_u64 input (pos + 16)) in
        let pos := (pos + 24)%nat in
        fail? (match prev with Some p => bytes_leb pid p | None => false end) with SqNotSorted in
        let? rest := read_high_waters fuel input pos crc_at (Some pid) in
        Ok (mk_hw pid epoch last_seq last_offset :: rest)
  end.

Definition decode_seq_snapshot (input : list Z) : res (list SeqHighWater) SeqSnapshotError :=
  fail? (length input <? SEQ_SNAPSHOT_MIN_LEN)%nat with SqTruncated in
  let? version := or_panic (read_u8 input 0) in
  fail? negb (version =? SEQ_SNAPSHOT_VERSION) with SqUnsupportedVersion version in
  let crc_at := (length input - 4)%nat in
  let? stored := or_panic (read_u32 input crc_at) in
  let? covered := or_panic (slice input 0 crc_at) in
  fail? negb (crc32c covered =? stored) with SqBadCrc in
  let? declared := or_panic (read_u32 input 1) in
  let? entries := read_high_waters (length input) input (SEQ_SNAPSHOT_MIN_LEN - 4) crc_at None in
  fail? negb (declared =? Z.of_nat (length entries)) with SqCountMismatch declared (Z.of_nat (length entries)) in
  Ok entries.
End snapshot.

(** ** The codec is exact *)

Definition hw_ok (e : SeqHighWater) : Prop :=
  bytes_ok (hw_producer_id e) /\ Z.of_nat (length (hw_producer_id e)) <= u16_max /\
  is_u64 (hw_epoch e) /\ is_u64 (hw_last_seq e) /\ is_u64 (hw_last_offset e).

(** Strictly ascending producer ids above [prev]. *)
Fixpoint ids_ascend (prev : option (list Z)) (l : list SeqHighWater) : Prop :=
  match l with
  | [] => True
  | e :: l =>
      match prev with Some p => bytes_leb (hw_producer_id e) p = false | None => True end /\
      ids_ascend (Some (hw_producer_id e)) l
  end.

Section codec.
Context `{Crc32c}.

Lemma encode_high_water_ok e :
  hw_ok e ->
  encode_high_water e =
  le_bytes 2 (Z.of_nat (length (hw_producer_id e))) ++ hw_producer_id e ++
  le_bytes 8 (hw_epoch e) ++ le_bytes 8 (hw_last_seq e) ++ le_bytes 8 (hw_last_offset e).
Proof. intros (_ & Hl & _). unfold encode_high_water. rewrite Z.min_l by lia. by rewrite Nat2Z.id, firstn_all. Qed.

Lemma length_encode_high_water e : hw_ok e -> length (encode_high_water e) = (26 + length (hw_producer_id e))%nat.
Proof. intros He. rewrite encode_high_water_ok by done. rewrite !length_app, !length_le_bytes. lia. Qed.

(** One round on the bytes of an entry. *)
Lemma read_high_waters_step fuel pre e rest crc_at prev :
  hw_ok e -> (length pre + length (encode_high_water e) <= crc_at)%nat ->
  read_high_waters (S fuel) (pre ++ encode_high_water e ++ rest) (length pre) crc_at prev =
  (fail? (match prev with Some p => bytes_leb (hw_producer_id e) p | None => false end) with SqNotSorted in
   let? l := read_high_waters fuel (pre ++ encode_high_water e ++ rest) (length (pre ++ encode_high_water e)) crc_at
     (Some (hw_producer_id e)) in
   Ok (e :: l)).
Proof.
  intros He Hc. pose proof He as (Hb & Hl & He1 & He2 & He3). rewrite length_encode_high_water in Hc by done.
  rewrite !length_app, length_encode_high_water by done. rewrite encode_high_water_ok by done. cbn [read_high_waters].
  set (input := pre ++ _ ++ rest). destruct e as [pid epoch seq offset]. cbn [hw_producer_id hw_epoch hw_last_seq hw_last_offset] in *.
  assert (R0 : read_u16 input (length pre) = Some (Z.of_nat (length pid))).
  { subst input. rewrite <- !app_assoc. unfold read_u16. rewrite read_le_mid by (by rewrite ?length_le_bytes).
    rewrite le_val_le_bytes by (apply u16_pow; ulia). done. }
  assert (R1 : slice input (length pre + 2) (length pre + 2 + length pid) = Some pid).
  { subst input. rewrite <- !app_assoc, (app_assoc pre). eapply slice_at; [rewrite !length_app, length_le_bytes; lia| |done].
    apply drop_app_length'. by rewrite length_app, length_le_bytes. }
  assert (R2 : forall k z post, (exists a, input = a ++ le_bytes 8 z ++ post /\ length a = k) -> is_u64 z -> read_u64 input k = Some z).
  { intros k z post (a & -> & <-) Hz. unfold read_u64. rewrite read_le_mid by (by rewrite ?length_le_bytes).
    rewrite le_val_le_bytes by (by apply u64_pow). done. }
  assert (R3 : read_u64 input (length pre + 2 + length pid) = Some epoch).
  { eapply R2; [|done]. exists (pre ++ le_bytes 2 (Z.of_nat (length pid)) ++ pid). subst input.
    rewrite <- !app_assoc. split; [done|]. rewrite !length_app, length_le_bytes. lia. }
  assert (R4 : read_u64 input (length pre + 2 + length pid + 8) = Some seq).
  { eapply R2; [|done]. exists (pre ++ le_bytes 2 (Z.of_nat (length pid)) ++ pid ++ le_bytes 8 epoch). subst input.
    rewrite <- !app_assoc. split; [done|]. rewrite !length_app, !length_le_bytes. lia. }
  assert (R5 : read_u64 input (length pre + 2 + length pid + 16) = Some offset).
  { eapply R2; [|done]. exists (pre ++ le_bytes 2 (Z.of_nat (length pid)) ++ pid ++ le_bytes 8 epoch ++ le_bytes 8 seq). subst input.
    rewrite <- !app_assoc. split; [done|]. rewrite !length_app, !length_le_bytes. lia. }
  destruct (Nat.ltb_spec (length pre) crc_at) as [_|]; [|lia]. cbn [negb].
  destruct (Nat.ltb_spec crc_at (length pre + 2)) as [|_]; [lia|]. rewrite R0. cbn [or_panic res_bind]. rewrite Nat2Z.id.
  destruct (Nat.ltb_spec crc_at (length pre + 2 + length pid + 24)) as [|_]; [lia|].
  rewrite R1. cbn [or_panic res_bind]. rewrite R3, R4, R5. cbn [or_panic res_bind].
  replace (length pre + 2 + length pid + 24)%nat with (length pre + (26 + length pid))%nat by lia. done.
Qed.

Lemma read_high_waters_encoded l : forall fuel pre post prev,
  Forall hw_ok l -> (length l < fuel)%nat ->
  ids_ascend prev l ->
  read_high_waters fuel (pre ++ flat_map encode_high_water l ++ post) (length pre)
    (length (pre ++ flat_map encode_high_water l)) prev = Ok l.
Proof.
  induction l as [|e l IH]; intros fuel pre post prev Hok Hf Ha; (destruct fuel as [|fuel]; [cbn in Hf; lia|]).
  { cbn [flat_map read_high_waters]. rewrite app_nil_r. by rewrite Nat.ltb_irrefl. }
  apply Forall_cons in Hok as [He Hok]. destruct Ha as [Hp Ha]. cbn [flat_map]. rewrite <- app_assoc.
  rewrite read_high_waters_step by (try done; rewrite !length_app; lia).
  assert (match prev with Some p => bytes_leb (hw_producer_id e) p | None => false end = false) as -> by (by destruct prev).
  specialize (IH fuel (pre ++ encode_high_water e) post (Some (hw_producer_id e)) Hok ltac:(cbn in Hf; lia) Ha).
  rewrite <- !app_assoc in IH. rewrite IH. done.
Qed.

(** The bytes of one round are the encoding of the entry it reads. *)
Lemma entry_bytes input pos plen pid epoch seq offset :
  bytes_ok input -> read_u16 input pos = Some plen ->
  slice input (pos + 2) (pos + 2 + Z.to_nat plen) = Some pid ->
  read_u64 input (pos + 2 + Z.to_nat plen) = Some epoch ->
  read_u64 input (pos + 2 + Z.to_nat plen + 8) = Some seq ->
  read_u64 input (pos + 2 + Z.to_nat plen + 16) = Some offset ->
  hw_ok (mk_hw pid epoch seq offset) /\
  drop pos input = encode_high_water (mk_hw pid epoch seq offset) ++ drop (pos + 2 + Z.to_nat plen + 24) input.
Proof.
  intros Hb R0 R1 R3 R4 R5. pose proof (read_u16_bounds _ _ _ Hb R0) as Hp. apply slice_inv in R1 as [Hr Hpid].
  replace (pos + 2 + Z.to_nat plen - (pos + 2))%nat with (Z.to_nat plen) in Hpid by lia.
  assert (Hl : length pid = Z.to_nat plen) by (rewrite Hpid, length_take, length_drop; lia).
  assert (Hok : hw_ok (mk_hw pid epoch seq offset)).
  { split_and!; cbn; [rewrite Hpid; by apply Forall_take_drop|ulia|eauto using read_u64_bounds..]. }
  split; [done|]. rewrite encode_high_water_ok by done. cbn [hw_producer_id hw_epoch hw_last_seq hw_last_offset].
  rewrite Hl, Z2Nat.id by ulia. rewrite <- !app_assoc.
  rewrite (read_le_bytes _ _ _ _ Hb R0), (read_le_bytes _ _ _ _ Hb R3), (read_le_bytes _ _ _ _ Hb R4), (read_le_bytes _ _ _ _ Hb R5).
  replace (pos + 2 + Z.to_nat plen + 24)%nat with (pos + 2 + Z.to_nat plen + 16 + 8)%nat by lia.
  rewrite take_drop_at. replace (pos + 2 + Z.to_nat plen + 16)%nat with (pos + 2 + Z.to_nat plen + 8 + 8)%nat by lia.
  rewrite !take_drop_at. rewrite Hpid at 1. by rewrite !take_drop_at.
Qed.

Lemma read_high_waters_inv fuel : forall input pos crc_at prev l,
  bytes_ok input -> (pos <= crc_at <= length input)%nat ->
  read_high_waters fuel input pos crc_at prev = Ok l ->
  Forall hw_ok l /\ ids_ascend prev l /\ drop pos input = flat_map encode_high_water l ++ drop crc_at input.
Proof.
  induction fuel as [|fuel IH]; intros input pos crc_at prev l Hb Hp Hr; [done|]. cbn [read_high_waters] in Hr.
  destruct (Nat.ltb_spec pos crc_at) as [Hlt|Hge]; cbn [negb] in Hr.
  2: { injection Hr as <-. replace pos with crc_at by lia. done. }
  inv_ok Hr. injection Hr as <-. repeat match goal with H : (_ <? _)%nat = false |- _ => apply Nat.ltb_ge in H end.
  match goal with H : read_high_waters _ _ _ _ _ = Ok _ |- _ => apply IH in H as (Hok & Hasc & Hd); [|done|lia] end.
  edestruct entry_bytes as [He Hbytes]; [exact Hb|eassumption..|]. split; [by constructor|]. split.
  - cbn. split; [|done]. by destruct prev.
  - rewrite Hbytes, Hd. cbn [flat_map]. by rewrite <- app_assoc.
Qed.

Lemma read_high_waters_no_panic fuel : forall input pos crc_at prev,
  (pos <= crc_at <= length input)%nat -> (crc_at - pos < fuel)%nat -> no_panic (read_high_waters fuel input pos crc_at prev).
Proof.
  induction fuel as [|fuel IH]; intros input pos crc_at prev Hp Hf; [lia|]. cbn [read_high_waters].
  destruct (Nat.ltb_spec pos crc_at) as [Hlt|Hge]; cbn [negb]; [|done].
  destruct (Nat.ltb_spec crc_at (pos + 2)) as [|H2]; [done|].
  destruct (read_u16 input pos) as [plen|] eqn:R0; cbn [or_panic res_bind]; [|apply read_le_None in R0; lia].
  destruct (Nat.ltb_spec crc_at (pos + 2 + Z.to_nat plen + 24)) as [|H3]; [done|].
  rewrite slice_Some by lia. cbn [or_panic res_bind]. unfold read_u64.
  rewrite !read_le_Some by lia. cbn [or_panic res_bind].
  match goal with |- no_panic (if ?b then _ else _) => destruct b; [done|] end.
  apply no_panic_bind; [apply IH; lia|done].
Qed.

Lemma decode_seq_snapshot_total input : no_panic (decode_seq_snapshot input).
Proof.
  unfold decode_seq_snapshot, SEQ_SNAPSHOT_MIN_LEN. destruct (Nat.ltb_spec (length input) (1 + 4 + 4)) as [|Hl]; [done|].
  destruct input as [|v rest]; [cbn in Hl; lia|]. cbn [read_u8 lookup list_lookup or_panic res_bind].
  set (input := v :: rest) in *. destruct (negb _); [done|]. unfold read_u32. rewrite !read_le_Some, slice_Some by lia.
  cbn [or_panic res_bind]. destruct (negb _); [done|].
  apply no_panic_bind; [apply read_high_waters_no_panic; lia|]. intros l _. by destruct (negb _).
Qed.

Lemma seq_snapshot_roundtrip l :
  Forall hw_ok l -> ids_ascend None l -> Z.of_nat (length l) <= u32_max ->
  decode_seq_snapshot (encode_seq_snapshot l []) = Ok l.
Proof.
  intros Hok Ha Hn. unfold encode_seq_snapshot. cbv zeta. rewrite app_nil_l, Z.min_l by lia.
  set (count := Z.of_nat (length l)). set (body := [SEQ_SNAPSHOT_VERSION] ++ le_bytes 4 count ++ flat_map encode_high_water l).
  set (input := body ++ le_bytes 4 (crc32c body)).
  assert (Hlen : length input = (length body + 4)%nat) by (unfold input; rewrite length_app, length_le_bytes; lia).
  assert (Hbl : length body = (5 + length (flat_map encode_high_water l))%nat)
    by (unfold body; rewrite !length_app, length_le_bytes; done).
  unfold decode_seq_snapshot, SEQ_SNAPSHOT_MIN_LEN. destruct (Nat.ltb_spec (length input) (1 + 4 + 4)) as [|_]; [lia|].
  change (read_u8 input 0) with (Some SEQ_SNAPSHOT_VERSION). cbn [or_panic res_bind]. rewrite Z.eqb_refl. cbn [negb].
  replace (length input - 4)%nat with (length body) by lia.
  assert (read_u32 input (length body) = Some (crc32c body)) as ->.
  { unfold input. rewrite <- (app_nil_r (le_bytes 4 _)). unfold read_u32. rewrite read_le_mid by (by rewrite ?length_le_bytes).
    by rewrite le_val_le_bytes by auto with bytes. }
  rewrite slice_0 by lia. unfold input at 1. rewrite take_app_length. cbn [or_panic res_bind]. rewrite Z.eqb_refl. cbn [negb].
  assert (read_u32 input 1 = Some count) as ->.
  { unfold input, body. rewrite <- !app_assoc. unfold read_u32. rewrite (read_le_mid 4 [SEQ_SNAPSHOT_VERSION]) by (by rewrite ?length_le_bytes).
    rewrite le_val_le_bytes; [done|]. apply u32_pow. unfold count. ulia. }
  cbn [or_panic res_bind].
  pose proof (read_high_waters_encoded l (length input) ([SEQ_SNAPSHOT_VERSION] ++ le_bytes 4 count) (le_bytes 4 (crc32c body)) None
    Hok) as Hread.
  replace (([SEQ_SNAPSHOT_VERSION] ++ le_bytes 4 count) ++ flat_map encode_high_water l ++ le_bytes 4 (crc32c body)) with input in Hread
    by (unfold input, body; by rewrite <- !app_assoc).
  replace (([SEQ_SNAPSHOT_VERSION] ++ le_bytes 4 count) ++ flat_map encode_high_water l) with body in Hread
    by (unfold body; by rewrite <- !app_assoc).
  replace (length ([SEQ_SNAPSHOT_VERSION] ++ le_bytes 4 count)) with (1 + 4 + 4 - 4)%nat in Hread
    by (rewrite length_app, length_le_bytes; done).
  rewrite Hread; [cbn [res_bind]; fold count; by rewrite Z.eqb_refl| |done].
  clear -Hlen Hbl Hok. enough (length l <= length (flat_map encode_high_water l))%nat by lia. clear -Hok.
  induction Hok as [|e l He _ IH]; [done|]. cbn [flat_map length]. rewrite length_app, length_encode_high_water by done. lia.
Qed.

Lemma seq_snapshot_canonical input l :
  bytes_ok input -> Z.of_nat (length l) <= u32_max -> decode_seq_snapshot input = Ok l ->
  Forall hw_ok l /\ ids_ascend None l /\ input = encode_seq_snapshot l [].
Proof.
  intros Hb Hn Hd. unfold decode_seq_snapshot, SEQ_SNAPSHOT_MIN_LEN in Hd. inv_ok Hd. injection Hd as ->.
  repeat match goal with H : (_ <? _)%nat = false |- _ => apply Nat.ltb_ge in H end.
  bool_to_prop. subst.
  match goal with H : read_high_waters _ _ _ _ _ = Ok _ |- _ => apply read_high_waters_inv in H as (Hok & Ha & Hbytes); [|done|lia] end.
  split; [done|]. split; [done|]. unfold encode_seq_snapshot. cbv zeta. rewrite app_nil_l, Z.min_l by lia.
  set (body := [SEQ_SNAPSHOT_VERSION] ++ _ ++ _). set (tail := drop (length input - 4) input) in *.
  assert (Hin : input = body ++ tail).
  { unfold body. rewrite (read_le_bytes _ _ _ _ Hb E2), <- !app_assoc, <- Hbytes. change (1 + 4 + 4 - 4)%nat with (1 + 4)%nat. rewrite (take_drop_at input 1 4).
    destruct input as [|v rest]; [cbn in G; lia|]. by injection E as ->. }
  apply slice_inv in E1 as [_ Hx]. rewrite Nat.sub_0_r, drop_0 in Hx.
  assert (Hbody : x1 = body).
  { apply (app_inv_tail tail). rewrite <- Hin, Hx. apply take_drop. }
  rewrite <- Hbody, (read_le_bytes _ _ _ _ Hb E0). fold tail. rewrite take_ge by (unfold tail; rewrite length_drop; lia).
  by rewrite Hbody.
Qed.

(** The producer-sequence snapshot codec is exact in both directions: sorted
    high-waters survive encode and decode unchanged, bytes that decode are the
    encoding of the high-waters they decode to, whose producers ascend strictly,
    and no input makes the decoder panic. *)
Theorem seq_snapshot_exact input l :
  bytes_ok input -> Z.of_nat (length l) <= u32_max ->
  (decode_seq_snapshot input = Ok l <-> Forall hw_ok l /\ ids_ascend None l /\ input = encode_seq_snapshot l []) /\
  no_panic (decode_seq_snapshot input).
Proof. intros Hb Hn. split; [|apply decode_seq_snapshot_total]. split; [by apply seq_snapshot_canonical|]. intros (?&?&->). by apply seq_snapshot_roundtrip. Qed.
End codec.

Section codec_evaluation.
#[local] Existing Instance castagnoli.

Definition demo_high_waters : list SeqHighWater := [mk_hw [97] 1 5 9; mk_hw [98] 0 0 10].
Definition demo_seq_snapshot : list Z := Eval vm_compute in encode_seq_snapshot demo_high_waters [].

Lemma seq_snapshot_exact_witness :
  bytes_ok demo_seq_snapshot /\ Forall hw_ok demo_high_waters /\ no_panic (decode_seq_snapshot demo_seq_snapshot).
Proof.
  assert (Hb : bytes_ok demo_seq_snapshot) by (apply (bool_decide_unpack _); vm_compute; exact I).
  assert (Hl : Z.of_nat (length demo_high_waters) <= u32_max) by (vm_compute; congruence).
  split; [exact Hb|]. split; [|exact (proj2 (seq_snapshot_exact demo_seq_snapshot demo_high_waters Hb Hl))].
  refine (proj1 (proj1 (proj1 (seq_snapshot_exact demo_seq_snapshot demo_high_waters Hb Hl)) _)). vm_compute. reflexivity.
Defined.
End codec_evaluation.

(** ** The registry *)

Record seqs_ok (r : ProducerSeqRegistry) : Prop := {
  so_max : (0 < sr_max_producers r)%nat;
  so_size : (size (sr_producers r) <= sr_max_producers r)%nat;
  so_lru : lru_ok ps_last_touch (sr_producers r) (sr_lru r)
}.

(** There is room for [producer_id]: no other producer is forgotten for it. *)
Definition fits (r : ProducerSeqRegistry) (producer_id : list Z) : Prop :=
  is_Some (sr_producers r !! producer_id) \/ (size (sr_producers r) < sr_max_producers r)%nat.

Lemma seqs_new_ok n : seqs_ok (seqs_new n).
Proof. split; cbn; [lia|rewrite map_size_empty; lia|]. split; [constructor|]. intros k v Hk. by rewrite lookup_empty in Hk. Qed.

Lemma seq_make_room_ok r pid :
  seqs_ok r ->
  seqs_ok (seq_make_room r pid) /\ sr_max_producers (seq_make_room r pid) = sr_max_producers r /\
  fits (seq_make_room r pid) pid /\ sr_producers (seq_make_room r pid) ⊆ sr_producers r /\
  (sr_producers r !! pid = None ->
   evicts ps_last_touch (sr_max_producers r) (sr_producers r) (sr_producers (seq_make_room r pid))).
Proof.
  intros [Hm Hs Hl]. unfold seq_make_room. destruct (sr_producers r !! pid) as [p|] eqn:Hp.
  { split_and!; try done. left. rewrite Hp. by eexists. }
  destruct (evict_loop_spec ps_last_touch _ _ _ Hm Hl) as [He Hl'].
  destruct (evict_loop _ _ _ _) as [producers lru]. cbn in *. destruct He as (Hsub & Hlt & Hrest).
  split_and!; try done. - split; cbn; [done|lia|done]. - by right.
Qed.

Lemma seq_make_room_fits r pid : fits r pid -> seq_make_room r pid = r.
Proof.
  unfold fits, seq_make_room. destruct (sr_producers r !! pid) as [p|]; [done|]. intros [[? ?]|Hs]; [done|].
  destruct r as [m ps lru]. cbn [sr_max_producers sr_producers sr_lru] in *. destruct lru; cbn [evict_loop];
    (destruct (Nat.ltb_spec (size ps) m); [done|lia]).
Qed.

Lemma seq_put_ok r pid p now :
  seqs_ok r -> fits r pid -> ps_last_touch p = now -> seqs_ok (seq_put r pid p now).
Proof.
  intros [Hm Hs Hl] Hf Hn. split; cbn; [done| |].
  - destruct Hf as [[q Hq]|Hlt]; [rewrite map_size_insert_Some; [done|by rewrite Hq]|].
    etransitivity; [|exact Hlt]. rewrite map_size_insert. case_match; unfold id; lia.
  - eapply touch_lru_ok; [|apply lookup_insert_eq|done]. rewrite delete_insert_eq.
    eapply lru_ok_subset; [apply delete_subseteq|done].
Qed.

(** What the registry knows of a producer after it is checked in [epoch]. *)
Definition hw_bump (w : option (Z * option Z * Z)) (epoch : Z) : Z * option Z * Z :=
  match w with
  | None => (epoch, None, 0)
  | Some (e, l, o) => if e <? epoch then (epoch, None, o) else (e, l, o)
  end.

Definition hw_decide (w : Z * option Z * Z) (epoch seq : Z) : SeqDecision :=
  let '(e, l, o) := w in
  if epoch <? e then SeqFenced e
  else
    match l with
    | None => SeqFresh
    | Some last => if seq <=? last then SeqDuplicate o else if seq =? last + 1 then SeqFresh else SeqOutOfOrder (last + 1)
    end.

Lemma hw_decide_fresh w epoch seq :
  hw_decide (hw_bump w epoch) epoch seq = SeqFresh ->
  exists l o, hw_bump w epoch = (epoch, l, o) /\ match l with Some last => seq = last + 1 | None => True end.
Proof.
  unfold hw_decide, hw_bump. destruct w as [[[e l] o]|]; [|intros _; by exists None, 0].
  destruct (Z.ltb_spec e epoch); [intros _; by exists None, o|]. destruct (Z.ltb_spec epoch e); [done|].
  assert (e = epoch) as -> by lia. intros Hd. exists l, o. split; [done|]. destruct l as [last|]; [|done].
  destruct (seq <=? last); [done|]. by destruct (Z.eqb_spec seq (last + 1)).
Qed.

Lemma high_water_put r pid p now q :
  high_water (seq_put r pid p now) q =
  if decide (q = pid) then Some (ps_epoch p, ps_last_seq p, ps_last_offset p) else high_water r q.
Proof.
  unfold high_water. cbn [seq_put sr_producers]. destruct (decide (q = pid)) as [->|Hne]; [by rewrite lookup_insert_eq|].
  by rewrite lookup_insert_ne.
Qed.

Lemma seq_check_spec r pid epoch seq now :
  seqs_ok r -> fits r pid ->
  let r' := fst (seq_check r pid epoch seq now) in
  let w := hw_bump (high_water r pid) epoch in
  seqs_ok r' /\ sr_max_producers r' = sr_max_producers r /\ snd (seq_check r pid epoch seq now) = hw_decide w epoch seq /\
  forall q, high_water r' q = if decide (q = pid) then Some w else high_water r q.
Proof.
  intros Hok Hf. unfold seq_check. rewrite seq_make_room_fits by done. cbv zeta.
  assert (Hw : high_water r pid = match sr_producers r !! pid with Some p => Some (ps_epoch p, ps_last_seq p, ps_last_offset p) | None => None end)
    by done.
  rewrite Hw. clear Hw. destruct (sr_producers r !! pid) as [[e l o t]|] eqn:Hp; cbn -[seq_put high_water].
  - destruct (Z.ltb_spec epoch e) as [H1|H1]; cbn -[seq_put high_water].
    { destruct (Z.ltb_spec e epoch); [lia|]. cbn -[seq_put high_water]. destruct (Z.ltb_spec epoch e); [|lia].
      split_and!; [by apply seq_put_ok|done..|]. intros q. by rewrite high_water_put. }
    destruct (Z.ltb_spec e epoch) as [H2|H2]; cbn -[seq_put high_water].
    { rewrite Z.ltb_irrefl. split_and!; [by apply seq_put_ok|done..|]. intros q. by rewrite high_water_put. }
    destruct (Z.ltb_spec epoch e); [lia|]. split_and!; [by apply seq_put_ok|done..|]. intros q. by rewrite high_water_put.
  - rewrite !Z.ltb_irrefl. cbn -[seq_put high_water]. split_and!; [by apply seq_put_ok|done..|]. intros q. by rewrite high_water_put.
Qed.

(** A record right after a fresh check. *)
Lemma seq_record_spec r pid epoch seq offset now e l o :
  seqs_ok r -> high_water r pid = Some (e, l, o) -> epoch = e -> (match l with None => True | Some last => last < seq end) ->
  let r' := seq_record r pid epoch seq offset now in
  seqs_ok r' /\ sr_max_producers r' = sr_max_producers r /\
  forall q, high_water r' q = if decide (q = pid) then Some (e, Some seq, offset) else high_water r q.
Proof.
  intros Hok Hw -> Hs. assert (Hf : fits r pid).
  { left. unfold high_water in Hw. destruct (sr_producers r !! pid); [by eexists|done]. }
  unfold seq_record. rewrite seq_make_room_fits by done. unfold high_water in Hw. cbv zeta.
  destruct (sr_producers r !! pid) as [[e' l' o' t]|] eqn:Hp; [|done]. injection Hw as -> -> ->. cbn -[seq_put].
  rewrite !Z.ltb_irrefl. cbn -[seq_put].
  assert (match l with None => true | Some last => last <? seq end = true) as -> by (destruct l; [by apply Z.ltb_lt|done]).
  cbn -[seq_put]. split_and!; [by apply seq_put_ok|done|]. intros q. by rewrite high_water_put.
Qed.

Lemma seq_restore_spec r pid epoch last_seq last_offset now :
  seqs_ok r -> fits r pid ->
  let r' := seq_restore r pid epoch last_seq last_offset now in
  seqs_ok r' /\ sr_max_producers r' = sr_max_producers r /\
  forall q, high_water r' q = if decide (q = pid) then Some (epoch, Some last_seq, last_offset) else high_water r q.
Proof.
  intros Hok Hf. unfold seq_restore. rewrite seq_make_room_fits by done. cbv zeta.
  split_and!; [by apply seq_put_ok|done|]. intros q. by rewrite high_water_put.
Qed.

(** ** The snapshot of a registry *)

#[export] Instance bytes_key_le_total {V} : Total (@bytes_key_le V).
Proof. intros p q. apply bytes_leb_total. Qed.
#[export] Instance bytes_key_le_trans {V} : Transitive (@bytes_key_le V).
Proof. intros p q r. apply bytes_leb_trans. Qed.

Lemma bytes_map_list_keys {V} (m : gmap (list Z) V) : NoDup (bytes_map_list m).*1.
Proof.
  unfold bytes_map_list. rewrite (merge_sort_Permutation bytes_key_le (map_to_list m)). apply NoDup_fst_map_to_list.
Qed.

Lemma elem_of_snapshot_pairs r e :
  e ∈ snapshot_pairs r <-> high_water r (hw_producer_id e) = Some (hw_epoch e, Some (hw_last_seq e), hw_last_offset e).
Proof.
  unfold snapshot_pairs, high_water. rewrite list_elem_of_omap. split.
  - intros ([k p] & Hk & He). apply elem_of_bytes_map_list in Hk. cbn in He. destruct (ps_last_seq p) as [s|] eqn:Hs; [|done].
    injection He as <-. cbn. by rewrite Hk, Hs.
  - destruct (sr_producers r !! hw_producer_id e) as [p|] eqn:Hp; [|done]. intros [= H1 H2 H3].
    exists (hw_producer_id e, p). split; [by apply elem_of_bytes_map_list|]. cbn. rewrite H2, H1, H3. by destruct e.
Qed.

Lemma snapshot_pairs_ascend r : ids_ascend None (snapshot_pairs r).
Proof.
  unfold snapshot_pairs. pose proof (StronglySorted_merge_sort bytes_key_le (map_to_list (sr_producers r))) as Hs.
  pose proof (bytes_map_list_keys (sr_producers r)) as Hnd. fold (bytes_map_list (sr_producers r)) in Hs.
  induction (bytes_map_list (sr_producers r)) as [|[k p] l IH] in Hs, Hnd |- *; [done|].
  apply StronglySorted_inv in Hs as [Hs Hall]. apply NoDup_cons in Hnd as [Hk Hnd]. specialize (IH Hs Hnd).
  assert (Hstep : forall k' l', (forall e, e ∈ l' -> bytes_leb (hw_producer_id e) k' = false) -> ids_ascend None l' -> ids_ascend (Some k') l').
  { intros k' [|e l'] He Hl'; [done|]. destruct Hl' as [_ Hl']. split; [apply He; left|done]. }
  cbn [omap list_omap fst snd]. destruct (ps_last_seq p) as [s|]; [|exact IH]. split; [done|]. apply Hstep; [|exact IH].
  intros e ([k' p'] & Hin & He)%list_elem_of_omap. cbn in He. destruct (ps_last_seq p'); [|done]. injection He as <-. cbn.
  rewrite Forall_forall in Hall. specialize (Hall _ Hin). unfold bytes_key_le in Hall. cbn in Hall.
  destruct (bytes_leb k' k) eqn:Hle; [|done]. exfalso. apply Hk. rewrite (bytes_leb_antisym _ _ Hall Hle).
  by apply (list_elem_of_fmap_2 fst _ (k', p')).
Qed.

Lemma ids_ascend_NoDup prev l :
  ids_ascend prev l ->
  NoDup (hw_producer_id <$> l) /\ (forall p, prev = Some p -> forall e, e ∈ l -> bytes_leb (hw_producer_id e) p = false).
Proof.
  revert prev. induction l as [|e l IH]; intros prev; [split; [constructor|by intros ? ? ? ?%not_elem_of_nil]|].
  intros [Hp Hl]. destruct (IH _ Hl) as [Hnd Hgt]. specialize (Hgt _ eq_refl). split.
  - cbn. apply NoDup_cons. split; [|done]. intros (e' & Heq & Hin)%list_elem_of_fmap. specialize (Hgt e' Hin).
    rewrite <- Heq, bytes_leb_refl in Hgt. done.
  - intros p -> e' [->|Hin]%elem_of_cons; [done|]. specialize (Hgt e' Hin).
    destruct (bytes_leb (hw_producer_id e') p) eqn:Hx; [|done]. exfalso.
    assert (bytes_leb (hw_producer_id e) p = true); [|congruence].
    eapply bytes_leb_trans; [|exact Hx]. destruct (bytes_leb_total (hw_producer_id e) (hw_producer_id e')) as [|Hy]; [done|congruence].
Qed.

(** Restoring distinct high-waters into a registry with room. *)
Lemma restore_all r entries now :
  seqs_ok r -> NoDup (hw_producer_id <$> entries) -> (forall e, e ∈ entries -> high_water r (hw_producer_id e) = None) ->
  (size (sr_producers r) + length entries <= sr_max_producers r)%nat ->
  let r' := foldl (fun r e => seq_restore r (hw_producer_id e) (hw_epoch e) (hw_last_seq e) (hw_last_offset e) now) r entries in
  seqs_ok r' /\ sr_max_producers r' = sr_max_producers r /\
  forall q w, high_water r' q = Some w <->
    high_water r q = Some w \/ exists e, e ∈ entries /\ hw_producer_id e = q /\ w = (hw_epoch e, Some (hw_last_seq e), hw_last_offset e).
Proof.
  revert r. induction entries as [|e entries IH]; intros r Hok Hnd Hnew Hroom; cbn [foldl].
  { split_and!; try done. intros q w. split; [by left|]. intros [?|(? & ?%not_elem_of_nil & _)]; done. }
  cbn in Hnd. apply NoDup_cons in Hnd as [Hne Hnd]. cbn [length] in Hroom.
  assert (Hf : fits r (hw_producer_id e)) by (right; lia).
  destruct (seq_restore_spec r (hw_producer_id e) (hw_epoch e) (hw_last_seq e) (hw_last_offset e) now Hok Hf) as (Hok1 & Hm1 & Hw1).
  assert (Hsz : (size (sr_producers (seq_restore r (hw_producer_id e) (hw_epoch e) (hw_last_seq e) (hw_last_offset e) now))
      <= S (size (sr_producers r)))%nat).
  { unfold seq_restore. rewrite seq_make_room_fits by done. cbn. rewrite map_size_insert. case_match; unfold id; lia. }
  set (r1 := seq_restore r _ _ _ _ now) in *. destruct (IH r1 Hok1 Hnd) as (Hok' & Hm' & Hw').
  - intros e' He'. rewrite Hw1. case_decide as Hq; [|apply Hnew; by right].
    exfalso. apply Hne. rewrite <- Hq. by apply list_elem_of_fmap_2.
  - rewrite Hm1. lia.
  - split_and!; [done|congruence|]. intros q w. rewrite Hw', Hw1. case_decide as Hq.
    + split.
      * intros [[= <-]|(e' & ? & ? & ?)]; right; [exists e|exists e']; (split_and!; [|done..]); [by left|by right].
      * intros [Hno|(e' & [->|Hin]%elem_of_cons & Hid & ->)]; [|by left|right; eauto]. rewrite Hq in Hno. rewrite Hnew in Hno by left. done.
    + split.
      * intros [?|(e' & ? & ? & ?)]; [by left|right; exists e'; split_and!; try done; by right].
      * intros [?|(e' & [->|Hin]%elem_of_cons & Hid & ->)]; [by left|by destruct Hq|right; eauto].
Qed.
