(* ===== verification/Produce.v ===== *)
(** * Idempotent produce ([engine.rs], the produce side)

    A publish may carry an idempotence identity: a message id, checked against
    the dedup window, or a sequence number, checked against the producer's
    high-water, which a checkpoint carries over restarts.  The engine checks,
    appends without a sync, records the offset, and syncs the batch later.

    The default stream's log is seen as its records, of which a prefix is
    synced, and the checkpoint file as a register: [LogSafety] and [Checkpoint]
    show that a power cut leaves a prefix of the records that holds the synced
    ones, and the last confirmed value or one attempted after it.  A record is
    the message as published: the resolution of a delay request and compression
    rewrite it on its way and are not modelled; that they, or the log, refuse it
    is an answer of the environment.  Each record carries the identity it was published under, which the code does not store;
    no operation reads it. *)

From S2P Require Import Prelude Bytes Records Codec Disk SegmentFormat SegmentScan SegmentWriter Log Lru Dedup ProducerSeq.

(** ** State *)

(** [(producer, epoch, sequence)] *)
Record Identity := mk_identity { id_producer : list Z; id_epoch : Z; id_seq : Z }.
#[export] Instance identity_eq_dec : EqDecision Identity.
Proof. solve_decision. Defined.

Record Stored := mk_stored { st_append : Append; st_identity : option Identity }.

Record Broker := mk_broker {
  bk_records : list Stored;
  bk_flushed : nat;
  bk_dedup : DedupRegistry;
  bk_seqs : ProducerSeqRegistry;
  bk_ckpt_open : bool;
  bk_ckpt : option (list Z);
  bk_ckpt_attempts : list (list Z);
  bk_dedup_hits : Z;
  bk_out_of_window : Z;
  bk_out_of_order : Z
}.

(** How the disk answers the calls of one operation. *)
Record Io := mk_io { io_ckpt_open : bool; io_append : bool; io_ckpt_write : bool; io_sync : bool; io_now : Z }.

Inductive ProduceError := PeStorage | PeCheckpoint.

Inductive AppendOutcome :=
| Appended (offset : Z)
| DuplicateOf (offset : Z)
| FencedBy (current_epoch : Z)
| OutOfOrder (expected : Z).

Record DedupRequest := mk_request { rq_producer_id : list Z; rq_epoch : Z; rq_msg_id : list Z; rq_seq : option Z }.

Definition with_records (b : Broker) (records : list Stored) (flushed : nat) : Broker :=
  mk_broker records flushed (bk_dedup b) (bk_seqs b) (bk_ckpt_open b) (bk_ckpt b) (bk_ckpt_attempts b) (bk_dedup_hits b)
    (bk_out_of_window b) (bk_out_of_order b).
Definition with_dedup (b : Broker) (dedup : DedupRegistry) : Broker :=
  mk_broker (bk_records b) (bk_flushed b) dedup (bk_seqs b) (bk_ckpt_open b) (bk_ckpt b) (bk_ckpt_attempts b) (bk_dedup_hits b)
    (bk_out_of_window b) (bk_out_of_order b).
Definition with_seqs (b : Broker) (seqs : ProducerSeqRegistry) : Broker :=
  mk_broker (bk_records b) (bk_flushed b) (bk_dedup b) seqs (bk_ckpt_open b) (bk_ckpt b) (bk_ckpt_attempts b) (bk_dedup_hits b)
    (bk_out_of_window b) (bk_out_of_order b).
Definition with_ckpt (b : Broker) (opened : bool) (value : option (list Z)) (attempts : list (list Z)) : Broker :=
  mk_broker (bk_records b) (bk_flushed b) (bk_dedup b) (bk_seqs b) opened value attempts (bk_dedup_hits b)
    (bk_out_of_window b) (bk_out_of_order b).
Definition with_counts (b : Broker) (hits out_of_window out_of_order : Z) : Broker :=
  mk_broker (bk_records b) (bk_flushed b) (bk_dedup b) (bk_seqs b) (bk_ckpt_open b) (bk_ckpt b) (bk_ckpt_attempts b) hits
    out_of_window out_of_order.

Definition count_hit (b : Broker) : Broker := with_counts b (sat_add64 (bk_dedup_hits b) 1) (bk_out_of_window b) (bk_out_of_order b).
Definition count_out_of_window (b : Broker) : Broker :=
  with_counts b (bk_dedup_hits b) (sat_add64 (bk_out_of_window b) 1) (bk_out_of_order b).
Definition count_out_of_order (b : Broker) : Broker :=
  with_counts b (bk_dedup_hits b) (bk_out_of_window b) (sat_add64 (bk_out_of_order b) 1).

(** ** Produce *)

Definition append_no_sync (b : Broker) (io : Io) (message : Append) (identity : option Identity) : Broker * res Z ProduceError :=
  if io_append io
  then (with_records b (bk_records b ++ [mk_stored message identity]) (bk_flushed b), Ok (Z.of_nat (length (bk_records b))))
  else (b, Err PeStorage).

Definition ensure_producer_seq_checkpoint (b : Broker) (io : Io) : Broker * res unit ProduceError :=
  if bk_ckpt_open b then (b, Ok tt)
  else if io_ckpt_open io then (with_ckpt b true (bk_ckpt b) (bk_ckpt_attempts b), Ok tt) else (b, Err PeCheckpoint).

Definition append_no_sync_seq (b : Broker) (io : Io) (message : Append) (producer_id : list Z) (epoch seq : Z)
    : Broker * res AppendOutcome ProduceError :=
  let now := io_now io in
  let '(seqs, decision) := seq_check (bk_seqs b) producer_id epoch seq now in
  let b := with_seqs b seqs in
  match decision with
  | SeqDuplicate offset => (count_hit b, Ok (DuplicateOf offset))
  | SeqFenced current_epoch => (b, Ok (FencedBy current_epoch))
  | SeqOutOfOrder expected => (count_out_of_order b, Ok (OutOfOrder expected))
  | SeqFresh =>
      match ensure_producer_seq_checkpoint b io with
      | (b, Ok _) =>
          match append_no_sync b io message (Some (mk_identity producer_id epoch seq)) with
          | (b, Ok offset) => (with_seqs b (seq_record (bk_seqs b) producer_id epoch seq offset now), Ok (Appended offset))
          | (b, Err e) => (b, Err e)
          | (b, Panic) => (b, Panic)
          end
      | (b, Err e) => (b, Err e)
      | (b, Panic) => (b, Panic)
      end
  end.

Definition append_no_sync_dedup_checked (b : Broker) (io : Io) (message : Append) (dedup : option DedupRequest)
    : Broker * res AppendOutcome ProduceError :=
  match dedup with
  | None =>
      match append_no_sync b io message None with
      | (b, Ok offset) => (b, Ok (Appended offset))
      | (b, Err e) => (b, Err e)
      | (b, Panic) => (b, Panic)
      end
  | Some req =>
      match rq_seq req with
      | Some seq => append_no_sync_seq b io message (rq_producer_id req) (rq_epoch req) seq
      | None =>
          let now := io_now io in
          let '(registry, decision) := dedup_check (bk_dedup b) (rq_producer_id req) (rq_epoch req) (rq_msg_id req) now in
          let b := with_dedup b registry in
          match decision with
          | DedupDuplicate offset => (count_hit b, Ok (DuplicateOf offset))
          | DedupFenced current_epoch => (b, Ok (FencedBy current_epoch))
          | DedupFresh out_of_window =>
              let b := if out_of_window then count_out_of_window b else b in
              match append_no_sync b io message None with
              | (b, Ok offset) =>
                  (with_dedup b (dedup_record (bk_dedup b) (rq_producer_id req) (rq_msg_id req) offset now), Ok (Appended offset))
              | (b, Err e) => (b, Err e)
              | (b, Panic) => (b, Panic)
              end
          end
      end
  end.

(** The covering sync of [commit_batch] at the default durability level. *)
Definition commit_batch (b : Broker) (io : Io) : Broker * res unit ProduceError :=
  if io_sync io then (with_records b (bk_records b) (length (bk_records b)), Ok tt) else (b, Err PeStorage).

(** ** The sequence checkpoint *)

Definition PRODUCER_SEQ_PAYLOAD : Z := 60 * 1024.

Section checkpoint.
Context `{Crc32c}.

(** The leading entries that fit, tried one more at a time. *)
Fixpoint keep_fitting (kept entries : list SeqHighWater) : list SeqHighWater :=
  match entries with
  | [] => kept
  | entry :: entries =>
      if PRODUCER_SEQ_PAYLOAD <? Z.of_nat (length (encode_seq_snapshot (kept ++ [entry]) [])) then kept
      else keep_fitting (kept ++ [entry]) entries
  end.

Definition producer_seq_snapshot_payload (r : ProducerSeqRegistry) : list Z :=
  let entries := snapshot_pairs r in
  let buf := encode_seq_snapshot entries [] in
  if Z.of_nat (length buf) <=? PRODUCER_SEQ_PAYLOAD then buf else encode_seq_snapshot (keep_fitting [] entries) [].

Definition checkpoint_producer_seq (b : Broker) (io : Io) : Broker * res unit ProduceError :=
  if negb (bk_ckpt_open b) then (b, Ok tt)
  else
    let payload := producer_seq_snapshot_payload (bk_seqs b) in
    if io_ckpt_write io then (with_ckpt b true (Some payload) [], Ok tt)
    else (with_ckpt b true (bk_ckpt b) (payload :: bk_ckpt_attempts b), Err PeCheckpoint).

(** Restore the recovered high-waters that point below the durable head. *)
Definition seed_producer_seq (recovered : option (list Z)) (flushed now : Z) (r : ProducerSeqRegistry) : ProducerSeqRegistry :=
  match recovered with
  | None => r
  | Some bytes =>
      match decode_seq_snapshot bytes with
      | Ok entries =>
          foldl (fun r e => if flushed <=? hw_last_offset e then r
                            else seq_restore r (hw_producer_id e) (hw_epoch e) (hw_last_seq e) (hw_last_offset e) now) r entries
      | _ => r
      end
  end.

(** What a crash leaves and opening rebuilds: [kept] records and the recovered
    checkpoint; the dedup window starts empty. *)
Definition reopen (b : Broker) (kept : nat) (recovered : option (list Z)) (now : Z) : Broker :=
  let records := take kept (bk_records b) in
  mk_broker records (length records) (dedup_new (dr_config (bk_dedup b)))
    (seed_producer_seq recovered (Z.of_nat (length records)) now (seqs_new DEFAULT_MAX_SEQ_PRODUCERS))
    (bk_ckpt_open b) recovered [] 0 0 0.

Definition crash_ok (b : Broker) (kept : nat) (recovered : option (list Z)) : Prop :=
  (bk_flushed b <= kept <= length (bk_records b))%nat /\
  (recovered = bk_ckpt b \/ exists v, recovered = Some v /\ v ∈ bk_ckpt_attempts b).
End checkpoint.

(** ** Runs without a crash *)

Inductive ProdOp :=
| OpSequenced (io : Io) (message : Append) (identity : Identity)
| OpPlain (io : Io) (message : Append) (dedup : option DedupRequest)
| OpCommit (io : Io)
| OpCheckpoint (io : Io)
| OpRestart (now : Z).

Section runs.
Context `{Crc32c}.

Definition io_fine : Io := mk_io true true true true 0.

(** The clean-shutdown barrier, then opening again. *)
Definition stop_and_start (b : Broker) (now : Z) : Broker :=
  let b := fst (commit_batch b io_fine) in
  let b := fst (checkpoint_producer_seq b io_fine) in
  reopen b (length (bk_records b)) (bk_ckpt b) now.

Definition prod_step (b : Broker) (op : ProdOp) : Broker * option (res AppendOutcome ProduceError) :=
  match op with
  | OpSequenced io message id =>
      let '(b, r) := append_no_sync_dedup_checked b io message
        (Some (mk_request (id_producer id) (id_epoch id) [] (Some (id_seq id)))) in (b, Some r)
  | OpPlain io message dedup => let '(b, r) := append_no_sync_dedup_checked b io message dedup in (b, Some r)
  | OpCommit io => (fst (commit_batch b io), None)
  | OpCheckpoint io => (fst (checkpoint_producer_seq b io), None)
  | OpRestart now => (stop_and_start b now, None)
  end.

Definition prod_run (b : Broker) (ops : list ProdOp) : Broker := foldl (fun b op => fst (prod_step b op)) b ops.

Definition broker_new (c : DedupConfig) : Broker :=
  mk_broker [] 0 (dedup_new c) (seqs_new DEFAULT_MAX_SEQ_PRODUCERS) false None [] 0 0 0.

(** The sequence numbers a producer's epoch has in the log, in log order. *)
Definition seqs_of (pid : list Z) (epoch : Z) (records : list Stored) : list Z :=
  omap (fun r => match st_identity r with
                 | Some i => if decide (id_producer i = pid /\ id_epoch i = epoch) then Some (id_seq i) else None
                 | None => None
                 end) records.

(** What a run may ask: typed identities of producers of [all]; a restart with
    every tracked producer settled and the whole snapshot in the slot. *)
Definition identity_ok (i : Identity) : Prop :=
  bytes_ok (id_producer i) /\ Z.of_nat (length (id_producer i)) <= u16_max /\ is_u64 (id_epoch i) /\ is_u64 (id_seq i).

Definition settled (r : ProducerSeqRegistry) : Prop := forall pid e o, high_water r pid <> Some (e, None, o).

Definition op_ok (all : gset (list Z)) (b : Broker) (op : ProdOp) : Prop :=
  match op with
  | OpSequenced _ _ i => id_producer i ∈ all /\ identity_ok i /\ Z.of_nat (length (bk_records b)) <= u64_max
  | OpPlain _ _ dedup => match dedup with Some req => rq_seq req = None | None => True end
  | OpCommit _ | OpCheckpoint _ => True
  | OpRestart _ =>
      settled (bk_seqs b) /\ Z.of_nat (length (encode_seq_snapshot (snapshot_pairs (bk_seqs b)) [])) <= PRODUCER_SEQ_PAYLOAD
  end.

Fixpoint ops_ok (all : gset (list Z)) (b : Broker) (ops : list ProdOp) : Prop :=
  match ops with
  | [] => True
  | op :: ops => op_ok all b op /\ ops_ok all (fst (prod_step b op)) ops
  end.

(** ** The invariant *)

(** The high-water of a producer says what the log holds of it. *)
Definition tracks (records : list Stored) (pid : list Z) (w : option (Z * option Z * Z)) : Prop :=
  match w with
  | None => forall e, seqs_of pid e records = []
  | Some (e, l, o) =>
      (forall e', e < e' -> seqs_of pid e' records = []) /\ last (seqs_of pid e records) = l /\
      match l with
      | Some s => exists n r, o = Z.of_nat n /\ records !! n = Some r /\ st_identity r = Some (mk_identity pid e s)
      | None => True
      end
  end.

(** Consecutive numbers. *)
Definition is_run (l : list Z) : Prop := exists a, l = seqZ a (Z.of_nat (length l)).

Record produce_inv (all : gset (list Z)) (b : Broker) : Prop := {
  pi_ok : seqs_ok (bk_seqs b);
  pi_max : sr_max_producers (bk_seqs b) = DEFAULT_MAX_SEQ_PRODUCERS;
  pi_room : (size all <= DEFAULT_MAX_SEQ_PRODUCERS)%nat;
  pi_dom pid w : high_water (bk_seqs b) pid = Some w -> pid ∈ all;
  pi_flushed : (bk_flushed b <= length (bk_records b))%nat;
  pi_tracks pid : tracks (bk_records b) pid (high_water (bk_seqs b) pid);
  pi_runs pid e : is_run (seqs_of pid e (bk_records b));
  pi_typed pid e l o : high_water (bk_seqs b) pid = Some (e, l, o) ->
    forall s, l = Some s -> identity_ok (mk_identity pid e s) /\ is_u64 o;
  pi_ckpt pid e s o : high_water (bk_seqs b) pid = Some (e, Some s, o) -> bk_ckpt_open b = true;
  pi_absent : bk_ckpt_open b = false -> bk_ckpt b = None
}.

Lemma seqs_of_app pid e l1 l2 : seqs_of pid e (l1 ++ l2) = seqs_of pid e l1 ++ seqs_of pid e l2.
Proof. apply omap_app. Qed.

Lemma seqs_of_plain pid e m : seqs_of pid e [mk_stored m None] = [].
Proof. done. Qed.

Lemma seqs_of_one pid e m i :
  seqs_of pid e [mk_stored m (Some i)] = if decide (id_producer i = pid /\ id_epoch i = e) then [id_seq i] else [].
Proof. unfold seqs_of. cbn. by case_decide. Qed.

Lemma seqZ_snoc a n : 0 <= n -> seqZ a n ++ [a + n] = seqZ a (n + 1).
Proof. intros Hn. rewrite seqZ_app by lia. cbn. f_equal. Qed.

Lemma last_seqZ a n : 0 < n -> last (seqZ a n) = Some (a + n - 1).
Proof. intros Hn. replace n with (n - 1 + 1) at 1 by lia. rewrite <- seqZ_snoc by lia. rewrite last_snoc. f_equal. lia. Qed.

Lemma inv_size all b : produce_inv all b -> dom (sr_producers (bk_seqs b)) ⊆ all.
Proof.
  intros Hi pid (p & Hp)%elem_of_dom. eapply (pi_dom _ _ Hi). unfold high_water. by rewrite Hp.
Qed.

Lemma inv_fits all b pid : produce_inv all b -> pid ∈ all -> fits (bk_seqs b) pid.
Proof.
  intros Hi Hpid. destruct (sr_producers (bk_seqs b) !! pid) as [p|] eqn:Hp; [left; by eexists|right].
  assert (Hsub : {[pid]} ∪ dom (sr_producers (bk_seqs b)) ⊆ all) by (pose proof (inv_size all b Hi); set_solver).
  apply subseteq_size in Hsub. rewrite size_union, size_singleton, size_dom in Hsub.
  - rewrite (pi_max _ _ Hi). pose proof (pi_room _ _ Hi). lia.
  - apply disjoint_singleton_l. by apply not_elem_of_dom.
Qed.

Lemma tracks_bump records pid w epoch : tracks records pid w -> tracks records pid (Some (hw_bump w epoch)).
Proof.
  destruct w as [[[e l] o]|]; cbn; [|intros Hn; split_and!; [by intros e' _|by rewrite Hn|done]].
  intros (Hnew & Hl & Ho). destruct (Z.ltb_spec e epoch); [|by split_and!].
  split_and!; [intros e' He'; apply Hnew; lia|by rewrite Hnew|done].
Qed.

Lemma check_inv all b pid epoch seq now :
  produce_inv all b -> pid ∈ all ->
  let w := hw_bump (high_water (bk_seqs b) pid) epoch in
  produce_inv all (with_seqs b (fst (seq_check (bk_seqs b) pid epoch seq now))) /\
  snd (seq_check (bk_seqs b) pid epoch seq now) = hw_decide w epoch seq /\
  high_water (fst (seq_check (bk_seqs b) pid epoch seq now)) pid = Some w.
Proof.
  intros Hi Hpid w. destruct (seq_check_spec (bk_seqs b) pid epoch seq now (pi_ok _ _ Hi) (inv_fits _ _ _ Hi Hpid)) as (Hok & Hm & Hd & Hw).
  fold w in Hd, Hw. set (r := fst (seq_check (bk_seqs b) pid epoch seq now)) in *.
  assert (Hsome : forall e s o, w = (e, Some s, o) -> high_water (bk_seqs b) pid = Some (e, Some s, o)).
  { intros e s o. unfold w, hw_bump. destruct (high_water (bk_seqs b) pid) as [[[e0 l0] o0]|]; [|done].
    destruct (e0 <? epoch); [done|]. by intros [= -> -> ->]. }
  split_and!; [|done|rewrite Hw; by rewrite decide_True].
  destruct Hi as [H1 H2 H3 H4 H5 H6 H7 H8 H9 H10]. split; cbn; try done.
  - congruence.
  - intros q w'. rewrite Hw. case_decide as Hq; [by subst|apply H4].
  - intros q. rewrite Hw. case_decide as Hq; [subst q; by apply tracks_bump|apply H6].
  - intros q e l o. rewrite Hw. case_decide as Hq; [|apply H8]. intros [= Hwe] s ->. subst q. eapply H8; [by apply Hsome|done].
  - intros q e s o. rewrite Hw. case_decide as Hq; [|apply H9]. intros [= Hwe]. eapply H9. by apply Hsome.
Qed.

(** Appending the next record of a producer's epoch. *)
Lemma tracks_append records pid e l o seq m :
  tracks records pid (Some (e, l, o)) ->
  tracks (records ++ [mk_stored m (Some (mk_identity pid e seq))]) pid (Some (e, Some seq, Z.of_nat (length records))).
Proof.
  intros (Hnew & Hl & Ho). split_and!.
  - intros e' He'. rewrite seqs_of_app, seqs_of_one, Hnew by done. cbn. rewrite decide_False; [done|lia].
  - rewrite seqs_of_app, seqs_of_one. cbn. rewrite decide_True by done. apply last_snoc.
  - exists (length records), (mk_stored m (Some (mk_identity pid e seq))). split_and!; [done| |done]. apply list_lookup_middle. done.
Qed.

Lemma tracks_foreign records pid w r :
  match st_identity r with Some i => id_producer i <> pid | None => True end -> tracks records pid w -> tracks (records ++ [r]) pid w.
Proof.
  intros Hr. assert (Hs : forall e, seqs_of pid e (records ++ [r]) = seqs_of pid e records).
  { intros e. rewrite seqs_of_app. destruct r as [m [i|]]; [rewrite seqs_of_one|rewrite seqs_of_plain; apply app_nil_r].
    rewrite decide_False; [apply app_nil_r|]. cbn in Hr. by intros [? _]. }
  destruct w as [[[e l] o]|]; cbn.
  - intros (Hnew & Hl & Ho). split_and!; [intros e' He'; rewrite Hs; auto|by rewrite Hs|]. destruct l as [s|]; [|done].
    destruct Ho as (n & r' & ? & Hn & ?). exists n, r'. split_and!; try done. by apply lookup_app_l_Some.
  - intros Hn e. by rewrite Hs.
Qed.

Lemma is_run_snoc l x : is_run l -> match last l with Some y => x = y + 1 | None => True end -> is_run (l ++ [x]).
Proof.
  intros [a Ha] Hx. destruct (decide (l = [])) as [->|Hne]; [by exists x|].
  exists a. rewrite length_app. cbn [length]. rewrite Nat2Z.inj_add. change (Z.of_nat 1) with 1. rewrite <- seqZ_snoc by lia. rewrite <- Ha.
  do 2 f_equal. assert (0 < Z.of_nat (length l)) by (destruct l; [done|cbn; lia]). rewrite Ha, last_seqZ in Hx by done. lia.
Qed.

Lemma sequenced_append_inv all b m pid epoch seq l o r' :
  produce_inv all b -> identity_ok (mk_identity pid epoch seq) -> Z.of_nat (length (bk_records b)) <= u64_max -> bk_ckpt_open b = true ->
  high_water (bk_seqs b) pid = Some (epoch, l, o) -> match l with Some y => seq = y + 1 | None => True end ->
  seqs_ok r' -> sr_max_producers r' = sr_max_producers (bk_seqs b) ->
  (forall q, high_water r' q = if decide (q = pid) then Some (epoch, Some seq, Z.of_nat (length (bk_records b))) else high_water (bk_seqs b) q) ->
  produce_inv all (with_seqs (with_records b (bk_records b ++ [mk_stored m (Some (mk_identity pid epoch seq))]) (bk_flushed b)) r').
Proof.
  intros [H1 H2 H3 H4 H5 H6 H7 H8 H9 H10] Hid Hlen Hck Hw Hl Hok Hmax Hw'. pose proof (H6 pid) as Ht. rewrite Hw in Ht. split; cbn [with_seqs with_records bk_records bk_flushed bk_seqs bk_ckpt_open]; try done.
  - congruence.
  - intros q w. rewrite Hw'. case_decide as Hq; [|apply H4]. subst q. intros _. by eapply H4.
  - rewrite length_app. cbn. lia.
  - intros q. rewrite Hw'. case_decide as Hq; [subst q; by eapply tracks_append|]. apply tracks_foreign; [cbn; congruence|apply H6].
  - intros q e. rewrite seqs_of_app, seqs_of_one. cbn. case_decide as Hq; [|rewrite app_nil_r; apply H7].
    destruct Hq as [<- <-]. apply is_run_snoc; [apply H7|]. destruct Ht as (_ & -> & _). done.
  - intros q e l' o'. rewrite Hw'. case_decide as Hq; [|apply H8]. intros [= <- <- <-] s [= <-]. subst q. split; [done|].
    unfold is_u64. lia.
Qed.

Lemma append_plain_inv all b m :
  produce_inv all b -> produce_inv all (with_records b (bk_records b ++ [mk_stored m None]) (bk_flushed b)).
Proof.
  intros [H1 H2 H3 H4 H5 H6 H7 H8 H9 H10]. split; cbn [with_seqs with_records bk_records bk_flushed bk_seqs bk_ckpt_open]; try done.
  - rewrite length_app. cbn. lia.
  - intros q. by apply tracks_foreign.
  - intros q e. rewrite seqs_of_app, seqs_of_plain, app_nil_r. apply H7.
Qed.

(** What only counts, windows or the checkpoint's content change. *)
Lemma inv_frame all b b' :
  bk_records b' = bk_records b -> (bk_flushed b' <= length (bk_records b))%nat -> bk_seqs b' = bk_seqs b ->
  (bk_ckpt_open b = true -> bk_ckpt_open b' = true) ->
  (bk_ckpt_open b' = false -> bk_ckpt b' = bk_ckpt b) -> produce_inv all b -> produce_inv all b'.
Proof.
  intros Hr Hf Hs Hc Hk [H1 H2 H3 H4 H5 H6 H7 H8 H9 H10]. split; rewrite ?Hr, ?Hs; try done.
  - intros. eapply Hc, H9. done.
  - intros Ho. rewrite Hk by done. apply H10. destruct (bk_ckpt_open b); [|done]. by rewrite Hc in Ho.
Qed.

(** ** A restart restores the high-waters *)

Lemma length_snapshot_pairs r : (length (snapshot_pairs r) <= size (sr_producers r))%nat.
Proof.
  rewrite <- length_map_to_list, <- (merge_sort_Permutation bytes_key_le). unfold snapshot_pairs, bytes_map_list.
  induction (merge_sort bytes_key_le (map_to_list (sr_producers r))) as [|[k p] l IH]; [done|].
  cbn [omap list_omap snd]. destruct (ps_last_seq p); cbn [length]; lia.
Qed.

Lemma seed_all_below entries flushed now r :
  (forall e, e ∈ entries -> hw_last_offset e < flushed) ->
  foldl (fun r e => if flushed <=? hw_last_offset e then r
                    else seq_restore r (hw_producer_id e) (hw_epoch e) (hw_last_seq e) (hw_last_offset e) now) r entries =
  foldl (fun r e => seq_restore r (hw_producer_id e) (hw_epoch e) (hw_last_seq e) (hw_last_offset e) now) r entries.
Proof.
  revert r. induction entries as [|e entries IH]; intros r He; [done|]. cbn [foldl]. destruct (Z.leb_spec flushed (hw_last_offset e)).
  - specialize (He e ltac:(left)). lia.
  - apply IH. intros e' He'. apply He. by right.
Qed.

Lemma snapshot_below all b e :
  produce_inv all b -> e ∈ snapshot_pairs (bk_seqs b) -> hw_ok e /\ hw_last_offset e < Z.of_nat (length (bk_records b)).
Proof.
  intros Hi He%elem_of_snapshot_pairs. destruct (pi_typed _ _ Hi _ _ _ _ He _ eq_refl) as ((? & ? & ? & ?) & ?). split; [by split_and!|].
  pose proof (pi_tracks _ _ Hi (hw_producer_id e)) as Ht. rewrite He in Ht. destruct Ht as (_ & _ & n & r & -> & Hn%lookup_lt_Some & _). lia.
Qed.

Lemma seed_restores all b now :
  produce_inv all b -> settled (bk_seqs b) ->
  let r := seed_producer_seq (Some (encode_seq_snapshot (snapshot_pairs (bk_seqs b)) [])) (Z.of_nat (length (bk_records b))) now
             (seqs_new DEFAULT_MAX_SEQ_PRODUCERS) in
  seqs_ok r /\ sr_max_producers r = DEFAULT_MAX_SEQ_PRODUCERS /\ forall pid, high_water r pid = high_water (bk_seqs b) pid.
Proof.
  intros Hi Hset. pose proof (snapshot_pairs_ascend (bk_seqs b)) as Hasc. destruct (ids_ascend_NoDup _ _ Hasc) as [Hnd _].
  pose proof (length_snapshot_pairs (bk_seqs b)) as Hlen. pose proof (so_size _ (pi_ok _ _ Hi)) as Hb. rewrite (pi_max _ _ Hi) in Hb.
  assert (Hsmall : Z.of_nat DEFAULT_MAX_SEQ_PRODUCERS <= u32_max) by done.
  unfold seed_producer_seq. rewrite seq_snapshot_roundtrip; [|apply Forall_forall; intros e He; eapply snapshot_below; eassumption|done|lia].
  rewrite seed_all_below by (intros e He; eapply snapshot_below; eassumption).
  destruct (restore_all (seqs_new DEFAULT_MAX_SEQ_PRODUCERS) (snapshot_pairs (bk_seqs b)) now) as (Hok & Hm & Hw); [apply seqs_new_ok|done..| |].
  { cbn [seqs_new sr_producers sr_max_producers]. rewrite map_size_empty. lia. }
  split_and!; [done|rewrite Hm; done|]. intros pid. apply option_eq. intros w. rewrite Hw. split.
  - intros [Hno|(e & He%elem_of_snapshot_pairs & <- & ->)]; [done|exact He].
  - intros Hp. right. destruct w as [[e [s|]] o]; [|by apply Hset in Hp].
    exists (mk_hw pid e s o). split_and!; [by apply elem_of_snapshot_pairs|done..].
Qed.

Lemma restart_inv all b now :
  produce_inv all b -> op_ok all b (OpRestart now) ->
  produce_inv all (stop_and_start b now) /\ bk_records (stop_and_start b now) = bk_records b.
Proof.
  intros Hi [Hset Hfit]. apply Z.leb_le in Hfit. unfold stop_and_start, checkpoint_producer_seq, producer_seq_snapshot_payload.
  destruct b as [recs fl dd sq op ck tried n1 n2 n3]. cbn [commit_batch io_fine io_sync fst with_records bk_ckpt_open bk_seqs] in *.
  rewrite Hfit. pose proof (seed_restores _ _ now Hi Hset) as (Hok & Hm & Hw). cbn [bk_seqs bk_records] in Hok, Hm, Hw.
  destruct op; cbn [negb io_ckpt_write fst with_ckpt]; unfold reopen; cbn [bk_records bk_ckpt bk_dedup bk_ckpt_open]; rewrite take_ge by done;
    (split; [|done]).
  - destruct Hi as [H1 H2 H3 H4 H5 H6 H7 H8 H9 H10]. split; cbn [bk_records bk_flushed bk_seqs bk_ckpt_open bk_ckpt] in *; try done;
      setoid_rewrite Hw; done.
  - pose proof (pi_absent _ _ Hi eq_refl) as Hck. cbn [bk_ckpt] in Hck. subst ck. cbn [seed_producer_seq].
    assert (Hnone : forall pid, high_water sq pid = None).
    { intros pid. destruct (high_water sq pid) as [[[e [s|]] o]|] eqn:Hp; [by apply (pi_ckpt _ _ Hi) in Hp|by apply Hset in Hp|done]. }
    destruct Hi as [H1 H2 H3 H4 H5 H6 H7 H8 H9 H10]. split; cbn [bk_records bk_flushed bk_seqs bk_ckpt_open bk_ckpt] in *; try done;
      [apply seqs_new_ok|intros pid; specialize (H6 pid); by rewrite Hnone in H6].
Qed.

(** ** What a sequenced publish answers *)

Definition seq_outcome (b : Broker) (m : Append) (i : Identity) (b' : Broker) (r : res AppendOutcome ProduceError) : Prop :=
  let sent := seqs_of (id_producer i) (id_epoch i) (bk_records b) in
  (id_seq i ∈ sent -> match r with Ok (DuplicateOf _) | Ok (FencedBy _) => True | _ => False end) /\
  match r with
  | Ok (Appended o) => bk_records b' = bk_records b ++ [mk_stored m (Some i)] /\ o = Z.of_nat (length (bk_records b))
  | Ok (DuplicateOf o) =>
      bk_records b' = bk_records b /\
      (exists n x s, o = Z.of_nat n /\ bk_records b !! n = Some x /\
         st_identity x = Some (mk_identity (id_producer i) (id_epoch i) s) /\ id_seq i <= s) /\
      (forall first, head sent = Some first -> first <= id_seq i -> id_seq i ∈ sent)
  | Ok (FencedBy e) => bk_records b' = bk_records b /\ id_epoch i < e
  | Ok (OutOfOrder x) => bk_records b' = bk_records b /\ x < id_seq i /\ last sent = Some (x - 1)
  | Err _ => bk_records b' = bk_records b
  | Panic => False
  end.

Lemma is_run_elem l x : is_run l -> x ∈ l <-> (exists a z, head l = Some a /\ last l = Some z /\ a <= x <= z).
Proof.
  intros [a Ha]. destruct (decide (l = [])) as [->|Hne].
  { split; [by intros ?%not_elem_of_nil|]. by intros (? & ? & ? & _). }
  assert (Hpos : 0 < Z.of_nat (length l)) by (destruct l; [done|cbn; lia]). set (n := Z.of_nat (length l)) in *.
  assert (Hh : head l = Some a) by (rewrite Ha, seqZ_cons by done; done).
  assert (Hz : last l = Some (a + n - 1)) by (rewrite Ha; by apply last_seqZ).
  rewrite Hh, Hz. rewrite Ha, elem_of_seqZ. split; [intros; exists a, (a + n - 1); split_and!; done || lia|].
  intros (? & ? & [= <-] & [= <-] & ?). lia.
Qed.

(** The fresh branch: open the checkpoint, append, record. *)
Definition fresh_append (b : Broker) (io : Io) (m : Append) (pid : list Z) (epoch seq : Z) : Broker * res AppendOutcome ProduceError :=
  match ensure_producer_seq_checkpoint b io with
  | (b, Ok _) =>
      match append_no_sync b io m (Some (mk_identity pid epoch seq)) with
      | (b, Ok offset) => (with_seqs b (seq_record (bk_seqs b) pid epoch seq offset (io_now io)), Ok (Appended offset))
      | (b, Err e) => (b, Err e)
      | (b, Panic) => (b, Panic)
      end
  | (b, Err e) => (b, Err e)
  | (b, Panic) => (b, Panic)
  end.

Lemma fresh_append_inv all b io m pid epoch seq l o :
  produce_inv all b -> identity_ok (mk_identity pid epoch seq) -> Z.of_nat (length (bk_records b)) <= u64_max ->
  high_water (bk_seqs b) pid = Some (epoch, l, o) -> match l with Some y => seq = y + 1 | None => True end ->
  let '(b', r) := fresh_append b io m pid epoch seq in
  produce_inv all b' /\
  match r with
  | Ok (Appended o) =>
      bk_records b' = bk_records b ++ [mk_stored m (Some (mk_identity pid epoch seq))] /\ o = Z.of_nat (length (bk_records b))
  | Err _ => bk_records b' = bk_records b
  | _ => False
  end.
Proof.
  intros Hi Hid Hlen Hw Hl. unfold fresh_append.
  assert (He : match ensure_producer_seq_checkpoint b io with
               | (b1, Ok _) => produce_inv all b1 /\ bk_records b1 = bk_records b /\ bk_seqs b1 = bk_seqs b /\ bk_ckpt_open b1 = true
               | (b1, Err _) => b1 = b
               | (_, Panic) => False
               end).
  { unfold ensure_producer_seq_checkpoint. destruct (bk_ckpt_open b) eqn:Ho; [done|]. destruct (io_ckpt_open io); [|done].
    split_and!; try done. eapply inv_frame; [..|exact Hi]; try done. apply (pi_flushed _ _ Hi). }
  destruct (ensure_producer_seq_checkpoint b io) as [b1 [u|e|]]; [|by subst|done]. destruct He as (Hi1 & Hr & Hs & Ho).
  unfold append_no_sync. destruct (io_append io); [|by rewrite <- Hr]. cbn [with_records bk_seqs]. rewrite Hr, Hs. split; [|done].
  rewrite <- Hs in Hw. destruct (seq_record_spec (bk_seqs b1) pid epoch seq (Z.of_nat (length (bk_records b1))) (io_now io) epoch l o)
    as (Hok & Hm & Hq); [apply (pi_ok _ _ Hi1)|done..|destruct l; [lia|done]|].
  rewrite <- Hr, <- Hs. eapply sequenced_append_inv; [exact Hi1|done|by rewrite Hr|done|exact Hw|done..].
Qed.

Lemma append_seq_inv all b io m i :
  produce_inv all b -> op_ok all b (OpSequenced io m i) ->
  let '(b', r) := append_no_sync_seq b io m (id_producer i) (id_epoch i) (id_seq i) in
  produce_inv all b' /\ seq_outcome b m i b' r.
Proof.
  intros Hi (Hpid & Hid & Hlen). destruct i as [pid epoch seq]. cbn [id_producer id_epoch id_seq] in *.
  destruct (check_inv all b pid epoch seq (io_now io) Hi Hpid) as (Hi' & Hd & Hw). unfold append_no_sync_seq.
  destruct (seq_check (bk_seqs b) pid epoch seq (io_now io)) as [r d]. cbn [fst snd] in *. subst d.
  pose proof (pi_tracks _ _ Hi' pid) as Ht. pose proof (is_run_elem _ seq (pi_runs _ _ Hi pid epoch)) as Hel.
  cbn [with_seqs bk_seqs bk_records] in Ht. rewrite Hw in Ht.
  destruct (hw_bump (high_water (bk_seqs b) pid) epoch) as [[e l] o] eqn:Hb. cbn [hw_decide].
  assert (He : epoch <= e).
  { unfold hw_bump in Hb. destruct (high_water (bk_seqs b) pid) as [[[e0 l0] o0]|]; [|injection Hb as <- <- <-; lia].
    destruct (Z.ltb_spec e0 epoch); injection Hb as <- <- <-; lia. }
  assert (Hcount : forall f, (forall b1, bk_records (f b1) = bk_records b1 /\ bk_flushed (f b1) = bk_flushed b1 /\ bk_seqs (f b1) = bk_seqs b1 /\
      bk_ckpt_open (f b1) = bk_ckpt_open b1 /\ bk_ckpt (f b1) = bk_ckpt b1) -> produce_inv all (f (with_seqs b r))).
  { intros f Hf. destruct (Hf (with_seqs b r)) as (F1 & F2 & F3 & F4 & F5). eapply inv_frame; [exact F1| |exact F3|by rewrite F4|done|exact Hi'].
    rewrite F2. apply (pi_flushed _ _ Hi'). }
  destruct (Z.ltb_spec epoch e) as [Hlt|Hge]; [by split_and!|]. assert (e = epoch) as -> by lia. destruct Ht as (_ & Hl & Ho).
  assert (Hfresh : match l with Some y => seq = y + 1 | None => True end ->
    let '(b', r) := fresh_append (with_seqs b r) io m pid epoch seq in produce_inv all b' /\ seq_outcome b m (mk_identity pid epoch seq) b' r).
  { intros Hn. pose proof (fresh_append_inv all (with_seqs b r) io m pid epoch seq l o Hi' Hid Hlen Hw Hn) as Hf.
    destruct (fresh_append (with_seqs b r) io m pid epoch seq) as [b' r']. destruct Hf as [Hib Hr']. split; [done|].
    split; [|by destruct r' as [[]| |]]. cbn [id_producer id_epoch id_seq]. intros (a & z & _ & Hz & Hin)%Hel. rewrite Hl in Hz. rewrite Hz in Hn. lia. }
  destruct l as [y|]; [|by apply Hfresh].
  destruct (Z.leb_spec seq y) as [Hle|Hgt].
  - split; [by apply (Hcount count_hit)|]. split; [done|]. split_and!; [done| |].
    + destruct Ho as (n & x & -> & Hn & Hx). exists n, x, y. done.
    + intros first Hf Hle'. apply Hel. exists first, y. done.
  - destruct (Z.eqb_spec seq (y + 1)) as [Hn|Hn]; [by apply Hfresh|]. split; [by apply (Hcount count_out_of_order)|].
    split; [cbn; intros (a & z & _ & Hz & Hin)%Hel; rewrite Hl in Hz; injection Hz as <-; lia|]. split_and!; [done|cbn; lia|].
    cbn. rewrite Hl. f_equal. lia.
Qed.

(** ** Every step *)

Definition outcome_ok (b : Broker) (op : ProdOp) (b' : Broker) (r : option (res AppendOutcome ProduceError)) : Prop :=
  match op, r with
  | OpSequenced _ m i, Some r => seq_outcome b m i b' r
  | OpPlain _ m _, Some (Ok (Appended o)) => bk_records b' = bk_records b ++ [mk_stored m None] /\ o = Z.of_nat (length (bk_records b))
  | OpPlain _ _ _, Some (Ok (OutOfOrder _)) | OpPlain _ _ _, Some Panic => False
  | OpPlain _ _ _, Some _ => bk_records b' = bk_records b
  | OpCommit _, None | OpCheckpoint _, None | OpRestart _, None => bk_records b' = bk_records b
  | _, _ => False
  end.

Lemma append_plain_step all b io m :
  produce_inv all b ->
  match append_no_sync b io m None with
  | (b', Ok o) => produce_inv all b' /\ bk_records b' = bk_records b ++ [mk_stored m None] /\ o = Z.of_nat (length (bk_records b))
  | (b', Err _) => b' = b
  | (_, Panic) => False
  end.
Proof. intros Hi. unfold append_no_sync. destruct (io_append io); [|done]. split_and!; [by apply append_plain_inv|done..]. Qed.

(** A broker that differs in its windows and counts. *)
Definition same_store (b b' : Broker) : Prop :=
  bk_records b' = bk_records b /\ bk_flushed b' = bk_flushed b /\ bk_seqs b' = bk_seqs b /\
  bk_ckpt_open b' = bk_ckpt_open b /\ bk_ckpt b' = bk_ckpt b.

Lemma same_store_inv all b b' : same_store b b' -> produce_inv all b -> produce_inv all b'.
Proof.
  intros (F1 & F2 & F3 & F4 & F5) Hi. eapply inv_frame; [exact F1| |exact F3|by rewrite F4|done|exact Hi].
  rewrite F2. apply (pi_flushed _ _ Hi).
Qed.

Lemma plain_inv all b io m dedup :
  produce_inv all b -> op_ok all b (OpPlain io m dedup) ->
  let '(b', r) := append_no_sync_dedup_checked b io m dedup in produce_inv all b' /\ outcome_ok b (OpPlain io m dedup) b' (Some r).
Proof.
  intros Hi Hreq. unfold append_no_sync_dedup_checked. destruct dedup as [req|].
  - cbn in Hreq. rewrite Hreq. destruct (dedup_check _ _ _ _ _) as [d [oow|o|e]];
      [|split; [by eapply (same_store_inv _ b)|done]..].
    set (b1 := if oow then count_out_of_window (with_dedup b d) else with_dedup b d).
    assert (Hb1 : same_store b b1) by (by destruct oow).
    pose proof (append_plain_step all b1 io m (same_store_inv _ _ _ Hb1 Hi)) as Hs. destruct (append_no_sync b1 io m None) as [b2 [o|e|]]; [| |done].
    + destruct Hs as (Hi2 & Hr & Ho). split; [by eapply (same_store_inv _ b2)|]. cbn. destruct Hb1 as (<- & _). done.
    + subst b2. split; [by eapply (same_store_inv _ b)|]. cbn. apply Hb1.
  - pose proof (append_plain_step all b io m Hi) as Hs. by destruct (append_no_sync b io m None) as [b2 [o|e|]]; [|subst|].
Qed.

Lemma prod_step_inv all b op :
  produce_inv all b -> op_ok all b op ->
  produce_inv all (fst (prod_step b op)) /\ outcome_ok b op (fst (prod_step b op)) (snd (prod_step b op)).
Proof.
  intros Hi Hop. destruct op as [io m i|io m dedup|io|io|now]; cbn [prod_step].
  - cbn [append_no_sync_dedup_checked rq_seq rq_producer_id rq_epoch]. pose proof (append_seq_inv all b io m i Hi Hop) as Hs. cbn [append_no_sync_dedup_checked rq_seq].
    by destruct (append_no_sync_seq b io m (id_producer i) (id_epoch i) (id_seq i)).
  - pose proof (plain_inv all b io m dedup Hi Hop) as Hs. by destruct (append_no_sync_dedup_checked b io m dedup).
  - unfold commit_batch. destruct (io_sync io); [|done]. split; [|done]. by eapply inv_frame; [..|exact Hi].
  - unfold checkpoint_producer_seq. destruct (negb (bk_ckpt_open b)); [done|].
    destruct (io_ckpt_write io); (split; [|done]); (eapply inv_frame; [..|exact Hi]; try done; apply (pi_flushed _ _ Hi)).
  - by apply restart_inv.
Qed.

Lemma broker_new_inv c all : (size all <= DEFAULT_MAX_SEQ_PRODUCERS)%nat -> produce_inv all (broker_new c).
Proof.
  intros Hs. split; cbn [broker_new bk_seqs bk_records bk_flushed bk_ckpt_open bk_ckpt]; try done.
  - apply seqs_new_ok.
  - intros pid. unfold high_water. cbn [seqs_new sr_producers]. rewrite lookup_empty. done.
  - intros pid e. by exists 0.
Qed.

Lemma prod_run_inv all ops : forall b,
  produce_inv all b -> ops_ok all b ops -> produce_inv all (prod_run b ops).
Proof.
  induction ops as [|op ops IH]; intros b Hi Hops; [done|]. destruct Hops as [Hop Hops].
  apply (IH (fst (prod_step b op))); [by apply prod_step_inv|done].
Qed.

Lemma ops_ok_snoc all ops op : forall b, ops_ok all b (ops ++ [op]) <-> ops_ok all b ops /\ op_ok all (prod_run b ops) op.
Proof.
  induction ops as [|op' ops IH]; intros b; cbn [ops_ok app prod_run foldl]; [naive_solver|]. rewrite IH. naive_solver.
Qed.

Lemma seqs_of_cons pid e r records : seqs_of pid e (r :: records) = seqs_of pid e [r] ++ seqs_of pid e records.
Proof. apply (seqs_of_app pid e [r]). Qed.

Lemma identities_NoDup records : (forall pid e, NoDup (seqs_of pid e records)) -> NoDup (omap st_identity records).
Proof.
  induction records as [|[m i] records IH]; intros Hnd; [constructor|].
  assert (Htail : forall pid e, NoDup (seqs_of pid e records)).
  { intros pid e. specialize (Hnd pid e). rewrite seqs_of_cons in Hnd. by apply NoDup_app in Hnd as (_ & _ & ?). }
  cbn [omap list_omap st_identity]. destruct i as [i|]; [|by apply IH]. apply NoDup_cons. split; [|by apply IH].
  intros ([m' i'] & Hin & Hi')%list_elem_of_omap. cbn in Hi'. subst i'. specialize (Hnd (id_producer i) (id_epoch i)).
  rewrite seqs_of_cons, seqs_of_one, decide_True in Hnd by done. apply NoDup_cons in Hnd as [Hno _]. apply Hno.
  apply list_elem_of_omap. exists (mk_stored m' (Some i)). split; [done|]. cbn. by rewrite decide_True.
Qed.

Lemma inv_identities all b : produce_inv all b -> NoDup (omap st_identity (bk_records b)).
Proof. intros Hi. apply identities_NoDup. intros pid e. destruct (pi_runs _ _ Hi pid e) as [a ->]. apply NoDup_seqZ. Qed.

End runs.

(** ** Evaluation *)

Definition settled_b (r : ProducerSeqRegistry) : bool := bool_decide (map_Forall (fun _ p => is_Some (ps_last_seq p)) (sr_producers r)).

Lemma settled_b_true r : settled_b r = true -> settled r.
Proof.
  intros Hb%bool_decide_eq_true_1 pid e o. unfold high_water. destruct (sr_producers r !! pid) as [p|] eqn:Hp; [|done].
  destruct (Hb _ _ Hp) as [s Hs]. rewrite Hs. congruence.
Qed.

Section evaluation.
#[local] Existing Instance castagnoli.

Definition demo_broker : Broker := broker_new (mk_dedup_config 8 60 8).
Definition publish (io : Io) (seq : Z) : ProdOp := OpSequenced io (mk_append 7 0 [] [] [120]) (mk_identity [97] 1 seq).
Definition io_shed : Io := mk_io true false true true 0.

Lemma publish_ok b io seq :
  is_u64 seq -> (Z.of_nat (length (bk_records b)) <=? u64_max) = true -> op_ok {[ [97] ]} b (publish io seq).
Proof.
  intros Hs Hl%Z.leb_le. cbn. split_and!; [by apply elem_of_singleton| |done]. unfold identity_ok. cbn.
  split_and!; try done. apply Forall_singleton. unfold is_u8, u8_max. lia.
Qed.


(** A publish the log refused can be lost without a crash: the first number
    accepted after it becomes the base, and the retry is answered as a
    duplicate although no record of it exists. *)
Theorem shed_publish_lost :
  let b := prod_run demo_broker [publish io_shed 0; publish io_fine 1] in
  snd (prod_step (prod_run demo_broker []) (publish io_shed 0)) = Some (Err PeStorage) /\
  snd (prod_step b (publish io_fine 0)) = Some (Ok (DuplicateOf 0)) /\
  seqs_of [97] 1 (bk_records (fst (prod_step b (publish io_fine 0)))) = [1].
Proof. cbv zeta. split_and!; vm_compute; reflexivity. Qed.

(** A crash after a synced and acknowledged publish, before the next
    checkpoint, forgets its sequence number: the retry is appended again. *)
Theorem crash_repeats_publish :
  let b := prod_run demo_broker [publish io_fine 0; OpCommit io_fine] in
  crash_ok b 1 None /\
  snd (prod_step (reopen b 1 None 5) (publish io_fine 0)) = Some (Ok (Appended 1)) /\
  seqs_of [97] 1 (bk_records (fst (prod_step (reopen b 1 None 5) (publish io_fine 0)))) = [0; 0].
Proof. cbv zeta. split_and!; [split; [vm_compute; lia|left; vm_compute; reflexivity]|vm_compute; reflexivity..]. Qed.
End evaluation.
