(* ===== verification/Txn.v ===== *)
(** * Transactional half messages: the lifecycle ([core/src/txn.rs])

    A transaction is prepared, then committed or rolled back, once.  The table
    keeps the prepared ones with an index by age, and a bounded set of tombstones
    of the resolved ones; the back-check book keeps, per prepared transaction,
    how often its producer was asked and when to ask again.  Neither holds
    payloads or does I/O. *)

From S2P Require Import Prelude Lru.

Definition MAX_TXN_ID_LEN : nat := 256.

Inductive TxnOutcome := Committed | RolledBack.
#[export] Instance txn_outcome_eq_dec : EqDecision TxnOutcome.
Proof. solve_decision. Defined.

Inductive TxnState := TxPrepared | TxResolved (outcome : TxnOutcome).
#[export] Instance txn_state_eq_dec : EqDecision TxnState.
Proof. solve_decision. Defined.

Inductive PrepareDecision := PdPrepared | PdAlreadyPrepared.
Inductive ResolveDecision := RdResolved | RdAlreadyResolved.

Inductive TxnError :=
| UnknownTxn
| AlreadyResolved (outcome : TxnOutcome)
| TxnIdSpent (outcome : TxnOutcome)
| TooManyPrepared (cap : nat)
| TooManyPreparedBytes (budget : Z)
| TxnIdTooLong (len : nat).

Record TxnEntry := mk_txn_entry { te_state : TxnState; te_instant : Z }.

Record TxnTable := mk_txn_table {
  tt_max_prepared : nat;
  tt_max_resolved_tombstones : nat;
  tt_prepared : gmap (list Z) TxnEntry;
  tt_prepared_by_age : gset (Z * list Z);
  tt_resolved : gmap (list Z) TxnEntry;
  tt_resolved_lru : list (Z * list Z)
}.

Definition txn_table_new (max_prepared max_resolved_tombstones : nat) : TxnTable :=
  mk_txn_table (max max_prepared 1) (max max_resolved_tombstones 1) ∅ ∅ ∅ [].

Definition set_max_prepared (t : TxnTable) (max_prepared : nat) : TxnTable :=
  mk_txn_table (max max_prepared 1) (tt_max_resolved_tombstones t) (tt_prepared t) (tt_prepared_by_age t) (tt_resolved t)
    (tt_resolved_lru t).

Definition txn_state (t : TxnTable) (txn_id : list Z) : option TxnState :=
  match tt_prepared t !! txn_id with
  | Some e => Some (te_state e)
  | None => te_state <$> tt_resolved t !! txn_id
  end.

Definition with_prepared (t : TxnTable) (prepared : gmap (list Z) TxnEntry) (by_age : gset (Z * list Z)) : TxnTable :=
  mk_txn_table (tt_max_prepared t) (tt_max_resolved_tombstones t) prepared by_age (tt_resolved t) (tt_resolved_lru t).
Definition with_resolved (t : TxnTable) (resolved : gmap (list Z) TxnEntry) (lru : list (Z * list Z)) : TxnTable :=
  mk_txn_table (tt_max_prepared t) (tt_max_resolved_tombstones t) (tt_prepared t) (tt_prepared_by_age t) resolved lru.

Definition enter_prepared (t : TxnTable) (txn_id : list Z) (now : Z) : TxnTable :=
  with_prepared t (<[txn_id := mk_txn_entry TxPrepared now]> (tt_prepared t)) ({[(now, txn_id)]} ∪ tt_prepared_by_age t).
Definition leave_prepared (t : TxnTable) (txn_id : list Z) (instant : Z) : TxnTable :=
  with_prepared t (delete txn_id (tt_prepared t)) (tt_prepared_by_age t ∖ {[(instant, txn_id)]}).

Definition txn_prepare (t : TxnTable) (txn_id : list Z) (now : Z) : TxnTable * res PrepareDecision TxnError :=
  if (MAX_TXN_ID_LEN <? length txn_id)%nat then (t, Err (TxnIdTooLong (length txn_id)))
  else
    match tt_prepared t !! txn_id with
    | Some _ => (t, Ok PdAlreadyPrepared)
    | None =>
        match tt_resolved t !! txn_id with
        | Some (mk_txn_entry (TxResolved outcome) _) => (t, Err (TxnIdSpent outcome))
        | _ =>
            if (tt_max_prepared t <=? size (tt_prepared t))%nat then (t, Err (TooManyPrepared (tt_max_prepared t)))
            else (enter_prepared t txn_id now, Ok PdPrepared)
        end
    end.

(** [touch_resolved_lru] *)
Definition put_tombstone (t : TxnTable) (txn_id : list Z) (outcome : TxnOutcome) (now : Z) : TxnTable :=
  let resolved := <[txn_id := mk_txn_entry (TxResolved outcome) now]> (tt_resolved t) in
  with_resolved t resolved (touch_lru te_instant resolved (tt_resolved_lru t) txn_id now).

Definition insert_resolved_tombstone (t : TxnTable) (txn_id : list Z) (outcome : TxnOutcome) (now : Z) : TxnTable :=
  let t :=
    match tt_resolved t !! txn_id with
    | Some _ => t
    | None =>
        let '(resolved, lru) := evict_loop te_instant (tt_max_resolved_tombstones t) (tt_resolved t) (tt_resolved_lru t) in
        with_resolved t resolved lru
    end in
  put_tombstone t txn_id outcome now.

Definition txn_resolve (t : TxnTable) (txn_id : list Z) (outcome : TxnOutcome) (now : Z) : TxnTable * res ResolveDecision TxnError :=
  if (MAX_TXN_ID_LEN <? length txn_id)%nat then (t, Err (TxnIdTooLong (length txn_id)))
  else
    match tt_prepared t !! txn_id with
    | Some entry =>
        (insert_resolved_tombstone (leave_prepared t txn_id (te_instant entry)) txn_id outcome now, Ok RdResolved)
    | None =>
        match te_state <$> tt_resolved t !! txn_id with
        | Some (TxResolved prior) =>
            if decide (prior = outcome) then (t, Ok RdAlreadyResolved) else (t, Err (AlreadyResolved prior))
        | Some TxPrepared | None => (t, Err UnknownTxn)
        end
    end.

Definition table_commit (t : TxnTable) (txn_id : list Z) (now : Z) := txn_resolve t txn_id Committed now.
Definition table_rollback (t : TxnTable) (txn_id : list Z) (now : Z) := txn_resolve t txn_id RolledBack now.

Definition revert_resolved_to_prepared (t : TxnTable) (txn_id : list Z) (now : Z) : TxnTable :=
  match tt_resolved t !! txn_id with
  | Some _ => enter_prepared (with_resolved t (delete txn_id (tt_resolved t)) (tt_resolved_lru t)) txn_id now
  | None => t
  end.

Definition cancel_prepared (t : TxnTable) (txn_id : list Z) : TxnTable :=
  match tt_prepared t !! txn_id with
  | Some entry => leave_prepared t txn_id (te_instant entry)
  | None => t
  end.

(** The age index in ascending order. *)
Definition by_age_list (s : gset (Z * list Z)) : list (Z * list Z) := merge_sort touch_le (elements s).

(** [range(..(cutoff + 1, []))]: the entries whose instant is at most the
    cutoff, since no id is below the empty one. *)
Definition unresolved_before (t : TxnTable) (cutoff : Z) : list (list Z * Z) :=
  match checked_add64 cutoff 1 with
  | Some next =>
      (fun p => (p.2, p.1)) <$> filter (fun p => touch_leb (next, []) p = false) (by_age_list (tt_prepared_by_age t))
  | None => (fun p => (p.2, p.1)) <$> by_age_list (tt_prepared_by_age t)
  end.

Definition all_prepared (t : TxnTable) : list (list Z * Z) :=
  (fun p => (p.2, p.1)) <$> by_age_list (tt_prepared_by_age t).

Definition table_restore (t : TxnTable) (txn_id : list Z) (state : TxnState) (instant : Z) : TxnTable :=
  let t := cancel_prepared t txn_id in
  match state with
  | TxPrepared => enter_prepared t txn_id instant
  | TxResolved outcome => put_tombstone t txn_id outcome instant
  end.

(** ** The back-check book *)

Record BackCheckConfig := mk_bc_config { bc_timeout : Z; bc_retry : Z; bc_max_attempts : Z; bc_batch : nat }.

Inductive AttemptOutcome := Rescheduled | TerminalDefault.

Record BackCheckEntry := mk_bc_entry { be_attempts : Z; be_next_eligible : Z }.

Record BackCheckBook := mk_book { bb_config : BackCheckConfig; bb_entries : gmap (list Z) BackCheckEntry }.

Definition bc_floors (c : BackCheckConfig) : BackCheckConfig :=
  mk_bc_config (bc_timeout c) (Z.max (bc_retry c) 1) (Z.max (bc_max_attempts c) 1) (max (bc_batch c) 1).

Definition book_new (c : BackCheckConfig) : BackCheckBook := mk_book (bc_floors c) ∅.
Definition book_set_config (b : BackCheckBook) (c : BackCheckConfig) : BackCheckBook := mk_book (bc_floors c) (bb_entries b).
Definition bookkeeping (b : BackCheckBook) (txn_id : list Z) : option (Z * Z) :=
  (fun e => (be_attempts e, be_next_eligible e)) <$> bb_entries b !! txn_id.

Definition book_enroll (b : BackCheckBook) (txn_id : list Z) (first_eligible : Z) : BackCheckBook :=
  match bb_entries b !! txn_id with
  | Some _ => b
  | None => mk_book (bb_config b) (<[txn_id := mk_bc_entry 0 first_eligible]> (bb_entries b))
  end.

Definition book_forget (b : BackCheckBook) (txn_id : list Z) : BackCheckBook := mk_book (bb_config b) (delete txn_id (bb_entries b)).

Definition book_restore (b : BackCheckBook) (txn_id : list Z) (attempts next_eligible : Z) : BackCheckBook :=
  mk_book (bb_config b) (<[txn_id := mk_bc_entry attempts next_eligible]> (bb_entries b)).

Definition book_due (b : BackCheckBook) (now : Z) : list (list Z) :=
  let due := filter (fun p => p.1 <= now) ((fun p => (be_next_eligible p.2, p.1)) <$> map_to_list (bb_entries b)) in
  (snd <$> take (bc_batch (bb_config b)) (merge_sort touch_le due)).

Definition record_attempt (b : BackCheckBook) (txn_id : list Z) (now : Z) : BackCheckBook * AttemptOutcome :=
  match bb_entries b !! txn_id with
  | None => (b, Rescheduled)
  | Some e =>
      let attempts := sat_add32 (be_attempts e) 1 in
      let next_eligible := sat_add64 now (bc_retry (bb_config b)) in
      (mk_book (bb_config b) (<[txn_id := mk_bc_entry attempts next_eligible]> (bb_entries b)),
       if bc_max_attempts (bb_config b) <=? attempts then TerminalDefault else Rescheduled)
  end.

(** ** The table is well formed *)

Record txn_ok (t : TxnTable) : Prop := {
  to_prepared id e : tt_prepared t !! id = Some e -> te_state e = TxPrepared;
  to_age i id : (i, id) ∈ tt_prepared_by_age t <-> tt_prepared t !! id = Some (mk_txn_entry TxPrepared i);
  to_resolved id e : tt_resolved t !! id = Some e -> exists o, te_state e = TxResolved o;
  to_cap : (0 < tt_max_resolved_tombstones t)%nat;
  to_lru : lru_ok te_instant (tt_resolved t) (tt_resolved_lru t)
}.

Lemma txn_table_new_ok a b : txn_ok (txn_table_new a b).
Proof.
  split; cbn.
  - intros id e He. by rewrite lookup_empty in He.
  - intros i id. rewrite lookup_empty. set_solver.
  - intros id e He. by rewrite lookup_empty in He.
  - lia.
  - split; [constructor|]. intros k v Hk. by rewrite lookup_empty in Hk.
Qed.

Lemma enter_prepared_ok t id now :
  txn_ok t -> tt_prepared t !! id = None -> txn_ok (enter_prepared t id now).
Proof.
  intros [Hp Ha Hr Hc Hl] Hn. split; try done; cbn.
  - intros q e. rewrite lookup_insert_Some. intros [[_ <-]|[_ Hq]]; [done|eauto].
  - intros i q. rewrite elem_of_union, elem_of_singleton, lookup_insert_Some, Ha. split.
    + intros [[= -> ->]|Hq]; [by left|]. right. split; [|done]. intros ->. by rewrite Hn in Hq.
    + intros [[-> [= ->]]|[_ Hq]]; [by left|by right].
Qed.

Lemma leave_prepared_ok t id e :
  txn_ok t -> tt_prepared t !! id = Some e -> txn_ok (leave_prepared t id (te_instant e)).
Proof.
  intros [Hp Ha Hr Hc Hl] He. split; try done; cbn.
  - intros q e'. rewrite lookup_delete_Some. intros [_ Hq]. eauto.
  - intros i q. rewrite elem_of_difference, elem_of_singleton, lookup_delete_Some, Ha. split.
    + intros [Hq Hne]. split; [|done]. intros ->. rewrite He in Hq. injection Hq as ->. by destruct Hne.
    + intros [Hne Hq]. split; [done|]. intros [= -> ->]. by destruct Hne.
Qed.

Lemma put_tombstone_ok t id o now : txn_ok t -> txn_ok (put_tombstone t id o now).
Proof.
  intros [Hp Ha Hr Hc Hl]. split; try done; cbn.
  - intros q e. rewrite lookup_insert_Some. intros [[_ <-]|[_ Hq]]; [by eexists|eauto].
  - eapply touch_lru_ok; [|apply lookup_insert_eq|done]. rewrite delete_insert_eq. eapply lru_ok_subset; [apply delete_subseteq|done].
Qed.

(** Room for a tombstone: none other is dropped for it. *)
Definition tombstone_fits (t : TxnTable) (id : list Z) : Prop :=
  is_Some (tt_resolved t !! id) \/ (size (tt_resolved t) < tt_max_resolved_tombstones t)%nat.

Lemma insert_tombstone_ok t id o now :
  txn_ok t ->
  let t' := insert_resolved_tombstone t id o now in
  txn_ok t' /\ tt_prepared t' = tt_prepared t /\ tt_max_resolved_tombstones t' = tt_max_resolved_tombstones t /\
  tt_resolved t' !! id = Some (mk_txn_entry (TxResolved o) now) /\
  (forall q e, q <> id -> tt_resolved t' !! q = Some e -> tt_resolved t !! q = Some e) /\
  (tombstone_fits t id -> tt_resolved t' = <[id := mk_txn_entry (TxResolved o) now]> (tt_resolved t)).
Proof.
  intros Hok. unfold insert_resolved_tombstone. cbv zeta. destruct (tt_resolved t !! id) as [e0|] eqn:Hid.
  { split; [by apply put_tombstone_ok|]. split_and!; try done; cbn; [apply lookup_insert_eq|].
    intros q e Hne. by rewrite lookup_insert_ne. }
  destruct (evict_loop_spec te_instant _ _ _ (to_cap _ Hok) (to_lru _ Hok)) as [(Hsub & Hsz & Hsame & _) Hl].
  destruct (evict_loop _ _ _ _) as [resolved lru]. cbn [fst snd] in *.
  assert (Hok1 : txn_ok (with_resolved t resolved lru)).
  { destruct Hok as [Hp Ha Hr Hc _]. split; try done. cbn. intros q e Hq. eapply Hr. by eapply lookup_weaken. }
  split; [by apply put_tombstone_ok|]. split_and!; try done; cbn.
  - apply lookup_insert_eq.
  - intros q e Hne. rewrite lookup_insert_ne by done. intros Hq. by eapply lookup_weaken.
  - intros [[? Hx]|Hlt]; [by rewrite Hid in Hx|]. by rewrite Hsame.
Qed.

(** ** One transaction's lifecycle *)

(** What a verb does to the state of its transaction. *)
Definition prepare_step (s : option TxnState) (full : bool) (cap : nat) : option TxnState * res PrepareDecision TxnError :=
  match s with
  | Some TxPrepared => (s, Ok PdAlreadyPrepared)
  | Some (TxResolved o) => (s, Err (TxnIdSpent o))
  | None => if full then (None, Err (TooManyPrepared cap)) else (Some TxPrepared, Ok PdPrepared)
  end.

Definition resolve_step (s : option TxnState) (o : TxnOutcome) : option TxnState * res ResolveDecision TxnError :=
  match s with
  | Some TxPrepared => (Some (TxResolved o), Ok RdResolved)
  | Some (TxResolved o') => if decide (o' = o) then (s, Ok RdAlreadyResolved) else (s, Err (AlreadyResolved o'))
  | None => (None, Err UnknownTxn)
  end.

Lemma txn_state_prepared t id : txn_ok t -> txn_state t id = Some TxPrepared <-> is_Some (tt_prepared t !! id).
Proof.
  intros Hok. unfold txn_state. destruct (tt_prepared t !! id) as [e|] eqn:He.
  - rewrite (to_prepared _ Hok _ _ He). split; [by eexists|done].
  - destruct (tt_resolved t !! id) as [e|] eqn:Hr; cbn.
    + destruct (to_resolved _ Hok _ _ Hr) as [o ->]. split; [done|by intros [? ?]].
    + split; [done|by intros [? ?]].
Qed.

Lemma txn_prepare_spec t id now :
  txn_ok t -> (length id <= MAX_TXN_ID_LEN)%nat ->
  let full := (tt_max_prepared t <=? size (tt_prepared t))%nat in
  let '(t', r) := txn_prepare t id now in
  txn_ok t' /\ tt_resolved t' = tt_resolved t /\ tt_max_resolved_tombstones t' = tt_max_resolved_tombstones t /\
  (txn_state t' id, r) = prepare_step (txn_state t id) full (tt_max_prepared t) /\
  forall q, q <> id -> txn_state t' q = txn_state t q.
Proof.
  intros Hok Hlen. unfold txn_prepare. destruct (Nat.ltb_spec MAX_TXN_ID_LEN (length id)) as [|_]; [lia|].
  unfold prepare_step. destruct (tt_prepared t !! id) as [e|] eqn:He.
  { assert (txn_state t id = Some TxPrepared) as -> by (apply txn_state_prepared; [done|by rewrite He]). done. }
  assert (Hst : txn_state t id = te_state <$> tt_resolved t !! id) by (unfold txn_state; by rewrite He). rewrite Hst.
  destruct (tt_resolved t !! id) as [[s i]|] eqn:Hr; cbn.
  { destruct (to_resolved _ Hok _ _ Hr) as [o Ho]. cbn in Ho. subst s. rewrite Hst. done. }
  destruct (_ <=? _)%nat eqn:Hfull; [by rewrite Hst|].
  split; [by apply enter_prepared_ok|]. split_and!; try done.
  - unfold txn_state. cbn. by rewrite lookup_insert_eq.
  - intros q Hne. unfold txn_state. cbn. by rewrite lookup_insert_ne.
Qed.

Lemma txn_resolve_spec t id o now :
  txn_ok t -> (length id <= MAX_TXN_ID_LEN)%nat ->
  let '(t', r) := txn_resolve t id o now in
  txn_ok t' /\ tt_max_resolved_tombstones t' = tt_max_resolved_tombstones t /\
  (txn_state t' id, r) = resolve_step (txn_state t id) o /\
  (forall q, q <> id -> txn_state t' q = txn_state t q \/
     ~ tombstone_fits t id /\ (exists o', txn_state t q = Some (TxResolved o')) /\ txn_state t' q = None) /\
  (tombstone_fits t id -> dom (tt_resolved t') ⊆ {[id]} ∪ dom (tt_resolved t)).
Proof.
  intros Hok Hlen. unfold txn_resolve. destruct (Nat.ltb_spec MAX_TXN_ID_LEN (length id)) as [|_]; [lia|].
  unfold resolve_step. destruct (tt_prepared t !! id) as [e|] eqn:He.
  - assert (txn_state t id = Some TxPrepared) as -> by (apply txn_state_prepared; [done|by rewrite He]).
    pose proof (leave_prepared_ok t id e Hok He) as Hok1. set (t1 := leave_prepared t id (te_instant e)) in *.
    destruct (insert_tombstone_ok t1 id o now Hok1) as (Hok2 & Hp2 & Hm2 & Hr2 & Hsub & Hfit).
    set (t2 := insert_resolved_tombstone t1 id o now) in *.
    split; [done|]. split; [done|]. split.
    { unfold txn_state. rewrite Hp2, Hr2. cbn. by rewrite lookup_delete_eq. }
    split; [|intros Hf; rewrite (Hfit Hf); set_solver].
    intros q Hne. unfold txn_state. rewrite Hp2. cbn [t1 leave_prepared with_prepared tt_prepared]. rewrite lookup_delete_ne by done.
    destruct (tt_prepared t !! q) as [eq|]; [by left|].
    destruct (decide (tombstone_fits t id)) as [Hf|Hf].
    { left. rewrite (Hfit Hf). by rewrite lookup_insert_ne. }
    destruct (tt_resolved t2 !! q) as [e2|] eqn:H2; [left; pose proof (Hsub q e2 Hne H2) as Hx; change (tt_resolved t1) with (tt_resolved t) in Hx; by rewrite Hx|].
    destruct (tt_resolved t !! q) as [e1|] eqn:H1; [|by left]. right. split; [done|].
    destruct (to_resolved _ Hok _ _ H1) as [o' Ho']. split; [|done]. exists o'. cbn. by rewrite Ho'.
  - assert (Hst : txn_state t id = te_state <$> tt_resolved t !! id) by (unfold txn_state; by rewrite He). rewrite Hst.
    destruct (tt_resolved t !! id) as [[s i]|] eqn:Hr; cbn.
    + destruct (to_resolved _ Hok _ _ Hr) as [o' Ho]. cbn in Ho. subst s. case_decide;
        (rewrite ?Hst; split_and!; [done..|intros q _; by left|intros _; apply union_subseteq_r]).
    + rewrite ?Hst. split_and!; [done..|intros q _; by left|intros _; apply union_subseteq_r].
Qed.

(** ** Runs of verbs *)

Inductive TxnVerb := VPrepare (id : list Z) | VCommit (id : list Z) | VRollback (id : list Z).
Definition verb_id (v : TxnVerb) : list Z := match v with VPrepare id | VCommit id | VRollback id => id end.

(** The verb at its time: the new table and the transaction's outcome it
    answers, if it answers one. *)
Definition table_verb (t : TxnTable) (v : TxnVerb) (now : Z) : TxnTable :=
  match v with
  | VPrepare id => fst (txn_prepare t id now)
  | VCommit id => fst (table_commit t id now)
  | VRollback id => fst (table_rollback t id now)
  end.

Lemma table_verb_long t v now : (MAX_TXN_ID_LEN < length (verb_id v))%nat -> table_verb t v now = t.
Proof.
  destruct v; cbn [verb_id table_verb]; intros Hl; unfold txn_prepare, table_commit, table_rollback, txn_resolve;
    by destruct (Nat.ltb_spec MAX_TXN_ID_LEN (length id)); [|lia].
Qed.

(** A verb keeps a resolved transaction as it is, while there is room. *)
Lemma table_verb_keeps (t : TxnTable) (v : TxnVerb) (now : Z) (all : gset (list Z)) (q : list Z) (o : TxnOutcome) :
  txn_ok t -> (size all <= tt_max_resolved_tombstones t)%nat -> dom (tt_resolved t) ⊆ all -> verb_id v ∈ all ->
  let t' := table_verb t v now in
  txn_ok t' /\ tt_max_resolved_tombstones t' = tt_max_resolved_tombstones t /\ dom (tt_resolved t') ⊆ all /\
  (txn_state t q = Some (TxResolved o) -> txn_state t' q = Some (TxResolved o)).
Proof.
  intros Hok Hsz Hdom Hin. destruct (decide (MAX_TXN_ID_LEN < length (verb_id v))%nat) as [Hl|Hl].
  { cbv zeta. rewrite table_verb_long by done. done. }
  assert (Hfit : tombstone_fits t (verb_id v)).
  { destruct (tt_resolved t !! verb_id v) as [e|] eqn:He; [left; by rewrite He|]. right. rewrite <- size_dom.
    eapply Nat.lt_le_trans; [|exact Hsz]. apply subset_size. split; [done|]. intros Hsub.
    apply not_elem_of_dom in He. by apply He, Hsub. }
  assert (Hres : forall o', let '(t', r) := txn_resolve t (verb_id v) o' now in
    txn_ok t' /\ tt_max_resolved_tombstones t' = tt_max_resolved_tombstones t /\ dom (tt_resolved t') ⊆ all /\
    (txn_state t q = Some (TxResolved o) -> txn_state t' q = Some (TxResolved o))).
  { intros o'. pose proof (txn_resolve_spec t (verb_id v) o' now Hok ltac:(lia)) as Hs.
    destruct (txn_resolve t (verb_id v) o' now) as [t' r]. destruct Hs as (Hok' & Hm & Hst & Hoth & Hd).
    split_and!; try done; [specialize (Hd Hfit); set_solver|]. intros Hq. destruct (decide (q = verb_id v)) as [->|Hne].
    - rewrite Hq in Hst. cbn in Hst. case_decide; by injection Hst.
    - destruct (Hoth q Hne) as [->|(Hnf & _)]; [done|by destruct Hnf]. }
  destruct v as [id|id|id]; cbn [verb_id table_verb] in *.
  - pose proof (txn_prepare_spec t id now Hok ltac:(lia)) as Hs. cbv zeta in Hs. destruct (txn_prepare t id now) as [t' r].
    destruct Hs as (Hok' & Hr & Hm & Hst & Hoth). cbn [fst]. rewrite Hr. split_and!; try done. intros Hq.
    destruct (decide (q = id)) as [->|Hne]; [|by rewrite Hoth]. rewrite Hq in Hst. cbn in Hst. by injection Hst.
  - specialize (Hres Committed). unfold table_commit. destruct (txn_resolve t id Committed now) as [t' r]. exact Hres.
  - specialize (Hres RolledBack). unfold table_rollback. destruct (txn_resolve t id RolledBack now) as [t' r]. exact Hres.
Qed.

Definition run_verbs (t : TxnTable) (vs : list (TxnVerb * Z)) : TxnTable := foldl (fun t v => table_verb t v.1 v.2) t vs.

(** Which outcome a verb on a resolved transaction answers. *)
Definition answers (t : TxnTable) (v : TxnVerb) (now : Z) : option TxnOutcome :=
  match v with
  | VPrepare id => match snd (txn_prepare t id now) with Err (TxnIdSpent o) => Some o | _ => None end
  | VCommit id =>
      match snd (table_commit t id now) with Ok _ => Some Committed | Err (AlreadyResolved o) => Some o | _ => None end
  | VRollback id =>
      match snd (table_rollback t id now) with Ok _ => Some RolledBack | Err (AlreadyResolved o) => Some o | _ => None end
  end.

(** C24: A transaction's outcome never flips.  Once a commit or a rollback has
    resolved a transaction, then after any further prepares, commits and
    rollbacks, of it and of others, every verb on it answers that outcome --
    a repeat as a benign duplicate, a contrary verb or a new prepare refused --
    as long as the tombstones have room for the transactions in play. *)
Theorem txn_outcome_final (t : TxnTable) (vs : list (TxnVerb * Z)) (id : list Z) (o : TxnOutcome) (v : TxnVerb) (now : Z)
    (all : gset (list Z)) :
  txn_ok t -> txn_state t id = Some (TxResolved o) ->
  dom (tt_resolved t) ⊆ all -> (forall v, v ∈ vs -> verb_id v.1 ∈ all) -> (size all <= tt_max_resolved_tombstones t)%nat ->
  verb_id v = id -> (length id <= MAX_TXN_ID_LEN)%nat ->
  txn_state (run_verbs t vs) id = Some (TxResolved o) /\ answers (run_verbs t vs) v now = Some o.
Proof.
  intros Hok Hst Hdom Hall Hsz Hid Hlen.
  assert (Hrun : txn_ok (run_verbs t vs) /\ txn_state (run_verbs t vs) id = Some (TxResolved o)).
  { clear v now Hid Hlen. unfold run_verbs. revert t Hok Hst Hdom Hsz. induction vs as [|[v i] vs IH]; intros t Hok Hst Hdom Hsz; [done|].
    cbn [foldl fst snd]. destruct (table_verb_keeps t v i all id o Hok Hsz Hdom) as (Hok' & Hm & Hd & Hk); [apply (Hall (v, i)); left|].
    apply IH; try done; [|by apply Hk|by rewrite Hm]. intros w Hw. apply Hall. by right. }
  destruct Hrun as [Hok' Hst']. split; [done|]. subst id. clear Hok Hst Hdom Hall Hsz. set (t' := run_verbs t vs) in *.
  destruct v as [id|id|id]; cbn [verb_id answers] in *.
  - pose proof (txn_prepare_spec t' id now Hok' Hlen) as Hs. cbv zeta in Hs. destruct (txn_prepare t' id now) as [t2 r].
    destruct Hs as (_ & _ & _ & Hs & _). rewrite Hst' in Hs. cbn in Hs. by injection Hs as _ ->.
  - unfold table_commit. pose proof (txn_resolve_spec t' id Committed now Hok' Hlen) as Hs.
    destruct (txn_resolve t' id Committed now) as [t2 r]. destruct Hs as (_ & _ & Hs & _). rewrite Hst' in Hs. cbn in Hs.
    case_decide; injection Hs as _ ->; cbn; congruence.
  - unfold table_rollback. pose proof (txn_resolve_spec t' id RolledBack now Hok' Hlen) as Hs.
    destruct (txn_resolve t' id RolledBack now) as [t2 r]. destruct Hs as (_ & _ & Hs & _). rewrite Hst' in Hs. cbn in Hs.
    case_decide; injection Hs as _ ->; cbn; congruence.
Qed.

(** ** The age index *)

Lemma by_age_list_perm s : by_age_list s ≡ₚ elements s.
Proof. apply merge_sort_Permutation. Qed.

Lemma unresolved_before_exact t cutoff id i :
  txn_ok t -> is_u64 i -> is_u64 cutoff ->
  (id, i) ∈ unresolved_before t cutoff <-> tt_prepared t !! id = Some (mk_txn_entry TxPrepared i) /\ i <= cutoff.
Proof.
  intros Hok Hi Hc. rewrite <- (to_age _ Hok). unfold unresolved_before, checked_add.
  assert (Hmem : forall l, (id, i) ∈ (fun p => (p.2, p.1)) <$> l <-> (i, id) ∈ (l : list (Z * list Z))).
  { intros l. rewrite list_elem_of_fmap. split; [by intros ([? ?] & [= <- <-] & ?)|]. intros. by exists (i, id). }
  destruct (Z.leb_spec (cutoff + 1) u64_max) as [Hle|Hgt]; rewrite Hmem.
  - rewrite list_elem_of_filter, by_age_list_perm, elem_of_elements. unfold touch_leb. cbn [fst snd bytes_leb].
    rewrite andb_true_r, orb_false_iff, Z.ltb_ge, Z.eqb_neq. split; [intros [[? ?] ?]; split; [done|lia]|].
    intros [? ?]. split; [split; lia|done].
  - rewrite by_age_list_perm, elem_of_elements. split; [intros; split; [done|ulia]|]. by intros [? _].
Qed.

Lemma all_prepared_elem t id i : txn_ok t -> (id, i) ∈ all_prepared t <-> tt_prepared t !! id = Some (mk_txn_entry TxPrepared i).
Proof.
  intros Hok. rewrite <- (to_age _ Hok). unfold all_prepared. rewrite list_elem_of_fmap. split.
  - intros ([? ?] & [= -> ->] & Hin). by rewrite by_age_list_perm, elem_of_elements in Hin.
  - intros Hin. exists (i, id). split; [done|]. by rewrite by_age_list_perm, elem_of_elements.
Qed.

(** ** The back-check book *)

(** Attempts at the given times, with the outcome of each. *)
Fixpoint attempts_run (b : BackCheckBook) (txn_id : list Z) (times : list Z) : list AttemptOutcome :=
  match times with
  | [] => []
  | now :: times => let '(b, o) := record_attempt b txn_id now in o :: attempts_run b txn_id times
  end.

Lemma attempts_run_from b id e times :
  bb_entries b !! id = Some e -> is_u32 (be_attempts e) -> is_u32 (bc_max_attempts (bb_config b)) ->
  be_attempts e + Z.of_nat (length times) = bc_max_attempts (bb_config b) -> times <> [] ->
  attempts_run b id times = replicate (length times - 1) Rescheduled ++ [TerminalDefault].
Proof.
  revert b e. induction times as [|now times IH]; intros b e He Hu Hm Hsum Hne; [done|]. cbn [attempts_run].
  unfold record_attempt. rewrite He. cbv zeta. cbn [length] in Hsum. assert (Hs : sat_add32 (be_attempts e) 1 = be_attempts e + 1) by (unfold sat_add, is_u32 in *; lia).
  rewrite Hs. destruct times as [|now' times].
  - cbn in *. destruct (Z.leb_spec (bc_max_attempts (bb_config b)) (be_attempts e + 1)); [done|lia].
  - destruct (Z.leb_spec (bc_max_attempts (bb_config b)) (be_attempts e + 1)) as [Hle|Hgt]; [cbn [length] in *; lia|].
    rewrite (IH _ (mk_bc_entry (be_attempts e + 1) (sat_add64 now (bc_retry (bb_config b))))); cbn [bb_entries bb_config be_attempts];
      [|apply lookup_insert_eq|cbn [length] in *; unfold is_u32 in *; lia|done|cbn [length] in *; lia|done].
    cbn [length]. by replace (S (S (length times)) - 1)%nat with (S (S (length times) - 1)) by lia.
Qed.

(** The terminal default comes with the last allowed attempt, not before. *)
Lemma back_check_gives_up c id first times :
  is_u32 (bc_max_attempts c) -> Z.of_nat (length times) = Z.max (bc_max_attempts c) 1 ->
  attempts_run (book_enroll (book_new c) id first) id times = replicate (length times - 1) Rescheduled ++ [TerminalDefault].
Proof.
  intros Hu Hl. assert (Hb : book_enroll (book_new c) id first = mk_book (bc_floors c) (<[id := mk_bc_entry 0 first]> ∅)) by done.
  rewrite Hb. apply (attempts_run_from _ id (mk_bc_entry 0 first)); cbn [bb_entries bb_config bc_floors bc_max_attempts be_attempts].
  - apply lookup_insert_eq.
  - ulia.
  - ulia.
  - lia.
  - intros ->. cbn in Hl. lia.
Qed.

Lemma book_due_spec b now id :
  id ∈ book_due b now -> exists e, bb_entries b !! id = Some e /\ be_next_eligible e <= now.
Proof.
  unfold book_due. intros ([t i] & -> & Hin)%list_elem_of_fmap. cbn.
  apply elem_of_take in Hin as (k & Hk & _). apply list_elem_of_lookup_2 in Hk.
  rewrite (merge_sort_Permutation touch_le) in Hk. apply list_elem_of_filter in Hk as [Hle Hk].
  apply list_elem_of_fmap in Hk as ([q e] & [= -> ->] & Hq). apply elem_of_map_to_list in Hq. eauto.
Qed.

(** ** Evaluation *)

Definition demo_txn_table : TxnTable :=
  fst (table_commit (fst (txn_prepare (txn_table_new 4 4) [1] 10)) [1] 20).
Definition demo_verbs : list (TxnVerb * Z) := [(VPrepare [2], 21); (VRollback [2], 22); (VRollback [1], 23); (VPrepare [1], 24)].

Lemma txn_outcome_final_witness :
  txn_state (run_verbs demo_txn_table demo_verbs) [1] = Some (TxResolved Committed) /\
  answers (run_verbs demo_txn_table demo_verbs) (VRollback [1]) 25 = Some Committed.
Proof.
  apply (txn_outcome_final demo_txn_table demo_verbs [1] Committed (VRollback [1]) 25 {[ [1]; [2] ]}).
  - apply (table_verb_keeps _ (VCommit [1]) 20 {[ [1]; [2] ]} [1] Committed).
    + apply (table_verb_keeps _ (VPrepare [1]) 10 {[ [1]; [2] ]} [1] Committed); [apply txn_table_new_ok|apply Nat.leb_le; vm_compute; reflexivity| |set_solver].
      cbn. set_solver.
    + apply Nat.leb_le. vm_compute. reflexivity.
    + cbn. set_solver.
    + set_solver.
  - vm_compute. reflexivity.
  - apply (bool_decide_unpack _). vm_compute. exact I.
  - intros v Hv. repeat (apply elem_of_cons in Hv as [->|Hv]; [set_solver|]). by apply not_elem_of_nil in Hv.
  - apply Nat.leb_le. vm_compute. reflexivity.
  - reflexivity.
  - apply Nat.leb_le. vm_compute. reflexivity.
Defined.
