(* ===== verification/Subject.v ===== *)
(** * The subject grammar ([subject.rs])

    A [str] is the list of its UTF-8 bytes.  The grammar only tests for ASCII
    characters, and no byte of a multi-byte character is in the ASCII range, so
    the first offending character of a token is its first offending byte.
    [utf8_valid] is the acceptance condition of [core::str::from_utf8]. *)

From S2P Require Import Prelude.

Definition MAX_SUBJECT_DEPTH : nat := 32.

(** ['.'], ['*'] and ['>'] *)
Definition SEP : Z := 46.
Definition WILDCARD_ONE : Z := 42.
Definition WILDCARD_TAIL : Z := 62.

Inductive SubjectError :=
| SEmpty
| EmptyToken (index : nat)
| IllegalChar (ch : Z) (index : nat)
| ControlChar (ch : Z) (index : nat)
| WildcardNotAllowed (ch : Z) (index : nat)
| TailWildcardNotLast (index : nat)
| TooDeep (depth : nat).

#[export] Instance SubjectError_eq_dec : EqDecision SubjectError.
Proof. solve_decision. Defined.

Inductive TokenKind := TLiteral | SingleWildcard | TailWildcard.

#[export] Instance TokenKind_eq_dec : EqDecision TokenKind.
Proof. solve_decision. Defined.

Definition is_control (ch : Z) : bool := (ch <? 32) || (ch =? 127).

(** [str::split('.')]: never empty, and the empty string is one empty token. *)
Fixpoint split (s : list Z) : list (list Z) :=
  match s with
  | [] => [[]]
  | c :: s =>
      if c =? SEP then [] :: split s
      else match split s with
           | t :: ts => (c :: t) :: ts
           | [] => [[c]]
           end
  end.

Definition wildcard_or_reject (kind : TokenKind) (ch : Z) (index : nat) (allow : bool)
    : res TokenKind SubjectError :=
  if allow then Ok kind else Err (WildcardNotAllowed ch index).

(** The character loop of [classify_token]. *)
Fixpoint scan_token (token : list Z) (index : nat) : res TokenKind SubjectError :=
  match token with
  | [] => Ok TLiteral
  | ch :: token =>
      fail? is_control ch with ControlChar ch index in
      fail? ch =? SEP with IllegalChar ch index in
      fail? (ch =? WILDCARD_ONE) || (ch =? WILDCARD_TAIL) with IllegalChar ch index in
      scan_token token index
  end.

Definition classify_token (token : list Z) (index : nat) (allow : bool) : res TokenKind SubjectError :=
  match token with
  | [] => Err (EmptyToken index)
  | [only] =>
      if only =? WILDCARD_ONE then wildcard_or_reject SingleWildcard WILDCARD_ONE index allow
      else if only =? WILDCARD_TAIL then wildcard_or_reject TailWildcard WILDCARD_TAIL index allow
      else scan_token token index
  | _ => scan_token token index
  end.

(** The token loop of [validate]. *)
Fixpoint validate_tokens (tokens : list (list Z)) (count : nat) (tail_seen_at : option nat) (allow : bool)
    : res nat SubjectError :=
  match tokens with
  | [] => Ok count
  | token :: tokens =>
      match tail_seen_at with
      | Some at_ => Err (TailWildcardNotLast at_)
      | None =>
          fail? (count =? MAX_SUBJECT_DEPTH)%nat with TooDeep (count + 1) in
          let? kind := classify_token token count allow in
          validate_tokens tokens (count + 1)
            (if bool_decide (kind = TailWildcard) then Some count else tail_seen_at) allow
      end
  end.

Definition validate (input : list Z) (allow : bool) : res nat SubjectError :=
  match input with
  | [] => Err SEmpty
  | _ => validate_tokens (split input) 0 None allow
  end.

Record Subject := mk_subject { s_raw : list Z; s_depth : nat }.
Record SubjectPattern := mk_pattern { p_raw : list Z; p_depth : nat }.

Definition parse_literal (input : list Z) : res Subject SubjectError :=
  let? depth := validate input false in Ok (mk_subject input depth).

Definition parse_pattern (input : list Z) : res SubjectPattern SubjectError :=
  let? depth := validate input true in Ok (mk_pattern input depth).

Definition s_tokens (s : Subject) : list (list Z) := split (s_raw s).
Definition p_tokens (p : SubjectPattern) : list (list Z) := split (p_raw p).

Definition has_tail_wildcard (p : SubjectPattern) : bool :=
  bool_decide (last (p_tokens p) = Some [WILDCARD_TAIL]).

(** The loop of [SubjectPattern::matches] over the two token iterators. *)
Fixpoint match_tokens (pat sub : list (list Z)) : bool :=
  match pat with
  | [] => match sub with [] => true | _ => false end
  | p :: pat =>
      if bool_decide (p = [WILDCARD_TAIL]) then match sub with [] => false | _ => true end
      else match sub with
           | [] => false
           | s :: sub =>
               if bool_decide (p = [WILDCARD_ONE]) || bool_decide (p = s)
               then match_tokens pat sub else false
           end
  end.

Definition matches (p : SubjectPattern) (s : Subject) : bool := match_tokens (p_tokens p) (s_tokens s).

(** ** UTF-8 *)

Definition cont (b : Z) : bool := (128 <=? b) && (b <=? 191).
Definition between (lo hi b : Z) : bool := (lo <=? b) && (b <=? hi).

(** The well-formed byte sequences of the Unicode standard's table 3-7. *)
Fixpoint utf8_valid (s : list Z) : bool :=
  match s with
  | [] => true
  | a :: s1 =>
      if between 0 127 a then utf8_valid s1
      else match s1 with
      | [] => false
      | b :: s2 =>
          if between 194 223 a && cont b then utf8_valid s2
          else match s2 with
          | [] => false
          | c :: s3 =>
              if ((between 224 224 a && between 160 191 b) ||
                  (between 225 236 a && cont b) ||
                  (between 237 237 a && between 128 159 b) ||
                  (between 238 239 a && cont b)) && cont c then utf8_valid s3
              else match s3 with
              | [] => false
              | d :: s4 =>
                  if ((between 240 240 a && between 144 191 b) ||
                      (between 241 243 a && cont b) ||
                      (between 244 244 a && between 128 143 b)) && cont c && cont d
                  then utf8_valid s4 else false
              end
          end
      end
  end.

(** ** The grammar *)

(** A byte that may occur inside a token, and a literal token. *)
Definition token_byte (c : Z) : Prop :=
  is_control c = false /\ c <> SEP /\ c <> WILDCARD_ONE /\ c <> WILDCARD_TAIL.
Definition literal_token (t : list Z) : Prop := t <> [] /\ Forall token_byte t.

(** The tokens of a pattern: literals and [*], then possibly a final [>]. *)
Inductive pattern_tokens : list (list Z) -> Prop :=
| pattern_nil : pattern_tokens []
| pattern_tail : pattern_tokens [[WILDCARD_TAIL]]
| pattern_star ts : pattern_tokens ts -> pattern_tokens ([WILDCARD_ONE] :: ts)
| pattern_literal t ts : literal_token t -> pattern_tokens ts -> pattern_tokens (t :: ts).

Lemma split_not_nil s : split s <> [].
Proof. destruct s as [|c s]; simpl; [done|]. case_if; [done|]. by destruct (split s). Qed.

(** The tokens with separators between them are the string again. *)
Fixpoint join (ts : list (list Z)) : list Z :=
  match ts with
  | [] => []
  | [t] => t
  | t :: ts => t ++ SEP :: join ts
  end.

Lemma join_split s : join (split s) = s.
Proof.
  induction s as [|c s IH]; [done|]. simpl. destruct (Z.eqb_spec c SEP) as [->|Hc].
  - destruct (split s) as [|t ts] eqn:E; [by apply split_not_nil in E|]. simpl. by rewrite <- IH.
  - destruct (split s) as [|t ts] eqn:E; [by apply split_not_nil in E|].
    rewrite <- IH. by destruct ts.
Qed.

Lemma split_inj s1 s2 : split s1 = split s2 -> s1 = s2.
Proof. intros E. by rewrite <- (join_split s1), E, join_split. Qed.

Lemma scan_token_ok token index k :
  scan_token token index = Ok k <-> k = TLiteral /\ Forall token_byte token.
Proof.
  induction token as [|c t IH]; simpl.
  - split; [by intros [= <-]|by intros [-> _]].
  - rewrite Forall_cons. unfold token_byte at 1. destruct (is_control c); simpl; [naive_solver|].
    destruct (Z.eqb_spec c SEP); simpl; [naive_solver|].
    destruct (Z.eqb_spec c WILDCARD_ONE); simpl; [naive_solver|].
    destruct (Z.eqb_spec c WILDCARD_TAIL); simpl; [naive_solver|]. rewrite IH. naive_solver.
Qed.

Lemma wildcards_not_literal c : c = WILDCARD_ONE \/ c = WILDCARD_TAIL -> ~ literal_token [c].
Proof.
  intros Hc [_ [Hb _]%Forall_cons]. unfold token_byte in Hb. naive_solver.
Qed.

(** What a token is classified as. *)
Lemma classify_token_ok token index allow k :
  classify_token token index allow = Ok k <->
  (k = TLiteral /\ literal_token token) \/
  (allow = true /\ k = SingleWildcard /\ token = [WILDCARD_ONE]) \/
  (allow = true /\ k = TailWildcard /\ token = [WILDCARD_TAIL]).
Proof.
  assert (Hlit : forall t, t <> [] -> t <> [WILDCARD_ONE] -> t <> [WILDCARD_TAIL] ->
    scan_token t index = Ok k <->
    (k = TLiteral /\ literal_token t) \/ (allow = true /\ k = SingleWildcard /\ t = [WILDCARD_ONE]) \/
    (allow = true /\ k = TailWildcard /\ t = [WILDCARD_TAIL]))
    by (intros t Hn H1 H2; rewrite scan_token_ok; unfold literal_token; naive_solver).
  unfold classify_token. destruct token as [|c [|d t]].
  - split; [done|]. intros [[_ [? _]]|[(_ & _ & ?)|(_ & _ & ?)]]; done.
  - destruct (Z.eqb_spec c WILDCARD_ONE) as [->|H1]; [|destruct (Z.eqb_spec c WILDCARD_TAIL) as [->|H2]].
    + unfold wildcard_or_reject. pose proof (wildcards_not_literal WILDCARD_ONE).
      destruct allow; naive_solver.
    + unfold wildcard_or_reject. pose proof (wildcards_not_literal WILDCARD_TAIL).
      destruct allow; naive_solver.
    + apply Hlit; congruence.
  - apply Hlit; congruence.
Qed.

Lemma validate_tokens_literal ts count n :
  (count <= MAX_SUBJECT_DEPTH)%nat ->
  validate_tokens ts count None false = Ok n <->
  Forall literal_token ts /\ n = (count + length ts)%nat /\ (n <= MAX_SUBJECT_DEPTH)%nat.
Proof.
  revert count. induction ts as [|t ts IH]; intros count Hc; simpl.
  { rewrite Nat.add_0_r. split; [intros [= <-]; auto|by intros (_ & -> & _)]. }
  rewrite Forall_cons. destruct (Nat.eqb_spec count MAX_SUBJECT_DEPTH) as [->|Hne].
  { split; [done|]. intros (_ & -> & ?). lia. }
  rewrite res_bind_ok. setoid_rewrite classify_token_ok. split.
  - intros (k & [[-> Ht]|[(? & _)|(? & _)]] & Hv); try done. simpl in Hv.
    apply IH in Hv as (Hts & -> & Hn); [|lia]. split; [done|]. lia.
  - intros ([Ht Hts] & -> & Hn). exists TLiteral. split; [by left|]. simpl. apply IH; [lia|].
    split; [done|]. lia.
Qed.

Lemma validate_tokens_pattern ts count n :
  (count <= MAX_SUBJECT_DEPTH)%nat ->
  validate_tokens ts count None true = Ok n <->
  pattern_tokens ts /\ n = (count + length ts)%nat /\ (n <= MAX_SUBJECT_DEPTH)%nat.
Proof.
  revert count. induction ts as [|t ts IH]; intros count Hc; simpl.
  { rewrite Nat.add_0_r. split; [intros [= <-]; split; [constructor|lia]|by intros (_ & -> & _)]. }
  destruct (Nat.eqb_spec count MAX_SUBJECT_DEPTH) as [->|Hne].
  { split; [done|]. intros (_ & -> & ?). lia. }
  rewrite res_bind_ok. setoid_rewrite classify_token_ok. split.
  - intros (k & [[-> Ht]|[(_ & -> & ->)|(_ & -> & ->)]] & Hv); simpl in Hv.
    + apply IH in Hv as (Hts & -> & Hn); [|lia]. split; [by constructor|lia].
    + apply IH in Hv as (Hts & -> & Hn); [|lia]. split; [by constructor|lia].
    + destruct ts as [|t' ts]; [|done]. injection Hv as <-. split; [constructor|simpl; lia].
  - intros (Hp & -> & Hn). inversion Hp as [|Hts|ts' Hts|t' ts' Ht Hts]; subst.
    + exists TailWildcard. split; [right; right; done|]. done.
    + exists SingleWildcard. split; [right; left; done|]. simpl. apply IH; [lia|]. split; [done|lia].
    + exists TLiteral. split; [by left|]. simpl. apply IH; [lia|]. split; [done|lia].
Qed.

Lemma empty_not_literal : ~ literal_token [].
Proof. by intros [? _]. Qed.

Lemma empty_not_pattern : ~ pattern_tokens [[]].
Proof. intros H. inversion H; subst. by apply empty_not_literal. Qed.

Lemma parse_literal_ok s v :
  parse_literal s = Ok v <->
  v = mk_subject s (length (split s)) /\ Forall literal_token (split s) /\
  (length (split s) <= MAX_SUBJECT_DEPTH)%nat.
Proof.
  unfold parse_literal. rewrite res_bind_ok. unfold validate. destruct s as [|c s].
  - split; [by intros (? & ? & _)|]. simpl. intros (_ & [Ht _]%Forall_cons & _).
    by apply empty_not_literal in Ht.
  - setoid_rewrite validate_tokens_literal; [|unfold MAX_SUBJECT_DEPTH; lia]. naive_solver.
Qed.

Lemma parse_pattern_ok s v :
  parse_pattern s = Ok v <->
  v = mk_pattern s (length (split s)) /\ pattern_tokens (split s) /\
  (length (split s) <= MAX_SUBJECT_DEPTH)%nat.
Proof.
  unfold parse_pattern. rewrite res_bind_ok. unfold validate. destruct s as [|c s].
  - split; [by intros (? & ? & _)|]. simpl. intros (_ & Ht & _). by apply empty_not_pattern in Ht.
  - setoid_rewrite validate_tokens_pattern; [|unfold MAX_SUBJECT_DEPTH; lia]. naive_solver.
Qed.

(** The parsers accept exactly the grammar.  A literal subject is accepted
    iff its dot-separated tokens are non-empty, free of control characters and
    wildcards, and at most 32; a pattern iff its tokens are such literals or [*],
    possibly ended by one [>], at most 32 in all.  The parsed value keeps the
    text and its token count, and the text is the tokens joined by dots. *)
Theorem subject_grammar s :
  (forall v, parse_literal s = Ok v <->
     v = mk_subject s (length (split s)) /\ Forall literal_token (split s) /\
     (length (split s) <= MAX_SUBJECT_DEPTH)%nat) /\
  (forall v, parse_pattern s = Ok v <->
     v = mk_pattern s (length (split s)) /\ pattern_tokens (split s) /\
     (length (split s) <= MAX_SUBJECT_DEPTH)%nat) /\
  join (split s) = s.
Proof.
  split; [intros v; apply parse_literal_ok|]. split; [intros v; apply parse_pattern_ok|].
  apply join_split.
Qed.

(** ** Matching *)

(** Token-aligned matching as documented: a literal matches itself, [*] any
    one token, a final [>] one or more remaining tokens. *)
Inductive Matches : list (list Z) -> list (list Z) -> Prop :=
| match_nil : Matches [] []
| match_literal t ps ss : literal_token t -> Matches ps ss -> Matches (t :: ps) (t :: ss)
| match_one t ps ss : Matches ps ss -> Matches ([WILDCARD_ONE] :: ps) (t :: ss)
| match_tail t ss : Matches [[WILDCARD_TAIL]] (t :: ss).

Lemma literal_not_wildcard t :
  literal_token t -> t <> [WILDCARD_ONE] /\ t <> [WILDCARD_TAIL].
Proof.
  intros Ht. split; intros ->; revert Ht; apply wildcards_not_literal; auto.
Qed.

Lemma match_tokens_spec ps ss :
  pattern_tokens ps -> Forall literal_token ss ->
  match_tokens ps ss = true <-> Matches ps ss.
Proof.
  intros Hp. revert ss. induction Hp as [| |ps Hp IH|t ps Ht Hp IH]; intros ss Hs; simpl.
  - destruct ss; split; [constructor|done|done|]. intros H; inversion H.
  - destruct ss; split; [done| |constructor|done]. intros H; inversion H.
  - destruct ss as [|s ss]; [split; [done|]; intros H; inversion H|].
    apply Forall_cons in Hs as [Hs Hss]. rewrite IH by done. split; [by constructor|].
    intros H; inversion H as [|? ? ? Hl| |]; subst; [|done].
    by apply literal_not_wildcard in Hl as [? _].
  - destruct (literal_not_wildcard t Ht) as [H1 H2].
    rewrite (bool_decide_false (t = [WILDCARD_TAIL])) by done.
    destruct ss as [|s ss]; [split; [done|]; intros H; inversion H|].
    apply Forall_cons in Hs as [Hs Hss]. rewrite (bool_decide_false (t = [WILDCARD_ONE])) by done.
    cbn [orb]. case_bool_decide as Heq.
    + subst s. rewrite IH by done. split; [by constructor|].
      intros H; inversion H; subst; done.
    + split; [done|]. intros H; inversion H; subst; done.
Qed.

Lemma matches_literal_tokens ps ss :
  Forall literal_token ps -> Matches ps ss <-> ps = ss.
Proof.
  intros Hp. split.
  - intros Hm. induction Hm as [|t ps ss Ht Hm IH|t ps ss Hm IH|t ss];
      [done|f_equal; apply IH; by apply Forall_cons in Hp as [_ ?]| |].
    + apply Forall_cons in Hp as [Hl _]. by apply literal_not_wildcard in Hl as [? _].
    + apply Forall_cons in Hp as [Hl _]. by apply literal_not_wildcard in Hl as [_ ?].
  - intros <-. induction Hp; [constructor|by apply match_literal].
Qed.

(** Matching means what the grammar documents.  On a parsed pattern and a
    parsed subject, [matches] decides the token-aligned relation; a pattern with
    no wildcard matches exactly the subject with its own text, and [>] matches
    every subject. *)
Theorem matches_sound_complete ptext stext p s :
  parse_pattern ptext = Ok p -> parse_literal stext = Ok s ->
  (matches p s = true <-> Matches (split ptext) (split stext)) /\
  (Forall literal_token (split ptext) -> (matches p s = true <-> ptext = stext)) /\
  (ptext = [WILDCARD_TAIL] -> matches p s = true).
Proof.
  intros (-> & Hp & _)%parse_pattern_ok (-> & Hs & _)%parse_literal_ok.
  unfold matches, p_tokens, s_tokens. cbn [p_raw s_raw]. rewrite match_tokens_spec by done.
  split; [done|]. split.
  - intros Hl. rewrite matches_literal_tokens by done. split; [apply split_inj|by intros ->].
  - intros ->. simpl. destruct (split stext) eqn:E; [by apply split_not_nil in E|constructor].
Qed.

(** ["a.*"] and ["a.b"] *)
Lemma matches_sound_complete_witness :
  matches (mk_pattern [97; 46; 42] 2) (mk_subject [97; 46; 98] 2) = true /\
  Matches (split [97; 46; 42]) (split [97; 46; 98]).
Proof.
  split; [reflexivity|].
  apply (matches_sound_complete [97; 46; 42] [97; 46; 98]
    (mk_pattern [97; 46; 42] 2) (mk_subject [97; 46; 98] 2)); vm_compute; reflexivity.
Defined.
