(* ===== verification/Wire.v ===== *)
(** * The wire: frames and the body reader

    [ironbus-proto/src/frame.rs]: every message travels in a frame, a length, a
    type tag and a body; and the bounds-checked reader and the length-prefixed
    field of the message bodies ([message.rs]).  A [Reader] over a buffer is the
    part of it not read yet; the overflow of [pos + n] that [take] guards against
    cannot occur for a 16-bit length.  The output vector an encoder appends to is
    passed through it, so that what a failed encoder leaves behind is part of the
    model. *)

From S2P Require Import Prelude Bytes.

(** ** Frame types *)

Inductive FrameType :=
| FtConnect | FtInfo | FtPing | FtPong | FtPub | FtSub | FtUnsub | FtAck | FtNack | FtFlow | FtOk | FtErr
| FtDeliver | FtPubAck | FtAckStatus | FtFlowEnd | FtDeadLetter | FtTruncated | FtCumulativeAck
| FtPubAckDuplicate | FtGapMarker | FtProduceConfirm | FtFetch | FtStreamFetch | FtStreamCommit
| FtDeliverBatch | FtRaft | FtStreamDeclare | FtStreamInfo | FtPubTo | FtSubTo | FtFetchRecords
| FtFetchResponse | FtBindSubject | FtPubSubject | FtSubSubject | FtAckReplicated | FtOffsetForLeaderEpoch
| FtSegmentFingerprints | FtMirrorPull | FtLeafPush | FtNotLeader | FtCommittedHwQuery | FtTxnPrepare
| FtTxnCommit | FtTxnRollback | FtTxnCheck | FtTxnCheckResult | FtTxnListen | FtRaftAuth | FtDataPlaneAuth
| FtPauseGroup.

#[global] Instance frame_type_eq_dec : EqDecision FrameType.
Proof. solve_decision. Defined.

Definition as_u8 (t : FrameType) : Z :=
  match t with
  | FtConnect => 1 | FtInfo => 2 | FtPing => 3 | FtPong => 4 | FtPub => 5 | FtSub => 6 | FtUnsub => 7
  | FtAck => 8 | FtNack => 9 | FtFlow => 10 | FtOk => 11 | FtErr => 12 | FtDeliver => 13 | FtPubAck => 14
  | FtAckStatus => 15 | FtFlowEnd => 16 | FtDeadLetter => 17 | FtTruncated => 18 | FtCumulativeAck => 19
  | FtPubAckDuplicate => 20 | FtGapMarker => 21 | FtProduceConfirm => 22 | FtFetch => 23
  | FtStreamFetch => 24 | FtStreamCommit => 25 | FtDeliverBatch => 26 | FtRaft => 27 | FtStreamDeclare => 28
  | FtStreamInfo => 29 | FtPubTo => 30 | FtSubTo => 31 | FtFetchRecords => 32 | FtFetchResponse => 33
  | FtBindSubject => 34 | FtPubSubject => 35 | FtSubSubject => 36 | FtAckReplicated => 37
  | FtOffsetForLeaderEpoch => 38 | FtSegmentFingerprints => 39 | FtMirrorPull => 40 | FtLeafPush => 41
  | FtNotLeader => 42 | FtCommittedHwQuery => 43 | FtTxnPrepare => 44 | FtTxnCommit => 45
  | FtTxnRollback => 46 | FtTxnCheck => 47 | FtTxnCheckResult => 48 | FtTxnListen => 49 | FtRaftAuth => 50
  | FtDataPlaneAuth => 51 | FtPauseGroup => 52
  end.

Definition from_u8 (tag : Z) : option FrameType :=
  match tag with
  | 1 => Some FtConnect | 2 => Some FtInfo | 3 => Some FtPing | 4 => Some FtPong | 5 => Some FtPub
  | 6 => Some FtSub | 7 => Some FtUnsub | 8 => Some FtAck | 9 => Some FtNack | 10 => Some FtFlow
  | 11 => Some FtOk | 12 => Some FtErr | 13 => Some FtDeliver | 14 => Some FtPubAck | 15 => Some FtAckStatus
  | 16 => Some FtFlowEnd | 17 => Some FtDeadLetter | 18 => Some FtTruncated | 19 => Some FtCumulativeAck
  | 20 => Some FtPubAckDuplicate | 21 => Some FtGapMarker | 22 => Some FtProduceConfirm | 23 => Some FtFetch
  | 24 => Some FtStreamFetch | 25 => Some FtStreamCommit | 26 => Some FtDeliverBatch | 27 => Some FtRaft
  | 28 => Some FtStreamDeclare | 29 => Some FtStreamInfo | 30 => Some FtPubTo | 31 => Some FtSubTo
  | 32 => Some FtFetchRecords | 33 => Some FtFetchResponse | 34 => Some FtBindSubject
  | 35 => Some FtPubSubject | 36 => Some FtSubSubject | 37 => Some FtAckReplicated
  | 38 => Some FtOffsetForLeaderEpoch | 39 => Some FtSegmentFingerprints | 40 => Some FtMirrorPull
  | 41 => Some FtLeafPush | 42 => Some FtNotLeader | 43 => Some FtCommittedHwQuery | 44 => Some FtTxnPrepare
  | 45 => Some FtTxnCommit | 46 => Some FtTxnRollback | 47 => Some FtTxnCheck | 48 => Some FtTxnCheckResult
  | 49 => Some FtTxnListen | 50 => Some FtRaftAuth | 51 => Some FtDataPlaneAuth | 52 => Some FtPauseGroup
  | _ => None
  end.

(** ** Frames *)

Definition LEN_PREFIX : nat := 4.
Definition MAX_FRAME_LEN : Z := 16 * 1024 * 1024 + 64 * 1024.

Inductive FrameError := FrameTooLarge (len : Z) | EmptyFrame.

Inductive FrameDecode :=
| Frame (type_tag : Z) (body : list Z) (consumed : nat)
| Incomplete (needed : nat).

Definition encode_frame (frame_type : FrameType) (body out : list Z) : list Z * res unit FrameError :=
  let frame_len := 1 + Z.of_nat (length body) in
  if MAX_FRAME_LEN <? frame_len then (out, Err (FrameTooLarge frame_len))
  else (out ++ le_bytes 4 frame_len ++ [as_u8 frame_type] ++ body, Ok tt).

Definition decode_frame_with_cap (input : list Z) (max_len : Z) : res FrameDecode FrameError :=
  let cap := Z.min max_len MAX_FRAME_LEN in
  if (length input <? LEN_PREFIX)%nat then Ok (Incomplete LEN_PREFIX)
  else
    let? len_bytes := or_panic (slice input 0 LEN_PREFIX) in
    let frame_len := le_val len_bytes in
    fail? frame_len =? 0 with EmptyFrame in
    fail? cap <? frame_len with FrameTooLarge frame_len in
    let needed := (LEN_PREFIX + Z.to_nat frame_len)%nat in
    if (length input <? needed)%nat then Ok (Incomplete needed)
    else
      let? type_tag := or_panic (input !! LEN_PREFIX) in
      let? body := or_panic (slice input (LEN_PREFIX + 1) needed) in
      Ok (Frame type_tag body needed).

Definition decode_frame (input : list Z) : res FrameDecode FrameError := decode_frame_with_cap input MAX_FRAME_LEN.

Lemma from_u8_as_u8 t : from_u8 (as_u8 t) = Some t.
Proof. by destruct t. Qed.

Lemma as_u8_is_u8 t : is_u8 (as_u8 t).
Proof. destruct t; vm_compute; split; discriminate. Qed.

(** A whole frame at the front of the input. *)
Definition frame_bytes (tag : Z) (body : list Z) : list Z := le_bytes 4 (1 + Z.of_nat (length body)) ++ [tag] ++ body.

Lemma length_frame_bytes tag body : length (frame_bytes tag body) = (5 + length body)%nat.
Proof. unfold frame_bytes. rewrite !length_app, length_le_bytes. cbn. lia. Qed.

Lemma decode_frame_whole tag body rest cap :
  1 + Z.of_nat (length body) <= Z.min cap MAX_FRAME_LEN ->
  decode_frame_with_cap (frame_bytes tag body ++ rest) cap = Ok (Frame tag body (5 + length body)).
Proof.
  intros Hc. unfold decode_frame_with_cap. rewrite length_app, length_frame_bytes. unfold LEN_PREFIX.
  destruct (Nat.ltb_spec (5 + length body + length rest) 4); [lia|].
  assert (Hv : le_val (le_bytes 4 (1 + Z.of_nat (length body))) = 1 + Z.of_nat (length body)).
  { apply le_val_le_bytes. unfold MAX_FRAME_LEN in Hc. change (256 ^ Z.of_nat 4) with 4294967296. lia. }
  unfold frame_bytes. rewrite <- !app_assoc.
  rewrite (slice_at _ 0 4 (le_bytes 4 (1 + Z.of_nat (length body))) ([tag] ++ body ++ rest)); [|lia|done|by rewrite length_le_bytes].
  cbn [or_panic res_bind]. rewrite Hv.
  destruct (Z.eqb_spec (1 + Z.of_nat (length body)) 0); [lia|]. destruct (Z.ltb_spec (Z.min cap MAX_FRAME_LEN) (1 + Z.of_nat (length body))); [lia|].
  replace (4 + Z.to_nat (1 + Z.of_nat (length body)))%nat with (5 + length body)%nat by lia.
  destruct (Nat.ltb_spec (5 + length body + length rest) (5 + length body)); [lia|].
  rewrite lookup_app_r by (rewrite length_le_bytes; lia). rewrite length_le_bytes. cbn [Nat.sub lookup list_lookup app or_panic res_bind].
  rewrite (slice_at _ 5 (5 + length body) body rest); [done| | |lia]; [rewrite !length_app, length_le_bytes; cbn; lia|].
  rewrite drop_app_ge by (rewrite length_le_bytes; lia). by rewrite length_le_bytes.
Qed.

Lemma decode_frame_spec input cap :
  bytes_ok input ->
  match decode_frame_with_cap input cap with
  | Ok (Frame tag body n) =>
      n = (5 + length body)%nat /\ input = frame_bytes tag body ++ drop n input /\ 1 + Z.of_nat (length body) <= Z.min cap MAX_FRAME_LEN
  | Ok (Incomplete n) => (length input < n)%nat
  | Err EmptyFrame => (4 <= length input)%nat /\ le_val (take 4 input) = 0
  | Err (FrameTooLarge len) => (4 <= length input)%nat /\ le_val (take 4 input) = len /\ Z.min cap MAX_FRAME_LEN < len
  | Panic => False
  end.
Proof.
  intros Hb. unfold decode_frame_with_cap, LEN_PREFIX. destruct (Nat.ltb_spec (length input) 4) as [Hs|Hs]; [done|].
  rewrite slice_0 by done. cbn [or_panic res_bind].
  assert (Hb4 : bytes_ok (take 4 input)) by (by apply Forall_take). assert (Hl4 : length (take 4 input) = 4%nat) by (rewrite length_take; lia).
  pose proof (le_val_bounds _ Hb4) as Hv. destruct (Z.eqb_spec (le_val (take 4 input)) 0) as [Hz|Hz]; [done|].
  destruct (Z.ltb_spec (Z.min cap MAX_FRAME_LEN) (le_val (take 4 input))) as [Hc|Hc]; [done|].
  set (len := le_val (take 4 input)) in *. destruct (Nat.ltb_spec (length input) (4 + Z.to_nat len)) as [Hn|Hn]; [done|].
  destruct (lookup_lt_is_Some_2 input 4) as [tag Ht]; [lia|]. rewrite Ht. cbn [or_panic res_bind].
  rewrite slice_Some by lia. cbn [or_panic res_bind]. replace (4 + Z.to_nat len - (4 + 1))%nat with (Z.to_nat len - 1)%nat by lia.
  assert (Hbl : length (take (Z.to_nat len - 1) (drop (4 + 1) input)) = (Z.to_nat len - 1)%nat) by (rewrite length_take, length_drop; lia).
  rewrite Hbl. split_and!; [lia| |lia]. unfold frame_bytes. rewrite Hbl. replace (1 + Z.of_nat (Z.to_nat len - 1)) with len by lia.
  unfold len. rewrite (le_bytes_le_val' 4) by done. fold len. rewrite <- (take_drop 4 input) at 1. rewrite <- !app_assoc. f_equal.
  rewrite (drop_S input tag 4) by done. cbn [app]. f_equal. change (4 + 1)%nat with 5%nat.
  rewrite <- (take_drop (Z.to_nat len - 1) (drop 5 input)) at 1. f_equal. rewrite drop_drop. f_equal. lia.
Qed.

(** More bytes change neither a frame nor a refusal, and a partial frame stays
    partial until the bytes it asked for are there. *)
Lemma decode_frame_app input more cap :
  match decode_frame_with_cap input cap with
  | Ok (Incomplete n) =>
      (length (input ++ more) < n)%nat -> decode_frame_with_cap (input ++ more) cap = Ok (Incomplete n)
  | r => decode_frame_with_cap (input ++ more) cap = r
  end.
Proof.
  unfold decode_frame_with_cap, LEN_PREFIX. rewrite length_app. destruct (Nat.ltb_spec (length input) 4) as [Hs|Hs].
  { intros Hl. by destruct (Nat.ltb_spec (length input + length more) 4); [|lia]. }
  destruct (Nat.ltb_spec (length input + length more) 4); [lia|].
  rewrite !slice_0 by (rewrite ?length_app; lia). cbn [or_panic res_bind]. rewrite take_app_le by lia.
  destruct (le_val (take 4 input) =? 0); [done|]. destruct (Z.min cap MAX_FRAME_LEN <? le_val (take 4 input)); [done|].
  set (n := (4 + Z.to_nat (le_val (take 4 input)))%nat). destruct (Nat.ltb_spec (length input) n) as [Hn|Hn].
  { intros Hl. by destruct (Nat.ltb_spec (length input + length more) n); [|lia]. }
  destruct (Nat.ltb_spec (length input + length more) n); [lia|].
  destruct (decide (5 <= n)%nat) as [H5|H5].
  - rewrite lookup_app_l by lia. destruct (input !! 4%nat); cbn [or_panic res_bind]; [|done].
    rewrite !slice_Some by (rewrite ?length_app; lia). rewrite drop_app_le, take_app_le by (rewrite ?length_drop; lia). done.
  - destruct (decide (4 < length input)%nat).
    + rewrite lookup_app_l by lia. destruct (input !! 4%nat); cbn [or_panic res_bind]; [|done]. unfold slice.
      by repeat case_decide; try lia.
    + rewrite (lookup_ge_None_2 input) by lia. cbn [or_panic res_bind].
      destruct ((input ++ more) !! 4%nat); cbn [or_panic res_bind]; [|done]. unfold slice. by case_decide; [lia|].
Qed.

(** ** Bodies *)

Inductive BodyError :=
| Truncated | BadLength | FieldTooLarge | BadAckOp (op : Z) | TrailingBytes | BadHandshakeVersion (version : Z).

Definition reader_take (n : nat) (r : list Z) : res (list Z * list Z) BodyError :=
  if (length r <? n)%nat then Err Truncated else Ok (take n r, drop n r).

Definition reader_le (n : nat) (r : list Z) : res (Z * list Z) BodyError :=
  let? (b, r) := reader_take n r in Ok (le_val b, r).
Definition reader_u8 (r : list Z) : res (Z * list Z) BodyError :=
  let? (b, r) := reader_take 1 r in
  let? x := or_panic (b !! 0%nat) in Ok (x, r).
Definition reader_u16 (r : list Z) : res (Z * list Z) BodyError := reader_le 2 r.
Definition reader_u32 (r : list Z) : res (Z * list Z) BodyError := reader_le 4 r.
Definition reader_u64 (r : list Z) : res (Z * list Z) BodyError := reader_le 8 r.

Definition reader_var (r : list Z) : res (list Z * list Z) BodyError :=
  let? (len, r) := reader_u16 r in reader_take (Z.to_nat len) r.

Definition at_end (r : list Z) : bool := bool_decide (r = []).

(** [r.read().unwrap_or(default)]: a read that fails does not advance. *)
Definition unwrap_or {A} (read : list Z -> res (A * list Z) BodyError) (default : A) (r : list Z) : A * list Z :=
  match read r with Ok (x, r) => (x, r) | _ => (default, r) end.

Definition push_var (out field : list Z) : list Z * res unit BodyError :=
  match u16_try_from (length field) with
  | None => (out, Err FieldTooLarge)
  | Some len => (out ++ le_bytes 2 len ++ field, Ok tt)
  end.

Definition out_bind {E} (r : list Z * res unit E) (k : list Z -> list Z * res unit E) : list Z * res unit E :=
  match r with
  | (out, Ok _) => k out
  | (out, Err e) => (out, Err e)
  | (out, Panic) => (out, Panic)
  end.
Notation "'push!' out ':=' c1 'in' c2" := (out_bind c1 (fun out => c2))
  (at level 10, out name, c1 at level 100, c2 at level 200) : ironbus_scope.

(** The [u8] of a [bool]. *)
Definition flag_of (b : bool) (mask : Z) : Z := if b then mask else 0.
Definition has_flag (flags mask : Z) : bool := negb (Z.land flags mask =? 0).

(** *** Reading what was written *)

Lemma reader_take_app f r : reader_take (length f) (f ++ r) = Ok (f, r).
Proof. unfold reader_take. rewrite length_app. destruct (Nat.ltb_spec (length f + length r) (length f)); [lia|]. by rewrite take_app_length, drop_app_length. Qed.

Lemma reader_take_app' n f r : length f = n -> reader_take n (f ++ r) = Ok (f, r).
Proof. intros <-. apply reader_take_app. Qed.

Lemma reader_u8_cons x r : reader_u8 (x :: r) = Ok (x, r).
Proof. unfold reader_u8, reader_take. by destruct (Nat.ltb_spec (length (x :: r)) 1); [cbn in *; lia|]. Qed.

Lemma reader_le_app n x r : 0 <= x < 256 ^ Z.of_nat n -> reader_le n (le_bytes n x ++ r) = Ok (x, r).
Proof. intros Hx. unfold reader_le. rewrite reader_take_app' by apply length_le_bytes. cbn [res_bind]. by rewrite le_val_le_bytes. Qed.

Lemma reader_u16_app x r : is_u16 x -> reader_u16 (le_bytes 2 x ++ r) = Ok (x, r).
Proof. intros Hx. by apply reader_le_app, u16_pow. Qed.
Lemma reader_u32_app x r : is_u32 x -> reader_u32 (le_bytes 4 x ++ r) = Ok (x, r).
Proof. intros Hx. by apply reader_le_app, u32_pow. Qed.
Lemma reader_u64_app x r : is_u64 x -> reader_u64 (le_bytes 8 x ++ r) = Ok (x, r).
Proof. intros Hx. by apply reader_le_app, u64_pow. Qed.

Definition short (f : list Z) : Prop := Z.of_nat (length f) <= u16_max.

Lemma short_u16 f : short f -> is_u16 (Z.of_nat (length f)).
Proof. unfold short, is_u16. lia. Qed.

Lemma reader_var_app f r : short f -> reader_var (le_bytes 2 (Z.of_nat (length f)) ++ f ++ r) = Ok (f, r).
Proof.
  intros Hf. unfold reader_var. rewrite reader_u16_app by (by apply short_u16). cbn [res_bind]. rewrite Nat2Z.id. apply reader_take_app.
Qed.

Lemma push_var_short out f : short f -> push_var out f = (out ++ le_bytes 2 (Z.of_nat (length f)) ++ f, Ok tt).
Proof. intros Hf. unfold push_var. by rewrite u16_try_from_Some. Qed.

Lemma push_var_inv out f out' : push_var out f = (out', Ok tt) -> short f /\ out' = out ++ le_bytes 2 (Z.of_nat (length f)) ++ f.
Proof.
  unfold push_var. destruct (u16_try_from (length f)) as [x|] eqn:Hx; [|done]. apply u16_try_from_inv in Hx as [-> Hs]. by intros [= <-].
Qed.

Lemma out_bind_ok {E} (r : list Z * res unit E) k out' :
  out_bind r k = (out', Ok tt) <-> exists out, r = (out, Ok tt) /\ k out = (out', Ok tt).
Proof. destruct r as [out [[]|e|]]; cbn; (split; [try done; eauto|intros (? & ? & ?); congruence]). Qed.

(** *** Writing what was read *)

Lemma reader_take_inv n r x r' : bytes_ok r -> reader_take n r = Ok (x, r') -> r = x ++ r' /\ length x = n /\ bytes_ok x /\ bytes_ok r'.
Proof.
  intros Hb. unfold reader_take. destruct (Nat.ltb_spec (length r) n); [done|]. intros [= <- <-].
  split_and!; [by rewrite take_drop|rewrite length_take; lia|by apply Forall_take|by apply Forall_drop].
Qed.

Lemma reader_u8_inv r x r' : bytes_ok r -> reader_u8 r = Ok (x, r') -> r = x :: r' /\ is_u8 x /\ bytes_ok r'.
Proof.
  intros Hb Hr. destruct r as [|y r]; [done|]. rewrite reader_u8_cons in Hr. injection Hr as -> ->.
  by apply Forall_cons in Hb as [? ?].
Qed.

Lemma reader_le_inv n r x r' : bytes_ok r -> reader_le n r = Ok (x, r') -> r = le_bytes n x ++ r' /\ 0 <= x < 256 ^ Z.of_nat n /\ bytes_ok r'.
Proof.
  intros Hb Hr. unfold reader_le in Hr. apply res_bind_ok in Hr as ([b r1] & Ht & Hr). injection Hr as <- <-.
  apply reader_take_inv in Ht as (-> & Hl & Hbb & Hbr); [|done]. split_and!; [by rewrite le_bytes_le_val'| | |done];
    pose proof (le_val_bounds b Hbb) as Hv; rewrite Hl in Hv; lia.
Qed.

Lemma reader_u16_inv r x r' : bytes_ok r -> reader_u16 r = Ok (x, r') -> r = le_bytes 2 x ++ r' /\ is_u16 x /\ bytes_ok r'.
Proof. intros Hb Hr. apply reader_le_inv in Hr as (-> & Hx & Hr'); [|done]. split; [done|split; [|done]]. unfold is_u16, u16_max. change (256 ^ Z.of_nat 2) with 65536 in Hx. lia. Qed.
Lemma reader_u32_inv r x r' : bytes_ok r -> reader_u32 r = Ok (x, r') -> r = le_bytes 4 x ++ r' /\ is_u32 x /\ bytes_ok r'.
Proof. intros Hb Hr. apply reader_le_inv in Hr as (-> & Hx & Hr'); [|done]. split; [done|split; [|done]]. unfold is_u32, u32_max. change (256 ^ Z.of_nat 4) with 4294967296 in Hx. lia. Qed.
Lemma reader_u64_inv r x r' : bytes_ok r -> reader_u64 r = Ok (x, r') -> r = le_bytes 8 x ++ r' /\ is_u64 x /\ bytes_ok r'.
Proof. intros Hb Hr. apply reader_le_inv in Hr as (-> & Hx & Hr'); [|done]. split; [done|split; [|done]]. unfold is_u64, u64_max. change (256 ^ Z.of_nat 8) with 18446744073709551616 in Hx. lia. Qed.

Lemma reader_var_inv r f r' :
  bytes_ok r -> reader_var r = Ok (f, r') -> r = le_bytes 2 (Z.of_nat (length f)) ++ f ++ r' /\ short f /\ bytes_ok f /\ bytes_ok r'.
Proof.
  intros Hb Hr. unfold reader_var in Hr. apply res_bind_ok in Hr as ([len r1] & Hl & Hr).
  apply reader_u16_inv in Hl as (-> & Hu & Hb1); [|done]. apply reader_take_inv in Hr as (-> & Hlen & Hbf & Hbr); [|done].
  assert (Hx : Z.of_nat (length f) = len) by (unfold is_u16 in Hu; lia). rewrite Hx. split_and!; try done. unfold short. rewrite Hx. by destruct Hu.
Qed.
