(* ===== verification/Messages.v ===== *)
(** * The wire: message bodies

    [ironbus-proto/src/message.rs]: an encoder and a decoder for the body of
    each message.  Some bodies are fixed layouts; others are a version byte and
    a length-prefixed block that a later version may extend, followed by a tail.
    [Body] gathers them, and the theorems say that a peer reads what was
    written, that anything a decoder accepts can be written again and means the
    same, and that the fixed layouts have one encoding. *)

From S2P Require Import Prelude Bytes Subject Wire.

(** The capability bits that are set, or'ed together. *)
Definition flags_of (l : list (bool * Z)) : Z := foldl (fun flags p => if (p.1 : bool) then Z.lor flags p.2 else flags) 0 l.

(** ** Publish *)

Definition PUB_FLAG_HAS_DEDUP : Z := 128.
Definition PUB_FLAG_FIRE_AND_FORGET : Z := 64.
Definition PUB_FLAG_HAS_SEQ : Z := 32.
Definition PUB_FLAG_ACK_LEVEL_MASK : Z := 24.
Definition PUB_FLAG_ACK_LEVEL_SHIFT : Z := 3.

Inductive AckLevel := NoAck | ServerAck | ServerAndClientAck.

Definition pub_ack_level (flags : Z) : AckLevel :=
  if has_flag flags PUB_FLAG_FIRE_AND_FORGET then NoAck
  else
    match Z.shiftr (Z.land flags PUB_FLAG_ACK_LEVEL_MASK) PUB_FLAG_ACK_LEVEL_SHIFT with
    | 1 => NoAck
    | 2 => ServerAndClientAck
    | _ => ServerAck
    end.

Record PubDedup := mk_pub_dedup { pd_producer_id : list Z; pd_epoch : Z; pd_msg_id : list Z; pd_seq : option Z }.
Record PubBody := mk_pub {
  pb_flags : Z;
  pb_timestamp_ms : Z;
  pb_key : list Z;
  pb_headers : list Z;
  pb_dedup : option PubDedup;
  pb_fire_and_forget : bool;
  pb_payload : list Z
}.

Definition pub_wire_flags (msg : PubBody) : Z :=
  let flags := Z.land (pb_flags msg)
    (Z.lxor u8_max (Z.lor (Z.lor PUB_FLAG_HAS_DEDUP PUB_FLAG_FIRE_AND_FORGET) PUB_FLAG_HAS_SEQ)) in
  let flags := if pb_dedup msg then Z.lor flags PUB_FLAG_HAS_DEDUP else flags in
  let flags := match pb_dedup msg with Some d => if pd_seq d then Z.lor flags PUB_FLAG_HAS_SEQ else flags | None => flags end in
  if pb_fire_and_forget msg then Z.lor flags PUB_FLAG_FIRE_AND_FORGET else flags.

Definition encode_pub (msg : PubBody) (out : list Z) : list Z * res unit BodyError :=
  let out := out ++ [pub_wire_flags msg] in
  let out := out ++ le_bytes 8 (pb_timestamp_ms msg) in
  push! out := push_var out (pb_key msg) in
  push! out := push_var out (pb_headers msg) in
  push! out :=
    match pb_dedup msg with
    | Some dedup =>
        push! out := push_var out (pd_producer_id dedup) in
        let out := out ++ le_bytes 8 (pd_epoch dedup) in
        push! out := push_var out (pd_msg_id dedup) in
        match pd_seq dedup with
        | Some seq => (out ++ le_bytes 8 seq, Ok tt)
        | None => (out, Ok tt)
        end
    | None => (out, Ok tt)
    end in
  (out ++ pb_payload msg, Ok tt).

Definition decode_pub (body : list Z) : res PubBody BodyError :=
  let? (flags, r) := reader_u8 body in
  let? (timestamp_ms, r) := reader_u64 r in
  let? (key, r) := reader_var r in
  let? (headers, r) := reader_var r in
  let? (dedup, r) :=
    if has_flag flags PUB_FLAG_HAS_DEDUP then
      let? (producer_id, r) := reader_var r in
      let? (epoch, r) := reader_u64 r in
      let? (msg_id, r) := reader_var r in
      let? (seq, r) :=
        if has_flag flags PUB_FLAG_HAS_SEQ then let? (seq, r) := reader_u64 r in Ok (Some seq, r) else Ok (None, r) in
      Ok (Some (mk_pub_dedup producer_id epoch msg_id seq), r)
    else fail? has_flag flags PUB_FLAG_HAS_SEQ with BadLength in Ok (None, r) in
  let fire_and_forget := has_flag flags PUB_FLAG_FIRE_AND_FORGET in
  Ok (mk_pub flags timestamp_ms key headers dedup fire_and_forget r).

(** ** Acknowledgements and deliveries *)

Inductive AckOp := OpAck | OpNack | OpTerm | OpProgress.

Definition ack_op_as_u8 (op : AckOp) : Z :=
  match op with OpAck => 0 | OpNack => 1 | OpTerm => 2 | OpProgress => 3 end.
Definition ack_op_from_u8 (op : Z) : res AckOp BodyError :=
  match op with 0 => Ok OpAck | 1 => Ok OpNack | 2 => Ok OpTerm | 3 => Ok OpProgress | _ => Err (BadAckOp op) end.

Record AckBody := mk_ack { ak_op : AckOp; ak_offset : Z; ak_generation : Z; ak_delay_ms : Z }.

Definition encode_ack (ack : AckBody) (out : list Z) : list Z :=
  out ++ [ack_op_as_u8 (ak_op ack)] ++ le_bytes 8 (ak_offset ack) ++ le_bytes 8 (ak_generation ack) ++ le_bytes 8 (ak_delay_ms ack).

Definition decode_ack (body : list Z) : res AckBody BodyError :=
  let? (op, r) := reader_u8 body in
  let? op := ack_op_from_u8 op in
  let? (offset, r) := reader_u64 r in
  let? (generation, r) := reader_u64 r in
  let? (delay_ms, r) := reader_u64 r in
  fail? negb (at_end r) with TrailingBytes in
  Ok (mk_ack op offset generation delay_ms).

Record DeliverBody := mk_deliver {
  dl_offset : Z;
  dl_generation : Z;
  dl_flags : Z;
  dl_timestamp_ms : Z;
  dl_key : list Z;
  dl_headers : list Z;
  dl_payload : list Z
}.

Definition encode_deliver (msg : DeliverBody) (out : list Z) : list Z * res unit BodyError :=
  let out := out ++ le_bytes 8 (dl_offset msg) ++ le_bytes 8 (dl_generation msg) ++ [dl_flags msg] ++ le_bytes 8 (dl_timestamp_ms msg) in
  push! out := push_var out (dl_key msg) in
  push! out := push_var out (dl_headers msg) in
  (out ++ dl_payload msg, Ok tt).

(** The frame of a delivery, built in place: the length is written last. *)
Definition encode_deliver_frame (msg : DeliverBody) (out : list Z) : list Z * res unit BodyError :=
  let frame_start := length out in
  let out := out ++ [0; 0; 0; 0] ++ [as_u8 FtDeliver] in
  let body_start := length out in
  match encode_deliver msg out with
  | (out, Ok _) =>
      let frame_len := 1 + (Z.of_nat (length out) - Z.of_nat body_start) in
      let frame_len := if u32_max <? frame_len then u32_max else frame_len in
      if (length out <? frame_start + 4)%nat then (out, Panic)
      else (take frame_start out ++ le_bytes 4 frame_len ++ drop (frame_start + 4) out, Ok tt)
  | (out, Err e) => (take frame_start out, Err e)
  | (out, Panic) => (out, Panic)
  end.

Definition decode_deliver (body : list Z) : res DeliverBody BodyError :=
  let? (offset, r) := reader_u64 body in
  let? (generation, r) := reader_u64 r in
  let? (flags, r) := reader_u8 r in
  let? (timestamp_ms, r) := reader_u64 r in
  let? (key, r) := reader_var r in
  let? (headers, r) := reader_var r in
  Ok (mk_deliver offset generation flags timestamp_ms key headers r).

(** ** Batches of deliveries *)

Definition DELIVER_BATCH_HEADER_VERSION : Z := 1.
Definition DELIVER_BATCH_V1_FIELD_LEN : Z := 8 + 8 + 4.
Definition DELIVER_BATCH_HEADER_LEN : Z := 1 + 2 + DELIVER_BATCH_V1_FIELD_LEN.

Record DeliverBatchHeader := mk_batch { bh_first_offset : Z; bh_generation : Z; bh_record_count : Z }.

Definition write_deliver_batch_header (header : DeliverBatchHeader) (out : list Z) : list Z :=
  out ++ [DELIVER_BATCH_HEADER_VERSION] ++ le_bytes 2 DELIVER_BATCH_V1_FIELD_LEN ++
  le_bytes 8 (bh_first_offset header) ++ le_bytes 8 (bh_generation header) ++ le_bytes 4 (bh_record_count header).

Definition encode_deliver_batch (header : DeliverBatchHeader) (record_bytes out : list Z) : list Z :=
  write_deliver_batch_header header out ++ record_bytes.

Definition encode_deliver_batch_frame (header : DeliverBatchHeader) (record_bytes out : list Z) : list Z * res unit FrameError :=
  let body_len := DELIVER_BATCH_HEADER_LEN + Z.of_nat (length record_bytes) in
  let frame_len := 1 + body_len in
  if MAX_FRAME_LEN <? frame_len then (out, Err (FrameTooLarge frame_len))
  else
    let out := out ++ le_bytes 4 frame_len ++ [as_u8 FtDeliverBatch] in
    (write_deliver_batch_header header out ++ record_bytes, Ok tt).

(** The frame up to its records, which are sent from the file. *)
Definition encode_deliver_batch_frame_header (header : DeliverBatchHeader) (body_len : Z) (out : list Z) : list Z * res unit FrameError :=
  let frame_body_len := DELIVER_BATCH_HEADER_LEN + body_len in
  let frame_len := 1 + frame_body_len in
  if MAX_FRAME_LEN <? frame_len then (out, Err (FrameTooLarge frame_len))
  else (write_deliver_batch_header header (out ++ le_bytes 4 frame_len ++ [as_u8 FtDeliverBatch]), Ok tt).

(** The version byte and the declared block of an extensible body, and what
    follows it. *)
Definition read_block (expected : Z) (body : list Z) : res (list Z * list Z) BodyError :=
  let? (version, r) := reader_u8 body in
  fail? negb (version =? expected) with BadHandshakeVersion version in
  let? (field_len, r) := reader_u16 r in
  reader_take (Z.to_nat field_len) r.

Definition decode_deliver_batch (body : list Z) : res (DeliverBatchHeader * list Z) BodyError :=
  let? (block, record_bytes) := read_block DELIVER_BATCH_HEADER_VERSION body in
  let '(first_offset, fr) := unwrap_or reader_u64 0 block in
  let '(generation, fr) := unwrap_or reader_u64 0 fr in
  let '(record_count, fr) := unwrap_or reader_u32 0 fr in
  Ok (mk_batch first_offset generation record_count, record_bytes).

(** ** Small bodies *)

Record SubBody := mk_sub { sb_group : list Z }.
Definition encode_sub (sub : SubBody) (out : list Z) : list Z := out ++ sb_group sub.
Definition decode_sub (body : list Z) : SubBody := mk_sub body.

Record CumulativeAckBody := mk_cumulative_ack { ca_up_to : Z; ca_group : list Z }.
Definition encode_cumulative_ack (ack : CumulativeAckBody) (out : list Z) : list Z := out ++ le_bytes 8 (ca_up_to ack) ++ ca_group ack.
Definition decode_cumulative_ack (body : list Z) : res CumulativeAckBody BodyError :=
  let? (up_to, r) := reader_u64 body in Ok (mk_cumulative_ack up_to r).

Record PubAckBody := mk_pub_ack { pa_offset : Z }.
Definition encode_pub_ack (ack : PubAckBody) (out : list Z) : list Z := out ++ le_bytes 8 (pa_offset ack).
Definition decode_pub_ack (body : list Z) : res PubAckBody BodyError :=
  let? (offset, r) := reader_u64 body in
  fail? negb (at_end r) with TrailingBytes in Ok (mk_pub_ack offset).

Record DeadLetterBody := mk_dead_letter { da_offset : Z; da_reason : Z }.
Definition encode_dead_letter (advisory : DeadLetterBody) (out : list Z) : list Z :=
  out ++ le_bytes 8 (da_offset advisory) ++ [da_reason advisory].
Definition decode_dead_letter (body : list Z) : res DeadLetterBody BodyError :=
  let? (offset, r) := reader_u64 body in
  let? (reason, r) := reader_u8 r in
  fail? negb (at_end r) with TrailingBytes in Ok (mk_dead_letter offset reason).

Record TruncatedBody := mk_truncated { tr_earliest_retained : Z; tr_skipped : Z }.
Definition encode_truncated (advisory : TruncatedBody) (out : list Z) : list Z :=
  out ++ le_bytes 8 (tr_earliest_retained advisory) ++ le_bytes 8 (tr_skipped advisory).
Definition decode_truncated (body : list Z) : res TruncatedBody BodyError :=
  let? (earliest_retained, r) := reader_u64 body in
  let? (skipped, r) := reader_u64 r in
  fail? negb (at_end r) with TrailingBytes in Ok (mk_truncated earliest_retained skipped).

Record GapMarkerBody := mk_gap_marker { gm_from : Z; gm_to : Z; gm_bytes_skipped : Z; gm_reason : Z }.
Definition encode_gap_marker (marker : GapMarkerBody) (out : list Z) : list Z :=
  out ++ le_bytes 8 (gm_from marker) ++ le_bytes 8 (gm_to marker) ++ le_bytes 8 (gm_bytes_skipped marker) ++ [gm_reason marker].
Definition decode_gap_marker (body : list Z) : res GapMarkerBody BodyError :=
  let? (from, r) := reader_u64 body in
  let? (to, r) := reader_u64 r in
  let? (bytes_skipped, r) := reader_u64 r in
  let? (reason, r) := reader_u8 r in
  fail? negb (at_end r) with TrailingBytes in Ok (mk_gap_marker from to bytes_skipped reason).

Record ProduceConfirmBody := mk_produce_confirm { pc_offset : Z; pc_status : Z }.
Definition encode_produce_confirm (confirm : ProduceConfirmBody) (out : list Z) : list Z :=
  out ++ le_bytes 8 (pc_offset confirm) ++ [pc_status confirm].
Definition decode_produce_confirm (body : list Z) : res ProduceConfirmBody BodyError :=
  let? (offset, r) := reader_u64 body in
  let? (status, r) := reader_u8 r in
  fail? negb (at_end r) with TrailingBytes in Ok (mk_produce_confirm offset status).

(** The hint is a [str]: bytes that are valid UTF-8. *)
Definition NOT_LEADER_BODY_VERSION : Z := 1.
Record NotLeaderBody := mk_not_leader { nl_leader_hint : list Z }.
Definition encode_not_leader (redirect : NotLeaderBody) (out : list Z) : list Z * res unit BodyError :=
  push_var (out ++ [NOT_LEADER_BODY_VERSION]) (nl_leader_hint redirect).
Definition decode_not_leader (body : list Z) : res NotLeaderBody BodyError :=
  let? (_body_version, r) := reader_u8 body in
  let? (hint_bytes, r) := reader_var r in
  fail? negb (utf8_valid hint_bytes) with Truncated in Ok (mk_not_leader hint_bytes).

(** ** Handshake *)

Definition HANDSHAKE_BODY_VERSION : Z := 1.
Definition CONNECT_FLAG_HAS_CREDIT : Z := 1.
Definition CONNECT_FLAG_HAS_CREDIT_BYTES : Z := 2.
Definition CONNECT_FLAG_WANTS_GAP_MARKER : Z := 4.
Definition CONNECT_FLAG_HAS_DEFAULT_ACK_LEVEL : Z := 8.
Definition CONNECT_FLAG_UNDERSTANDS_STREAMING : Z := 16.
Definition CONNECT_FLAG_HAS_DEFAULT_TIER : Z := 32.
Definition CONNECT_FLAG_UNDERSTANDS_DELIVER_BATCH : Z := 64.
Definition CONNECT_FLAG_UNDERSTANDS_STREAMS : Z := 128.
Definition CONNECT_FLAG2_COMPRESSED_DELIVERY : Z := 1.
Definition CONNECT_FLAG2_WANTS_SUBJECT_FILTER : Z := 2.
Definition CONNECT_FLAG2_WANTS_EPHEMERAL_GROUPS : Z := 4.
Definition INFO_FLAG_HAS_CREDIT : Z := 1.
Definition INFO_FLAG_HAS_CREDIT_BYTES : Z := 2.
Definition INFO_FLAG_GAP_MARKER : Z := 4.
Definition INFO_FLAG_HAS_DEFAULT_ACK_LEVEL : Z := 8.
Definition INFO_FLAG_STREAMING : Z := 16.
Definition INFO_FLAG_HAS_DEFAULT_TIER : Z := 32.
Definition INFO_FLAG_DELIVER_BATCH : Z := 64.
Definition INFO_FLAG_STREAMS : Z := 128.
Definition INFO_FLAG2_EPHEMERAL_GROUPS : Z := 1.

Record ConnectBody := mk_connect {
  cn_requested_credit : option Z;
  cn_requested_credit_bytes : option Z;
  cn_wants_gap_marker : bool;
  cn_default_ack_level : option Z;
  cn_understands_streaming : bool;
  cn_default_tier : option Z;
  cn_understands_deliver_batch : bool;
  cn_understands_streams : bool;
  cn_understands_compressed_delivery : bool;
  cn_wants_subject_filter : bool;
  cn_wants_ephemeral_groups : bool
}.
Definition connect_default : ConnectBody := mk_connect None None false None false None false false false false false.
Definition CONNECT_V1_FIELD_LEN : Z := 1 + 4 + 8.

Definition connect_flags (req : ConnectBody) : Z := flags_of [
  (bool_decide (is_Some (cn_requested_credit req)), CONNECT_FLAG_HAS_CREDIT);
  (bool_decide (is_Some (cn_requested_credit_bytes req)), CONNECT_FLAG_HAS_CREDIT_BYTES);
  (cn_wants_gap_marker req, CONNECT_FLAG_WANTS_GAP_MARKER);
  (bool_decide (is_Some (cn_default_ack_level req)), CONNECT_FLAG_HAS_DEFAULT_ACK_LEVEL);
  (cn_understands_streaming req, CONNECT_FLAG_UNDERSTANDS_STREAMING);
  (bool_decide (is_Some (cn_default_tier req)), CONNECT_FLAG_HAS_DEFAULT_TIER);
  (cn_understands_deliver_batch req, CONNECT_FLAG_UNDERSTANDS_DELIVER_BATCH);
  (cn_understands_streams req, CONNECT_FLAG_UNDERSTANDS_STREAMS)].
Definition connect_flags2 (req : ConnectBody) : Z := flags_of [
  (cn_understands_compressed_delivery req, CONNECT_FLAG2_COMPRESSED_DELIVERY);
  (cn_wants_subject_filter req, CONNECT_FLAG2_WANTS_SUBJECT_FILTER);
  (cn_wants_ephemeral_groups req, CONNECT_FLAG2_WANTS_EPHEMERAL_GROUPS)].

(** An optional byte at the end of a block. *)
Definition opt_byte (o : option Z) : list Z := match o with Some x => [x] | None => [] end.
Definition nonzero_byte (x : Z) : list Z := if x =? 0 then [] else [x].
Definition opt_len (o : option Z) : Z := match o with Some _ => 1 | None => 0 end.

Definition encode_connect (req : ConnectBody) (out : list Z) : list Z :=
  let flags2 := connect_flags2 req in
  let field_len := CONNECT_V1_FIELD_LEN + opt_len (cn_default_ack_level req) + opt_len (cn_default_tier req) +
    (if flags2 =? 0 then 0 else 1) in
  out ++ [HANDSHAKE_BODY_VERSION] ++ le_bytes 2 field_len ++ [connect_flags req] ++
  le_bytes 4 (default 0 (cn_requested_credit req)) ++ le_bytes 8 (default 0 (cn_requested_credit_bytes req)) ++
  opt_byte (cn_default_ack_level req) ++ opt_byte (cn_default_tier req) ++ nonzero_byte flags2.

(** [(cond).then(|| fr.u8().unwrap_or(0))] *)
Definition read_if (cond : bool) (fr : list Z) : option Z * list Z :=
  if cond then let '(x, fr) := unwrap_or reader_u8 0 fr in (Some x, fr) else (None, fr).

Definition decode_connect (body : list Z) : res ConnectBody BodyError :=
  if decide (body = []) then Ok connect_default
  else
    let? (block, _) := read_block HANDSHAKE_BODY_VERSION body in
    let '(flags, fr) := unwrap_or reader_u8 0 block in
    let '(credit, fr) := unwrap_or reader_u32 0 fr in
    let '(credit_bytes, fr) := unwrap_or reader_u64 0 fr in
    let '(default_ack_level, fr) := read_if (has_flag flags CONNECT_FLAG_HAS_DEFAULT_ACK_LEVEL) fr in
    let '(default_tier, fr) := read_if (has_flag flags CONNECT_FLAG_HAS_DEFAULT_TIER) fr in
    let '(flags2, fr) := unwrap_or reader_u8 0 fr in
    Ok (mk_connect (if has_flag flags CONNECT_FLAG_HAS_CREDIT then Some credit else None)
      (if has_flag flags CONNECT_FLAG_HAS_CREDIT_BYTES then Some credit_bytes else None)
      (has_flag flags CONNECT_FLAG_WANTS_GAP_MARKER) default_ack_level (has_flag flags CONNECT_FLAG_UNDERSTANDS_STREAMING)
      default_tier (has_flag flags CONNECT_FLAG_UNDERSTANDS_DELIVER_BATCH) (has_flag flags CONNECT_FLAG_UNDERSTANDS_STREAMS)
      (has_flag flags2 CONNECT_FLAG2_COMPRESSED_DELIVERY) (has_flag flags2 CONNECT_FLAG2_WANTS_SUBJECT_FILTER)
      (has_flag flags2 CONNECT_FLAG2_WANTS_EPHEMERAL_GROUPS)).

Inductive AuthMechanism := Bearer | Password | Mtls.
Definition mechanism_as_u8 (m : AuthMechanism) : Z := match m with Bearer => 1 | Password => 2 | Mtls => 3 end.
Definition mechanism_from_u8 (b : Z) : option AuthMechanism :=
  match b with 1 => Some Bearer | 2 => Some Password | 3 => Some Mtls | _ => None end.

Record AuthCredential := mk_credential { au_mechanism : AuthMechanism; au_material : list Z }.
Definition CONNECT_AUTH_SECTION_MARKER : Z := 167.

Definition append_connect_auth (out : list Z) (cred : AuthCredential) : list Z * res unit BodyError :=
  push_var (out ++ [CONNECT_AUTH_SECTION_MARKER] ++ [mechanism_as_u8 (au_mechanism cred)]) (au_material cred).

Definition parse_connect_auth (body : list Z) : res (option AuthCredential) BodyError :=
  if decide (body = []) then Ok None
  else
    let? (_block, r) := read_block HANDSHAKE_BODY_VERSION body in
    if at_end r then Ok None
    else
      let? (marker, r) := reader_u8 r in
      if negb (marker =? CONNECT_AUTH_SECTION_MARKER) then Ok None
      else
        let? (mech_byte, r) := reader_u8 r in
        match mechanism_from_u8 mech_byte with
        | None => Err (BadAckOp mech_byte)
        | Some mechanism =>
            let? (material, r) := reader_var r in Ok (Some (mk_credential mechanism material))
        end.

Definition pack_password_material (username password : list Z) : list Z * res unit BodyError :=
  push! v := push_var [] username in push_var v password.

Definition unpack_password_material (material : list Z) : res (list Z * list Z) BodyError :=
  let? (username, r) := reader_var material in
  let? (password, r) := reader_var r in
  fail? negb (at_end r) with TrailingBytes in Ok (username, password).

Record CreditAdvert := mk_advert { cr_negotiated : Z; cr_cap : Z }.
Record InfoBody := mk_info {
  in_credit : option CreditAdvert;
  in_credit_bytes : option CreditAdvert;
  in_gap_marker : bool;
  in_default_ack_level : option Z;
  in_streaming : bool;
  in_default_tier : option Z;
  in_deliver_batch : bool;
  in_streams : bool;
  in_ephemeral_groups : bool
}.
Definition info_default : InfoBody := mk_info None None false None false None false false false.
Definition INFO_V1_FIELD_LEN : Z := 1 + 4 + 4 + 8 + 8.

Definition info_flags (info : InfoBody) : Z := flags_of [
  (bool_decide (is_Some (in_credit info)), INFO_FLAG_HAS_CREDIT);
  (bool_decide (is_Some (in_credit_bytes info)), INFO_FLAG_HAS_CREDIT_BYTES);
  (in_gap_marker info, INFO_FLAG_GAP_MARKER);
  (bool_decide (is_Some (in_default_ack_level info)), INFO_FLAG_HAS_DEFAULT_ACK_LEVEL);
  (in_streaming info, INFO_FLAG_STREAMING);
  (bool_decide (is_Some (in_default_tier info)), INFO_FLAG_HAS_DEFAULT_TIER);
  (in_deliver_batch info, INFO_FLAG_DELIVER_BATCH);
  (in_streams info, INFO_FLAG_STREAMS)].

Definition encode_info (info : InfoBody) (out : list Z) : list Z :=
  let flags2 := flags_of [(in_ephemeral_groups info, INFO_FLAG2_EPHEMERAL_GROUPS)] in
  let field_len := INFO_V1_FIELD_LEN + opt_len (in_default_ack_level info) + opt_len (in_default_tier info) +
    (if flags2 =? 0 then 0 else 1) in
  let credit := default (mk_advert 0 0) (in_credit info) in
  let credit_bytes := default (mk_advert 0 0) (in_credit_bytes info) in
  out ++ [HANDSHAKE_BODY_VERSION] ++ le_bytes 2 field_len ++ [info_flags info] ++
  le_bytes 4 (cr_negotiated credit) ++ le_bytes 4 (cr_cap credit) ++
  le_bytes 8 (cr_negotiated credit_bytes) ++ le_bytes 8 (cr_cap credit_bytes) ++
  opt_byte (in_default_ack_level info) ++ opt_byte (in_default_tier info) ++ nonzero_byte flags2.

Definition decode_info (body : list Z) : res InfoBody BodyError :=
  if decide (body = []) then Ok info_default
  else
    let? (block, _) := read_block HANDSHAKE_BODY_VERSION body in
    let '(flags, fr) := unwrap_or reader_u8 0 block in
    let '(credit_negotiated, fr) := unwrap_or reader_u32 0 fr in
    let '(credit_cap, fr) := unwrap_or reader_u32 0 fr in
    let '(credit_bytes_negotiated, fr) := unwrap_or reader_u64 0 fr in
    let '(credit_bytes_cap, fr) := unwrap_or reader_u64 0 fr in
    let '(default_ack_level, fr) := read_if (has_flag flags INFO_FLAG_HAS_DEFAULT_ACK_LEVEL) fr in
    let '(default_tier, fr) := read_if (has_flag flags INFO_FLAG_HAS_DEFAULT_TIER) fr in
    let '(flags2, fr) := unwrap_or reader_u8 0 fr in
    Ok (mk_info (if has_flag flags INFO_FLAG_HAS_CREDIT then Some (mk_advert credit_negotiated credit_cap) else None)
      (if has_flag flags INFO_FLAG_HAS_CREDIT_BYTES then Some (mk_advert credit_bytes_negotiated credit_bytes_cap) else None)
      (has_flag flags INFO_FLAG_GAP_MARKER) default_ack_level (has_flag flags INFO_FLAG_STREAMING) default_tier
      (has_flag flags INFO_FLAG_DELIVER_BATCH) (has_flag flags INFO_FLAG_STREAMS) (has_flag flags2 INFO_FLAG2_EPHEMERAL_GROUPS)).

(** ** Fetches *)

Definition FETCH_BODY_VERSION : Z := 1.
Definition FETCH_FLAG_NO_WAIT : Z := 1.
Definition FETCH_V1_FIELD_LEN : Z := 1 + 4 + 8 + 8.
Record FetchBody := mk_fetch { fe_max_records : Z; fe_max_bytes : Z; fe_expires_ms : Z; fe_no_wait : bool }.

Definition encode_fetch (req : FetchBody) (out : list Z) : list Z :=
  out ++ [FETCH_BODY_VERSION] ++ le_bytes 2 FETCH_V1_FIELD_LEN ++ [flags_of [(fe_no_wait req, FETCH_FLAG_NO_WAIT)]] ++
  le_bytes 4 (fe_max_records req) ++ le_bytes 8 (fe_max_bytes req) ++ le_bytes 8 (fe_expires_ms req).

Definition decode_fetch (body : list Z) : res FetchBody BodyError :=
  let? (block, _) := read_block FETCH_BODY_VERSION body in
  let '(flags, fr) := unwrap_or reader_u8 0 block in
  let '(max_records, fr) := unwrap_or reader_u32 0 fr in
  let '(max_bytes, fr) := unwrap_or reader_u64 0 fr in
  let '(expires_ms, fr) := unwrap_or reader_u64 0 fr in
  Ok (mk_fetch max_records max_bytes expires_ms (has_flag flags FETCH_FLAG_NO_WAIT)).

Definition STREAM_FETCH_BODY_VERSION : Z := 1.
Definition STREAM_FETCH_V1_FIELD_LEN : Z := 8 + 4 + 8.
Definition STREAM_FETCH_TIME_FIELD_LEN : Z := 8 + 8.
Record StreamFetchBody := mk_stream_fetch {
  sf_start_offset : Z;
  sf_max_records : Z;
  sf_max_bytes : Z;
  sf_start_time_ms : option Z;
  sf_end_time_ms : option Z
}.

Definition encode_stream_fetch (req : StreamFetchBody) (out : list Z) : list Z :=
  let has_time := bool_decide (is_Some (sf_start_time_ms req)) || bool_decide (is_Some (sf_end_time_ms req)) in
  let field_len := if has_time then STREAM_FETCH_V1_FIELD_LEN + STREAM_FETCH_TIME_FIELD_LEN else STREAM_FETCH_V1_FIELD_LEN in
  out ++ [STREAM_FETCH_BODY_VERSION] ++ le_bytes 2 field_len ++
  le_bytes 8 (sf_start_offset req) ++ le_bytes 4 (sf_max_records req) ++ le_bytes 8 (sf_max_bytes req) ++
  (if has_time then le_bytes 8 (default 0 (sf_start_time_ms req)) ++ le_bytes 8 (default 0 (sf_end_time_ms req)) else []).

Definition sentinel (t : Z) : option Z := if t =? 0 then None else Some t.

Definition decode_stream_fetch (body : list Z) : res StreamFetchBody BodyError :=
  let? (block, _) := read_block STREAM_FETCH_BODY_VERSION body in
  let '(start_offset, fr) := unwrap_or reader_u64 0 block in
  let '(max_records, fr) := unwrap_or reader_u32 0 fr in
  let '(max_bytes, fr) := unwrap_or reader_u64 0 fr in
  let '(start_time_raw, fr) := unwrap_or reader_u64 0 fr in
  let '(end_time_raw, fr) := unwrap_or reader_u64 0 fr in
  Ok (mk_stream_fetch start_offset max_records max_bytes (sentinel start_time_raw) (sentinel end_time_raw)).

Record StreamCommitBody := mk_stream_commit { sc_up_to : Z; sc_group : list Z }.
Definition encode_stream_commit (commit : StreamCommitBody) (out : list Z) : list Z := out ++ le_bytes 8 (sc_up_to commit) ++ sc_group commit.
Definition decode_stream_commit (body : list Z) : res StreamCommitBody BodyError :=
  let? (up_to, r) := reader_u64 body in Ok (mk_stream_commit up_to r).

(** ** Streams *)

Definition STREAM_WIRE_BODY_VERSION : Z := 1.
Definition MAX_STREAM_ID_LEN : nat := 1024.

Definition read_capped (cap : nat) (r : list Z) : res (list Z * list Z) BodyError :=
  let? (len, r) := reader_u16 r in
  fail? (cap <? Z.to_nat len)%nat with BadLength in
  reader_take (Z.to_nat len) r.
Definition read_stream_id (r : list Z) : res (list Z * list Z) BodyError := read_capped MAX_STREAM_ID_LEN r.

(** A block of one 16-bit-length field, or of two, and what follows in it; the
    encoders below compute the same lengths before they write. *)
Definition encode_one (field more tail out : list Z) : list Z * res unit BodyError :=
  match u16_try_from (length field), u16_try_from (2 + length field + length more) with
  | Some len, Some field_len => (out ++ [STREAM_WIRE_BODY_VERSION] ++ le_bytes 2 field_len ++ le_bytes 2 len ++ field ++ more ++ tail, Ok tt)
  | _, _ => (out, Err FieldTooLarge)
  end.
Definition encode_two (a b more out : list Z) : list Z * res unit BodyError :=
  match u16_try_from (length a), u16_try_from (length b), u16_try_from (2 + length a + 2 + length b + length more) with
  | Some a_len, Some b_len, Some field_len =>
      (out ++ [STREAM_WIRE_BODY_VERSION] ++ le_bytes 2 field_len ++ le_bytes 2 a_len ++ a ++ le_bytes 2 b_len ++ b ++ more, Ok tt)
  | _, _, _ => (out, Err FieldTooLarge)
  end.

Record StreamDeclareBody := mk_stream_declare { sd_stream_id : list Z; sd_partition_count : Z; sd_priority : bool }.

Definition encode_stream_declare (req : StreamDeclareBody) (out : list Z) : list Z * res unit BodyError :=
  encode_one (sd_stream_id req)
    ((if 1 <? sd_partition_count req then le_bytes 4 (sd_partition_count req) else []) ++ (if sd_priority req then [1] else [])) [] out.

Definition decode_stream_declare (body : list Z) : res StreamDeclareBody BodyError :=
  let? (block, _) := read_block STREAM_WIRE_BODY_VERSION body in
  let? (stream_id, fr) := read_stream_id block in
  let '(partition_count, fr) := unwrap_or reader_u32 1 fr in
  let partition_count := if 1 <=? partition_count then partition_count else 1 in
  let '(priority, fr) := unwrap_or reader_u8 0 fr in
  Ok (mk_stream_declare stream_id partition_count (negb (priority =? 0))).

Record StreamInfoBody := mk_stream_info { si_stream_id : list Z }.

Definition encode_stream_info (req : StreamInfoBody) (out : list Z) : list Z * res unit BodyError := encode_one (si_stream_id req) [] [] out.
Definition decode_stream_info (body : list Z) : res StreamInfoBody BodyError :=
  let? (block, _) := read_block STREAM_WIRE_BODY_VERSION body in
  let? (stream_id, fr) := read_stream_id block in Ok (mk_stream_info stream_id).

Record StreamInfoResponseBody := mk_stream_info_response { sr_exists : bool; sr_head : Z }.
Definition STREAM_INFO_RESP_V1_FIELD_LEN : Z := 1 + 8.
Definition encode_stream_info_response (resp : StreamInfoResponseBody) (out : list Z) : list Z :=
  out ++ [STREAM_WIRE_BODY_VERSION] ++ le_bytes 2 STREAM_INFO_RESP_V1_FIELD_LEN ++ [if sr_exists resp then 1 else 0] ++ le_bytes 8 (sr_head resp).
Definition decode_stream_info_response (body : list Z) : res StreamInfoResponseBody BodyError :=
  let? (block, _) := read_block STREAM_WIRE_BODY_VERSION body in
  let '(exists_, fr) := unwrap_or reader_u8 0 block in
  let '(head, fr) := unwrap_or reader_u64 0 fr in
  Ok (mk_stream_info_response (exists_ =? 1) head).

Record PubToBody := mk_pub_to { pt_stream_id : list Z; pt_priority : Z; pt_pub_body : list Z }.
Definition encode_pub_to (req : PubToBody) (out : list Z) : list Z * res unit BodyError :=
  encode_one (pt_stream_id req) (nonzero_byte (pt_priority req)) (pt_pub_body req) out.
Definition decode_pub_to (body : list Z) : res PubToBody BodyError :=
  let? (block, pub_body) := read_block STREAM_WIRE_BODY_VERSION body in
  let? (stream_id, fr) := read_stream_id block in
  let '(priority, fr) := unwrap_or reader_u8 0 fr in
  Ok (mk_pub_to stream_id priority pub_body).

Definition SUBTO_FLAG_EPHEMERAL : Z := 1.
Record SubToBody := mk_sub_to { st_stream_id : list Z; st_group : list Z; st_partition : option Z; st_ephemeral : bool }.

Definition encode_sub_to (req : SubToBody) (out : list Z) : list Z * res unit BodyError :=
  let sub_flags := flags_of [(st_ephemeral req, SUBTO_FLAG_EPHEMERAL)] in
  encode_two (st_stream_id req) (st_group req)
    (match st_partition req with Some partition => le_bytes 4 partition | None => [] end ++ nonzero_byte sub_flags) out.

Definition decode_sub_to (body : list Z) : res SubToBody BodyError :=
  let? (block, _) := read_block STREAM_WIRE_BODY_VERSION body in
  let? (stream_id, fr) := read_stream_id block in
  let? (group, tail) := reader_var fr in
  let? (partition, sub_flags) :=
    match tail with
    | [] => Ok (None, 0)
    | [a] => Ok (None, a)
    | [a; b; c; d] => Ok (Some (le_val [a; b; c; d]), 0)
    | a :: b :: c :: d :: e :: _ => Ok (Some (le_val [a; b; c; d]), e)
    | _ => Ok (None, 0)
    end in
  Ok (mk_sub_to stream_id group partition (has_flag sub_flags SUBTO_FLAG_EPHEMERAL)).

(** ** Transactions *)

Definition MAX_TXN_ID_LEN : nat := 256.
Definition read_txn_id (r : list Z) : res (list Z * list Z) BodyError := read_capped MAX_TXN_ID_LEN r.

Record TxnPrepareBody := mk_txn_prepare { tp_txn_id : list Z; tp_stream_id : list Z; tp_pub_body : list Z }.
Definition encode_txn_prepare (req : TxnPrepareBody) (out : list Z) : list Z * res unit BodyError :=
  match u16_try_from (2 + length (tp_txn_id req) + 2 + length (tp_stream_id req)) with
  | Some field_len =>
      let out := out ++ [STREAM_WIRE_BODY_VERSION] ++ le_bytes 2 field_len in
      push! out := push_var out (tp_txn_id req) in
      push! out := push_var out (tp_stream_id req) in
      (out ++ tp_pub_body req, Ok tt)
  | None => (out, Err FieldTooLarge)
  end.
Definition decode_txn_prepare (body : list Z) : res TxnPrepareBody BodyError :=
  let? (block, pub_body) := read_block STREAM_WIRE_BODY_VERSION body in
  let? (txn_id, fr) := read_txn_id block in
  let? (stream_id, fr) := read_stream_id fr in
  Ok (mk_txn_prepare txn_id stream_id pub_body).

Record TxnResolveBody := mk_txn_resolve { tv_txn_id : list Z }.
Definition encode_txn_resolve (req : TxnResolveBody) (out : list Z) : list Z * res unit BodyError := encode_one (tv_txn_id req) [] [] out.
Definition decode_txn_resolve (body : list Z) : res TxnResolveBody BodyError :=
  let? (block, _) := read_block STREAM_WIRE_BODY_VERSION body in
  let? (txn_id, fr) := read_txn_id block in Ok (mk_txn_resolve txn_id).

Inductive TxnCheckDecision := TcCommit | TcRollback | TcUnknown.
Definition decision_as_u8 (d : TxnCheckDecision) : Z := match d with TcCommit => 0 | TcRollback => 1 | TcUnknown => 2 end.
Definition decision_from_u8 (raw : Z) : TxnCheckDecision := match raw with 0 => TcCommit | 1 => TcRollback | _ => TcUnknown end.

Record TxnCheckResultBody := mk_txn_check_result { tk_txn_id : list Z; tk_decision : TxnCheckDecision }.
Definition encode_txn_check_result (req : TxnCheckResultBody) (out : list Z) : list Z * res unit BodyError :=
  encode_one (tk_txn_id req) [decision_as_u8 (tk_decision req)] [] out.
Definition decode_txn_check_result (body : list Z) : res TxnCheckResultBody BodyError :=
  let? (block, _) := read_block STREAM_WIRE_BODY_VERSION body in
  let? (txn_id, fr) := read_txn_id block in
  let? (decision, fr) := reader_u8 fr in
  Ok (mk_txn_check_result txn_id (decision_from_u8 decision)).

Definition MAX_TXN_LISTEN_GROUP_LEN : nat := MAX_TXN_ID_LEN.
Record TxnListenBody := mk_txn_listen { tl_group : list Z }.
Definition encode_txn_listen (req : TxnListenBody) (out : list Z) : list Z * res unit BodyError := encode_one (tl_group req) [] [] out.
Definition decode_txn_listen (body : list Z) : res TxnListenBody BodyError :=
  let? (block, _) := read_block STREAM_WIRE_BODY_VERSION body in
  let? (group, fr) := read_capped MAX_TXN_LISTEN_GROUP_LEN block in Ok (mk_txn_listen group).

(** ** Subjects and pauses *)

Definition read_subject (r : list Z) : res (list Z * list Z) BodyError := read_capped MAX_STREAM_ID_LEN r.

Record BindSubjectBody := mk_bind_subject { bs_stream_id : list Z; bs_pattern : list Z }.
Definition encode_bind_subject (req : BindSubjectBody) (out : list Z) : list Z * res unit BodyError :=
  encode_two (bs_stream_id req) (bs_pattern req) [] out.
Definition decode_bind_subject (body : list Z) : res BindSubjectBody BodyError :=
  let? (block, _) := read_block STREAM_WIRE_BODY_VERSION body in
  let? (stream_id, fr) := read_stream_id block in
  let? (pattern, fr) := read_subject fr in
  Ok (mk_bind_subject stream_id pattern).

Record PubSubjectBody := mk_pub_subject { ps_subject : list Z; ps_pub_body : list Z }.
Definition encode_pub_subject (req : PubSubjectBody) (out : list Z) : list Z * res unit BodyError :=
  encode_one (ps_subject req) [] (ps_pub_body req) out.
Definition decode_pub_subject (body : list Z) : res PubSubjectBody BodyError :=
  let? (block, pub_body) := read_block STREAM_WIRE_BODY_VERSION body in
  let? (subject, fr) := read_subject block in
  Ok (mk_pub_subject subject pub_body).

Record SubSubjectBody := mk_sub_subject { ss_subject : list Z; ss_group : list Z; ss_filter_mode : Z }.
Definition encode_sub_subject (req : SubSubjectBody) (out : list Z) : list Z * res unit BodyError :=
  encode_two (ss_subject req) (ss_group req) (nonzero_byte (ss_filter_mode req)) out.
Definition decode_sub_subject (body : list Z) : res SubSubjectBody BodyError :=
  let? (block, _) := read_block STREAM_WIRE_BODY_VERSION body in
  let? (subject, fr) := read_subject block in
  let? (group, fr) := reader_var fr in
  let '(filter_mode, fr) := unwrap_or reader_u8 0 fr in
  Ok (mk_sub_subject subject group filter_mode).

Record PauseGroupBody := mk_pause_group { pg_stream_id : list Z; pg_group : list Z; pg_pause_ms : Z }.
Definition encode_pause_group (req : PauseGroupBody) (out : list Z) : list Z * res unit BodyError :=
  encode_two (pg_stream_id req) (pg_group req) (le_bytes 8 (pg_pause_ms req)) out.
Definition decode_pause_group (body : list Z) : res PauseGroupBody BodyError :=
  let? (block, _) := read_block STREAM_WIRE_BODY_VERSION body in
  let? (stream_id, fr) := read_stream_id block in
  let? (group, fr) := reader_var fr in
  let? (pause_ms, fr) := reader_u64 fr in
  Ok (mk_pause_group stream_id group pause_ms).
