(* ===== verification/WireExact.v ===== *)
(** * The wire: what a peer reads

    The bodies of [Messages] together: reading back what was written, writing
    again what was read, and the frames around them. *)

From S2P Require Import Prelude Bytes Subject Wire Messages.

(** ** All bodies *)

Inductive Body :=
| BPub (m : PubBody) | BAck (m : AckBody) | BDeliver (m : DeliverBody) | BDeliverBatch (m : DeliverBatchHeader) (records : list Z)
| BSub (m : SubBody) | BCumulativeAck (m : CumulativeAckBody) | BPubAck (m : PubAckBody) | BDeadLetter (m : DeadLetterBody)
| BTruncated (m : TruncatedBody) | BGapMarker (m : GapMarkerBody) | BProduceConfirm (m : ProduceConfirmBody) | BNotLeader (m : NotLeaderBody)
| BConnect (m : ConnectBody) (auth : option AuthCredential) | BPassword (username password : list Z) | BInfo (m : InfoBody) | BFetch (m : FetchBody)
| BStreamFetch (m : StreamFetchBody) | BStreamCommit (m : StreamCommitBody) | BStreamDeclare (m : StreamDeclareBody)
| BStreamInfo (m : StreamInfoBody) | BStreamInfoResponse (m : StreamInfoResponseBody) | BPubTo (m : PubToBody) | BSubTo (m : SubToBody)
| BTxnPrepare (m : TxnPrepareBody) | BTxnResolve (m : TxnResolveBody) | BTxnCheckResult (m : TxnCheckResultBody) | BTxnListen (m : TxnListenBody)
| BBindSubject (m : BindSubjectBody) | BPubSubject (m : PubSubjectBody) | BSubSubject (m : SubSubjectBody) | BPauseGroup (m : PauseGroupBody).

Inductive Kind :=
| KPub | KAck | KDeliver | KDeliverBatch | KSub | KCumulativeAck | KPubAck | KDeadLetter | KTruncated | KGapMarker | KProduceConfirm
| KNotLeader | KConnect | KPassword | KInfo | KFetch | KStreamFetch | KStreamCommit | KStreamDeclare | KStreamInfo | KStreamInfoResponse
| KPubTo | KSubTo | KTxnPrepare | KTxnResolve | KTxnCheckResult | KTxnListen | KBindSubject | KPubSubject | KSubSubject | KPauseGroup.

Definition kind_of (b : Body) : Kind :=
  match b with
  | BPub _ => KPub | BAck _ => KAck | BDeliver _ => KDeliver | BDeliverBatch _ _ => KDeliverBatch | BSub _ => KSub
  | BCumulativeAck _ => KCumulativeAck | BPubAck _ => KPubAck | BDeadLetter _ => KDeadLetter | BTruncated _ => KTruncated
  | BGapMarker _ => KGapMarker | BProduceConfirm _ => KProduceConfirm | BNotLeader _ => KNotLeader | BConnect _ _ => KConnect
  | BPassword _ _ => KPassword | BInfo _ => KInfo | BFetch _ => KFetch | BStreamFetch _ => KStreamFetch | BStreamCommit _ => KStreamCommit
  | BStreamDeclare _ => KStreamDeclare | BStreamInfo _ => KStreamInfo | BStreamInfoResponse _ => KStreamInfoResponse | BPubTo _ => KPubTo
  | BSubTo _ => KSubTo | BTxnPrepare _ => KTxnPrepare | BTxnResolve _ => KTxnResolve | BTxnCheckResult _ => KTxnCheckResult
  | BTxnListen _ => KTxnListen | BBindSubject _ => KBindSubject | BPubSubject _ => KPubSubject | BSubSubject _ => KSubSubject
  | BPauseGroup _ => KPauseGroup
  end.

(** A client writes its credential after the handshake body. *)
Definition encode_body (b : Body) (out : list Z) : list Z * res unit BodyError :=
  match b with
  | BPub m => encode_pub m out | BAck m => (encode_ack m out, Ok tt) | BDeliver m => encode_deliver m out
  | BDeliverBatch m records => (encode_deliver_batch m records out, Ok tt) | BSub m => (encode_sub m out, Ok tt)
  | BCumulativeAck m => (encode_cumulative_ack m out, Ok tt) | BPubAck m => (encode_pub_ack m out, Ok tt)
  | BDeadLetter m => (encode_dead_letter m out, Ok tt) | BTruncated m => (encode_truncated m out, Ok tt)
  | BGapMarker m => (encode_gap_marker m out, Ok tt) | BProduceConfirm m => (encode_produce_confirm m out, Ok tt)
  | BNotLeader m => encode_not_leader m out
  | BConnect m auth =>
      let out := encode_connect m out in
      match auth with Some cred => append_connect_auth out cred | None => (out, Ok tt) end
  | BPassword username password => push! v := pack_password_material username password in (out ++ v, Ok tt)
  | BInfo m => (encode_info m out, Ok tt) | BFetch m => (encode_fetch m out, Ok tt) | BStreamFetch m => (encode_stream_fetch m out, Ok tt)
  | BStreamCommit m => (encode_stream_commit m out, Ok tt) | BStreamDeclare m => encode_stream_declare m out
  | BStreamInfo m => encode_stream_info m out | BStreamInfoResponse m => (encode_stream_info_response m out, Ok tt)
  | BPubTo m => encode_pub_to m out | BSubTo m => encode_sub_to m out | BTxnPrepare m => encode_txn_prepare m out
  | BTxnResolve m => encode_txn_resolve m out | BTxnCheckResult m => encode_txn_check_result m out | BTxnListen m => encode_txn_listen m out
  | BBindSubject m => encode_bind_subject m out | BPubSubject m => encode_pub_subject m out | BSubSubject m => encode_sub_subject m out
  | BPauseGroup m => encode_pause_group m out
  end.

Definition decode_body (k : Kind) (body : list Z) : res Body BodyError :=
  match k with
  | KPub => let? m := decode_pub body in Ok (BPub m)
  | KAck => let? m := decode_ack body in Ok (BAck m)
  | KDeliver => let? m := decode_deliver body in Ok (BDeliver m)
  | KDeliverBatch => let? (m, records) := decode_deliver_batch body in Ok (BDeliverBatch m records)
  | KSub => Ok (BSub (decode_sub body))
  | KCumulativeAck => let? m := decode_cumulative_ack body in Ok (BCumulativeAck m)
  | KPubAck => let? m := decode_pub_ack body in Ok (BPubAck m)
  | KDeadLetter => let? m := decode_dead_letter body in Ok (BDeadLetter m)
  | KTruncated => let? m := decode_truncated body in Ok (BTruncated m)
  | KGapMarker => let? m := decode_gap_marker body in Ok (BGapMarker m)
  | KProduceConfirm => let? m := decode_produce_confirm body in Ok (BProduceConfirm m)
  | KNotLeader => let? m := decode_not_leader body in Ok (BNotLeader m)
  | KConnect => let? m := decode_connect body in let? auth := parse_connect_auth body in Ok (BConnect m auth)
  | KPassword => let? (username, password) := unpack_password_material body in Ok (BPassword username password)
  | KInfo => let? m := decode_info body in Ok (BInfo m)
  | KFetch => let? m := decode_fetch body in Ok (BFetch m)
  | KStreamFetch => let? m := decode_stream_fetch body in Ok (BStreamFetch m)
  | KStreamCommit => let? m := decode_stream_commit body in Ok (BStreamCommit m)
  | KStreamDeclare => let? m := decode_stream_declare body in Ok (BStreamDeclare m)
  | KStreamInfo => let? m := decode_stream_info body in Ok (BStreamInfo m)
  | KStreamInfoResponse => let? m := decode_stream_info_response body in Ok (BStreamInfoResponse m)
  | KPubTo => let? m := decode_pub_to body in Ok (BPubTo m)
  | KSubTo => let? m := decode_sub_to body in Ok (BSubTo m)
  | KTxnPrepare => let? m := decode_txn_prepare body in Ok (BTxnPrepare m)
  | KTxnResolve => let? m := decode_txn_resolve body in Ok (BTxnResolve m)
  | KTxnCheckResult => let? m := decode_txn_check_result body in Ok (BTxnCheckResult m)
  | KTxnListen => let? m := decode_txn_listen body in Ok (BTxnListen m)
  | KBindSubject => let? m := decode_bind_subject body in Ok (BBindSubject m)
  | KPubSubject => let? m := decode_pub_subject body in Ok (BPubSubject m)
  | KSubSubject => let? m := decode_sub_subject body in Ok (BSubSubject m)
  | KPauseGroup => let? m := decode_pause_group body in Ok (BPauseGroup m)
  end.

(** *** Well-formed bodies *)

Definition opt_u8 (o : option Z) : Prop := match o with Some x => is_u8 x | None => True end.
Definition opt_u32 (o : option Z) : Prop := match o with Some x => is_u32 x | None => True end.
Definition opt_u64 (o : option Z) : Prop := match o with Some x => is_u64 x | None => True end.
Definition capped (cap : nat) (f : list Z) : Prop := (length f <= cap)%nat.

(** The numbers have their width, the ids stay within the caps the decoders
    apply, a string is UTF-8. *)
Definition body_ok (b : Body) : Prop :=
  match b with
  | BPub m => is_u8 (pb_flags m) /\ is_u64 (pb_timestamp_ms m) /\
      match pb_dedup m with Some d => is_u64 (pd_epoch d) /\ opt_u64 (pd_seq d) | None => True end
  | BAck m => is_u64 (ak_offset m) /\ is_u64 (ak_generation m) /\ is_u64 (ak_delay_ms m)
  | BDeliver m => is_u64 (dl_offset m) /\ is_u64 (dl_generation m) /\ is_u8 (dl_flags m) /\ is_u64 (dl_timestamp_ms m)
  | BDeliverBatch m _ => is_u64 (bh_first_offset m) /\ is_u64 (bh_generation m) /\ is_u32 (bh_record_count m)
  | BCumulativeAck m => is_u64 (ca_up_to m)
  | BPubAck m => is_u64 (pa_offset m)
  | BDeadLetter m => is_u64 (da_offset m) /\ is_u8 (da_reason m)
  | BTruncated m => is_u64 (tr_earliest_retained m) /\ is_u64 (tr_skipped m)
  | BGapMarker m => is_u64 (gm_from m) /\ is_u64 (gm_to m) /\ is_u64 (gm_bytes_skipped m) /\ is_u8 (gm_reason m)
  | BProduceConfirm m => is_u64 (pc_offset m) /\ is_u8 (pc_status m)
  | BNotLeader m => utf8_valid (nl_leader_hint m) = true
  | BConnect m _ => opt_u32 (cn_requested_credit m) /\ opt_u64 (cn_requested_credit_bytes m) /\ opt_u8 (cn_default_ack_level m) /\
      opt_u8 (cn_default_tier m)
  | BInfo m =>
      match in_credit m with Some c => is_u32 (cr_negotiated c) /\ is_u32 (cr_cap c) | None => True end /\
      match in_credit_bytes m with Some c => is_u64 (cr_negotiated c) /\ is_u64 (cr_cap c) | None => True end /\
      opt_u8 (in_default_ack_level m) /\ opt_u8 (in_default_tier m)
  | BFetch m => is_u32 (fe_max_records m) /\ is_u64 (fe_max_bytes m) /\ is_u64 (fe_expires_ms m)
  | BStreamFetch m => is_u64 (sf_start_offset m) /\ is_u32 (sf_max_records m) /\ is_u64 (sf_max_bytes m) /\
      opt_u64 (sf_start_time_ms m) /\ opt_u64 (sf_end_time_ms m)
  | BStreamCommit m => is_u64 (sc_up_to m)
  | BStreamDeclare m => capped MAX_STREAM_ID_LEN (sd_stream_id m) /\ is_u32 (sd_partition_count m)
  | BStreamInfo m => capped MAX_STREAM_ID_LEN (si_stream_id m)
  | BStreamInfoResponse m => is_u64 (sr_head m)
  | BPubTo m => capped MAX_STREAM_ID_LEN (pt_stream_id m) /\ is_u8 (pt_priority m)
  | BSubTo m => capped MAX_STREAM_ID_LEN (st_stream_id m) /\ opt_u32 (st_partition m)
  | BTxnPrepare m => capped MAX_TXN_ID_LEN (tp_txn_id m) /\ capped MAX_STREAM_ID_LEN (tp_stream_id m)
  | BTxnResolve m => capped MAX_TXN_ID_LEN (tv_txn_id m)
  | BTxnCheckResult m => capped MAX_TXN_ID_LEN (tk_txn_id m)
  | BTxnListen m => capped MAX_TXN_LISTEN_GROUP_LEN (tl_group m)
  | BBindSubject m => capped MAX_STREAM_ID_LEN (bs_stream_id m) /\ capped MAX_STREAM_ID_LEN (bs_pattern m)
  | BPubSubject m => capped MAX_STREAM_ID_LEN (ps_subject m)
  | BSubSubject m => capped MAX_STREAM_ID_LEN (ss_subject m) /\ is_u8 (ss_filter_mode m)
  | BPauseGroup m => capped MAX_STREAM_ID_LEN (pg_stream_id m) /\ is_u64 (pg_pause_ms m)
  | BSub _ | BPassword _ _ => True
  end.

(** The lengths a body writes in 16 bits. *)
Definition wire_lengths (b : Body) : list nat :=
  match b with
  | BPub m => [length (pb_key m); length (pb_headers m)] ++
      match pb_dedup m with Some d => [length (pd_producer_id d); length (pd_msg_id d)] | None => [] end
  | BDeliver m => [length (dl_key m); length (dl_headers m)]
  | BNotLeader m => [length (nl_leader_hint m)]
  | BConnect _ (Some cred) => [length (au_material cred)]
  | BPassword username password => [length username; length password]
  | BStreamDeclare m => [(2 + length (sd_stream_id m) + ((if (1 <? sd_partition_count m)%Z then 4 else 0) + if sd_priority m then 1 else 0))%nat]
  | BStreamInfo m => [(2 + length (si_stream_id m))%nat]
  | BPubTo m => [(2 + length (pt_stream_id m) + length (nonzero_byte (pt_priority m)))%nat]
  | BSubTo m => [(2 + length (st_stream_id m) + 2 + length (st_group m) +
      ((if st_partition m then 4 else 0) + if st_ephemeral m then 1 else 0))%nat]
  | BTxnPrepare m => [(2 + length (tp_txn_id m) + 2 + length (tp_stream_id m))%nat]
  | BTxnResolve m => [(2 + length (tv_txn_id m))%nat]
  | BTxnCheckResult m => [(2 + length (tk_txn_id m) + 1)%nat]
  | BTxnListen m => [(2 + length (tl_group m))%nat]
  | BBindSubject m => [(2 + length (bs_stream_id m) + 2 + length (bs_pattern m))%nat]
  | BPubSubject m => [(2 + length (ps_subject m))%nat]
  | BSubSubject m => [(2 + length (ss_subject m) + 2 + length (ss_group m) + length (nonzero_byte (ss_filter_mode m)))%nat]
  | BPauseGroup m => [(2 + length (pg_stream_id m) + 2 + length (pg_group m) + 8)%nat]
  | _ => []
  end.
Definition fits_wire (b : Body) : Prop := Forall (fun n => Z.of_nat n <= u16_max) (wire_lengths b).

(** What the wire does not tell apart: the flags a publish derives, a time bound
    of 0, a partition count below 1. *)
Definition nonzero (o : option Z) : option Z := match o with Some x => sentinel x | None => None end.
Definition normal (b : Body) : Body :=
  match b with
  | BPub m => BPub (mk_pub (pub_wire_flags m) (pb_timestamp_ms m) (pb_key m) (pb_headers m) (pb_dedup m) (pb_fire_and_forget m) (pb_payload m))
  | BStreamFetch m => BStreamFetch (mk_stream_fetch (sf_start_offset m) (sf_max_records m) (sf_max_bytes m)
      (nonzero (sf_start_time_ms m)) (nonzero (sf_end_time_ms m)))
  | BStreamDeclare m => BStreamDeclare (mk_stream_declare (sd_stream_id m) (Z.max 1 (sd_partition_count m)) (sd_priority m))
  | _ => b
  end.

(** ** Reading back what was written *)

(** *** Reads at the end of a buffer *)

Lemma reader_u32_end x : is_u32 x -> reader_u32 (le_bytes 4 x) = Ok (x, []).
Proof. intros. rewrite <- (app_nil_r (le_bytes 4 x)). by apply reader_u32_app. Qed.
Lemma reader_u64_end x : is_u64 x -> reader_u64 (le_bytes 8 x) = Ok (x, []).
Proof. intros. rewrite <- (app_nil_r (le_bytes 8 x)). by apply reader_u64_app. Qed.
Lemma reader_var_end f : short f -> reader_var (le_bytes 2 (Z.of_nat (length f)) ++ f) = Ok (f, []).
Proof. intros. rewrite <- (app_nil_r f) at 2. by apply reader_var_app. Qed.

Lemma unwrap_or_ok {A} (read : list Z -> res (A * list Z) BodyError) d r p : read r = Ok p -> unwrap_or read d r = p.
Proof. intros Hr. unfold unwrap_or. rewrite Hr. by destruct p. Qed.

Lemma read_if_cons x r : read_if true (x :: r) = (Some x, r).
Proof. unfold read_if, unwrap_or. by rewrite reader_u8_cons. Qed.

Lemma single_app {A} (x : A) l : [x] ++ l = x :: l.
Proof. done. Qed.

(** *** Blocks *)

Definition block_bytes (version : Z) (block : list Z) : list Z := [version] ++ le_bytes 2 (Z.of_nat (length block)) ++ block.
Definition one_field (f more : list Z) : list Z := le_bytes 2 (Z.of_nat (length f)) ++ f ++ more.
Definition two_fields (a b more : list Z) : list Z := one_field a (one_field b more).

Lemma length_one_field f more : length (one_field f more) = (2 + length f + length more)%nat.
Proof. unfold one_field. rewrite !length_app, length_le_bytes. lia. Qed.

Lemma read_block_app v block tail : short block -> read_block v (block_bytes v block ++ tail) = Ok (block, tail).
Proof.
  intros Hs. unfold read_block, block_bytes. rewrite <- !app_assoc, single_app, reader_u8_cons. cbn [res_bind]. rewrite Z.eqb_refl. cbn [negb].
  rewrite reader_u16_app by (by apply short_u16). cbn [res_bind]. rewrite Nat2Z.id. apply reader_take_app.
Qed.

Lemma read_block_end v block : short block -> read_block v (block_bytes v block) = Ok (block, []).
Proof. intros. rewrite <- (app_nil_r (block_bytes v block)). by apply read_block_app. Qed.

Lemma block_bytes_not_nil v block tail : block_bytes v block ++ tail <> [].
Proof. done. Qed.

Lemma read_capped_app cap f more :
  capped cap f -> Z.of_nat cap <= u16_max -> read_capped cap (one_field f more) = Ok (f, more).
Proof.
  unfold capped. intros Hc Hu. unfold read_capped, one_field. rewrite reader_u16_app by (unfold is_u16; lia). cbn [res_bind].
  rewrite Nat2Z.id. destruct (Nat.ltb_spec cap (length f)); [lia|]. apply reader_take_app.
Qed.

Lemma reader_var_field f more : short f -> reader_var (one_field f more) = Ok (f, more).
Proof. apply reader_var_app. Qed.

Lemma encode_one_ok f more tail out :
  short (one_field f more) -> encode_one f more tail out = (out ++ block_bytes STREAM_WIRE_BODY_VERSION (one_field f more) ++ tail, Ok tt).
Proof.
  unfold short, encode_one, block_bytes. rewrite length_one_field. intros Hs. rewrite !u16_try_from_Some by lia. unfold one_field. by rewrite <- !app_assoc.
Qed.

Lemma encode_two_ok a b more out :
  short (two_fields a b more) -> encode_two a b more out = (out ++ block_bytes STREAM_WIRE_BODY_VERSION (two_fields a b more), Ok tt).
Proof.
  unfold short, encode_two, block_bytes, two_fields. rewrite !length_one_field. intros Hs. rewrite !u16_try_from_Some by lia.
  replace (2 + length a + (2 + length b + length more))%nat with (2 + length a + 2 + length b + length more)%nat by lia.
  unfold one_field. done.
Qed.

Lemma encode_one_err f more tail out : ~ short (one_field f more) -> encode_one f more tail out = (out, Err FieldTooLarge).
Proof.
  unfold short, encode_one. rewrite length_one_field. intros Hs. destruct (u16_try_from (length f)); [|done].
  destruct (u16_try_from (2 + length f + length more)) eqn:Hx; [|done]. apply u16_try_from_inv in Hx as [_ Hx]. done.
Qed.

Lemma encode_two_err a b more out : ~ short (two_fields a b more) -> encode_two a b more out = (out, Err FieldTooLarge).
Proof.
  unfold short, encode_two, two_fields. rewrite !length_one_field. intros Hs. destruct (u16_try_from (length a)); [|done].
  destruct (u16_try_from (length b)); [|done]. destruct (u16_try_from _) eqn:Hx; [|done]. apply u16_try_from_inv in Hx as [_ Hx]. lia.
Qed.

(** *** Flags *)

Lemma has_flag_bit x k : 0 <= k -> has_flag x (2 ^ k) = Z.testbit x k.
Proof.
  intros Hk. unfold has_flag. destruct (Z.testbit x k) eqn:Hb.
  - destruct (Z.eqb_spec (Z.land x (2 ^ k)) 0) as [Hz|]; [|done]. apply (f_equal (fun z => Z.testbit z k)) in Hz.
    by rewrite Z.land_spec, Hb, Z.pow2_bits_true, Z.bits_0 in Hz.
  - destruct (Z.eqb_spec (Z.land x (2 ^ k)) 0) as [|Hz]; [done|]. destruct Hz. apply Z.bits_inj'. intros n Hn.
    rewrite Z.land_spec, Z.bits_0. destruct (decide (n = k)) as [->|Hne]; [by rewrite Hb|]. rewrite Z.pow2_bits_false by lia. apply andb_false_r.
Qed.

(** A property of the bytes that holds of each of them. *)
Lemma u8_forall (P : Z -> bool) : forallb P (Z.of_nat <$> seq 0 256) = true -> forall x, is_u8 x -> P x = true.
Proof.
  intros Hf x Hx. rewrite forallb_forall in Hf. apply Hf, list_elem_of_In, list_elem_of_fmap. exists (Z.to_nat x).
  unfold is_u8, u8_max in Hx. split; [lia|]. apply elem_of_seq. lia.
Qed.

Lemma pub_flags_bits m :
  has_flag (pub_wire_flags m) PUB_FLAG_HAS_DEDUP = bool_decide (is_Some (pb_dedup m)) /\
  has_flag (pub_wire_flags m) PUB_FLAG_HAS_SEQ = match pb_dedup m with Some d => bool_decide (is_Some (pd_seq d)) | None => false end /\
  has_flag (pub_wire_flags m) PUB_FLAG_FIRE_AND_FORGET = pb_fire_and_forget m.
Proof.
  change PUB_FLAG_HAS_DEDUP with (2 ^ 7). change PUB_FLAG_HAS_SEQ with (2 ^ 5). change PUB_FLAG_FIRE_AND_FORGET with (2 ^ 6).
  rewrite !has_flag_bit by lia. unfold pub_wire_flags. change (Z.lxor u8_max _) with 31.
  change PUB_FLAG_HAS_DEDUP with 128. change PUB_FLAG_HAS_SEQ with 32. change PUB_FLAG_FIRE_AND_FORGET with 64.
  assert (Hz : forall k, 5 <= k < 8 -> Z.testbit (Z.land (pb_flags m) 31) k = false).
  { intros k Hk. rewrite Z.land_spec. replace (Z.testbit 31 k) with false; [apply andb_false_r|].
    assert (k = 5 \/ k = 6 \/ k = 7) as [->|[->| ->]] by lia; done. }
  destruct m as [fl ts ky hd dd ff pl]. cbn [pb_flags pb_dedup pb_fire_and_forget] in *.
  destruct dd as [[pid ep mid [sq|]]|], ff; cbn [pd_seq]; rewrite ?Z.lor_spec, ?Hz by lia; done.
Qed.

(** *** Round trips *)

(** Read fields from the front of a buffer whose layout is known. *)
Ltac wire_read :=
  repeat first
  [ rewrite single_app | rewrite reader_u8_cons
  | rewrite reader_u64_app by assumption | rewrite reader_u32_app by assumption
  | rewrite reader_u64_end by assumption | rewrite reader_u32_end by assumption
  | rewrite reader_var_app by assumption | rewrite reader_var_end by assumption | rewrite reader_var_field by assumption
  | rewrite read_block_app by assumption | rewrite read_block_end by assumption
  | rewrite read_capped_app by (assumption || done)
  | rewrite read_if_cons
  | progress cbn [res_bind out_bind negb fst snd] ].

Lemma out_bind_Ok {E} out (k : list Z -> list Z * res unit E) : out_bind (out, Ok tt) k = k out.
Proof. done. Qed.

(** Append fields known to be short enough. *)
Ltac wire_write := repeat first [rewrite push_var_short by assumption | rewrite out_bind_Ok; cbv beta zeta]; rewrite <- ?app_assoc.

Definition roundtrips (b : Body) : Prop :=
  exists bytes, (forall out, encode_body b out = (out ++ bytes, Ok tt)) /\ decode_body (kind_of b) bytes = Ok (normal b).

Lemma fixed_roundtrip b :
  body_ok b ->
  match b with
  | BAck _ | BSub _ | BCumulativeAck _ | BPubAck _ | BDeadLetter _ | BTruncated _ | BGapMarker _ | BProduceConfirm _ | BStreamCommit _ => roundtrips b
  | _ => True
  end.
Proof.
  destruct b as [m|m|m|m records|m|m|m|m|m|m|m|m|m auth|u pw|m|m|m|m|m|m|m|m|m|m|m|m|m|m|m|m|m]; intros Hok; try exact I;
    destruct m; cbn in Hok; destruct_and?; (eexists; split; [intros out; reflexivity|]); unfold decode_body, kind_of;
    [unfold decode_ack; wire_read; destruct ak_op; cbn [ack_op_as_u8 ack_op_from_u8 res_bind]; wire_read|reflexivity
    |unfold decode_cumulative_ack|unfold decode_pub_ack|unfold decode_dead_letter|unfold decode_truncated|unfold decode_gap_marker
    |unfold decode_produce_confirm|unfold decode_stream_commit]; wire_read; reflexivity.
Qed.

Lemma pub_roundtrip m : body_ok (BPub m) -> fits_wire (BPub m) -> roundtrips (BPub m).
Proof.
  intros (Hf & Ht & Hd) Hs. destruct (pub_flags_bits m) as (B1 & B2 & B3). unfold fits_wire in Hs. cbn [wire_lengths app] in Hs.
  apply Forall_cons in Hs as [Hk Hs]. apply Forall_cons in Hs as [Hh Hs]. fold (short (pb_key m)) in Hk. fold (short (pb_headers m)) in Hh.
  unfold roundtrips, encode_body, decode_body, kind_of, normal, encode_pub, decode_pub. set (flags := pub_wire_flags m) in *.
  destruct m as [fl ts ky hd dd ff pl]. cbn [pb_flags pb_timestamp_ms pb_key pb_headers pb_dedup pb_fire_and_forget pb_payload] in *.
  destruct dd as [[pid ep mid sq]|]; cbn [pd_producer_id pd_epoch pd_msg_id pd_seq] in *.
  - apply Forall_cons in Hs as [Hp Hs]. apply Forall_cons in Hs as [Hm _]. fold (short pid) in Hp. fold (short mid) in Hm. destruct Hd as [He Hq].
    destruct sq as [sq|]; (eexists; split; [intros out; wire_write; reflexivity|]);
      wire_read; rewrite B1; wire_read; rewrite B2; wire_read; by rewrite B3.
  - eexists; split; [intros out; wire_write; reflexivity|]. wire_read. rewrite B1. cbn. rewrite B2. cbn. by rewrite B3.
Qed.

Lemma framed_roundtrip b :
  body_ok b -> fits_wire b ->
  match b with BDeliver _ | BDeliverBatch _ _ | BNotLeader _ | BPassword _ _ | BFetch _ | BStreamInfoResponse _ => roundtrips b | _ => True end.
Proof.
  destruct b as [m|m|m|m records|m|m|m|m|m|m|m|m|m auth|u pw|m|m|m|m|m|m|m|m|m|m|m|m|m|m|m|m|m]; intros Hok Hf; try exact I.
  - destruct m as [off gen fl ts ky hd pl]. cbn in Hok. destruct_and?. apply Forall_cons in Hf as [Hk Hf]. apply Forall_cons in Hf as [Hh _].
    cbn in Hk, Hh. fold (short ky) in Hk. fold (short hd) in Hh. eexists. split.
    + intros out. unfold encode_body, encode_deliver. cbn [dl_key dl_headers]. wire_write. reflexivity.
    + unfold decode_body, kind_of, decode_deliver. cbn [dl_offset dl_generation dl_flags dl_timestamp_ms dl_key dl_headers dl_payload]. by wire_read.
  - destruct m as [fo gen rc]. cbn in Hok. destruct_and?. exists (block_bytes 1 (le_bytes 8 fo ++ le_bytes 8 gen ++ le_bytes 4 rc) ++ records).
    assert (Hl : length (le_bytes 8 fo ++ le_bytes 8 gen ++ le_bytes 4 rc) = 20%nat) by (by rewrite !length_app, !length_le_bytes).
    split; [intros out; unfold block_bytes; rewrite Hl; unfold encode_body, encode_deliver_batch, write_deliver_batch_header; by rewrite <- !app_assoc|].
    unfold decode_body, kind_of, decode_deliver_batch. rewrite read_block_app by (unfold short, u16_max; lia). cbn [res_bind].
    by rewrite (unwrap_or_ok _ _ _ _ (reader_u64_app fo _ ltac:(assumption))), (unwrap_or_ok _ _ _ _ (reader_u64_app gen _ ltac:(assumption))),
      (unwrap_or_ok _ _ _ _ (reader_u32_end rc ltac:(assumption))).
  - destruct m as [h]. cbn in Hok. apply Forall_cons in Hf as [Hh _]. cbn in Hh. fold (short h) in Hh. eexists. split.
    + intros out. unfold encode_body, encode_not_leader. cbn [nl_leader_hint]. wire_write. reflexivity.
    + unfold decode_body, kind_of, decode_not_leader. cbn [nl_leader_hint]. wire_read. by rewrite Hok.
  - apply Forall_cons in Hf as [Hu Hf]. apply Forall_cons in Hf as [Hp _]. fold (short u) in Hu. fold (short pw) in Hp. eexists. split.
    + intros out. unfold encode_body, pack_password_material. wire_write. reflexivity.
    + unfold decode_body, kind_of, unpack_password_material. rewrite ?app_nil_l, <- ?app_assoc. by wire_read.
  - destruct m as [mr mb ex nw]. cbn in Hok. destruct_and?. set (flags := flags_of [(nw, FETCH_FLAG_NO_WAIT)]).
    exists (block_bytes 1 ([flags] ++ le_bytes 4 mr ++ le_bytes 8 mb ++ le_bytes 8 ex)).
    assert (Hl : length ([flags] ++ le_bytes 4 mr ++ le_bytes 8 mb ++ le_bytes 8 ex) = 21%nat) by (by rewrite !length_app, !length_le_bytes).
    split; [intros out; unfold block_bytes; rewrite Hl; done|].
    unfold decode_body, kind_of, decode_fetch. rewrite read_block_end by (unfold short, u16_max; lia). cbn [res_bind].
    rewrite single_app, (unwrap_or_ok _ _ _ _ (reader_u8_cons flags _)), (unwrap_or_ok _ _ _ _ (reader_u32_app mr _ ltac:(assumption))),
      (unwrap_or_ok _ _ _ _ (reader_u64_app mb _ ltac:(assumption))), (unwrap_or_ok _ _ _ _ (reader_u64_end ex ltac:(assumption))).
    cbn [res_bind]. unfold flags. by destruct nw.
  - destruct m as [ex head]. cbn in Hok. exists (block_bytes 1 ([if ex then 1 else 0] ++ le_bytes 8 head)).
    assert (Hl : length ([if ex then 1 else 0] ++ le_bytes 8 head) = 9%nat) by (by rewrite !length_app, !length_le_bytes).
    split; [intros out; unfold block_bytes; rewrite Hl; done|].
    unfold decode_body, kind_of, decode_stream_info_response. rewrite read_block_end by (unfold short, u16_max; lia). cbn [res_bind].
    rewrite single_app, (unwrap_or_ok _ _ _ _ (reader_u8_cons _ _)), (unwrap_or_ok _ _ _ _ (reader_u64_end head Hok)). by destruct ex.
Qed.

Lemma flags8 b0 b1 b2 b3 b4 b5 b6 b7 :
  let f := flags_of [(b0, 1); (b1, 2); (b2, 4); (b3, 8); (b4, 16); (b5, 32); (b6, 64); (b7, 128)] in
  has_flag f 1 = b0 /\ has_flag f 2 = b1 /\ has_flag f 4 = b2 /\ has_flag f 8 = b3 /\
  has_flag f 16 = b4 /\ has_flag f 32 = b5 /\ has_flag f 64 = b6 /\ has_flag f 128 = b7.
Proof. destruct b0, b1, b2, b3, b4, b5, b6, b7; vm_compute; auto 20. Qed.

Lemma flags3 b0 b1 b2 :
  let f := flags_of [(b0, 1); (b1, 2); (b2, 4)] in has_flag f 1 = b0 /\ has_flag f 2 = b1 /\ has_flag f 4 = b2.
Proof. destruct b0, b1, b2; vm_compute; auto. Qed.

(** The optional bytes at the end of a handshake block. *)
Lemma optional_bytes level tier flags2 :
  let bytes := opt_byte level ++ opt_byte tier ++ nonzero_byte flags2 in
  let '(l, fr) := read_if (bool_decide (is_Some level)) bytes in
  let '(t, fr) := read_if (bool_decide (is_Some tier)) fr in
  l = level /\ t = tier /\ fst (unwrap_or reader_u8 0 fr) = flags2.
Proof.
  unfold nonzero_byte. destruct level, tier, (Z.eqb_spec flags2 0) as [->|]; cbn [bool_decide opt_byte app];
    rewrite ?read_if_cons; unfold read_if; cbn; done.
Qed.

Definition connect_block (m : ConnectBody) : list Z :=
  [connect_flags m] ++ le_bytes 4 (default 0 (cn_requested_credit m)) ++ le_bytes 8 (default 0 (cn_requested_credit_bytes m)) ++
  opt_byte (cn_default_ack_level m) ++ opt_byte (cn_default_tier m) ++ nonzero_byte (connect_flags2 m).

Lemma length_opt_byte o : Z.of_nat (length (opt_byte o)) = opt_len o.
Proof. by destruct o. Qed.
Lemma length_nonzero_byte x : Z.of_nat (length (nonzero_byte x)) = if x =? 0 then 0 else 1.
Proof. unfold nonzero_byte. by destruct (x =? 0). Qed.

Lemma length_connect_block m :
  Z.of_nat (length (connect_block m)) =
  CONNECT_V1_FIELD_LEN + opt_len (cn_default_ack_level m) + opt_len (cn_default_tier m) + (if connect_flags2 m =? 0 then 0 else 1).
Proof.
  unfold connect_block, CONNECT_V1_FIELD_LEN. rewrite !length_app, !length_le_bytes, !Nat2Z.inj_add, !length_opt_byte, length_nonzero_byte. cbn [length]. lia.
Qed.

Lemma opt_len_bound o : 0 <= opt_len o <= 1.
Proof. destruct o; cbn; lia. Qed.

Lemma connect_block_short m : short (connect_block m).
Proof.
  unfold short. rewrite length_connect_block. pose proof (opt_len_bound (cn_default_ack_level m)). pose proof (opt_len_bound (cn_default_tier m)).
  unfold CONNECT_V1_FIELD_LEN, u16_max. destruct (_ =? 0); lia.
Qed.

Lemma encode_connect_block m out : encode_connect m out = out ++ block_bytes HANDSHAKE_BODY_VERSION (connect_block m).
Proof. unfold encode_connect, block_bytes. rewrite length_connect_block. done. Qed.

Lemma connect_flags_bits m :
  has_flag (connect_flags m) CONNECT_FLAG_HAS_CREDIT = bool_decide (is_Some (cn_requested_credit m)) /\
  has_flag (connect_flags m) CONNECT_FLAG_HAS_CREDIT_BYTES = bool_decide (is_Some (cn_requested_credit_bytes m)) /\
  has_flag (connect_flags m) CONNECT_FLAG_WANTS_GAP_MARKER = cn_wants_gap_marker m /\
  has_flag (connect_flags m) CONNECT_FLAG_HAS_DEFAULT_ACK_LEVEL = bool_decide (is_Some (cn_default_ack_level m)) /\
  has_flag (connect_flags m) CONNECT_FLAG_UNDERSTANDS_STREAMING = cn_understands_streaming m /\
  has_flag (connect_flags m) CONNECT_FLAG_HAS_DEFAULT_TIER = bool_decide (is_Some (cn_default_tier m)) /\
  has_flag (connect_flags m) CONNECT_FLAG_UNDERSTANDS_DELIVER_BATCH = cn_understands_deliver_batch m /\
  has_flag (connect_flags m) CONNECT_FLAG_UNDERSTANDS_STREAMS = cn_understands_streams m /\
  has_flag (connect_flags2 m) CONNECT_FLAG2_COMPRESSED_DELIVERY = cn_understands_compressed_delivery m /\
  has_flag (connect_flags2 m) CONNECT_FLAG2_WANTS_SUBJECT_FILTER = cn_wants_subject_filter m /\
  has_flag (connect_flags2 m) CONNECT_FLAG2_WANTS_EPHEMERAL_GROUPS = cn_wants_ephemeral_groups m.
Proof.
  destruct (flags8 (bool_decide (is_Some (cn_requested_credit m))) (bool_decide (is_Some (cn_requested_credit_bytes m))) (cn_wants_gap_marker m)
    (bool_decide (is_Some (cn_default_ack_level m))) (cn_understands_streaming m) (bool_decide (is_Some (cn_default_tier m)))
    (cn_understands_deliver_batch m) (cn_understands_streams m)) as (F0 & F1 & F2 & F3 & F4 & F5 & F6 & F7).
  destruct (flags3 (cn_understands_compressed_delivery m) (cn_wants_subject_filter m) (cn_wants_ephemeral_groups m)) as (G0 & G1 & G2).
  split_and!; assumption.
Qed.

Lemma decode_connect_block m tail :
  body_ok (BConnect m None) -> decode_connect (block_bytes HANDSHAKE_BODY_VERSION (connect_block m) ++ tail) = Ok m.
Proof.
  intros (Hc & Hcb & _ & _). unfold decode_connect. rewrite decide_False by done. rewrite read_block_app by apply connect_block_short. cbn [res_bind].
  unfold connect_block. rewrite single_app, (unwrap_or_ok _ _ _ _ (reader_u8_cons _ _)).
  rewrite (unwrap_or_ok _ _ _ _ (reader_u32_app _ _ (ltac:(destruct (cn_requested_credit m); done) : is_u32 (default 0 (cn_requested_credit m))))).
  rewrite (unwrap_or_ok _ _ _ _ (reader_u64_app _ _ (ltac:(destruct (cn_requested_credit_bytes m); done) : is_u64 (default 0 (cn_requested_credit_bytes m))))).
  destruct (connect_flags_bits m) as (F0 & F1 & F2 & F3 & F4 & F5 & F6 & F7 & G0 & G1 & G2).
  rewrite F3.
  pose proof (optional_bytes (cn_default_ack_level m) (cn_default_tier m) (connect_flags2 m)) as Ho. cbv zeta in Ho.
  destruct (read_if (bool_decide (is_Some (cn_default_ack_level m))) _) as [l fr]. rewrite F5.
  destruct (read_if (bool_decide (is_Some (cn_default_tier m))) fr) as [t fr']. destruct Ho as (-> & -> & Ho).
  destruct (unwrap_or reader_u8 0 fr') as [f2 fr'']. cbn [fst] in Ho. subst f2.
  rewrite F0, F1, F2, F4, F6, F7, G0, G1, G2. destruct m as [c cb ? ? ? ? ? ? ? ? ?]. by destruct c, cb.
Qed.

Lemma parse_auth_block m tail :
  parse_connect_auth (block_bytes HANDSHAKE_BODY_VERSION (connect_block m) ++ tail) =
  (if at_end tail then Ok None
   else
     let? (marker, r) := reader_u8 tail in
     if negb (marker =? CONNECT_AUTH_SECTION_MARKER) then Ok None
     else
       let? (mech_byte, r) := reader_u8 r in
       match mechanism_from_u8 mech_byte with
       | None => Err (BadAckOp mech_byte)
       | Some mechanism => let? (material, r) := reader_var r in Ok (Some (mk_credential mechanism material))
       end).
Proof. unfold parse_connect_auth. rewrite decide_False by done. by rewrite read_block_app by apply connect_block_short. Qed.

Lemma connect_roundtrip m auth : body_ok (BConnect m auth) -> fits_wire (BConnect m auth) -> roundtrips (BConnect m auth).
Proof.
  intros Hok Hf. unfold roundtrips, encode_body, decode_body, kind_of, normal. destruct auth as [[mech mat]|].
  - apply Forall_cons in Hf as [Hm _]. cbn [au_material] in Hm. fold (short mat) in Hm. eexists. split.
    + intros out. rewrite encode_connect_block. unfold append_connect_auth. cbn [au_mechanism au_material]. wire_write. reflexivity.
    + rewrite decode_connect_block by done. cbn [res_bind]. rewrite parse_auth_block. unfold at_end. rewrite bool_decide_false by done. wire_read. rewrite Z.eqb_refl. cbn [negb]. wire_read.
      replace (mechanism_from_u8 (mechanism_as_u8 mech)) with (Some mech) by (by destruct mech). by wire_read.
  - exists (block_bytes HANDSHAKE_BODY_VERSION (connect_block m)). split; [intros out; by rewrite encode_connect_block|].
    rewrite <- (app_nil_r (block_bytes _ _)), decode_connect_block by done. cbn [res_bind]. by rewrite parse_auth_block.
Qed.

Definition info_block (m : InfoBody) : list Z :=
  [info_flags m] ++ le_bytes 4 (cr_negotiated (default (mk_advert 0 0) (in_credit m))) ++ le_bytes 4 (cr_cap (default (mk_advert 0 0) (in_credit m))) ++
  le_bytes 8 (cr_negotiated (default (mk_advert 0 0) (in_credit_bytes m))) ++ le_bytes 8 (cr_cap (default (mk_advert 0 0) (in_credit_bytes m))) ++
  opt_byte (in_default_ack_level m) ++ opt_byte (in_default_tier m) ++ nonzero_byte (flags_of [(in_ephemeral_groups m, INFO_FLAG2_EPHEMERAL_GROUPS)]).

Lemma length_info_block m :
  Z.of_nat (length (info_block m)) =
  INFO_V1_FIELD_LEN + opt_len (in_default_ack_level m) + opt_len (in_default_tier m) +
  (if flags_of [(in_ephemeral_groups m, INFO_FLAG2_EPHEMERAL_GROUPS)] =? 0 then 0 else 1).
Proof.
  unfold info_block, INFO_V1_FIELD_LEN. rewrite !length_app, !length_le_bytes, !Nat2Z.inj_add, !length_opt_byte, length_nonzero_byte. cbn [length]. lia.
Qed.

Lemma info_flags_bits m :
  has_flag (info_flags m) INFO_FLAG_HAS_CREDIT = bool_decide (is_Some (in_credit m)) /\
  has_flag (info_flags m) INFO_FLAG_HAS_CREDIT_BYTES = bool_decide (is_Some (in_credit_bytes m)) /\
  has_flag (info_flags m) INFO_FLAG_GAP_MARKER = in_gap_marker m /\
  has_flag (info_flags m) INFO_FLAG_HAS_DEFAULT_ACK_LEVEL = bool_decide (is_Some (in_default_ack_level m)) /\
  has_flag (info_flags m) INFO_FLAG_STREAMING = in_streaming m /\
  has_flag (info_flags m) INFO_FLAG_HAS_DEFAULT_TIER = bool_decide (is_Some (in_default_tier m)) /\
  has_flag (info_flags m) INFO_FLAG_DELIVER_BATCH = in_deliver_batch m /\
  has_flag (info_flags m) INFO_FLAG_STREAMS = in_streams m.
Proof.
  destruct (flags8 (bool_decide (is_Some (in_credit m))) (bool_decide (is_Some (in_credit_bytes m))) (in_gap_marker m)
    (bool_decide (is_Some (in_default_ack_level m))) (in_streaming m) (bool_decide (is_Some (in_default_tier m)))
    (in_deliver_batch m) (in_streams m)) as (F0 & F1 & F2 & F3 & F4 & F5 & F6 & F7).
  split_and!; assumption.
Qed.

Lemma info_roundtrip m : body_ok (BInfo m) -> roundtrips (BInfo m).
Proof.
  intros (Hc & Hcb & _ & _). assert (Hs : short (info_block m)).
  { unfold short. rewrite length_info_block. pose proof (opt_len_bound (in_default_ack_level m)). pose proof (opt_len_bound (in_default_tier m)).
    unfold INFO_V1_FIELD_LEN, u16_max. destruct (_ =? 0); lia. }
  exists (block_bytes HANDSHAKE_BODY_VERSION (info_block m)). split.
  { intros out. unfold encode_body, encode_info, block_bytes. rewrite length_info_block. done. }
  unfold decode_body, kind_of, normal, decode_info. rewrite decide_False by done. rewrite read_block_end by done. cbn [res_bind]. unfold info_block.
  assert (N1 : is_u32 (cr_negotiated (default (mk_advert 0 0) (in_credit m))) /\ is_u32 (cr_cap (default (mk_advert 0 0) (in_credit m)))) by (by destruct (in_credit m)).
  assert (N2 : is_u64 (cr_negotiated (default (mk_advert 0 0) (in_credit_bytes m))) /\ is_u64 (cr_cap (default (mk_advert 0 0) (in_credit_bytes m)))) by (by destruct (in_credit_bytes m)).
  destruct N1 as [N1 N1'], N2 as [N2 N2'].
  rewrite single_app, (unwrap_or_ok _ _ _ _ (reader_u8_cons _ _)), (unwrap_or_ok _ _ _ _ (reader_u32_app _ _ N1)), (unwrap_or_ok _ _ _ _ (reader_u32_app _ _ N1')),
    (unwrap_or_ok _ _ _ _ (reader_u64_app _ _ N2)), (unwrap_or_ok _ _ _ _ (reader_u64_app _ _ N2')).
  destruct (info_flags_bits m) as (F0 & F1 & F2 & F3 & F4 & F5 & F6 & F7). rewrite F3.
  pose proof (optional_bytes (in_default_ack_level m) (in_default_tier m) (flags_of [(in_ephemeral_groups m, INFO_FLAG2_EPHEMERAL_GROUPS)])) as Ho. cbv zeta in Ho.
  destruct (read_if (bool_decide (is_Some (in_default_ack_level m))) _) as [l fr]. rewrite F5.
  destruct (read_if (bool_decide (is_Some (in_default_tier m))) fr) as [t fr']. destruct Ho as (-> & -> & Ho).
  destruct (unwrap_or reader_u8 0 fr') as [f2 fr'']. cbn [fst] in Ho. subst f2. rewrite F0, F1, F2, F4, F6, F7. cbn [res_bind].
  destruct m as [c cb ? ? ? ? ? ? e]. cbn. destruct c as [[]|], cb as [[]|], e; reflexivity.
Qed.

Lemma unwrap_or_err {A} (read : list Z -> res (A * list Z) BodyError) d r e : read r = Err e -> unwrap_or read d r = (d, r).
Proof. intros Hr. unfold unwrap_or. by rewrite Hr. Qed.

Lemma stream_fetch_roundtrip m : body_ok (BStreamFetch m) -> roundtrips (BStreamFetch m).
Proof.
  destruct m as [so mr mb st en]. intros (H1 & H2 & H3 & H4 & H5). cbn in H1, H2, H3, H4, H5.
  set (time := if bool_decide (is_Some st) || bool_decide (is_Some en) then le_bytes 8 (default 0 st) ++ le_bytes 8 (default 0 en) else []).
  exists (block_bytes STREAM_FETCH_BODY_VERSION (le_bytes 8 so ++ le_bytes 4 mr ++ le_bytes 8 mb ++ time)).
  assert (Hl : Z.of_nat (length (le_bytes 8 so ++ le_bytes 4 mr ++ le_bytes 8 mb ++ time)) =
    if bool_decide (is_Some st) || bool_decide (is_Some en) then STREAM_FETCH_V1_FIELD_LEN + STREAM_FETCH_TIME_FIELD_LEN else STREAM_FETCH_V1_FIELD_LEN).
  { unfold time. rewrite !length_app, !length_le_bytes. destruct (_ || _); rewrite ?length_app, ?length_le_bytes; done. }
  split; [intros out; unfold block_bytes; by rewrite Hl|].
  unfold decode_body, kind_of, normal, decode_stream_fetch.
  rewrite read_block_end by (unfold short; rewrite Hl; by destruct (_ || _)). cbn [res_bind sf_start_offset sf_max_records sf_max_bytes sf_start_time_ms sf_end_time_ms].
  rewrite (unwrap_or_ok _ _ _ _ (reader_u64_app so _ H1)), (unwrap_or_ok _ _ _ _ (reader_u32_app mr _ H2)), (unwrap_or_ok _ _ _ _ (reader_u64_app mb _ H3)).
  unfold time. destruct (bool_decide (is_Some st) || bool_decide (is_Some en)) eqn:Hb.
  - assert (S1 : is_u64 (default 0 st)) by (by destruct st). assert (S2 : is_u64 (default 0 en)) by (by destruct en).
    rewrite (unwrap_or_ok _ _ _ _ (reader_u64_app _ _ S1)), (unwrap_or_ok _ _ _ _ (reader_u64_end _ S2)). cbn [res_bind].
    by destruct st, en.
  - apply orb_false_iff in Hb as [B1 B2]. by destruct st, en.
Qed.

Lemma declare_roundtrip m : body_ok (BStreamDeclare m) -> fits_wire (BStreamDeclare m) -> roundtrips (BStreamDeclare m).
Proof.
  destruct m as [id pc pr]. intros (H1 & H2) Hf. cbn in H1, H2. apply Forall_cons in Hf as [Hf _]. cbn [sd_stream_id sd_partition_count sd_priority] in *.
  set (more := (if 1 <? pc then le_bytes 4 pc else []) ++ (if pr then [1] else [])).
  assert (Hs : short (one_field id more)).
  { unfold short. rewrite length_one_field. unfold more. rewrite length_app. destruct (1 <? pc), pr; rewrite ?length_le_bytes; cbn [length]; lia. }
  exists (block_bytes STREAM_WIRE_BODY_VERSION (one_field id more)). split.
  { intros out. unfold encode_body, encode_stream_declare. cbn [sd_stream_id sd_partition_count sd_priority]. fold more.
    rewrite encode_one_ok by done. by rewrite app_nil_r. }
  unfold decode_body, kind_of, normal, decode_stream_declare, read_stream_id. rewrite read_block_end by done. cbn [res_bind].
  rewrite read_capped_app by done. cbn [res_bind sd_stream_id sd_partition_count sd_priority]. unfold more.
  destruct (Z.ltb_spec 1 pc) as [Hp|Hp].
  - rewrite (unwrap_or_ok _ _ _ _ (reader_u32_app pc _ H2)). destruct (Z.leb_spec 1 pc); [|lia]. rewrite Z.max_r by lia. by destruct pr.
  - rewrite Z.max_l by lia. rewrite app_nil_l. rewrite (unwrap_or_err reader_u32 1 _ Truncated) by (by destruct pr). by destruct pr.
Qed.

Lemma sub_to_roundtrip m : body_ok (BSubTo m) -> fits_wire (BSubTo m) -> roundtrips (BSubTo m).
Proof.
  destruct m as [id gr pt ep]. intros (H1 & H2) Hf. cbn in H1, H2. apply Forall_cons in Hf as [Hf _]. cbn [st_stream_id st_group st_partition st_ephemeral] in *.
  set (more := match pt with Some partition => le_bytes 4 partition | None => [] end ++ nonzero_byte (flags_of [(ep, SUBTO_FLAG_EPHEMERAL)])).
  assert (Hl : length more = ((if pt then 4 else 0) + if ep then 1 else 0)%nat)
    by (unfold more; rewrite length_app; destruct pt, ep; rewrite ?length_le_bytes; done).
  assert (Hs : short (two_fields id gr more)) by (unfold short, two_fields; rewrite !length_one_field, Hl; lia).
  assert (Hg : short gr) by (unfold short; lia).
  exists (block_bytes STREAM_WIRE_BODY_VERSION (two_fields id gr more)). split.
  { intros out. unfold encode_body, encode_sub_to. by rewrite encode_two_ok. }
  unfold decode_body, kind_of, normal, decode_sub_to, read_stream_id. rewrite read_block_end by done. cbn [res_bind]. unfold two_fields.
  rewrite read_capped_app by done. cbn [res_bind]. rewrite reader_var_field by done. cbn [res_bind]. unfold more.
  destruct pt as [p|]; [|by destruct ep]. pose proof (length_le_bytes 4 p) as Hb. pose proof (le_val_le_bytes 4 p (u32_pow _ H2)) as Hv.
  destruct (le_bytes 4 p) as [|a [|b [|c [|d [|]]]]]; try done. cbn [app]. destruct ep; cbn; by rewrite Hv.
Qed.

Lemma nonzero_byte_read x : is_u8 x -> fst (unwrap_or reader_u8 0 (nonzero_byte x)) = x.
Proof. intros _. unfold nonzero_byte. by destruct (Z.eqb_spec x 0) as [->|]. Qed.

(** The bodies that are a block of one field. *)
Lemma one_field_roundtrip b :
  body_ok b -> fits_wire b ->
  match b with
  | BStreamInfo _ | BPubTo _ | BTxnResolve _ | BTxnCheckResult _ | BTxnListen _ | BPubSubject _ => roundtrips b
  | _ => True
  end.
Proof.
  assert (Hshort : forall f more n, Z.of_nat n <= u16_max -> n = (2 + length f + length more)%nat -> short (one_field f more))
    by (intros f more n Hn ->; unfold short; by rewrite length_one_field).
  destruct b as [m|m|m|m records|m|m|m|m|m|m|m|m|m auth|u pw|m|m|m|m|m|m|m|m|m|m|m|m|m|m|m|m|m]; intros Hok Hf; try exact I;
    destruct m; cbn in Hok; apply Forall_cons in Hf as [Hf _]; cbn in Hf.
  - eexists. split; [intros out; unfold encode_body, encode_stream_info; rewrite encode_one_ok by (eapply Hshort; [exact Hf|cbn; lia]); reflexivity|].
    unfold decode_body, kind_of, decode_stream_info, read_stream_id. rewrite app_nil_r, read_block_end by (eapply Hshort; [exact Hf|cbn; lia]).
    cbn [res_bind]. by rewrite read_capped_app.
  - destruct Hok as [Hc Hp]. eexists. split; [intros out; unfold encode_body, encode_pub_to; rewrite encode_one_ok by (eapply Hshort; [exact Hf|cbn; lia]); reflexivity|].
    unfold decode_body, kind_of, decode_pub_to, read_stream_id. rewrite read_block_app by (eapply Hshort; [exact Hf|cbn; lia]). cbn [res_bind].
    rewrite read_capped_app by done. cbn [res_bind]. pose proof (nonzero_byte_read _ Hp) as Hn. by destruct (unwrap_or reader_u8 0 _); cbn in Hn; subst.
  - eexists. split; [intros out; unfold encode_body, encode_txn_resolve; rewrite encode_one_ok by (eapply Hshort; [exact Hf|cbn; lia]); reflexivity|].
    unfold decode_body, kind_of, decode_txn_resolve, read_txn_id. rewrite app_nil_r, read_block_end by (eapply Hshort; [exact Hf|cbn; lia]).
    cbn [res_bind]. by rewrite read_capped_app.
  - eexists. split; [intros out; unfold encode_body, encode_txn_check_result; rewrite encode_one_ok by (eapply Hshort; [exact Hf|cbn; lia]); reflexivity|].
    unfold decode_body, kind_of, decode_txn_check_result, read_txn_id. rewrite app_nil_r, read_block_end by (eapply Hshort; [exact Hf|cbn; lia]).
    cbn [res_bind]. rewrite read_capped_app by done. cbn [res_bind]. rewrite reader_u8_cons. by destruct tk_decision.
  - eexists. split; [intros out; unfold encode_body, encode_txn_listen; rewrite encode_one_ok by (eapply Hshort; [exact Hf|cbn; lia]); reflexivity|].
    unfold decode_body, kind_of, decode_txn_listen. rewrite app_nil_r, read_block_end by (eapply Hshort; [exact Hf|cbn; lia]).
    cbn [res_bind]. by rewrite read_capped_app.
  - eexists. split; [intros out; unfold encode_body, encode_pub_subject; rewrite encode_one_ok by (eapply Hshort; [exact Hf|cbn; lia]); reflexivity|].
    unfold decode_body, kind_of, decode_pub_subject, read_subject. rewrite read_block_app by (eapply Hshort; [exact Hf|cbn; lia]).
    cbn [res_bind]. by rewrite read_capped_app.
Qed.

(** The bodies that are a block of two fields. *)
Lemma two_fields_roundtrip b :
  body_ok b -> fits_wire b ->
  match b with BTxnPrepare _ | BBindSubject _ | BSubSubject _ | BPauseGroup _ => roundtrips b | _ => True end.
Proof.
  assert (Hshort : forall f g more n, Z.of_nat n <= u16_max -> n = (2 + length f + 2 + length g + length more)%nat ->
    short (two_fields f g more) /\ short f /\ short g)
    by (intros f g more n Hn ->; unfold short, two_fields; rewrite !length_one_field; lia).
  destruct b as [m|m|m|m records|m|m|m|m|m|m|m|m|m auth|u pw|m|m|m|m|m|m|m|m|m|m|m|m|m|m|m|m|m]; intros Hok Hf; try exact I;
    destruct m as [x y z] || destruct m as [x y]; cbn in Hok; apply Forall_cons in Hf as [Hf _]; cbn in Hf.
  - destruct Hok as [Hx Hy]. destruct (Hshort x y [] _ Hf) as (Hs & Hsx & Hsy); [cbn; lia|].
    exists (block_bytes STREAM_WIRE_BODY_VERSION (two_fields x y []) ++ z). split.
    + intros out. unfold encode_body, encode_txn_prepare. cbn [tp_txn_id tp_stream_id tp_pub_body]. rewrite u16_try_from_Some by (cbn; lia). wire_write.
      unfold block_bytes, two_fields. rewrite !length_one_field. cbn [length].
      replace (2 + length x + (2 + length y + 0))%nat with (2 + length x + 2 + length y)%nat by lia. unfold one_field. by rewrite app_nil_r, <- !app_assoc.
    + unfold decode_body, kind_of, decode_txn_prepare, read_txn_id, read_stream_id. rewrite read_block_app by done. cbn [res_bind]. unfold two_fields.
      rewrite read_capped_app by done. cbn [res_bind]. by rewrite read_capped_app.
  - destruct Hok as [Hx Hy]. destruct (Hshort x y [] _ Hf) as (Hs & Hsx & Hsy); [cbn; lia|].
    exists (block_bytes STREAM_WIRE_BODY_VERSION (two_fields x y [])). split; [intros out; by apply encode_two_ok|].
    unfold decode_body, kind_of, decode_bind_subject, read_subject, read_stream_id. rewrite read_block_end by done. cbn [res_bind]. unfold two_fields.
    rewrite read_capped_app by done. cbn [res_bind]. by rewrite read_capped_app.
  - destruct Hok as [Hx Hz]. destruct (Hshort x y (nonzero_byte z) _ Hf) as (Hs & Hsx & Hsy); [cbn; lia|].
    exists (block_bytes STREAM_WIRE_BODY_VERSION (two_fields x y (nonzero_byte z))). split; [intros out; by apply encode_two_ok|].
    unfold decode_body, kind_of, decode_sub_subject, read_subject. rewrite read_block_end by done. cbn [res_bind]. unfold two_fields.
    rewrite read_capped_app by done. cbn [res_bind]. rewrite reader_var_field by done. cbn [res_bind].
    pose proof (nonzero_byte_read _ Hz) as Hn. by destruct (unwrap_or reader_u8 0 _); cbn in Hn; subst.
  - destruct Hok as [Hx Hz]. destruct (Hshort x y (le_bytes 8 z) _ Hf) as (Hs & Hsx & Hsy); [rewrite length_le_bytes; cbn; lia|].
    exists (block_bytes STREAM_WIRE_BODY_VERSION (two_fields x y (le_bytes 8 z))). split; [intros out; by apply encode_two_ok|].
    unfold decode_body, kind_of, decode_pause_group, read_stream_id. rewrite read_block_end by done. cbn [res_bind]. unfold two_fields.
    rewrite read_capped_app by done. cbn [res_bind]. rewrite reader_var_field by done. cbn [res_bind]. by rewrite reader_u64_end.
Qed.

Lemma body_roundtrip b : body_ok b -> fits_wire b -> roundtrips b.
Proof.
  intros Hok Hf. pose proof (fixed_roundtrip b Hok) as H1. pose proof (framed_roundtrip b Hok Hf) as H2.
  pose proof (one_field_roundtrip b Hok Hf) as H3. pose proof (two_fields_roundtrip b Hok Hf) as H4.
  destruct b; try assumption; [by apply pub_roundtrip|by apply connect_roundtrip|by apply info_roundtrip|by apply stream_fetch_roundtrip
    |by apply declare_roundtrip|by apply sub_to_roundtrip].
Qed.

Lemma push_var_long out f : ~ short f -> push_var out f = (out, Err FieldTooLarge).
Proof.
  intros Hf. unfold push_var. destruct (u16_try_from (length f)) as [x|] eqn:Hx; [|done]. apply u16_try_from_inv in Hx as [_ Hx]. done.
Qed.

(** Appending the fields one after the other fails when one is too long. *)
Lemma push_var_cases out f :
  (short f /\ push_var out f = (out ++ le_bytes 2 (Z.of_nat (length f)) ++ f, Ok tt)) \/ (~ short f /\ push_var out f = (out, Err FieldTooLarge)).
Proof. destruct (decide (Z.of_nat (length f) <= u16_max)); [left|right]; (split; [done|]); [by apply push_var_short|by apply push_var_long]. Qed.

Lemma body_too_long b out : ~ fits_wire b -> exists out', encode_body b out = (out', Err FieldTooLarge).
Proof.
  unfold fits_wire. assert (Hone : forall f more tail n, ~ Forall (fun n => Z.of_nat n <= u16_max) [n] -> n = (2 + length f + length more)%nat ->
    exists out', encode_one f more tail out = (out', Err FieldTooLarge)).
  { intros f more tail n Hn ->. exists out. apply encode_one_err. unfold short. rewrite length_one_field. intros Hs. apply Hn. by apply Forall_singleton. }
  assert (Htwo : forall f g more n, ~ Forall (fun n => Z.of_nat n <= u16_max) [n] -> n = (2 + length f + 2 + length g + length more)%nat ->
    exists out', encode_two f g more out = (out', Err FieldTooLarge)).
  { intros f g more n Hn ->. exists out. apply encode_two_err. unfold short, two_fields. rewrite !length_one_field. intros Hs. apply Hn. apply Forall_singleton. lia. }
  destruct b as [m|m|m|m records|m|m|m|m|m|m|m|m|m auth|u pw|m|m|m|m|m|m|m|m|m|m|m|m|m|m|m|m|m]; cbn [wire_lengths]; intros Hn; try by (destruct Hn; constructor).
  all: cbn [encode_body];
    try (eapply Hone; [exact Hn|cbn [length]; lia]); try (eapply Htwo; [exact Hn|rewrite ?length_le_bytes; cbn [length]; lia]).
  - unfold encode_pub. destruct (push_var_cases ((out ++ [pub_wire_flags m]) ++ le_bytes 8 (pb_timestamp_ms m)) (pb_key m)) as [[Hk ->]|[_ ->]]; [|eauto].
    rewrite out_bind_Ok. match goal with |- context [push_var ?o (pb_headers m)] => destruct (push_var_cases o (pb_headers m)) as [[Hh ->]|[_ ->]]; [|eauto] end.
    rewrite out_bind_Ok. destruct (pb_dedup m) as [d|]; [|destruct Hn; by repeat constructor].
    match goal with |- context [push_var ?o (pd_producer_id d)] => destruct (push_var_cases o (pd_producer_id d)) as [[Hp ->]|[_ ->]]; [|eauto] end.
    rewrite out_bind_Ok. match goal with |- context [push_var ?o (pd_msg_id d)] => destruct (push_var_cases o (pd_msg_id d)) as [[Hm ->]|[_ ->]]; [|eauto] end.
    destruct Hn. by repeat constructor.
  - unfold encode_deliver. match goal with |- context [push_var ?o (dl_key m)] => destruct (push_var_cases o (dl_key m)) as [[Hk ->]|[_ ->]]; [|eauto] end.
    rewrite out_bind_Ok. match goal with |- context [push_var ?o (dl_headers m)] => destruct (push_var_cases o (dl_headers m)) as [[Hh ->]|[_ ->]]; [|eauto] end.
    destruct Hn. by repeat constructor.
  - unfold encode_not_leader. match goal with |- context [push_var ?o ?f] => destruct (push_var_cases o f) as [[Hk ->]|[_ ->]]; [|eauto] end.
    destruct Hn. by repeat constructor.
  - destruct auth as [cred|]; [|by destruct Hn]. unfold append_connect_auth.
    match goal with |- context [push_var ?o ?f] => destruct (push_var_cases o f) as [[Hk ->]|[_ ->]]; [|eauto] end. destruct Hn. by repeat constructor.
  - unfold pack_password_material. destruct (push_var_cases [] u) as [[Hu ->]|[_ ->]]; [|cbn; eauto]. rewrite out_bind_Ok.
    match goal with |- context [push_var ?o pw] => destruct (push_var_cases o pw) as [[Hp ->]|[_ ->]]; [|cbn; eauto] end. destruct Hn. by repeat constructor.
  - eapply Hone; [exact Hn|]. rewrite length_app. destruct (_ <? _), (sd_priority m); rewrite ?length_le_bytes; cbn [length]; lia.
  - eapply Htwo; [exact Hn|]. assert (Hb : forall e : bool, length (nonzero_byte (flags_of [(e, SUBTO_FLAG_EPHEMERAL)])) = (if e then 1 else 0)%nat) by (by intros []).
    rewrite length_app, Hb. destruct (st_partition m); rewrite ?length_le_bytes; cbn [length]; lia.
  - unfold encode_txn_prepare. destruct (u16_try_from _) as [x|] eqn:Hx; [|eauto]. apply u16_try_from_inv in Hx as [_ Hx]. destruct Hn. by apply Forall_singleton.
Qed.

(** ** Writing again what was read *)

Lemma unwrap_u8 r : bytes_ok r ->
  let '(x, r') := unwrap_or reader_u8 0 r in is_u8 x /\ bytes_ok r' /\ (x <> 0 -> length r = S (length r')) /\ (length r' <= length r)%nat.
Proof.
  intros Hb. unfold unwrap_or. destruct (reader_u8 r) as [[x r']|e|] eqn:Hr.
  - apply reader_u8_inv in Hr as (-> & ? & ?); [|done]. cbn [length]. split_and!; try done. lia.
  - split_and!; try done; unfold is_u8, u8_max; lia.
  - split_and!; try done; unfold is_u8, u8_max; lia.
Qed.

Lemma unwrap_u32 r d : bytes_ok r -> is_u32 d ->
  let '(x, r') := unwrap_or reader_u32 d r in
  is_u32 x /\ bytes_ok r' /\ (x <> d -> length r = (4 + length r')%nat) /\ (length r' <= length r)%nat.
Proof.
  intros Hb Hd. unfold unwrap_or. destruct (reader_u32 r) as [[x r']|e|] eqn:Hr; [|by split_and!..].
  apply reader_u32_inv in Hr as (-> & ? & ?); [|done]. rewrite length_app, length_le_bytes. split_and!; try done. lia.
Qed.

Lemma unwrap_u64 r : bytes_ok r -> let '(x, r') := unwrap_or reader_u64 0 r in is_u64 x /\ bytes_ok r'.
Proof.
  intros Hb. unfold unwrap_or. destruct (reader_u64 r) as [[x r']|e|] eqn:Hr; [|by split..].
  apply reader_u64_inv in Hr as (-> & ? & ?); [|done]. done.
Qed.

Lemma read_if_u8 c r : bytes_ok r -> let '(o, r') := read_if c r in opt_u8 o /\ bytes_ok r'.
Proof.
  intros Hb. unfold read_if. destruct c; [|done]. pose proof (unwrap_u8 r Hb) as Hu. destruct (unwrap_or reader_u8 0 r). by destruct Hu as (? & ? & _).
Qed.

Lemma read_block_inv v body block tail :
  bytes_ok body -> read_block v body = Ok (block, tail) -> bytes_ok block /\ bytes_ok tail /\ short block.
Proof.
  intros Hb Hr. unfold read_block in Hr. apply res_bind_ok in Hr as ([x r] & H1 & Hr). apply reader_u8_inv in H1 as (-> & _ & Hb1); [|done].
  destruct (negb (x =? v)); [done|]. apply res_bind_ok in Hr as ([n r2] & H2 & Hr). apply reader_u16_inv in H2 as (-> & Hu & Hb2); [|done].
  apply reader_take_inv in Hr as (-> & Hl & Hbb & Hbt); [|done]. split_and!; try done. unfold short. rewrite Hl. unfold is_u16 in Hu. lia.
Qed.

Lemma read_capped_inv cap r f r' :
  bytes_ok r -> read_capped cap r = Ok (f, r') -> r = one_field f r' /\ capped cap f /\ bytes_ok r'.
Proof.
  intros Hb Hr. unfold read_capped in Hr. apply res_bind_ok in Hr as ([n r2] & H2 & Hr). apply reader_u16_inv in H2 as (-> & Hu & Hb2); [|done].
  destruct (Nat.ltb_spec cap (Z.to_nat n)) as [|Hc]; [done|]. apply reader_take_inv in Hr as (-> & Hl & Hbf & Hbr); [|done].
  unfold capped, one_field. unfold is_u16 in Hu. replace (Z.of_nat (length f)) with n by lia. split_and!; [done|lia|done].
Qed.

Lemma var_field_inv r f r' : bytes_ok r -> reader_var r = Ok (f, r') -> r = one_field f r' /\ short f /\ bytes_ok r'.
Proof. intros Hb Hr. by apply reader_var_inv in Hr as (-> & Hs & _ & Hb'). Qed.

(** Walk a decoder that accepted its input [H]. *)
Ltac wire_reads :=
  match goal with
  | E : read_block _ ?b = Ok (_, _), B : bytes_ok ?b |- _ => apply (read_block_inv _ _ _ _ B) in E as (? & ? & ?)
  | E : read_stream_id ?r = Ok (_, _), B : bytes_ok ?r |- _ => apply (read_capped_inv _ _ _ _ B) in E as (-> & ? & ?)
  | E : read_txn_id ?r = Ok (_, _), B : bytes_ok ?r |- _ => apply (read_capped_inv _ _ _ _ B) in E as (-> & ? & ?)
  | E : read_subject ?r = Ok (_, _), B : bytes_ok ?r |- _ => apply (read_capped_inv _ _ _ _ B) in E as (-> & ? & ?)
  | E : read_capped _ ?r = Ok (_, _), B : bytes_ok ?r |- _ => apply (read_capped_inv _ _ _ _ B) in E as (-> & ? & ?)
  | E : reader_var ?r = Ok (_, _), B : bytes_ok ?r |- _ => apply (var_field_inv _ _ _ B) in E as (-> & ? & ?)
  | E : reader_u8 ?r = Ok (_, _), B : bytes_ok ?r |- _ => apply (reader_u8_inv _ _ _ B) in E as (-> & ? & ?)
  | E : reader_u64 ?r = Ok (_, _), B : bytes_ok ?r |- _ => apply (reader_u64_inv _ _ _ B) in E as (-> & ? & ?)
  end.

Ltac wire_inv H :=
  repeat first
  [ wire_reads
  | match type of H with
    | res_bind _ _ = Ok _ =>
        let p := fresh "p" in let E := fresh "E" in apply res_bind_ok in H as (p & E & H); try match type of p with prod _ _ => destruct p end; cbn beta iota in H
    | (if ?b then Err _ else _) = Ok _ => let G := fresh "G" in destruct b eqn:G; [discriminate H|]
    | context [unwrap_or reader_u8 0 ?r] =>
        let U := fresh "U" in pose proof (unwrap_u8 r ltac:(assumption)) as U; destruct (unwrap_or reader_u8 0 r); destruct U as (? & ? & ? & ?)
    | context [unwrap_or reader_u32 ?d ?r] =>
        let U := fresh "U" in pose proof (unwrap_u32 r d ltac:(assumption) ltac:(unfold is_u32, u32_max; lia)) as U;
        destruct (unwrap_or reader_u32 d r); destruct U as (? & ? & ? & ?)
    | context [unwrap_or reader_u64 0 ?r] =>
        let U := fresh "U" in pose proof (unwrap_u64 r ltac:(assumption)) as U; destruct (unwrap_or reader_u64 0 r); destruct U as (? & ?)
    | context [read_if ?c ?r] =>
        let U := fresh "U" in pose proof (read_if_u8 c r ltac:(assumption)) as U; destruct (read_if c r); destruct U as (? & ?)
    end ].

Definition exact_kind (k : Kind) : bool :=
  match k with
  | KPub | KAck | KDeliver | KSub | KCumulativeAck | KPubAck | KDeadLetter | KTruncated | KGapMarker | KProduceConfirm | KPassword | KStreamCommit => true
  | _ => false
  end.

Lemma ack_op_from_u8_inv x op : ack_op_from_u8 x = Ok op -> x = ack_op_as_u8 op.
Proof. unfold ack_op_from_u8. destruct x as [|[[]|[]|]|]; intros [= <-]; done. Qed.

Lemma at_end_inv r : negb (at_end r) = false -> r = [].
Proof. unfold at_end. by case_bool_decide. Qed.

Ltac decoded_done := split_and!; try done; try (by repeat constructor).

Lemma fixed_decoded k body b :
  bytes_ok body -> decode_body k body = Ok b ->
  match k with
  | KAck | KSub | KCumulativeAck | KPubAck | KDeadLetter | KTruncated | KGapMarker | KProduceConfirm | KStreamCommit | KDeliver | KPassword =>
      kind_of b = k /\ body_ok b /\ fits_wire b /\ normal b = b /\ encode_body b [] = (body, Ok tt)
  | _ => True
  end.
Proof.
  intros Hb. destruct k; intros H; try exact I; cbn [decode_body] in H; [| |injection H as <-; decoded_done| | | | | | | |].
  all: apply res_bind_ok in H as (m & H & Hm); try (injection Hm as <-).
  - unfold decode_ack in H. wire_inv H. injection H as <-. rename select (ack_op_from_u8 _ = _) into Ho. apply ack_op_from_u8_inv in Ho as ->.
    apply at_end_inv in G as ->. decoded_done.
  - unfold decode_deliver in H. wire_inv H. injection H as <-. decoded_done. cbn [encode_body]. unfold encode_deliver.
    cbn [dl_offset dl_generation dl_flags dl_timestamp_ms dl_key dl_headers dl_payload]. wire_write. done.
  - unfold decode_cumulative_ack in H. wire_inv H. injection H as <-. decoded_done.
  - unfold decode_pub_ack in H. wire_inv H. injection H as <-. apply at_end_inv in G as ->. decoded_done.
  - unfold decode_dead_letter in H. wire_inv H. injection H as <-. apply at_end_inv in G as ->. decoded_done.
  - unfold decode_truncated in H. wire_inv H. injection H as <-. apply at_end_inv in G as ->. decoded_done.
  - unfold decode_gap_marker in H. wire_inv H. injection H as <-. apply at_end_inv in G as ->. decoded_done.
  - unfold decode_produce_confirm in H. wire_inv H. injection H as <-. apply at_end_inv in G as ->. decoded_done.
  - destruct m as [u pw]. injection Hm as <-. unfold unpack_password_material in H. wire_inv H. injection H as <- <-. apply at_end_inv in G as ->.
    decoded_done. cbn [encode_body]. unfold pack_password_material. wire_write. unfold one_field. by rewrite app_nil_r, <- ?app_assoc.
  - unfold decode_stream_commit in H. wire_inv H. injection H as <-. decoded_done.
Qed.

(** The flags byte of a publish determines its optional parts. *)
Lemma pub_flags_fixed fl :
  is_u8 fl -> has_flag fl PUB_FLAG_HAS_DEDUP || negb (has_flag fl PUB_FLAG_HAS_SEQ) = true ->
  let f := Z.land fl (Z.lxor u8_max (Z.lor (Z.lor PUB_FLAG_HAS_DEDUP PUB_FLAG_FIRE_AND_FORGET) PUB_FLAG_HAS_SEQ)) in
  let f := if has_flag fl PUB_FLAG_HAS_DEDUP then Z.lor f PUB_FLAG_HAS_DEDUP else f in
  let f := if has_flag fl PUB_FLAG_HAS_SEQ then Z.lor f PUB_FLAG_HAS_SEQ else f in
  (if has_flag fl PUB_FLAG_FIRE_AND_FORGET then Z.lor f PUB_FLAG_FIRE_AND_FORGET else f) = fl.
Proof.
  intros Hfl. pose proof (u8_forall (fun fl => implb (has_flag fl PUB_FLAG_HAS_DEDUP || negb (has_flag fl PUB_FLAG_HAS_SEQ))
    ((let f := Z.land fl (Z.lxor u8_max (Z.lor (Z.lor PUB_FLAG_HAS_DEDUP PUB_FLAG_FIRE_AND_FORGET) PUB_FLAG_HAS_SEQ)) in
      let f := if has_flag fl PUB_FLAG_HAS_DEDUP then Z.lor f PUB_FLAG_HAS_DEDUP else f in
      let f := if has_flag fl PUB_FLAG_HAS_SEQ then Z.lor f PUB_FLAG_HAS_SEQ else f in
      if has_flag fl PUB_FLAG_FIRE_AND_FORGET then Z.lor f PUB_FLAG_FIRE_AND_FORGET else f) =? fl)) ltac:(vm_compute; reflexivity) fl Hfl) as Hx.
  intros Hc. cbv beta in Hx. rewrite Hc in Hx. cbn [implb] in Hx. by apply Z.eqb_eq in Hx.
Qed.

Lemma pub_decoded body m :
  bytes_ok body -> decode_pub body = Ok m ->
  body_ok (BPub m) /\ fits_wire (BPub m) /\ normal (BPub m) = BPub m /\ encode_pub m [] = (body, Ok tt).
Proof.
  intros Hb H. unfold decode_pub in H. apply res_bind_ok in H as ([fl r0] & E0 & H). apply reader_u8_inv in E0 as (-> & Hfl & Hb0); [|done].
  apply res_bind_ok in H as ([ts r1] & E1 & H). apply reader_u64_inv in E1 as (-> & Hts & Hb1); [|done].
  apply res_bind_ok in H as ([ky r2] & E2 & H). apply var_field_inv in E2 as (-> & Hky & Hb2); [|done].
  apply res_bind_ok in H as ([hd r3] & E3 & H). apply var_field_inv in E3 as (-> & Hhd & Hb3); [|done].
  apply res_bind_ok in H as ([dd r4] & E4 & H). injection H as <-.
  pose proof (pub_flags_fixed fl Hfl) as Hfix. destruct (has_flag fl PUB_FLAG_HAS_DEDUP) eqn:B1.
  - apply res_bind_ok in E4 as ([pid r5] & E5 & E4). apply var_field_inv in E5 as (-> & Hpid & Hb5); [|done].
    apply res_bind_ok in E4 as ([ep r6] & E6 & E4). apply reader_u64_inv in E6 as (-> & Hep & Hb6); [|done].
    apply res_bind_ok in E4 as ([mid r7] & E7 & E4). apply var_field_inv in E7 as (-> & Hmid & Hb7); [|done].
    apply res_bind_ok in E4 as ([sq r8] & E8 & E4). injection E4 as <- <-. specialize (Hfix eq_refl).
    assert (Hw : pub_wire_flags (mk_pub fl ts ky hd (Some (mk_pub_dedup pid ep mid sq)) (has_flag fl PUB_FLAG_FIRE_AND_FORGET) r8) = fl /\
      r7 = match sq with Some x => le_bytes 8 x ++ r8 | None => r8 end /\ opt_u64 sq).
    { unfold pub_wire_flags. cbn [pb_flags pb_dedup pb_fire_and_forget pd_seq]. destruct (has_flag fl PUB_FLAG_HAS_SEQ).
      - apply res_bind_ok in E8 as ([x r9] & E9 & E8). apply reader_u64_inv in E9 as (-> & Hx & _); [|done]. by injection E8 as <- <-.
      - by injection E8 as <- <-. }
    destruct Hw as (Hw & -> & Hsq). unfold normal, encode_pub. rewrite Hw. decoded_done.
    cbn [pb_timestamp_ms pb_key pb_headers pb_dedup pb_payload pd_producer_id pd_epoch pd_msg_id pd_seq]. wire_write.
    destruct sq; wire_write; unfold one_field; by rewrite <- ?app_assoc.
  - destruct (has_flag fl PUB_FLAG_HAS_SEQ) eqn:B2; [done|]. injection E4 as <- <-. specialize (Hfix eq_refl).
    assert (Hw : pub_wire_flags (mk_pub fl ts ky hd None (has_flag fl PUB_FLAG_FIRE_AND_FORGET) r3) = fl) by exact Hfix.
    unfold normal, encode_pub. rewrite Hw. decoded_done. cbn [pb_timestamp_ms pb_key pb_headers pb_dedup pb_payload]. wire_write.
    unfold one_field; by rewrite <- ?app_assoc.
Qed.

Lemma length_nonzero_0 : length (nonzero_byte 0) = 0%nat.
Proof. done. Qed.

(** The lengths of what was read are within the block that held it. *)
Ltac fits_done :=
  repeat match goal with H : short (one_field _ _) |- _ => unfold short in H; rewrite ?length_one_field in H end;
  unfold fits_wire; cbn [wire_lengths si_stream_id pt_stream_id pt_priority tp_txn_id tp_stream_id tv_txn_id tk_txn_id tl_group bs_stream_id bs_pattern
    ps_subject ss_subject ss_group ss_filter_mode pg_stream_id pg_group]; apply Forall_singleton; rewrite ?length_app, ?length_le_bytes, ?length_nonzero_0 in *; cbn [length] in *; lia.

Lemma nonzero_byte_len x (r r' : list Z) :
  (x <> 0 -> length r = S (length r')) -> (length (nonzero_byte x) + length r' <= length r)%nat \/ x = 0.
Proof. unfold nonzero_byte. intros Hx. destruct (Z.eqb_spec x 0); [by right|]. left. cbn. rewrite Hx by done. lia. Qed.

Lemma sentinel_ok t : is_u64 t -> opt_u64 (sentinel t).
Proof. intros Ht. unfold sentinel. by destruct (t =? 0). Qed.
Lemma sentinel_normal t : nonzero (sentinel t) = sentinel t.
Proof. unfold sentinel. destruct (t =? 0) eqn:Ht; [done|]. cbn. unfold sentinel. by rewrite Ht. Qed.

Definition decoded (k : Kind) (b : Body) : Prop := kind_of b = k /\ body_ok b /\ fits_wire b /\ normal b = b.

Lemma handshake_decoded k body b :
  bytes_ok body -> decode_body k body = Ok b ->
  match k with KDeliverBatch | KNotLeader | KConnect | KInfo | KFetch | KStreamFetch | KStreamInfoResponse => decoded k b | _ => True end.
Proof.
  unfold decoded. intros Hb. destruct k; intros H; try exact I; cbn [decode_body] in H; apply res_bind_ok in H as (m & H & Hm).
  - destruct m. injection Hm as <-. unfold decode_deliver_batch in H. wire_inv H. injection H as <- <-. decoded_done.
  - injection Hm as <-. unfold decode_not_leader in H. wire_inv H. injection H as <-. apply negb_false_iff in G. decoded_done.
  - apply res_bind_ok in Hm as (auth & Ha & Hm). injection Hm as <-.
    assert (Hm : body_ok (BConnect m auth)).
    { unfold decode_connect in H. case_decide; [injection H as <-; by split_and!|]. wire_inv H. injection H as <-.
      split_and!; cbn; try done; by destruct (has_flag _ _). }
    assert (Hf : match auth with Some c => short (au_material c) | None => True end).
    { unfold parse_connect_auth in Ha. case_decide; [by injection Ha as <-|]. wire_inv Ha. destruct (at_end _); [by injection Ha as <-|].
      wire_inv Ha. destruct (negb _); [by injection Ha as <-|]. wire_inv Ha. destruct (mechanism_from_u8 _); [|done]. wire_inv Ha. by injection Ha as <-. }
    split_and!; try done. destruct auth; [by apply Forall_singleton|constructor].
  - injection Hm as <-. unfold decode_info in H. case_decide; [injection H as <-; decoded_done|]. wire_inv H. injection H as <-.
    split; [done|split; [|split; [constructor|done]]]. cbn. split_and!; try done; by destruct (has_flag _ _).
  - injection Hm as <-. unfold decode_fetch in H. wire_inv H. injection H as <-. decoded_done.
  - injection Hm as <-. unfold decode_stream_fetch in H. wire_inv H. injection H as <-.
    split; [done|split; [|split; [constructor|]]]; cbn; [split_and!; try done; by apply sentinel_ok|]. by rewrite !sentinel_normal.
  - injection Hm as <-. unfold decode_stream_info_response in H. wire_inv H. injection H as <-. decoded_done.
Qed.

Lemma fields_decoded k body b :
  bytes_ok body -> decode_body k body = Ok b ->
  match k with
  | KStreamInfo | KPubTo | KTxnPrepare | KTxnResolve | KTxnCheckResult | KTxnListen | KBindSubject | KPubSubject | KSubSubject | KPauseGroup => decoded k b
  | _ => True
  end.
Proof.
  unfold decoded. intros Hb. destruct k; intros H; try exact I; cbn [decode_body] in H; apply res_bind_ok in H as (m & H & Hm); injection Hm as <-.
  - unfold decode_stream_info in H. wire_inv H. injection H as <-. split_and!; try done. fits_done.
  - unfold decode_pub_to in H. wire_inv H. injection H as <-. split_and!; try done.
    rename select (_ <> 0 -> _) into Hx. apply nonzero_byte_len in Hx as [Hx| ->]; fits_done.
  - unfold decode_txn_prepare in H. wire_inv H. injection H as <-. split_and!; try done. fits_done.
  - unfold decode_txn_resolve in H. wire_inv H. injection H as <-. split_and!; try done. fits_done.
  - unfold decode_txn_check_result in H. wire_inv H. injection H as <-. split_and!; try done. fits_done.
  - unfold decode_txn_listen in H. wire_inv H. injection H as <-. split_and!; try done. fits_done.
  - unfold decode_bind_subject in H. wire_inv H. injection H as <-. split_and!; try done. fits_done.
  - unfold decode_pub_subject in H. wire_inv H. injection H as <-. split_and!; try done. fits_done.
  - unfold decode_sub_subject in H. wire_inv H. injection H as <-. split_and!; try done.
    rename select (_ <> 0 -> _) into Hx. apply nonzero_byte_len in Hx as [Hx| ->]; fits_done.
  - unfold decode_pause_group in H. wire_inv H. injection H as <-. split_and!; try done. fits_done.
Qed.

Lemma declare_decoded body m : bytes_ok body -> decode_stream_declare body = Ok m -> decoded KStreamDeclare (BStreamDeclare m).
Proof.
  unfold decoded. intros Hb H. unfold decode_stream_declare in H. wire_inv H. injection H as <-.
  rename select (capped _ _) into Hc. rename select (_ <> 1 -> _) into Hp. rename select (_ <> 0 -> _) into Hq. rename select (short _) into Hs.
  unfold short in Hs. rewrite length_one_field in Hs. split; [done|split; [|split]]; cbn.
  - split; [done|]. destruct (1 <=? _); [done|]. unfold is_u32, u32_max. lia.
  - apply Forall_singleton. cbn [sd_stream_id sd_partition_count sd_priority]. destruct (Z.eqb_spec z0 0) as [|Hz]; [|specialize (Hq Hz)]; cbn [negb];
      (destruct (decide (z = 1)) as [->|Hz1]; [cbn; lia|specialize (Hp Hz1)]); destruct (1 <=? z), (1 <? z); cbn; lia.
  - do 2 f_equal. destruct (Z.leb_spec 1 z); lia.
Qed.

Lemma has_flag_0 m : has_flag 0 m = false.
Proof. done. Qed.

Lemma sub_to_decoded body m : bytes_ok body -> decode_sub_to body = Ok m -> decoded KSubTo (BSubTo m).
Proof.
  unfold decoded. intros Hb H. unfold decode_sub_to in H. apply res_bind_ok in H as ([block rest] & E0 & H).
  apply read_block_inv in E0 as (Hb0 & _ & Hs); [|done]. apply res_bind_ok in H as ([id r1] & E1 & H).
  apply read_capped_inv in E1 as (-> & Hc & Hb1); [|done]. apply res_bind_ok in H as ([gr tail] & E2 & H). apply var_field_inv in E2 as (-> & Hg & Hb2); [|done].
  unfold short in Hs. rewrite !length_one_field in Hs. apply res_bind_ok in H as ([pt fl] & E3 & H). injection H as <-.
  assert (Hx : opt_u32 pt /\ ((if pt then 4 else 0) + (if has_flag fl SUBTO_FLAG_EPHEMERAL then 1 else 0) <= length tail)%nat).
  { assert (Hv : forall a b c d r, tail = a :: b :: c :: d :: r -> is_u32 (le_val [a; b; c; d])).
    { intros a b c d r ->. apply le_val_u32; [done|]. change (bytes_ok (take 4 (a :: b :: c :: d :: r))). by apply Forall_take. }
    destruct tail as [|a [|b [|c [|d [|e tail]]]]]; injection E3 as <- <-; cbn [length]; (split; [try exact I; by eapply Hv|]);
      rewrite ?has_flag_0; try lia; destruct (has_flag _ _); lia. }
  destruct Hx as [Hp Hl]. split; [done|split; [by split|split; [|done]]]. apply Forall_singleton. cbn [st_stream_id st_group st_partition st_ephemeral]. lia.
Qed.

Lemma body_decoded k body b : bytes_ok body -> decode_body k body = Ok b -> decoded k b.
Proof.
  intros Hb H. pose proof (fixed_decoded k body b Hb H) as H1. pose proof (handshake_decoded k body b Hb H) as H2. pose proof (fields_decoded k body b Hb H) as H3.
  unfold decoded. destruct k; try done; try (by destruct H1 as (? & ? & ? & ? & ?)); cbn [decode_body] in H; apply res_bind_ok in H as (m & H & Hm); injection Hm as <-.
  - split; [done|]. by destruct (pub_decoded body m Hb H) as (? & ? & ? & _).
  - by apply (declare_decoded body).
  - by apply (sub_to_decoded body).
Qed.

Lemma body_exact k body b : bytes_ok body -> exact_kind k = true -> decode_body k body = Ok b -> encode_body b [] = (body, Ok tt).
Proof.
  intros Hb He H. pose proof (fixed_decoded k body b Hb H) as H1. destruct k; try done; try (by destruct H1 as (? & ? & ? & ? & ?)).
  cbn [decode_body] in H. apply res_bind_ok in H as (m & H & Hm). injection Hm as <-. by destruct (pub_decoded body m Hb H) as (_ & _ & _ & ?).
Qed.

(** *** No decoder panics *)

Lemma reader_take_total n r : no_panic (reader_take n r).
Proof. unfold reader_take. by destruct (_ <? _)%nat. Qed.
Lemma reader_u8_total r : no_panic (reader_u8 r).
Proof. by destruct r. Qed.
Lemma reader_le_total n r : no_panic (reader_le n r).
Proof. apply no_panic_bind; [apply reader_take_total|]. by intros []. Qed.
Lemma reader_var_total r : no_panic (reader_var r).
Proof. apply no_panic_bind; [apply reader_le_total|]. intros [] _. apply reader_take_total. Qed.
Lemma read_capped_total cap r : no_panic (read_capped cap r).
Proof. apply no_panic_bind; [apply reader_le_total|]. intros [] _. destruct (_ <? _)%nat; [done|]. apply reader_take_total. Qed.
Lemma read_block_total v r : no_panic (read_block v r).
Proof.
  apply no_panic_bind; [apply reader_u8_total|]. intros [] _. destruct (negb _); [done|]. apply no_panic_bind; [apply reader_le_total|].
  intros [] _. apply reader_take_total.
Qed.
Lemma ack_op_from_u8_total x : no_panic (ack_op_from_u8 x).
Proof. unfold ack_op_from_u8. by destruct x as [|[[]|[]|]|]. Qed.

Create HintDb wire discriminated.
#[local] Hint Resolve reader_take_total reader_u8_total reader_le_total reader_var_total read_capped_total read_block_total ack_op_from_u8_total : wire.

Ltac total_step :=
  match goal with
  | |- no_panic (res_bind _ _) => apply no_panic_bind; [|intros ? _]
  | |- no_panic (let (_, _) := ?p in _) => destruct p
  | |- no_panic (if ?b then _ else _) => destruct b
  | |- no_panic (match ?x with _ => _ end) => destruct x
  | |- no_panic (Ok _) => exact I
  | |- no_panic (Err _) => exact I
  | |- _ => solve [auto with wire nocore]
  end.

Lemma decode_body_total k body : no_panic (decode_body k body).
Proof.
  destruct k; cbn [decode_body];
    unfold decode_pub, decode_ack, decode_deliver, decode_deliver_batch, decode_cumulative_ack, decode_pub_ack, decode_dead_letter, decode_truncated,
      decode_gap_marker, decode_produce_confirm, decode_not_leader, decode_connect, parse_connect_auth, unpack_password_material, decode_info, decode_fetch,
      decode_stream_fetch, decode_stream_commit, decode_stream_declare, decode_stream_info, decode_stream_info_response, decode_pub_to, decode_sub_to,
      decode_txn_prepare, decode_txn_resolve, decode_txn_check_result, decode_txn_listen, decode_bind_subject, decode_pub_subject, decode_sub_subject,
      decode_pause_group, read_stream_id, read_txn_id, read_subject, reader_u16, reader_u32, reader_u64;
    repeat total_step.
Qed.

(** *** Frames built in place *)

Lemma encode_deliver_app msg out :
  encode_deliver msg out = (out ++ fst (encode_deliver msg []), snd (encode_deliver msg [])).
Proof.
  unfold encode_deliver, push_var. destruct (u16_try_from (length (dl_key msg))); cbn [out_bind app fst snd]; [|by rewrite <- ?app_assoc].
  destruct (u16_try_from (length (dl_headers msg))); cbn [out_bind app fst snd]; by rewrite <- ?app_assoc.
Qed.

(** The frame of a delivery written in place is the frame of its body, and a
    body that cannot be written leaves nothing. *)
Lemma deliver_frame_agrees msg out :
  Z.of_nat (length (fst (encode_deliver msg []))) < u32_max ->
  encode_deliver_frame msg out =
  match encode_deliver msg [] with
  | (body, Ok _) => (out ++ frame_bytes (as_u8 FtDeliver) body, Ok tt)
  | (_, Err e) => (out, Err e)
  | (_, Panic) => (out ++ [0; 0; 0; 0] ++ [as_u8 FtDeliver], Panic)
  end.
Proof.
  intros Hl. unfold encode_deliver_frame. rewrite encode_deliver_app. destruct (encode_deliver msg []) as [body [[]|e|]] eqn:He; cbn [fst snd] in *.
  - rewrite !length_app. cbn [length]. destruct (Z.ltb_spec u32_max (1 + (Z.of_nat (length out + (4 + 1) + length body) - Z.of_nat (length out + (4 + 1))))); [lia|].
    destruct (Nat.ltb_spec (length out + (4 + 1) + length body) (length out + 4)); [lia|].
    rewrite <- !app_assoc, take_app_length. do 2 f_equal. unfold frame_bytes. f_equal; [f_equal; lia|].
    rewrite drop_app_ge by lia. replace (length out + 4 - length out)%nat with 4%nat by lia. done.
  - by rewrite <- !app_assoc, take_app_length.
  - exfalso. revert He. unfold encode_deliver, push_var. by destruct (u16_try_from (length (dl_key msg))), (u16_try_from (length (dl_headers msg))).
Qed.

Lemma deliver_batch_frame_agrees header records out :
  encode_deliver_batch_frame header records out = encode_frame FtDeliverBatch (encode_deliver_batch header records []) out /\
  encode_deliver_batch_frame header records out =
    out_bind (encode_deliver_batch_frame_header header (Z.of_nat (length records)) out) (fun out => (out ++ records, Ok tt)).
Proof.
  assert (Hl : length (encode_deliver_batch header records []) = (23 + length records)%nat)
    by (unfold encode_deliver_batch, write_deliver_batch_header; rewrite !length_app, !length_le_bytes; cbn [length]; lia).
  unfold encode_deliver_batch_frame, encode_frame, encode_deliver_batch_frame_header. rewrite Hl.
  replace (1 + (DELIVER_BATCH_HEADER_LEN + Z.of_nat (length records))) with (1 + Z.of_nat (23 + length records)) by (unfold DELIVER_BATCH_HEADER_LEN, DELIVER_BATCH_V1_FIELD_LEN; lia).
  destruct (MAX_FRAME_LEN <? _); [done|]. split; [|done]. unfold encode_deliver_batch, write_deliver_batch_header. by rewrite <- !app_assoc.
Qed.

(** ** What a peer reads *)


(** C15: the decoders accept only what can be written.  On any bytes no decoder
    panics; a body it returns encodes, and its encoding decodes to that body; for
    the bodies without an extensible block the encoding is the bytes read. *)
Theorem wire_decode_exact k body :
  bytes_ok body ->
  no_panic (decode_body k body) /\
  forall b, decode_body k body = Ok b ->
    kind_of b = k /\ exists bytes, encode_body b [] = (bytes, Ok tt) /\ decode_body k bytes = Ok b /\ (exact_kind k = true -> bytes = body).
Proof.
  intros Hb. split; [apply decode_body_total|]. intros b H. destruct (body_decoded k body b Hb H) as (Hk & Hok & Hf & Hn). split; [done|].
  destruct (body_roundtrip b Hok Hf) as (bytes & He & Hd). exists bytes. rewrite Hk, Hn in Hd. split; [by rewrite He|]. split; [done|].
  intros Hx. pose proof (body_exact k body b Hb Hx H) as Hc. rewrite He in Hc. by injection Hc.
Qed.

(** ** Evaluation *)

Definition demo_sub_to : Body := BSubTo (mk_sub_to [115] [103] (Some 3) true).
Definition demo_pub : Body := BPub (mk_pub 1 7 [107] [] (Some (mk_pub_dedup [97] 2 [98] (Some 5))) false [120]).


Definition demo_sub_to_bytes : list Z := Eval vm_compute in fst (encode_body demo_sub_to []).

Lemma wire_decode_exact_witness : bytes_ok demo_sub_to_bytes /\ no_panic (decode_body KSubTo demo_sub_to_bytes).
Proof.
  assert (Hb : bytes_ok demo_sub_to_bytes) by (apply (bool_decide_unpack _); vm_compute; exact I).
  split; [exact Hb|]. exact (proj1 (wire_decode_exact KSubTo demo_sub_to_bytes Hb)).
Defined.
