(* ===== verification/TxnStore.v ===== *)
(** * The durable store of half messages ([storage/src/txn.rs])

    A second log holds a record per prepared half message, per resolution and per
    back-check attempt, told apart by a magic in their headers.  Opening replays
    the records into the lifecycle table, the buffered payloads and the
    back-check book.  The log is seen as its records, of which a prefix is
    synced; [LogSafety] shows what a crash leaves of it.  The metadata codec is
    exact, and the replay of a log gives each transaction the state of its last
    record. *)

From S2P Require Import Prelude Search Lru Bytes Records Codec Disk SegmentFormat SegmentScan SegmentWriter Log Txn Subject.

(** ** Record metadata *)

Definition TXN_FORMAT_VERSION : Z := 1.
Definition TXN_HALF_MAGIC : list Z := [84; 88; 78; 72].
Definition TXN_OP_MAGIC : list Z := [84; 88; 78; 79].
Definition TXN_BACK_MAGIC : list Z := [84; 88; 78; 66].
Definition OP_KIND_COMMITTED : Z := 0.
Definition OP_KIND_ROLLED_BACK : Z := 1.

Record HalfMessage := mk_half {
  hm_txn_id : list Z;
  hm_stream : list Z;
  hm_timestamp_ms : Z;
  hm_key : list Z;
  hm_headers : list Z;
  hm_payload : list Z;
  hm_flags : Z
}.

Definition prepared_resident_bytes (txn_id stream key headers payload : list Z) : Z :=
  sat_add64 (sat_add64 (sat_add64 (sat_add64 (Z.of_nat (length txn_id)) (Z.of_nat (length stream))) (Z.of_nat (length key)))
    (Z.of_nat (length headers))) (Z.of_nat (length payload)).

Definition resident_bytes (h : HalfMessage) : Z :=
  prepared_resident_bytes (hm_txn_id h) (hm_stream h) (hm_key h) (hm_headers h) (hm_payload h).

Definition HALF_FIXED_LEN : nat := 4 + 1 + 2 + 2 + 2 + 1.
Definition OP_FIXED_LEN : nat := 4 + 1 + 1 + 2 + 8.
Definition BACK_FIXED_LEN : nat := 4 + 1 + 2 + 4 + 8.

Record HalfMeta := mk_half_meta { hf_txn_id : list Z; hf_stream : list Z; hf_orig_flags : Z; hf_orig_headers : list Z }.
Record OpMeta := mk_op_meta { op_txn_id : list Z; op_outcome : TxnOutcome; op_real_offset : Z }.
Record BackMeta := mk_back_meta { bk_txn_id : list Z; bk_attempts : Z; bk_next_eligible : Z }.
Inductive TxnRecordMeta := MetaHalf (h : HalfMeta) | MetaOp (o : OpMeta) | MetaBack (b : BackMeta).

Section codec.
Context `{Crc32c}.

(** The crc over everything before it. *)
Definition seal_crc (body : list Z) : list Z := body ++ le_bytes 4 (crc32c body).

Definition encode_half_meta (txn_id stream : list Z) (orig_flags : Z) (orig_headers : list Z) : option (list Z) :=
  txn_len ← u16_try_from (length txn_id);
  stream_len ← u16_try_from (length stream);
  headers_len ← u16_try_from (length orig_headers);
  Some (seal_crc (TXN_HALF_MAGIC ++ [TXN_FORMAT_VERSION] ++ le_bytes 2 txn_len ++ le_bytes 2 stream_len ++ le_bytes 2 headers_len ++
    [orig_flags] ++ txn_id ++ stream ++ orig_headers)).

Definition op_kind (outcome : TxnOutcome) : Z :=
  match outcome with Committed => OP_KIND_COMMITTED | RolledBack => OP_KIND_ROLLED_BACK end.

Definition encode_op_meta (txn_id : list Z) (outcome : TxnOutcome) (real_offset : Z) : option (list Z) :=
  txn_len ← u16_try_from (length txn_id);
  Some (seal_crc (TXN_OP_MAGIC ++ [TXN_FORMAT_VERSION] ++ [op_kind outcome] ++ le_bytes 2 txn_len ++ le_bytes 8 real_offset ++ txn_id)).

Definition encode_back_meta (txn_id : list Z) (attempts next_eligible : Z) : option (list Z) :=
  txn_len ← u16_try_from (length txn_id);
  Some (seal_crc (TXN_BACK_MAGIC ++ [TXN_FORMAT_VERSION] ++ le_bytes 2 txn_len ++ le_bytes 4 attempts ++ le_bytes 8 next_eligible ++ txn_id)).

Definition verify_crc (blob : list Z) : option (list Z) :=
  if (length blob <? 4)%nat then None
  else
    let crc_at := (length blob - 4)%nat in
    stored ← read_u32 blob crc_at;
    if negb (crc32c (take crc_at blob) =? stored) then None else Some (take crc_at blob).

Definition decode_half_meta (blob : list Z) : option HalfMeta :=
  body ← verify_crc blob;
  if (length body <? HALF_FIXED_LEN)%nat then None
  else
    version ← body !! 4%nat;
    if negb (version =? TXN_FORMAT_VERSION) then None
    else
      txn_len ← read_u16 body 5;
      stream_len ← read_u16 body 7;
      headers_len ← read_u16 body 9;
      orig_flags ← body !! 11%nat;
      let txn_start := HALF_FIXED_LEN in
      let stream_start := (txn_start + Z.to_nat txn_len)%nat in
      let headers_start := (stream_start + Z.to_nat stream_len)%nat in
      let headers_end := (headers_start + Z.to_nat headers_len)%nat in
      if negb (length body =? headers_end)%nat then None
      else
        txn_id ← slice body txn_start stream_start;
        stream ← slice body stream_start headers_start;
        if negb (utf8_valid stream) then None
        else
          orig_headers ← slice body headers_start headers_end;
          Some (mk_half_meta txn_id stream orig_flags orig_headers).

Definition decode_op_meta (blob : list Z) : option OpMeta :=
  body ← verify_crc blob;
  if (length body <? OP_FIXED_LEN)%nat then None
  else
    version ← body !! 4%nat;
    if negb (version =? TXN_FORMAT_VERSION) then None
    else
      kind ← body !! 5%nat;
      outcome ← (if kind =? OP_KIND_COMMITTED then Some Committed else if kind =? OP_KIND_ROLLED_BACK then Some RolledBack else None);
      txn_len ← read_u16 body 6;
      real_offset ← read_u64 body 8;
      let txn_end := (OP_FIXED_LEN + Z.to_nat txn_len)%nat in
      if negb (length body =? txn_end)%nat then None
      else
        txn_id ← slice body OP_FIXED_LEN txn_end;
        Some (mk_op_meta txn_id outcome real_offset).

Definition decode_back_meta (blob : list Z) : option BackMeta :=
  body ← verify_crc blob;
  if (length body <? BACK_FIXED_LEN)%nat then None
  else
    version ← body !! 4%nat;
    if negb (version =? TXN_FORMAT_VERSION) then None
    else
      txn_len ← read_u16 body 5;
      attempts ← read_u32 body 7;
      next_eligible ← read_u64 body 11;
      let txn_end := (BACK_FIXED_LEN + Z.to_nat txn_len)%nat in
      if negb (length body =? txn_end)%nat then None
      else
        txn_id ← slice body BACK_FIXED_LEN txn_end;
        Some (mk_back_meta txn_id attempts next_eligible).

Definition decode_meta (blob : list Z) : option TxnRecordMeta :=
  magic ← slice blob 0 4;
  if bool_decide (magic = TXN_HALF_MAGIC) then MetaHalf <$> decode_half_meta blob
  else if bool_decide (magic = TXN_OP_MAGIC) then MetaOp <$> decode_op_meta blob
  else if bool_decide (magic = TXN_BACK_MAGIC) then MetaBack <$> decode_back_meta blob
  else None.
End codec.

(** ** The store *)

(** How the log answers the calls of one append. *)
Record LogIo := mk_log_io { li_append : bool; li_sync : bool; li_millis : Z }.

Inductive TxnStoreError := TsStorage | TsUnframable.

Record TxnStore := mk_store {
  ts_log : list Append;
  ts_flushed : nat;
  ts_table : TxnTable;
  ts_back_check : BackCheckBook;
  ts_prepared_payloads : gmap (list Z) HalfMessage;
  ts_prepared_bytes : Z;
  ts_half_records : Z;
  ts_op_records : Z;
  ts_back_records : Z
}.

Definition with_table (s : TxnStore) (t : TxnTable) : TxnStore :=
  mk_store (ts_log s) (ts_flushed s) t (ts_back_check s) (ts_prepared_payloads s) (ts_prepared_bytes s) (ts_half_records s)
    (ts_op_records s) (ts_back_records s).
Definition with_book (s : TxnStore) (b : BackCheckBook) : TxnStore :=
  mk_store (ts_log s) (ts_flushed s) (ts_table s) b (ts_prepared_payloads s) (ts_prepared_bytes s) (ts_half_records s)
    (ts_op_records s) (ts_back_records s).
Definition with_log (s : TxnStore) (log : list Append) (flushed : nat) : TxnStore :=
  mk_store log flushed (ts_table s) (ts_back_check s) (ts_prepared_payloads s) (ts_prepared_bytes s) (ts_half_records s)
    (ts_op_records s) (ts_back_records s).
Definition with_payloads (s : TxnStore) (m : gmap (list Z) HalfMessage) (bytes : Z) : TxnStore :=
  mk_store (ts_log s) (ts_flushed s) (ts_table s) (ts_back_check s) m bytes (ts_half_records s) (ts_op_records s) (ts_back_records s).
Definition with_counts (s : TxnStore) (half op back : Z) : TxnStore :=
  mk_store (ts_log s) (ts_flushed s) (ts_table s) (ts_back_check s) (ts_prepared_payloads s) (ts_prepared_bytes s) half op back.

(** [self.log.append(..)?; self.log.sync()?] *)
Definition append_sync (s : TxnStore) (io : LogIo) (record : Append) : TxnStore * bool :=
  if negb (li_append io) then (s, false)
  else
    let s := with_log s (ts_log s ++ [record]) (ts_flushed s) in
    if negb (li_sync io) then (s, false) else (with_log s (ts_log s) (length (ts_log s)), true).

Section store.
Context `{Crc32c}.

(** ** Replay *)

Record Replayed := mk_replayed { rp_store : TxnStore; rp_attempts : gmap (list Z) Z }.

Definition replay_one (r : Replayed) (offset : Z) (record : Append) : Replayed :=
  let s := rp_store r in
  match decode_meta (ap_headers record) with
  | None => r
  | Some (MetaHalf h) =>
      let s := with_counts s (sat_add64 (ts_half_records s) 1) (ts_op_records s) (ts_back_records s) in
      let s := with_table s (table_restore (ts_table s) (hf_txn_id h) TxPrepared offset) in
      let half := mk_half (hf_txn_id h) (hf_stream h) (ap_timestamp_ms record) (ap_key record) (hf_orig_headers h) (ap_payload record)
                    (hf_orig_flags h) in
      mk_replayed (with_payloads s (<[hf_txn_id h := half]> (ts_prepared_payloads s)) (ts_prepared_bytes s)) (rp_attempts r)
  | Some (MetaOp o) =>
      let s := with_counts s (ts_half_records s) (sat_add64 (ts_op_records s) 1) (ts_back_records s) in
      let s := with_table s (table_restore (ts_table s) (op_txn_id o) (TxResolved (op_outcome o)) offset) in
      mk_replayed (with_payloads s (delete (op_txn_id o) (ts_prepared_payloads s)) (ts_prepared_bytes s))
        (delete (op_txn_id o) (rp_attempts r))
  | Some (MetaBack b) =>
      let s := with_counts s (ts_half_records s) (ts_op_records s) (sat_add64 (ts_back_records s) 1) in
      mk_replayed s (<[bk_txn_id b := bk_attempts b]> (rp_attempts r))
  end.

Fixpoint replay_records (r : Replayed) (offset : Z) (records : list Append) : Replayed :=
  match records with
  | [] => r
  | record :: records => replay_records (replay_one r offset record) (offset + 1) records
  end.

(** Re-enroll every prepared transaction with the attempts of its last record. *)
Definition reenroll (r : Replayed) : TxnStore :=
  let s := rp_store r in
  with_book s (foldl (fun b p => book_restore b p.1 (default 0 (rp_attempts r !! p.1)) 0) (ts_back_check s) (all_prepared (ts_table s))).

Definition sum_resident (m : gmap (list Z) HalfMessage) : Z := map_fold (fun _ h acc => sat_add64 acc (resident_bytes h)) 0 m.

Definition replay (s : TxnStore) : TxnStore :=
  let empty := mk_store (ts_log s) (ts_flushed s) (txn_table_new (tt_max_prepared (ts_table s)) (tt_max_resolved_tombstones (ts_table s)))
                 (book_new (bb_config (ts_back_check s))) ∅ 0 0 0 0 in
  if (ts_flushed s =? 0)%nat then empty
  else
    let s := reenroll (replay_records (mk_replayed empty ∅) 0 (take (ts_flushed s) (ts_log s))) in
    with_payloads s (ts_prepared_payloads s) (sum_resident (ts_prepared_payloads s)).

(** Opening the store over the records a crash left, all of them synced. *)
Definition store_open (log : list Append) (max_prepared max_resolved : nat) (back_check : BackCheckConfig) : TxnStore :=
  replay (mk_store log (length log) (txn_table_new max_prepared max_resolved) (book_new back_check) ∅ 0 0 0 0).

(** ** Appends *)

Definition append_half (s : TxnStore) (io : LogIo) (txn_id stream : list Z) (message : Append) : TxnStore * res unit TxnStoreError :=
  match encode_half_meta txn_id stream (ap_flags message) (ap_headers message) with
  | None => (s, Err TsUnframable)
  | Some meta =>
      let stored_flags := Z.land (ap_flags message) (Z.lxor u8_max HAS_KEY) in
      let '(s, ok) := append_sync s io (mk_append (ap_timestamp_ms message) stored_flags (ap_key message) meta (ap_payload message)) in
      if negb ok then (s, Err TsStorage)
      else
        let s := with_counts s (sat_add64 (ts_half_records s) 1) (ts_op_records s) (ts_back_records s) in
        let half := mk_half txn_id stream (ap_timestamp_ms message) (ap_key message) (ap_headers message) (ap_payload message)
                      (ap_flags message) in
        (with_payloads s (<[txn_id := half]> (ts_prepared_payloads s)) (sat_add64 (ts_prepared_bytes s) (resident_bytes half)), Ok tt)
  end.

Definition append_op (s : TxnStore) (io : LogIo) (txn_id : list Z) (outcome : TxnOutcome) (real_offset : Z)
    : TxnStore * res unit TxnStoreError :=
  match encode_op_meta txn_id outcome real_offset with
  | None => (s, Err TsUnframable)
  | Some meta =>
      let '(s, ok) := append_sync s io (mk_append (li_millis io) 0 [] meta []) in
      if negb ok then (s, Err TsStorage)
      else
        let s := with_counts s (ts_half_records s) (sat_add64 (ts_op_records s) 1) (ts_back_records s) in
        match ts_prepared_payloads s !! txn_id with
        | Some half =>
            (with_payloads s (delete txn_id (ts_prepared_payloads s)) (sat_sub (ts_prepared_bytes s) (resident_bytes half)), Ok tt)
        | None => (s, Ok tt)
        end
  end.

Definition mark_committed (s : TxnStore) (io : LogIo) (txn_id : list Z) (real_offset : Z) : TxnStore * res unit TxnStoreError :=
  append_op s io txn_id Committed real_offset.
Definition mark_rolled_back (s : TxnStore) (io : LogIo) (txn_id : list Z) : TxnStore * res unit TxnStoreError :=
  append_op s io txn_id RolledBack 0.

Definition append_back_check (s : TxnStore) (io : LogIo) (txn_id : list Z) (attempts next_eligible : Z)
    : TxnStore * res unit TxnStoreError :=
  match encode_back_meta txn_id attempts next_eligible with
  | None => (s, Err TsUnframable)
  | Some meta =>
      let '(s, ok) := append_sync s io (mk_append (li_millis io) 0 [] meta []) in
      if negb ok then (s, Err TsStorage)
      else (with_counts s (ts_half_records s) (ts_op_records s) (sat_add64 (ts_back_records s) 1), Ok tt)
  end.
End store.

(** ** The metadata codec is exact *)

Definition encode_meta `{Crc32c} (m : TxnRecordMeta) : option (list Z) :=
  match m with
  | MetaHalf h => encode_half_meta (hf_txn_id h) (hf_stream h) (hf_orig_flags h) (hf_orig_headers h)
  | MetaOp o => encode_op_meta (op_txn_id o) (op_outcome o) (op_real_offset o)
  | MetaBack b => encode_back_meta (bk_txn_id b) (bk_attempts b) (bk_next_eligible b)
  end.

(** The types of the fields: a stream name is a string. *)
Definition meta_typed (m : TxnRecordMeta) : Prop :=
  match m with
  | MetaHalf h => utf8_valid (hf_stream h) = true
  | MetaOp o => is_u64 (op_real_offset o)
  | MetaBack b => is_u32 (bk_attempts b) /\ is_u64 (bk_next_eligible b)
  end.

Section codec_exact.
Context `{Crc32c}.

Lemma verify_crc_seal body : verify_crc (seal_crc body) = Some body.
Proof.
  unfold verify_crc, seal_crc. rewrite length_app, length_le_bytes. destruct (Nat.ltb_spec (length body + 4) 4); [lia|].
  replace (length body + 4 - 4)%nat with (length body) by lia. rewrite take_app_length. unfold read_u32.
  rewrite <- (app_nil_r (le_bytes 4 _)), read_le_mid by (by rewrite ?length_le_bytes).
  rewrite le_val_le_bytes by auto with bytes. cbn [mbind option_bind]. by rewrite Z.eqb_refl.
Qed.

Lemma verify_crc_inv blob body : bytes_ok blob -> verify_crc blob = Some body -> blob = seal_crc body /\ bytes_ok body.
Proof.
  intros Hb. unfold verify_crc. destruct (Nat.ltb_spec (length blob) 4) as [|Hl]; [done|].
  destruct (read_u32 blob (length blob - 4)) as [stored|] eqn:Hr; [|done]. cbn [mbind option_bind].
  destruct (Z.eqb_spec (crc32c (take (length blob - 4) blob)) stored) as [Hc|]; [|done]. intros [= <-].
  split; [|by apply Forall_take]. unfold seal_crc. rewrite Hc, (read_le_bytes _ _ _ _ Hb Hr).
  rewrite (take_ge (drop _ _)) by (rewrite length_drop; lia). by rewrite take_drop.
Qed.

Lemma seal_crc_magic magic rest : length magic = 4%nat -> slice (seal_crc (magic ++ rest)) 0 4 = Some magic.
Proof.
  intros Hm. unfold seal_crc. rewrite <- app_assoc. rewrite slice_0 by (rewrite !length_app; lia). by rewrite <- Hm, take_app_length.
Qed.

Lemma read_u16_at body pos n : (pos + 2 <= length body)%nat -> take 2 (drop pos body) = le_bytes 2 (Z.of_nat n) -> Z.of_nat n <= u16_max ->
  exists z, read_u16 body pos = Some z /\ Z.to_nat z = n.
Proof.
  intros Hl Ht Hn. unfold read_u16. rewrite read_le_Some, Ht by done. eexists. split; [done|]. by apply le_bytes_u16_len.
Qed.

Lemma half_meta_roundtrip h blob :
  utf8_valid (hf_stream h) = true -> encode_meta (MetaHalf h) = Some blob -> decode_meta blob = Some (MetaHalf h).
Proof.
  destruct h as [id st fl hd]. cbn. intros Hu He. unfold encode_half_meta in He.
  destruct (u16_try_from (length id)) as [tl|] eqn:E1; [|done]. destruct (u16_try_from (length st)) as [sl|] eqn:E2; [|done].
  destruct (u16_try_from (length hd)) as [hl|] eqn:E3; [|done]. cbn [mbind option_bind] in He. apply (inj Some) in He. subst blob.
  apply u16_try_from_inv in E1 as [-> H1], E2 as [-> H2], E3 as [-> H3].
  unfold decode_meta. rewrite seal_crc_magic by done. cbn [mbind option_bind]. rewrite bool_decide_true by done.
  unfold decode_half_meta. rewrite verify_crc_seal. cbn [mbind option_bind]. set (body := TXN_HALF_MAGIC ++ _).
  assert (Hlen : length body = (12 + length id + length st + length hd)%nat).
  { unfold body. rewrite !length_app, !length_le_bytes. cbn. lia. }
  unfold HALF_FIXED_LEN. destruct (Nat.ltb_spec (length body) (4 + 1 + 2 + 2 + 2 + 1)) as [|_]; [lia|].
  change (body !! 4%nat) with (Some TXN_FORMAT_VERSION). cbn [mbind option_bind]. rewrite Z.eqb_refl. cbn [negb].
  destruct (read_u16_at body 5 (length id) ltac:(lia) eq_refl H1) as (z1 & -> & Z1).
  destruct (read_u16_at body 7 (length st) ltac:(lia) eq_refl H2) as (z2 & -> & Z2).
  destruct (read_u16_at body 9 (length hd) ltac:(lia) eq_refl H3) as (z3 & -> & Z3).
  change (body !! 11%nat) with (Some fl). cbn [mbind option_bind]. rewrite Z1, Z2, Z3.
  rewrite (proj2 (Nat.eqb_eq _ _)) by lia. cbn [negb].
  assert (D : drop 12 body = id ++ st ++ hd) by reflexivity.
  change (4 + 1 + 2 + 2 + 2 + 1)%nat with 12%nat in *.
  rewrite (slice_at body 12 (12 + length id) id (st ++ hd)); [|lia|exact D|lia]. cbn [mbind option_bind].
  rewrite (slice_at body (12 + length id) (12 + length id + length st) st hd); [|lia|rewrite <- drop_drop, D; apply drop_app_length|lia]. cbn [mbind option_bind]. rewrite Hu. cbn [negb].
  rewrite (slice_at body _ _ hd []); [done|lia| |lia].
  rewrite app_nil_r, <- drop_drop, <- drop_drop, D, drop_app_length. apply drop_app_length.
Qed.

Lemma op_meta_roundtrip o blob :
  is_u64 (op_real_offset o) -> encode_meta (MetaOp o) = Some blob -> decode_meta blob = Some (MetaOp o).
Proof.
  destruct o as [id out off]. cbn. intros Hu He. unfold encode_op_meta in He.
  destruct (u16_try_from (length id)) as [tl|] eqn:E1; [|done]. cbn [mbind option_bind] in He. apply (inj Some) in He. subst blob.
  apply u16_try_from_inv in E1 as [-> H1].
  unfold decode_meta. rewrite seal_crc_magic by done. cbn [mbind option_bind]. rewrite bool_decide_false, bool_decide_true by done.
  unfold decode_op_meta. rewrite verify_crc_seal. cbn [mbind option_bind]. set (body := TXN_OP_MAGIC ++ _).
  assert (Hlen : length body = (16 + length id)%nat) by (unfold body; rewrite !length_app, !length_le_bytes; cbn; lia).
  unfold OP_FIXED_LEN. destruct (Nat.ltb_spec (length body) (4 + 1 + 1 + 2 + 8)) as [|_]; [lia|].
  change (body !! 4%nat) with (Some TXN_FORMAT_VERSION). cbn [mbind option_bind]. rewrite Z.eqb_refl. cbn [negb].
  change (body !! 5%nat) with (Some (op_kind out)). cbn [mbind option_bind].
  destruct (read_u16_at body 6 (length id) ltac:(lia) eq_refl H1) as (z1 & -> & Z1).
  unfold read_u64. rewrite read_le_Some by lia. change (take 8 (drop 8 body)) with (le_bytes 8 off).
  rewrite le_val_le_bytes by (by apply u64_pow). destruct out; cbn [mbind option_bind op_kind Z.eqb OP_KIND_COMMITTED OP_KIND_ROLLED_BACK];
    (rewrite Z1, (proj2 (Nat.eqb_eq _ _)) by lia); cbn [negb]; (rewrite (slice_at body _ _ id []); [done|lia|by rewrite app_nil_r|lia]).
Qed.

Lemma back_meta_roundtrip b blob :
  is_u32 (bk_attempts b) -> is_u64 (bk_next_eligible b) -> encode_meta (MetaBack b) = Some blob -> decode_meta blob = Some (MetaBack b).
Proof.
  destruct b as [id att next]. cbn. intros Ha Hn He. unfold encode_back_meta in He.
  destruct (u16_try_from (length id)) as [tl|] eqn:E1; [|done]. cbn [mbind option_bind] in He. apply (inj Some) in He. subst blob.
  apply u16_try_from_inv in E1 as [-> H1].
  unfold decode_meta. rewrite seal_crc_magic by done. cbn [mbind option_bind]. rewrite !bool_decide_false, bool_decide_true by done.
  unfold decode_back_meta. rewrite verify_crc_seal. cbn [mbind option_bind]. set (body := TXN_BACK_MAGIC ++ _).
  assert (Hlen : length body = (19 + length id)%nat) by (unfold body; rewrite !length_app, !length_le_bytes; cbn; lia).
  unfold BACK_FIXED_LEN. destruct (Nat.ltb_spec (length body) (4 + 1 + 2 + 4 + 8)) as [|_]; [lia|].
  change (body !! 4%nat) with (Some TXN_FORMAT_VERSION). cbn [mbind option_bind]. rewrite Z.eqb_refl. cbn [negb].
  destruct (read_u16_at body 5 (length id) ltac:(lia) eq_refl H1) as (z1 & -> & Z1).
  unfold read_u32, read_u64. rewrite !read_le_Some by lia. change (take 4 (drop 7 body)) with (le_bytes 4 att).
  change (take 8 (drop 11 body)) with (le_bytes 8 next). rewrite !le_val_le_bytes by (by first [apply u64_pow|apply u32_pow]).
  cbn [mbind option_bind]. rewrite Z1, (proj2 (Nat.eqb_eq _ _)) by lia. cbn [negb].
  rewrite (slice_at body _ _ id []); [done|lia|by rewrite app_nil_r|lia].
Qed.

Lemma meta_magic blob magic body : slice blob 0 4 = Some magic -> blob = seal_crc body -> (4 <= length body)%nat -> take 4 body = magic.
Proof.
  intros Hs -> Hl. rewrite slice_0 in Hs by (unfold seal_crc; rewrite length_app; lia). apply (inj Some) in Hs. rewrite <- Hs.
  unfold seal_crc. by rewrite take_app_le.
Qed.

Lemma u16_field body pos a b : bytes_ok body -> take 2 (drop pos body) = [a; b] -> (pos + 2 <= length body)%nat ->
  read_u16 body pos = Some (le_val [a; b]) /\ forall n, Z.to_nat (le_val [a; b]) = n -> u16_try_from n = Some (le_val [a; b]) /\ le_bytes 2 (le_val [a; b]) = [a; b].
Proof.
  intros Hb Ht Hl. assert (Hab : bytes_ok [a; b]) by (rewrite <- Ht; by apply Forall_take_drop). split; [unfold read_u16; by rewrite read_le_Some, Ht|].
  intros n Hn. pose proof (le_val_bounds _ Hab) as Hbd. change (256 ^ Z.of_nat (length [a; b])) with 65536 in Hbd.
  split; [|by apply (le_bytes_le_val' 2)]. rewrite u16_try_from_Some; [f_equal; lia|]. unfold u16_max. lia.
Qed.

Lemma half_meta_canonical blob h :
  bytes_ok blob -> slice blob 0 4 = Some TXN_HALF_MAGIC -> decode_half_meta blob = Some h ->
  utf8_valid (hf_stream h) = true /\ encode_meta (MetaHalf h) = Some blob.
Proof.
  intros Hb Hm. unfold decode_half_meta. destruct (verify_crc blob) as [body|] eqn:Hv; [|done]. cbn [mbind option_bind].
  destruct (verify_crc_inv _ _ Hb Hv) as [Hseal Hbody]. unfold HALF_FIXED_LEN.
  destruct (Nat.ltb_spec (length body) (4 + 1 + 2 + 2 + 2 + 1)) as [|Hl]; [done|]. pose proof (meta_magic _ _ _ Hm Hseal ltac:(lia)) as Hmag.
  change (4 + 1 + 2 + 2 + 2 + 1)%nat with 12%nat in *.
  do 12 (destruct body as [|? body]; [cbn in Hl; lia|]). cbn in Hmag. set (full := _ :: _ :: _ :: _ :: _) in *.
  change (full !! 4%nat) with (Some z3). change (full !! 11%nat) with (Some z10). cbn [mbind option_bind].
  destruct (Z.eqb_spec z3 TXN_FORMAT_VERSION) as [->|]; [|done]. cbn [negb].
  destruct (u16_field full 5 z4 z5 Hbody eq_refl ltac:(lia)) as [-> U1]. destruct (u16_field full 7 z6 z7 Hbody eq_refl ltac:(lia)) as [-> U2].
  destruct (u16_field full 9 z8 z9 Hbody eq_refl ltac:(lia)) as [-> U3]. cbn [mbind option_bind].
  destruct (U1 _ eq_refl) as [V1 W1], (U2 _ eq_refl) as [V2 W2], (U3 _ eq_refl) as [V3 W3]. clear U1 U2 U3.
  set (n1 := Z.to_nat (le_val [z4; z5])) in *. set (n2 := Z.to_nat (le_val [z6; z7])) in *. set (n3 := Z.to_nat (le_val [z8; z9])) in *.
  destruct (Nat.eqb_spec (length full) (12 + n1 + n2 + n3)) as [Hlen|]; [|done]. cbn [negb].
  rewrite !slice_Some by lia. cbn [mbind option_bind].
  replace (12 + n1 - 12)%nat with n1 by lia. replace (12 + n1 + n2 - (12 + n1))%nat with n2 by lia.
  replace (12 + n1 + n2 + n3 - (12 + n1 + n2))%nat with n3 by lia. rewrite <- !drop_drop. change (drop 12 full) with body in *.
  destruct (utf8_valid (take n2 (drop n1 body))) eqn:Hu; [|done]. cbn [negb]. intros Hh. apply (inj Some) in Hh. subst h.
  split; [done|]. cbn [encode_meta hf_txn_id hf_stream hf_orig_flags hf_orig_headers]. unfold encode_half_meta.
  assert (Hbl : length body = (n1 + n2 + n3)%nat) by (cbn in Hlen; lia).
  rewrite !length_take, !length_drop. replace (n1 `min` length body)%nat with n1 by lia.
  replace (n2 `min` (length body - n1))%nat with n2 by lia. replace (n3 `min` (length body - n1 - n2))%nat with n3 by lia.
  rewrite V1, V2, V3. cbn [mbind option_bind]. rewrite Hseal, W1, W2, W3, <- Hmag. f_equal. f_equal. unfold full. cbn. do 12 f_equal.
  rewrite (take_ge (drop n2 _)) by (rewrite !length_drop; lia). by rewrite take_drop, take_drop.
Qed.

Lemma op_meta_canonical blob o :
  bytes_ok blob -> slice blob 0 4 = Some TXN_OP_MAGIC -> decode_op_meta blob = Some o ->
  is_u64 (op_real_offset o) /\ encode_meta (MetaOp o) = Some blob.
Proof.
  intros Hb Hm. unfold decode_op_meta. destruct (verify_crc blob) as [body|] eqn:Hv; [|done]. cbn [mbind option_bind].
  destruct (verify_crc_inv _ _ Hb Hv) as [Hseal Hbody]. unfold OP_FIXED_LEN. change (4 + 1 + 1 + 2 + 8)%nat with 16%nat.
  destruct (Nat.ltb_spec (length body) 16) as [|Hl]; [done|]. pose proof (meta_magic _ _ _ Hm Hseal ltac:(lia)) as Hmag.
  do 16 (destruct body as [|? body]; [cbn in Hl; lia|]). cbn in Hmag. set (full := _ :: _ :: _ :: _ :: _) in *.
  change (full !! 4%nat) with (Some z3). change (full !! 5%nat) with (Some z4). cbn [mbind option_bind].
  destruct (Z.eqb_spec z3 TXN_FORMAT_VERSION) as [->|]; [|done]. cbn [negb].
  set (out := if z4 =? OP_KIND_COMMITTED then _ else _). assert (Hout : forall x, out = Some x -> op_kind x = z4).
  { intros x. unfold out. destruct (Z.eqb_spec z4 OP_KIND_COMMITTED) as [->|]; [by intros [= <-]|].
    destruct (Z.eqb_spec z4 OP_KIND_ROLLED_BACK) as [->|]; [by intros [= <-]|done]. }
  destruct out as [x|]; [|done]. specialize (Hout x eq_refl). cbn [mbind option_bind].
  destruct (u16_field full 6 z5 z6 Hbody eq_refl ltac:(lia)) as [-> U1]. unfold read_u64. rewrite read_le_Some by lia. cbn [mbind option_bind].
  change (take 8 (drop 8 full)) with [z7; z8; z9; z10; z11; z12; z13; z14]. set (off := le_val [z7; z8; z9; z10; z11; z12; z13; z14]).
  assert (Hoff : bytes_ok [z7; z8; z9; z10; z11; z12; z13; z14]) by (change (bytes_ok (take 8 (drop 8 full))); by apply Forall_take_drop).
  destruct (U1 _ eq_refl) as [V1 W1]. set (n1 := Z.to_nat (le_val [z5; z6])) in *.
  destruct (Nat.eqb_spec (length full) (16 + n1)) as [Hlen|]; [|done]. cbn [negb]. rewrite slice_Some by lia. cbn [mbind option_bind].
  replace (16 + n1 - 16)%nat with n1 by lia. change (drop 16 full) with body in *. intros Hh. apply (inj Some) in Hh. subst o.
  split; [by apply le_val_u64|]. cbn [encode_meta op_txn_id op_outcome op_real_offset]. unfold encode_op_meta.
  assert (Hbl : length body = n1) by (cbn in Hlen; lia). rewrite take_ge by lia. rewrite Hbl, V1. cbn [mbind option_bind].
  rewrite Hseal, W1, Hout. unfold off. rewrite (le_bytes_le_val' 8) by done. rewrite <- Hmag. done.
Qed.

Lemma back_meta_canonical blob b :
  bytes_ok blob -> slice blob 0 4 = Some TXN_BACK_MAGIC -> decode_back_meta blob = Some b ->
  is_u32 (bk_attempts b) /\ is_u64 (bk_next_eligible b) /\ encode_meta (MetaBack b) = Some blob.
Proof.
  intros Hb Hm. unfold decode_back_meta. destruct (verify_crc blob) as [body|] eqn:Hv; [|done]. cbn [mbind option_bind].
  destruct (verify_crc_inv _ _ Hb Hv) as [Hseal Hbody]. unfold BACK_FIXED_LEN. change (4 + 1 + 2 + 4 + 8)%nat with 19%nat.
  destruct (Nat.ltb_spec (length body) 19) as [|Hl]; [done|]. pose proof (meta_magic _ _ _ Hm Hseal ltac:(lia)) as Hmag.
  do 19 (destruct body as [|? body]; [cbn in Hl; lia|]). cbn in Hmag. set (full := _ :: _ :: _ :: _ :: _) in *.
  change (full !! 4%nat) with (Some z3). cbn [mbind option_bind].
  destruct (Z.eqb_spec z3 TXN_FORMAT_VERSION) as [->|]; [|done]. cbn [negb].
  destruct (u16_field full 5 z4 z5 Hbody eq_refl ltac:(lia)) as [-> U1]. unfold read_u32, read_u64. rewrite !read_le_Some by lia. cbn [mbind option_bind].
  change (take 4 (drop 7 full)) with [z6; z7; z8; z9]. change (take 8 (drop 11 full)) with [z10; z11; z12; z13; z14; z15; z16; z17].
  assert (Hatt : bytes_ok [z6; z7; z8; z9]) by (change (bytes_ok (take 4 (drop 7 full))); by apply Forall_take_drop).
  assert (Hoff : bytes_ok [z10; z11; z12; z13; z14; z15; z16; z17]) by (change (bytes_ok (take 8 (drop 11 full))); by apply Forall_take_drop).
  destruct (U1 _ eq_refl) as [V1 W1]. set (n1 := Z.to_nat (le_val [z4; z5])) in *.
  destruct (Nat.eqb_spec (length full) (19 + n1)) as [Hlen|]; [|done]. cbn [negb]. rewrite slice_Some by lia. cbn [mbind option_bind].
  replace (19 + n1 - 19)%nat with n1 by lia. change (drop 19 full) with body in *. intros Hh. apply (inj Some) in Hh. subst b.
  split; [by apply le_val_u32|]. split; [by apply le_val_u64|]. cbn [encode_meta bk_txn_id bk_attempts bk_next_eligible]. unfold encode_back_meta.
  assert (Hbl : length body = n1) by (cbn in Hlen; lia). rewrite take_ge by lia. rewrite Hbl, V1. cbn [mbind option_bind].
  rewrite Hseal, W1, (le_bytes_le_val' 4), (le_bytes_le_val' 8) by done. rewrite <- Hmag. done.
Qed.

Lemma decode_encode_meta m blob : meta_typed m -> encode_meta m = Some blob -> decode_meta blob = Some m.
Proof.
  destruct m as [h|o|b]; cbn [meta_typed]; [apply half_meta_roundtrip|apply op_meta_roundtrip|]. intros [? ?]. by apply back_meta_roundtrip.
Qed.

(** The metadata of the transaction log's records is coded exactly: a blob
    decodes to a half, a resolution or a back-check record just when it is the
    encoding of one, and to that one. *)
Theorem txn_meta_exact blob m :
  bytes_ok blob -> (decode_meta blob = Some m <-> meta_typed m /\ encode_meta m = Some blob).
Proof.
  intros Hb. split; [|intros [? ?]; by apply decode_encode_meta]. unfold decode_meta.
  destruct (slice blob 0 4) as [magic|] eqn:Hm; [|done]. cbn [mbind option_bind].
  case_bool_decide as H1; [subst magic|case_bool_decide as H2; [subst magic|case_bool_decide as H3; [subst magic|done]]].
  - destruct (decode_half_meta blob) as [h|] eqn:Hd; [|done]. intros [= <-]. by apply half_meta_canonical.
  - destruct (decode_op_meta blob) as [o|] eqn:Hd; [|done]. intros [= <-]. by apply op_meta_canonical.
  - destruct (decode_back_meta blob) as [b|] eqn:Hd; [|done]. intros [= <-]. cbn [meta_typed].
    by destruct (back_meta_canonical blob b Hb Hm Hd) as (? & ? & ?).
Qed.
End codec_exact.

Section codec_evaluation.
#[local] Existing Instance castagnoli.

Definition demo_meta : TxnRecordMeta := MetaOp (mk_op_meta [97] Committed 7).
Definition demo_meta_blob : list Z := Eval vm_compute in default [] (encode_meta demo_meta).

Lemma txn_meta_exact_witness : bytes_ok demo_meta_blob /\ decode_meta demo_meta_blob = Some demo_meta.
Proof.
  assert (Hb : bytes_ok demo_meta_blob) by (apply (bool_decide_unpack _); vm_compute; exact I). split; [exact Hb|].
  apply (txn_meta_exact demo_meta_blob demo_meta Hb). split; [|vm_compute; reflexivity]. unfold demo_meta. cbn. unfold is_u64, u64_max. lia.
Defined.
End codec_evaluation.

(** ** Replay *)

Section replay_spec.
Context `{Crc32c}.

Inductive JournalState := JPrepared (half : HalfMessage) | JResolved (outcome : TxnOutcome).

Definition half_of (h : HalfMeta) (record : Append) : HalfMessage :=
  mk_half (hf_txn_id h) (hf_stream h) (ap_timestamp_ms record) (ap_key record) (hf_orig_headers h) (ap_payload record) (hf_orig_flags h).

(** The state the last half or resolution record of a transaction gives it. *)
Definition journal_step (id : list Z) (s : option JournalState) (record : Append) : option JournalState :=
  match decode_meta (ap_headers record) with
  | Some (MetaHalf h) => if decide (hf_txn_id h = id) then Some (JPrepared (half_of h record)) else s
  | Some (MetaOp o) => if decide (op_txn_id o = id) then Some (JResolved (op_outcome o)) else s
  | _ => s
  end.
Definition journal (id : list Z) (log : list Append) : option JournalState := foldl (journal_step id) None log.

(** The attempts of the last back-check record since the resolution. *)
Definition attempts_step (id : list Z) (s : option Z) (record : Append) : option Z :=
  match decode_meta (ap_headers record) with
  | Some (MetaOp o) => if decide (op_txn_id o = id) then None else s
  | Some (MetaBack b) => if decide (bk_txn_id b = id) then Some (bk_attempts b) else s
  | _ => s
  end.
Definition journal_attempts (id : list Z) (log : list Append) : option Z := foldl (attempts_step id) None log.

Definition lifecycle_of (s : option JournalState) : option TxnState :=
  match s with Some (JPrepared _) => Some TxPrepared | Some (JResolved o) => Some (TxResolved o) | None => None end.
Definition payload_of (s : option JournalState) : option HalfMessage :=
  match s with Some (JPrepared h) => Some h | _ => None end.

Lemma cancel_prepared_ok t id :
  txn_ok t -> txn_ok (cancel_prepared t id) /\ tt_prepared (cancel_prepared t id) = delete id (tt_prepared t) /\
  tt_resolved (cancel_prepared t id) = tt_resolved t.
Proof.
  intros Hok. unfold cancel_prepared. destruct (tt_prepared t !! id) as [e|] eqn:He.
  - split; [by apply leave_prepared_ok|done].
  - split; [done|]. by rewrite delete_id.
Qed.

Lemma table_restore_spec t id st i :
  txn_ok t ->
  txn_ok (table_restore t id st i) /\ txn_state (table_restore t id st i) id = Some st /\
  forall q, q <> id -> txn_state (table_restore t id st i) q = txn_state t q.
Proof.
  intros Hok. unfold table_restore. destruct (cancel_prepared_ok t id Hok) as (Hok1 & Hp & Hr). set (t1 := cancel_prepared t id) in *.
  assert (Hn : tt_prepared t1 !! id = None) by (rewrite Hp; apply lookup_delete_eq). destruct st as [|o].
  - split; [by apply enter_prepared_ok|]. unfold txn_state. cbn. split; [by rewrite lookup_insert_eq|]. intros q Hq.
    rewrite lookup_insert_ne by done. by rewrite Hp, Hr, lookup_delete_ne.
  - split; [by apply put_tombstone_ok|]. unfold txn_state. cbn. split; [by rewrite Hn, lookup_insert_eq|]. intros q Hq.
    rewrite lookup_insert_ne by done. by rewrite Hp, Hr, lookup_delete_ne.
Qed.

(** What the scan has rebuilt of each transaction. *)
Record replayed (r : Replayed) (log : list Append) : Prop := {
  rd_ok : txn_ok (ts_table (rp_store r));
  rd_state id : txn_state (ts_table (rp_store r)) id = lifecycle_of (journal id log);
  rd_payload id : ts_prepared_payloads (rp_store r) !! id = payload_of (journal id log);
  rd_attempts id : rp_attempts r !! id = journal_attempts id log;
  rd_book : bb_entries (ts_back_check (rp_store r)) = ∅
}.

Lemma journal_snoc id log record : journal id (log ++ [record]) = journal_step id (journal id log) record.
Proof. unfold journal. by rewrite foldl_app. Qed.
Lemma journal_attempts_snoc id log record : journal_attempts id (log ++ [record]) = attempts_step id (journal_attempts id log) record.
Proof. unfold journal_attempts. by rewrite foldl_app. Qed.

Lemma replay_one_spec r log offset record :
  replayed r log -> replayed (replay_one r offset record) (log ++ [record]).
Proof.
  intros [Hok Hs Hp Ha Hb]. unfold replay_one.
  split; try intros id; rewrite ?journal_snoc, ?journal_attempts_snoc; unfold journal_step, attempts_step;
    destruct (decode_meta (ap_headers record)) as [[h|o|b]|];
    cbn [rp_store rp_attempts with_payloads with_table with_counts ts_table ts_prepared_payloads ts_back_check]; try done;
    try (by apply table_restore_spec).
  - destruct (table_restore_spec (ts_table (rp_store r)) (hf_txn_id h) TxPrepared offset Hok) as (_ & H1 & H2).
    case_decide as Hid; [by subst|]. rewrite H2 by done. apply Hs.
  - destruct (table_restore_spec (ts_table (rp_store r)) (op_txn_id o) (TxResolved (op_outcome o)) offset Hok) as (_ & H1 & H2).
    case_decide as Hid; [by subst|]. rewrite H2 by done. apply Hs.
  - case_decide as Hid; [subst; by rewrite lookup_insert_eq|by rewrite lookup_insert_ne].
  - case_decide as Hid; [subst; by rewrite lookup_delete_eq|by rewrite lookup_delete_ne].
  - case_decide as Hid; [subst; by rewrite lookup_delete_eq|by rewrite lookup_delete_ne].
  - case_decide as Hid; [subst; by rewrite lookup_insert_eq|by rewrite lookup_insert_ne].
Qed.

Lemma replay_records_spec records : forall r log offset,
  replayed r log -> replayed (replay_records r offset records) (log ++ records).
Proof.
  induction records as [|record records IH]; intros r log offset Hr; [by rewrite app_nil_r|]. cbn [replay_records].
  rewrite cons_middle, app_assoc. apply IH. by apply replay_one_spec.
Qed.

Lemma fold_book_restore (f : list Z -> Z) (l : list (list Z * Z)) : forall b id,
  bb_entries (foldl (fun b p => book_restore b p.1 (f p.1) 0) b l) !! id =
  if decide (id ∈ l.*1) then Some (mk_bc_entry (f id) 0) else bb_entries b !! id.
Proof.
  induction l as [|[k i] l IH]; intros b id; cbn [foldl]; [by rewrite decide_False by apply not_elem_of_nil|].
  rewrite IH. cbn [book_restore bb_entries fmap list_fmap fst]. destruct (decide (id ∈ l.*1)) as [Hin|Hout].
  - by rewrite decide_True by by right.
  - destruct (decide (id = k)) as [->|Hne].
    + rewrite decide_True by left. apply lookup_insert_eq.
    + rewrite decide_False by (intros [?|?]%elem_of_cons; done). by rewrite lookup_insert_ne.
Qed.

Lemma replay_keeps_log r offset records :
  ts_log (rp_store (replay_records r offset records)) = ts_log (rp_store r) /\
  ts_flushed (rp_store (replay_records r offset records)) = ts_flushed (rp_store r).
Proof.
  revert r offset. induction records as [|record records IH]; intros r offset; [done|]. cbn [replay_records].
  destruct (IH (replay_one r offset record) (offset + 1)) as [-> ->]. unfold replay_one. by destruct (decode_meta _) as [[| |]|].
Qed.

(** What opening rebuilds. *)
Record opened (s : TxnStore) (log : list Append) : Prop := {
  on_log : ts_log s = log;
  on_flushed : ts_flushed s = length log;
  on_table : txn_ok (ts_table s);
  on_state id : txn_state (ts_table s) id = lifecycle_of (journal id log);
  on_payload id : ts_prepared_payloads s !! id = payload_of (journal id log);
  on_book id : bb_entries (ts_back_check s) !! id =
    match journal id log with
    | Some (JPrepared _) => Some (mk_bc_entry (default 0 (journal_attempts id log)) 0)
    | _ => None
    end;
  on_bytes : ts_prepared_bytes s = sum_resident (ts_prepared_payloads s)
}.

Lemma store_open_spec log max_prepared max_resolved bc : opened (store_open log max_prepared max_resolved bc) log.
Proof.
  unfold store_open, replay. cbn [ts_flushed ts_log ts_table ts_back_check].
  set (empty := mk_store log (length log) _ _ ∅ 0 0 0 0).
  assert (He : replayed (mk_replayed empty ∅) []) by (split; intros; try done; apply txn_table_new_ok).
  destruct (Nat.eqb_spec (length log) 0) as [Hz|_].
  { apply nil_length_inv in Hz. subst log. destruct He as [H1 H2 H3 H4 H5]. split; intros; try done. }
  pose proof (replay_records_spec (take (length log) log) _ _ 0 He) as Hr. destruct (replay_keeps_log (mk_replayed empty ∅) 0 (take (length log) log)) as [Hl Hf].
  rewrite app_nil_l, take_ge in Hr by done. rewrite take_ge in Hl, Hf |- * by done.
  set (r := replay_records (mk_replayed empty ∅) 0 log) in *. destruct Hr as [Hok Hs Hp Ha Hb].
  split; cbn [with_payloads reenroll with_book ts_log ts_flushed ts_table ts_prepared_payloads ts_back_check ts_prepared_bytes]; try done.
  intros id. rewrite (fold_book_restore (fun id => default 0 (rp_attempts r !! id))), Hb, Ha, lookup_empty.
  assert (Hin : id ∈ (all_prepared (ts_table (rp_store r))).*1 <-> lifecycle_of (journal id log) = Some TxPrepared).
  { rewrite <- Hs, txn_state_prepared by done. rewrite list_elem_of_fmap. split.
    - intros ([k i] & -> & Hk%all_prepared_elem); [|done]. cbn. by rewrite Hk.
    - intros [e Hx]. pose proof (to_prepared _ Hok _ _ Hx) as He'. destruct e as [st i]. cbn in He'. subst st.
      exists (id, i). split; [done|]. by apply all_prepared_elem. }
  case_decide as Hd; [apply Hin in Hd; by destruct (journal id log) as [[]|]|].
  destruct (journal id log) as [[h|o]|]; [|done..]. exfalso. by apply Hd, Hin.
Qed.

(** C25: opening the transaction log rebuilds the state its records describe:
    each transaction is in doubt with the message of its last half record, or
    resolved as its last resolution says, or unknown; each one in doubt is
    enrolled for a back-check at once with the attempts last recorded for it,
    and the resident bytes are those of the messages held. *)
Theorem txn_replay_exact log max_prepared max_resolved bc id :
  let s := store_open log max_prepared max_resolved bc in
  txn_state (ts_table s) id = lifecycle_of (journal id log) /\
  ts_prepared_payloads s !! id = payload_of (journal id log) /\
  bb_entries (ts_back_check s) !! id =
    match journal id log with
    | Some (JPrepared _) => Some (mk_bc_entry (default 0 (journal_attempts id log)) 0)
    | _ => None
    end /\
  ts_prepared_bytes s = sum_resident (ts_prepared_payloads s).
Proof. intros s. destruct (store_open_spec log max_prepared max_resolved bc) as [_ _ _ H1 H2 H3 H4]. by split_and!. Qed.
End replay_spec.
