(* ===== verification/TxnCommit.v ===== *)
(** * Two-phase produce ([engine.rs], transactional half messages)

    A producer prepares a half message, which is stored out of sight, and then
    commits it, which appends it to its stream, or rolls it back.  The commit
    appends under an identity of the transaction, makes the identity's high-water
    durable, syncs the record and then writes the resolution; a crash in between
    leaves the transaction prepared, and committing it again must not append it
    twice.  A scan asks the producers of old prepared transactions for their
    outcome and rolls back those that stay unanswered.

    The default stream and the sequence checkpoint are the broker of [Produce],
    the transaction log the store of [TxnStore].  A produce to a named stream is
    an answer of the environment. *)

From S2P Require Import Prelude Search Lru Bytes Records Codec Disk SegmentFormat SegmentScan SegmentWriter Log Dedup ProducerSeq Produce Txn Subject TxnStore.

(** ** The back-check router *)

Record ReadyCheck := mk_ready { rc_member : Z; rc_txn_id : list Z }.

Definition DEFAULT_MAX_PENDING_CHECKS : nat := Z.to_nat 65536.
Definition MAX_GROUP_LISTENERS_PER_CONN : nat := 1024.

Record TxnBackCheck := mk_router {
  rt_group_listener : gmap (list Z) Z;
  rt_txn_owner : gmap (list Z) (list Z);
  rt_pending : list ReadyCheck;
  rt_max_pending : nat;
  rt_max_group_listeners_per_conn : nat
}.

Definition router_new : TxnBackCheck := mk_router ∅ ∅ [] DEFAULT_MAX_PENDING_CHECKS MAX_GROUP_LISTENERS_PER_CONN.

Definition with_listeners (r : TxnBackCheck) (m : gmap (list Z) Z) : TxnBackCheck :=
  mk_router m (rt_txn_owner r) (rt_pending r) (rt_max_pending r) (rt_max_group_listeners_per_conn r).
Definition with_owners (r : TxnBackCheck) (m : gmap (list Z) (list Z)) : TxnBackCheck :=
  mk_router (rt_group_listener r) m (rt_pending r) (rt_max_pending r) (rt_max_group_listeners_per_conn r).
Definition with_pending (r : TxnBackCheck) (l : list ReadyCheck) : TxnBackCheck :=
  mk_router (rt_group_listener r) (rt_txn_owner r) l (rt_max_pending r) (rt_max_group_listeners_per_conn r).

(** [None] is the refusal at the connection's cap. *)
Definition register_listener (r : TxnBackCheck) (group : list Z) (member : Z) : option TxnBackCheck :=
  if decide (rt_group_listener r !! group = Some member) then Some r
  else
    let held := length (filter (fun p => p.2 = member) (map_to_list (rt_group_listener r))) in
    if (rt_max_group_listeners_per_conn r <=? held)%nat then None
    else Some (with_listeners r (<[group := member]> (rt_group_listener r))).

Definition set_owner (r : TxnBackCheck) (txn_id group : list Z) : TxnBackCheck :=
  if decide (group = []) then r else with_owners r (<[txn_id := group]> (rt_txn_owner r)).
Definition forget_owner (r : TxnBackCheck) (txn_id : list Z) : TxnBackCheck := with_owners r (delete txn_id (rt_txn_owner r)).
Definition owner_group (r : TxnBackCheck) (txn_id : list Z) : option (list Z) := rt_txn_owner r !! txn_id.
Definition route_for (r : TxnBackCheck) (txn_id : list Z) : option Z :=
  group ← rt_txn_owner r !! txn_id; rt_group_listener r !! group.

(** Drop the oldest until there is room. *)
Definition enqueue (r : TxnBackCheck) (member : Z) (txn_id : list Z) : TxnBackCheck :=
  let excess := (S (length (rt_pending r)) - rt_max_pending r)%nat in
  with_pending r (drop excess (rt_pending r) ++ [mk_ready member txn_id]).

Definition drain_for (r : TxnBackCheck) (member : Z) : TxnBackCheck * list ReadyCheck :=
  (with_pending r (filter (fun c => rc_member c <> member) (rt_pending r)), filter (fun c => rc_member c = member) (rt_pending r)).

Definition drop_member (r : TxnBackCheck) (member : Z) : TxnBackCheck :=
  with_pending (with_listeners r (filter (fun p => p.2 <> member) (rt_group_listener r)))
    (filter (fun c => rc_member c <> member) (rt_pending r)).

Definition is_idle (r : TxnBackCheck) : bool :=
  bool_decide (rt_group_listener r = ∅) && bool_decide (rt_txn_owner r = ∅) && bool_decide (rt_pending r = []).

(** ** The engine *)

Inductive TxnEngineError :=
| TeTxn (e : TxnError)
| TeStorage
| TeEncryptedTxnUnsupported
| TeTxnCheckUnauthorized.

Record TxnEngine := mk_txn_engine {
  en_broker : Broker;
  en_txn : option TxnStore;
  en_encrypted : bool;
  en_max_prepared : nat;
  en_max_prepared_bytes : option Z;
  en_back_check_config : BackCheckConfig;
  en_router : TxnBackCheck
}.

Definition with_broker (e : TxnEngine) (b : Broker) : TxnEngine :=
  mk_txn_engine b (en_txn e) (en_encrypted e) (en_max_prepared e) (en_max_prepared_bytes e) (en_back_check_config e) (en_router e).
Definition with_txn (e : TxnEngine) (s : TxnStore) : TxnEngine :=
  mk_txn_engine (en_broker e) (Some s) (en_encrypted e) (en_max_prepared e) (en_max_prepared_bytes e) (en_back_check_config e)
    (en_router e).
Definition with_router (e : TxnEngine) (r : TxnBackCheck) : TxnEngine :=
  mk_txn_engine (en_broker e) (en_txn e) (en_encrypted e) (en_max_prepared e) (en_max_prepared_bytes e) (en_back_check_config e) r.

(** The answers of the disk and the clock to one call: those of the default
    stream and its checkpoint, of the transaction log, and of a produce to a
    named stream. *)
Record TxnIo := mk_txn_io { ti_main : Io; ti_log : LogIo; ti_named : option Z }.
Definition ti_now (io : TxnIo) : Z := io_now (ti_main io).

Definition DEFAULT_MAX_RESOLVED_TOMBSTONES : nat := Z.to_nat 65536.

Definition TXN_DEDUP_PRODUCER_PREFIX : list Z := [0; 105; 114; 111; 110; 98; 117; 115; 45; 116; 120; 110; 58].
Definition txn_dedup_producer_id (txn_id : list Z) : list Z := TXN_DEDUP_PRODUCER_PREFIX ++ txn_id.

Section engine.
Context `{Crc32c}.

Definition ensure_txn_store (e : TxnEngine) : res (TxnEngine * TxnStore) TxnEngineError :=
  if en_encrypted e then Err TeEncryptedTxnUnsupported
  else
    match en_txn e with
    | Some s => Ok (e, s)
    | None =>
        let s := store_open [] (en_max_prepared e) DEFAULT_MAX_RESOLVED_TOMBSTONES (en_back_check_config e) in
        Ok (with_txn e s, s)
    end.

(** *** Prepare *)

Definition over_budget (e : TxnEngine) (s : TxnStore) (txn_id stream : list Z) (message : Append) : option Z :=
  match en_max_prepared_bytes e with
  | Some budget =>
      let need := prepared_resident_bytes txn_id stream (ap_key message) (ap_headers message) (ap_payload message) in
      if budget <? sat_add64 (ts_prepared_bytes s) need then Some budget else None
  | None => None
  end.

Definition txn_prepare (e : TxnEngine) (io : TxnIo) (txn_id stream : list Z) (message : Append) (listener_group : list Z)
    : TxnEngine * res unit TxnEngineError :=
  match ensure_txn_store e with
  | Err x => (e, Err x)
  | Panic => (e, Panic)
  | Ok (e, s) =>
      match Txn.txn_prepare (ts_table s) txn_id (ti_now io) with
      | (t, Err x) => (with_txn e (with_table s t), Err (TeTxn x))
      | (t, Panic) => (with_txn e (with_table s t), Panic)
      | (t, Ok PdAlreadyPrepared) =>
          (with_router (with_txn e (with_table s t)) (set_owner (en_router e) txn_id listener_group), Ok tt)
      | (t, Ok PdPrepared) =>
          let s := with_table s t in
          match over_budget e s txn_id stream message with
          | Some budget => (with_txn e (with_table s (cancel_prepared t txn_id)), Err (TeTxn (TooManyPreparedBytes budget)))
          | None =>
              match append_half s (ti_log io) txn_id stream message with
              | (s, Ok _) =>
                  let first := sat_add64 (ti_now io) (bc_timeout (bb_config (ts_back_check s))) in
                  let s := with_book s (book_enroll (ts_back_check s) txn_id first) in
                  (with_router (with_txn e s) (set_owner (en_router e) txn_id listener_group), Ok tt)
              | (s, Err _) =>
                  let s := with_table s (fst (table_rollback (ts_table s) txn_id (ti_now io))) in
                  (with_txn e (with_book s (book_forget (ts_back_check s) txn_id)), Err TeStorage)
              | (s, Panic) => (with_txn e s, Panic)
              end
          end
      end
  end.

(** *** Commit *)

Definition commit_append (half : HalfMessage) : Append :=
  mk_append (hm_timestamp_ms half) (Z.land (hm_flags half) (Z.lxor u8_max HAS_KEY)) (hm_key half) (hm_headers half) (hm_payload half).

Definition commit_real_append (b : Broker) (io : TxnIo) (txn_id : list Z) (half : HalfMessage) : Broker * res Z TxnEngineError :=
  if decide (hm_stream half = []) then
    match append_no_sync_dedup_checked b (ti_main io) (commit_append half)
            (Some (mk_request (txn_dedup_producer_id txn_id) 0 txn_id (Some 0))) with
    | (b, Ok (Appended offset)) | (b, Ok (DuplicateOf offset)) => (b, Ok offset)
    | (b, Ok (FencedBy _)) | (b, Ok (OutOfOrder _)) => (b, Err (TeTxn UnknownTxn))
    | (b, Err _) => (b, Err TeStorage)
    | (b, Panic) => (b, Panic)
    end
  else match ti_named io with Some offset => (b, Ok offset) | None => (b, Err TeStorage) end.

Definition flush_txn_commit_dedup (b : Broker) (io : TxnIo) : Broker * res unit ProduceError :=
  match ensure_producer_seq_checkpoint b (ti_main io) with
  | (b, Ok _) => checkpoint_producer_seq b (ti_main io)
  | (b, r) => (b, r)
  end.

Definition commit_durable_steps (b : Broker) (io : TxnIo) (txn_id : list Z) (half : HalfMessage) : Broker * res Z TxnEngineError :=
  match commit_real_append b io txn_id half with
  | (b, Ok real_offset) =>
      match flush_txn_commit_dedup b io with
      | (b, Ok _) =>
          match commit_batch b (ti_main io) with
          | (b, Ok _) => (b, Ok real_offset)
          | (b, Err _) => (b, Err TeStorage)
          | (b, Panic) => (b, Panic)
          end
      | (b, Err _) => (b, Err TeStorage)
      | (b, Panic) => (b, Panic)
      end
  | (b, r) => (b, r)
  end.

Definition dedup_offset_for (b : Broker) (txn_id : list Z) : Z :=
  match high_water (bk_seqs b) (txn_dedup_producer_id txn_id) with
  | Some (_, Some _, last_offset) => last_offset
  | _ => Z.of_nat (bk_flushed b)
  end.

(** The resolution is written: forget the back-check and the owner. *)
Definition settle (e : TxnEngine) (s : TxnStore) (txn_id : list Z) : TxnEngine :=
  with_router (with_txn e (with_book s (book_forget (ts_back_check s) txn_id))) (forget_owner (en_router e) txn_id).

Definition txn_commit (e : TxnEngine) (io : TxnIo) (txn_id : list Z) : TxnEngine * res Z TxnEngineError :=
  match ensure_txn_store e with
  | Err x => (e, Err x)
  | Panic => (e, Panic)
  | Ok (e, s) =>
      let '(t, decision) := table_commit (ts_table s) txn_id (ti_now io) in
      let s := with_table s t in
      let e := with_txn e s in
      match decision with
      | Err x => (e, Err (TeTxn x))
      | Panic => (e, Panic)
      | Ok RdAlreadyResolved => (e, Ok (dedup_offset_for (en_broker e) txn_id))
      | Ok RdResolved =>
          match ts_prepared_payloads s !! txn_id with
          | None => (e, Err (TeTxn UnknownTxn))
          | Some half =>
              match commit_durable_steps (en_broker e) io txn_id half with
              | (b, Ok real_offset) =>
                  let e := with_broker e b in
                  match mark_committed s (ti_log io) txn_id real_offset with
                  | (s, Ok _) => (settle e s txn_id, Ok real_offset)
                  | (s, Err _) => (with_txn e s, Err TeStorage)
                  | (s, Panic) => (with_txn e s, Panic)
                  end
              | (b, Err x) =>
                  (with_txn (with_broker e b) (with_table s (revert_resolved_to_prepared t txn_id (ti_now io))), Err x)
              | (b, Panic) => (with_broker e b, Panic)
              end
          end
      end
  end.

(** *** Rollback *)

Definition txn_rollback (e : TxnEngine) (io : TxnIo) (txn_id : list Z) : TxnEngine * res unit TxnEngineError :=
  match ensure_txn_store e with
  | Err x => (e, Err x)
  | Panic => (e, Panic)
  | Ok (e, s) =>
      let '(t, decision) := table_rollback (ts_table s) txn_id (ti_now io) in
      let s := with_table s t in
      let e := with_txn e s in
      match decision with
      | Err x => (e, Err (TeTxn x))
      | Panic => (e, Panic)
      | Ok RdAlreadyResolved => (e, Ok tt)
      | Ok RdResolved =>
          match mark_rolled_back s (ti_log io) txn_id with
          | (s, Ok _) => (settle e s txn_id, Ok tt)
          | (s, Err _) => (with_txn e s, Err TeStorage)
          | (s, Panic) => (with_txn e s, Panic)
          end
      end
  end.

(** *** Back-check *)

Definition is_prepared (e : TxnEngine) (txn_id : list Z) : bool :=
  match en_txn e with Some s => bool_decide (txn_state (ts_table s) txn_id = Some TxPrepared) | None => false end.

(** One due transaction of the scan; the answers of the disk are of this turn. *)
Definition back_check_one (e : TxnEngine) (io : TxnIo) (now : Z) (txn_id : list Z) : TxnEngine * res nat TxnEngineError :=
  if negb (is_prepared e txn_id) then (e, Ok 0%nat)
  else
    match ensure_txn_store e with
    | Err x => (e, Err x)
    | Panic => (e, Panic)
    | Ok (e, s) =>
        let '(book, outcome) := record_attempt (ts_back_check s) txn_id now in
        let '(attempts, next_eligible) := default (0, now) (bookkeeping book txn_id) in
        match append_back_check (with_book s book) (ti_log io) txn_id attempts next_eligible with
        | (s, Ok _) =>
            let e := with_txn e s in
            match outcome with
            | TerminalDefault =>
                match txn_rollback e io txn_id with
                | (e, Ok _) => (e, Ok 0%nat)
                | (e, Err x) => (e, Err x)
                | (e, Panic) => (e, Panic)
                end
            | Rescheduled =>
                match route_for (en_router e) txn_id with
                | Some member => (with_router e (enqueue (en_router e) member txn_id), Ok 1%nat)
                | None => (e, Ok 0%nat)
                end
            end
        | (s, Err _) => (with_txn e s, Err TeStorage)
        | (s, Panic) => (with_txn e s, Panic)
        end
    end.

Fixpoint back_check_loop (e : TxnEngine) (ios : list TxnIo) (now : Z) (due : list (list Z)) (issued : nat)
    : TxnEngine * res nat TxnEngineError :=
  match due with
  | [] => (e, Ok issued)
  | txn_id :: due =>
      let io := default (mk_txn_io (mk_io true true true true now) (mk_log_io true true 0) None) (head ios) in
      match back_check_one e io now txn_id with
      | (e, Ok n) => back_check_loop e (tail ios) now due (issued + n)
      | (e, r) => (e, r)
      end
  end.

Definition txn_back_check_tick (e : TxnEngine) (ios : list TxnIo) (now : Z) : TxnEngine * res nat TxnEngineError :=
  match en_txn e with
  | None => (e, Ok 0%nat)
  | Some s =>
      if bool_decide (bb_entries (ts_back_check s) = ∅) && is_idle (en_router e) then (e, Ok 0%nat)
      else back_check_loop e ios now (book_due (ts_back_check s) now) 0
  end.

Inductive TxnCheckDecision := CheckCommit | CheckRollback | CheckUnknown.

Definition resolve_txn_check (e : TxnEngine) (io : TxnIo) (txn_id : list Z) (decision : TxnCheckDecision) (answering_group : list Z)
    : TxnEngine * res unit TxnEngineError :=
  let owns := negb (bool_decide (answering_group = [])) && bool_decide (owner_group (en_router e) txn_id = Some answering_group) in
  if is_prepared e txn_id && negb owns then (e, Err TeTxnCheckUnauthorized)
  else
    match decision with
    | CheckCommit =>
        match txn_commit e io txn_id with
        | (e, Ok _) => (e, Ok tt)
        | (e, Err x) => (e, Err x)
        | (e, Panic) => (e, Panic)
        end
    | CheckRollback => txn_rollback e io txn_id
    | CheckUnknown => (e, Ok tt)
    end.

(** *** Restart *)

(** [Engine::open] over what a crash left: the default stream and its
    checkpoint, and the transaction log if there is one; the router starts
    empty. *)
Definition engine_reopen (e : TxnEngine) (kept : nat) (recovered : option (list Z)) (kept_txn : nat) (now : Z) : TxnEngine :=
  mk_txn_engine (reopen (en_broker e) kept recovered now)
    (match en_txn e with
     | Some s => Some (store_open (take kept_txn (ts_log s)) (en_max_prepared e) DEFAULT_MAX_RESOLVED_TOMBSTONES (en_back_check_config e))
     | None => None
     end)
    (en_encrypted e) (en_max_prepared e) (en_max_prepared_bytes e) (en_back_check_config e) router_new.
End engine.
