(* ===== verification/TxnSafety.v ===== *)
(** * Exactly-once commits

    Through prepares, commits, rollbacks, back-checks, other produces, failing
    files and crashes, a transaction's message is in the default stream at most
    once, and is there, synced, when the commit was answered or its resolution
    survives.  The runs this is shown for keep to three conditions, each of which
    the code does not ensure: [Evaluation] has a run without it that loses or
    repeats a message. *)

From S2P Require Import Prelude Search Lru Bytes Records Codec Disk SegmentFormat SegmentScan SegmentWriter Log Dedup ProducerSeq Produce Txn Subject TxnStore TxnCommit.

(** ** The default stream *)

Definition tid (id : list Z) : Identity := mk_identity (txn_dedup_producer_id id) 0 0.

(** The record of a transaction is at offset [o]. *)
Definition holds (records : list Stored) (id : list Z) (o : Z) : Prop :=
  exists n r, o = Z.of_nat n /\ records !! n = Some r /\ st_identity r = Some (tid id).

#[export] Instance txn_pid_inj : Inj (=) (=) txn_dedup_producer_id.
Proof. intros a b Hab. unfold txn_dedup_producer_id in Hab. by apply app_inv_head in Hab. Qed.

#[export] Instance tid_inj : Inj (=) (=) tid.
Proof. intros a b [= Hab]. by simplify_eq. Qed.

Lemma holds_app records r id o :
  holds (records ++ [r]) id o <-> holds records id o \/ o = Z.of_nat (length records) /\ st_identity r = Some (tid id).
Proof.
  unfold holds. split.
  - intros (n & x & -> & Hn & Hx). apply lookup_app_Some in Hn as [Hn|[Hle Hn]]; [left; eauto 10|right].
    apply list_lookup_singleton_Some in Hn as [Hz <-]. split; [f_equal; lia|done].
  - intros [(n & x & -> & Hn & Hx)|[-> Hx]].
    + exists n, x. split_and!; [done|by apply lookup_app_l_Some|done].
    + exists (length records), r. split_and!; [done|by apply list_lookup_middle|done].
Qed.

Lemma holds_lt records id o : holds records id o -> 0 <= o < Z.of_nat (length records).
Proof. intros (n & x & -> & Hn%lookup_lt_Some & _). lia. Qed.

Lemma holds_take records k id o : holds (take k records) id o <-> holds records id o /\ o < Z.of_nat k.
Proof.
  unfold holds. split.
  - intros (n & x & -> & [Hn Hk]%lookup_take_Some & Hx). split; [eauto 10|lia].
  - intros [(n & x & -> & Hn & Hx) Hk]. exists n, x. split_and!; [done| |done]. apply lookup_take_Some. split; [done|lia].
Qed.

(** The snapshot of every producer of the run fits its slot, and the registry
    keeps every one of them. *)
Definition room (all : gset (list Z)) : Prop :=
  (size all <= DEFAULT_MAX_SEQ_PRODUCERS)%nat /\
  (9 + sum_list_with (fun pid => 26 + length pid) (elements all) <= Z.to_nat PRODUCER_SEQ_PAYLOAD)%nat.

(** What a checkpoint payload says of the transactions is true of the records,
    as far as the log reaches, and names every synced one. *)
Record ckpt_fine (all : gset (list Z)) (records : list Stored) (flushed : nat) (entries : list SeqHighWater) : Prop := {
  cf_ok : Forall hw_ok entries;
  cf_ascend : ids_ascend None entries;
  cf_dom e : e ∈ entries -> hw_producer_id e ∈ all;
  cf_true e id : e ∈ entries -> hw_producer_id e = txn_dedup_producer_id id ->
    hw_epoch e = 0 /\ hw_last_seq e = 0 /\ (hw_last_offset e < Z.of_nat (length records) -> holds records id (hw_last_offset e));
  cf_cover id o : holds records id o -> o < Z.of_nat flushed -> mk_hw (txn_dedup_producer_id id) 0 0 o ∈ entries
}.

Section broker.
Context `{Crc32c}.

(** *** The conditions on a run *)

(** The values a crash may recover. *)
Definition recoverable (b : Broker) : list (option (list Z)) := bk_ckpt b :: (Some <$> bk_ckpt_attempts b).

Definition entries_of (v : option (list Z)) : list SeqHighWater :=
  match v with
  | Some payload => match decode_seq_snapshot payload with Ok entries => entries | _ => [] end
  | None => []
  end.

Definition is_txn_pid (pid : list Z) : bool := bool_decide (pid = txn_dedup_producer_id (drop (length TXN_DEDUP_PRODUCER_PREFIX) pid)).

(** No recoverable checkpoint names an offset of a transaction past the log. *)
Definition none_stale (b : Broker) : bool :=
  forallb (fun v => forallb (fun e => negb (is_txn_pid (hw_producer_id e)) || (hw_last_offset e <? Z.of_nat (length (bk_records b))))
                      (entries_of v)) (recoverable b).

Definition is_tid (i : Identity) : bool := bool_decide (i = tid (drop (length TXN_DEDUP_PRODUCER_PREFIX) (id_producer i))).

(** A checkpoint names the transaction's record at its offset. *)
Definition names (v : option (list Z)) (n : nat) (r : Stored) : bool :=
  match st_identity r with
  | Some i => if is_tid i then bool_decide (mk_hw (id_producer i) 0 0 (Z.of_nat n) ∈ entries_of v) else true
  | None => true
  end.

(** It names every transaction's record. *)
Definition names_all (v : option (list Z)) (records : list Stored) : bool :=
  forallb (fun b => b) (imap (names v) records).

Lemma is_txn_pid_true id : is_txn_pid (txn_dedup_producer_id id) = true.
Proof. apply bool_decide_eq_true. unfold txn_dedup_producer_id. by rewrite drop_app_length. Qed.

Lemma is_tid_spec i : is_tid i = true <-> exists id, i = tid id.
Proof.
  unfold is_tid. rewrite bool_decide_eq_true. split; [eauto|]. intros [id ->].
  change (id_producer (tid id)) with (TXN_DEDUP_PRODUCER_PREFIX ++ id). by rewrite drop_app_length.
Qed.

Lemma names_all_spec v records id o :
  names_all v records = true -> holds records id o -> mk_hw (txn_dedup_producer_id id) 0 0 o ∈ entries_of v.
Proof.
  intros Hn (n & r & -> & Hr & Hid). unfold names_all in Hn. rewrite forallb_forall in Hn.
  assert (Hin : names v n r = true).
  { apply Hn. apply list_elem_of_In. apply list_elem_of_lookup. exists n. rewrite list_lookup_imap, Hr. done. }
  unfold names in Hin. rewrite Hid in Hin. rewrite (proj2 (is_tid_spec _)) in Hin by eauto. by apply bool_decide_eq_true_1 in Hin.
Qed.

Lemma names_all_intro v records :
  (forall id o, holds records id o -> mk_hw (txn_dedup_producer_id id) 0 0 o ∈ entries_of v) -> names_all v records = true.
Proof.
  intros Hh. unfold names_all. apply forallb_forall. intros x Hx%list_elem_of_In. apply list_elem_of_lookup in Hx as [n Hn].
  rewrite list_lookup_imap in Hn. destruct (records !! n) as [r|] eqn:Hr; [|done]. injection Hn as <-. unfold names.
  destruct (st_identity r) as [i|] eqn:Hi; [|done]. destruct (is_tid i) eqn:Ht; [|done]. apply is_tid_spec in Ht as [id ->].
  apply bool_decide_eq_true. apply Hh. by exists n, r.
Qed.

Lemma none_stale_spec b v e id :
  none_stale b = true -> v ∈ recoverable b -> e ∈ entries_of v -> hw_producer_id e = txn_dedup_producer_id id ->
  hw_last_offset e < Z.of_nat (length (bk_records b)).
Proof.
  unfold none_stale. rewrite forallb_forall. intros Hs Hv He Hid. apply list_elem_of_In in Hv. specialize (Hs v Hv).
  rewrite forallb_forall in Hs. apply list_elem_of_In in He. specialize (Hs e He). rewrite Hid, is_txn_pid_true in Hs. cbn in Hs. lia.
Qed.

(** *** The invariant *)

Definition value_fine (all : gset (list Z)) (b : Broker) (flushed : nat) (v : option (list Z)) : Prop :=
  match v with
  | Some payload => exists entries, decode_seq_snapshot payload = Ok entries /\ ckpt_fine all (bk_records b) flushed entries
  | None => forall id o, holds (bk_records b) id o -> Z.of_nat flushed <= o
  end.

Record commit_inv (all : gset (list Z)) (b : Broker) : Prop := {
  ci_ok : seqs_ok (bk_seqs b);
  ci_max : sr_max_producers (bk_seqs b) = DEFAULT_MAX_SEQ_PRODUCERS;
  ci_dom pid w : high_water (bk_seqs b) pid = Some w -> pid ∈ all;
  ci_typed pid e s o : high_water (bk_seqs b) pid = Some (e, Some s, o) -> hw_ok (mk_hw pid e s o);
  ci_flushed : (bk_flushed b <= length (bk_records b))%nat;
  ci_once id o o' : holds (bk_records b) id o -> holds (bk_records b) id o' -> o = o';
  ci_tracks id :
    match high_water (bk_seqs b) (txn_dedup_producer_id id) with
    | Some (e, Some s, o) => e = 0 /\ s = 0 /\ holds (bk_records b) id o
    | Some (e, None, _) => e = 0 /\ forall o, ~ holds (bk_records b) id o
    | None => forall o, ~ holds (bk_records b) id o
    end;
  ci_value v : v ∈ recoverable b -> value_fine all b (bk_flushed b) v;
  ci_open : bk_ckpt_open b = false -> bk_ckpt b = None /\ bk_ckpt_attempts b = []
}.

Lemma ckpt_fine_mono all records flushed flushed' entries :
  (flushed' <= flushed)%nat -> ckpt_fine all records flushed entries -> ckpt_fine all records flushed' entries.
Proof. intros Hle [H1 H2 H3 H4 H5]. split; try done. intros id o Ho Hlt. apply H5; [done|lia]. Qed.

Lemma inv_all_size all b : commit_inv all b -> dom (sr_producers (bk_seqs b)) ⊆ all.
Proof. intros Hi pid (p & Hp)%elem_of_dom. eapply (ci_dom _ _ Hi). unfold high_water. by rewrite Hp. Qed.

Lemma commit_fits all b pid : room all -> commit_inv all b -> pid ∈ all -> fits (bk_seqs b) pid.
Proof.
  intros [Hroom _] Hi Hpid. destruct (sr_producers (bk_seqs b) !! pid) as [p|] eqn:Hp; [left; by eexists|right].
  assert (Hsub : {[pid]} ∪ dom (sr_producers (bk_seqs b)) ⊆ all) by (pose proof (inv_all_size all b Hi); set_solver).
  apply subseteq_size in Hsub. rewrite size_union, size_singleton, size_dom in Hsub.
  - rewrite (ci_max _ _ Hi). lia.
  - apply disjoint_singleton_l. by apply not_elem_of_dom.
Qed.

(** *** The snapshot *)

Lemma length_encode_seq_snapshot l :
  Forall hw_ok l -> length (encode_seq_snapshot l []) = (9 + sum_list_with (fun e => 26 + length (hw_producer_id e)) l)%nat.
Proof.
  intros Hok. unfold encode_seq_snapshot. cbv zeta. rewrite app_nil_l, !length_app, !length_le_bytes. cbn [length].
  assert (length (flat_map encode_high_water l) = sum_list_with (fun e => 26 + length (hw_producer_id e))%nat l) as ->.
  { induction Hok as [|e l He _ IH]; [done|]. cbn [flat_map sum_list_with]. rewrite length_app, length_encode_high_water by done. lia. }
  lia.
Qed.

Lemma snapshot_fits all b :
  room all -> commit_inv all b -> Z.of_nat (length (encode_seq_snapshot (snapshot_pairs (bk_seqs b)) [])) <= PRODUCER_SEQ_PAYLOAD.
Proof.
  intros [_ Hroom] Hi. rewrite length_encode_seq_snapshot.
  - pose proof (snapshot_pairs_ascend (bk_seqs b)) as Hasc. destruct (ids_ascend_NoDup _ _ Hasc) as [Hnd _].
    assert (Hsum : (sum_list_with (fun e => 26 + length (hw_producer_id e)) (snapshot_pairs (bk_seqs b)) <=
      sum_list_with (fun pid => 26 + length pid) (elements all))%nat).
    { transitivity (sum_list_with (fun pid => 26 + length pid)%nat (hw_producer_id <$> snapshot_pairs (bk_seqs b))).
      - clear. induction (snapshot_pairs (bk_seqs b)) as [|e l IH]; cbn [sum_list_with fmap list_fmap]; lia.
      - destruct (submseteq_Permutation (hw_producer_id <$> snapshot_pairs (bk_seqs b)) (elements all)) as [k ->].
        + apply NoDup_submseteq; [done|]. intros pid (e & -> & He)%list_elem_of_fmap.
          apply elem_of_elements. apply elem_of_snapshot_pairs in He. by eapply (ci_dom _ _ Hi).
        + rewrite sum_list_with_app. lia. }
    unfold PRODUCER_SEQ_PAYLOAD in *. lia.
  - apply Forall_forall. intros e He%elem_of_snapshot_pairs. apply (ci_typed _ _ Hi) in He. by destruct e.
Qed.

Lemma snapshot_decodes all b :
  room all -> commit_inv all b ->
  decode_seq_snapshot (producer_seq_snapshot_payload (bk_seqs b)) = Ok (snapshot_pairs (bk_seqs b)).
Proof.
  intros Hroom Hi. unfold producer_seq_snapshot_payload. pose proof (snapshot_fits all b Hroom Hi) as Hf. apply Z.leb_le in Hf. rewrite Hf.
  apply seq_snapshot_roundtrip; [|apply snapshot_pairs_ascend|].
  - apply Forall_forall. intros e He%elem_of_snapshot_pairs. apply (ci_typed _ _ Hi) in He. by destruct e.
  - pose proof (length_snapshot_pairs (bk_seqs b)) as Hl. pose proof (so_size _ (ci_ok _ _ Hi)) as Hs. rewrite (ci_max _ _ Hi) in Hs.
    assert (Z.of_nat DEFAULT_MAX_SEQ_PRODUCERS <= u32_max) by done. lia.
Qed.

(** The snapshot of the registry names every transaction's record. *)
Lemma snapshot_fine all b : commit_inv all b -> ckpt_fine all (bk_records b) (length (bk_records b)) (snapshot_pairs (bk_seqs b)).
Proof.
  intros Hi. split.
  - apply Forall_forall. intros e He%elem_of_snapshot_pairs. apply (ci_typed _ _ Hi) in He. by destruct e.
  - apply snapshot_pairs_ascend.
  - intros e He%elem_of_snapshot_pairs. by eapply (ci_dom _ _ Hi).
  - intros e id He%elem_of_snapshot_pairs Hid. rewrite Hid in He. pose proof (ci_tracks _ _ Hi id) as Ht. rewrite He in Ht. naive_solver.
  - intros id o Ho _. apply elem_of_snapshot_pairs. cbn [hw_producer_id hw_epoch hw_last_seq hw_last_offset].
    pose proof (ci_tracks _ _ Hi id) as Ht. destruct (high_water (bk_seqs b) (txn_dedup_producer_id id)) as [[[e [x|]] o']|].
    + destruct Ht as (-> & -> & Ho'). by rewrite (ci_once _ _ Hi id o o' Ho Ho').
    + destruct Ht as [_ Ht]. by apply Ht in Ho.
    + by apply Ht in Ho.
Qed.

(** *** Appends *)

Definition tracked (records : list Stored) (id : list Z) (w : option (Z * option Z * Z)) : Prop :=
  match w with
  | Some (e, Some s, o) => e = 0 /\ s = 0 /\ holds records id o
  | Some (e, None, _) => e = 0 /\ forall o, ~ holds records id o
  | None => forall o, ~ holds records id o
  end.

(** Replacing the registry by one that differs in one producer. *)
Lemma commit_inv_seqs all b r' pid w :
  commit_inv all b -> seqs_ok r' -> sr_max_producers r' = sr_max_producers (bk_seqs b) -> pid ∈ all ->
  (forall q, high_water r' q = if decide (q = pid) then Some w else high_water (bk_seqs b) q) ->
  (forall e s o, w = (e, Some s, o) -> hw_ok (mk_hw pid e s o)) ->
  (forall id, pid = txn_dedup_producer_id id -> tracked (bk_records b) id (Some w)) ->
  commit_inv all (with_seqs b r').
Proof.
  intros [H1 H2 H3 H4 H5 H6 H7 H8 H9] Hok Hm Hpid Hw Ht Hk. split; cbn [with_seqs bk_seqs bk_records bk_flushed bk_ckpt_open bk_ckpt bk_ckpt_attempts]; try done.
  - congruence.
  - intros q w'. rewrite Hw. case_decide as Hq; [by subst|apply H3].
  - intros q e s0 o. rewrite Hw. case_decide as Hq; [subst q; intros [= ->]; by apply Ht|apply H4].
  - intros id. rewrite Hw. case_decide as Hq; [by apply Hk|apply H7].
Qed.

Lemma value_app all b flushed v r :
  none_stale b = true -> v ∈ recoverable b -> (flushed <= length (bk_records b))%nat -> value_fine all b flushed v ->
  value_fine all (with_records b (bk_records b ++ [r]) (bk_flushed b)) flushed v.
Proof.
  intros Hns Hv Hf. destruct v as [payload|]; cbn [value_fine with_records bk_records].
  - intros (entries & Hd & [C1 C2 C3 C4 C5]). exists entries. split; [done|]. split; try done.
    + intros e id He Hid. destruct (C4 e id He Hid) as (-> & -> & Ht). split_and!; try done. intros _. apply holds_app. left. apply Ht.
      eapply none_stale_spec; [done|exact Hv| |done]. cbn [entries_of]. by rewrite Hd.
    + intros id o [Ho|[-> _]]%holds_app Hlt; [by apply C5|lia].
  - intros Hn id o [Ho|[-> _]]%holds_app; [by eapply Hn|lia].
Qed.

(** A record that is not a transaction's. *)
Lemma append_other_inv all b r :
  commit_inv all b -> none_stale b = true -> (forall id, st_identity r <> Some (tid id)) ->
  commit_inv all (with_records b (bk_records b ++ [r]) (bk_flushed b)).
Proof.
  intros Hi Hns Hr. assert (Hh : forall id o, holds (bk_records b ++ [r]) id o <-> holds (bk_records b) id o).
  { intros id o. rewrite holds_app. split; [intros [?|[_ Hx]]; [done|by apply Hr in Hx]|by left]. }
  pose proof Hi as [H1 H2 H3 H4 H5 H6 H7 H8 H9]. split; cbn [with_records bk_seqs bk_records bk_flushed bk_ckpt_open bk_ckpt bk_ckpt_attempts]; try done.
  - rewrite length_app. lia.
  - intros id o o'. rewrite !Hh. apply H6.
  - intros id. specialize (H7 id). destruct (high_water _ _) as [[[e [x|]] o]|]; setoid_rewrite Hh; done.
  - intros v Hv. apply value_app; [done|exact Hv|done|by apply H8].
Qed.

(** The record of a transaction that has none. *)
Lemma append_txn_inv all b m id r' :
  commit_inv all b -> none_stale b = true -> (forall o, ~ holds (bk_records b) id o) -> txn_dedup_producer_id id ∈ all ->
  hw_ok (mk_hw (txn_dedup_producer_id id) 0 0 (Z.of_nat (length (bk_records b)))) ->
  seqs_ok r' -> sr_max_producers r' = sr_max_producers (bk_seqs b) ->
  (forall q, high_water r' q = if decide (q = txn_dedup_producer_id id) then Some (0, Some 0, Z.of_nat (length (bk_records b)))
                               else high_water (bk_seqs b) q) ->
  commit_inv all (with_seqs (with_records b (bk_records b ++ [mk_stored m (Some (tid id))]) (bk_flushed b)) r').
Proof.
  intros Hi Hns Hno Hall Hhw Hok Hm Hw. pose proof Hi as [H1 H2 H3 H4 H5 H6 H7 H8 H9].
  assert (Hh : forall q o, holds (bk_records b ++ [mk_stored m (Some (tid id))]) q o <->
    holds (bk_records b) q o \/ o = Z.of_nat (length (bk_records b)) /\ q = id).
  { intros q o. rewrite holds_app. cbn [st_identity]. split; (intros [?|[-> Hx]]; [by left|right; split; [done|]]); [|by subst].
    by apply (inj Some), (inj tid) in Hx. }
  split; cbn [with_seqs with_records bk_seqs bk_records bk_flushed bk_ckpt_open bk_ckpt bk_ckpt_attempts]; try done.
  - congruence.
  - intros q w. rewrite Hw. case_decide as Hq; [by subst|apply H3].
  - intros q e s0 o. rewrite Hw. case_decide as Hq; [|apply H4]. subst q. by intros [= <- <- <-].
  - rewrite length_app. lia.
  - intros q o o'. rewrite !Hh. intros [Ho|[-> ->]] [Ho'|[-> Hq]]; [by eapply H6| | |done]; [subst q; by apply Hno in Ho|by apply Hno in Ho'].
  - intros q. rewrite Hw. case_decide as Hq.
    + apply (inj txn_dedup_producer_id) in Hq. subst q. split_and!; [done..|]. apply Hh. by right.
    + specialize (H7 q). assert (Hne : q <> id) by (by intros ->). destruct (high_water (bk_seqs b) _) as [[[e [x|]] o]|];
        setoid_rewrite Hh; naive_solver.
  - intros v Hv. apply (value_app all b _ v (mk_stored m (Some (tid id)))); [done|exact Hv|done|by apply H8].
Qed.

(** *** Checks, checkpoints, syncs *)

Lemma check_commit_inv all b pid epoch seq now :
  room all -> commit_inv all b -> pid ∈ all -> (forall id, pid = txn_dedup_producer_id id -> epoch = 0) ->
  let w := hw_bump (high_water (bk_seqs b) pid) epoch in
  commit_inv all (with_seqs b (fst (seq_check (bk_seqs b) pid epoch seq now))) /\
  snd (seq_check (bk_seqs b) pid epoch seq now) = hw_decide w epoch seq /\
  high_water (fst (seq_check (bk_seqs b) pid epoch seq now)) pid = Some w.
Proof.
  intros Hroom Hi Hpid Hz w. destruct (seq_check_spec (bk_seqs b) pid epoch seq now (ci_ok _ _ Hi) (commit_fits _ _ _ Hroom Hi Hpid)) as (Hok & Hm & Hd & Hw).
  fold w in Hd, Hw. set (r := fst (seq_check (bk_seqs b) pid epoch seq now)) in *. split_and!; [|done|rewrite Hw; by rewrite decide_True].
  apply (commit_inv_seqs all b r pid w); try done.
  - intros e s0 o Hwe. apply (ci_typed _ _ Hi). revert Hwe. unfold w, hw_bump. destruct (high_water (bk_seqs b) pid) as [[[e0 l0] o0]|]; [|done].
    destruct (e0 <? epoch); [done|]. by intros [= -> -> ->].
  - intros id ->. specialize (Hz id eq_refl). subst epoch. pose proof (ci_tracks _ _ Hi id) as Ht. unfold w, hw_bump.
    destruct (high_water (bk_seqs b) (txn_dedup_producer_id id)) as [[[e [x|]] o]|]; [| |done]; destruct Ht as (-> & Ht); done.
Qed.

Lemma commit_inv_frame all b b' :
  bk_records b' = bk_records b -> bk_seqs b' = bk_seqs b -> (bk_flushed b' <= length (bk_records b))%nat ->
  (bk_ckpt_open b' = false -> bk_ckpt b' = None /\ bk_ckpt_attempts b' = []) ->
  (forall v, v ∈ recoverable b' -> value_fine all b (bk_flushed b') v) -> commit_inv all b -> commit_inv all b'.
Proof.
  intros Hr Hs Hf Ho Hv [H1 H2 H3 H4 H5 H6 H7 H8 H9]. split; rewrite ?Hr, ?Hs; try done. intros v Hv'. specialize (Hv v Hv').
  unfold value_fine in *. by rewrite Hr.
Qed.

Lemma ensure_inv all b io :
  commit_inv all b ->
  let '(b', r) := ensure_producer_seq_checkpoint b io in
  commit_inv all b' /\ bk_records b' = bk_records b /\ bk_seqs b' = bk_seqs b /\ bk_flushed b' = bk_flushed b /\
  recoverable b' = recoverable b /\ match r with Ok _ => bk_ckpt_open b' = true | Err _ => True | Panic => False end.
Proof.
  intros Hi. unfold ensure_producer_seq_checkpoint. destruct (bk_ckpt_open b) eqn:Ho; [by split_and!|].
  destruct (io_ckpt_open io); [|by split_and!]. split_and!; try done.
  eapply commit_inv_frame; [..|exact Hi]; try done; [apply (ci_flushed _ _ Hi)|]. intros v Hv. by apply (ci_value _ _ Hi).
Qed.

Lemma snapshot_write_inv all b io :
  room all -> commit_inv all b ->
  let '(b', r) := checkpoint_producer_seq b io in
  commit_inv all b' /\ bk_records b' = bk_records b /\ bk_seqs b' = bk_seqs b /\ bk_flushed b' = bk_flushed b /\
  match r with
  | Ok _ => bk_ckpt_open b = true -> forall v, v ∈ recoverable b' -> v = Some (producer_seq_snapshot_payload (bk_seqs b))
  | Err _ => True
  | Panic => False
  end.
Proof.
  intros Hroom Hi. unfold checkpoint_producer_seq. destruct (bk_ckpt_open b) eqn:Ho; [|by split_and!]. cbn [negb].
  assert (Hnew : value_fine all b (bk_flushed b) (Some (producer_seq_snapshot_payload (bk_seqs b)))).
  { exists (snapshot_pairs (bk_seqs b)). split; [by eapply snapshot_decodes|]. eapply ckpt_fine_mono; [|by apply snapshot_fine].
    apply (ci_flushed _ _ Hi). }
  destruct (io_ckpt_write io); (split_and!; [|done..|]).
  - eapply commit_inv_frame; [..|exact Hi]; try done; [apply (ci_flushed _ _ Hi)|]. by intros v ->%list_elem_of_singleton.
  - by intros _ v ->%list_elem_of_singleton.
  - eapply commit_inv_frame; [..|exact Hi]; try done; [apply (ci_flushed _ _ Hi)|].
    intros v. unfold recoverable. cbn [with_ckpt bk_ckpt bk_ckpt_attempts bk_flushed fmap list_fmap].
    rewrite !elem_of_cons. intros [->|[->|Hv]]; [|done|]; apply (ci_value _ _ Hi); unfold recoverable; [left|by right].
  - done.
Qed.

(** Syncing what every recoverable checkpoint names. *)
Lemma batch_sync_inv all b io :
  commit_inv all b -> (forall v, v ∈ recoverable b -> names_all v (bk_records b) = true) ->
  let '(b', r) := commit_batch b io in
  commit_inv all b' /\ bk_records b' = bk_records b /\ bk_seqs b' = bk_seqs b /\ (bk_flushed b <= bk_flushed b')%nat /\
  match r with Ok _ => bk_flushed b' = length (bk_records b) | Err _ => True | Panic => False end.
Proof.
  intros Hi Hn. unfold commit_batch. destruct (io_sync io); [|by split_and!]. split_and!; try done; [|apply (ci_flushed _ _ Hi)].
  eapply commit_inv_frame; [..|exact Hi]; try done; [apply (ci_open _ _ Hi)|]. intros v Hv. specialize (Hn v Hv).
  pose proof (ci_value _ _ Hi v Hv) as Hf. destruct v as [payload|].
  - destruct Hf as (entries & Hd & [C1 C2 C3 C4 C5]). exists entries. split; [done|]. split; try done. intros id o Ho _.
    pose proof (names_all_spec _ _ _ _ Hn Ho) as Hin. cbn [entries_of] in Hin. by rewrite Hd in Hin.
  - intros id o Ho. pose proof (names_all_spec _ _ _ _ Hn Ho) as Hin. cbn [entries_of] in Hin. by apply not_elem_of_nil in Hin.
Qed.

Lemma snapshot_names_all all b :
  room all -> commit_inv all b -> names_all (Some (producer_seq_snapshot_payload (bk_seqs b))) (bk_records b) = true.
Proof.
  intros Hroom Hi. apply names_all_intro. intros id o Ho. cbn [entries_of]. rewrite (snapshot_decodes all) by done.
  apply (cf_cover _ _ _ _ (snapshot_fine all b Hi)); [done|]. apply holds_lt in Ho. lia.
Qed.

Lemma none_stale_frame b b' :
  recoverable b' = recoverable b -> bk_records b' = bk_records b -> none_stale b' = none_stale b.
Proof. unfold none_stale. by intros -> ->. Qed.

(** The fresh branch: nothing appended, or the record and then its high-water. *)
Lemma fresh_append_cases all b io m pid epoch seq :
  commit_inv all b ->
  let '(b', r) := fresh_append b io m pid epoch seq in
  bk_flushed b' = bk_flushed b /\
  match r with
  | Ok (Appended o) =>
      exists b1, commit_inv all b1 /\ bk_records b1 = bk_records b /\ bk_seqs b1 = bk_seqs b /\ recoverable b1 = recoverable b /\
        bk_flushed b1 = bk_flushed b /\ o = Z.of_nat (length (bk_records b)) /\
        b' = with_seqs (with_records b1 (bk_records b1 ++ [mk_stored m (Some (mk_identity pid epoch seq))]) (bk_flushed b1))
               (seq_record (bk_seqs b1) pid epoch seq (Z.of_nat (length (bk_records b1))) (io_now io))
  | Err _ => commit_inv all b' /\ bk_records b' = bk_records b
  | _ => False
  end.
Proof.
  intros Hi. unfold fresh_append. pose proof (ensure_inv all b io Hi) as He.
  destruct (ensure_producer_seq_checkpoint b io) as [b1 [u|x|]]; destruct He as (Hi1 & Hr1 & Hs1 & Hf1 & Hv1 & Ho1); [|by split_and!|done].
  unfold append_no_sync. destruct (io_append io); [|by split_and!]. split; [done|]. exists b1. split_and!; try done. by rewrite Hr1.
Qed.

Definition record_fields (b : Broker) : list Stored * nat * ProducerSeqRegistry * bool * option (list Z) * list (list Z) :=
  (bk_records b, bk_flushed b, bk_seqs b, bk_ckpt_open b, bk_ckpt b, bk_ckpt_attempts b).

Lemma commit_inv_counts all b b' : record_fields b' = record_fields b -> commit_inv all b -> commit_inv all b'.
Proof.
  intros [= F1 F2 F3 F4 F5 F6] Hi. assert (Hv : recoverable b' = recoverable b) by (unfold recoverable; by rewrite F5, F6).
  eapply commit_inv_frame; [exact F1|exact F3| | | |exact Hi]; rewrite ?F2, ?F4, ?F5, ?F6, ?Hv;
    [apply (ci_flushed _ _ Hi)|apply (ci_open _ _ Hi)|apply (ci_value _ _ Hi)].
Qed.

(** A sequenced publish of another producer. *)
Lemma seq_publish_inv all b io m i :
  room all -> commit_inv all b -> none_stale b = true -> id_producer i ∈ all -> identity_ok i ->
  (forall id, id_producer i <> txn_dedup_producer_id id) -> Z.of_nat (length (bk_records b)) <= u64_max ->
  let '(b', _) := append_no_sync_seq b io m (id_producer i) (id_epoch i) (id_seq i) in
  commit_inv all b' /\ bk_flushed b' = bk_flushed b /\ (bk_records b' = bk_records b \/ bk_records b' = bk_records b ++ [mk_stored m (Some i)]).
Proof.
  intros Hroom Hi Hns Hpid Hid Hno Hlen. destruct i as [pid epoch seq]. cbn [id_producer id_epoch id_seq] in *.
  destruct (check_commit_inv all b pid epoch seq (io_now io) Hroom Hi Hpid ltac:(intros id Hx; by destruct (Hno id))) as (Hi' & Hd & Hw).
  unfold append_no_sync_seq. destruct (seq_check (bk_seqs b) pid epoch seq (io_now io)) as [r d]. cbn [fst snd] in *.
  destruct d as [|off|exp|cur]; try (split_and!; [by eapply commit_inv_counts; [|exact Hi']|done|by left]).
  symmetry in Hd. apply hw_decide_fresh in Hd as (l & o & Hb & Hl). rewrite Hb in Hw.
  pose proof (fresh_append_cases all (with_seqs b r) io m pid epoch seq Hi') as Hc. unfold fresh_append in Hc.
  destruct (ensure_producer_seq_checkpoint (with_seqs b r) io) as [b0 [u|x|]]; [|destruct Hc as (? & ? & ?); split_and!; [done..|by left]|by destruct Hc].
  destruct (append_no_sync b0 io m _) as [b2 [o2|x|]]; [|destruct Hc as (? & ? & ?); split_and!; [done..|by left]|by destruct Hc].
  destruct Hc as [Hfl (b1 & Hi1 & Hr1 & Hs1 & Hv1 & Hf1 & Ho & ->)]. cbn [with_seqs bk_seqs bk_records bk_flushed] in *.
  split_and!; [|done|right; cbn; by rewrite Hr1]. rewrite <- Hs1 in Hw.
  destruct (seq_record_spec (bk_seqs b1) pid epoch seq (Z.of_nat (length (bk_records b1))) (io_now io) epoch l o)
    as (Hok & Hm & Hq); [apply (ci_ok _ _ Hi1)|done..|destruct l; [lia|done]|].
  assert (Hns1 : none_stale b1 = true) by (rewrite (none_stale_frame b b1); done).
  apply (commit_inv_seqs all _ _ pid (epoch, Some seq, Z.of_nat (length (bk_records b1)))); try done.
  - apply append_other_inv; [done..|]. intros id [= Hx _ _]. by apply (Hno id).
  - intros e0 s0 o0 [= <- <- <-]. destruct Hid as (? & ? & ? & ?). split_and!; try done. cbn. rewrite Hr1. unfold is_u64. lia.
  - intros id Hx. by apply Hno in Hx.
Qed.

(** The append of a commit: the transaction's record is in the log after it. *)
Lemma txn_publish_inv all b io m id :
  room all -> commit_inv all b -> none_stale b = true -> txn_dedup_producer_id id ∈ all ->
  hw_ok (mk_hw (txn_dedup_producer_id id) 0 0 (Z.of_nat (length (bk_records b)))) ->
  let '(b', r) := append_no_sync_seq b io m (txn_dedup_producer_id id) 0 0 in
  commit_inv all b' /\ bk_flushed b' = bk_flushed b /\
  (bk_records b' = bk_records b \/ bk_records b' = bk_records b ++ [mk_stored m (Some (tid id))]) /\
  match r with
  | Ok (Appended o) | Ok (DuplicateOf o) => holds (bk_records b') id o
  | Err _ => True
  | _ => False
  end.
Proof.
  intros Hroom Hi Hns Hpid Hhw. set (pid := txn_dedup_producer_id id) in *.
  destruct (check_commit_inv all b pid 0 0 (io_now io) Hroom Hi Hpid ltac:(done)) as (Hi' & Hd & Hw).
  unfold append_no_sync_seq. destruct (seq_check (bk_seqs b) pid 0 0 (io_now io)) as [r d]. cbn [fst snd] in *.
  pose proof (ci_tracks _ _ Hi' id) as Ht. cbn [with_seqs bk_seqs bk_records] in Ht. fold pid in Ht. rewrite Hw in Ht.
  destruct (hw_bump (high_water (bk_seqs b) pid) 0) as [[e l] o] eqn:Hb. unfold hw_decide in Hd.
  destruct l as [y|].
  { destruct Ht as (-> & -> & Ho). cbn in Hd. subst d. split_and!; [by eapply commit_inv_counts; [|exact Hi']|done|by left|done]. }
  destruct Ht as (-> & Hno). cbn in Hd. subst d.
  pose proof (fresh_append_cases all (with_seqs b r) io m pid 0 0 Hi') as Hc. unfold fresh_append in Hc.
  destruct (ensure_producer_seq_checkpoint (with_seqs b r) io) as [b0 [u|x|]]; [|destruct Hc as (? & ? & ?); split_and!; [done..|by left|done]|by destruct Hc].
  destruct (append_no_sync b0 io m _) as [b2 [o2|x|]]; [|destruct Hc as (? & ? & ?); split_and!; [done..|by left|done]|by destruct Hc].
  destruct Hc as [Hfl (b1 & Hi1 & Hr1 & Hs1 & Hv1 & Hf1 & -> & ->)]. cbn [with_seqs bk_seqs bk_records bk_flushed] in *.
  split_and!; [|done|right; cbn; by rewrite Hr1|cbn; rewrite Hr1; apply holds_app; by right]. rewrite <- Hs1 in Hw.
  destruct (seq_record_spec (bk_seqs b1) pid 0 0 (Z.of_nat (length (bk_records b1))) (io_now io) 0 None o)
    as (Hok & Hm & Hq); [apply (ci_ok _ _ Hi1)|done..|].
  assert (Hns1 : none_stale b1 = true) by (rewrite (none_stale_frame b b1); done).
  apply append_txn_inv; try done; rewrite Hr1; done.
Qed.

(** *** The durable steps of a commit *)

Lemma flush_dedup_inv all b io :
  room all -> commit_inv all b ->
  let '(b', r) := flush_txn_commit_dedup b io in
  commit_inv all b' /\ bk_records b' = bk_records b /\ bk_flushed b' = bk_flushed b /\
  match r with Ok _ => forall v, v ∈ recoverable b' -> names_all v (bk_records b') = true | Err _ => True | Panic => False end.
Proof.
  intros Hroom Hi. unfold flush_txn_commit_dedup. pose proof (ensure_inv all b (ti_main io) Hi) as He.
  destruct (ensure_producer_seq_checkpoint b (ti_main io)) as [b1 [u|x|]]; destruct He as (Hi1 & Hr1 & Hs1 & Hf1 & Hv1 & Ho1); [|by split_and!|done].
  pose proof (snapshot_write_inv all b1 (ti_main io) Hroom Hi1) as Hc. pose proof (snapshot_names_all all b1 Hroom Hi1) as Hn.
  destruct (checkpoint_producer_seq b1 (ti_main io)) as [b2 [u2|x|]]; destruct Hc as (Hi2 & Hr2 & Hs2 & Hf2 & Hv2); split_and!; try done; try congruence.
  intros v Hv. rewrite (Hv2 Ho1 v Hv), Hr2. exact Hn.
Qed.

Lemma commit_steps_inv all b io id half :
  room all -> commit_inv all b -> none_stale b = true -> txn_dedup_producer_id id ∈ all ->
  hw_ok (mk_hw (txn_dedup_producer_id id) 0 0 (Z.of_nat (length (bk_records b)))) -> hm_stream half = [] ->
  let '(b', r) := commit_durable_steps b io id half in
  commit_inv all b' /\ (bk_flushed b <= bk_flushed b')%nat /\
  (bk_records b' = bk_records b \/ bk_records b' = bk_records b ++ [mk_stored (commit_append half) (Some (tid id))]) /\
  match r with Ok o => holds (take (bk_flushed b') (bk_records b')) id o | Err _ => True | Panic => False end.
Proof.
  intros Hroom Hi Hns Hpid Hhw Hst. unfold commit_durable_steps, commit_real_append. rewrite decide_True by done.
  cbn [append_no_sync_dedup_checked rq_seq rq_producer_id rq_epoch].
  pose proof (txn_publish_inv all b (ti_main io) (commit_append half) id Hroom Hi Hns Hpid Hhw) as Ha.
  assert (Htail : forall b1 o, commit_inv all b1 -> bk_flushed b1 = bk_flushed b ->
    (bk_records b1 = bk_records b \/ bk_records b1 = bk_records b ++ [mk_stored (commit_append half) (Some (tid id))]) -> holds (bk_records b1) id o ->
    let '(b', r) := match flush_txn_commit_dedup b1 io with
      | (b, Ok _) => match commit_batch b (ti_main io) with (b, Ok _) => (b, Ok o) | (b, Err _) => (b, Err TeStorage) | (b, Panic) => (b, Panic) end
      | (b, Err _) => (b, Err TeStorage)
      | (b, Panic) => (b, Panic) end in
    commit_inv all b' /\ (bk_flushed b <= bk_flushed b')%nat /\
    (bk_records b' = bk_records b \/ bk_records b' = bk_records b ++ [mk_stored (commit_append half) (Some (tid id))]) /\
    match r with Ok o => holds (take (bk_flushed b') (bk_records b')) id o | Err _ => True | Panic => False end).
  { intros b1 o Hi1 Hf1 Hr1 Ho1. pose proof (flush_dedup_inv all b1 io Hroom Hi1) as Hc.
    destruct (flush_txn_commit_dedup b1 io) as [b2 [u|x|]]; destruct Hc as (Hi2 & Hr2 & Hf2 & Hv2); [|rewrite Hr2, Hf2, Hf1; by split_and!|done].
    pose proof (batch_sync_inv all b2 (ti_main io) Hi2 Hv2) as Hs. destruct (commit_batch b2 (ti_main io)) as [b3 [u3|x|]];
      destruct Hs as (Hi3 & Hr3 & _ & Hf3 & Hx); [|rewrite Hr3, Hr2; split_and!; [done|lia|done..]|done].
    rewrite Hr3, Hr2. split_and!; [done|lia|done|]. apply holds_take. split; [done|]. apply holds_lt in Ho1. rewrite Hx, Hr2. lia. }
  destruct (append_no_sync_seq b (ti_main io) (commit_append half) (txn_dedup_producer_id id) 0 0) as [b1 [[o|o|cur|exp]|x|]];
    destruct Ha as (Hi1 & Hf1 & Hr1 & Ho1); try done; [by apply Htail|by apply Htail|]. rewrite Hf1. by split_and!.
Qed.

(** *** Opening after a crash *)

Lemma seed_filter entries flushed now r :
  foldl (fun r e => if flushed <=? hw_last_offset e then r
                    else seq_restore r (hw_producer_id e) (hw_epoch e) (hw_last_seq e) (hw_last_offset e) now) r entries =
  foldl (fun r e => seq_restore r (hw_producer_id e) (hw_epoch e) (hw_last_seq e) (hw_last_offset e) now) r
    (filter (fun e => hw_last_offset e < flushed) entries).
Proof.
  revert r. induction entries as [|e entries IH]; intros r; [done|]. cbn [foldl]. destruct (Z.leb_spec flushed (hw_last_offset e)).
  - rewrite filter_cons_False by lia. apply IH.
  - rewrite filter_cons_True by lia. apply IH.
Qed.

Lemma seeded all b flushed recovered now :
  room all -> value_fine all b flushed recovered ->
  let kept := Z.of_nat flushed in
  let r := seed_producer_seq recovered kept now (seqs_new DEFAULT_MAX_SEQ_PRODUCERS) in
  seqs_ok r /\ sr_max_producers r = DEFAULT_MAX_SEQ_PRODUCERS /\
  forall q w, high_water r q = Some w <->
    exists e, e ∈ entries_of recovered /\ hw_last_offset e < kept /\ hw_producer_id e = q /\ w = (hw_epoch e, Some (hw_last_seq e), hw_last_offset e).
Proof.
  intros [Hroom _] Hv kept. destruct recovered as [payload|]; cbn [seed_producer_seq entries_of].
  - destruct Hv as (entries & Hd & [C1 C2 C3 C4 C5]). rewrite Hd, seed_filter. destruct (ids_ascend_NoDup _ _ C2) as [Hnd _].
    set (fe := filter (fun e => hw_last_offset e < kept) entries).
    assert (Hsub : fe `sublist_of` entries) by apply sublist_filter.
    assert (Hnd' : NoDup (hw_producer_id <$> fe)) by (eapply sublist_NoDup; [exact Hnd|by apply fmap_sublist]).
    assert (Hlen : (length fe <= size all)%nat).
    { rewrite <- (length_fmap hw_producer_id). rewrite <- (size_list_to_set (C := gset (list Z))); [|done]. apply subseteq_size.
      intros pid (e & -> & He)%elem_of_list_to_set%list_elem_of_fmap. apply C3. by apply list_elem_of_filter in He as [_ He]. }
    destruct (restore_all (seqs_new DEFAULT_MAX_SEQ_PRODUCERS) fe now) as (Hok & Hm & Hw); [apply seqs_new_ok|done| | |].
    + intros e _. unfold high_water. cbn [seqs_new sr_producers]. by rewrite lookup_empty.
    + cbn [seqs_new sr_producers sr_max_producers]. rewrite map_size_empty. lia.
    + split_and!; [done|by rewrite Hm|]. intros q w. rewrite Hw. split.
      * intros [Hno|(e & [He1 He2]%list_elem_of_filter & <- & ->)]; [|by exists e]. unfold high_water in Hno. cbn [seqs_new sr_producers] in Hno.
        by rewrite lookup_empty in Hno.
      * intros (e & He & Hlt & <- & ->). right. exists e. split; [by apply list_elem_of_filter|done].
  - split; [apply seqs_new_ok|]. split; [done|]. intros q w. unfold high_water. cbn [seqs_new sr_producers]. rewrite lookup_empty.
    split; [done|]. by intros (e & ?%not_elem_of_nil & _).
Qed.

(** What a crash may keep: the records the recovered checkpoint names, at least
    the synced ones. *)
Definition crash_fine (b : Broker) (kept : nat) (recovered : option (list Z)) : bool :=
  (bk_flushed b <=? kept)%nat && (kept <=? length (bk_records b))%nat && bool_decide (recovered ∈ recoverable b) &&
  ((kept =? bk_flushed b)%nat || names_all recovered (take kept (bk_records b))).

Lemma kept_fine all b kept recovered :
  commit_inv all b -> crash_fine b kept recovered = true ->
  (kept <= length (bk_records b))%nat /\ recovered ∈ recoverable b /\ value_fine all b kept recovered.
Proof.
  intros Hi [[[Hk1 Hk2]%andb_prop Hr%bool_decide_eq_true_1]%andb_prop Hn]%andb_prop.
  apply Nat.leb_le in Hk1, Hk2. split; [done|]. split; [done|]. pose proof (ci_value _ _ Hi _ Hr) as Hv.
  apply orb_prop in Hn as [Hn|Hn]; [apply Nat.eqb_eq in Hn; by subst kept|]. destruct recovered as [payload|].
  - destruct Hv as (entries & Hd & [C1 C2 C3 C4 C5]). exists entries. split; [done|]. split; try done. intros id o Ho Hlt.
    pose proof (names_all_spec _ _ id o Hn) as Hin. cbn [entries_of] in Hin. rewrite Hd in Hin. apply Hin. by apply holds_take.
  - intros id o Ho. destruct (Z.le_gt_cases (Z.of_nat kept) o) as [|Hlt]; [done|].
    pose proof (names_all_spec _ _ id o Hn) as Hin. cbn [entries_of] in Hin. destruct (not_elem_of_nil _ (Hin ltac:(by apply holds_take))).
Qed.

Lemma reopen_inv all b kept recovered now :
  room all -> commit_inv all b -> crash_fine b kept recovered = true -> commit_inv all (reopen b kept recovered now).
Proof.
  intros Hroom Hi Hc. destruct (kept_fine all b kept recovered Hi Hc) as (Hk & Hr & Hv). unfold reopen.
  rewrite length_take, Nat.min_l by done. destruct (seeded all b kept recovered now Hroom Hv) as (Hok & Hm & Hw).
  set (r := seed_producer_seq recovered (Z.of_nat kept) now (seqs_new DEFAULT_MAX_SEQ_PRODUCERS)) in *.
  assert (Hent : forall e, e ∈ entries_of recovered -> exists payload entries, recovered = Some payload /\ decode_seq_snapshot payload = Ok entries /\
    e ∈ entries /\ ckpt_fine all (bk_records b) kept entries).
  { intros e He. destruct recovered as [payload|]; [|by apply not_elem_of_nil in He]. destruct Hv as (entries & Hd & Hfine). cbn [entries_of] in He.
    rewrite Hd in He. by exists payload, entries. }
  split; cbn [bk_seqs bk_records bk_flushed bk_ckpt_open bk_ckpt bk_ckpt_attempts]; try done.
  - intros pid w (e & He & _ & <- & _)%Hw. destruct (Hent e He) as (_ & entries & _ & _ & Hin & [C1 C2 C3 C4 C5]). by apply C3.
  - intros pid e0 s0 o0 (e & He & _ & <- & [= -> -> ->])%Hw. destruct (Hent e He) as (_ & entries & _ & _ & Hin & [C1 C2 C3 C4 C5]).
    rewrite Forall_forall in C1. specialize (C1 e Hin). by destruct e.
  - rewrite length_take. lia.
  - intros id o o' [Ho _]%holds_take [Ho' _]%holds_take. by eapply (ci_once _ _ Hi).
  - intros id. destruct (high_water r (txn_dedup_producer_id id)) as [[[e0 l0] o0]|] eqn:Hx.
    + apply Hw in Hx as (e & He & Hlt & Hid & [= -> -> ->]). destruct (Hent e He) as (_ & entries & _ & _ & Hin & [C1 C2 C3 C4 C5]).
      destruct (C4 e id Hin Hid) as (-> & -> & Ht). split_and!; try done. apply holds_take. split; [apply Ht; lia|done].
    + intros o [Ho Hlt]%holds_take. destruct recovered as [payload|]; [|specialize (Hv id o Ho); lia].
      destruct Hv as (entries & Hd & [C1 C2 C3 C4 C5]). enough (Hs : high_water r (txn_dedup_producer_id id) = Some (0, Some 0, o)) by congruence.
      apply Hw. exists (mk_hw (txn_dedup_producer_id id) 0 0 o). cbn [entries_of]. rewrite Hd. split_and!; [by apply C5|done..].
  - intros v ->%list_elem_of_singleton. unfold value_fine in *. cbn [bk_records]. destruct recovered as [payload|].
    + destruct Hv as (entries & Hd & [C1 C2 C3 C4 C5]). exists entries. split; [done|]. split; try done.
      * intros e id He Hid. destruct (C4 e id He Hid) as (-> & -> & Ht). split_and!; try done. rewrite length_take. intros Hlt.
        apply holds_take. split; [apply Ht; lia|lia].
      * intros id o [Ho Hlt]%holds_take _. by apply C5.
    + intros id o [Ho Hlt]%holds_take. by eapply Hv.
  - intros Ho. destruct (ci_open _ _ Hi Ho) as [Hn Ha]. split; [|done]. unfold recoverable in Hr. rewrite Hn, Ha in Hr. by apply list_elem_of_singleton in Hr.
Qed.
End broker.

(** ** The store *)

Section store.
Context `{Crc32c}.

(** The transaction's record is synced. *)
Definition delivered (b : Broker) (id : list Z) : Prop := exists o, holds (take (bk_flushed b) (bk_records b)) id o.

(** A half message of the transaction is synced in the transaction log. *)
Definition synced_half (s : TxnStore) (id : list Z) (half : HalfMessage) : Prop :=
  exists k record h, (k < ts_flushed s)%nat /\ ts_log s !! k = Some record /\
    decode_meta (ap_headers record) = Some (MetaHalf h) /\ hf_txn_id h = id /\ half = half_of h record.

(** What a record of the transaction log may say. *)
Definition mark_ok (b : Broker) (record : Append) : Prop :=
  match decode_meta (ap_headers record) with
  | Some (MetaHalf h) => hf_stream h = []
  | Some (MetaOp o) => op_outcome o = Committed -> delivered b (op_txn_id o)
  | _ => True
  end.

Record store_inv (b : Broker) (s : TxnStore) : Prop := {
  si_table : txn_ok (ts_table s);
  si_flushed : (ts_flushed s <= length (ts_log s))%nat;
  si_marks : Forall (mark_ok b) (ts_log s);
  si_payload id half : ts_prepared_payloads s !! id = Some half -> synced_half s id half;
  si_prepared id : txn_state (ts_table s) id = Some TxPrepared -> is_Some (ts_prepared_payloads s !! id);
  si_committed id : txn_state (ts_table s) id = Some (TxResolved Committed) -> delivered b id;
  si_records n r id : bk_records b !! n = Some r -> st_identity r = Some (tid id) ->
    exists half, synced_half s id half /\ st_append r = commit_append half
}.

Lemma half_stream s b id half : store_inv b s -> synced_half s id half -> hm_stream half = [].
Proof.
  intros Hi (k & record & h & _ & Hk & Hd & _ & ->). pose proof (si_marks _ _ Hi) as Hm. rewrite Forall_lookup in Hm.
  specialize (Hm k record Hk). unfold mark_ok in Hm. by rewrite Hd in Hm.
Qed.

(** The broker moves on: records come and go, but what was delivered stays. *)
Lemma store_inv_broker b b' s :
  store_inv b s -> (forall id, delivered b id -> delivered b' id) ->
  (forall n r id, bk_records b' !! n = Some r -> st_identity r = Some (tid id) ->
    exists half, synced_half s id half /\ st_append r = commit_append half) ->
  store_inv b' s.
Proof.
  intros [H1 H2 H3 H4 H5 H6 H7] Hd Hr. split; try done; [|naive_solver]. eapply Forall_impl; [exact H3|]. intros record Hm. unfold mark_ok in *.
  destruct (decode_meta (ap_headers record)) as [[h|o|x]|]; naive_solver.
Qed.

(** The log grows by a record. *)
Lemma append_sync_inv b s io record :
  store_inv b s -> mark_ok b record -> store_inv b (fst (append_sync s io record)).
Proof.
  intros [H1 H2 H3 H4 H5 H6 H7] Hm. unfold append_sync. destruct (li_append io); [|done]. cbn [negb].
  assert (Hh : forall fl, (ts_flushed s <= fl)%nat -> forall id half, synced_half s id half ->
    synced_half (with_log s (ts_log s ++ [record]) fl) id half).
  { intros fl Hfl id half (k & r & h & Hk & Hl & Hx). exists k, r, h. cbn [with_log ts_log ts_flushed]. split; [lia|]. split; [by apply lookup_app_l_Some|done]. }
  assert (Hgo : forall fl, (ts_flushed s <= fl <= S (length (ts_log s)))%nat -> store_inv b (with_log s (ts_log s ++ [record]) fl)).
  { intros fl Hfl. split; cbn [with_log ts_table ts_log ts_flushed ts_prepared_payloads]; try done.
    - rewrite length_app. cbn. lia.
    - by apply Forall_app_2; [|apply Forall_singleton].
    - intros id half Hp. apply Hh; [lia|auto].
    - intros n r id Hn Hr. destruct (H7 n r id Hn Hr) as (half & Hs & Ha). exists half. split; [apply Hh; [lia|done]|done]. }
  destruct (li_sync io); cbn [negb fst with_log ts_log]; apply Hgo; [rewrite length_app; cbn; lia|lia].
Qed.

(** Only the table changes, and gives up states. *)
Lemma store_inv_table b s t :
  store_inv b s -> txn_ok t ->
  (forall id, txn_state t id = Some TxPrepared -> is_Some (ts_prepared_payloads s !! id)) ->
  (forall id, txn_state t id = Some (TxResolved Committed) -> delivered b id) ->
  store_inv b (with_table s t).
Proof. intros [H1 H2 H3 H4 H5 H6 H7] Ht Hp Hc. by split. Qed.

Lemma store_inv_book b s book : store_inv b s -> store_inv b (with_book s book).
Proof. intros [H1 H2 H3 H4 H5 H6 H7]. by split. Qed.
Lemma store_inv_counts b s x y z : store_inv b s -> store_inv b (with_counts s x y z).
Proof. intros [H1 H2 H3 H4 H5 H6 H7]. by split. Qed.

Lemma append_sync_fields s io record :
  let s' := fst (append_sync s io record) in
  ts_table s' = ts_table s /\ ts_prepared_payloads s' = ts_prepared_payloads s /\ ts_back_check s' = ts_back_check s /\
  ts_prepared_bytes s' = ts_prepared_bytes s /\
  (snd (append_sync s io record) = true -> ts_log s' = ts_log s ++ [record] /\ ts_flushed s' = S (length (ts_log s))).
Proof.
  unfold append_sync. destruct (li_append io), (li_sync io); cbn; split_and!; try done. intros _. rewrite length_app. cbn. split; [done|lia].
Qed.

(** *** Half messages *)

Lemma append_half_inv b s io id message :
  store_inv b s ->
  let '(s', r) := append_half s io id [] message in
  ts_table s' = ts_table s /\ ts_back_check s' = ts_back_check s /\ (r = Panic -> False) /\
  match r with
  | Ok _ => (forall t, txn_ok t -> (forall q, txn_state t q = Some TxPrepared -> q <> id -> is_Some (ts_prepared_payloads s !! q)) ->
              (forall q, txn_state t q = Some (TxResolved Committed) -> delivered b q) -> store_inv b (with_table s' t))
  | _ => store_inv b s' /\ ts_prepared_payloads s' = ts_prepared_payloads s
  end.
Proof.
  intros Hi. unfold append_half. destruct (encode_half_meta id [] (ap_flags message) (ap_headers message)) as [meta|] eqn:He; [|by split_and!].
  set (h := mk_half_meta id [] (ap_flags message) (ap_headers message)).
  assert (Hd : decode_meta meta = Some (MetaHalf h)) by (apply decode_encode_meta; done).
  set (record := mk_append _ _ _ meta _). pose proof (append_sync_inv b s io record Hi) as Hs.
  assert (Hm : mark_ok b record) by (unfold mark_ok, record; cbn [ap_headers]; by rewrite Hd). specialize (Hs Hm).
  pose proof (append_sync_fields s io record) as (F1 & F2 & F3 & F4 & F5).
  destruct (append_sync s io record) as [s1 ok]. cbn [fst snd] in *. destruct ok; cbn [negb]; [|by split_and!].
  split_and!; [done..|]. destruct (F5 eq_refl) as [Hl Hf]. intros t Ht Hp Hc. destruct Hs as [H1 H2 H3 H4 H5 H6 H7].
  split; cbn [with_table with_payloads with_counts ts_table ts_log ts_flushed ts_prepared_payloads]; try done.
  - intros q half. destruct (decide (q = id)) as [->|Hne]; [|rewrite lookup_insert_ne by done; apply H4]. rewrite lookup_insert_eq. intros [= <-].
    exists (length (ts_log s)), record, h. cbn [with_table with_payloads with_counts ts_flushed ts_log]. rewrite Hl, Hf.
    split_and!; [lia|by apply list_lookup_middle|done..].
  - intros q Hq. destruct (decide (q = id)) as [->|Hne]; [by rewrite lookup_insert_eq|]. rewrite lookup_insert_ne by done. rewrite F2. by apply Hp.
Qed.

(** *** Resolutions *)

Lemma append_op_inv b s io id outcome offset :
  store_inv b s -> is_u64 offset -> (outcome = Committed -> delivered b id) ->
  txn_state (ts_table s) id <> Some TxPrepared ->
  let '(s', r) := append_op s io id outcome offset in
  store_inv b s' /\ ts_table s' = ts_table s /\ (r = Panic -> False).
Proof.
  intros Hi Ho Hc Hnp. unfold append_op. destruct (encode_op_meta id outcome offset) as [meta|] eqn:He; [|by split_and!].
  set (o := mk_op_meta id outcome offset). assert (Hd : decode_meta meta = Some (MetaOp o)) by (apply decode_encode_meta; done).
  set (record := mk_append _ _ _ meta _). assert (Hm : mark_ok b record) by (unfold mark_ok, record; cbn [ap_headers]; by rewrite Hd).
  pose proof (append_sync_inv b s io record Hi Hm) as Hs. pose proof (append_sync_fields s io record) as (F1 & F2 & F3 & F4 & F5).
  destruct (append_sync s io record) as [s1 ok]. cbn [fst snd] in *. destruct ok; cbn [negb]; [|by split_and!].
  cbn [with_counts ts_prepared_payloads]. destruct (ts_prepared_payloads s1 !! id) as [half|] eqn:Hp.
  - split_and!; [|done..]. destruct Hs as [H1 H2 H3 H4 H5 H6 H7]. split; cbn [with_payloads with_counts ts_table ts_log ts_flushed ts_prepared_payloads]; try done.
    + intros q half' [_ Hq]%lookup_delete_Some. by apply H4.
    + intros q Hq. rewrite lookup_delete_ne; [by apply H5|]. intros <-. rewrite F1 in Hq. done.
  - split_and!; [by apply store_inv_counts|done..].
Qed.

Lemma encode_back_magic id a n blob : encode_back_meta id a n = Some blob -> forall m, decode_meta blob = Some m -> exists x, m = MetaBack x.
Proof.
  unfold encode_back_meta. destruct (u16_try_from (length id)) as [tl|]; [|done]. cbn [mbind option_bind]. intros He. apply (inj Some) in He. subst blob.
  intros m. unfold decode_meta. rewrite seal_crc_magic by done. cbn [mbind option_bind]. rewrite !bool_decide_false, bool_decide_true by done.
  destruct (decode_back_meta _) as [x|]; [|done]. intros [= <-]. by exists x.
Qed.

Lemma append_back_inv b s io id attempts next :
  store_inv b s ->
  let '(s', r) := append_back_check s io id attempts next in
  store_inv b s' /\ ts_table s' = ts_table s /\ (r = Panic -> False).
Proof.
  intros Hi. unfold append_back_check. destruct (encode_back_meta id attempts next) as [meta|] eqn:He; [|by split_and!].
  set (record := mk_append _ _ _ meta _). assert (Hm : mark_ok b record).
  { unfold mark_ok, record. cbn [ap_headers]. destruct (decode_meta meta) as [m|] eqn:Hd; [|done].
    by destruct (encode_back_magic _ _ _ _ He _ Hd) as [x ->]. }
  pose proof (append_sync_inv b s io record Hi Hm) as Hs. pose proof (append_sync_fields s io record) as (F1 & F2 & F3 & F4 & F5).
  destruct (append_sync s io record) as [s1 ok]. cbn [fst snd] in *. destruct ok; cbn [negb]; split_and!; try done. by apply store_inv_counts.
Qed.

(** *** Opening *)

Lemma journal_half id log half :
  journal id log = Some (JPrepared half) ->
  exists k record h, log !! k = Some record /\ decode_meta (ap_headers record) = Some (MetaHalf h) /\ hf_txn_id h = id /\ half = half_of h record.
Proof.
  induction log as [|record log IH] using rev_ind; [done|]. rewrite journal_snoc. unfold journal_step.
  assert (Hold : journal id log = Some (JPrepared half) -> exists k r h, (log ++ [record]) !! k = Some r /\
    decode_meta (ap_headers r) = Some (MetaHalf h) /\ hf_txn_id h = id /\ half = half_of h r).
  { intros (k & r & h & Hk & Hx)%IH. exists k, r, h. split; [by apply lookup_app_l_Some|done]. }
  destruct (decode_meta (ap_headers record)) as [[h|o|x]|] eqn:Hd; try done.
  - case_decide as Hid; [|done]. intros [= <-]. exists (length log), record, h. split; [by apply list_lookup_middle|done].
  - by case_decide.
Qed.

Lemma journal_mark id log o :
  journal id log = Some (JResolved o) ->
  exists record m, record ∈ log /\ decode_meta (ap_headers record) = Some (MetaOp m) /\ op_txn_id m = id /\ op_outcome m = o.
Proof.
  induction log as [|record log IH] using rev_ind; [done|]. rewrite journal_snoc. unfold journal_step.
  assert (Hold : journal id log = Some (JResolved o) -> exists r m, r ∈ log ++ [record] /\
    decode_meta (ap_headers r) = Some (MetaOp m) /\ op_txn_id m = id /\ op_outcome m = o).
  { intros (r & m & Hin & Hx)%IH. exists r, m. split; [apply elem_of_app; by left|done]. }
  destruct (decode_meta (ap_headers record)) as [[h|m|x]|] eqn:Hd; try done.
  - by case_decide.
  - case_decide as Hid; [|done]. intros [= <-]. exists record, m. split; [apply elem_of_app; right; by left|done].
Qed.

Lemma store_open_inv b s kept a c bc :
  store_inv b s -> (ts_flushed s <= kept <= length (ts_log s))%nat -> store_inv b (store_open (take kept (ts_log s)) a c bc).
Proof.
  intros [H1 H2 H3 H4 H5 H6 H7] Hk. pose proof (store_open_spec (take kept (ts_log s)) a c bc) as [O1 O2 O3 O4 O5 O6 O7].
  set (s' := store_open (take kept (ts_log s)) a c bc) in *. assert (Hlen : length (take kept (ts_log s)) = kept) by (rewrite length_take; lia).
  split; try done.
  - by rewrite O1, O2.
  - rewrite O1. by apply Forall_take.
  - intros id half. rewrite O5. destruct (journal id (take kept (ts_log s))) as [[half'|o]|] eqn:Hj; [|done..]. intros [= ->].
    apply journal_half in Hj as (k & r & h & Hl & Hx). exists k, r, h. rewrite O1, O2. split; [by apply lookup_lt_Some in Hl|done].
  - intros id. rewrite O4, O5. by destruct (journal id (take kept (ts_log s))) as [[half'|o]|].
  - intros id. rewrite O4. destruct (journal id (take kept (ts_log s))) as [[half'|o]|] eqn:Hj; [done| |done]. intros [= ->].
    apply journal_mark in Hj as (r & m & Hin & Hd & <- & Ho). rewrite Forall_forall in H3.
    apply list_elem_of_lookup in Hin as [k [Hk' _]%lookup_take_Some]. apply list_elem_of_lookup_2 in Hk'. specialize (H3 r Hk').
    unfold mark_ok in H3. rewrite Hd in H3. by apply H3.
  - intros n r id Hn Hr. destruct (H7 n r id Hn Hr) as (half & (k & rec & h & Hkf & Hl & Hx) & Ha). exists half. split; [|done].
    exists k, rec, h. rewrite O1, O2, Hlen. split; [lia|]. split; [apply lookup_take_Some; split; [done|lia]|done].
Qed.
End store.

(** ** The table in one step *)

Lemma prepare_states t id now :
  txn_ok t ->
  let '(t', r) := Txn.txn_prepare t id now in
  txn_ok t' /\ (forall q, q <> id -> txn_state t' q = txn_state t q) /\
  match r with
  | Ok PdPrepared => txn_state t id = None /\ txn_state t' id = Some TxPrepared /\ tt_resolved t' !! id = None /\ (length id <= MAX_TXN_ID_LEN)%nat
  | Ok PdAlreadyPrepared => txn_state t id = Some TxPrepared /\ txn_state t' id = Some TxPrepared
  | Err _ => txn_state t' id = txn_state t id
  | Panic => False
  end.
Proof.
  intros Hok. destruct (decide (length id <= MAX_TXN_ID_LEN)%nat) as [Hl|Hl].
  - pose proof (txn_prepare_spec t id now Hok Hl) as Hs. cbv zeta in Hs. destruct (Txn.txn_prepare t id now) as [t' r].
    destruct Hs as (Hok' & Hres & _ & Hst & Hoth). split_and!; [done..|]. unfold prepare_step in Hst.
    destruct (txn_state t id) as [[|o]|] eqn:Hid; [| |destruct (tt_max_prepared t <=? size (tt_prepared t))%nat]; injection Hst as -> ->; try done.
    split_and!; [done..| |done]. rewrite Hres. unfold txn_state in Hid. destruct (tt_prepared t !! id); [done|]. by destruct (tt_resolved t !! id).
  - unfold Txn.txn_prepare. by destruct (Nat.ltb_spec MAX_TXN_ID_LEN (length id)); [|lia].
Qed.

Lemma resolve_states t id o now :
  txn_ok t ->
  let '(t', r) := txn_resolve t id o now in
  txn_ok t' /\ (forall q st, q <> id -> txn_state t' q = Some st -> txn_state t q = Some st) /\
  match r with
  | Ok RdResolved => txn_state t id = Some TxPrepared /\ txn_state t' id = Some (TxResolved o) /\ (length id <= MAX_TXN_ID_LEN)%nat
  | Ok RdAlreadyResolved => txn_state t id = Some (TxResolved o) /\ txn_state t' id = Some (TxResolved o)
  | Err _ => txn_state t' id = txn_state t id /\ ((length id <= MAX_TXN_ID_LEN)%nat -> txn_state t id <> Some TxPrepared)
  | Panic => False
  end.
Proof.
  intros Hok. destruct (decide (length id <= MAX_TXN_ID_LEN)%nat) as [Hl|Hl].
  - pose proof (txn_resolve_spec t id o now Hok Hl) as Hs. destruct (txn_resolve t id o now) as [t' r].
    destruct Hs as (Hok' & _ & Hst & Hoth & _). split_and!; [done| |].
    + intros q st Hne Hq. destruct (Hoth q Hne) as [<-|(_ & _ & Hx)]; [done|congruence].
    + unfold resolve_step in Hst. destruct (txn_state t id) as [[|o']|]; [injection Hst as -> ->; done| |injection Hst as -> ->; done].
      case_decide; injection Hst as -> ->; [by subst|done].
  - unfold txn_resolve. destruct (Nat.ltb_spec MAX_TXN_ID_LEN (length id)); [|lia]. split_and!; [done..|]. intros. lia.
Qed.

Lemma revert_states t id o now :
  txn_ok t -> txn_state t id = Some (TxResolved o) ->
  let t' := revert_resolved_to_prepared t id now in
  txn_ok t' /\ txn_state t' id = Some TxPrepared /\ forall q, q <> id -> txn_state t' q = txn_state t q.
Proof.
  intros Hok Hst. assert (Hn : tt_prepared t !! id = None).
  { destruct (tt_prepared t !! id) as [e|] eqn:He; [|done]. unfold txn_state in Hst. rewrite He in Hst. by rewrite (to_prepared _ Hok _ _ He) in Hst. }
  assert (Hr : is_Some (tt_resolved t !! id)).
  { unfold txn_state in Hst. rewrite Hn in Hst. destruct (tt_resolved t !! id); [by eexists|done]. }
  destruct Hr as [e He]. unfold revert_resolved_to_prepared. rewrite He.
  assert (Hok1 : txn_ok (with_resolved t (delete id (tt_resolved t)) (tt_resolved_lru t))).
  { destruct Hok as [Hp Ha Hres Hc Hl]. split; try done; cbn.
    - intros q e' [_ Hq]%lookup_delete_Some. by eapply Hres.
    - eapply lru_ok_subset; [apply delete_subseteq|done]. }
  cbv zeta. split; [by apply enter_prepared_ok|]. unfold txn_state. cbn. split; [by rewrite lookup_insert_eq|]. intros q Hq.
  rewrite lookup_insert_ne by done. by rewrite lookup_delete_ne.
Qed.

Lemma cancel_states t id :
  txn_ok t -> txn_ok (cancel_prepared t id) /\ txn_state (cancel_prepared t id) id = te_state <$> tt_resolved t !! id /\
  (forall q, q <> id -> txn_state (cancel_prepared t id) q = txn_state t q).
Proof.
  intros Hok. destruct (cancel_prepared_ok t id Hok) as (Hok' & Hp & Hr). split; [done|]. unfold txn_state. rewrite Hp, Hr, lookup_delete_eq.
  split; [done|]. intros q Hq. by rewrite lookup_delete_ne.
Qed.

(** ** The engine *)

Section engine.
Context `{Crc32c}.

Record engine_inv (all : gset (list Z)) (e : TxnEngine) : Prop := {
  ei_broker : commit_inv all (en_broker e);
  ei_store : match en_txn e with
             | Some s => store_inv (en_broker e) s
             | None => forall id o, ~ holds (bk_records (en_broker e)) id o
             end
}.

Lemma store_empty_inv b a c bc : (forall id o, ~ holds (bk_records b) id o) -> store_inv b (store_open [] a c bc).
Proof.
  intros Hno. pose proof (store_open_spec [] a c bc) as [O1 O2 O3 O4 O5 O6 O7]. set (s := store_open [] a c bc) in *. clearbody s. split; try done.
  - by rewrite O1, O2.
  - rewrite O1. constructor.
  - intros id half. rewrite O5. done.
  - intros id. by rewrite O4.
  - intros id. by rewrite O4.
  - intros n r id Hn Hr. destruct (Hno id (Z.of_nat n)). by exists n, r.
Qed.

Lemma ensure_store_inv all e :
  engine_inv all e ->
  match ensure_txn_store e with
  | Ok (e', s) => engine_inv all e' /\ en_txn e' = Some s /\ store_inv (en_broker e') s /\ en_broker e' = en_broker e /\
      (forall s0, en_txn e = Some s0 -> s = s0)
  | Err _ => True
  | Panic => False
  end.
Proof.
  intros [Hb Hs]. unfold ensure_txn_store. destruct (en_encrypted e); [done|]. destruct (en_txn e) as [s|] eqn:Ht.
  - split_and!; try done; [split; [done|by rewrite Ht]|]. by intros s0 [= <-].
  - assert (Hi : store_inv (en_broker e) (store_open [] (en_max_prepared e) DEFAULT_MAX_RESOLVED_TOMBSTONES (en_back_check_config e)))
      by (by apply store_empty_inv). split_and!; try done.
Qed.

(** The half record does not depend on the table. *)
Lemma append_half_table s t io id stream message :
  append_half (with_table s t) io id stream message =
  let '(s', r) := append_half s io id stream message in (with_table s' t, r).
Proof.
  unfold append_half, append_sync. destruct (encode_half_meta _ _ _ _); [|done]. destruct (li_append io), (li_sync io); done.
Qed.

(** What holds of a transaction whose prepare was answered. *)
Definition half_stored (e : TxnEngine) (id : list Z) : Prop := exists s half, en_txn e = Some s /\ synced_half s id half.

(** A table with fewer states than the one the store is fine with. *)
Lemma store_inv_states b s t :
  store_inv b s -> txn_ok t ->
  (forall q st, txn_state t q = Some st -> txn_state (ts_table s) q = Some st \/ st = TxResolved RolledBack) ->
  store_inv b (with_table s t).
Proof.
  intros Hs Hok Hst. apply store_inv_table; [done..| |].
  - intros q Hq. destruct (Hst _ _ Hq) as [?|?]; [by apply (si_prepared _ _ Hs)|done].
  - intros q Hq. destruct (Hst _ _ Hq) as [?|?]; [by apply (si_committed _ _ Hs)|done].
Qed.

Lemma engine_inv_txn all e s : engine_inv all e -> store_inv (en_broker e) s -> engine_inv all (with_txn e s).
Proof. intros [Hb _] Hs. by split. Qed.

Lemma prepare_inv all e io id message group :
  engine_inv all e ->
  let '(e', r) := TxnCommit.txn_prepare e io id [] message group in
  engine_inv all e' /\ en_broker e' = en_broker e /\
  match r with Ok _ => half_stored e' id | Err _ => True | Panic => False end.
Proof.
  intros Hi. unfold TxnCommit.txn_prepare. pose proof (ensure_store_inv all e Hi) as He.
  destruct (ensure_txn_store e) as [[e1 s]|x|]; [|by split_and!|done]. destruct He as (Hi1 & Ht1 & Hs1 & Hb1 & _).
  pose proof (prepare_states (ts_table s) id (ti_now io) (si_table _ _ Hs1)) as Hp.
  destruct (Txn.txn_prepare (ts_table s) id (ti_now io)) as [t [[|]|x|]]; destruct Hp as (Hok & Hoth & Hst); [| | |done].
  - destruct Hst as (Hnone & Hprep & Hres & Hlen).
    assert (Hle : forall q st, q <> id -> txn_state t q = Some st -> txn_state (ts_table s) q = Some st) by (intros q st Hne; by rewrite Hoth).
    destruct (over_budget e1 (with_table s t) id [] message) as [budget|].
    + destruct (cancel_states t id Hok) as (Hok' & Hid & Hoth'). split_and!; try done. apply engine_inv_txn; [done|].
      apply (store_inv_states _ s); [done..|]. intros q st Hq. left.
      destruct (decide (q = id)) as [->|Hne]; [by rewrite Hid, Hres in Hq|]. rewrite Hoth' in Hq by done. by apply Hle.
    + rewrite append_half_table. pose proof (append_half_inv (en_broker e1) s (ti_log io) id message Hs1) as Hh.
      destruct (append_half s (ti_log io) id [] message) as [s' [u|x|]] eqn:Hah; destruct Hh as (F1 & F2 & F3 & Hh); [| |by destruct F3].
      * assert (Hst' : store_inv (en_broker e1) (with_table s' t)).
        { apply Hh; [done| |].
          - intros q Hq Hne. apply (si_prepared _ _ Hs1). by apply Hle.
          - intros q Hq. destruct (decide (q = id)) as [->|Hne]; [congruence|]. apply (si_committed _ _ Hs1). by apply Hle. }
        split_and!; [|done|]; cbn [with_table ts_back_check].
        -- split; [apply (ei_broker _ _ Hi1)|]. apply (store_inv_book _ _ _ Hst').
        -- destruct (si_prepared _ _ Hst' id Hprep) as [half Hhalf]. apply (si_payload _ _ Hst') in Hhalf. eexists _, half. split; [done|]. exact Hhalf.
      * destruct Hh as [Hs' _]. cbn [with_table ts_table]. pose proof (resolve_states t id RolledBack (ti_now io) Hok) as Hr.
        unfold table_rollback. destruct (txn_resolve t id RolledBack (ti_now io)) as [t' d]. cbn [fst]. destruct Hr as (Hok' & Hoth' & Hd).
        split_and!; try done. apply engine_inv_txn; [done|]. apply store_inv_book. apply (store_inv_states _ s'); [done..|].
        rewrite F1. intros q st Hq. destruct (decide (q = id)) as [->|Hne]; [|left; by apply Hle, Hoth'].
        destruct d as [[|]|x'|]; [destruct Hd as (_ & Hd & _); right; congruence|destruct Hd; congruence| |done].
        destruct Hd as [_ Hd]. by destruct (Hd Hlen).
  - destruct Hst as [Hold Hnew]. assert (Hst' : store_inv (en_broker e1) (with_table s t)).
    { apply (store_inv_states _ s); [done..|]. intros q st Hq. left. destruct (decide (q = id)) as [->|Hne]; [congruence|]. by rewrite <- Hoth. }
    split_and!; [|done|].
    + split; [apply (ei_broker _ _ Hi1)|exact Hst'].
    + destruct (si_prepared _ _ Hst' id Hnew) as [half Hhalf]. apply (si_payload _ _ Hst') in Hhalf. by eexists _, half.
  - split_and!; try done. apply engine_inv_txn; [done|]. apply (store_inv_states _ s); [done..|]. intros q st Hq. left.
    destruct (decide (q = id)) as [->|Hne]; [congruence|]. by rewrite <- Hoth.
Qed.

(** *** Rollback *)

Lemma settle_inv all e s id : engine_inv all e -> store_inv (en_broker e) s -> engine_inv all (settle e s id).
Proof. intros [Hb _] Hs. split; [done|]. by apply store_inv_book. Qed.

Lemma rollback_inv all e io id :
  engine_inv all e ->
  let '(e', r) := TxnCommit.txn_rollback e io id in
  engine_inv all e' /\ en_broker e' = en_broker e /\ (r = Panic -> False).
Proof.
  intros Hi. unfold TxnCommit.txn_rollback. pose proof (ensure_store_inv all e Hi) as He.
  destruct (ensure_txn_store e) as [[e1 s]|x|]; [|by split_and!|done]. destruct He as (Hi1 & Ht1 & Hs1 & Hb1 & _).
  unfold table_rollback. pose proof (resolve_states (ts_table s) id RolledBack (ti_now io) (si_table _ _ Hs1)) as Hr.
  destruct (txn_resolve (ts_table s) id RolledBack (ti_now io)) as [t d]. destruct Hr as (Hok & Hoth & Hd).
  assert (Hst : store_inv (en_broker e1) (with_table s t)).
  { apply (store_inv_states _ s); [done..|]. intros q st Hq. destruct (decide (q = id)) as [->|Hne]; [|left; by apply Hoth].
    destruct d as [[|]|x|]; [right; destruct Hd as (_ & Hd & _)|right; destruct Hd as [_ Hd]|left; destruct Hd as [Hd _]|done]; congruence. }
  pose proof (engine_inv_txn all e1 _ Hi1 Hst) as Hi2. destruct d as [[|]|x|]; [|by split_and!|by split_and!|done].
  unfold mark_rolled_back. pose proof (append_op_inv (en_broker e1) (with_table s t) (ti_log io) id RolledBack 0 Hst) as Ha.
  destruct Hd as (_ & Hd & _). destruct (append_op (with_table s t) (ti_log io) id RolledBack 0) as [s2 r2].
  destruct Ha as (Hs2 & _ & Hr2); [done|done|cbn; congruence|].
  destruct r2 as [u|x|]; [|split_and!; [by apply engine_inv_txn|done..]|by destruct Hr2].
  split_and!; [by apply settle_inv|done..].
Qed.

(** *** Commit *)

(** The conditions of a commit: no stale checkpoint, and a transaction of the run. *)
Definition commit_ok (all : gset (list Z)) (b : Broker) (id : list Z) : Prop :=
  none_stale b = true /\ txn_dedup_producer_id id ∈ all /\ bytes_ok id /\ Z.of_nat (length (bk_records b)) < u64_max.

Lemma dedup_offset_delivered all b id : commit_inv all b -> delivered b id -> holds (take (bk_flushed b) (bk_records b)) id (dedup_offset_for b id).
Proof.
  intros Hi [o Ho]. unfold dedup_offset_for. pose proof (ci_tracks _ _ Hi id) as Ht. pose proof Ho as [Ho' _]%holds_take.
  destruct (high_water (bk_seqs b) (txn_dedup_producer_id id)) as [[[e [x|]] o']|].
  - destruct Ht as (_ & _ & Hx). by rewrite (ci_once _ _ Hi id o' o Hx Ho').
  - destruct Ht as [_ Ht]. by apply Ht in Ho'.
  - by apply Ht in Ho'.
Qed.

Lemma delivered_mono b b' :
  (bk_flushed b <= bk_flushed b')%nat -> (forall n r, bk_records b !! n = Some r -> (n < bk_flushed b)%nat -> bk_records b' !! n = Some r) ->
  forall id, delivered b id -> delivered b' id.
Proof.
  intros Hf Hr id (o & [(n & r & -> & Hn & Hid) Hlt]%holds_take). exists (Z.of_nat n). apply holds_take. split; [|lia].
  exists n, r. split_and!; [done|apply Hr; [done|lia]|done].
Qed.

Lemma grown_lookup (b b' : Broker) r0 :
  bk_records b' = bk_records b \/ bk_records b' = bk_records b ++ [r0] ->
  forall n r, bk_records b !! n = Some r -> bk_records b' !! n = Some r.
Proof. intros [->| ->] n r Hn; [done|by apply lookup_app_l_Some]. Qed.

(** The store after the durable steps. *)
Lemma steps_store_inv b b' s id half :
  store_inv b s -> synced_half s id half -> (bk_flushed b <= bk_flushed b')%nat ->
  bk_records b' = bk_records b \/ bk_records b' = bk_records b ++ [mk_stored (commit_append half) (Some (tid id))] ->
  store_inv b' s.
Proof.
  intros Hs Hh Hf Hr. apply (store_inv_broker b b' s Hs).
  - apply delivered_mono; [done|]. intros n r Hn _. by eapply grown_lookup.
  - intros n r q Hn Hq. destruct Hr as [Hr|Hr]; rewrite Hr in Hn; [by eapply (si_records _ _ Hs)|].
    apply lookup_app_Some in Hn as [Hn|[_ Hn]]; [by eapply (si_records _ _ Hs)|]. apply list_lookup_singleton_Some in Hn as [_ <-].
    apply (inj Some), (inj tid) in Hq. subst q. by exists half.
Qed.

Lemma txn_hw_ok id n : bytes_ok id -> (length id <= MAX_TXN_ID_LEN)%nat -> Z.of_nat n <= u64_max ->
  hw_ok (mk_hw (txn_dedup_producer_id id) 0 0 (Z.of_nat n)).
Proof.
  intros Hb Hl Hn. unfold hw_ok. cbn [hw_producer_id hw_epoch hw_last_seq hw_last_offset]. unfold txn_dedup_producer_id.
  split_and!; [| |done|done|unfold is_u64; lia].
  - apply Forall_app_2; [|done]. unfold TXN_DEDUP_PRODUCER_PREFIX. repeat (apply Forall_cons; split; [unfold is_u8, u8_max; lia|]). constructor.
  - rewrite length_app. unfold MAX_TXN_ID_LEN, u16_max in *. cbn [TXN_DEDUP_PRODUCER_PREFIX length]. lia.
Qed.

Lemma commit_engine_inv all e io id :
  room all -> engine_inv all e -> commit_ok all (en_broker e) id ->
  let '(e', r) := TxnCommit.txn_commit e io id in
  engine_inv all e' /\
  match r with
  | Ok o => holds (take (bk_flushed (en_broker e')) (bk_records (en_broker e'))) id o
  | Err _ => True
  | Panic => False
  end.
Proof.
  intros Hroom Hi (Hns & Hall & Hby & Hlen). unfold TxnCommit.txn_commit. pose proof (ensure_store_inv all e Hi) as He.
  destruct (ensure_txn_store e) as [[e1 s]|x|]; [|by split_and!|done]. destruct He as (Hi1 & Ht1 & Hs1 & Hb1 & _).
  unfold table_commit. pose proof (resolve_states (ts_table s) id Committed (ti_now io) (si_table _ _ Hs1)) as Hr.
  destruct (txn_resolve (ts_table s) id Committed (ti_now io)) as [t d]. destruct Hr as (Hok & Hoth & Hd).
  rewrite <- Hb1 in Hns, Hlen. cbn [with_txn en_broker with_table ts_prepared_payloads].
  assert (Hsame : txn_state t id = txn_state (ts_table s) id -> store_inv (en_broker e1) (with_table s t)).
  { intros Hid. apply (store_inv_states _ s); [done..|]. intros q st Hq. left. destruct (decide (q = id)) as [->|Hne]; [congruence|by apply Hoth]. }
  destruct d as [[|]|x|]; [| | |done].
  - destruct Hd as (Hprep & Hcom & Hidl). destruct (si_prepared _ _ Hs1 id Hprep) as [half Hhalf]. rewrite Hhalf.
    pose proof (si_payload _ _ Hs1 _ _ Hhalf) as Hsh. pose proof (half_stream _ _ _ _ Hs1 Hsh) as Hstream.
    assert (Hhw : hw_ok (mk_hw (txn_dedup_producer_id id) 0 0 (Z.of_nat (length (bk_records (en_broker e1)))))) by (apply txn_hw_ok; [done..|lia]).
    pose proof (commit_steps_inv all (en_broker e1) io id half Hroom (ei_broker _ _ Hi1) Hns Hall Hhw Hstream) as Hc.
    destruct (commit_durable_steps (en_broker e1) io id half) as [b' [o|x|]]; destruct Hc as (Hb' & Hf' & Hr' & Ho); [| |done].
    + pose proof (steps_store_inv _ b' s id half Hs1 Hsh Hf' Hr') as Hs'.
      assert (Hst : store_inv b' (with_table s t)).
      { apply store_inv_table; [done..| |].
        - intros q Hq. apply (si_prepared _ _ Hs1). apply Hoth; [|done]. intros ->. congruence.
        - intros q Hq. destruct (decide (q = id)) as [->|Hne]; [by exists o|]. apply (si_committed _ _ Hs'). by apply Hoth. }
      unfold mark_committed. pose proof (append_op_inv b' (with_table s t) (ti_log io) id Committed o Hst) as Ha.
      destruct (append_op (with_table s t) (ti_log io) id Committed o) as [s2 r2].
      destruct Ha as (Hs2 & _ & Hr2); [|by exists o|cbn; congruence|].
      { apply holds_take in Ho as [Ho _]. apply holds_lt in Ho. unfold is_u64. destruct Hr' as [Hr'|Hr']; rewrite Hr' in Ho; [lia|].
        rewrite length_app in Ho. cbn in Ho. lia. }
      destruct r2 as [u|x|]; [|split; [by split|done]|by destruct Hr2]. split; [|done]. split; [done|]. by apply store_inv_book.
    + split; [|done]. split; [done|]. pose proof (steps_store_inv _ b' s id half Hs1 Hsh Hf' Hr') as Hs'.
      destruct (revert_states t id Committed (ti_now io) Hok Hcom) as (Hok' & Hid' & Hoth').
      apply (store_inv_states b' s); [done..|]. intros q st Hq. left. destruct (decide (q = id)) as [->|Hne]; [congruence|].
      apply Hoth; [done|]. by rewrite <- Hoth'.
  - destruct Hd as (Hold & Hnew). assert (Hst : store_inv (en_broker e1) (with_table s t)) by (apply Hsame; congruence).
    split; [by apply engine_inv_txn|]. apply (dedup_offset_delivered all); [apply (ei_broker _ _ Hi1)|]. by apply (si_committed _ _ Hs1).
  - split; [|done]. apply engine_inv_txn; [done|]. apply Hsame. by destruct Hd.
Qed.

(** *** Back-check *)

Lemma back_check_one_inv all e io now id :
  engine_inv all e ->
  let '(e', r) := back_check_one e io now id in
  engine_inv all e' /\ en_broker e' = en_broker e /\ (r = Panic -> False).
Proof.
  intros Hi. unfold back_check_one. destruct (is_prepared e id); [|by split_and!]. cbn [negb]. pose proof (ensure_store_inv all e Hi) as He.
  destruct (ensure_txn_store e) as [[e1 s]|x|]; [|by split_and!|done]. destruct He as (Hi1 & Ht1 & Hs1 & Hb1 & _).
  destruct (record_attempt (ts_back_check s) id now) as [book outcome]. destruct (default (0, now) (bookkeeping book id)) as [attempts next].
  pose proof (append_back_inv (en_broker e1) (with_book s book) (ti_log io) id attempts next (store_inv_book _ _ _ Hs1)) as Ha.
  destruct (append_back_check (with_book s book) (ti_log io) id attempts next) as [s2 [u|x|]]; destruct Ha as (Hs2 & _ & Hr2).
  - pose proof (engine_inv_txn all e1 s2 Hi1 Hs2) as Hi2. destruct outcome.
    + destruct (route_for (en_router (with_txn e1 s2)) id); split_and!; try done. by destruct Hi2.
    + pose proof (rollback_inv all (with_txn e1 s2) io id Hi2) as Hr. destruct (TxnCommit.txn_rollback (with_txn e1 s2) io id) as [e3 [u3|x|]];
        destruct Hr as (Hi3 & Hb3 & Hp3); split_and!; try done; cbn in Hb3; congruence.
  - split_and!; [by apply engine_inv_txn|done..].
  - by destruct Hr2.
Qed.

Lemma back_check_loop_inv all now due : forall e ios issued,
  engine_inv all e ->
  let '(e', r) := back_check_loop e ios now due issued in
  engine_inv all e' /\ en_broker e' = en_broker e /\ (r = Panic -> False).
Proof.
  induction due as [|id due IH]; intros e ios issued Hi; cbn [back_check_loop]; [by split_and!|].
  set (io := default _ (head ios)). pose proof (back_check_one_inv all e io now id Hi) as Ho.
  destruct (back_check_one e io now id) as [e1 [n|x|]]; destruct Ho as (Hi1 & Hb1 & Hp1); [|by split_and!|by destruct Hp1].
  specialize (IH e1 (tail ios) (issued + n)%nat Hi1). destruct (back_check_loop e1 (tail ios) now due (issued + n)) as [e2 r2].
  destruct IH as (Hi2 & Hb2 & Hp2). split_and!; [done|congruence|done].
Qed.

Lemma tick_inv all e ios now :
  engine_inv all e ->
  let '(e', r) := txn_back_check_tick e ios now in
  engine_inv all e' /\ en_broker e' = en_broker e /\ (r = Panic -> False).
Proof.
  intros Hi. unfold txn_back_check_tick. destruct (en_txn e) as [s|]; [|by split_and!].
  destruct (bool_decide _ && _); [by split_and!|]. by apply back_check_loop_inv.
Qed.
End engine.

(** ** Runs *)

Inductive TxnOp :=
| TPrepare (io : TxnIo) (id : list Z) (message : Append) (group : list Z)
| TCommit (io : TxnIo) (id : list Z)
| TRollback (io : TxnIo) (id : list Z)
| TTick (ios : list TxnIo) (now : Z)
| TCheck (io : TxnIo) (id : list Z) (decision : TxnCheckDecision) (group : list Z)
| TListen (group : list Z) (member : Z)
| TDrain (member : Z)
| TDrop (member : Z)
| TProduce (op : ProdOp)
| TCrash (kept : nat) (recovered : option (list Z)) (kept_txn : nat) (now : Z).

Inductive TxnAnswer :=
| AnsUnit (r : res unit TxnEngineError)
| AnsOffset (r : res Z TxnEngineError)
| AnsCount (r : res nat TxnEngineError)
| AnsNone.

Section runs.
Context `{Crc32c}.

Definition txn_step (e : TxnEngine) (op : TxnOp) : TxnEngine * TxnAnswer :=
  match op with
  | TPrepare io id message group => let '(e, r) := TxnCommit.txn_prepare e io id [] message group in (e, AnsUnit r)
  | TCommit io id => let '(e, r) := TxnCommit.txn_commit e io id in (e, AnsOffset r)
  | TRollback io id => let '(e, r) := TxnCommit.txn_rollback e io id in (e, AnsUnit r)
  | TTick ios now => let '(e, r) := txn_back_check_tick e ios now in (e, AnsCount r)
  | TCheck io id decision group => let '(e, r) := resolve_txn_check e io id decision group in (e, AnsUnit r)
  | TListen group member => (with_router e (default (en_router e) (register_listener (en_router e) group member)), AnsNone)
  | TDrain member => (with_router e (fst (drain_for (en_router e) member)), AnsNone)
  | TDrop member => (with_router e (drop_member (en_router e) member), AnsNone)
  | TProduce op => (with_broker e (fst (prod_step (en_broker e) op)), AnsNone)
  | TCrash kept recovered kept_txn now => (engine_reopen e kept recovered kept_txn now, AnsNone)
  end.

Definition txn_run (e : TxnEngine) (ops : list TxnOp) : TxnEngine := foldl (fun e op => fst (txn_step e op)) e ops.

Definition engine_new (c : DedupConfig) (max_prepared : nat) (max_bytes : option Z) (bc : BackCheckConfig) : TxnEngine :=
  mk_txn_engine (broker_new c) None false max_prepared max_bytes bc router_new.

(** The conditions on other produces: nothing is appended while a stale
    checkpoint could be recovered, and nothing synced while one does not name
    a transaction's record. *)
Definition produce_ok (all : gset (list Z)) (b : Broker) (op : ProdOp) : Prop :=
  match op with
  | OpSequenced _ _ i =>
      none_stale b = true /\ id_producer i ∈ all /\ identity_ok i /\ is_txn_pid (id_producer i) = false /\
      Z.of_nat (length (bk_records b)) <= u64_max
  | OpPlain _ _ dedup => none_stale b = true /\ match dedup with Some req => rq_seq req = None | None => True end
  | OpCommit _ => forallb (fun v => names_all v (bk_records b)) (recoverable b) = true
  | OpCheckpoint _ => True
  | OpRestart _ => False
  end.

(** A crash keeps at least what was synced, and of the default stream no
    transaction's record that the recovered checkpoint does not name. *)
Definition txn_op_ok (all : gset (list Z)) (e : TxnEngine) (op : TxnOp) : Prop :=
  match op with
  | TCommit _ id | TCheck _ id CheckCommit _ => commit_ok all (en_broker e) id
  | TProduce op => produce_ok all (en_broker e) op
  | TCrash kept recovered kept_txn _ =>
      crash_fine (en_broker e) kept recovered = true /\
      match en_txn e with Some s => (ts_flushed s <= kept_txn <= length (ts_log s))%nat | None => True end
  | _ => True
  end.

Fixpoint txn_ops_ok (all : gset (list Z)) (e : TxnEngine) (ops : list TxnOp) : Prop :=
  match ops with
  | [] => True
  | op :: ops => txn_op_ok all e op /\ txn_ops_ok all (fst (txn_step e op)) ops
  end.

Definition answer_ok (e : TxnEngine) (op : TxnOp) (a : TxnAnswer) : Prop :=
  match op, a with
  | TCommit _ id, AnsOffset (Ok o) => holds (take (bk_flushed (en_broker e)) (bk_records (en_broker e))) id o
  | TPrepare _ id _ _, AnsUnit (Ok _) => half_stored e id
  | _, (AnsUnit Panic | AnsOffset Panic | AnsCount Panic) => False
  | _, _ => True
  end.

(** *** Every step keeps the invariant *)

Lemma is_txn_pid_false pid : is_txn_pid pid = false -> forall id, pid <> txn_dedup_producer_id id.
Proof. intros Hf id ->. by rewrite is_txn_pid_true in Hf. Qed.

(** A produce of another kind moves the broker on. *)
Definition moves (b b' : Broker) : Prop :=
  (bk_flushed b <= bk_flushed b')%nat /\
  exists added, bk_records b' = bk_records b ++ added /\ forall r id, r ∈ added -> st_identity r <> Some (tid id).

Lemma plain_commit_inv all b io m dedup :
  commit_inv all b -> produce_ok all b (OpPlain io m dedup) ->
  let b' := fst (append_no_sync_dedup_checked b io m dedup) in commit_inv all b' /\ moves b b'.
Proof.
  intros Hi [Hns Hreq]. assert (Hgo : forall b1, record_fields b1 = record_fields b ->
    commit_inv all (fst (append_no_sync b1 io m None)) /\ moves b (fst (append_no_sync b1 io m None))).
  { intros b1 Hf. pose proof (commit_inv_counts all b b1 Hf Hi) as Hi1. injection Hf as F1 F2 F3 F4 F5 F6.
    assert (Hns1 : none_stale b1 = true) by (rewrite (none_stale_frame b b1); [done|unfold recoverable; by rewrite F5, F6|done]).
    unfold append_no_sync. destruct (io_append io); cbn [fst].
    - split; [by apply append_other_inv|]. split; [cbn; lia|]. eexists [_]. cbn. rewrite F1. split; [done|]. by intros r id ->%list_elem_of_singleton.
    - split; [done|]. split; [lia|]. exists []. rewrite F1, app_nil_r. split; [done|]. by intros r id ?%not_elem_of_nil. }
  assert (Hcount : forall b1 b2 : Broker, record_fields b2 = record_fields b1 -> commit_inv all b1 /\ moves b b1 -> commit_inv all b2 /\ moves b b2).
  { intros b1 b2 Hf [Hi1 Hm]. split; [by eapply commit_inv_counts|]. injection Hf as F1 F2 F3 F4 F5 F6. unfold moves. by rewrite F1, F2. }
  assert (Hrefl : commit_inv all b /\ moves b b).
  { split; [done|]. split; [lia|]. exists []. rewrite app_nil_r. split; [done|]. by intros r id ?%not_elem_of_nil. }
  unfold append_no_sync_dedup_checked. destruct dedup as [req|].
  - rewrite Hreq. destruct (dedup_check _ _ _ _ _) as [d [oow|o|cur]]; [|by apply (Hcount b)..].
    set (b1 := if oow then _ else _). specialize (Hgo b1 ltac:(by destruct oow)).
    destruct (append_no_sync b1 io m None) as [b2 [o|x|]]; [|done..]. by apply (Hcount b2).
  - specialize (Hgo b eq_refl). by destruct (append_no_sync b io m None) as [b2 [o|x|]].
Qed.

Lemma produce_commit_inv all b op :
  room all -> commit_inv all b -> produce_ok all b op -> commit_inv all (fst (prod_step b op)) /\ moves b (fst (prod_step b op)).
Proof.
  intros Hroom Hi Hop. assert (Hsame : forall b', bk_records b' = bk_records b -> (bk_flushed b <= bk_flushed b')%nat -> moves b b').
  { intros b' Hr Hf. split; [done|]. exists []. rewrite app_nil_r. split; [done|]. by intros r id ?%not_elem_of_nil. }
  destruct op as [io m i|io m dedup|io|io|now]; cbn [prod_step].
  - destruct Hop as (Hns & Hpid & Hid & Htx & Hlen). cbn [append_no_sync_dedup_checked rq_seq rq_producer_id rq_epoch].
    pose proof (seq_publish_inv all b io m i Hroom Hi Hns Hpid Hid (is_txn_pid_false _ Htx) Hlen) as Hs.
    destruct (append_no_sync_seq b io m (id_producer i) (id_epoch i) (id_seq i)) as [b' r]. destruct Hs as (Hi' & Hf & [Hr|Hr]);
      (split; [done|]); [apply Hsame; [done|cbn; lia]|]. split; [cbn; lia|]. eexists [_]. split; [done|].
    intros r0 id ->%list_elem_of_singleton [= Hx]. apply (is_txn_pid_false _ Htx id). by rewrite Hx.
  - pose proof (plain_commit_inv all b io m dedup Hi Hop) as Hs. cbv zeta in Hs.
    destruct (append_no_sync_dedup_checked b io m dedup) as [b' r]. exact Hs.
  - pose proof (proj1 (forallb_forall _ _) Hop) as Hop'. pose proof (batch_sync_inv all b io Hi) as Hs.
    destruct (commit_batch b io) as [b' r]. destruct Hs as (Hi' & Hr & _ & Hf & _); [intros v Hv; apply Hop'; by apply list_elem_of_In|].
    split; [done|]. by apply Hsame.
  - pose proof (snapshot_write_inv all b io Hroom Hi) as Hs. destruct (checkpoint_producer_seq b io) as [b' r].
    destruct Hs as (Hi' & Hr & _ & Hf & _). split; [done|]. apply Hsame; [done|cbn; lia].
  - done.
Qed.

Lemma moves_store_inv b b' s : moves b b' -> store_inv b s -> store_inv b' s.
Proof.
  intros [Hf (added & Hr & Ha)] Hs. apply (store_inv_broker b b' s Hs).
  - apply delivered_mono; [done|]. intros n r Hn _. rewrite Hr. by apply lookup_app_l_Some.
  - intros n r id Hn Hid. rewrite Hr in Hn. apply lookup_app_Some in Hn as [Hn|[_ Hn]]; [by eapply (si_records _ _ Hs)|].
    apply list_elem_of_lookup_2 in Hn. by destruct (Ha r id Hn).
Qed.

Lemma moves_no_holds b b' : moves b b' -> (forall id o, ~ holds (bk_records b) id o) -> forall id o, ~ holds (bk_records b') id o.
Proof.
  intros [_ (added & Hr & Ha)] Hno id o (n & r & -> & Hn & Hid). rewrite Hr in Hn. apply lookup_app_Some in Hn as [Hn|[_ Hn]].
  - apply (Hno id (Z.of_nat n)). by exists n, r.
  - apply list_elem_of_lookup_2 in Hn. by destruct (Ha r id Hn).
Qed.

Lemma crash_engine_inv all e kept recovered kept_txn now :
  room all -> engine_inv all e -> txn_op_ok all e (TCrash kept recovered kept_txn now) ->
  engine_inv all (engine_reopen e kept recovered kept_txn now).
Proof.
  intros Hroom [Hb Hs] [Hc Ht]. pose proof (kept_fine all _ _ _ Hb Hc) as (Hk & _ & _). split; [by apply reopen_inv|].
  cbn [engine_reopen en_txn en_broker]. destruct (en_txn e) as [s|].
  - apply store_open_inv; [|done]. apply (store_inv_broker (en_broker e)); [done| |].
    + apply delivered_mono; unfold reopen; cbn [bk_flushed bk_records].
      * unfold crash_fine in Hc. rewrite !andb_true_iff, !Nat.leb_le in Hc. rewrite length_take. lia.
      * intros n r Hn Hlt. apply lookup_take_Some. split; [done|]. unfold crash_fine in Hc. rewrite !andb_true_iff, !Nat.leb_le in Hc. lia.
    + intros n r id [Hn _]%lookup_take_Some Hid. by eapply (si_records _ _ Hs).
  - intros id o [Ho _]%holds_take. by apply Hs in Ho.
Qed.

Lemma txn_step_inv all e op :
  room all -> engine_inv all e -> txn_op_ok all e op ->
  engine_inv all (fst (txn_step e op)) /\ answer_ok (fst (txn_step e op)) op (snd (txn_step e op)).
Proof.
  intros Hroom Hi Hop. assert (Hrouter : forall r, engine_inv all (with_router e r)) by (intros r; by destruct Hi).
  destruct op as [io id m g|io id|io id|ios now|io id d g|g mb|mb|mb|op|k rec kt now]; cbn [txn_step]; try (split; [apply Hrouter|exact I]).
  - pose proof (prepare_inv all e io id m g Hi) as Hs. destruct (TxnCommit.txn_prepare e io id [] m g) as [e' [u|x|]]; by destruct Hs as (? & ? & ?).
  - pose proof (commit_engine_inv all e io id Hroom Hi Hop) as Hs. by destruct (TxnCommit.txn_commit e io id) as [e' [u|x|]].
  - pose proof (rollback_inv all e io id Hi) as Hs. destruct (TxnCommit.txn_rollback e io id) as [e' [u|x|]]; destruct Hs as (? & ? & ?); try done; auto.
  - pose proof (tick_inv all e ios now Hi) as Hs. destruct (txn_back_check_tick e ios now) as [e' [u|x|]]; destruct Hs as (? & ? & ?); try done; auto.
  - unfold resolve_txn_check. destruct (is_prepared e id && _); [by split|]. destruct d.
    + pose proof (commit_engine_inv all e io id Hroom Hi Hop) as Hs. by destruct (TxnCommit.txn_commit e io id) as [e' [u|x|]]; destruct Hs.
    + pose proof (rollback_inv all e io id Hi) as Hs. destruct (TxnCommit.txn_rollback e io id) as [e' [u|x|]]; destruct Hs as (? & ? & ?); try done; auto.
    + by split.
  - split; [|done]. cbn [fst]. destruct Hi as [Hb Hs]. destruct (produce_commit_inv all (en_broker e) op Hroom Hb Hop) as [Hb' Hm].
    split; [done|]. cbn [with_broker en_txn en_broker]. destruct (en_txn e) as [s|]; [by eapply moves_store_inv|by eapply moves_no_holds].
  - split; [|done]. by apply crash_engine_inv.
Qed.

Lemma engine_new_inv all c mp mb bc : engine_inv all (engine_new c mp mb bc).
Proof.
  assert (Hno : forall id o, ~ holds [] id o) by (intros id o (n & r & _ & Hn & _); by rewrite lookup_nil in Hn).
  split; [|done]. split; cbn [engine_new en_broker broker_new bk_seqs bk_records bk_flushed bk_ckpt_open bk_ckpt bk_ckpt_attempts]; try done.
  - apply seqs_new_ok.
  - intros id o o' Ho. by apply Hno in Ho.
  - intros v ->%list_elem_of_singleton id o Ho. by apply Hno in Ho.
Qed.

Lemma txn_run_inv all ops : forall e,
  room all -> engine_inv all e -> txn_ops_ok all e ops -> engine_inv all (txn_run e ops).
Proof.
  induction ops as [|op ops IH]; intros e Hroom Hi Hops; [done|]. destruct Hops as [Hop Hops].
  apply (IH (fst (txn_step e op))); [done|by apply txn_step_inv|done].
Qed.

Lemma txn_ops_ok_snoc all ops op : forall e, txn_ops_ok all e (ops ++ [op]) <-> txn_ops_ok all e ops /\ txn_op_ok all (txn_run e ops) op.
Proof. induction ops as [|op' ops IH]; intros e; cbn [txn_ops_ok app txn_run foldl]; [naive_solver|]. rewrite IH. naive_solver. Qed.

(** *** A prepared transaction can be committed *)

Definition io_works (io : TxnIo) : Prop :=
  io_ckpt_open (ti_main io) = true /\ io_append (ti_main io) = true /\ io_ckpt_write (ti_main io) = true /\ io_sync (ti_main io) = true /\
  li_append (ti_log io) = true /\ li_sync (ti_log io) = true.

Lemma flush_and_sync_work b io :
  io_works io -> exists b' b2, flush_txn_commit_dedup b io = (b', Ok tt) /\ commit_batch b' (ti_main io) = (b2, Ok tt).
Proof.
  intros (W1 & _ & W3 & W4 & _). unfold flush_txn_commit_dedup, ensure_producer_seq_checkpoint, checkpoint_producer_seq, commit_batch.
  rewrite W4. destruct (bk_ckpt_open b) eqn:Ho; rewrite ?W1; cbn [bk_ckpt_open with_ckpt negb]; rewrite ?Ho, W3; cbn [negb]; eauto.
Qed.

Lemma commit_steps_work all b io id half :
  room all -> commit_inv all b -> txn_dedup_producer_id id ∈ all -> hm_stream half = [] -> io_works io ->
  exists b' o, commit_durable_steps b io id half = (b', Ok o).
Proof.
  intros Hroom Hi Hpid Hst Hw. unfold commit_durable_steps, commit_real_append. rewrite decide_True by done.
  cbn [append_no_sync_dedup_checked rq_seq rq_producer_id rq_epoch]. set (pid := txn_dedup_producer_id id) in *.
  destruct (check_commit_inv all b pid 0 0 (io_now (ti_main io)) Hroom Hi Hpid ltac:(done)) as (Hi' & Hd & Hh).
  unfold append_no_sync_seq. destruct (seq_check (bk_seqs b) pid 0 0 (io_now (ti_main io))) as [r d]. cbn [fst snd] in *.
  pose proof (ci_tracks _ _ Hi' id) as Ht. cbn [with_seqs bk_seqs] in Ht. fold pid in Ht. rewrite Hh in Ht.
  destruct (hw_bump (high_water (bk_seqs b) pid) 0) as [[e l] o]. unfold hw_decide in Hd. destruct l as [y|].
  - destruct Ht as (-> & -> & _). cbn in Hd. subst d. destruct (flush_and_sync_work (count_hit (with_seqs b r)) io Hw) as (b1 & b2 & -> & ->). eauto.
  - destruct Ht as (-> & _). cbn in Hd. subst d. unfold ensure_producer_seq_checkpoint at 1, append_no_sync.
    destruct Hw as (W1 & W2 & Hw'). rewrite W1, W2. destruct (bk_ckpt_open (with_seqs b r));
      match goal with |- context [flush_txn_commit_dedup ?b1 io] => destruct (flush_and_sync_work b1 io (conj W1 (conj W2 Hw'))) as (b2 & b3 & -> & ->) end; eauto.
Qed.

Lemma mark_works s io id o off :
  (length id <= MAX_TXN_ID_LEN)%nat -> li_append io = true -> li_sync io = true -> exists s', append_op s io id o off = (s', Ok tt).
Proof.
  intros Hl Ha Hs. unfold append_op, encode_op_meta. rewrite u16_try_from_Some by (unfold MAX_TXN_ID_LEN, u16_max in *; lia).
  cbn [mbind option_bind]. unfold append_sync. rewrite Ha, Hs. cbn [negb]. match goal with |- context [?m !! id] => destruct (m !! id) end; eauto.
Qed.

Lemma commit_works all e io id s :
  room all -> engine_inv all e -> commit_ok all (en_broker e) id -> en_encrypted e = false -> en_txn e = Some s ->
  txn_state (ts_table s) id = Some TxPrepared -> (length id <= MAX_TXN_ID_LEN)%nat -> io_works io ->
  exists e' o, TxnCommit.txn_commit e io id = (e', Ok o).
Proof.
  intros Hroom [Hb Hs] (_ & Hall & _ & _) Henc Ht Hp Hl Hw. rewrite Ht in Hs. unfold TxnCommit.txn_commit, ensure_txn_store. rewrite Henc, Ht.
  unfold table_commit. pose proof (resolve_states (ts_table s) id Committed (ti_now io) (si_table _ _ Hs)) as Hr.
  destruct (txn_resolve (ts_table s) id Committed (ti_now io)) as [t [[|]|x|]]; destruct Hr as (_ & _ & Hd); [|destruct Hd; congruence|by destruct Hd as [_ Hd]; destruct (Hd Hl)|done].
  destruct (si_prepared _ _ Hs id Hp) as [half Hhalf]. cbn [with_table ts_prepared_payloads with_txn en_broker]. rewrite Hhalf.
  destruct (commit_steps_work all (en_broker e) io id half) as (b' & o & ->); [done..|by eapply half_stream, si_payload|done|].
  unfold mark_committed. destruct Hw as (_ & _ & _ & _ & W5 & W6).
  match goal with |- context [append_op ?s1 _ _ _ _] => destruct (mark_works s1 (ti_log io) id Committed o Hl W5 W6) as (s' & ->) end. eauto.
Qed.

End runs.

(** ** Evaluation *)

Section evaluation.
#[local] Existing Instance castagnoli.

Definition demo_back_check : BackCheckConfig := mk_bc_config 10 5 2 8.
Definition demo_engine : TxnEngine := engine_new (mk_dedup_config 8 60 8) 8 None demo_back_check.
Definition on_main (io : Io) : TxnIo := mk_txn_io io (mk_log_io true true 3) None.
Definition works : TxnIo := on_main io_fine.
Definition no_sync : TxnIo := on_main (mk_io true true true false 0).
Definition no_ckpt : TxnIo := on_main (mk_io true true false true 0).
Definition no_mark : TxnIo := mk_txn_io io_fine (mk_log_io false true 3) None.
Definition txn_a : list Z := [97].
Definition group_g : list Z := [103].
Definition demo_all : gset (list Z) := {[ txn_dedup_producer_id txn_a ]}.
Definition prepare_a : TxnOp := TPrepare works txn_a (mk_append 7 0 [] [] [120]) group_g.
Definition plain_produce : TxnOp := TProduce (OpPlain io_fine (mk_append 8 0 [] [] [121]) None).

(** The saved high-water of transaction [a] at offset 0. *)
Definition saved_a : option (list Z) :=
  Eval vm_compute in bk_ckpt (en_broker (txn_run demo_engine [prepare_a; TCommit no_sync txn_a])).

Definition copies (id : list Z) (e : TxnEngine) : nat :=
  length (filter (fun r => st_identity r = Some (tid id)) (bk_records (en_broker e))).
Definition resolution (id : list Z) (e : TxnEngine) : option JournalState :=
  match en_txn e with Some s => journal id (take (ts_flushed s) (ts_log s)) | None => None end.

Lemma commit_a_ok b :
  none_stale b = true -> (Z.of_nat (length (bk_records b)) <? u64_max) = true -> commit_ok demo_all b txn_a.
Proof.
  intros Hn Hl%Z.ltb_lt. split_and!; [done|by apply elem_of_singleton| |done]. apply Forall_singleton. unfold is_u8, u8_max. lia.
Qed.

Lemma demo_room : room demo_all.
Proof.
  split; unfold demo_all; [rewrite size_singleton; unfold DEFAULT_MAX_SEQ_PRODUCERS; lia|]. rewrite elements_singleton.
  replace (sum_list_with _ _) with 40%nat by (vm_compute; reflexivity). unfold PRODUCER_SEQ_PAYLOAD. lia.
Qed.

Definition crash_okb (e : TxnEngine) (kept : nat) (recovered : option (list Z)) (kept_txn : nat) : bool :=
  crash_fine (en_broker e) kept recovered &&
  match en_txn e with Some s => (ts_flushed s <=? kept_txn)%nat && (kept_txn <=? length (ts_log s))%nat | None => true end.

Lemma crash_okb_true all e kept recovered kept_txn now :
  crash_okb e kept recovered kept_txn = true -> txn_op_ok all e (TCrash kept recovered kept_txn now).
Proof.
  intros [Hc Ht]%andb_prop. split; [done|]. destruct (en_txn e); [|done]. apply andb_prop in Ht as [?%Nat.leb_le ?%Nat.leb_le]. by split.
Qed.



(** A crash between the synced append and its commit marker leaves the
    transaction in doubt, and a rollback is then accepted and recorded although
    the message is in the stream. *)
Theorem rolled_back_yet_delivered :
  let e := txn_run demo_engine [prepare_a; TCommit no_mark txn_a; TCrash 1 saved_a 1 6] in
  let e' := fst (txn_step e (TRollback works txn_a)) in
  snd (txn_step e (TRollback works txn_a)) = AnsUnit (Ok tt) /\ resolution txn_a e' = Some (JResolved RolledBack) /\
  copies txn_a e' = 1%nat /\ bk_flushed (en_broker e') = 1%nat.
Proof. cbv zeta. split_and!; vm_compute; reflexivity. Qed.

End evaluation.
