(* ===== verification/Isr.v ===== *)
(** * In-sync replicas and the quorum ack gate ([server/src/cluster/isr.rs])

    The leader of a partition tracks how far each replica has synced its log,
    derives the offset a quorum has synced ([quorum_commit]), and withholds the
    acknowledgement of a produce until that offset has passed it
    ([QuorumAckGate]).  Frontiers are first-not-durable offsets. *)

From S2P Require Import Prelude Bytes.

(** ** The report *)

Definition ACK_REPLICATED_LEN : nat := 16.

Record AckReplicatedBody := mk_report {
  ar_follower_id : Z;
  ar_fsynced_offset : Z
}.

Inductive ReportError := MalformedRequest (len : nat).

Definition report_encode (r : AckReplicatedBody) : list Z := le_bytes 8 (ar_follower_id r) ++ le_bytes 8 (ar_fsynced_offset r).

Definition report_decode (body : list Z) : res AckReplicatedBody ReportError :=
  fail? negb (length body =? ACK_REPLICATED_LEN)%nat with MalformedRequest (length body) in
  let? follower_id := or_panic (read_u64 body 0) in
  let? fsynced_offset := or_panic (read_u64 body 8) in
  Ok (mk_report follower_id fsynced_offset).

(** ** The tracker *)

Record IsrConfig := mk_isr_config {
  min_isr : nat;
  max_lag_records : Z
}.

Definition isr_config_default : IsrConfig := mk_isr_config 2 1024.

Inductive IsrMembership := InSync | EvictedForLag.
#[export] Instance IsrMembership_eq_dec : EqDecision IsrMembership.
Proof. solve_decision. Defined.

Record IsrTracker := mk_tracker {
  it_config : IsrConfig;
  it_leader_id : Z;
  it_leader_fsynced : Z;
  it_followers : gmap Z Z
}.

Definition tracker_new (leader_id : Z) (replica_ids : list Z) (config : IsrConfig) : IsrTracker :=
  mk_tracker config leader_id 0
    (foldl (fun m id => if id =? leader_id then m else <[id := 0]> m) ∅ replica_ids).

Definition follower_count (t : IsrTracker) : nat := size (it_followers t).

Definition observe_leader_fsync (t : IsrTracker) (flushed_offset : Z) : IsrTracker :=
  mk_tracker (it_config t) (it_leader_id t) (Z.max (it_leader_fsynced t) flushed_offset) (it_followers t).

Definition observe_follower_report (t : IsrTracker) (r : AckReplicatedBody) : IsrTracker * bool :=
  match it_followers t !! ar_follower_id r with
  | Some frontier =>
      (mk_tracker (it_config t) (it_leader_id t) (it_leader_fsynced t)
         (<[ar_follower_id r := Z.max frontier (ar_fsynced_offset r)]> (it_followers t)), true)
  | None => (t, false)
  end.

Definition leader_high_watermark (t : IsrTracker) : Z := it_leader_fsynced t.

Definition classify (t : IsrTracker) (follower_fsynced : Z) : IsrMembership :=
  if max_lag_records (it_config t) =? 0 then InSync
  else
    let lag := sat_sub (it_leader_fsynced t) follower_fsynced in
    if max_lag_records (it_config t) <? lag then EvictedForLag else InSync.

Definition membership (t : IsrTracker) (follower_id : Z) : option IsrMembership :=
  classify t <$> it_followers t !! follower_id.

(** [self.followers.values()], and those in sync. *)
Definition follower_frontiers (t : IsrTracker) : list Z := (btree_list (it_followers t)).*2.
Definition in_sync_frontiers (t : IsrTracker) : list Z :=
  filter (fun f => classify t f = InSync) (follower_frontiers t).

Definition isr_size (t : IsrTracker) : nat := 1 + length (in_sync_frontiers t).

Definition meets_min_isr (t : IsrTracker) : bool := (min_isr (it_config t) <=? isr_size t)%nat.

(** A [min_isr] of zero makes the last index wrap and the access panic. *)
Definition quorum_commit (t : IsrTracker) : res (option Z) Empty_set :=
  if negb (meets_min_isr t) then Ok None
  else
    let frontiers := it_leader_fsynced t :: in_sync_frontiers t in
    if (length frontiers <? min_isr (it_config t))%nat then Ok None
    else
      let frontiers := merge_sort (flip Z.le) frontiers in
      match min_isr (it_config t) with
      | O => Panic
      | S i => let? c := or_panic (frontiers !! i) in Ok (Some c)
      end.

(** ** The gate *)

Section gate.
Context {T : Type}.

Record QuorumAckGate := mk_gate {
  g_pending : list (Z * T);
  g_released_through : Z;
  g_cap : nat
}.

Definition gate_with_cap (cap : nat) : QuorumAckGate := mk_gate [] 0 cap.

Definition park (g : QuorumAckGate) (offset : Z) (token : T) : QuorumAckGate * bool :=
  if negb (g_cap g =? 0)%nat && (g_cap g <=? length (g_pending g))%nat then (g, false)
  else (mk_gate (g_pending g ++ [(offset, token)]) (g_released_through g) (g_cap g), true).

Definition purge_where (g : QuorumAckGate) (is_dead : T -> bool) : QuorumAckGate * nat :=
  let pending := filter (fun p => is_dead p.2 = false) (g_pending g) in
  (mk_gate pending (g_released_through g) (g_cap g), (length (g_pending g) - length pending)%nat).

Definition is_pending (g : QuorumAckGate) (offset : Z) : bool := existsb (fun p => p.1 =? offset) (g_pending g).

(** The [pop_front] walk. *)
Fixpoint drain_front (commit : Z) (pending : list (Z * T)) : list T * list (Z * T) :=
  match pending with
  | (offset, token) :: rest =>
      if offset <? commit then let '(released, rest) := drain_front commit rest in (token :: released, rest)
      else ([], pending)
  | [] => ([], [])
  end.

Definition release_up_to (g : QuorumAckGate) (commit : option Z) : QuorumAckGate * list T :=
  match commit with
  | None => (g, [])
  | Some c =>
      let c := Z.max c (g_released_through g) in
      let '(released, pending) := drain_front c (g_pending g) in
      (mk_gate pending c (g_cap g), released)
  end.
End gate.
Arguments QuorumAckGate : clear implicits.

(** ** A led partition

    What the controller does to the tracker and the gate of a partition it
    leads, and the acknowledgements that leave the gate. *)

Inductive IsrEvent :=
| EFsync (flushed_offset : Z)
| EReport (r : AckReplicatedBody)
| EPark (offset token : Z)
| ERedrive
| EPurge (dead : list Z).

(** [q_parked] and [q_acked] record the acknowledgements the gate took in and
    let out. *)
Record QRun := mk_qrun {
  q_tracker : IsrTracker;
  q_gate : QuorumAckGate Z;
  q_parked : list (Z * Z);
  q_acked : list Z
}.

Definition redrive (r : QRun) : QRun :=
  match quorum_commit (q_tracker r) with
  | Ok commit =>
      let '(g, released) := release_up_to (q_gate r) commit in
      mk_qrun (q_tracker r) g (q_parked r) (q_acked r ++ released)
  | _ => r
  end.

Definition q_step (r : QRun) (e : IsrEvent) : QRun :=
  match e with
  | EFsync n => mk_qrun (observe_leader_fsync (q_tracker r) n) (q_gate r) (q_parked r) (q_acked r)
  | EReport rep => redrive (mk_qrun (fst (observe_follower_report (q_tracker r) rep)) (q_gate r) (q_parked r) (q_acked r))
  | EPark offset token =>
      let '(g, parked) := park (q_gate r) offset token in
      mk_qrun (q_tracker r) g (if parked then q_parked r ++ [(offset, token)] else q_parked r) (q_acked r)
  | ERedrive => redrive r
  | EPurge dead =>
      mk_qrun (q_tracker r) (fst (purge_where (q_gate r) (fun t => bool_decide (t ∈ dead)))) (q_parked r) (q_acked r)
  end.

Definition q_start (leader_id : Z) (replica_ids : list Z) (config : IsrConfig) (cap : nat) : QRun :=
  mk_qrun (tracker_new leader_id replica_ids config) (gate_with_cap cap) [] [].

(** A replica is known to have synced past an offset. *)
Definition synced_past (leader : Z) (es : list IsrEvent) (id off : Z) : bool :=
  existsb (fun e =>
    match e with
    | EFsync n => (id =? leader) && (off <? n)
    | EReport r => negb (id =? leader) && (ar_follower_id r =? id) && (off <? ar_fsynced_offset r)
    | _ => false
    end) es.

(** At least [k] replicas of the set are. *)
Definition quorum_synced (leader : Z) (replicas : list Z) (es : list IsrEvent) (k : nat) (off : Z) : Prop :=
  exists ids, NoDup ids /\ (k <= length ids)%nat /\
    Forall (fun id => id ∈ leader :: replicas /\ synced_past leader es id off = true) ids.

Definition event_ok (e : IsrEvent) : Prop := match e with EPark offset _ => 0 <= offset | _ => True end.

(** ** The commit offset *)

#[local] Instance ge_total : Total (flip Z.le).
Proof. intros x y. unfold flip. lia. Qed.
#[local] Instance ge_trans : Transitive (flip Z.le).
Proof. intros x y z. unfold flip. lia. Qed.

Definition count_past (off : Z) (l : list Z) : nat := length (filter (fun x => off < x) l).

(** The replicas, in sync or not, whose frontier is past an offset. *)
Definition replicas_past (t : IsrTracker) (off : Z) : nat := count_past off (it_leader_fsynced t :: follower_frontiers t).

Lemma count_past_cons off x l : count_past off (x :: l) = ((if decide (off < x)%Z then 1 else 0) + count_past off l)%nat.
Proof. unfold count_past. rewrite filter_cons. by case_decide. Qed.

Lemma count_past_none off l : Forall (fun x => x <= off) l -> count_past off l = 0%nat.
Proof. intros Hl. unfold count_past. rewrite filter_none; [done|]. intros x Hx. rewrite Forall_forall in Hl. specialize (Hl _ Hx). lia. Qed.

Lemma count_past_all off l : Forall (fun x => off < x) l -> count_past off l = length l.
Proof. intros Hl. unfold count_past. rewrite filter_all; [done|]. by apply Forall_forall. Qed.

Lemma count_past_perm off l k : l ≡ₚ k -> count_past off l = count_past off k.
Proof. intros Hp. unfold count_past. by rewrite Hp. Qed.

Lemma kth_largest l i c off :
  StronglySorted (flip Z.le) l -> l !! i = Some c -> off < c <-> (S i <= count_past off l)%nat.
Proof.
  intros Hs. revert i. induction Hs as [|x l Hs IH Hx]; intros i Hi; [done|]. rewrite count_past_cons.
  destruct i as [|i]; simpl in Hi.
  - injection Hi as ->. case_decide; [lia|]. rewrite count_past_none; [lia|].
    eapply Forall_impl; [exact Hx|]. unfold flip. simpl. lia.
  - case_decide; [rewrite (IH i Hi); lia|].
    rewrite count_past_none by (eapply Forall_impl; [exact Hx|]; unfold flip; simpl; lia).
    rewrite Forall_forall in Hx. specialize (Hx _ (list_elem_of_lookup_2 _ _ _ Hi)). unfold flip in Hx. lia.
Qed.

Lemma evicted_below t e f :
  0 <= max_lag_records (it_config t) -> classify t e <> InSync -> classify t f = InSync ->
  e < f /\ e < it_leader_fsynced t.
Proof.
  unfold classify. intros Hl He Hf. destruct (max_lag_records (it_config t) =? 0) eqn:E0; [done|]. bool_to_prop.
  destruct (_ <? sat_sub _ e) eqn:Ee; [|done]. destruct (_ <? sat_sub _ f) eqn:Ef; [done|]. bool_to_prop. ulia.
Qed.

Lemma evicted_below_leader t e :
  0 <= max_lag_records (it_config t) -> classify t e <> InSync -> e < it_leader_fsynced t.
Proof.
  unfold classify. intros Hl He. destruct (max_lag_records (it_config t) =? 0) eqn:E0; [done|]. bool_to_prop.
  destruct (_ <? sat_sub _ e) eqn:Ee; [|done]. bool_to_prop. ulia.
Qed.

Lemma count_filter_le (P : Z -> Prop) `{forall x, Decision (P x)} off l : (count_past off (filter P l) <= count_past off l)%nat.
Proof. induction l as [|x l IH]; [done|]. rewrite filter_cons, (count_past_cons off x l). case_decide; [rewrite count_past_cons|]; lia. Qed.

Lemma count_filter_eq (P : Z -> Prop) `{forall x, Decision (P x)} off l :
  Forall (fun x => P x \/ x <= off) l -> count_past off (filter P l) = count_past off l.
Proof.
  induction 1 as [|x l Hx _ IH]; [done|]. rewrite filter_cons, (count_past_cons off x l).
  destruct (decide (P x)); [by rewrite count_past_cons, IH|]. rewrite IH. destruct (decide (off < x)); [naive_solver lia|done].
Qed.

(** Leaving out the evicted replicas does not move the commit offset. *)
Lemma in_sync_count t off k :
  0 <= max_lag_records (it_config t) -> (k <= isr_size t)%nat ->
  (k <= count_past off (it_leader_fsynced t :: in_sync_frontiers t))%nat <-> (k <= replicas_past t off)%nat.
Proof.
  intros Hl Hk. unfold replicas_past, isr_size, in_sync_frontiers in *. rewrite !count_past_cons.
  set (fs := follower_frontiers t) in *. pose proof (count_filter_le (fun f => classify t f = InSync) off fs) as Hle.
  destruct (decide (Exists (fun e => classify t e <> InSync /\ off < e) fs)) as [He|He].
  - apply Exists_exists in He as (e & Hin & Hc & Hoff). pose proof (evicted_below_leader t e Hl Hc).
    assert (Hall : count_past off (filter (fun f => classify t f = InSync) fs) = length (filter (fun f => classify t f = InSync) fs)).
    { apply count_past_all, Forall_forall. intros f [Hf _]%list_elem_of_filter. pose proof (evicted_below t e f Hl Hc Hf). lia. }
    case_decide; lia.
  - rewrite count_filter_eq; [done|]. apply not_Exists_Forall in He; [|apply _]. eapply Forall_impl; [exact He|]. simpl.
    intros x Hx. destruct (decide (x <= off)) as [|Hgt]; [by right|left]. destruct (decide (classify t x = InSync)) as [|Hn]; [done|].
    exfalso. apply Hx. split; [done|lia].
Qed.

Lemma quorum_commit_spec t :
  (1 <= min_isr (it_config t))%nat -> 0 <= max_lag_records (it_config t) ->
  match quorum_commit t with
  | Ok None => (isr_size t < min_isr (it_config t))%nat
  | Ok (Some c) =>
      (min_isr (it_config t) <= isr_size t)%nat /\
      forall off, off < c <-> (min_isr (it_config t) <= replicas_past t off)%nat
  | _ => False
  end.
Proof.
  intros Hk Hl. unfold quorum_commit, meets_min_isr. destruct (min_isr _ <=? isr_size t)%nat eqn:E; cbn [negb].
  - apply Nat.leb_le in E. set (fs := it_leader_fsynced t :: in_sync_frontiers t).
    assert (Hlen : length fs = isr_size t) by done. rewrite (proj2 (Nat.ltb_ge (length fs) _)) by lia.
    pose proof (in_sync_count t) as Hin. destruct (min_isr (it_config t)) as [|i]; [lia|].
    pose proof (merge_sort_Permutation (flip Z.le) fs) as Hp.
    destruct (lookup_lt_is_Some_2 (merge_sort (flip Z.le) fs) i) as [c Hc]; [rewrite Hp; lia|].
    rewrite Hc. cbn [or_panic res_bind]. split; [done|]. intros off.
    rewrite (kth_largest _ i c off (StronglySorted_merge_sort _ _) Hc), (count_past_perm off _ _ Hp). by apply Hin.
  - by apply Nat.leb_gt in E.
Qed.

(** Frontiers only grow, and the commit offset with them. *)
Lemma followers_past t off :
  count_past off (follower_frontiers t) = size (dom (filter (fun p => off < p.2) (it_followers t))).
Proof.
  rewrite size_dom, <- length_btree_list, btree_list_filter. unfold count_past, follower_frontiers.
  induction (btree_list _) as [|p l IH]; [done|]. cbn [fmap list_fmap]. rewrite !filter_cons. destruct (decide (off < p.2)); simpl; by rewrite IH.
Qed.

Definition frontiers_le (t t' : IsrTracker) : Prop :=
  it_config t' = it_config t /\ it_leader_fsynced t <= it_leader_fsynced t' /\
  forall id f, it_followers t !! id = Some f -> exists f', it_followers t' !! id = Some f' /\ f <= f'.

#[export] Instance frontiers_le_preorder : PreOrder frontiers_le.
Proof.
  split; [intros t; repeat split; [lia|eauto using Z.le_refl]|]. intros t t' t'' (Hc & Hl & Hf) (Hc' & Hl' & Hf').
  split; [congruence|]. split; [lia|]. intros id f Hi. destruct (Hf _ _ Hi) as (f' & Hi' & ?). destruct (Hf' _ _ Hi') as (f'' & ? & ?).
  exists f''. split; [done|lia].
Qed.

Lemma replicas_past_le t t' off : frontiers_le t t' -> (replicas_past t off <= replicas_past t' off)%nat.
Proof.
  intros (_ & Hl & Hf). unfold replicas_past. rewrite !count_past_cons, !followers_past.
  assert (Hs : (size (dom (filter (fun p => (off < p.2)%Z) (it_followers t))) <= size (dom (filter (fun p => (off < p.2)%Z) (it_followers t'))))%nat).
  { apply subseteq_size. intros id Hid. apply elem_of_dom in Hid as [f Hid]. apply map_lookup_filter_Some in Hid as [Hi Ho].
    destruct (Hf id f Hi) as (f' & Hi' & ?). apply elem_of_dom. exists f'. apply map_lookup_filter_Some. simpl in *. split; [done|lia]. }
  destruct (decide (off < it_leader_fsynced t)), (decide (off < it_leader_fsynced t')); lia.
Qed.

Lemma redrive_tracker r : q_tracker (redrive r) = q_tracker r.
Proof. unfold redrive. destruct (quorum_commit _) as [c|[]|]; [|done]. by destruct (release_up_to _ _). Qed.

Lemma q_step_frontiers r e : frontiers_le (q_tracker r) (q_tracker (q_step r e)).
Proof.
  destruct e as [n|rep|off tok| |dead]; cbn [q_step]; rewrite ?redrive_tracker; try done.
  - repeat split; simpl; [lia|eauto using Z.le_refl].
  - unfold observe_follower_report. cbn [q_tracker]. destruct (_ !! _) as [fr|] eqn:E; [|done]. repeat split; simpl; [lia|].
    intros id f Hi. destruct (decide (id = ar_follower_id rep)) as [->|Hne]; [rewrite lookup_insert_eq|rewrite lookup_insert_ne by done; eauto using Z.le_refl].
    eexists. split; [done|]. rewrite Hi in E. injection E as ->. lia.
  - by destruct (park _ _ _).
Qed.

Lemma q_run_frontiers es r : frontiers_le (q_tracker r) (q_tracker (foldl q_step r es)).
Proof. revert r. induction es as [|e es IH]; intros r; [done|]. simpl. etrans; [apply q_step_frontiers|apply IH]. Qed.

(** ** Runs *)

Section run.
Context (leader : Z) (replicas : list Z) (config : IsrConfig) (cap : nat).

(** The tracker knows only what was reported. *)
Record tracker_inv (es : list IsrEvent) (t : IsrTracker) : Prop := {
  ti_config : it_config t = config;
  ti_leader : forall off, 0 <= off < it_leader_fsynced t -> synced_past leader es leader off = true;
  ti_follower : forall id f, it_followers t !! id = Some f ->
    id ∈ replicas /\ id <> leader /\ forall off, 0 <= off < f -> synced_past leader es id off = true
}.

Lemma tracker_new_inv : tracker_inv [] (tracker_new leader replicas config).
Proof.
  split; [done|simpl; lia|]. unfold tracker_new. cbn [it_followers].
  enough (Hg : forall ids (m : gmap Z Z), (forall id f, m !! id = Some f -> id ∈ replicas /\ id <> leader /\ f = 0) -> (forall id, id ∈ ids -> id ∈ replicas) ->
    forall id f, foldl (fun (m : gmap Z Z) id => if id =? leader then m else <[id := 0]> m) m ids !! id = Some f ->
    id ∈ replicas /\ id <> leader /\ f = 0).
  { intros id f Hf. destruct (Hg replicas ∅ ltac:(done) ltac:(done) id f Hf) as (? & ? & ->). repeat split; [done|done|lia]. }
  induction ids as [|i ids IH]; intros m Hm Hi; [done|]. simpl. apply IH; [|intros; apply Hi; by right].
  destruct (Z.eqb_spec i leader) as [|Hne]; [done|]. intros id f. rewrite lookup_insert_Some.
  intros [[<- <-]|[_ Hf]]; [split; [apply Hi; left|done]|by apply Hm].
Qed.

Lemma synced_past_app es es' id off :
  synced_past leader (es ++ es') id off = synced_past leader es id off || synced_past leader es' id off.
Proof. apply existsb_app. Qed.

Lemma tracker_inv_weaken es e t : tracker_inv es t -> tracker_inv (es ++ [e]) t.
Proof.
  intros [Hc Hl Hf]. split; [done| |].
  - intros off Ho. rewrite synced_past_app, Hl; done.
  - intros id f Hi. destruct (Hf id f Hi) as (? & ? & Hs). repeat split; [done|done|]. intros off Ho. rewrite synced_past_app, Hs; done.
Qed.

Lemma observe_leader_inv es n t : tracker_inv es t -> tracker_inv (es ++ [EFsync n]) (observe_leader_fsync t n).
Proof.
  intros Ht. destruct (tracker_inv_weaken es (EFsync n) t Ht) as [Hc Hl Hf]. split; [done| |done]. cbn [observe_leader_fsync it_leader_fsynced].
  intros off Ho. destruct (decide (off < it_leader_fsynced t)); [apply Hl; lia|]. rewrite synced_past_app. unfold synced_past at 2. simpl.
  rewrite Z.eqb_refl, (proj2 (Z.ltb_lt off n)) by lia. apply orb_true_r.
Qed.

Lemma observe_report_inv es r t :
  tracker_inv es t -> tracker_inv (es ++ [EReport r]) (fst (observe_follower_report t r)).
Proof.
  intros Ht. destruct (tracker_inv_weaken es (EReport r) t Ht) as [Hc Hl Hf]. unfold observe_follower_report.
  destruct (it_followers t !! _) as [fr|] eqn:E; [|done]. split; [done|done|]. cbn [fst it_followers].
  intros id f. rewrite lookup_insert_Some. intros [[<- <-]|[_ Hi]]; [|by apply Hf]. destruct (Hf _ _ E) as (? & Hne & Hs).
  repeat split; [done|done|]. intros off Ho. destruct (decide (off < fr)); [apply Hs; lia|]. rewrite synced_past_app.
  unfold synced_past at 2. simpl. rewrite (proj2 (Z.eqb_neq _ _) Hne), Z.eqb_refl, (proj2 (Z.ltb_lt off (ar_fsynced_offset r))) by lia.
  apply orb_true_r.
Qed.

Lemma replicas_past_synced es t off :
  tracker_inv es t -> 0 <= off -> quorum_synced leader replicas es (replicas_past t off) off.
Proof.
  intros [_ Hl Hf] Ho. unfold replicas_past, follower_frontiers.
  set (past := filter (fun p => off < p.2) (btree_list (it_followers t))).
  assert (Hlen : count_past off (btree_list (it_followers t)).*2 = length past).
  { subst past. unfold count_past. induction (btree_list _) as [|p l IH]; [done|]. cbn [fmap list_fmap]. rewrite !filter_cons.
    destruct (decide (off < p.2)); simpl; by rewrite IH. }
  assert (Hp : Forall (fun id => id <> leader /\ id ∈ leader :: replicas /\ synced_past leader es id off = true) past.*1).
  { apply Forall_forall. intros id ([k f] & -> & [Hoff Hin]%list_elem_of_filter)%list_elem_of_fmap.
    apply elem_of_btree_list in Hin. destruct (Hf k f Hin) as (? & ? & Hs). split; [done|]. split; [by right|]. apply Hs. simpl in Hoff. lia. }
  assert (Hnd : NoDup past.*1).
  { eapply sublist_NoDup; [apply (NoDup_btree_keys (it_followers t))|]. apply fmap_sublist, sublist_filter. }
  rewrite count_past_cons, Hlen. case_decide.
  - exists (leader :: past.*1). split; [constructor; [|done]|split].
    + intros Hin. rewrite Forall_forall in Hp. by destruct (Hp _ Hin).
    + simpl. rewrite length_fmap. lia.
    + constructor; [split; [left|by apply Hl]|]. eapply Forall_impl; [exact Hp|]. naive_solver.
  - exists past.*1. split; [done|]. split; [rewrite length_fmap; lia|]. eapply Forall_impl; [exact Hp|]. naive_solver.
Qed.

Lemma quorum_synced_le es k k' off :
  (k <= k')%nat -> quorum_synced leader replicas es k' off -> quorum_synced leader replicas es k off.
Proof. intros Hk (ids & ? & ? & ?). exists ids. split; [done|]. split; [lia|done]. Qed.

Lemma quorum_synced_app es es' k off :
  quorum_synced leader replicas es k off -> quorum_synced leader replicas (es ++ es') k off.
Proof.
  intros (ids & Hn & Hk & Hf). exists ids. split; [done|]. split; [done|]. eapply Forall_impl; [exact Hf|].
  intros id [? Hs]. split; [done|]. by rewrite synced_past_app, Hs.
Qed.

(** The front of the queue is what leaves it. *)
Lemma drain_front_spec {T} commit (pending : list (Z * T)) :
  let '(released, rest) := drain_front commit pending in
  exists front, pending = front ++ rest /\ released = front.*2 /\ Forall (fun p => p.1 < commit) front /\
    match rest with p :: _ => commit <= p.1 | [] => True end.
Proof.
  induction pending as [|[o t] pending IH]; [by exists []|]. simpl. destruct (o <? commit) eqn:E; bool_to_prop.
  - destruct (drain_front commit pending) as [rel rest]. destruct IH as (front & -> & -> & Hf & Hr).
    exists ((o, t) :: front). repeat split; [by constructor|done].
  - exists []. repeat split; [constructor|done].
Qed.

Record run_inv (es : list IsrEvent) (r : QRun) : Prop := {
  ri_tracker : tracker_inv es (q_tracker r);
  ri_released : forall off, 0 <= off < g_released_through (q_gate r) -> quorum_synced leader replicas es (min_isr config) off;
  ri_acked : forall tok, tok ∈ q_acked r ->
    exists off, (off, tok) ∈ q_parked r /\ quorum_synced leader replicas es (min_isr config) off;
  ri_parked : Forall (fun p => 0 <= p.1) (q_parked r) /\ Forall (fun p => p ∈ q_parked r) (g_pending (q_gate r));
  ri_order : sublist (q_acked r ++ (g_pending (q_gate r)).*2) (q_parked r).*2;
  ri_cap : g_cap (q_gate r) = cap /\ (cap <> 0%nat -> (length (g_pending (q_gate r)) <= cap)%nat)
}.

Context (Hmin : (1 <= min_isr config)%nat) (Hlag : 0 <= max_lag_records config).

Lemma redrive_inv es r : run_inv es r -> run_inv es (redrive r).
Proof.
  intros [Ht Hrel Hack [Hp0 Hpp] Hord [Hcap Hlen]]. unfold redrive.
  pose proof (quorum_commit_spec (q_tracker r)) as Hq. rewrite (ti_config _ _ Ht) in Hq. specialize (Hq Hmin Hlag).
  destruct (quorum_commit (q_tracker r)) as [[c|]|[]|]; [| |done].
  2: { unfold release_up_to. cbn [q_tracker q_gate q_parked q_acked]. split; cbn [q_tracker q_gate q_parked q_acked]; rewrite ?app_nil_r; done. }
  destruct Hq as [_ Hq]. unfold release_up_to. set (c' := Z.max c _).
  assert (Hc' : forall off, 0 <= off < c' -> quorum_synced leader replicas es (min_isr config) off).
  { intros off Ho. destruct (decide (off < c)) as [Hoc|]; [|apply Hrel; lia].
    eapply quorum_synced_le; [|apply (replicas_past_synced es (q_tracker r)); [done|lia]]. by apply Hq. }
  pose proof (drain_front_spec c' (g_pending (q_gate r))) as Hd. destruct (drain_front c' _) as [rel rest].
  destruct Hd as (front & Hfr & -> & Hlt & _). rewrite Hfr in *. apply Forall_app in Hpp as [Hpf Hpr].
  split; cbn [q_tracker q_gate q_parked q_acked g_pending g_released_through g_cap]; [done|done| |done| |].
  - intros tok [Hin|Hin]%elem_of_app; [by apply Hack|]. apply list_elem_of_fmap in Hin as ([off tok'] & -> & Hin).
    exists off. rewrite Forall_forall in Hpf, Hlt, Hp0. specialize (Hpf _ Hin). split; [done|]. apply Hc'.
    specialize (Hlt _ Hin). specialize (Hp0 _ Hpf). simpl in *. lia.
  - by rewrite fmap_app, app_assoc in Hord.
  - split; [done|]. intros Hne. specialize (Hlen Hne). rewrite length_app in Hlen. lia.
Qed.

Lemma q_step_inv es r e : event_ok e -> run_inv es r -> run_inv (es ++ [e]) (q_step r e).
Proof.
  intros He Hr.
  assert (Hw : run_inv (es ++ [e]) r).
  { destruct Hr as [Ht Hrel Hack Hpp Hord Hcap]. split; [by apply tracker_inv_weaken| |  |done|done|done].
    - intros off Ho. by apply quorum_synced_app, Hrel.
    - intros tok Hin. destruct (Hack _ Hin) as (off & ? & ?). exists off. split; [done|by apply quorum_synced_app]. }
  destruct e as [n|rep|off tok| |dead]; cbn [q_step].
  - destruct Hw. split; [|done..]. apply observe_leader_inv, Hr.
  - apply redrive_inv. destruct Hw. split; [|done..]. apply observe_report_inv, Hr.
  - unfold park. destruct (_ && _) eqn:E; [by destruct Hw, r|]. destruct Hw as [Ht Hrel Hack [Hp0 Hpp] Hord [Hcap Hlen]].
    split; cbn [q_tracker q_gate q_parked q_acked g_pending g_released_through g_cap]; [done|done| | | |].
    + intros t Hin. destruct (Hack _ Hin) as (o & ? & ?). exists o. split; [apply elem_of_app; by left|done].
    + split; [apply Forall_app; split; [done|by constructor]|]. apply Forall_app. split.
      * eapply Forall_impl; [exact Hpp|]. intros p Hp. apply elem_of_app. by left.
      * constructor; [|constructor]. apply elem_of_app. right. left.
    + rewrite !fmap_app, app_assoc. by apply sublist_app.
    + split; [done|]. intros Hne. rewrite Hcap in E. apply andb_false_iff in E as [E|E]; [apply negb_false_iff, Nat.eqb_eq in E; lia|].
      apply Nat.leb_gt in E. rewrite length_app. simpl. lia.
  - by apply redrive_inv.
  - unfold purge_where. destruct Hw as [Ht Hrel Hack [Hp0 Hpp] Hord [Hcap Hlen]].
    split; cbn [fst q_tracker q_gate q_parked q_acked g_pending g_released_through g_cap]; [done|done|done| | |].
    + split; [done|]. apply Forall_forall. intros p [_ Hp]%list_elem_of_filter. rewrite Forall_forall in Hpp. by apply Hpp.
    + etrans; [|exact Hord]. apply sublist_app; [done|]. apply fmap_sublist, sublist_filter.
    + split; [done|]. intros Hne. specialize (Hlen Hne). etrans; [apply length_filter|done].
Qed.

Lemma q_run_inv es : Forall event_ok es -> run_inv es (foldl q_step (q_start leader replicas config cap) es).
Proof.
  intros He. induction es as [|e es IH] using rev_ind.
  - split; simpl; [apply tracker_new_inv|lia|intros tok Hin; by apply not_elem_of_nil in Hin|done|done|split; [done|lia]].
  - apply Forall_app in He as [He Hx]. rewrite foldl_app. simpl. apply q_step_inv; [by inversion Hx|by apply IH].
Qed.
End run.

(** ** Properties *)

(** The commit offset is what a quorum has synced.  With a quorum size of
    at least one the computation does not panic; it has no answer exactly when
    too few replicas are in sync; otherwise an offset lies below the answer
    just when at least [min_isr] of all the replicas have synced past it, so
    evicting a lagging replica never moves it; and through any later events the
    answer, when there is one, is never lower. *)
Theorem quorum_commit_exact r es :
  let t := q_tracker r in
  (1 <= min_isr (it_config t))%nat -> 0 <= max_lag_records (it_config t) ->
  match quorum_commit t with
  | Ok None => (isr_size t < min_isr (it_config t))%nat
  | Ok (Some c) =>
      (min_isr (it_config t) <= isr_size t)%nat /\
      (forall off, off < c <-> (min_isr (it_config t) <= replicas_past t off)%nat) /\
      (forall c', quorum_commit (q_tracker (foldl q_step r es)) = Ok (Some c') -> c <= c')
  | _ => False
  end.
Proof.
  intros t Hm Hl. pose proof (quorum_commit_spec t Hm Hl) as Hq. destruct (quorum_commit t) as [[c|]|[]|]; [|done|done].
  destruct Hq as [Hs Hq]. split; [done|]. split; [done|]. intros c' Hc'.
  pose proof (q_run_frontiers es r) as Hf. pose proof (quorum_commit_spec (q_tracker (foldl q_step r es))) as Hq'.
  rewrite Hc', (proj1 Hf) in Hq'. destruct (Hq' Hm Hl) as [_ Hi].
  assert (Hlt : c - 1 < c') by (apply Hi; etrans; [apply (Hq (c - 1)); lia|by apply replicas_past_le]). lia.
Qed.

(** C26: No false acknowledgement.  Whatever the order of local syncs, follower
    reports, produces, redrives and purges, an acknowledgement that leaves the
    gate is of a parked produce whose offset at least [min_isr] replicas of the
    partition had reported synced; acknowledgements leave in the order they were
    parked and none twice; and the backlog never exceeds its cap. *)
Theorem no_false_ack leader replicas config cap es :
  (1 <= min_isr config)%nat -> 0 <= max_lag_records config -> Forall event_ok es ->
  let r := foldl q_step (q_start leader replicas config cap) es in
  (forall tok, tok ∈ q_acked r ->
     exists off, (off, tok) ∈ q_parked r /\ quorum_synced leader replicas es (min_isr config) off) /\
  sublist (q_acked r ++ (g_pending (q_gate r)).*2) (q_parked r).*2 /\
  (cap <> 0%nat -> (length (g_pending (q_gate r)) <= cap)%nat).
Proof.
  intros Hm Hl He r. destruct (q_run_inv leader replicas config cap Hm Hl es He) as [_ _ Hack _ Hord [_ Hcap]]. done.
Qed.

Lemma quorum_commit_exact_witness :
  let t := mk_tracker isr_config_default 1 2000 (<[2 := 1500]> (<[3 := 20]> ∅)) in
  quorum_commit t = Ok (Some 1500) /\ (2 <= replicas_past t 1499)%nat /\ quorum_commit (observe_leader_fsync t 9000) = Ok None.
Proof.
  split; [vm_compute; reflexivity|]. split; [|vm_compute; reflexivity].
  pose proof (quorum_commit_exact (mk_qrun (mk_tracker isr_config_default 1 2000 (<[2 := 1500]> (<[3 := 20]> ∅))) (gate_with_cap 0) [] []) [EFsync 9000]
    ltac:(simpl; lia) ltac:(simpl; lia)) as Hq.
  cbn [q_tracker] in Hq.
  replace (quorum_commit (mk_tracker isr_config_default 1 2000 (<[2 := 1500]> (<[3 := 20]> ∅)))) with (Ok (A := option Z) (E := Empty_set) (Some 1500)) in Hq by (vm_compute; reflexivity).
  apply Hq. lia.
Defined.

Definition demo_isr_events : list IsrEvent :=
  [EFsync 1; EPark 0 7; EFsync 2; EPark 1 8; EReport (mk_report 2 1); EReport (mk_report 9 5); ERedrive].

Lemma no_false_ack_witness :
  q_acked (foldl q_step (q_start 1 [1; 2; 3] isr_config_default 4) demo_isr_events) = [7] /\
  exists off, (off, 7) ∈ [(0, 7); (1, 8)] /\ quorum_synced 1 [1; 2; 3] demo_isr_events 2 off.
Proof.
  split; [vm_compute; reflexivity|].
  pose proof (proj1 (no_false_ack 1 [1; 2; 3] isr_config_default 4 demo_isr_events ltac:(simpl; lia) ltac:(simpl; lia)
    ltac:(repeat constructor; simpl; lia)) 7) as Hq.
  replace (q_acked _) with [7] in Hq by (vm_compute; reflexivity).
  replace (q_parked _) with [(0, 7); (1, 8)] in Hq by (vm_compute; reflexivity).
  apply Hq. left.
Defined.
