(* ===== verification/Epochs.v ===== *)
(** * Leader epochs and divergence ([core/src/epoch_cache.rs])

    A replica remembers under which leadership epoch each range of its log was
    written, as a list of boundaries.  After a change of leader a follower asks
    the new leader where its own epochs ended there, and truncates its log at
    the point where the two histories part.

    The specification is about two logs of epoch-stamped records: the
    divergence point is the end of their longest common prefix. *)

From S2P Require Import Prelude Search.

(** ** Data *)

Definition GENESIS : Z := 0.

Record EpochEntry := mk_epoch {
  ee_epoch : Z;
  ee_start_offset : Z
}.

(** The boundaries, oldest first. *)
Abbreviation EpochCache := (list EpochEntry).

Record LeaderEpochEndOffset := mk_end_offset {
  le_requested_epoch : Z;
  le_answered_epoch : Z;
  le_end_offset : Z
}.

Record DivergencePoint := mk_divergence {
  dp_truncate_to : Z;
  dp_diverged_at_epoch : Z
}.

Definition needs_truncation (d : DivergencePoint) (follower_log_end : Z) : bool := dp_truncate_to d <? follower_log_end.

Inductive EpochCacheError :=
| EpochWentBackward (attempted current : Z)
| OffsetWentBackward (attempted previous : Z).

(** ** Operations *)

Definition cache_new : EpochCache := [].

Definition current_epoch (c : EpochCache) : Z := match last c with Some e => ee_epoch e | None => GENESIS end.

Definition assign (c : EpochCache) (epoch start_offset : Z) : res EpochCache EpochCacheError :=
  match last c with
  | None => Ok (c ++ [mk_epoch epoch start_offset])
  | Some l =>
      fail? epoch <? ee_epoch l with EpochWentBackward epoch (ee_epoch l) in
      if epoch =? ee_epoch l then Ok c
      else
        fail? start_offset <=? ee_start_offset l with OffsetWentBackward start_offset (ee_start_offset l) in
        Ok (c ++ [mk_epoch epoch start_offset])
  end.

Fixpoint assign_all (c : EpochCache) (entries : list EpochEntry) : res EpochCache EpochCacheError :=
  match entries with
  | [] => Ok c
  | e :: entries => let? c := assign c (ee_epoch e) (ee_start_offset e) in assign_all c entries
  end.

Definition from_entries (entries : list EpochEntry) : res EpochCache EpochCacheError := assign_all cache_new entries.

Definition epoch_for_offset (c : EpochCache) (offset : Z) : option Z :=
  match partition_point c (fun e => ee_start_offset e <=? offset) with
  | O => None
  | S i => ee_epoch <$> c !! i
  end.

Definition end_offset_for_epoch (c : EpochCache) (epoch log_end : Z) : LeaderEpochEndOffset :=
  let next_idx := partition_point c (fun e => ee_epoch e <=? epoch) in
  match c !! next_idx with
  | Some next =>
      let held :=
        match next_idx with
        | O => false
        | S i => match c !! i with Some e => ee_epoch e =? epoch | None => false end
        end in
      mk_end_offset epoch (if held then epoch else ee_epoch next) (ee_start_offset next)
  | None => mk_end_offset epoch (current_epoch c) log_end
  end.

(** The walk from the highest epoch down; [follower_end] is the end of the
    range of the first boundary of the reversed list. *)
Fixpoint divergence_walk (entries : list EpochEntry) (follower_end : Z) (ask : Z -> LeaderEpochEndOffset) : option DivergencePoint :=
  match entries with
  | [] => None
  | e :: entries =>
      let leader := ask (ee_epoch e) in
      if le_answered_epoch leader =? ee_epoch e then
        Some (mk_divergence (Z.min follower_end (le_end_offset leader)) (ee_epoch e))
      else divergence_walk entries (ee_start_offset e) ask
  end.

Definition divergence_point (c : EpochCache) (log_end : Z) (ask : Z -> LeaderEpochEndOffset) : DivergencePoint :=
  match c with
  | [] => mk_divergence log_end GENESIS
  | e :: _ => default (mk_divergence (ee_start_offset e) GENESIS) (divergence_walk (rev c) log_end ask)
  end.

Definition cache_truncate (c : EpochCache) (offset : Z) : EpochCache := filter (fun e => ee_start_offset e < offset) c.

(** ** The invariant *)

Definition entry_lt (a b : EpochEntry) : Prop := ee_epoch a < ee_epoch b /\ ee_start_offset a < ee_start_offset b.

Definition cache_wf (c : EpochCache) : Prop := StronglySorted entry_lt c.

Lemma cache_wf_lookup c i j a b : cache_wf c -> (i < j)%nat -> c !! i = Some a -> c !! j = Some b -> entry_lt a b.
Proof.
  intros Hw. revert i j. induction Hw as [|x c Hc IH Hx]; intros i j Hij Ha Hb; [done|].
  destruct j as [|j]; [lia|]. destruct i as [|i]; simpl in *.
  - injection Ha as ->. rewrite Forall_forall in Hx. apply Hx. by eapply list_elem_of_lookup_2.
  - apply (IH i j); [lia|done|done].
Qed.

Lemma cache_wf_snoc c e : cache_wf c -> (forall x, last c = Some x -> entry_lt x e) -> cache_wf (c ++ [e]).
Proof.
  intros Hw Hl. induction Hw as [|x c Hc IH Hx]; [repeat constructor|]. simpl. constructor.
  - apply IH. intros y Hy. apply Hl. rewrite last_cons, Hy. done.
  - apply Forall_app. split; [done|]. constructor; [|constructor]. rewrite last_cons in Hl.
    destruct (last c) as [y|] eqn:Ey; [|by apply Hl]. specialize (Hl y eq_refl). rewrite Forall_forall in Hx.
    assert (Hy : entry_lt x y) by (apply Hx; rewrite last_lookup in Ey; by eapply list_elem_of_lookup_2). unfold entry_lt in *. lia.
Qed.

Lemma assign_wf c epoch start c' : cache_wf c -> assign c epoch start = Ok c' -> cache_wf c'.
Proof.
  intros Hw Ha. unfold assign in Ha. destruct (last c) as [l|] eqn:El.
  - destruct (epoch <? ee_epoch l) eqn:E1; [done|]. destruct (epoch =? ee_epoch l) eqn:E2; [by injection Ha as <-|].
    destruct (start <=? ee_start_offset l) eqn:E3; [done|]. injection Ha as <-. bool_to_prop.
    apply cache_wf_snoc; [done|]. intros x Hx. rewrite El in Hx. injection Hx as <-. split; simpl; lia.
  - injection Ha as <-. apply cache_wf_snoc; [done|]. intros x Hx. congruence.
Qed.

Lemma assign_all_wf es c c' : cache_wf c -> assign_all c es = Ok c' -> cache_wf c'.
Proof.
  revert c. induction es as [|e es IH]; intros c Hw Ha; simpl in Ha; [by injection Ha as <-|].
  inv_ok Ha. eapply IH; [|exact Ha]. by eapply assign_wf.
Qed.

Lemma cache_truncate_wf c off : cache_wf c -> cache_wf (cache_truncate c off).
Proof. apply StronglySorted_filter. Qed.

(** ** What the operations answer *)

(** The end of the range of boundary [i]. *)
Definition range_end (c : EpochCache) (log_end : Z) (i : nat) : Z :=
  match c !! S i with Some n => ee_start_offset n | None => log_end end.

Lemma epoch_for_offset_spec c off e :
  cache_wf c -> epoch_for_offset c off = Some e ->
  exists i a, c !! i = Some a /\ ee_epoch a = e /\ ee_start_offset a <= off /\
    forall b, c !! S i = Some b -> off < ee_start_offset b.
Proof.
  intros Hw He. unfold epoch_for_offset in He.
  destruct (partition_point_spec c (fun x => ee_start_offset x <=? off)) as (_ & Hlo & Hhi).
  { intros i j x y Hij Hx Hy Hp. bool_to_prop. apply Z.leb_le. pose proof (cache_wf_lookup c i j x y Hw Hij Hx Hy) as [_ ?]. lia. }
  destruct (partition_point c _) as [|i]; [done|]. destruct (c !! i) as [a|] eqn:Ea; [|done]. injection He as <-.
  exists i, a. specialize (Hlo i a ltac:(lia) Ea). bool_to_prop. repeat split; [done|done|].
  intros b Hb. specialize (Hhi (S i) b ltac:(lia) Hb). bool_to_prop. lia.
Qed.

Lemma epoch_point c e :
  cache_wf c ->
  let k := partition_point c (fun x => ee_epoch x <=? e) in
  (forall j x, (j < k)%nat -> c !! j = Some x -> ee_epoch x <= e) /\
  (forall j x, (k <= j)%nat -> c !! j = Some x -> e < ee_epoch x).
Proof.
  intros Hw k. destruct (partition_point_spec c (fun x => ee_epoch x <=? e)) as (_ & Hlo & Hhi).
  { intros i j x y Hij Hx Hy Hp. bool_to_prop. apply Z.leb_le. pose proof (cache_wf_lookup c i j x y Hw Hij Hx Hy) as [? _]. lia. }
  split; intros j x Hj Hx; [specialize (Hlo j x Hj Hx)|specialize (Hhi j x Hj Hx)]; bool_to_prop; lia.
Qed.

Lemma end_offset_held c i a log_end :
  cache_wf c -> c !! i = Some a ->
  end_offset_for_epoch c (ee_epoch a) log_end = mk_end_offset (ee_epoch a) (ee_epoch a) (range_end c log_end i).
Proof.
  intros Hw Ha. unfold end_offset_for_epoch, range_end. destruct (epoch_point c (ee_epoch a) Hw) as [Hlo Hhi].
  set (k := partition_point c _) in *. clearbody k.
  assert (Hk : k = S i \/ (S i <= k /\ c !! S i = None)%nat).
  { destruct (decide (k <= i)%nat) as [Hki|Hki]; [specialize (Hhi i a Hki Ha); lia|].
    destruct (c !! S i) as [b|] eqn:Eb; [|right; split; [lia|done]]. left.
    destruct (decide (S i < k)%nat) as [Hlt|]; [|lia]. specialize (Hlo (S i) b Hlt Eb).
    pose proof (cache_wf_lookup c i (S i) a b Hw ltac:(lia) Ha Eb) as [? _]. lia. }
  destruct Hk as [->|[Hk Hn]].
  - destruct (c !! S i) as [b|] eqn:Eb.
    + by rewrite Ha, Z.eqb_refl.
    + f_equal. unfold current_epoch. rewrite last_lookup. replace (pred (length c)) with i; [by rewrite Ha|].
      apply lookup_lt_Some in Ha. apply lookup_ge_None in Eb. lia.
  - rewrite (proj2 (lookup_ge_None c k)) by (apply lookup_ge_None in Hn; lia). rewrite Hn. f_equal.
    unfold current_epoch. rewrite last_lookup. replace (pred (length c)) with i; [by rewrite Ha|].
    apply lookup_lt_Some in Ha. apply lookup_ge_None in Hn. lia.
Qed.

Lemma end_offset_shared c e log_end :
  cache_wf c -> le_answered_epoch (end_offset_for_epoch c e log_end) = e ->
  (exists i a, c !! i = Some a /\ ee_epoch a = e) \/ (c = [] /\ le_end_offset (end_offset_for_epoch c e log_end) = log_end).
Proof.
  intros Hw. unfold end_offset_for_epoch. destruct (epoch_point c e Hw) as [Hlo Hhi]. set (k := partition_point c _) in *. clearbody k.
  destruct (c !! k) as [n|] eqn:En.
  - cbn [le_answered_epoch]. specialize (Hhi k n ltac:(lia) En). destruct k as [|i]; [lia|].
    destruct (c !! i) as [a|] eqn:Ea; [|lia]. destruct (ee_epoch a =? e) eqn:E; [|lia]. bool_to_prop. intros _. left. eauto.
  - cbn [le_answered_epoch le_end_offset]. unfold current_epoch. destruct (last c) as [a|] eqn:El.
    + intros <-. left. rewrite last_lookup in El. eauto.
    + intros _. right. split; [|done]. by apply last_None.
Qed.

Lemma divergence_walk_spec c fe ask :
  match divergence_walk (rev c) fe ask with
  | Some d =>
      exists i a, c !! i = Some a /\ le_answered_epoch (ask (ee_epoch a)) = ee_epoch a /\
        d = mk_divergence (Z.min (range_end c fe i) (le_end_offset (ask (ee_epoch a)))) (ee_epoch a) /\
        forall j b, (i < j)%nat -> c !! j = Some b -> le_answered_epoch (ask (ee_epoch b)) <> ee_epoch b
  | None => forall j b, c !! j = Some b -> le_answered_epoch (ask (ee_epoch b)) <> ee_epoch b
  end.
Proof.
  revert fe. induction c as [|e c IH] using rev_ind; intros fe; [done|]. rewrite rev_unit. cbn [divergence_walk].
  destruct (_ =? ee_epoch e) eqn:E; bool_to_prop.
  - exists (length c), e. rewrite list_lookup_middle by done. repeat split; [done| |].
    + f_equal. unfold range_end. by rewrite (proj2 (lookup_ge_None (c ++ [e]) _)) by (rewrite length_app; simpl; lia).
    + intros j b Hj Hb. apply lookup_lt_Some in Hb. rewrite length_app in Hb. simpl in Hb. lia.
  - specialize (IH (ee_start_offset e)). destruct (divergence_walk _ _ _) as [d|].
    + destruct IH as (i & a & Ha & Hs & -> & Hj). pose proof (lookup_lt_Some _ _ _ Ha) as Hi. exists i, a.
      repeat split; [by rewrite lookup_app_l|done| |].
      * assert (Hre : range_end (c ++ [e]) fe i = range_end c (ee_start_offset e) i); [|by rewrite Hre].
        unfold range_end. destruct (decide (S i < length c)%nat) as [Hlt|].
        { rewrite lookup_app_l by lia. by destruct (lookup_lt_is_Some_2 c (S i) Hlt) as [b ->]. }
        rewrite (proj2 (lookup_ge_None c (S i))) by lia. replace (S i) with (length c) by lia. by rewrite list_lookup_middle.
      * intros j b Hij [Hb|[Hl Hb]]%lookup_app_Some; [by apply (Hj j)|]. destruct (j - length c)%nat; [|done]. by injection Hb as <-.
    + intros j b [Hb|[Hl Hb]]%lookup_app_Some; [by apply (IH j)|]. destruct (j - length c)%nat; [|done]. by injection Hb as <-.
Qed.

Lemma divergence_point_cons c e rest log_end ask :
  c = e :: rest ->
  divergence_point c log_end ask = default (mk_divergence (ee_start_offset e) GENESIS) (divergence_walk (rev c) log_end ask).
Proof. by intros ->. Qed.

(** ** Histories *)

Section history.
Context {A : Type}.

(** The retained part of a replica's log: its first offset, and the records
    with the epoch each was written under. *)
Record Replica := mk_replica {
  rp_base : Z;
  rp_recs : list (Z * A)
}.

Definition rp_end (r : Replica) : Z := rp_base r + Z.of_nat (length (rp_recs r)).

Definition rec_at (r : Replica) (o : Z) : option (Z * A) :=
  if rp_base r <=? o then rp_recs r !! Z.to_nat (o - rp_base r) else None.

Definition rp_truncate (r : Replica) (o : Z) : Replica :=
  mk_replica (rp_base r) (take (Z.to_nat (o - rp_base r)) (rp_recs r)).

(** The cache says of every record which epoch it was written under, and every
    boundary lies within the log. *)
Record describes (c : EpochCache) (r : Replica) : Prop := {
  ds_wf : cache_wf c;
  ds_cover : forall o e x, rec_at r o = Some (e, x) -> epoch_for_offset c o = Some e;
  ds_bounds : forall i a, c !! i = Some a -> rp_base r <= ee_start_offset a <= rp_end r
}.

(** The log of a replica up to the end of an epoch it took part in is the log
    that epoch's leader wrote: one leader per epoch, and a follower copies it
    in order. *)
Definition on_lineage (history : Z -> Z -> option (Z * A)) (c : EpochCache) (r : Replica) : Prop :=
  forall i a o, c !! i = Some a -> rp_base r <= o < range_end c (rp_end r) i -> rec_at r o = history (ee_epoch a) o.

Lemma rec_at_range r o x : rec_at r o = Some x -> rp_base r <= o < rp_end r.
Proof. unfold rec_at, rp_end. destruct (rp_base r <=? o) eqn:E; [|done]. intros Hl%lookup_lt_Some. bool_to_prop. lia. Qed.

Lemma rec_at_some r o : rp_base r <= o < rp_end r -> exists x, rec_at r o = Some x.
Proof.
  unfold rec_at, rp_end. intros Ho. rewrite (proj2 (Z.leb_le _ _)) by lia. apply lookup_lt_is_Some_2. lia.
Qed.

(** The epoch of a record is that of the boundary whose range holds it. *)
Lemma rec_epoch c r o e x :
  describes c r -> rec_at r o = Some (e, x) ->
  exists i a, c !! i = Some a /\ ee_epoch a = e /\ ee_start_offset a <= o < range_end c (rp_end r) i.
Proof.
  intros Hd Hr. destruct (epoch_for_offset_spec c o e (ds_wf _ _ Hd) (ds_cover _ _ Hd _ _ _ Hr)) as (i & a & Ha & He & Hs & Hn).
  exists i, a. repeat split; [done|done|done|]. unfold range_end. destruct (c !! S i) as [b|] eqn:Eb; [by apply Hn|].
  apply rec_at_range in Hr. lia.
Qed.

Lemma range_end_mono c r i j :
  describes c r -> (i <= j < length c)%nat -> range_end c (rp_end r) i <= range_end c (rp_end r) j.
Proof.
  intros Hd Hij. destruct (decide (i = j)) as [->|Hne]; [done|]. unfold range_end.
  destruct (lookup_lt_is_Some_2 c (S i)) as [a Ha]; [lia|]. rewrite Ha.
  destruct (c !! S j) as [b|] eqn:Eb; [|by apply (ds_bounds _ _ Hd (S i))].
  destruct (cache_wf_lookup c (S i) (S j) a b (ds_wf _ _ Hd) ltac:(lia) Ha Eb). lia.
Qed.

(** Below the end of a range every record has its epoch or an older one, from
    there on a younger one. *)
Lemma epoch_vs_range c r o e x i a :
  describes c r -> rec_at r o = Some (e, x) -> c !! i = Some a ->
  if o <? range_end c (rp_end r) i then e <= ee_epoch a
  else exists j b, (i < j)%nat /\ c !! j = Some b /\ ee_epoch b = e.
Proof.
  intros Hd Hr Ha. destruct (rec_epoch c r o e x Hd Hr) as (j & b & Hb & <- & Ho).
  pose proof (lookup_lt_Some _ _ _ Ha) as Hi. pose proof (lookup_lt_Some _ _ _ Hb) as Hj.
  destruct (o <? range_end c (rp_end r) i) eqn:E; bool_to_prop.
  - destruct (decide (j <= i)%nat) as [Hle|Hgt].
    + destruct (decide (j = i)) as [->|]; [rewrite Ha in Hb; injection Hb as ->; lia|].
      pose proof (cache_wf_lookup c j i b a (ds_wf _ _ Hd) ltac:(lia) Hb Ha) as [? _]. lia.
    + exfalso. unfold range_end in E. destruct (c !! S i) as [n|] eqn:En; [|apply lookup_ge_None in En; lia].
      destruct (decide (j = S i)) as [->|]; [rewrite En in Hb; injection Hb as ->; lia|].
      pose proof (cache_wf_lookup c (S i) j n b (ds_wf _ _ Hd) ltac:(lia) En Hb) as [_ ?]. lia.
  - exists j, b. repeat split; [|done]. destruct (decide (i < j)%nat); [done|]. pose proof (range_end_mono c r j i Hd ltac:(lia)). lia.
Qed.

(** Truncating keeps a prefix of the boundaries. *)
Lemma cache_truncate_take c d :
  cache_wf c ->
  exists k, cache_truncate c d = take k c /\ (k <= length c)%nat /\
    (forall i a, (i < k)%nat -> c !! i = Some a -> ee_start_offset a < d) /\
    (forall i a, (k <= i)%nat -> c !! i = Some a -> d <= ee_start_offset a).
Proof.
  induction 1 as [|x c Hc IH Hx]; [by exists 0%nat|]. unfold cache_truncate in *. rewrite filter_cons. case_decide as Hd.
  - destruct IH as (k & -> & Hk & Hlo & Hhi). exists (S k). simpl. repeat split; [lia| |].
    + intros [|i] a Hi Ha; [by injection Ha as ->|]. apply (Hlo i); [lia|done].
    + intros [|i] a Hi Ha; [lia|]. apply (Hhi i); [lia|done].
  - exists 0%nat. rewrite Forall_forall in Hx.
    assert (Hall : forall a, a ∈ x :: c -> d <= ee_start_offset a).
    { intros a [->|Ha]%elem_of_cons; [lia|]. specialize (Hx _ Ha) as [_ ?]. lia. }
    repeat split; [|lia|lia|intros i a _ Ha; apply Hall; by eapply list_elem_of_lookup_2].
    apply filter_none. intros a Ha. specialize (Hall a (list_elem_of_further _ _ _ Ha)). lia.
Qed.

Lemma rec_at_truncate r d o : rp_base r <= d -> rec_at (rp_truncate r d) o = if o <? d then rec_at r o else None.
Proof.
  intros Hd. unfold rec_at, rp_truncate. cbn [rp_base rp_recs]. destruct (rp_base r <=? o) eqn:E; bool_to_prop; [|by destruct (o <? d)].
  destruct (o <? d) eqn:Eo; bool_to_prop; [apply lookup_take_lt; lia|apply lookup_take_ge; lia].
Qed.

Lemma rp_end_truncate r d : rp_base r <= d <= rp_end r -> rp_end (rp_truncate r d) = d.
Proof. unfold rp_end, rp_truncate. cbn [rp_base rp_recs]. rewrite length_take. lia. Qed.

Lemma range_end_truncate c r d k i a :
  (forall i a, (i < k)%nat -> c !! i = Some a -> ee_start_offset a < d) ->
  (forall i a, (k <= i)%nat -> c !! i = Some a -> d <= ee_start_offset a) ->
  take k c !! i = Some a -> d <= rp_end r ->
  range_end (take k c) d i = Z.min d (range_end c (rp_end r) i).
Proof.
  intros Hlo Hhi Ha Hd. unfold range_end. pose proof (lookup_lt_Some _ _ _ Ha) as Hi. rewrite length_take in Hi.
  destruct (decide (S i < k)%nat) as [Hlt|].
  - rewrite lookup_take_lt by done. destruct (c !! S i) as [b|] eqn:Eb; [|lia]. specialize (Hlo (S i) b Hlt Eb). lia.
  - rewrite lookup_take_ge by lia. destruct (c !! S i) as [b|] eqn:Eb; [|lia]. specialize (Hhi (S i) b ltac:(lia) Eb). lia.
Qed.

(** Truncating the cache with the log keeps it true, and on its lineage. *)
Lemma truncate_describes c r d :
  describes c r -> rp_base r <= d <= rp_end r -> describes (cache_truncate c d) (rp_truncate r d).
Proof.
  intros Hr Hd. destruct (cache_truncate_take c d (ds_wf _ _ Hr)) as (k & Hk & Hkl & Hlo & Hhi). split.
  - by apply cache_truncate_wf, (ds_wf _ _ Hr).
  - intros o e x. rewrite rec_at_truncate by lia. destruct (o <? d) eqn:Eo; [|done]. bool_to_prop. intros Hx.
    destruct (rec_epoch _ _ _ _ _ Hr Hx) as (i & a & Ha & <- & Ho). rewrite Hk. unfold epoch_for_offset.
    assert (Hik : (i < k)%nat). { destruct (decide (i < k)%nat); [done|]. specialize (Hhi i a ltac:(lia) Ha). lia. }
    rewrite (partition_point_unique (take k c) _ (S i)).
    + by rewrite lookup_take_lt, Ha.
    + rewrite length_take. apply lookup_lt_Some in Ha. lia.
    + intros j y Hj Hy. apply lookup_take_Some in Hy as [Hy _]. apply Z.leb_le.
      destruct (decide (j = i)) as [->|]; [rewrite Ha in Hy; injection Hy as <-; lia|].
      pose proof (cache_wf_lookup c j i y a (ds_wf _ _ Hr) ltac:(lia) Hy Ha) as [_ ?]. lia.
    + intros j y Hj Hy. apply lookup_take_Some in Hy as [Hy _]. apply Z.leb_gt. unfold range_end in Ho.
      destruct (c !! S i) as [b|] eqn:Eb; [|apply lookup_lt_Some in Hy; apply lookup_ge_None in Eb; lia].
      destruct (decide (j = S i)) as [->|]; [rewrite Eb in Hy; injection Hy as <-; lia|].
      pose proof (cache_wf_lookup c (S i) j b y (ds_wf _ _ Hr) ltac:(lia) Eb Hy) as [_ ?]. lia.
  - intros i a. rewrite Hk, rp_end_truncate by done. intros [Ha Hi]%lookup_take_Some. specialize (Hlo i a Hi Ha).
    pose proof (ds_bounds _ _ Hr i a Ha). cbn [rp_truncate rp_base]. lia.
Qed.

Lemma truncate_on_lineage history c r d :
  describes c r -> on_lineage history c r -> rp_base r <= d <= rp_end r -> on_lineage history (cache_truncate c d) (rp_truncate r d).
Proof.
  intros Hr Hlin Hd. destruct (cache_truncate_take c d (ds_wf _ _ Hr)) as (k & Hk & Hkl & Hlo & Hhi). rewrite Hk.
  intros i a o Ha Ho. rewrite rp_end_truncate, (range_end_truncate c r d k i a Hlo Hhi Ha) in Ho by lia. cbn [rp_truncate rp_base] in Ho.
  rewrite rec_at_truncate, (proj2 (Z.ltb_lt o d)) by lia. apply lookup_take_Some in Ha as [Ha _]. apply (Hlin i); [done|lia].
Qed.

Section divergence.
Context (history : Z -> Z -> option (Z * A)) (cf cl : EpochCache) (f l : Replica).
Context (Hf : describes cf f) (Hl : describes cl l) (Lf : on_lineage history cf f) (Ll : on_lineage history cl l).

Definition leader_answer (e : Z) : LeaderEpochEndOffset := end_offset_for_epoch cl e (rp_end l).

(** At a shared epoch: below both ends the logs agree, from the earlier end on
    they do not. *)
Lemma shared_epoch i a j b :
  cf !! i = Some a -> cl !! j = Some b -> ee_epoch a = ee_epoch b ->
  (forall i' a', (i < i')%nat -> cf !! i' = Some a' -> forall j' b', cl !! j' = Some b' -> ee_epoch a' <> ee_epoch b') ->
  forall o x, rec_at f o = Some x -> rp_base l <= o ->
    o < Z.min (range_end cf (rp_end f) i) (range_end cl (rp_end l) j) <-> rec_at l o = Some x.
Proof.
  intros Ha Hb Hab Hu o [e x] Hx Hlo. pose proof (rec_at_range _ _ _ Hx). split.
  - intros Ho. rewrite (Ll j b o Hb), <- Hab, <- (Lf i a o Ha); [done|lia|lia].
  - intros Hy. pose proof (epoch_vs_range cf f o e x i a Hf Hx Ha) as Hef. pose proof (epoch_vs_range cl l o e x j b Hl Hy Hb) as Hel.
    destruct (o <? range_end cf _ i) eqn:E1, (o <? range_end cl _ j) eqn:E2; bool_to_prop; [lia|exfalso..].
    + destruct Hel as (j' & b' & Hj' & Hb' & <-). pose proof (cache_wf_lookup cl j j' b b' (ds_wf _ _ Hl) Hj' Hb Hb') as [? _]. lia.
    + destruct Hef as (i' & a' & Hi' & Ha' & <-). pose proof (cache_wf_lookup cf i i' a a' (ds_wf _ _ Hf) Hi' Ha Ha') as [? _]. lia.
    + destruct Hel as (j' & b' & Hj' & Hb' & Heb). destruct Hef as (i' & a' & Hi' & Ha' & Hea).
      apply (Hu i' a' Hi' Ha' j' b' Hb'). congruence.
Qed.

Lemma not_shared a :
  le_answered_epoch (leader_answer (ee_epoch a)) <> ee_epoch a -> forall j b, cl !! j = Some b -> ee_epoch a <> ee_epoch b.
Proof. intros Hn j b Hb He. apply Hn. unfold leader_answer. by rewrite He, (end_offset_held cl j b _ (ds_wf _ _ Hl) Hb). Qed.

Lemma first_boundary e c : cf = e :: c -> ee_start_offset e = rp_base f.
Proof.
  intros ->. pose proof (ds_bounds _ _ Hf 0 e eq_refl) as Hb. destruct (decide (ee_start_offset e = rp_base f)); [done|].
  destruct (rec_at_some f (rp_base f)) as [[ex x] Hx]; [lia|].
  destruct (rec_epoch _ _ _ _ _ Hf Hx) as (i & a & Ha & _ & Ho). destruct i as [|i]; [injection Ha as ->; lia|].
  pose proof (cache_wf_lookup _ 0 (S i) e a (ds_wf _ _ Hf) ltac:(lia) eq_refl Ha) as [_ ?]. lia.
Qed.

Lemma range_end_le i a : cf !! i = Some a -> range_end cf (rp_end f) i <= rp_end f.
Proof. intros _. unfold range_end. destruct (cf !! S i) as [b|] eqn:Eb; [|lia]. by apply (ds_bounds _ _ Hf (S i)). Qed.

Lemma no_records o x : cl = [] -> rec_at l o <> Some x.
Proof. intros -> Hx. destruct x as [e x]. by pose proof (ds_cover _ _ Hl _ _ _ Hx). Qed.

Lemma divergence_spec :
  let d := dp_truncate_to (divergence_point cf (rp_end f) leader_answer) in
  d <= rp_end f /\
  forall o x, rec_at f o = Some x -> rp_base l <= o -> o < d <-> rec_at l o = Some x.
Proof.
  cbv zeta. assert (Hcase : cf = [] \/ exists e c, cf = e :: c) by (destruct cf; eauto). destruct Hcase as [Hnil|(e & c & Ecf)].
  { rewrite Hnil. split; [done|]. intros o [ex x] Hx _. pose proof (ds_cover _ _ Hf _ _ _ Hx) as Hc. by rewrite Hnil in Hc. }
  rewrite (divergence_point_cons _ _ _ _ _ Ecf). pose proof (divergence_walk_spec cf (rp_end f) leader_answer) as Hw.
  destruct (divergence_walk _ _ _) as [d|]; cbn [from_option id dp_truncate_to].
  - destruct Hw as (i & a & Ha & Hs & -> & Hn). cbn [id dp_truncate_to]. pose proof (range_end_le i a Ha). split; [lia|].
    destruct (end_offset_shared cl _ _ (ds_wf _ _ Hl) Hs) as [(j & b & Hb & Hab)|[Hnil Hend]].
    + unfold leader_answer. rewrite <- Hab, (end_offset_held cl j b _ (ds_wf _ _ Hl) Hb). cbn [le_end_offset]. apply shared_epoch with a b; [done..|].
      intros i' a' Hi' Ha'. apply not_shared. by apply (Hn i').
    + intros o x Hx Hlo. unfold leader_answer in *. rewrite Hend. split; [|intros Hy; by destruct (no_records o x Hnil)].
      intros Ho. exfalso. destruct (decide (rp_base l < rp_end l)) as [Hlt|]; [|lia].
      destruct (rec_at_some l (rp_base l)) as [y Hy]; [lia|]. by destruct (no_records (rp_base l) y Hnil).
  - rewrite (first_boundary e c Ecf). unfold rp_end. split; [lia|]. intros o [ex x] Hx Hlo. pose proof (rec_at_range _ _ _ Hx).
    split; [lia|]. intros Hy. exfalso. destruct (rec_epoch _ _ _ _ _ Hf Hx) as (i & a & Ha & Hea & _).
    destruct (rec_epoch _ _ _ _ _ Hl Hy) as (j & b & Hb & Heb & _). apply (not_shared a (Hw i a Ha) j b Hb). congruence.
Qed.
End divergence.
End history.
Arguments Replica : clear implicits.

(** ** Properties *)

(** C27: A follower truncates exactly where its history leaves the leader's.
    Let both logs be described by their epoch caches, and let each be, up to
    the end of every epoch it took part in, the log that epoch's leader wrote.
    Then the divergence point keeps precisely those records of the follower
    that the leader holds at the same offset; a record both hold is never
    dropped, so nothing committed is; and the truncated cache describes the
    truncated log. *)
Theorem divergence_point_exact {A} history cf cl (f l : Replica A) :
  describes cf f -> describes cl l -> on_lineage history cf f -> on_lineage history cl l ->
  let d := dp_truncate_to (divergence_point cf (rp_end f) (fun e => end_offset_for_epoch cl e (rp_end l))) in
  d <= rp_end f /\
  (forall o x, rec_at f o = Some x -> rp_base l <= o -> o < d <-> rec_at l o = Some x) /\
  (rp_base f <= d -> describes (cache_truncate cf d) (rp_truncate f d)).
Proof.
  intros Hf Hl Lf Ll d. destruct (divergence_spec history cf cl f l Hf Hl Lf Ll) as [Hd Hex]. split; [done|]. split; [done|].
  intros Hb. by apply truncate_describes.
Qed.

(** Two leaders wrote five records under epoch 1; the second led epoch 2 after
    three of them and wrote two more, the follower stayed with the first. *)
Definition demo_history (e o : Z) : option (Z * Z) :=
  if e =? 1 then (if (0 <=? o) && (o <? 5) then Some (1, o) else None)
  else if (0 <=? o) && (o <? 3) then Some (1, o) else if (o =? 3) || (o =? 4) then Some (2, o) else None.
Definition demo_follower : Replica Z := mk_replica 0 [(1, 0); (1, 1); (1, 2); (1, 3); (1, 4)].
Definition demo_leader : Replica Z := mk_replica 0 [(1, 0); (1, 1); (1, 2); (2, 3); (2, 4)].

Lemma demo_describes :
  describes [mk_epoch 1 0] demo_follower /\ describes [mk_epoch 1 0; mk_epoch 2 3] demo_leader /\
  on_lineage demo_history [mk_epoch 1 0] demo_follower /\ on_lineage demo_history [mk_epoch 1 0; mk_epoch 2 3] demo_leader.
Proof.
  assert (Hfive : forall o, 0 <= o < 5 -> o = 0 \/ o = 1 \/ o = 2 \/ o = 3 \/ o = 4) by lia.
  split; [split|split; [split|split]].
  1, 4: repeat constructor; simpl; lia.
  1, 3: intros o e x Hx; pose proof (rec_at_range _ _ _ Hx) as Hr; vm_compute rp_base in Hr; vm_compute rp_end in Hr;
    destruct (Hfive o Hr) as [->|[->|[->|[->| ->]]]]; vm_compute in Hx |- *; congruence.
  1, 2: intros [|[|i]] a Ha; simpl in Ha; inversion Ha; subst; vm_compute; split; congruence.
  - intros [|[|i]] a o Ha Ho; simpl in Ha; inversion Ha; subst. vm_compute rp_base in Ho. vm_compute range_end in Ho.
    destruct (Hfive o Ho) as [->|[->|[->|[->| ->]]]]; vm_compute; reflexivity.
  - intros [|[|i]] a o Ha Ho; simpl in Ha; inversion Ha; subst; vm_compute rp_base in Ho; vm_compute range_end in Ho;
      destruct (Hfive o ltac:(lia)) as [->|[->|[->|[->| ->]]]]; try (vm_compute; reflexivity); lia.
Qed.

Lemma divergence_point_exact_witness :
  dp_truncate_to (divergence_point [mk_epoch 1 0] 5 (fun e => end_offset_for_epoch [mk_epoch 1 0; mk_epoch 2 3] e 5)) = 3 /\
  rec_at demo_leader 2 = Some (1, 2) /\ describes [mk_epoch 1 0] (rp_truncate demo_follower 3).
Proof.
  destruct demo_describes as (Hf & Hl & Lf & Ll).
  destruct (divergence_point_exact demo_history _ _ demo_follower demo_leader Hf Hl Lf Ll) as (_ & Hex & Htr).
  vm_compute (dp_truncate_to _) in Hex, Htr. split; [vm_compute; reflexivity|]. split; [|apply Htr; vm_compute; congruence].
  apply (Hex 2 (1, 2)); [reflexivity|vm_compute; congruence|lia].
Defined.

(** A cache through its life: assignments, refused ones included, and truncations. *)
Inductive CacheOp := OpAssign (epoch start_offset : Z) | OpTruncate (offset : Z).

Definition cache_step (c : EpochCache) (o : CacheOp) : EpochCache :=
  match o with
  | OpAssign epoch start => match assign c epoch start with Ok c' => c' | _ => c end
  | OpTruncate offset => cache_truncate c offset
  end.

Lemma cache_run_wf ops c : cache_wf c -> cache_wf (foldl cache_step c ops).
Proof.
  revert c. induction ops as [|o ops IH]; intros c Hw; [done|]. simpl. apply IH. destruct o as [e s|off]; simpl; [|by apply cache_truncate_wf].
  destruct (assign c e s) eqn:Ea; [by eapply assign_wf|done|done].
Qed.

Lemma cache_wf_last c x l : cache_wf c -> x ∈ c -> last c = Some l -> ee_epoch x <= ee_epoch l /\ ee_start_offset x <= ee_start_offset l.
Proof.
  intros Hw Hx Hl. apply list_elem_of_lookup in Hx as [i Hi]. rewrite last_lookup in Hl.
  pose proof (lookup_lt_Some _ _ _ Hi). destruct (decide (i = pred (length c))) as [->|]; [rewrite Hi in Hl; injection Hl as ->; lia|].
  destruct (cache_wf_lookup c i (pred (length c)) x l) as [? ?]; [done|lia|done|done|]. lia.
Qed.

Lemma assign_all_exact c es : cache_wf (c ++ es) -> assign_all c es = Ok (c ++ es).
Proof.
  revert c. induction es as [|e es IH]; intros c Hw; [by rewrite app_nil_r|]. cbn [assign_all].
  assert (Ha : assign c (ee_epoch e) (ee_start_offset e) = Ok (c ++ [e])).
  { unfold assign. destruct (last c) as [l|] eqn:El; [|by destruct e]. rewrite last_lookup in El.
    pose proof (lookup_lt_Some _ _ _ El).
    destruct (cache_wf_lookup (c ++ e :: es) (pred (length c)) (length c) l e) as [? ?];
      [done|lia|by rewrite lookup_app_l by lia|by rewrite lookup_app_r, Nat.sub_diag by lia|].
    rewrite (proj2 (Z.ltb_ge _ _)), (proj2 (Z.eqb_neq _ _)), (proj2 (Z.leb_gt _ _)) by lia. by destruct e. }
  rewrite Ha. cbn [res_bind]. rewrite IH; by rewrite <- app_assoc.
Qed.

Lemma epoch_for_offset_some c off : cache_wf c -> is_Some (epoch_for_offset c off) <-> exists x, x ∈ c /\ ee_start_offset x <= off.
Proof.
  intros Hw. unfold epoch_for_offset. destruct (partition_point_spec c (fun x => ee_start_offset x <=? off)) as (Hle & Hlo & Hhi).
  { intros i j x y Hij Hx Hy Hp. bool_to_prop. apply Z.leb_le. pose proof (cache_wf_lookup c i j x y Hw Hij Hx Hy) as [_ ?]. lia. }
  destruct (partition_point c _) as [|i].
  - split; [by intros [? ?]|]. intros (x & Hx & Ho). apply list_elem_of_lookup in Hx as [j Hj]. specialize (Hhi j x ltac:(lia) Hj). bool_to_prop. lia.
  - destruct (lookup_lt_is_Some_2 c i) as [x Hx]; [lia|]. rewrite Hx. split; [|by eexists]. intros _. exists x.
    split; [by eapply list_elem_of_lookup_2|]. specialize (Hlo i x ltac:(lia) Hx). by bool_to_prop.
Qed.

(** C35: an epoch cache is well typed through its life.  Restored from any list
    of entries it accepts and run through any assignments, refused ones
    included, and truncations, its boundaries rise strictly in epoch and in
    offset; its current epoch is its highest; it answers exactly for the offsets
    at or above its first boundary; and saved and restored it is itself. *)
Theorem epoch_cache_typed entries c ops :
  from_entries entries = Ok c ->
  let c' := foldl cache_step c ops in
  cache_wf c' /\ (forall x, x ∈ c' -> ee_epoch x <= current_epoch c') /\
  (forall off, is_Some (epoch_for_offset c' off) <-> exists x, x ∈ c' /\ ee_start_offset x <= off) /\
  from_entries c' = Ok c'.
Proof.
  intros Hf c'. assert (Hw : cache_wf c') by (apply cache_run_wf; eapply assign_all_wf; [constructor|exact Hf]). split_and!.
  - done.
  - intros x Hx. unfold current_epoch. destruct (last c') as [l|] eqn:El; [by eapply cache_wf_last|].
    apply last_None in El. rewrite El in Hx. by apply not_elem_of_nil in Hx.
  - intros off. by apply epoch_for_offset_some.
  - by apply (assign_all_exact []).
Qed.

Lemma epoch_cache_typed_witness :
  let c' := foldl cache_step [mk_epoch 1 0; mk_epoch 4 9] [OpAssign 3 20; OpTruncate 9; OpAssign 6 12] in
  c' = [mk_epoch 1 0; mk_epoch 6 12] /\ from_entries c' = Ok c'.
Proof.
  split; [vm_compute; reflexivity|].
  apply (epoch_cache_typed [mk_epoch 1 0; mk_epoch 4 9; mk_epoch 4 2] [mk_epoch 1 0; mk_epoch 4 9]). vm_compute. reflexivity.
Defined.
