(* ===== verification/LeaderLease.v ===== *)
(** * Leader epochs and the leadership lease ([core/src/leader_lease.rs])

    A node tracks the highest term it has observed and, while it leads, a lease
    bounded by the monotonic clock.  The specification is the last observation
    it accepted: whether a node may act follows from that alone. *)

From S2P Require Import Prelude.

(** ** Data *)

Definition is_fenced_by (epoch other : Z) : bool := epoch <? other.

Inductive EpochObservation :=
| Advanced (previous current : Z)
| Unchanged
| Stale (current observed : Z).

Record LeaderLease := mk_lease {
  ll_epoch : Z;
  ll_granted_at : Z;
  ll_deadline : Z
}.

Record LeadershipTracker := mk_leadership {
  lt_epoch : Z;
  lt_lease : option LeaderLease;
  lt_lease_nanos : Z
}.

(** ** Operations *)

Definition lease_grant (epoch now lease_nanos : Z) : LeaderLease := mk_lease epoch now (sat_add64 now lease_nanos).

Definition lease_is_valid (l : LeaderLease) (now : Z) : bool := now <? ll_deadline l.
Definition lease_is_expired (l : LeaderLease) (now : Z) : bool := negb (lease_is_valid l now).

Definition lease_renew (l : LeaderLease) (epoch now lease_nanos : Z) : LeaderLease * bool :=
  if negb (ll_epoch l =? epoch) || lease_is_expired l now then (l, false)
  else (mk_lease (ll_epoch l) now (sat_add64 now lease_nanos), true).

Definition lease_fences (l : LeaderLease) (epoch now : Z) : bool := negb (epoch =? ll_epoch l) || lease_is_expired l now.

Definition leadership_new (lease_nanos : Z) : LeadershipTracker := mk_leadership 0 None lease_nanos.

Definition observe (t : LeadershipTracker) (term : Z) (is_leader : bool) (now : Z) : LeadershipTracker * EpochObservation :=
  if term <? lt_epoch t then (t, Stale (lt_epoch t) term)
  else
    let outcome := if lt_epoch t <? term then Advanced (lt_epoch t) term else Unchanged in
    let lease :=
      if is_leader then
        match lt_lease t with
        | Some l =>
            match lease_renew l term now (lt_lease_nanos t) with
            | (l, true) => Some l
            | (_, false) => Some (lease_grant term now (lt_lease_nanos t))
            end
        | None => Some (lease_grant term now (lt_lease_nanos t))
        end
      else None in
    (mk_leadership term lease (lt_lease_nanos t), outcome).

Definition tracker_fences (t : LeadershipTracker) (epoch now : Z) : bool :=
  if is_fenced_by epoch (lt_epoch t) then true
  else match lt_lease t with Some l => lease_fences l epoch now | None => true end.

Definition can_act_as_leader (t : LeadershipTracker) (now : Z) : bool :=
  match lt_lease t with
  | Some l => (ll_epoch l =? lt_epoch t) && lease_is_valid l now
  | None => false
  end.

(** ** The specification *)

(** An observation: the term, whether the node leads it, the time. *)
Record Observation := mk_observation {
  ob_term : Z;
  ob_is_leader : bool;
  ob_now : Z
}.

Definition run_observe (lease_nanos : Z) (os : list Observation) : LeadershipTracker :=
  foldl (fun t o => fst (observe t (ob_term o) (ob_is_leader o) (ob_now o))) (leadership_new lease_nanos) os.

(** The latest observation not older than the ones before it. *)
Definition accept (latest : option Observation) (o : Observation) : option Observation :=
  if ob_term o <? match latest with Some p => ob_term p | None => 0 end then latest else Some o.
Definition accepted (os : list Observation) : option Observation := foldl accept None os.

Definition may_act (lease_nanos : Z) (latest : option Observation) (now : Z) : bool :=
  match latest with
  | Some o => ob_is_leader o && (now <? sat_add64 (ob_now o) lease_nanos)
  | None => false
  end.

(** The tracker is its latest accepted observation. *)
Definition tracks (lease_nanos : Z) (t : LeadershipTracker) (latest : option Observation) : Prop :=
  lt_lease_nanos t = lease_nanos /\
  lt_epoch t = match latest with Some o => ob_term o | None => 0 end /\
  lt_lease t =
    match latest with
    | Some o => if ob_is_leader o then Some (lease_grant (ob_term o) (ob_now o) lease_nanos) else None
    | None => None
    end.

Lemma observe_tracks n t latest o :
  tracks n t latest -> tracks n (fst (observe t (ob_term o) (ob_is_leader o) (ob_now o))) (accept latest o).
Proof.
  intros (Hn & He & Hl). unfold observe, accept. rewrite <- He. destruct (ob_term o <? lt_epoch t) eqn:E; [done|].
  split; [exact Hn|]. split; [done|]. cbn [fst lt_lease]. destruct (ob_is_leader o); [|done].
  destruct (lt_lease t) as [l|]; [|by rewrite Hn]. unfold lease_renew. rewrite Hn. destruct (_ || _) eqn:Er; [done|].
  unfold lease_grant. bool_to_prop. congruence.
Qed.

Lemma run_tracks n os : tracks n (run_observe n os) (accepted os).
Proof.
  unfold run_observe, accepted. generalize (leadership_new n) (@None Observation) (ltac:(done) : tracks n (leadership_new n) None).
  induction os as [|o os IH]; intros t latest Ht; [done|]. simpl. by apply IH, observe_tracks.
Qed.

Lemma tracks_acts n t latest now : tracks n t latest -> can_act_as_leader t now = may_act n latest now.
Proof.
  intros (_ & He & Hl). unfold can_act_as_leader, may_act. rewrite Hl, He. destruct latest as [o|]; [|done].
  destruct (ob_is_leader o); [|done]. simpl. by rewrite Z.eqb_refl.
Qed.

Lemma tracks_fences n t latest e now :
  tracks n t latest -> tracker_fences t e now = negb (can_act_as_leader t now && (e =? lt_epoch t)).
Proof.
  intros (_ & He & Hl). unfold tracker_fences, can_act_as_leader, is_fenced_by, lease_fences, lease_is_expired.
  rewrite Hl. destruct latest as [o|]; [|by destruct (_ <? _)]. rewrite He. destruct (ob_is_leader o); [|by destruct (_ <? _)].
  cbn [lease_grant ll_epoch]. rewrite Z.eqb_refl. simpl.
  destruct (e <? ob_term o) eqn:E1, (e =? ob_term o) eqn:E2, (lease_is_valid _ now); try done; bool_to_prop; lia.
Qed.

Lemma accepted_in os o : accepted os = Some o -> o ∈ os.
Proof.
  unfold accepted. induction os as [|p os IH] using rev_ind; [done|]. rewrite foldl_app. simpl. unfold accept at 1.
  destruct (_ <? _); [intros Ho; apply elem_of_app; left; auto|]. intros [= <-]. apply elem_of_app. right. left.
Qed.

Lemma accepted_term os o : Forall (fun p => 0 <= ob_term p) os -> accepted os = Some o -> Forall (fun p => ob_term p <= ob_term o) os.
Proof.
  unfold accepted. enough (Hg : Forall (fun p => 0 <= ob_term p) os ->
    Forall (fun p => ob_term p <= match foldl accept None os with Some q => ob_term q | None => 0 end) os /\
    0 <= match foldl accept None os with Some q => ob_term q | None => 0 end).
  { intros Hp Ho. destruct (Hg Hp) as [Hf _]. by rewrite Ho in Hf. }
  induction os as [|p os IH] using rev_ind; intros Hp; [done|]. apply Forall_app in Hp as [Hp Hq]. apply Forall_cons in Hq as [Hq _].
  destruct (IH Hp) as [Hf H0]. rewrite foldl_app. cbn [foldl]. unfold accept at 1 3. destruct (_ <? _) eqn:E; bool_to_prop.
  - split; [|done]. apply Forall_app. split; [done|]. repeat constructor. lia.
  - split; [|done]. apply Forall_app. split; [|repeat constructor; lia]. eapply Forall_impl; [exact Hf|]. simpl. lia.
Qed.

Lemma accepted_none os : Forall (fun p => 0 <= ob_term p) os -> accepted os = None -> os = [].
Proof.
  unfold accepted. destruct os as [|p os _] using rev_ind; [done|]. intros [_ Hp]%Forall_app. apply Forall_cons in Hp as [Hp _].
  rewrite foldl_app. cbn [foldl]. unfold accept at 1. destruct (_ <? _) eqn:E; [|done]. intros Hn. rewrite Hn in E. bool_to_prop. lia.
Qed.

(** ** Properties *)


(** One leader per epoch, as far as writes go.  If no two nodes are ever
    observed leading the same term, then no two nodes let a write of the same
    epoch through, whatever their clocks read. *)
Theorem fenced_write_unique nanos1 nanos2 os1 os2 epoch now1 now2 :
  (forall o1 o2, o1 ∈ os1 -> o2 ∈ os2 -> ob_is_leader o1 = true -> ob_is_leader o2 = true -> ob_term o1 <> ob_term o2) ->
  tracker_fences (run_observe nanos1 os1) epoch now1 = true \/ tracker_fences (run_observe nanos2 os2) epoch now2 = true.
Proof.
  intros Hu. pose proof (run_tracks nanos1 os1) as H1. pose proof (run_tracks nanos2 os2) as H2.
  rewrite (tracks_fences _ _ _ epoch now1 H1), (tracks_fences _ _ _ epoch now2 H2), (tracks_acts _ _ _ now1 H1), (tracks_acts _ _ _ now2 H2).
  destruct H1 as (_ & -> & _), H2 as (_ & -> & _). unfold may_act.
  destruct (accepted os1) as [o1|] eqn:E1; [|by left]. destruct (accepted os2) as [o2|] eqn:E2; [|by right].
  destruct (ob_is_leader o1) eqn:L1; [|by left]. destruct (ob_is_leader o2) eqn:L2; [|by right].
  pose proof (Hu o1 o2 (accepted_in _ _ E1) (accepted_in _ _ E2) L1 L2) as Hne.
  destruct (Z.eqb_spec epoch (ob_term o1)) as [->|]; [|left; by rewrite andb_false_r].
  right. rewrite (proj2 (Z.eqb_neq _ _) Hne). by rewrite andb_false_r.
Qed.

(** A leader of term 3 that is told of term 5, hears a late report of term 3,
    and wins term 6. *)
Definition demo_observations : list Observation :=
  [mk_observation 3 true 100; mk_observation 5 false 120; mk_observation 3 true 130; mk_observation 6 true 200].


Lemma fenced_write_unique_witness :
  tracker_fences (run_observe 50 demo_observations) 6 210 = true \/
  tracker_fences (run_observe 50 [mk_observation 5 true 90; mk_observation 6 false 220]) 6 210 = true.
Proof.
  apply fenced_write_unique. intros o1 o2 Ho1 Ho2. unfold demo_observations in Ho1.
  repeat (apply elem_of_cons in Ho2 as [->|Ho2]; [repeat (apply elem_of_cons in Ho1 as [->|Ho1]; [simpl; intros; congruence|]);
    by apply not_elem_of_nil in Ho1|]). by apply not_elem_of_nil in Ho2.
Defined.
