(* ===== verification/DataPlane.v ===== *)
(** * The data plane of a node: roles, the produce-ack seam and the client gate
    ([server/src/cluster/dataplane.rs], [client_ack.rs])

    A node leads some partitions and follows others.  For a partition it leads,
    the acknowledgement of a produce is parked behind the quorum gate with the
    reply bytes and the connection that awaits them; a follower's report lets
    acknowledgements out into the outbox of their connection.

    The lock of the shared server serializes these operations; it is taken not
    to be poisoned.  A leader's read plane and a follower's state are parameters
    of this file: the acknowledgement path reads one number of the first. *)

From S2P Require Import Prelude Epochs Isr.

Definition MAX_PARKED_ACKS_PER_PARTITION : nat := 8192.

Inductive ClusterAckLevel := C0 | C1 | C2Pagecache | C2Fsync.

Definition ack_implies_quorum_fsync (l : ClusterAckLevel) : bool := match l with C2Fsync => true | _ => false end.

Section dataplane.
Context {Plane Follower : Type}.

(** ** Data *)

Inductive PartitionRole :=
| RLeader (plane : Plane) (epochs : EpochCache) (isr : IsrTracker) (gate : QuorumAckGate Z)
| RFollower (follower : Follower).

Record DataPlaneController := mk_controller {
  dc_node_id : Z;
  dc_roles : gmap Z PartitionRole
}.

(** The errors of the operations of this file. *)
Inductive DataPlaneError :=
| UnknownPartition (partition : Z)
| WrongRole (partition : Z) (needs_leader : bool).

(** ** The controller *)

Definition controller_new (node_id : Z) : DataPlaneController := mk_controller node_id ∅.

Definition put_role (c : DataPlaneController) (partition : Z) (r : PartitionRole) : DataPlaneController :=
  mk_controller (dc_node_id c) (<[partition := r]> (dc_roles c)).

Definition is_leader (c : DataPlaneController) (partition : Z) : bool :=
  match dc_roles c !! partition with Some (RLeader _ _ _ _) => true | _ => false end.
Definition is_follower (c : DataPlaneController) (partition : Z) : bool :=
  match dc_roles c !! partition with Some (RFollower _) => true | _ => false end.

Definition start_leader (plane_flushed : Plane -> Z) (c : DataPlaneController) (partition : Z) (plane : Plane) (epochs : EpochCache) (replica_ids : list Z)
    (isr_config : IsrConfig) : DataPlaneController :=
  let isr := observe_leader_fsync (tracker_new (dc_node_id c) replica_ids isr_config) (plane_flushed plane) in
  put_role c partition (RLeader plane epochs isr (gate_with_cap MAX_PARKED_ACKS_PER_PARTITION)).

Definition start_follower (c : DataPlaneController) (partition : Z) (follower : Follower) : DataPlaneController :=
  put_role c partition (RFollower follower).

Definition stop_partition (c : DataPlaneController) (partition : Z) : DataPlaneController * bool :=
  (mk_controller (dc_node_id c) (delete partition (dc_roles c)),
   match dc_roles c !! partition with Some _ => true | None => false end).

Definition led_inbound_link_count (c : DataPlaneController) : nat :=
  foldr (fun p n => (match p.2 with RLeader _ _ isr _ => follower_count isr | RFollower _ => 0 end + n)%nat) 0%nat (btree_list (dc_roles c)).

(** [serve_epoch_query], given the epoch of the request. *)
Definition serve_epoch_query (plane_flushed : Plane -> Z) (c : DataPlaneController) (partition epoch : Z) : res LeaderEpochEndOffset DataPlaneError :=
  match dc_roles c !! partition with
  | Some (RLeader plane epochs _ _) => Ok (end_offset_for_epoch epochs epoch (plane_flushed plane))
  | Some (RFollower _) => Err (WrongRole partition true)
  | None => Err (UnknownPartition partition)
  end.

Definition leader_committed_hw (plane_flushed : Plane -> Z) (c : DataPlaneController) (partition : Z) : option Z :=
  match dc_roles c !! partition with Some (RLeader plane _ _ _) => Some (plane_flushed plane) | _ => None end.

Definition controller_observe_fsync (c : DataPlaneController) (partition flushed_offset : Z) : DataPlaneController :=
  match dc_roles c !! partition with
  | Some (RLeader plane epochs isr gate) => put_role c partition (RLeader plane epochs (observe_leader_fsync isr flushed_offset) gate)
  | _ => c
  end.

Definition park_produce_ack (c : DataPlaneController) (partition offset token : Z) : DataPlaneController * res bool DataPlaneError :=
  match dc_roles c !! partition with
  | Some (RLeader plane epochs isr gate) =>
      let '(gate, parked) := park gate offset token in (put_role c partition (RLeader plane epochs isr gate), Ok parked)
  | Some (RFollower _) => (c, Err (WrongRole partition true))
  | None => (c, Err (UnknownPartition partition))
  end.

Definition purge_role (tokens : gset Z) (r : PartitionRole) : PartitionRole :=
  match r with
  | RLeader plane epochs isr gate => RLeader plane epochs isr (fst (purge_where gate (fun t => bool_decide (t ∈ tokens))))
  | RFollower f => RFollower f
  end.

Definition purge_parked_tokens (c : DataPlaneController) (tokens : gset Z) : DataPlaneController :=
  if decide (tokens = ∅) then c else mk_controller (dc_node_id c) (purge_role tokens <$> dc_roles c).

(** [gate.release_up_to(isr.quorum_commit())] *)
Definition release_role (c : DataPlaneController) (partition : Z) (plane : Plane) (epochs : EpochCache) (isr : IsrTracker)
    (gate : QuorumAckGate Z) : DataPlaneController * res (list Z) DataPlaneError :=
  match quorum_commit isr with
  | Ok commit =>
      let '(gate, released) := release_up_to gate commit in (put_role c partition (RLeader plane epochs isr gate), Ok released)
  | _ => (put_role c partition (RLeader plane epochs isr gate), Panic)
  end.

Definition apply_follower_report (c : DataPlaneController) (partition : Z) (report : AckReplicatedBody)
    : DataPlaneController * res (list Z) DataPlaneError :=
  match dc_roles c !! partition with
  | Some (RLeader plane epochs isr gate) => release_role c partition plane epochs (fst (observe_follower_report isr report)) gate
  | Some (RFollower _) => (c, Err (WrongRole partition true))
  | None => (c, Err (UnknownPartition partition))
  end.

Definition release_quorum_acked (c : DataPlaneController) (partition : Z) : DataPlaneController * res (list Z) DataPlaneError :=
  match dc_roles c !! partition with
  | Some (RLeader plane epochs isr gate) => release_role c partition plane epochs isr gate
  | Some (RFollower _) => (c, Err (WrongRole partition true))
  | None => (c, Err (UnknownPartition partition))
  end.

Definition pending_ack_count (c : DataPlaneController) (partition : Z) : nat :=
  match dc_roles c !! partition with Some (RLeader _ _ _ gate) => length (g_pending gate) | _ => 0%nat end.

(** ** The produce-ack seam *)

Inductive AckDisposition :=
| WriteNow (bytes : list Z)
| WriteNowBatch (frames : list (list Z))
| Parked
| Rejected.

Record ProduceAckSeam := mk_seam {
  sm_controller : DataPlaneController;
  sm_next_token : Z;
  sm_parked : gmap Z (Z * list Z)
}.

Definition seam_new (c : DataPlaneController) : ProduceAckSeam := mk_seam c 0 ∅.

(** [tokens.iter().filter_map(|t| self.parked.remove(t)).collect()] *)
Fixpoint owned_bytes_for_tokens (parked : gmap Z (Z * list Z)) (tokens : list Z) : gmap Z (Z * list Z) * list (Z * list Z) :=
  match tokens with
  | [] => (parked, [])
  | t :: tokens =>
      let '(parked', rest) := owned_bytes_for_tokens (delete t parked) tokens in
      (parked', match parked !! t with Some e => e :: rest | None => rest end)
  end.

Definition released_bytes (s : ProduceAckSeam) (r : DataPlaneController * res (list Z) DataPlaneError)
    : ProduceAckSeam * res (list (Z * list Z)) DataPlaneError :=
  match r with
  | (c, Ok tokens) =>
      let '(parked, released) := owned_bytes_for_tokens (sm_parked s) tokens in (mk_seam c (sm_next_token s) parked, Ok released)
  | (c, Err e) => (mk_seam c (sm_next_token s) (sm_parked s), Err e)
  | (c, Panic) => (mk_seam c (sm_next_token s) (sm_parked s), Panic)
  end.

Definition take_released_owned (s : ProduceAckSeam) (partition : Z) := released_bytes s (release_quorum_acked (sm_controller s) partition).
Definition on_follower_report_owned (s : ProduceAckSeam) (partition : Z) (report : AckReplicatedBody) :=
  released_bytes s (apply_follower_report (sm_controller s) partition report).

Definition on_local_fsynced_ack_owned (s : ProduceAckSeam) (owner : Z) (ack_level : ClusterAckLevel) (partition offset : Z)
    (reply_bytes : list Z) : ProduceAckSeam * res AckDisposition DataPlaneError :=
  if negb (ack_implies_quorum_fsync ack_level) || negb (is_leader (sm_controller s) partition) then (s, Ok (WriteNow reply_bytes))
  else
    let token := sm_next_token s in
    match park_produce_ack (sm_controller s) partition offset token with
    | (c, Ok true) =>
        let s := mk_seam c ((sm_next_token s + 1) mod (u64_max + 1)) (<[token := (owner, reply_bytes)]> (sm_parked s)) in
        match take_released_owned s partition with
        | (s, Ok []) => (s, Ok Parked)
        | (s, Ok released) => (s, Ok (WriteNowBatch released.*2))
        | (s, Err e) => (s, Err e)
        | (s, Panic) => (s, Panic)
        end
    | (c, Ok false) => (mk_seam c (sm_next_token s) (sm_parked s), Ok Rejected)
    | (c, Err e) => (mk_seam c (sm_next_token s) (sm_parked s), Err e)
    | (c, Panic) => (mk_seam c (sm_next_token s) (sm_parked s), Panic)
    end.

Definition purge_owner (s : ProduceAckSeam) (owner : Z) : ProduceAckSeam * nat :=
  let dead : gset Z := dom (filter (fun p => p.2.1 = owner) (sm_parked s)) in
  if decide (dead = ∅) then (s, 0%nat)
  else
    (mk_seam (purge_parked_tokens (sm_controller s) dead) (sm_next_token s) (filter (fun p => p.1 ∉ dead) (sm_parked s)), size dead).

(** ** The client gate *)

Record ClientAckGate := mk_client_gate {
  cg_seam : ProduceAckSeam;
  cg_level : ClusterAckLevel;
  cg_outbox : gmap Z (list (list Z))
}.

Definition client_gate_new (s : ProduceAckSeam) (level : ClusterAckLevel) : ClientAckGate := mk_client_gate s level ∅.

Definition on_local_fsynced_ack (g : ClientAckGate) (member partition offset : Z) (reply_bytes : list Z)
    : ClientAckGate * res AckDisposition Empty_set :=
  if negb (ack_implies_quorum_fsync (cg_level g)) then (g, Ok (WriteNow reply_bytes))
  else if negb (is_leader (sm_controller (cg_seam g)) partition) then (g, Ok (WriteNow reply_bytes))
  else
    let s := cg_seam g in
    let s := mk_seam (controller_observe_fsync (sm_controller s) partition (sat_add64 offset 1)) (sm_next_token s) (sm_parked s) in
    match on_local_fsynced_ack_owned s member (cg_level g) partition offset reply_bytes with
    | (s, Ok d) => (mk_client_gate s (cg_level g) (cg_outbox g), Ok d)
    | (s, Err _) => (mk_client_gate s (cg_level g) (cg_outbox g), Ok (WriteNow reply_bytes))
    | (s, Panic) => (mk_client_gate s (cg_level g) (cg_outbox g), Panic)
    end.

Definition deposit (outbox : gmap Z (list (list Z))) (r : Z * list Z) : gmap Z (list (list Z)) :=
  <[r.1 := default [] (outbox !! r.1) ++ [r.2]]> outbox.

Definition client_on_follower_report (g : ClientAckGate) (partition : Z) (report : AckReplicatedBody) : ClientAckGate * res nat Empty_set :=
  match on_follower_report_owned (cg_seam g) partition report with
  | (s, Ok released) => (mk_client_gate s (cg_level g) (foldl deposit (cg_outbox g) released), Ok (length released))
  | (s, Err _) => (mk_client_gate s (cg_level g) (cg_outbox g), Ok 0%nat)
  | (s, Panic) => (mk_client_gate s (cg_level g) (cg_outbox g), Panic)
  end.

Definition drain_released (g : ClientAckGate) (member : Z) : ClientAckGate * list (list Z) :=
  (mk_client_gate (cg_seam g) (cg_level g) (delete member (cg_outbox g)), default [] (cg_outbox g !! member)).

Definition drop_connection (g : ClientAckGate) (member : Z) : ClientAckGate :=
  mk_client_gate (fst (purge_owner (cg_seam g) member)) (cg_level g) (delete member (cg_outbox g)).

(** ** Connections *)

Inductive ClientOp :=
| CProduced (member partition offset : Z) (reply : list Z)
| CReport (partition : Z) (report : AckReplicatedBody)
| CFlush (member : Z)
| CDisconnect (member : Z).

(** A frame on a connection: an acknowledgement, or the error of a refused produce. *)
Inductive Frame := FAck (bytes : list Z) | FNotEnoughIsr.

(** What the session writes of a disposition. *)
Definition frames_of (d : AckDisposition) : list Frame :=
  match d with WriteNow b => [FAck b] | WriteNowBatch fs => map FAck fs | Parked => [] | Rejected => [FNotEnoughIsr] end.

(** The gate and everything written, with the connection it was written to. *)
Definition client_step (st : ClientAckGate * list (Z * Frame)) (o : ClientOp) : ClientAckGate * list (Z * Frame) :=
  let '(g, wire) := st in
  match o with
  | CProduced member partition offset reply =>
      match on_local_fsynced_ack g member partition offset reply with
      | (g, Ok d) => (g, wire ++ map (pair member) (frames_of d))
      | (g, _) => (g, wire)
      end
  | CReport partition report => (fst (client_on_follower_report g partition report), wire)
  | CFlush member => let '(g, frames) := drain_released g member in (g, wire ++ map (fun b => (member, FAck b)) frames)
  | CDisconnect member => (drop_connection g member, wire)
  end.

(** ** Invariants *)

(** What a token stands for: the connection, the partition, the offset and the reply. *)
Abbreviation Ticket := (Z * Z * Z * list Z)%type.
Definition ticket_entry (k : Ticket) : Z * list Z := let '(m, _, _, b) := k in (m, b).
Definition ticket_op (k : Ticket) : ClientOp := let '(m, p, off, b) := k in CProduced m p off b.

Definition op_ok (o : ClientOp) : Prop := match o with CProduced _ _ offset _ => 0 <= offset < u64_max | _ => True end.
Definition stays (o : ClientOp) : bool := match o with CDisconnect _ => false | _ => true end.

Record part_ok (M : gmap Z Ticket) (p : Z) (isr : IsrTracker) (gate : QuorumAckGate Z) : Prop := {
  po_min : (1 <= min_isr (it_config isr))%nat;
  po_lag : 0 <= max_lag_records (it_config isr);
  po_released : forall off, 0 <= off < g_released_through gate -> (min_isr (it_config isr) <= replicas_past isr off)%nat;
  po_pending : forall off t, (off, t) ∈ g_pending gate ->
    0 <= off < it_leader_fsynced isr /\ exists m b, M !! t = Some (m, p, off, b);
  po_nodup : NoDup (g_pending gate).*2
}.

(** The oldest parked acknowledgement cannot go. *)
Definition blocked (isr : IsrTracker) (gate : QuorumAckGate Z) : Prop :=
  match g_pending gate with
  | [] => True
  | (off, _) :: _ =>
      (isr_size isr < min_isr (it_config isr))%nat \/
      ((replicas_past isr off < min_isr (it_config isr))%nat /\ g_released_through gate <= off)
  end.

Definition committed (c : DataPlaneController) (p off : Z) : Prop :=
  forall plane epochs isr gate, dc_roles c !! p = Some (RLeader plane epochs isr gate) ->
    (min_isr (it_config isr) <= replicas_past isr off)%nat.

(** [B] holds of the partitions whose front is known to be blocked. *)
Record seam_ok (M : gmap Z Ticket) (B : Z -> Prop) (s : ProduceAckSeam) : Prop := {
  so_parts : forall p plane epochs isr gate, dc_roles (sm_controller s) !! p = Some (RLeader plane epochs isr gate) -> part_ok M p isr gate;
  so_blocked : forall p plane epochs isr gate, dc_roles (sm_controller s) !! p = Some (RLeader plane epochs isr gate) -> B p -> blocked isr gate;
  so_parked : sm_parked s = ticket_entry <$> M;
  so_tokens : forall t, is_Some (M !! t) -> 0 <= t < sm_next_token s
}.

(** The roles keep their partitions and the frontiers of a leader only grow. *)
Definition grows (c c' : DataPlaneController) : Prop :=
  forall p plane epochs isr' gate', dc_roles c' !! p = Some (RLeader plane epochs isr' gate') ->
    exists isr gate, dc_roles c !! p = Some (RLeader plane epochs isr gate) /\ frontiers_le isr isr'.

#[local] Instance grows_preorder : PreOrder grows.
Proof.
  split; [intros c p plane epochs isr gate H; by exists isr, gate|].
  intros c1 c2 c3 H1 H2 p plane epochs isr gate H. destruct (H2 _ _ _ _ _ H) as (i & g & Hg & ?).
  destruct (H1 _ _ _ _ _ Hg) as (i' & g' & ? & ?). exists i', g'. split; [done|]. by etrans.
Qed.

Lemma committed_grows c c' p off : grows c c' -> committed c p off -> committed c' p off.
Proof.
  intros Hg Hc plane epochs isr gate H. destruct (Hg _ _ _ _ _ H) as (isr0 & gate0 & H0 & Hle).
  pose proof (replicas_past_le _ _ off Hle). destruct Hle as [-> _]. specialize (Hc _ _ _ _ H0). lia.
Qed.

Lemma put_grows c p plane epochs isr gate isr' gate' :
  dc_roles c !! p = Some (RLeader plane epochs isr gate) -> frontiers_le isr isr' ->
  grows c (put_role c p (RLeader plane epochs isr' gate')).
Proof.
  intros H Hle p' pl ep i g. cbn. destruct (decide (p' = p)) as [->|].
  - rewrite lookup_insert_eq. intros [= <- <- <- <-]. by exists isr, gate.
  - rewrite lookup_insert_ne by done. intros H'. by exists i, g.
Qed.

(** Replacing the role of a leader keeps the invariant if the new one is fine. *)
Lemma put_seam_ok M M' (B B' : Z -> Prop) s p plane epochs isr gate nt parked :
  seam_ok M B s ->
  part_ok M' p isr gate -> (B' p -> blocked isr gate) -> (forall p', p' <> p -> B' p' -> B p') ->
  (forall p' off t m b, p' <> p -> M !! t = Some (m, p', off, b) -> M' !! t = Some (m, p', off, b)) ->
  parked = ticket_entry <$> M' -> (forall t, is_Some (M' !! t) -> 0 <= t < nt) ->
  seam_ok M' B' (mk_seam (put_role (sm_controller s) p (RLeader plane epochs isr gate)) nt parked).
Proof.
  intros [Hp Hb _ _] Hok Hbl HB HM -> Ht. split; cbn; [| |done|done].
  - intros p' pl ep i g. destruct (decide (p' = p)) as [->|]; [rewrite lookup_insert_eq; by intros [= <- <- <- <-]|].
    rewrite lookup_insert_ne by done. intros H. destruct (Hp _ _ _ _ _ H) as [? ? ? Hpe ?]. split; try done.
    intros off t Hin. destruct (Hpe _ _ Hin) as [? (m & b & Hm)]. eauto 6.
  - intros p' pl ep i g. destruct (decide (p' = p)) as [->|]; [rewrite lookup_insert_eq; by intros [= <- <- <- <-]|].
    rewrite lookup_insert_ne by done. eauto.
Qed.

(** ** Counting the answers owed to a connection *)

Definition owed (parked : gmap Z (Z * list Z)) (m : Z) : nat := size (filter (fun e => e.2.1 = m) parked).
Definition of_member (m : Z) (es : list (Z * list Z)) : nat := length (filter (fun e => e.1 = m) es).

Lemma owed_insert parked t m b x :
  parked !! t = None -> owed (<[t := (m, b)]> parked) x = ((if decide (m = x) then 1 else 0) + owed parked x)%nat.
Proof.
  intros Ht. unfold owed. destruct (decide (m = x)) as [->|Hne].
  - rewrite map_filter_insert_True by done. rewrite map_size_insert_None; [done|]. apply map_lookup_filter_None. by left.
  - rewrite map_filter_insert_False by done. by rewrite delete_id.
Qed.

Lemma owned_bytes_count parked tokens x :
  let '(parked', released) := owned_bytes_for_tokens parked tokens in
  owed parked x = (of_member x released + owed parked' x)%nat.
Proof.
  revert parked. induction tokens as [|t tokens IH]; intros parked; [done|]. cbn [owned_bytes_for_tokens].
  specialize (IH (delete t parked)). destruct (owned_bytes_for_tokens _ _) as [parked' rest].
  destruct (parked !! t) as [[m b]|] eqn:Et; [|by rewrite delete_id in IH].
  assert (Hp : parked = <[t := (m, b)]> (delete t parked)) by (by rewrite insert_delete_eq, insert_id).
  rewrite Hp at 1. rewrite owed_insert by apply lookup_delete_eq. rewrite IH. unfold of_member. rewrite filter_cons. cbn.
  by destruct (decide (m = x)).
Qed.

(** ** Releasing *)

Lemma gate_release M p isr gate :
  part_ok M p isr gate ->
  exists commit gate' front,
    quorum_commit isr = Ok commit /\ release_up_to gate commit = (gate', front.*2) /\
    g_pending gate = front ++ g_pending gate' /\ part_ok M p isr gate' /\ blocked isr gate' /\
    (forall off t, (off, t) ∈ front -> (min_isr (it_config isr) <= replicas_past isr off)%nat) /\
    (blocked isr gate -> front = []).
Proof.
  intros [Hm Hl Hr Hp Hn]. pose proof (quorum_commit_spec isr Hm Hl) as Hq.
  destruct (quorum_commit isr) as [[c|]|[]|]; [| |done].
  2: { exists None, gate, []. split_and!; try done.
       - unfold blocked. destruct (g_pending gate) as [|[off t] ?]; [done|by left].
       - intros off t Hin. by apply not_elem_of_nil in Hin. }
  destruct Hq as [Hsz Hq]. set (c' := Z.max c (g_released_through gate)).
  pose proof (drain_front_spec c' (g_pending gate)) as Hd. destruct (drain_front c' _) as [rel rest] eqn:Ed.
  destruct Hd as (front & Hfr & -> & Hlt & Hrest). rewrite Forall_forall in Hlt.
  assert (Hc' : forall off, 0 <= off < c' -> (min_isr (it_config isr) <= replicas_past isr off)%nat).
  { intros off Ho. destruct (decide (off < c)); [by apply Hq|apply Hr; lia]. }
  exists (Some c), (mk_gate rest c' (g_cap gate)), front. cbn. unfold release_up_to. fold c'. rewrite Ed. split_and!; cbn; try done.
  - split; cbn; try done; [|rewrite Hfr, fmap_app in Hn; by apply NoDup_app in Hn as (_ & _ & ?)].
    intros off t Hin. apply (Hp off t). rewrite Hfr. apply elem_of_app. by right.
  - unfold blocked. cbn. destruct rest as [|[off t] rest]; [done|]. right. cbn in Hrest. split; [|done].
    apply Nat.nle_gt. intros Hge. apply Hq in Hge. lia.
  - intros off t Hin. apply Hc'. specialize (Hlt _ Hin). cbn in Hlt. split; [|done]. apply (Hp off t). rewrite Hfr. apply elem_of_app. by left.
  - unfold blocked. rewrite Hfr. destruct front as [|[off t] front]; [done|]. cbn [app]. intros Hb.
    specialize (Hlt (off, t) (list_elem_of_here _ _)). cbn in Hlt. unfold c' in Hlt. exfalso. destruct Hb as [|[Hb1 Hb2]]; [lia|].
    assert (off < c) as Hoc by lia. apply Hq in Hoc. lia.
Qed.

Definition forget (M : gmap Z Ticket) (tokens : list Z) : gmap Z Ticket := foldl (fun M t => delete t M) M tokens.

Lemma forget_lookup M tokens t : forget M tokens !! t = if decide (t ∈ tokens) then None else M !! t.
Proof.
  unfold forget. revert M. induction tokens as [|t' tokens IH]; intros M; [by destruct (decide _) as [H%not_elem_of_nil|]|].
  cbn [foldl]. rewrite IH. destruct (decide (t = t')) as [->|Hne].
  - rewrite lookup_delete_eq. destruct (decide (t' ∈ t' :: tokens)) as [|[]]; [by destruct (decide _)|apply list_elem_of_here].
  - rewrite lookup_delete_ne by done. destruct (decide (t ∈ tokens)), (decide (t ∈ t' :: tokens)) as [|Hn]; try done.
    + destruct Hn. by apply elem_of_cons; right.
    + exfalso. match goal with H : t ∈ t' :: tokens |- _ => apply elem_of_cons in H as [?|?]; done end.
Qed.

Lemma take_tokens M p (front : list (Z * Z)) :
  (forall off t, (off, t) ∈ front -> exists m b, M !! t = Some (m, p, off, b)) -> NoDup front.*2 ->
  exists ks, owned_bytes_for_tokens (ticket_entry <$> M) front.*2 = (ticket_entry <$> forget M front.*2, ticket_entry <$> ks) /\
    Forall2 (fun e k => exists m b, k = (m, p, e.1, b) /\ M !! e.2 = Some k) front ks.
Proof.
  revert M. induction front as [|[off t] front IH]; intros M HM Hn; [by exists []|]. cbn in Hn. apply NoDup_cons in Hn as [Ht Hn].
  destruct (HM off t) as (m & b & Hk); [apply list_elem_of_here|].
  destruct (IH (delete t M)) as (ks & Hks & Hall); [|done|].
  { intros off' t' Hin. rewrite lookup_delete_ne; [apply HM; by apply elem_of_cons; right|].
    intros ->. apply Ht. by apply (list_elem_of_fmap_2 snd) in Hin. }
  exists ((m, p, off, b) :: ks). change ((off, t) :: front).*2 with (t :: front.*2). cbn [owned_bytes_for_tokens]. rewrite <- fmap_delete, Hks. rewrite (lookup_fmap ticket_entry M t), Hk. split; [done|]. constructor; [by exists m, b|].
  eapply Forall2_impl; [exact Hall|]. intros e k (m' & b' & -> & Hd). exists m', b'. split; [done|]. by apply lookup_delete_Some in Hd as [_ ?].
Qed.

(** The release of a partition through the seam. *)
Lemma release_seam M B s p plane epochs isr gate :
  seam_ok M B s -> part_ok M p isr gate ->
  exists gate' front ks,
    released_bytes s (release_role (sm_controller s) p plane epochs isr gate) =
      (mk_seam (put_role (sm_controller s) p (RLeader plane epochs isr gate')) (sm_next_token s) (ticket_entry <$> forget M front.*2),
       Ok (ticket_entry <$> ks)) /\
    seam_ok (forget M front.*2) (fun p' => p' = p \/ B p')
      (mk_seam (put_role (sm_controller s) p (RLeader plane epochs isr gate')) (sm_next_token s) (ticket_entry <$> forget M front.*2)) /\
    g_pending gate = front ++ g_pending gate' /\
    Forall2 (fun e k => exists m b, k = (m, p, e.1, b) /\ M !! e.2 = Some k) front ks /\
    (forall off t, (off, t) ∈ front -> (min_isr (it_config isr) <= replicas_past isr off)%nat) /\
    (blocked isr gate -> front = []) /\
    forall x, owed (sm_parked s) x = (of_member x (ticket_entry <$> ks) + owed (ticket_entry <$> forget M front.*2) x)%nat.
Proof.
  intros Hs Hok. destruct (gate_release M p isr gate Hok) as (commit & gate' & front & Hq & Hrel & Hpe & Hok' & Hb & Hfr & Hnil).
  destruct (take_tokens M p front) as (ks & Hks & Hall).
  { intros off t Hin. apply (po_pending _ _ _ _ Hok). rewrite Hpe. apply elem_of_app. by left. }
  { pose proof (po_nodup _ _ _ _ Hok) as Hn. rewrite Hpe, fmap_app in Hn. by apply NoDup_app in Hn as (? & _ & _). }
  exists gate', front, ks. unfold release_role, released_bytes. rewrite Hq, Hrel, (so_parked _ _ _ Hs), Hks. split; [done|].
  split; [|split_and!; try done; intros x; pose proof (owned_bytes_count (ticket_entry <$> M) front.*2 x) as Hc; by rewrite Hks in Hc].
  eapply put_seam_ok; [exact Hs| |done|naive_solver| |done|].
  - destruct Hok' as [? ? ? Hpe' ?]. split; try done. intros off t Hin. destruct (Hpe' off t Hin) as [? (m & b & Hm)]. split; [done|].
    exists m, b. rewrite forget_lookup. destruct (decide _) as [Hd|]; [|done]. exfalso.
    pose proof (po_nodup _ _ _ _ Hok) as Hn. rewrite Hpe, fmap_app in Hn. apply NoDup_app in Hn as (_ & Hn & _).
    apply (Hn t Hd). by apply (list_elem_of_fmap_2 snd) in Hin.
  - intros p' off t m b Hne HM. rewrite forget_lookup. destruct (decide _) as [Hd|]; [|done]. exfalso.
    apply list_elem_of_fmap in Hd as ([off' t'] & -> & Hin). destruct (po_pending _ _ _ _ Hok off' t') as [_ (m' & b' & HM')];
      [rewrite Hpe; apply elem_of_app; by left|]. cbn in HM. congruence.
  - intros t Ht. rewrite forget_lookup in Ht. destruct (decide _) in Ht; [by destruct Ht|]. by apply (so_tokens _ _ _ Hs).
Qed.

(** ** The leader's own sync *)

Lemma observe_frontiers isr n : frontiers_le isr (observe_leader_fsync isr n).
Proof. split_and!; cbn; [done|lia|eauto using Z.le_refl]. Qed.

Lemma report_frontiers isr r : frontiers_le isr (fst (observe_follower_report isr r)).
Proof.
  unfold observe_follower_report. destruct (_ !! _) as [fr|] eqn:E; [|done]. split_and!; cbn; [done|lia|]. intros id f Hf.
  destruct (decide (id = ar_follower_id r)) as [->|]; [|rewrite lookup_insert_ne by done; eauto using Z.le_refl].
  rewrite lookup_insert_eq. simplify_eq. eexists. split; [done|lia].
Qed.

Lemma part_ok_grows M p isr isr' gate : frontiers_le isr isr' -> part_ok M p isr gate -> part_ok M p isr' gate.
Proof.
  intros Hle [Hm Hl Hr Hp Hn]. pose proof Hle as (Hc & Hf & _). split; rewrite ?Hc; try done.
  - intros off Ho. pose proof (replicas_past_le _ _ off Hle). specialize (Hr off Ho). lia.
  - intros off t Hin. destruct (Hp off t Hin) as [? ?]. split; [lia|done].
Qed.

Lemma observe_isr_size isr n : (isr_size (observe_leader_fsync isr n) <= isr_size isr)%nat.
Proof.
  unfold isr_size, in_sync_frontiers, follower_frontiers. cbn [observe_leader_fsync it_followers]. apply le_n_S.
  induction (btree_list _).*2 as [|f fs IH]; [done|]. rewrite !filter_cons.
  assert (classify (observe_leader_fsync isr n) f = InSync -> classify isr f = InSync).
  { unfold classify. cbn. destruct (_ =? 0); [done|]. destruct (_ <? _) eqn:E1; [done|]. destruct (_ <? sat_sub (it_leader_fsynced isr) f) eqn:E2; [|done].
    bool_to_prop. exfalso. ulia. }
  repeat case_decide; cbn; try lia. naive_solver.
Qed.

Lemma observe_blocked M p isr gate n : part_ok M p isr gate -> blocked isr gate -> blocked (observe_leader_fsync isr n) gate.
Proof.
  intros Hok. unfold blocked. destruct (g_pending gate) as [|[off t] rest] eqn:Ep; [done|]. pose proof (observe_isr_size isr n).
  destruct (po_pending _ _ _ _ Hok off t) as [Ho _]; [rewrite Ep; apply list_elem_of_here|].
  assert (replicas_past (observe_leader_fsync isr n) off = replicas_past isr off) as ->.
  { unfold replicas_past, follower_frontiers. rewrite !count_past_cons. cbn [observe_leader_fsync it_leader_fsynced it_followers].
    by rewrite !decide_True by lia. }
  intros [?|?]; [left|by right]. change (it_config (observe_leader_fsync isr n)) with (it_config isr). lia.
Qed.

(** ** The operations of the seam *)

Lemma seam_ok_mono M (B B' : Z -> Prop) s : (forall p, B' p -> B p) -> seam_ok M B s -> seam_ok M B' s.
Proof. intros HB [? Hb ? ?]. split; try done. eauto. Qed.

Lemma put_put c p r r' : put_role (put_role c p r) p r' = put_role c p r'.
Proof. unfold put_role. cbn. by rewrite insert_insert_eq. Qed.

Lemma park_part_ok M p isr gate off t m b :
  part_ok M p isr gate -> M !! t = None -> 0 <= off < it_leader_fsynced isr ->
  part_ok (<[t := (m, p, off, b)]> M) p isr (mk_gate (g_pending gate ++ [(off, t)]) (g_released_through gate) (g_cap gate)).
Proof.
  intros [Hm Hl Hr Hp Hn] Ht Ho. split; cbn; try done.
  - intros off' t' [Hin|Hin]%elem_of_app.
    + destruct (Hp off' t' Hin) as [? (m' & b' & HM)]. split; [done|]. exists m', b'. rewrite lookup_insert_ne; [done|congruence].
    + apply list_elem_of_singleton in Hin as [= -> ->]. split; [done|]. exists m, b. by rewrite lookup_insert_eq.
  - rewrite fmap_app. apply NoDup_app. split_and!; [done| |apply NoDup_singleton]. cbn. intros t' Hin Hin'.
    apply list_elem_of_singleton in Hin' as ->. apply list_elem_of_fmap in Hin as ([off' t''] & -> & Hin).
    destruct (Hp _ _ Hin) as [_ (? & ? & ?)]. cbn in Ht. congruence.
Qed.

Lemma seam_observe M B s p plane epochs isr gate n :
  seam_ok M B s -> dc_roles (sm_controller s) !! p = Some (RLeader plane epochs isr gate) ->
  seam_ok M B (mk_seam (put_role (sm_controller s) p (RLeader plane epochs (observe_leader_fsync isr n) gate)) (sm_next_token s) (sm_parked s)).
Proof.
  intros Hs Hp. pose proof (so_parts _ _ _ Hs _ _ _ _ _ Hp) as Hok.
  eapply put_seam_ok; [exact Hs| | |done|done|exact (so_parked _ _ _ Hs)|exact (so_tokens _ _ _ Hs)].
  - eapply part_ok_grows; [apply observe_frontiers|done].
  - intros HB. eapply observe_blocked; [done|]. by eapply so_blocked.
Qed.

Definition park_at (gate : QuorumAckGate Z) (off t : Z) : QuorumAckGate Z :=
  mk_gate (g_pending gate ++ [(off, t)]) (g_released_through gate) (g_cap gate).

Lemma seam_park M B s m p off b plane epochs isr gate :
  let t := sm_next_token s in
  seam_ok M B s -> 0 <= t -> dc_roles (sm_controller s) !! p = Some (RLeader plane epochs isr gate) -> 0 <= off < it_leader_fsynced isr ->
  M !! t = None /\ part_ok (<[t := (m, p, off, b)]> M) p isr (park_at gate off t) /\
  seam_ok (<[t := (m, p, off, b)]> M) (fun p' => p' <> p /\ B p')
    (mk_seam (put_role (sm_controller s) p (RLeader plane epochs isr (park_at gate off t))) (t + 1) (<[t := (m, b)]> (sm_parked s))).
Proof.
  intros t Hs Ht Hp Ho.
  assert (HMt : M !! t = None) by (destruct (M !! t) eqn:E; [destruct (so_tokens _ _ _ Hs t); [by eexists|lia]|done]).
  assert (Hok2 : part_ok (<[t := (m, p, off, b)]> M) p isr (park_at gate off t)) by (apply park_part_ok; [by eapply so_parts|done|done]).
  split_and!; [done|done|]. eapply put_seam_ok; [exact Hs|done|naive_solver|naive_solver| | |].
  - intros. rewrite lookup_insert_ne; [done|congruence].
  - by rewrite fmap_insert, (so_parked _ _ _ Hs).
  - intros t' Ht'. destruct (decide (t' = t)) as [->|]; [lia|]. rewrite lookup_insert_ne in Ht' by done.
    apply (so_tokens _ _ _ Hs) in Ht'. fold t in Ht'. lia.
Qed.

(** An acknowledgement is parked, and what the quorum already covers goes out. *)
Lemma seam_produce M B s m level p off b plane epochs isr gate :
  ack_implies_quorum_fsync level = true -> seam_ok M B s -> 0 <= sm_next_token s < u64_max ->
  dc_roles (sm_controller s) !! p = Some (RLeader plane epochs isr gate) -> 0 <= off < it_leader_fsynced isr ->
  on_local_fsynced_ack_owned s m level p off b = (s, Ok Rejected) \/
  exists s' d M' ks, on_local_fsynced_ack_owned s m level p off b = (s', Ok d) /\ seam_ok M' B s' /\
    grows (sm_controller s) (sm_controller s') /\ sm_next_token s' = sm_next_token s + 1 /\
    (forall t k, M' !! t = Some k -> k = (m, p, off, b) \/ M !! t = Some k) /\
    frames_of d = map FAck (ticket_entry <$> ks).*2 /\
    (forall k, k ∈ ks -> exists m' off' b', k = (m', p, off', b') /\ (k = (m, p, off, b) \/ exists t, M !! t = Some k) /\ committed (sm_controller s') p off') /\
    (B p -> ks = [] \/ ks = [(m, p, off, b)]) /\
    (forall x, ((if decide (m = x) then 1 else 0) + owed (sm_parked s) x = of_member x (ticket_entry <$> ks) + owed (sm_parked s') x)%nat).
Proof.
  intros Hl Hs Ht Hp Ho. unfold on_local_fsynced_ack_owned, is_leader, park_produce_ack. rewrite Hl, Hp. cbn [negb orb].
  unfold park. destruct (negb (g_cap gate =? 0)%nat && _).
  { left. destruct s as [[nd roles] nt pk]. unfold put_role. cbn in *. by rewrite insert_id. }
  right. destruct (seam_park M B s m p off b plane epochs isr gate Hs ltac:(lia) Hp Ho) as (HMt & Hok2 & Hs2).
  change (mk_gate (g_pending gate ++ _) _ _) with (park_at gate off (sm_next_token s)).
  rewrite (Z.mod_small (sm_next_token s + 1)) by ulia. set (t := sm_next_token s) in *.
  match type of Hs2 with seam_ok ?M2' _ ?s2' => set (M2 := M2') in *; set (s2 := s2') in * end.
  destruct (release_seam M2 _ s2 p plane epochs isr _ Hs2 Hok2) as (gate' & front & ks & Hrel & Hs' & Hpe & Hks & Hfr & Hnil & Hcnt).
  assert (Htake : take_released_owned s2 p = released_bytes s2 (release_role (sm_controller s2) p plane epochs isr (park_at gate off t)))
    by (unfold take_released_owned, release_quorum_acked; cbn; by rewrite lookup_insert_eq).
  rewrite Htake, Hrel. clear Htake.
  match goal with |- context [mk_seam ?c ?n ?pk] => set (s' := mk_seam c n pk) in * end.
  exists s', (match ks with [] => Parked | _ => WriteNowBatch (ticket_entry <$> ks).*2 end), (forget M2 front.*2), ks.
  split_and!.
  - by destruct ks.
  - eapply seam_ok_mono; [|exact Hs']. intros p' HB. destruct (decide (p' = p)); auto.
  - unfold s'. cbn [sm_controller s2]. rewrite put_put. by eapply put_grows.
  - done.
  - intros t' k. rewrite forget_lookup. destruct (decide _); [done|]. unfold M2. destruct (decide (t' = t)) as [->|];
      [rewrite lookup_insert_eq; intros [= ->]; by left|rewrite lookup_insert_ne by done; by right].
  - by destruct ks.
  - intros k Hk. apply list_elem_of_lookup in Hk as [i Hi]. destruct (Forall2_lookup_r _ _ _ _ _ Hks Hi) as ([off' t'] & Hf & m' & b' & -> & HM).
    exists m', off', b'. split; [done|]. split.
    + unfold M2 in HM. cbn in HM. destruct (decide (t' = t)) as [->|]; [rewrite lookup_insert_eq in HM; left; by injection HM as <- <- <-|].
      rewrite lookup_insert_ne in HM by done. right. by exists t'.
    + unfold s', committed. cbn. intros pl ep i' g. rewrite lookup_insert_eq. intros [= <- <- <- <-]. eapply Hfr. by eapply list_elem_of_lookup_2.
  - intros HB. pose proof (so_blocked _ _ _ Hs _ _ _ _ _ Hp HB) as Hb. destruct (g_pending gate) as [|e pe] eqn:Eg.
    + destruct front as [|e1 front]; [apply Forall2_nil_inv_l in Hks; by left|]. right.
      cbn in Hpe. rewrite Eg in Hpe. cbn in Hpe. injection Hpe as <- Hpe.
      destruct front; [|done]. apply Forall2_cons_inv_l in Hks as (k & ks' & (m' & b' & -> & HM) & Hks & ->). apply Forall2_nil_inv_l in Hks as ->.
      cbn in HM. unfold M2 in HM. rewrite lookup_insert_eq in HM. injection HM as <- <-. done.
    + left. assert (front = []) as -> by (apply Hnil; unfold blocked in *; cbn; by rewrite Eg in *). by apply Forall2_nil_inv_l in Hks.
  - intros x. rewrite <- (owed_insert _ t m b) by (rewrite (so_parked _ _ _ Hs), lookup_fmap, HMt; done).
    apply Hcnt.
Qed.

(** A report moves a frontier and lets the covered acknowledgements out. *)
Lemma seam_report M B s p r :
  seam_ok M B s ->
  (exists e, on_follower_report_owned s p r = (s, Err e)) \/
  exists s' M' ks, on_follower_report_owned s p r = (s', Ok (ticket_entry <$> ks)) /\ seam_ok M' B s' /\
    grows (sm_controller s) (sm_controller s') /\ sm_next_token s' = sm_next_token s /\ M' ⊆ M /\
    (forall k, k ∈ ks -> exists m off b, k = (m, p, off, b) /\ (exists t, M !! t = Some k) /\ committed (sm_controller s') p off) /\
    (forall x, owed (sm_parked s) x = of_member x (ticket_entry <$> ks) + owed (sm_parked s') x)%nat.
Proof.
  intros Hs. unfold on_follower_report_owned, apply_follower_report.
  destruct (dc_roles (sm_controller s) !! p) as [[plane epochs isr gate|f]|] eqn:Hp.
  2, 3: left; eexists; by destruct s. right. pose proof (so_parts _ _ _ Hs _ _ _ _ _ Hp) as Hok.
  apply (part_ok_grows _ _ _ _ _ (report_frontiers isr r)) in Hok.
  destruct (release_seam M B s p plane epochs _ gate Hs Hok) as (gate' & front & ks & Hrel & Hs' & _ & Hks & Hfr & _ & Hcnt).
  do 3 eexists. split; [exact Hrel|]. split_and!.
  - eapply seam_ok_mono; [|exact Hs']. by right.
  - by eapply put_grows, report_frontiers.
  - done.
  - apply map_subseteq_spec. intros t k. rewrite forget_lookup. by destruct (decide _).
  - intros k Hk. apply list_elem_of_lookup in Hk as [i Hi]. destruct (Forall2_lookup_r _ _ _ _ _ Hks Hi) as ([off' t'] & Hf & m' & b' & -> & HM).
    exists m', off', b'. split; [done|]. split; [by exists t'|]. intros pl ep i' g. cbn. rewrite lookup_insert_eq. intros [= <- <- <- <-].
    eapply Hfr. by eapply list_elem_of_lookup_2.
  - exact Hcnt.
Qed.

(** A disconnect forgets the tokens of its connection, and a blocked front with them. *)
Lemma seam_purge M B s m :
  seam_ok M B s ->
  exists M', seam_ok M' (fun _ => False) (fst (purge_owner s m)) /\ M' ⊆ M /\
    grows (sm_controller s) (sm_controller (fst (purge_owner s m))) /\ sm_next_token (fst (purge_owner s m)) = sm_next_token s.
Proof.
  intros Hs. unfold purge_owner. set (dead := dom _). destruct (decide (dead = ∅)) as [|Hne].
  { exists M. split_and!; try done. by eapply seam_ok_mono; [|exact Hs]. }
  cbn [fst sm_controller sm_next_token]. unfold purge_parked_tokens. rewrite decide_False by done.
  exists (filter (fun kv => kv.1 ∉ dead) M). split_and!; [|apply map_filter_subseteq| |done].
  - split; cbn; [|done| |].
    + intros p pl ep i g. rewrite lookup_fmap. destruct (dc_roles (sm_controller s) !! p) as [[plane epochs isr gate|f]|] eqn:Hp; [|done|done].
      intros [= <- <- <- <-]. destruct (so_parts _ _ _ Hs _ _ _ _ _ Hp) as [? ? ? Hpe ?]. split; cbn; try done.
      * intros off t [Hd Hin]%list_elem_of_filter. destruct (Hpe off t Hin) as [? (m' & b' & HM)]. split; [done|]. exists m', b'.
        apply map_lookup_filter_Some. split; [done|]. cbn in *. by apply bool_decide_eq_false in Hd.
      * eapply sublist_NoDup; [eassumption|]. apply fmap_sublist, sublist_filter.
    + rewrite (so_parked _ _ _ Hs), map_filter_fmap. done.
    + intros t [k Hk]. apply map_lookup_filter_Some in Hk as [Hk _]. apply (so_tokens _ _ _ Hs). by eexists.
  - intros p pl ep i g. cbn. rewrite lookup_fmap. destruct (dc_roles (sm_controller s) !! p) as [[plane epochs isr gate|f]|]; [|done|done].
    intros [= <- <- <- <-]. by exists isr, gate.
Qed.

(** ** Runs *)

Definition produced_by (m : Z) (es : list ClientOp) : nat :=
  length (filter (fun o => match o with CProduced m' _ _ _ => m' =? m | _ => false end = true) es).
Definition written_to (m : Z) (wire : list (Z * Frame)) : nat := length (filter (fun w => w.1 = m) wire).
Definition waiting (g : ClientAckGate) (m : Z) : nat := length (default [] (cg_outbox g !! m)).

(** [b] answers a produce of [m], and what it acknowledges is on a quorum. *)
Definition earned (es : list ClientOp) (g : ClientAckGate) (m : Z) (b : list Z) : Prop :=
  exists p off, CProduced m p off b ∈ es /\
    (ack_implies_quorum_fsync (cg_level g) = true -> committed (sm_controller (cg_seam g)) p off).

Record run_ok (es : list ClientOp) (st : ClientAckGate * list (Z * Frame)) : Prop := {
  ro_seam : exists M, seam_ok M (fun _ => forallb stays es = true) (cg_seam st.1) /\ forall t k, M !! t = Some k -> ticket_op k ∈ es;
  ro_token : 0 <= sm_next_token (cg_seam st.1) <= Z.of_nat (length es);
  ro_outbox : forall m l b, cg_outbox st.1 !! m = Some l -> b ∈ l -> earned es st.1 m b;
  ro_wire : forall m b, (m, FAck b) ∈ st.2 -> exists m', earned es st.1 m' b /\ (forallb stays es = true -> m' = m);
  ro_count : forallb stays es = true -> forall m,
    produced_by m es = (written_to m st.2 + waiting st.1 m + owed (sm_parked (cg_seam st.1)) m)%nat
}.

(** Before any operation: nothing is parked and no gate has released. *)
Definition gate_start (g : ClientAckGate) : Prop :=
  sm_parked (cg_seam g) = ∅ /\ sm_next_token (cg_seam g) = 0 /\ cg_outbox g = ∅ /\
  forall p plane epochs isr gate, dc_roles (sm_controller (cg_seam g)) !! p = Some (RLeader plane epochs isr gate) ->
    g_pending gate = [] /\ g_released_through gate = 0 /\ (1 <= min_isr (it_config isr))%nat /\ 0 <= max_lag_records (it_config isr).

Lemma run_ok_start g : gate_start g -> run_ok [] (g, []).
Proof.
  intros (Hp & Ht & Ho & Hr). split; cbn.
  - exists ∅. split; [|done]. split; [| |by rewrite Hp, fmap_empty|by intros t [k Hk]].
    + intros p pl ep i g' H. destruct (Hr _ _ _ _ _ H) as (Hpe & Hrel & ? & ?). split; try done; rewrite ?Hpe, ?Hrel; [lia| |constructor].
      intros off t Hin. by apply not_elem_of_nil in Hin.
    + intros p pl ep i g' H _. destruct (Hr _ _ _ _ _ H) as (Hpe & _). unfold blocked. by rewrite Hpe.
  - lia.
  - intros m l b. rewrite Ho. done.
  - intros m b Hin. by apply not_elem_of_nil in Hin.
  - intros _ m. unfold waiting, owed. rewrite Ho, Hp. done.
Qed.

Lemma earned_grows es o g g' m b :
  cg_level g' = cg_level g -> grows (sm_controller (cg_seam g)) (sm_controller (cg_seam g')) -> earned es g m b -> earned (es ++ [o]) g' m b.
Proof.
  intros Hl Hg (p & off & Hin & Hc). exists p, off. split; [apply elem_of_app; by left|]. rewrite Hl. intros H. eapply committed_grows; eauto.
Qed.

Lemma produced_by_app m es o : produced_by m (es ++ [o]) = (produced_by m es + produced_by m [o])%nat.
Proof. unfold produced_by. by rewrite filter_app, length_app. Qed.
Lemma written_to_app m w w' : written_to m (w ++ w') = (written_to m w + written_to m w')%nat.
Proof. unfold written_to. by rewrite filter_app, length_app. Qed.
Lemma written_to_own m m' {A} (f : A -> Frame) l :
  written_to m (map (fun x => (m', f x)) l) = if decide (m' = m) then length l else 0%nat.
Proof.
  unfold written_to. induction l as [|x l IH]; cbn [map]; [by destruct (decide _)|]. rewrite filter_cons. cbn [fst].
  destruct (decide (m' = m)); cbn [length]; by rewrite IH.
Qed.
Lemma written_to_one m m' f : written_to m [(m', f)] = if decide (m' = m) then 1%nat else 0%nat.
Proof. apply (written_to_own m m' (fun _ : unit => f) [tt]). Qed.
Lemma stays_app es o : forallb stays (es ++ [o]) = true <-> forallb stays es = true /\ stays o = true.
Proof. rewrite forallb_app. cbn. rewrite andb_true_r. apply andb_true_iff. Qed.

Lemma ticket_kept es o (M M' : gmap Z Ticket) :
  M' ⊆ M -> (forall t k, M !! t = Some k -> ticket_op k ∈ es) -> forall t k, M' !! t = Some k -> ticket_op k ∈ es ++ [o].
Proof. intros Hs HM t k Hk. apply elem_of_app. left. eapply HM, lookup_weaken; eauto. Qed.

Lemma elem_of_deposits m l b outbox es :
  foldl deposit outbox es !! m = Some l -> b ∈ l -> (exists l0, outbox !! m = Some l0 /\ b ∈ l0) \/ (m, b) ∈ es.
Proof.
  revert outbox. induction es as [|[m' b'] es IH]; intros outbox; [by left; eauto|]. cbn [foldl]. intros Hl Hb.
  destruct (IH _ Hl Hb) as [(l0 & H0 & Hin)|Hin]; [|right; by apply elem_of_cons; right].
  unfold deposit in H0. cbn in H0. destruct (decide (m' = m)) as [->|]; [|rewrite lookup_insert_ne in H0 by done; left; eauto].
  rewrite lookup_insert_eq in H0. injection H0 as <-. apply elem_of_app in Hin as [Hin|Hin].
  - left. destruct (outbox !! m) as [l1|]; [by exists l1|by apply not_elem_of_nil in Hin].
  - right. apply list_elem_of_singleton in Hin as ->. apply list_elem_of_here.
Qed.

Lemma waiting_deposits m outbox es : length (default [] (foldl deposit outbox es !! m)) = (length (default [] (outbox !! m)) + of_member m es)%nat.
Proof.
  revert outbox. induction es as [|[m' b'] es IH]; intros outbox; [cbn; lia|]. cbn [foldl]. rewrite IH. unfold deposit, of_member. cbn [fst snd].
  rewrite filter_cons. cbn [fst]. destruct (decide (m' = m)) as [->|].
  - rewrite lookup_insert_eq. cbn [default from_option id length]. rewrite length_app. cbn. lia.
  - by rewrite lookup_insert_ne.
Qed.

Lemma produced_by_own m p off b x : produced_by x [CProduced m p off b] = if decide (m = x) then 1%nat else 0%nat.
Proof.
  unfold produced_by. rewrite filter_cons. destruct (decide (m = x)) as [->|Hne]; [by rewrite Z.eqb_refl|].
  by rewrite (proj2 (Z.eqb_neq m x) Hne).
Qed.

(** A step keeps the invariant if what it adds to the outbox and to the wire is earned and counted. *)
Lemma run_ok_step es o g wire g' fs :
  run_ok es (g, wire) -> cg_level g' = cg_level g -> grows (sm_controller (cg_seam g)) (sm_controller (cg_seam g')) ->
  (exists M, seam_ok M (fun _ => forallb stays (es ++ [o]) = true) (cg_seam g') /\ forall t k, M !! t = Some k -> ticket_op k ∈ es ++ [o]) ->
  0 <= sm_next_token (cg_seam g') <= sm_next_token (cg_seam g) + 1 ->
  (forall m l b, cg_outbox g' !! m = Some l -> b ∈ l -> (exists l0, cg_outbox g !! m = Some l0 /\ b ∈ l0) \/ earned (es ++ [o]) g' m b) ->
  (forall m b, (m, FAck b) ∈ fs -> exists m', earned (es ++ [o]) g' m' b /\ (forallb stays (es ++ [o]) = true -> m' = m)) ->
  (forallb stays (es ++ [o]) = true -> forall m,
     (produced_by m [o] + waiting g m + owed (sm_parked (cg_seam g)) m = written_to m fs + waiting g' m + owed (sm_parked (cg_seam g')) m)%nat) ->
  run_ok (es ++ [o]) (g', wire ++ fs).
Proof.
  intros [Hs Ht Ho Hw Hc] Hl Hg Hs' Ht' Ho' Hw' Hc'. cbn [fst snd] in *. split; cbn [fst snd]; [done| | | |].
  - rewrite length_app. cbn. lia.
  - intros m l b Hin Hb. destruct (Ho' m l b Hin Hb) as [(l0 & H0 & Hb0)|]; [|done]. eapply earned_grows; [done|done|by eapply Ho].
  - intros m b [Hin|Hin]%elem_of_app; [|by apply Hw']. destruct (Hw m b Hin) as (m' & He & Hr). exists m'.
    split; [by eapply earned_grows|]. by intros [? _]%stays_app; auto.
  - intros H m. specialize (Hc' H m). apply stays_app in H as [H _]. specialize (Hc H m). rewrite produced_by_app, written_to_app. lia.
Qed.

Lemma run_write_now es g wire m p off b :
  run_ok es (g, wire) ->
  (ack_implies_quorum_fsync (cg_level g) = true -> is_leader (sm_controller (cg_seam g)) p = false) ->
  run_ok (es ++ [CProduced m p off b]) (g, wire ++ [(m, FAck b)]).
Proof.
  intros Hrun Hl. pose proof Hrun as [(M & Hs & HM) Ht _ _ _]. apply (run_ok_step _ _ g); try done; [|cbn in Ht; lia| | |].
  - exists M. split; [|by eapply ticket_kept]. eapply seam_ok_mono; [|exact Hs]. by intros _ [? _]%stays_app.
  - eauto.
  - intros m' b' Hin. apply list_elem_of_singleton in Hin as [= -> ->]. exists m. split; [|done]. exists p, off.
    split; [apply elem_of_app; right; apply list_elem_of_here|]. intros H pl ep i g' Hp. specialize (Hl H). unfold is_leader in Hl. by rewrite Hp in Hl.
  - intros _ x. rewrite produced_by_own, written_to_one. lia.
Qed.

Lemma run_produce es g wire m p off b :
  0 <= off < u64_max -> Z.of_nat (length es) < u64_max ->
  run_ok es (g, wire) -> run_ok (es ++ [CProduced m p off b]) (client_step (g, wire) (CProduced m p off b)).
Proof.
  intros Hoff Hlen Hrun. cbn [client_step]. unfold on_local_fsynced_ack.
  destruct (ack_implies_quorum_fsync (cg_level g)) eqn:El; cbn [negb]; [|apply run_write_now; [done|by rewrite El]].
  destruct (is_leader _ p) eqn:Ep; cbn [negb]; [|by apply run_write_now].
  unfold is_leader in Ep. destruct (dc_roles _ !! p) as [[plane epochs isr gate|f]|] eqn:Hp; [|done|done]. clear Ep.
  unfold controller_observe_fsync. rewrite Hp. pose proof Hrun as [(M & Hs & HM) Ht _ _ _]. cbn [fst snd] in *.
  pose proof (seam_observe _ _ _ _ _ _ _ _ (sat_add64 off 1) Hs Hp) as Hs1.
  set (isr1 := observe_leader_fsync isr _) in *. set (s1 := mk_seam _ _ _) in *.
  assert (Hp1 : dc_roles (sm_controller s1) !! p = Some (RLeader plane epochs isr1 gate)) by apply lookup_insert_eq.
  assert (Hg1 : grows (sm_controller (cg_seam g)) (sm_controller s1)) by (by eapply put_grows, observe_frontiers).
  assert (Hst : forall e, forallb stays (es ++ [e]) = true -> forallb stays es = true) by (by intros e [? _]%stays_app).
  destruct (seam_produce M _ s1 m (cg_level g) p off b plane epochs isr1 gate El Hs1) as
    [->|(s' & d & M' & ks & -> & Hs' & Hg & Hnt & HM' & Hd & Hks & Hroute & Hcnt)]; [cbn; lia|exact Hp1|cbn; ulia| |].
  - apply (run_ok_step _ _ g); cbn [fst snd cg_seam cg_outbox cg_level frames_of map]; try done; [|cbn; lia|by eauto| |].
    + exists M. split; [|by eapply ticket_kept]. eapply seam_ok_mono; [|exact Hs1]. by intros _ [? _]%stays_app.
    + intros m' b' Hin. by apply list_elem_of_singleton in Hin.
    + intros _ x. rewrite produced_by_own, written_to_one. unfold waiting. cbn [cg_outbox sm_parked s1]. lia.
  - apply (run_ok_step _ _ g); cbn [fst snd cg_seam cg_outbox cg_level]; try done; [by etrans| |cbn in Hnt; lia|by eauto| |].
    + exists M'. split; [eapply seam_ok_mono; [|exact Hs']; by intros _ [? _]%stays_app|]. intros t k Hk. apply elem_of_app.
      destruct (HM' t k Hk) as [->|Hold]; [right; apply list_elem_of_here|left; eauto].
    + intros m' b' Hin. rewrite Hd, map_map in Hin. apply list_elem_of_fmap in Hin as (b0 & [= -> <-] & Hb). apply list_elem_of_fmap in Hb as ([m1 b1] & Hb1 & Hb).
      apply list_elem_of_fmap in Hb as (k & Hke & Hk). destruct (Hks k Hk) as (m2 & off2 & b2 & -> & Hsrc & Hcom). injection Hke as -> ->. cbn in Hb1. subst b'.
      exists m2. split.
      * exists p, off2. split; [|by intros _]. apply elem_of_app. destruct Hsrc as [[= -> -> ->]|[t Htk]]; [right; apply list_elem_of_here|left; by apply (HM t _ Htk)].
      * intros H. destruct (Hroute (Hst _ H)) as [->| ->]; [by apply not_elem_of_nil in Hk|]. by apply list_elem_of_singleton in Hk as [= -> _ _].
    + intros H x. rewrite produced_by_own, Hd, map_map, written_to_own, !length_fmap.
      specialize (Hcnt x). change (sm_parked s1) with (sm_parked (cg_seam g)) in Hcnt. unfold waiting. cbn [cg_outbox].
      enough (of_member x (ticket_entry <$> ks) = if decide (m = x) then length ks else 0%nat) by lia.
      destruct (Hroute (Hst _ H)) as [->| ->]; [by destruct (decide _)|].
      change (ticket_entry <$> [(m, p, off, b)]) with [(m, b)]. unfold of_member. rewrite filter_cons. cbn [fst]. by destruct (decide (m = x)).
Qed.

Lemma run_report es g wire p r : run_ok es (g, wire) -> run_ok (es ++ [CReport p r]) (client_step (g, wire) (CReport p r)).
Proof.
  intros Hrun. pose proof Hrun as [(M & Hs & HM) Ht _ _ _]. cbn [client_step fst snd] in *. unfold client_on_follower_report.
  rewrite <- (app_nil_r wire). destruct (seam_report M _ (cg_seam g) p r Hs) as [[e ->]|(s' & M' & ks & -> & Hs' & Hg & Hnt & HM' & Hks & Hcnt)].
  - apply (run_ok_step _ _ g); cbn [fst cg_seam cg_outbox cg_level]; try done; [|lia|by eauto|by intros ? ? ?%not_elem_of_nil].
    exists M. split; [|by eapply ticket_kept]. eapply seam_ok_mono; [|exact Hs]. by intros _ [? _]%stays_app.
  - apply (run_ok_step _ _ g); cbn [fst cg_seam cg_outbox cg_level]; try done; [|lia| |by intros ? ? ?%not_elem_of_nil|].
    + exists M'. split; [|by eapply ticket_kept]. eapply seam_ok_mono; [|exact Hs']. by intros _ [? _]%stays_app.
    + intros m l b Hl Hb. destruct (elem_of_deposits _ _ _ _ _ Hl Hb) as [?|Hin]; [by left|right].
      apply list_elem_of_fmap in Hin as (k & Hk & Hin). destruct (Hks k Hin) as (m' & off & b' & -> & [t Htk] & Hcom). injection Hk as -> ->.
      exists p, off. split; [apply elem_of_app; left; by apply (HM t _ Htk)|by intros _].
    + intros _ x. unfold waiting. cbn [cg_outbox]. rewrite waiting_deposits, (Hcnt x). change (produced_by x [CReport p r]) with 0%nat. change (written_to x []) with 0%nat. lia.
Qed.

Lemma run_flush es g wire m : run_ok es (g, wire) -> run_ok (es ++ [CFlush m]) (client_step (g, wire) (CFlush m)).
Proof.
  intros Hrun. pose proof Hrun as [(M & Hs & HM) Ht Ho _ _]. cbn [client_step fst snd drain_released] in *.
  apply (run_ok_step _ _ g); cbn [fst cg_seam cg_outbox cg_level]; try done; [|lia| | |].
  - exists M. split; [|by eapply ticket_kept]. eapply seam_ok_mono; [|exact Hs]. by intros _ [? _]%stays_app.
  - intros m' l b [_ ?]%lookup_delete_Some Hb. left. eauto.
  - intros m' b Hin. apply list_elem_of_fmap in Hin as (b0 & [= -> <-] & Hb). exists m. split; [|done].
    destruct (cg_outbox g !! m) as [l|] eqn:El; [|by apply not_elem_of_nil in Hb]. eapply earned_grows; [| |by eapply Ho]; done.
  - intros _ x. rewrite written_to_own. unfold waiting. cbn [cg_outbox]. change (produced_by x [CFlush m]) with 0%nat.
    destruct (decide (m = x)) as [->|]; [rewrite lookup_delete_eq|rewrite lookup_delete_ne by done]; cbn [default from_option length]; lia.
Qed.

Lemma run_disconnect es g wire m : run_ok es (g, wire) -> run_ok (es ++ [CDisconnect m]) (client_step (g, wire) (CDisconnect m)).
Proof.
  intros Hrun. pose proof Hrun as [(M & Hs & HM) Ht _ _ _]. cbn [client_step fst snd] in *. rewrite <- (app_nil_r wire).
  assert (Hno : forallb stays (es ++ [CDisconnect m]) <> true) by (by intros [_ ?]%stays_app).
  destruct (seam_purge M _ (cg_seam g) m Hs) as (M' & Hs' & HM' & Hg & Hnt).
  apply (run_ok_step _ _ g); cbn [cg_seam cg_outbox cg_level drop_connection]; try done; [|lia| |by intros ? ? ?%not_elem_of_nil].
  - exists M'. split; [|by eapply ticket_kept]. eapply seam_ok_mono; [|exact Hs']. done.
  - intros m' l b [_ ?]%lookup_delete_Some Hb. left. eauto.
Qed.

Lemma run_ok_all es g :
  gate_start g -> Forall op_ok es -> Z.of_nat (length es) <= u64_max -> run_ok es (foldl client_step (g, []) es).
Proof.
  intros Hg. induction es as [|o es IH] using rev_ind; intros Hok Hlen; [by apply run_ok_start|].
  rewrite foldl_app. apply Forall_app in Hok as [Hok Ho]. inversion_clear Ho as [|? ? Hop _]. rewrite length_app in Hlen. cbn in Hlen.
  specialize (IH Hok ltac:(lia)). cbn [foldl]. destruct (foldl client_step (g, []) es) as [g' wire].
  destruct o; [apply run_produce; [exact Hop|lia|done]|by apply run_report|by apply run_flush|by apply run_disconnect].
Qed.

End dataplane.
Arguments PartitionRole : clear implicits.
Arguments DataPlaneController : clear implicits.
Arguments ProduceAckSeam : clear implicits.
Arguments ClientAckGate : clear implicits.

(** ** Evaluation *)

(** Node 1 leads partition 0 with nine synced records; planes are their frontier. *)
Definition demo_client_gate : ClientAckGate Z unit :=
  client_gate_new (seam_new (start_leader id (controller_new 1) 0 9 [] [1; 2; 3] isr_config_default)) C2Fsync.

Definition demo_client_ops : list ClientOp :=
  [CReport 0 (mk_report 2 9); CProduced 7 0 9 [97]; CProduced 8 0 10 [98]; CReport 0 (mk_report 3 10); CFlush 7; CFlush 8].

Lemma demo_gate_start : gate_start demo_client_gate.
Proof.
  split_and!; try (vm_compute; reflexivity). intros p plane epochs isr gate. unfold demo_client_gate, start_leader. cbn [client_gate_new seam_new cg_seam sm_controller put_role dc_roles].
  destruct (decide (p = 0)) as [->|]; [rewrite lookup_insert_eq|rewrite lookup_insert_ne by done; done].
  intros [= <- <- <- <-]. split_and!; [done|done| |]; cbn; lia.
Qed.


(** Connection 7's record is not on a quorum yet; connection 8 retries an old record behind it; 7
    drops, and 9 produces. *)
Definition drop_ops : list ClientOp :=
  [CReport 0 (mk_report 2 9); CProduced 7 0 9 [97]; CProduced 8 0 3 [38]; CDisconnect 7; CProduced 9 0 10 [99]].

