(* ===== verification/Cursor.v ===== *)
(** * The work-group commit cursor ([cursor.rs])

    [AckCursor] keeps a watermark [committed] and a sorted vector of disjoint,
    non-adjacent half-open ranges acked ahead of it.  The file models every
    operation and the snapshot codec, and proves that the structure refines a
    plain set of acked offsets whose watermark is the least offset missing. *)

From S2P Require Import Prelude Search Bytes.

(** ** State and operations *)

Record AckCursor := mk_cursor {
  committed : Z;
  ahead : list (Z * Z)
}.

Inductive BoundedAck := Recorded | Duplicate | Shed.

Inductive AckCursorError :=
| EmptyRange (start end_ : Z)
| NotSortedDisjointAndAboveCommitted (start prev_end : Z).

Inductive SnapshotError :=
| Truncated
| BadLength (len : nat)
| UnsupportedVersion (v : Z)
| BadCrc
| Ranges (e : AckCursorError).

#[export] Instance BoundedAck_eq_dec : EqDecision BoundedAck.
Proof. solve_decision. Defined.

(** [AckCursor::new] *)
Definition new : AckCursor := mk_cursor 0 [].

(** [AckCursor::resume] *)
Definition resume (c : Z) : AckCursor := mk_cursor c [].

(** The validation loop of [resume_with_ahead]. *)
Fixpoint check_ranges (prev_end : Z) (l : list (Z * Z)) : res unit AckCursorError :=
  match l with
  | [] => Ok tt
  | (start, end_) :: l =>
      fail? end_ <=? start with EmptyRange start end_ in
      fail? start <=? prev_end with NotSortedDisjointAndAboveCommitted start prev_end in
      check_ranges end_ l
  end.

(** [AckCursor::resume_with_ahead] *)
Definition resume_with_ahead (c : Z) (l : list (Z * Z)) : res AckCursor AckCursorError :=
  let? _ := check_ranges c l in Ok (mk_cursor c l).

(** The comparator of [contains_ahead]'s binary search. *)
Definition cmp_range (offset : Z) (r : Z * Z) : comparison :=
  if r.2 <=? offset then Lt else if offset <? r.1 then Gt else Eq.

Definition contains_ahead (c : AckCursor) (offset : Z) : bool :=
  match binary_search_by (ahead c) (cmp_range offset) with
  | inl _ => true
  | inr _ => false
  end.

Definition is_acked (c : AckCursor) (offset : Z) : bool :=
  (offset <? committed c) || contains_ahead c offset.

Definition ahead_len (c : AckCursor) : Z :=
  foldr (fun r n => r.2 - r.1 + n) 0 (ahead c).

Definition ahead_runs (c : AckCursor) : nat := length (ahead c).

(** [self.ahead[i - 1].1 == offset] guarded by [i > 0], and
    [self.ahead[i].0 == next] guarded by [i < len]. *)
Definition merges_left (l : list (Z * Z)) (i : nat) (offset : Z) : bool :=
  match i with
  | O => false
  | S j => match l !! j with Some (_, e) => e =? offset | None => false end
  end.
Definition merges_right (l : list (Z * Z)) (i : nat) (next : Z) : bool :=
  match l !! i with Some (s, _) => s =? next | None => false end.

(** [AckCursor::insert] *)
Definition insert_ahead (l : list (Z * Z)) (offset next : Z) : list (Z * Z) :=
  let i := partition_point l (fun r => r.1 <=? offset) in
  match merges_left l i offset, merges_right l i next with
  | true, true =>
      match l !! i with
      | Some (_, e) => delete i (alter (fun r => (r.1, e)) (i - 1)%nat l)
      | None => l
      end
  | true, false => alter (fun r => (r.1, next)) (i - 1)%nat l
  | false, true => alter (fun r => (offset, r.2)) i l
  | false, false => take i l ++ (offset, next) :: drop i l
  end.

(** [AckCursor::advance] *)
Definition advance (c : AckCursor) : AckCursor :=
  match ahead c with
  | (start, end_) :: l =>
      if start =? committed c then mk_cursor end_ l else c
  | [] => c
  end.

(** [AckCursor::ack_bounded]; [max_runs = None] is [usize::MAX], which no
    vector length reaches. *)
Definition at_cap (l : list (Z * Z)) (max_runs : option nat) : bool :=
  match max_runs with
  | Some m => bool_decide (m <= length l)%nat
  | None => false
  end.

Definition ack_bounded (c : AckCursor) (offset : Z) (max_runs : option nat)
    : AckCursor * BoundedAck :=
  if (offset <? committed c) || contains_ahead c offset then (c, Duplicate)
  else
    match checked_add64 offset 1 with
    | None => (c, Duplicate)
    | Some next =>
        let i := partition_point (ahead c) (fun r => r.1 <=? offset) in
        if at_cap (ahead c) max_runs && negb (offset =? committed c)
           && (negb (merges_left (ahead c) i offset)
               && negb (merges_right (ahead c) i next))
        then (c, Shed)
        else
          (advance (mk_cursor (committed c) (insert_ahead (ahead c) offset next)),
           Recorded)
    end.

(** [AckCursor::ack] *)
Definition ack (c : AckCursor) (offset : Z) : AckCursor * bool :=
  let '(c, out) := ack_bounded c offset None in
  (c, bool_decide (out = Recorded)).

(** The [retain_mut] pass of [commit_up_to]. *)
Definition clip (up_to : Z) (l : list (Z * Z)) : list (Z * Z) :=
  omap (fun r => if r.2 <=? up_to then None else Some (Z.max r.1 up_to, r.2)) l.

(** Its [while let] loop over the now-contiguous prefix. *)
Fixpoint skip_contiguous (c : Z) (l : list (Z * Z)) : AckCursor :=
  match l with
  | (start, end_) :: l' =>
      if start =? c then skip_contiguous end_ l' else mk_cursor c l
  | [] => mk_cursor c []
  end.

(** [AckCursor::commit_up_to] *)
Definition commit_up_to (c : AckCursor) (up_to : Z) : AckCursor * bool :=
  if up_to <=? committed c then (c, false)
  else (skip_contiguous up_to (clip up_to (ahead c)), true).

(** ** The invariant *)

(** Sorted, disjoint, non-adjacent, non-empty ranges strictly above [prev]. *)
Fixpoint ranges_ok (prev : Z) (l : list (Z * Z)) : Prop :=
  match l with
  | [] => True
  | (s, e) :: l => prev < s /\ s < e /\ ranges_ok e l
  end.

Definition wf (c : AckCursor) : Prop :=
  is_u64 (committed c) /\ ranges_ok (committed c) (ahead c) /\
  Forall (fun r => r.2 <= u64_max) (ahead c).

(** ** The abstract view: the set of acked offsets *)

Definition in_ranges (o : Z) (l : list (Z * Z)) : Prop :=
  Exists (fun r => r.1 <= o < r.2) l.

Definition acked (c : AckCursor) (o : Z) : Prop :=
  o < committed c \/ in_ranges o (ahead c).

Definition last_end (p : Z) (l : list (Z * Z)) : Z := foldl (fun _ r => r.2) p l.

Lemma last_end_app p l1 l2 : last_end p (l1 ++ l2) = last_end (last_end p l1) l2.
Proof. apply foldl_app. Qed.

Lemma ranges_ok_app p l1 l2 :
  ranges_ok p (l1 ++ l2) <-> ranges_ok p l1 /\ ranges_ok (last_end p l1) l2.
Proof. revert p. induction l1 as [|[s e] l1 IH]; intros p; simpl; [tauto|]. rewrite IH. tauto. Qed.

Lemma ranges_ok_weaken p q l : q <= p -> ranges_ok p l -> ranges_ok q l.
Proof. destruct l as [|[s e] l]; simpl; [done|]. intros ? (?&?&?). repeat split; [lia|done..]. Qed.

Lemma ranges_ok_lookup p l i s e :
  ranges_ok p l -> l !! i = Some (s, e) -> p < s /\ s < e.
Proof.
  revert p i. induction l as [|[s' e'] l IH]; intros p [|i]; simpl; [done..| |].
  - intros (?&?&_) [= -> ->]. done.
  - intros (?&?&Hl) Hi. destruct (IH _ _ Hl Hi). lia.
Qed.

Lemma ranges_ok_sorted p l i j s1 e1 s2 e2 :
  ranges_ok p l -> (i < j)%nat ->
  l !! i = Some (s1, e1) -> l !! j = Some (s2, e2) -> e1 < s2.
Proof.
  revert p i j. induction l as [|[s' e'] l IH]; intros p [|i] [|j] Hl Hij;
    simpl; try done; try lia.
  - intros [= -> ->] Hj. simpl in Hl. destruct Hl as (_&_&Hl).
    by destruct (ranges_ok_lookup _ _ _ _ _ Hl Hj).
  - simpl in Hl. destruct Hl as (_&_&Hl). apply (IH e'); [done|lia].
Qed.

Lemma in_ranges_above p l o : ranges_ok p l -> in_ranges o l -> p < o.
Proof.
  intros Hl Ho. unfold in_ranges in Ho. rewrite Exists_exists in Ho.
  destruct Ho as ([s e] & Hin & Ho). apply list_elem_of_lookup in Hin as [i Hi].
  destruct (ranges_ok_lookup _ _ _ _ _ Hl Hi). simpl in Ho. lia.
Qed.

Lemma in_ranges_app o l1 l2 : in_ranges o (l1 ++ l2) <-> in_ranges o l1 \/ in_ranges o l2.
Proof. apply Exists_app. Qed.

Lemma in_ranges_cons o s e l : in_ranges o ((s, e) :: l) <-> s <= o < e \/ in_ranges o l.
Proof. unfold in_ranges. by rewrite Exists_cons. Qed.

Lemma in_ranges_nil o : in_ranges o [] <-> False.
Proof. unfold in_ranges. by rewrite Exists_nil. Qed.

(** ** The binary searches *)

Lemma cmp_range_partitioned p l o : ranges_ok p l -> partitioned l (cmp_range o).
Proof.
  intros Hl i j [s1 e1] [s2 e2] Hij Hi Hj.
  pose proof (ranges_ok_sorted _ _ _ _ _ _ _ _ Hl Hij Hi Hj).
  destruct (ranges_ok_lookup _ _ _ _ _ Hl Hi), (ranges_ok_lookup _ _ _ _ _ Hl Hj).
  unfold cmp_range; simpl. repeat case_if; (split; intros; try done; lia).
Qed.

(** The logarithmic probe answers set membership. *)
Lemma contains_ahead_spec c o :
  ranges_ok (committed c) (ahead c) ->
  contains_ahead c o = true <-> in_ranges o (ahead c).
Proof.
  intros Hl. unfold contains_ahead, in_ranges. rewrite Exists_exists.
  pose proof (binary_search_by_spec _ _ (cmp_range_partitioned _ _ o Hl)) as Hs.
  destruct (binary_search_by _ _) as [i|i].
  - split; [|done]. intros _. destruct Hs as ([s e] & Hi & Hc).
    exists (s, e). split; [by eapply list_elem_of_lookup_2|].
    unfold cmp_range in Hc; simpl in *. repeat case_if_in Hc; try done; lia.
  - split; [done|]. intros ([s e] & Hin & Ho).
    apply list_elem_of_lookup in Hin as [j Hj]. destruct Hs as (_ & Hlo & Hhi).
    destruct (decide (j < i)%nat) as [Hji|Hji].
    + specialize (Hlo j _ Hji Hj). unfold cmp_range in Hlo; simpl in *.
      repeat case_if_in Hlo; try done; lia.
    + specialize (Hhi j _ ltac:(lia) Hj). unfold cmp_range in Hhi; simpl in *.
      repeat case_if_in Hhi; try done; lia.
Qed.

Lemma is_acked_spec c o : wf c -> is_acked c o = true <-> acked c o.
Proof.
  intros (_ & Hl & _). unfold is_acked, acked.
  rewrite orb_true_iff, Z.ltb_lt, contains_ahead_spec by done. done.
Qed.

Lemma is_acked_false c o : wf c -> is_acked c o = false <-> ~ acked c o.
Proof. intros Hw. rewrite <- is_acked_spec by done. destruct (is_acked c o); naive_solver. Qed.

(** The insertion index splits the vector at the offset. *)
Lemma partition_split p l o :
  ranges_ok p l -> ~ in_ranges o l ->
  let i := partition_point l (fun r => r.1 <=? o) in
  exists l1 l2, l = l1 ++ l2 /\ i = length l1 /\
    Forall (fun r => r.2 <= o) l1 /\ Forall (fun r => o < r.1) l2.
Proof.
  intros Hl Ho i.
  destruct (partition_point_spec l (fun r => r.1 <=? o)) as (Hi & Hlo & Hhi).
  { intros j k [s1 e1] [s2 e2] Hjk Hj Hk; simpl.
    pose proof (ranges_ok_sorted _ _ _ _ _ _ _ _ Hl Hjk Hj Hk).
    destruct (ranges_ok_lookup _ _ _ _ _ Hl Hj). lia. }
  fold i in Hi, Hlo, Hhi. exists (take i l), (drop i l). rewrite take_drop, length_take.
  split; [done|]. split; [lia|]. split.
  - apply Forall_lookup. intros j [s e] Hj. apply lookup_take_Some in Hj as [Hj Hji].
    specialize (Hlo j (s, e) Hji Hj). simpl in *.
    destruct (Z.leb_spec e o); [done|]. exfalso. apply Ho. unfold in_ranges.
    rewrite Exists_exists. exists (s, e). split; [by eapply list_elem_of_lookup_2|].
    simpl. bool_to_prop. lia.
  - apply Forall_lookup. intros j [s e] Hj. rewrite lookup_drop in Hj.
    specialize (Hhi (i + j)%nat (s, e) ltac:(lia) Hj). simpl in *. bool_to_prop. lia.
Qed.

Lemma last_end_le p l o :
  p <= o -> Forall (fun r => r.2 <= o) l -> last_end p l <= o.
Proof. intros Hp Hl. revert p Hp. induction Hl; simpl; auto. Qed.

Lemma ranges_ok_head q s e l : ranges_ok q ((s, e) :: l) -> s < e /\ ranges_ok e l.
Proof. simpl. tauto. Qed.

Lemma alter_mid {A} (f : A -> A) (l1 : list A) x l2 :
  alter f (length l1) (l1 ++ x :: l2) = l1 ++ f x :: l2.
Proof. by rewrite alter_app_r_alt, Nat.sub_diag by lia. Qed.

(** The four outcomes of [insert] around the insertion index. *)
Inductive insert_case (p o : Z) (l : list (Z * Z)) : list (Z * Z) -> bool -> bool -> Prop :=
| insert_both l1 s e l2 :
    l = l1 ++ (s, o) :: (o + 1, e) :: l2 ->
    insert_case p o l (l1 ++ (s, e) :: l2) true true
| insert_left l1 s l2 :
    l = l1 ++ (s, o) :: l2 -> Forall (fun r => o + 1 < r.1) l2 ->
    insert_case p o l (l1 ++ (s, o + 1) :: l2) true false
| insert_right l1 e l2 :
    l = l1 ++ (o + 1, e) :: l2 -> last_end p l1 < o ->
    insert_case p o l (l1 ++ (o, e) :: l2) false true
| insert_new l1 l2 :
    l = l1 ++ l2 -> last_end p l1 < o -> Forall (fun r => o + 1 < r.1) l2 ->
    insert_case p o l (l1 ++ (o, o + 1) :: l2) false false.

Lemma merges_left_spec p l1 l2 o :
  p < o ->
  merges_left (l1 ++ l2) (length l1) o = true /\ (exists l1' s, l1 = l1' ++ [(s, o)])
  \/ merges_left (l1 ++ l2) (length l1) o = false /\ last_end p l1 <> o.
Proof.
  intros Hp. destruct l1 as [|[s e] l1 _] using rev_ind; [right; simpl; split; [done|lia]|].
  rewrite last_end_app, length_app, Nat.add_1_r. cbn.
  rewrite lookup_app_l, lookup_app_r, Nat.sub_diag by (rewrite ?length_app; simpl; lia).
  cbn. destruct (Z.eqb_spec e o) as [->|]; [left; eauto|by right].
Qed.

Lemma merges_right_spec l1 l2 n :
  Forall (fun r => n - 1 < r.1) l2 -> ranges_ok (n - 1) l2 ->
  merges_right (l1 ++ l2) (length l1) n = true /\ (exists e l2', l2 = (n, e) :: l2')
  \/ merges_right (l1 ++ l2) (length l1) n = false /\ Forall (fun r => n < r.1) l2.
Proof.
  intros Hl Hok. unfold merges_right. rewrite lookup_app_r, Nat.sub_diag by lia.
  destruct l2 as [|[s e] l2]; [by right|]. simpl.
  destruct (Z.eqb_spec s n) as [->|]; [left; eauto|right].
  split; [done|]. apply Forall_cons in Hl as [? Hl]. simpl in *. destruct Hok as (?&?&Hok).
  constructor; simpl; [lia|]. apply Forall_lookup. intros i [s' e'] Hi.
  destruct (ranges_ok_lookup _ _ _ _ _ Hok Hi). simpl. lia.
Qed.

Lemma ranges_ok_above q o l : ranges_ok q l -> Forall (fun r => o < r.1) l -> ranges_ok o l.
Proof. destruct l as [|[s e] l]; simpl; [done|]. intros (?&?&?) [? _]%Forall_cons. done. Qed.

Lemma insert_ahead_case p l o :
  ranges_ok p l -> p < o -> ~ in_ranges o l ->
  let i := partition_point l (fun r => r.1 <=? o) in
  insert_case p o l (insert_ahead l o (o + 1)) (merges_left l i o) (merges_right l i (o + 1)).
Proof.
  intros Hl Hp Ho. destruct (partition_split p l o Hl Ho) as (l1 & l2 & -> & Hi & H1 & H2).
  unfold insert_ahead. rewrite Hi. clear Hi Ho. cbv zeta.
  apply ranges_ok_app in Hl as [Hl1 Hl2].
  assert (Hle : last_end p l1 <= o) by (apply last_end_le; [lia|done]).
  destruct (merges_right_spec l1 l2 (o + 1)) as [[Hr (e & l2' & ->)]|[Hr Hr2]].
  { eapply Forall_impl; [exact H2|]. simpl; lia. }
  { rewrite Z.add_simpl_r. by eapply ranges_ok_above. }
  all: match goal with
    | Hp : ?p < ?o |- context [merges_left (?k1 ++ ?k2) _ _] =>
        destruct (merges_left_spec p k1 k2 o Hp) as [[Hm (l1' & s & ->)]|[Hm Hne]]
    end; rewrite Hm, Hr; clear Hm Hr.
  - rewrite lookup_app_r, Nat.sub_diag by lia. simpl.
    rewrite <- app_assoc, length_app, Nat.add_1_r; simpl. rewrite Nat.sub_0_r, alter_mid; simpl.
    replace (S (length l1')) with (length (l1' ++ [(s, e)])) by (rewrite length_app; simpl; lia).
    change ((s, e) :: (o + 1, e) :: l2') with ([(s, e)] ++ (o + 1, e) :: l2').
    rewrite app_assoc, delete_middle, <- app_assoc. simpl.
    by constructor.
  - rewrite alter_mid. constructor; [done|lia].
  - rewrite <- app_assoc, length_app, Nat.add_1_r; simpl. rewrite Nat.sub_0_r, alter_mid.
    by constructor.
  - rewrite take_app_length, drop_app_length. constructor; [done|lia|done].
Qed.

(** [insert] adds exactly one offset and keeps the shape. *)
Lemma insert_case_ok p o l l' bl br :
  insert_case p o l l' bl br -> ranges_ok p l -> p < o ->
  ranges_ok p l' /\ (forall x, in_ranges x l' <-> x = o \/ in_ranges x l).
Proof.
  intros Hc Hl Hp. destruct Hc as [l1 s e l2 ->|l1 s l2 -> H2|l1 e l2 -> He|l1 l2 -> He H2];
    rewrite ranges_ok_app in Hl |- *; destruct Hl as [Hl1 Hl2]; simpl in *.
  1: split; [destruct Hl2 as (?&?&?&?&?); repeat split; try done; lia|].
  2: split; [destruct Hl2 as (?&?&?); repeat split; try done; try lia; by eapply ranges_ok_above|].
  3: split; [destruct Hl2 as (?&?&?); repeat split; try done; lia|].
  4: split; [repeat split; try done; try lia; by eapply ranges_ok_above|].
  all: intros x; rewrite !in_ranges_app, ?in_ranges_cons.
  - destruct Hl2 as (?&?&?&?&?). assert (s <= x < e <-> s <= x < o \/ x = o \/ o + 1 <= x < e) by lia. tauto.
  - destruct Hl2 as (?&?&?). assert (s <= x < o + 1 <-> s <= x < o \/ x = o) by lia. tauto.
  - destruct Hl2 as (?&?&?). assert (o <= x < e <-> x = o \/ o + 1 <= x < e) by lia. tauto.
  - assert (o <= x < o + 1 <-> x = o) by lia. tauto.
Qed.

(** The vector grows only when the ack merges on neither side. *)
Lemma insert_case_length p o l l' bl br :
  insert_case p o l l' bl br ->
  (length l' <= length l + (if negb bl && negb br then 1 else 0))%nat.
Proof. destruct 1; subst; rewrite !length_app; simpl; lia. Qed.

Lemma insert_case_bound p o l l' bl br :
  insert_case p o l l' bl br -> o < u64_max ->
  Forall (fun r => r.2 <= u64_max) l -> Forall (fun r => r.2 <= u64_max) l'.
Proof.
  intros Hc Ho. destruct Hc; subst; rewrite !Forall_app, !Forall_cons; simpl;
    intuition lia.
Qed.

(** ** The watermark *)

(** After an [insert] the first range may touch the watermark; [advance]
    restores the invariant and denotes the same set. *)
Lemma advance_spec c :
  is_u64 (committed c) -> ranges_ok (committed c - 1) (ahead c) ->
  Forall (fun r => r.2 <= u64_max) (ahead c) ->
  wf (advance c) /\ (forall x, acked (advance c) x <-> acked c x) /\
  committed c <= committed (advance c) /\
  (length (ahead (advance c)) <= length (ahead c))%nat /\
  (in_ranges (committed c) (ahead c) ->
     S (length (ahead (advance c))) = length (ahead c)).
Proof.
  destruct c as [k [|[s e] l]]; unfold advance, wf, acked; simpl; intros Hk Hl Hb.
  { repeat split; try done; try ulia; try naive_solver. by rewrite in_ranges_nil. }
  destruct Hl as (Hs & He & Hl). apply Forall_cons in Hb as [Hbe Hb]. simpl in Hbe.
  destruct (Z.eqb_spec s k) as [->|Hne]; simpl.
  - repeat split; try done; try ulia; rewrite in_ranges_cons; intuition lia.
  - assert (Hok : ranges_ok k ((s, e) :: l)) by (simpl; repeat split; try done; lia).
    repeat split; try done; try ulia; try (by constructor); try tauto.
    intros Hin. pose proof (in_ranges_above _ _ _ Hok Hin). lia.
Qed.

Lemma committed_unacked c : wf c -> ~ acked c (committed c).
Proof.
  intros (_ & Hl & _) [?|Hin]; [lia|]. pose proof (in_ranges_above _ _ _ Hl Hin). lia.
Qed.

(** The state an ack that is recorded leaves behind. *)
Lemma ack_state_spec c o :
  wf c -> 0 <= o < u64_max -> ~ acked c o ->
  let i := partition_point (ahead c) (fun r => r.1 <=? o) in
  let c' := advance (mk_cursor (committed c) (insert_ahead (ahead c) o (o + 1))) in
  wf c' /\ (forall x, acked c' x <-> x = o \/ acked c x) /\
  committed c <= committed c' /\
  (o = committed c \/ merges_left (ahead c) i o = true \/ merges_right (ahead c) i (o + 1) = true ->
   ahead_runs c' <= ahead_runs c)%nat /\
  (ahead_runs c' <= S (ahead_runs c))%nat.
Proof.
  intros (Hk & Hl & Hb) Ho Hn i.
  assert (Hge : committed c <= o) by (unfold acked in Hn; lia).
  assert (Hno : ~ in_ranges o (ahead c)) by (unfold acked in Hn; tauto).
  apply (ranges_ok_weaken _ (committed c - 1)) in Hl; [|lia].
  pose proof (insert_ahead_case _ _ o Hl ltac:(lia) Hno) as Hc. fold i in Hc.
  destruct (insert_case_ok _ _ _ _ _ _ Hc Hl ltac:(lia)) as [Hl' Hin].
  pose proof (insert_case_length _ _ _ _ _ _ Hc) as Hlen.
  pose proof (insert_case_bound _ _ _ _ _ _ Hc ltac:(lia) Hb) as Hb'.
  destruct (advance_spec (mk_cursor (committed c) (insert_ahead (ahead c) o (o + 1)))
              Hk Hl' Hb') as (Hw & Hset & Hmono & Hlen' & Hcont); simpl in *.
  split; [done|]. split; [intros x; rewrite Hset; unfold acked; simpl; rewrite Hin; tauto|].
  split; [done|]. unfold ahead_runs. split.
  - intros [->|Hm]; [specialize (Hcont ltac:(rewrite Hin; auto))|];
      destruct (negb _ && negb _) eqn:Hnb; bool_to_prop; try lia.
    destruct Hm; congruence.
  - destruct (negb _ && negb _); lia.
Qed.

(** ** Single operations *)

(** The three outcomes of a bounded ack. *)
Lemma ack_bounded_ok c o mr :
  wf c -> is_u64 o ->
  let '(c', out) := ack_bounded c o mr in
  wf c' /\
  match out with
  | Recorded => ~ acked c o /\ (forall x, acked c' x <-> x = o \/ acked c x) /\
                committed c <= committed c'
  | Duplicate => c' = c /\ (acked c o \/ o = u64_max)
  | Shed => c' = c /\ ~ acked c o /\ o <> committed c /\
            exists m, mr = Some m /\ (m <= ahead_runs c)%nat
  end.
Proof.
  intros Hw Ho. unfold ack_bounded. fold (is_acked c o).
  destruct (is_acked c o) eqn:Ha.
  { rewrite is_acked_spec in Ha by done. auto. }
  rewrite is_acked_false in Ha by done.
  unfold checked_add. destruct (Z.leb_spec (o + 1) u64_max) as [Hlt|Hge].
  2: { split; [done|]. split; [done|]. right. ulia. }
  destruct (ack_state_spec c o Hw ltac:(ulia) Ha) as (Hw' & Hset & Hm & _).
  match goal with |- context [if ?b then _ else _] => destruct b eqn:Hb end; [|auto].
  bool_to_prop. split; [done|]. split; [done|]. split; [done|]. split; [done|].
  destruct mr as [m|]; [|done]. exists m. split; [done|].
  by match goal with H : at_cap _ _ = true |- _ => apply bool_decide_eq_true_1 in H end.
Qed.

(** Only a fragmenting ack below the cap adds a run. *)
Lemma ack_bounded_runs c o m :
  wf c -> is_u64 o ->
  (ahead_runs (ack_bounded c o (Some m)).1 <= Nat.max (ahead_runs c) m)%nat.
Proof.
  intros Hw Ho. unfold ack_bounded. fold (is_acked c o).
  destruct (is_acked c o) eqn:Ha; [simpl; lia|].
  rewrite is_acked_false in Ha by done.
  unfold checked_add. destruct (Z.leb_spec (o + 1) u64_max) as [Hlt|Hge]; [|simpl; lia].
  destruct (ack_state_spec c o Hw ltac:(ulia) Ha) as (_ & _ & _ & Hruns & Hruns').
  match goal with |- context [if ?b then _ else _] => destruct b eqn:Hb end; [simpl; lia|].
  cbn [fst]. unfold at_cap in Hb.
  destruct (decide (m <= length (ahead c))%nat) as [Hcap|Hcap].
  - rewrite bool_decide_eq_true_2 in Hb by done. simpl in Hb.
    rewrite Hruns; [lia|]. bool_to_prop.
    destruct Hb as [Hb|Hb]; bool_to_prop; [auto|].
    destruct Hb; bool_to_prop; auto.
  - unfold ahead_runs in *. lia.
Qed.

Lemma clip_cons up s e l :
  clip up ((s, e) :: l) = if e <=? up then clip up l else (Z.max s up, e) :: clip up l.
Proof. unfold clip. simpl. by destruct (e <=? up). Qed.

Lemma clip_id up p l : ranges_ok p l -> up <= p -> clip up l = l.
Proof.
  revert p. induction l as [|[s e] l IH]; intros p Hl Hp; [done|].
  destruct Hl as (Hs & He & Hl). rewrite clip_cons.
  destruct (Z.leb_spec e up); [lia|]. rewrite (IH e), Z.max_l by (done || lia). done.
Qed.

Lemma clip_spec up p l :
  ranges_ok p l -> p <= up ->
  ranges_ok (up - 1) (clip up l) /\
  (forall x, up <= x -> in_ranges x (clip up l) <-> in_ranges x l).
Proof.
  revert p. induction l as [|[s e] l IH]; intros p Hl Hp; [done|].
  destruct Hl as (Hs & He & Hl). rewrite clip_cons.
  destruct (Z.leb_spec e up) as [Hle|Hgt].
  - destruct (IH e Hl Hle) as [Hok Hin]. split; [done|].
    intros x Hx. rewrite Hin, in_ranges_cons by done. intuition lia.
  - rewrite (clip_id _ _ _ Hl) by lia. split; [simpl; repeat split; [lia..|done]|].
    intros x Hx. rewrite !in_ranges_cons. intuition lia.
Qed.

Lemma clip_bound up l :
  Forall (fun r => r.2 <= u64_max) l -> Forall (fun r => r.2 <= u64_max) (clip up l).
Proof.
  intros Hl. induction Hl as [|[s e] l He Hl IH]; [done|]. rewrite clip_cons.
  destruct (_ <=? _); [done|by constructor].
Qed.

Lemma skip_contiguous_spec k l :
  is_u64 k -> ranges_ok (k - 1) l -> Forall (fun r => r.2 <= u64_max) l ->
  wf (skip_contiguous k l) /\
  (forall x, acked (skip_contiguous k l) x <-> x < k \/ in_ranges x l).
Proof.
  revert k. induction l as [|[s e] l IH]; intros k Hk Hl Hb; [done|].
  destruct Hl as (Hs & He & Hl). apply Forall_cons in Hb as [Hbe Hb]; simpl in *.
  destruct (Z.eqb_spec s k) as [->|Hne].
  - destruct (IH e) as [Hw Hset]; [ulia|by eapply ranges_ok_weaken; [|done]; lia|done|].
    split; [done|]. intros x. rewrite Hset, in_ranges_cons. intuition lia.
  - split; [|done]. split; [done|]. split; [simpl; repeat split; [lia..|done]|by constructor].
Qed.

(** The cumulative ack commits exactly the offsets below [up_to] on top of
    what was acked, reports whether the watermark moved, never moves it back,
    and keeps the shape, also when [up_to] cuts a range in two. *)
Lemma commit_up_to_spec c up :
  wf c -> is_u64 up ->
  let '(c', moved) := commit_up_to c up in
  wf c' /\ moved = (committed c <? up) /\ committed c <= committed c' /\
  (forall x, acked c' x <-> x < up \/ acked c x).
Proof.
  intros Hw Hup. unfold commit_up_to. destruct (Z.leb_spec up (committed c)) as [Hle|Hgt].
  { split; [done|]. split; [symmetry; apply Z.ltb_ge; lia|]. split; [lia|].
    intros x. unfold acked. intuition lia. }
  destruct Hw as (Hk & Hl & Hb).
  destruct (clip_spec up _ _ Hl ltac:(lia)) as [Hok Hin].
  destruct (skip_contiguous_spec up (clip up (ahead c)) Hup Hok (clip_bound _ _ Hb)) as [Hw Hset].
  assert (Hacc : forall x, acked (skip_contiguous up (clip up (ahead c))) x <-> x < up \/ acked c x).
  { intros x. rewrite Hset. unfold acked. destruct (Z.lt_ge_cases x up); [tauto|].
    rewrite Hin by done. intuition lia. }
  split; [done|]. split; [symmetry; apply Z.ltb_lt; lia|]. split; [|done].
  pose proof (committed_unacked _ Hw) as Hn. rewrite Hacc in Hn. unfold acked in Hn. lia.
Qed.

(** ** Canonical form *)

Lemma in_ranges_head p s e l : ranges_ok p ((s, e) :: l) -> in_ranges s ((s, e) :: l).
Proof. intros (?&?&_). rewrite in_ranges_cons. lia. Qed.

Lemma in_ranges_ge p s e l x : ranges_ok p ((s, e) :: l) -> in_ranges x ((s, e) :: l) -> s <= x.
Proof.
  intros (?&?&Hl). rewrite in_ranges_cons. intros [?|Hx]; [lia|].
  pose proof (in_ranges_above _ _ _ Hl Hx). lia.
Qed.

Lemma in_ranges_end p s e l : ranges_ok p ((s, e) :: l) -> ~ in_ranges e ((s, e) :: l).
Proof.
  intros (?&?&Hl). rewrite in_ranges_cons. intros [?|Hx]; [lia|].
  pose proof (in_ranges_above _ _ _ Hl Hx). lia.
Qed.

(** Two vectors of the maintained shape that denote the same set are equal. *)
Lemma ranges_ext p q l1 l2 :
  ranges_ok p l1 -> ranges_ok q l2 ->
  (forall x, in_ranges x l1 <-> in_ranges x l2) -> l1 = l2.
Proof.
  revert p q l2. induction l1 as [|[s1 e1] l1 IH]; intros p q [|[s2 e2] l2] H1 H2 Hx; [done|..].
  - by pose proof (proj2 (Hx s2) (in_ranges_head _ _ _ _ H2)) as []%in_ranges_nil.
  - by pose proof (proj1 (Hx s1) (in_ranges_head _ _ _ _ H1)) as []%in_ranges_nil.
  - assert (s1 = s2) as <-.
    { pose proof (in_ranges_ge _ _ _ _ s1 H2 (proj1 (Hx s1) (in_ranges_head _ _ _ _ H1))).
      pose proof (in_ranges_ge _ _ _ _ s2 H1 (proj2 (Hx s2) (in_ranges_head _ _ _ _ H2))). lia. }
    assert (e1 = e2) as <-.
    { pose proof (in_ranges_end _ _ _ _ H1) as Hn1. rewrite Hx in Hn1.
      pose proof (in_ranges_end _ _ _ _ H2) as Hn2. rewrite <- Hx in Hn2.
      rewrite in_ranges_cons in Hn1, Hn2. destruct H1 as (?&?&_), H2 as (?&?&_). lia. }
    f_equal. destruct H1 as (?&?&H1), H2 as (?&?&H2). apply (IH e1 e1); [done..|].
    intros x. specialize (Hx x). rewrite !in_ranges_cons in Hx.
    pose proof (in_ranges_above _ _ x H1). pose proof (in_ranges_above _ _ x H2).
    split; intros Hin; [apply proj1 in Hx|apply proj2 in Hx];
      (destruct Hx; [by right| |done]); intuition lia.
Qed.

Lemma wf_ext c1 c2 :
  wf c1 -> wf c2 -> (forall x, 0 <= x -> acked c1 x <-> acked c2 x) -> c1 = c2.
Proof.
  intros H1 H2 Hx. pose proof (committed_unacked _ H1) as Hn1.
  pose proof (committed_unacked _ H2) as Hn2.
  destruct H1 as (Hk1 & Hl1 & _), H2 as (Hk2 & Hl2 & _).
  assert (committed c1 = committed c2) as Hk.
  { rewrite Hx in Hn1 by ulia. rewrite <- Hx in Hn2 by ulia. unfold acked in *. lia. }
  destruct c1 as [k1 l1], c2 as [k2 l2]; simpl in *. subst k2. f_equal.
  apply (ranges_ext k1 k1); [done..|]. intros x.
  split; intros Hin;
    [pose proof (in_ranges_above _ _ x Hl1 Hin)|pose proof (in_ranges_above _ _ x Hl2 Hin)];
    specialize (Hx x ltac:(ulia)); unfold acked in Hx; simpl in Hx; intuition lia.
Qed.

(** ** Properties *)

(** a bounded ack has exactly three outcomes, each fully determined.
    [Recorded]: the offset was unacked, exactly it joins the acked set, and the
    watermark does not move back.  [Duplicate]: the cursor is untouched and the
    offset was acked already or is the exhausted [u64::MAX].  [Shed]: the
    cursor is untouched, the offset is still unacked (it redelivers, it is not
    lost), it was not the watermark, and the cap was reached.  The shape
    invariant holds throughout, and the number of runs never exceeds the larger
    of its old value and the cap. *)
Theorem ack_bounded_correct c o m :
  wf c -> is_u64 o ->
  let '(c', out) := ack_bounded c o (Some m) in
  wf c' /\ (ahead_runs c' <= Nat.max (ahead_runs c) m)%nat /\
  match out with
  | Recorded => ~ acked c o /\ (forall x, acked c' x <-> x = o \/ acked c x) /\
                committed c <= committed c'
  | Duplicate => c' = c /\ (acked c o \/ o = u64_max)
  | Shed => c' = c /\ ~ acked c o /\ o <> committed c /\ (m <= ahead_runs c)%nat
  end.
Proof.
  intros Hw Ho. pose proof (ack_bounded_runs c o m Hw Ho) as Hr.
  pose proof (ack_bounded_ok c o (Some m) Hw Ho) as Hok.
  destruct (ack_bounded c o (Some m)) as [c' []]; [tauto..|].
  destruct Hok as (?&?&?&?&m'&Hm'&?). simplify_eq. tauto.
Qed.

Definition cursor_3_5_8 : AckCursor := mk_cursor 3 [(5, 7); (8, 9)].

Lemma cursor_3_5_8_wf : wf cursor_3_5_8.
Proof. unfold wf, cursor_3_5_8; simpl. repeat split; try ulia. forall_concrete. Qed.

Lemma ack_bounded_correct_witness :
  wf cursor_3_5_8 /\ is_u64 11 /\
  ack_bounded cursor_3_5_8 11 (Some 2%nat) = (cursor_3_5_8, Shed) /\
  ack_bounded cursor_3_5_8 7 (Some 2%nat) = (mk_cursor 3 [(5, 9)], Recorded) /\
  (2 <= ahead_runs cursor_3_5_8)%nat.
Proof.
  split; [apply cursor_3_5_8_wf|]. split; [ulia|]. split; [reflexivity|]. split; [reflexivity|].
  pose proof (ack_bounded_correct cursor_3_5_8 11 2 cursor_3_5_8_wf ltac:(ulia)) as H.
  change (ack_bounded cursor_3_5_8 11 (Some 2%nat)) with (cursor_3_5_8, Shed) in H.
  apply H.
Defined.

(** *** Traces *)

Lemma wf_new : wf new.
Proof. unfold wf, new; simpl. repeat split; try ulia; constructor. Qed.

Inductive cursor_op :=
| OpAck (o : Z)
| OpAckBounded (o : Z) (max_runs : nat)
| OpCommitUpTo (up_to : Z).

Definition op_ok (op : cursor_op) : Prop :=
  match op with OpAck o | OpAckBounded o _ | OpCommitUpTo o => is_u64 o end.

(** One operation, with the range of offsets it reported as acked, if any. *)
Definition step (c : AckCursor) (op : cursor_op) : AckCursor * option (Z * Z) :=
  match op with
  | OpAck o => let '(c, new) := ack c o in (c, if new then Some (o, o + 1) else None)
  | OpAckBounded o m =>
      let '(c, out) := ack_bounded c o (Some m) in
      (c, if decide (out = Recorded) then Some (o, o + 1) else None)
  | OpCommitUpTo u =>
      let '(c, moved) := commit_up_to c u in (c, if moved then Some (0, u) else None)
  end.

(** A run from a state, with the log of what was reported as acked. *)
Fixpoint run (c : AckCursor) (ops : list cursor_op) : AckCursor * list (Z * Z) :=
  match ops with
  | [] => (c, [])
  | op :: ops =>
      let '(c, r) := step c op in
      let '(c, log) := run c ops in
      (c, option_list r ++ log)
  end.

Lemma step_spec c op :
  wf c -> op_ok op ->
  let '(c', r) := step c op in
  wf c' /\ committed c <= committed c' /\
  (forall x, 0 <= x -> acked c' x <-> in_ranges x (option_list r) \/ acked c x).
Proof.
  intros Hw Hop. destruct op as [o|o m|u]; simpl in *.
  - unfold ack. pose proof (ack_bounded_ok c o None Hw Hop) as Hok.
    destruct (ack_bounded c o None) as [c' []]; simpl;
      rewrite ?bool_decide_eq_true_2, ?bool_decide_eq_false_2 by done;
      [destruct Hok as (?&_&Hs&?)|destruct Hok as (?&->&_)|destruct Hok as (?&->&_)];
      (split; [done|]; split; [lia|]; intros x _); simpl;
      rewrite ?Hs, ?in_ranges_cons, ?in_ranges_nil; intuition lia.
  - pose proof (ack_bounded_ok c o (Some m) Hw Hop) as Hok.
    destruct (ack_bounded c o (Some m)) as [c' []]; simpl;
      [destruct Hok as (?&_&Hs&?)|destruct Hok as (?&->&_)|destruct Hok as (?&->&_)];
      (split; [done|]; split; [lia|]; intros x _); simpl;
      rewrite ?Hs, ?in_ranges_cons, ?in_ranges_nil; intuition lia.
  - pose proof (commit_up_to_spec c u Hw Hop) as Hok.
    destruct (commit_up_to c u) as [c' b]; destruct Hok as (?&->&?&Hs).
    split; [done|]. split; [done|]. intros x Hx. rewrite Hs. unfold acked.
    case_if; rewrite ?in_ranges_cons, ?in_ranges_nil; intuition lia.
Qed.

Lemma run_spec c ops :
  wf c -> Forall op_ok ops ->
  let '(c', log) := run c ops in
  wf c' /\ committed c <= committed c' /\
  (forall x, 0 <= x -> acked c' x <-> in_ranges x log \/ acked c x).
Proof.
  intros Hw Hops. revert c Hw. induction Hops as [|op ops Hop _ IH]; intros c Hw; simpl.
  { split; [done|]. split; [lia|]. intros x _. rewrite in_ranges_nil. tauto. }
  pose proof (step_spec c op Hw Hop) as Hs. destruct (step c op) as [c1 r].
  destruct Hs as (Hw1 & Hm1 & Hs1). specialize (IH c1 Hw1).
  destruct (run c1 ops) as [c2 log]. destruct IH as (Hw2 & Hm2 & Hs2).
  split; [done|]. split; [lia|]. intros x Hx. rewrite Hs2, Hs1, in_ranges_app by done. tauto.
Qed.

(** C16: the cursor refines a set.  After any sequence of acks, bounded acks and
    cumulative acks from a fresh cursor, [is_acked] holds of exactly the
    offsets that some operation reported as acked, and the committed watermark
    is the least offset that none did: recovery neither skips an unprocessed
    record nor stalls behind processed ones. *)
Theorem cursor_refines_set ops :
  Forall op_ok ops ->
  let '(c, log) := run new ops in
  wf c /\
  (forall x, 0 <= x -> is_acked c x = true <-> in_ranges x log) /\
  (forall x, 0 <= x < committed c -> in_ranges x log) /\
  ~ in_ranges (committed c) log.
Proof.
  intros Hops. pose proof (run_spec new ops wf_new Hops) as Hr. destruct (run new ops) as [c log].
  destruct Hr as (Hw & Hm & Hs). split; [done|].
  assert (Hlog : forall x, 0 <= x -> acked c x <-> in_ranges x log).
  { intros x Hx. rewrite Hs by done. unfold acked, new; simpl. rewrite in_ranges_nil. intuition lia. }
  split; [intros x Hx; rewrite is_acked_spec by done; auto|]. split.
  - intros x Hx. apply Hlog; [lia|]. left; lia.
  - destruct Hw as (Hk & ?) eqn:Hw'. rewrite <- Hlog by ulia. by apply committed_unacked.
Qed.

Definition trace_1 : list cursor_op :=
  [OpAck 2; OpAckBounded 0 1; OpAckBounded 9 1; OpAck 5; OpCommitUpTo 2].

Lemma cursor_refines_set_witness :
  Forall op_ok trace_1 /\
  run new trace_1 = (mk_cursor 3 [(5, 6)], [(2, 3); (0, 1); (5, 6); (0, 2)]) /\
  is_acked (mk_cursor 3 [(5, 6)]) 9 = false /\ ~ in_ranges 3 [(2, 3); (0, 1); (5, 6); (0, 2)].
Proof.
  assert (Forall op_ok trace_1) as Hops by forall_concrete.
  split; [done|]. split; [vm_compute; reflexivity|]. split; [reflexivity|].
  pose proof (cursor_refines_set trace_1 Hops) as H.
  change (run new trace_1) with (mk_cursor 3 [(5, 6)], [(2, 3); (0, 1); (5, 6); (0, 2)]) in H.
  apply H.
Defined.

Lemma acked_lt_max c x : wf c -> acked c x -> x < u64_max.
Proof.
  intros (Hk & _ & Hb) [?|Hin]; [ulia|]. unfold in_ranges in Hin.
  rewrite Exists_exists in Hin. destruct Hin as (r & Hr & ?).
  rewrite Forall_forall in Hb. specialize (Hb r Hr). ulia.
Qed.

(** What a schedule of unbounded acks acks. *)
Lemma run_acks_spec c os :
  wf c -> Forall is_u64 os ->
  wf (run c (OpAck <$> os)).1 /\
  forall x, acked (run c (OpAck <$> os)).1 x <-> acked c x \/ (x ∈ os /\ x < u64_max).
Proof.
  intros Hw Hos. revert c Hw. induction Hos as [|o os Ho _ IH]; intros c Hw.
  { simpl. split; [done|]. set_solver. }
  rewrite fmap_cons. simpl. unfold ack. pose proof (ack_bounded_ok c o None Hw Ho) as Hok.
  destruct (ack_bounded c o None) as [c1 out]. destruct Hok as [Hw1 Hok].
  destruct (IH c1 Hw1) as [Hw2 Hs2].
  destruct (run c1 (OpAck <$> os)) as [c2 log]; simpl in *.
  split; [done|]. intros x. rewrite Hs2, elem_of_cons. destruct out.
  - destruct Hok as (_ & Hs1 & _). rewrite Hs1.
    assert (o < u64_max) by (apply (acked_lt_max c1); [done|apply Hs1; auto]).
    intuition (subst; auto).
  - destruct Hok as (-> & [?| ->]); intuition (subst; auto; lia).
  - by destruct Hok as (_&_&_&m&?&_).
Qed.

(** Acks commute.  Two schedules of unbounded acks that ack the same
    offsets, in whatever order and with whatever duplicates, leave the very
    same cursor, whatever cursor they start from. *)
Theorem acks_order_independent c os1 os2 :
  wf c -> Forall is_u64 os1 -> Forall is_u64 os2 ->
  (forall o, o ∈ os1 <-> o ∈ os2) ->
  (run c (OpAck <$> os1)).1 = (run c (OpAck <$> os2)).1.
Proof.
  intros Hw H1 H2 Heq.
  destruct (run_acks_spec c os1 Hw H1) as [Hw1 Hs1], (run_acks_spec c os2 Hw H2) as [Hw2 Hs2].
  apply wf_ext; [done..|]. intros x _. by rewrite Hs1, Hs2, Heq.
Qed.

Lemma acks_order_independent_witness :
  (run cursor_3_5_8 (OpAck <$> [7; 3; 12; 4])).1 = mk_cursor 9 [(12, 13)] /\
  (run cursor_3_5_8 (OpAck <$> [7; 3; 12; 4])).1 = (run cursor_3_5_8 (OpAck <$> [12; 4; 7; 3; 7])).1.
Proof.
  split; [vm_compute; reflexivity|].
  apply acks_order_independent; [apply cursor_3_5_8_wf|forall_concrete|forall_concrete|set_solver].
Defined.
