(* ===== verification/CursorSnapshot.v ===== *)
(** * The durable cursor snapshot ([AckCursor::encode_snapshot] and
    [AckCursor::decode_snapshot] of [cursor.rs])

    Version byte, watermark, acked-ahead ranges, trailing CRC32C.  Decoding
    never reads out of range, accepts exactly the encodings of well-formed
    cursors, and gives the cursor back. *)

From S2P Require Import Prelude Search Bytes Cursor.

Section snapshot.
Context `{Crc32c}.

Definition SNAPSHOT_VERSION : Z := 1.
Definition SNAPSHOT_MIN_LEN : nat := 1 + 8 + 4.

Definition encode_range (r : Z * Z) : list Z := le_bytes 8 r.1 ++ le_bytes 8 r.2.

(** Everything the checksum covers. *)
Definition snapshot_body (c : AckCursor) : list Z :=
  [SNAPSHOT_VERSION] ++ le_bytes 8 (committed c) ++ flat_map encode_range (ahead c).

(** [encode_snapshot] appends to [out]; the checksum covers what it appended. *)
Definition encode_snapshot (c : AckCursor) (out : list Z) : list Z :=
  out ++ snapshot_body c ++ le_bytes 4 (crc32c (snapshot_body c)).

(** The [while pos < crc_at] loop of [decode_snapshot].  Running out of fuel is
    reported as a panic: [decode_snapshot_total] shows that it does not
    happen. *)
Fixpoint read_ranges (fuel : nat) (input : list Z) (pos crc_at : nat)
    : res (list (Z * Z)) SnapshotError :=
  match fuel with
  | O => Panic
  | S fuel =>
      if decide (pos < crc_at)%nat then
        let? s := or_panic (read_u64 input pos) in
        let? e := or_panic (read_u64 input (pos + 8)) in
        let? rest := read_ranges fuel input (pos + 16) crc_at in
        Ok ((s, e) :: rest)
      else Ok []
  end.

Definition decode_snapshot (input : list Z) : res AckCursor SnapshotError :=
  let fixed := SNAPSHOT_MIN_LEN in
  fail? bool_decide (length input < fixed)%nat with Truncated in
  let runs_len := (length input - fixed)%nat in
  fail? bool_decide (runs_len mod 16 <> 0)%nat with BadLength (length input) in
  let? version := or_panic (read_u8 input 0) in
  fail? negb (version =? SNAPSHOT_VERSION) with UnsupportedVersion version in
  let crc_at := (length input - 4)%nat in
  let? stored := or_panic (read_u32 input crc_at) in
  let? body := or_panic (slice input 0 crc_at) in
  fail? negb (crc32c body =? stored) with BadCrc in
  let? committed := or_panic (read_u64 input 1) in
  let? ahead := read_ranges (length input) input 9 crc_at in
  map_err Ranges (resume_with_ahead committed ahead).

(** ** Lemmas *)

Lemma length_encode_range r : length (encode_range r) = 16%nat.
Proof. unfold encode_range. by rewrite length_app, !length_le_bytes. Qed.

Lemma length_encode_ranges l : length (flat_map encode_range l) = (16 * length l)%nat.
Proof. induction l; simpl; [done|]. rewrite length_app, length_encode_range, IHl. lia. Qed.

Lemma encode_range_inj r1 r2 :
  is_u64 r1.1 -> is_u64 r1.2 -> is_u64 r2.1 -> is_u64 r2.2 ->
  encode_range r1 = encode_range r2 -> r1 = r2.
Proof.
  destruct r1 as [s1 e1], r2 as [s2 e2]; unfold encode_range; simpl. intros ???? Heq.
  apply app_inj_1 in Heq as [Hs He]; [|by rewrite !length_le_bytes].
  apply (f_equal le_val) in Hs, He.
  rewrite !le_val_le_bytes in Hs, He by eauto with bytes. by subst.
Qed.

(** The range region of any length that is a multiple of 16 reads without a
    panic, and re-encodes to itself. *)
Lemma read_ranges_spec fuel pre body post k :
  length body = (16 * k)%nat -> (k < fuel)%nat ->
  exists l, read_ranges fuel (pre ++ body ++ post) (length pre) (length pre + 16 * k) = Ok l /\
    length l = k /\
    (bytes_ok body -> flat_map encode_range l = body /\
       Forall (fun r => is_u64 r.1 /\ is_u64 r.2) l).
Proof.
  revert fuel pre body. induction k as [|k IH]; intros [|fuel] pre body Hlen Hf; try lia.
  { simpl. case_decide; [lia|]. exists []. destruct body; [|done]. auto. }
  cbn [read_ranges]. case_decide; [|lia].
  set (b1 := take 8 body). set (b2 := take 8 (drop 8 body)). set (b3 := drop 16 body).
  assert (Hb : body = b1 ++ b2 ++ b3).
  { unfold b1, b2, b3. rewrite <- (take_drop 8 body) at 1. f_equal.
    rewrite <- (take_drop 8 (drop 8 body)) at 1. f_equal. by rewrite drop_drop. }
  assert (Hl1 : length b1 = 8%nat) by (unfold b1; rewrite length_take; lia).
  assert (Hl2 : length b2 = 8%nat) by (unfold b2; rewrite length_take, length_drop; lia).
  assert (Hl3 : length b3 = (16 * k)%nat) by (unfold b3; rewrite length_drop; lia).
  clearbody b1 b2 b3. subst body. clear Hlen.
  assert (Hr1 : read_u64 (pre ++ (b1 ++ b2 ++ b3) ++ post) (length pre) = Some (le_val b1)).
  { rewrite <- app_assoc. by apply read_le_mid. }
  assert (Hr2 : read_u64 (pre ++ (b1 ++ b2 ++ b3) ++ post) (length pre + 8) = Some (le_val b2)).
  { rewrite <- !app_assoc, (app_assoc pre). apply read_le_mid; [|done]. rewrite length_app. lia. }
  rewrite Hr1, Hr2. cbn [or_panic res_bind].
  destruct (IH fuel (pre ++ b1 ++ b2) b3 Hl3 ltac:(lia)) as (l & Hl & Hlen & Hok).
  rewrite <- !app_assoc in Hl.
  replace (length (pre ++ b1 ++ b2)) with (length pre + 16)%nat in Hl
    by (rewrite !length_app; lia).
  replace (length pre + 16 + 16 * k)%nat with (length pre + 16 * S k)%nat in Hl by lia.
  rewrite <- !app_assoc. rewrite Hl. simpl.
  exists ((le_val b1, le_val b2) :: l). split; [done|]. split; [simpl; lia|].
  unfold bytes_ok. rewrite !Forall_app. intros (Hb1 & Hb2 & Hb3).
  destruct (Hok Hb3) as [Hf3 Hu3]. simpl. split.
  - rewrite Hf3. unfold encode_range; simpl.
    by rewrite !le_bytes_le_val', <- app_assoc.
  - constructor; [|done]. eauto using le_val_u64.
Qed.

(** The fixed-position view of an input whose length passes the two length
    checks. *)
Lemma decode_snapshot_shape v cb body crcb k :
  length cb = 8%nat -> length body = (16 * k)%nat -> length crcb = 4%nat ->
  exists l,
    decode_snapshot ([v] ++ cb ++ body ++ crcb) =
      (fail? negb (v =? SNAPSHOT_VERSION) with UnsupportedVersion v in
       fail? negb (crc32c ([v] ++ cb ++ body) =? le_val crcb) with BadCrc in
       map_err Ranges (resume_with_ahead (le_val cb) l)) /\
    (bytes_ok body -> flat_map encode_range l = body /\
       Forall (fun r => is_u64 r.1 /\ is_u64 r.2) l).
Proof.
  intros Hcb Hbody Hcrc. set (input := [v] ++ cb ++ body ++ crcb).
  assert (Hlen : length input = (13 + 16 * k)%nat).
  { unfold input. rewrite !length_app. simpl. lia. }
  destruct (read_ranges_spec (length input) ([v] ++ cb) body crcb k Hbody ltac:(lia))
    as (l & Hl & _ & Hok).
  exists l. split; [|done]. unfold decode_snapshot, SNAPSHOT_MIN_LEN. rewrite !Hlen.
  rewrite bool_decide_eq_false_2 by lia.
  replace (13 + 16 * k - (1 + 8 + 4))%nat with (k * 16)%nat by lia.
  rewrite Nat.Div0.mod_mul, bool_decide_eq_false_2 by lia.
  change (read_u8 input 0) with (Some v). cbn [or_panic res_bind].
  replace (13 + 16 * k - 4)%nat with (length ([v] ++ cb ++ body))
    by (rewrite !length_app; simpl; lia).
  assert (Hin : input = ([v] ++ cb ++ body) ++ crcb ++ []).
  { unfold input. by rewrite app_nil_r, <- !app_assoc. }
  assert (Hr : read_u32 input (length ([v] ++ cb ++ body)) = Some (le_val crcb)).
  { rewrite Hin. by apply read_le_mid. }
  assert (Hs : slice input 0 (length ([v] ++ cb ++ body)) = Some ([v] ++ cb ++ body)).
  { rewrite slice_0 by (rewrite Hlen, !length_app; simpl; lia). by rewrite Hin, take_app_length. }
  assert (Hc : read_u64 input 1 = Some (le_val cb)) by (by apply (read_le_mid 8 [v])).
  rewrite Hr, Hs, Hc. cbn [or_panic res_bind].
  replace (length ([v] ++ cb) + 16 * k)%nat with (length ([v] ++ cb ++ body)) in Hl
    by (rewrite !length_app; simpl; lia).
  rewrite <- app_assoc in Hl. fold input in Hl. rewrite Hlen in Hl.
  replace (length ([v] ++ cb)) with 9%nat in Hl by (rewrite length_app, Hcb; done).
  by rewrite Hl.
Qed.

(** An input long enough and of a whole number of ranges has that shape. *)
Lemma snapshot_split (input : list Z) k :
  length input = (13 + 16 * k)%nat ->
  exists v cb body crcb, input = [v] ++ cb ++ body ++ crcb /\
    length cb = 8%nat /\ length body = (16 * k)%nat /\ length crcb = 4%nat.
Proof.
  intros Hlen. destruct input as [|v rest]; [simpl in Hlen; lia|]. simpl in Hlen.
  exists v, (take 8 rest), (take (16 * k) (drop 8 rest)), (drop (16 * k) (drop 8 rest)).
  split; [|rewrite !length_take, !length_drop; lia].
  by rewrite !take_drop.
Qed.

Lemma check_ranges_ok p l :
  (check_ranges p l = Ok tt /\ ranges_ok p l) \/
  ((exists e, check_ranges p l = Err e) /\ ~ ranges_ok p l).
Proof.
  revert p. induction l as [|[s e] l IH]; intros p; simpl; [auto|].
  destruct (Z.leb_spec e s); [right; split; [eauto|lia]|].
  destruct (Z.leb_spec s p); [right; split; [eauto|lia]|].
  destruct (IH e) as [[-> ?]|[[x ->] ?]]; [left; auto|right; split; [eauto|tauto]].
Qed.

Lemma resume_with_ahead_ok p l c :
  resume_with_ahead p l = Ok c <-> ranges_ok p l /\ c = mk_cursor p l.
Proof.
  unfold resume_with_ahead. destruct (check_ranges_ok p l) as [[-> ?]|[[x ->] ?]]; naive_solver.
Qed.

Lemma length_snapshot_body c : length (snapshot_body c) = (9 + 16 * length (ahead c))%nat.
Proof.
  unfold snapshot_body. rewrite !length_app, length_le_bytes, length_encode_ranges. simpl. lia.
Qed.

Lemma encode_ranges_bytes l : bytes_ok (flat_map encode_range l).
Proof.
  induction l; simpl; [constructor|]. unfold encode_range, bytes_ok in *.
  rewrite !Forall_app. repeat split; auto using le_bytes_ok; apply le_bytes_ok.
Qed.

Lemma encode_ranges_inj l1 l2 :
  Forall (fun r => is_u64 r.1 /\ is_u64 r.2) l1 ->
  Forall (fun r => is_u64 r.1 /\ is_u64 r.2) l2 ->
  flat_map encode_range l1 = flat_map encode_range l2 -> l1 = l2.
Proof.
  intros H1. revert l2. induction H1 as [|r1 l1 [??] _ IH]; intros l2 [|r2 l2' [??] Hl2] Heq; simpl in *.
  - done.
  - apply (f_equal length) in Heq. rewrite length_app, length_encode_range in Heq. simpl in Heq. lia.
  - apply (f_equal length) in Heq. rewrite length_app, length_encode_range in Heq. simpl in Heq. lia.
  - apply app_inj_1 in Heq as [He Hl]; [|by rewrite !length_encode_range].
    f_equal; [by apply encode_range_inj|by apply IH].
Qed.

Lemma wf_ranges_u64 c : wf c -> Forall (fun r => is_u64 r.1 /\ is_u64 r.2) (ahead c).
Proof.
  intros (Hk & Hl & Hb). apply Forall_lookup. intros i [s e] Hi.
  rewrite Forall_lookup in Hb. specialize (Hb i _ Hi). simpl in *.
  destruct (ranges_ok_lookup _ _ _ _ _ Hl Hi). ulia.
Qed.

(** ** Properties *)

(** Decoding is total on every input. *)
Lemma decode_snapshot_total input : no_panic (decode_snapshot input).
Proof.
  destruct (decide (length input < SNAPSHOT_MIN_LEN)%nat) as [Hs|Hs].
  { unfold decode_snapshot. by rewrite bool_decide_eq_true_2. }
  destruct (decide ((length input - SNAPSHOT_MIN_LEN) mod 16 <> 0)%nat) as [Hm|Hm].
  { unfold decode_snapshot. rewrite bool_decide_eq_false_2, bool_decide_eq_true_2 by done. done. }
  assert (exists k, length input = 13 + 16 * k)%nat as [k Hk].
  { unfold SNAPSHOT_MIN_LEN in *. exists ((length input - 13) / 16)%nat.
    pose proof (Nat.div_mod_eq (length input - 13) 16). simpl in *. lia. }
  destruct (snapshot_split _ _ Hk) as (v & cb & body & crcb & -> & Hcb & Hb & Hcrc).
  destruct (decode_snapshot_shape v cb body crcb k Hcb Hb Hcrc) as (l & -> & _).
  repeat (case_if; [done|]). unfold resume_with_ahead.
  by destruct (check_ranges_ok (le_val cb) l) as [[-> _]|[[e ->] _]].
Qed.

Lemma snapshot_roundtrip c out :
  wf c -> decode_snapshot (drop (length out) (encode_snapshot c out)) = Ok c.
Proof.
  intros Hw. pose proof (wf_ranges_u64 c Hw) as Hu. destruct Hw as (Hk & Hl & Hb).
  unfold encode_snapshot. rewrite drop_app_length. unfold snapshot_body at 1.
  rewrite <- !app_assoc.
  destruct (decode_snapshot_shape SNAPSHOT_VERSION (le_bytes 8 (committed c))
    (flat_map encode_range (ahead c)) (le_bytes 4 (crc32c (snapshot_body c))) (length (ahead c)))
    as (l & -> & Hok); [apply length_le_bytes|apply length_encode_ranges|apply length_le_bytes|].
  destruct (Hok (encode_ranges_bytes _)) as [Hf Hlu].
  apply encode_ranges_inj in Hf; [|done..]. subst l.
  rewrite !le_val_le_bytes by eauto with bytes. simpl.
  fold (snapshot_body c). rewrite Z.eqb_refl. simpl.
  destruct (resume_with_ahead_ok (committed c) (ahead c) c) as [_ ->]; [done|].
  destruct c; simpl; auto.
Qed.

Lemma snapshot_canonical input c :
  bytes_ok input -> decode_snapshot input = Ok c -> wf c /\ encode_snapshot c [] = input.
Proof.
  intros Hin Hd.
  assert (exists k, length input = 13 + 16 * k)%nat as [k Hk].
  { unfold decode_snapshot, SNAPSHOT_MIN_LEN in Hd.
    destruct (bool_decide (length input < _)%nat) eqn:H1; [done|].
    destruct (bool_decide (_ <> _)%nat) eqn:H2; [done|].
    apply bool_decide_eq_false_1 in H1, H2.
    exists ((length input - 13) / 16)%nat.
    pose proof (Nat.div_mod_eq (length input - 13) 16). simpl in *. lia. }
  destruct (snapshot_split _ _ Hk) as (v & cb & body & crcb & -> & Hcb & Hb & Hcrc).
  destruct (decode_snapshot_shape v cb body crcb k Hcb Hb Hcrc) as (l & Hd' & Hok).
  rewrite Hd' in Hd. clear Hd'.
  destruct (Z.eqb_spec v SNAPSHOT_VERSION) as [->|]; [|done]. cbn [negb] in Hd.
  destruct (Z.eqb_spec (crc32c ([SNAPSHOT_VERSION] ++ cb ++ body)) (le_val crcb)) as [Hcs|]; [|done].
  cbn [negb] in Hd.
  unfold bytes_ok in Hin. apply Forall_cons in Hin as [_ Hin]. rewrite !Forall_app in Hin.
  destruct Hin as (Hbcb & Hbb & Hbcrc). destruct (Hok Hbb) as [Hf Hu].
  destruct (resume_with_ahead (le_val cb) l) as [c'|e|] eqn:Hr; try done.
  injection Hd as <-.
  apply resume_with_ahead_ok in Hr as [Hrk ->].
  split.
  { split; [by apply le_val_u64|]. split; [done|].
    eapply Forall_impl; [exact Hu|]. intros r [_ ?]. ulia. }
  unfold encode_snapshot, snapshot_body. cbn [committed ahead].
  rewrite Hf, (le_bytes_le_val' 8 cb), Hcs, (le_bytes_le_val' 4 crcb) by done.
  by rewrite <- !app_assoc.
Qed.

(** The cursor snapshot codec is exact.  A well-formed cursor appended to
    any buffer decodes to itself; any bytes that decode are the encoding of the
    cursor they decode to, which is well formed; and decoding never panics, so a
    torn or edited checkpoint is rejected and never misread. *)
Theorem cursor_snapshot_exact c out input :
  (wf c -> decode_snapshot (drop (length out) (encode_snapshot c out)) = Ok c) /\
  (bytes_ok input -> decode_snapshot input = Ok c -> wf c /\ encode_snapshot c [] = input) /\
  no_panic (decode_snapshot input).
Proof.
  split; [apply snapshot_roundtrip|]. split; [apply snapshot_canonical|apply decode_snapshot_total].
Qed.

End snapshot.

Definition snapshot_bytes : list Z := @encode_snapshot castagnoli cursor_3_5_8 [].

Lemma cursor_snapshot_exact_witness :
  wf cursor_3_5_8 /\ bytes_ok snapshot_bytes /\
  @decode_snapshot castagnoli (drop 2 (@encode_snapshot castagnoli cursor_3_5_8 [7; 7])) = Ok cursor_3_5_8 /\
  @encode_snapshot castagnoli cursor_3_5_8 [] = snapshot_bytes /\
  @decode_snapshot castagnoli (<[9%nat := 0]> snapshot_bytes) = Err BadCrc.
Proof.
  assert (Hb : bytes_ok snapshot_bytes) by (apply (bool_decide_unpack _); vm_compute; exact I).
  assert (Hd : @decode_snapshot castagnoli snapshot_bytes = Ok cursor_3_5_8) by (vm_compute; reflexivity).
  pose proof (@cursor_snapshot_exact castagnoli cursor_3_5_8 [7; 7] snapshot_bytes) as (H1 & H2 & _).
  split; [apply cursor_3_5_8_wf|]. split; [exact Hb|].
  split; [exact (H1 cursor_3_5_8_wf)|]. split; [exact (proj2 (H2 Hb Hd))|vm_compute; reflexivity].
Defined.
