(* ===== verification/Attempt.v ===== *)
(** * The durable attempt-count snapshot ([attempt.rs])

    The snapshot carries each in-flight offset's delivery count over a restart,
    so that a poison message still reaches its delivery cap on a device that
    reboots often. *)

From S2P Require Import Prelude Bytes.

Inductive AttemptSnapshotError :=
| AtTruncated
| AtBadLength (len : nat)
| AtUnsupportedVersion (v : Z)
| CountMismatch (declared actual : Z)
| AtBadCrc
| NotSorted (offset prev_offset : Z).

Section attempt.
Context `{Crc32c}.

Definition ATTEMPT_SNAPSHOT_VERSION : Z := 1.
Definition ATTEMPT_SNAPSHOT_MIN_LEN : nat := 1 + 4 + 4.
Definition PAIR_LEN : nat := 8 + 4.

Definition encode_pair (p : Z * Z) : list Z := le_bytes 8 p.1 ++ le_bytes 4 p.2.

(** [u32::try_from(pairs.len()).unwrap_or(u32::MAX)] *)
Definition pair_count (pairs : list (Z * Z)) : Z := Z.min (Z.of_nat (length pairs)) u32_max.

Definition attempt_body (pairs : list (Z * Z)) : list Z :=
  [ATTEMPT_SNAPSHOT_VERSION] ++ le_bytes 4 (pair_count pairs) ++ flat_map encode_pair pairs.

Definition encode_attempt_snapshot (pairs : list (Z * Z)) (out : list Z) : list Z :=
  out ++ attempt_body pairs ++ le_bytes 4 (crc32c (attempt_body pairs)).

(** The [while pos < crc_at] loop, with the offset of the previous pair; out of
    fuel counts as a panic and is shown not to happen. *)
Fixpoint read_pairs (fuel : nat) (input : list Z) (pos crc_at : nat) (prev : option Z)
    : res (list (Z * Z)) AttemptSnapshotError :=
  match fuel with
  | O => Panic
  | S fuel =>
      if decide (pos < crc_at)%nat then
        let? offset := or_panic (read_u64 input pos) in
        let? attempt := or_panic (read_u32 input (pos + 8)) in
        match prev with
        | Some p =>
            fail? offset <=? p with NotSorted offset p in
            let? rest := read_pairs fuel input (pos + PAIR_LEN) crc_at (Some offset) in
            Ok ((offset, attempt) :: rest)
        | None =>
            let? rest := read_pairs fuel input (pos + PAIR_LEN) crc_at (Some offset) in
            Ok ((offset, attempt) :: rest)
        end
      else Ok []
  end.

Definition decode_attempt_snapshot (input : list Z)
    : res (list (Z * Z)) AttemptSnapshotError :=
  fail? bool_decide (length input < ATTEMPT_SNAPSHOT_MIN_LEN)%nat with AtTruncated in
  let? version := or_panic (read_u8 input 0) in
  fail? negb (version =? ATTEMPT_SNAPSHOT_VERSION) with AtUnsupportedVersion version in
  let pairs_bytes := (length input - ATTEMPT_SNAPSHOT_MIN_LEN)%nat in
  fail? bool_decide (pairs_bytes mod PAIR_LEN <> 0)%nat with AtBadLength (length input) in
  let? declared := or_panic (read_u32 input 1) in
  let actual := Z.of_nat (pairs_bytes / PAIR_LEN) in
  fail? negb (declared =? actual) with CountMismatch declared actual in
  let crc_at := (length input - 4)%nat in
  let? stored := or_panic (read_u32 input crc_at) in
  let? body := or_panic (slice input 0 crc_at) in
  fail? negb (crc32c body =? stored) with AtBadCrc in
  read_pairs (length input) input (ATTEMPT_SNAPSHOT_MIN_LEN - 4) crc_at None.

(** ** The accepted shape *)

(** Strictly ascending offsets above [prev]. *)
Fixpoint ascending (prev : option Z) (l : list (Z * Z)) : Prop :=
  match l with
  | [] => True
  | (o, _) :: l => (match prev with Some p => p < o | None => True end) /\ ascending (Some o) l
  end.

Definition pair_ok (p : Z * Z) : Prop := is_u64 p.1 /\ is_u32 p.2.

Lemma length_encode_pair p : length (encode_pair p) = PAIR_LEN.
Proof. unfold encode_pair. by rewrite length_app, !length_le_bytes. Qed.

Lemma length_encode_pairs l : length (flat_map encode_pair l) = (PAIR_LEN * length l)%nat.
Proof.
  induction l; cbn [flat_map length]; [lia|]. rewrite length_app, length_encode_pair, IHl. lia.
Qed.

Lemma encode_pairs_inj l1 l2 :
  Forall pair_ok l1 -> Forall pair_ok l2 ->
  flat_map encode_pair l1 = flat_map encode_pair l2 -> l1 = l2.
Proof.
  intros H1. revert l2. induction H1 as [|[o1 a1] l1 [??] _ IH];
    intros l2 [|[o2 a2] l2' [??] Hl2] Heq; cbn [flat_map] in *.
  - done.
  - apply (f_equal length) in Heq. rewrite length_app, length_encode_pair in Heq. simpl in Heq. lia.
  - apply (f_equal length) in Heq. rewrite length_app, length_encode_pair in Heq. simpl in Heq. lia.
  - apply app_inj_1 in Heq as [He Hl]; [|by rewrite !length_encode_pair].
    apply app_inj_1 in He as [Ho Ha]; [|by rewrite !length_le_bytes]. simpl in *.
    apply (f_equal le_val) in Ho, Ha. rewrite !le_val_le_bytes in Ho, Ha by auto with bytes.
    subst. f_equal. by apply IH.
Qed.

Lemma encode_pairs_bytes l : bytes_ok (flat_map encode_pair l).
Proof.
  induction l; cbn [flat_map]; [constructor|]. unfold encode_pair, bytes_ok in *.
  rewrite !Forall_app. repeat split; auto; apply le_bytes_ok.
Qed.

(** The pair region of any whole number of pairs reads without a panic: either
    some list whose offsets ascend and that re-encodes to the region, or the
    first out-of-order pair is reported. *)
Lemma read_pairs_spec fuel pre body post k prev :
  length body = (PAIR_LEN * k)%nat -> (k < fuel)%nat ->
  exists l, (bytes_ok body -> flat_map encode_pair l = body /\ Forall pair_ok l) /\ length l = k /\
    ((ascending prev l /\
      read_pairs fuel (pre ++ body ++ post) (length pre) (length pre + PAIR_LEN * k) prev = Ok l) \/
     (~ ascending prev l /\ exists o p,
      read_pairs fuel (pre ++ body ++ post) (length pre) (length pre + PAIR_LEN * k) prev
      = Err (NotSorted o p))).
Proof.
  revert fuel pre body prev. unfold PAIR_LEN.
  induction k as [|k IH]; intros [|fuel] pre body prev Hlen Hf; try lia.
  { exists []. destruct body; [|simpl in Hlen; lia]. split; [done|].
    split; [done|]. left. split; [done|]. cbn [read_pairs]. case_decide; [lia|done]. }
  set (b1 := take 8 body). set (b2 := take 4 (drop 8 body)). set (b3 := drop 4 (drop 8 body)).
  assert (Hbd : body = b1 ++ b2 ++ b3) by (unfold b1, b2, b3; by rewrite !take_drop).
  assert (Hl1 : length b1 = 8%nat) by (unfold b1; rewrite length_take; lia).
  assert (Hl2 : length b2 = 4%nat) by (unfold b2; rewrite length_take, length_drop; lia).
  assert (Hl3 : length b3 = ((8 + 4) * k)%nat) by (unfold b3; rewrite !length_drop; lia).
  clearbody b1 b2 b3. subst body. clear Hlen.
  destruct (IH fuel (pre ++ b1 ++ b2) b3 (Some (le_val b1)) Hl3 ltac:(lia))
    as (l & Hok & Hlen & Hread).
  replace (length (pre ++ b1 ++ b2)) with (length pre + 12)%nat in Hread
    by (rewrite !length_app; lia).
  replace (length pre + 12 + (8 + 4) * k)%nat with (length pre + (8 + 4) * S k)%nat in Hread by lia.
  rewrite <- !app_assoc in Hread.
  exists ((le_val b1, le_val b2) :: l). split.
  { unfold bytes_ok. rewrite !Forall_app. intros (Hb1 & Hb2 & Hb3).
    destruct (Hok Hb3) as [Hfm Hu]. cbn [flat_map]. split.
    - rewrite Hfm. unfold encode_pair; simpl fst; simpl snd.
      by rewrite !le_bytes_le_val', <- app_assoc.
    - constructor; [split; simpl; auto using le_val_u64, le_val_u32|done]. }
  split; [simpl; lia|].
  cbn [read_pairs]. case_decide; [|lia]. rewrite <- !app_assoc.
  assert (read_u64 (pre ++ b1 ++ b2 ++ b3 ++ post) (length pre) = Some (le_val b1)) as ->
    by by apply read_le_mid.
  assert (read_u32 (pre ++ b1 ++ b2 ++ b3 ++ post) (length pre + 8) = Some (le_val b2)) as ->.
  { rewrite (app_assoc pre). apply read_le_mid; [rewrite length_app; lia|done]. }
  cbn [or_panic res_bind ascending]. unfold PAIR_LEN. change (8 + 4)%nat with 12%nat in *.
  destruct prev as [p|]; [destruct (Z.leb_spec (le_val b1) p)|];
    [right; split; [lia|eauto]|..];
    destruct Hread as [[Ha ->]|[Ha (o & q & ->)]]; simpl;
    [left; auto with lia|right; split; [tauto|eauto]|left; auto|right; split; [tauto|eauto]].
Qed.

(** The fixed-position view of an input whose length passes the length checks. *)
Lemma decode_attempt_shape v nb body crcb k :
  length nb = 4%nat -> length body = (PAIR_LEN * k)%nat -> length crcb = 4%nat ->
  exists l, (bytes_ok body -> flat_map encode_pair l = body /\ Forall pair_ok l) /\ length l = k /\
    (exists tail,
      decode_attempt_snapshot ([v] ++ nb ++ body ++ crcb) =
        (fail? negb (v =? ATTEMPT_SNAPSHOT_VERSION) with AtUnsupportedVersion v in
         fail? negb (le_val nb =? Z.of_nat k) with CountMismatch (le_val nb) (Z.of_nat k) in
         fail? negb (crc32c ([v] ++ nb ++ body) =? le_val crcb) with AtBadCrc in
         tail) /\
      ((ascending None l /\ tail = Ok l) \/
       (~ ascending None l /\ exists o p, tail = Err (NotSorted o p)))).
Proof.
  intros Hnb Hbody Hcrc. set (input := [v] ++ nb ++ body ++ crcb).
  assert (Hlen : length input = (9 + PAIR_LEN * k)%nat).
  { unfold input. rewrite !length_app. simpl length. lia. }
  destruct (read_pairs_spec (length input) ([v] ++ nb) body crcb k None Hbody ltac:(unfold PAIR_LEN in *; lia))
    as (l & Hok & Hll & Hread).
  exists l. split; [done|]. split; [done|].
  assert (Hcl : length ([v] ++ nb ++ body) = (5 + PAIR_LEN * k)%nat)
    by (rewrite !length_app; simpl length; lia).
  assert (Hin : input = ([v] ++ nb ++ body) ++ crcb ++ []).
  { unfold input. by rewrite app_nil_r, <- !app_assoc. }
  replace (length ([v] ++ nb)) with 5%nat in Hread by (rewrite length_app, Hnb; done).
  rewrite <- app_assoc in Hread. fold input in Hread.
  unfold decode_attempt_snapshot, ATTEMPT_SNAPSHOT_MIN_LEN. rewrite !Hlen in *.
  rewrite bool_decide_eq_false_2 by lia.
  change (read_u8 input 0) with (Some v). cbn [or_panic res_bind].
  replace (9 + PAIR_LEN * k - (1 + 4 + 4))%nat with (k * PAIR_LEN)%nat by lia.
  rewrite Nat.Div0.mod_mul, Nat.div_mul, (bool_decide_eq_false_2 (0 <> 0)%nat) by (done || lia).
  replace (9 + PAIR_LEN * k - 4)%nat with (length ([v] ++ nb ++ body)) by lia.
  assert (read_u32 input 1 = Some (le_val nb)) as -> by by apply (read_le_mid 4 [v]).
  assert (read_u32 input (length ([v] ++ nb ++ body)) = Some (le_val crcb)) as ->.
  { rewrite Hin. by apply read_le_mid. }
  assert (slice input 0 (length ([v] ++ nb ++ body)) = Some ([v] ++ nb ++ body)) as ->.
  { rewrite slice_0 by (rewrite Hcl, Hlen; lia). by rewrite Hin, take_app_length. }
  cbn [or_panic res_bind]. rewrite Hcl. change (1 + 4 + 4 - 4)%nat with 5%nat.
  eexists. split; [done|].
  destruct Hread as [[Ha ->]|[Ha He]]; [left; auto|right; auto].
Qed.

Lemma attempt_split (input : list Z) k :
  length input = (9 + PAIR_LEN * k)%nat ->
  exists v nb body crcb, input = [v] ++ nb ++ body ++ crcb /\
    length nb = 4%nat /\ length body = (PAIR_LEN * k)%nat /\ length crcb = 4%nat.
Proof.
  intros Hlen. destruct input as [|v rest]; [simpl in Hlen; lia|]. cbn [length] in Hlen.
  exists v, (take 4 rest), (take (PAIR_LEN * k) (drop 4 rest)), (drop (PAIR_LEN * k) (drop 4 rest)).
  split; [|rewrite !length_take, !length_drop; lia]. by rewrite !take_drop.
Qed.

(** What the encoder writes decodes to the same pairs. *)
Lemma attempt_roundtrip pairs :
  Forall pair_ok pairs -> ascending None pairs -> Z.of_nat (length pairs) <= u32_max ->
  decode_attempt_snapshot (encode_attempt_snapshot pairs []) = Ok pairs.
Proof.
  intros Hok Hasc Hn. unfold encode_attempt_snapshot. rewrite app_nil_l. unfold attempt_body at 1.
  rewrite <- !app_assoc.
  destruct (decode_attempt_shape ATTEMPT_SNAPSHOT_VERSION (le_bytes 4 (pair_count pairs))
    (flat_map encode_pair pairs) (le_bytes 4 (crc32c (attempt_body pairs))) (length pairs))
    as (l & Hl & _ & tail & -> & Htail);
    [apply length_le_bytes|apply length_encode_pairs|apply length_le_bytes|].
  destruct (Hl (encode_pairs_bytes _)) as [Hf Hlu].
  apply encode_pairs_inj in Hf; [|done..]. subst l.
  assert (is_u32 (pair_count pairs)) by (unfold pair_count; ulia).
  rewrite !le_val_le_bytes by eauto with bytes. fold (attempt_body pairs).
  assert (pair_count pairs = Z.of_nat (length pairs)) as -> by (unfold pair_count; lia).
  rewrite !Z.eqb_refl. by destruct Htail as [[_ ->]|[? _]].
Qed.

(** The length checks of [decode_attempt_snapshot]. *)
Lemma decode_attempt_length input l :
  decode_attempt_snapshot input = Ok l -> exists k, length input = (9 + PAIR_LEN * k)%nat.
Proof.
  intros Hd. unfold decode_attempt_snapshot, ATTEMPT_SNAPSHOT_MIN_LEN in Hd.
  destruct (bool_decide (length input < _)%nat) eqn:H1; [done|].
  destruct (read_u8 input 0) as [v|]; [|done]. cbn [or_panic res_bind] in Hd.
  destruct (negb _); [done|].
  destruct (bool_decide (_ <> _)%nat) eqn:H2; [done|].
  apply bool_decide_eq_false_1 in H1, H2.
  exists ((length input - 9) / PAIR_LEN)%nat.
  pose proof (Nat.div_mod_eq (length input - 9) PAIR_LEN). simpl in *. lia.
Qed.

Lemma decode_attempt_total input : no_panic (decode_attempt_snapshot input).
Proof.
  destruct (decide (length input < ATTEMPT_SNAPSHOT_MIN_LEN)%nat) as [Hs|Hs].
  { unfold decode_attempt_snapshot. by rewrite bool_decide_eq_true_2. }
  destruct (decide ((length input - ATTEMPT_SNAPSHOT_MIN_LEN) mod PAIR_LEN <> 0)%nat) as [Hm|Hm].
  { unfold decode_attempt_snapshot. rewrite bool_decide_eq_false_2 by done.
    destruct input as [|v rest]; [unfold ATTEMPT_SNAPSHOT_MIN_LEN in Hs; simpl in Hs; lia|].
    cbn [read_u8 lookup list_lookup or_panic res_bind]. case_if; [done|].
    by rewrite bool_decide_eq_true_2. }
  assert (exists k, length input = 9 + PAIR_LEN * k)%nat as [k Hk].
  { unfold ATTEMPT_SNAPSHOT_MIN_LEN in *. exists ((length input - 9) / PAIR_LEN)%nat.
    pose proof (Nat.div_mod_eq (length input - 9) PAIR_LEN). simpl in *. lia. }
  destruct (attempt_split _ _ Hk) as (v & nb & body & crcb & -> & Hnb & Hb & Hcrc).
  destruct (decode_attempt_shape v nb body crcb k Hnb Hb Hcrc) as (l & _ & _ & tail & -> & Ht).
  repeat (case_if; [done|]). by destruct Ht as [[_ ->]|[_ (o & p & ->)]].
Qed.

(** Bytes that decode are the encoding of the pairs they decode to. *)
Lemma attempt_canonical input pairs :
  bytes_ok input -> decode_attempt_snapshot input = Ok pairs ->
  Forall pair_ok pairs /\ ascending None pairs /\
  (Z.of_nat (length pairs) <= u32_max -> input = encode_attempt_snapshot pairs []).
Proof.
  intros Hin Hd. destruct (decode_attempt_length _ _ Hd) as [k Hk].
  destruct (attempt_split _ _ Hk) as (v & nb & body & crcb & -> & Hnb & Hb & Hcrc).
  destruct (decode_attempt_shape v nb body crcb k Hnb Hb Hcrc) as (l & Hok & Hll & tail & Hd' & Ht).
  rewrite Hd' in Hd. clear Hd'.
  destruct (Z.eqb_spec v ATTEMPT_SNAPSHOT_VERSION) as [->|]; [|done]. cbn [negb] in Hd.
  destruct (Z.eqb_spec (le_val nb) (Z.of_nat k)) as [Hkn|]; [|done]. cbn [negb] in Hd.
  destruct (Z.eqb_spec (crc32c ([ATTEMPT_SNAPSHOT_VERSION] ++ nb ++ body)) (le_val crcb)) as [Hcs|];
    [|done]. cbn [negb] in Hd.
  destruct Ht as [[Hasc ->]|[_ (o & p & ->)]]; [|done]. injection Hd as ->.
  apply Forall_cons in Hin as [_ Hin]. rewrite !Forall_app in Hin. destruct Hin as (Hbn & Hbb & Hbc).
  destruct (Hok Hbb) as [Hf Hu]. split; [done|]. split; [done|]. intros Hn.
  assert (Hbody : attempt_body pairs = [ATTEMPT_SNAPSHOT_VERSION] ++ nb ++ body).
  { unfold attempt_body, pair_count. rewrite Hf, Z.min_l, Hll, <- Hkn, le_bytes_le_val' by done. done. }
  unfold encode_attempt_snapshot. rewrite Hbody, Hcs, le_bytes_le_val' by done.
  by rewrite <- !app_assoc.
Qed.

(** The attempt snapshot codec is exact in both directions.  Sorted pairs
    (what the lease table produces) survive encode and decode unchanged, and
    any bytes that decode are the encoding of the pairs they decode to, which
    ascend strictly; and decoding never panics: a torn or edited snapshot never
    yields a wrong count. *)
Theorem attempt_snapshot_exact input pairs :
  bytes_ok input -> Z.of_nat (length pairs) <= u32_max ->
  (decode_attempt_snapshot input = Ok pairs <->
   Forall pair_ok pairs /\ ascending None pairs /\ input = encode_attempt_snapshot pairs []) /\
  no_panic (decode_attempt_snapshot input).
Proof.
  intros Hin Hn. split; [|apply decode_attempt_total]. split; [|intros (?&?&->); by apply attempt_roundtrip].
  intros Hd. destruct (attempt_canonical input pairs Hin Hd) as (? & ? & ?). auto.
Qed.

End attempt.

Definition attempt_bytes : list Z :=
  @encode_attempt_snapshot castagnoli [(4, 2); (9, 1)] [].

Lemma attempt_snapshot_exact_witness :
  bytes_ok attempt_bytes /\ Z.of_nat (length [(4, 2); (9, 1)]) <= u32_max /\
  @decode_attempt_snapshot castagnoli attempt_bytes = Ok [(4, 2); (9, 1)] /\
  ascending None [(4, 2); (9, 1)].
Proof.
  assert (bytes_ok attempt_bytes) as Hb by (apply (bool_decide_unpack _); vm_compute; exact I).
  assert (Z.of_nat (length [(4, 2); (9, 1)]) <= u32_max) as Hn by (vm_compute; discriminate).
  assert (@decode_attempt_snapshot castagnoli attempt_bytes = Ok [(4, 2); (9, 1)]) as Hd
    by (vm_compute; reflexivity).
  split; [done|]. split; [done|]. split; [done|].
  apply (proj1 (@attempt_snapshot_exact castagnoli attempt_bytes [(4, 2); (9, 1)] Hb Hn)) in Hd. apply Hd.
Defined.
