(* ===== verification/Delivery.v ===== *)
(** * The delivery policy ([delivery.rs])

    Max-deliver poison detection and the nack backoff schedule. *)

From S2P Require Import Prelude.

Inductive AckVerb :=
| VAck
| VNack (delay_nanos : Z)
| VProgress
| VTerm.

Inductive Disposition := Deliver | DeadLetter.

#[export] Instance Disposition_eq_dec : EqDecision Disposition.
Proof. solve_decision. Defined.

Inductive ConfigError := UnlimitedDeliverNotAllowed.

Record DeliveryConfig := mk_delivery {
  max_deliver : Z;
  allow_unlimited : bool;
  backoff_nanos : list Z;
  attempts_flush_redeliveries : Z
}.

Definition DEFAULT_MAX_DELIVER : Z := 5.
Definition DEFAULT_ATTEMPTS_FLUSH_REDELIVERIES : Z := 1.

(** [DeliveryConfig::new] *)
Definition delivery_new (max_deliver : Z) (allow_unlimited : bool) (backoff : list Z)
    : res DeliveryConfig ConfigError :=
  fail? ((max_deliver =? 0) || (max_deliver =? u32_max)) && negb allow_unlimited
    with UnlimitedDeliverNotAllowed in
  Ok (mk_delivery max_deliver allow_unlimited backoff DEFAULT_ATTEMPTS_FLUSH_REDELIVERIES).

Definition with_attempts_flush_redeliveries (c : DeliveryConfig) (n : Z) : DeliveryConfig :=
  mk_delivery (max_deliver c) (allow_unlimited c) (backoff_nanos c) n.

Definition disposition (c : DeliveryConfig) (deliveries : Z) : Disposition :=
  if negb (max_deliver c =? 0) && (max_deliver c <? deliveries) then DeadLetter else Deliver.

(** [None] is the out-of-range index panic; see [nack_backoff_spec]. *)
Definition nack_backoff (c : DeliveryConfig) (attempt : Z) : option Z :=
  match backoff_nanos c with
  | [] => Some 0
  | _ =>
      let last := (length (backoff_nanos c) - 1)%nat in
      let idx := Nat.min (Z.to_nat (sat_sub attempt 1)) last in
      backoff_nanos c !! idx
  end.

Definition effective_nack_delay (c : DeliveryConfig) (attempt : Z) (explicit_delay : option Z)
    : option Z :=
  match explicit_delay with
  | Some d => Some d
  | None => nack_backoff c attempt
  end.

(** A config built without the opt-in has a cap that can fire. *)
Lemma delivery_new_bounded m b c :
  0 <= m <= u32_max -> delivery_new m false b = Ok c ->
  max_deliver c = m /\ 0 < m < u32_max.
Proof.
  intros Hm. unfold delivery_new. destruct (_ && _) eqn:Hb; [done|]. intros [= <-]. simpl.
  rewrite andb_true_r in Hb. bool_to_prop. lia.
Qed.

Lemma disposition_deliver c d :
  max_deliver c <> 0 -> disposition c d = Deliver <-> d <= max_deliver c.
Proof. intros Hm. unfold disposition. case_if; split; intros; try done; intuition lia. Qed.

(** the nack backoff never indexes out of range, escalates along the
    schedule by attempt, and stays at the schedule's last entry for every later
    attempt; an explicit delay wins over the schedule. *)
Theorem nack_backoff_spec c attempt explicit :
  1 <= attempt ->
  exists d, effective_nack_delay c attempt explicit = Some d /\
    match explicit, backoff_nanos c with
    | Some e, _ => d = e
    | None, [] => d = 0
    | None, s => (attempt <= Z.of_nat (length s) -> s !! Z.to_nat (attempt - 1) = Some d) /\
                 (Z.of_nat (length s) <= attempt -> last s = Some d)
    end.
Proof.
  intros Ha. unfold effective_nack_delay, nack_backoff.
  destruct explicit as [e|]; [eauto|].
  destruct (backoff_nanos c) as [|s0 s']; [eauto|]. set (s := s0 :: s').
  assert (Hs : (1 <= length s)%nat) by (unfold s; simpl; lia).
  replace (sat_sub attempt 1) with (attempt - 1) by ulia.
  destruct (lookup_lt_is_Some_2 s (Nat.min (Z.to_nat (attempt - 1)) (length s - 1))) as [d Hd]; [lia|].
  exists d. split; [done|]. split; intros Hle.
  - rewrite <- Hd. f_equal. lia.
  - rewrite last_lookup, <- Hd. f_equal. lia.
Qed.

Lemma nack_backoff_spec_witness :
  let c := mk_delivery 5 false [10; 20; 40] 1 in
  1 <= 7 /\ effective_nack_delay c 7 None = Some 40 /\ effective_nack_delay c 2 None = Some 20 /\
  exists d, effective_nack_delay c 7 None = Some d.
Proof.
  split; [lia|]. split; [reflexivity|]. split; [reflexivity|].
  destruct (nack_backoff_spec (mk_delivery 5 false [10; 20; 40] 1) 7 None) as (d & Hd & _); [lia|].
  exists d. exact Hd.
Defined.
