(* ===== verification/Lease.v ===== *)
(** * The lease table ([lease.rs])

    Visibility-timeout delivery with generation fencing.  The state is the
    in-flight leases by offset, the next generation, the attempt counts carried
    over a restart and the redelivery counter behind the attempt flush; every
    method of [LeaseTable] is a definition.  Times are nanoseconds passed in by
    the caller. *)

From S2P Require Import Prelude.

(** ** State *)

Record LeaseConfig := mk_config {
  visibility_nanos : Z;
  hard_cap_nanos : Z
}.

Definition DEFAULT_VISIBILITY_MS : Z := 30000.
Definition DEFAULT_HARD_CAP_MS : Z := 300000.

Definition from_millis (visibility_ms hard_cap_ms : Z) : LeaseConfig :=
  mk_config (sat_mul64 visibility_ms 1000000) (sat_mul64 hard_cap_ms 1000000).

Definition default_config : LeaseConfig :=
  from_millis DEFAULT_VISIBILITY_MS DEFAULT_HARD_CAP_MS.

Record LeaseToken := mk_token {
  tok_offset : Z;
  tok_generation : Z
}.

#[export] Instance LeaseToken_eq_dec : EqDecision LeaseToken.
Proof. solve_decision. Defined.

Record Lease := mk_lease {
  generation : Z;
  attempt_start : Z;
  deadline : Z;
  deliveries : Z
}.

Inductive Claim :=
| Granted (token : LeaseToken) (deliveries : Z)
| InFlight
| Exhausted.

Inductive AckOutcome := Acked | AckFenced.

Inductive ExtendOutcome :=
| Extended (deadline : Z)
| CapReached
| ExtendFenced.

Inductive NackOutcome :=
| Requeued (deadline : Z)
| NackFenced
| NackExhausted.

Record LeaseTable := mk_table {
  config : LeaseConfig;
  leases : gmap Z Lease;
  next_generation : Z;
  carried : gmap Z Z;
  redeliveries_since_flush : Z
}.

Definition set_leases (t : LeaseTable) (m : gmap Z Lease) : LeaseTable :=
  mk_table (config t) m (next_generation t) (carried t) (redeliveries_since_flush t).
Definition set_generation (t : LeaseTable) (g : Z) : LeaseTable :=
  mk_table (config t) (leases t) g (carried t) (redeliveries_since_flush t).
Definition set_carried (t : LeaseTable) (m : gmap Z Z) : LeaseTable :=
  mk_table (config t) (leases t) (next_generation t) m (redeliveries_since_flush t).
Definition set_redeliveries (t : LeaseTable) (n : Z) : LeaseTable :=
  mk_table (config t) (leases t) (next_generation t) (carried t) n.

(** ** Operations *)

(** [LeaseTable::new] *)
Definition table_new (c : LeaseConfig) : LeaseTable := mk_table c ∅ 0 ∅ 0.

Definition note_attempts_flushed (t : LeaseTable) : LeaseTable := set_redeliveries t 0.

Definition resume_attempts (t : LeaseTable) (attempts : list (Z * Z)) : LeaseTable :=
  foldl (fun t '(offset, attempt) =>
    if 0 <? attempt then set_carried t (<[offset := attempt]> (carried t)) else t) t attempts.

Definition attempt_counts (t : LeaseTable) : list (Z * Z) :=
  (fun '(off, l) => (off, deliveries l)) <$> btree_list (leases t).

(** The merged map of [all_attempt_counts]: every lease's count, raised to the
    carried one where both exist, over the carried counts. *)
Definition merged_counts (t : LeaseTable) : gmap Z Z :=
  map_fold (fun off l m => <[off := Z.max (default 0 (m !! off)) (deliveries l)]> m)
    (carried t) (leases t).

Definition all_attempt_counts (t : LeaseTable) : list (Z * Z) := btree_list (merged_counts t).

Definition in_flight (t : LeaseTable) : nat := size (leases t).

Definition release_below (t : LeaseTable) (up : Z) : LeaseTable :=
  set_carried (set_leases t (filter (fun kv => up <= kv.1) (leases t)))
    (filter (fun kv => up <= kv.1) (carried t)).

(** The deadline of a fresh grant at [now]. *)
Definition grant_deadline (c : LeaseConfig) (now : Z) : Z :=
  Z.min (sat_add64 now (visibility_nanos c)) (sat_add64 now (hard_cap_nanos c)).

Definition claim (t : LeaseTable) (off now : Z) : LeaseTable * Claim :=
  let active := match leases t !! off with Some l => now <? deadline l | None => false end in
  if active then (t, InFlight)
  else
    let gen := next_generation t in
    match checked_add64 gen 1 with
    | None => (t, Exhausted)
    | Some next =>
        let t := set_generation t next in
        let dl := grant_deadline (config t) now in
        match leases t !! off with
        | Some l =>
            let d := sat_add32 (deliveries l) 1 in
            let t := set_leases t (<[off := mk_lease gen now dl d]> (leases t)) in
            let t := set_redeliveries t (sat_add32 (redeliveries_since_flush t) 1) in
            (t, Granted (mk_token off gen) d)
        | None =>
            let resumed :=
              match carried t !! off with Some prior => sat_add32 prior 1 | None => 1 end in
            let t := set_carried t (delete off (carried t)) in
            let t := if 2 <=? resumed
                     then set_redeliveries t (sat_add32 (redeliveries_since_flush t) 1) else t in
            let t := set_leases t (<[off := mk_lease gen now dl resumed]> (leases t)) in
            (t, Granted (mk_token off gen) resumed)
        end
    end.

Definition reseal_from_to (t : LeaseTable) (off from gen : Z) : LeaseTable * bool :=
  match leases t !! off with
  | Some l =>
      if generation l =? from
      then (set_leases t (<[off := mk_lease gen (attempt_start l) (deadline l) (deliveries l)]> (leases t)), true)
      else (t, false)
  | None => (t, false)
  end.

Definition is_claimable (t : LeaseTable) (off now : Z) : bool :=
  negb (match leases t !! off with Some l => now <? deadline l | None => false end).

(** The lease a token still owns. *)
Definition owned (t : LeaseTable) (tok : LeaseToken) : option Lease :=
  match leases t !! tok_offset tok with
  | Some l => if generation l =? tok_generation tok then Some l else None
  | None => None
  end.

(** [LeaseTable::ack] *)
Definition lease_ack (t : LeaseTable) (tok : LeaseToken) : LeaseTable * AckOutcome :=
  match owned t tok with
  | Some _ => (set_leases t (delete (tok_offset tok) (leases t)), Acked)
  | None => (t, AckFenced)
  end.

Definition extend (t : LeaseTable) (tok : LeaseToken) (now : Z) : LeaseTable * ExtendOutcome :=
  match owned t tok with
  | Some l =>
      let cap := sat_add64 (attempt_start l) (hard_cap_nanos (config t)) in
      if cap <=? now then (t, CapReached)
      else
        let dl := Z.min (sat_add64 now (visibility_nanos (config t))) cap in
        (set_leases t (<[tok_offset tok := mk_lease (generation l) (attempt_start l) dl (deliveries l)]> (leases t)),
         Extended dl)
  | None => (t, ExtendFenced)
  end.

(** [LeaseTable::deliveries] *)
Definition token_deliveries (t : LeaseTable) (tok : LeaseToken) : option Z :=
  deliveries <$> owned t tok.

Definition holds_active (t : LeaseTable) (tok : LeaseToken) (now : Z) : bool :=
  match leases t !! tok_offset tok with
  | Some l => (generation l =? tok_generation tok) && (now <? deadline l)
  | None => false
  end.

Definition nack (t : LeaseTable) (tok : LeaseToken) (now delay : Z) : LeaseTable * NackOutcome :=
  match owned t tok with
  | None => (t, NackFenced)
  | Some l =>
      let gen := next_generation t in
      match checked_add64 gen 1 with
      | None => (t, NackExhausted)
      | Some next =>
          let t := set_generation t next in
          let dl := sat_add64 now delay in
          (set_leases t (<[tok_offset tok := mk_lease gen (attempt_start l) dl (deliveries l)]> (leases t)),
           Requeued dl)
      end
  end.

Definition pending_redelivery_attempt (t : LeaseTable) (off now : Z) : option Z :=
  match leases t !! off with
  | Some l => if deadline l <=? now then Some (deliveries l) else None
  | None => None
  end.

Definition defer_redelivery (t : LeaseTable) (off now delay : Z) : LeaseTable * bool :=
  match leases t !! off with
  | Some l =>
      if deadline l <=? now
      then (set_leases t (<[off := mk_lease (generation l) (attempt_start l) (sat_add64 now delay) (deliveries l)]> (leases t)), true)
      else (t, false)
  | None => (t, false)
  end.

Definition shift_lease (delta : Z) (l : Lease) : Lease :=
  mk_lease (generation l) (sat_add64 (attempt_start l) delta)
    (sat_add64 (deadline l) delta) (deliveries l).

Definition shift_deadlines (t : LeaseTable) (delta : Z) : LeaseTable :=
  set_leases t (shift_lease delta <$> leases t).

Definition expired (t : LeaseTable) (now : Z) : list Z :=
  (filter (fun '(_, l) => deadline l <= now) (btree_list (leases t))).*1.

(** ** Invariant *)

Record wf (t : LeaseTable) : Prop := {
  wf_gen : is_u64 (next_generation t);
  wf_config : 0 <= visibility_nanos (config t) /\ 0 <= hard_cap_nanos (config t);
  wf_lease : map_Forall (fun _ l => 0 <= generation l < next_generation t /\
                                    1 <= deliveries l <= u32_max) (leases t);
  wf_carried : map_Forall (fun _ n => 1 <= n <= u32_max) (carried t);
  wf_disjoint : forall off, is_Some (leases t !! off) -> carried t !! off = None
}.

(** ** Steps

    Every mutating method as one step with an observable event. *)

Inductive lease_op :=
| OClaim (off now : Z)
| OReseal (off from gen : Z)
| OAck (tok : LeaseToken)
| OExtend (tok : LeaseToken) (now : Z)
| ONack (tok : LeaseToken) (now delay : Z)
| ODefer (off now delay : Z)
| OShift (delta : Z)
| ORelease (up : Z)
| ONoteFlushed.

Inductive lease_event :=
| EvGranted (tok : LeaseToken) (deliveries : Z)
| EvAcked (tok : LeaseToken)
| EvRequeued (tok : LeaseToken)
| EvNone.

Definition lstep (t : LeaseTable) (op : lease_op) : LeaseTable * lease_event :=
  match op with
  | OClaim off now =>
      let '(t, c) := claim t off now in
      (t, match c with Granted tok d => EvGranted tok d | _ => EvNone end)
  | OReseal off from gen => ((reseal_from_to t off from gen).1, EvNone)
  | OAck tok =>
      let '(t, o) := lease_ack t tok in
      (t, match o with Acked => EvAcked tok | AckFenced => EvNone end)
  | OExtend tok now => ((extend t tok now).1, EvNone)
  | ONack tok now delay =>
      let '(t, o) := nack t tok now delay in
      (t, match o with Requeued _ => EvRequeued tok | _ => EvNone end)
  | ODefer off now delay => ((defer_redelivery t off now delay).1, EvNone)
  | OShift delta => (shift_deadlines t delta, EvNone)
  | ORelease up => (release_below t up, EvNone)
  | ONoteFlushed => (note_attempts_flushed t, EvNone)
  end.

(** A reseal targets a generation that was already drawn: [reseal_batch_in]
    passes the run's first staged generation. *)
Definition op_ok (t : LeaseTable) (op : lease_op) : Prop :=
  match op with
  | OReseal _ _ gen => 0 <= gen < next_generation t
  | _ => True
  end.

(** Case analysis on an operation: split every [match] and [if] of the step,
    and every lookup in an updated map. *)
Ltac lease_unfold :=
  unfold lstep, claim, reseal_from_to, lease_ack, extend, nack, defer_redelivery,
    shift_deadlines, release_below, note_attempts_flushed, owned, checked_add in *.

Ltac lease_cases :=
  lease_unfold;
  repeat match goal with
  | |- context [match ?x with _ => _ end] => destruct x eqn:?; simpl in *
  end; bool_to_prop; simplify_eq/=.

(** How one step changes the lease at an offset: it may vanish, keep its
    generation, be redelivered or requeued under the next generation, be
    resealed, or appear. *)
Definition lease_of (t : LeaseTable) (off : Z) : option Lease := leases t !! off.

Inductive lease_change (t : LeaseTable) (op : lease_op) (off : Z)
    : option Lease -> option Lease -> lease_event -> Prop :=
| ch_same ol ev :
    (forall tok d, ev = EvGranted tok d -> tok_offset tok <> off) ->
    lease_change t op off ol ol ev
| ch_gone l ev : (forall tok d, ev <> EvGranted tok d) -> lease_change t op off (Some l) None ev
| ch_time l s dl :
    lease_change t op off (Some l) (Some (mk_lease (generation l) s dl (deliveries l))) EvNone
| ch_reseal l g : (exists from, op = OReseal off from g) ->
    lease_change t op off (Some l) (Some (mk_lease g (attempt_start l) (deadline l) (deliveries l))) EvNone
| ch_requeue l dl tok : owned t tok = Some l -> tok_offset tok = off ->
    lease_change t op off (Some l)
      (Some (mk_lease (next_generation t) (attempt_start l) dl (deliveries l))) (EvRequeued tok)
| ch_redeliver l now dl : op = OClaim off now ->
    lease_change t op off (Some l)
      (Some (mk_lease (next_generation t) now dl (sat_add32 (deliveries l) 1)))
      (EvGranted (mk_token off (next_generation t)) (sat_add32 (deliveries l) 1))
| ch_first now dl d : op = OClaim off now ->
    d = match carried t !! off with Some n => sat_add32 n 1 | None => 1 end ->
    lease_change t op off None (Some (mk_lease (next_generation t) now dl d))
      (EvGranted (mk_token off (next_generation t)) d).

Lemma lstep_change t op off :
  lease_change t op off (leases t !! off) (leases (lstep t op).1 !! off) (lstep t op).2.
Proof.
  destruct op as [o now|o from gen|tok|tok now|tok now delay|o now delay|delta|up|].
  - unfold lstep, claim. destruct (match leases t !! o with Some _ => _ | None => _ end);
      [by constructor|].
    unfold checked_add. destruct (_ <=? _); [|by constructor]. cbn [leases set_generation].
    destruct (decide (o = off)) as [->|Hne].
    + destruct (leases t !! off) as [l|]; simpl; rewrite lookup_insert_eq; constructor; done.
    + destruct (leases t !! o); simpl; [|destruct (2 <=? _); simpl];
        rewrite lookup_insert_ne by done; apply ch_same;
        intros tok d Heq; injection Heq as <- _; exact Hne.
  - unfold lstep, reseal_from_to. destruct (decide (o = off)) as [->|Hne].
    + destruct (leases t !! off) as [l|] eqn:Hl; simpl; [|rewrite Hl; by constructor].
      destruct (_ =? _); simpl; [|rewrite Hl; by constructor].
      rewrite lookup_insert_eq. constructor; eauto.
    + destruct (leases t !! o); [destruct (_ =? _)|]; simpl;
        rewrite ?lookup_insert_ne by done; by constructor.
  - unfold lstep, lease_ack. destruct (owned t tok) as [l|] eqn:Ho; simpl; [|by constructor].
    destruct (decide (tok_offset tok = off)) as [<-|Hne].
    + rewrite lookup_delete_eq. unfold owned in Ho. destruct (leases t !! _); [|done]. by constructor.
    + rewrite lookup_delete_ne by done. by constructor.
  - unfold lstep, extend. destruct (owned t tok) as [l|] eqn:Ho; simpl; [|by constructor].
    destruct (_ <=? _); simpl; [by constructor|].
    destruct (decide (tok_offset tok = off)) as [<-|Hne].
    + rewrite lookup_insert_eq. unfold owned in Ho. destruct (leases t !! _) as [l'|]; [|done].
      destruct (_ =? _); simplify_eq. constructor.
    + rewrite lookup_insert_ne by done. by constructor.
  - unfold lstep, nack. destruct (owned t tok) as [l|] eqn:Ho; simpl; [|by constructor].
    unfold checked_add. destruct (_ <=? _); simpl; [|by constructor].
    destruct (decide (tok_offset tok = off)) as [<-|Hne].
    + rewrite lookup_insert_eq. pose proof Ho as Ho'. unfold owned in Ho'.
      destruct (leases t !! _) as [l'|] eqn:Hl; [|done].
      destruct (_ =? _); simplify_eq. by constructor.
    + rewrite lookup_insert_ne by done. by constructor.
  - unfold lstep, defer_redelivery. destruct (decide (o = off)) as [->|Hne].
    + destruct (leases t !! off) as [l|] eqn:Hl; simpl; [|rewrite Hl; by constructor].
      destruct (_ <=? _); simpl; [|rewrite Hl; by constructor].
      rewrite lookup_insert_eq. constructor.
    + destruct (leases t !! o); [destruct (_ <=? _)|]; simpl;
        rewrite ?lookup_insert_ne by done; by constructor.
  - simpl. rewrite lookup_fmap. destruct (leases t !! off); [constructor|by constructor].
  - simpl. destruct (leases t !! off) as [l|] eqn:Hl.
    + destruct (decide (up <= off)).
      * rewrite (map_lookup_filter_Some_2 _ _ off l) by done. by constructor.
      * rewrite map_lookup_filter_None_2; [by constructor|]. right. naive_solver.
    + rewrite map_lookup_filter_None_2 by (by left). by constructor.
  - by constructor.
Qed.

(** The generation counter and the configuration. *)
Lemma lstep_generation t op :
  config (lstep t op).1 = config t /\
  next_generation t <= next_generation (lstep t op).1 /\
  (is_u64 (next_generation t) -> is_u64 (next_generation (lstep t op).1)) /\
  (match (lstep t op).2 with EvGranted _ _ | EvRequeued _ => True | _ => False end ->
   next_generation (lstep t op).1 = next_generation t + 1).
Proof.
  destruct op; lease_unfold; simpl;
    repeat (case_match; simpl in *; simplify_eq/=); bool_to_prop;
    repeat split; simpl; try done; intros; ulia.
Qed.

(** The carried counts only shrink: an entry leaves when its offset is claimed
    or released. *)
Lemma lstep_carried t op off :
  carried (lstep t op).1 !! off = carried t !! off \/
  (carried (lstep t op).1 !! off = None /\
   (exists now, op = OClaim off now /\ leases t !! off = None /\ is_Some (leases (lstep t op).1 !! off)) \/
   (carried (lstep t op).1 !! off = None /\ exists up, op = ORelease up /\ off < up)).
Proof.
  destruct op as [o now|o from gen|tok|tok now|tok now delay|o now delay|delta|up|];
    try (left; lease_unfold; repeat (case_match; simpl in *; simplify_eq/=); done).
  - destruct (decide (o = off)) as [->|Hne].
    + lease_unfold. destruct (match leases t !! off with Some _ => _ | None => _ end); [by left|].
      destruct (_ <=? _); [|by left]. cbn [leases set_generation].
      destruct (leases t !! off) eqn:Hl; [by left|]. right. left.
      split; [destruct (2 <=? _); simpl; apply lookup_delete_eq|].
      exists now. split; [done|]. split; [done|].
      destruct (2 <=? _); simpl; rewrite lookup_insert_eq; eauto.
    + left. lease_unfold. destruct (match leases t !! o with Some _ => _ | None => _ end); [done|].
      destruct (_ <=? _); [|done]. cbn [leases set_generation].
      destruct (leases t !! o); [done|].
      destruct (2 <=? _); simpl; by rewrite lookup_delete_ne.
  - simpl. destruct (carried t !! off) as [n|] eqn:Hc.
    + destruct (decide (up <= off)).
      * left. by rewrite (map_lookup_filter_Some_2 _ _ off n).
      * right. right. split; [|exists up; split; [done|lia]].
        apply map_lookup_filter_None_2. right. naive_solver.
    + left. rewrite map_lookup_filter_None_2; [done|by left].
Qed.

(** A first claim consumes the carried count. *)
Lemma lstep_first_carried t op off :
  leases t !! off = None -> is_Some (leases (lstep t op).1 !! off) ->
  carried (lstep t op).1 !! off = None.
Proof.
  intros Hn Hs. pose proof (lstep_change t op off) as Hch. rewrite Hn in Hch.
  inversion Hch; subst; [destruct Hs; congruence|]. clear Hch. revert Hs.
  lease_unfold. rewrite Hn. destruct (_ <=? _); simpl; [|by rewrite Hn; intros []].
  rewrite Hn. intros _. destruct (2 <=? _); simpl; apply lookup_delete_eq.
Qed.

Lemma lstep_wf t op : wf t -> op_ok t op -> wf (lstep t op).1.
Proof.
  intros Hw Hop. destruct (lstep_generation t op) as (Hc & Hg & Hu & Hn).
  pose proof (lstep_change t op) as Hch. pose proof (lstep_carried t op) as Hcr.
  pose proof (lstep_first_carried t op) as Hfc.
  destruct (lstep t op) as [t' ev]; simpl in *.
  destruct Hw as [Wg Wc Wl Wk Wd]. constructor.
  - auto.
  - by rewrite Hc.
  - intros off l Hl. specialize (Hch off). rewrite Hl in Hch.
    destruct (leases t !! off) as [l0|] eqn:Hl0; [destruct (Wl off l0 Hl0) as [? ?]|];
      inversion Hch; subst; simpl in *; try specialize (Hn I);
      try match goal with H : exists _, _ = _ |- _ => destruct H as [from ->]; simpl in * end;
      try ulia.
    split; [ulia|]. destruct (carried t !! off) as [n|] eqn:Hcn; [|ulia].
    specialize (Wk off n Hcn). simpl in Wk. ulia.
  - intros off n Hcn. destruct (Hcr off) as [He|[(He&_)|(He&_)]];
      rewrite He in Hcn; [by eapply Wk|done..].
  - intros off Hl. destruct (leases t !! off) as [l|] eqn:Hl0; [|by apply Hfc].
    destruct (Hcr off) as [He|[(He&_)|(He&_)]]; [|done..]. rewrite He. apply Wd. eauto.
Qed.

(** ** Runs *)

Fixpoint lrun (t : LeaseTable) (ops : list lease_op) : LeaseTable * list lease_event :=
  match ops with
  | [] => (t, [])
  | op :: ops =>
      let '(t, ev) := lstep t op in
      let '(t, evs) := lrun t ops in (t, ev :: evs)
  end.

(** Every reseal of the run targets a generation already drawn when it runs. *)
Fixpoint ops_ok (t : LeaseTable) (ops : list lease_op) : Prop :=
  match ops with
  | [] => True
  | op :: ops => op_ok t op /\ ops_ok (lstep t op).1 ops
  end.

Lemma lrun_wf t ops : wf t -> ops_ok t ops -> wf (lrun t ops).1.
Proof.
  revert t. induction ops as [|op ops IH]; intros t Hw; simpl; [done|]. intros [Hop Hops].
  pose proof (lstep_wf t op Hw Hop) as Hw'. destruct (lstep t op) as [t1 ev]; simpl in *.
  specialize (IH t1 Hw' Hops). by destruct (lrun t1 ops).
Qed.

(** ** Fencing *)

(** No current or future lease of the token's offset has the token's
    generation. *)
Definition stale (t : LeaseTable) (tok : LeaseToken) : Prop :=
  tok_generation tok < next_generation t /\
  forall l, leases t !! tok_offset tok = Some l -> tok_generation tok < generation l.

(** Reseals of the token's offset go to generations drawn after the token's. *)
Definition reseal_above (tok : LeaseToken) (op : lease_op) : Prop :=
  match op with
  | OReseal off _ gen => off = tok_offset tok -> tok_generation tok < gen
  | _ => True
  end.

Lemma stale_step t op tok : stale t tok -> reseal_above tok op -> stale (lstep t op).1 tok.
Proof.
  intros [Hg Hl] Hr. destruct (lstep_generation t op) as (_ & Hg' & _).
  pose proof (lstep_change t op (tok_offset tok)) as Hch.
  destruct (lstep t op) as [t' ev]; simpl in *. split; [lia|]. intros l Hl'. rewrite Hl' in Hch.
  destruct (leases t !! tok_offset tok) as [l0|] eqn:Hl0; [specialize (Hl l0 eq_refl)|];
    inversion Hch; subst; simpl in *; try done; try lia.
  match goal with H : exists _, _ = _ |- _ => destruct H as [from ->] end. by apply Hr.
Qed.

Lemma stale_run t ops tok :
  stale t tok -> Forall (reseal_above tok) ops -> stale (lrun t ops).1 tok.
Proof.
  intros Hs Hr. revert t Hs. induction Hr as [|op ops Hop _ IH]; intros t Hs; simpl; [done|].
  pose proof (stale_step t op tok Hs Hop) as Hs'. destruct (lstep t op) as [t1 ev]; simpl in *.
  specialize (IH t1 Hs'). by destruct (lrun t1 ops).
Qed.

Lemma stale_not_owned t tok : stale t tok -> owned t tok = None.
Proof.
  intros [_ Hl]. unfold owned. destruct (leases t !! tok_offset tok) as [l|]; [|done].
  specialize (Hl l eq_refl). destruct (Z.eqb_spec (generation l) (tok_generation tok)); [lia|done].
Qed.

(** The events that end a token's attempt: its ack, its nack, or another grant
    of its offset. *)
Definition ends (tok : LeaseToken) (ev : lease_event) : Prop :=
  match ev with
  | EvAcked tok' | EvRequeued tok' => tok' = tok
  | EvGranted tok' _ => tok_offset tok' = tok_offset tok
  | EvNone => False
  end.

Lemma ends_stale t op tok :
  wf t -> tok_generation tok < next_generation t -> ends tok (lstep t op).2 ->
  stale (lstep t op).1 tok.
Proof.
  intros Hw Hg He. destruct (lstep_generation t op) as (_ & Hg' & _ & Hn).
  pose proof (lstep_change t op (tok_offset tok)) as Hch.
  assert (Hack : forall k, (lstep t op).2 = EvAcked k -> leases (lstep t op).1 !! tok_offset k = None).
  { intros k. destruct op; lease_unfold; repeat (case_match; simpl in *; simplify_eq/=); try done.
    intros [= ->]. apply lookup_delete_eq. }
  assert (Hnack : forall k l, (lstep t op).2 = EvRequeued k ->
    leases (lstep t op).1 !! tok_offset k = Some l -> generation l = next_generation t).
  { intros k l. destruct op; lease_unfold; repeat (case_match; simpl in *; simplify_eq/=); try done.
    intros [= ->]. rewrite lookup_insert_eq. by intros [= <-]. }
  destruct (lstep t op) as [t' ev]; simpl in *. split; [lia|]. intros l Hl'.
  destruct ev as [tok' d|tok'|tok'|]; simpl in He; [| |subst tok'|done].
  - rewrite Hl' in Hch. inversion Hch; subst; simpl in *; try lia.
    match goal with H : forall _ _, _ -> _ <> _ |- _ => by destruct (H tok' d eq_refl) end.
  - subst tok'. rewrite (Hack tok eq_refl) in Hl'. done.
  - rewrite (Hnack tok l eq_refl Hl'). lia.
Qed.

(** C28: fencing.  Once a token's attempt has ended (it was acked, it was nacked,
    or its message was granted again), every later ack, extend or nack with it
    is refused and changes nothing, whatever else happens to the table in
    between: a late ack can neither commit a redelivered message nor ack
    twice. *)
Theorem ended_token_fenced t op ops tok now delay :
  wf t -> tok_generation tok < next_generation t ->
  ends tok (lstep t op).2 -> Forall (reseal_above tok) ops ->
  let t' := (lrun (lstep t op).1 ops).1 in
  lease_ack t' tok = (t', AckFenced) /\ extend t' tok now = (t', ExtendFenced) /\
  nack t' tok now delay = (t', NackFenced) /\ token_deliveries t' tok = None /\
  holds_active t' tok now = false.
Proof.
  intros Hw Hg He Hr t'. pose proof (ends_stale t op tok Hw Hg He) as Hs.
  pose proof (stale_run _ ops tok Hs Hr) as Hs'. fold t' in Hs'.
  pose proof (stale_not_owned _ _ Hs') as Ho.
  unfold lease_ack, extend, nack, token_deliveries, holds_active. rewrite Ho.
  repeat split; try done. unfold owned in Ho. destruct (leases t' !! _); [|done].
  by destruct (_ =? _).
Qed.

Definition lease_cfg : LeaseConfig := mk_config 100 250.

(** Two offsets claimed at time 0. *)
Definition table_2 : LeaseTable := (lrun (table_new lease_cfg) [OClaim 7 0; OClaim 8 0]).1.

Lemma table_new_wf c :
  0 <= visibility_nanos c -> 0 <= hard_cap_nanos c -> wf (table_new c).
Proof.
  intros Hv Hh. constructor; simpl; try ulia; try done; try apply map_Forall_empty.
Qed.

Lemma table_2_wf : wf table_2.
Proof.
  apply (lrun_wf (table_new lease_cfg) [OClaim 7 0; OClaim 8 0]);
    [by apply table_new_wf|repeat split].
Qed.

(** The redelivery of offset 7 at its deadline fences the first holder. *)
Lemma ended_token_fenced_witness :
  let tok := mk_token 7 0 in
  let op := OClaim 7 100 in
  let ops := [OExtend (mk_token 8 1) 50; OAck (mk_token 7 2); OClaim 7 300] in
  (lstep table_2 op).2 = EvGranted (mk_token 7 2) 2 /\
  let t' := (lrun (lstep table_2 op).1 ops).1 in
  lease_ack t' tok = (t', AckFenced).
Proof.
  split; [vm_compute; reflexivity|].
  apply (ended_token_fenced table_2 (OClaim 7 100)
           [OExtend (mk_token 8 1) 50; OAck (mk_token 7 2); OClaim 7 300] (mk_token 7 0) 0 0);
    [apply table_2_wf|vm_compute; reflexivity|vm_compute; reflexivity|repeat constructor].
Defined.

(** ** The hard cap *)

(** Deadlines stay within the hard cap from the start of the attempt. *)
Definition capped (t : LeaseTable) : Prop :=
  map_Forall (fun _ l => deadline l <= sat_add64 (attempt_start l) (hard_cap_nanos (config t)))
    (leases t).

(** The operations of a running attempt: everything but the two that schedule
    the next attempt at a time of their own ([nack] and the redelivery
    throttle). *)
Definition in_attempt (op : lease_op) : Prop :=
  match op with ONack _ _ _ | ODefer _ _ _ => False | _ => True end.

Lemma owned_lookup t tok l : owned t tok = Some l -> leases t !! tok_offset tok = Some l.
Proof. unfold owned. destruct (leases t !! _); [|done]. by destruct (_ =? _). Qed.

Lemma shift_capped a d h delta :
  0 <= delta -> 0 <= h -> d <= sat_add64 a h ->
  sat_add64 d delta <= sat_add64 (sat_add64 a delta) h.
Proof. ulia. Qed.

Lemma capped_step t op :
  wf t -> (match op with OShift delta => 0 <= delta | _ => True end) ->
  capped t -> in_attempt op -> capped (lstep t op).1.
Proof.
  intros Hw Hd Hc Hi. pose proof (wf_config t Hw) as [_ Hh]. unfold capped in *.
  destruct op as [o now|o from gen|tok|tok now|tok now delay|o now delay|delta|up|]; try done.
  - unfold lstep, claim.
    destruct (match leases t !! o with Some _ => _ | None => _ end); [done|].
    unfold checked_add. destruct (_ <=? _); [|done]. cbn [leases set_generation].
    destruct (leases t !! o); [|destruct (2 <=? _)]; simpl; apply map_Forall_insert_2; try done;
      unfold grant_deadline; simpl; lia.
  - unfold lstep, reseal_from_to. destruct (leases t !! o) as [l|] eqn:Hl; [|done].
    destruct (_ =? _); [|done]. simpl. apply map_Forall_insert_2; [|done]. by apply (Hc o l).
  - unfold lstep, lease_ack. destruct (owned t tok); simpl; [|done]. by apply map_Forall_delete.
  - unfold lstep, extend. destruct (owned t tok) as [l|] eqn:Ho; simpl; [|done].
    destruct (_ <=? _); simpl; [done|]. apply map_Forall_insert_2; [simpl; lia|done].
  - simpl. intros off l Hl. rewrite lookup_fmap_Some in Hl. destruct Hl as (l0 & <- & Hl).
    apply shift_capped; [done..|]. exact (Hc off l0 Hl).
  - simpl. intros off l Hl. apply map_lookup_filter_Some in Hl as [Hl _]. by apply (Hc off l).
Qed.

Lemma capped_run t ops :
  wf t -> ops_ok t ops ->
  Forall (fun op => match op with OShift delta => 0 <= delta | _ => True end) ops ->
  capped t -> Forall in_attempt ops -> capped (lrun t ops).1.
Proof.
  revert t. induction ops as [|op ops IH]; intros t Hw Hok Hs Hc Hi; [done|]. simpl.
  apply Forall_cons in Hs as [Hs1 Hs], Hi as [Hi1 Hi]. destruct Hok as [Hok1 Hok].
  pose proof (lstep_wf t op Hw Hok1) as Hw'.
  pose proof (capped_step t op Hw Hs1 Hc Hi1) as Hc'.
  destruct (lstep t op) as [t1 ev]; simpl in *. specialize (IH t1 Hw' Hok Hs Hc' Hi).
  by destruct (lrun t1 ops).
Qed.

(** A stuck consumer cannot hold a message for ever.  However often a lease
    is extended (and whatever other claims, acks, releases, reseals and pauses
    happen), once the hard cap from the start of the attempt has passed the
    message is claimable, the next claim redelivers it (if a generation is
    left), and its holder's extend is refused with [CapReached]. *)
Theorem hard_cap_frees_message c ops off l now :
  0 <= visibility_nanos c -> 0 <= hard_cap_nanos c ->
  ops_ok (table_new c) ops ->
  Forall (fun op => match op with OShift delta => 0 <= delta | _ => True end) ops ->
  Forall in_attempt ops ->
  let t := (lrun (table_new c) ops).1 in
  leases t !! off = Some l ->
  sat_add64 (attempt_start l) (hard_cap_nanos c) <= now ->
  next_generation t < u64_max ->
  is_claimable t off now = true /\
  (claim t off now).2 = Granted (mk_token off (next_generation t)) (sat_add32 (deliveries l) 1) /\
  extend t (mk_token off (generation l)) now = (t, CapReached).
Proof.
  intros Hv Hh Hok Hs Hi t Hl Hn Hg.
  pose proof (table_new_wf c Hv Hh) as Hw.
  assert (Hcfg : forall ops t0, config (lrun t0 ops).1 = config t0).
  { clear. induction ops as [|op ops IH]; intros t0; [done|]. simpl.
    destruct (lstep_generation t0 op) as (Hc & _). destruct (lstep t0 op) as [t1 ev]; simpl in *.
    specialize (IH t1). destruct (lrun t1 ops); simpl in *. congruence. }
  pose proof (capped_run _ ops Hw Hok Hs ltac:(by apply map_Forall_empty) Hi off l Hl) as Hc.
  fold t in Hc. assert (config t = c) as Hct by apply Hcfg. rewrite Hct in Hc.
  assert (deadline l <= now) as Hdl by (simpl in Hc; lia).
  clearbody t. unfold is_claimable, claim, extend, owned.
  cbn [tok_offset tok_generation]. rewrite Hl, Z.eqb_refl, Hct.
  destruct (Z.ltb_spec now (deadline l)); [lia|]. split; [done|]. split.
  - unfold checked_add. destruct (Z.leb_spec (next_generation t + 1) u64_max); [|ulia].
    cbn [leases set_generation]. by rewrite Hl.
  - destruct (Z.leb_spec (sat_add64 (attempt_start l) (hard_cap_nanos c)) now); [done|lia].
Qed.

Lemma hard_cap_frees_message_witness :
  let ops := [OClaim 7 0; OExtend (mk_token 7 0) 90; OExtend (mk_token 7 0) 180;
              OExtend (mk_token 7 0) 240] in
  let t := (lrun (table_new lease_cfg) ops).1 in
  leases t !! 7 = Some (mk_lease 0 0 250 1) /\ is_claimable t 7 249 = false /\
  is_claimable t 7 250 = true.
Proof.
  split; [vm_compute; reflexivity|]. split; [vm_compute; reflexivity|].
  apply (hard_cap_frees_message lease_cfg
    [OClaim 7 0; OExtend (mk_token 7 0) 90; OExtend (mk_token 7 0) 180; OExtend (mk_token 7 0) 240]
    7 (mk_lease 0 0 250 1) 250).
  1,2: vm_compute; discriminate.
  1: repeat split.
  1,2: repeat constructor.
  - vm_compute; reflexivity.
  - vm_compute; discriminate.
  - vm_compute; reflexivity.
Defined.

(** ** Attempt counting *)

(** How often the message at [off] has been delivered, as the table knows it. *)
Definition attempts (t : LeaseTable) (off : Z) : Z :=
  match leases t !! off with
  | Some l => deliveries l
  | None => default 0 (carried t !! off)
  end.

(** The step does not finish the message at [off]: no accepted ack of it and no
    release past it. *)
Definition keeps (off : Z) (op : lease_op) (ev : lease_event) : Prop :=
  match ev with EvAcked tok => tok_offset tok <> off | _ => True end /\
  match op with ORelease up => up <= off | _ => True end.

Definition granted_at (off : Z) (ev : lease_event) : option Z :=
  match ev with
  | EvGranted tok d => if decide (tok_offset tok = off) then Some d else None
  | _ => None
  end.

Lemma sat_add32_1_pos n : 0 <= n -> 1 <= sat_add32 n 1 <= u32_max.
Proof. ulia. Qed.

(** A step leaves a live lease only through an ack or a release. *)
Lemma lease_gone t op off l :
  leases t !! off = Some l -> leases (lstep t op).1 !! off = None ->
  ~ keeps off op (lstep t op).2.
Proof.
  intros Hl Hn [Hk1 Hk2]. revert Hn Hk1 Hk2.
  destruct op as [o now|o from gen|tok|tok now|tok now delay|o now delay|delta|up|];
    unfold lstep; simpl.
  - unfold claim. destruct (match leases t !! o with Some _ => _ | None => _ end); [simpl; congruence|].
    destruct (checked_add _ _ _); [|simpl; congruence]. cbn [leases set_generation].
    destruct (leases t !! o); [|destruct (2 <=? _)]; simpl; intros Hn;
      apply lookup_insert_None in Hn as [? _]; congruence.
  - unfold reseal_from_to. destruct (leases t !! o); [|simpl; congruence].
    destruct (_ =? _); simpl; [|congruence]. intros Hn. apply lookup_insert_None in Hn as [? _]; congruence.
  - unfold lease_ack. destruct (owned t tok); simpl; [|congruence].
    intros Hn. apply lookup_delete_None in Hn as [?|?]; congruence.
  - unfold extend. destruct (owned t tok); [|simpl; congruence].
    destruct (_ <=? _); simpl; [congruence|]. intros Hn. apply lookup_insert_None in Hn as [? _]; congruence.
  - unfold nack. destruct (owned t tok); [|simpl; congruence].
    destruct (checked_add _ _ _); simpl; [|congruence]. intros Hn.
    apply lookup_insert_None in Hn as [? _]; congruence.
  - unfold defer_redelivery. destruct (leases t !! o); [|simpl; congruence].
    destruct (_ <=? _); simpl; [|congruence]. intros Hn. apply lookup_insert_None in Hn as [? _]; congruence.
  - intros Hn. by rewrite lookup_fmap, Hl in Hn.
  - intros Hn _ Hup. rewrite map_lookup_filter_None in Hn. destruct Hn as [?|Hn]; [congruence|].
    by apply (Hn l Hl).
  - congruence.
Qed.

(** A message that is not finished keeps its count; a grant raises it by one
    and reports it. *)
Lemma attempts_step t op off :
  wf t -> keeps off op (lstep t op).2 ->
  match granted_at off (lstep t op).2 with
  | Some d => d = sat_add32 (attempts t off) 1 /\ attempts (lstep t op).1 off = d
  | None => attempts (lstep t op).1 off = attempts t off
  end.
Proof.
  intros Hw Hk. pose proof (lstep_change t op off) as Hch.
  pose proof (lstep_carried t op off) as Hcr. pose proof (lease_gone t op off) as Hgone.
  unfold attempts. destruct (lstep t op) as [t' ev]; simpl in *.
  destruct (leases t !! off) as [l|] eqn:Hl; destruct (leases t' !! off) as [l'|] eqn:Hl'.
  - inversion Hch as [ol ev' Hs| | | | | |]; subst; simpl; try done.
    + destruct ev as [tok d| | |]; simpl; try done. case_decide; [|done].
      by destruct (Hs tok d eq_refl).
    + by rewrite decide_True.
  - by destruct (Hgone l eq_refl eq_refl).
  - inversion Hch; subst; simpl. rewrite decide_True by done.
    split; [|done]. destruct (carried t !! off); simpl; [done|ulia].
  - inversion Hch as [ol ev' Hs| | | | | |]; subst.
    assert (granted_at off ev = None) as ->.
    { destruct ev as [tok d| | |]; simpl; try done. case_decide; [|done]. by destruct (Hs tok d eq_refl). }
    destruct Hcr as [->|[(_ & now & _ & _ & [? ?])|(_ & up & -> & Hup)]]; [done|congruence|].
    destruct Hk as [_ Hk]. simpl in Hk. lia.
Qed.

(** ** Snapshots of the counts *)

Lemma attempts_bounds t off : wf t -> 0 <= attempts t off <= u32_max.
Proof.
  intros [_ _ Wl Wc _]. unfold attempts. destruct (leases t !! off) as [l|] eqn:Hl.
  - destruct (Wl off l Hl). lia.
  - destruct (carried t !! off) as [n|] eqn:Hn; simpl; [specialize (Wc off n Hn); simpl in Wc|]; ulia.
Qed.

Lemma merged_counts_lookup t off :
  merged_counts t !! off =
  match leases t !! off with
  | Some l => Some (Z.max (default 0 (carried t !! off)) (deliveries l))
  | None => carried t !! off
  end.
Proof.
  unfold merged_counts.
  apply (map_fold_weak_ind (fun (r : gmap Z Z) (m : gmap Z Lease) =>
    r !! off = match m !! off with
               | Some l => Some (Z.max (default 0 (carried t !! off)) (deliveries l))
               | None => carried t !! off end)).
  - by rewrite lookup_empty.
  - intros i l m r Hi IH. destruct (decide (i = off)) as [->|Hne].
    + rewrite !lookup_insert_eq. by rewrite IH, Hi.
    + by rewrite !lookup_insert_ne.
Qed.

(** The snapshot holds exactly the delivered counts: nothing carried is dropped,
    no count is lowered. *)
Lemma merged_counts_attempts t off :
  wf t -> merged_counts t !! off =
    if decide (attempts t off = 0) then None else Some (attempts t off).
Proof.
  intros [_ _ Wl Wk Wd]. rewrite merged_counts_lookup. unfold attempts.
  destruct (leases t !! off) as [l|] eqn:Hl.
  - destruct (Wl off l Hl) as [_ ?]. rewrite Wd by eauto. simpl.
    case_decide; [lia|]. f_equal. lia.
  - destruct (carried t !! off) as [n|] eqn:Hc; simpl.
    + specialize (Wk off n Hc). simpl in Wk. case_decide; [lia|done].
    + done.
Qed.

Lemma resume_attempts_fields t l :
  config (resume_attempts t l) = config t /\ leases (resume_attempts t l) = leases t /\
  next_generation (resume_attempts t l) = next_generation t.
Proof.
  unfold resume_attempts. revert t. induction l as [|[o a] l IH]; intros t; simpl; [done|].
  destruct (IH (if 0 <? a then set_carried t (<[o := a]> (carried t)) else t)) as (-> & -> & ->).
  by destruct (0 <? a).
Qed.

Lemma resume_attempts_carried t l off :
  NoDup l.*1 ->
  carried (resume_attempts t l) !! off =
  match (list_to_map l : gmap Z Z) !! off with
  | Some a => if decide (0 < a) then Some a else carried t !! off
  | None => carried t !! off
  end.
Proof.
  unfold resume_attempts. revert t. induction l as [|[o a] l IH]; intros t Hnd; [done|].
  rewrite fmap_cons in Hnd. apply NoDup_cons in Hnd as [Hni Hnd]. simpl. rewrite IH by done.
  destruct (decide (o = off)) as [->|Hne].
  - rewrite lookup_insert_eq. rewrite (not_elem_of_list_to_map_1 l) by done.
    destruct (Z.ltb_spec 0 a); simpl; [rewrite lookup_insert_eq|];
      case_decide; try lia; done.
  - rewrite lookup_insert_ne by done.
    destruct (list_to_map l !! off); [case_decide; [done|]|];
      destruct (0 <? a); simpl; rewrite ?lookup_insert_ne by done; done.
Qed.

(** ** Reclaiming *)

Lemma expired_spec t now off :
  off ∈ expired t now <-> exists l, leases t !! off = Some l /\ deadline l <= now.
Proof.
  unfold expired. rewrite list_elem_of_fmap. split.
  - intros ([o l] & -> & Hin). apply list_elem_of_filter in Hin as [Hd Hin].
    exists l. by rewrite elem_of_btree_list in Hin.
  - intros (l & Hl & Hd). exists (off, l). split; [done|].
    apply list_elem_of_filter. by rewrite elem_of_btree_list.
Qed.

Lemma expired_sorted t now : StronglySorted Z.lt (expired t now).
Proof.
  unfold expired. pose proof (btree_list_sorted (leases t)) as Hs.
  induction Hs as [|[o l] k _ IH Hk]; simpl; [constructor|].
  rewrite filter_cons. case_decide; [|done]. rewrite fmap_cons. constructor; [done|].
  apply Forall_forall. rewrite Forall_forall in Hk. intros x Hx.
  apply list_elem_of_fmap in Hx as (p & -> & Hp). apply list_elem_of_filter in Hp as [_ Hp].
  by apply Hk.
Qed.

(** the janitor sees every reclaimable message, once and in order.
    [expired] lists, strictly ascending, exactly the in-flight offsets that
    [is_claimable] reports, and claiming any of them redelivers it as the next
    attempt under a generation above every generation in use. *)
Theorem expired_are_redelivered t now :
  wf t -> next_generation t < u64_max ->
  StronglySorted Z.lt (expired t now) /\
  forall off, off ∈ expired t now <->
    exists l, leases t !! off = Some l /\ is_claimable t off now = true /\
      (claim t off now).2 = Granted (mk_token off (next_generation t)) (sat_add32 (deliveries l) 1) /\
      (forall o l', leases t !! o = Some l' -> generation l' < next_generation t).
Proof.
  intros Hw Hg. split; [apply expired_sorted|]. intros off. rewrite expired_spec.
  split; intros (l & Hl & H).
  - exists l. split; [done|]. unfold is_claimable, claim. rewrite Hl.
    destruct (Z.ltb_spec now (deadline l)); [lia|]. split; [done|]. split.
    + unfold checked_add. destruct (Z.leb_spec (next_generation t + 1) u64_max); [|lia].
      cbn [leases set_generation]. by rewrite Hl.
    + intros o l' Hl'. destruct (wf_lease t Hw o l' Hl') as [? _]. lia.
  - exists l. split; [done|]. destruct H as [Hc _]. unfold is_claimable in Hc. rewrite Hl in Hc.
    bool_to_prop. lia.
Qed.

Lemma expired_are_redelivered_witness :
  wf table_2 /\ next_generation table_2 < u64_max /\ expired table_2 100 = [7; 8] /\
  StronglySorted Z.lt (expired table_2 100).
Proof.
  split; [apply table_2_wf|]. split; [vm_compute; reflexivity|]. split; [vm_compute; reflexivity|].
  apply (expired_are_redelivered table_2 100 table_2_wf). vm_compute. reflexivity.
Defined.
