(* ===== verification/KeyShared.v ===== *)
(** * Per-key routing of a work-group ([keyshared.rs])

    A [key_shared] group routes a record's key to one live member by rendezvous
    hashing and lets a key have one outstanding record at a time.  The theorems:
    the owner of a key is the maximum of a total order, a membership change
    moves only the keys it must, and between the delivery of a key's record and
    its ack no other record of the key is delivered to anyone. *)

From S2P Require Import Prelude Bytes.

Inductive KeyOrdering := OrderNone | KeyShared.

Record KeyRouter := mk_router {
  members : gset Z;
  in_flight_keys : gmap (list Z) Z
}.

Inductive RouteDecision := RDeliver | NotOwner | KeyBusy.

#[export] Instance RouteDecision_eq_dec : EqDecision RouteDecision.
Proof. solve_decision. Defined.

Section router.
Context `{Xxh3}.
Implicit Types (r : KeyRouter) (key : list Z).

Definition score (member : Z) key : Z := xxh3_64 (le_bytes 8 member ++ key).

Definition router_new : KeyRouter := mk_router ∅ ∅.

Definition join r (member : Z) : KeyRouter * bool :=
  (mk_router ({[ member ]} ∪ members r) (in_flight_keys r),
   negb (bool_decide (member ∈ members r))).

Definition leave r (member : Z) : KeyRouter * bool :=
  (mk_router (members r ∖ {[ member ]}) (in_flight_keys r),
   bool_decide (member ∈ members r)).

Definition member_count r : nat := size (members r).
Definition contains r (member : Z) : bool := bool_decide (member ∈ members r).

(** The order on the pairs [(score, member)] the owner maximises. *)
Definition rank_ltb (p q : Z * Z) : bool :=
  (p.1 <? q.1) || ((p.1 =? q.1) && (p.2 <? q.2)).

(** [Iterator::max_by_key]: a later element replaces the best so far unless the
    best is strictly greater. *)
Definition max_by_key (f : Z -> Z * Z) (l : list Z) : option Z :=
  foldl (fun best m =>
           match best with
           | None => Some m
           | Some b => if rank_ltb (f m) (f b) then Some b else Some m
           end) None l.

Definition owner r key : option Z :=
  max_by_key (fun member => (score member key, member)) (btreeset_list (members r)).

Definition decide_route r (member : Z) key (offset : Z) : RouteDecision :=
  match key with
  | [] => RDeliver
  | _ =>
      let busy_elsewhere :=
        match in_flight_keys r !! key with
        | Some busy => negb (busy =? offset)
        | None => false
        end in
      if busy_elsewhere then KeyBusy
      else match owner r key with
           | Some o => if o =? member then RDeliver else NotOwner
           | None => NotOwner
           end
  end.

Definition mark_in_flight r key (offset : Z) : KeyRouter :=
  match key with
  | [] => r
  | _ => mk_router (members r) (<[key := offset]> (in_flight_keys r))
  end.

(** [iter().find_map(..)]: the first key, in key order, that holds the offset. *)
Definition holder r (offset : Z) : option (list Z) :=
  fst <$> head (filter (fun p => p.2 = offset) (bytes_map_list (in_flight_keys r))).

Definition clear_offset r (offset : Z) : KeyRouter :=
  match holder r offset with
  | Some key => mk_router (members r) (delete key (in_flight_keys r))
  | None => r
  end.

Definition retain_above r (committed : Z) : KeyRouter :=
  mk_router (members r) (filter (fun p => committed <= p.2) (in_flight_keys r)).

Definition busy_keys r : nat := size (in_flight_keys r).

(** ** The owner of a key *)

(** [p] is below [q] in the order of the ranks. *)
Definition rank_le (p q : Z * Z) : Prop := p.1 < q.1 \/ (p.1 = q.1 /\ p.2 <= q.2).

Lemma rank_ltb_false p q : rank_ltb p q = false <-> rank_le q p.
Proof. unfold rank_ltb, rank_le. destruct p, q; simpl. lia. Qed.

Lemma rank_ltb_le p q : rank_ltb p q = true -> rank_le p q.
Proof. unfold rank_ltb, rank_le. destruct p, q; simpl. lia. Qed.

Lemma rank_le_trans p q s : rank_le p q -> rank_le q s -> rank_le p s.
Proof. unfold rank_le. lia. Qed.

Lemma max_by_key_from (f : Z -> Z * Z) (l : list Z) (b : Z) :
  exists m, foldl (fun best m =>
      match best with
      | None => Some m
      | Some b => if rank_ltb (f m) (f b) then Some b else Some m
      end) (Some b) l = Some m /\
    (m = b \/ m ∈ l) /\ rank_le (f b) (f m) /\ forall x, x ∈ l -> rank_le (f x) (f m).
Proof.
  revert b. induction l as [|x l IH]; intros b; simpl.
  { exists b. split; [done|]. split; [by left|].
    split; [unfold rank_le; lia|]. intros x Hx. by apply not_elem_of_nil in Hx. }
  destruct (rank_ltb (f x) (f b)) eqn:Hlt.
  - destruct (IH b) as (m & Hm & Hin & Hb & Hl). exists m. split; [done|].
    split; [destruct Hin; [by left|right; by apply list_elem_of_further]|]. split; [done|].
    intros y [->|Hy]%elem_of_cons; [|by apply Hl].
    eapply rank_le_trans; [by apply rank_ltb_le|done].
  - destruct (IH x) as (m & Hm & Hin & Hb & Hl). exists m. split; [done|].
    split; [right; destruct Hin as [->|]; [apply list_elem_of_here|by apply list_elem_of_further]|].
    split; [eapply rank_le_trans; [by apply rank_ltb_false|done]|].
    intros y [->|Hy]%elem_of_cons; [done|by apply Hl].
Qed.

Lemma max_by_key_spec (f : Z -> Z * Z) (l : list Z) :
  l <> [] -> exists m, max_by_key f l = Some m /\ m ∈ l /\ forall x, x ∈ l -> rank_le (f x) (f m).
Proof.
  destruct l as [|x l]; [done|]. intros _.
  destruct (max_by_key_from f l x) as (b & Hb & Hin & Hx & Hall).
  exists b. split; [exact Hb|].
  split; [destruct Hin as [->|]; [apply list_elem_of_here|by apply list_elem_of_further]|].
  intros y [->|Hy]%elem_of_cons; [done|by apply Hall].
Qed.

(** The owner is the live member of greatest rank, and there is one exactly
    when the group has a member. *)
Lemma owner_spec r key m :
  owner r key = Some m <->
  m ∈ members r /\ forall m', m' ∈ members r -> rank_le (score m' key, m') (score m key, m).
Proof.
  unfold owner. setoid_rewrite <- (elem_of_btreeset_list (members r)).
  destruct (btreeset_list (members r)) as [|x l] eqn:El.
  - split; [done|]. by intros [Hm%not_elem_of_nil _].
  - destruct (max_by_key_spec (fun member => (score member key, member)) (x :: l))
      as (b & -> & Hin & Hall); [done|]. split.
    + intros [= ->]. by split.
    + intros [Hm Hm']. f_equal. pose proof (Hall m Hm) as H1. pose proof (Hm' b Hin) as H2.
      unfold rank_le in *. simpl in *. lia.
Qed.

Lemma owner_exists r key : members r <> ∅ -> exists m, owner r key = Some m.
Proof.
  intros Hne. unfold owner.
  destruct (max_by_key_spec (fun member => (score member key, member)) (btreeset_list (members r)))
    as (b & Hb & _); [|eauto].
  intros El. apply Hne. apply elem_of_equiv_empty_L. intros y Hy%elem_of_btreeset_list.
  rewrite El in Hy. by apply not_elem_of_nil in Hy.
Qed.

(** Minimal reshuffle.  Every key of a group with a member has an owner;
    a member that leaves moves only the keys it owned, and a member that joins
    only takes keys for itself. *)
Theorem rendezvous_minimal_reshuffle r key m :
  (members r <> ∅ -> exists o, owner r key = Some o /\ contains r o = true) /\
  (forall o, owner r key = Some o -> o <> m -> owner (leave r m).1 key = Some o) /\
  (forall o, owner r key = Some o ->
     owner (join r m).1 key = Some o \/ owner (join r m).1 key = Some m).
Proof.
  split; [|split].
  - intros Hne. destruct (owner_exists r key Hne) as [o Ho]. exists o. split; [done|].
    apply owner_spec in Ho as [Hin _]. unfold contains. by apply bool_decide_eq_true.
  - intros o [Hin Hmax]%owner_spec Hne. apply owner_spec. simpl. split; [set_solver|].
    intros m' Hm'. apply Hmax. set_solver.
  - intros o Ho. destruct (owner_exists (join r m).1 key) as [o' Ho']; [simpl; set_solver|].
    pose proof Ho as [Hin Hmax]%owner_spec. pose proof Ho' as [Hin' Hmax']%owner_spec.
    simpl in Hin', Hmax'. destruct (Z.eq_dec o' m) as [->|Hne]; [by right|left].
    rewrite Ho'. f_equal. assert (H1 := Hmax o' ltac:(set_solver)).
    assert (H2 := Hmax' o ltac:(set_solver)). unfold rank_le in *. simpl in *. lia.
Qed.

(** ** Per-key serialization *)

(** What a group does with its router, over a log whose record at offset [o]
    carries the key [key_of o]: members come and go, a member polls an offset
    (a delivery is marked in flight right after its claim), an offset is acked,
    and the map is pruned below the committed offset. *)
Inductive router_op :=
| RJoin (m : Z)
| RLeave (m : Z)
| RPoll (m offset : Z)
| RClear (offset : Z)
| RRetain (committed : Z).

Section serialization.
Context (key_of : Z -> list Z).

Definition rstep r (op : router_op) : KeyRouter * option (Z * Z) :=
  match op with
  | RJoin m => ((join r m).1, None)
  | RLeave m => ((leave r m).1, None)
  | RPoll m off =>
      match decide_route r m (key_of off) off with
      | RDeliver => (mark_in_flight r (key_of off) off, Some (m, off))
      | _ => (r, None)
      end
  | RClear off => (clear_offset r off, None)
  | RRetain c => (retain_above r c, None)
  end.

(** The deliveries of a run, with the router each one was decided in. *)
Fixpoint rrun r (ops : list router_op) : KeyRouter * list (KeyRouter * (Z * Z)) :=
  match ops with
  | [] => (r, [])
  | op :: ops =>
      let '(r1, d) := rstep r op in
      let '(r2, ds) := rrun r1 ops in
      (r2, match d with Some d => (r, d) :: ds | None => ds end)
  end.

(** A busy key holds an offset that carries it. *)
Definition coherent r : Prop :=
  forall k o, in_flight_keys r !! k = Some o -> k = key_of o /\ k <> [].

Lemma holder_spec r off k :
  coherent r -> holder r off = Some k <-> in_flight_keys r !! k = Some off.
Proof.
  intros Hc. unfold holder.
  assert (Hel : forall k', (k', off) ∈ filter (fun p : list Z * Z => p.2 = off)
      (bytes_map_list (in_flight_keys r)) <-> in_flight_keys r !! k' = Some off).
  { intros k'. rewrite list_elem_of_filter, elem_of_bytes_map_list. naive_solver. }
  assert (Hval : Forall (fun p : list Z * Z => p.2 = off) (filter (fun p : list Z * Z => p.2 = off)
      (bytes_map_list (in_flight_keys r)))).
  { apply Forall_forall. by intros p [? _]%list_elem_of_filter. }
  destruct (filter _ _) as [|[k0 o0] l]; simpl.
  - split; [done|]. by intros H1%Hel%not_elem_of_nil.
  - apply Forall_cons in Hval as [Ho _]. simpl in Ho. subst o0.
    assert (H0 : in_flight_keys r !! k0 = Some off) by (apply Hel, list_elem_of_here).
    split; [by intros [= ->]|]. intros Hk. f_equal.
    by rewrite (proj1 (Hc _ _ H0)), (proj1 (Hc _ _ Hk)).
Qed.

Lemma clear_offset_lookup r off k :
  coherent r ->
  in_flight_keys (clear_offset r off) !! k =
  match in_flight_keys r !! k with
  | Some o => if bool_decide (o = off) then None else Some o
  | None => None
  end.
Proof.
  intros Hc. unfold clear_offset. destruct (holder r off) as [k0|] eqn:Eh.
  - pose proof Eh as E0%holder_spec; [|done]. simpl.
    destruct (decide_rel (=) k0 k) as [->|Hne].
    + rewrite lookup_delete_eq, E0. by rewrite bool_decide_true.
    + rewrite lookup_delete_ne by done. destruct (in_flight_keys r !! k) as [o|] eqn:Ek; [|done].
      rewrite bool_decide_false; [done|]. intros ->. apply holder_spec in Ek; [congruence|done].
  - destruct (in_flight_keys r !! k) as [o|] eqn:Ek; [|done].
    rewrite bool_decide_false; [done|]. intros ->. apply holder_spec in Ek; [congruence|done].
Qed.

Lemma mark_in_flight_lookup r off k :
  in_flight_keys (mark_in_flight r (key_of off) off) !! k =
  if bool_decide (key_of off = k /\ k <> []) then Some off else in_flight_keys r !! k.
Proof.
  unfold mark_in_flight. destruct (key_of off) as [|b l] eqn:E.
  - rewrite bool_decide_false; [done|]. naive_solver.
  - simpl. destruct (decide_rel (=) (b :: l) k) as [<-|Hne].
    + rewrite lookup_insert_eq. by rewrite bool_decide_true.
    + rewrite lookup_insert_ne by done. rewrite bool_decide_false; [done|]. naive_solver.
Qed.

Lemma rstep_coherent r op : coherent r -> coherent (rstep r op).1.
Proof.
  intros Hc. destruct op as [m|m|m off|off|c]; simpl; try exact Hc.
  - destruct (decide_route r m (key_of off) off); simpl; try exact Hc.
    intros k o. rewrite mark_in_flight_lookup. case_bool_decide; [|apply Hc]. naive_solver.
  - intros k o. rewrite clear_offset_lookup by done.
    destruct (in_flight_keys r !! k) as [o'|] eqn:E; [|done].
    case_bool_decide; [done|]. intros [= <-]. by apply Hc.
  - intros k o. simpl. intros [Hk _]%map_lookup_filter_Some. by apply Hc.
Qed.

(** The operations that end an outstanding offset: its ack, or a prune past
    it. *)
Definition releases (off : Z) (op : router_op) : Prop :=
  match op with
  | RClear o => o = off
  | RRetain c => off < c
  | _ => False
  end.

Lemma decide_deliver r m key off :
  key <> [] -> decide_route r m key off = RDeliver ->
  owner r key = Some m /\ (in_flight_keys r !! key = None \/ in_flight_keys r !! key = Some off).
Proof.
  unfold decide_route. destruct key as [|b l]; [done|]. intros _.
  destruct (in_flight_keys r !! (b :: l)) as [busy|]; simpl.
  - destruct (Z.eqb_spec busy off) as [->|]; simpl; [|done].
    destruct (owner r (b :: l)) as [o|]; [|done]. destruct (Z.eqb_spec o m); [|done].
    subst. split; [done|by right].
  - destruct (owner r (b :: l)) as [o|]; [|done]. destruct (Z.eqb_spec o m); [|done].
    subst. split; [done|by left].
Qed.

Lemma rstep_outstanding r op off :
  coherent r -> key_of off <> [] -> in_flight_keys r !! key_of off = Some off ->
  ~ releases off op ->
  in_flight_keys (rstep r op).1 !! key_of off = Some off /\
  (forall m o, (rstep r op).2 = Some (m, o) -> key_of o = key_of off ->
     o = off /\ owner r (key_of off) = Some m).
Proof.
  intros Hc Hk Hin Hr. destruct op as [m|m|m o|o|c]; simpl in *; try (split; [done|]; done).
  - destruct (decide_route r m (key_of o) o) eqn:Ed; simpl; try (split; [done|]; done).
    destruct (decide_rel (=) (key_of o) (key_of off)) as [Heq|Hne].
    + assert (Hko : key_of o <> []) by congruence.
      destruct (decide_deliver _ _ _ _ Hko Ed) as [Ho Hf]. rewrite Heq in *.
      assert (o = off) as -> by (destruct Hf; congruence).
      split; [|naive_solver]. rewrite mark_in_flight_lookup.
      by rewrite bool_decide_true.
    + split; [|naive_solver]. rewrite mark_in_flight_lookup.
      rewrite bool_decide_false; [done|]. naive_solver.
  - split; [|done]. rewrite clear_offset_lookup by done. rewrite Hin.
    by rewrite bool_decide_false.
  - split; [|done]. apply map_lookup_filter_Some. split; [done|]. simpl. lia.
Qed.

(** C32: per-key serialization.  Once a record of a non-empty key is delivered,
    then, whatever members join, leave and poll, until that record is acked or
    pruned every delivery of the key is of that same record (a redelivery), to
    the member that owns the key at that moment; and the ack frees the key, so
    its owner gets the key's next record. *)
Theorem key_order_preserved r m off ops :
  coherent r -> (rstep r (RPoll m off)).2 = Some (m, off) -> key_of off <> [] ->
  Forall (fun op => ~ releases off op) ops ->
  let '(r', ds) := rrun (rstep r (RPoll m off)).1 ops in
  (forall ri mi o, (ri, (mi, o)) ∈ ds -> key_of o = key_of off ->
     o = off /\ owner ri (key_of off) = Some mi) /\
  (forall mi next, key_of next = key_of off -> owner r' (key_of off) = Some mi ->
     (next <> off -> decide_route r' mi (key_of off) next = KeyBusy) /\
     decide_route (clear_offset r' off) mi (key_of off) next = RDeliver).
Proof.
  intros Hc Hd Hk Hops.
  assert (Hin : in_flight_keys (rstep r (RPoll m off)).1 !! key_of off = Some off).
  { revert Hd. simpl. destruct (decide_route r m (key_of off) off); simpl; try done.
    intros _. rewrite mark_in_flight_lookup. by rewrite bool_decide_true. }
  pose proof (rstep_coherent r (RPoll m off) Hc) as Hc1.
  clear Hd Hc. revert Hin Hc1. generalize (rstep r (RPoll m off)).1 as r1. clear r m.
  induction Hops as [|op ops Hop _ IH]; intros r Hin Hc; simpl.
  - split; [intros ??? Hx; by apply not_elem_of_nil in Hx|]. intros mi next Hn Ho.
    pose proof (clear_offset_lookup r off (key_of off) Hc) as Hcl. rewrite Hin in Hcl.
    rewrite bool_decide_true in Hcl by done.
    assert (Ho' : owner (clear_offset r off) (key_of off) = Some mi).
    { rewrite <- Ho. unfold clear_offset. by destruct (holder r off). }
    unfold decide_route. rewrite Ho', Hcl, Hin. destruct (key_of off); [done|]. simpl.
    split; [|by rewrite Z.eqb_refl]. intros Hne. destruct (Z.eqb_spec off next); [lia|done].
  - pose proof (rstep_outstanding r op off Hc Hk Hin Hop) as [Hin1 Hdel].
    pose proof (rstep_coherent r op Hc) as Hc1.
    destruct (rstep r op) as [r1 d]. specialize (IH r1 Hin1 Hc1).
    destruct (rrun r1 ops) as [r2 ds]. destruct IH as [IH1 IH2]. split; [|done].
    destruct d as [[md od]|]; [|done].
    intros ri mi o [[= -> -> ->]|Hx]%elem_of_cons; [by apply Hdel|by apply IH1].
Qed.

End serialization.
End router.

(** A group of two members over a log in which the records 0 and 2 share a
    key. *)
Definition demo_key (o : Z) : list Z := if o =? 1 then [98] else [97].
Definition demo_router : KeyRouter := (join (join router_new 1).1 2).1.

Lemma rendezvous_minimal_reshuffle_witness :
  members demo_router <> ∅ /\ @owner sum64 demo_router [97] = Some 2 /\
  @owner sum64 (leave demo_router 1).1 [97] = Some 2.
Proof.
  split; [intros E; assert (E2 : bool_decide (1 ∈ members demo_router) = true)
    by (vm_compute; reflexivity); rewrite E in E2; discriminate E2|].
  split; [vm_compute; reflexivity|].
  apply (proj1 (proj2 (@rendezvous_minimal_reshuffle sum64 demo_router [97] 1)) 2);
    [vm_compute; reflexivity|lia].
Defined.

Lemma key_order_preserved_witness :
  let r := demo_router in
  let ops := [RPoll 1 2; RPoll 2 2; RPoll 2 1; RLeave 2; RPoll 1 2; RPoll 1 0] in
  (@rstep sum64 demo_key r (RPoll 2 0)).2 = Some (2, 0) /\
  snd <$> (@rrun sum64 demo_key (@rstep sum64 demo_key r (RPoll 2 0)).1 ops).2 = [(2, 1); (1, 0)] /\
  (forall ri mi o, (ri, (mi, o)) ∈ (@rrun sum64 demo_key (@rstep sum64 demo_key r (RPoll 2 0)).1 ops).2 ->
     demo_key o = demo_key 0 -> o = 0).
Proof.
  intros r ops. split; [vm_compute; reflexivity|]. split; [vm_compute; reflexivity|].
  assert (Hc : coherent demo_key r) by (intros k o Hk; vm_compute in Hk; discriminate Hk).
  assert (Hd : (@rstep sum64 demo_key r (RPoll 2 0)).2 = Some (2, 0)) by (vm_compute; reflexivity).
  assert (Hk : demo_key 0 <> []) by discriminate.
  assert (Ho : Forall (fun op => ~ releases 0 op) ops)
    by (repeat apply Forall_cons_2; try apply Forall_nil_2; simpl; lia).
  pose proof (@key_order_preserved sum64 demo_key r 2 0 ops Hc Hd Hk Ho) as Hall.
  intros ri mi o Hin Hko. revert Hall Hin.
  destruct (@rrun sum64 demo_key (@rstep sum64 demo_key r (RPoll 2 0)).1 ops) as [r' ds].
  intros [Hall _] Hin. exact (proj1 (Hall ri mi o Hin Hko)).
Defined.
