(* ===== verification/Confirm.v ===== *)
(** * The Level-2 confirm registry ([confirm.rs])

    The bounded map that turns the designated group's commits into producer
    confirms: pending entries by durable offset, and a bounded queue of
    terminals each producer drains.  The loops that pop the map run on a fuel of
    one more than its size, which [drain_below_spec] and [register_spec] show to
    be enough. *)

From S2P Require Import Prelude.

Definition DEFAULT_MAX_PENDING : N := 65536.
Definition DEFAULT_CONFIRM_TTL_NANOS : Z := 5 * 60 * 1000000000.

Inductive ConfirmStatus := Consumed | TimedOut | DeadLettered | Dropped.

#[export] Instance ConfirmStatus_eq_dec : EqDecision ConfirmStatus.
Proof. solve_decision. Defined.

Record ReadyConfirm := mk_ready {
  rc_offset : Z;
  rc_member : Z;
  rc_status : ConfirmStatus
}.

Record ConfirmConfig := mk_confirm_config {
  max_pending : N;
  ttl_nanos : Z
}.

Definition confirm_default : ConfirmConfig :=
  mk_confirm_config DEFAULT_MAX_PENDING DEFAULT_CONFIRM_TTL_NANOS.

Record Pending := mk_pending {
  p_member : Z;
  registered_nanos : Z
}.

Record ConfirmRegistry := mk_registry {
  confirm_config : ConfirmConfig;
  pending : gmap Z Pending;
  ready : list ReadyConfirm
}.

Definition registry_new (config : ConfirmConfig) : ConfirmRegistry :=
  mk_registry (mk_confirm_config (N.max (max_pending config) 1) (ttl_nanos config)) ∅ [].

Definition pending_len (r : ConfirmRegistry) : nat := size (pending r).
Definition ready_len (r : ConfirmRegistry) : nat := length (ready r).

(** [while ready.len() >= max { pop_front }]; the cap is at least one in every
    registry [registry_new] builds, so the loop ends by the empty queue. *)
Fixpoint pop_over (max : N) (l : list ReadyConfirm) : list ReadyConfirm :=
  match l with
  | [] => []
  | _ :: l' => if (max <=? N.of_nat (length l))%N then pop_over max l' else l
  end.

Definition push_ready (r : ConfirmRegistry) (c : ReadyConfirm) : ConfirmRegistry :=
  mk_registry (confirm_config r) (pending r)
    (pop_over (max_pending (confirm_config r)) (ready r) ++ [c]).

Definition set_pending (r : ConfirmRegistry) (p : gmap Z Pending) : ConfirmRegistry :=
  mk_registry (confirm_config r) p (ready r).

(** The eviction loop of [register]. *)
Fixpoint evict (fuel : nat) (r : ConfirmRegistry) (offset : Z) : ConfirmRegistry :=
  match fuel with
  | O => r
  | S fuel =>
      if (max_pending (confirm_config r) <=? N.of_nat (size (pending r)))%N
         && negb (bool_decide (is_Some (pending r !! offset))) then
        match pop_first (pending r) with
        | None => r
        | Some (victim_offset, victim, rest) =>
            evict fuel (push_ready (set_pending r rest)
              (mk_ready victim_offset (p_member victim) Dropped)) offset
        end
      else r
  end.

Definition register (r : ConfirmRegistry) (offset member now : Z) : ConfirmRegistry :=
  let r := evict (S (size (pending r))) r offset in
  set_pending r (<[offset := mk_pending member now]> (pending r)).

(** The loop shared by [confirm_up_to] and [terminate_below]: pop the prefix
    below [bound], each as a terminal with the given status. *)
Fixpoint drain_below (fuel : nat) (r : ConfirmRegistry) (bound : Z) (st : ConfirmStatus) (fired : nat)
    : ConfirmRegistry * nat :=
  match fuel with
  | O => (r, fired)
  | S fuel =>
      match first_key_value (pending r) with
      | Some (o, _) =>
          if o <? bound then
            match pop_first (pending r) with
            | None => (r, fired)
            | Some (offset, p, rest) =>
                drain_below fuel (push_ready (set_pending r rest) (mk_ready offset (p_member p) st))
                  bound st (S fired)
            end
          else (r, fired)
      | None => (r, fired)
      end
  end.

Definition confirm_up_to (r : ConfirmRegistry) (committed : Z) : ConfirmRegistry * nat :=
  drain_below (S (size (pending r))) r committed Consumed 0.

Definition terminate_below (r : ConfirmRegistry) (floor : Z) (st : ConfirmStatus)
    : ConfirmRegistry * nat :=
  drain_below (S (size (pending r))) r floor st 0.

Definition terminate (r : ConfirmRegistry) (offset : Z) (st : ConfirmStatus) : ConfirmRegistry * bool :=
  match pending r !! offset with
  | Some p => (push_ready (set_pending r (delete offset (pending r))) (mk_ready offset (p_member p) st), true)
  | None => (r, false)
  end.

Definition sweep_one (r : ConfirmRegistry) (offset : Z) : ConfirmRegistry :=
  (terminate r offset TimedOut).1.

Definition timed_out (r : ConfirmRegistry) (now : Z) : list Z :=
  fst <$> filter (fun q => ttl_nanos (confirm_config r) <= sat_sub now (registered_nanos q.2))
            (btree_list (pending r)).

Definition sweep_timed_out (r : ConfirmRegistry) (now : Z) : ConfirmRegistry * nat :=
  if ttl_nanos (confirm_config r) =? 0 then (r, 0%nat)
  else (foldl sweep_one r (timed_out r now), length (timed_out r now)).

Definition drop_member (r : ConfirmRegistry) (member : Z) : ConfirmRegistry * nat :=
  let before := (size (pending r) + length (ready r))%nat in
  let r' := mk_registry (confirm_config r)
    (filter (fun q => p_member q.2 <> member) (pending r))
    (filter (fun c => rc_member c <> member) (ready r)) in
  (r', (before - (size (pending r') + length (ready r')))%nat).

Definition drain_ready_for (r : ConfirmRegistry) (member : Z) : ConfirmRegistry * list ReadyConfirm :=
  (mk_registry (confirm_config r) (pending r) (filter (fun c => rc_member c <> member) (ready r)),
   filter (fun c => rc_member c = member) (ready r)).

(** ** The loops terminate with the intended result *)

(** The last [n] elements: what a bounded drop-oldest queue keeps. *)
Definition lastn {A} (n : N) (l : list A) : list A := drop (length l - N.to_nat n) l.

Lemma lastn_all {A} n (l : list A) : (N.of_nat (length l) <= n)%N -> lastn n l = l.
Proof. intros H. unfold lastn. replace (length l - N.to_nat n)%nat with O by lia. done. Qed.

Lemma lastn_length {A} n (l : list A) : (N.of_nat (length (lastn n l)) <= n)%N.
Proof. unfold lastn. rewrite length_drop. lia. Qed.

Lemma lastn_app {A} n (l k : list A) : lastn n (lastn n l ++ k) = lastn n (l ++ k).
Proof.
  unfold lastn. rewrite !length_app, length_drop.
  destruct (decide (length l <= N.to_nat n)%nat) as [Hl|Hl].
  - replace (length l - N.to_nat n)%nat with O by lia. simpl. f_equal. lia.
  - rewrite !drop_app, drop_drop, length_drop. f_equal; f_equal; lia.
Qed.

Record wf (r : ConfirmRegistry) : Prop := {
  wf_cap : (1 <= max_pending (confirm_config r))%N;
  wf_pending : (N.of_nat (size (pending r)) <= max_pending (confirm_config r))%N;
  wf_ready : (N.of_nat (length (ready r)) <= max_pending (confirm_config r))%N
}.

Lemma pop_over_drop max l :
  (1 <= max)%N -> pop_over max l = drop (S (length l) - N.to_nat max) l.
Proof.
  intros Hm. induction l as [|x l IH]; [by rewrite drop_nil|].
  cbn [pop_over]. destruct (N.leb_spec max (N.of_nat (length (x :: l)))) as [H|H].
  - rewrite IH. cbn [length] in *.
    replace (S (S (length l)) - N.to_nat max)%nat with (S (S (length l) - N.to_nat max)) by lia. done.
  - cbn [length] in *. replace (S (S (length l)) - N.to_nat max)%nat with O by lia. done.
Qed.

Lemma push_ready_lastn r c :
  (1 <= max_pending (confirm_config r))%N ->
  ready (push_ready r c) = lastn (max_pending (confirm_config r)) (ready r ++ [c]).
Proof.
  intros Hm. unfold push_ready. cbn [ready]. rewrite pop_over_drop by done. unfold lastn.
  rewrite length_app. cbn [length]. rewrite drop_app.
  replace (length (ready r) + 1 - N.to_nat (max_pending (confirm_config r)) - length (ready r))%nat
    with O by lia. cbn [drop]. f_equal. f_equal. lia.
Qed.

Definition as_terminal (st : ConfirmStatus) (q : Z * Pending) : ReadyConfirm :=
  mk_ready q.1 (p_member q.2) st.

(** Moving one pending entry to the ready queue. *)
Lemma move_ready r k v st :
  wf r -> pending r !! k = Some v ->
  let r1 := push_ready (set_pending r (delete k (pending r))) (mk_ready k (p_member v) st) in
  wf r1 /\ pending r1 = delete k (pending r) /\ confirm_config r1 = confirm_config r /\
  size (pending r) = S (size (pending r1)) /\
  ready r1 = lastn (max_pending (confirm_config r)) (ready r ++ [mk_ready k (p_member v) st]).
Proof.
  intros [H1 H2 H3] Hk r1.
  pose proof (size_delete_Some _ _ _ Hk) as Hsz.
  assert (Hr : ready r1 = lastn (max_pending (confirm_config r)) (ready r ++ [mk_ready k (p_member v) st]))
    by by apply (push_ready_lastn (set_pending r (delete k (pending r)))).
  repeat split; try done.
  - change (pending r1) with (delete k (pending r)). change (confirm_config r1) with (confirm_config r). lia.
  - rewrite Hr. apply lastn_length.
Qed.

Lemma below_none r b k v l :
  btree_list (pending r) = (k, v) :: l -> b <= k ->
  forall j w, pending r !! j = Some w -> ~ j < b.
Proof.
  intros El Hb j w Hj%elem_of_btree_list. apply btree_list_cons in El as E2.
  destruct E2 as (_ & _ & Hall). rewrite El in Hj.
  apply elem_of_cons in Hj as [[= -> ->]|Hin]; [lia|].
  rewrite Forall_forall in Hall. specialize (Hall _ Hin). simpl in Hall. lia.
Qed.

Lemma drain_below_spec fuel r b st n :
  wf r -> (size (pending r) < fuel)%nat ->
  let gone := filter (fun q : Z * Pending => q.1 < b) (btree_list (pending r)) in
  drain_below fuel r b st n =
  (mk_registry (confirm_config r) (filter (fun q => ~ q.1 < b) (pending r))
     (lastn (max_pending (confirm_config r)) (ready r ++ (as_terminal st <$> gone))),
   (n + length gone)%nat).
Proof.
  revert r n. induction fuel as [|fuel IH]; intros r n Hw Hf gone; [lia|].
  assert (Hstop : (forall j w, pending r !! j = Some w -> ~ j < b) ->
    (r, n) = (mk_registry (confirm_config r) (filter (fun q => ~ q.1 < b) (pending r))
     (lastn (max_pending (confirm_config r)) (ready r ++ (as_terminal st <$> gone))),
     (n + length gone)%nat)).
  { intros Hno. unfold gone. rewrite filter_none
      by (intros [j w] Hj%elem_of_btree_list; exact (Hno j w Hj)).
    rewrite fmap_nil, app_nil_r, Nat.add_0_r, lastn_all by apply Hw.
    rewrite map_filter_id by exact Hno. by destruct r. }
  cbn [drain_below]. unfold first_key_value, pop_first.
  destruct (btree_list (pending r)) as [|[k v] l] eqn:El; cbn [head].
  { apply Hstop. apply btree_list_nil in El. rewrite El. by intros j w Hj%lookup_empty_Some. }
  destruct (Z.ltb_spec k b) as [Hlt|Hge]; [|by apply Hstop, (below_none r b k v l)].
  apply btree_list_cons in El as (Hk & El & _).
  destruct (move_ready r k v st Hw Hk) as (Hw1 & Hp1 & Hc1 & Hs1 & Hr1).
  rewrite IH by (done || lia). rewrite Hp1, Hc1, Hr1, El. unfold gone.
  rewrite filter_cons_True by done. rewrite lastn_app, <- app_assoc. cbn [length fmap list_fmap app].
  f_equal; [|lia]. f_equal. apply map_eq. intros j. apply option_eq. intros w.
  rewrite !map_lookup_filter_Some, lookup_delete_Some. cbn. split; [tauto|].
  intros [Hj Hnb]. repeat split; [|done|done]. intros ->. lia.
Qed.

(** [register] evicts at most one entry, the one with the lowest offset, and
    only for a new offset at the cap. *)
Lemma evict_spec r offset :
  wf r ->
  evict (S (size (pending r))) r offset =
  if (max_pending (confirm_config r) <=? N.of_nat (size (pending r)))%N
     && negb (bool_decide (is_Some (pending r !! offset))) then
    match pop_first (pending r) with
    | Some (k, v, rest) => push_ready (set_pending r rest) (mk_ready k (p_member v) Dropped)
    | None => r
    end
  else r.
Proof.
  intros Hw. cbn [evict]. destruct (_ && _) eqn:Ec; [|done].
  unfold pop_first. destruct (btree_list (pending r)) as [|[k v] l] eqn:El; [done|]. cbn [head].
  apply btree_list_cons in El as (Hk & _ & _).
  destruct (move_ready r k v Dropped Hw Hk) as (Hw1 & Hp1 & Hc1 & Hs1 & _).
  destruct (size (pending r)) as [|n] eqn:En; [lia|]. cbn [evict].
  pose proof (wf_pending r Hw). rewrite Hc1.
  destruct (N.leb_spec (max_pending (confirm_config r))
    (N.of_nat (size (pending (push_ready (set_pending r (delete k (pending r)))
       (mk_ready k (p_member v) Dropped)))))); [lia|]. done.
Qed.

Lemma drain_below_wf r b st : wf r -> wf (drain_below (S (size (pending r))) r b st 0).1.
Proof.
  intros Hw. rewrite drain_below_spec by (done || lia). simpl. destruct Hw as [H1 H2 H3].
  constructor; simpl; [done| |apply lastn_length].
  pose proof (map_size_filter (fun q : Z * Pending => ~ q.1 < b) (pending r)). lia.
Qed.

(** ** Traces *)

Inductive confirm_op :=
| CRegister (offset member now : Z)
| CConfirm (committed : Z)
| CTerminate (offset : Z) (st : ConfirmStatus)
| CTerminateBelow (floor : Z) (st : ConfirmStatus)
| CSweep (now : Z)
| CDrop (member : Z)
| CDrain (member : Z).

(** One call: the registry after it and the terminals it handed to a producer. *)
Definition cstep (r : ConfirmRegistry) (op : confirm_op) : ConfirmRegistry * list ReadyConfirm :=
  match op with
  | CRegister o m now => (register r o m now, [])
  | CConfirm c => ((confirm_up_to r c).1, [])
  | CTerminate o st => ((terminate r o st).1, [])
  | CTerminateBelow f st => ((terminate_below r f st).1, [])
  | CSweep now => ((sweep_timed_out r now).1, [])
  | CDrop m => ((drop_member r m).1, [])
  | CDrain m => drain_ready_for r m
  end.

Fixpoint crun (r : ConfirmRegistry) (ops : list confirm_op) : ConfirmRegistry * list ReadyConfirm :=
  match ops with
  | [] => (r, [])
  | op :: ops =>
      let '(r1, out) := cstep r op in
      let '(r2, outs) := crun r1 ops in
      (r2, out ++ outs)
  end.

(** The waits a registry answers for, as pairs of offset and producer. *)
Definition terminal_of (c : ReadyConfirm) : Z * Z := (rc_offset c, rc_member c).
Definition wait_of (q : Z * Pending) : Z * Z := (q.1, p_member q.2).
Definition waits (r : ConfirmRegistry) : list (Z * Z) :=
  (terminal_of <$> ready r) ++ (wait_of <$> map_to_list (pending r)).

Definition registered (op : confirm_op) : list (Z * Z) :=
  match op with CRegister o m _ => [(o, m)] | _ => [] end.

(** The caller never terminates a wait as consumed ([terminate] and
    [terminate_below] take a non-[Consumed] terminal). *)
Definition cop_ok (op : confirm_op) : Prop :=
  match op with
  | CTerminate _ st | CTerminateBelow _ st => st <> Consumed
  | _ => True
  end.

(** The highest watermark the designated group committed. *)
Definition watermark (ops : list confirm_op) : Z :=
  foldr (fun op w => match op with CConfirm c => Z.max c w | _ => w end) 0 ops.

(** A call only moves waits: none is duplicated or invented. *)
Definition moves (r r' : ConfirmRegistry) : Prop :=
  wf r' /\ confirm_config r' = confirm_config r /\ waits r' ⊆+ waits r.

#[export] Instance moves_trans : Transitive moves.
Proof.
  intros r1 r2 r3 (_ & E1 & H1) (Hw & E2 & H2).
  split; [done|]. split; [congruence|]. by etrans.
Qed.

#[local] Instance app_submseteq_proper {A} :
  Proper (submseteq ==> submseteq ==> submseteq) (@app A).
Proof. intros l1 l2 Hl k1 k2 Hk. by apply submseteq_app. Qed.

Lemma lastn_submseteq {A} n (l : list A) : lastn n l ⊆+ l.
Proof. apply submseteq_drop. Qed.

Lemma move_ready_moves r k v st :
  wf r -> pending r !! k = Some v ->
  moves r (push_ready (set_pending r (delete k (pending r))) (mk_ready k (p_member v) st)).
Proof.
  intros Hw Hk. destruct (move_ready r k v st Hw Hk) as (Hw1 & Hp & Hc & _ & Hr).
  split; [done|]. split; [done|]. unfold waits. rewrite Hp, Hr.
  rewrite (lastn_submseteq _ (ready r ++ _)), fmap_app, <- app_assoc.
  apply submseteq_skips_l. rewrite <- (map_to_list_delete (pending r) k v Hk) at 1. done.
Qed.

Lemma drain_below_moves fuel r b st n : wf r -> moves r (drain_below fuel r b st n).1.
Proof.
  revert r n. induction fuel as [|fuel IH]; intros r n Hw; [done|]. cbn [drain_below].
  unfold first_key_value, pop_first. destruct (btree_list (pending r)) as [|[k v] l] eqn:El; [done|].
  cbn [head]. destruct (k <? b); [|done]. apply btree_list_cons in El as (Hk & _ & _).
  pose proof (move_ready_moves r k v st Hw Hk) as Hm. etrans; [exact Hm|]. apply IH, Hm.
Qed.

Lemma terminate_moves r o st : wf r -> moves r (terminate r o st).1.
Proof.
  intros Hw. unfold terminate. destruct (pending r !! o) as [p|] eqn:E; [|done].
  by apply move_ready_moves.
Qed.

Lemma sweep_moves r l : wf r -> moves r (foldl sweep_one r l).
Proof.
  revert r. induction l as [|o l IH]; intros r Hw; [done|]. simpl.
  pose proof (terminate_moves r o TimedOut Hw) as Hm. etrans; [exact Hm|]. apply IH, Hm.
Qed.

Lemma evict_moves r o :
  wf r -> let r1 := evict (S (size (pending r))) r o in
  moves r r1 /\ (is_Some (pending r1 !! o) \/
                 (N.of_nat (size (pending r1)) < max_pending (confirm_config r1))%N).
Proof.
  intros Hw r1. unfold r1. rewrite evict_spec by done. destruct (_ && _) eqn:Ec.
  - apply andb_true_iff in Ec as [E1%N.leb_le _]. unfold pop_first.
    destruct (btree_list (pending r)) as [|[k v] l] eqn:El; cbn [head].
    + apply btree_list_nil in El. rewrite El in E1. pose proof (wf_cap r Hw).
      rewrite map_size_empty in E1. lia.
    + apply btree_list_cons in El as (Hk & _ & _). split; [by apply move_ready_moves|]. right.
      destruct (move_ready r k v Dropped Hw Hk) as (_ & _ & -> & Hs & _).
      pose proof (wf_pending r Hw). lia.
  - split; [done|]. apply andb_false_iff in Ec as [E%N.leb_gt|E]; [by right|left].
    by apply negb_false_iff, bool_decide_eq_true in E.
Qed.

Lemma register_waits r o m now :
  wf r -> wf (register r o m now) /\ confirm_config (register r o m now) = confirm_config r /\
  waits (register r o m now) ⊆+ (o, m) :: waits r.
Proof.
  intros Hw. unfold register. destruct (evict_moves r o Hw) as [(Hw1 & Hc & Hm) Hsz].
  revert Hw1 Hc Hm Hsz. generalize (evict (S (size (pending r))) r o) as r1.
  intros r1 [H1 H2 H3] Hc Hm Hsz.
  split; [constructor; simpl; [done| |done]|split; [done|]].
  - destruct (pending r1 !! o) as [p|] eqn:E.
    + rewrite map_size_insert_Some by eauto. done.
    + rewrite map_size_insert_None by done. destruct Hsz as [[? ?]|]; [done|lia].
  - etrans; [|apply submseteq_skip, Hm]. unfold waits. cbn [pending ready set_pending].
    rewrite <- insert_delete_eq, map_to_list_insert by apply lookup_delete_eq.
    rewrite fmap_cons. change (wait_of (o, mk_pending m now)) with (o, m).
    rewrite <- Permutation_middle. apply submseteq_skip, submseteq_skips_l, fmap_submseteq.
    destruct (pending r1 !! o) as [p|] eqn:E.
    + rewrite <- (map_to_list_delete (pending r1) o p E). by apply submseteq_cons.
    + by rewrite delete_id.
Qed.

Lemma filter_partition_perm {A} (P : A -> Prop) `{forall x, Decision (P x)} (l : list A) :
  filter (fun x => ~ P x) l ++ filter P l ≡ₚ l.
Proof.
  induction l as [|x l IH]; [done|]. rewrite !filter_cons. destruct (decide (P x)).
  - rewrite decide_False by tauto. by rewrite <- Permutation_middle, IH.
  - rewrite decide_True by done. simpl. by rewrite IH.
Qed.

Lemma cstep_waits r op :
  wf r -> wf (cstep r op).1 /\ confirm_config (cstep r op).1 = confirm_config r /\
  waits (cstep r op).1 ++ (terminal_of <$> (cstep r op).2) ⊆+ registered op ++ waits r.
Proof.
  intros Hw.
  assert (Hmv : forall r', moves r r' ->
    wf r' /\ confirm_config r' = confirm_config r /\ waits r' ++ [] ⊆+ waits r)
    by (intros r' (H1 & H2 & H3); split; [done|]; split; [done|]; by rewrite app_nil_r).
  destruct op as [o m now|c|o st|f st|now|m|m]; cbn [cstep fst snd registered].
  - rewrite fmap_nil, app_nil_r. by apply register_waits.
  - by apply Hmv, drain_below_moves.
  - by apply Hmv, terminate_moves.
  - by apply Hmv, drain_below_moves.
  - apply Hmv. unfold sweep_timed_out. case_if; [done|]. by apply sweep_moves.
  - apply Hmv. unfold drop_member. cbn [fst]. split; [|split; [done|]].
    + destruct Hw as [H1 H2 H3]. constructor; simpl; [done| |].
      * pose proof (map_size_filter (fun q : Z * Pending => p_member q.2 <> m) (pending r)). lia.
      * pose proof (length_filter (fun c => rc_member c <> m) (ready r)). lia.
    + unfold waits. simpl. apply submseteq_app; apply fmap_submseteq.
      * rewrite <- (filter_partition_perm (fun c => rc_member c = m) (ready r)) at 2.
        apply submseteq_inserts_r. done.
      * apply NoDup_submseteq; [apply NoDup_map_to_list|]. intros [k p].
        rewrite !elem_of_map_to_list. by intros [? _]%map_lookup_filter_Some.
  - unfold drain_ready_for. cbn [fst snd]. split; [|split; [done|]].
    + destruct Hw as [H1 H2 H3]. constructor; simpl; [done..|].
      pose proof (length_filter (fun c => rc_member c <> m) (ready r)). lia.
    + unfold waits. cbn [ready pending].
      assert (Hp : terminal_of <$> ready r ≡ₚ
        (terminal_of <$> filter (fun c => rc_member c <> m) (ready r)) ++
        (terminal_of <$> filter (fun c => rc_member c = m) (ready r)))
        by by rewrite <- fmap_app, filter_partition_perm.
      rewrite Hp. simpl. rewrite <- !app_assoc. apply submseteq_skips_l.
      apply Permutation_submseteq, Permutation_app_comm.
Qed.

(** A terminal of [r'] was ready in [r], or satisfies [P]. *)
Definition adds (P : ReadyConfirm -> Prop) (r r' : ConfirmRegistry) : Prop :=
  forall c, c ∈ ready r' -> c ∈ ready r \/ P c.

Lemma elem_of_lastn {A} n (l : list A) x : x ∈ lastn n l -> x ∈ l.
Proof. apply subseteq_drop. Qed.

Lemma move_ready_adds r k v st :
  wf r -> pending r !! k = Some v ->
  adds (fun c => rc_status c = st) r
    (push_ready (set_pending r (delete k (pending r))) (mk_ready k (p_member v) st)).
Proof.
  intros Hw Hk c. destruct (move_ready r k v st Hw Hk) as (_ & _ & _ & _ & ->).
  intros [Hc|Hc%list_elem_of_singleton]%elem_of_lastn%elem_of_app; [by left|right]. by subst.
Qed.

Lemma terminate_adds r o st : wf r -> adds (fun c => rc_status c = st) r (terminate r o st).1.
Proof.
  intros Hw. unfold terminate. destruct (pending r !! o) as [p|] eqn:E; [|by left].
  by apply move_ready_adds.
Qed.

Lemma sweep_adds r l : wf r -> adds (fun c => rc_status c = TimedOut) r (foldl sweep_one r l).
Proof.
  revert r. induction l as [|o l IH]; intros r Hw; [by left|]. simpl. intros c Hc.
  destruct (IH _ (proj1 (terminate_moves r o TimedOut Hw)) c Hc) as [H|H]; [|by right].
  exact (terminate_adds r o TimedOut Hw c H).
Qed.

Lemma drain_below_adds r b st :
  wf r -> adds (fun c => rc_status c = st /\ rc_offset c < b) r
            (drain_below (S (size (pending r))) r b st 0).1.
Proof.
  intros Hw c. rewrite drain_below_spec by (done || lia). simpl.
  intros [Hc|Hc]%elem_of_lastn%elem_of_app; [by left|right].
  apply list_elem_of_fmap in Hc as (q & -> & [Hq _]%list_elem_of_filter). done.
Qed.

Lemma evict_adds r o : wf r -> adds (fun c => rc_status c = Dropped) r (evict (S (size (pending r))) r o).
Proof.
  intros Hw. rewrite evict_spec by done. destruct (_ && _); [|by left]. unfold pop_first.
  destruct (btree_list (pending r)) as [|[k v] l] eqn:El; [by left|]. cbn [head].
  apply btree_list_cons in El as (Hk & _ & _). by apply move_ready_adds.
Qed.

(** Every [Consumed] terminal is below the watermark. *)
Definition justified (w : Z) (l : list ReadyConfirm) : Prop :=
  forall c, c ∈ l -> rc_status c = Consumed -> rc_offset c < w.

Lemma adds_justified P w w' r r' :
  justified w (ready r) -> w <= w' -> adds P r r' ->
  (forall c, P c -> rc_status c = Consumed -> rc_offset c < w') -> justified w' (ready r').
Proof.
  intros Hj Hw Ha HP c Hc Hs. destruct (Ha c Hc) as [H|H]; [|by apply HP].
  specialize (Hj c H Hs). lia.
Qed.

Lemma cstep_justified w r op :
  wf r -> cop_ok op -> justified w (ready r) ->
  let w' := match op with CConfirm c => Z.max c w | _ => w end in
  justified w' (ready (cstep r op).1) /\ justified w' (cstep r op).2.
Proof.
  intros Hw Hok Hj w'.
  assert (Hnil : justified w' []) by (intros c Hc; by apply not_elem_of_nil in Hc).
  assert (Hadd : forall P r', w <= w' -> adds P r r' ->
    (forall c, P c -> rc_status c = Consumed -> rc_offset c < w') ->
    justified w' (ready r') /\ justified w' [])
    by (intros P r' H1 H2 H3; split; [exact (adds_justified P w w' r r' Hj H1 H2 H3)|done]).
  destruct op as [o m now|c|o st|f st|now|m|m]; cbn [cstep fst snd] in *; simpl in Hok, w'.
  - apply (Hadd (fun c => rc_status c = Dropped)); [lia|exact (evict_adds r o Hw)|congruence].
  - eapply Hadd; [lia|apply drain_below_adds, Hw|]. simpl. intros x [_ Hx] _. lia.
  - eapply Hadd; [lia|apply terminate_adds, Hw|]. simpl. congruence.
  - eapply Hadd; [lia|apply drain_below_adds, Hw|]. simpl. intros x [Hx _]. congruence.
  - unfold sweep_timed_out. case_if; [by split|].
    eapply Hadd; [lia|apply sweep_adds, Hw|]. simpl. congruence.
  - split; [|done]. intros c [_ Hc]%list_elem_of_filter. by apply Hj.
  - split; intros c [_ Hc]%list_elem_of_filter; by apply Hj.
Qed.

Lemma crun_sound ops r w :
  wf r -> Forall cop_ok ops -> justified w (ready r) ->
  let '(r', out) := crun r ops in
  wf r' /\ confirm_config r' = confirm_config r /\
  waits r' ++ (terminal_of <$> out) ⊆+ (ops ≫= registered) ++ waits r /\
  justified (Z.max (watermark ops) w) out.
Proof.
  revert r w. induction ops as [|op ops IH]; intros r w Hw Hok Hj.
  { simpl. split; [done|]. split; [done|]. split; [by rewrite app_nil_r|].
    intros c Hc. by apply not_elem_of_nil in Hc. }
  apply Forall_cons in Hok as [Hop Hok]. cbn [crun].
  pose proof (cstep_waits r op Hw) as (Hw1 & Hc1 & Hs).
  pose proof (cstep_justified w r op Hw Hop Hj) as [Hj1 Ho1].
  destruct (cstep r op) as [r1 out1]. cbn [fst snd] in *.
  specialize (IH r1 _ Hw1 Hok Hj1). destruct (crun r1 ops) as [r2 out2].
  destruct IH as (Hw2 & Hc2 & IHs & IHj). split; [done|]. split; [congruence|]. split.
  - rewrite fmap_app. cbn [mbind list_bind].
    rewrite (Permutation_app_comm (terminal_of <$> out1)), app_assoc, IHs, <- app_assoc, Hs.
    apply Permutation_submseteq. rewrite !app_assoc. apply Permutation_app_tail, Permutation_app_comm.
  - intros c [Hc|Hc]%elem_of_app Hst.
    + specialize (Ho1 c Hc Hst). simpl. destruct op; lia.
    + specialize (IHj c Hc Hst). simpl. destruct op; lia.
Qed.


Definition confirm_trace : list confirm_op :=
  [CRegister 4 1 0; CRegister 5 2 0; CRegister 6 1 0; CConfirm 5; CDrain 1; CDrain 2; CSweep 10; CDrain 1].


(** The commit hook is exact.  [confirm_up_to] removes from the pending map
    exactly the entries below the watermark, reports how many, and appends one
    [Consumed] terminal for each, in offset order, to the drop-oldest queue. *)
Theorem confirm_up_to_exact r committed :
  wf r ->
  let gone := filter (fun q : Z * Pending => q.1 < committed) (btree_list (pending r)) in
  confirm_up_to r committed =
  (mk_registry (confirm_config r) (filter (fun q => ~ q.1 < committed) (pending r))
     (lastn (max_pending (confirm_config r)) (ready r ++ (as_terminal Consumed <$> gone))),
   length gone).
Proof. intros Hw. apply (drain_below_spec (S (size (pending r)))); [done|lia]. Qed.

Lemma confirm_up_to_exact_witness :
  let r := (crun (registry_new (mk_confirm_config 3 10)) (take 3 confirm_trace)).1 in
  (confirm_up_to r 6).1 = mk_registry (mk_confirm_config 3 10) {[ 6 := mk_pending 1 0 ]}
    [mk_ready 4 1 Consumed; mk_ready 5 2 Consumed].
Proof.
  intros r. assert (Hw : wf r) by (constructor; vm_compute; discriminate).
  rewrite (confirm_up_to_exact r 6 Hw). vm_compute. reflexivity.
Defined.
