(* ===== verification/Ttl.v ===== *)
(** * Message lifetime headers ([ttl.rs], [delay.rs])

    The per-message time-to-live and the delayed-delivery request both ride in
    the record's headers as fixed 12-byte blocks.  A producer sends a relative
    delay ([DLY1]); the broker resolves it against its own clock into an
    absolute due instant ([DUE1]) of the same length, in place. *)

From S2P Require Import Prelude Bytes.

(** ** Time to live *)

Definition ttl_none : Z := 0.
Definition ttl_is_none (ttl : Z) : bool := ttl =? 0.

Definition deadline_from (ttl timestamp_ms : Z) : option Z :=
  if ttl =? 0 then None else Some (sat_add64 timestamp_ms ttl).

Definition lower_of (per_message per_stream : Z) : Z :=
  if (per_message =? 0) && (per_stream =? 0) then ttl_none
  else if per_message =? 0 then per_stream
  else if per_stream =? 0 then per_message
  else if per_message <=? per_stream then per_message
  else per_stream.

Definition is_expired_at (deadline now_unix_millis : Z) : bool := deadline <=? now_unix_millis.

Definition is_expired (ttl timestamp_ms now_unix_millis : Z) : bool :=
  match deadline_from ttl timestamp_ms with
  | Some deadline => is_expired_at deadline now_unix_millis
  | None => false
  end.

(** ["TTL1"] *)
Definition TTL_HEADER_MAGIC : list Z := [84; 84; 76; 49].
Definition TTL_HEADER_LEN : nat := 12.

Definition encode_ttl_headers (ttl : Z) (original_headers : list Z) : list Z :=
  if ttl_is_none ttl then original_headers
  else TTL_HEADER_MAGIC ++ le_bytes 8 ttl ++ original_headers.

Definition decode_ttl_headers (headers : list Z) : Z * list Z :=
  if (length headers <? TTL_HEADER_LEN)%nat || negb (bool_decide (take 4 headers = TTL_HEADER_MAGIC))
  then (ttl_none, headers)
  else (le_val (take 8 (drop 4 headers)), drop TTL_HEADER_LEN headers).

(** ** Delayed delivery *)

Definition delay_none : Z := 0.

Inductive DelayHeaderError :=
| TooLong (requested_ms max_ms : Z)
| DueInjected (due_unix_ms : Z).

(** ["DLY1"] and ["DUE1"] *)
Definition DELAY_HEADER_MAGIC : list Z := [68; 76; 89; 49].
Definition DUE_HEADER_MAGIC : list Z := [68; 85; 69; 49].
Definition DELAY_HEADER_LEN : nat := 12.

Definition delay_block_offset (headers : list Z) : nat :=
  if (TTL_HEADER_LEN <=? length headers)%nat && bool_decide (take 4 headers = TTL_HEADER_MAGIC)
  then TTL_HEADER_LEN else 0.

Definition block_millis (headers : list Z) (at_ : nat) (magic : list Z) : option Z :=
  match slice headers at_ (at_ + DELAY_HEADER_LEN) with
  | None => None
  | Some block =>
      if bool_decide (take 4 block = magic) then Some (le_val (take 8 (drop 4 block))) else None
  end.

Definition encode_delay_headers (delay : Z) (original_headers : list Z) : list Z :=
  if delay =? 0 then original_headers
  else DELAY_HEADER_MAGIC ++ le_bytes 8 delay ++ original_headers.

(** [Ok None] is the untouched fast path; [Ok (Some patched)] replaces the
    headers of the record about to be appended. *)
Definition resolve_delay_headers (headers : list Z) (now_unix_ms max_delay_ms : Z)
    : res (option (list Z)) DelayHeaderError :=
  let at_ := delay_block_offset headers in
  match block_millis headers at_ DELAY_HEADER_MAGIC with
  | None =>
      match block_millis headers at_ DUE_HEADER_MAGIC with
      | Some due_unix_ms => Err (DueInjected due_unix_ms)
      | None => Ok None
      end
  | Some delay_ms =>
      fail? negb (max_delay_ms =? 0) && (max_delay_ms <? delay_ms) with TooLong delay_ms max_delay_ms in
      let due_unix_ms := sat_add64 now_unix_ms delay_ms in
      Ok (Some (take at_ headers ++ DUE_HEADER_MAGIC ++ le_bytes 8 due_unix_ms ++
                drop (at_ + DELAY_HEADER_LEN) headers))
  end.

Definition decode_due_headers (headers : list Z) : option Z :=
  block_millis headers (delay_block_offset headers) DUE_HEADER_MAGIC.

Definition is_undue (headers : list Z) (now_unix_ms : Z) : bool :=
  match decode_due_headers headers with
  | Some due_unix_ms => now_unix_ms <? due_unix_ms
  | None => false
  end.

(** What the log stores for an accepted publish. *)
Definition stored_headers (headers : list Z) (r : option (list Z)) : list Z := default headers r.

(** ** Header blocks *)

(** A block is where its magic and its eight bytes are. *)
Lemma block_millis_Some h a m v :
  length m = 4%nat ->
  block_millis h a m = Some v <->
  exists pre body post, h = pre ++ m ++ body ++ post /\ length pre = a /\
    length body = 8%nat /\ v = le_val body.
Proof.
  intros Hm. unfold block_millis, slice, DELAY_HEADER_LEN. split.
  - case_decide as Hlen; [|done]. replace (a + 12 - a)%nat with 12%nat by lia.
    destruct (bool_decide _) eqn:Eb; [|done]. apply bool_decide_eq_true in Eb. intros [= <-].
    exists (take a h), (take 8 (drop 4 (take 12 (drop a h)))), (drop (a + 12) h).
    split; [|split; [rewrite length_take; lia|split; [|done]]].
    + rewrite <- Eb. rewrite <- (take_drop a h) at 1. f_equal.
      rewrite <- (take_drop 12 (drop a h)) at 1. rewrite drop_drop, app_assoc. f_equal.
      rewrite <- (take_drop 4 (take 12 (drop a h))) at 1. f_equal.
      symmetry. apply take_ge. rewrite length_drop, length_take, length_drop. lia.
    + rewrite !length_take, length_drop, length_take, length_drop. lia.
  - intros (pre & body & post & -> & Ha & Hb & ->). rewrite !length_app, Hm, Hb, Ha.
    rewrite decide_True by lia. replace (a + 12 - a)%nat with 12%nat by lia.
    rewrite drop_app_length' by done. rewrite app_assoc.
    rewrite take_app_length' by (rewrite length_app; lia).
    rewrite take_app_length' by done. rewrite bool_decide_true by done.
    rewrite drop_app_length' by done. by rewrite take_ge by lia.
Qed.

Lemma delay_block_offset_app pre m body post :
  length m = 4%nat -> length body = 8%nat -> m <> TTL_HEADER_MAGIC ->
  length pre = delay_block_offset (pre ++ m ++ body ++ post) ->
  forall m' body' post', length m' = 4%nat -> length body' = 8%nat -> m' <> TTL_HEADER_MAGIC ->
    delay_block_offset (pre ++ m' ++ body' ++ post') = length pre.
Proof.
  intros Hm Hb Hne Hpre m' body' post' Hm' Hb' Hne'. revert Hpre.
  unfold delay_block_offset, TTL_HEADER_LEN. rewrite !length_app, Hm, Hb, Hm', Hb'.
  destruct (bool_decide (take 4 (pre ++ m ++ body ++ post) = TTL_HEADER_MAGIC)) eqn:E1;
    rewrite ?andb_false_r; intros Hpre.
  - apply bool_decide_eq_true in E1. destruct (Nat.leb_spec 12 (length pre + (4 + (8 + length post)))).
    + simpl in Hpre. rewrite take_app_le in E1 by lia. rewrite take_app_le by lia.
      rewrite bool_decide_true by done. rewrite andb_true_r.
      destruct (Nat.leb_spec 12 (length pre + (4 + (8 + length post')))); lia.
    + lia.
  - apply length_zero_iff_nil in Hpre. subst pre. cbn [app].
    rewrite take_app_length' by done. rewrite bool_decide_false by done. by rewrite andb_false_r.
Qed.

Lemma due_magic_not_ttl : DUE_HEADER_MAGIC <> TTL_HEADER_MAGIC.
Proof. done. Qed.
Lemma delay_magic_not_ttl : DELAY_HEADER_MAGIC <> TTL_HEADER_MAGIC.
Proof. done. Qed.

(** A stored due block reads back, and leaves the rest of the headers alone. *)
Lemma decode_due_stored pre body post due :
  length body = 8%nat -> is_u64 due ->
  length pre = delay_block_offset (pre ++ DELAY_HEADER_MAGIC ++ body ++ post) ->
  decode_due_headers (pre ++ DUE_HEADER_MAGIC ++ le_bytes 8 due ++ post) = Some due.
Proof.
  intros Hb Hd Hpre. unfold decode_due_headers.
  rewrite (delay_block_offset_app pre DELAY_HEADER_MAGIC body post);
    try first [done | apply length_le_bytes].
  apply (block_millis_Some _ _ DUE_HEADER_MAGIC _ eq_refl). exists pre, (le_bytes 8 due), post.
  split; [done|]. split; [done|]. split; [apply length_le_bytes|]. symmetry. by apply le_val_le_bytes, u64_pow.
Qed.

(** Patching the delay block leaves the time-to-live. *)
Lemma ttl_patched pre body body' post :
  length body = 8%nat -> length body' = 8%nat ->
  length pre = delay_block_offset (pre ++ DELAY_HEADER_MAGIC ++ body ++ post) ->
  (decode_ttl_headers (pre ++ DUE_HEADER_MAGIC ++ body' ++ post)).1 =
  (decode_ttl_headers (pre ++ DELAY_HEADER_MAGIC ++ body ++ post)).1.
Proof.
  intros Hb Hb'. unfold decode_ttl_headers, delay_block_offset, TTL_HEADER_LEN.
  rewrite !length_app, Hb, Hb'. change (length DUE_HEADER_MAGIC) with 4%nat.
  change (length DELAY_HEADER_MAGIC) with 4%nat.
  destruct (bool_decide (take 4 (pre ++ DELAY_HEADER_MAGIC ++ body ++ post) = TTL_HEADER_MAGIC)) eqn:E;
    rewrite ?andb_true_r, ?andb_false_r; intros Hpre.
  - destruct (Nat.leb_spec 12 (length pre + (4 + (8 + length post)))); [|lia].
    apply bool_decide_eq_true in E. rewrite take_app_le in E by lia. rewrite take_app_le by lia.
    rewrite bool_decide_true by done. rewrite !drop_app_le by lia.
    rewrite !take_app_le by (rewrite length_drop; lia). by destruct (_ <? _)%nat.
  - apply length_zero_iff_nil in Hpre. subst pre. cbn [app].
    rewrite take_app_length' by done. by rewrite bool_decide_false, !orb_true_r by done.
Qed.

Lemma resolve_ok h now max r :
  resolve_delay_headers h now max = Ok r ->
  (r = None /\ block_millis h (delay_block_offset h) DELAY_HEADER_MAGIC = None /\
   decode_due_headers h = None) \/
  exists pre body post, h = pre ++ DELAY_HEADER_MAGIC ++ body ++ post /\
    length pre = delay_block_offset h /\ length body = 8%nat /\
    (max = 0 \/ le_val body <= max) /\
    r = Some (pre ++ DUE_HEADER_MAGIC ++ le_bytes 8 (sat_add64 now (le_val body)) ++ post).
Proof.
  unfold resolve_delay_headers.
  destruct (block_millis h (delay_block_offset h) DELAY_HEADER_MAGIC) as [d|] eqn:Ed.
  - apply (block_millis_Some _ _ DELAY_HEADER_MAGIC _ eq_refl) in Ed
      as (pre & body & post & Hh & Hpre & Hb & ->).
    destruct (_ && _) eqn:E; [done|]. intros [= <-]. right. exists pre, body, post.
    split; [done|]. split; [done|]. split; [done|]. split; [lia|].
    assert (Hdrop : drop (length pre + DELAY_HEADER_LEN) h = post).
    { rewrite Hh, !app_assoc. apply drop_app_length'. rewrite !length_app, Hb.
      unfold DELAY_HEADER_LEN. simpl. lia. }
    rewrite <- Hpre, Hdrop, Hh. by rewrite take_app_length.
  - destruct (block_millis h (delay_block_offset h) DUE_HEADER_MAGIC) eqn:E2; [done|].
    intros [= <-]. by left.
Qed.

(** ** What a publish can do *)

(** The broker's clock and bound govern every due instant.  Whatever
    headers a producer sends, a publish the broker accepts is stored under
    headers of the same length that are either free of a due instant or due at
    [now + delay] (saturating) for the delay the producer asked for, within the
    configured bound; the record is invisible strictly before that instant and
    visible from it on; and its time-to-live and the headers after the blocks
    are the producer's, untouched. *)
Theorem delay_resolution_sound h now max r :
  bytes_ok h -> is_u64 now ->
  resolve_delay_headers h now max = Ok r ->
  let stored := stored_headers h r in
  length stored = length h /\
  (decode_due_headers stored = None \/
   exists delay, block_millis h (delay_block_offset h) DELAY_HEADER_MAGIC = Some delay /\
     (max = 0 \/ delay <= max) /\
     decode_due_headers stored = Some (Z.min (now + delay) u64_max) /\
     (forall t, is_undue stored t = true <-> t < Z.min (now + delay) u64_max)) /\
  (decode_ttl_headers stored).1 = (decode_ttl_headers h).1 /\
  drop (delay_block_offset h + DELAY_HEADER_LEN) stored = drop (delay_block_offset h + DELAY_HEADER_LEN) h.
Proof.
  intros Hok Hnow Hr. apply resolve_ok in Hr as [(-> & _ & Hd)|H].
  { split; [done|]. split; [by left|]. done. }
  destruct H as (pre & body & post & Hh & Hpre & Hb & Hmax & ->).
  unfold stored_headers. cbn [default from_option id].
  set (due := sat_add64 now (le_val body)).
  assert (Hd : is_u64 (le_val body)).
  { apply le_val_u64; [done|]. rewrite Hh in Hok. unfold bytes_ok in *.
    by apply Forall_app in Hok as [_ [_ [Hok _]%Forall_app]%Forall_app]. }
  assert (Hdue : decode_due_headers (pre ++ DUE_HEADER_MAGIC ++ le_bytes 8 due ++ post) = Some due).
  { apply (decode_due_stored pre body); [done|unfold due; ulia|by rewrite <- Hh]. }
  split; [|split; [right; exists (le_val body)|split]].
  - rewrite Hh, !length_app, length_le_bytes, Hb. done.
  - split; [apply block_millis_Some; [done|]; exists pre, body, post; done|].
    split; [done|]. rewrite Hdue. split; [done|]. intros t. unfold is_undue. rewrite Hdue.
    apply Z.ltb_lt.
  - rewrite Hh in Hpre |- *. by apply ttl_patched; [|apply length_le_bytes|].
  - rewrite <- Hpre, Hh, !app_assoc. rewrite !drop_app_length'; [done| |];
      rewrite !length_app, ?length_le_bytes, ?Hb; unfold DELAY_HEADER_LEN; simpl; lia.
Qed.

Definition delayed_headers : list Z := encode_ttl_headers 90 (encode_delay_headers 500 [7; 8]).

Lemma delay_resolution_sound_witness :
  bytes_ok delayed_headers /\
  match resolve_delay_headers delayed_headers 1000 600 with
  | Ok (Some h') => length h' = length delayed_headers /\ decode_due_headers h' = Some 1500 /\
                    (decode_ttl_headers h').1 = 90
  | _ => False
  end.
Proof.
  assert (Hok : bytes_ok delayed_headers)
    by (apply (bool_decide_unpack (Forall (fun z => 0 <= z <= 255) delayed_headers)); vm_compute; exact I).
  split; [exact Hok|].
  destruct (resolve_delay_headers delayed_headers 1000 600) as [[h'|]| |] eqn:E;
    try (vm_compute in E; discriminate E).
  destruct (delay_resolution_sound delayed_headers 1000 600 (Some h') Hok ltac:(ulia) E)
    as (Hl & _ & Ht & _). split; [exact Hl|]. split; [|etransitivity; [exact Ht|vm_compute; reflexivity]].
  vm_compute in E. injection E as <-. vm_compute. reflexivity.
Defined.

(** expiry is the tighter of the two lifetimes.  With zero read as "no
    bound", a record is expired at [now] exactly when some non-zero lifetime of
    the message or of the stream has run out since its timestamp (the deadline
    saturating at the end of the clock), and once expired it stays expired. *)
Theorem effective_ttl_expiry per_message per_stream ts now :
  is_u64 per_message -> is_u64 per_stream -> is_u64 ts ->
  (is_expired (lower_of per_message per_stream) ts now = true <->
   exists ttl, (ttl = per_message \/ ttl = per_stream) /\ ttl <> 0 /\ Z.min (ts + ttl) u64_max <= now) /\
  (forall later, now <= later -> is_expired (lower_of per_message per_stream) ts now = true ->
     is_expired (lower_of per_message per_stream) ts later = true).
Proof.
  intros Hm Hs Ht.
  assert (Hiff : forall n, is_expired (lower_of per_message per_stream) ts n = true <->
    (per_message <> 0 /\ Z.min (ts + per_message) u64_max <= n) \/
    (per_stream <> 0 /\ Z.min (ts + per_stream) u64_max <= n)).
  { intros n. unfold is_expired, deadline_from, is_expired_at, lower_of, ttl_none, sat_add.
    destruct (Z.eqb_spec per_message 0), (Z.eqb_spec per_stream 0); cbn [andb];
      repeat match goal with
      | |- context [(?a <=? ?b)] => destruct (Z.leb_spec a b)
      | |- context [(?a =? ?b)] => destruct (Z.eqb_spec a b)
      end; ulia. }
  split.
  - rewrite Hiff. split; [intros [[? ?]|[? ?]]; eauto|].
    intros (ttl & [->| ->] & ? & ?); [by left|by right].
  - intros later Hl. rewrite !Hiff. lia.
Qed.

Lemma effective_ttl_expiry_witness :
  is_expired (lower_of 30 0) 100 130 = true /\ is_expired (lower_of 30 20) 100 119 = false /\
  (exists ttl, (ttl = 30 \/ ttl = 0) /\ ttl <> 0 /\ Z.min (100 + ttl) u64_max <= 130).
Proof.
  split; [reflexivity|]. split; [reflexivity|].
  apply (effective_ttl_expiry 30 0 100 130); [ulia|ulia|ulia|reflexivity].
Defined.

(** header round trip.  A lifetime and a delay composed the canonical way
    (delay first, lifetime around it) are read back by the two decoders, and the
    original headers follow them unchanged. *)
Theorem headers_compose ttl delay h :
  is_u64 ttl -> is_u64 delay -> ttl <> 0 -> delay <> 0 ->
  let wire := encode_ttl_headers ttl (encode_delay_headers delay h) in
  decode_ttl_headers wire = (ttl, encode_delay_headers delay h) /\
  block_millis wire (delay_block_offset wire) DELAY_HEADER_MAGIC = Some delay /\
  drop (delay_block_offset wire + DELAY_HEADER_LEN) wire = h.
Proof.
  intros Ht Hd Ht0 Hd0. unfold encode_ttl_headers, encode_delay_headers, ttl_is_none.
  rewrite (proj2 (Z.eqb_neq ttl 0) Ht0), (proj2 (Z.eqb_neq delay 0) Hd0). cbn zeta.
  set (inner := DELAY_HEADER_MAGIC ++ le_bytes 8 delay ++ h).
  assert (Hlen : length (TTL_HEADER_MAGIC ++ le_bytes 8 ttl) = 12%nat)
    by (rewrite length_app, length_le_bytes; reflexivity).
  assert (Hoff : delay_block_offset (TTL_HEADER_MAGIC ++ le_bytes 8 ttl ++ inner) = 12%nat).
  { unfold delay_block_offset, TTL_HEADER_LEN. rewrite app_assoc, length_app, Hlen.
    rewrite <- app_assoc, take_app_length' by done. rewrite bool_decide_true by done. done. }
  split; [|split].
  - unfold decode_ttl_headers, TTL_HEADER_LEN. rewrite take_app_length' by done.
    rewrite bool_decide_true by done. rewrite (drop_app_length' TTL_HEADER_MAGIC) by done.
    rewrite take_app_length' by by rewrite length_le_bytes.
    rewrite app_assoc, length_app, Hlen, drop_app_length' by done.
    by rewrite le_val_le_bytes by by apply u64_pow.
  - rewrite Hoff. apply block_millis_Some; [done|].
    exists (TTL_HEADER_MAGIC ++ le_bytes 8 ttl), (le_bytes 8 delay), h.
    rewrite <- app_assoc. split; [done|]. split; [done|]. split; [apply length_le_bytes|].
    symmetry. by apply le_val_le_bytes, u64_pow.
  - rewrite Hoff. unfold inner. rewrite !app_assoc. apply drop_app_length'.
    rewrite !length_app, !length_le_bytes. reflexivity.
Qed.

Lemma headers_compose_witness :
  decode_ttl_headers (encode_ttl_headers 90 (encode_delay_headers 500 [7; 8])) =
    (90, encode_delay_headers 500 [7; 8]).
Proof. apply (headers_compose 90 500 [7; 8]); (ulia || discriminate). Defined.
