(* ===== verification/Backpressure.v ===== *)
(** * Backpressure controllers ([backpressure.rs])

    One module per controller: the CoDel shedder, the AIMD limiter with the
    credit auto-tuner built on it, the fire-and-forget token bucket, the retry
    budget and the fsync headroom.  All take the monotonic time as an argument,
    so a history is a list of calls. *)

From S2P Require Import Prelude.

Definition NANOS_PER_MS : Z := 1000000.

(** ** CoDel *)

Module Codel.

Definition CODEL_TARGET_MIN_MS : Z := 1.
Definition CODEL_TARGET_MAX_MS : Z := 1000.
Definition CODEL_INTERVAL_MIN_MS : Z := 20.
Definition CODEL_INTERVAL_MAX_MS : Z := 10000.

Definition clamp (z lo hi : Z) : Z := Z.max lo (Z.min z hi).

Definition clamp_codel_target_ms (target_ms : Z) : Z :=
  if target_ms =? 0 then 0 else clamp target_ms CODEL_TARGET_MIN_MS CODEL_TARGET_MAX_MS.

Definition clamp_codel_interval_ms (interval_ms : Z) : Z :=
  if interval_ms =? 0 then 0 else clamp interval_ms CODEL_INTERVAL_MIN_MS CODEL_INTERVAL_MAX_MS.

(** The Newton loop of [isqrt]; [isqrt_correct] shows that 64 rounds are
    enough for every [u64]. *)
Fixpoint newton (fuel : nat) (n x : Z) : option Z :=
  match fuel with
  | O => None
  | S fuel =>
      let next := (x + n / x) / 2 in
      if x <=? next then Some x else newton fuel n next
  end.

Definition isqrt (n : Z) : option Z :=
  if n =? 0 then Some 0
  else newton 64 n (Z.shiftl 1 (Z.log2 n / 2 + 1)).

Record Codel := mk_codel {
  target_nanos : Z;
  interval_nanos : Z;
  first_above_time : option Z;
  dropping : bool;
  drop_next : Z;
  count : Z;
  last_count : Z;
  last_activity : option Z;
  interval_resets : Z;
  last_sojourn_nanos : Z
}.

Definition from_millis (target_ms interval_ms : Z) : Codel :=
  mk_codel (sat_mul64 (clamp_codel_target_ms target_ms) NANOS_PER_MS)
    (sat_mul64 (clamp_codel_interval_ms interval_ms) NANOS_PER_MS)
    None false 0 0 0 None 0 0.

Definition is_enabled (c : Codel) : bool :=
  negb (target_nanos c =? 0) && negb (interval_nanos c =? 0).

Definition suspend_gap_nanos (c : Codel) : Z := sat_mul64 (interval_nanos c) 16.

Definition maybe_reset_for_suspend (c : Codel) (now_nanos : Z) : Codel * bool :=
  let reset := match last_activity c with
               | Some prev => suspend_gap_nanos c <? sat_sub now_nanos prev
               | None => false
               end in
  if reset then
    (mk_codel (target_nanos c) (interval_nanos c) None false (drop_next c) 0 0
       (Some now_nanos) (sat_add64 (interval_resets c) 1) (last_sojourn_nanos c), true)
  else
    (mk_codel (target_nanos c) (interval_nanos c) (first_above_time c) (dropping c) (drop_next c)
       (count c) (last_count c) (Some now_nanos) (interval_resets c) (last_sojourn_nanos c), false).

Definition on_empty (c : Codel) (now_nanos : Z) : Codel :=
  let c := (maybe_reset_for_suspend c now_nanos).1 in
  mk_codel (target_nanos c) (interval_nanos c) None false (drop_next c) (count c) (last_count c)
    (last_activity c) (interval_resets c) 0.

Definition schedule_next_drop (c : Codel) (now_nanos : Z) : Codel :=
  let root := Z.max (default 0 (isqrt (count c))) 1 in
  let spacing := Z.max (interval_nanos c / root) 1 in
  mk_codel (target_nanos c) (interval_nanos c) (first_above_time c) (dropping c)
    (sat_add64 now_nanos spacing) (count c) (count c) (last_activity c) (interval_resets c)
    (last_sojourn_nanos c).

Definition enter_dropping (c : Codel) (now_nanos : Z) : Codel :=
  let recent := sat_sub now_nanos (drop_next c) <? sat_mul64 (interval_nanos c) 2 in
  let count' := if recent && (2 <? last_count c) then sat_sub (last_count c) 2 else 1 in
  schedule_next_drop
    (mk_codel (target_nanos c) (interval_nanos c) (first_above_time c) true (drop_next c) count'
       (last_count c) (last_activity c) (interval_resets c) (last_sojourn_nanos c)) now_nanos.

Definition sojourn (c : Codel) (sojourn_nanos now_nanos : Z) : Codel * bool :=
  if negb (is_enabled c) then (c, false)
  else
    let c := (maybe_reset_for_suspend c now_nanos).1 in
    if sojourn_nanos <=? target_nanos c then
      (mk_codel (target_nanos c) (interval_nanos c) None false (drop_next c) (count c) (last_count c)
         (last_activity c) (interval_resets c) sojourn_nanos, false)
    else
      let '(above, armed) :=
        match first_above_time c with
        | None => (Some (sat_add64 now_nanos (interval_nanos c)), false)
        | Some at_ => (Some at_, at_ <=? now_nanos)
        end in
      let c := mk_codel (target_nanos c) (interval_nanos c) above (dropping c) (drop_next c) (count c)
                 (last_count c) (last_activity c) (interval_resets c) sojourn_nanos in
      if dropping c then
        if drop_next c <=? now_nanos then
          (schedule_next_drop
             (mk_codel (target_nanos c) (interval_nanos c) (first_above_time c) true (drop_next c)
                (sat_add64 (count c) 1) (last_count c) (last_activity c) (interval_resets c)
                (last_sojourn_nanos c)) now_nanos, true)
        else (c, false)
      else if armed then (enter_dropping c now_nanos, true)
      else (c, false).

(** *** The integer square root *)

Lemma newton_ge_sqrt n x : 0 < n -> 0 < x -> Z.sqrt n <= (x + n / x) / 2.
Proof.
  intros Hn Hx. pose proof (Z.sqrt_spec n ltac:(lia)) as [Hs _]. set (s := Z.sqrt n) in *.
  assert (0 <= s) by apply Z.sqrt_nonneg.
  apply Z.div_le_lower_bound; [lia|].
  destruct (Z_le_gt_dec (2 * s) x) as [H1|H1]; [assert (0 <= n / x) by (apply Z.div_pos; lia); lia|].
  assert (2 * s - x <= n / x); [|lia]. apply Z.div_le_lower_bound; [lia|].
  assert (0 <= (s - x) * (s - x)) by apply Z.square_nonneg. nia.
Qed.

Lemma newton_step n x :
  0 < n -> Z.sqrt n < x ->
  let next := (x + n / x) / 2 in
  Z.sqrt n <= next < x /\ 2 * (next - Z.sqrt n) <= x - Z.sqrt n.
Proof.
  intros Hn Hx next. pose proof (Z.sqrt_spec n ltac:(lia)) as [_ Hs].
  assert (0 <= Z.sqrt n) by apply Z.sqrt_nonneg.
  assert (Hq : n / x <= Z.sqrt n).
  { apply Z.lt_succ_r. apply Z.div_lt_upper_bound; [lia|]. nia. }
  assert (Hd : 2 * next <= x + n / x) by (apply Z.mul_div_le; lia).
  pose proof (newton_ge_sqrt n x ltac:(lia) ltac:(lia)) as Hge. unfold next in *. lia.
Qed.

Lemma newton_correct fuel n x :
  0 < n -> Z.sqrt n <= x -> x - Z.sqrt n < 2 ^ (Z.of_nat fuel - 1) ->
  newton fuel n x = Some (Z.sqrt n).
Proof.
  intros Hn. revert x. induction fuel as [|fuel IH]; intros x Hx Hf.
  { simpl in Hf. lia. }
  cbn [newton]. pose proof (Z.sqrt_pos n) as Hp. assert (0 < Z.sqrt n) by (apply Hp; lia).
  destruct (Z.eq_dec x (Z.sqrt n)) as [->|Hne].
  - pose proof (newton_ge_sqrt n (Z.sqrt n) ltac:(lia) ltac:(lia)).
    by rewrite (proj2 (Z.leb_le _ _)) by lia.
  - pose proof (newton_step n x ltac:(lia) ltac:(lia)) as [Hs Hh].
    rewrite (proj2 (Z.leb_gt _ _)) by lia. apply IH; [lia|].
    destruct fuel as [|fuel]; [simpl in Hf; lia|].
    replace (Z.of_nat (S (S fuel)) - 1) with (Z.succ (Z.of_nat (S fuel) - 1)) in Hf by lia.
    rewrite Z.pow_succ_r in Hf by lia. lia.
Qed.

(** the integer square root is exact and terminates: for every [u64] the
    Newton loop returns the floor of the root within its 64 rounds. *)
Theorem isqrt_correct n : is_u64 n -> isqrt n = Some (Z.sqrt n).
Proof.
  intros Hn. unfold isqrt. destruct (Z.eqb_spec n 0) as [->|H0]; [done|].
  assert (Hpos : 0 < n) by ulia. pose proof (Z.log2_spec n Hpos) as [Hlo Hhi].
  set (k := Z.log2 n) in *. assert (0 <= k) by apply Z.log2_nonneg.
  assert (Hk2 : k < 64) by (apply Z.log2_lt_pow2; [lia|]; change (2 ^ 64) with (u64_max + 1); ulia).
  rewrite Z.shiftl_mul_pow2, Z.mul_1_l by (pose proof (Z.div_pos k 2); lia).
  pose proof (Z.div_mod k 2 ltac:(lia)) as Hkm. pose proof (Z.mod_pos_bound k 2 ltac:(lia)).
  assert (0 <= k / 2 <= 31) by (split; [apply Z.div_pos|apply Z.lt_succ_r, Z.div_lt_upper_bound]; lia).
  apply newton_correct; [lia| |].
  - apply Z.lt_le_incl, Z.sqrt_lt_square; [lia|apply Z.pow_nonneg; lia|].
    rewrite <- Z.pow_add_r by lia. eapply Z.lt_le_trans; [exact Hhi|].
    apply Z.pow_le_mono_r; lia.
  - assert (2 ^ (k / 2 + 1) <= 2 ^ 32) by (apply Z.pow_le_mono_r; lia).
    pose proof (Z.sqrt_nonneg n). change (2 ^ (Z.of_nat 64 - 1)) with 9223372036854775808.
    change (2 ^ 32) with 4294967296 in *. lia.
Qed.

Lemma isqrt_correct_witness : is_u64 u64_max /\ isqrt u64_max = Some 4294967295.
Proof. split; [ulia|]. rewrite (isqrt_correct u64_max); [vm_compute; reflexivity|ulia]. Defined.

(** *** Histories *)

Inductive event := Sample (sojourn_nanos at_nanos : Z) | Emptied (at_nanos : Z).

Definition time (e : event) : Z := match e with Sample _ t | Emptied t => t end.

Definition step (c : Codel) (e : event) : Codel * bool :=
  match e with
  | Sample s t => sojourn c s t
  | Emptied t => (on_empty c t, false)
  end.

(** The controller after a history, newest event first. *)
Fixpoint after (c : Codel) (h : list event) : Codel :=
  match h with
  | [] => c
  | e :: h => (step (after c h) e).1
  end.

(** The clock never goes back along a history. *)
Fixpoint ordered (h : list event) : Prop :=
  match h with
  | e :: ((e' :: _) as h') => time e' <= time e /\ ordered h'
  | _ => True
  end.

Definition above (target : Z) (e : event) : Prop :=
  match e with Sample s _ => target < s | Emptied _ => False end.

(** The newest part of the history is an unbroken run of samples above the
    target that began at [t0]. *)
Definition standing (target : Z) (h : list event) (t0 : Z) : Prop :=
  exists recent s0 older, h = recent ++ Sample s0 t0 :: older /\
    Forall (above target) (recent ++ [Sample s0 t0]).

Lemma standing_cons target h t0 s t :
  standing target h t0 -> target < s -> standing target (Sample s t :: h) t0.
Proof.
  intros (recent & s0 & older & -> & Hall) Hs. exists (Sample s t :: recent), s0, older.
  split; [done|]. by constructor.
Qed.

Lemma standing_first target h s t : target < s -> standing target (Sample s t :: h) t.
Proof. intros Hs. exists [], s, h. split; [done|]. by repeat constructor. Qed.

(** What the controller remembers of its history. *)
Record tracks (target interval : Z) (c : Codel) (h : list event) : Prop := {
  tr_target : target_nanos c = target;
  tr_interval : interval_nanos c = interval;
  tr_activity : forall t, last_activity c = Some t -> exists e h', h = e :: h' /\ t <= time e;
  tr_window : forall at_, first_above_time c = Some at_ ->
    exists t0, standing target h t0 /\ at_ = sat_add64 t0 interval;
  tr_dropping : dropping c = true ->
    exists at_ t, first_above_time c = Some at_ /\ last_activity c = Some t /\ at_ <= t
}.

(** The suspend reset keeps the window and the dropping state, or closes
    both. *)
Lemma reset_cases c t :
  let c' := (maybe_reset_for_suspend c t).1 in
  target_nanos c' = target_nanos c /\ interval_nanos c' = interval_nanos c /\
  last_activity c' = Some t /\
  ((first_above_time c' = None /\ dropping c' = false) \/
   (first_above_time c' = first_above_time c /\ dropping c' = dropping c /\
    drop_next c' = drop_next c /\ count c' = count c)).
Proof.
  unfold maybe_reset_for_suspend. destruct (last_activity c) as [prev|];
    [destruct (_ <? _)|]; simpl; repeat split; auto.
Qed.

Lemma schedule_fields c t :
  let c' := schedule_next_drop c t in
  target_nanos c' = target_nanos c /\ interval_nanos c' = interval_nanos c /\
  first_above_time c' = first_above_time c /\ dropping c' = dropping c /\
  last_activity c' = last_activity c /\
  (1 <= interval_nanos c -> drop_next c' <= t + interval_nanos c).
Proof.
  simpl. repeat split. intros Hi. set (r := Z.max (default 0 (isqrt (count c))) 1).
  assert (interval_nanos c / r <= interval_nanos c)
    by (apply Z.div_le_upper_bound; [lia|]; assert (1 <= r) by lia; nia).
  unfold sat_add. lia.
Qed.

(** The branches of a sample, on the fields the window logic reads. *)
Lemma sojourn_cases c s t :
  is_enabled c = true -> 0 <= interval_nanos c ->
  let c1 := (maybe_reset_for_suspend c t).1 in
  let '(c', shed) := sojourn c s t in
  target_nanos c' = target_nanos c /\ interval_nanos c' = interval_nanos c /\
  last_activity c' = Some t /\
  ((s <= target_nanos c /\ first_above_time c' = None /\ dropping c' = false /\ shed = false) \/
   (target_nanos c < s /\
    let at_ := match first_above_time c1 with Some a => a | None => sat_add64 t (interval_nanos c) end in
    first_above_time c' = Some at_ /\
    (shed = true -> dropping c1 = true \/ (is_Some (first_above_time c1) /\ at_ <= t)) /\
    (dropping c' = true -> dropping c1 = true \/ shed = true) /\
    (shed = true -> dropping c' = true /\ drop_next c' <= t + interval_nanos c) /\
    (dropping c1 = true -> drop_next c1 <= t -> shed = true))).
Proof.
  intros He Hi0. pose proof (reset_cases c t) as (Ht & Hi & Ha & _).
  assert (Hpos : 1 <= interval_nanos c) by (unfold is_enabled in He; lia).
  unfold sojourn. rewrite He. cbn [negb].
  destruct (maybe_reset_for_suspend c t) as [c1 b]. cbn [fst] in *. rewrite Ht, Hi.
  destruct (Z.leb_spec s (target_nanos c)) as [Hle|Hgt].
  { cbn. repeat split; [done|]. by left. }
  set (at_ := match first_above_time c1 with Some a => a | None => sat_add64 t (interval_nanos c) end).
  set (armed := match first_above_time c1 with Some a => a <=? t | None => false end).
  replace (match first_above_time c1 with
           | Some a => (Some a, a <=? t)
           | None => (Some (sat_add64 t (interval_nanos c)), false)
           end) with (Some at_, armed) by (unfold at_, armed; by destruct (first_above_time c1)).
  assert (Harm : armed = true -> is_Some (first_above_time c1) /\ at_ <= t)
    by (unfold armed, at_; destruct (first_above_time c1) as [a|]; [intros E; bool_to_prop; eauto|done]).
  cbn [dropping drop_next]. destruct (dropping c1) eqn:Ed.
  - destruct (Z.leb_spec (drop_next c1) t) as [Hd|Hd].
    + match goal with |- context [schedule_next_drop ?x t] =>
        destruct (schedule_fields x t) as (F1 & F2 & F3 & F4 & F5 & F6); rewrite F1, F2, F3, F4, F5
      end.
      cbn in F6 |- *. repeat split; [done|]. right. split; [done|]. repeat split; auto.
    + cbn. repeat split; [done|]. right. repeat split; auto; intros; lia.
  - destruct armed eqn:Ea.
    + unfold enter_dropping.
      match goal with |- context [schedule_next_drop ?x t] =>
        destruct (schedule_fields x t) as (F1 & F2 & F3 & F4 & F5 & F6); rewrite F1, F2, F3, F4, F5
      end.
      cbn in F6 |- *. repeat split; [done|]. right. split; [done|]. repeat split; auto.
    + cbn. repeat split; [done|]. right. repeat split; auto; done.
Qed.
Lemma step_params c e :
  target_nanos (step c e).1 = target_nanos c /\ interval_nanos (step c e).1 = interval_nanos c.
Proof.
  destruct e as [s t|t]; simpl.
  - unfold sojourn. destruct (is_enabled c); [|done]. cbn [negb].
    pose proof (reset_cases c t) as (H1 & H2 & _). destruct (maybe_reset_for_suspend c t) as [c1 b].
    cbn [fst] in *. destruct (s <=? target_nanos c1); [done|].
    destruct (first_above_time c1); cbn; destruct (dropping c1); cbn;
      repeat case_if; done.
  - by pose proof (reset_cases c t) as (H1 & H2 & _).
Qed.

Section history.
Context (target interval : Z).
Hypothesis (Htarget : 0 < target) (Hinterval : 0 < interval).

Lemma tracks_enabled c h : tracks target interval c h -> is_enabled c = true.
Proof. intros [H1 H2 _ _ _]. unfold is_enabled. lia. Qed.

(** A window the suspend reset left open belongs to the history. *)
Lemma tracks_reset c h t :
  tracks target interval c h ->
  let c1 := (maybe_reset_for_suspend c t).1 in
  (forall at_, first_above_time c1 = Some at_ ->
     exists t0, standing target h t0 /\ at_ = sat_add64 t0 interval) /\
  (dropping c1 = true -> exists at_ t', first_above_time c1 = Some at_ /\
     last_activity c = Some t' /\ at_ <= t').
Proof.
  intros [_ _ _ Hw Hd] c1. pose proof (reset_cases c t) as (_ & _ & _ & Hr). fold c1 in Hr.
  destruct Hr as [[-> ->]|(-> & -> & _ & _)]; [done|]. split; [apply Hw|apply Hd].
Qed.

Lemma sojourn_tracks c h s t :
  tracks target interval c h -> ordered (Sample s t :: h) ->
  let '(c', shed) := sojourn c s t in
  tracks target interval c' (Sample s t :: h) /\
  (shed = true -> exists t0, standing target (Sample s t :: h) t0 /\ sat_add64 t0 interval <= t).
Proof.
  intros Htr Ho. pose proof (tracks_reset c h t Htr) as [Hw Hd].
  pose proof (tracks_enabled c h Htr) as He. destruct Htr as [Ht Hi Ha _ _].
  assert (Hmono : forall t', last_activity c = Some t' -> t' <= t)
    by (intros t' (e & h' & -> & Hle)%Ha; simpl in Ho; lia).
  pose proof (sojourn_cases c s t He ltac:(lia)) as Hs.
  destruct (sojourn c s t) as [c' shed]. destruct Hs as (Ht' & Hi' & Ha' & Hs).
  assert (Hact : forall t', last_activity c' = Some t' ->
    exists e h', Sample s t :: h = e :: h' /\ t' <= time e)
    by (rewrite Ha'; intros t' [= <-]; exists (Sample s t), h; simpl; split; [done|lia]).
  rewrite Ht, Hi in *.
  destruct Hs as [(_ & Hf & Hdr & ->)|(Hgt & Hf & Hsh & Hdr & _)].
  { split; [|done]. constructor; [done|done|done|congruence|congruence]. }
  set (c1 := (maybe_reset_for_suspend c t).1) in *.
  assert (Hold : dropping c1 = true -> exists a, first_above_time c1 = Some a /\ a <= t).
  { intros (at_ & t' & Hat & Hla & Hle)%Hd. exists at_. split; [done|].
    specialize (Hmono _ Hla). lia. }
  assert (Hst : exists t0, standing target (Sample s t :: h) t0 /\
     match first_above_time c1 with Some a => a | None => sat_add64 t interval end = sat_add64 t0 interval).
  { destruct (first_above_time c1) as [a|]; [|exists t; split; [by apply standing_first|done]].
    destruct (Hw a eq_refl) as (t0 & Hst & ->). exists t0. split; [by apply standing_cons|done]. }
  assert (Harmed : shed = true \/ dropping c1 = true ->
     match first_above_time c1 with Some a => a | None => sat_add64 t interval end <= t).
  { intros [E|E]; [destruct (Hsh E) as [E'|[_ ?]]; [|done]|]; [destruct (Hold E') as (a & -> & ?)|
      destruct (Hold E) as (a & -> & ?)]; done. }
  split; [constructor; [done|done|done| |]|].
  - intros at_. rewrite Hf. intros [= <-]. done.
  - intros E. eexists _, t. split; [exact Hf|]. split; [done|].
    apply Harmed. destruct (Hdr E); auto.
  - intros E. destruct Hst as (t0 & Hst & Heq). exists t0. split; [done|].
    rewrite <- Heq. apply Harmed. by left.
Qed.

Lemma step_tracks c h e :
  tracks target interval c h -> ordered (e :: h) -> tracks target interval (step c e).1 (e :: h).
Proof.
  intros Htr Ho. destruct e as [s t|t]; simpl.
  - pose proof (sojourn_tracks c h s t Htr Ho) as Hs. by destruct (sojourn c s t) as [c' b], Hs.
  - pose proof (reset_cases c t) as (H1 & H2 & H3 & _). destruct Htr as [Ht Hi _ _ _].
    constructor; cbn; [congruence|congruence| |done|done].
    rewrite H3. intros t' [= <-]. exists (Emptied t), h. simpl. split; [done|lia].
Qed.

Lemma after_tracks c h : tracks target interval c [] -> ordered h -> tracks target interval (after c h) h.
Proof.
  intros Hc. induction h as [|e h IH]; intros Ho; [done|]. apply step_tracks; [|done].
  apply IH. destruct h; [done|]. by destruct Ho.
Qed.

End history.

Lemma from_millis_nonneg target_ms interval_ms :
  0 <= target_nanos (from_millis target_ms interval_ms) /\
  0 <= interval_nanos (from_millis target_ms interval_ms).
Proof.
  cbn. unfold clamp_codel_target_ms, clamp_codel_interval_ms, clamp, CODEL_TARGET_MIN_MS,
    CODEL_TARGET_MAX_MS, CODEL_INTERVAL_MIN_MS, CODEL_INTERVAL_MAX_MS, NANOS_PER_MS.
  destruct (target_ms =? 0), (interval_ms =? 0); ulia.
Qed.

(** CoDel sheds standing delay only, and keeps shedding it.  Over any
    history of samples and empty-queue signals on a non-decreasing clock, a
    record is shed only if its sojourn and every sample of an unbroken run
    leading to it exceed the target and that run began at least one interval
    (saturating) before; and after a shed, as long as samples stay above the
    target, a sample an interval later (and within the suspend gap) is shed
    again. *)
Theorem codel_sheds_standing_delay target_ms interval_ms h s now :
  let c0 := from_millis target_ms interval_ms in
  let c := after c0 h in
  ordered (Sample s now :: h) ->
  (sojourn c s now).2 = true ->
  (exists t0, standing (target_nanos c0) (Sample s now :: h) t0 /\
     sat_add64 t0 (interval_nanos c0) <= now) /\
  (forall s2 t2, target_nanos c0 < s2 -> now + interval_nanos c0 <= t2 ->
     t2 - now <= suspend_gap_nanos c0 -> (sojourn (sojourn c s now).1 s2 t2).2 = true).
Proof.
  intros c0 c Ho Hshed.
  assert (Hpar : target_nanos c = target_nanos c0 /\ interval_nanos c = interval_nanos c0).
  { unfold c. clear. induction h as [|e h [IH1 IH2]]; [done|]. simpl.
    destruct (step_params (after c0 h) e) as [-> ->]. done. }
  assert (He : is_enabled c = true) by (revert Hshed; unfold sojourn; by destruct (is_enabled c)).
  pose proof (from_millis_nonneg target_ms interval_ms) as Hpos. fold c0 in Hpos.
  assert (Hen : 0 < target_nanos c0 /\ 0 < interval_nanos c0) by (unfold is_enabled in He; lia).
  assert (Htr : tracks (target_nanos c0) (interval_nanos c0) c h).
  { apply after_tracks; [lia|lia| |]; [constructor; done|]. destruct h; [done|]. by destruct Ho. }
  split.
  - pose proof (sojourn_tracks _ _ (proj1 Hen) (proj2 Hen) c h s now Htr Ho) as Hs.
    destruct (sojourn c s now) as [c' b]. cbn in Hshed. subst b. by apply Hs.
  - intros s2 t2 Hs2 Ht2 Hgap.
    pose proof (sojourn_cases c s now He ltac:(lia)) as Hs.
    destruct (sojourn c s now) as [c' b]. cbn in Hshed. subst b. cbn [fst].
    destruct Hs as (E1 & E2 & E3 & [(_ & _ & _ & ?)|(_ & _ & _ & _ & Hd & _)]); [done|].
    destruct (Hd eq_refl) as [Hdr Hnext].
    assert (He' : is_enabled c' = true) by (unfold is_enabled in *; congruence).
    pose proof (sojourn_cases c' s2 t2 He' ltac:(lia)) as Hs.
    assert (Hnr : let c1 := (maybe_reset_for_suspend c' t2).1 in
                  dropping c1 = dropping c' /\ drop_next c1 = drop_next c').
    { unfold maybe_reset_for_suspend, suspend_gap_nanos in *. rewrite E3, E2.
      destruct Hpar as [_ ->]. destruct (Z.ltb_spec (sat_mul64 (interval_nanos c0) 16) (sat_sub t2 now)); [|done].
      exfalso. unfold sat_sub in *. lia. }
    destruct Hnr as [Hn1 Hn2].
    destruct (sojourn c' s2 t2) as [c2 b2]. cbn [snd].
    destruct Hs as (_ & _ & _ & [(? & _)|(_ & _ & _ & _ & _ & Hs)]); [lia|].
    apply Hs; [congruence|lia].
Qed.

Definition codel_history : list event := [Sample 9000000 60000000; Sample 8000000 0].

Lemma codel_sheds_standing_delay_witness :
  ordered (Sample 9000000 110000000 :: codel_history) /\
  (sojourn (after (from_millis 5 100) codel_history) 9000000 110000000).2 = true /\
  (exists t0, standing 5000000 (Sample 9000000 110000000 :: codel_history) t0 /\
     sat_add64 t0 100000000 <= 110000000).
Proof.
  assert (Ho : ordered (Sample 9000000 110000000 :: codel_history)) by (simpl; lia).
  assert (Hs : (sojourn (after (from_millis 5 100) codel_history) 9000000 110000000).2 = true)
    by (vm_compute; reflexivity).
  split; [exact Ho|]. split; [exact Hs|].
  exact (proj1 (codel_sheds_standing_delay 5 100 codel_history 9000000 110000000
    Ho Hs)).
Defined.

End Codel.

(** ** The AIMD limiter and the credit auto-tuner *)

Module Aimd.

Record AimdLimiter := mk_aimd { limit : Z; amin : Z; amax : Z }.

Definition DEFAULT_EGRESS_LIMIT : Z := 16.
Definition EGRESS_LIMIT_MIN : Z := 4.
Definition EGRESS_LIMIT_MAX : Z := 128.

Definition aimd_new (start min max : Z) : AimdLimiter :=
  let max := Z.max max 1 in
  let min := Codel.clamp min 1 max in
  mk_aimd (Codel.clamp start min max) min max.

Definition default_egress : AimdLimiter :=
  aimd_new DEFAULT_EGRESS_LIMIT EGRESS_LIMIT_MIN EGRESS_LIMIT_MAX.

Definition on_success (a : AimdLimiter) : AimdLimiter :=
  mk_aimd (Z.min (sat_add32 (limit a) 1) (amax a)) (amin a) (amax a).

Definition on_failure (a : AimdLimiter) : AimdLimiter :=
  mk_aimd (Z.max (limit a / 2) (amin a)) (amin a) (amax a).

Definition DEFAULT_CREDIT_FLOOR : Z := 64.
Definition DEFAULT_CREDIT_CEILING : Z := 2048.
Definition CREDIT_AUTOTUNE_STEP : Z := 64.

Record CreditAutotuner := mk_credit { aimd : AimdLimiter; autotune_step : Z }.

Definition credit_new (floor ceiling step : Z) : CreditAutotuner :=
  mk_credit (aimd_new floor floor ceiling) (Z.max step 1).

Definition default_credit : CreditAutotuner :=
  credit_new DEFAULT_CREDIT_FLOOR DEFAULT_CREDIT_CEILING CREDIT_AUTOTUNE_STEP.

Definition with_ceiling (ceiling : Z) : CreditAutotuner :=
  credit_new (Z.min DEFAULT_CREDIT_FLOOR (Z.max ceiling 1)) ceiling CREDIT_AUTOTUNE_STEP.

Definition window (c : CreditAutotuner) : Z := limit (aimd c).
Definition credit_ceiling (c : CreditAutotuner) : Z := amax (aimd c).

Definition keep_up (c : CreditAutotuner) : CreditAutotuner :=
  mk_credit (mk_aimd (Z.min (sat_add32 (limit (aimd c)) (autotune_step c)) (amax (aimd c)))
               (amin (aimd c)) (amax (aimd c))) (autotune_step c).

Definition back_off (c : CreditAutotuner) : CreditAutotuner :=
  mk_credit (on_failure (aimd c)) (autotune_step c).

(** A history of keep-up ([true]) and back-off ([false]) signals. *)
Definition tune (c : CreditAutotuner) (signals : list bool) : CreditAutotuner :=
  foldl (fun (c : CreditAutotuner) (up : bool) => if up then keep_up c else back_off c) c signals.

Definition bounded (floor ceiling step : Z) (c : CreditAutotuner) : Prop :=
  amin (aimd c) = floor /\ amax (aimd c) = ceiling /\ autotune_step c = step /\
  floor <= window c <= ceiling.

Lemma tune_bounded floor ceiling step signals c :
  1 <= floor -> ceiling <= u32_max -> 1 <= step -> bounded floor ceiling step c ->
  bounded floor ceiling step (tune c signals).
Proof.
  intros Hf Hc Hs. revert c. induction signals as [|up signals IH]; intros c Hb; [done|].
  simpl. apply IH. destruct Hb as (H1 & H2 & H3 & H4).
  destruct c as [[l mn mx] st]. unfold bounded, window in *. simpl in *. subst.
  destruct up; simpl; repeat split; try ulia.
  assert (l / 2 <= l) by (apply Z.div_le_upper_bound; lia). lia.
Qed.

Lemma tune_keep_up k c :
  0 <= window c <= credit_ceiling c -> 0 <= autotune_step c -> credit_ceiling c <= u32_max ->
  window (tune c (repeat true k)) = Z.min (window c + Z.of_nat k * autotune_step c) (credit_ceiling c).
Proof.
  revert c. induction k as [|k IH]; intros c Hw Hs Hc; [simpl; unfold window, credit_ceiling in *; lia|].
  change (tune c (repeat true (S k))) with (tune (keep_up c) (repeat true k)).
  destruct c as [[l mn mx] st]. unfold window, credit_ceiling in *. cbn in *.
  rewrite IH; cbn; unfold sat_add; [nia|lia|lia|lia].
Qed.

(** the credit window stays in its bounds and fills the pipe.  Under any
    signals the window of an auto-tuner with ceiling [ceiling] stays between its
    floor (64, or the ceiling when that is lower) and the ceiling, and from any
    state reached a run of keep-up signals long enough to cover the distance in
    steps of 64 brings it to the ceiling and no further. *)
Theorem credit_window_bounds ceiling signals k :
  1 <= ceiling <= u32_max ->
  let c := tune (with_ceiling ceiling) signals in
  Z.min DEFAULT_CREDIT_FLOOR ceiling <= window c <= ceiling /\
  (ceiling - window c <= Z.of_nat k * CREDIT_AUTOTUNE_STEP ->
   window (tune c (repeat true k)) = ceiling).
Proof.
  intros Hc c.
  assert (Hb : bounded (Z.min DEFAULT_CREDIT_FLOOR ceiling) ceiling CREDIT_AUTOTUNE_STEP c).
  { unfold DEFAULT_CREDIT_FLOOR in *. apply tune_bounded; [lia|lia|done|].
    unfold bounded, with_ceiling, credit_new, aimd_new, Codel.clamp, window, DEFAULT_CREDIT_FLOOR,
      CREDIT_AUTOTUNE_STEP. simpl. repeat split; lia. }
  destruct Hb as (_ & H2 & H3 & H4). split; [done|]. intros Hk.
  unfold DEFAULT_CREDIT_FLOOR, CREDIT_AUTOTUNE_STEP in *.
  rewrite tune_keep_up; unfold credit_ceiling in *; rewrite ?H2, ?H3; lia.
Qed.

Lemma credit_window_bounds_witness :
  1 <= 256 <= u32_max /\ window (tune (tune (with_ceiling 256) [true; false]) (repeat true 3)) = 256.
Proof.
  split; [ulia|]. refine (proj2 (credit_window_bounds 256 [true; false] 3 _) _); [ulia|].
  vm_compute. discriminate.
Defined.

End Aimd.

(** ** The token bucket *)

Module TokenBucket.

Definition SCALE : Z := 1000000.

Record TokenBucket := mk_bucket {
  msg_rate_per_sec : Z;
  byte_rate_per_sec : Z;
  msg_burst : Z;
  byte_burst : Z;
  msg_tokens : Z;
  byte_tokens : Z;
  last_refill : option Z
}.

Definition bucket_new (msg_rate byte_rate refill_ms : Z) : TokenBucket :=
  let refill_ms := if refill_ms =? 0 then 100 else refill_ms in
  let msg_burst := Z.max (sat_mul64 msg_rate refill_ms / 1000) 1 in
  let byte_burst := Z.max (sat_mul64 byte_rate refill_ms / 1000) 1 in
  mk_bucket msg_rate byte_rate msg_burst byte_burst (sat_mul64 msg_burst SCALE)
    (sat_mul64 byte_burst SCALE) None.

Definition is_enabled (b : TokenBucket) : bool :=
  negb (msg_rate_per_sec b =? 0) || negb (byte_rate_per_sec b =? 0).

Definition add_scaled (elapsed rate : Z) : Z :=
  let num := sat_mul64 rate elapsed in
  sat_mul64 num SCALE / 1000000000.

Definition refill (b : TokenBucket) (now_nanos : Z) : TokenBucket :=
  match last_refill b with
  | None =>
      mk_bucket (msg_rate_per_sec b) (byte_rate_per_sec b) (msg_burst b) (byte_burst b)
        (msg_tokens b) (byte_tokens b) (Some now_nanos)
  | Some last =>
      let elapsed := sat_sub now_nanos last in
      if elapsed =? 0 then b
      else
        let msg_cap := sat_mul64 (msg_burst b) SCALE in
        let byte_cap := sat_mul64 (byte_burst b) SCALE in
        mk_bucket (msg_rate_per_sec b) (byte_rate_per_sec b) (msg_burst b) (byte_burst b)
          (Z.min (sat_add64 (msg_tokens b) (add_scaled elapsed (msg_rate_per_sec b))) msg_cap)
          (Z.min (sat_add64 (byte_tokens b) (add_scaled elapsed (byte_rate_per_sec b))) byte_cap)
          (Some now_nanos)
  end.

Definition try_admit (b : TokenBucket) (payload_bytes now_nanos : Z) : TokenBucket * bool :=
  if negb (is_enabled b) then (b, true)
  else
    let b := refill b now_nanos in
    let need_msg := SCALE in
    let need_bytes := sat_mul64 payload_bytes SCALE in
    let msg_ok := (msg_rate_per_sec b =? 0) || (need_msg <=? msg_tokens b) in
    let byte_ok := (byte_rate_per_sec b =? 0) || (need_bytes <=? byte_tokens b) in
    if msg_ok && byte_ok then
      (mk_bucket (msg_rate_per_sec b) (byte_rate_per_sec b) (msg_burst b) (byte_burst b)
         (if msg_rate_per_sec b =? 0 then msg_tokens b else msg_tokens b - need_msg)
         (if byte_rate_per_sec b =? 0 then byte_tokens b else sat_sub (byte_tokens b) need_bytes)
         (last_refill b), true)
    else (b, false).

(** A history of calls: the bucket after it and what was admitted. *)
Fixpoint admit_all (b : TokenBucket) (calls : list (Z * Z)) : TokenBucket * list bool :=
  match calls with
  | [] => (b, [])
  | (payload, now) :: calls =>
      let '(b1, ok) := try_admit b payload now in
      let '(b2, oks) := admit_all b1 calls in
      (b2, ok :: oks)
  end.

Definition admitted (oks : list bool) : Z := Z.of_nat (length (filter (eq true) oks)).

(** The scaled tokens a rate earns over a span. *)
Definition earned (rate span : Z) : Z := rate * span * SCALE / 1000000000.

Lemma earned_add rate a b : earned rate a + earned rate b <= earned rate (a + b).
Proof.
  unfold earned. rewrite Z.mul_add_distr_l, Z.mul_add_distr_r.
  set (x := rate * a * SCALE). set (y := rate * b * SCALE).
  pose proof (Z.mul_div_le x 1000000000 ltac:(lia)). pose proof (Z.mul_div_le y 1000000000 ltac:(lia)).
  apply Z.div_le_lower_bound; lia.
Qed.

Lemma earned_0 rate : earned rate 0 = 0.
Proof. unfold earned. by rewrite Z.mul_0_r. Qed.

Lemma add_scaled_earned rate e : 0 <= rate -> 0 <= e -> 0 <= add_scaled e rate <= earned rate e.
Proof.
  intros Hr He. unfold add_scaled, earned, sat_mul, SCALE. split; [apply Z.div_pos; ulia|].
  apply Z.div_le_mono; [lia|]. assert (0 <= rate * e) by nia. ulia.
Qed.

(** Times never go back, from [t] on. *)
Fixpoint later (t : Z) (calls : list (Z * Z)) : Prop :=
  match calls with [] => True | (_, now) :: calls => t <= now /\ later now calls end.

(** The fields the message rate is accounted on. *)
Definition sane (b : TokenBucket) : Prop :=
  0 < msg_rate_per_sec b /\ 0 <= msg_burst b /\ 0 <= msg_tokens b.

Lemma refill_tokens b now t :
  last_refill b = Some t -> sane b -> t <= now ->
  let b' := refill b now in
  sane b' /\ msg_rate_per_sec b' = msg_rate_per_sec b /\ last_refill b' = Some now /\
  msg_tokens b' <= msg_tokens b + earned (msg_rate_per_sec b) (now - t).
Proof.
  intros Hl (Hr & Hb & Hm) Ht. unfold refill. rewrite Hl.
  destruct (Z.eqb_spec (sat_sub now t) 0) as [E|E].
  - assert (now = t) by (unfold sat_sub in E; lia). subst. split; [done|]. split; [done|].
    split; [done|]. rewrite Z.sub_diag, earned_0. lia.
  - assert (Hs : sat_sub now t = now - t) by (unfold sat_sub in *; lia). rewrite Hs.
    pose proof (add_scaled_earned (msg_rate_per_sec b) (now - t) ltac:(lia) ltac:(lia)).
    unfold sane. cbn. split; [|split; [done|split; [done|unfold sat_add; lia]]].
    unfold sat_add, sat_mul, SCALE. ulia.
Qed.

(** Between two calls the message tokens grow by at most what the rate
    earns, less what is admitted. *)
Lemma try_admit_tokens b payload now t :
  last_refill b = Some t -> sane b -> t <= now ->
  let '(b', ok) := try_admit b payload now in
  sane b' /\ msg_rate_per_sec b' = msg_rate_per_sec b /\ last_refill b' = Some now /\
  msg_tokens b' + (if ok then SCALE else 0) <= msg_tokens b + earned (msg_rate_per_sec b) (now - t).
Proof.
  intros Hl Hs Ht. pose proof (refill_tokens b now t Hl Hs Ht) as ((H1 & H2 & H3) & H4 & H5 & H6).
  unfold try_admit. destruct Hs as (Hr & _).
  assert (He : is_enabled b = true) by (unfold is_enabled; lia). rewrite He. cbn [negb].
  destruct (_ && _) eqn:Eok; cbn; [|unfold sane; auto with lia].
  unfold sane. cbn. rewrite (proj2 (Z.eqb_neq _ 0)) in * by lia.
  apply andb_true_iff in Eok as [Eok _]. cbn [orb] in Eok. apply Z.leb_le in Eok. auto with lia.
Qed.

Lemma last_cons_default {A} (x d : A) l : List.last (x :: l) d = List.last l x.
Proof.
  revert x d. induction l as [|y l IH]; intros x d; [done|].
  transitivity (List.last (y :: l) d); [done|]. by rewrite IH, (IH y x).
Qed.

Lemma admit_all_tokens calls b t :
  last_refill b = Some t -> sane b -> later t calls ->
  let '(b', oks) := admit_all b calls in
  SCALE * admitted oks <=
    msg_tokens b + earned (msg_rate_per_sec b) (List.last (map snd calls) t - t).
Proof.
  revert b t. induction calls as [|[payload now] calls IH]; intros b t Hl Hs Hlt; cbn [admit_all].
  - cbn [map List.last]. rewrite Z.sub_diag, earned_0. change (admitted []) with 0.
    destruct Hs as (_ & _ & ?). lia.
  - destruct Hlt as [Ht Hlt]. pose proof (try_admit_tokens b payload now t Hl Hs Ht) as Hstep.
    destruct (try_admit b payload now) as [b1 ok]. destruct Hstep as (Hs1 & Hr1 & Hl1 & Htok).
    specialize (IH b1 now Hl1 Hs1 Hlt). destruct (admit_all b1 calls) as [b2 oks].
    cbn [map snd]. rewrite last_cons_default.
    rewrite Hr1 in IH.
    pose proof (earned_add (msg_rate_per_sec b) (now - t) (List.last (map snd calls) now - now)) as Ha.
    replace (now - t + (List.last (map snd calls) now - now)) with (List.last (map snd calls) now - t) in Ha by lia.
    assert (Hadm : admitted (ok :: oks) = (if ok then 1 else 0) + admitted oks).
    { unfold admitted. rewrite filter_cons. destruct ok;
        [rewrite decide_True by done|rewrite decide_False by done]; cbn [length]; lia. }
    rewrite Hadm. unfold SCALE in *. destruct ok; lia.
Qed.

(** The bucket enforces the message rate.  Over any sequence of calls on a
    non-decreasing clock, the messages admitted by a fresh bucket are at most
    one burst plus the rate times the span of the calls (in scaled tokens, one
    message being one million). *)
Theorem token_bucket_rate msg_rate byte_rate refill_ms p0 t0 calls :
  0 < msg_rate -> 0 <= refill_ms -> later t0 calls ->
  let b := bucket_new msg_rate byte_rate refill_ms in
  let '(_, oks) := admit_all b ((p0, t0) :: calls) in
  SCALE * admitted oks <=
    SCALE * msg_burst b + msg_rate * (List.last (map snd calls) t0 - t0) * SCALE / 1000000000.
Proof.
  intros Hr Hrf Hlt b. cbn [admit_all].
  assert (Hb : 0 <= msg_burst b) by (unfold b, bucket_new; cbn; lia).
  set (b0 := mk_bucket msg_rate byte_rate (msg_burst b) (byte_burst b) (msg_tokens b) (byte_tokens b) (Some t0)).
  assert (Hfirst : try_admit b p0 t0 = try_admit b0 p0 t0).
  { unfold try_admit. change (is_enabled b) with (is_enabled b0). destruct (negb (is_enabled b0)) eqn:En;
      [exfalso; unfold is_enabled, b0 in En; cbn in En; lia|].
    replace (refill b0 t0) with (refill b t0); [done|]. unfold refill, b0. cbn.
    by rewrite (proj2 (Z.eqb_eq (sat_sub t0 t0) 0)) by (unfold sat_sub; lia). }
  assert (Htok : 0 <= msg_tokens b <= SCALE * msg_burst b)
    by (unfold b, bucket_new, SCALE in *; cbn in *; unfold sat_mul at 1 3; ulia).
  assert (Hs0 : sane b0) by (split; [exact Hr|split; [exact Hb|apply Htok]]).
  pose proof (admit_all_tokens ((p0, t0) :: calls) b0 t0 eq_refl Hs0 (conj (Z.le_refl t0) Hlt)) as H.
  cbn [admit_all] in H. rewrite <- Hfirst in H. destruct (try_admit b p0 t0) as [b1 ok].
  destruct (admit_all b1 calls) as [b2 oks].
  change (msg_rate_per_sec b0) with msg_rate in H. change (msg_tokens b0) with (msg_tokens b) in H.
  unfold earned in H.
  assert (Hl : List.last (map snd ((p0, t0) :: calls)) t0 = List.last (map snd calls) t0)
    by (destruct calls; done). rewrite Hl in H. lia.
Qed.

Lemma token_bucket_rate_witness :
  let '(_, oks) := admit_all (bucket_new 1000 0 2)
    [(0, 0); (0, 10); (0, 20); (0, 1000000)] in
  oks = [true; true; false; true] /\ SCALE * admitted oks <= SCALE * 2 + 1000000.
Proof.
  pose proof (token_bucket_rate 1000 0 2 0 0 [(0, 10); (0, 20); (0, 1000000)]
    ltac:(lia) ltac:(lia) ltac:(simpl; lia)) as H.
  destruct (admit_all (bucket_new 1000 0 2) [(0, 0); (0, 10); (0, 20); (0, 1000000)]) as [b oks] eqn:E.
  vm_compute in E. injection E as <- <-. split; [reflexivity|exact H].
Defined.

(** *** Sub-token refills *)

Lemma starved_step b payload now t :
  last_refill b = Some t -> msg_rate_per_sec b = 1 -> msg_tokens b = 0 -> 0 < msg_burst b ->
  now = t + 999 ->
  exists b', try_admit b payload now = (b', false) /\ last_refill b' = Some now /\
    msg_rate_per_sec b' = 1 /\ msg_tokens b' = 0 /\ msg_burst b' = msg_burst b.
Proof.
  intros Hl Hr Hm Hb ->. unfold try_admit.
  assert (He : is_enabled b = true) by (unfold is_enabled; lia). rewrite He. cbn [negb].
  unfold refill. rewrite Hl. replace (sat_sub (t + 999) t) with 999 by (unfold sat_sub; lia).
  cbn -[Z.mul sat_mul add_scaled]. rewrite Hr, Hm.
  replace (add_scaled 999 1) with 0 by (vm_compute; reflexivity).
  replace (Z.min (sat_add64 0 0) (sat_mul64 (msg_burst b) SCALE)) with 0
    by (unfold sat_mul, SCALE; ulia).
  cbn. eexists. split; [reflexivity|]. done.
Qed.

(** a frequently polled bucket can starve.  The refill advances its anchor
    on every call and drops the fraction of a scaled token, so at one message
    per second a caller that retries every 999 nanoseconds is never admitted
    again, however long it keeps trying. *)
Theorem token_bucket_starves n :
  let b := (try_admit (bucket_new 1 0 1000) 0 0).1 in
  let calls := map (fun i => (0, 999 * Z.of_nat i)) (seq 1 n) in
  (admit_all b calls).2 = repeat false n.
Proof.
  set (b := (try_admit (bucket_new 1 0 1000) 0 0).1). cbn zeta.
  assert (H : forall b k, last_refill b = Some (999 * Z.of_nat k) -> msg_rate_per_sec b = 1 ->
    msg_tokens b = 0 -> 0 < msg_burst b ->
    (admit_all b (map (fun i => (0, 999 * Z.of_nat i)) (seq (S k) n))).2 = repeat false n).
  { clear b. induction n as [|n IH]; intros b k Hl Hr Hm Hb; [done|]. cbn [seq map admit_all].
    destruct (starved_step b 0 (999 * Z.of_nat (S k)) _ Hl Hr Hm Hb ltac:(lia))
      as (b' & -> & Hl' & Hr' & Hm' & Hb').
    specialize (IH b' (S k) Hl' Hr' Hm' ltac:(lia)).
    destruct (admit_all b' _) as [b2 oks]. cbn [snd repeat] in *. by rewrite IH. }
  apply (H b O); vm_compute; reflexivity.
Qed.

End TokenBucket.

(** ** The retry budget *)

Module RetryBudget.

Definition DEFAULT_RETRY_BUDGET_WINDOW_MS : Z := 60000.
Definition RETRY_BUDGET_K : Z := 2.

Record RetryBudget := mk_budget {
  ratio_per_million : Z;
  window_nanos : Z;
  requests : Z;
  accepts : Z;
  retries_allowed : Z;
  window_start : option Z
}.

Definition budget_new (ratio window_ms : Z) : RetryBudget :=
  let window_ms := if window_ms =? 0 then DEFAULT_RETRY_BUDGET_WINDOW_MS else window_ms in
  mk_budget (Z.min ratio 1000000) (sat_mul64 window_ms NANOS_PER_MS) 0 0 0 None.

Definition is_enabled (b : RetryBudget) : bool := negb (ratio_per_million b =? 0).

Definition roll (b : RetryBudget) (now : Z) : RetryBudget :=
  match window_start b with
  | None => mk_budget (ratio_per_million b) (window_nanos b) (requests b) (accepts b)
              (retries_allowed b) (Some now)
  | Some start =>
      if window_nanos b <=? sat_sub now start
      then mk_budget (ratio_per_million b) (window_nanos b) 0 0 0 (Some now)
      else b
  end.

Definition record_accept (b : RetryBudget) (now : Z) : RetryBudget :=
  let b := roll b now in
  mk_budget (ratio_per_million b) (window_nanos b) (sat_add64 (requests b) 1) (sat_add64 (accepts b) 1)
    (retries_allowed b) (window_start b).

Definition record_shed (b : RetryBudget) (now : Z) : RetryBudget :=
  let b := roll b now in
  mk_budget (ratio_per_million b) (window_nanos b) (sat_add64 (requests b) 1) (accepts b)
    (retries_allowed b) (window_start b).

Definition observed_ratio_per_million (b : RetryBudget) : Z :=
  if requests b =? 0 then 0
  else sat_mul64 (sat_sub (requests b) (accepts b)) 1000000 / requests b.

Definition should_throttle (b : RetryBudget) (now : Z) : RetryBudget * bool :=
  if negb (is_enabled b) then (record_shed b now, false)
  else
    let b := roll b now in
    let numerator := sat_sub (requests b) (sat_mul64 RETRY_BUDGET_K (accepts b)) in
    let budget := sat_mul64 (requests b) (ratio_per_million b) / 1000000 in
    if (numerator =? 0) || (retries_allowed b <? budget) then
      (mk_budget (ratio_per_million b) (window_nanos b) (sat_add64 (requests b) 1) (accepts b)
         (sat_add64 (retries_allowed b) 1) (window_start b), false)
    else (b, true).

(** The calls on a budget. *)
Inductive call := Accept (now : Z) | Shed (now : Z) | Retry (now : Z).

Definition do_call (b : RetryBudget) (c : call) : RetryBudget :=
  match c with
  | Accept now => record_accept b now
  | Shed now => record_shed b now
  | Retry now => (should_throttle b now).1
  end.

(** The retries permitted in the current window are within the accept-based
    allowance or within the ratio. *)
Definition within (ratio : Z) (b : RetryBudget) : Prop :=
  ratio_per_million b = ratio /\ 0 <= accepts b <= requests b /\ 0 <= retries_allowed b <= requests b /\
  requests b <= u64_max /\
  retries_allowed b <= Z.max (2 * accepts b + 1) (requests b * ratio / 1000000).

Lemma roll_within ratio b now : 0 <= ratio -> within ratio b -> within ratio (roll b now).
Proof.
  intros Hr Hw. unfold roll. destruct (window_start b) as [st|]; [|exact Hw].
  destruct (_ <=? _); [|done]. destruct Hw as [H1 _]. unfold within. cbn.
  rewrite Z.div_0_l by lia. repeat split; try ulia; done.
Qed.

(** One more request keeps the bound, with one more retry where the budget or
    the accepts allow it. *)
Lemma within_request ratio b a' n' :
  0 <= ratio -> within ratio b -> accepts b <= a' <= accepts b + 1 -> a' <= u64_max -> retries_allowed b <= n' <= retries_allowed b + 1 ->
  n' <= u64_max ->
  (n' = retries_allowed b \/ requests b <= 2 * accepts b \/
   retries_allowed b < requests b * ratio / 1000000) ->
  within ratio (mk_budget ratio (window_nanos b) (sat_add64 (requests b) 1) a' n' (window_start b)).
Proof.
  intros Hr (H1 & H2 & H3 & H4 & H5) Ha Hamax Hn Hmax Hc. unfold within. cbn.
  assert (Hm : requests b * ratio / 1000000 <= sat_add64 (requests b) 1 * ratio / 1000000).
  { apply Z.div_le_mono; [lia|]. apply Z.mul_le_mono_nonneg_r; [lia|]. unfold sat_add. lia. }
  set (q := requests b * ratio / 1000000) in *.
  set (q' := sat_add64 (requests b) 1 * ratio / 1000000) in *. clearbody q q'.
  unfold sat_add. split; [done|]. lia.
Qed.

Lemma do_call_within ratio b c :
  0 < ratio -> within ratio b -> within ratio (do_call b c).
Proof.
  intros Hr Hw.
  assert (He : is_enabled b = true) by (destruct Hw as [Hw _]; unfold is_enabled; lia).
  assert (Hroll : forall now, within ratio (roll b now)) by (intros now; apply roll_within; [lia|done]).
  destruct c as [now|now|now]; cbn [do_call]; specialize (Hroll now) as Hn;
    pose proof Hn as (H1 & H2 & H3 & H4 & H5).
  - unfold record_accept. rewrite H1. apply within_request; first [done | by left | unfold sat_add; lia].
  - unfold record_shed. rewrite H1. apply within_request; first [done | by left | unfold sat_add; lia].
  - unfold should_throttle. rewrite He. cbn [negb]. destruct (_ || _) eqn:E; cbn [fst]; [|done].
    rewrite H1 in *. apply within_request; try (done || unfold sat_add; lia).
    right. unfold RETRY_BUDGET_K in E. apply orb_true_iff in E as [E|E]; bool_to_prop; [left|right].
    + unfold sat_sub, sat_mul in E. lia.
    + eapply Z.lt_le_trans; [exact E|]. apply Z.div_le_mono; [lia|]. unfold sat_mul. lia.
Qed.

(** The retry budget bounds amplification.  After any calls on an enabled
    budget, the retries permitted in the current window are at most one more
    than twice the accepted requests or at most the configured share of the
    requests; a retry is throttled exactly when requests exceed twice the
    accepts and the share is used up; a disabled budget never throttles. *)
Theorem retry_budget_bound ratio window_ms calls now :
  0 <= ratio <= 1000000 ->
  let b := foldl do_call (budget_new ratio window_ms) calls in
  (ratio = 0 -> (should_throttle b now).2 = false) /\
  (0 < ratio ->
   retries_allowed b <= Z.max (2 * accepts b + 1) (requests b * ratio / 1000000) /\
   ((should_throttle b now).2 = true <->
      let b' := roll b now in
      2 * accepts b' < requests b' /\
      sat_mul64 (requests b') ratio / 1000000 <= retries_allowed b')).
Proof.
  intros Hr b.
  assert (Hratio : ratio_per_million b = ratio).
  { unfold b. assert (H0 : ratio_per_million (budget_new ratio window_ms) = ratio) by (cbn; lia).
    revert H0. generalize (budget_new ratio window_ms). clear b. induction calls as [|c calls IH]; [done|].
    intros b0 H0. apply IH.
    assert (Hroll : forall n, ratio_per_million (roll b0 n) = ratio)
      by (intros n; unfold roll; destruct (window_start b0); [destruct (_ <=? _)|]; done).
    destruct c; cbn [do_call record_accept record_shed ratio_per_million]; try apply Hroll.
    unfold should_throttle. destruct (negb _); [apply Hroll|]. destruct (_ || _); apply Hroll. }
  split.
  - intros ->. unfold should_throttle, is_enabled. by rewrite Hratio.
  - intros Hpos. assert (Hw : within ratio b).
    { unfold b. assert (H0 : within ratio (budget_new ratio window_ms)).
      { unfold within. cbn. rewrite Z.div_0_l by lia. repeat split; ulia. }
      revert H0. generalize (budget_new ratio window_ms). clear - Hpos.
      induction calls as [|c calls IH]; [done|]. intros b0 H0. by apply IH, do_call_within. }
    split; [apply Hw|]. unfold should_throttle, is_enabled. rewrite Hratio.
    rewrite (proj2 (Z.eqb_neq ratio 0)) by lia. cbn [negb].
    destruct (roll_within ratio b now ltac:(lia) Hw) as (H1 & H2 & H3 & H4 & _). rewrite H1.
    unfold RETRY_BUDGET_K. set (q := sat_mul64 (requests (roll b now)) ratio / 1000000). clearbody q.
    cbn zeta. clear Hw. clearbody b. unfold sat_sub, sat_mul, u64_max in *.
    destruct (_ || _) eqn:E; cbn [snd]; bool_to_prop.
    + split; [done|]. destruct E as [E|E]; bool_to_prop; lia.
    + split; [|done]. lia.
Qed.

Lemma retry_budget_bound_witness :
  let b := foldl do_call (budget_new 100000 0) [Shed 0; Retry 1; Shed 2; Shed 3; Accept 4] in
  retries_allowed b <= Z.max (2 * accepts b + 1) (requests b * 100000 / 1000000) /\
  (should_throttle b 5).2 = true.
Proof.
  intros b. destruct (proj2 (retry_budget_bound 100000 0 [Shed 0; Retry 1; Shed 2; Shed 3; Accept 4] 5
    ltac:(lia)) ltac:(lia)) as [H1 H2].
  split; [exact H1|]. apply H2. split; vm_compute; [reflexivity|discriminate].
Defined.

End RetryBudget.

(** ** The fsync headroom *)

Module FsyncHeadroom.

Definition would_admit (headroom_bytes unsynced_now record_bytes : Z) : bool :=
  if headroom_bytes =? 0 then true
  else if unsynced_now =? 0 then true
  else sat_add64 unsynced_now record_bytes <=? headroom_bytes.

(** The un-fsynced backlog over produces (admitted or shed) and flushes. *)
Inductive op := Produce (record_bytes : Z) | Flush.

Definition backlog_step (headroom backlog : Z) (o : op) : Z :=
  match o with
  | Produce n => if would_admit headroom backlog n then backlog + n else backlog
  | Flush => 0
  end.

(** The backlog never runs past the headroom by more than one record admitted
    on an empty backlog. *)
Lemma backlog_bound headroom largest ops backlog :
  0 < headroom -> headroom < u64_max -> Forall (fun o => match o with Produce n => 0 <= n <= largest | Flush => True end) ops ->
  0 <= backlog <= Z.max headroom largest ->
  0 <= foldl (backlog_step headroom) backlog ops <= Z.max headroom largest.
Proof.
  intros Hh Hm Hops. revert backlog. induction Hops as [|o ops Ho _ IH]; intros backlog Hb; [done|].
  simpl. apply IH. destruct o as [n|]; simpl; [|lia].
  unfold would_admit. rewrite (proj2 (Z.eqb_neq headroom 0)) by lia.
  destruct (Z.eqb_spec backlog 0); [lia|]. destruct (Z.leb_spec (sat_add64 backlog n) headroom); [|lia].
  unfold sat_add in *. lia.
Qed.

End FsyncHeadroom.
