(* ===== verification/ProduceLog.v ===== *)
(** * The produce side of the engine over the log ([engine.rs])

    [Produce] sees the default stream as a list of records.  Here are the same
    handlers, and those the append actor drives, over the segmented log itself:
    admission (fire-and-forget bucket, CoDel, fsync headroom), the resolution of
    a delay request, deduplicated and sequenced appends, the durability barrier
    of each level and the two halves of a barrier that another thread issues.

    The engine is configured with no compression and with the drop-new policy,
    and no retention bound is set, so that the tail of a commit (retention, idle
    groups, confirm timeouts) leaves the log alone; whether the tail fails is an
    answer of the environment.  Histograms and per-stream counts are left out:
    no decision reads them. *)

From S2P Require Import Prelude Bytes Records Codec Disk SegmentFormat SegmentScan SegmentWriter Log LogRecovery LogSafety.
From S2P Require Import Lru Dedup ProducerSeq Ttl Backpressure.

(** ** State *)

Inductive DurabilityLevel := LevelSync | LevelInterval | LevelAsync | LevelNone.

Record ProduceConfig := mk_produce_config {
  pc_durability_level : DurabilityLevel;
  pc_flush_interval_nanos : Z;
  pc_flush_max_bytes : Z;
  pc_max_delay_ms : Z;
  pc_sync_max_dirty_bytes : Z
}.

Record BackpressureState := mk_backpressure {
  bp_codel : Codel.Codel;
  bp_codel_shed : Z;
  bp_codel_backstop_shed : Z;
  bp_retry_budget : RetryBudget.RetryBudget;
  bp_fire_and_forget : TokenBucket.TokenBucket;
  bp_fire_and_forget_shed : Z;
  bp_fsync_headroom : Z;
  bp_wal_headroom_shed : Z
}.

Record ProduceCounters := mk_produce_counters {
  pn_produced : Z;
  pn_produced_bytes : Z;
  pn_produce_rejected : Z;
  pn_dedup_hits : Z;
  pn_dedup_out_of_window : Z;
  pn_producer_out_of_order : Z
}.

Inductive EngineError :=
| Storage (e : StorageError)
| DelayTooLong (requested_ms max_ms : Z)
| DueTimeInjected (due_unix_ms : Z).

Definition is_fatal (e : EngineError) : bool := match e with Storage WriterFrozen => true | _ => false end.
Definition is_at_capacity (e : EngineError) : bool :=
  match e with Storage (AtCapacity _ _) | Storage (DailyWriteBudgetExceeded _ _) => true | _ => false end.

Inductive AppendOutcome :=
| Appended (offset : Z)
| Duplicate (offset : Z)
| Fenced (current_epoch : Z)
| OutOfOrder (expected : Z).

Record DedupRequest := mk_request { rq_producer_id : list Z; rq_epoch : Z; rq_msg_id : list Z; rq_seq : option Z }.

(** ** Backpressure *)

Section admission.
Implicit Types (b : BackpressureState).

Definition codel_admit b (now enqueue_monotonic_nanos : Z) : BackpressureState * bool :=
  if negb (Codel.is_enabled (bp_codel b)) then (b, false)
  else
    let '(codel, shed) := Codel.sojourn (bp_codel b) (sat_sub now enqueue_monotonic_nanos) now in
    (mk_backpressure codel (if shed then sat_add64 (bp_codel_shed b) 1 else bp_codel_shed b) (bp_codel_backstop_shed b)
       (bp_retry_budget b) (bp_fire_and_forget b) (bp_fire_and_forget_shed b) (bp_fsync_headroom b) (bp_wal_headroom_shed b), shed).

Definition codel_queue_empty b (now : Z) : BackpressureState :=
  if Codel.is_enabled (bp_codel b)
  then mk_backpressure (Codel.on_empty (bp_codel b) now) (bp_codel_shed b) (bp_codel_backstop_shed b) (bp_retry_budget b)
         (bp_fire_and_forget b) (bp_fire_and_forget_shed b) (bp_fsync_headroom b) (bp_wal_headroom_shed b)
  else b.

Definition record_backstop_shed b : BackpressureState :=
  mk_backpressure (bp_codel b) (bp_codel_shed b) (sat_add64 (bp_codel_backstop_shed b) 1) (bp_retry_budget b)
    (bp_fire_and_forget b) (bp_fire_and_forget_shed b) (bp_fsync_headroom b) (bp_wal_headroom_shed b).

Definition with_retry b (budget : RetryBudget.RetryBudget) : BackpressureState :=
  mk_backpressure (bp_codel b) (bp_codel_shed b) (bp_codel_backstop_shed b) budget
    (bp_fire_and_forget b) (bp_fire_and_forget_shed b) (bp_fsync_headroom b) (bp_wal_headroom_shed b).
Definition retry_budget_record_accept b (now : Z) : BackpressureState := with_retry b (RetryBudget.record_accept (bp_retry_budget b) now).
Definition retry_budget_record_shed b (now : Z) : BackpressureState := with_retry b (RetryBudget.record_shed (bp_retry_budget b) now).

Definition wal_headroom_enabled b : bool := negb (bp_fsync_headroom b =? 0).

Definition record_wal_headroom_shed b : BackpressureState :=
  mk_backpressure (bp_codel b) (bp_codel_shed b) (bp_codel_backstop_shed b) (bp_retry_budget b)
    (bp_fire_and_forget b) (bp_fire_and_forget_shed b) (bp_fsync_headroom b) (sat_add64 (bp_wal_headroom_shed b) 1).

Definition record_fire_and_forget_sheds b (n : Z) : BackpressureState :=
  mk_backpressure (bp_codel b) (bp_codel_shed b) (bp_codel_backstop_shed b) (bp_retry_budget b)
    (bp_fire_and_forget b) (sat_add64 (bp_fire_and_forget_shed b) n) (bp_fsync_headroom b) (bp_wal_headroom_shed b).

Definition fire_and_forget_admit b (now payload_bytes : Z) : BackpressureState * bool :=
  let '(bucket, admitted) := TokenBucket.try_admit (bp_fire_and_forget b) payload_bytes now in
  (mk_backpressure (bp_codel b) (bp_codel_shed b) (bp_codel_backstop_shed b) (bp_retry_budget b) bucket
     (if admitted then bp_fire_and_forget_shed b else sat_add64 (bp_fire_and_forget_shed b) 1) (bp_fsync_headroom b)
     (bp_wal_headroom_shed b), admitted).
End admission.

Section engine.
Context `{Crc32c} `{Xxh3} `{RandomAccessFile F}.

Record ProduceEngine := mk_produce_engine {
  pe_log : Log F;
  pe_dedup : DedupRegistry;
  pe_producer_seq : ProducerSeqRegistry;
  pe_seq_checkpoint : bool;
  pe_backpressure : BackpressureState;
  pe_counters : ProduceCounters;
  pe_last_fsync_nanos : Z;
  pe_last_sync_monotonic : Z
}.

(** The answers of the outside during one call: the log's environment, the
    monotonic clock when the call starts and when it ends, whether the sequence
    checkpoint can be opened and whether the tail of a commit goes through. *)
Record Seam := mk_seam {
  sm_env : Env F;
  sm_now : Z;
  sm_done : Z;
  sm_checkpoint_ok : bool;
  sm_tail_ok : bool
}.

Definition set_log (e : ProduceEngine) (l : Log F) : ProduceEngine :=
  mk_produce_engine l (pe_dedup e) (pe_producer_seq e) (pe_seq_checkpoint e) (pe_backpressure e) (pe_counters e)
    (pe_last_fsync_nanos e) (pe_last_sync_monotonic e).
Definition set_dedup (e : ProduceEngine) (r : DedupRegistry) : ProduceEngine :=
  mk_produce_engine (pe_log e) r (pe_producer_seq e) (pe_seq_checkpoint e) (pe_backpressure e) (pe_counters e)
    (pe_last_fsync_nanos e) (pe_last_sync_monotonic e).
Definition set_seqs (e : ProduceEngine) (r : ProducerSeqRegistry) : ProduceEngine :=
  mk_produce_engine (pe_log e) (pe_dedup e) r (pe_seq_checkpoint e) (pe_backpressure e) (pe_counters e)
    (pe_last_fsync_nanos e) (pe_last_sync_monotonic e).
Definition set_checkpoint (e : ProduceEngine) (opened : bool) : ProduceEngine :=
  mk_produce_engine (pe_log e) (pe_dedup e) (pe_producer_seq e) opened (pe_backpressure e) (pe_counters e)
    (pe_last_fsync_nanos e) (pe_last_sync_monotonic e).
Definition set_backpressure (e : ProduceEngine) (b : BackpressureState) : ProduceEngine :=
  mk_produce_engine (pe_log e) (pe_dedup e) (pe_producer_seq e) (pe_seq_checkpoint e) b (pe_counters e)
    (pe_last_fsync_nanos e) (pe_last_sync_monotonic e).
Definition set_counts (e : ProduceEngine) (n : ProduceCounters) : ProduceEngine :=
  mk_produce_engine (pe_log e) (pe_dedup e) (pe_producer_seq e) (pe_seq_checkpoint e) (pe_backpressure e) n
    (pe_last_fsync_nanos e) (pe_last_sync_monotonic e).
Definition set_barrier (e : ProduceEngine) (fsync_nanos at_ : Z) : ProduceEngine :=
  mk_produce_engine (pe_log e) (pe_dedup e) (pe_producer_seq e) (pe_seq_checkpoint e) (pe_backpressure e) (pe_counters e)
    fsync_nanos at_.

(** ** Counters *)

Definition count_produced (n : ProduceCounters) (bytes : Z) : ProduceCounters :=
  mk_produce_counters (wrap_inc (pn_produced n)) (sat_add64 (pn_produced_bytes n) bytes) (pn_produce_rejected n) (pn_dedup_hits n)
    (pn_dedup_out_of_window n) (pn_producer_out_of_order n).
Definition count_rejected (n : ProduceCounters) (by_ : Z) : ProduceCounters :=
  mk_produce_counters (pn_produced n) (pn_produced_bytes n) (sat_add64 (pn_produce_rejected n) by_) (pn_dedup_hits n)
    (pn_dedup_out_of_window n) (pn_producer_out_of_order n).
Definition count_hit (n : ProduceCounters) : ProduceCounters :=
  mk_produce_counters (pn_produced n) (pn_produced_bytes n) (pn_produce_rejected n) (sat_add64 (pn_dedup_hits n) 1)
    (pn_dedup_out_of_window n) (pn_producer_out_of_order n).
Definition count_out_of_window (n : ProduceCounters) : ProduceCounters :=
  mk_produce_counters (pn_produced n) (pn_produced_bytes n) (pn_produce_rejected n) (pn_dedup_hits n)
    (sat_add64 (pn_dedup_out_of_window n) 1) (pn_producer_out_of_order n).
Definition count_out_of_order (n : ProduceCounters) : ProduceCounters :=
  mk_produce_counters (pn_produced n) (pn_produced_bytes n) (pn_produce_rejected n) (pn_dedup_hits n)
    (pn_dedup_out_of_window n) (sat_add64 (pn_producer_out_of_order n) 1).

(** ** Appends *)

Definition body_len (m : Append) : Z := Z.of_nat (length (ap_key m) + length (ap_headers m) + length (ap_payload m)).

Definition with_headers (m : Append) (headers : list Z) : Append :=
  mk_append (ap_timestamp_ms m) (ap_flags m) (ap_key m) headers (ap_payload m).

(** Under drop-new every refusal of the log is final. *)
Definition append_with_policy (e : ProduceEngine) (sm : Seam) (m : Append) (precomputed : option BodyChecksums) (subject : list Z)
    : ProduceEngine * res Z StorageError :=
  let '(l, r) := append_inner (pe_log e) (sm_env sm) (SrcEncode m precomputed subject []) true in (set_log e l, r).

Definition append_no_sync_checked (k : ProduceConfig) (e : ProduceEngine) (sm : Seam) (message : Append)
    (precomputed : option BodyChecksums) (subject : list Z) : ProduceEngine * res Z EngineError :=
  match resolve_delay_headers (ap_headers message) (ev_unix_millis (sm_env sm)) (pc_max_delay_ms k) with
  | Ok patched =>
      let '(message, precomputed) :=
        match patched with None => (message, precomputed) | Some headers => (with_headers message headers, None) end in
      match append_with_policy e sm message precomputed subject with
      | (e, Ok offset) => (set_counts e (count_produced (pe_counters e) (body_len message)), Ok offset)
      | (e, Err err) =>
          (if is_at_capacity (Storage err)
           then set_backpressure (set_counts e (count_rejected (pe_counters e) 1)) (record_backstop_shed (pe_backpressure e))
           else e, Err (Storage err))
      | (e, Panic) => (e, Panic)
      end
  | Err (TooLong requested_ms max_ms) => (e, Err (DelayTooLong requested_ms max_ms))
  | Err (DueInjected due_unix_ms) => (e, Err (DueTimeInjected due_unix_ms))
  | Panic => (e, Panic)
  end.

Definition ensure_producer_seq_checkpoint (e : ProduceEngine) (sm : Seam) : ProduceEngine * res unit EngineError :=
  if pe_seq_checkpoint e then (e, Ok tt)
  else if sm_checkpoint_ok sm then (set_checkpoint e true, Ok tt) else (e, Err (Storage StIo)).

Definition append_no_sync_seq (k : ProduceConfig) (e : ProduceEngine) (sm : Seam) (message : Append) (producer_id : list Z)
    (epoch seq : Z) (precomputed : option BodyChecksums) : ProduceEngine * res AppendOutcome EngineError :=
  let now := sm_now sm in
  let '(seqs, decision) := seq_check (pe_producer_seq e) producer_id epoch seq now in
  let e := set_seqs e seqs in
  match decision with
  | SeqDuplicate offset => (set_counts e (count_hit (pe_counters e)), Ok (Duplicate offset))
  | SeqFenced current_epoch => (e, Ok (Fenced current_epoch))
  | SeqOutOfOrder expected => (set_counts e (count_out_of_order (pe_counters e)), Ok (OutOfOrder expected))
  | SeqFresh =>
      match ensure_producer_seq_checkpoint e sm with
      | (e, Ok _) =>
          match append_no_sync_checked k e sm message precomputed [] with
          | (e, Ok offset) =>
              (set_seqs e (seq_record (pe_producer_seq e) producer_id epoch seq offset now), Ok (Appended offset))
          | (e, Err err) => (e, Err err)
          | (e, Panic) => (e, Panic)
          end
      | (e, Err err) => (e, Err err)
      | (e, Panic) => (e, Panic)
      end
  end.

Definition append_no_sync_dedup_checked (k : ProduceConfig) (e : ProduceEngine) (sm : Seam) (message : Append)
    (dedup : option DedupRequest) (precomputed : option BodyChecksums) : ProduceEngine * res AppendOutcome EngineError :=
  match dedup with
  | None =>
      match append_no_sync_checked k e sm message precomputed [] with
      | (e, Ok offset) => (e, Ok (Appended offset))
      | (e, Err err) => (e, Err err)
      | (e, Panic) => (e, Panic)
      end
  | Some req =>
      match rq_seq req with
      | Some seq => append_no_sync_seq k e sm message (rq_producer_id req) (rq_epoch req) seq precomputed
      | None =>
          let now := sm_now sm in
          let '(registry, decision) := dedup_check (pe_dedup e) (rq_producer_id req) (rq_epoch req) (rq_msg_id req) now in
          let e := set_dedup e registry in
          match decision with
          | DedupDuplicate offset => (set_counts e (count_hit (pe_counters e)), Ok (Duplicate offset))
          | DedupFenced current_epoch => (e, Ok (Fenced current_epoch))
          | DedupFresh out_of_window =>
              let e := if out_of_window then set_counts e (count_out_of_window (pe_counters e)) else e in
              match append_no_sync_checked k e sm message precomputed [] with
              | (e, Ok offset) =>
                  (set_dedup e (dedup_record (pe_dedup e) (rq_producer_id req) (rq_msg_id req) offset now), Ok (Appended offset))
              | (e, Err err) => (e, Err err)
              | (e, Panic) => (e, Panic)
              end
          end
      end
  end.

(** ** Commits *)

Definition unsynced_bytes (e : ProduceEngine) : Z := m_unsynced_record_bytes (l_meters (pe_log e)).

Definition wal_headroom_admit (e : ProduceEngine) (record_bytes : Z) : bool :=
  FsyncHeadroom.would_admit (bp_fsync_headroom (pe_backpressure e)) (unsynced_bytes e) record_bytes.

Definition interval_flush_is_due (k : ProduceConfig) (e : ProduceEngine) (sm : Seam) : bool :=
  let byte_due := negb (pc_flush_max_bytes k =? 0) && (pc_flush_max_bytes k <=? unsynced_bytes e) in
  let time_due := negb (pc_flush_interval_nanos k =? 0) &&
    (pc_flush_interval_nanos k <=? sat_sub (sm_now sm) (pe_last_sync_monotonic e)) in
  byte_due || time_due.

Definition storage_error {A} (r : res A StorageError) : res A EngineError := map_err Storage r.

Definition commit_durability_barrier (k : ProduceConfig) (e : ProduceEngine) (sm : Seam) : ProduceEngine * res bool EngineError :=
  let force_sync :=
    match pc_durability_level k with
    | LevelSync => true
    | LevelInterval => interval_flush_is_due k e sm
    | LevelAsync | LevelNone => false
    end in
  if force_sync then
    let '(l, r) := log_sync (pe_log e) (sm_env sm) in
    match storage_error r with
    | Ok _ => (set_barrier (set_log e l) (sat_sub (sm_done sm) (sm_now sm)) (sm_done sm), Ok true)
    | Err err => (set_log e l, Err err)
    | Panic => (set_log e l, Panic)
    end
  else
    let '(l, r) := flush_no_sync (pe_log e) (sm_env sm) in
    match storage_error r with
    | Ok _ => (set_log e l, Ok false)
    | Err err => (set_log e l, Err err)
    | Panic => (set_log e l, Panic)
    end.

(** Retention, idle groups and confirm timeouts, on a log without a bound. *)
Definition commit_tail_after_async_completion (e : ProduceEngine) (sm : Seam) : ProduceEngine * res unit EngineError :=
  if sm_tail_ok sm then (e, Ok tt) else (e, Err (Storage StIo)).

Definition commit_batch (k : ProduceConfig) (e : ProduceEngine) (sm : Seam) : ProduceEngine * res unit EngineError :=
  match commit_durability_barrier k e sm with
  | (e, Ok _) => commit_tail_after_async_completion e sm
  | (e, Err err) => (e, Err err)
  | (e, Panic) => (e, Panic)
  end.

Definition begin_async_commit (e : ProduceEngine) (sm : Seam) : ProduceEngine * res (option SyncTicket) EngineError :=
  let '(l, r) := prepare_async_sync (pe_log e) (sm_env sm) in (set_log e l, storage_error r).

Definition complete_async_commit (e : ProduceEngine) (sm : Seam) (commit : SyncTicket) (fsync_nanos : Z) : ProduceEngine :=
  set_barrier (set_log e (complete_async_sync (pe_log e) commit)) fsync_nanos (sm_now sm).

Definition fail_async_commit (e : ProduceEngine) : ProduceEngine :=
  set_log e (freeze_after_external_sync_failure (pe_log e)).

Definition has_unsynced (e : ProduceEngine) : bool := has_unsynced_records (pe_log e).
Definition log_is_writable (e : ProduceEngine) : bool := is_writable (pe_log e).
Definition durable_offset (e : ProduceEngine) : Z := l_synced_offset (pe_log e).
Definition append_head (e : ProduceEngine) : Z := l_next_offset (pe_log e).

(** A shutdown also checkpoints the groups, which no produce reads. *)
Definition force_sync (e : ProduceEngine) (sm : Seam) : ProduceEngine * res unit EngineError :=
  let '(l, r) := log_sync (pe_log e) (sm_env sm) in
  match storage_error r with
  | Ok _ => (set_barrier (set_log e l) (pe_last_fsync_nanos e) (sm_done sm), Ok tt)
  | Err err => (set_log e l, Err err)
  | Panic => (set_log e l, Panic)
  end.

(** Sheds that the connection threads made of their own accord. *)
Definition record_fast_reject_sheds (e : ProduceEngine) (now : Z) (n : nat) : ProduceEngine :=
  match n with
  | O => e
  | _ =>
      set_backpressure (set_counts e (count_rejected (pe_counters e) (Z.of_nat n)))
        (Nat.iter n (fun b => retry_budget_record_shed (record_backstop_shed b) now) (pe_backpressure e))
  end.
End engine.

(** ** What the operations keep of the log *)

Section log_facts.
Context `{Crc32c} `{Xxh3} `{!Streaming} `{CrashDisk F}.

Lemma log_ok_next cfg (l : Log F) A c tk : log_ok cfg l A c tk -> l_next_offset l = Z.of_nat (length A).
Proof. intros (ss & tail & Hi & <- & _). apply (li_next _ _ _ _ Hi). Qed.

Lemma log_ok_active cfg (l : Log F) A c tk x : log_ok cfg l A c tk -> l_active l = Some x -> l_pending_roll l = None.
Proof.
  intros (ss & tail & Hi & _) Ha. pose proof (li_active _ _ _ _ Hi) as Hact. rewrite Ha in Hact. destruct x as [ino w].
  destruct tail as [[E n]|]; [|done]. by destruct Hact as (fl & bu & t & _ & _ & _ & _ & _ & _ & Hp & _).
Qed.

Lemma log_ok_weaken cfg (l : Log F) A c c' tk tk' :
  log_ok cfg l A c tk -> (c' <= c)%nat -> (tk' = tk \/ tk' = None) -> log_ok cfg l A c' tk'.
Proof.
  intros (ss & tail & Hi & HA & Hc & Ht) Hle Htk. exists ss, tail. split; [done|]. split; [done|]. split; [lia|].
  by destruct Htk as [-> | ->].
Qed.

(** Between two segments everything is synced. *)
Definition pending_ok (l : Log F) : Prop := l_pending_roll l <> None -> l_synced_offset l = l_next_offset l.

(** An operation that leaves the heads alone, or finds no deferred roll. *)
Definition same_heads (l l' : Log F) : Prop := l_synced_offset l' = l_synced_offset l /\ l_next_offset l' = l_next_offset l.

Lemma create_heads (l : Log F) ev id bs bo : same_heads l (fst (create_or_defer_segment l ev id bs bo)).
Proof.
  unfold create_or_defer_segment. destruct (dir_create_new _ _ _ _) as [d [ino|]]; [|done].
  destruct (create_writer _ _) as [file [w|e|]]; try done. destruct (writer_sync w) as [w' [[]|e|]]; try done. by destruct (dir_sync _ _) as [d' []].
Qed.

Lemma ensure_heads (l : Log F) ev : same_heads l (fst (ensure_writable l ev)).
Proof. unfold ensure_writable. destruct (l_pending_roll l); [apply create_heads|done]. Qed.

Lemma prepare_heads (l : Log F) ev : same_heads l (fst (prepare_async_sync l ev)).
Proof.
  unfold prepare_async_sync. pose proof (ensure_heads l ev) as Hh. destruct (ensure_writable l ev) as [l1 [[]|e|]]; [|done|done].
  destruct (l_active l1) as [[ino w]|]; [|done]. destruct (negb _); [done|]. by destruct (SegmentWriter.flush_pending w) as [w' [[]|e|]].
Qed.

Lemma ensure_pending (l : Log F) ev : pending_ok l -> pending_ok (fst (ensure_writable l ev)).
Proof.
  intros Hp Hn. destruct (ensure_heads l ev) as [-> ->]. apply Hp. intros He. apply Hn. unfold ensure_writable. by rewrite He.
Qed.

Lemma roll_pending (l : Log F) ev : pending_ok l -> pending_ok (fst (roll l ev)).
Proof.
  intros Hp. unfold roll. destruct (next_fresh_segment_id l) as [id|e|]; [|done|done]. destruct (l_active l) as [[ino w]|]; [|done].
  destruct (seal w) as [file [u|e|]]; [|done|done]. intros _. match goal with |- context [create_or_defer_segment ?l1 ?ev ?a ?b ?c] =>
    destruct (create_heads l1 ev a b c) as [-> ->] end. done.
Qed.

Lemma append_inner_pending cfg (l : Log F) ev source allow_roll A c tk e :
  log_ok cfg l A c tk -> env_ok ev -> source_writes cfg source (Z.of_nat (length A)) e -> pending_ok l ->
  pending_ok (fst (append_inner l ev source allow_roll)).
Proof.
  intros Hl Hev Hs Hp. unfold append_inner. cbv zeta. destruct (_ && _ && _); [done|]. set (l1 := if negb _ then with_meters l _ else l).
  assert (Hl1 : log_ok cfg l1 A c tk) by (unfold l1; destruct (negb _); [by apply log_ok_meters|done]).
  assert (Hp1 : pending_ok l1) by (unfold l1; by destruct (negb _)). clearbody l1. destruct (_ && _ && _); [done|].
  pose proof (ensure_writable_ok cfg l1 ev A c tk Hl1 Hev) as He. pose proof (ensure_pending l1 ev Hp1) as Hp2.
  destruct (ensure_writable l1 ev) as [l2 [[]|err|]]; cbn [keeps fst] in *; [|done|done].
  assert (Hgo : forall l3, log_ok cfg l3 A c tk -> pending_ok l3 -> pending_ok (fst (append_active l3 ev source))).
  { intros l3 Hl3 Hp3. unfold append_active. destruct (checked_next (l_next_seq l3)), (checked_next (l_next_offset l3)); try done.
    destruct (l_active l3) as [[ino w]|] eqn:Ha; [|done]. pose proof (log_ok_active _ _ _ _ _ _ Hl3 Ha) as Hn.
    destruct (write_source w source _) as [w' [off|err|]]; intros Hq; by rewrite Hn in Hq || destruct (Hq Hn). }
  destruct (l_active l2) as [[ino w]|] eqn:Ha; [|done]. destruct (_ && _ && _) eqn:Hroll; [|by apply Hgo].
  apply andb_true_iff in Hroll as [_ Hpos%Z.ltb_lt].
  assert (Hr : keeps cfg A c tk (roll l2 ev)) by (apply roll_ok; [done|done|]; intros ino' w'; rewrite Ha; by intros [= <- <-]).
  pose proof (roll_pending l2 ev Hp2) as Hp3. destruct (roll l2 ev) as [l3 [[]|err|]]; cbn [keeps fst] in *; [by apply Hgo|done|done].
Qed.

(** A barrier that fails drops the writer and finds no deferred roll. *)
Lemma log_sync_pending cfg (l : Log F) ev A c tk :
  log_ok cfg l A c tk -> env_ok ev -> pending_ok l -> pending_ok (fst (log_sync l ev)).
Proof.
  intros Hl Hev Hp. unfold log_sync. pose proof (ensure_writable_ok cfg l ev A c tk Hl Hev) as He. pose proof (ensure_pending l ev Hp) as Hp2.
  destruct (ensure_writable l ev) as [l1 [[]|err|]]; cbn [keeps fst] in *; [|done|done]. destruct (l_active l1) as [[ino w]|] eqn:Ha; [|done].
  pose proof (log_ok_active _ _ _ _ _ _ He Ha) as Hn. destruct (writer_sync w) as [w' [[]|err|]]; intros Hq; done.
Qed.

Lemma flush_no_sync_pending cfg (l : Log F) ev A c tk :
  log_ok cfg l A c tk -> env_ok ev -> pending_ok l -> pending_ok (fst (flush_no_sync l ev)).
Proof.
  intros Hl Hev Hp. unfold flush_no_sync. pose proof (ensure_writable_ok cfg l ev A c tk Hl Hev) as He. pose proof (ensure_pending l ev Hp) as Hp2.
  destruct (ensure_writable l ev) as [l1 [[]|err|]]; cbn [keeps fst] in *; [|done|done]. destruct (l_active l1) as [[ino w]|] eqn:Ha; [|done].
  pose proof (log_ok_active _ _ _ _ _ _ He Ha) as Hn. destruct (SegmentWriter.flush_pending w) as [w' [[]|err|]]; intros Hq; by destruct (Hq Hn).
Qed.

Lemma prepare_pending cfg (l : Log F) ev A c tk :
  log_ok cfg l A c tk -> env_ok ev -> pending_ok l -> pending_ok (fst (prepare_async_sync l ev)).
Proof.
  intros Hl Hev Hp. unfold prepare_async_sync. pose proof (ensure_writable_ok cfg l ev A c tk Hl Hev) as He. pose proof (ensure_pending l ev Hp) as Hp2.
  destruct (ensure_writable l ev) as [l1 [[]|err|]]; cbn [keeps fst] in *; [|done|done]. destruct (l_active l1) as [[ino w]|] eqn:Ha; [|done].
  destruct (negb _); [done|]. pose proof (log_ok_active _ _ _ _ _ _ He Ha) as Hn.
  destruct (SegmentWriter.flush_pending w) as [w' [[]|err|]]; intros Hq; first [by destruct (Hq Hn)|by destruct (Hq eq_refl)].
Qed.

(** *** The barrier of another thread, in its two halves *)

Lemma complete_sync_ok cfg (l : Log F) A c tk t :
  log_ok cfg l A c tk -> tk_target t <= Z.of_nat c -> pending_ok l ->
  log_ok cfg (complete_async_sync l t) A c tk /\ pending_ok (complete_async_sync l t).
Proof.
  intros (ss & tail & Hi & HA & Hc & Htk) Ht Hp. unfold complete_async_sync. destruct (is_writable l); [|split; [by exists ss, tail|done]].
  cbn [negb orb]. destruct (Z.leb_spec (tk_target t) (l_synced_offset l)) as [|Hlt]; [split; [by exists ss, tail|done]|]. split.
  - exists ss, tail. split; [|split; [done|split; [done|by destruct tk]]]. pose proof (li_synced _ _ _ _ Hi). unfold durable_count in Hc.
    destruct Hi as [H1' H2' H3' H4' H5' H6' H7']. split; try done. cbn. lia.
  - intros Hq. specialize (Hp Hq). pose proof (li_next _ _ _ _ Hi) as [Hn _]. pose proof (durable_le _ _ _ _ Hi). unfold durable_count in *. lia.
Qed.

Lemma freeze_ok cfg (l : Log F) A c tk :
  log_ok cfg l A c tk -> log_ok cfg (freeze_after_external_sync_failure l) A c tk.
Proof.
  intros (ss & tail & Hi & HA & Hc & Ht). exists ss, tail. unfold freeze_after_external_sync_failure.
  destruct (l_active l) as [[ino w]|] eqn:Ha.
  - split; [apply pending_none_inv; [apply drop_inv; [done|congruence]|done]|]. split; [done|]. split; [done|].
    destruct (active_parts _ _ _ _ _ _ Hi Ha) as (n & fl & bu & tm & -> & _). by destruct tk.
  - assert (Hd : drop_active l = l) by (unfold drop_active, log_disk; rewrite Ha; destruct l; cbn in *; by subst).
    rewrite Hd. split; [by apply pending_none_inv|]. by destruct tk.
Qed.

(** The sync itself: what the ticket covers is durable from then on. *)
Lemma external_sync_ok cfg (l : Log F) A c t :
  log_ok cfg l A c (Some t) -> l_active l <> None -> l_active_id l = tk_segment_id t ->
  let '(l', ok) := external_sync l t in
  log_ok cfg l' A (if ok then max c (Z.to_nat (tk_target t)) else c) None /\ same_heads l l' /\ l_pending_roll l' = l_pending_roll l /\
  is_writable l' = is_writable l.
Proof.
  intros (ss & tail & Hi & HA & Hc & Htk) Hna Heq. cbn in Htk. unfold external_sync. destruct (l_active l) as [[ino w]|] eqn:Ha; [|done].
  rewrite (proj2 (Z.eqb_eq _ _) Heq). destruct (active_parts _ _ _ _ _ _ Hi Ha) as (n & fl & bu & tm & -> & Ht & Hh & Hw & Hx & Hid & Hp).
  unfold ticket_ok in Htk. rewrite Ha in Htk. unfold sync_data_only. destruct (sync_data (w_file w)) as [f ok] eqn:Hs.
  pose proof (sync_only_inv _ _ _ _ _ _ Hw Hx Hs) as Hw'. pose proof (sync_file_exact _ _ _ Hx Hs) as Hx'.
  assert (Hnl : (n <= length fl)%nat) by (apply (wi_durable _ _ _ _ Hw)). pose proof (li_next _ _ _ _ Hi) as [Hn Hns].
  cbn [tail_entries] in HA, Hn. pose proof (li_synced _ _ _ _ Hi) as Hsy. cbn [tail_confirmed] in Hsy.
  unfold durable_count in Hc. cbn [tail_confirmed] in Hc.
  assert (Hgo : forall m, (n <= m <= length fl)%nat -> (c <= length (concat ss) + m)%nat ->
    writer_inv (with_file w f (w_pending w) (w_pending_base w)) fl bu (Some m) ->
    forall c', (c' <= length (concat ss) + m)%nat -> log_ok cfg (with_active l (Some (ino, with_file w f (w_pending w) (w_pending_base w)))) A c' None).
  { intros m Hm _ Hwm c' Hc'. exists ss, (Some (fl ++ bu, m)). split; [|split; [done|split; [done|done]]].
    eapply (active_step cfg l _ ss _ n ino w _ fl bu m); try done; [eapply content_confirmed, Hi|cbn; lia]. }
  destruct ok; (split; [|unfold is_writable; by rewrite Ha]).
  - apply (Hgo (length fl)); [lia|lia|done|]. destruct Htk as [|(_ & Hle & Hf)]; [lia|]. rewrite (wi_base _ _ _ _ Hw), length_app in *.
    pose proof (frames_take_short _ fl bu (Z.to_nat (tk_target t) - length (concat ss)) eq_refl ltac:(lia) ltac:(lia)). lia.
  - apply (Hgo n); [lia|lia|done|lia].
Qed.

(** A ticket of a file that is no longer written to. *)
Lemma stale_ticket_ok cfg (l : Log F) A c t :
  log_ok cfg l A c (Some t) -> (l_active l = None \/ l_active_id l <> tk_segment_id t) -> is_writable l = true ->
  log_ok cfg l A (max c (Z.to_nat (tk_target t))) None.
Proof.
  intros (ss & tail & Hi & HA & Hc & Htk) Hst Hw. exists ss, tail. split; [done|]. split; [done|]. split; [|done]. cbn in Htk.
  unfold ticket_ok, durable_count, is_writable in *. pose proof (li_active _ _ _ _ Hi) as Hact. destruct (l_active l) as [[ino w]|] eqn:Ha.
  - destruct tail as [[E n]|]; [|done]. destruct (active_parts _ _ _ _ _ _ Hi Ha) as (_ & _ & _ & _ & _ & _ & _ & _ & _ & Hid & _).
    destruct Hst as [|Hne]; [done|]. destruct Htk as [|(? & _)]; [lia|congruence].
  - destruct tail as [[E n]|]; [by rewrite Hact in Hw|lia].
Qed.

(** *** A frozen log stays frozen *)

Lemma frozen_parts (l : Log F) : is_writable l = false <-> l_active l = None /\ l_pending_roll l = None.
Proof. unfold is_writable. destruct (l_active l), (l_pending_roll l); naive_solver. Qed.

Lemma ensure_frozen (l : Log F) ev : is_writable l = false -> ensure_writable l ev = (l, Ok tt).
Proof. intros [_ Hp]%frozen_parts. unfold ensure_writable. by rewrite Hp. Qed.

Lemma append_frozen (l : Log F) ev source allow_roll : is_writable l = false -> is_writable (fst (append_inner l ev source allow_roll)) = false.
Proof.
  intros Hf. unfold append_inner. cbv zeta. destruct (_ && _ && _); [done|]. set (l1 := if negb _ then with_meters l _ else l).
  assert (Hf1 : is_writable l1 = false) by (unfold l1; by destruct (negb _)). clearbody l1. destruct (_ && _ && _); [done|].
  rewrite ensure_frozen by done. by rewrite (proj1 (proj1 (frozen_parts l1) Hf1)).
Qed.

Lemma log_sync_frozen (l : Log F) ev : is_writable l = false -> log_sync l ev = (l, Err WriterFrozen).
Proof. intros Hf. unfold log_sync. rewrite ensure_frozen by done. by rewrite (proj1 (proj1 (frozen_parts l) Hf)). Qed.

Lemma flush_no_sync_frozen (l : Log F) ev : is_writable l = false -> flush_no_sync l ev = (l, Err WriterFrozen).
Proof. intros Hf. unfold flush_no_sync. rewrite ensure_frozen by done. by rewrite (proj1 (proj1 (frozen_parts l) Hf)). Qed.

Lemma prepare_frozen (l : Log F) ev : is_writable l = false -> prepare_async_sync l ev = (l, Err WriterFrozen).
Proof. intros Hf. unfold prepare_async_sync. rewrite ensure_frozen by done. by rewrite (proj1 (proj1 (frozen_parts l) Hf)). Qed.

Lemma freeze_frozen (l : Log F) : is_writable (freeze_after_external_sync_failure l) = false.
Proof. done. Qed.

(** *** A barrier that returns leaves nothing behind, unless it froze the log *)

Lemma create_refused (l : Log F) ev id bs bo e : snd (create_or_defer_segment l ev id bs bo) = Err e -> l_active (fst (create_or_defer_segment l ev id bs bo)) = l_active l.
Proof.
  unfold create_or_defer_segment. destruct (dir_create_new _ _ _ _) as [d [ino|]]; [|done].
  destruct (create_writer _ _) as [file [w|e'|]]; try done. destruct (writer_sync w) as [w' [[]|e'|]]; try done. by destruct (dir_sync _ _) as [d' []].
Qed.

Lemma ensure_refused cfg (l : Log F) ev A c tk e :
  log_ok cfg l A c tk -> snd (ensure_writable l ev) = Err e -> l_active (fst (ensure_writable l ev)) = None.
Proof.
  intros Hl. unfold ensure_writable. destruct (l_pending_roll l) eqn:Hp; [|done]. intros Hc. rewrite (create_refused _ _ _ _ _ _ Hc).
  destruct (l_active l) as [x|] eqn:Ha; [|done]. pose proof (log_ok_active _ _ _ _ _ _ Hl Ha). congruence.
Qed.

(** With no active file only a deferred roll keeps the log writable. *)
Lemma idle_settled (l : Log F) : pending_ok l -> l_active l = None -> is_writable l = true -> l_synced_offset l = l_next_offset l.
Proof. intros Hp Ha Hw. apply Hp. unfold is_writable in Hw. rewrite Ha in Hw. by destruct (l_pending_roll l). Qed.

Lemma log_sync_settles cfg (l : Log F) ev A c tk :
  log_ok cfg l A c tk -> env_ok ev -> pending_ok l -> is_writable (fst (log_sync l ev)) = true ->
  l_synced_offset (fst (log_sync l ev)) = l_next_offset (fst (log_sync l ev)).
Proof.
  intros Hl Hev Hp. pose proof (ensure_refused cfg l ev A c tk) as Hr. pose proof (ensure_writable_ok cfg l ev A c tk Hl Hev) as He.
  pose proof (ensure_pending l ev Hp) as Hp2. pose proof (proj1 (log_sync_ok cfg l ev A c tk Hl Hev)) as Hk. unfold log_sync in *.
  destruct (ensure_writable l ev) as [l1 [[]|err|]]; cbn [keeps fst snd] in *; [|apply idle_settled; eauto|done].
  destruct (l_active l1) as [[ino w]|] eqn:Ha; [|by apply idle_settled]. pose proof (log_ok_active _ _ _ _ _ _ He Ha) as Hn.
  destruct (writer_sync w) as [w' [[]|err|]]; cbn [keeps fst snd] in *; [done| |done]. unfold is_writable. cbn. by rewrite Hn.
Qed.

(** A barrier is staged only where records wait for one. *)
Lemma prepare_some (l : Log F) ev t :
  snd (prepare_async_sync l ev) = Ok (Some t) -> l_synced_offset l <> l_next_offset l /\ is_writable l = true.
Proof.
  destruct (is_writable l) eqn:Hw; [|by rewrite prepare_frozen]. unfold prepare_async_sync. pose proof (ensure_heads l ev) as [Hs Hn].
  destruct (ensure_writable l ev) as [l1 [[]|e|]]; cbn [fst] in *; [|done|done]. destruct (l_active l1) as [[ino w]|]; [|done].
  unfold has_unsynced_records. rewrite Hs, Hn. destruct (Z.eqb_spec (l_synced_offset l) (l_next_offset l)); [by rewrite andb_false_r|done].
Qed.

Lemma prepare_settles cfg (l : Log F) ev A c tk :
  log_ok cfg l A c tk -> env_ok ev -> pending_ok l ->
  match prepare_async_sync l ev with
  | (l', Ok (Some t)) => tk_target t = l_next_offset l'
  | (l', Ok None) => l_synced_offset l' = l_next_offset l'
  | (l', Err _) => is_writable l' = true -> l_synced_offset l' = l_next_offset l'
  | (_, Panic) => False
  end.
Proof.
  intros Hl Hev Hp. pose proof (ensure_refused cfg l ev A c tk) as Hr. pose proof (ensure_writable_ok cfg l ev A c tk Hl Hev) as He.
  pose proof (ensure_pending l ev Hp) as Hp2. pose proof (prepare_async_sync_ok cfg l ev A c tk Hl Hev) as Hk. unfold prepare_async_sync in *.
  destruct (ensure_writable l ev) as [l1 [[]|err|]]; cbn [keeps fst snd] in *; [|intros; apply idle_settled; eauto|done].
  destruct (l_active l1) as [[ino w]|] eqn:Ha; [|by intros; apply idle_settled].
  destruct (has_unsynced_records l1) eqn:Hu; cbn [negb] in *.
  - by destruct (SegmentWriter.flush_pending w) as [w' [[]|err|]].
  - unfold has_unsynced_records, is_writable in Hu. rewrite Ha in Hu. cbn in Hu. lia.
Qed.
End log_facts.

(** ** What the registries remember

    Every offset a registry can answer with is below [n]. *)

Definition index_below (n : Z) (index : gmap (list Z) (Z * Z)) : Prop := forall id o t, index !! id = Some (o, t) -> o < n.
Definition dedup_below (n : Z) (r : DedupRegistry) : Prop := forall pid w, dr_producers r !! pid = Some w -> index_below n (pw_index w).
Definition seqs_below (n : Z) (r : ProducerSeqRegistry) : Prop :=
  forall pid p s, sr_producers r !! pid = Some p -> ps_last_seq p = Some s -> ps_last_offset p < n.

Lemma index_below_sub (n : Z) (i i' : gmap (list Z) (Z * Z)) : i' ⊆ i -> index_below n i -> index_below n i'.
Proof. intros Hs Hi id o t Hx. eapply Hi, lookup_weaken; eauto. Qed.

Lemma forget_insertion_sub (i : gmap (list Z) (Z * Z)) id t : forget_insertion i id t ⊆ i.
Proof. unfold forget_insertion. destruct (i !! id) as [[o u]|]; [|done]. destruct (_ =? _); [apply delete_subseteq|done]. Qed.

Lemma expire_front_sub wn now order : forall index ev, snd (fst (expire_front wn now order index ev)) ⊆ index.
Proof.
  induction order as [|[id t] order IH]; intros index ev; cbn [expire_front]; [done|]. destruct (_ <? _); [done|].
  etransitivity; [apply IH|apply forget_insertion_sub].
Qed.

Lemma overflow_front_sub n order : forall index, snd (overflow_front n order index) ⊆ index.
Proof.
  induction order as [|[id t] order IH]; intros index; cbn [overflow_front]; [done|]. destruct (_ <? _)%nat; [|done].
  etransitivity; [apply IH|apply forget_insertion_sub].
Qed.

Lemma evict_expired_sub w wn now : pw_index (fst (evict_expired w wn now)) ⊆ pw_index w.
Proof.
  unfold evict_expired. destruct (wn =? 0); [done|]. pose proof (expire_front_sub wn now (pw_order w) (pw_index w) false) as Hs.
  by destruct (expire_front _ _ _ _ _) as [[o i] b].
Qed.

Lemma evict_overflow_sub w n : pw_index (evict_overflow w n) ⊆ pw_index w.
Proof.
  unfold evict_overflow. pose proof (overflow_front_sub n (pw_order w) (pw_index w)) as Hs. by destruct (overflow_front _ _ _) as [o i].
Qed.

Lemma dedup_touch_below n r pid epoch now :
  dedup_below n r -> let '(r', w) := dedup_touch r pid epoch now in dedup_below n r' /\ index_below n (pw_index w).
Proof.
  intros Hr. unfold dedup_touch. set (r1 := dedup_make_room r pid now).
  assert (H1 : dedup_below n r1).
  { unfold r1, dedup_make_room. destruct (dr_producers r !! pid); [done|]. destruct (_ <? _)%nat; [done|].
    pose proof (evict_loop_subset pw_last_touch (dc_max_producers (dr_config r)) (reap_empty_windows r now) (dr_lru r)) as Hs.
    destruct (evict_loop _ _ _ _) as [ps lru]. intros q w Hw. cbn in Hs, Hw. pose proof (lookup_weaken _ _ _ _ Hw Hs) as Hq.
    apply reap_lookup in Hq as (w0 & H0 & _ & [->| ->]); [eauto|]. eapply index_below_sub; [apply evict_expired_sub|eauto]. }
  assert (Hw : index_below n (pw_index (window_touched (default (window_new epoch now) (dr_producers r1 !! pid)) now))).
  { destruct (dr_producers r1 !! pid) as [w|] eqn:Hp; [exact (H1 pid w Hp)|]. intros id o t Hx. cbn in Hx. by rewrite lookup_empty in Hx. }
  split; [|done]. intros q w. cbn. destruct (decide (q = pid)) as [->|Hne]; [rewrite lookup_insert_eq; by intros [= <-]|].
  rewrite lookup_insert_ne by done. apply H1.
Qed.

Lemma dedup_put_below n r pid w : dedup_below n r -> index_below n (pw_index w) -> dedup_below n (dedup_put r pid w).
Proof.
  intros Hr Hw q v. cbn. destruct (decide (q = pid)) as [->|Hne]; [rewrite lookup_insert_eq; by intros [= <-]|].
  rewrite lookup_insert_ne by done. apply Hr.
Qed.

Lemma dedup_check_below n r pid epoch id now :
  dedup_below n r ->
  let '(r', d) := dedup_check r pid epoch id now in dedup_below n r' /\ match d with DedupDuplicate o => o < n | _ => True end.
Proof.
  intros Hr. unfold dedup_check. pose proof (dedup_touch_below n r pid epoch now Hr) as Ht.
  destruct (dedup_touch r pid epoch now) as [r1 w]. destruct Ht as [H1 Hw]. destruct (epoch <? pw_epoch w); [done|].
  set (w1 := if pw_epoch w <? epoch then _ else w).
  assert (Hw1 : index_below n (pw_index w1)) by (unfold w1; destruct (_ <? _); [intros i o t Hx; cbn in Hx; by rewrite lookup_empty in Hx|done]).
  pose proof (evict_expired_sub w1 (dc_window_nanos (dr_config r)) now) as He. destruct (evict_expired w1 _ now) as [w2 b]. cbn in He.
  set (w3 := evict_overflow w2 _). assert (Hw3 : index_below n (pw_index w3)).
  { eapply index_below_sub; [apply evict_overflow_sub|]. by eapply index_below_sub. }
  split; [by apply dedup_put_below|]. destruct (pw_index w3 !! id) as [[o t]|] eqn:Hx; [eauto|done].
Qed.

Lemma dedup_record_below n r pid id offset now : dedup_below n r -> offset < n -> dedup_below n (dedup_record r pid id offset now).
Proof.
  intros Hr Ho. unfold dedup_record. pose proof (dedup_touch_below n r pid 0 now Hr) as Ht.
  destruct (dedup_touch r pid 0 now) as [r1 w]. destruct Ht as [H1 Hw]. set (w1 := mk_window _ _ _ _).
  assert (Hw1 : index_below n (pw_index w1)).
  { intros i o t. cbn. destruct (decide (i = id)) as [->|Hne]; [rewrite lookup_insert_eq; by intros [= <- <-]|].
    rewrite lookup_insert_ne by done. apply Hw. }
  pose proof (evict_expired_sub w1 (dc_window_nanos (dr_config r)) now) as He. destruct (evict_expired w1 _ now) as [w2 b]. cbn [fst] in He.
  apply dedup_put_below; [done|]. eapply index_below_sub; [apply evict_overflow_sub|]. by eapply index_below_sub.
Qed.

Lemma seq_put_below n r pid p now :
  seqs_below n r -> (forall s, ps_last_seq p = Some s -> ps_last_offset p < n) -> seqs_below n (seq_put r pid p now).
Proof.
  intros Hr Hp q v s. cbn. destruct (decide (q = pid)) as [->|Hne]; [rewrite lookup_insert_eq; intros [= <-]; apply Hp|].
  rewrite lookup_insert_ne by done. apply Hr.
Qed.

Lemma seq_make_room_below n r pid : seqs_below n r -> seqs_below n (seq_make_room r pid).
Proof.
  intros Hr. unfold seq_make_room. destruct (sr_producers r !! pid); [done|].
  pose proof (evict_loop_subset ps_last_touch (sr_max_producers r) (sr_producers r) (sr_lru r)) as Hs.
  destruct (evict_loop _ _ _ _) as [ps lru]. intros q p s Hq. apply Hr with q. cbn in *. by eapply lookup_weaken.
Qed.

(** The entry of a producer, created when it is missing. *)
Lemma seq_entry_below n r pid epoch o now s :
  seqs_below n r -> ps_last_seq (seq_touched (default (mk_pseq epoch None o now) (sr_producers r !! pid)) now) = Some s ->
  ps_last_offset (seq_touched (default (mk_pseq epoch None o now) (sr_producers r !! pid)) now) < n.
Proof. intros Hr. destruct (sr_producers r !! pid) as [p|] eqn:Hp; [exact (Hr pid p s Hp)|done]. Qed.

Lemma seq_check_below n r pid epoch seq now :
  seqs_below n r ->
  let '(r', d) := seq_check r pid epoch seq now in seqs_below n r' /\ match d with SeqDuplicate o => o < n | _ => True end.
Proof.
  intros Hr. unfold seq_check. pose proof (seq_make_room_below n r pid Hr) as H1. set (r1 := seq_make_room r pid) in *.
  pose proof (fun s => seq_entry_below n r1 pid epoch 0 now s H1) as He. set (e := seq_touched _ now) in *. clearbody e.
  destruct (epoch <? ps_epoch e); [split; [by apply seq_put_below|done]|]. destruct (ps_epoch e <? epoch); [split; [by apply seq_put_below|done]|].
  split; [by apply seq_put_below|]. unfold seq_decide. destruct (ps_last_seq e) as [last|] eqn:Hl; [|done].
  destruct (seq <=? last); [eauto|]. by destruct (_ =? _).
Qed.

Lemma seq_record_below n r pid epoch seq offset now :
  seqs_below n r -> offset < n -> seqs_below n (seq_record r pid epoch seq offset now).
Proof.
  intros Hr Ho. unfold seq_record. pose proof (seq_make_room_below n r pid Hr) as H1. set (r1 := seq_make_room r pid) in *.
  pose proof (fun s => seq_entry_below n r1 pid epoch offset now s H1) as He. set (e := seq_touched _ now) in *. clearbody e.
  destruct (epoch <? ps_epoch e); [by apply seq_put_below|]. apply seq_put_below; [done|]. intros s.
  destruct (ps_epoch e <? epoch); cbn; [by intros|]. destruct (match ps_last_seq e with None => true | Some last => last <? seq end); [by intros|eauto].
Qed.

Lemma dedup_below_mono n n' r : n <= n' -> dedup_below n r -> dedup_below n' r.
Proof. intros Hn Hr pid w Hw id o t Hx. specialize (Hr pid w Hw id o t Hx). lia. Qed.
Lemma seqs_below_mono n n' r : n <= n' -> seqs_below n r -> seqs_below n' r.
Proof. intros Hn Hr pid p s Hp Hs. specialize (Hr pid p s Hp Hs). lia. Qed.

(** ** What the engine keeps *)

Section engine_facts.
Context `{Crc32c} `{Xxh3} `{!Streaming} `{CrashDisk F}.
Implicit Types (e : ProduceEngine (F := F)).

(** What may be published: a record that encodes and is no longer than the loss
    cap of recovery, with checksums of its own body or none. *)
Definition publishable (cfg : LogConfig) (m : Append) : Prop :=
  forall seq, is_u64 seq -> encodable (view_of m seq) [] [] /\ Z.of_nat (entry_len (entry_of (view_of m seq) [] [])) <= loss_cap cfg.
Definition sums_ok (m : Append) (precomputed : option BodyChecksums) : Prop := exists pre, precomputed = checksums_for (view_of m 0) pre.

(** The entry a published message becomes: its delay request is resolved. *)
Definition stored (k : ProduceConfig) (m : Append) (offset : Z) (en : Entry) : Prop :=
  exists now patched, resolve_delay_headers (ap_headers m) now (pc_max_delay_ms k) = Ok patched /\
    en = entry_of (view_of (with_headers m (stored_headers (ap_headers m) patched)) offset) [] [].

Lemma with_own_headers m : with_headers m (ap_headers m) = m.
Proof. by destruct m. Qed.

Lemma patched_headers h now max h' :
  bytes_ok h -> resolve_delay_headers h now max = Ok (Some h') -> bytes_ok h' /\ length h' = length h.
Proof.
  intros Hb Hr. apply resolve_ok in Hr as [(? & _)|(pre & body & post & -> & _ & Hbody & _ & Hh)]; [done|]. apply Some_inj in Hh as ->.
  unfold bytes_ok in *. apply Forall_app in Hb as [Hpre Hb]. apply Forall_app in Hb as [_ Hb]. apply Forall_app in Hb as [_ Hpost].
  split; [|by rewrite !length_app, length_le_bytes, Hbody]. apply Forall_app_2; [done|].
  apply Forall_app_2; [repeat (constructor; [ulia|]); constructor|]. apply Forall_app_2; [apply le_bytes_ok|done].
Qed.

Lemma patched_publishable cfg m now max h' :
  publishable cfg m -> resolve_delay_headers (ap_headers m) now max = Ok (Some h') -> publishable cfg (with_headers m h').
Proof.
  intros Hp Hr seq Hs. destruct (Hp seq Hs) as [((Hf & Hsq & Ht) & (Hb & Hsub) & Henc) Hlen].
  unfold body_of in Hb. cbn [view_of v_key v_headers v_payload] in Hb. apply Forall_app in Hb as [Hbk Hb]. apply Forall_app in Hb as [Hbh Hbp].
  destruct (patched_headers _ _ _ _ Hbh Hr) as [Hb' Hl']. split.
  - split; [done|]. split; [|done]. split; [|done]. unfold body_of. cbn. by repeat apply Forall_app_2.
  - cut (entry_len (entry_of (view_of (with_headers m h') seq) [] []) = entry_len (entry_of (view_of m seq) [] [])); [by intros ->|].
    cbn. unfold frame_len, xxh3_size, body_of. cbn [derived view_of with_headers v_key v_headers v_payload ap_key ap_headers ap_payload v_flags].
    unfold body_of. cbn [v_key v_headers v_payload]. by rewrite !length_app, Hl'.
Qed.

(** The log with its records, the registries below its end. *)
Record engine_ok (cfg : LogConfig) e (A : list Entry) (c : nat) (tk : option SyncTicket) : Prop := {
  eo_log : log_ok cfg (pe_log e) A c tk;
  eo_synced : l_synced_offset (pe_log e) <= Z.of_nat c;
  eo_pending : pending_ok (pe_log e);
  eo_dedup : dedup_below (Z.of_nat (length A)) (pe_dedup e);
  eo_seqs : seqs_below (Z.of_nat (length A)) (pe_producer_seq e)
}.

(** Only the log of the engine changed. *)
Lemma engine_log_step cfg e e' A A' c tk tk' :
  engine_ok cfg e A c tk -> log_ok cfg (pe_log e') A' c tk' -> pending_ok (pe_log e') -> A `prefix_of` A' ->
  pe_dedup e' = pe_dedup e -> pe_producer_seq e' = pe_producer_seq e ->
  exists c', (c <= c')%nat /\ engine_ok cfg e' A' c' tk'.
Proof.
  intros [_ _ _ Hd Hs] Hl Hp HA Hed Hes. exists (max c (Z.to_nat (l_synced_offset (pe_log e')))). split; [lia|]. apply prefix_length in HA.
  split; [by apply log_ok_synced|lia|done| |]; [rewrite Hed; eapply dedup_below_mono|rewrite Hes; eapply seqs_below_mono]; [|done| |done]; lia.
Qed.

Lemma engine_ok_head cfg e A c tk : engine_ok cfg e A c tk -> append_head e = Z.of_nat (length A).
Proof. intros He. by eapply log_ok_next, He. Qed.

(** The engine went on to [e']: it holds the records [A'], no fewer of them are
    durable, and a frozen log is still frozen. *)
Definition advances (cfg : LogConfig) e (c : nat) e' (A' : list Entry) (tk' : option SyncTicket) : Prop :=
  (log_is_writable e' = true -> log_is_writable e = true) /\ exists c', (c <= c')%nat /\ engine_ok cfg e' A' c' tk'.

Lemma log_advances cfg e e' A A' c tk tk' :
  engine_ok cfg e A c tk -> log_ok cfg (pe_log e') A' c tk' -> pending_ok (pe_log e') -> A `prefix_of` A' ->
  pe_dedup e' = pe_dedup e -> pe_producer_seq e' = pe_producer_seq e ->
  (is_writable (pe_log e) = false -> is_writable (pe_log e') = false) -> advances cfg e c e' A' tk'.
Proof.
  intros He Hl Hp HA Hd Hs Hf. split; [|by eapply engine_log_step]. unfold log_is_writable. intros Hw.
  destruct (is_writable (pe_log e)); [done|]. rewrite Hf in Hw; done.
Qed.

(** The registries may answer with what was just recorded. *)
Lemma dedup_advances cfg e c e' A tk r :
  advances cfg e c e' A tk -> dedup_below (Z.of_nat (length A)) r -> advances cfg e c (set_dedup e' r) A tk.
Proof. intros [Hw (c' & Hc & [])] Hr. split; [done|]. exists c'. by split. Qed.
Lemma seqs_advances cfg e c e' A tk r :
  advances cfg e c e' A tk -> seqs_below (Z.of_nat (length A)) r -> advances cfg e c (set_seqs e' r) A tk.
Proof. intros [Hw (c' & Hc & [])] Hr. split; [done|]. exists c'. by split. Qed.

(** What is not the log nor a registry may change. *)
Lemma engine_same cfg e e' A c tk :
  pe_log e' = pe_log e -> pe_dedup e' = pe_dedup e -> pe_producer_seq e' = pe_producer_seq e ->
  engine_ok cfg e A c tk -> engine_ok cfg e' A c tk.
Proof. intros Hl Hd Hs []. by split; rewrite ?Hl, ?Hd, ?Hs. Qed.
Lemma same_advances cfg e e' A c tk : pe_log e' = pe_log e -> engine_ok cfg e' A c tk -> advances cfg e c e' A tk.
Proof. intros Hl He. split; [unfold log_is_writable; by rewrite Hl|by exists c]. Qed.

(** *** Appends *)

(** The entry written for [m], at the end. *)
Lemma append_source cfg k m precomputed now patched seq :
  publishable cfg m -> sums_ok m precomputed -> is_u64 seq ->
  resolve_delay_headers (ap_headers m) now (pc_max_delay_ms k) = Ok patched ->
  let '(m', pre) := match patched with None => (m, precomputed) | Some headers => (with_headers m headers, None) end in
  exists en, stored k m seq en /\ source_writes cfg (SrcEncode m' pre [] []) seq en.
Proof.
  intros Hp [b ->] Hu Hr. destruct patched as [h|].
  - destruct (patched_publishable _ _ _ _ _ Hp Hr _ Hu) as [Hen Hsz]. eexists. split; [by exists now, (Some h)|].
    by apply (encode_source_writes cfg _ _ _ false).
  - destruct (Hp _ Hu) as [Hen Hsz]. eexists. split; [exists now, None; split; [done|]; unfold stored_headers; cbn; by rewrite with_own_headers|].
    change (checksums_for (view_of m 0) b) with (checksums_for (view_of m seq) b). by apply encode_source_writes.
Qed.

Definition appended (cfg : LogConfig) (k : ProduceConfig) e (A : list Entry) (c : nat) (tk : option SyncTicket) (m : Append) (offset : Z) e' : Prop :=
  offset = Z.of_nat (length A) /\ exists en, stored k m offset en /\ advances cfg e c e' (A ++ [en]) tk.

Lemma append_checked_ok cfg k e sm m precomputed A c tk :
  engine_ok cfg e A c tk -> env_ok (sm_env sm) -> publishable cfg m -> sums_ok m precomputed ->
  match append_no_sync_checked k e sm m precomputed [] with
  | (e', Ok offset) => appended cfg k e A c tk m offset e' /\ pe_dedup e' = pe_dedup e /\ pe_producer_seq e' = pe_producer_seq e
  | (e', Err _) => advances cfg e c e' A tk
  | (_, Panic) => False
  end.
Proof.
  intros He Hev Hp Hs. assert (Hl : is_u64 (Z.of_nat (length A))).
  { destruct (eo_log _ _ _ _ _ He) as (ss & tail & Hi & <- & _). pose proof (co_len _ _ _ (li_content _ _ _ _ Hi)). ulia. }
  assert (Hid : advances cfg e c e A tk) by (split; [done|by exists c]). unfold append_no_sync_checked.
  destruct (resolve_delay_headers _ _ _) as [patched|[]|] eqn:Hr; [|done|done|]; [|unfold resolve_delay_headers in Hr; repeat (case_match; try done)].
  pose proof (append_source cfg k m precomputed _ patched _ Hp Hs Hl Hr) as Hsrc.
  destruct (match patched with None => _ | Some _ => _ end) as [m' pre]. destruct Hsrc as (en & Hen & Hsrc).
  pose proof (append_inner_ok cfg _ (sm_env sm) _ true A c tk en (eo_log _ _ _ _ _ He) Hev Hsrc) as Ha.
  pose proof (append_inner_pending cfg _ (sm_env sm) _ true A c tk en (eo_log _ _ _ _ _ He) Hev Hsrc (eo_pending _ _ _ _ _ He)) as Hpe.
  pose proof (append_frozen (pe_log e) (sm_env sm) (SrcEncode m' pre [] []) true) as Hf.
  unfold append_with_policy. destruct (append_inner _ _ _ _) as [l [off|err|]]; cbn [fst] in *; [| |done].
  - destruct Ha as [Ha ->]. split; [|done]. split; [done|]. exists en. split; [done|]. eapply log_advances; try done. by eexists.
  - destruct (is_at_capacity _); by eapply log_advances.
Qed.

(** What a produce that is not refused becomes; a duplicate names an offset that
    is taken. *)
Definition append_outcome (cfg : LogConfig) (k : ProduceConfig) e (A : list Entry) (c : nat) (tk : option SyncTicket) (m : Append)
    (r : ProduceEngine (F := F) * res AppendOutcome EngineError) : Prop :=
  match r with
  | (e', Ok (Appended offset)) => appended cfg k e A c tk m offset e'
  | (e', Ok (Duplicate offset)) => offset < Z.of_nat (length A) /\ advances cfg e c e' A tk
  | (e', Ok _) | (e', Err _) => advances cfg e c e' A tk
  | (_, Panic) => False
  end.

Lemma appended_weaken cfg k e e0 A c tk m offset e' :
  pe_log e0 = pe_log e -> appended cfg k e0 A c tk m offset e' -> appended cfg k e A c tk m offset e'.
Proof. intros Hl (-> & en & Hen & Hw & Hc). split; [done|]. exists en. split; [done|]. unfold advances, log_is_writable in *. by rewrite <- Hl. Qed.

Lemma advances_weaken cfg e e0 c e' A tk : pe_log e0 = pe_log e -> advances cfg e0 c e' A tk -> advances cfg e c e' A tk.
Proof. unfold advances, log_is_writable. by intros ->. Qed.

Lemma append_seq_ok cfg k e sm m pid epoch seq precomputed A c tk :
  engine_ok cfg e A c tk -> env_ok (sm_env sm) -> publishable cfg m -> sums_ok m precomputed ->
  append_outcome cfg k e A c tk m (append_no_sync_seq k e sm m pid epoch seq precomputed).
Proof.
  intros He Hev Hp Hs. unfold append_no_sync_seq. pose proof (seq_check_below _ _ pid epoch seq (sm_now sm) (eo_seqs _ _ _ _ _ He)) as Hb.
  destruct (seq_check _ _ _ _ _) as [r d]. destruct Hb as [Hb Hd].
  assert (He1 : engine_ok cfg (set_seqs e r) A c tk) by (by destruct He; split).
  destruct d as [|offset|ep|ex]; cbn [append_outcome]; [|split; [done|]| |]; try (apply same_advances; [done|]; by apply (engine_same cfg (set_seqs e r))).
  unfold ensure_producer_seq_checkpoint. set (e1 := if pe_seq_checkpoint (set_seqs e r) then _ else _).
  assert (Hcase : (exists e2, e1 = (e2, Ok tt) /\ pe_log e2 = pe_log e /\ engine_ok cfg e2 A c tk) \/
      (exists err, e1 = (set_seqs e r, Err err))).
  { unfold e1. destruct (pe_seq_checkpoint _); [left; by eexists|]. destruct (sm_checkpoint_ok sm); [left|right; by eexists].
    eexists. split; [done|]. split; [done|]. by apply (engine_same cfg (set_seqs e r)). }
  clearbody e1. destruct Hcase as [(e2 & -> & Hl2 & He2)|(err & ->)]; [|by apply same_advances].
  pose proof (append_checked_ok cfg k e2 sm m precomputed A c tk He2 Hev Hp Hs) as Hk.
  destruct (append_no_sync_checked _ _ _ _ _ _) as [e3 [offset|err|]]; cbn [append_outcome]; [|by eapply advances_weaken|done].
  destruct Hk as [(-> & en & Hen & Hadv) _]. apply (appended_weaken cfg k e e2); [done|]. split; [done|]. exists en. split; [done|].
  apply seqs_advances; [done|]. destruct Hadv as [_ (c' & _ & He')]. rewrite length_app in *. apply seq_record_below; [|cbn; lia].
  pose proof (eo_seqs _ _ _ _ _ He') as Hx. by rewrite length_app in Hx.
Qed.

Lemma append_dedup_ok cfg k e sm m dedup precomputed A c tk :
  engine_ok cfg e A c tk -> env_ok (sm_env sm) -> publishable cfg m -> sums_ok m precomputed ->
  append_outcome cfg k e A c tk m (append_no_sync_dedup_checked k e sm m dedup precomputed).
Proof.
  intros He Hev Hp Hs. unfold append_no_sync_dedup_checked. destruct dedup as [[pid epoch id [seq|]]|]; cbn [rq_seq rq_producer_id rq_epoch rq_msg_id].
  - by apply append_seq_ok.
  - pose proof (dedup_check_below _ _ pid epoch id (sm_now sm) (eo_dedup _ _ _ _ _ He)) as Hb.
    destruct (dedup_check _ _ _ _ _) as [r d]. destruct Hb as [Hb Hd].
      assert (He0 : engine_ok cfg (set_dedup e r) A c tk) by (by destruct He; split).
    destruct d as [out|offset|ep]; cbn [append_outcome]; [|split; [done|]|]; try (apply same_advances; [done|]; by apply (engine_same cfg (set_dedup e r))).
    set (e1 := if out then _ else _). assert (Hl1 : pe_log e1 = pe_log e) by (unfold e1; by destruct out).
    assert (He1 : engine_ok cfg e1 A c tk) by (apply (engine_same cfg (set_dedup e r)); unfold e1; by destruct out). clearbody e1.
    pose proof (append_checked_ok cfg k e1 sm m precomputed A c tk He1 Hev Hp Hs) as Hk.
    destruct (append_no_sync_checked _ _ _ _ _ _) as [e3 [offset|err|]]; cbn [append_outcome]; [|by eapply advances_weaken|done].
    destruct Hk as [(-> & en & Hen & Hadv) _]. apply (appended_weaken cfg k e e1); [done|]. split; [done|]. exists en. split; [done|].
    apply dedup_advances; [done|]. destruct Hadv as [_ (c' & _ & He')]. rewrite length_app in *. apply dedup_record_below; [|cbn; lia].
    pose proof (eo_dedup _ _ _ _ _ He') as Hx. by rewrite length_app in Hx.
  - pose proof (append_checked_ok cfg k e sm m precomputed A c tk He Hev Hp Hs) as Hk.
    destruct (append_no_sync_checked _ _ _ _ _ _) as [e3 [offset|err|]]; cbn [append_outcome]; [apply Hk|done|done].
Qed.

(** *** Barriers *)

(** Everything accepted is synced. *)
Definition settled e : Prop := durable_offset e = append_head e.

Lemma engine_ok_count cfg e A c tk : engine_ok cfg e A c tk -> (c <= length A)%nat.
Proof. intros [(ss & tail & Hi & HA & Hc & _) _ _ _ _]. pose proof (durable_le _ _ _ _ Hi) as Hd. rewrite HA in Hd. lia. Qed.

Lemma settled_all cfg e A c tk : engine_ok cfg e A c tk -> settled e -> c = length A.
Proof.
  intros He Hs. pose proof (engine_ok_count _ _ _ _ _ He). pose proof (engine_ok_head _ _ _ _ _ He). pose proof (eo_synced _ _ _ _ _ He).
  unfold settled, durable_offset in Hs. lia.
Qed.

Lemma barrier_ok cfg e sm A c tk :
  engine_ok cfg e A c tk -> env_ok (sm_env sm) ->
  match log_sync (pe_log e) (sm_env sm) with
  | (l, Ok _) => advances cfg e c (set_log e l) A tk /\ settled (set_log e l)
  | (l, Err _) => advances cfg e c (set_log e l) A tk /\ (is_writable l = true -> settled (set_log e l))
  | (_, Panic) => False
  end.
Proof.
  intros He Hev. destruct (log_sync_ok cfg _ _ _ _ _ (eo_log _ _ _ _ _ He) Hev) as [Hk Hok].
  pose proof (log_sync_pending cfg _ _ _ _ _ (eo_log _ _ _ _ _ He) Hev (eo_pending _ _ _ _ _ He)) as Hp.
  pose proof (log_sync_settles cfg _ _ _ _ _ (eo_log _ _ _ _ _ He) Hev (eo_pending _ _ _ _ _ He)) as Hs.
  assert (Hf : is_writable (pe_log e) = false -> is_writable (fst (log_sync (pe_log e) (sm_env sm))) = false)
    by (intros Hf; by rewrite log_sync_frozen).
  destruct (log_sync _ _) as [l [[]|err|]]; cbn [keeps fst snd] in *; [| |done].
  - split; [by eapply log_advances|]. unfold settled, durable_offset, append_head. cbn. rewrite (Hok eq_refl). symmetry. by eapply log_ok_next.
  - split; [by eapply log_advances|done].
Qed.

Lemma advances_barrier cfg e c e' A tk n t : advances cfg e c e' A tk -> advances cfg e c (set_barrier e' n t) A tk.
Proof. intros [Hw (c' & Hc & [])]. split; [done|]. exists c'. by split. Qed.

Lemma flush_ok cfg e sm A c tk :
  engine_ok cfg e A c tk -> env_ok (sm_env sm) ->
  match flush_no_sync (pe_log e) (sm_env sm) with (l, Ok _) | (l, Err _) => advances cfg e c (set_log e l) A tk | (_, Panic) => False end.
Proof.
  intros He Hev. pose proof (flush_no_sync_ok cfg _ _ _ _ _ (eo_log _ _ _ _ _ He) Hev) as Hk.
  pose proof (flush_no_sync_pending cfg _ _ _ _ _ (eo_log _ _ _ _ _ He) Hev (eo_pending _ _ _ _ _ He)) as Hp.
  assert (Hf : is_writable (pe_log e) = false -> is_writable (fst (flush_no_sync (pe_log e) (sm_env sm))) = false)
    by (intros Hf; by rewrite flush_no_sync_frozen).
  destruct (flush_no_sync _ _) as [l [[]|err|]]; cbn [keeps fst] in *; [by eapply log_advances..|done].
Qed.

(** At the sync level a commit settles the log, though its tail may fail. *)
Lemma commit_batch_ok cfg k e sm A c tk :
  engine_ok cfg e A c tk -> env_ok (sm_env sm) ->
  match commit_batch k e sm with
  | (e', Ok _) => advances cfg e c e' A tk /\ (pc_durability_level k = LevelSync -> settled e')
  | (e', Err _) => advances cfg e c e' A tk /\ (pc_durability_level k = LevelSync -> log_is_writable e' = true -> settled e')
  | (_, Panic) => False
  end.
Proof.
  intros He Hev. unfold commit_batch, commit_durability_barrier, commit_tail_after_async_completion.
  set (force := match pc_durability_level k with LevelSync => true | _ => _ end).
  assert (Hforce : pc_durability_level k = LevelSync -> force = true) by (unfold force; by intros ->). clearbody force. destruct force.
  - pose proof (barrier_ok cfg e sm A c tk He Hev) as Hb. destruct (log_sync _ _) as [l [[]|err|]]; cbn [storage_error map_err]; [| |done].
    + destruct Hb as [Hadv Hs]. destruct (sm_tail_ok sm); (split; [by apply advances_barrier|done]).
    + by destruct Hb.
  - pose proof (flush_ok cfg e sm A c tk He Hev) as Hb. destruct (flush_no_sync _ _) as [l [[]|err|]]; cbn [storage_error map_err]; [| |done].
    + destruct (sm_tail_ok sm); (split; [done|]); intros Hl; by specialize (Hforce Hl).
    + split; [done|]. intros Hl. by specialize (Hforce Hl).
Qed.

Lemma force_sync_ok cfg e sm A c tk :
  engine_ok cfg e A c tk -> env_ok (sm_env sm) ->
  match force_sync e sm with (e', Ok _) | (e', Err _) => advances cfg e c e' A tk | (_, Panic) => False end.
Proof.
  intros He Hev. unfold force_sync. pose proof (barrier_ok cfg e sm A c tk He Hev) as Hb.
  destruct (log_sync _ _) as [l [[]|err|]]; cbn [storage_error map_err]; [apply advances_barrier|..]; apply Hb.
Qed.

Lemma begin_async_ok cfg e sm A c tk :
  engine_ok cfg e A c tk -> env_ok (sm_env sm) ->
  match begin_async_commit e sm with
  | (e', Ok (Some t)) => advances cfg e c e' A (Some t) /\ tk_target t = Z.of_nat (length A)
  | (e', Ok None) => advances cfg e c e' A tk /\ settled e'
  | (e', Err _) => advances cfg e c e' A tk /\ (log_is_writable e' = true -> settled e')
  | (_, Panic) => False
  end.
Proof.
  intros He Hev. unfold begin_async_commit. pose proof (prepare_async_sync_ok cfg _ _ _ _ _ (eo_log _ _ _ _ _ He) Hev) as Hk.
  pose proof (prepare_pending cfg _ _ _ _ _ (eo_log _ _ _ _ _ He) Hev (eo_pending _ _ _ _ _ He)) as Hp.
  pose proof (prepare_settles cfg _ _ _ _ _ (eo_log _ _ _ _ _ He) Hev (eo_pending _ _ _ _ _ He)) as Hs.
  assert (Hf : is_writable (pe_log e) = false -> is_writable (fst (prepare_async_sync (pe_log e) (sm_env sm))) = false)
    by (intros Hf; by rewrite prepare_frozen).
  destruct (prepare_async_sync _ _) as [l [[t|]|err|]]; cbn [storage_error map_err fst] in *; [| | |done];
    (split; [by eapply log_advances|]); [|done..]. rewrite Hs. by eapply log_ok_next.
Qed.

Lemma complete_async_ok cfg e sm A c tk t n :
  engine_ok cfg e A c tk -> tk_target t <= Z.of_nat c ->
  advances cfg e c (complete_async_commit e sm t n) A tk /\
  (log_is_writable e = true -> tk_target t <= durable_offset (complete_async_commit e sm t n)).
Proof.
  intros He Ht. destruct (complete_sync_ok cfg _ _ _ _ t (eo_log _ _ _ _ _ He) Ht (eo_pending _ _ _ _ _ He)) as [Hl Hp].
  unfold complete_async_commit. split.
  - apply advances_barrier. eapply log_advances; try done. cbn. intros Hf. unfold complete_async_sync. by rewrite Hf.
  - unfold log_is_writable, durable_offset. cbn. unfold complete_async_sync. intros ->. cbn.
    destruct (Z.leb_spec (tk_target t) (l_synced_offset (pe_log e))); [done|]. cbn. lia.
Qed.

Lemma fail_async_ok cfg e A c tk :
  engine_ok cfg e A c tk -> engine_ok cfg (fail_async_commit e) A c tk /\ log_is_writable (fail_async_commit e) = false.
Proof. intros [Hl Hs Hp Hd Hq]. split; [|done]. split; [by eapply freeze_ok|done| |done|done]. intros Hn. by destruct (Hn eq_refl). Qed.

End engine_facts.
