(* ===== verification/Actor.v ===== *)
(** * The append actor ([actor.rs], [flusher.rs], [produce_gate.rs])

    One thread owns the engine.  It takes commands from a channel, appends the
    produces among them without a sync, parks their replies, and releases a reply
    when a barrier that covers it has returned.  Two loops do so: the legacy one
    issues the barrier itself at the end of each pass; the pipelined one hands it
    to a flusher thread, at most one at a time, and goes on appending.

    What runs beside the actor is an oracle: before each call that reaches the
    engine, the channel or the flusher the model asks it for the clock, the
    answers of the disk, faults to arm on the active file, the commands that have
    arrived and what the flusher did since.  Every interleaving of the threads at
    that grain is an oracle.  Two ghost lists, which no operation reads, record
    the produces the actor took and the replies it sent.

    Left out are the watchdog and the wake-up of long polls, which only observe,
    and the pools that recycle buffers and channels.  A job is a function on the
    engine; a shutdown syncs the log (the checkpoints of the groups are not the
    actor's). *)

From S2P Require Import Prelude Bytes Records Codec Disk SegmentFormat SegmentScan SegmentWriter Log LogRecovery LogSafety.
From S2P Require Import Lru Dedup ProducerSeq Ttl Backpressure ProduceLog.

(** ** The fast-reject gate *)

Record ProduceCapGate := mk_gate {
  pg_cap : Z;
  pg_bytes : Z;
  pg_fast_rejects : nat;
  pg_reconciled : nat;
  pg_l0_shed : nat;
  pg_l0_reconciled : nat
}.

Definition gate_new (cap : Z) : ProduceCapGate := mk_gate cap 0 0 0 0 0.
Definition publish (g : ProduceCapGate) (bytes : Z) : ProduceCapGate :=
  mk_gate (pg_cap g) bytes (pg_fast_rejects g) (pg_reconciled g) (pg_l0_shed g) (pg_l0_reconciled g).
Definition disengage (g : ProduceCapGate) : ProduceCapGate := publish g 0.
Definition publish_drop_new_reap_aware (g : ProduceCapGate) (durable_record_bytes : Z) (reap_possible : bool) : ProduceCapGate :=
  if reap_possible then disengage g else publish g durable_record_bytes.
Definition would_shed (g : ProduceCapGate) : bool :=
  if pg_cap g =? 0 then false else (pg_cap g <=? pg_bytes g) && (0 <? pg_bytes g).
Definition record_fast_reject (g : ProduceCapGate) : ProduceCapGate :=
  mk_gate (pg_cap g) (pg_bytes g) (S (pg_fast_rejects g)) (pg_reconciled g) (pg_l0_shed g) (pg_l0_reconciled g).
Definition record_l0_shed (g : ProduceCapGate) : ProduceCapGate :=
  mk_gate (pg_cap g) (pg_bytes g) (pg_fast_rejects g) (pg_reconciled g) (S (pg_l0_shed g)) (pg_l0_reconciled g).
Definition take_unreconciled_fast_rejects (g : ProduceCapGate) : ProduceCapGate * nat :=
  (mk_gate (pg_cap g) (pg_bytes g) (pg_fast_rejects g) (pg_fast_rejects g) (pg_l0_shed g) (pg_l0_reconciled g),
   (pg_fast_rejects g - pg_reconciled g)%nat).
Definition take_unreconciled_l0_sheds (g : ProduceCapGate) : ProduceCapGate * nat :=
  (mk_gate (pg_cap g) (pg_bytes g) (pg_fast_rejects g) (pg_reconciled g) (pg_l0_shed g) (pg_l0_shed g),
   (pg_l0_shed g - pg_l0_reconciled g)%nat).

Section actor.
Context `{Crc32c} `{Xxh3} `{RandomAccessFile F}.

(** ** Data *)

Record OwnedAppend := mk_owned {
  oa_append : Append;
  oa_body_checksums : option BodyChecksums;
  oa_dedup : option DedupRequest;
  oa_enqueue_monotonic_nanos : Z;
  oa_fire_and_forget : bool
}.

Inductive ProduceOutcome :=
| OutAppended (offset : Z)
| OutAppendedDuplicate (offset : Z)
| OutFenced
| OutOutOfOrder
| OutAtCapacity
| OutShed
| OutWalHeadroomShed
| OutFireAndForgetAppended (offset : Z)
| OutFireAndForgetDropped
| OutFatal (e : EngineError)
| OutFailed (e : EngineError).

Inductive PendingOutcome :=
| PendAppended (offset : Z)
| PendDuplicate (offset : Z)
| PendFireAndForget (offset : Z).

Definition released_outcome (o : PendingOutcome) : ProduceOutcome :=
  match o with
  | PendAppended offset => OutAppended offset
  | PendDuplicate offset => OutAppendedDuplicate offset
  | PendFireAndForget offset => OutFireAndForgetAppended offset
  end.

(** A reply channel is its number; a produce without one is Level 0. *)
Inductive Command :=
| Produce (append : OwnedAppend) (reply : nat)
| ProduceNoReply (append : OwnedAppend)
| ProduceNoReplyBatch (appends : list OwnedAppend)
| Run (job : ProduceEngine (F := F) -> ProduceEngine (F := F))
| Shutdown.

Record FlushJob := mk_job { fj_seq : Z; fj_commit : SyncTicket }.
Record SyncDone := mk_done { sd_seq : Z; sd_ok : bool; sd_fsync_nanos : Z }.

(** The flusher thread: whether it lives, the job it has taken or will take, and
    the completions the actor has not received. *)
Record Flusher := mk_flusher { fl_alive : bool; fl_job : option FlushJob; fl_done : list SyncDone }.

Record World := mk_world {
  w_engine : ProduceEngine (F := F);
  w_flusher : Flusher;
  w_queue : list Command;
  w_open : bool;
  w_gate : ProduceCapGate;
  w_time : nat;
  w_panicked : bool;
  w_taken : list (option nat * OwnedAppend);
  w_sent : list (nat * ProduceOutcome)
}.

Inductive FlusherStep := FlWaits | FlSyncs | FlDies.

Record Answer := mk_answer {
  an_seam : Seam (F := F);
  an_arm : F -> F;
  an_flusher : FlusherStep;
  an_stale_ok : bool;
  an_fsync_nanos : Z;
  an_arrivals : list Command;
  an_close : bool;
  an_fast_rejects : nat;
  an_l0_sheds : nat;
  an_linger : nat
}.

Definition set_engine (w : World) (e : ProduceEngine) : World :=
  mk_world e (w_flusher w) (w_queue w) (w_open w) (w_gate w) (w_time w) (w_panicked w) (w_taken w) (w_sent w).
Definition set_flusher (w : World) (f : Flusher) : World :=
  mk_world (w_engine w) f (w_queue w) (w_open w) (w_gate w) (w_time w) (w_panicked w) (w_taken w) (w_sent w).
Definition set_queue (w : World) (q : list Command) : World :=
  mk_world (w_engine w) (w_flusher w) q (w_open w) (w_gate w) (w_time w) (w_panicked w) (w_taken w) (w_sent w).
Definition set_gate (w : World) (g : ProduceCapGate) : World :=
  mk_world (w_engine w) (w_flusher w) (w_queue w) (w_open w) g (w_time w) (w_panicked w) (w_taken w) (w_sent w).
Definition panic (w : World) : World :=
  mk_world (w_engine w) (w_flusher w) (w_queue w) (w_open w) (w_gate w) (w_time w) true (w_taken w) (w_sent w).
Definition note_taken (w : World) (reply : option nat) (append : OwnedAppend) : World :=
  mk_world (w_engine w) (w_flusher w) (w_queue w) (w_open w) (w_gate w) (w_time w) (w_panicked w) (w_taken w ++ [(reply, append)]) (w_sent w).

(** [reply.send], on a channel that is there. *)
Definition send_outcome (w : World) (reply : option nat) (outcome : ProduceOutcome) : World :=
  match reply with
  | Some id =>
      mk_world (w_engine w) (w_flusher w) (w_queue w) (w_open w) (w_gate w) (w_time w) (w_panicked w) (w_taken w)
        (w_sent w ++ [(id, outcome)])
  | None => w
  end.

(** ** The flusher *)

(** [file.sync_data()] on the file of the ticket: the active one, or one that
    was sealed or dropped since, whose bytes the log no longer depends on. *)
Definition flusher_sync (l : Log F) (t : SyncTicket) (stale_ok : bool) : Log F * bool :=
  match l_active l with
  | Some _ => if l_active_id l =? tk_segment_id t then external_sync l t else (l, stale_ok)
  | None => (l, stale_ok)
  end.

Definition flusher_run (w : World) (a : Answer) : World :=
  match fl_alive (w_flusher w), fl_job (w_flusher w) with
  | true, Some job =>
      let '(l, ok) := flusher_sync (pe_log (w_engine w)) (fj_commit job) (an_stale_ok a) in
      set_flusher (set_engine w (set_log (w_engine w) l))
        (mk_flusher true None (fl_done (w_flusher w) ++ [mk_done (fj_seq job) ok (an_fsync_nanos a)]))
  | _, _ => w
  end.

Definition flusher_step (w : World) (a : Answer) : World :=
  match an_flusher a with
  | FlWaits => w
  | FlSyncs => flusher_run w a
  | FlDies => set_flusher w (mk_flusher false None (fl_done (w_flusher w)))
  end.

Context (k : ProduceConfig) (oracle : nat -> Answer).

(** What happened outside since the last question. *)
Definition outside (w : World) (a : Answer) : World :=
  let w := mk_world (set_log (w_engine w) (arm_active (pe_log (w_engine w)) (an_arm a))) (w_flusher w)
    (w_queue w ++ (if w_open w then an_arrivals a else [])) (w_open w && negb (an_close a))
    (Nat.iter (an_l0_sheds a) record_l0_shed (Nat.iter (an_fast_rejects a) record_fast_reject (w_gate w)))
    (S (w_time w)) (w_panicked w) (w_taken w) (w_sent w) in
  flusher_step w a.

Definition ask (w : World) : World * Answer := let a := oracle (w_time w) in (outside w a, a).

(** Run an engine call; a panic ends the thread. *)
Definition finish_call {A} (w : World) (r : ProduceEngine * res A EngineError) : World * res A EngineError :=
  let '(e, r) := r in match r with Panic => (panic (set_engine w e), Panic) | _ => (set_engine w e, r) end.

(** ** The gate's refresh *)

Definition reconcile_sheds (w : World) (now : Z) : World :=
  let '(g, fast) := take_unreconciled_fast_rejects (w_gate w) in
  let '(g, l0) := take_unreconciled_l0_sheds g in
  let e := record_fast_reject_sheds (w_engine w) now fast in
  set_gate (set_engine w (set_backpressure e (record_fire_and_forget_sheds (pe_backpressure e) (Z.of_nat l0)))) g.

(** With the drop-new policy and no retention the byte total is published. *)
Definition refresh_cap_gate (w : World) : World :=
  let '(w, a) := ask w in
  let w := reconcile_sheds w (sm_now (an_seam a)) in
  set_gate w (publish_drop_new_reap_aware (w_gate w) (durable_record_bytes (pe_log (w_engine w))) false).

(** ** Fatal replies *)

Fixpoint fatal_fan_replies (w : World) (replies : list (option nat)) (first : option EngineError) : World :=
  match replies with
  | [] => w
  | None :: replies => fatal_fan_replies w replies first
  | Some id :: replies =>
      fatal_fan_replies (send_outcome w (Some id) (OutFatal (default (Storage WriterFrozen) first))) replies None
  end.

(** ** A produce

    What differs between the loops is where a produce parks, how the batch is
    drained and whether admission waits for the disk. *)

Class ProduceBatch (B : Type) := {
  throttle_admit : World -> B -> Z -> World * B;
  drain_for_headroom : World -> B -> World * B;
  park : World -> B -> PendingOutcome -> option nat -> World * B
}.

(** The controllers read the clock each for itself. *)
Definition clock (w : World) : World * Z := let '(w, a) := ask w in (w, sm_now (an_seam a)).
Definition count_shed_request (w : World) : World :=
  let '(w, now) := clock w in
  set_engine w (set_backpressure (w_engine w) (retry_budget_record_shed (pe_backpressure (w_engine w)) now)).
Definition count_accepted_request (w : World) : World :=
  let '(w, now) := clock w in
  set_engine w (set_backpressure (w_engine w) (retry_budget_record_accept (pe_backpressure (w_engine w)) now)).

(** The append and what becomes of its result. *)
Definition append_and_park {B} `{ProduceBatch B} (w : World) (b : B) (append : OwnedAppend) (reply : option nat) : World * B :=
  let '(w, a) := ask w in
  match finish_call w (append_no_sync_dedup_checked k (w_engine w) (an_seam a) (oa_append append) (oa_dedup append) (oa_body_checksums append)) with
  | (w, Ok (Appended offset)) =>
      park (count_accepted_request w) b (if oa_fire_and_forget append then PendFireAndForget offset else PendAppended offset) reply
  | (w, Ok (Duplicate offset)) => park w b (PendDuplicate offset) reply
  | (w, Ok (Fenced _)) => (send_outcome w reply OutFenced, b)
  | (w, Ok (OutOfOrder _)) => (send_outcome w reply OutOutOfOrder, b)
  | (w, Err e) =>
      if is_at_capacity e then (send_outcome (count_shed_request w) reply OutAtCapacity, b)
      else if is_fatal e then (send_outcome w reply (OutFatal e), b)
      else (send_outcome w reply (OutFailed e), b)
  | (w, Panic) => (w, b)
  end.

(** Admission by the fsync headroom: drain, look again, shed. *)
Definition headroom_then_append {B} `{ProduceBatch B} (w : World) (b : B) (append : OwnedAppend) (reply : option nat) : World * B :=
  let record_bytes := body_len (oa_append append) in
  if wal_headroom_enabled (pe_backpressure (w_engine w)) && negb (wal_headroom_admit (w_engine w) record_bytes) then
    let '(w, b) := drain_for_headroom w b in
    if wal_headroom_admit (w_engine w) record_bytes then append_and_park w b append reply
    else
      let w := set_engine w (set_backpressure (w_engine w) (record_wal_headroom_shed (pe_backpressure (w_engine w)))) in
      (send_outcome (count_shed_request w) reply OutWalHeadroomShed, b)
  else append_and_park w b append reply.

(** The bucket of the fire-and-forget tier. *)
Definition bucket_admits (w : World) (append : OwnedAppend) : World * bool :=
  if oa_fire_and_forget append then
    let '(w, now) := clock w in
    let '(bp, ok) := fire_and_forget_admit (pe_backpressure (w_engine w)) now (Z.of_nat (length (ap_payload (oa_append append)))) in
    (set_engine w (set_backpressure (w_engine w) bp), ok)
  else (w, true).

Definition codel_sheds (w : World) (append : OwnedAppend) : World * bool :=
  let '(w, now) := clock w in
  let '(bp, shed) := codel_admit (pe_backpressure (w_engine w)) now (oa_enqueue_monotonic_nanos append) in
  (set_engine w (set_backpressure (w_engine w) bp), shed).

Definition process_produce {B} `{ProduceBatch B} (w : World) (b : B) (append : OwnedAppend) (reply : option nat) : World * B :=
  let w := note_taken w reply append in
  let '(w, b) := throttle_admit w b (body_len (oa_append append)) in
  let '(w, admitted) := bucket_admits w append in
  if negb admitted then (send_outcome w reply OutFireAndForgetDropped, b)
  else
    let '(w, shed) := codel_sheds w append in
    if shed then (send_outcome (count_shed_request w) reply OutShed, b)
    else headroom_then_append w b append reply.

Definition process_all {B} `{ProduceBatch B} (w : World) (b : B) (appends : list OwnedAppend) : World * B :=
  foldl (fun wb append => process_produce (fst wb) (snd wb) append None) (w, b) appends.

(** ** The end of the actor *)

(** Produces behind a shutdown are refused. *)
Definition reply_closing (w : World) (cmd : Command) : World :=
  match cmd with
  | Produce append id => send_outcome (note_taken w (Some id) append) (Some id) OutAtCapacity
  | _ => w
  end.
Definition drain_shutdown_replies (w : World) (tail : list Command) : World :=
  let w := foldl reply_closing w tail in
  let '(w, _) := ask w in
  set_queue (foldl reply_closing w (w_queue w)) [].

(** The barrier of [checkpoint_all_groups]. *)
Definition shutdown_barrier (w : World) : World :=
  let '(w, a) := ask w in fst (finish_call w (force_sync (w_engine w) (an_seam a))).

(** A job, with the sheds folded in before it and the gate refreshed after. *)
Definition run_job (w : World) (job : ProduceEngine -> ProduceEngine) : World :=
  let '(w, now) := clock w in
  let w := reconcile_sheds w now in
  refresh_cap_gate (set_engine w (job (w_engine w))).

Definition queue_empty (w : World) : World :=
  let '(w, now) := clock w in set_engine w (set_backpressure (w_engine w) (codel_queue_empty (pe_backpressure (w_engine w)) now)).

(** Take every command that is queued. *)
Definition drain_channel (w : World) : World * list Command := let '(w, _) := ask w in (set_queue w [], w_queue w).

Inductive Received := Got (cmd : Command) | NothingYet | Disconnected.

(** [try_recv]; a blocking [recv] is one that is tried again. *)
Definition receive (w : World) : World * Received :=
  let '(w, _) := ask w in
  match w_queue w with
  | cmd :: rest => (set_queue w rest, Got cmd)
  | [] => (w, if w_open w then NothingYet else Disconnected)
  end.

(** ** The legacy loop *)

Record PendingProduce := mk_pending { pp_outcome : PendingOutcome; pp_reply : option nat }.

Definition flush_pending (w : World) (pending : list PendingProduce) : World * list PendingProduce :=
  match pending with
  | [] => (w, [])
  | _ =>
      let '(w, a) := ask w in
      match finish_call w (commit_batch k (w_engine w) (an_seam a)) with
      | (w, Ok _) => (foldl (fun w p => send_outcome w (pp_reply p) (released_outcome (pp_outcome p))) w pending, [])
      | (w, Err e) => (fatal_fan_replies w (pp_reply <$> pending) (Some e), [])
      | (w, Panic) => (w, pending)
      end
  end.

#[export] Instance legacy_batch : ProduceBatch (list PendingProduce) := {
  throttle_admit w pending _ := (w, pending);
  drain_for_headroom := flush_pending;
  park w pending outcome reply := (w, pending ++ [mk_pending outcome reply])
}.

Inductive ActorState (B : Type) :=
| Running (w : World) (batch : B) (carryover : option Command)
| Exited (w : World) (batch : B).
Arguments Running {B} _ _ _.
Arguments Exited {B} _ _.

(** The commands of one pass; a shutdown ends the actor. *)
Fixpoint legacy_commands (w : World) (pending : list PendingProduce) (commands : list Command)
    : World * list PendingProduce * bool :=
  match commands with
  | [] => (w, pending, false)
  | cmd :: commands =>
      match cmd with
      | Produce append id => let '(w, pending) := process_produce w pending append (Some id) in legacy_commands w pending commands
      | ProduceNoReply append => let '(w, pending) := process_produce w pending append None in legacy_commands w pending commands
      | ProduceNoReplyBatch appends => let '(w, pending) := process_all w pending appends in legacy_commands w pending commands
      | Run job => let '(w, pending) := flush_pending w pending in legacy_commands (run_job w job) pending commands
      | Shutdown =>
          let '(w, pending) := flush_pending w pending in
          (drain_shutdown_replies (shutdown_barrier w) commands, pending, true)
      end
  end.

(** One turn of [run_actor]. *)
Definition legacy_turn (s : ActorState (list PendingProduce)) : ActorState (list PendingProduce) :=
  match s with
  | Exited w pending => Exited w pending
  | Running w pending _ =>
      match receive w with
      | (w, NothingYet) => Running w pending None
      | (w, Disconnected) => let '(w, pending) := flush_pending w pending in Exited w pending
      | (w, Got first) =>
          let '(w, rest) := drain_channel w in
          let '(w, pending, stop) := legacy_commands w pending (first :: rest) in
          if stop then Exited w pending
          else
            let '(w, pending) := flush_pending w pending in
            Running (queue_empty (refresh_cap_gate w)) pending None
      end
  end.

(** ** The pipelined loop *)

Record ParkedAck := mk_parked { pk_outcome : PendingOutcome; pk_reply : option nat; pk_covering_target : Z }.
Record InFlight := mk_in_flight { if_seq : Z; if_commit : SyncTicket }.

Record Pipeline := mk_pipeline {
  pl_parked : list ParkedAck;
  pl_in_flight : option InFlight;
  pl_next_seq : Z;
  pl_req_open : bool
}.

Definition pipeline_new : Pipeline := mk_pipeline [] None 0 true.
Definition with_parked (p : Pipeline) (parked : list ParkedAck) : Pipeline :=
  mk_pipeline parked (pl_in_flight p) (pl_next_seq p) (pl_req_open p).
Definition with_flight (p : Pipeline) (flight : option InFlight) : Pipeline :=
  mk_pipeline (pl_parked p) flight (pl_next_seq p) (pl_req_open p).

Fixpoint release_prefix (durable : Z) (w : World) (parked : list ParkedAck) : World * list ParkedAck :=
  match parked with
  | [] => (w, [])
  | p :: rest =>
      if pk_covering_target p <=? durable
      then release_prefix durable (send_outcome w (pk_reply p) (released_outcome (pk_outcome p))) rest
      else (w, parked)
  end.

Definition release_ready (w : World) (p : Pipeline) : World * Pipeline :=
  let '(w, parked) := release_prefix (durable_offset (w_engine w)) w (pl_parked p) in (w, with_parked p parked).

Definition reconcile_writer_freeze (w : World) (p : Pipeline) (first : option EngineError) : World * Pipeline :=
  if log_is_writable (w_engine w) then (w, p)
  else
    let '(w, p) := release_ready w p in
    (fatal_fan_replies w (pk_reply <$> pl_parked p) first, with_parked p []).

Definition on_flusher_death (w : World) (p : Pipeline) : World * Pipeline :=
  let p := with_flight p None in
  reconcile_writer_freeze (set_engine w (fail_async_commit (w_engine w))) p (Some (Storage StIo)).

(** Send a job to the flusher; the channel has room, as none is outstanding. *)
Definition dispatch (w : World) (p : Pipeline) (commit : SyncTicket) : World * Pipeline :=
  let seq := wrap_inc (pl_next_seq p) in
  let p := mk_pipeline (pl_parked p) (Some (mk_in_flight seq commit)) seq (pl_req_open p) in
  if pl_req_open p && fl_alive (w_flusher w)
  then (set_flusher w (mk_flusher true (Some (mk_job seq commit)) (fl_done (w_flusher w))), p)
  else on_flusher_death w p.

Definition maybe_issue (w : World) (p : Pipeline) : World * Pipeline :=
  match pl_in_flight p with
  | Some _ => (w, p)
  | None =>
      let '(w, a) := ask w in
      match finish_call w (begin_async_commit (w_engine w) (an_seam a)) with
      | (w, Ok None) => (w, p)
      | (w, Ok (Some commit)) => dispatch w p commit
      | (w, Err e) => reconcile_writer_freeze w p (Some e)
      | (w, Panic) => (w, p)
      end
  end.

Definition commit_tail (w : World) (p : Pipeline) : World * Pipeline :=
  let '(w, a) := ask w in
  match finish_call w (commit_tail_after_async_completion (w_engine w) (an_seam a)) with
  | (w, Ok _) => reconcile_writer_freeze w p None
  | (w, Err e) => reconcile_writer_freeze (set_engine w (fail_async_commit (w_engine w))) p (Some e)
  | (w, Panic) => (w, p)
  end.

Definition on_completion (w : World) (p : Pipeline) (done : SyncDone) : World * Pipeline :=
  match pl_in_flight p with
  | None => (w, p)
  | Some flight =>
      let p := with_flight p None in
      if sd_ok done then
        let '(w, a) := ask w in
        let w := set_engine w (complete_async_commit (w_engine w) (an_seam a) (if_commit flight) (sd_fsync_nanos done)) in
        let '(w, p) := maybe_issue w p in
        let '(w, p) := release_ready w p in
        let '(w, p) := commit_tail w p in
        (refresh_cap_gate w, p)
      else reconcile_writer_freeze (set_engine w (fail_async_commit (w_engine w))) p (Some (Storage StIo))
  end.

(** [done_rx.try_recv()] *)
Definition take_done (w : World) : World * option SyncDone :=
  match fl_done (w_flusher w) with
  | d :: rest => (set_flusher w (mk_flusher (fl_alive (w_flusher w)) (fl_job (w_flusher w)) rest), Some d)
  | [] => (w, None)
  end.

(** The loop ends when the channel is empty; two completions can follow each
    other while nothing is appended, so three rounds are enough. *)
Fixpoint poll_loop (fuel : nat) (w : World) (p : Pipeline) : World * Pipeline :=
  match fuel with
  | O => (w, p)
  | S fuel =>
      let '(w, _) := ask w in
      match take_done w with
      | (w, Some done) => let '(w, p) := on_completion w p done in poll_loop fuel w p
      | (w, None) =>
          if fl_alive (w_flusher w) then (w, p)
          else match pl_in_flight p with Some _ => on_flusher_death w p | None => (w, p) end
      end
  end.
Definition poll_completions (w : World) (p : Pipeline) : World * Pipeline := poll_loop 3 w p.

(** [done_rx.recv()]: what blocks ends when the flusher is done, or dead. *)
Definition wait_one_completion (w : World) (p : Pipeline) : World * Pipeline :=
  let '(w, a) := ask w in
  let w := match fl_done (w_flusher w) with [] => flusher_run w a | _ => w end in
  match take_done w with
  | (w, Some done) => on_completion w p done
  | (w, None) => on_flusher_death w p
  end.

Fixpoint wait_all (fuel : nat) (w : World) (p : Pipeline) : World * Pipeline :=
  match fuel, pl_in_flight p with
  | S fuel, Some _ => let '(w, p) := wait_one_completion w p in wait_all fuel w p
  | _, _ => (w, p)
  end.

(** The inline barrier, when something is unsynced. *)
Definition barrier_if_unsynced (w : World) (p : Pipeline) : World * Pipeline :=
  if has_unsynced (w_engine w) then
    let '(w, a) := ask w in
    match finish_call w (commit_batch k (w_engine w) (an_seam a)) with
    | (w, Err e) => reconcile_writer_freeze w p (Some e)
    | (w, _) => (w, p)
    end
  else (w, p).

Definition commit_inline (w : World) (p : Pipeline) : World * Pipeline :=
  let '(w, p) := barrier_if_unsynced w p in release_ready w p.

Definition quiesce_to_durable (w : World) (p : Pipeline) : World * Pipeline :=
  let '(w, p) := wait_all 3 w p in
  let '(w, p) := barrier_if_unsynced w p in
  let '(w, p) := release_ready w p in
  reconcile_writer_freeze w p None.

Fixpoint throttle_loop (fuel : nat) (w : World) (p : Pipeline) (record_bytes : Z) : World * Pipeline :=
  match fuel with
  | O => (w, p)
  | S fuel =>
      let unsynced := unsynced_bytes (w_engine w) in
      if (unsynced =? 0) || (sat_add64 unsynced record_bytes <=? pc_sync_max_dirty_bytes k) then (w, p)
      else
        let '(w, p) := match pl_in_flight p with Some _ => (w, p) | None => maybe_issue w p end in
        match pl_in_flight p with
        | None => (w, p)
        | Some _ => let '(w, p) := wait_one_completion w p in throttle_loop fuel w p record_bytes
        end
  end.

Definition pipeline_throttle (w : World) (p : Pipeline) (record_bytes : Z) : World * Pipeline :=
  if pc_sync_max_dirty_bytes k =? 0 then (w, p) else throttle_loop 4 w p record_bytes.

Definition pipeline_park (w : World) (p : Pipeline) (outcome : PendingOutcome) (reply : option nat) : World * Pipeline :=
  let covering_target := append_head (w_engine w) in
  if covering_target <=? durable_offset (w_engine w) then (send_outcome w reply (released_outcome outcome), p)
  else (w, with_parked p (pl_parked p ++ [mk_parked outcome reply covering_target])).

#[export] Instance pipeline_batch : ProduceBatch Pipeline := {
  throttle_admit := pipeline_throttle;
  drain_for_headroom := quiesce_to_durable;
  park := pipeline_park
}.

Definition FIRST_DISPATCH_LINGER_CAP_NANOS : Z := 200000.

(** The linger: at most the commands that arrive before the deadline, of which
    the first that is no produce ends it. *)
Fixpoint linger_loop (before_deadline : nat) (w : World) (p : Pipeline) : World * Pipeline * option Command :=
  match before_deadline with
  | O => (w, p, None)
  | S n =>
      match receive w with
      | (w, Got (Run job)) => let '(w, p) := maybe_issue w p in (w, p, Some (Run job))
      | (w, Got Shutdown) => let '(w, p) := maybe_issue w p in (w, p, Some Shutdown)
      | (w, Got cmd) =>
          let '(w, p) :=
            match cmd with
            | Produce append id => process_produce w p append (Some id)
            | ProduceNoReply append => process_produce w p append None
            | ProduceNoReplyBatch appends => process_all w p appends
            | _ => (w, p)
            end in
          match pl_in_flight p with Some _ => (w, p, None) | None => linger_loop n w p end
      | (w, _) => (w, p, None)
      end
  end.

(** Whether the linger was left with a command for the next pass, in which case
    the barrier is already out. *)
Definition linger (w : World) (p : Pipeline) : World * Pipeline * option Command :=
  let linger_nanos := Z.min FIRST_DISPATCH_LINGER_CAP_NANOS (pe_last_fsync_nanos (w_engine w) / 10) in
  if 0 <? linger_nanos then let '(w, a) := ask w in linger_loop (an_linger a) w p else (w, p, None).

Definition finish_pass (w : World) (p : Pipeline) : World * Pipeline * option Command :=
  match pl_in_flight p with
  | Some _ => (w, p, None)
  | None =>
      match pl_parked p with
      | [_] =>
          match receive w with
          | (w, Got cmd) => let '(w, p) := maybe_issue w p in (w, p, Some cmd)
          | (w, _) => let '(w, p) := commit_inline w p in (w, p, None)
          end
      | [] => let '(w, p) := maybe_issue w p in (w, p, None)
      | _ =>
          match linger w p with
          | (w, p, Some cmd) => (w, p, Some cmd)
          | (w, p, None) => let '(w, p) := maybe_issue w p in (w, p, None)
          end
      end
  end.

Definition join_flusher (p : Pipeline) : Pipeline := mk_pipeline (pl_parked p) (pl_in_flight p) (pl_next_seq p) false.

Fixpoint pipelined_commands (w : World) (p : Pipeline) (commands : list Command) : World * Pipeline * bool :=
  match commands with
  | [] => (w, p, false)
  | cmd :: commands =>
      let '(w, p) := poll_completions w p in
      match cmd with
      | Produce append id => let '(w, p) := process_produce w p append (Some id) in pipelined_commands w p commands
      | ProduceNoReply append => let '(w, p) := process_produce w p append None in pipelined_commands w p commands
      | ProduceNoReplyBatch appends => let '(w, p) := process_all w p appends in pipelined_commands w p commands
      | Run job =>
          let w := run_job w job in
          let '(w, p) := poll_completions w p in
          let '(w, p) := release_ready w p in
          let '(w, p) := reconcile_writer_freeze w p None in
          pipelined_commands w p commands
      | Shutdown =>
          let '(w, p) := quiesce_to_durable w p in
          (drain_shutdown_replies (shutdown_barrier w) commands, join_flusher p, true)
      end
  end.

(** A pass, from its first command on. *)
Definition pipelined_pass (w : World) (p : Pipeline) (first : Command) : ActorState Pipeline :=
  let '(w, p) := poll_completions w p in
  let '(w, rest) := drain_channel w in
  let '(w, p, stop) := pipelined_commands w p (first :: rest) in
  if stop then Exited w p
  else
    let '(w, p) := poll_completions w p in
    let '(w, p) := release_ready w p in
    let '(w, p, carryover) := finish_pass w p in
    let '(w, p) := reconcile_writer_freeze w p None in
    Running (queue_empty (refresh_cap_gate w)) p carryover.

Definition pipelined_exit (w : World) (p : Pipeline) : ActorState Pipeline :=
  let '(w, p) := quiesce_to_durable w p in Exited w (join_flusher p).

(** One turn of [run_actor_pipelined]. *)
Definition pipelined_turn (s : ActorState Pipeline) : ActorState Pipeline :=
  match s with
  | Exited w p => Exited w p
  | Running w p (Some cmd) => pipelined_pass w p cmd
  | Running w p None =>
      match receive w with
      | (w, Got cmd) => pipelined_pass w p cmd
      | (w, Disconnected) => pipelined_exit w p
      | (w, NothingYet) =>
          match pl_in_flight p with
          | Some _ => let '(w, p) := wait_one_completion w p in Running w p None
          | None => Running w p None
          end
      end
  end.

(** ** Runs *)

Definition world_new (e : ProduceEngine) (cap : Z) : World :=
  mk_world e (mk_flusher true None []) [] true (publish (gate_new cap) (durable_record_bytes (pe_log e))) 0 false [] [].

(** The tier is chosen once: pipelined where an acknowledgement waits for a real
    barrier. *)
Definition run_pipelined (w : World) (turns : nat) : ActorState Pipeline := Nat.iter turns pipelined_turn (Running w pipeline_new None).
Definition run_legacy (w : World) (turns : nat) : ActorState (list PendingProduce) := Nat.iter turns legacy_turn (Running w [] None).

Definition state_world {B} (s : ActorState B) : World := match s with Running w _ _ | Exited w _ => w end.
Definition state_batch {B} (s : ActorState B) : B := match s with Running _ b _ | Exited _ b => b end.

(** ** The connection's side *)

(** [EngineHandle::produce_submit]: a full log refuses on the connection thread. *)
Definition produce_submit (g : ProduceCapGate) (append : OwnedAppend) (reply : nat) : ProduceCapGate * (ProduceOutcome + Command) :=
  if would_shed g then (record_fast_reject g, inl OutAtCapacity) else (g, inr (Produce append reply)).

Definition produce_no_reply (g : ProduceCapGate) (append : OwnedAppend) : ProduceCapGate * option Command :=
  if would_shed g then (record_l0_shed g, None) else (g, Some (ProduceNoReply append)).

(** [retain] *)
Definition retain_under_cap (g : ProduceCapGate) (appends : list OwnedAppend) : ProduceCapGate * list OwnedAppend :=
  foldl (fun acc append => if would_shed (fst acc) then (record_l0_shed (fst acc), snd acc) else (fst acc, snd acc ++ [append]))
    (g, []) appends.

Definition produce_no_reply_batch (g : ProduceCapGate) (appends : list OwnedAppend) : ProduceCapGate * option Command :=
  match appends with
  | [] => (g, None)
  | _ =>
      if pg_cap g =? 0 then (g, Some (ProduceNoReplyBatch appends))
      else
        let '(g, kept) := retain_under_cap g appends in
        match kept with [] => (g, None) | _ => (g, Some (ProduceNoReplyBatch kept)) end
  end.
End actor.

Arguments Running {F B} _ _ _.
Arguments Exited {F B} _ _.
