(* ===== verification/ActorSafety.v ===== *)
(** * What the append actor promises its producers

    Whatever the threads beside the actor do, and whatever the disk answers, a
    reply that reports an append is sent only when the record is durable, every
    produce is answered exactly once, and an actor that goes to sleep with no
    barrier out has answered all it can.  Both loops are covered: what they share
    is proved once, against what a loop promises of its batch. *)

From S2P Require Import Prelude Bytes Records Codec Disk SegmentFormat SegmentScan SegmentWriter Log LogRecovery LogSafety.
From S2P Require Import Lru Dedup ProducerSeq Ttl Backpressure ProduceLog Actor.

Lemma omap_id_fmap {A B} (f : A -> option B) (l : list A) : omap id (f <$> l) = omap f l.
Proof. induction l as [|x l IH]; [done|]. cbn. by rewrite IH. Qed.

Section safety.
Context `{Crc32c} `{Xxh3} `{!Streaming} `{CrashDisk F}.
Context (cfg : LogConfig) (k : ProduceConfig) (oracle : nat -> Answer (F := F)).
Implicit Types (w : World (F := F)) (e : ProduceEngine (F := F)) (A : list Entry) (c : nat).

(** ** What may happen beside the actor *)

Definition append_ok (a : OwnedAppend) : Prop := publishable cfg (oa_append a) /\ sums_ok (oa_append a) (oa_body_checksums a).

(** A job leaves the records alone, though it may add some. *)
Definition job_ok (job : ProduceEngine (F := F) -> ProduceEngine (F := F)) : Prop :=
  forall e A c tk, engine_ok cfg e A c tk -> exists A', A `prefix_of` A' /\ advances cfg e c (job e) A' tk.

Definition command_ok (cmd : Command (F := F)) : Prop :=
  match cmd with
  | Produce a _ | ProduceNoReply a => append_ok a
  | ProduceNoReplyBatch l => Forall append_ok l
  | Run job => job_ok job
  | Shutdown => True
  end.

Definition answer_ok (a : Answer (F := F)) : Prop :=
  env_ok (sm_env (an_seam a)) /\
  (forall f, q_ok f -> q_ok (an_arm a f) /\ f_live (an_arm a f) = f_live f /\ f_durable (an_arm a f) = f_durable f) /\
  Forall command_ok (an_arrivals a).

(** ** What a reply means *)

(** The produce behind a parked reply is stored below [n]. *)
Definition covered A (taken : list (option nat * OwnedAppend)) (o : PendingOutcome) (reply : option nat) (n : Z) : Prop :=
  match o with
  | PendAppended offset | PendFireAndForget offset =>
      exists a en, (reply, a) ∈ taken /\ 0 <= offset < n /\ A !! Z.to_nat offset = Some en /\ stored k (oa_append a) offset en
  | PendDuplicate offset => offset < n
  end.

(** How far a reply may report: the durable records where a commit is a sync,
    otherwise all that the log holds. *)
Definition ack_bound A c : nat := match pc_durability_level k with LevelSync => c | _ => length A end.
Definition acked A c (taken : list (option nat * OwnedAppend)) (s : nat * ProduceOutcome) : Prop :=
  forall o, s.2 = released_outcome o -> covered A taken o (Some s.1) (Z.of_nat (ack_bound A c)).

Lemma covered_mono A A' taken taken' o reply n n' :
  A `prefix_of` A' -> taken ⊆ taken' -> n <= n' -> covered A taken o reply n -> covered A' taken' o reply n'.
Proof.
  intros HA Ht Hn. destruct o as [off|off|off]; cbn; [|lia|]; intros (a & en & Hin & Ho & Hl & Hs); exists a, en;
    (split; [by apply Ht|]); (split; [lia|]); (split; [by eapply prefix_lookup_Some|done]).
Qed.

Lemma acked_mono A A' c c' taken taken' s :
  A `prefix_of` A' -> (c <= c')%nat -> taken ⊆ taken' -> acked A c taken s -> acked A' c' taken' s.
Proof.
  intros HA Hc Ht Hs o Ho. eapply covered_mono; [done|done| |by apply Hs]. apply prefix_length in HA. unfold ack_bound.
  destruct (pc_durability_level k); lia.
Qed.

(** ** The world

    [doing] are the produces at hand, [owed] the replies the batch holds back. *)

Definition ticket w : option SyncTicket := fj_commit <$> fl_job (w_flusher w).

Record world_ok A c (doing : list (option nat * OwnedAppend)) (owed : list nat) w : Prop := {
  wo_engine : engine_ok cfg (w_engine w) A c (ticket w);
  wo_sent : Forall (acked A c (w_taken w)) (w_sent w);
  wo_doing : doing ⊆ w_taken w;
  wo_replies : (w_sent w).*1 ++ omap fst doing ++ owed ≡ₚ omap fst (w_taken w);
  wo_queue : Forall command_ok (w_queue w);
  wo_alive : w_panicked w = false
}.

(** What a loop promises of its batch, for the loops' common part. *)
Class BatchSafe (B : Type) `{!ProduceBatch (F := F) B} := {
  batch_ok : list Entry -> nat -> World (F := F) -> B -> Prop;
  batch_replies : B -> list nat;
  batch_grows : forall A A' c c' w w' b,
    batch_ok A c w b -> A `prefix_of` A' -> (c <= c')%nat -> w_flusher w' = w_flusher w -> w_taken w ⊆ w_taken w' ->
    (log_is_writable (w_engine w') = true -> log_is_writable (w_engine w) = true) -> batch_ok A' c' w' b;
  batch_flusher : forall A c doing owed w b a,
    world_ok A c doing owed w -> batch_ok A c w b ->
    exists c', (c <= c')%nat /\ world_ok A c' doing owed (flusher_step w a) /\ batch_ok A c' (flusher_step w a) b
}.

Section common.
Context {B : Type} `{!ProduceBatch (F := F) B} `{!BatchSafe B}.
Implicit Types (b : B).

(** The invariant, of a log that holds [A]. *)
Definition actor_at A (doing : list (option nat * OwnedAppend)) w b : Prop :=
  exists c, world_ok A c doing (batch_replies b) w /\ batch_ok A c w b.
Definition actor_inv (doing : list (option nat * OwnedAppend)) w b : Prop := exists A, actor_at A doing w b.

(** An engine call, whose results the caller looks at. *)
Lemma world_engine A A' c doing w b e' :
  world_ok A c doing (batch_replies b) w -> batch_ok A c w b -> A `prefix_of` A' -> advances cfg (w_engine w) c e' A' (ticket w) ->
  actor_at A' doing (set_engine w e') b.
Proof.
  intros [He Hs Hdo Hr Hq Ha] Hb HA (Hw & c' & Hc & He'). exists c'. split.
  - split; try done. eapply Forall_impl; [exact Hs|]. intros s. by apply acked_mono.
  - by eapply batch_grows.
Qed.

Lemma at_engine A doing w b e' :
  actor_at A doing w b -> (forall c tk, engine_ok cfg (w_engine w) A c tk -> advances cfg (w_engine w) c e' A tk) ->
  actor_at A doing (set_engine w e') b.
Proof. intros (c & Hw & Hb) Hstep. eapply world_engine; [done|done|done|]. apply Hstep, Hw. Qed.

(** Only the log and the registries count. *)
Lemma at_same A doing w b e' :
  pe_log e' = pe_log (w_engine w) -> pe_dedup e' = pe_dedup (w_engine w) -> pe_producer_seq e' = pe_producer_seq (w_engine w) ->
  actor_at A doing w b -> actor_at A doing (set_engine w e') b.
Proof. intros Hl Hd Hs Hi. apply at_engine; [done|]. intros c tk He. apply same_advances; [done|]. by eapply engine_same. Qed.

Lemma at_world A doing w w' b :
  w_engine w' = w_engine w -> w_flusher w' = w_flusher w -> w_taken w' = w_taken w -> w_sent w' = w_sent w -> w_panicked w' = w_panicked w ->
  Forall command_ok (w_queue w') -> actor_at A doing w b -> actor_at A doing w' b.
Proof.
  intros Hen Hf Ht Hs Hp Hq (c & [He Hse Hdo Hr _ Ha] & Hb). exists c. split.
  - split; unfold ticket; rewrite ?Hen, ?Hf, ?Ht, ?Hs, ?Hp; done.
  - eapply batch_grows; try done; [by rewrite Ht|by rewrite Hen].
Qed.

Lemma at_queue A doing w b : actor_at A doing w b -> Forall command_ok (w_queue w).
Proof. intros (c & Hw & _). apply Hw. Qed.

(** A reply that reports no append. *)
Definition negative (o : ProduceOutcome) : bool :=
  match o with OutAppended _ | OutAppendedDuplicate _ | OutFireAndForgetAppended _ => false | _ => true end.

Lemma send_sent A c doing owed w reply a out :
  world_ok A c ((reply, a) :: doing) owed w ->
  (forall id, reply = Some id -> acked A c (w_taken w) (id, out)) -> world_ok A c doing owed (send_outcome w reply out).
Proof.
  intros [He Hs Hdo Hr Hq Ha] Hout. destruct reply as [id|]; [|split; try done; set_solver]. split; try done; cbn in *; [|set_solver|].
  - apply Forall_app_2; [done|]. constructor; [by apply Hout|constructor].
  - rewrite fmap_app, <- app_assoc. done.
Qed.

Lemma negative_acked A c taken id out : negative out = true -> acked A c taken (id, out).
Proof. intros Hn o Ho. cbn in Ho. subst out. by destruct o. Qed.

Lemma at_send A doing w b reply a out :
  negative out = true -> actor_at A ((reply, a) :: doing) w b -> actor_at A doing (send_outcome w reply out) b.
Proof.
  intros Hn (c & Hw & Hb). exists c. split; [eapply send_sent; [done|]; intros; by apply negative_acked|].
  eapply batch_grows; try done; by destruct reply.
Qed.

Lemma at_taken A doing w b reply a : actor_at A doing w b -> actor_at A ((reply, a) :: doing) (note_taken w reply a) b.
Proof.
  intros (c & [He Hs Hdo Hr Hq Ha] & Hb). exists c. split.
  - split; try done; cbn [w_taken w_sent note_taken]; [|set_solver|].
    + eapply Forall_impl; [exact Hs|]. intros s. apply acked_mono; [done|done|]. set_solver.
    + rewrite omap_app, <- Hr. destruct reply; cbn; [solve_Permutation|by rewrite app_nil_r].
  - eapply batch_grows; try done. cbn. set_solver.
Qed.

(** ** What happens outside *)

Lemma arm_settled (l : Log F) arm : same_heads l (arm_active l arm) /\ is_writable (arm_active l arm) = is_writable l /\
  l_pending_roll (arm_active l arm) = l_pending_roll l.
Proof. unfold arm_active. destruct (l_active l) as [[ino w]|] eqn:Ha; [|done]. unfold is_writable. by rewrite Ha. Qed.

Lemma arm_engine_ok e arm A c tk :
  (forall f, q_ok f -> q_ok (arm f) /\ f_live (arm f) = f_live f /\ f_durable (arm f) = f_durable f) ->
  engine_ok cfg e A c tk -> engine_ok cfg (set_log e (arm_active (pe_log e) arm)) A c tk.
Proof.
  intros Harm [Hl Hs Hp Hd Hq]. destruct (arm_settled (pe_log e) arm) as ([Hsy Hnx] & _ & Hpr).
  split; cbn; [by apply arm_ok|by rewrite Hsy| |done|done]. intros Hn. rewrite Hsy, Hnx. apply Hp. by rewrite <- Hpr.
Qed.

Lemma outside_from A c doing w b a :
  answer_ok a -> world_ok A c doing (batch_replies b) w -> batch_ok A c w b ->
  exists c', (c <= c')%nat /\ world_ok A c' doing (batch_replies b) (outside w a) /\ batch_ok A c' (outside w a) b.
Proof.
  intros (_ & Harm & Harr) [He Hs Hdo Hr Hq Ha] Hb. unfold outside. set (w1 := mk_world _ _ _ _ _ _ _ _ _).
  apply batch_flusher.
  - split; try done; [by apply arm_engine_ok|]. cbn. apply Forall_app_2; [done|]. by destruct (w_open w).
  - eapply batch_grows; try done. unfold w1, log_is_writable. cbn. by rewrite (proj1 (proj2 (arm_settled _ _))).
Qed.

Lemma at_outside A doing w b a : answer_ok a -> actor_at A doing w b -> actor_at A doing (outside w a) b.
Proof. intros Hans (c & Hw & Hb). destruct (outside_from A c doing w b a Hans Hw Hb) as (c' & _ & Hw' & Hb'). by exists c'. Qed.

(** ** The loops' common part *)

Section calls.
Context (Horacle : forall t, answer_ok (oracle t)).

Lemma at_ask A doing w b : actor_at A doing w b -> actor_at A doing (fst (ask oracle w)) b.
Proof. apply at_outside, Horacle. Qed.

Lemma ask_answer w : answer_ok (snd (ask oracle w)).
Proof. apply Horacle. Qed.

(** The bookkeeping around a call. *)
Lemma at_clock A doing w b : actor_at A doing w b -> actor_at A doing (fst (clock oracle w)) b.
Proof. apply at_ask. Qed.

Lemma at_count_shed A doing w b : actor_at A doing w b -> actor_at A doing (count_shed_request oracle w) b.
Proof. intros Hi. unfold count_shed_request. pose proof (at_clock A doing w b Hi) as Hc. destruct (clock oracle w) as [w1 now]. cbn [fst] in Hc. by apply at_same. Qed.

Lemma at_count_accepted A doing w b : actor_at A doing w b -> actor_at A doing (count_accepted_request oracle w) b.
Proof. intros Hi. unfold count_accepted_request. pose proof (at_clock A doing w b Hi) as Hc. destruct (clock oracle w) as [w1 now]. cbn [fst] in Hc. by apply at_same. Qed.

Lemma at_reconcile A doing w b now : actor_at A doing w b -> actor_at A doing (reconcile_sheds w now) b.
Proof.
  intros Hi. pose proof (at_queue _ _ _ _ Hi) as Hq. unfold reconcile_sheds. cbn. eapply at_world; [..|apply (at_same A doing w b); [..|exact Hi]];
    try done; cbn; by destruct (_ - _)%nat.
Qed.

Lemma at_refresh A doing w b : actor_at A doing w b -> actor_at A doing (refresh_cap_gate oracle w) b.
Proof.
  intros Hi. unfold refresh_cap_gate. pose proof (at_ask A doing w b Hi) as Ha. destruct (ask oracle w) as [w1 a]. cbn [fst] in Ha.
  pose proof (at_reconcile A doing w1 b (sm_now (an_seam a)) Ha) as Hr. eapply at_world; [..|exact Hr]; try done. exact (at_queue _ _ _ _ Hr).
Qed.

Lemma at_queue_empty A doing w b : actor_at A doing w b -> actor_at A doing (queue_empty oracle w) b.
Proof. intros Hi. unfold queue_empty. pose proof (at_clock A doing w b Hi) as Hc. destruct (clock oracle w) as [w1 now]. cbn [fst] in Hc. by apply at_same. Qed.

Lemma at_bucket A doing w b a : actor_at A doing w b -> actor_at A doing (fst (bucket_admits oracle w a)) b.
Proof.
  intros Hi. unfold bucket_admits. destruct (oa_fire_and_forget a); [|done]. pose proof (at_clock A doing w b Hi) as Hc.
  destruct (clock oracle w) as [w1 now]. destruct (fire_and_forget_admit _ _ _) as [bp ok]. cbn [fst] in *. by apply at_same.
Qed.

Lemma at_codel A doing w b a : actor_at A doing w b -> actor_at A doing (fst (codel_sheds oracle w a)) b.
Proof.
  intros Hi. unfold codel_sheds. pose proof (at_clock A doing w b Hi) as Hc. destruct (clock oracle w) as [w1 now].
  destruct (codel_admit _ _ _) as [bp shed]. cbn [fst] in *. by apply at_same.
Qed.

Lemma inv_run_job doing w b job : job_ok job -> actor_inv doing w b -> actor_inv doing (run_job oracle w job) b.
Proof.
  intros Hj [A Hi]. unfold run_job. pose proof (at_clock A doing w b Hi) as Hc. destruct (clock oracle w) as [w1 now]. cbn [fst] in Hc.
  pose proof (at_reconcile A doing w1 b now Hc) as Hr. set (w2 := reconcile_sheds w1 now) in *. clearbody w2.
  pose proof Hr as (c0 & Hw2 & Hb2). destruct (Hj _ A c0 _ (wo_engine _ _ _ _ _ Hw2)) as (A' & HA & Hw & c' & Hc' & He'). exists A'.
  apply at_refresh. eapply world_engine; [done|done|done|]. split; [done|by exists c'].
Qed.

Lemma at_receive A doing w b :
  actor_at A doing w b ->
  let '(w', r) := receive oracle w in actor_at A doing w' b /\ match r with Got cmd => command_ok cmd | _ => True end.
Proof.
  intros Hi. unfold receive. pose proof (at_ask A doing w b Hi) as Ha. destruct (ask oracle w) as [w1 a]. cbn [fst] in Ha.
  pose proof (at_queue _ _ _ _ Ha) as Hq. destruct (w_queue w1) as [|cmd rest]; [split; [done|by destruct (w_open w1)]|]. apply Forall_cons in Hq as [Hcmd Hq].
  split; [|done]. by eapply at_world; [..|exact Ha].
Qed.

Lemma at_drain A doing w b :
  actor_at A doing w b -> let '(w', cmds) := drain_channel oracle w in actor_at A doing w' b /\ Forall command_ok cmds.
Proof.
  intros Hi. unfold drain_channel. pose proof (at_ask A doing w b Hi) as Ha. destruct (ask oracle w) as [w1 a]. cbn [fst] in Ha.
  split; [|exact (at_queue _ _ _ _ Ha)]. eapply at_world; [..|exact Ha]; done.
Qed.

(** A commit of the log that the caller waits for. *)
Lemma at_finish {R} A doing w b (r : ProduceEngine (F := F) * res R EngineError) :
  actor_at A doing w b ->
  (forall c tk, engine_ok cfg (w_engine w) A c tk -> match r with (e', Ok _) | (e', Err _) => advances cfg (w_engine w) c e' A tk | (_, Panic) => False end) ->
  actor_at A doing (fst (finish_call w r)) b.
Proof.
  intros Hi Hr. destruct r as [e' [x|err|]]; cbn [finish_call fst] in *; [by apply at_engine..|].
  destruct Hi as (c & Hw & _). destruct (Hr _ _ (wo_engine _ _ _ _ _ Hw)).
Qed.

Lemma at_shutdown_barrier A doing w b : actor_at A doing w b -> actor_at A doing (shutdown_barrier oracle w) b.
Proof.
  intros Hi. unfold shutdown_barrier. pose proof (at_ask A doing w b Hi) as Ha. pose proof (ask_answer w) as (Hev & _).
  destruct (ask oracle w) as [w1 a]. apply at_finish; [done|]. intros c tk He. by apply force_sync_ok.
Qed.

(** Produces that the closing actor refuses. *)
Lemma at_reply_closing A doing w b cmd : actor_at A doing w b -> actor_at A doing (reply_closing w cmd) b.
Proof. intros Hi. destruct cmd; try done. cbn [reply_closing]. eapply at_send; [done|]. by apply at_taken. Qed.

Lemma at_closing_all A doing cmds b : forall w, actor_at A doing w b -> actor_at A doing (foldl reply_closing w cmds) b.
Proof. induction cmds as [|cmd cmds IH]; intros w Hi; [done|]. cbn. by apply IH, at_reply_closing. Qed.

Lemma at_drain_shutdown A doing w b tail : actor_at A doing w b -> actor_at A doing (drain_shutdown_replies oracle w tail) b.
Proof.
  intros Hi. unfold drain_shutdown_replies. pose proof (at_ask A doing _ b (at_closing_all A doing tail b w Hi)) as Ha.
  destruct (ask oracle _) as [w1 a]. cbn [fst] in Ha. eapply at_world; [..|apply (at_closing_all A doing (w_queue w1) b w1 Ha)]; done.
Qed.

(** Every waiting reply gets a fatal answer. *)
Lemma fatal_fan_ok A c doing owed replies : forall w first,
  world_ok A c doing (omap id replies ++ owed) w -> world_ok A c doing owed (fatal_fan_replies w replies first).
Proof.
  induction replies as [|[id|] replies IH]; intros w first Hw; cbn [fatal_fan_replies]; [done| |by apply IH].
  apply IH. destruct Hw as [He Hs Hdo Hr Hq Ha]. split; try done; cbn in *.
  - apply Forall_app_2; [done|]. constructor; [by apply negative_acked|constructor].
  - rewrite <- Hr, fmap_app. cbn. solve_Permutation.
Qed.

Lemma fatal_fan_same replies : forall w first, let w' := fatal_fan_replies w replies first in
  w_engine w' = w_engine w /\ w_flusher w' = w_flusher w /\ w_taken w' = w_taken w.
Proof. induction replies as [|[id|] replies IH]; intros w first; cbn [fatal_fan_replies]; [done| |apply IH]. apply (IH (send_outcome w (Some id) _)). Qed.
End calls.
End common.

(** ** A produce *)

(** What a loop promises of the operations a produce calls. *)
Class LoopSafe (B : Type) `{!ProduceBatch (F := F) B} `{!BatchSafe B} := {
  throttle_safe : forall doing w b n, actor_inv doing w b ->
    let '(w', b') := throttle_admit w b n in actor_inv doing w' b';
  drain_safe : forall doing w b, actor_inv doing w b ->
    let '(w', b') := drain_for_headroom w b in actor_inv doing w' b';
  park_safe : forall A doing w b o reply a, actor_at A ((reply, a) :: doing) w b ->
    covered A (w_taken w) o reply (Z.of_nat (length A)) -> let '(w', b') := park w b o reply in actor_inv doing w' b'
}.

Section produce.
Context {B : Type} `{!ProduceBatch (F := F) B} `{!BatchSafe B} `{!LoopSafe B}.
Context (Horacle : forall t, answer_ok (oracle t)).
Implicit Types (b : B).

Lemma ask_taken w : w_taken (fst (ask oracle w)) = w_taken w.
Proof.
  cbn. unfold outside, flusher_step, flusher_run. destruct (an_flusher _); [done| |done]. cbn. destruct (fl_alive _); [|done].
  destruct (fl_job _); [|done]. by destruct (flusher_sync _ _ _).
Qed.

Lemma accepted_taken w : w_taken (count_accepted_request oracle w) = w_taken w.
Proof. unfold count_accepted_request, clock. pose proof (ask_taken w) as Ht. by destruct (ask oracle w). Qed.

(** The parked outcome of an append, and of a duplicate. *)
Lemma park_appended A c doing w b a reply e' offset :
  world_ok A c ((reply, a) :: doing) (batch_replies b) w -> batch_ok A c w b ->
  appended cfg k (w_engine w) A c (ticket w) (oa_append a) offset e' ->
  let '(w', b') := park (count_accepted_request oracle (set_engine w e')) b
    (if oa_fire_and_forget a then PendFireAndForget offset else PendAppended offset) reply in actor_inv doing w' b'.
Proof.
  intros Hw Hb (-> & en & Hen & Hadv). apply (park_safe (A ++ [en]) doing _ b _ reply a).
  - apply at_count_accepted; [done|]. eapply world_engine; [done|done|by eexists|done].
  - rewrite accepted_taken. assert (Hc : exists a' en', (reply, a') ∈ w_taken w /\ 0 <= Z.of_nat (length A) < Z.of_nat (length (A ++ [en])) /\
      (A ++ [en]) !! Z.to_nat (Z.of_nat (length A)) = Some en' /\ stored k (oa_append a') (Z.of_nat (length A)) en').
    { exists a, en. split; [apply (wo_doing _ _ _ _ _ Hw); by left|]. rewrite length_app, Nat2Z.id. cbn. split; [lia|].
      split; [by rewrite lookup_app_r, Nat.sub_diag|done]. }
    by destruct (oa_fire_and_forget a).
Qed.

Lemma inv_append_and_park doing w b a reply :
  append_ok a -> actor_inv ((reply, a) :: doing) w b ->
  let '(w', b') := append_and_park k oracle w b a reply in actor_inv doing w' b'.
Proof.
  intros [Hp Hs] [A Hi]. unfold append_and_park. pose proof (at_ask Horacle A _ w b Hi) as (c & Hw & Hb). pose proof (ask_answer Horacle w) as (Hev & _).
  destruct (ask oracle w) as [w1 an]. cbn [fst snd] in *. clear Hi w.
  pose proof (append_dedup_ok cfg k _ (an_seam an) (oa_append a) (oa_dedup a) (oa_body_checksums a) _ _ _ (wo_engine _ _ _ _ _ Hw) Hev Hp Hs) as Hk.
  destruct (append_no_sync_dedup_checked _ _ _ _ _ _) as [e' r].
  assert (Hadv : advances cfg (w_engine w1) c e' A (ticket w1) -> actor_at A ((reply, a) :: doing) (set_engine w1 e') b)
    by (by eapply world_engine).
  assert (Hneg : forall out, advances cfg (w_engine w1) c e' A (ticket w1) -> negative out = true ->
    actor_inv doing (send_outcome (set_engine w1 e') reply out) b) by (intros out Ha Hn; exists A; eapply at_send; eauto).
  destruct r as [[off|off|ep|ex]|err|]; cbn [finish_call append_outcome] in *; [by eapply park_appended| |by apply Hneg|by apply Hneg| |done].
  - destruct Hk as [Ho Ha]. eapply park_safe; [by apply Hadv|done].
  - destruct (is_at_capacity err); [|destruct (is_fatal err); by apply Hneg]. exists A. eapply at_send; [done|]. by apply at_count_shed, Hadv.
Qed.

Lemma inv_headroom doing w b a reply :
  append_ok a -> actor_inv ((reply, a) :: doing) w b ->
  let '(w', b') := headroom_then_append k oracle w b a reply in actor_inv doing w' b'.
Proof.
  intros Hok Hi. unfold headroom_then_append. destruct (_ && _); [|by apply inv_append_and_park]. pose proof (drain_safe _ w b Hi) as Hd.
  destruct (drain_for_headroom w b) as [w1 b1]. destruct (wal_headroom_admit _ _); [by apply inv_append_and_park|].
  destruct Hd as [A Hd]. exists A. eapply at_send; [done|]. apply at_count_shed; [done|]. by apply at_same.
Qed.

Lemma inv_process doing w b a reply :
  append_ok a -> actor_inv doing w b -> let '(w', b') := process_produce k oracle w b a reply in actor_inv doing w' b'.
Proof.
  intros Hok [A Hi]. unfold process_produce. pose proof (throttle_safe ((reply, a) :: doing) (note_taken w reply a) b (body_len (oa_append a))) as Ht.
  destruct (throttle_admit _ _ _) as [w1 b1]. destruct Ht as [A1 H1']; [exists A; by apply at_taken|].
  pose proof (at_bucket Horacle A1 _ w1 b1 a H1') as H2'. destruct (bucket_admits oracle w1 a) as [w2 [|]]; cbn [fst negb] in *;
    [|exists A1; by eapply at_send].
  pose proof (at_codel Horacle A1 _ w2 b1 a H2') as H3'. destruct (codel_sheds oracle w2 a) as [w3 [|]]; cbn [fst] in *.
  - exists A1. eapply at_send; [done|]. by apply at_count_shed.
  - apply inv_headroom; [done|]. by exists A1.
Qed.

Lemma inv_process_all doing appends : forall w b,
  Forall append_ok appends -> actor_inv doing w b -> let '(w', b') := process_all k oracle w b appends in actor_inv doing w' b'.
Proof.
  unfold process_all. induction appends as [|a appends IH]; intros w b Hok Hi; [done|]. apply Forall_cons in Hok as [Ha Hok]. cbn [foldl fst snd].
  pose proof (inv_process doing w b a None Ha Hi) as Hp. destruct (process_produce k oracle w b a None) as [w1 b1]. by apply IH.
Qed.
End produce.

(** ** The legacy loop *)

Section legacy.
Context (Horacle : forall t, answer_ok (oracle t)).

Definition pending_fits A w (p : PendingProduce) : Prop := covered A (w_taken w) (pp_outcome p) (pp_reply p) (Z.of_nat (length A)).
Definition legacy_ok A c w (pending : list PendingProduce) : Prop := fl_job (w_flusher w) = None /\ Forall (pending_fits A w) pending.

#[local] Instance legacy_loop : ProduceBatch (list PendingProduce) := legacy_batch k oracle.
#[local] Program Instance legacy_batch_safe : BatchSafe (list PendingProduce) :=
  {| batch_ok := legacy_ok; batch_replies := omap pp_reply |}.
Next Obligation.
  intros A A' c c' w w' b [Hj Hb] HA _ Hf Ht _. split; [by rewrite Hf|]. eapply Forall_impl; [exact Hb|]. intros p.
  apply covered_mono; [done|done|]. apply prefix_length in HA. lia.
Qed.
Next Obligation.
  intros A c doing owed w b a Hw [Hj Hb]. exists c. split; [done|]. unfold flusher_step, flusher_run. destruct (an_flusher a).
  - done.
  - rewrite Hj. by destruct (fl_alive _).
  - split; [|done]. destruct Hw as [He Hs Hdo Hr Hq Ha]. split; try done. unfold ticket in He |- *. cbn. by rewrite Hj in He.
Qed.

(** The replies of a batch that was committed. *)
Lemma release_pending A c doing pending : forall w,
  world_ok A c doing (omap pp_reply pending) w -> fl_job (w_flusher w) = None -> (ack_bound A c = length A)%nat -> Forall (pending_fits A w) pending ->
  let w' := foldl (fun w p => send_outcome w (pp_reply p) (released_outcome (pp_outcome p))) w pending in
  world_ok A c doing [] w' /\ fl_job (w_flusher w') = None.
Proof.
  induction pending as [|[o reply] pending IH]; intros w Hw Hj Hb Hp; [done|]. apply Forall_cons in Hp as [Hhd Hp]. cbn [foldl pp_reply pp_outcome].
  apply IH; try (by destruct reply). destruct Hw as [He Hs Hdo Hr Hq Ha]. destruct reply as [id|]; [|done]. split; try done; cbn in *.
  - apply Forall_app_2; [done|]. constructor; [|constructor]. intros o' Ho'. cbn in *. rewrite Hb.
    assert (o' = o) as -> by (destruct o, o'; cbn in Ho'; congruence). exact Hhd.
  - rewrite <- Hr, fmap_app. cbn. solve_Permutation.
Qed.

(** The commit of a pass: the replies go out, or a fatal answer to each. *)
Lemma inv_flush_pending doing w (pending : list PendingProduce) :
  actor_inv doing w pending ->
  let '(w', pending') := flush_pending k oracle w pending in pending' = [] /\ actor_inv doing w' pending'.
Proof.
  intros [A Hi]. unfold flush_pending. destruct pending as [|p pending]; [split; [done|by exists A]|]. set (ps := p :: pending) in *. clearbody ps.
  pose proof (at_ask Horacle A doing w ps Hi) as Ha. pose proof (ask_answer Horacle w) as (Hev & _). destruct (ask oracle w) as [w1 a].
  cbn [fst snd] in *. destruct Ha as (c & Hw & Hb). pose proof (commit_batch_ok cfg k _ _ _ _ _ (wo_engine _ _ _ _ _ Hw) Hev) as Hk.
  assert (Hgo : forall e', advances cfg (w_engine w1) c e' A (ticket w1) -> actor_at A doing (set_engine w1 e') ps) by (intros; by eapply world_engine).
  destruct (commit_batch _ _ _) as [e' [[]|err|]]; cbn [finish_call]; [| |done]; destruct Hk as [Hadv Hset]; (split; [done|]);
    destruct (Hgo e' Hadv) as (c1 & Hw1 & Hj1 & Hps1); exists A, c1.
  - destruct (release_pending A c1 doing ps _ Hw1 Hj1) as [Hw2 Hj2]; [|done|by split].
    unfold ack_bound. destruct (pc_durability_level k) eqn:Hl; try done. by eapply settled_all; [apply Hw1|apply Hset].
  - destruct (fatal_fan_same (pp_reply <$> ps) (set_engine w1 e') (Some err)) as (He & Hf & Ht).
    split; [|split; [by rewrite Hf|constructor]]. apply fatal_fan_ok. rewrite app_nil_r, omap_id_fmap. done.
Qed.

#[local] Program Instance legacy_loop_safe : LoopSafe (list PendingProduce).
Next Obligation. done. Qed.
Next Obligation. intros doing w b Hi. pose proof (inv_flush_pending doing w b Hi) as Hf. change (drain_for_headroom w b) with (flush_pending k oracle w b). destruct (flush_pending k oracle w b) as [w1 b1]. apply Hf. Qed.
Next Obligation.
  intros A doing w b o reply a (c & [He Hs Hdo Hr Hq Ha] & Hj & Hb) Hc. exists A, c. split.
  - split; try done; [set_solver|]. rewrite <- Hr. cbn. rewrite omap_app. destruct reply; cbn; [solve_Permutation|by rewrite app_nil_r].
  - split; [done|]. apply Forall_app_2; [done|]. by constructor.
Qed.

Lemma inv_legacy_commands cmds : forall w (pending : list PendingProduce),
  Forall command_ok cmds -> actor_inv [] w pending ->
  let '(w', pending', stop) := legacy_commands k oracle w pending cmds in actor_inv [] w' pending' /\ (stop = true -> pending' = []).
Proof.
  induction cmds as [|cmd cmds IH]; intros w pending Hok Hi; [done|]. apply Forall_cons in Hok as [Hcmd Hok]. cbn [legacy_commands].
  destruct cmd as [a id|a|l|job|].
  - pose proof (inv_process Horacle [] w pending a (Some id) Hcmd Hi) as Hp. destruct (process_produce _ _ _ _ _ _) as [w1 p1]. by apply IH.
  - pose proof (inv_process Horacle [] w pending a None Hcmd Hi) as Hp. destruct (process_produce _ _ _ _ _ _) as [w1 p1]. by apply IH.
  - pose proof (inv_process_all Horacle [] l w pending Hcmd Hi) as Hp. destruct (process_all _ _ _ _ _) as [w1 p1]. by apply IH.
  - pose proof (inv_flush_pending [] w pending Hi) as Hf. destruct (flush_pending _ _ _ _) as [w1 p1]. destruct Hf as [-> Hf].
    by apply IH; [|apply inv_run_job].
  - pose proof (inv_flush_pending [] w pending Hi) as Hf. destruct (flush_pending _ _ _ _) as [w1 p1]. destruct Hf as [-> [A Hf]].
    split; [|done]. exists A. by apply at_drain_shutdown, at_shutdown_barrier.
Qed.

(** Between two turns nothing waits. *)
Definition legacy_state_ok (s : ActorState (list PendingProduce)) : Prop := state_batch s = [] /\ actor_inv [] (state_world s) (state_batch s).

Lemma legacy_turn_ok s : legacy_state_ok s -> legacy_state_ok (legacy_turn k oracle s).
Proof.
  destruct s as [w pending co|w pending]; [|done]. intros [Hn [A Hi]]. cbn [state_batch state_world] in *. subst pending. unfold legacy_turn.
  pose proof (at_receive Horacle A [] w [] Hi) as Hr. destruct (receive oracle w) as [w1 [cmd| |]]; destruct Hr as [H1' Hcmd].
  - pose proof (at_drain Horacle A [] w1 [] H1') as Hd. destruct (drain_channel oracle w1) as [w2 rest]. destruct Hd as [H2' Hrest].
    pose proof (inv_legacy_commands (cmd :: rest) w2 [] (Forall_cons_2 _ _ _ Hcmd Hrest) (ex_intro _ A H2')) as Hc.
    destruct (legacy_commands _ _ _ _ _) as [[w3 p3] [|]]; destruct Hc as [Hc Hstop]; [split; [by apply Hstop|done]|].
    pose proof (inv_flush_pending [] w3 p3 Hc) as Hf. destruct (flush_pending _ _ _ _) as [w4 p4]. destruct Hf as [-> [A4 Hf]].
    split; [done|]. exists A4. by apply at_queue_empty, at_refresh.
  - split; [done|]. by exists A.
  - pose proof (inv_flush_pending [] w1 [] (ex_intro _ A H1')) as Hf. destruct (flush_pending _ _ _ _) as [w2 p2]. by destruct Hf as [-> Hf].
Qed.

Lemma run_legacy_ok e A c cap turns :
  engine_ok cfg e A c None -> let s := run_legacy k oracle (world_new e cap) turns in
  state_batch s = [] /\ exists A' c', world_ok A' c' [] [] (state_world s).
Proof.
  intros He s. assert (Hs : legacy_state_ok s).
  { unfold s. induction turns as [|turns IH]; [|cbn; by apply legacy_turn_ok]. split; [done|]. exists A, c. split; [by split|]. split; [done|constructor]. }
  destruct Hs as [Hb (A' & c' & Hw & _)]. split; [done|]. exists A', c'. by rewrite Hb in Hw.
Qed.
End legacy.

(** ** The pipelined loop *)

Section pipelined.
Context (Horacle : forall t, answer_ok (oracle t)).
Context (Hlevel : pc_durability_level k = LevelSync).
Implicit Types (p : Pipeline).

#[local] Instance pipeline_loop : ProduceBatch Pipeline := pipeline_batch k oracle.

Definition parked_fits A w (x : ParkedAck) : Prop :=
  covered A (w_taken w) (pk_outcome x) (pk_reply x) (pk_covering_target x) /\ pk_covering_target x <= Z.of_nat (length A).

(** A barrier is with the flusher, or its completion waits, or the flusher died. *)
Definition flight_ok A c w p : Prop :=
  let f := w_flusher w in
  match pl_in_flight p with
  | None => fl_job f = None /\ fl_done f = []
  | Some flight =>
      tk_target (if_commit flight) <= Z.of_nat (length A) /\
      (fl_alive f = true /\ fl_job f = Some (mk_job (if_seq flight) (if_commit flight)) /\ fl_done f = [] \/
       fl_job f = None /\ fl_alive f = false /\ fl_done f = [] \/
       fl_job f = None /\ exists d, fl_done f = [d] /\
         (sd_ok d = true -> log_is_writable (w_engine w) = true -> tk_target (if_commit flight) <= Z.of_nat c))
  end.

Definition pipeline_ok A c w p : Prop := flight_ok A c w p /\ Forall (parked_fits A w) (pl_parked p).

(** What the flusher's own sync does to the engine. *)
Lemma flusher_sync_ok e A c t stale_ok :
  engine_ok cfg e A c (Some t) ->
  let '(l, ok) := flusher_sync (pe_log e) t stale_ok in
  exists c', (c <= c')%nat /\ engine_ok cfg (set_log e l) A c' None /\ is_writable l = is_writable (pe_log e) /\ same_heads (pe_log e) l /\
    (ok = true -> is_writable l = true -> tk_target t <= Z.of_nat c').
Proof.
  intros [Hl Hs Hp Hd Hq]. unfold flusher_sync.
  assert (Hstale : l_active (pe_log e) = None \/ l_active_id (pe_log e) <> tk_segment_id t ->
    exists c', (c <= c')%nat /\ engine_ok cfg (set_log e (pe_log e)) A c' None /\ is_writable (pe_log e) = is_writable (pe_log e) /\
      same_heads (pe_log e) (pe_log e) /\ (stale_ok = true -> is_writable (pe_log e) = true -> tk_target t <= Z.of_nat c')).
  { intros Hst. destruct (is_writable (pe_log e)) eqn:Hw.
    - exists (max c (Z.to_nat (tk_target t))). split; [lia|]. split; [|split; [done|split; [done|lia]]].
      split; cbn; [by apply stale_ticket_ok|lia|done|done|done].
    - exists c. split; [done|]. split; [|done]. split; cbn; try done. eapply log_ok_weaken; [done|lia|by right]. }
  destruct (l_active (pe_log e)) as [x|] eqn:Ha; [|apply Hstale; by left].
  destruct (Z.eqb_spec (l_active_id (pe_log e)) (tk_segment_id t)) as [Heq|]; [|apply Hstale; by right].
  pose proof (external_sync_ok cfg _ _ _ _ Hl ltac:(congruence) Heq) as Hx. destruct (external_sync (pe_log e) t) as [l ok].
  destruct Hx as (Hl' & [Hsy Hnx] & Hpr & Hw). exists (if ok then max c (Z.to_nat (tk_target t)) else c).
  split; [destruct ok; lia|]. split; [|split; [done|split; [done|destruct ok; [lia|done]]]]. split; cbn; [done| | |done|done].
  - rewrite Hsy. destruct ok; lia.
  - intros Hn. rewrite Hsy, Hnx. apply Hp. by rewrite <- Hpr.
Qed.

(** The job a flusher holds is the barrier in flight. *)
Lemma flight_job A c w p j : flight_ok A c w p -> fl_job (w_flusher w) = Some j ->
  exists flight, pl_in_flight p = Some flight /\ j = mk_job (if_seq flight) (if_commit flight) /\ fl_done (w_flusher w) = [] /\
    tk_target (if_commit flight) <= Z.of_nat (length A).
Proof.
  unfold flight_ok. intros Hf Hj. rewrite Hj in Hf. destruct (pl_in_flight p) as [flight|]; [|by destruct Hf].
  exists flight. destruct Hf as [Hle [(_ & [= ->] & Hd)|[(? & _)|(? & _)]]]; done.
Qed.

Lemma flusher_run_ok A c doing owed w p a :
  world_ok A c doing owed w -> pipeline_ok A c w p ->
  exists c', (c <= c')%nat /\ world_ok A c' doing owed (flusher_run w a) /\ pipeline_ok A c' (flusher_run w a) p.
Proof.
  intros Hw Hp. unfold flusher_run. destruct (fl_alive (w_flusher w)) eqn:Hal; [|by exists c].
  destruct (fl_job (w_flusher w)) as [j|] eqn:Hj; [|by exists c]. destruct Hw as [He Hs Hdo Hr Hq Ha], Hp as [Hf Hp].
  destruct (flight_job _ _ _ _ _ Hf Hj) as (flight & Hfl & -> & Hdn & Hle). unfold ticket in He. rewrite Hj in He. cbn [fj_commit fj_seq fmap option_fmap option_map] in *.
  pose proof (flusher_sync_ok _ _ _ _ (an_stale_ok a) He) as Hsy. destruct (flusher_sync _ _ _) as [l ok].
  destruct Hsy as (c' & Hc & He' & Hwr & _ & Hok). exists c'. split; [done|]. split.
  - split; try done. cbn. eapply Forall_impl; [exact Hs|]. intros s. by apply acked_mono.
  - split; [|done]. unfold flight_ok. rewrite Hfl. cbn. split; [done|]. right; right. split; [done|]. rewrite Hdn. eexists. split; [done|]. exact Hok.
Qed.

#[local] Program Instance pipeline_batch_safe : BatchSafe Pipeline := {| batch_ok := pipeline_ok; batch_replies p := omap pk_reply (pl_parked p) |}.
Next Obligation.
  intros A A' c c' w w' p [Hf Hp] HA Hc Hfl Ht Hw. apply prefix_length in HA as Hlen. split.
  - unfold flight_ok in *. rewrite Hfl. destruct (pl_in_flight p) as [flight|]; [|done]. destruct Hf as [Hle Hf]. split; [lia|].
    destruct Hf as [|[|(Hj & d & Hd & Hok)]]; [by left|by right; left|right; right]. split; [done|]. exists d. split; [done|].
    intros H1' H2'. specialize (Hok H1' (Hw H2')). lia.
  - eapply Forall_impl; [exact Hp|]. intros x [Hx1 Hx2]. split; [|lia]. eapply covered_mono; [done|done|reflexivity|done].
Qed.
Next Obligation.
  intros A c doing owed w p a Hw Hp. unfold flusher_step. destruct (an_flusher a); [by exists c|by eapply flusher_run_ok|]. exists c. split; [done|].
  destruct Hw as [He Hs Hdo Hr Hq Ha], Hp as [Hf Hp]. split.
  - split; try done. destruct He as [Hl ? ? ? ?]. split; try done. eapply log_ok_weaken; [exact Hl|lia|by right].
  - split; [|done]. unfold flight_ok in *. destruct (pl_in_flight p) as [flight|]; cbn; [|by destruct Hf].
    destruct Hf as [Hle [(_ & _ & Hd)|[(_ & _ & Hd)|(_ & d & Hd & Hok)]]]; (split; [done|]); rewrite Hd; [by right; left..|right; right]; eauto.
Qed.

(** *** Heads *)

(** Nothing was appended and nothing reported as synced. *)
Definition heads_kept w w' : Prop := same_heads (pe_log (w_engine w)) (pe_log (w_engine w')).

Lemma heads_kept_trans w1 w2 w3 : heads_kept w1 w2 -> heads_kept w2 w3 -> heads_kept w1 w3.
Proof. intros [H1' H2'] [H3' H4']. split; congruence. Qed.

Lemma heads_settled w w' : heads_kept w w' -> settled (w_engine w) <-> settled (w_engine w').
Proof. intros [Hs Hn]. unfold settled, durable_offset, append_head. by rewrite Hs, Hn. Qed.

Lemma external_sync_heads (l : Log F) t : same_heads l (fst (external_sync l t)) /\ is_writable (fst (external_sync l t)) = is_writable l.
Proof.
  unfold external_sync. destruct (l_active l) as [[ino x]|] eqn:Ha; [|done]. destruct (_ =? _); [|done].
  destruct (sync_data_only x) as [x' [y|e|]]; (split; [done|]); unfold is_writable; cbn; by rewrite Ha.
Qed.

Lemma flusher_run_heads w a : heads_kept w (flusher_run w a) /\ log_is_writable (w_engine (flusher_run w a)) = log_is_writable (w_engine w).
Proof.
  unfold flusher_run. destruct (fl_alive _); [|done]. destruct (fl_job _) as [j|]; [|done]. unfold flusher_sync.
  pose proof (external_sync_heads (pe_log (w_engine w)) (fj_commit j)) as Hx. destruct (l_active (pe_log (w_engine w))); [|done].
  destruct (_ =? _); [|done]. by destruct (external_sync _ _).
Qed.

Lemma ask_heads w : heads_kept w (fst (ask oracle w)) /\ log_is_writable (w_engine (fst (ask oracle w))) = log_is_writable (w_engine w).
Proof.
  cbn. unfold outside. set (w1 := mk_world _ _ _ _ _ _ _ _ _). assert (Hw1 : heads_kept w w1 /\ log_is_writable (w_engine w1) = log_is_writable (w_engine w)).
  { destruct (arm_settled (pe_log (w_engine w)) (an_arm (oracle (w_time w)))) as (Hh & Hw & _). by split. }
  destruct Hw1 as [Hh Hw]. unfold flusher_step. destruct (an_flusher _); [done| |done].
  destruct (flusher_run_heads w1 (oracle (w_time w))) as [Hh' Hw']. split; [by eapply heads_kept_trans|congruence].
Qed.

(** *** Releasing replies *)

(** The first parked reply waits for more than is synced. *)
Definition released w p : Prop := forall x, head (pl_parked p) = Some x -> durable_offset (w_engine w) < pk_covering_target x.

Lemma release_prefix_ok A c doing durable : forall parked w,
  world_ok A c doing (omap pk_reply parked) w -> durable <= Z.of_nat c -> Forall (parked_fits A w) parked ->
  let '(w', rest) := release_prefix durable w parked in
  world_ok A c doing (omap pk_reply rest) w' /\ Forall (parked_fits A w') rest /\
  w_engine w' = w_engine w /\ w_flusher w' = w_flusher w /\ forall x, head rest = Some x -> durable < pk_covering_target x.
Proof.
  induction parked as [|x parked IH]; intros w Hw Hd Hp; [done|]. apply Forall_cons in Hp as [[Hx1 Hx2] Hp]. cbn [release_prefix].
  destruct (Z.leb_spec (pk_covering_target x) durable) as [Hle|Hlt].
  - set (w1 := send_outcome w _ _). assert (Hsame : w_engine w1 = w_engine w /\ w_flusher w1 = w_flusher w /\ w_taken w1 = w_taken w)
      by (unfold w1; by destruct (pk_reply x)). destruct Hsame as (He1 & Hf1 & Ht1).
    specialize (IH w1). destruct (release_prefix durable w1 parked) as [w' rest]. rewrite <- He1, <- Hf1. apply IH; [|done|].
    + unfold w1. destruct Hw as [He Hs Hdo Hr Hq Ha]. cbn in Hr. destruct (pk_reply x) as [id|] eqn:Hid; [|done]. split; try done; cbn.
      * apply Forall_app_2; [done|]. constructor; [|constructor]. intros o Ho. cbn in *. unfold ack_bound. rewrite Hlevel.
        assert (o = pk_outcome x) as -> by (destruct o, (pk_outcome x); cbn in Ho; congruence). refine (covered_mono _ _ _ _ _ _ _ _ _ _ _ Hx1); [done|done|lia].
      * rewrite <- Hr, fmap_app. cbn. solve_Permutation.
    + eapply Forall_impl; [exact Hp|]. unfold parked_fits. by rewrite Ht1.
  - split; [done|]. split; [by constructor|]. split; [done|]. split; [done|]. by intros y [= <-].
Qed.

Lemma at_release A doing w p :
  actor_at A doing w p ->
  let '(w', p') := release_ready w p in
  actor_at A doing w' p' /\ w_engine w' = w_engine w /\ pl_in_flight p' = pl_in_flight p /\ released w' p' /\ (pl_parked p = [] -> pl_parked p' = []).
Proof.
  intros (c & Hw & Hf & Hp). unfold release_ready. pose proof (eo_synced _ _ _ _ _ (wo_engine _ _ _ _ _ Hw)) as Hs.
  pose proof (release_prefix_ok A c doing _ (pl_parked p) w Hw Hs Hp) as Hr.
  destruct (release_prefix _ _ _) as [w' rest] eqn:Hrel.
  destruct Hr as (Hw' & Hp' & He & Hfl & Hhd). split; [|split; [done|split; [done|split; [unfold released, durable_offset; by rewrite He|]]]].
  - exists c. split; [done|]. split; [|done]. unfold flight_ok in *. cbn. by rewrite He, Hfl.
  - cbn. intros Hn. rewrite Hn in Hrel. by injection Hrel.
Qed.

(** With everything synced nothing stays parked. *)
Lemma settled_released A doing w p : actor_at A doing w p -> settled (w_engine w) -> released w p -> pl_parked p = [].
Proof.
  intros (c & Hw & Hf & Hp) Hs Hr. destruct (pl_parked p) as [|x rest] eqn:Hpk; [done|]. specialize (Hr x). rewrite Hpk in Hr. specialize (Hr eq_refl).
  apply Forall_cons in Hp as [[_ Hx] _]. pose proof (engine_ok_head _ _ _ _ _ (wo_engine _ _ _ _ _ Hw)). unfold settled in Hs. lia.
Qed.

Lemma at_freeze_check A doing w p first :
  actor_at A doing w p ->
  let '(w', p') := reconcile_writer_freeze w p first in
  actor_at A doing w' p' /\ w_engine w' = w_engine w /\ pl_in_flight p' = pl_in_flight p /\
  if log_is_writable (w_engine w) then w' = w /\ p' = p else pl_parked p' = [].
Proof.
  intros Hi. unfold reconcile_writer_freeze. destruct (log_is_writable (w_engine w)) eqn:Hwr; [done|].
  pose proof (at_release A doing w p Hi) as Hr. destruct (release_ready w p) as [w1 p1]. destruct Hr as ((c & Hw & Hf & Hp) & He & Hfl & _ & _).
  destruct (fatal_fan_same (pk_reply <$> pl_parked p1) w1 first) as (He' & Hf' & _). split; [|split; [congruence|done]]. exists c. split.
  - apply fatal_fan_ok. cbn. by rewrite app_nil_r, omap_id_fmap.
  - split; [|by constructor]. unfold flight_ok in *. cbn. by rewrite He', Hf'.
Qed.

(** *** Barriers *)

Lemma at_fail A doing w p : actor_at A doing w p -> actor_at A doing (set_engine w (fail_async_commit (w_engine w))) p.
Proof. intros Hi. apply at_engine; [done|]. intros c tk He. destruct (fail_async_ok _ _ _ _ _ He) as [He' Hf]. split; [by rewrite Hf|by exists c]. Qed.

Lemma at_death A doing w p :
  actor_at A doing w (with_flight p None) ->
  let '(w', p') := on_flusher_death w p in
  actor_at A doing w' p' /\ pl_in_flight p' = None /\ pl_parked p' = [] /\ heads_kept w w' /\ log_is_writable (w_engine w') = false.
Proof.
  intros Hi. unfold on_flusher_death. apply at_fail in Hi. pose proof (at_freeze_check A doing _ _ (Some (Storage StIo)) Hi) as Hr.
  destruct (reconcile_writer_freeze _ _ _) as [w' p']. destruct Hr as (Hi' & He & Hf & Hp). split; [done|]. split; [done|]. split; [done|].
  unfold heads_kept. by rewrite He.
Qed.

(** No barrier is needed, or none is possible. *)
Definition no_work e : Prop := settled e \/ log_is_writable e = false.

Lemma ask_no_work w : no_work (w_engine w) -> no_work (w_engine (fst (ask oracle w))).
Proof. destruct (ask_heads w) as [Hh Hw]. intros [Hs|Hf]; [left; by apply (heads_settled _ _ Hh)|right; by rewrite Hw]. Qed.

Lemma refresh_no_work w : no_work (w_engine w) -> no_work (w_engine (refresh_cap_gate oracle w)).
Proof.
  intros Hn. apply ask_no_work in Hn. unfold refresh_cap_gate, reconcile_sheds. destruct (ask oracle w) as [w1 a]. cbn in *.
  unfold no_work, settled, durable_offset, append_head, log_is_writable in *. by destruct (_ - _)%nat.
Qed.

(** Where a barrier was asked for and none is out, nothing needs one. *)
Record issued (A : list Entry) w p w' p' : Prop := {
  is_heads : heads_kept w w';
  is_parked : pl_parked p' = pl_parked p \/ pl_parked p' = [];
  is_settled : pl_in_flight p' = None -> settled (w_engine w') \/ pl_parked p' = [] /\ log_is_writable (w_engine w') = false;
  is_flight : forall f, pl_in_flight p' = Some f -> pl_in_flight p = Some f \/ tk_target (if_commit f) = Z.of_nat (length A);
  is_idle : pl_in_flight p = None -> no_work (w_engine w) -> pl_in_flight p' = None
}.

Lemma at_dispatch A doing w p e' t :
  actor_at A doing w p -> pl_in_flight p = None ->
  (forall c tk, engine_ok cfg (w_engine w) A c tk -> advances cfg (w_engine w) c e' A (Some t)) -> tk_target t = Z.of_nat (length A) ->
  let '(w', p') := dispatch (set_engine w e') p t in
  actor_at A doing w' p' /\ heads_kept (set_engine w e') w' /\ (pl_parked p' = pl_parked p \/ pl_parked p' = []) /\
  (pl_in_flight p' = None -> pl_parked p' = [] /\ log_is_writable (w_engine w') = false) /\
  (forall f, pl_in_flight p' = Some f -> if_commit f = t).
Proof.
  intros (c & Hw & Hf & Hp) Hno Hstep Ht. pose proof Hw as [He Hs Hdo Hr Hq Ha]. destruct (Hstep c _ He) as (Hwr & c' & Hc & He').
  unfold flight_ok in Hf. rewrite Hno in Hf. destruct Hf as [Hj Hd]. unfold dispatch. cbn [pl_req_open].
  assert (Hs' : Forall (acked A c' (w_taken w)) (w_sent w)) by (eapply Forall_impl; [exact Hs|]; intros s; by apply acked_mono).
  destruct (_ && _).
  - split; [|split; [done|split; [by left|split; [done|by intros f [= <-]]]]]. exists c'. split; [by split|]. split; [|done].
    unfold flight_ok. cbn. split; [lia|]. by left.
  - set (p1 := mk_pipeline _ _ _ _). assert (Hi : actor_at A doing (set_engine w e') (with_flight p1 None)).
    { exists c'. split; [|split; [done|done]]. split; try done. unfold ticket. cbn. rewrite Hj. destruct He' as [Hl ? ? ? ?]. split; try done.
      eapply log_ok_weaken; [exact Hl|lia|by right]. }
    pose proof (at_death A doing _ p1 Hi) as Hdth. destruct (on_flusher_death _ _) as [w' p']. destruct Hdth as (Hi' & Hfl & Hpk & Hh & Hwf).
    split; [done|]. split; [done|]. split; [by right|]. split; [done|]. intros f. by rewrite Hfl.
Qed.

Lemma at_maybe_issue A doing w p :
  actor_at A doing w p -> let '(w', p') := maybe_issue oracle w p in actor_at A doing w' p' /\ issued A w p w' p'.
Proof.
  intros Hi. unfold maybe_issue. destruct (pl_in_flight p) as [f|] eqn:Hno; [split; [done|]; split; [done|by left|congruence|by left|congruence]|].
  pose proof (at_ask Horacle A doing w p Hi) as Ha. pose proof (ask_answer Horacle w) as (Hev & _). destruct (ask_heads w) as [Hh Hwa].
  destruct (ask oracle w) as [w1 a]. cbn [fst snd] in *.
  assert (Hk : forall c tk, engine_ok cfg (w_engine w1) A c tk -> _) by (intros c tk He; exact (begin_async_ok cfg _ (an_seam a) A c tk He Hev)).
  pose proof (prepare_heads (pe_log (w_engine w1)) (sm_env (an_seam a))) as Hph.
  pose proof (prepare_some (pe_log (w_engine w1)) (sm_env (an_seam a))) as Hps. unfold begin_async_commit in Hk |- *.
  destruct (prepare_async_sync _ _) as [l [[t|]|err|]]; cbn [storage_error map_err finish_call fst snd] in *.
  - pose proof (at_dispatch A doing w1 p (set_log (w_engine w1) l) t Ha Hno) as Hd.
    assert (Ht : tk_target t = Z.of_nat (length A)) by (destruct Ha as (c & Hw & _); apply (Hk _ _ (wo_engine _ _ _ _ _ Hw))).
    specialize (Hd ltac:(intros; by eapply Hk) Ht). destruct (dispatch _ _ _) as [w' p']. destruct Hd as (Hi' & Hih & Hip & His & Hif). split; [done|].
    split; [|done|by right; apply His|intros f Hfl; right; by rewrite (Hif f Hfl)|].
    + eapply heads_kept_trans; [exact Hh|]. by eapply heads_kept_trans; [|exact Hih].
    + intros _ Hnw. destruct (Hps t eq_refl) as [Hne Hwr]. exfalso. destruct Hnw as [Hs|Hf]; [|unfold log_is_writable in *; congruence].
      apply (heads_settled _ _ Hh) in Hs. done.
  - split; [apply at_engine; [done|]; intros; by eapply Hk|]. split; [by eapply heads_kept_trans|by left| |congruence|done].
    intros _. left. destruct Ha as (c & Hw & _). apply (Hk _ _ (wo_engine _ _ _ _ _ Hw)).
  - clear Hwa. assert (Hi' : actor_at A doing (set_engine w1 (set_log (w_engine w1) l)) p) by (apply at_engine; [done|]; intros; by eapply Hk).
    pose proof (at_freeze_check A doing _ _ (Some (Storage err)) Hi') as Hr. destruct (reconcile_writer_freeze _ _ _) as [w' p'].
    destruct Hr as (Hi'' & He & Hf & Hwr). split; [done|]. split; [unfold heads_kept; rewrite He; by eapply heads_kept_trans| | | |].
    + destruct (log_is_writable _); [left; by destruct Hwr as [_ ->]|by right].
    + intros _. rewrite He. destruct (log_is_writable _) eqn:Hl; [left|by right]. destruct Ha as (c & Hw & _).
      by apply (Hk _ _ (wo_engine _ _ _ _ _ Hw)).
    + rewrite Hf. congruence.
    + by rewrite Hf.
  - destruct Ha as (c & Hw & _). destruct (Hk _ _ (wo_engine _ _ _ _ _ Hw)).
Qed.

(** The tail of a commit, and a freeze it brings about. *)
Lemma at_commit_tail A doing w p :
  actor_at A doing w p ->
  let '(w', p') := commit_tail oracle w p in
  actor_at A doing w' p' /\ (no_work (w_engine w) -> no_work (w_engine w')) /\ pl_in_flight p' = pl_in_flight p /\
  (pl_parked p' = pl_parked p \/ pl_parked p' = []).
Proof.
  intros Hi. unfold commit_tail, commit_tail_after_async_completion. pose proof (at_ask Horacle A doing w p Hi) as Ha. pose proof (ask_no_work w) as Hnw.
  destruct (ask oracle w) as [w1 a]. cbn [fst snd] in *.
  assert (Hgo : forall w2 first, actor_at A doing w2 p -> (no_work (w_engine w) -> no_work (w_engine w2)) ->
    let '(w', p') := reconcile_writer_freeze w2 p first in
    actor_at A doing w' p' /\ (no_work (w_engine w) -> no_work (w_engine w')) /\ pl_in_flight p' = pl_in_flight p /\
    (pl_parked p' = pl_parked p \/ pl_parked p' = [])).
  { intros w2 first H2' Hh2. pose proof (at_freeze_check A doing w2 p first H2') as Hr. destruct (reconcile_writer_freeze _ _ _) as [w' p'].
    destruct Hr as (Hi' & He & Hf & Hwr). split; [done|]. rewrite He. split; [done|]. split; [done|].
    destruct (log_is_writable _); [left; by destruct Hwr as [_ ->]|by right]. }
  destruct (sm_tail_ok (an_seam a)); cbn [finish_call]; apply Hgo; [by apply at_same|done|apply at_fail; by apply at_same|by right].
Qed.

(** *** Completions *)

(** No barrier out, nothing parked: what an actor at rest looks like. *)
Definition quiet p : Prop := pl_in_flight p = None -> pl_parked p = [].

(** How many completions can follow each other while nothing is appended. *)
Definition rank A p : nat :=
  match pl_in_flight p with
  | None => 0
  | Some f => if tk_target (if_commit f) =? Z.of_nat (length A) then 1 else 2
  end.

Lemma complete_step cfg' e A c tk sm t n :
  engine_ok cfg' e A c tk -> (log_is_writable e = true -> tk_target t <= Z.of_nat c) ->
  advances cfg' e c (complete_async_commit e sm t n) A tk /\
  (tk_target t = Z.of_nat (length A) -> no_work (complete_async_commit e sm t n)).
Proof.
  intros He Ht. destruct (log_is_writable e) eqn:Hw.
  - destruct (complete_async_ok cfg' e sm A c tk t n He (Ht eq_refl)) as [Hadv Hd]. split; [done|]. intros Heq. left. specialize (Hd Hw).
    destruct Hadv as (_ & c' & _ & He'). pose proof (eo_synced _ _ _ _ _ He'). pose proof (engine_ok_count _ _ _ _ _ He').
    pose proof (engine_ok_head _ _ _ _ _ He'). unfold settled, durable_offset in *. lia.
  - assert (Hsame : pe_log (complete_async_commit e sm t n) = pe_log e) by (cbn; unfold complete_async_sync, log_is_writable in *; by rewrite Hw).
    split; [apply same_advances; [done|]; by apply (engine_same cfg' e)|]. intros _. right. unfold log_is_writable in *. by rewrite Hsame.
Qed.

Lemma at_completion A c doing w p f d :
  pl_in_flight p = Some f -> world_ok A c doing (omap pk_reply (pl_parked p)) w -> pipeline_ok A c w (with_flight p None) ->
  (sd_ok d = true -> log_is_writable (w_engine w) = true -> tk_target (if_commit f) <= Z.of_nat c) ->
  let '(w', p') := on_completion oracle w p d in
  actor_at A doing w' p' /\ quiet p' /\ (rank A p' < rank A p)%nat /\ (pl_in_flight p' = None -> no_work (w_engine w')).
Proof.
  intros Hf Hw Hp Hok. unfold on_completion, rank. rewrite Hf. destruct (sd_ok d).
  - assert (Hw0 : world_ok A c doing (batch_replies (with_flight p None)) w) by exact Hw.
    destruct (outside_from A c doing w (with_flight p None) (oracle (w_time w)) (Horacle _) Hw0 Hp) as (c1 & Hc1 & Hw1 & Hp1).
    destruct (ask_heads w) as [_ Hwr]. pose proof (eq_refl : fst (ask oracle w) = outside w (oracle (w_time w))) as Hout.
    destruct (ask oracle w) as [w1 a]. cbn [fst] in *. rewrite <- Hout in Hw1, Hp1. clear Hout.
    assert (Ht : log_is_writable (w_engine w1) = true -> tk_target (if_commit f) <= Z.of_nat c1) by (rewrite Hwr; intros Hx; specialize (Hok eq_refl Hx); lia).
    destruct (complete_step cfg _ _ _ _ (an_seam a) _ (sd_fsync_nanos d) (wo_engine _ _ _ _ _ Hw1) Ht) as [Hadv Hnw].
    set (w2 := set_engine w1 _). assert (H2' : actor_at A doing w2 (with_flight p None)) by (by eapply world_engine).
    pose proof (at_maybe_issue A doing w2 _ H2') as H3'. destruct (maybe_issue oracle w2 _) as [w3 p3]. destruct H3' as [H3' [_ _ His Hif Hid]].
    pose proof (at_release A doing w3 p3 H3') as H4'. destruct (release_ready w3 p3) as [w4 p4]. destruct H4' as (H4' & He4 & Hf4 & Hr4 & Hn4).
    assert (Hq4 : quiet p4).
    { intros Hn. rewrite Hf4 in Hn. destruct (His Hn) as [Hs|[Hnil _]]; [by eapply settled_released; [exact H4'|rewrite He4|]|by apply Hn4]. }
    pose proof (at_commit_tail A doing w4 p4 H4') as H5'. destruct (commit_tail oracle w4 p4) as [w5 p5]. destruct H5' as (H5' & Hn5 & Hf5 & Hp5).
    split; [by apply at_refresh|]. split; [|split; [|rewrite Hf5, Hf4; intros Hn; apply refresh_no_work, Hn5; rewrite He4; destruct (His Hn) as [|[_ ?]]; [by left|by right]]].
    + intros Hn. rewrite Hf5 in Hn. destruct Hp5 as [->| ->]; [by apply Hq4|done].
    + rewrite Hf5, Hf4. destruct (pl_in_flight p3) as [f3|] eqn:Hf3; [|destruct (_ =? _); lia].
      destruct (Hif f3 eq_refl) as [|Heq]; [done|]. rewrite (proj2 (Z.eqb_eq _ _) Heq).
      destruct (Z.eqb_spec (tk_target (if_commit f)) (Z.of_nat (length A))) as [Hx|]; [|lia]. by specialize (Hid eq_refl (Hnw Hx)).
  - assert (Hi : actor_at A doing w (with_flight p None)) by (by exists c). apply at_fail in Hi.
    pose proof (at_freeze_check A doing _ _ (Some (Storage StIo)) Hi) as Hr. destruct (reconcile_writer_freeze _ _ _) as [w' p'].
    destruct Hr as (Hi' & He' & Hf' & Hwr). split; [done|]. split; [intros _; exact Hwr|]. split; [rewrite Hf'; cbn [pl_in_flight with_flight]; destruct (_ =? _); lia|].
    intros _. right. by rewrite He'.
Qed.

(** A completion that was received, and a channel that is empty. *)
Lemma at_take A doing w p :
  actor_at A doing w p ->
  match take_done w with
  | (w1, Some d) => exists c f, pl_in_flight p = Some f /\ world_ok A c doing (omap pk_reply (pl_parked p)) w1 /\
      pipeline_ok A c w1 (with_flight p None) /\
      (sd_ok d = true -> log_is_writable (w_engine w1) = true -> tk_target (if_commit f) <= Z.of_nat c)
  | (w1, None) => w1 = w /\ fl_done (w_flusher w) = []
  end.
Proof.
  intros (c & Hw & Hf & Hp). unfold take_done. destruct (fl_done (w_flusher w)) as [|d rest] eqn:Hd; [done|]. unfold flight_ok in Hf. rewrite Hd in Hf.
  destruct (pl_in_flight p) as [f|] eqn:Hfl; [|by destruct Hf]. destruct Hf as [Hle [(_ & _ & ?)|[(_ & _ & ?)|(Hj & d' & [= -> ->] & Hok)]]]; [done|done|].
  exists c, f. split; [done|]. split; [by destruct Hw|]. by split.
Qed.

Lemma at_dead A doing w p :
  actor_at A doing w p -> fl_done (w_flusher w) = [] -> fl_alive (w_flusher w) = false -> actor_at A doing w (with_flight p None).
Proof.
  intros (c & Hw & Hf & Hp) Hd Hal. exists c. split; [done|]. split; [|done]. unfold flight_ok in *. cbn. rewrite Hal, Hd in *.
  destruct (pl_in_flight p) as [f|]; [|done]. by destruct Hf as [_ [(? & _)|[(? & _)|(? & _)]]].
Qed.

(** Completions that have arrived are all taken: another round would find none. *)
Lemma at_poll fuel A doing : forall w p,
  actor_at A doing w p ->
  let '(w', p') := poll_loop oracle fuel w p in
  actor_at A doing w' p' /\ (quiet p -> quiet p') /\ (rank A p < fuel -> forall n, poll_loop oracle (fuel + n) w p = (w', p'))%nat.
Proof.
  induction fuel as [|fuel IH]; intros w p Hi; cbn [poll_loop Nat.add]; [split; [done|]; split; [done|lia]|].
  pose proof (at_ask Horacle A doing w p Hi) as H1'. destruct (ask oracle w) as [w1 a]. cbn [fst] in H1'.
  pose proof (at_take A doing w1 p H1') as Ht. destruct (take_done w1) as [w2 [d|]].
  - destruct Ht as (c & f & Hf & Hw & Hp & Hok). pose proof (at_completion A c doing w2 p f d Hf Hw Hp Hok) as Hc.
    destruct (on_completion oracle w2 p d) as [w3 p3]. destruct Hc as (H3' & Hq & Hr & _). specialize (IH w3 p3 H3').
    destruct (poll_loop oracle fuel w3 p3) as [w4 p4]. destruct IH as (H4' & Hq4 & Hn). split; [done|]. split; [auto|]. intros Hlt. apply Hn. lia.
  - destruct Ht as [-> Hd]. destruct (fl_alive (w_flusher w1)) eqn:Hal; [done|].
    destruct (pl_in_flight p) as [f|] eqn:Hf; [|done]. pose proof (at_death A doing w1 p (at_dead A doing w1 p H1' Hd Hal)) as Hdth.
    destruct (on_flusher_death w1 p) as [w3 p3]. destruct Hdth as (H3' & _ & Hpk & _). split; [done|]. split; [by intros _ _|done].
Qed.

Lemma at_poll_completions A doing w p :
  actor_at A doing w p -> let '(w', p') := poll_completions oracle w p in actor_at A doing w' p' /\ (quiet p -> quiet p').
Proof. intros Hi. unfold poll_completions. pose proof (at_poll 3 A doing w p Hi) as Hp. destruct (poll_loop oracle 3 w p). by destruct Hp as (? & ? & _). Qed.

Lemma rank_le A p : (rank A p <= 2)%nat.
Proof. unfold rank. destruct (pl_in_flight p); [|lia]. destruct (_ =? _); lia. Qed.

Lemma at_wait_one A doing w p f :
  pl_in_flight p = Some f -> actor_at A doing w p ->
  let '(w', p') := wait_one_completion oracle w p in
  actor_at A doing w' p' /\ quiet p' /\ (rank A p' < rank A p)%nat /\ (pl_in_flight p' = None -> no_work (w_engine w')).
Proof.
  intros Hf Hi. unfold wait_one_completion. pose proof (at_ask Horacle A doing w p Hi) as H1'. destruct (ask oracle w) as [w1 a]. cbn [fst] in H1'.
  set (w2 := match fl_done (w_flusher w1) with [] => flusher_run w1 a | _ => w1 end).
  assert (H2' : actor_at A doing w2 p).
  { unfold w2. destruct (fl_done (w_flusher w1)); [|done]. destruct H1' as (c & Hw & Hp). destruct (flusher_run_ok A c doing _ w1 p a Hw Hp) as (c' & _ & ? & ?).
    by exists c'. }
  assert (Hlast : fl_done (w_flusher w2) = [] -> fl_alive (w_flusher w2) = false).
  { unfold w2. destruct (fl_done (w_flusher w1)) eqn:Hd; [|by rewrite Hd]. unfold flusher_run. destruct (fl_alive (w_flusher w1)) eqn:Hal; [|done].
    destruct (fl_job (w_flusher w1)) eqn:Hj; [destruct (flusher_sync _ _ _); cbn; by rewrite Hd|]. intros _. exfalso.
    destruct H1' as (c & _ & Hfl & _). unfold flight_ok in Hfl. rewrite Hf, Hd, Hj, Hal in Hfl.
    by destruct Hfl as [_ [(_ & ? & _)|[(_ & ? & _)|(_ & d & ? & _)]]]. }
  clearbody w2. pose proof (at_take A doing w2 p H2') as Ht. destruct (take_done w2) as [w3 [d|]].
  - destruct Ht as (c & f' & Hf' & Hw & Hp & Hok). by apply (at_completion A c doing w3 p f' d).
  - destruct Ht as [-> Hd]. pose proof (at_death A doing w2 p (at_dead A doing w2 p H2' Hd (Hlast Hd))) as Hdth.
    destruct (on_flusher_death w2 p) as [w4 p4]. destruct Hdth as (H4' & Hf4 & Hpk & _ & Hwf). split; [done|]. split; [by intros _|]. split; [|by right].
    unfold rank. rewrite Hf, Hf4. destruct (_ =? _); lia.
Qed.

Lemma at_wait_all fuel A doing : forall w p,
  actor_at A doing w p ->
  let '(w', p') := wait_all oracle fuel w p in
  actor_at A doing w' p' /\ (quiet p -> quiet p') /\ (rank A p <= fuel -> pl_in_flight p' = None)%nat.
Proof.
  induction fuel as [|fuel IH]; intros w p Hi; cbn [wait_all].
  - split; [done|]. split; [done|]. unfold rank. destruct (pl_in_flight p); [destruct (_ =? _); lia|done].
  - destruct (pl_in_flight p) as [f|] eqn:Hf; [|done]. pose proof (at_wait_one A doing w p f Hf Hi) as Hw.
    destruct (wait_one_completion oracle w p) as [w1 p1]. destruct Hw as (H1' & Hq & Hr & _). specialize (IH w1 p1 H1').
    destruct (wait_all oracle fuel w1 p1) as [w2 p2]. destruct IH as (H2' & Hq2 & Hn). split; [done|]. split; [auto|]. intros Hle. apply Hn. lia.
Qed.

(** *** Barriers the actor waits for *)

Lemma at_barrier A doing w p :
  actor_at A doing w p ->
  let '(w', p') := barrier_if_unsynced k oracle w p in
  actor_at A doing w' p' /\ pl_in_flight p' = pl_in_flight p /\ no_work (w_engine w') /\ (pl_parked p' = pl_parked p \/ pl_parked p' = []).
Proof.
  intros Hi. unfold barrier_if_unsynced. destruct (has_unsynced (w_engine w)) eqn:Hu.
  - pose proof (at_ask Horacle A doing w p Hi) as H1'. pose proof (ask_answer Horacle w) as (Hev & _). destruct (ask oracle w) as [w1 a]. cbn [fst snd] in *.
    assert (Hk : forall c tk, engine_ok cfg (w_engine w1) A c tk -> _) by (intros c tk He; exact (commit_batch_ok cfg k _ (an_seam a) A c tk He Hev)).
    destruct H1' as (c & Hw & Hb). pose proof (Hk _ _ (wo_engine _ _ _ _ _ Hw)) as Hnow. assert (H1' : actor_at A doing w1 p) by (by exists c).
    destruct (commit_batch _ _ _) as [e' [[]|err|]]; cbn [finish_call]; [| |done].
    + split; [apply at_engine; [done|]; intros; by eapply Hk|]. split; [done|]. split; [|by left]. left. by apply Hnow.
    + assert (H2' : actor_at A doing (set_engine w1 e') p) by (apply at_engine; [done|]; intros; by eapply Hk).
      pose proof (at_freeze_check A doing _ _ (Some err) H2') as Hr. destruct (reconcile_writer_freeze _ _ _) as [w' p'].
      destruct Hr as (Hi' & He & Hf & Hwr). split; [done|]. split; [done|]. unfold no_work. rewrite He. cbn [w_engine set_engine] in *.
      destruct (log_is_writable e') eqn:Hl; [|split; [by right|by right]]. split; [left; by apply Hnow|left; by destruct Hwr as [_ ->]].
  - split; [done|]. split; [done|]. split; [|by left]. unfold has_unsynced, has_unsynced_records in Hu. apply andb_false_iff in Hu as [Hu|Hu]; [by right|left].
    unfold settled, durable_offset, append_head. destruct (Z.eqb_spec (l_synced_offset (pe_log (w_engine w))) (l_next_offset (pe_log (w_engine w)))); done.
Qed.

(** Released where everything is synced, otherwise the log is frozen. *)
Lemma at_commit_inline A doing w p :
  actor_at A doing w p ->
  let '(w', p') := commit_inline k oracle w p in
  actor_at A doing w' p' /\ pl_in_flight p' = pl_in_flight p /\ (pl_parked p' = [] \/ log_is_writable (w_engine w') = false).
Proof.
  intros Hi. unfold commit_inline. pose proof (at_barrier A doing w p Hi) as Hb. destruct (barrier_if_unsynced _ _ _ _) as [w1 p1].
  destruct Hb as (H1' & Hf & Hnw & _). pose proof (at_release A doing w1 p1 H1') as Hr. destruct (release_ready w1 p1) as [w2 p2].
  destruct Hr as (H2' & He & Hf2 & Hrel & _). split; [done|]. split; [congruence|]. rewrite He.
  destruct Hnw as [Hs|Hw]; [left; eapply settled_released; [exact H2'|by rewrite He|done]|by right].
Qed.

(** After a quiesce no barrier is out and every reply was sent. *)
Lemma at_quiesce A doing w p :
  actor_at A doing w p ->
  let '(w', p') := quiesce_to_durable k oracle w p in actor_at A doing w' p' /\ pl_in_flight p' = None /\ pl_parked p' = [].
Proof.
  intros Hi. unfold quiesce_to_durable. pose proof (at_wait_all 3 A doing w p Hi) as Hw. destruct (wait_all oracle 3 w p) as [w1 p1].
  destruct Hw as (H1' & _ & Hn). pose proof (rank_le A p) as Hrk. specialize (Hn ltac:(lia)).
  pose proof (at_commit_inline A doing w1 p1 H1') as Hb. unfold commit_inline in Hb. destruct (barrier_if_unsynced _ _ _ _) as [w2 p2].
  destruct (release_ready w2 p2) as [w3 p3]. destruct Hb as (H3' & Hf3 & Hnil).
  pose proof (at_freeze_check A doing w3 p3 None H3') as Hr. destruct (reconcile_writer_freeze _ _ _) as [w4 p4]. destruct Hr as (H4' & _ & Hf4 & Hwr).
  split; [done|]. split; [congruence|]. destruct (log_is_writable _); [|done]. destruct Hwr as [_ ->]. by destruct Hnil.
Qed.

(** *** Admission *)

(** The throttle returns when the record fits under the bound, or when no
    barrier can make room. *)
Lemma at_throttle_loop fuel A doing n : forall w p,
  actor_at A doing w p ->
  let '(w', p') := throttle_loop k oracle fuel w p n in
  actor_at A doing w' p' /\ (quiet p -> quiet p').
Proof.
  induction fuel as [|fuel IH]; intros w p Hi; cbn [throttle_loop]; [done|]. destruct (_ || _); [done|].
  set (r := match pl_in_flight p with Some _ => (w, p) | None => maybe_issue oracle w p end).
  assert (Hr : let '(w1, p1) := r in actor_at A doing w1 p1 /\ (quiet p -> quiet p1)).
  { unfold r. destruct (pl_in_flight p) eqn:Hf; [done|]. pose proof (at_maybe_issue A doing w p Hi) as Hm. destruct (maybe_issue oracle w p) as [w1 p1].
    destruct Hm as [H1' [_ Hpk _ _ _]]. split; [done|]. intros Hq _. specialize (Hq Hf). destruct Hpk as [->|]; done. }
  destruct r as [w1 p1]. destruct Hr as [H1' Hq1]. destruct (pl_in_flight p1) as [f|] eqn:Hf; [|done].
  pose proof (at_wait_one A doing w1 p1 f Hf H1') as Hw. destruct (wait_one_completion oracle w1 p1) as [w2 p2]. destruct Hw as (H2' & Hq2 & _).
  specialize (IH w2 p2 H2'). destruct (throttle_loop _ _ _ _ _ _) as [w3 p3]. destruct IH as [H3' Hq3]. split; [done|]. auto.
Qed.

(** The record fits under the bound on unsynced bytes. *)
Definition dirty_fits e (n : Z) : bool := (unsynced_bytes e =? 0) || (sat_add64 (unsynced_bytes e) n <=? pc_sync_max_dirty_bytes k).

(** How many rounds the throttle may need. *)
Definition throttle_cost A w p (fuel : nat) : Prop :=
  pl_in_flight p = None /\ no_work (w_engine w) /\ (1 <= fuel)%nat \/
  (match pl_in_flight p with None => 2 | Some _ => S (rank A p) end <= fuel)%nat.

(** Three rounds are enough, and leave only what no barrier can help. *)
Lemma throttle_enough fuel A doing n : forall m w p,
  actor_at A doing w p -> throttle_cost A w p fuel ->
  throttle_loop k oracle (fuel + m) w p n = throttle_loop k oracle fuel w p n /\
  let '(w', p') := throttle_loop k oracle fuel w p n in dirty_fits (w_engine w') n = true \/ pl_in_flight p' = None /\ no_work (w_engine w').
Proof.
  induction fuel as [|fuel IH]; intros m w p Hi Hcost; [destruct Hcost as [(_ & _ & ?)|Hc]; [lia|destruct (pl_in_flight p); lia]|].
  cbn [throttle_loop Nat.add]. cbv zeta. fold (dirty_fits (w_engine w) n). destruct (dirty_fits (w_engine w) n) eqn:Hfit; [split; [done|by left]|].
  set (r := match pl_in_flight p with Some _ => (w, p) | None => maybe_issue oracle w p end).
  assert (Hr : let '(w1, p1) := r in actor_at A doing w1 p1 /\
    match pl_in_flight p1 with Some _ => (rank A p1 <= fuel)%nat | None => no_work (w_engine w1) end).
  { unfold r, throttle_cost in *. destruct (pl_in_flight p) as [f|] eqn:Hf; [rewrite Hf; split; [done|]; destruct Hcost as [(? & _)|]; [done|lia]|].
    pose proof (at_maybe_issue A doing w p Hi) as Hm. destruct (maybe_issue oracle w p) as [w1 p1]. destruct Hm as [H1' [_ _ His Hif Hid]]. split; [done|].
    unfold rank. destruct (pl_in_flight p1) as [f1|] eqn:Hf1; [|destruct (His eq_refl) as [|[_ ?]]; [by left|by right]].
    destruct (Hif f1 eq_refl) as [|Heq]; [congruence|]. rewrite (proj2 (Z.eqb_eq _ _) Heq).
    destruct Hcost as [(_ & Hnw & _)|]; [by specialize (Hid Hf Hnw)|lia]. }
  destruct r as [w1 p1]. destruct Hr as [H1' Hc1]. destruct (pl_in_flight p1) as [f|] eqn:Hf; [|split; [done|right; by rewrite Hf]].
  pose proof (at_wait_one A doing w1 p1 f Hf H1') as Hw. destruct (wait_one_completion oracle w1 p1) as [w2 p2]. destruct Hw as (H2' & _ & Hlt & Hnw).
  apply IH; [done|]. unfold throttle_cost. destruct (pl_in_flight p2) eqn:Hf2; [right; lia|left]. split; [done|]. split; [by apply Hnw|lia].
Qed.

#[local] Program Instance pipeline_loop_safe : LoopSafe Pipeline.
Next Obligation.
  intros doing w p n [A Hi]. change (throttle_admit w p n) with (pipeline_throttle k oracle w p n). unfold pipeline_throttle.
  destruct (_ =? 0); [by exists A|]. pose proof (at_throttle_loop 4 A doing n w p Hi) as Ht. destruct (throttle_loop _ _ _ _ _ _). exists A. apply Ht.
Qed.
Next Obligation.
  intros doing w p [A Hi]. change (drain_for_headroom w p) with (quiesce_to_durable k oracle w p). pose proof (at_quiesce A doing w p Hi) as Hq.
  destruct (quiesce_to_durable _ _ _ _). exists A. apply Hq.
Qed.
Next Obligation.
  intros A doing w p o reply a (c & Hw & Hf & Hp) Hc. change (park w p o reply) with (pipeline_park w p o reply). unfold pipeline_park.
  pose proof (engine_ok_head _ _ _ _ _ (wo_engine _ _ _ _ _ Hw)) as Hh. destruct (Z.leb_spec (append_head (w_engine w)) (durable_offset (w_engine w))) as [Hle|Hlt].
  - exists A, c. split.
    + eapply send_sent; [done|]. intros id -> o' Ho. cbn in Ho. unfold ack_bound. rewrite Hlevel.
      assert (o' = o) as -> by (destruct o, o'; cbn in Ho; congruence). refine (covered_mono _ _ _ _ _ _ _ _ _ _ _ Hc); [done|done|].
      pose proof (eo_synced _ _ _ _ _ (wo_engine _ _ _ _ _ Hw)). unfold durable_offset in Hle. lia.
    + split; [|eapply Forall_impl; [exact Hp|]; intros x; unfold parked_fits; by destruct reply]. unfold flight_ok in *. by destruct reply.
  - exists A, c. split.
    + destruct Hw as [He Hs Hdo Hr Hq Ha]. split; try done; [set_solver|]. rewrite <- Hr. cbn. rewrite omap_app. destruct reply; cbn; [solve_Permutation|by rewrite app_nil_r].
    + split; [done|]. cbn. apply Forall_app_2; [done|]. constructor; [|constructor]. split; cbn; [by rewrite Hh|lia].
Qed.

(** *** Passes *)

Definition carried (co : option (Command (F := F))) : Prop := from_option command_ok True co.

Lemma inv_linger_loop n : forall w p,
  actor_inv [] w p -> let '(w', p', co) := linger_loop k oracle n w p in actor_inv [] w' p' /\ carried co.
Proof.
  induction n as [|n IH]; intros w p [A Hi]; cbn [linger_loop]; [split; [by exists A|done]|].
  pose proof (at_receive Horacle A [] w p Hi) as Hr. destruct (receive oracle w) as [w1 [cmd| |]]; destruct Hr as [H1' Hcmd]; [|split; [by exists A|done]..].
  assert (Hgo : forall w2 p2, actor_inv [] w2 p2 ->
    let '(w', p', co) := match pl_in_flight p2 with Some _ => (w2, p2, None) | None => linger_loop k oracle n w2 p2 end in actor_inv [] w' p' /\ carried co).
  { intros w2 p2 H2'. destruct (pl_in_flight p2); [done|by apply IH]. }
  assert (Hi1 : actor_inv [] w1 p) by (by exists A). pose proof (at_maybe_issue A [] w1 p H1') as Hm. destruct cmd as [a id|a|l|job|].
  - pose proof (inv_process Horacle [] w1 p a (Some id) Hcmd Hi1) as Hp. destruct (process_produce _ _ _ _ _ _) as [w2 p2]. by apply Hgo.
  - pose proof (inv_process Horacle [] w1 p a None Hcmd Hi1) as Hp. destruct (process_produce _ _ _ _ _ _) as [w2 p2]. by apply Hgo.
  - pose proof (inv_process_all Horacle [] l w1 p Hcmd Hi1) as Hp. destruct (process_all _ _ _ _ _) as [w2 p2]. by apply Hgo.
  - destruct (maybe_issue oracle w1 p) as [w2 p2]. split; [exists A; apply Hm|done].
  - destruct (maybe_issue oracle w1 p) as [w2 p2]. split; [exists A; apply Hm|done].
Qed.

(** The actor may sleep: a barrier is out, or nothing waits, or the log is frozen. *)
Definition may_sleep w p : Prop := pl_in_flight p = None -> pl_parked p = [] \/ log_is_writable (w_engine w) = false.

Lemma at_issue A doing w p :
  actor_at A doing w p -> released w p -> let '(w', p') := maybe_issue oracle w p in actor_at A doing w' p' /\ may_sleep w' p'.
Proof.
  intros Hi Hrel. pose proof (at_maybe_issue A doing w p Hi) as Hm. destruct (maybe_issue oracle w p) as [w' p'].
  destruct Hm as [Hi' [[Hs _] Hpk His _ _]]. split; [done|]. intros Hn. left. destruct (His Hn) as [Hset|[? _]]; [|done].
  eapply settled_released; [exact Hi'|done|]. intros x Hx. unfold released, durable_offset in *. rewrite Hs.
  destruct Hpk as [Hpk|Hpk]; rewrite Hpk in Hx; [by apply Hrel|done].
Qed.

Definition lingers : Prop := exists t, an_linger (oracle t) <> 0%nat.

Lemma inv_linger w p :
  actor_inv [] w p -> let '(w', p', co) := linger k oracle w p in actor_inv [] w' p' /\ carried co.
Proof.
  intros [A Hi]. unfold linger. destruct (0 <? _); [|split; [by exists A|done]]. pose proof (at_ask Horacle A [] w p Hi) as Ha.
  destruct (ask oracle w) as [w1 a]. apply inv_linger_loop. by exists A.
Qed.

Lemma no_linger A w p :
  ~ lingers -> actor_at A [] w p -> let '(w', p', co) := linger k oracle w p in actor_at A [] w' p' /\ heads_kept w w' /\ p' = p /\ co = None.
Proof.
  intros Hno Hi. unfold linger. destruct (0 <? _); [|done]. pose proof (at_ask Horacle A [] w p Hi) as Ha. destruct (ask_heads w) as [Hh _].
  assert (Hl : an_linger (snd (ask oracle w)) = 0%nat).
  { destruct (decide (an_linger (oracle (w_time w)) = 0%nat)) as [|Hne]; [done|]. destruct Hno. by exists (w_time w). }
  destruct (ask oracle w) as [w1 a]. cbn [fst snd] in *. by rewrite Hl.
Qed.

Lemma receive_heads w : heads_kept w (fst (receive oracle w)).
Proof. unfold receive. destruct (ask_heads w) as [Hh _]. destruct (ask oracle w) as [w1 a]. by destruct (w_queue w1). Qed.

Lemma released_heads w w' p : heads_kept w w' -> released w p -> released w' p.
Proof. intros [Hs _] Hr x Hx. unfold released, durable_offset in *. rewrite Hs. by apply Hr. Qed.

Lemma inv_finish_pass w p :
  actor_inv [] w p -> released w p ->
  let '(w', p', co) := finish_pass k oracle w p in actor_inv [] w' p' /\ carried co /\ (~ lingers -> may_sleep w' p').
Proof.
  intros [A Hi] Hrel. unfold finish_pass. destruct (pl_in_flight p) as [f|] eqn:Hf; [split; [by exists A|]; split; [done|]; intros _; unfold may_sleep; congruence|].
  assert (Hgo : forall w1, actor_at A [] w1 p -> heads_kept w w1 ->
    let '(w', p') := maybe_issue oracle w1 p in actor_inv [] w' p' /\ may_sleep w' p').
  { intros w1 H1' Hh. pose proof (at_issue A [] w1 p H1' (released_heads _ _ _ Hh Hrel)) as Hm. destruct (maybe_issue oracle w1 p) as [w' p'].
    destruct Hm as [Hm Hsl]. split; [by exists A|done]. }
  destruct (pl_parked p) as [|x [|y rest]] eqn:Hpk.
  - specialize (Hgo w Hi ltac:(done)). destruct (maybe_issue oracle w p) as [w' p']. by destruct Hgo.
  - pose proof (at_receive Horacle A [] w p Hi) as Hr. pose proof (receive_heads w) as Hh.
    destruct (receive oracle w) as [w1 [cmd| |]]; cbn [fst] in Hh; destruct Hr as [H1' Hcmd].
    + specialize (Hgo w1 H1' Hh). destruct (maybe_issue oracle w1 p) as [w' p']. by destruct Hgo.
    + pose proof (at_commit_inline A [] w1 p H1') as Hc. destruct (commit_inline _ _ _ _) as [w' p']. destruct Hc as (Hi' & _ & Hs).
      split; [by exists A|]. split; [done|]. by intros _ _.
    + pose proof (at_commit_inline A [] w1 p H1') as Hc. destruct (commit_inline _ _ _ _) as [w' p']. destruct Hc as (Hi' & _ & Hs).
      split; [by exists A|]. split; [done|]. by intros _ _.
  - pose proof (inv_linger w p (ex_intro _ A Hi)) as Hl. pose proof (fun Hno => no_linger A w p Hno Hi) as Hno.
    destruct (linger k oracle w p) as [[w1 p1] [cmd|]]; destruct Hl as [[A1 H1'] Hcmd].
    + split; [by exists A1|]. split; [done|]. intros Hx. by destruct (Hno Hx) as (_ & _ & _ & ?).
    + pose proof (at_maybe_issue A1 [] w1 p1 H1') as Hm.
      assert (Hsl : ~ lingers -> let '(w', p') := maybe_issue oracle w1 p1 in may_sleep w' p').
      { intros Hx. destruct (Hno Hx) as (Ha & Hh & -> & _). specialize (Hgo w1 Ha Hh). destruct (maybe_issue oracle w1 p). apply Hgo. }
      destruct (maybe_issue oracle w1 p1) as [w' p']. split; [exists A1; apply Hm|]. by split.
Qed.

Lemma inv_poll doing w p :
  actor_inv doing w p -> let '(w', p') := poll_completions oracle w p in actor_inv doing w' p' /\ (quiet p -> quiet p').
Proof.
  intros [A Hi]. pose proof (at_poll_completions A doing w p Hi) as Hp. destruct (poll_completions oracle w p) as [w' p']. destruct Hp as [Hi' Hq].
  split; [by exists A|done].
Qed.

Lemma inv_commands cmds : forall w p,
  Forall command_ok cmds -> actor_inv [] w p ->
  let '(w', p', stop) := pipelined_commands k oracle w p cmds in
  actor_inv [] w' p' /\ (stop = true -> pl_in_flight p' = None /\ pl_parked p' = []).
Proof.
  induction cmds as [|cmd cmds IH]; intros w p Hok Hi; [done|]. apply Forall_cons in Hok as [Hcmd Hok]. cbn [pipelined_commands].
  pose proof (inv_poll [] w p Hi) as Hp. destruct (poll_completions oracle w p) as [w1 p1]. destruct Hp as [H1' _]. destruct cmd as [a id|a|l|job|].
  - pose proof (inv_process Horacle [] w1 p1 a (Some id) Hcmd H1') as H2'. destruct (process_produce _ _ _ _ _ _) as [w2 p2]. by apply IH.
  - pose proof (inv_process Horacle [] w1 p1 a None Hcmd H1') as H2'. destruct (process_produce _ _ _ _ _ _) as [w2 p2]. by apply IH.
  - pose proof (inv_process_all Horacle [] l w1 p1 Hcmd H1') as H2'. destruct (process_all _ _ _ _ _) as [w2 p2]. by apply IH.
  - pose proof (inv_run_job Horacle [] w1 p1 job Hcmd H1') as H2'. pose proof (inv_poll [] _ p1 H2') as H3'.
    destruct (poll_completions oracle _ p1) as [w3 p3]. destruct H3' as [[A H3'] _]. pose proof (at_release A [] w3 p3 H3') as H4'.
    destruct (release_ready w3 p3) as [w4 p4]. destruct H4' as [H4' _]. pose proof (at_freeze_check A [] w4 p4 None H4') as H5'.
    destruct (reconcile_writer_freeze _ _ _) as [w5 p5]. apply IH; [done|]. exists A. apply H5'.
  - destruct H1' as [A H1']. pose proof (at_quiesce A [] w1 p1 H1') as H2'. destruct (quiesce_to_durable _ _ _ _) as [w2 p2].
    destruct H2' as (H2' & Hf & Hn). split; [|done]. exists A. exact (at_drain_shutdown Horacle A [] _ p2 cmds (at_shutdown_barrier Horacle A [] w2 p2 H2')).
Qed.

(** What holds between two turns. *)
Definition pipelined_state_ok (s : ActorState Pipeline) : Prop :=
  match s with
  | Running w p co => actor_inv [] w p /\ carried co /\ (~ lingers -> quiet p)
  | Exited w p => actor_inv [] w p /\ pl_in_flight p = None /\ pl_parked p = []
  end.

Lemma pipelined_pass_ok w p cmd : command_ok cmd -> actor_inv [] w p -> pipelined_state_ok (pipelined_pass k oracle w p cmd).
Proof.
  intros Hcmd Hi. unfold pipelined_pass. pose proof (inv_poll [] w p Hi) as H1'. destruct (poll_completions oracle w p) as [w1 p1].
  destruct H1' as [[A1 H1'] _]. pose proof (at_drain Horacle A1 [] w1 p1 H1') as Hd. destruct (drain_channel oracle w1) as [w2 rest]. destruct Hd as [H2' Hrest].
  pose proof (inv_commands (cmd :: rest) w2 p1 (Forall_cons_2 _ _ _ Hcmd Hrest) (ex_intro _ A1 H2')) as H3'.
  destruct (pipelined_commands _ _ _ _ _) as [[w3 p3] [|]]; destruct H3' as [H3' Hstop]; [split; [done|by apply Hstop]|]. clear Hstop.
  pose proof (inv_poll [] w3 p3 H3') as H4'. destruct (poll_completions oracle w3 p3) as [w4 p4]. destruct H4' as [[A4 H4'] _].
  pose proof (at_release A4 [] w4 p4 H4') as H5'. destruct (release_ready w4 p4) as [w5 p5]. destruct H5' as (H5' & _ & _ & Hrel & _).
  pose proof (inv_finish_pass w5 p5 (ex_intro _ A4 H5') Hrel) as H6'. destruct (finish_pass _ _ _ _) as [[w6 p6] co]. destruct H6' as ([A6 H6'] & Hco & Hsl).
  pose proof (at_freeze_check A6 [] w6 p6 None H6') as H7'. destruct (reconcile_writer_freeze _ _ _) as [w7 p7]. destruct H7' as (H7' & He & Hf & Hwr).
  split; [exists A6; by apply at_queue_empty, at_refresh|]. split; [done|]. intros Hno Hn. rewrite Hf in Hn. specialize (Hsl Hno Hn).
  destruct (log_is_writable (w_engine w6)); [|done]. destruct Hwr as [_ ->]. by destruct Hsl.
Qed.

Lemma pipelined_turn_ok s : pipelined_state_ok s -> pipelined_state_ok (pipelined_turn k oracle s).
Proof.
  destruct s as [w p [cmd|]|w p]; [| |done]; intros (Hi & Hco & Hq); cbn [pipelined_turn]; [by apply pipelined_pass_ok|]. destruct Hi as [A Hi].
  pose proof (at_receive Horacle A [] w p Hi) as Hr. destruct (receive oracle w) as [w1 [cmd| |]]; destruct Hr as [H1' Hcmd].
  - apply pipelined_pass_ok; [done|by exists A].
  - destruct (pl_in_flight p) as [f|] eqn:Hf; [|split; [by exists A|done]]. pose proof (at_wait_one A [] w1 p f Hf H1') as Hw.
    destruct (wait_one_completion oracle w1 p) as [w2 p2]. destruct Hw as (H2' & Hq2 & _). split; [by exists A|done].
  - unfold pipelined_exit. pose proof (at_quiesce A [] w1 p H1') as H2'. destruct (quiesce_to_durable _ _ _ _) as [w2 p2]. destruct H2' as (H2' & Hf & Hn).
    split; [by exists A|done].
Qed.

Lemma run_pipelined_ok e A c cap turns : engine_ok cfg e A c None -> pipelined_state_ok (run_pipelined k oracle (world_new e cap) turns).
Proof.
  intros He. induction turns as [|turns IH]; [|cbn; by apply pipelined_turn_ok]. split; [|split; done]. exists A, c. split; [by split|]. split; [done|constructor].
Qed.

Lemma pipelined_world e A c cap turns :
  engine_ok cfg e A c None ->
  let s := run_pipelined k oracle (world_new e cap) turns in exists A' c', world_ok A' c' [] (omap pk_reply (pl_parked (state_batch s))) (state_world s).
Proof.
  intros He s. pose proof (run_pipelined_ok e A c cap turns He) as Hs. fold s in Hs.
  destruct s as [w p co|w p]; destruct Hs as [(A' & c' & Hw & _) _]; by exists A', c'.
Qed.
End pipelined.

(** ** What a producer can rely on *)

(** The record [r] at [offset] is the message [m], its delay request resolved. *)
Definition holds (m : Append) (offset : Z) (r : OwnedRecord) : Prop :=
  r_offset r = offset /\ r_timestamp_ms r = ap_timestamp_ms m /\ r_key r = ap_key m /\ r_payload r = ap_payload m /\
  exists now patched, resolve_delay_headers (ap_headers m) now (pc_max_delay_ms k) = Ok patched /\ r_headers r = stored_headers (ap_headers m) patched.

Lemma owned_from_view E : forall idx i en, E !! i = Some en -> owned 0 idx E !! i = Some (from_view (sat_add64 0 (Z.of_nat (idx + i))) (fst (fst en)) (snd (fst en))).
Proof.
  induction E as [|[[rec sb] tg] E IH]; intros idx [|i] en; try done; cbn; [intros [= <-]; by rewrite Nat.add_0_r|].
  intros Hi. etransitivity; [exact (IH (S idx) i en Hi)|]. do 3 f_equal. lia.
Qed.

Lemma stored_holds A m offset en n :
  A !! Z.to_nat offset = Some en -> stored k m offset en -> 0 <= offset < Z.of_nat n -> Z.of_nat n <= u64_max ->
  exists r, owned 0 0 (take n A) !! Z.to_nat offset = Some r /\ holds m offset r.
Proof.
  intros Hl (now & patched & Hr & ->) Ho Hn. eexists. split; [apply owned_from_view; rewrite lookup_take_lt by lia; exact Hl|].
  cbn. split; [unfold sat_add; cbn; lia|]. split; [done|]. split; [done|]. split; [done|]. by exists now, patched.
Qed.

(** What a log that is opened on the disk of [w] holds for the replies of [w]. *)
Definition replies_hold w (recs : list OwnedRecord) : Prop :=
  (forall id offset, (id, OutAppended offset) ∈ w_sent w \/ (id, OutFireAndForgetAppended offset) ∈ w_sent w ->
    exists a r, (Some id, a) ∈ w_taken w /\ recs !! Z.to_nat offset = Some r /\ holds (oa_append a) offset r) /\
  forall id offset, (id, OutAppendedDuplicate offset) ∈ w_sent w -> offset < Z.of_nat (length recs).

Lemma world_survives A c doing owed w active ev :
  config_ok cfg -> pc_durability_level k = LevelSync -> world_ok A c doing owed w -> env_ok ev -> env_healthy ev ->
  exists d l recs, log_open (dir_power_loss (log_disk (pe_log (w_engine w))) active) cfg ev = (d, Ok l) /\
    log_records (log_disk l) = Ok recs /\ l_next_offset l = Z.of_nat (length recs) /\ replies_hold w recs.
Proof.
  intros Hcfg Hlv [[Hl _ _ _ _] Hs _ _ _ _] Hev Hh.
  pose proof (reopen_ok cfg (mk_log_run (inr (pe_log (w_engine w))) (ticket w) A (map r_offset (owned 0 0 A)) c) active ev Hcfg (conj eq_refl Hl) Hev) as Ho.
  cbn [lr_accepted lr_confirmed run_disk lr_state] in Ho. destruct (log_open _ cfg ev) as [d [l|e|]]; [|by destruct Ho|done].
  destruct Ho as (ss & tail & m & Hm & Hi & HA & _ & Hfl). destruct (li_next _ _ _ _ Hi) as [Hn _]. pose proof (co_len _ _ _ (li_content _ _ _ _ Hi)) as Hu.
  rewrite HA, length_take, Nat.min_l in Hn, Hu by lia. exists d, l, (owned 0 0 (take m A)).
  assert (Hlen : length (owned 0 0 (take m A)) = m) by (rewrite length_owned, length_take; lia).
  split; [done|]. split; [by rewrite (read_flushed cfg l ss tail Hi Hfl), HA|]. split; [by rewrite Hlen|]. rewrite Forall_forall in Hs. split.
  - intros id offset Hin. assert (Hcov : exists a en, (Some id, a) ∈ w_taken w /\ 0 <= offset < Z.of_nat c /\ A !! Z.to_nat offset = Some en /\ stored k (oa_append a) offset en).
    { unfold acked, ack_bound in Hs. rewrite Hlv in Hs.
      destruct Hin as [Hin|Hin]; [exact (Hs _ Hin (PendAppended offset) eq_refl)|exact (Hs _ Hin (PendFireAndForget offset) eq_refl)]. }
    destruct Hcov as (a & en & Ht & Hoff & Hat & Hst). destruct (stored_holds A (oa_append a) offset en m Hat Hst) as (r & Hr & Hr'); [lia|lia|]. by exists a, r.
  - intros id offset Hin. pose proof (Hs _ Hin (PendDuplicate offset) eq_refl) as Hx. cbn in Hx. unfold ack_bound in Hx. rewrite Hlv in Hx. rewrite Hlen. lia.
Qed.



(** An engine that starts on a log recovered from a power loss. *)
Lemma reopened_engine_ok r active ev d l dedup seqs bp :
  config_ok cfg -> run_inv cfg r -> env_ok ev -> log_open (dir_power_loss (run_disk r) active) cfg ev = (d, Ok l) ->
  exists m, engine_ok cfg (mk_produce_engine l (dedup_new dedup) (seqs_new seqs) false bp (mk_produce_counters 0 0 0 0 0 0) 0 0) (take m (lr_accepted r)) m None.
Proof.
  intros Hcfg Hr Hev Ho. pose proof (reopen_ok cfg r active ev Hcfg Hr Hev) as Hx. rewrite Ho in Hx. destruct Hx as (ss & tail & m & Hm & Hi & HA & Hsy & _).
  pose proof (li_synced _ _ _ _ Hi) as Hd. destruct (li_next _ _ _ _ Hi) as [Hn _]. rewrite HA, length_take, Nat.min_l in Hn by lia. exists m. split; cbn.
  - exists ss, tail. split; [done|]. split; [done|]. unfold durable_count. split; [lia|done].
  - lia.
  - intros _. by rewrite Hsy, Hn.
  - intros pid w Hw. cbn in Hw. by rewrite lookup_empty in Hw.
  - intros pid p q Hp. cbn in Hp. by rewrite lookup_empty in Hp.
Qed.

(** With no barrier out an actor without commands stays as it is. *)
Lemma idle_turns n : forall w (p : Pipeline),
  pl_in_flight p = None -> w_queue w = [] -> w_open w = true ->
  (forall t, (w_time w <= t)%nat -> an_arrivals (oracle t) = [] /\ an_close (oracle t) = false) ->
  exists w', Nat.iter n (pipelined_turn k oracle) (Running w p None) = Running w' p None /\
    w_sent w' = w_sent w /\ durable_offset (w_engine w') = durable_offset (w_engine w).
Proof.
  induction n as [|n IH]; intros w p Hf Hq Hop Hor; [by exists w|]. rewrite Nat.iter_succ_r.
  assert (Ht : exists w1, pipelined_turn k oracle (Running w p None) = Running w1 p None /\ w_sent w1 = w_sent w /\ w_queue w1 = [] /\ w_open w1 = true /\
    w_time w1 = S (w_time w) /\ durable_offset (w_engine w1) = durable_offset (w_engine w)).
  { destruct (ask_heads w) as [[Hs _] _]. cbn [pipelined_turn receive]. unfold receive. destruct (Hor (w_time w) ltac:(lia)) as [Harr Hcl].
    assert (Hw1 : w_sent (fst (ask oracle w)) = w_sent w /\ w_queue (fst (ask oracle w)) = [] /\ w_open (fst (ask oracle w)) = true /\ w_time (fst (ask oracle w)) = S (w_time w)).
    { cbn. unfold outside. rewrite Hq, Hop, Harr, Hcl. unfold flusher_step, flusher_run. destruct (an_flusher _); [done| |done]. cbn.
      destruct (fl_alive _); [|done]. destruct (fl_job _); [|done]. by destruct (flusher_sync _ _ _). }
    destruct (ask oracle w) as [w1 a]. cbn [fst] in *. destruct Hw1 as (H1' & H2' & H3' & H4'). rewrite H2', H3', Hf. exists w1. done. }
  destruct Ht as (w1 & -> & Hs1 & Hq1 & Ho1 & Ht1 & Hd1). destruct (IH w1 p Hf Hq1 Ho1) as (w' & Hit & Hs' & Hd'); [intros t Hle; apply Hor; lia|].
  exists w'. split; [done|]. split; congruence.
Qed.

Lemma idle_run w0 turns n w (p : Pipeline) :
  run_pipelined k oracle w0 turns = Running w p None -> pl_in_flight p = None -> w_queue w = [] -> w_open w = true ->
  (forall t, (w_time w <= t)%nat -> an_arrivals (oracle t) = [] /\ an_close (oracle t) = false) ->
  exists w', run_pipelined k oracle w0 (n + turns) = Running w' p None /\
    w_sent w' = w_sent w /\ durable_offset (w_engine w') = durable_offset (w_engine w).
Proof. intros Hr. unfold run_pipelined in *. rewrite Nat.iter_add, Hr. apply idle_turns. Qed.
End safety.

(** ** Evaluation *)

Section evaluation.
#[local] Existing Instance sum32.
#[local] Existing Instance sum64.
#[local] Existing Instance sums.

Abbreviation Disk := (FaultFile FileState).

Definition demo_backpressure : BackpressureState :=
  mk_backpressure (Codel.from_millis 0 0) 0 0 (RetryBudget.budget_new 0 0) (TokenBucket.bucket_new 0 0 0) 0 0 0.
Definition demo_engine (l : Log Disk) : ProduceEngine (F := Disk) :=
  mk_produce_engine l (dedup_new (mk_dedup_config 1 0 1)) (seqs_new 1) false demo_backpressure (mk_produce_counters 0 0 0 0 0 0) 0 0.
Definition demo_open : Log Disk + unit :=
  match snd (log_open (dir_power_loss (run_disk log_start) None) demo_log_config demo_env) with Ok l => inl l | _ => inr tt end.

Definition demo_message (b : Z) : Append := mk_append 7 0 [107] [] [b; b].
Definition demo_produce (b : Z) (reply : nat) : Command (F := Disk) := Produce (mk_owned (demo_message b) None None 0 false) reply.
(** A barrier takes a millisecond; [create_ok] says whether a file can be created. *)
Definition demo_answer (arrivals : list (Command (F := Disk))) (create_ok : bool) (linger : nat) (step : FlusherStep) : Answer (F := Disk) :=
  mk_answer (mk_seam (mk_env 5 demo_new_file create_ok true true) 0 1000000 true true) id step true 1000000 arrivals false 0 0 linger.
Definition demo_config : ProduceConfig := mk_produce_config LevelSync 0 0 0 0.
Definition demo_turns (oracle : nat -> Answer (F := Disk)) (turns : nat) : option (ActorState Pipeline) :=
  match demo_open with inl l => Some (run_pipelined demo_config oracle (world_new (demo_engine l) 0) turns) | inr _ => None end.

Lemma demo_answer_ok arrivals create_ok linger step :
  Forall (command_ok demo_log_config) arrivals -> answer_ok demo_log_config (demo_answer arrivals create_ok linger step).
Proof. intros Ha. split; [|by split]. destruct demo_env_ok. by split. Qed.

Lemma demo_produce_ok b reply : is_u8 b -> command_ok demo_log_config (demo_produce b reply).
Proof. intros Hb. split; [exact (proj2 (demo_append_ok b Hb))|by exists false]. Qed.

Lemma demo_start l : demo_open = inl l -> exists A c, engine_ok demo_log_config (demo_engine l) A c None.
Proof.
  unfold demo_open. destruct (log_open _ _ _) as [d [l'|e|]] eqn:Ho; cbn; [intros [= ->]|done|done].
  destruct (reopened_engine_ok demo_log_config log_start None demo_env d l (mk_dedup_config 1 0 1) 1 demo_backpressure demo_config_ok
    (start_run_inv _) demo_env_ok Ho) as [m Hm]. eauto.
Qed.

(** Three produces in two bursts; the flusher commits the second. *)
Definition demo_oracle (t : nat) : Answer (F := Disk) :=
  if Nat.eqb t 0 then demo_answer [demo_produce 1 1] true 0 FlWaits
  else if Nat.eqb t 12 then demo_answer [demo_produce 2 2; demo_produce 3 3] true 0 FlWaits
  else demo_answer [] true 0 FlWaits.

Lemma demo_oracle_ok t : answer_ok demo_log_config (demo_oracle t).
Proof.
  unfold demo_oracle. repeat case_match; apply demo_answer_ok; repeat (apply Forall_cons_2; [apply demo_produce_ok; vm_compute; split; congruence|]);
    apply Forall_nil_2.
Qed.

(** What a run has done: the replies, those held back, the barrier and the heads. *)
Definition summary (s : ActorState (F := Disk) Pipeline) :=
  (w_sent (state_world s), pl_parked (state_batch s), if_commit <$> pl_in_flight (state_batch s),
   durable_offset (w_engine (state_world s)), append_head (w_engine (state_world s))).
Definition demo_summary (oracle : nat -> Answer (F := Disk)) (turns : nat) :=
  match demo_open with
  | inl l => Some (summary (run_pipelined demo_config oracle (world_new (demo_engine l) 0) turns))
  | inr _ => None
  end.



(** ** The linger can strand replies *)

(** Two produces are parked and the actor lingers for a third: it needs a new
    segment, sealing the full one syncs the two, and then the new file cannot be
    created. *)
Definition linger_oracle (t : nat) : Answer (F := Disk) :=
  if Nat.eqb t 0 then demo_answer [demo_produce 1 1] true 1 FlWaits
  else if Nat.eqb t 12 then demo_answer [demo_produce 2 2; demo_produce 3 3] true 1 FlWaits
  else if Nat.eqb t 24 then demo_answer [demo_produce 4 4] false 1 FlWaits
  else demo_answer [] (Nat.ltb t 20) 1 FlWaits.

Lemma linger_oracle_ok t : answer_ok demo_log_config (linger_oracle t).
Proof.
  unfold linger_oracle. repeat case_match; apply demo_answer_ok; repeat (apply Forall_cons_2; [apply demo_produce_ok; vm_compute; split; congruence|]);
    apply Forall_nil_2.
Qed.

Definition resting (s : ActorState (F := Disk) Pipeline) : bool :=
  match s with
  | Running w p None => match w_queue w with [] => w_open w && Nat.leb 25 (w_time w) | _ => false end
  | _ => false
  end.

Lemma linger_summary l : demo_open = inl l ->
  summary (run_pipelined demo_config linger_oracle (world_new (demo_engine l) 0) 2) =
    ([(1%nat, OutAppended 0); (4%nat, OutFailed (Storage StIo))],
     [mk_parked (PendAppended 1) (Some 2%nat) 2; mk_parked (PendAppended 2) (Some 3%nat) 3], None, 3, 3) /\
  resting (run_pipelined demo_config linger_oracle (world_new (demo_engine l) 0) 2) = true.
Proof. intros El. vm_compute in El. injection El as <-. vm_compute. split; reflexivity. Qed.

Lemma linger_quiet t : (25 <= t)%nat -> an_arrivals (linger_oracle t) = [] /\ an_close (linger_oracle t) = false.
Proof.
  intros Ht. unfold linger_oracle. destruct (Nat.eqb_spec t 0); [lia|]. destruct (Nat.eqb_spec t 12); [lia|].
  destruct (Nat.eqb_spec t 24); [lia|done].
Qed.

(** C19: a produce that fails during the linger leaves acknowledgements unsent.
    In this run the records of two produces are synced by the roll that a third
    one attempts in the linger; the roll then fails, no barrier is in flight, and
    the actor goes to sleep holding the two replies back.  They stay unsent
    however long no further command arrives. *)
Theorem linger_strands_acks n :
  exists l w p, demo_open = inl l /\ run_pipelined demo_config linger_oracle (world_new (demo_engine l) 0) (n + 2) = Running w p None /\
    w_sent w = [(1%nat, OutAppended 0); (4%nat, OutFailed (Storage StIo))] /\
    pl_parked p = [mk_parked (PendAppended 1) (Some 2%nat) 2; mk_parked (PendAppended 2) (Some 3%nat) 3] /\
    pl_in_flight p = None /\ durable_offset (w_engine w) = 3.
Proof.
  destruct demo_open as [l|u] eqn:El; [|vm_compute in El; discriminate El]. exists l. destruct (linger_summary l El) as [Hs Hr].
  destruct (run_pipelined demo_config linger_oracle (world_new (demo_engine l) 0) 2) as [w p [cmd|]|w p] eqn:Erun; [done| |done].
  unfold summary in Hs. cbn [state_world state_batch resting] in Hs, Hr. destruct (w_queue w) eqn:Hq; [|done].
  apply andb_true_iff in Hr as [Hop Htime%Nat.leb_le]. injection Hs as Hsent Hpk Hfl Hdur _. assert (Hno : pl_in_flight p = None) by (by destruct (pl_in_flight p)).
  destruct (idle_run demo_config linger_oracle _ 2 n w p Erun Hno Hq Hop) as (w' & Hrun & Hsent' & Hdur'); [intros t Ht; apply linger_quiet; lia|].
  exists w', p. split; [reflexivity|]. split; [exact Hrun|]. split; [by rewrite Hsent'|]. split; [exact Hpk|]. split; [exact Hno|by rewrite Hdur'].
Qed.
End evaluation.
