(* ===== verification/Dlq.v ===== *)
(** * The dead-letter sink ([ironbus-storage/src/dlq.rs])

    The exchange's target validation, the metadata codec that prefixes a
    dead-lettered record's headers (v1 and v2), and the sink: a log of poison
    records with the exact per-group set of source offsets already in it.

    The sink's own log is used through what it promises: an append stores the
    record at the next offset, and may fail before or at its durability barrier.
    [Io] is the outcome of one such call; a record whose barrier failed may or
    may not be found again when the sink is reopened. *)

From S2P Require Import Prelude Bytes Records Subject.
From Stdlib Require Import Ascii.

(** The bytes of a string literal. *)
Fixpoint str (s : string) : list Z :=
  match s with
  | EmptyString => []
  | String a s => Z.of_nat (nat_of_ascii a) :: str s
  end.
#[global] Arguments str : simpl never.

(** ** The exchange *)

Definition DLQ_SUBDIR : list Z := str "dlq".
Definition MAX_DEAD_LETTER_TARGETS : nat := 16.
Definition MAX_DEAD_LETTER_TARGET_LEN : nat := 64.

Definition RESERVED_TARGET_NAMES : list (list Z) :=
  [str "streams"; str "pstreams"; str "shared-wal"; str "quarantine"; str "dicts"; str "txn"].

Inductive DeadLetterExchangeError :=
| ExEmpty
| TooManyTargets (got : nat)
| DuplicateTarget (name : list Z)
| InvalidTarget (name : list Z)
| ReservedTarget (name : list Z).

Definition is_ascii_alphanumeric (b : Z) : bool :=
  between 48 57 b || between 65 90 b || between 97 122 b.

Definition target_byte (b : Z) : bool :=
  is_ascii_alphanumeric b || (b =? 46) || (b =? 95) || (b =? 45).

Definition is_valid_target_name (name : list Z) : bool :=
  if (length name =? 0)%nat || (MAX_DEAD_LETTER_TARGET_LEN <? length name)%nat then false
  else if bool_decide (name = str ".") || bool_decide (name = str "..") then false
  else forallb target_byte name.

(** The validation loop of [DeadLetterExchange::new], with the names seen so
    far. *)
Fixpoint check_targets (names seen : list (list Z)) : res () DeadLetterExchangeError :=
  match names with
  | [] => Ok ()
  | name :: names =>
      fail? negb (is_valid_target_name name) with InvalidTarget name in
      fail? bool_decide (name ∈ RESERVED_TARGET_NAMES) with ReservedTarget name in
      fail? bool_decide (name ∈ seen) with DuplicateTarget name in
      check_targets names (name :: seen)
  end.

Definition exchange_new (targets : list (list Z)) : res (list (list Z)) DeadLetterExchangeError :=
  fail? (length targets =? 0)%nat with ExEmpty in
  fail? (MAX_DEAD_LETTER_TARGETS <? length targets)%nat with TooManyTargets (length targets) in
  let? _ := check_targets targets [] in
  Ok targets.

(** ** The metadata codec *)

Definition DLQ_HEADER_MAGIC : list Z := str "DLQ1".
Definition DLQ_HEADER_MAGIC_V2 : list Z := str "DLQ2".
Definition DLQ_META_LEN : nat := 20.
Definition DLQ_META_V2_LEN : nat := 21.

Inductive DeadLetterReason := MaxDeliverExceeded | TtlExpired | Rejected.

#[export] Instance DeadLetterReason_eq_dec : EqDecision DeadLetterReason.
Proof. solve_decision. Defined.

Definition reason_as_byte (r : DeadLetterReason) : Z :=
  match r with MaxDeliverExceeded => 0 | TtlExpired => 1 | Rejected => 2 end.

Definition reason_from_byte (b : Z) : option DeadLetterReason :=
  if b =? 0 then Some MaxDeliverExceeded
  else if b =? 1 then Some TtlExpired
  else if b =? 2 then Some Rejected
  else None.

Definition encode_dlq_headers (group : list Z) (source_offset attempt : Z) (original_headers : list Z)
    : option (list Z) :=
  group_len ← u16_try_from (length group);
  headers_len ← u16_try_from (length original_headers);
  Some (DLQ_HEADER_MAGIC ++ le_bytes 8 source_offset ++ le_bytes 4 attempt ++ le_bytes 2 group_len ++
        le_bytes 2 headers_len ++ group ++ original_headers).

Definition encode_dlq_headers_v2 (group : list Z) (source_offset attempt : Z) (reason : DeadLetterReason)
    (original_headers : list Z) : option (list Z) :=
  group_len ← u16_try_from (length group);
  headers_len ← u16_try_from (length original_headers);
  Some (DLQ_HEADER_MAGIC_V2 ++ [reason_as_byte reason] ++ le_bytes 8 source_offset ++ le_bytes 4 attempt ++
        le_bytes 2 group_len ++ le_bytes 2 headers_len ++ group ++ original_headers).

Record DlqMeta := mk_meta {
  m_source_offset : Z;
  m_attempt : Z;
  m_reason : DeadLetterReason;
  m_group : list Z;
  m_original_headers : list Z
}.

(** The magic decides the reason and the fixed length. *)
Definition dlq_version (blob : list Z) : option (DeadLetterReason * nat) :=
  magic ← slice blob 0 4;
  if bool_decide (magic = DLQ_HEADER_MAGIC) then Some (MaxDeliverExceeded, DLQ_META_LEN)
  else if bool_decide (magic = DLQ_HEADER_MAGIC_V2) then
    b ← blob !! 4%nat;
    reason ← reason_from_byte b;
    Some (reason, DLQ_META_V2_LEN)
  else None.

Definition decode_dlq_headers (blob : list Z) : option DlqMeta :=
  '(reason, fixed_len) ← dlq_version blob;
  let off := (fixed_len - DLQ_META_LEN)%nat in
  source_offset ← read_u64 blob (4 + off);
  attempt ← read_u32 blob (12 + off);
  group_len ← read_u16 blob (16 + off);
  headers_len ← read_u16 blob (18 + off);
  let headers_start := (fixed_len + Z.to_nat group_len)%nat in
  let headers_end := (headers_start + Z.to_nat headers_len)%nat in
  if negb (length blob =? headers_end)%nat then None
  else
    group ← slice blob fixed_len headers_start;
    if negb (utf8_valid group) then None
    else
      original_headers ← slice blob headers_start headers_end;
      Some (mk_meta source_offset attempt reason group original_headers).

Record DlqEntry := mk_entry {
  e_dlq_offset : Z;
  e_group : list Z;
  e_source_offset : Z;
  e_attempt : Z;
  e_reason : DeadLetterReason;
  e_timestamp_ms : Z;
  e_key : list Z;
  e_headers : list Z;
  e_payload : list Z;
  e_original_flags : Z
}.

Definition decode_entry (r : OwnedRecord) : option DlqEntry :=
  meta ← decode_dlq_headers (r_headers r);
  Some (mk_entry (r_offset r) (m_group meta) (m_source_offset meta) (m_attempt meta) (m_reason meta)
          (r_timestamp_ms r) (r_key r) (m_original_headers meta) (r_payload r) (r_flags r)).

(** ** The sink *)

Record DlqSink := mk_sink {
  sink_log : list OwnedRecord;
  dead_lettered : gmap (list Z) (gset Z);
  sink_records : Z;
  sink_frozen : bool
}.

Inductive StorageError := SegmentFull | AppendFailed | WriterFrozen.

(** What the storage below answers to one append-and-sync. *)
Inductive Io := IoOk | IoAppendFails | IoSyncFails (survives : bool).

(** One record of the scan in [rebuild_dead_lettered_set]. *)
Definition rebuild_one (s : DlqSink) (r : OwnedRecord) : DlqSink :=
  match decode_dlq_headers (r_headers r) with
  | Some meta =>
      mk_sink (sink_log s)
        (<[m_group meta := {[ m_source_offset meta ]} ∪ default ∅ (dead_lettered s !! m_group meta)]>
           (dead_lettered s))
        (sat_add64 (sink_records s) 1) (sink_frozen s)
  | None => s
  end.

(** [open_at]: the durable records are all that survives. *)
Definition sink_open (durable : list OwnedRecord) : DlqSink :=
  foldl rebuild_one (mk_sink durable ∅ 0 false) durable.

Definition already_dead_lettered (s : DlqSink) (group : list Z) (source_offset : Z) : bool :=
  match dead_lettered s !! group with
  | Some set => bool_decide (source_offset ∈ set)
  | None => false
  end.

Definition prune_below (s : DlqSink) (group : list Z) (committed : Z) : DlqSink :=
  match dead_lettered s !! group with
  | Some set =>
      let set := filter (fun o => committed <= o) set in
      mk_sink (sink_log s)
        (if bool_decide (set = ∅) then delete group (dead_lettered s)
         else <[group := set]> (dead_lettered s)) (sink_records s) (sink_frozen s)
  | None => s
  end.

Definition forget_group (s : DlqSink) (group : list Z) : DlqSink :=
  mk_sink (sink_log s) (delete group (dead_lettered s)) (sink_records s) (sink_frozen s).

(** The record [append_encoded] hands to the log: the original's fields with
    the metadata in its headers and the key flag left to the log to derive. *)
Definition dlq_record (log : list OwnedRecord) (source : OwnedRecord) (headers : list Z) : OwnedRecord :=
  let flags := Z.land (r_flags source) (Z.lnot HAS_KEY) in
  let flags := match r_key source with [] => flags | _ => Z.lor flags HAS_KEY end in
  let offset := Z.of_nat (length log) in
  mk_record offset offset (r_timestamp_ms source) flags (r_key source) headers (r_payload source) [] [].

(** [log.append] then [log.sync]: a failed barrier freezes the log's writer for
    the life of the process, and the record may or may not have reached the
    disk. *)
Definition append_encoded (s : DlqSink) (io : Io) (group : list Z) (source : OwnedRecord)
    (headers : list Z) : DlqSink * res Z StorageError :=
  let r := dlq_record (sink_log s) source headers in
  if sink_frozen s then (s, Err WriterFrozen)
  else match io with
  | IoAppendFails => (s, Err AppendFailed)
  | IoSyncFails survives =>
      (mk_sink (if survives then sink_log s ++ [r] else sink_log s) (dead_lettered s) (sink_records s) true,
       Err WriterFrozen)
  | IoOk =>
      (mk_sink (sink_log s ++ [r])
         (<[group := {[ r_offset source ]} ∪ default ∅ (dead_lettered s !! group)]> (dead_lettered s))
         (sat_add64 (sink_records s) 1) false, Ok (r_offset r))
  end.

Definition append_poison (s : DlqSink) (io : Io) (group : list Z) (source : OwnedRecord) (attempt : Z)
    : DlqSink * res Z StorageError :=
  match encode_dlq_headers group (r_offset source) attempt (r_headers source) with
  | None => (s, Err SegmentFull)
  | Some headers => append_encoded s io group source headers
  end.

Definition append_dead_letter (s : DlqSink) (io : Io) (group : list Z) (source : OwnedRecord) (attempt : Z)
    (reason : DeadLetterReason) : DlqSink * res Z StorageError :=
  match encode_dlq_headers_v2 group (r_offset source) attempt reason (r_headers source) with
  | None => (s, Err SegmentFull)
  | Some headers => append_encoded s io group source headers
  end.

(** ** The codec is exact *)

Definition meta_ok (m : DlqMeta) : Prop :=
  is_u64 (m_source_offset m) /\ is_u32 (m_attempt m) /\ utf8_valid (m_group m) = true /\
  Z.of_nat (length (m_group m)) <= u16_max /\ Z.of_nat (length (m_original_headers m)) <= u16_max.

(** The part of the blob after the magic (and the reason byte). *)
Definition meta_body (m : DlqMeta) : list Z :=
  le_bytes 8 (m_source_offset m) ++ le_bytes 4 (m_attempt m) ++
  le_bytes 2 (Z.of_nat (length (m_group m))) ++ le_bytes 2 (Z.of_nat (length (m_original_headers m))) ++
  m_group m ++ m_original_headers m.

(** Decoding a blob given by its chunks. *)
Lemma decode_chunks pre so at_ gl hl g h reason :
  (4 <= length pre)%nat -> length so = 8%nat -> length at_ = 4%nat -> length gl = 2%nat -> length hl = 2%nat ->
  dlq_version (pre ++ so ++ at_ ++ gl ++ hl ++ g ++ h) = Some (reason, (16 + length pre)%nat) ->
  Z.to_nat (le_val gl) = length g -> Z.to_nat (le_val hl) = length h -> utf8_valid g = true ->
  decode_dlq_headers (pre ++ so ++ at_ ++ gl ++ hl ++ g ++ h) =
  Some (mk_meta (le_val so) (le_val at_) reason g h).
Proof.
  intros Hp Hso Hat Hgl Hhl Hv Hg Hh Hu. unfold decode_dlq_headers. rewrite Hv. cbn [mbind option_bind].
  replace (16 + length pre - DLQ_META_LEN)%nat with (length pre - 4)%nat by (unfold DLQ_META_LEN; lia).
  set (l := pre ++ so ++ at_ ++ gl ++ hl ++ g ++ h).
  assert (D0 : drop (length pre) l = so ++ at_ ++ gl ++ hl ++ g ++ h) by apply drop_app_length.
  assert (Dn : forall k n x y, drop k l = x ++ y -> length x = n -> drop (k + n) l = y)
    by (intros k n x y Hk Hx; rewrite <- drop_drop, Hk; by apply drop_app_length').
  pose proof (Dn _ _ _ _ D0 Hso) as D1. pose proof (Dn _ _ _ _ D1 Hat) as D2.
  pose proof (Dn _ _ _ _ D2 Hgl) as D3. pose proof (Dn _ _ _ _ D3 Hhl) as D4.
  pose proof (Dn _ _ _ _ D4 eq_refl) as D5.
  assert (Hlen : length l = (length pre + 16 + length g + length h)%nat)
    by (unfold l; rewrite !length_app; lia).
  unfold read_u64, read_u32, read_u16.
  assert (Hr : forall n k k' b rest, (0 < n)%nat -> drop k' l = b ++ rest -> length b = n -> k = k' ->
    read_le n l k = Some (le_val b)) by (intros n k k' b rest ? ? ? ->; by eapply read_le_at).
  rewrite (Hr 8%nat (4 + (length pre - 4))%nat _ _ _ ltac:(lia) D0 Hso) by lia. rewrite (Hr 4%nat (12 + (length pre - 4))%nat _ _ _ ltac:(lia) D1 Hat) by lia.
  rewrite (Hr 2%nat (16 + (length pre - 4))%nat _ _ _ ltac:(lia) D2 Hgl) by lia. rewrite (Hr 2%nat (18 + (length pre - 4))%nat _ _ _ ltac:(lia) D3 Hhl) by lia.
  cbn [mbind option_bind]. rewrite Hg, Hh.
  rewrite (proj2 (Nat.eqb_eq _ _)) by lia. cbn [negb].
  replace (16 + length pre)%nat with (length pre + 8 + 4 + 2 + 2)%nat by lia.
  rewrite (slice_at l (length pre + 8 + 4 + 2 + 2) _ g h ltac:(lia) D4) by lia. cbn [mbind option_bind].
  rewrite Hu. cbn [negb]. rewrite (slice_at l _ _ h []); [done|lia|by rewrite app_nil_r|lia].
Qed.

Lemma dlq_version_v1 rest : dlq_version (DLQ_HEADER_MAGIC ++ rest) = Some (MaxDeliverExceeded, DLQ_META_LEN).
Proof.
  unfold dlq_version. rewrite (slice_at _ 0 4 DLQ_HEADER_MAGIC rest); [|lia|done|done].
  cbn [mbind option_bind]. by rewrite bool_decide_true.
Qed.

Lemma reason_roundtrip r : reason_from_byte (reason_as_byte r) = Some r.
Proof. by destruct r. Qed.

Lemma dlq_version_v2 reason rest :
  dlq_version (DLQ_HEADER_MAGIC_V2 ++ [reason_as_byte reason] ++ rest) = Some (reason, DLQ_META_V2_LEN).
Proof.
  unfold dlq_version.
  rewrite (slice_at _ 0 4 DLQ_HEADER_MAGIC_V2 ([reason_as_byte reason] ++ rest)); [|lia|done|done].
  cbn [mbind option_bind]. rewrite bool_decide_false, bool_decide_true by done.
  change ((DLQ_HEADER_MAGIC_V2 ++ [reason_as_byte reason] ++ rest) !! 4%nat) with (Some (reason_as_byte reason)).
  cbn [mbind option_bind]. by rewrite reason_roundtrip.
Qed.

Lemma encode_v1 m :
  meta_ok m -> encode_dlq_headers (m_group m) (m_source_offset m) (m_attempt m) (m_original_headers m) =
  Some (DLQ_HEADER_MAGIC ++ meta_body m).
Proof.
  intros (_ & _ & _ & H4 & H5). unfold encode_dlq_headers, meta_body. by rewrite !u16_try_from_Some.
Qed.

Lemma encode_v2 m :
  meta_ok m ->
  encode_dlq_headers_v2 (m_group m) (m_source_offset m) (m_attempt m) (m_reason m) (m_original_headers m) =
  Some (DLQ_HEADER_MAGIC_V2 ++ [reason_as_byte (m_reason m)] ++ meta_body m).
Proof.
  intros (_ & _ & _ & H4 & H5). unfold encode_dlq_headers_v2, meta_body. by rewrite !u16_try_from_Some.
Qed.

Lemma decode_meta_body pre m reason :
  meta_ok m -> (4 <= length pre)%nat ->
  dlq_version (pre ++ meta_body m) = Some (reason, (16 + length pre)%nat) ->
  decode_dlq_headers (pre ++ meta_body m) =
  Some (mk_meta (m_source_offset m) (m_attempt m) reason (m_group m) (m_original_headers m)).
Proof.
  intros (H1 & H2 & H3 & H4 & H5) Hp Hv. unfold meta_body in *.
  rewrite (decode_chunks _ _ _ _ _ _ _ reason);
    rewrite ?length_le_bytes, ?le_bytes_u16_len by done; try done.
  by rewrite !le_val_le_bytes by eauto with bytes.
Qed.

Lemma decode_v1 m :
  meta_ok m -> decode_dlq_headers (DLQ_HEADER_MAGIC ++ meta_body m) =
  Some (mk_meta (m_source_offset m) (m_attempt m) MaxDeliverExceeded (m_group m) (m_original_headers m)).
Proof. intros Hm. apply decode_meta_body; [done|simpl; lia|apply dlq_version_v1]. Qed.

Lemma decode_v2 m :
  meta_ok m ->
  decode_dlq_headers (DLQ_HEADER_MAGIC_V2 ++ [reason_as_byte (m_reason m)] ++ meta_body m) = Some m.
Proof.
  intros Hm. rewrite app_assoc. rewrite (decode_meta_body _ m (m_reason m)); [by destruct m|done|simpl; lia|].
  rewrite <- app_assoc. apply dlq_version_v2.
Qed.

(** The two versions. *)
Lemma dlq_version_inv blob reason fixed :
  dlq_version blob = Some (reason, fixed) ->
  (fixed = 20%nat /\ reason = MaxDeliverExceeded /\ take 4 blob = DLQ_HEADER_MAGIC) \/
  (fixed = 21%nat /\ take 5 blob = DLQ_HEADER_MAGIC_V2 ++ [reason_as_byte reason]).
Proof.
  unfold dlq_version. destruct (slice blob 0 4) as [mg|] eqn:E; cbn [mbind option_bind]; [|done].
  apply slice_inv in E as [_ ->]. rewrite drop_0. case_bool_decide as Em.
  { intros [= <- <-]. by left. }
  case_bool_decide as Em2; [|done]. destruct (blob !! 4%nat) as [b|] eqn:Eb; cbn [mbind option_bind]; [|done].
  destruct (reason_from_byte b) as [r|] eqn:Er; cbn [mbind option_bind]; [|done].
  intros [= <- <-]. right. split; [done|].
  rewrite (take_S_r blob 4 b Eb). change (4 - 0)%nat with 4%nat in Em2. rewrite Em2. do 2 f_equal.
  revert Er. unfold reason_from_byte.
  destruct (Z.eqb_spec b 0); [intros [= <-]; done|]. destruct (Z.eqb_spec b 1); [intros [= <-]; done|].
  destruct (Z.eqb_spec b 2); [intros [= <-]; done|done].
Qed.

(** What a decoded blob is made of. *)
Lemma decode_inv blob m :
  bytes_ok blob -> decode_dlq_headers blob = Some m ->
  exists fixed, dlq_version blob = Some (m_reason m, fixed) /\
    drop (fixed - 16) blob = meta_body m /\ meta_ok m.
Proof.
  intros Hb. unfold decode_dlq_headers.
  destruct (dlq_version blob) as [[reason fixed]|] eqn:Ev; cbn [mbind option_bind]; [|done].
  assert (Hfix : fixed = 20%nat \/ fixed = 21%nat)
    by (apply dlq_version_inv in Ev as [(-> & _)|(-> & _)]; auto).
  unfold DLQ_META_LEN. destruct (read_u64 blob _) as [so|] eqn:E1; cbn [mbind option_bind]; [|done].
  destruct (read_u32 blob _) as [at_|] eqn:E2; cbn [mbind option_bind]; [|done].
  destruct (read_u16 blob (16 + _)) as [gl|] eqn:E3; cbn [mbind option_bind]; [|done].
  destruct (read_u16 blob (18 + _)) as [hl|] eqn:E4; cbn [mbind option_bind]; [|done].
  destruct (Nat.eqb_spec (length blob) (fixed + Z.to_nat gl + Z.to_nat hl)) as [El|]; cbn [negb]; [|done].
  destruct (slice blob fixed _) as [g|] eqn:E5; cbn [mbind option_bind]; [|done].
  destruct (utf8_valid g) eqn:Eu; cbn [negb]; [|done].
  destruct (slice blob (_ + _) (_ + _)) as [h|] eqn:E6; cbn [mbind option_bind]; [|done].
  intros [= <-]. exists fixed. split; [done|].
  pose proof (read_u64_bounds _ _ _ Hb E1) as B1. pose proof (read_u32_bounds _ _ _ Hb E2) as B2.
  pose proof (read_u16_bounds _ _ _ Hb E3) as B3. pose proof (read_u16_bounds _ _ _ Hb E4) as B4.
  apply slice_inv in E5 as [L5 ->]. apply slice_inv in E6 as [L6 ->].
  assert (Hg : Z.of_nat (length (take (fixed + Z.to_nat gl - fixed) (drop fixed blob))) = gl)
    by (rewrite length_take, length_drop; ulia).
  assert (Hh : Z.of_nat (length (take (fixed + Z.to_nat gl + Z.to_nat hl - (fixed + Z.to_nat gl))
    (drop (fixed + Z.to_nat gl) blob))) = hl) by (rewrite length_take, length_drop; ulia).
  split; [|unfold meta_ok; cbn; rewrite Hg, Hh; repeat split; try ulia; done].
  unfold meta_body. cbn [m_source_offset m_attempt m_group m_original_headers]. rewrite Hg, Hh.
  unfold read_u64, read_u32, read_u16 in *.
  rewrite (read_le_bytes _ _ _ _ Hb E1), (read_le_bytes _ _ _ _ Hb E2),
    (read_le_bytes _ _ _ _ Hb E3), (read_le_bytes _ _ _ _ Hb E4).
  replace (fixed + Z.to_nat gl + Z.to_nat hl - (fixed + Z.to_nat gl))%nat with (Z.to_nat hl) by lia.
  replace (fixed + Z.to_nat gl - fixed)%nat with (Z.to_nat gl) by lia.
  rewrite (take_ge (drop (fixed + Z.to_nat gl) blob)) by (rewrite length_drop; lia).
  assert (C : forall p n q, q = (p + n)%nat -> take n (drop p blob) ++ drop q blob = drop p blob)
    by (intros p n q ->; apply take_drop_at).
  rewrite (C fixed _ (fixed + Z.to_nat gl)%nat), (C (18 + (fixed - 20))%nat _ fixed),
    (C (16 + (fixed - 20))%nat _ (18 + (fixed - 20))%nat),
    (C (12 + (fixed - 20))%nat _ (16 + (fixed - 20))%nat),
    (C (4 + (fixed - 20))%nat _ (12 + (fixed - 20))%nat) by lia.
  f_equal. lia.
Qed.

(** The dead-letter metadata codec is exact.  Every well-formed metadata
    block reads back as written, with the reason (v2) or as a max-deliver death
    (v1), and the decoder accepts nothing but such encodings, so a foreign or
    damaged headers blob is never misread as a dead letter. *)
Theorem dlq_codec_exact m :
  meta_ok m ->
  (exists v1, encode_dlq_headers (m_group m) (m_source_offset m) (m_attempt m) (m_original_headers m) = Some v1 /\
     decode_dlq_headers v1 =
       Some (mk_meta (m_source_offset m) (m_attempt m) MaxDeliverExceeded (m_group m) (m_original_headers m))) /\
  (exists v2, encode_dlq_headers_v2 (m_group m) (m_source_offset m) (m_attempt m) (m_reason m)
       (m_original_headers m) = Some v2 /\ decode_dlq_headers v2 = Some m) /\
  (forall blob, bytes_ok blob -> decode_dlq_headers blob = Some m ->
     encode_dlq_headers_v2 (m_group m) (m_source_offset m) (m_attempt m) (m_reason m) (m_original_headers m)
       = Some blob \/
     (m_reason m = MaxDeliverExceeded /\
      encode_dlq_headers (m_group m) (m_source_offset m) (m_attempt m) (m_original_headers m) = Some blob)).
Proof.
  intros Hm. split; [|split].
  - exists (DLQ_HEADER_MAGIC ++ meta_body m). split; [by apply encode_v1|by apply decode_v1].
  - exists (DLQ_HEADER_MAGIC_V2 ++ [reason_as_byte (m_reason m)] ++ meta_body m).
    split; [by apply encode_v2|by apply decode_v2].
  - intros blob Hb Hd. apply decode_inv in Hd as (fixed & Hv & Hbody & _); [|done].
    rewrite encode_v1, encode_v2 by done.
    apply dlq_version_inv in Hv as [(-> & Hr & Ht)|(-> & Ht)].
    + right. split; [done|]. by rewrite <- Ht, <- Hbody, take_drop.
    + left. by rewrite app_assoc, <- Ht, <- Hbody, take_drop.
Qed.

Definition demo_meta : DlqMeta := mk_meta 77 6 TtlExpired (str "orders") [1; 2; 3].

Lemma dlq_codec_exact_witness :
  meta_ok demo_meta /\
  exists v2, encode_dlq_headers_v2 (str "orders") 77 6 TtlExpired [1; 2; 3] = Some v2 /\
    decode_dlq_headers v2 = Some demo_meta.
Proof.
  assert (Hm : meta_ok demo_meta) by (repeat split; vm_compute; congruence).
  split; [exact Hm|]. exact (proj1 (proj2 (dlq_codec_exact demo_meta Hm))).
Defined.

(** ** Target names *)

Definition safe_target (name : list Z) : Prop :=
  (1 <= length name <= MAX_DEAD_LETTER_TARGET_LEN)%nat /\ Forall (fun b => target_byte b = true) name /\
  name <> str "." /\ name <> str ".." /\ name ∉ RESERVED_TARGET_NAMES.

Lemma forallb_true {A} (f : A -> bool) l : forallb f l = true <-> Forall (fun x => f x = true) l.
Proof.
  induction l as [|x l IH]; simpl; [by split; [constructor|]|].
  by rewrite andb_true_iff, Forall_cons, IH.
Qed.

Lemma is_valid_target_name_true name :
  is_valid_target_name name = true <->
  (1 <= length name <= MAX_DEAD_LETTER_TARGET_LEN)%nat /\ Forall (fun b => target_byte b = true) name /\
  name <> str "." /\ name <> str "..".
Proof.
  unfold is_valid_target_name, MAX_DEAD_LETTER_TARGET_LEN. rewrite <- forallb_true.
  destruct (Nat.eqb_spec (length name) 0); [split; [done|lia]|].
  destruct (Nat.ltb_spec 64 (length name)); [split; [done|lia]|]. cbn [orb].
  destruct (bool_decide (name = str ".")) eqn:E1; [apply bool_decide_eq_true in E1; naive_solver|].
  destruct (bool_decide (name = str "..")) eqn:E2; [apply bool_decide_eq_true in E2; naive_solver|].
  apply bool_decide_eq_false in E1, E2. cbn [orb]. split; [|by intros (_ & ? & _)].
  intros Hf. split; [lia|]. done.
Qed.

Lemma check_targets_ok names seen :
  check_targets names seen = Ok () <-> Forall safe_target names /\ NoDup names /\ (forall n, n ∈ names -> n ∉ seen).
Proof.
  revert seen. induction names as [|n names IH]; intros seen; cbn [check_targets].
  { split; [|done]. intros _. split; [constructor|]. split; [constructor|].
    intros n Hn. by apply not_elem_of_nil in Hn. }
  rewrite Forall_cons, NoDup_cons. unfold safe_target at 1.
  destruct (is_valid_target_name n) eqn:Ev; cbn [negb].
  2: { split; [done|]. intros [[Hs _] _]. exfalso.
       assert (is_valid_target_name n = true) by (apply is_valid_target_name_true; tauto). congruence. }
  apply is_valid_target_name_true in Ev.
  destruct (bool_decide (n ∈ RESERVED_TARGET_NAMES)) eqn:Er.
  { apply bool_decide_eq_true in Er. split; [done|tauto]. }
  apply bool_decide_eq_false in Er. destruct (bool_decide (n ∈ seen)) eqn:Es.
  { apply bool_decide_eq_true in Es. split; [done|]. intros (_ & _ & Hn). exfalso.
    apply (Hn n); [apply list_elem_of_here|done]. }
  apply bool_decide_eq_false in Es. rewrite IH. split.
  - intros (Hf & Hnd & Hn). split; [tauto|]. split; [|].
    + split; [|done]. intros Hin. apply (Hn n Hin), list_elem_of_here.
    + intros x [->|Hx]%elem_of_cons; [done|]. intros Hxs. apply (Hn x Hx). by apply list_elem_of_further.
  - intros ((_ & Hf) & (Hnin & Hnd) & Hn). split; [done|]. split; [done|].
    intros x Hx [->|Hxs]%elem_of_cons; [done|]. apply (Hn x); [by apply list_elem_of_further|done].
Qed.

(** The exchange accepts exactly the documented target lists (one to
    sixteen distinct safe names outside the reserved list); but the reserved list
    does not have the layout's [prstreams] subtree, so an exchange may root a
    sink inside the priority streams. *)
Theorem exchange_targets targets :
  (exchange_new targets = Ok targets <->
   (1 <= length targets <= MAX_DEAD_LETTER_TARGETS)%nat /\ Forall safe_target targets /\ NoDup targets) /\
  exchange_new [str "prstreams"] = Ok [str "prstreams"].
Proof.
  split; [|vm_compute; reflexivity]. unfold exchange_new, MAX_DEAD_LETTER_TARGETS.
  destruct (Nat.eqb_spec (length targets) 0); [split; [done|lia]|].
  destruct (Nat.ltb_spec 16 (length targets)); [split; [done|lia]|].
  destruct (check_targets targets []) as [[]|e|] eqn:E; cbn [res_bind].
  - apply check_targets_ok in E. split; [|done]. intros _. split; [lia|]. tauto.
  - split; [done|]. intros (_ & Hs & Hn). exfalso.
    assert (check_targets targets [] = Ok ()); [|congruence].
    apply check_targets_ok. split; [done|]. split; [done|]. intros x _ Hx. by apply not_elem_of_nil in Hx.
  - split; [done|]. intros (_ & Hs & Hn). exfalso.
    assert (check_targets targets [] = Ok ()); [|congruence].
    apply check_targets_ok. split; [done|]. split; [done|]. intros x _ Hx. by apply not_elem_of_nil in Hx.
Qed.
