(* ===== verification/WorkGroup.v ===== *)
(** * A work-group ([WorkGroup] of the server's [engine.rs])

    The per-group consumer state the engine keeps over one log: the commit
    cursor, the lease table, the key router, the modes and the pause window.
    Modelled here: the pause state machine, the checkpoint payloads with the
    recovery that reads them back, and the composite offsets of priority
    lanes. *)

From S2P Require Import Prelude Search Bytes Records Cursor CursorSnapshot Attempt Delivery Lease KeyShared Dlq.

(** ** State *)

Record GroupPause := mk_pause {
  paused_at : Z;
  until : Z
}.

(** [Delivery]: a message handed to a consumer. *)
Record Delivery := mk_delivery {
  d_offset : Z;
  d_token : LeaseToken;
  d_deliveries : Z;
  d_record : OwnedRecord
}.

Record WorkGroup := mk_group {
  g_cursor : Cursor.AckCursor;
  g_leases : LeaseTable;
  g_router : option KeyRouter;
  g_broadcast : bool;
  g_subscribers : gset Z;
  g_last_activity : Z;
  g_touched : bool;
  g_streaming : bool;
  g_filter : option (list Z);
  g_pending_match : option Delivery;
  g_paused : option GroupPause;
  g_ephemeral : bool
}.

Definition set_cursor (g : WorkGroup) (c : Cursor.AckCursor) : WorkGroup :=
  mk_group c (g_leases g) (g_router g) (g_broadcast g) (g_subscribers g) (g_last_activity g)
    (g_touched g) (g_streaming g) (g_filter g) (g_pending_match g) (g_paused g) (g_ephemeral g).
Definition set_table (g : WorkGroup) (t : LeaseTable) : WorkGroup :=
  mk_group (g_cursor g) t (g_router g) (g_broadcast g) (g_subscribers g) (g_last_activity g)
    (g_touched g) (g_streaming g) (g_filter g) (g_pending_match g) (g_paused g) (g_ephemeral g).
Definition set_router (g : WorkGroup) (r : option KeyRouter) : WorkGroup :=
  mk_group (g_cursor g) (g_leases g) r (g_broadcast g) (g_subscribers g) (g_last_activity g)
    (g_touched g) (g_streaming g) (g_filter g) (g_pending_match g) (g_paused g) (g_ephemeral g).
Definition set_paused (g : WorkGroup) (p : option GroupPause) : WorkGroup :=
  mk_group (g_cursor g) (g_leases g) (g_router g) (g_broadcast g) (g_subscribers g) (g_last_activity g)
    (g_touched g) (g_streaming g) (g_filter g) (g_pending_match g) p (g_ephemeral g).
Definition set_pending_match (g : WorkGroup) (d : option Delivery) : WorkGroup :=
  mk_group (g_cursor g) (g_leases g) (g_router g) (g_broadcast g) (g_subscribers g) (g_last_activity g)
    (g_touched g) (g_streaming g) (g_filter g) d (g_paused g) (g_ephemeral g).
(** [g.last_activity = now; g.touched = true] *)
Definition touch (g : WorkGroup) (now : Z) : WorkGroup :=
  mk_group (g_cursor g) (g_leases g) (g_router g) (g_broadcast g) (g_subscribers g) now
    true (g_streaming g) (g_filter g) (g_pending_match g) (g_paused g) (g_ephemeral g).

(** [WorkGroup::resume] and [WorkGroup::new] *)
Definition group_resume (c : Cursor.AckCursor) (cfg : LeaseConfig) (now : Z) : WorkGroup :=
  mk_group c (table_new cfg) None false ∅ now true false None None None false.
Definition group_new (cfg : LeaseConfig) (now : Z) : WorkGroup :=
  group_resume Cursor.new cfg now.

(** ** Pause *)

Definition pause_active (g : WorkGroup) (now : Z) : WorkGroup * bool :=
  match g_paused g with
  | None => (g, false)
  | Some p =>
      if now <? until p then (g, true)
      else
        (set_paused (set_table g (shift_deadlines (g_leases g) (sat_sub (until p) (paused_at p)))) None,
         false)
  end.

Definition lease_observe_now (g : WorkGroup) (now : Z) : Z :=
  match g_paused g with
  | Some p => if now <? until p then paused_at p
              else sat_sub now (sat_sub (until p) (paused_at p))
  | None => now
  end.

Definition apply_pause (g : WorkGroup) (now pause_ms : Z) : WorkGroup * Z :=
  let g := (pause_active g now).1 in
  if pause_ms =? 0 then
    match g_paused g with
    | Some p =>
        (set_table (set_paused g None) (shift_deadlines (g_leases g) (sat_sub now (paused_at p))), now)
    | None => (g, now)
    end
  else
    let u := sat_add64 now (sat_mul64 pause_ms 1000000) in
    match g_paused g with
    | Some p => (set_paused g (Some (mk_pause (paused_at p) u)), u)
    | None => (set_paused g (Some (mk_pause now u)), u)
    end.

(** ** Checkpoints and recovery *)

Definition MAX_PAYLOAD : nat := 64.

(** [32 * 1024]; kept as a product so that it never unfolds as a unary
    number. *)
Definition ATTEMPTS_PAYLOAD : Z := 32 * 1024.

Section recovery.
Context `{Crc32c}.

(** [snapshot_payload] *)
Definition snapshot_payload (c : Cursor.AckCursor) : list Z :=
  let buf := encode_snapshot c [] in
  if decide (length buf <= MAX_PAYLOAD)%nat then buf
  else
    let max_runs := ((MAX_PAYLOAD - SNAPSHOT_MIN_LEN) / 16)%nat in
    let kept := take max_runs (Cursor.ahead c) in
    let capped := match Cursor.resume_with_ahead (Cursor.committed c) kept with
                  | Ok c' => c'
                  | _ => Cursor.resume (Cursor.committed c)
                  end in
    encode_snapshot capped [].

(** [resume_cursor_from_snapshot]; its [debug_assert] is compiled out of a
    release build. *)
Definition resume_cursor_from_snapshot (recovered : option (list Z)) (flushed : Z) : Cursor.AckCursor :=
  let recovered_cursor :=
    match recovered with
    | Some p =>
        if decide (SNAPSHOT_MIN_LEN <= length p)%nat then
          match decode_snapshot p with Ok c => Some c | _ => None end
        else
          Some (Cursor.resume
            (match slice p 0 8 with Some s => le_val s | None => 0 end))
    | None => None
    end in
  let recovered_committed :=
    match recovered_cursor with Some c => Cursor.committed c | None => 0 end in
  let committed := Z.min recovered_committed flushed in
  let ahead :=
    match recovered_cursor with
    | Some c => filter (fun r => committed < r.1 /\ r.2 <= flushed) (Cursor.ahead c)
    | None => []
    end in
  match Cursor.resume_with_ahead committed ahead with
  | Ok c => c
  | _ => Cursor.resume committed
  end.

(** [attempts_snapshot_payload] *)
Definition attempts_snapshot_payload (pairs : list (Z * Z)) : list Z :=
  let buf := encode_attempt_snapshot pairs [] in
  if Z.of_nat (length buf) <=? ATTEMPTS_PAYLOAD then buf
  else
    let max_pairs := (ATTEMPTS_PAYLOAD - Z.of_nat ATTEMPT_SNAPSHOT_MIN_LEN) / 12 in
    encode_attempt_snapshot (take (Z.to_nat max_pairs) pairs) [].

(** [resume_attempts_from_snapshot] *)
Definition resume_attempts_from_snapshot (recovered : option (list Z)) (committed flushed : Z)
    : list (Z * Z) :=
  match recovered with
  | None => []
  | Some payload =>
      match decode_attempt_snapshot payload with
      | Ok pairs => filter (fun p => committed <= p.1 /\ p.1 < flushed) pairs
      | _ => []
      end
  end.

(** [resume_work_group] *)
Definition resume_work_group (c : Cursor.AckCursor) (attempts_recovered : option (list Z))
    (cfg : LeaseConfig) (opened_at flushed : Z) : WorkGroup :=
  let attempts := resume_attempts_from_snapshot attempts_recovered (Cursor.committed c) flushed in
  let g := group_resume c cfg opened_at in
  set_table g (resume_attempts (g_leases g) attempts).

End recovery.

(** ** Composite priority offsets *)

Definition PRIORITY_LANE_SHIFT : Z := 56.

Definition compose_priority_offset (lane raw : Z) : Z :=
  let mask := Z.shiftl 1 PRIORITY_LANE_SHIFT - 1 in
  Z.lor (Z.shiftl lane PRIORITY_LANE_SHIFT mod (u64_max + 1)) (Z.land raw mask).

Definition decompose_priority_offset (composite : Z) : Z * Z :=
  let mask := Z.shiftl 1 PRIORITY_LANE_SHIFT - 1 in
  let lane := Z.min (Z.shiftr composite PRIORITY_LANE_SHIFT) u32_max in
  (lane, Z.land composite mask).

(** ** Recovery of the cursor *)

Lemma ranges_ok_after p l r : Cursor.ranges_ok p l -> r ∈ l -> p < r.1 /\ r.1 < r.2.
Proof.
  revert p. induction l as [|[s e] l IH]; intros p Hl Hr; [by apply not_elem_of_nil in Hr|].
  destruct Hl as (H1 & H2 & H3). apply elem_of_cons in Hr as [->|Hr]; [simpl; lia|].
  destruct (IH e H3 Hr). lia.
Qed.

Lemma ranges_ok_filter (P : Z * Z -> Prop) `{forall x, Decision (P x)} p q l :
  Cursor.ranges_ok p l -> (forall r, r ∈ filter P l -> q < r.1) -> Cursor.ranges_ok q (filter P l).
Proof.
  revert p q. induction l as [|[s e] l IH]; intros p q Hl Hq; [done|].
  destruct Hl as (H1 & H2 & H3). rewrite filter_cons in *. case_decide as HP; [|by apply (IH e)].
  simpl. split; [apply (Hq (s, e)), list_elem_of_here|]. split; [done|]. apply (IH e); [done|].
  intros r [_ Hr]%list_elem_of_filter. by destruct (ranges_ok_after e l r H3 Hr).
Qed.

Lemma ranges_ok_take p n l : Cursor.ranges_ok p l -> Cursor.ranges_ok p (take n l).
Proof.
  revert p n. induction l as [|[s e] l IH]; intros p [|n]; simpl; try done. intros (H1 & H2 & H3). auto.
Qed.

(** A cursor cut down to a durable head. *)
Definition clamped (c : Cursor.AckCursor) (flushed : Z) : Cursor.AckCursor :=
  let k := Z.min (Cursor.committed c) flushed in
  Cursor.mk_cursor k (filter (fun r => k < r.1 /\ r.2 <= flushed) (Cursor.ahead c)).

Lemma clamped_wf c flushed :
  Cursor.wf c -> is_u64 flushed ->
  Cursor.wf (clamped c flushed) /\
  Cursor.resume_with_ahead (Cursor.committed (clamped c flushed)) (Cursor.ahead (clamped c flushed)) =
    Ok (clamped c flushed).
Proof.
  intros (Hk & Hl & Hb) Hf.
  assert (Hok : Cursor.ranges_ok (Cursor.committed (clamped c flushed)) (Cursor.ahead (clamped c flushed))).
  { apply (ranges_ok_filter _ _ _ _ Hl). by intros r [[? _] _]%list_elem_of_filter. }
  split; [|by apply resume_with_ahead_ok]. split; [simpl; ulia|]. split; [done|].
  rewrite Forall_forall in Hb |- *. intros r [_ Hr]%list_elem_of_filter. by apply Hb.
Qed.

Lemma clamped_acked c flushed o :
  Cursor.acked (clamped c flushed) o -> Cursor.acked c o /\ o < flushed.
Proof.
  intros [Ho|Ho]; simpl in Ho; [split; [left|]; lia|]. unfold Cursor.in_ranges in Ho.
  apply Exists_exists in Ho as (r & Hr & Hin). apply list_elem_of_filter in Hr as [[? ?] Hr].
  split; [|lia]. right. apply Exists_exists. eauto.
Qed.

Lemma clamped_id c flushed :
  Cursor.wf c -> Cursor.committed c <= flushed -> Forall (fun r => r.2 <= flushed) (Cursor.ahead c) ->
  clamped c flushed = c.
Proof.
  intros (_ & Hl & _) Hk Ha. rewrite Forall_forall in Ha. unfold clamped. rewrite Z.min_l by done.
  rewrite filter_all; [by destruct c|]. intros r Hr. destruct (ranges_ok_after _ _ _ Hl Hr). auto.
Qed.

Section cursor_recovery.
Context `{Crc32c}.

Lemma length_encode_snapshot c : length (encode_snapshot c []) = (13 + 16 * length (Cursor.ahead c))%nat.
Proof. unfold encode_snapshot. rewrite !length_app, length_snapshot_body, length_le_bytes. simpl. lia. Qed.

(** Whatever the slot holds, recovery is the clamp of some well-formed cursor;
    a valid snapshot gives the clamp of the cursor it encodes. *)
Lemma resume_is_clamped recovered flushed :
  from_option bytes_ok True recovered -> is_u64 flushed ->
  exists rc, Cursor.wf rc /\ resume_cursor_from_snapshot recovered flushed = clamped rc flushed.
Proof.
  intros Hb Hf.
  assert (Hdone : forall rc, Cursor.wf rc ->
    match Cursor.resume_with_ahead (Cursor.committed (clamped rc flushed)) (Cursor.ahead (clamped rc flushed)) with
    | Ok c => c | _ => Cursor.resume (Cursor.committed (clamped rc flushed)) end = clamped rc flushed).
  { intros rc Hw. by destruct (clamped_wf rc flushed Hw Hf) as [_ ->]. }
  assert (Hpos : forall k, is_u64 k -> Cursor.wf (Cursor.resume k)) by (by intros k Hk; split).
  destruct recovered as [p|]; [|exists (Cursor.resume 0); split; [apply Hpos; ulia|apply (Hdone (Cursor.resume 0)), Hpos; ulia]].
  simpl in Hb. unfold resume_cursor_from_snapshot. case_decide as Hl.
  - destruct (decode_snapshot p) as [c|e|] eqn:E.
    + exists c. destruct (snapshot_canonical p c Hb E). split; [done|by apply (Hdone c)].
    + exists (Cursor.resume 0). split; [apply Hpos; ulia|apply (Hdone (Cursor.resume 0)), Hpos; ulia].
    + pose proof (decode_snapshot_total p) as Ht. by rewrite E in Ht.
  - set (k := match slice p 0 8 with Some s => le_val s | None => 0 end).
    assert (is_u64 k).
    { unfold k, slice. case_decide; [|ulia]. apply le_val_u64.
      - rewrite length_take, length_drop. lia.
      - by apply Forall_take, Forall_drop. }
    exists (Cursor.resume k). split; [by apply Hpos|by apply (Hdone (Cursor.resume k)), Hpos].
Qed.

Lemma resume_snapshot c flushed :
  Cursor.wf c -> is_u64 flushed ->
  resume_cursor_from_snapshot (Some (encode_snapshot c [])) flushed = clamped c flushed.
Proof.
  intros Hw Hf. unfold resume_cursor_from_snapshot.
  rewrite decide_True by (rewrite length_encode_snapshot; unfold SNAPSHOT_MIN_LEN; lia).
  pose proof (snapshot_roundtrip c [] Hw) as Hr. rewrite drop_0 in Hr. rewrite Hr.
  destruct (clamped_wf c flushed Hw Hf) as [_ Hc]. unfold clamped in *. simpl in Hc. by rewrite Hc.
Qed.

(** The payload is the snapshot of the cursor with its first runs. *)
Lemma snapshot_payload_spec c :
  Cursor.wf c ->
  exists n, snapshot_payload c = encode_snapshot (Cursor.mk_cursor (Cursor.committed c) (take n (Cursor.ahead c))) [] /\
    (length (snapshot_payload c) <= MAX_PAYLOAD)%nat /\
    (length (Cursor.ahead c) <= 3 -> take n (Cursor.ahead c) = Cursor.ahead c)%nat.
Proof.
  intros (Hk & Hl & Hb). unfold snapshot_payload. rewrite length_encode_snapshot. unfold MAX_PAYLOAD.
  case_decide as Hfit.
  - exists (length (Cursor.ahead c)). rewrite firstn_all, length_encode_snapshot. by destruct c.
  - change ((64 - SNAPSHOT_MIN_LEN) / 16)%nat with 3%nat. exists 3%nat.
    rewrite (proj2 (resume_with_ahead_ok _ (take 3 (Cursor.ahead c)) _) (conj (ranges_ok_take _ _ _ Hl) eq_refl)).
    rewrite length_encode_snapshot. cbn [Cursor.ahead]. rewrite length_take.
    split; [done|]. split; [lia|]. intros H3. by apply take_ge.
Qed.

(** C29: recovery never loses or invents an ack.  The checkpoint payload of a
    cursor fits its slot, and resuming from it at a durable head gives a
    well-formed cursor at the committed offset (clamped to the head) that claims
    only offsets the cursor had acked, all below the head; with at most three
    acked-ahead runs, all durable, it is the very same cursor.  Whatever bytes a
    damaged slot holds, the resumed cursor is well formed and within the head. *)
Theorem cursor_recovery_safe c flushed damaged :
  Cursor.wf c -> is_u64 flushed -> bytes_ok damaged ->
  (length (snapshot_payload c) <= MAX_PAYLOAD)%nat /\
  (let r := resume_cursor_from_snapshot (Some (snapshot_payload c)) flushed in
   Cursor.wf r /\ Cursor.committed r = Z.min (Cursor.committed c) flushed /\
   (forall o, Cursor.acked r o -> Cursor.acked c o /\ o < flushed) /\
   ((length (Cursor.ahead c) <= 3)%nat -> Cursor.committed c <= flushed ->
    Forall (fun r => r.2 <= flushed) (Cursor.ahead c) -> r = c)) /\
  (let r := resume_cursor_from_snapshot (Some damaged) flushed in
   Cursor.wf r /\ forall o, Cursor.acked r o -> o < flushed).
Proof.
  intros Hw Hf Hd. destruct (snapshot_payload_spec c Hw) as (n & Hp & Hlen & Hn).
  split; [done|]. split.
  - pose proof Hw as (Hk & Hl & Hb).
    assert (Hw3 : Cursor.wf (Cursor.mk_cursor (Cursor.committed c) (take n (Cursor.ahead c))))
      by (split; [done|]; split; [by apply ranges_ok_take|by apply Forall_take]).
    rewrite Hp, resume_snapshot by done. cbn zeta.
    split; [by apply clamped_wf|]. split; [done|]. split.
    + intros o [Ho ?]%clamped_acked. split; [|done]. destruct Ho as [Ho|Ho]; [by left|right].
      rewrite <- (take_drop n (Cursor.ahead c)). apply Cursor.in_ranges_app. by left.
    + intros H3 Hk2 Ha. rewrite Hn in * by done. replace (Cursor.mk_cursor _ _) with c by (by destruct c).
      by apply clamped_id.
  - destruct (resume_is_clamped (Some damaged) flushed Hd Hf) as (rc & Hwr & ->).
    split; [by apply clamped_wf|]. by intros o [_ ?]%clamped_acked.
Qed.

End cursor_recovery.

Lemma cursor_recovery_safe_witness :
  @resume_cursor_from_snapshot castagnoli (Some (@snapshot_payload castagnoli cursor_3_5_8)) 100 = cursor_3_5_8 /\
  Cursor.wf (@resume_cursor_from_snapshot castagnoli (Some [1; 2; 3]) 100).
Proof.
  assert (Hb : bytes_ok [1; 2; 3]) by (apply (bool_decide_unpack _); vm_compute; exact I).
  assert (Hw : Cursor.wf cursor_3_5_8) by apply Cursor.cursor_3_5_8_wf.
  destruct (@cursor_recovery_safe castagnoli cursor_3_5_8 100 [1; 2; 3] Hw ltac:(ulia) Hb)
    as (_ & (_ & _ & _ & Hid) & Hd & _).
  split; [|exact Hd]. apply Hid; [vm_compute; lia|vm_compute; discriminate|].
  apply (bool_decide_unpack _); vm_compute; exact I.
Defined.

(** ** The lease clock of a pausable group *)

(** What a pause promises: the lease clock stands still while the group is
    paused.  The reference keeps the clock explicitly; it advances by the part of
    the elapsed time that lies outside the current window. *)
Record PauseSpec := mk_pspec {
  ps_clock : Z;
  ps_last : Z;
  ps_until : Z
}.

Inductive pause_event :=
| EvPause (now pause_ms : Z)
| EvPoll (now : Z).

Definition ev_time (e : pause_event) : Z := match e with EvPause t _ | EvPoll t => t end.

Definition ps_advance (s : PauseSpec) (t : Z) : PauseSpec :=
  mk_pspec (ps_clock s + (t - Z.max (ps_last s) (Z.min t (ps_until s)))) t (ps_until s).

Definition ps_step (s : PauseSpec) (e : pause_event) : PauseSpec :=
  match e with
  | EvPause t ms =>
      let s := ps_advance s t in
      mk_pspec (ps_clock s) t (if ms =? 0 then t else Z.min (t + Z.min (ms * 1000000) u64_max) u64_max)
  | EvPoll t => ps_advance s t
  end.

(** The engine's side: pausing and the check every poll starts with. *)
Definition pause_step (g : WorkGroup) (e : pause_event) : WorkGroup :=
  match e with
  | EvPause t ms => (apply_pause g t ms).1
  | EvPoll t => (pause_active g t).1
  end.

Fixpoint times_from (t : Z) (es : list pause_event) : Prop :=
  match es with
  | [] => True
  | e :: es => t <= ev_time e /\ (match e with EvPause _ ms => 0 <= ms | _ => True end) /\ times_from (ev_time e) es
  end.

(** The leases of the group are the original ones, moved by the time the clock
    has stood still; an open window has frozen it since it was opened. *)
Definition pause_inv (m0 : gmap Z Lease) (g : WorkGroup) (s : PauseSpec) : Prop :=
  0 <= ps_clock s <= ps_last s /\
  match g_paused g with
  | None => ps_until s <= ps_last s /\
            leases (g_leases g) = shift_lease (ps_last s - ps_clock s) <$> m0
  | Some p => until p = ps_until s /\ ps_clock s <= paused_at p <= ps_last s /\ ps_last s <= until p /\
              leases (g_leases g) = shift_lease (paused_at p - ps_clock s) <$> m0
  end.

(** No deadline saturates within the horizon [T]. *)
Definition horizon (T : Z) (m0 : gmap Z Lease) : Prop :=
  T <= u64_max /\ map_Forall (fun _ l => deadline l + T <= u64_max /\ attempt_start l + T <= u64_max) m0.

Lemma shift_shift m0 T a b :
  horizon T m0 -> 0 <= a -> 0 <= b -> a + b <= T ->
  shift_lease b <$> (shift_lease a <$> m0) = shift_lease (a + b) <$> m0.
Proof.
  intros [_ Hm] Ha Hb HT. rewrite <- map_fmap_compose. apply map_fmap_ext. intros off l Hl.
  destruct (Hm off l Hl) as [H1 H2]. unfold shift_lease, compose. simpl.
  f_equal; unfold sat_add; lia.
Qed.

(** Settling an elapsed window keeps the simulation and reports whether the
    group is paused. *)
Lemma pause_active_inv T m0 g s t :
  horizon T m0 -> pause_inv m0 g s -> ps_last s <= t <= T ->
  pause_inv m0 (pause_active g t).1 (ps_advance s t) /\
  (pause_active g t).2 = (t <? ps_until s) /\
  (g_paused (pause_active g t).1 = None <-> ps_until s <= t) /\
  (forall p, g_paused (pause_active g t).1 = Some p -> g_paused g = Some p).
Proof.
  intros HT (Hc & Hg) Ht. unfold pause_active, pause_inv, ps_advance; simpl.
  destruct (g_paused g) as [p|] eqn:Hp.
  - destruct Hg as (Hu & Hpa & Hul & Hl). rewrite <- Hu. destruct (Z.ltb_spec t (until p)); simpl.
    + rewrite Hp. split; [|naive_solver lia].
      split; [lia|]. split; [done|]. split; [lia|]. split; [lia|]. rewrite Hl. do 2 f_equal. lia.
    + split; [|naive_solver]. split; [lia|]. split; [lia|].
      rewrite Hl, (shift_shift m0 T) by (done || ulia). do 2 f_equal. ulia.
  - destruct Hg as [Hu Hl]. simpl. rewrite Hp.
    assert ((t <? ps_until s) = false) as -> by (apply Z.ltb_ge; lia).
    split; [|naive_solver lia]. split; [lia|]. split; [lia|]. rewrite Hl. do 2 f_equal. lia.
Qed.

Lemma pause_step_inv T m0 g s e :
  horizon T m0 -> pause_inv m0 g s -> ps_last s <= ev_time e <= T ->
  match e with EvPause _ ms => 0 <= ms | _ => True end ->
  pause_inv m0 (pause_step g e) (ps_step s e).
Proof.
  intros HT Hi Ht Hms. destruct e as [t ms|t]; [|by eapply pause_active_inv].
  destruct (pause_active_inv T m0 g s t HT Hi Ht) as ((Hc & Hg) & _ & Hnone & _).
  simpl. unfold apply_pause. destruct (pause_active g t) as [g1 b]; simpl in *.
  set (clk := ps_clock s + _) in *. clearbody clk. destruct HT as [HTu HTm].
  unfold pause_inv. destruct (Z.eqb_spec ms 0) as [->|Hne]; destruct (g_paused g1) as [p|] eqn:Hp; simpl.
  - destruct Hg as (Hu & Hpa & Hul & Hl). split; [lia|]. split; [lia|].
    rewrite Hl, (shift_shift m0 T) by (done || ulia). do 2 f_equal. ulia.
  - rewrite Hp. destruct Hg as [? Hl]. done.
  - destruct Hg as (Hu & Hpa & Hul & Hl). split; [lia|]. split; [ulia|]. split; [ulia|]. split; [ulia|done].
  - destruct Hg as [? Hl]. split; [lia|]. split; [ulia|]. split; [lia|]. split; [ulia|done].
Qed.

Lemma pause_run_inv T m0 g s es :
  horizon T m0 -> pause_inv m0 g s -> times_from (ps_last s) es ->
  Forall (fun e => ev_time e <= T) es ->
  pause_inv m0 (foldl pause_step g es) (foldl ps_step s es).
Proof.
  intros HT. revert g s. induction es as [|e es IH]; intros g s Hi Ht Hf; [done|].
  destruct Ht as (H1 & H2 & H3). apply Forall_cons in Hf as [Hf1 Hf2]. simpl. apply IH; [|by destruct e|done].
  apply (pause_step_inv T); [done|done|lia|done].
Qed.

Lemma Z_ltb_ext a b c d : (a < b <-> c < d) -> (a <? b) = (c <? d).
Proof. intros. destruct (Z.ltb_spec a b), (Z.ltb_spec c d); tauto || lia. Qed.

Lemma times_from_snoc s es t :
  times_from (ps_last s) (es ++ [EvPoll t]) ->
  times_from (ps_last s) es /\ ps_last (foldl ps_step s es) <= t.
Proof.
  revert s. induction es as [|e es IH]; intros s; simpl; [tauto|]. intros (H1 & H2 & H3).
  replace (ev_time e) with (ps_last (ps_step s e)) in H3 |- * by (by destruct e).
  destruct (IH _ H3). destruct e; auto.
Qed.

Lemma shifted_deadlines T t1 t0 D x :
  horizon T (leases t0) -> 0 <= D <= T -> leases t1 = shift_lease D <$> leases t0 ->
  (forall off, is_claimable t1 off x = is_claimable t0 off (x - D)) /\
  (forall tok, holds_active t1 tok x = holds_active t0 tok (x - D)).
Proof.
  intros [HT Hm] HD Hl. unfold is_claimable, holds_active. rewrite Hl.
  assert (Hd : forall off l, leases t0 !! off = Some l -> (x <? deadline (shift_lease D l)) = (x - D <? deadline l)).
  { intros off l Hl0. destruct (Hm off l Hl0) as [? _]. 
    apply Z_ltb_ext. unfold shift_lease, sat_add; simpl. lia. }
  split; intros k; rewrite lookup_fmap.
  - destruct (leases t0 !! k) as [l|] eqn:E; simpl; [|done]. by rewrite <- (Hd k l E).
  - destruct (leases t0 !! tok_offset k) as [l|] eqn:E; simpl; [|done]. by rewrite <- (Hd _ l E).
Qed.

(** C33: a pause stops the lease clock exactly.  After any history of pause,
    extend, resume and poll calls on a group, at any later instant: a poll finds
    the group paused precisely while the current window lasts; every lease the
    poll then sees is the original one moved by the time the clock stood still,
    so that once resumed a message is claimable, and its hard cap reached,
    exactly when it was on a clock that ran only outside the windows; and the
    read-only probe asks the table at that same clock. *)
Theorem pause_stops_lease_clock T g0 t0 es t :
  g_paused g0 = None -> horizon T (leases (g_leases g0)) -> 0 <= t0 <= T -> times_from t0 (es ++ [EvPoll t]) ->
  Forall (fun e => ev_time e <= T) (es ++ [EvPoll t]) ->
  let g := foldl pause_step g0 es in
  let s := foldl ps_step (mk_pspec t0 t0 t0) es in
  let clock := ps_clock (ps_advance s t) in
  (pause_active g t).2 = (t <? ps_until s) /\
  (ps_until s <= t ->
   leases (g_leases (pause_active g t).1) = shift_lease (t - clock) <$> leases (g_leases g0) /\
   (forall off, is_claimable (g_leases (pause_active g t).1) off t = is_claimable (g_leases g0) off clock)) /\
  (forall tok, holds_active (g_leases g) tok (lease_observe_now g t) = holds_active (g_leases g0) tok clock).
Proof.
  intros Hg0 HT Ht0 Htm Hf g s clock. apply Forall_app in Hf as [Hf1 [Hf2 _]%Forall_cons].
  destruct (times_from_snoc (mk_pspec t0 t0 t0) es t Htm) as [Htm1 Hlast].
  assert (Hi0 : pause_inv (leases (g_leases g0)) g0 (mk_pspec t0 t0 t0)).
  { split; [simpl; lia|]. rewrite Hg0. split; [done|]. simpl. rewrite Z.sub_diag.
    rewrite <- (map_fmap_id (leases (g_leases g0))) at 1. apply map_fmap_ext. intros off l Hl.
    destruct (proj2 HT off l Hl). unfold shift_lease, sat_add. destruct l; simpl in *. f_equal; lia. }
  pose proof (pause_run_inv T _ _ _ es HT Hi0 Htm1 Hf1) as Hi. fold g s in Hi, Hlast. simpl in Hf2.
  destruct (pause_active_inv T _ g s t HT Hi) as (Ha & Hb & Hn & _); [lia|].
  split; [done|]. split.
  - intros Hu. apply Hn in Hu. destruct Ha as (Hc & Ha). rewrite Hu in Ha. destruct Ha as [_ Ha].
    split; [done|]. intros off. fold clock in Hc, Ha. simpl in Hc, Ha.
    destruct (shifted_deadlines T _ _ (t - clock) t HT ltac:(lia) Ha) as [-> _]. f_equal. lia.
  - intros tok. destruct Hi as (Hc & Hg). unfold lease_observe_now.
    destruct (g_paused g) as [p|].
    + destruct Hg as (Hu & Hpa & Hul & Hl).
      rewrite (proj2 (shifted_deadlines T _ _ (paused_at p - ps_clock s) _ HT ltac:(lia) Hl) tok). f_equal.
      unfold clock. simpl. rewrite <- Hu. destruct (Z.ltb_spec t (until p)); ulia.
    + destruct Hg as (Hu & Hl). 
      rewrite (proj2 (shifted_deadlines T _ _ (ps_last s - ps_clock s) _ HT ltac:(lia) Hl) tok). f_equal.
      unfold clock. simpl. lia.
Qed.

(** Visibility 30 s, hard cap 300 s; one lease granted at 0.  Paused at 10 s for
    400 s, the lease still has 20 s to run when the window ends. *)
Definition paused_group : WorkGroup :=
  let g := group_new (mk_config 30000000000 300000000000) 0 in
  set_table g (claim (g_leases g) 0 0).1.

Lemma pause_stops_lease_clock_witness :
  let g := (apply_pause paused_group 10000000000 400000).1 in
  pause_active g 400000000000 = (g, true) /\
  is_claimable (g_leases (pause_active g 429999999999).1) 0 429999999999 = false /\
  is_claimable (g_leases (pause_active g 430000000000).1) 0 430000000000 = true.
Proof.
  assert (Hp : g_paused paused_group = None) by reflexivity.
  assert (HT : horizon 500000000000 (leases (g_leases paused_group))).
  { split; [ulia|]. apply (bool_decide_unpack _). vm_compute. exact I. }
  split; [vm_compute; reflexivity|].
  pose proof (fun t => pause_stops_lease_clock 500000000000 paused_group 0 [EvPause 10000000000 400000] t Hp HT
    ltac:(lia)) as H.
  split.
  - destruct (H 429999999999) as (_ & H2 & _);
      [simpl; lia|repeat (apply Forall_cons_2; [simpl; lia|]); apply Forall_nil_2|].
    destruct H2 as [_ H2]; [vm_compute; discriminate|]. exact (H2 0).
  - destruct (H 430000000000) as (_ & H2 & _);
      [simpl; lia|repeat (apply Forall_cons_2; [simpl; lia|]); apply Forall_nil_2|].
    destruct H2 as [_ H2]; [vm_compute; discriminate|]. exact (H2 0).
Defined.

(** ** Priority lanes *)

Lemma lor_disjoint a b n : 0 <= n -> 0 <= b < 2 ^ n -> Z.lor (a * 2 ^ n) b = a * 2 ^ n + b.
Proof.
  intros Hn Hb. destruct (decide (b = 0)) as [->|Hb0]; [by rewrite Z.lor_0_r, Z.add_0_r|].
  assert (Hd : Z.land (a * 2 ^ n) b = 0).
  { rewrite <- Z.shiftl_mul_pow2 by done. apply Z.bits_inj'. intros i Hi. rewrite Z.land_spec, Z.bits_0.
    destruct (Z.lt_ge_cases i n) as [Hin|Hin]; [by rewrite Z.shiftl_spec_low|].
    rewrite (Z.bits_above_log2 b), andb_false_r; [done|lia|].
    apply Z.log2_lt_pow2; [lia|]. eapply Z.lt_le_trans; [apply Hb|by apply Z.pow_le_mono_r]. }
  by rewrite <- Z.lxor_lor, Z.add_nocarry_lxor.
Qed.

Lemma land_low x n : 0 <= n -> Z.land x (Z.shiftl 1 n - 1) = x mod 2 ^ n.
Proof. intros Hn. rewrite Z.shiftl_1_l, Z.sub_1_r, <- Z.ones_equiv. by apply Z.land_ones. Qed.

Lemma compose_value lane raw :
  0 <= lane < 256 -> compose_priority_offset lane raw = lane * 2 ^ 56 + raw mod 2 ^ 56.
Proof.
  intros Hl. unfold compose_priority_offset, PRIORITY_LANE_SHIFT. rewrite land_low by lia.
  rewrite Z.shiftl_mul_pow2 by lia. pose proof (Z.mod_pos_bound raw (2 ^ 56) ltac:(lia)).
  rewrite (Z.mod_small (lane * _)) by (unfold u64_max; lia). apply lor_disjoint; lia.
Qed.

(** priority-lane offsets are a bijection.  Composing a lane (at most 256
    of them) with an in-lane offset below [2 ^ 56] gives a 64-bit offset that
    decomposes to the same pair, composite offsets compare by lane first and then
    by offset, and every 64-bit composite is the composition of its parts. *)
Theorem priority_offset_bijection lane raw lane' raw' composite :
  0 <= lane < 256 -> 0 <= raw < 2 ^ 56 -> 0 <= lane' < 256 -> 0 <= raw' < 2 ^ 56 -> is_u64 composite ->
  is_u64 (compose_priority_offset lane raw) /\
  decompose_priority_offset (compose_priority_offset lane raw) = (lane, raw) /\
  (compose_priority_offset lane raw < compose_priority_offset lane' raw' <->
   lane < lane' \/ lane = lane' /\ raw < raw') /\
  compose_priority_offset (decompose_priority_offset composite).1 (decompose_priority_offset composite).2 = composite.
Proof.
  intros Hl Hr Hl' Hr' Hc. rewrite !compose_value by done. rewrite !(Z.mod_small raw), !(Z.mod_small raw') by done.
  assert (Hd : forall c, is_u64 c -> decompose_priority_offset c = (c / 2 ^ 56, c mod 2 ^ 56)).
  { intros c Hu. unfold decompose_priority_offset, PRIORITY_LANE_SHIFT. rewrite land_low by lia.
    rewrite Z.shiftr_div_pow2 by lia. rewrite Z.min_l; [done|].
    apply Z.lt_succ_r, Z.div_lt_upper_bound; ulia. }
  assert (is_u64 (lane * 2 ^ 56 + raw)) by ulia.
  split; [done|]. split; [|split].
  - rewrite Hd by done. rewrite Z.div_add_l, Z.div_small, Z.add_0_r by lia.
    rewrite Z.add_comm, Z.mod_add, Z.mod_small by lia. done.
  - nia.
  - rewrite Hd by done. cbn [fst snd]. rewrite compose_value.
    + rewrite Z.mod_mod by lia. pose proof (Z.div_mod composite (2 ^ 56) ltac:(lia)). lia.
    + split; [apply Z.div_pos; ulia|apply Z.div_lt_upper_bound; ulia].
Qed.

Lemma priority_offset_bijection_witness :
  decompose_priority_offset (compose_priority_offset 255 7) = (255, 7).
Proof. apply (priority_offset_bijection 255 7 0 0 0); ulia. Defined.
