(* ===== verification/Restart.v ===== *)
(** * Delivery counts over restarts

    The attempt counts of a group are flushed to [attempts.ckpt] and read back
    when the broker restarts.  This file runs the lease table of one group
    together with its durable slot, through lease operations, flushes and
    crashes at any point, and bounds how far a crash can set a count back. *)

From S2P Require Import Prelude Bytes Cursor Attempt Delivery Lease WorkGroup.

Record AttemptStore := mk_store {
  as_table : LeaseTable;
  as_durable : option (list Z)
}.

Inductive attempt_event :=
| ALease (op : lease_op)
| AFlush
| AMaybe (threshold : Z)
| ACrash (c : Cursor.AckCursor) (opened_at flushed : Z).

Section restart.
Context `{Crc32c}.

(** [checkpoint_default_attempts], [write_group_attempts]: snapshot the live
    and the carried counts, then reset the dirtiness counter. *)
Definition checkpoint_attempts (s : AttemptStore) : AttemptStore :=
  mk_store (note_attempts_flushed (as_table s))
    (Some (attempts_snapshot_payload (all_attempt_counts (as_table s)))).

(** [attempts_flush_due] *)
Definition attempts_flush_due (threshold : Z) (t : LeaseTable) : bool :=
  negb (threshold =? 0) && (threshold <=? redeliveries_since_flush t).

(** One event; a crash keeps the durable slot and reopens the group from it. *)
Definition astep (s : AttemptStore) (e : attempt_event) : AttemptStore * lease_event :=
  match e with
  | ALease op => let '(t, ev) := lstep (as_table s) op in (mk_store t (as_durable s), ev)
  | AFlush => (checkpoint_attempts s, EvNone)
  | AMaybe threshold =>
      (if attempts_flush_due threshold (as_table s) then checkpoint_attempts s else s, EvNone)
  | ACrash c opened_at flushed =>
      (mk_store (g_leases (resume_work_group c (as_durable s) (config (as_table s)) opened_at flushed))
         (as_durable s), EvNone)
  end.

(** The deliveries of [off] reported by a run, and the most that its crashes
    can have taken from the count. *)
Fixpoint arun (off : Z) (s : AttemptStore) (es : list attempt_event) : AttemptStore * list Z * Z :=
  match es with
  | [] => (s, [], 0)
  | e :: es =>
      let '(s', ev) := astep s e in
      let '(s'', reports, lost) := arun off s' es in
      (s'', option_list (granted_at off ev) ++ reports,
       lost + match e with ACrash _ _ _ => redeliveries_since_flush (as_table s) + 1 | _ => 0 end)
  end.

(** The events the guarantee for [off] is about: offsets are 64-bit, a flush
    fits its slot, and [off] is neither finished nor outside the recovered
    log. *)
Definition event_ok (off : Z) (s : AttemptStore) (e : attempt_event) : Prop :=
  match e with
  | ALease op => keeps off op (lstep (as_table s) op).2 /\ op_ok (as_table s) op /\ op <> ONoteFlushed /\
                 match op with OClaim o _ => is_u64 o | _ => True end
  | AFlush | AMaybe _ => 9 + 12 * Z.of_nat (size (merged_counts (as_table s))) <= ATTEMPTS_PAYLOAD
  | ACrash c _ flushed => Cursor.committed c <= off < flushed
  end.

Fixpoint events_ok (off : Z) (s : AttemptStore) (es : list attempt_event) : Prop :=
  match es with
  | [] => True
  | e :: es => event_ok off s e /\ events_ok off (astep s e).1 es
  end.

(** The count the durable slot holds. *)
Definition durable_count (s : AttemptStore) (off : Z) : Z :=
  match as_durable s with
  | Some p => match decode_attempt_snapshot p with
              | Ok pairs => default 0 ((list_to_map pairs : gmap Z Z) !! off)
              | _ => 0
              end
  | None => 0
  end.

Definition keys_u64 (t : LeaseTable) : Prop :=
  forall off, is_Some (leases t !! off) \/ is_Some (carried t !! off) -> is_u64 off.

Definition slot_ok (p : option (list Z)) : Prop :=
  match p with
  | None => True
  | Some p => exists pairs, decode_attempt_snapshot p = Ok pairs /\ NoDup pairs.*1 /\
      Forall (fun q => is_u64 q.1 /\ 1 <= q.2 <= u32_max) pairs
  end.

Record store_inv (off : Z) (s : AttemptStore) : Prop := {
  si_wf : Lease.wf (as_table s);
  si_keys : keys_u64 (as_table s);
  si_slot : slot_ok (as_durable s);
  si_dirty : 0 <= redeliveries_since_flush (as_table s) <= u32_max;
  si_lag : durable_count s off <= attempts (as_table s) off <=
           durable_count s off + redeliveries_since_flush (as_table s) +
           (if durable_count s off =? 0 then 1 else 0)
}.

Lemma durable_count_pos s off : slot_ok (as_durable s) -> 0 <= durable_count s off.
Proof.
  unfold durable_count. destruct (as_durable s) as [p|]; [|done]. intros (pairs & -> & Hnd & Hok).
  destruct (list_to_map pairs !! off) as [n|] eqn:E; [|done]. simpl.
  apply elem_of_list_to_map in E; [|done]. rewrite Forall_forall in Hok. specialize (Hok _ E). simpl in Hok. lia.
Qed.

(** ** Lease operations *)

Lemma lstep_keys t op :
  keys_u64 t -> match op with OClaim o _ => is_u64 o | _ => True end -> keys_u64 (lstep t op).1.
Proof.
  intros Hk Hop off Hs. pose proof (lstep_change t op off) as Hch. pose proof (lstep_carried t op off) as Hcr.
  destruct (leases t !! off) eqn:Hl; [apply Hk; rewrite Hl; eauto|].
  destruct Hs as [Hs|Hs].
  - inversion Hch; subst; [destruct Hs; congruence|done].
  - destruct Hcr as [Hcr|[(Hcr & _)|(Hcr & _)]]; [|destruct Hs; congruence..].
    apply Hk. rewrite <- Hcr. eauto.
Qed.

(** A redelivery counts towards the next flush. *)
Lemma lstep_dirty t op off :
  op <> ONoteFlushed -> 0 <= redeliveries_since_flush t <= u32_max ->
  let r := redeliveries_since_flush t in
  let r' := redeliveries_since_flush (lstep t op).1 in
  r <= r' <= u32_max /\
  (match granted_at off (lstep t op).2 with Some d => 2 <= d | None => False end -> r' = sat_add32 r 1).
Proof.
  intros Hop Hr. destruct op as [o now|o from gen|tok|tok now|tok now delay|o now delay|delta|up|]; [|..|done].
  { unfold lstep, claim. destruct (match leases t !! o with Some _ => _ | None => _ end);
      [simpl; split; [lia|done]|].
    unfold checked_add. destruct (_ <=? _); [|simpl; split; [lia|done]]. cbn [leases set_generation].
    destruct (leases t !! o) as [l|]; [simpl; split; [ulia|done]|].
    destruct (Z.leb_spec 2 (match carried (set_generation t (next_generation t + 1)) !! o with
      Some prior => sat_add32 prior 1 | None => 1 end)); simpl in *; (split; [ulia|]); [done|].
    case_decide; lia. }
  all: assert (redeliveries_since_flush (lstep t _).1 = redeliveries_since_flush t /\
         granted_at off (lstep t _).2 = None) as [-> ->] by
    (lease_unfold; simpl; repeat (case_match; simpl in *; simplify_eq/=); done).
  all: split; [lia|done].
Qed.

(** ** Flush *)

Lemma sorted_ascending l prev :
  StronglySorted (fun p q : Z * Z => p.1 < q.1) l ->
  match prev with Some p => Forall (fun q => p < q.1) l | None => True end -> ascending prev l.
Proof.
  intros Hs. revert prev. induction Hs as [|[o a] l _ IH Hl]; intros prev Hp; [done|]. split.
  - destruct prev; [|done]. by apply Forall_cons in Hp as [? _].
  - by apply (IH (Some o)).
Qed.

Lemma merged_counts_ok t :
  Lease.wf t -> keys_u64 t ->
  Forall (fun q => is_u64 q.1 /\ 1 <= q.2 <= u32_max) (all_attempt_counts t).
Proof.
  intros Hw Hk. apply Forall_forall. intros [o n] Hin. apply elem_of_btree_list in Hin. simpl.
  rewrite merged_counts_lookup in Hin. destruct Hw as [_ _ Wl Wc _].
  destruct (leases t !! o) as [l|] eqn:Hl.
  - split; [apply Hk; rewrite Hl; eauto|]. injection Hin as <-. destruct (Wl o l Hl) as [_ ?].
    destruct (carried t !! o) as [m|] eqn:Hm; simpl; [specialize (Wc o m Hm); simpl in Wc|]; lia.
  - split; [apply Hk; rewrite Hin; eauto|]. by apply (Wc o n).
Qed.

Lemma length_encode_attempt pairs :
  length (encode_attempt_snapshot pairs []) = (9 + 12 * length pairs)%nat.
Proof.
  unfold encode_attempt_snapshot, attempt_body. rewrite !length_app, !length_le_bytes, length_encode_pairs.
  unfold PAIR_LEN. simpl. lia.
Qed.

Lemma flushed_slot s :
  Lease.wf (as_table s) -> keys_u64 (as_table s) ->
  9 + 12 * Z.of_nat (size (merged_counts (as_table s))) <= ATTEMPTS_PAYLOAD ->
  slot_ok (as_durable (checkpoint_attempts s)) /\
  forall off, durable_count (checkpoint_attempts s) off = attempts (as_table s) off.
Proof.
  intros Hw Hk Hfit. set (pairs := all_attempt_counts (as_table s)).
  pose proof (merged_counts_ok _ Hw Hk) as Hok. fold pairs in Hok.
  assert (Hd : decode_attempt_snapshot (attempts_snapshot_payload pairs) = Ok pairs).
  { assert (Hn : length pairs = size (merged_counts (as_table s))) by apply length_btree_list.
    unfold attempts_snapshot_payload. rewrite length_encode_attempt.
    rewrite (proj2 (Z.leb_le _ _)) by lia.
    apply attempt_roundtrip.
    - eapply Forall_impl; [exact Hok|]. intros [o n] [? ?]. split; [done|]. simpl in *. ulia.
    - apply sorted_ascending; [apply btree_list_sorted|done].
    - unfold ATTEMPTS_PAYLOAD in Hfit. ulia. }
  split.
  - exists pairs. split; [done|]. split; [apply NoDup_btree_keys|done].
  - intros off. unfold durable_count, checkpoint_attempts. cbn [as_durable]. fold pairs. rewrite Hd.
    assert ((list_to_map pairs : gmap Z Z) = merged_counts (as_table s)) as ->.
    { unfold pairs, all_attempt_counts. rewrite (list_to_map_proper _ (map_to_list (merged_counts (as_table s))));
        [apply list_to_map_to_list|apply NoDup_btree_keys|apply btree_list_perm]. }
    rewrite merged_counts_attempts by done. case_decide; simpl; lia.
Qed.

Lemma checkpoint_inv off s :
  store_inv off s -> event_ok off s AFlush ->
  store_inv off (checkpoint_attempts s) /\ attempts (as_table (checkpoint_attempts s)) off = attempts (as_table s) off.
Proof.
  intros [Hw Hk Hs Hd Hl] Hfit. destruct (flushed_slot s Hw Hk Hfit) as [Hs' Hc]. split; [|done].
  constructor; [apply (lstep_wf _ ONoteFlushed Hw I)|done|done|simpl; ulia|].
  rewrite Hc. change (attempts (as_table (checkpoint_attempts s)) off) with (attempts (as_table s) off).
  cbn [as_table checkpoint_attempts note_attempts_flushed set_redeliveries redeliveries_since_flush].
  destruct (attempts (as_table s) off =? 0); lia.
Qed.

(** ** Crash *)

Lemma list_to_map_filter (P : Z * Z -> Prop) `{forall q, Decision (P q)} l k :
  NoDup l.*1 -> (forall v, P (k, v)) ->
  (list_to_map (filter P l) : gmap Z Z) !! k = (list_to_map l : gmap Z Z) !! k.
Proof.
  intros Hnd HP. assert (Hnd' : NoDup (filter P l).*1).
  { eapply sublist_NoDup; [exact Hnd|]. apply fmap_sublist, sublist_filter. }
  apply option_eq. intros v. rewrite <- !elem_of_list_to_map by done. rewrite list_elem_of_filter.
  split; [tauto|]. by split.
Qed.

(** The counts a restart carries over. *)
Lemma kept_attempts off s committed flushed :
  slot_ok (as_durable s) -> committed <= off < flushed ->
  let kept := resume_attempts_from_snapshot (as_durable s) committed flushed in
  NoDup kept.*1 /\ Forall (fun q => is_u64 q.1 /\ 1 <= q.2 <= u32_max) kept /\
  default 0 ((list_to_map kept : gmap Z Z) !! off) = durable_count s off.
Proof.
  intros Hs Hoff. unfold resume_attempts_from_snapshot, durable_count.
  destruct (as_durable s) as [p|]; [|by repeat split; constructor].
  destruct Hs as (pairs & -> & Hnd & Hok). split; [|split].
  - eapply sublist_NoDup; [exact Hnd|]. apply fmap_sublist, sublist_filter.
  - rewrite Forall_forall in Hok |- *. intros q [_ Hq]%list_elem_of_filter. by apply Hok.
  - by rewrite list_to_map_filter.
Qed.

Lemma crash_inv off s c opened_at flushed :
  store_inv off s -> Cursor.committed c <= off < flushed ->
  let s' := (astep s (ACrash c opened_at flushed)).1 in
  store_inv off s' /\ attempts (as_table s') off = durable_count s off.
Proof.
  intros [Hw Hk Hs Hd Hl] Hoff s'.
  destruct (kept_attempts off s (Cursor.committed c) flushed Hs Hoff) as (Hnd & Hok & Hdur).
  set (kept := resume_attempts_from_snapshot _ _ _) in *.
  set (t0 := table_new (config (as_table s))).
  assert (Ht : as_table s' = resume_attempts t0 kept) by done.
  destruct (resume_attempts_fields t0 kept) as (Fc & Fl & Fg).
  pose proof (fun o => resume_attempts_carried t0 kept o Hnd) as Hcar.
  change (carried t0) with (∅ : gmap Z Z) in Hcar. change (leases t0) with (∅ : gmap Z Lease) in Fl.
  change (next_generation t0) with 0 in Fg.
  assert (Hcar' : forall o n, carried (as_table s') !! o = Some n -> is_u64 o /\ 1 <= n <= u32_max).
  { intros o n Hn. rewrite Ht, Hcar in Hn. destruct (list_to_map kept !! o) as [a|] eqn:Ha; [|by rewrite lookup_empty in Hn].
    apply elem_of_list_to_map in Ha; [|done]. rewrite Forall_forall in Hok. specialize (Hok _ Ha). simpl in Hok.
    case_decide; [|by rewrite lookup_empty in Hn]. by injection Hn as <-. }
  assert (Hatt : attempts (as_table s') off = durable_count s off).
  { unfold attempts. rewrite Ht, Fl, lookup_empty, Hcar, <- Hdur.
    destruct (list_to_map kept !! off) as [a|] eqn:Ha; simpl; [|by rewrite lookup_empty].
    case_decide; [done|]. rewrite lookup_empty. simpl.
    apply elem_of_list_to_map in Ha; [|done]. rewrite Forall_forall in Hok. specialize (Hok _ Ha). simpl in Hok. lia. }
  assert (Hr : redeliveries_since_flush (as_table s') = 0).
  { rewrite Ht. clear. unfold resume_attempts. assert (redeliveries_since_flush t0 = 0) as H0 by done.
    revert H0. generalize t0. induction kept as [|[o a] l IH]; intros t Hz; [done|]. simpl. apply IH. by destruct (0 <? a). }
  split; [|done]. constructor.
  - rewrite Ht. constructor; rewrite ?Fc, ?Fl, ?Fg; [ulia|apply Hw|by apply map_Forall_empty| |].
    + intros o n Hn. rewrite <- Ht in Hn. by apply (Hcar' o n).
    + intros o [? ?]. by rewrite lookup_empty in *.
  - intros o [[l Hl']|[n Hn]]; [|by apply (Hcar' o n)]. rewrite Ht, Fl, lookup_empty in Hl'. done.
  - done.
  - rewrite Hr. ulia.
  - rewrite Hatt, Hr. change (durable_count s' off) with (durable_count s off). destruct (_ =? 0); lia.
Qed.

(** ** One event *)

(** The lag after a delivery, in numbers: [a] deliveries, [d] of them durable,
    [r] redeliveries unflushed before it and [r'] after it. *)
Lemma lag_delivery a d r r' :
  0 <= d <= a -> a <= u32_max -> 0 <= r <= r' -> a <= d + r + (if d =? 0 then 1 else 0) ->
  (2 <= sat_add32 a 1 -> r' = sat_add32 r 1) ->
  d <= sat_add32 a 1 <= d + r' + (if d =? 0 then 1 else 0).
Proof.
  intros Hd Ha Hr Hl Hr'. unfold sat_add in *. assert (HM : 2 <= u32_max) by ulia.
  generalize dependent u32_max. intros M ? ? ?.
  assert (r' = Z.min (r + 1) M \/ a <= 0) by lia. clear Hr'. revert Hl. destruct (Z.eqb_spec d 0); lia.
Qed.

Lemma lease_inv off s op :
  store_inv off s -> event_ok off s (ALease op) -> store_inv off (astep s (ALease op)).1.
Proof.
  intros [Hw Hk Hs Hd Hl] (Hkeep & Hok & Hne & Hu).
  pose proof (attempts_step _ _ _ Hw Hkeep) as Hatt. pose proof (lstep_dirty _ op off Hne Hd) as [Hr1 Hr2].
  pose proof (lstep_wf _ _ Hw Hok) as Hw'. pose proof (lstep_keys _ _ Hk Hu) as Hk'.
  pose proof (attempts_bounds _ off Hw) as Hb. pose proof (durable_count_pos s off Hs) as Hp.
  unfold astep. destruct (lstep (as_table s) op) as [t' ev]. cbn [fst snd] in *.
  assert (Hdc : durable_count (mk_store t' (as_durable s)) off = durable_count s off) by reflexivity.
  constructor; rewrite ?Hdc; cbn [as_table as_durable]; [done..|lia|].
  destruct (granted_at off ev) as [d|].
  - destruct Hatt as [-> ->]. apply (lag_delivery _ _ (redeliveries_since_flush (as_table s))); [lia|lia|lia|lia|done].
  - rewrite Hatt. lia.
Qed.

Lemma astep_inv off s e :
  store_inv off s -> event_ok off s e ->
  store_inv off (astep s e).1 /\
  match granted_at off (astep s e).2 with
  | Some d => d = sat_add32 (attempts (as_table s) off) 1 /\ attempts (as_table (astep s e).1) off = d
  | None => attempts (as_table s) off -
              (match e with ACrash _ _ _ => redeliveries_since_flush (as_table s) + 1 | _ => 0 end)
            <= attempts (as_table (astep s e).1) off <= attempts (as_table s) off
  end.
Proof.
  intros Hi Hok. destruct e as [op| |threshold|c opened flushed].
  - split; [by apply lease_inv|]. destruct Hok as (Hkeep & _).
    pose proof (attempts_step _ _ _ (si_wf _ _ Hi) Hkeep) as Hatt. simpl.
    destruct (lstep (as_table s) op) as [t' ev]; simpl in *.
    match goal with |- match ?g with _ => _ end => destruct g end; [done|lia].
  - destruct (checkpoint_inv off s Hi Hok) as [? Ha]. split; [done|].
    cbn [astep fst snd granted_at]. rewrite Ha. lia.
  - destruct (checkpoint_inv off s Hi Hok) as [? Ha]. cbn [astep fst snd granted_at].
    destruct (attempts_flush_due _ _); [split; [done|]; rewrite Ha; lia|split; [done|lia]].
  - destruct (crash_inv off s c opened flushed Hi Hok) as [? Ha]. split; [done|].
    rewrite Ha. destruct (si_lag _ _ Hi) as [? Hlag]. cbn [snd astep granted_at].
    revert Hlag. destruct (_ =? 0); lia.
Qed.

Lemma arun_lost off s es s' reports lost :
  arun off s es = (s', reports, lost) -> store_inv off s -> events_ok off s es ->
  0 <= lost /\ store_inv off s'.
Proof.
  revert s s' reports lost. induction es as [|e es IH]; intros s s' reports lost; simpl.
  { intros [= <- <- <-]. done. }
  destruct (astep s e) as [s1 ev] eqn:E. destruct (arun off s1 es) as [[s2 rs] l] eqn:E2.
  intros [= <- <- <-] Hi [Hok Hoks]. pose proof (astep_inv off s e Hi Hok) as [Hi1 _]. rewrite E in *. simpl in *.
  destruct (IH s1 _ _ _ E2 Hi1 Hoks). split; [|done]. destruct (si_dirty _ _ Hi). destruct e; lia.
Qed.

Lemma arun_reports off s es s' reports lost i d :
  arun off s es = (s', reports, lost) -> store_inv off s -> events_ok off s es ->
  attempts (as_table s) off + Z.of_nat (length es) <= u32_max ->
  reports !! i = Some d ->
  attempts (as_table s) off + Z.of_nat i + 1 - lost <= d <= attempts (as_table s) off + Z.of_nat i + 1.
Proof.
  revert s s' reports lost i. induction es as [|e es IH]; intros s s' reports lost i; simpl.
  { by intros [= <- <- <-]. }
  destruct (astep s e) as [s1 ev] eqn:E. destruct (arun off s1 es) as [[s2 rs] l] eqn:E2.
  intros [= <- <- <-] Hi [Hok Hoks] Hn Hd. pose proof (astep_inv off s e Hi Hok) as [Hi1 Ha].
  rewrite E in *. simpl in *. destruct (arun_lost _ _ _ _ _ _ E2 Hi1 Hoks) as [Hl0 _].
  pose proof (si_dirty _ _ Hi). pose proof (attempts_bounds _ off (si_wf _ _ Hi)).
  destruct (granted_at off ev) as [d0|]; simpl in Hd.
  - destruct Ha as [-> Ha]. assert (Hlost : 0 <= match e with ACrash _ _ _ =>
      redeliveries_since_flush (as_table s) + 1 | _ => 0 end) by (destruct e; lia).
    assert (Hs : sat_add32 (attempts (as_table s) off) 1 = attempts (as_table s) off + 1)
      by (unfold sat_add; lia).
    rewrite Hs in *. destruct i as [|i]; simpl in Hd; [injection Hd as <-; lia|].
    specialize (IH s1 _ _ _ i E2 Hi1 Hoks). rewrite Ha in IH. specialize (IH ltac:(lia) Hd). lia.
  - specialize (IH s1 _ _ _ i E2 Hi1 Hoks ltac:(destruct e; lia) Hd). destruct e; lia.
Qed.


End restart.

Definition restart_cfg : LeaseConfig := mk_config 100 1000.

(** Two deliveries, a triggered flush, a third delivery, a crash that forgets
    it, and a fourth delivery reported as the third. *)
Definition restart_events : list attempt_event :=
  [ALease (OClaim 5 0); ALease (OClaim 5 200); AMaybe 1; ALease (OClaim 5 400);
   ACrash (Cursor.resume 3) 500 9; ALease (OClaim 5 600)].

