(* ===== verification/Engine.v ===== *)
(** * The engine's consumer side ([engine.rs])

    The engine owns the work-groups over one log, the dead-letter sinks, the
    confirm registry and the retry budget.  Modelled here: the poll scan (plain
    and key-shared) with every branch, the idle sweep and the creation of groups
    it starts with, the crash-atomic dead-letter move, and the ack, cumulative
    ack, nack, progress and pause verbs.

    The log is seen through [LogView]: what its earliest and flushed offsets
    are and what a read answers.  Observability (latency and lag series) is left
    out; the resilience counters are kept. *)

From S2P Require Import Prelude Bytes Records Cursor CursorSnapshot Attempt Delivery Lease KeyShared Confirm Ttl Subject.
From S2P Require Import Backpressure Dlq WorkGroup.

(** ** State *)

(** The counters the consumer side moves. *)
Record Counters := mk_counters {
  c_delivered : Z;
  c_redelivered : Z;
  c_acks : Z;
  c_expired : Z;
  c_filtered : Z;
  c_dead_lettered : Z;
  c_truncations : Z;
  c_truncated_records : Z;
  c_last_skip_offset : Z
}.

Definition count_delivery (c : Counters) (deliveries : Z) : Counters :=
  mk_counters (wrap_inc (c_delivered c))
    (if 1 <? deliveries then wrap_inc (c_redelivered c) else c_redelivered c)
    (c_acks c) (c_expired c) (c_filtered c) (c_dead_lettered c) (c_truncations c) (c_truncated_records c)
    (c_last_skip_offset c).
Definition count_stashed (c : Counters) (deliveries : Z) : Counters :=
  mk_counters (sat_add64 (c_delivered c) 1)
    (if 1 <? deliveries then sat_add64 (c_redelivered c) 1 else c_redelivered c)
    (c_acks c) (c_expired c) (c_filtered c) (c_dead_lettered c) (c_truncations c) (c_truncated_records c)
    (c_last_skip_offset c).
Definition count_acks (c : Counters) (acks : Z) : Counters :=
  mk_counters (c_delivered c) (c_redelivered c) acks (c_expired c) (c_filtered c) (c_dead_lettered c)
    (c_truncations c) (c_truncated_records c) (c_last_skip_offset c).
Definition count_expired (c : Counters) : Counters :=
  mk_counters (c_delivered c) (c_redelivered c) (c_acks c) (wrap_inc (c_expired c)) (c_filtered c)
    (c_dead_lettered c) (c_truncations c) (c_truncated_records c) (c_last_skip_offset c).
Definition count_filtered (c : Counters) : Counters :=
  mk_counters (c_delivered c) (c_redelivered c) (c_acks c) (c_expired c) (sat_add64 (c_filtered c) 1)
    (c_dead_lettered c) (c_truncations c) (c_truncated_records c) (c_last_skip_offset c).
Definition count_dead_lettered (c : Counters) : Counters :=
  mk_counters (c_delivered c) (c_redelivered c) (c_acks c) (c_expired c) (c_filtered c)
    (wrap_inc (c_dead_lettered c)) (c_truncations c) (c_truncated_records c) (c_last_skip_offset c).
Definition count_truncation (c : Counters) (skipped earliest : Z) : Counters :=
  mk_counters (c_delivered c) (c_redelivered c) (c_acks c) (c_expired c) (c_filtered c) (c_dead_lettered c)
    (sat_add64 (c_truncations c) 1) (sat_add64 (c_truncated_records c) skipped)
    (Z.max (c_last_skip_offset c) earliest).

(** The errors the operations below raise. *)
Inductive EngineError :=
| GenerationExhausted
| MissingRecord (offset : Z)
| InvalidGroupName
| TooManyGroups (max : Z)
| Storage (e : StorageError)
| EncryptedDeadLetterUnsupported
| CumulativeAckOnWorkGroup
| CumulativeAckOutOfRange (up_to earliest_retained durable_head : Z).

Inductive Poll :=
| Message (d : Delivery)
| Parked (offset : Z) (record : OwnedRecord)
| Truncated (earliest_retained skipped : Z)
| Compacted (from to : Z)
| Filtered (from to : Z)
| Idle.

Inductive AckResult := ResAcked | ResFenced.
Inductive NackResult := ResRequeued | ResNackFenced.
Inductive ProgressResult := ResExtended | ResCapReached | ResProgressFenced.

(** A dead-letter target: its durable records until it is first used, then an
    open sink over them. *)
Inductive DlqSlot :=
| SlotClosed (disk : list OwnedRecord)
| SlotOpen (sink : DlqSink).

Definition slot_disk (s : DlqSlot) : list OwnedRecord :=
  match s with SlotClosed d => d | SlotOpen s => sink_log s end.

(** The knobs a running engine does not change. *)
Record EngineConfig := mk_engine_config {
  k_lease : LeaseConfig;
  k_delivery : DeliveryConfig;
  k_max_in_flight : Z;
  k_max_acked_ahead_runs : option nat;
  k_max_groups : Z;
  k_group_idle_evict_nanos : Z;
  k_default_ttl : Z;
  k_exchange : bool;
  k_dead_letter_expired : bool;
  k_confirm_group : list Z;
  k_at_rest_encrypted : bool
}.

(** The consumer side of a running engine: the groups and what is durable of
    them, the dead-letter targets, the confirm registry, the retry budget and the
    counters. *)
Record Engine := mk_engine {
  e_groups : gmap (list Z) WorkGroup;
  e_last_checkpointed : gmap (list Z) Z;
  e_cursor_ckpt : gmap (list Z) (list Z);
  e_attempts_ckpt : gmap (list Z) (list Z);
  e_ephemeral_subs : gset (list Z);
  e_dlq : list DlqSlot;
  e_confirm : ConfirmRegistry;
  e_retry : RetryBudget.RetryBudget;
  e_retry_shed : Z;
  e_counters : Counters;
  e_last_dead_lettered : option Z;
  e_acked_ahead_shed : Z
}.

Definition set_groups (e : Engine) (x : gmap (list Z) WorkGroup) : Engine :=
  mk_engine x (e_last_checkpointed e) (e_cursor_ckpt e) (e_attempts_ckpt e) (e_ephemeral_subs e) (e_dlq e)
    (e_confirm e) (e_retry e) (e_retry_shed e) (e_counters e) (e_last_dead_lettered e) (e_acked_ahead_shed e).
Definition set_group (e : Engine) (name : list Z) (g : WorkGroup) : Engine :=
  set_groups e (<[name := g]> (e_groups e)).
Definition set_ckpt (e : Engine) (last : gmap (list Z) Z) (files : gmap (list Z) (list Z)) : Engine :=
  mk_engine (e_groups e) last files (e_attempts_ckpt e) (e_ephemeral_subs e) (e_dlq e)
    (e_confirm e) (e_retry e) (e_retry_shed e) (e_counters e) (e_last_dead_lettered e) (e_acked_ahead_shed e).
Definition set_dlq (e : Engine) (x : list DlqSlot) : Engine :=
  mk_engine (e_groups e) (e_last_checkpointed e) (e_cursor_ckpt e) (e_attempts_ckpt e) (e_ephemeral_subs e) x
    (e_confirm e) (e_retry e) (e_retry_shed e) (e_counters e) (e_last_dead_lettered e) (e_acked_ahead_shed e).
Definition set_confirm (e : Engine) (x : ConfirmRegistry) : Engine :=
  mk_engine (e_groups e) (e_last_checkpointed e) (e_cursor_ckpt e) (e_attempts_ckpt e) (e_ephemeral_subs e) (e_dlq e)
    x (e_retry e) (e_retry_shed e) (e_counters e) (e_last_dead_lettered e) (e_acked_ahead_shed e).
Definition set_retry (e : Engine) (b : RetryBudget.RetryBudget) (shed : Z) : Engine :=
  mk_engine (e_groups e) (e_last_checkpointed e) (e_cursor_ckpt e) (e_attempts_ckpt e) (e_ephemeral_subs e) (e_dlq e)
    (e_confirm e) b shed (e_counters e) (e_last_dead_lettered e) (e_acked_ahead_shed e).
Definition set_counters (e : Engine) (x : Counters) : Engine :=
  mk_engine (e_groups e) (e_last_checkpointed e) (e_cursor_ckpt e) (e_attempts_ckpt e) (e_ephemeral_subs e) (e_dlq e)
    (e_confirm e) (e_retry e) (e_retry_shed e) x (e_last_dead_lettered e) (e_acked_ahead_shed e).
Definition set_last_dead_lettered (e : Engine) (x : option Z) : Engine :=
  mk_engine (e_groups e) (e_last_checkpointed e) (e_cursor_ckpt e) (e_attempts_ckpt e) (e_ephemeral_subs e) (e_dlq e)
    (e_confirm e) (e_retry e) (e_retry_shed e) (e_counters e) x (e_acked_ahead_shed e).
Definition set_acked_ahead_shed (e : Engine) (x : Z) : Engine :=
  mk_engine (e_groups e) (e_last_checkpointed e) (e_cursor_ckpt e) (e_attempts_ckpt e) (e_ephemeral_subs e) (e_dlq e)
    (e_confirm e) (e_retry e) (e_retry_shed e) (e_counters e) (e_last_dead_lettered e) x.

(** What the engine sees of its log during one call: the clocks, the retained
    and durable bounds, and the answer of a one-record read. *)
Record LogView := mk_view {
  lv_earliest : Z;
  lv_flushed : Z;
  lv_unix_millis : Z;
  lv_monotonic : Z;
  lv_read : Z -> res (option OwnedRecord) StorageError
}.

(** What the storage below answers during one call: whether a checkpoint write
    of a group fails, and what each dead-letter slot's append does. *)
Record Disk := mk_disk {
  dk_ckpt : list Z -> option StorageError;
  dk_dlq : nat -> Io
}.

Definition DEFAULT_GROUP : list Z := [].

(** ** Groups: creation, idle eviction *)

Definition MAX_GROUP_NAME_LEN : nat := 128.

Definition is_ascii_graphic (b : Z) : bool := (33 <=? b) && (b <=? 126).

Definition validate_group_name (name : list Z) : res unit EngineError :=
  let len := length name in
  if (len =? 0)%nat || (MAX_GROUP_NAME_LEN <? len)%nat || negb (forallb is_ascii_graphic name)
  then Err InvalidGroupName else Ok tt.

Definition is_evictable (name : list Z) (g : WorkGroup) (flushed now window : Z) : bool :=
  if bool_decide (name = DEFAULT_GROUP) then false
  else if match g_router g with Some _ => true | None => false end then false
  else if match g_paused g with Some _ => true | None => false end then false
  else if g_ephemeral g then false
  else if negb (Cursor.committed (g_cursor g) =? flushed) || negb (bool_decide (Cursor.ahead (g_cursor g) = []))
  then false
  else if negb (in_flight (g_leases g) =? 0)%nat then false
  else window <=? sat_sub now (g_last_activity g).

Section engine.
Context `{Crc32c} `{Xxh3}.

(** [write_group_checkpoint]; a failed write leaves the old snapshot. *)
Definition write_group_checkpoint (e : Engine) (dk : Disk) (name : list Z) (committed : Z)
    : Engine * res unit EngineError :=
  match e_groups e !! name with
  | None => (e, Ok tt)
  | Some g =>
      if g_ephemeral g then (e, Ok tt)
      else match dk_ckpt dk name with
      | Some err => (e, Err (Storage err))
      | None =>
          (set_ckpt e (<[name := committed]> (e_last_checkpointed e))
             (<[name := snapshot_payload (g_cursor g)]> (e_cursor_ckpt e)), Ok tt)
      end
  end.

(** The dedup entry of a group dropped from every open target. *)
Definition forget_slots (slots : list DlqSlot) (name : list Z) : list DlqSlot :=
  (fun s => match s with
            | SlotOpen s => SlotOpen (forget_group s name)
            | SlotClosed d => SlotClosed d
            end) <$> slots.

(** [evict_group] with [GhostPolicy::Keep], the policy of the idle sweep. *)
Definition evict_group (e : Engine) (dk : Disk) (name : list Z) : Engine * res unit EngineError :=
  match e_groups e !! name with
  | None => (e, Ok tt)
  | Some g =>
      match write_group_checkpoint e dk name (Cursor.committed (g_cursor g)) with
      | (e, Ok _) =>
          let e := set_groups e (delete name (e_groups e)) in
          (set_dlq e (forget_slots (e_dlq e) name), Ok tt)
      | (e, r) => (e, r)
      end
  end.

Fixpoint evict_all (e : Engine) (dk : Disk) (names : list (list Z)) : Engine * res unit EngineError :=
  match names with
  | [] => (e, Ok tt)
  | name :: names =>
      match evict_group e dk name with
      | (e, Ok _) => evict_all e dk names
      | (e, r) => (e, r)
      end
  end.

Definition sweep_idle_groups (k : EngineConfig) (lv : LogView) (dk : Disk) (e : Engine) (now : Z)
    : Engine * res unit EngineError :=
  if k_group_idle_evict_nanos k =? 0 then (e, Ok tt)
  else
    let e := set_groups e ((fun g => (pause_active g now).1) <$> e_groups e) in
    let evictable :=
      filter (fun p => is_evictable p.1 p.2 (lv_flushed lv) now (k_group_idle_evict_nanos k) = true)
        (bytes_map_list (e_groups e)) in
    evict_all e dk evictable.*1.

(** [ensure_group] *)
Definition ensure_group (k : EngineConfig) (lv : LogView) (e : Engine) (name : list Z) (now : Z) : Engine :=
  match e_groups e !! name with
  | Some _ => e
  | None =>
      if bool_decide (name ∈ e_ephemeral_subs e) then
        let g := group_new (k_lease k) now in
        set_group e name
          (mk_group (g_cursor g) (g_leases g) (g_router g) (g_broadcast g) (g_subscribers g) (g_last_activity g)
             (g_touched g) (g_streaming g) (g_filter g) (g_pending_match g) (g_paused g) true)
      else
        let c := match e_cursor_ckpt e !! name with
                 | Some p => resume_cursor_from_snapshot (Some p) (lv_flushed lv)
                 | None => Cursor.new
                 end in
        let e := set_ckpt e (<[name := Cursor.committed c]> (e_last_checkpointed e)) (e_cursor_ckpt e) in
        set_group e name
          (resume_work_group c (e_attempts_ckpt e !! name) (k_lease k) now (lv_flushed lv))
  end.

(** ** Dead letters *)

Definition dead_letters_expired (k : EngineConfig) : bool := k_dead_letter_expired k && k_exchange k.

(** [dlq_sink_slot]: open the sink on first use. *)
Definition dlq_sink_slot (k : EngineConfig) (slots : list DlqSlot) (slot : nat) : res DlqSink EngineError :=
  if k_at_rest_encrypted k then Err EncryptedDeadLetterUnsupported
  else match slots !! slot with
  | None => Err (MissingRecord 0)
  | Some (SlotOpen s) => Ok s
  | Some (SlotClosed disk) => Ok (sink_open disk)
  end.

(** One iteration of [fan_out_dead_letter]'s loop: the slots with the target
    at [slot] opened and the copy appended unless it is already there. *)
Definition fan_out_slot (k : EngineConfig) (dk : Disk) (name : list Z) (off attempt : Z) (record : OwnedRecord)
    (reason : DeadLetterReason) (slots : list DlqSlot) (slot : nat) : list DlqSlot * res unit EngineError :=
  match dlq_sink_slot k slots slot with
  | Ok s =>
      if already_dead_lettered s name off then (<[slot := SlotOpen s]> slots, Ok tt)
      else
        let '(s, r) :=
          if k_exchange k then append_dead_letter s (dk_dlq dk slot) name record attempt reason
          else append_poison s (dk_dlq dk slot) name record attempt in
        (<[slot := SlotOpen s]> slots,
         match r with Ok _ => Ok tt | Err err => Err (Storage err) | Panic => Panic end)
  | Err err => (slots, Err err)
  | Panic => (slots, Panic)
  end.

(** The loop over the slots [slot, slot + n). *)
Fixpoint fan_out_loop (k : EngineConfig) (dk : Disk) (name : list Z) (off attempt : Z) (record : OwnedRecord)
    (reason : DeadLetterReason) (slots : list DlqSlot) (slot n : nat) : list DlqSlot * res unit EngineError :=
  match n with
  | O => (slots, Ok tt)
  | S n =>
      match fan_out_slot k dk name off attempt record reason slots slot with
      | (slots, Ok _) => fan_out_loop k dk name off attempt record reason slots (S slot) n
      | (slots, r) => (slots, r)
      end
  end.

Definition fan_out_dead_letter (k : EngineConfig) (dk : Disk) (e : Engine) (name : list Z) (off attempt : Z)
    (record : OwnedRecord) (reason : DeadLetterReason) : Engine * res unit EngineError :=
  let '(slots, r) := fan_out_loop k dk name off attempt record reason (e_dlq e) 0 (length (e_dlq e)) in
  (set_dlq e slots, r).

Definition clear_router (g : WorkGroup) (off : Z) : WorkGroup :=
  match g_router g with
  | Some r => set_router g (Some (clear_offset r off))
  | None => g
  end.

Definition prune_slots (slots : list DlqSlot) (name : list Z) (committed : Z) : list DlqSlot :=
  (fun s => match s with
            | SlotOpen s => SlotOpen (prune_below s name committed)
            | SlotClosed d => SlotClosed d
            end) <$> slots.

Definition commit_dead_letter_past (k : EngineConfig) (e : Engine) (name : list Z) (off : Z) : Engine :=
  match e_groups e !! name with
  | None => e
  | Some g =>
      let g := clear_router (set_cursor g (Cursor.ack (g_cursor g) off).1) off in
      let committed := Cursor.committed (g_cursor g) in
      let e := set_group e name g in
      let e := set_counters e (count_dead_lettered (e_counters e)) in
      let e := set_last_dead_lettered e (Some off) in
      let e := if bool_decide (name = k_confirm_group k)
               then set_confirm e (terminate (e_confirm e) off DeadLettered).1 else e in
      set_dlq e (prune_slots (e_dlq e) name committed)
  end.

(** [dead_letter_in] and [expire_dead_letter_in]: append everywhere, then
    commit. *)
Definition dead_letter_with (reason : DeadLetterReason) (k : EngineConfig) (dk : Disk) (e : Engine)
    (name : list Z) (off attempt : Z) (record : OwnedRecord) : Engine * res Poll EngineError :=
  match fan_out_dead_letter k dk e name off attempt record reason with
  | (e, Ok _) => (commit_dead_letter_past k e name off, Ok (Parked off record))
  | (e, Err err) => (e, Err err)
  | (e, Panic) => (e, Panic)
  end.

Definition dead_letter_in := dead_letter_with MaxDeliverExceeded.
Definition expire_dead_letter_in := dead_letter_with TtlExpired.

(** ** The scan *)

Definition record_is_expired (default_ttl now_unix_millis : Z) (r : OwnedRecord) : bool :=
  let per_message := (decode_ttl_headers (r_headers r)).1 in
  let ttl := lower_of per_message default_ttl in
  if ttl_is_none ttl then false else is_expired ttl (r_timestamp_ms r) now_unix_millis.

Definition record_is_undue (now_unix_millis : Z) (r : OwnedRecord) : bool :=
  is_undue (r_headers r) now_unix_millis.

Definition record_matches_subject_filter (pattern : SubjectPattern) (r : OwnedRecord) : bool :=
  match r_subject r with
  | [] => false
  | _ =>
      if utf8_valid (r_subject r) then
        match parse_literal (r_subject r) with
        | Ok subject => matches pattern subject
        | _ => false
        end
      else false
  end.

(** What the loop carries: the borrowed group, the backpressure fields, the
    counters, the start of the current run of filtered offsets and the
    inline-expiry flag, which only decides whether the lag series is refreshed. *)
Record Scan := mk_scan {
  sc_group : WorkGroup;
  sc_retry : RetryBudget.RetryBudget;
  sc_retry_shed : Z;
  sc_counters : Counters;
  sc_filtered_from : option Z;
  sc_expired_inline : bool
}.

Definition sc_set_group (s : Scan) (g : WorkGroup) : Scan :=
  mk_scan g (sc_retry s) (sc_retry_shed s) (sc_counters s) (sc_filtered_from s) (sc_expired_inline s).
Definition sc_set_counters (s : Scan) (c : Counters) : Scan :=
  mk_scan (sc_group s) (sc_retry s) (sc_retry_shed s) c (sc_filtered_from s) (sc_expired_inline s).
Definition sc_set_filtered (s : Scan) (f : option Z) : Scan :=
  mk_scan (sc_group s) (sc_retry s) (sc_retry_shed s) (sc_counters s) f (sc_expired_inline s).
Definition sc_note_expired (s : Scan) : Scan :=
  mk_scan (sc_group s) (sc_retry s) (sc_retry_shed s) (sc_counters s) (sc_filtered_from s) true.
Definition sc_set_retry (s : Scan) (b : RetryBudget.RetryBudget) (shed : Z) : Scan :=
  mk_scan (sc_group s) b shed (sc_counters s) (sc_filtered_from s) (sc_expired_inline s).

(** What is carried out of the loop, past the borrow of the group. *)
Inductive Capture :=
| NoCapture
| CapExpired (off attempt : Z) (record : OwnedRecord)
| CapDead (off attempt : Z) (record : OwnedRecord).

Inductive Control :=
| Next
| Break (c : Capture)
| Return (r : res Poll EngineError).

(** [retry_budget_throttle] *)
Definition retry_budget_throttle (s : Scan) (now : Z) : Scan * bool :=
  let '(b, throttle) := RetryBudget.should_throttle (sc_retry s) now in
  (sc_set_retry s b (if throttle then sat_add64 (sc_retry_shed s) 1 else sc_retry_shed s), throttle).

(** [retry_throttle_defer] *)
Definition retry_throttle_defer (k : EngineConfig) (s : Scan) (off now : Z) : Scan * bool :=
  let g := sc_group s in
  match pending_redelivery_attempt (g_leases g) off now with
  | None => (s, false)
  | Some prior_attempt =>
      let '(s, throttle) := retry_budget_throttle s now in
      if negb throttle then (s, false)
      else
        let next_attempt := sat_add32 prior_attempt 1 in
        let defer := Z.max (default 0 (nack_backoff (k_delivery k) next_attempt))
                           (Z.max (visibility_nanos (k_lease k)) 1) in
        (sc_set_group s (set_table g (defer_redelivery (g_leases g) off now defer).1), true)
  end.

(** [while hole < record.offset { cursor.ack(hole) }], [n] offsets from
    [hole]. *)
Fixpoint ack_hole (c : Cursor.AckCursor) (hole : Z) (n : nat) : Cursor.AckCursor :=
  match n with
  | O => c
  | S n => ack_hole (Cursor.ack c hole).1 (hole + 1) n
  end.

Definition release (s : Scan) (token : LeaseToken) : Scan :=
  sc_set_group s (set_table (sc_group s) (lease_ack (g_leases (sc_group s)) token).1).

(** Commit the cursor past [off] without delivery and free its key. *)
Definition skip_past (s : Scan) (off : Z) : Scan :=
  sc_set_group s (clear_router (set_cursor (sc_group s) (Cursor.ack (g_cursor (sc_group s)) off).1) off).

(** The body of the loop once the offset has been claimed. *)
Definition scan_claimed (k : EngineConfig) (lv : LogView) (filter : option SubjectPattern) (s : Scan)
    (off : Z) (token : LeaseToken) (deliveries : Z) : Scan * Control :=
  match lv_read lv off with
  | Err err => (s, Return (Err (Storage err)))
  | Panic => (s, Return Panic)
  | Ok None => (s, Return (Err (MissingRecord off)))
  | Ok (Some record) =>
      if negb (r_offset record =? off) then
        let s := release s token in
        let g := sc_group s in
        (sc_set_group s (set_cursor g (ack_hole (g_cursor g) off (Z.to_nat (r_offset record - off)))),
         Return (Ok (Compacted off (r_offset record))))
      else if record_is_expired (k_default_ttl k) (lv_unix_millis lv) record then
        let s := release s token in
        if dead_letters_expired k then (s, Break (CapExpired off deliveries record))
        else
          let s := skip_past s off in
          (sc_note_expired (sc_set_counters s (count_expired (sc_counters s))), Next)
      else if match filter with
              | Some pattern => negb (record_matches_subject_filter pattern record)
              | None => false
              end then
        let s := skip_past (release s token) off in
        let s := sc_set_counters s (count_filtered (sc_counters s)) in
        (match sc_filtered_from s with None => sc_set_filtered s (Some off) | Some _ => s end, Next)
      else if record_is_undue (lv_unix_millis lv) record then (release s token, Break NoCapture)
      else
        match sc_filtered_from s with
        | Some from =>
            let s := sc_set_filtered s None in
            let s := match disposition (k_delivery k) deliveries with
                     | Deliver =>
                         sc_set_group s (set_pending_match (sc_group s)
                           (Some (mk_delivery off token deliveries record)))
                     | DeadLetter => release s token
                     end in
            (s, Return (Ok (Filtered from off)))
        | None =>
            match disposition (k_delivery k) deliveries with
            | Deliver =>
                (sc_set_counters s (count_delivery (sc_counters s) deliveries),
                 Return (Ok (Message (mk_delivery off token deliveries record))))
            | DeadLetter => (release s token, Break (CapDead off deliveries record))
            end
        end
  end.

(** One iteration of [poll_in_timed]'s loop. *)
Definition scan_step (k : EngineConfig) (lv : LogView) (now : Z) (filter : option SubjectPattern) (s : Scan)
    (off : Z) : Scan * Control :=
  if Cursor.is_acked (g_cursor (sc_group s)) off then (s, Next)
  else
    let '(s, deferred) := retry_throttle_defer k s off now in
    if deferred then (s, Next)
    else
      let '(t, c) := claim (g_leases (sc_group s)) off now in
      let s := sc_set_group s (set_table (sc_group s) t) in
      match c with
      | InFlight => (s, Next)
      | Exhausted => (s, Return (Err GenerationExhausted))
      | Granted token deliveries => scan_claimed k lv filter s off token deliveries
      end.

(** The loop over the [n] offsets from [off] to the window's end, with the
    offset it stopped at. *)
Fixpoint scan (step : Scan -> Z -> Scan * Control) (s : Scan) (off : Z) (n : nat) : Scan * Control * Z :=
  match n with
  | O => (s, Break NoCapture, off)
  | S n =>
      match step s off with
      | (s, Next) => scan step s (off + 1) n
      | (s, c) => (s, c, off)
      end
  end.

(** ** Polling *)

(** Ending the borrow of the group. *)
Definition put_scan (e : Engine) (name : list Z) (s : Scan) : Engine :=
  set_counters (set_retry (set_group e name (sc_group s)) (sc_retry s) (sc_retry_shed s)) (sc_counters s).

Definition start_scan (e : Engine) (g : WorkGroup) : Scan :=
  mk_scan g (e_retry e) (e_retry_shed e) (e_counters e) None false.

Definition window_end (k : EngineConfig) (lv : LogView) (committed : Z) : Z :=
  Z.min (sat_add64 committed (k_max_in_flight k)) (lv_flushed lv).

(** The code after the loop. *)
Definition finish_poll (k : EngineConfig) (dk : Disk) (e : Engine) (name : list Z) (off : Z)
    (filtered_from : option Z) (c : Capture) : Engine * res Poll EngineError :=
  match filtered_from with
  | Some from => (e, Ok (Filtered from off))
  | None =>
      match c with
      | CapExpired off attempt record => expire_dead_letter_in k dk e name off attempt record
      | CapDead off attempt record => dead_letter_in k dk e name off attempt record
      | NoCapture => (e, Ok Idle)
      end
  end.

(** The below-earliest reset, with [router] what becomes of the key router. *)
Definition truncate_group (k : EngineConfig) (e : Engine) (name : list Z) (g : WorkGroup) (earliest : Z)
    (router : option KeyRouter) : Engine * res Poll EngineError :=
  let skipped := earliest - Cursor.committed (g_cursor g) in
  let g := set_router (set_table (set_cursor g (Cursor.resume earliest)) (table_new (k_lease k))) router in
  let e := set_counters (set_group e name g) (count_truncation (e_counters e) skipped earliest) in
  (e, Ok (Truncated earliest skipped)).

(** [poll_in_timed] from the lookup of the group on. *)
Definition poll_group (k : EngineConfig) (lv : LogView) (dk : Disk) (e : Engine) (name : list Z) (now : Z)
    : Engine * res Poll EngineError :=
  let g := touch (match e_groups e !! name with Some g => g | None => group_new (k_lease k) now end) now in
  let '(g, paused) := pause_active g now in
  if paused then (set_group e name g, Ok Idle)
  else
    match g_pending_match g with
    | Some d =>
        let e := set_group e name (set_pending_match g None) in
        (set_counters e (count_stashed (e_counters e) (d_deliveries d)), Ok (Message d))
    | None =>
        let committed := Cursor.committed (g_cursor g) in
        if committed <? lv_earliest lv then truncate_group k e name g (lv_earliest lv) (g_router g)
        else
          let filter :=
            match g_filter g with
            | Some p => match parse_pattern p with Ok pat => Some pat | _ => None end
            | None => None
            end in
          let n := Z.to_nat (window_end k lv committed - committed) in
          let '(s, c, off) := scan (scan_step k lv now filter) (start_scan e g) committed n in
          let e := put_scan e name s in
          match c with
          | Return r => (e, r)
          | Next => (e, Panic)
          | Break c => finish_poll k dk e name off (sc_filtered_from s) c
          end
    end.

(** [poll_in_timed] before it: refresh the polled group, sweep the idle ones,
    create or resume the group under the cap. *)
Definition open_poll (k : EngineConfig) (lv : LogView) (dk : Disk) (e : Engine) (name : list Z) (now : Z)
    : Engine * res unit EngineError :=
  let e := match e_groups e !! name with Some g => set_group e name (touch g now) | None => e end in
  match sweep_idle_groups k lv dk e now with
  | (e, Ok _) =>
      match e_groups e !! name with
      | Some _ => (e, Ok tt)
      | None =>
          match validate_group_name name with
          | Ok _ =>
              if negb (k_max_groups k =? 0) && (k_max_groups k <=? Z.of_nat (size (e_groups e)))
              then (e, Err (TooManyGroups (k_max_groups k)))
              else (ensure_group k lv e name now, Ok tt)
          | r => (e, r)
          end
      end
  | (e, r) => (e, r)
  end.

(** [poll_in_timed] *)
Definition poll_in (k : EngineConfig) (lv : LogView) (dk : Disk) (e : Engine) (name : list Z) (now : Z)
    : Engine * res Poll EngineError :=
  match open_poll k lv dk e name now with
  | (e, Ok _) => poll_group k lv dk e name now
  | (e, Err err) => (e, Err err)
  | (e, Panic) => (e, Panic)
  end.

(** One iteration of [poll_in_member]'s loop: the record is read before it is
    claimed, and the router decides whether this member may take it. *)
Definition member_step (k : EngineConfig) (lv : LogView) (member now : Z) (s : Scan) (off : Z) : Scan * Control :=
  let g := sc_group s in
  if Cursor.is_acked (g_cursor g) off then (s, Next)
  else if negb (is_claimable (g_leases g) off now) then (s, Next)
  else match lv_read lv off with
  | Err err => (s, Return (Err (Storage err)))
  | Panic => (s, Return Panic)
  | Ok None => (s, Return (Err (MissingRecord off)))
  | Ok (Some record) =>
      if negb (r_offset record =? off) then
        (sc_set_group s (set_cursor g (ack_hole (g_cursor g) off (Z.to_nat (r_offset record - off)))),
         Return (Ok (Compacted off (r_offset record))))
      else if record_is_expired (k_default_ttl k) (lv_unix_millis lv) record then
        if dead_letters_expired k then (s, Break (CapExpired off 1 record))
        else
          let s := skip_past s off in
          (sc_note_expired (sc_set_counters s (count_expired (sc_counters s))), Next)
      else if record_is_undue (lv_unix_millis lv) record then (s, Break NoCapture)
      else
        match g_router g with
        | None => (s, Return (Err (MissingRecord off)))
        | Some router =>
            match decide_route router member (r_key record) off with
            | NotOwner | KeyBusy => (s, Next)
            | RDeliver =>
                let '(s, deferred) := retry_throttle_defer k s off now in
                if deferred then (s, Next)
                else
                  let '(t, c) := claim (g_leases (sc_group s)) off now in
                  let s := sc_set_group s (set_table (sc_group s) t) in
                  match c with
                  | InFlight => (s, Next)
                  | Exhausted => (s, Return (Err GenerationExhausted))
                  | Granted token deliveries =>
                      match disposition (k_delivery k) deliveries with
                      | Deliver =>
                          let s := sc_set_group s (set_router (sc_group s)
                            ((fun r => mark_in_flight r (r_key record) off) <$> g_router (sc_group s))) in
                          (sc_set_counters s (count_delivery (sc_counters s) deliveries),
                           Return (Ok (Message (mk_delivery off token deliveries record))))
                      | DeadLetter =>
                          let s := release s token in
                          (sc_set_group s (clear_router (sc_group s) off), Break (CapDead off deliveries record))
                      end
                  end
            end
        end
  end.

(** [key_ordering_in] *)
Definition key_ordering_in (e : Engine) (name : list Z) : KeyOrdering :=
  match e_groups e !! name with
  | Some g => match g_router g with Some _ => KeyShared.KeyShared | None => OrderNone end
  | None => OrderNone
  end.

(** [poll_in_member] *)
Definition poll_in_member (k : EngineConfig) (lv : LogView) (dk : Disk) (e : Engine) (name : list Z)
    (member now : Z) : Engine * res Poll EngineError :=
  match key_ordering_in e name with
  | OrderNone => poll_in k lv dk e name now
  | KeyShared.KeyShared =>
      match sweep_idle_groups k lv dk e now with
      | (e, Ok _) =>
          let g := touch (match e_groups e !! name with Some g => g | None => group_new (k_lease k) now end) now in
          let '(g, paused) := pause_active g now in
          if paused then (set_group e name g, Ok Idle)
          else
            let committed := Cursor.committed (g_cursor g) in
            if committed <? lv_earliest lv then
              truncate_group k e name g (lv_earliest lv) ((fun r => retain_above r (lv_earliest lv)) <$> g_router g)
            else
              let g := set_router g ((fun r => retain_above r committed) <$> g_router g) in
              let n := Z.to_nat (window_end k lv committed - committed) in
              let '(s, c, off) := scan (member_step k lv member now) (start_scan e g) committed n in
              let e := put_scan e name s in
              match c with
              | Return r => (e, r)
              | Next => (e, Panic)
              | Break c => finish_poll k dk e name off None c
              end
      | (e, Err err) => (e, Err err)
      | (e, Panic) => (e, Panic)
      end
  end.

(** ** Verbs *)

(** [confirm_designated_commit] *)
Definition confirm_designated_commit (k : EngineConfig) (e : Engine) (name : list Z) (committed : Z) : Engine :=
  if bool_decide (name = k_confirm_group k) then set_confirm e (confirm_up_to (e_confirm e) committed).1 else e.

Definition ack_in (k : EngineConfig) (lv : LogView) (e : Engine) (name : list Z) (token : LeaseToken)
    : Engine * AckResult :=
  match e_groups e !! name with
  | None => (e, ResFenced)
  | Some g =>
      let g := touch g (lv_monotonic lv) in
      let '(t, out) := lease_ack (g_leases g) token in
      let g := set_table g t in
      match out with
      | AckFenced => (set_group e name g, ResFenced)
      | Acked =>
          let '(c, b) := Cursor.ack_bounded (g_cursor g) (tok_offset token) (k_max_acked_ahead_runs k) in
          let g := set_cursor g c in
          match b with
          | Cursor.Shed =>
              (set_acked_ahead_shed (set_group e name g) (sat_add64 (e_acked_ahead_shed e) 1), ResAcked)
          | _ =>
              let g := clear_router g (tok_offset token) in
              let e := set_group e name g in
              let e := set_counters e (count_acks (e_counters e) (wrap_inc (c_acks (e_counters e)))) in
              (confirm_designated_commit k e name (Cursor.committed (g_cursor g)), ResAcked)
          end
      end
  end.

Definition is_broadcast_in (e : Engine) (name : list Z) : bool :=
  match e_groups e !! name with Some g => g_broadcast g | None => false end.

Definition cumulative_ack_in (k : EngineConfig) (lv : LogView) (e : Engine) (name : list Z) (up_to : Z)
    : Engine * res unit EngineError :=
  if negb (is_broadcast_in e name) then (e, Err CumulativeAckOnWorkGroup)
  else if (lv_flushed lv <? up_to) || (up_to <? lv_earliest lv)
  then (e, Err (CumulativeAckOutOfRange up_to (lv_earliest lv) (lv_flushed lv)))
  else match e_groups e !! name with
  | None => (e, Err CumulativeAckOnWorkGroup)
  | Some g =>
      let g := touch g (lv_monotonic lv) in
      let before := Cursor.committed (g_cursor g) in
      let '(c, advanced) := Cursor.commit_up_to (g_cursor g) up_to in
      let g := set_cursor g c in
      let counters :=
        if advanced
        then count_acks (e_counters e) (sat_add64 (c_acks (e_counters e)) (sat_sub (Cursor.committed c) before))
        else e_counters e in
      let g := set_table g (release_below (g_leases g) up_to) in
      let e := set_counters (set_group e name g) counters in
      (confirm_designated_commit k e name (Cursor.committed (g_cursor g)), Ok tt)
  end.

Definition nack_in (k : EngineConfig) (lv : LogView) (e : Engine) (name : list Z) (token : LeaseToken) (delay_ms : Z)
    : Engine * res NackResult EngineError :=
  let now := lv_monotonic lv in
  let explicit_nanos := if delay_ms =? u64_max then None else Some (sat_mul64 delay_ms 1000000) in
  match e_groups e !! name with
  | None => (e, Ok ResNackFenced)
  | Some g =>
      let g := touch g now in
      let attempt := default 0 (token_deliveries (g_leases g) token) in
      let delay_nanos := default 0 (effective_nack_delay (k_delivery k) attempt explicit_nanos) in
      let '(t, out) := Lease.nack (g_leases g) token now delay_nanos in
      (set_group e name (set_table g t),
       match out with
       | Requeued _ => Ok ResRequeued
       | NackFenced => Ok ResNackFenced
       | NackExhausted => Err GenerationExhausted
       end)
  end.

Definition progress_in (lv : LogView) (e : Engine) (name : list Z) (token : LeaseToken) : Engine * ProgressResult :=
  match e_groups e !! name with
  | None => (e, ResProgressFenced)
  | Some g =>
      let g := touch g (lv_monotonic lv) in
      let '(t, out) := extend (g_leases g) token (lv_monotonic lv) in
      (set_group e name (set_table g t),
       match out with
       | Extended _ => ResExtended
       | CapReached => ResCapReached
       | ExtendFenced => ResProgressFenced
       end)
  end.

Definition holds_active_lease_in (lv : LogView) (e : Engine) (name : list Z) (token : LeaseToken) : bool :=
  match e_groups e !! name with
  | Some g => holds_active (g_leases g) token (lease_observe_now g (lv_monotonic lv))
  | None => false
  end.

(** The loop of [reseal_batch_in], from the [i]-th offset of the run on. *)
Fixpoint reseal_run (t : LeaseTable) (base : Z) (i : Z) (staged : list Z) (generation : Z) : LeaseTable :=
  match staged with
  | [] => t
  | from :: staged =>
      reseal_run (reseal_from_to t (sat_add64 base i) from generation).1 base (i + 1) staged generation
  end.

Definition reseal_batch_in (e : Engine) (name : list Z) (first : Z) (staged : list Z) (generation : Z) : Engine :=
  match e_groups e !! name with
  | Some g => set_group e name (set_table g (reseal_run (g_leases g) first 0 staged generation))
  | None => e
  end.

Definition join_member_in (e : Engine) (name : list Z) (member : Z) : Engine * bool :=
  match e_groups e !! name with
  | Some g =>
      match g_router g with
      | Some r => let '(r, b) := KeyShared.join r member in (set_group e name (set_router g (Some r)), b)
      | None => (e, false)
      end
  | None => (e, false)
  end.

Definition leave_member_in (e : Engine) (name : list Z) (member : Z) : Engine * bool :=
  match e_groups e !! name with
  | Some g =>
      match g_router g with
      | Some r => let '(r, b) := leave r member in (set_group e name (set_router g (Some r)), b)
      | None => (e, false)
      end
  | None => (e, false)
  end.

Definition term_in (k : EngineConfig) (lv : LogView) (dk : Disk) (e : Engine) (name : list Z) (token : LeaseToken)
    : Engine * res AckResult EngineError :=
  let finish (e : Engine) :=
    let '(e, result) := ack_in k lv e name token in
    match result, e_groups e !! name with
    | ResAcked, Some g => (set_dlq e (prune_slots (e_dlq e) name (Cursor.committed (g_cursor g))), Ok result)
    | _, _ => (e, Ok result)
    end in
  if k_exchange k then
    match e_groups e !! name ≫= fun g => token_deliveries (g_leases g) token with
    | None => (e, Ok ResFenced)
    | Some attempt =>
        match lv_read lv (tok_offset token) with
        | Err err => (e, Err (Storage err))
        | Panic => (e, Panic)
        | Ok (Some record) =>
            if r_offset record =? tok_offset token then
              match fan_out_dead_letter k dk e name (tok_offset token) attempt record Rejected with
              | (e, Ok _) =>
                  finish (set_last_dead_lettered (set_counters e (count_dead_lettered (e_counters e)))
                            (Some (tok_offset token)))
              | (e, Err err) => (e, Err err)
              | (e, Panic) => (e, Panic)
              end
            else finish e
        | Ok None => finish e
        end
    end
  else finish e.

(** [g.last_activity = now] *)
Definition stamp (g : WorkGroup) (now : Z) : WorkGroup :=
  mk_group (g_cursor g) (g_leases g) (g_router g) (g_broadcast g) (g_subscribers g) now
    (g_touched g) (g_streaming g) (g_filter g) (g_pending_match g) (g_paused g) (g_ephemeral g).

Definition pause_group_in (k : EngineConfig) (lv : LogView) (e : Engine) (name : list Z) (pause_ms : Z)
    : Engine * res Z EngineError :=
  match validate_group_name name with
  | Err err => (e, Err err)
  | Panic => (e, Panic)
  | Ok _ =>
      let now := lv_monotonic lv in
      let present := match e_groups e !! name with Some _ => true | None => false end in
      if negb present && (negb (k_max_groups k =? 0) && (k_max_groups k <=? Z.of_nat (size (e_groups e))))
      then (e, Err (TooManyGroups (k_max_groups k)))
      else
        let e := ensure_group k lv e name now in
        match e_groups e !! name with
        | None => (e, Err InvalidGroupName)
        | Some g =>
            let '(g, deadline) := apply_pause (stamp g now) now pause_ms in
            (set_group e name g, Ok deadline)
        end
  end.

End engine.
