(* ===== verification/DeadLetter.v ===== *)
(** * Exactly-once dead letters over crashes

    The dead-letter move appends a copy to every target, syncs each, and only
    then commits the source cursor; each target's set of (group, offset) pairs,
    rebuilt from its durable records when it is opened, keeps a repeated move
    from adding a second copy.  This file runs the targets of an engine through
    moves with failing disks, watermark advances, evictions and crashes. *)

From S2P Require Import Prelude Bytes Records Delivery Lease Subject Dlq WorkGroup Engine.

(** The source of a dead-letter record. *)
Definition key_of (r : OwnedRecord) : option (list Z * Z) :=
  (fun m => (m_group m, m_source_offset m)) <$> decode_dlq_headers (r_headers r).

(** The sources a target holds, in order of their records. *)
Definition entries (disk : list OwnedRecord) : list (list Z * Z) := omap key_of disk.

Definition in_set (s : DlqSink) (g : list Z) (o : Z) : Prop := o ∈ default ∅ (dead_lettered s !! g).

Lemma already_spec s g o : already_dead_lettered s g o = true <-> in_set s g o.
Proof.
  unfold already_dead_lettered, in_set. destruct (dead_lettered s !! g); simpl.
  - by rewrite bool_decide_eq_true.
  - set_solver.
Qed.

Lemma in_set_insert (m : gmap (list Z) (gset Z)) g o g' o' :
  o' ∈ default ∅ (<[g := {[o]} ∪ default ∅ (m !! g)]> m !! g') <->
  (g', o') = (g, o) \/ o' ∈ default ∅ (m !! g').
Proof.
  destruct (decide (g' = g)) as [->|Hne].
  - rewrite lookup_insert_eq. simpl. set_solver.
  - rewrite lookup_insert_ne by done. split; [auto|]. by intros [[= -> ->]|?].
Qed.

(** ** Opening a target *)

Lemma rebuild_spec l s g o :
  let s' := foldl rebuild_one s l in
  sink_log s' = sink_log s /\ sink_frozen s' = sink_frozen s /\
  (in_set s' g o <-> in_set s g o \/ (g, o) ∈ entries l).
Proof.
  revert s. induction l as [|r l IH]; intros s; cbn [foldl].
  { split; [done|]. split; [done|]. unfold entries. simpl. set_solver. }
  destruct (IH (rebuild_one s r)) as (-> & -> & ->). unfold entries, rebuild_one, key_of. simpl.
  destruct (decode_dlq_headers (r_headers r)) as [m|]; simpl; [|done].
  split; [done|]. split; [done|]. unfold in_set. simpl. rewrite in_set_insert, elem_of_cons. tauto.
Qed.

Lemma sink_open_spec disk g o :
  sink_log (sink_open disk) = disk /\ sink_frozen (sink_open disk) = false /\
  (in_set (sink_open disk) g o <-> (g, o) ∈ entries disk).
Proof.
  destruct (rebuild_spec disk (mk_sink disk ∅ 0 false) g o) as (H1 & H2 & H3).
  split; [done|]. split; [done|]. unfold sink_open. rewrite H3. unfold in_set. simpl. set_solver.
Qed.

(** ** Appending *)

(** What identifies the source can be stored and read back. *)
Definition source_ok (g : list Z) (r : OwnedRecord) (attempt : Z) : Prop :=
  utf8_valid g = true /\ is_u64 (r_offset r) /\ is_u32 attempt.

(** The headers either version writes carry the source. *)
Lemma encoded_key g r attempt reason (v2 : bool) headers :
  source_ok g r attempt ->
  (if v2 then encode_dlq_headers_v2 g (r_offset r) attempt reason (r_headers r)
   else encode_dlq_headers g (r_offset r) attempt (r_headers r)) = Some headers ->
  exists m, decode_dlq_headers headers = Some m /\ m_group m = g /\ m_source_offset m = r_offset r.
Proof.
  intros (Hu & Ho & Ha) He. set (m := mk_meta (r_offset r) attempt reason g (r_headers r)).
  assert (Hm : meta_ok m).
  { unfold meta_ok, m. simpl. do 3 (split; [done|]).
    destruct v2; [unfold encode_dlq_headers_v2 in He|unfold encode_dlq_headers in He];
      (destruct (u16_try_from (length g)) eqn:E1; [|done]; simpl in He;
       destruct (u16_try_from (length (r_headers r))) eqn:E2; [|done]);
      split; (eapply u16_try_from_inv; eassumption). }
  destruct v2.
  - change (encode_dlq_headers_v2 (m_group m) (m_source_offset m) (m_attempt m) (m_reason m)
      (m_original_headers m) = Some headers) in He.
    rewrite encode_v2 in He by done. apply (inj Some) in He. rewrite <- He. exists m. split; [by apply decode_v2|done].
  - change (encode_dlq_headers (m_group m) (m_source_offset m) (m_attempt m) (m_original_headers m) = Some headers)
      in He.
    rewrite encode_v1 in He by done. apply (inj Some) in He. rewrite <- He. eexists. split; [by apply decode_v1|done].
Qed.

(** ** The invariant of a target

    [live g o]: the source may still be dead-lettered in this process, because
    the watermark of its group has not passed it. *)

Record sink_inv (live : list Z -> Z -> Prop) (s : DlqSink) : Prop := {
  si_once : NoDup (entries (sink_log s));
  si_sound : forall g o, in_set s g o -> (g, o) ∈ entries (sink_log s);
  si_complete : sink_frozen s = false -> forall g o, (g, o) ∈ entries (sink_log s) -> live g o -> in_set s g o
}.

Definition slot_inv (live : list Z -> Z -> Prop) (s : DlqSlot) : Prop :=
  match s with
  | SlotClosed disk => NoDup (entries disk)
  | SlotOpen s => sink_inv live s
  end.

Lemma sink_open_inv live disk : NoDup (entries disk) -> sink_inv live (sink_open disk).
Proof.
  intros Hnd. constructor.
  - destruct (sink_open_spec disk [] 0) as (-> & _). done.
  - intros g o. destruct (sink_open_spec disk g o) as (-> & _ & ->). done.
  - intros _ g o. destruct (sink_open_spec disk g o) as (-> & _ & ->). done.
Qed.

Lemma entries_snoc disk r g o :
  key_of r = Some (g, o) -> entries (disk ++ [r]) = entries disk ++ [(g, o)].
Proof. intros Hk. unfold entries. rewrite omap_app. simpl. by rewrite Hk. Qed.

(** One append: the copy is added at most once, and an acknowledged append is
    in the set and on the disk. *)
Lemma append_encoded_inv live s io g r headers :
  sink_inv live s -> live g (r_offset r) -> ~ in_set s g (r_offset r) ->
  (exists m, decode_dlq_headers headers = Some m /\ m_group m = g /\ m_source_offset m = r_offset r) ->
  let '(s', res) := append_encoded s io g r headers in
  sink_inv live s' /\ (forall k, k ∈ entries (sink_log s) -> k ∈ entries (sink_log s')) /\
  (forall k, k ∈ entries (sink_log s') -> k ∈ entries (sink_log s) \/ k = (g, r_offset r)) /\
  (forall x, res = Ok x -> (g, r_offset r) ∈ entries (sink_log s')).
Proof.
  intros [Ho Hs Hc] Hlive Hnot (m & Hm & Hg & Hoff). unfold append_encoded.
  assert (Hsame : sink_inv live s) by (by constructor).
  destruct (sink_frozen s) eqn:Hf; [split; [done|]; split; [done|]; split; [auto|done]|].
  set (rec := dlq_record (sink_log s) r headers).
  assert (Hk : key_of rec = Some (g, r_offset r)).
  { unfold key_of, rec, dlq_record. cbn [r_headers]. rewrite Hm. simpl. by rewrite Hg, Hoff. }
  assert (Hfresh : (g, r_offset r) ∉ entries (sink_log s)) by (intros Hin; apply Hnot; auto).
  assert (Hnd : NoDup (entries (sink_log s ++ [rec]))).
  { rewrite (entries_snoc _ _ _ _ Hk). apply NoDup_app. split; [done|]. split; [set_solver|apply NoDup_singleton]. }
  pose proof (entries_snoc (sink_log s) rec _ _ Hk) as Hsn.
  destruct io as [| |[]]; cbn [sink_log sink_frozen dead_lettered].
  - split; [constructor; cbn [sink_log sink_frozen dead_lettered]|].
    + done.
    + intros g' o'. unfold in_set. cbn [dead_lettered]. rewrite in_set_insert, Hsn. set_solver.
    + intros _ g' o'. unfold in_set. cbn [dead_lettered]. rewrite in_set_insert, Hsn. set_solver.
    + rewrite Hsn. set_solver.
  - split; [done|]. split; [done|]. split; [auto|done].
  - split; [constructor; cbn [sink_log sink_frozen dead_lettered]; [done| |done]|].
    + intros g' o' Hin. rewrite Hsn. specialize (Hs g' o' Hin). set_solver.
    + rewrite Hsn. set_solver.
  - split; [constructor; cbn [sink_log sink_frozen dead_lettered]; [done|done|done]|].
    split; [done|]. split; [auto|done].
Qed.

(** ** The fan-out *)

Definition grows (s s' : DlqSlot) : Prop := entries (slot_disk s) ⊆ entries (slot_disk s').

#[export] Instance grows_preorder : PreOrder grows.
Proof. split; [intros s k; done|intros s1 s2 s3 H1 H2 k Hk; auto]. Qed.

Lemma Forall2_trans {A} (R : A -> A -> Prop) l1 l2 l3 :
  (forall x y z, R x y -> R y z -> R x z) -> Forall2 R l1 l2 -> Forall2 R l2 l3 -> Forall2 R l1 l3.
Proof.
  intros Htr H12. revert l3. induction H12; intros l3 H23; inversion H23; subst; constructor; eauto.
Qed.

Section fan_out.
Variables (live : list Z -> Z -> Prop) (k : EngineConfig) (dk : Disk) (name : list Z) (off attempt : Z).
Variables (record : OwnedRecord) (reason : DeadLetterReason).
Hypothesis Hsrc : source_ok name record attempt.
Hypothesis Hoff : r_offset record = off.
Hypothesis Hlive : live name off.

Definition adds_only (s s' : DlqSlot) : Prop :=
  forall key, key ∈ entries (slot_disk s') -> key ∈ entries (slot_disk s) \/ key = (name, off).

Definition slot_step (s s' : DlqSlot) : Prop := slot_inv live s' /\ grows s s' /\ adds_only s s'.

Lemma slot_step_refl s : slot_inv live s -> slot_step s s.
Proof. intros Hs. split; [done|]. split; [done|intros key; auto]. Qed.

(** Appending to an open sink. *)
Lemma append_target_spec s io :
  sink_inv live s -> ~ in_set s name off ->
  let '(s', r) := if k_exchange k then append_dead_letter s io name record attempt reason
                  else append_poison s io name record attempt in
  slot_step (SlotOpen s) (SlotOpen s') /\ (forall x, r = Ok x -> (name, off) ∈ entries (sink_log s')).
Proof.
  intros Hs Hn.
  assert (Happ : forall (v2 : bool) headers,
    (if v2 then encode_dlq_headers_v2 name (r_offset record) attempt reason (r_headers record)
     else encode_dlq_headers name (r_offset record) attempt (r_headers record)) = Some headers ->
    let '(s', r) := append_encoded s io name record headers in
    slot_step (SlotOpen s) (SlotOpen s') /\ (forall x, r = Ok x -> (name, off) ∈ entries (sink_log s'))).
  { intros v2 headers He. pose proof (append_encoded_inv live s io name record headers Hs) as H.
    destruct (append_encoded s io name record headers) as [s' r]. rewrite Hoff in H.
    destruct (H Hlive Hn) as (H1 & H2 & H3 & H4); [by rewrite <- Hoff; eapply encoded_key|].
    split; [|done]. split; [done|]. split; [exact H2|exact H3]. }
  assert (Hfail : slot_step (SlotOpen s) (SlotOpen s) /\
    forall x, Err (A := Z) SegmentFull = Ok x -> (name, off) ∈ entries (sink_log s))
    by (split; [by apply slot_step_refl|done]).
  destruct (k_exchange k); unfold append_dead_letter, append_poison.
  - destruct (encode_dlq_headers_v2 _ _ _ _ _) as [h|] eqn:E; [by apply (Happ true)|done].
  - destruct (encode_dlq_headers _ _ _ _) as [h|] eqn:E; [by apply (Happ false)|done].
Qed.

Lemma fan_out_slot_spec slots slot s :
  slots !! slot = Some s -> slot_inv live s ->
  let '(slots', r) := fan_out_slot k dk name off attempt record reason slots slot in
  exists s', slots' = <[slot := s']> slots /\ slot_step s s' /\
    (forall x, r = Ok x -> (name, off) ∈ entries (slot_disk s')).
Proof.
  intros Hl Hi. unfold fan_out_slot, dlq_sink_slot.
  destruct (k_at_rest_encrypted k).
  { exists s. rewrite list_insert_id by done. split; [done|]. split; [by apply slot_step_refl|done]. }
  rewrite Hl. set (sink := match s with SlotOpen x => x | SlotClosed d => sink_open d end).
  assert (Hsink : sink_inv live sink) by (destruct s; [by apply sink_open_inv|done]).
  assert (Hdisk : sink_log sink = slot_disk s) by (destruct s as [d|]; [apply (sink_open_spec d [] 0)|done]).
  assert (Hstep : forall s', slot_step (SlotOpen sink) (SlotOpen s') -> slot_step s (SlotOpen s')).
  { intros s' (H1 & H2 & H3). split; [done|]. unfold grows, adds_only in *. simpl in *. by rewrite <- Hdisk. }
  replace (match s with SlotClosed disk => Ok (sink_open disk) | SlotOpen s0 => Ok s0 end)
    with (Ok (E := EngineError) sink) by (by destruct s).
  destruct (already_dead_lettered sink name off) eqn:Ha.
  - exists (SlotOpen sink). split; [done|]. split; [by apply Hstep, slot_step_refl|].
    intros _ _. apply (si_sound _ _ Hsink). by apply already_spec.
  - assert (Hn : ~ in_set sink name off) by (rewrite <- already_spec; by rewrite Ha).
    pose proof (append_target_spec sink (dk_dlq dk slot) Hsink Hn) as Hap.
    destruct (if k_exchange k then _ else _) as [s' r]. destruct Hap as [Hs' Hr].
    exists (SlotOpen s'). split; [done|]. split; [auto|]. intros x Hx. destruct r as [z| |]; [|done..]. by apply (Hr z).
Qed.

Lemma fan_out_loop_spec n slot slots :
  (slot + n <= length slots)%nat -> Forall (slot_inv live) slots ->
  let '(slots', r) := fan_out_loop k dk name off attempt record reason slots slot n in
  Forall2 slot_step slots slots' /\
  (forall x, r = Ok x -> forall i s', (slot <= i < slot + n)%nat -> slots' !! i = Some s' ->
     (name, off) ∈ entries (slot_disk s')).
Proof.
  revert slot slots. induction n as [|n IH]; intros slot slots Hlen Hall; cbn [fan_out_loop].
  { split; [|intros; lia]. apply Forall2_same_length_lookup. split; [done|].
    intros i x y Hx Hy. simplify_eq. apply slot_step_refl. rewrite Forall_lookup in Hall. eauto. }
  destruct (lookup_lt_is_Some_2 slots slot ltac:(lia)) as [s Hs].
  assert (Hinv : slot_inv live s) by (rewrite Forall_lookup in Hall; eauto).
  pose proof (fan_out_slot_spec slots slot s Hs Hinv) as H1.
  destruct (fan_out_slot _ _ _ _ _ _ _ slots slot) as [slots1 r1]. destruct H1 as (s1 & -> & Hst & Hok).
  assert (H2 : Forall2 slot_step slots (<[slot := s1]> slots)).
  { apply Forall2_same_length_lookup. split; [by rewrite length_insert|]. intros i x y Hx Hy.
    destruct (decide (i = slot)) as [->|Hne].
    - rewrite list_lookup_insert_eq in Hy by lia. by simplify_eq.
    - rewrite list_lookup_insert_ne in Hy by done. simplify_eq. apply slot_step_refl.
      rewrite Forall_lookup in Hall. eauto. }
  assert (Hall1 : Forall (slot_inv live) (<[slot := s1]> slots)).
  { apply Forall_insert; [done|apply Hst]. }
  destruct r1 as [[]|err|]; [|by split..].
  specialize (IH (S slot) (<[slot := s1]> slots) ltac:(rewrite length_insert; lia) Hall1).
  destruct (fan_out_loop _ _ _ _ _ _ _ _ (S slot) n) as [slots' r]. destruct IH as [IH1 IH2].
  assert (Htrans : Forall2 slot_step slots slots').
  { eapply Forall2_trans; [|exact H2|exact IH1]. intros x y z (_ & G1 & A1) (I2 & G2 & A2).
    split; [done|]. split; [by etrans|]. intros key Hk. apply A2 in Hk as [Hk|Hk]; auto. }
  split; [done|]. intros x Hx i s' Hi Hs'. destruct (decide (i = slot)) as [->|Hne]; [|apply (IH2 x Hx i s'); [lia|done]].
  destruct (Forall2_lookup_r _ _ _ _ _ IH1 Hs') as (y & Hy & (_ & Hg & _)).
  rewrite list_lookup_insert_eq in Hy by lia. injection Hy as <-. by apply Hg, (Hok ()).
Qed.

End fan_out.

(** ** Runs of the targets *)

(** The targets with the committed watermark of each group. *)
Record Targets := mk_targets {
  tg_slots : list DlqSlot;
  tg_floor : gmap (list Z) Z
}.

Definition floor_of (t : Targets) (g : list Z) : Z := default 0 (tg_floor t !! g).

Inductive target_event :=
| TMove (name : list Z) (off attempt : Z) (record : OwnedRecord) (reason : DeadLetterReason) (dk : Disk) (up : Z)
    (* the dead-letter move; on success the cursor commits past it, to [up] *)
| TAdvance (name : list Z) (up : Z) (prune : bool)
    (* acks move the watermark; a terminated message also prunes *)
| TEvict (name : list Z)
| TCrash (floors : gmap (list Z) Z).
    (* the process restarts from whatever cursors were checkpointed *)

Definition tstep (k : EngineConfig) (t : Targets) (e : target_event) : Targets * option (list Z * Z) :=
  match e with
  | TMove name off attempt record reason dk up =>
      match fan_out_loop k dk name off attempt record reason (tg_slots t) 0 (length (tg_slots t)) with
      | (slots, Ok _) => (mk_targets (prune_slots slots name up) (<[name := up]> (tg_floor t)), Some (name, off))
      | (slots, _) => (mk_targets slots (tg_floor t), None)
      end
  | TAdvance name up prune =>
      (mk_targets (if prune then prune_slots (tg_slots t) name up else tg_slots t) (<[name := up]> (tg_floor t)), None)
  | TEvict name => (mk_targets (forget_slots (tg_slots t) name) (tg_floor t), None)
  | TCrash floors => (mk_targets ((fun s => SlotClosed (slot_disk s)) <$> tg_slots t) floors, None)
  end.

(** A poll only dead-letters an offset its cursor has not committed past, a
    cursor only moves up within a process, and an evicted group is caught
    up. *)
Definition tevent_ok (t : Targets) (e : target_event) : Prop :=
  match e with
  | TMove name off attempt record _ _ up =>
      r_offset record = off /\ source_ok name record attempt /\ floor_of t name <= off /\ floor_of t name <= up
  | TAdvance name up _ => floor_of t name <= up
  | TEvict name => forall s o, s ∈ tg_slots t -> (name, o) ∈ entries (slot_disk s) -> o < floor_of t name
  | TCrash _ => True
  end.

Fixpoint trun (k : EngineConfig) (t : Targets) (es : list target_event) : Targets * list (list Z * Z) :=
  match es with
  | [] => (t, [])
  | e :: es =>
      let '(t, m) := tstep k t e in
      let '(t, ms) := trun k t es in
      (t, option_list m ++ ms)
  end.

Fixpoint tevents_ok (k : EngineConfig) (t : Targets) (es : list target_event) : Prop :=
  match es with
  | [] => True
  | e :: es => tevent_ok t e /\ tevents_ok k (tstep k t e).1 es
  end.

Definition attempted (e : target_event) : option (list Z * Z) :=
  match e with TMove name off _ _ _ _ _ => Some (name, off) | _ => None end.

Definition live_at (t : Targets) (g : list Z) (o : Z) : Prop := floor_of t g <= o.

(** ** The invariant over one event *)

Lemma sink_inv_mono (live live' : list Z -> Z -> Prop) s :
  (forall g o, live' g o -> live g o) -> slot_inv live s -> slot_inv live' s.
Proof.
  intros Hl. destruct s as [d|s]; [done|]. intros [Ho Hs Hc]. constructor; [done|done|]. intros Hf g o Hin Hg. auto.
Qed.

Lemma prune_in_set s name up g o :
  in_set (prune_below s name up) g o <-> in_set s g o /\ (g = name -> up <= o).
Proof.
  unfold prune_below, in_set. destruct (dead_lettered s !! name) as [set|] eqn:E; cbn [dead_lettered].
  - case_bool_decide as Hemp.
    + destruct (decide (g = name)) as [->|Hne].
      * rewrite lookup_delete_eq, E. simpl. rewrite <- Hemp, elem_of_filter. intuition.
      * rewrite lookup_delete_ne by done. naive_solver.
    + destruct (decide (g = name)) as [->|Hne].
      * rewrite lookup_insert_eq, E. simpl. rewrite elem_of_filter. intuition.
      * rewrite lookup_insert_ne by done. naive_solver.
  - split; [|tauto]. intros Hin. split; [done|]. intros ->. rewrite E in Hin. simpl in Hin. set_solver.
Qed.

Lemma prune_disk s name up : sink_log (prune_below s name up) = sink_log s /\ sink_frozen (prune_below s name up) = sink_frozen s.
Proof. unfold prune_below. by destruct (dead_lettered s !! name). Qed.

Lemma prune_slot_inv (live live' : list Z -> Z -> Prop) s name up :
  (forall g o, live' g o -> live g o) -> (forall o, live' name o -> up <= o) ->
  slot_inv live s ->
  slot_inv live' (match s with SlotOpen s => SlotOpen (prune_below s name up) | SlotClosed d => SlotClosed d end).
Proof.
  intros Hl Hup. destruct s as [d|s]; [done|]. intros [Ho Hs Hc]. cbn [slot_inv].
  destruct (prune_disk s name up) as [E1 E2]. constructor; rewrite ?E1, ?E2.
  - done.
  - intros g o Hin. apply prune_in_set in Hin as [Hin _]. auto.
  - intros Hf g o Hin Hg. apply prune_in_set. split; [auto|]. intros ->. auto.
Qed.

Lemma forget_slot_inv (live : list Z -> Z -> Prop) s name :
  (forall o, (name, o) ∈ entries (slot_disk s) -> ~ live name o) -> slot_inv live s ->
  slot_inv live (match s with SlotOpen s => SlotOpen (forget_group s name) | SlotClosed d => SlotClosed d end).
Proof.
  intros Hn. destruct s as [d|s]; [done|]. intros [Ho Hs Hc].
  assert (Hset : forall g o, in_set (forget_group s name) g o <-> in_set s g o /\ g <> name).
  { intros g o. unfold in_set, forget_group. cbn [dead_lettered]. destruct (decide (g = name)) as [->|Hne].
    - rewrite lookup_delete_eq. simpl. set_solver.
    - rewrite lookup_delete_ne by done. tauto. }
  constructor; cbn [forget_group sink_log sink_frozen].
  - done.
  - intros g o Hin. apply Hset in Hin as [Hin _]. auto.
  - intros Hf g o Hin Hg. apply Hset. split; [auto|]. intros ->. by apply (Hn o).
Qed.

Definition slots_advance (e : target_event) (s s' : DlqSlot) : Prop :=
  grows s s' /\ forall key, key ∈ entries (slot_disk s') -> key ∈ entries (slot_disk s) \/ attempted e = Some key.

Lemma slots_map_advance e (f : DlqSlot -> DlqSlot) slots :
  (forall s, slot_disk (f s) = slot_disk s) -> Forall2 (slots_advance e) slots (f <$> slots).
Proof.
  intros Hf. induction slots as [|s l IH]; constructor; [|done].
  split; [intros key; by rewrite Hf|]. intros key. rewrite Hf. auto.
Qed.

Lemma prune_slot_disk name up s :
  slot_disk (match s with SlotOpen s => SlotOpen (prune_below s name up) | SlotClosed d => SlotClosed d end) =
  slot_disk s.
Proof. destruct s as [|s]; [done|]. apply prune_disk. Qed.

Lemma floor_insert t g up slots :
  forall h, floor_of (mk_targets slots (<[g := up]> (tg_floor t))) h = if decide (h = g) then up else floor_of t h.
Proof.
  intros h. unfold floor_of. simpl. case_decide as Hh; [subst; by rewrite lookup_insert_eq|].
  by rewrite lookup_insert_ne.
Qed.

Lemma advance_live t g up slots :
  floor_of t g <= up ->
  (forall h o, live_at (mk_targets slots (<[g := up]> (tg_floor t))) h o -> live_at t h o) /\
  (forall o, live_at (mk_targets slots (<[g := up]> (tg_floor t))) g o -> up <= o).
Proof.
  intros Hup. unfold live_at. split.
  - intros h o. rewrite floor_insert. case_decide; [subst; lia|done].
  - intros o. rewrite floor_insert, decide_True by done. done.
Qed.

Lemma Forall_fmap_slots (P Q : DlqSlot -> Prop) f slots :
  (forall s, P s -> Q (f s)) -> Forall P slots -> Forall Q (f <$> slots).
Proof. intros HPQ HP. apply Forall_fmap. eapply Forall_impl; [exact HP|done]. Qed.

Definition step_ok (e : target_event) (t : Targets) (r : Targets * option (list Z * Z)) : Prop :=
  Forall (slot_inv (live_at r.1)) (tg_slots r.1) /\ Forall2 (slots_advance e) (tg_slots t) (tg_slots r.1) /\
  (forall key, r.2 = Some key -> Forall (fun s => key ∈ entries (slot_disk s)) (tg_slots r.1)).

Lemma move_inv k t name off attempt record reason dk up :
  let e := TMove name off attempt record reason dk up in
  Forall (slot_inv (live_at t)) (tg_slots t) -> tevent_ok t e -> step_ok e t (tstep k t e).
Proof.
  intros e Hi (Hoff & Hsrc & Hfl & Hup). unfold step_ok, e. cbn [tstep].
  pose proof (fan_out_loop_spec (live_at t) k dk name off attempt record reason Hsrc Hoff Hfl
    (length (tg_slots t)) 0 (tg_slots t) ltac:(lia) Hi) as Hfan.
  destruct (fan_out_loop _ _ _ _ _ _ _ _ _ _) as [slots r]. destruct Hfan as [Hst Hall].
  assert (Hinv : Forall (slot_inv (live_at t)) slots).
  { apply Forall_lookup. intros i s' Hs'. by destruct (Forall2_lookup_r _ _ _ _ _ Hst Hs') as (s & _ & ? & _). }
  assert (Hadv : Forall2 (slots_advance e) (tg_slots t) slots).
  { eapply Forall2_impl; [exact Hst|]. intros s s' (_ & Hg & Ha). split; [done|].
    intros key Hk. destruct (Ha key Hk) as [?| ->]; auto. }
  destruct r as [[]|err|]; cbn [tg_slots fst snd];
    [|split; [exact Hinv|split; [exact Hadv|done]]..].
  destruct (advance_live t name up (prune_slots slots name up) Hup) as [HL1 HL2]. split; [|split].
  - eapply Forall_fmap_slots; [|exact Hinv]. intros s. by apply prune_slot_inv.
  - eapply Forall2_trans; [|exact Hadv|apply slots_map_advance, prune_slot_disk].
    intros x y z [G1 A1] [G2 A2]. split; [by etrans|]. intros key Hk. apply A2 in Hk as [Hk|Hk]; auto.
  - intros key [= <-]. apply Forall_fmap, Forall_lookup. intros i s' Hs'. simpl. rewrite prune_slot_disk.
    apply (Hall () eq_refl i s'); [|done]. apply lookup_lt_Some in Hs'. apply Forall2_length in Hst. lia.
Qed.

Lemma slots_advance_refl e slots : Forall2 (slots_advance e) slots slots.
Proof. induction slots; constructor; [|done]. split; [done|auto]. Qed.

Lemma tstep_inv k t e :
  Forall (slot_inv (live_at t)) (tg_slots t) -> tevent_ok t e -> step_ok e t (tstep k t e).
Proof.
  intros Hi Hok. destruct e as [name off attempt record reason dk up|name up prune|name|floors];
    [by apply move_inv|..]; unfold step_ok; cbn [tstep fst snd tg_slots].
  - cbn [tevent_ok] in Hok.
    destruct (advance_live t name up (if prune then prune_slots (tg_slots t) name up else tg_slots t) Hok) as [HL1 HL2].
    destruct prune; (split; [|split; [|done]]).
    + eapply Forall_fmap_slots; [|exact Hi]. intros s. by apply prune_slot_inv.
    + apply slots_map_advance, prune_slot_disk.
    + eapply Forall_impl; [exact Hi|]. intros s. by apply sink_inv_mono.
    + apply slots_advance_refl.
  - split; [|split; [|done]].
    + apply Forall_fmap, Forall_forall. intros s Hs. rewrite Forall_forall in Hi.
      apply forget_slot_inv; [|by apply Hi]. intros o Ho Hl. specialize (Hok s o Hs Ho).
      unfold live_at, floor_of in *. simpl in Hl. lia.
    + apply slots_map_advance. by intros [].
  - split; [|split; [|done]].
    + eapply Forall_fmap_slots; [|exact Hi]. intros s Hs. destruct s as [d|s]; [done|apply Hs].
    + by apply slots_map_advance.
Qed.

Lemma trun_inv k t es :
  Forall (slot_inv (live_at t)) (tg_slots t) -> tevents_ok k t es ->
  let '(t', ms) := trun k t es in
  Forall (fun s => NoDup (entries (slot_disk s))) (tg_slots t') /\
  Forall2 (fun s s' => grows s s' /\ forall key, key ∈ entries (slot_disk s') ->
    key ∈ entries (slot_disk s) \/ key ∈ omap attempted es) (tg_slots t) (tg_slots t') /\
  (forall key, key ∈ ms -> Forall (fun s => key ∈ entries (slot_disk s)) (tg_slots t')).
Proof.
  revert t. induction es as [|e es IH]; intros t Hi Hok; cbn [trun].
  { split; [|split].
    - eapply Forall_impl; [exact Hi|]. intros [d|s]; [done|apply si_once].
    - induction (tg_slots t); constructor; [split; [done|auto]|]. apply IHl. by apply Forall_cons in Hi as [_ ?].
    - intros key Hk. by apply not_elem_of_nil in Hk. }
  destruct Hok as [Hok1 Hok2]. destruct (tstep_inv k t e Hi Hok1) as (Hi1 & Hadv & Hm).
  destruct (tstep k t e) as [t1 m]. cbn [fst snd] in *. specialize (IH t1 Hi1 Hok2).
  destruct (trun k t1 es) as [t' ms]. destruct IH as (H1 & H2 & H3). split; [done|]. split.
  - apply Forall2_same_length_lookup. split; [by rewrite (Forall2_length _ _ _ Hadv), (Forall2_length _ _ _ H2)|].
    intros i s s' Hs Hs'. destruct (Forall2_lookup_l _ _ _ _ _ Hadv Hs) as (s1 & Hs1 & G1 & A1).
    destruct (Forall2_lookup_l _ _ _ _ _ H2 Hs1) as (s2 & Hs2 & G2 & A2). simplify_eq.
    split; [by etrans|]. intros key Hk. simpl. apply A2 in Hk as [Hk|Hk].
    + apply A1 in Hk as [Hk|Hk]; [by left|right]. rewrite Hk. set_solver.
    + right. destruct (attempted e); set_solver.
  - intros key Hk. apply elem_of_app in Hk as [Hk|Hk]; [|auto]. destruct m as [m|]; [|by apply not_elem_of_nil in Hk].
    apply list_elem_of_singleton in Hk as ->. specialize (Hm m eq_refl).
    apply Forall_lookup. intros i s' Hs'. destruct (Forall2_lookup_r _ _ _ _ _ H2 Hs') as (s1 & Hs1 & G & _).
    rewrite Forall_lookup in Hm. by apply G, (Hm i).
Qed.


(** Two targets; the second one's sync fails in doubt (the record did reach the
    disk), the process restarts with the cursor where it was, the message is
    dead-lettered again, and then a lower offset. *)
Definition dlq_config : EngineConfig :=
  mk_engine_config default_config (Delivery.mk_delivery 5 false [] 1) 10 None 0 0 0 true false [] false.
Definition dlq_poison (off : Z) : OwnedRecord := mk_record off off 0 0 [] [] [1; 2] [] [].
Definition disk_fine : Disk := mk_disk (fun _ => None) (fun _ => IoOk).
Definition disk_second_sync_fails : Disk :=
  mk_disk (fun _ => None) (fun slot => if (slot =? 1)%nat then IoSyncFails true else IoOk).
Definition dlq_history : list target_event :=
  [TMove (str "g") 9 6 (dlq_poison 9) MaxDeliverExceeded disk_second_sync_fails 3;
   TCrash ∅;
   TMove (str "g") 9 6 (dlq_poison 9) MaxDeliverExceeded disk_fine 3;
   TMove (str "g") 4 6 (dlq_poison 4) MaxDeliverExceeded disk_fine 5].

