(* ===== verification/PollSafety.v ===== *)
(** * What a poll may do to a group

    The scan of [poll_in_timed] looks at the offsets of the in-flight window in
    order and changes only the offset it looks at.  From that follow the safety
    of a delivery, the account of every offset a poll commits past, and the
    meaning of an idle answer. *)

From S2P Require Import Prelude Bytes Records Cursor CursorSnapshot Attempt Delivery Lease KeyShared Confirm Ttl Subject.
From S2P Require Import Backpressure Dlq WorkGroup Engine DeadLetter.

(** ** Cursor and lease steps *)

Lemma ack_spec c o :
  Cursor.wf c -> 0 <= o < u64_max ->
  Cursor.wf (Cursor.ack c o).1 /\ Cursor.committed c <= Cursor.committed (Cursor.ack c o).1 /\
  (forall x, Cursor.acked (Cursor.ack c o).1 x <-> x = o \/ Cursor.acked c x).
Proof.
  intros Hw Ho. unfold Cursor.ack. pose proof (Cursor.ack_bounded_ok c o None Hw ltac:(ulia)) as Hok.
  destruct (Cursor.ack_bounded c o None) as [c' []]; simpl in *.
  - destruct Hok as (? & _ & ? & ?). auto.
  - destruct Hok as (? & -> & [?|?]); [|lia]. split; [done|]. split; [lia|].
    intros x. split; [auto|]. intros [->|?]; auto.
  - destruct Hok as (_ & _ & _ & _ & m & ? & _). done.
Qed.

Lemma ack_hole_spec c hole n :
  Cursor.wf c -> 0 <= hole -> hole + Z.of_nat n <= u64_max ->
  Cursor.wf (ack_hole c hole n) /\ Cursor.committed c <= Cursor.committed (ack_hole c hole n) /\
  (forall x, Cursor.acked (ack_hole c hole n) x <-> hole <= x < hole + Z.of_nat n \/ Cursor.acked c x).
Proof.
  revert c hole. induction n as [|n IH]; intros c hole Hw H0 Hn; cbn [ack_hole].
  { split; [done|]. split; [lia|]. intros x. lia || (split; [auto|intros [?|?]; [lia|done]]). }
  destruct (ack_spec c hole Hw ltac:(lia)) as (Hw1 & Hm1 & Hs1).
  destruct (IH _ (hole + 1) Hw1 ltac:(lia) ltac:(lia)) as (Hw2 & Hm2 & Hs2).
  split; [done|]. split; [lia|]. intros x. rewrite Hs2, Hs1. intuition lia.
Qed.

Lemma claim_cases t off now :
  Lease.wf t ->
  match claim t off now with
  | (t', Granted tok d) =>
      is_claimable t off now = true /\ tok = mk_token off (next_generation t) /\
      d = sat_add32 (attempts t off) 1 /\ Lease.wf t' /\
      leases t' !! off = Some (mk_lease (next_generation t) now (grant_deadline (config t) now) d) /\
      forall o, o <> off -> leases t' !! o = leases t !! o /\ carried t' !! o = carried t !! o
  | (t', InFlight) => t' = t /\ is_claimable t off now = false
  | (t', Exhausted) => t' = t /\ next_generation t = u64_max
  end.
Proof.
  intros Hw. pose proof (lstep_wf t (OClaim off now) Hw I) as Hw'. unfold lstep in Hw'.
  unfold claim, is_claimable, attempts in *. pose proof (wf_gen _ Hw) as Hg.
  destruct (match leases t !! off with Some l => now <? deadline l | None => false end); [done|].
  unfold checked_add in *. destruct (Z.leb_spec (next_generation t + 1) u64_max);
    [|split; [done|ulia]]. cbn [leases set_generation carried next_generation config] in *.
  destruct (leases t !! off) as [l|] eqn:Hl.
  - simpl in *. rewrite lookup_insert_eq. do 5 (split; [done|]).
    intros o Ho. by rewrite lookup_insert_ne.
  - destruct (2 <=? _); simpl in *; rewrite lookup_insert_eq;
      (split; [done|]; split; [done|]; split; [by destruct (carried t !! off)|]; do 2 (split; [done|]));
      intros o Ho; by rewrite lookup_insert_ne, lookup_delete_ne.
Qed.

Lemma lease_ack_other t tok o :
  o <> tok_offset tok ->
  leases (lease_ack t tok).1 !! o = leases t !! o /\ carried (lease_ack t tok).1 !! o = carried t !! o.
Proof. intros Ho. unfold lease_ack. destruct (owned t tok); simpl; [by rewrite lookup_delete_ne|done]. Qed.

Lemma defer_other t off now delay o :
  o <> off ->
  leases (defer_redelivery t off now delay).1 !! o = leases t !! o /\
  carried (defer_redelivery t off now delay).1 !! o = carried t !! o.
Proof.
  intros Ho. unfold defer_redelivery. destruct (leases t !! off); [|done].
  destruct (_ <=? _); simpl; [by rewrite lookup_insert_ne|done].
Qed.

(** Two tables agree from an offset on. *)
Definition same_from (off : Z) (t t0 : LeaseTable) : Prop :=
  forall o, off <= o -> leases t !! o = leases t0 !! o /\ carried t !! o = carried t0 !! o.

Lemma same_from_claimable off t t0 o now :
  same_from off t t0 -> off <= o ->
  is_claimable t o now = is_claimable t0 o now /\ attempts t o = attempts t0 o /\
  pending_redelivery_attempt t o now = pending_redelivery_attempt t0 o now.
Proof.
  intros Hs Ho. destruct (Hs o Ho) as [Hl Hc]. unfold is_claimable, attempts, pending_redelivery_attempt.
  by rewrite Hl, Hc.
Qed.

(** The retry throttle defers the redelivery at hand and nothing else. *)
Lemma throttle_spec k off s now' :
  Lease.wf (g_leases (sc_group s)) ->
  let '(s', b) := retry_throttle_defer k s off now' in
  g_cursor (sc_group s') = g_cursor (sc_group s) /\ sc_filtered_from s' = sc_filtered_from s /\
  Lease.wf (g_leases (sc_group s')) /\ config (g_leases (sc_group s')) = config (g_leases (sc_group s)) /\
  (forall o, o <> off -> leases (g_leases (sc_group s')) !! o = leases (g_leases (sc_group s)) !! o /\
                         carried (g_leases (sc_group s')) !! o = carried (g_leases (sc_group s)) !! o) /\
  (b = true -> exists a, pending_redelivery_attempt (g_leases (sc_group s)) off now' = Some a) /\
  (b = false -> sc_group s' = sc_group s).
Proof.
  intros Hw. unfold retry_throttle_defer, retry_budget_throttle.
  destruct (pending_redelivery_attempt _ _ _) as [a|] eqn:Hp; [|simpl; naive_solver].
  destruct (RetryBudget.should_throttle _ _) as [bud [|]]; simpl; [|naive_solver].
  set (delay := Z.max _ _).
  pose proof (lstep_wf _ (ODefer off now' delay) Hw I) as Hw'. simpl in Hw'.
  split; [done|]. split; [done|]. split; [done|].
  split; [unfold defer_redelivery; repeat case_match; done|].
  split; [intros o Ho; by apply defer_other|]. split; [eauto|done].
Qed.

(** ** One scan *)

Section scan.
Variables (k : EngineConfig) (lv : LogView) (now : Z) (filter : option SubjectPattern).
Variables (g1 : WorkGroup) (lo : Z).

(** What a read means: a record at the offset, or the next survivor past a
    compacted run. *)
Definition present (o : Z) (r : OwnedRecord) : Prop := lv_read lv o = Ok (Some r) /\ r_offset r = o.
Definition in_hole (o : Z) : Prop :=
  exists p r, lv_read lv p = Ok (Some r) /\ p <= o < r_offset r.

Definition expired_record (r : OwnedRecord) : bool := record_is_expired (k_default_ttl k) (lv_unix_millis lv) r.
Definition wanted (r : OwnedRecord) : bool :=
  match filter with Some p => record_matches_subject_filter p r | None => true end.

(** An offset the scan may commit past without a delivery. *)
Definition droppable (o : Z) : Prop :=
  in_hole o \/
  exists r, present o r /\
    (expired_record r = true /\ dead_letters_expired k = false \/ expired_record r = false /\ wanted r = false).

(** Why the scan went past an offset. *)
Inductive passed (o : Z) : Prop :=
| passed_acked : Cursor.acked (g_cursor g1) o -> passed o
| passed_in_flight : is_claimable (g_leases g1) o now = false -> passed o
| passed_deferred a : pending_redelivery_attempt (g_leases g1) o now = Some a -> passed o
| passed_dropped : droppable o -> passed o.

(** An offset that is up for delivery, with its record. *)
Record candidate (o : Z) (r : OwnedRecord) : Prop := {
  cand_unacked : ~ Cursor.acked (g_cursor g1) o;
  cand_claimable : is_claimable (g_leases g1) o now = true;
  cand_present : present o r
}.

Definition deliverable (o : Z) (r : OwnedRecord) : Prop :=
  candidate o r /\ expired_record r = false /\ wanted r = true /\ record_is_undue (lv_unix_millis lv) r = false.

(** The state of the scan at [off]. *)
Record scan_core (off : Z) (s : Scan) : Prop := {
  sco_cursor : Cursor.wf (g_cursor (sc_group s));
  sco_leases : Lease.wf (g_leases (sc_group s));
  sco_mono : Cursor.committed (g_cursor g1) <= Cursor.committed (g_cursor (sc_group s));
  sco_acked : forall o, Cursor.acked (g_cursor g1) o -> Cursor.acked (g_cursor (sc_group s)) o;
  sco_new : forall o, Cursor.acked (g_cursor (sc_group s)) o ->
              Cursor.acked (g_cursor g1) o \/ lo <= o /\ droppable o;
  sco_fresh : forall o, off <= o -> Cursor.acked (g_cursor (sc_group s)) o ->
              Cursor.acked (g_cursor g1) o \/ in_hole o;
  sco_passed : forall o, lo <= o < off -> passed o;
  sco_filtered : forall f, sc_filtered_from s = Some f -> lo <= f < off /\ droppable f;
  sco_config : config (g_leases (sc_group s)) = config (g_leases g1)
}.

Definition scan_ready (off : Z) (s : Scan) : Prop :=
  scan_core off s /\ same_from off (g_leases (sc_group s)) (g_leases g1) /\
  forall o, off <= o -> Cursor.acked (g_cursor (sc_group s)) o <-> Cursor.acked (g_cursor g1) o.

(** A delivered message: due, wanted, alive, counted, and leased to the token
    it carries. *)
Definition delivered (s : Scan) (d : Delivery) : Prop :=
  deliverable (d_offset d) (d_record d) /\
  d_deliveries d = sat_add32 (attempts (g_leases g1) (d_offset d)) 1 /\
  disposition (k_delivery k) (d_deliveries d) = Deliver /\
  owned (g_leases (sc_group s)) (d_token d) =
    Some (mk_lease (tok_generation (d_token d)) now (grant_deadline (config (g_leases g1)) now) (d_deliveries d)) /\
  tok_offset (d_token d) = d_offset d.

(** What an iteration leaves. *)
Definition control_spec (off : Z) (s : Scan) (c : Control) : Prop :=
  match c with
  | Next => scan_ready (off + 1) s
  | Break NoCapture => scan_core off s /\
      exists r, candidate off r /\ expired_record r = false /\ wanted r = true /\
        record_is_undue (lv_unix_millis lv) r = true
  | Break (CapExpired o a r) => scan_core off s /\ o = off /\ candidate off r /\ expired_record r = true /\
      dead_letters_expired k = true /\ a = sat_add32 (attempts (g_leases g1) off) 1
  | Break (CapDead o a r) => scan_core off s /\ o = off /\ deliverable off r /\
      a = sat_add32 (attempts (g_leases g1) off) 1 /\ disposition (k_delivery k) a = DeadLetter /\
      sc_filtered_from s = None
  | Return (Ok (Message d)) => scan_core off s /\ d_offset d = off /\ delivered s d
  | Return (Ok (Compacted from to)) => scan_core off s /\ from = off /\ off < to /\
      (forall o, off <= o < to -> in_hole o)
  | Return (Ok (Filtered from to)) => scan_core off s /\ lo <= from < to /\ to = off /\ droppable from
  | Return (Ok _) => False
  | Return (Err GenerationExhausted) => scan_core off s /\ next_generation (g_leases (sc_group s)) = u64_max
  | Return (Err (MissingRecord o)) => scan_core off s /\ lv_read lv off = Ok None
  | Return (Err (Storage err)) => scan_core off s /\ lv_read lv off = Err err
  | Return (Err _) => False
  | Return Panic => scan_core off s /\ lv_read lv off = Panic
  end.

Hypothesis Hread : forall o r, lv_read lv o = Ok (Some r) -> o <= r_offset r < lv_flushed lv.
Hypothesis Hflushed : lv_flushed lv <= u64_max.
Hypothesis Hlo : 0 <= lo.

Lemma core_release off s tok : scan_core off s -> scan_core off (release s tok).
Proof.
  intros [Hc Hl Hm Ha Hn Hf Hp Hfi Hcf]. constructor; simpl; try done.
  - pose proof (lstep_wf _ (OAck tok) Hl I) as Hw. unfold lstep in Hw. by destruct (lease_ack _ _).
  - rewrite <- Hcf. unfold lease_ack. by destruct (owned _ _).
Qed.

Lemma core_set_table off s t :
  scan_core off s -> Lease.wf t -> config t = config (g_leases (sc_group s)) ->
  scan_core off (sc_set_group s (set_table (sc_group s) t)).
Proof. intros [Hc Hl Hm Ha Hn Hf Hp Hfi Hcf] Ht Hcfg. constructor; simpl; try done. congruence. Qed.

Lemma clear_router_fields g off :
  g_cursor (clear_router g off) = g_cursor g /\ g_leases (clear_router g off) = g_leases g.
Proof. unfold clear_router. by destruct (g_router g). Qed.

(** Committing past a droppable offset. *)
Lemma core_skip off s :
  scan_core off s -> lo <= off < u64_max -> droppable off -> scan_core (off + 1) (skip_past s off).
Proof.
  intros [Hc Hl Hm Ha Hn Hf Hp Hfi Hcf] Hoff Hd.
  destruct (ack_spec _ off Hc ltac:(lia)) as (Hw & Hmono & Hs).
  destruct (clear_router_fields (set_cursor (sc_group s) (Cursor.ack (g_cursor (sc_group s)) off).1) off) as [E1 E2].
  unfold skip_past. constructor; cbn [sc_group sc_set_group sc_filtered_from]; rewrite ?E1, ?E2; simpl; try done.
  - lia.
  - intros o Ho. apply Hs. auto.
  - intros o Ho. apply Hs in Ho as [->|Ho]; [right; split; [lia|done]|auto].
  - intros o Hge Ho. apply Hs in Ho as [->|Ho]; [lia|]. apply Hf; [lia|done].
  - intros o Ho. destruct (decide (o = off)) as [->|]; [by apply passed_dropped|apply Hp; lia].
  - intros f Hff. destruct (Hfi f Hff). split; [lia|done].
Qed.

(** Moving past an offset without touching the cursor. *)
Lemma core_pass off s : scan_core off s -> passed off -> scan_core (off + 1) s.
Proof.
  intros [Hc Hl Hm Ha Hn Hf Hp Hfi Hcf] Hpo. constructor; try done.
  - intros o Ho Hx. apply Hf; [lia|done].
  - intros o Ho. destruct (decide (o = off)) as [->|]; [done|apply Hp; lia].
  - intros f Hff. destruct (Hfi f Hff). split; [lia|done].
Qed.

Lemma core_ext off s s' :
  scan_core off s -> g_cursor (sc_group s') = g_cursor (sc_group s) -> sc_filtered_from s' = sc_filtered_from s ->
  Lease.wf (g_leases (sc_group s')) -> config (g_leases (sc_group s')) = config (g_leases (sc_group s)) ->
  scan_core off s'.
Proof.
  intros [Hc Hl Hm Ha Hn Hf Hp Hfi Hcf] E1 E2 Hw E3. constructor; rewrite ?E1; try done.
  - intros f. rewrite E2. apply Hfi.
  - congruence.
Qed.

Lemma core_hole off s to :
  scan_core off s -> lo <= off < to -> to <= u64_max -> (forall o, off <= o < to -> in_hole o) ->
  scan_core off
    (sc_set_group s (set_cursor (sc_group s) (ack_hole (g_cursor (sc_group s)) off (Z.to_nat (to - off))))).
Proof.
  intros [Hc Hl Hm Ha Hn Hf Hp Hfi Hcf] Hoff Hto Hh.
  destruct (ack_hole_spec _ off (Z.to_nat (to - off)) Hc ltac:(lia) ltac:(lia)) as (Hw & Hmono & Hs).
  constructor; simpl; try done.
  - lia.
  - intros o Ho. apply Hs. auto.
  - intros o Ho. apply Hs in Ho as [Ho|Ho]; [right; split; [lia|left; apply Hh; lia]|auto].
  - intros o Hge Ho. apply Hs in Ho as [Ho|Ho]; [right; apply Hh; lia|auto].
Qed.

Lemma core_filtered off s :
  scan_core (off + 1) s -> lo <= off -> droppable off -> scan_core (off + 1) (sc_set_filtered s (Some off)).
Proof.
  intros [Hc Hl Hm Ha Hn Hf Hp Hfi Hcf] Hoff Hd. constructor; simpl; try done.
  intros f [= <-]. split; [lia|done].
Qed.

(** The state after the iteration's lease is released or kept. *)
Lemma ready_after off s s' :
  scan_core (off + 1) s' ->
  (forall o, off < o -> leases (g_leases (sc_group s)) !! o = leases (g_leases g1) !! o /\
                        carried (g_leases (sc_group s)) !! o = carried (g_leases g1) !! o) ->
  (forall o, off < o -> leases (g_leases (sc_group s')) !! o = leases (g_leases (sc_group s)) !! o /\
                        carried (g_leases (sc_group s')) !! o = carried (g_leases (sc_group s)) !! o) ->
  (forall o, off < o -> Cursor.acked (g_cursor (sc_group s')) o <-> Cursor.acked (g_cursor g1) o) ->
  scan_ready (off + 1) s'.
Proof.
  intros Hc H1 H2 H3. split; [done|]. split.
  - intros o Ho. destruct (H1 o ltac:(lia)), (H2 o ltac:(lia)). split; congruence.
  - intros o Ho. apply H3. lia.
Qed.

Lemma ack_other c o x :
  Cursor.wf c -> 0 <= o < u64_max -> x <> o -> Cursor.acked (Cursor.ack c o).1 x <-> Cursor.acked c x.
Proof. intros Hw Ho Hx. destruct (ack_spec c o Hw Ho) as (_ & _ & ->). intuition. Qed.

Section claimed.
Variables (off : Z) (s : Scan) (tok : LeaseToken) (d : Z).
Hypothesis Hcore : scan_core off s.
Hypothesis Hoff : lo <= off < lv_flushed lv.
Hypothesis Hsame : forall o, off < o -> leases (g_leases (sc_group s)) !! o = leases (g_leases g1) !! o /\
                                        carried (g_leases (sc_group s)) !! o = carried (g_leases g1) !! o.
Hypothesis Hack : forall o, off <= o -> Cursor.acked (g_cursor (sc_group s)) o <-> Cursor.acked (g_cursor g1) o.
Hypothesis Htok : tok_offset tok = off.

Lemma released_skip r :
  present off r ->
  expired_record r = true /\ dead_letters_expired k = false \/ expired_record r = false /\ wanted r = false ->
  scan_ready (off + 1) (skip_past (release s tok) off).
Proof.
  intros Hr Hwhy. apply (ready_after off s); [|done| |].
  - apply core_skip; [by apply core_release|lia|]. right. eauto.
  - intros o Ho. unfold skip_past, release. simpl.
    rewrite (proj2 (clear_router_fields _ _)). simpl. apply lease_ack_other. lia.
  - intros o Ho. unfold skip_past, release. simpl. rewrite (proj1 (clear_router_fields _ _)). simpl.
    rewrite ack_other by (try apply Hcore; lia). apply Hack. lia.
Qed.

(** The claimed branch. *)
Lemma claimed_spec :
  ~ Cursor.acked (g_cursor g1) off -> is_claimable (g_leases g1) off now = true ->
  owned (g_leases (sc_group s)) tok =
    Some (mk_lease (tok_generation tok) now (grant_deadline (config (g_leases g1)) now) d) ->
  d = sat_add32 (attempts (g_leases g1) off) 1 ->
  control_spec off (scan_claimed k lv filter s off tok d).1 (scan_claimed k lv filter s off tok d).2.
Proof.
  intros Hun Hcl Hown Hd. unfold scan_claimed.
  destruct (lv_read lv off) as [[r|]|err|] eqn:Hr; [|simpl; done..].
  destruct (Z.eqb_spec (r_offset r) off) as [Heq|Hne]; cbn [negb].
  2: { destruct (Hread off r Hr). cbn [control_spec fst snd].
       assert (Hh : forall o, off <= o < r_offset r -> in_hole o) by (intros o Ho; exists off, r; auto).
       split; [|split; [done|split; [lia|done]]].
       apply (core_hole off (release s tok)); [by apply core_release|lia|lia|done]. }
  assert (Hcand : candidate off r) by (constructor; [done|done|split; done]).
  fold (expired_record r). destruct (expired_record r) eqn:Hex.
  { destruct (dead_letters_expired k) eqn:Hdl; cbn [control_spec fst snd].
    - split; [by apply core_release|done].
    - destruct (released_skip r (cand_present _ _ Hcand) ltac:(auto)) as (Hc & Hs & Ha).
      split; [|done]. apply (core_ext _ _ _ Hc); [done|done|apply Hc|done]. }
  replace (match filter with Some pattern => negb (record_matches_subject_filter pattern r) | None => false end)
    with (negb (wanted r)) by (unfold wanted; by destruct filter).
  destruct (wanted r) eqn:Hwant; cbn [negb].
  2: { destruct (released_skip r (cand_present _ _ Hcand) ltac:(auto)) as (Hc & Hs & Ha).
       cbn [control_spec fst snd]. set (s1 := sc_set_counters _ _).
       assert (Hc1 : scan_core (off + 1) s1) by (apply (core_ext _ _ _ Hc); [done|done|apply Hc|done]).
       assert (Hd1 : droppable off) by (right; exists r; split; [apply Hcand|auto]).
       destruct (sc_filtered_from s1); (split; [|done]); [done|]. apply core_filtered; [done|lia|done]. }
  destruct (record_is_undue _ r) eqn:Hdue.
  { cbn [control_spec fst snd]. split; [by apply core_release|eauto]. }
  assert (Hdel : deliverable off r) by (split; [done|auto]).
  destruct (sc_filtered_from s) as [from|] eqn:Hfrom.
  - destruct (sco_filtered _ _ Hcore from Hfrom) as [Hf1 Hf2].
    assert (Hc1 : scan_core off (sc_set_filtered s None)).
    { destruct Hcore. constructor; simpl; done. }
    destruct (disposition _ _); cbn [control_spec fst snd]; (split; [|auto]); [|by apply core_release].
    apply (core_ext _ _ _ Hc1); [done|done|apply Hcore|done].
  - destruct (disposition _ _) eqn:Hdisp; cbn [control_spec fst snd].
    + split; [apply (core_ext _ _ _ Hcore); [done|done|apply Hcore|done]|]. split; [done|].
      split; [done|]. split; [done|]. split; [done|]. split; done.
    + split; [by apply core_release|]. split; [done|]. split; [done|]. by split.
Qed.

End claimed.

Lemma scan_step_spec off s :
  scan_ready off s -> lo <= off < lv_flushed lv ->
  control_spec off (scan_step k lv now filter s off).1 (scan_step k lv now filter s off).2.
Proof.
  intros (Hcore & Hsame & Hack) Hoff. unfold scan_step.
  destruct (same_from_claimable off _ _ off now Hsame ltac:(lia)) as (Ecl & Eat & Epe).
  assert (Hready : forall s', scan_core off s' -> passed off ->
    g_cursor (sc_group s') = g_cursor (sc_group s) ->
    (forall o, o <> off -> leases (g_leases (sc_group s')) !! o = leases (g_leases (sc_group s)) !! o /\
                           carried (g_leases (sc_group s')) !! o = carried (g_leases (sc_group s)) !! o) ->
    scan_ready (off + 1) s').
  { intros s' Hc Hp Hcur Hoth. apply (ready_after off s); [by apply core_pass| | |].
    - intros o Ho. apply Hsame. lia.
    - intros o Ho. apply Hoth. lia.
    - intros o Ho. rewrite Hcur. apply Hack. lia. }
  destruct (Cursor.is_acked _ off) eqn:Hia.
  { cbn [control_spec fst snd]. apply Hready; [done| |done|done].
    apply passed_acked, Hack; [lia|]. apply Cursor.is_acked_spec; [apply Hcore|done]. }
  pose proof (throttle_spec k off s now (sco_leases _ _ Hcore)) as Ht.
  destruct (retry_throttle_defer k s off now) as [s1 b].
  destruct Ht as (T1 & T2 & T3 & T4 & T5 & T6 & T7).
  pose proof (core_ext _ _ _ Hcore T1 T2 T3 T4) as Hcore1. destruct b.
  { cbn [control_spec fst snd]. destruct (T6 eq_refl) as [a Ha]. apply Hready; [done| |done|done].
    apply (passed_deferred _ a). congruence. }
  specialize (T7 eq_refl). pose proof (claim_cases (g_leases (sc_group s1)) off now T3) as Hcl. rewrite T7 in *.
  pose proof (proj1 (lstep_generation (g_leases (sc_group s)) (OClaim off now))) as Hcfg. unfold lstep in Hcfg.
  destruct (claim (g_leases (sc_group s)) off now) as [t [tok d| |]]; cbn [fst] in Hcfg.
  - destruct Hcl as (C1 & -> & C3 & C4 & C5 & C6).
    set (s2 := sc_set_group s1 (set_table (sc_group s) t)).
    apply (claimed_spec off s2); unfold s2; cbn [sc_group sc_set_group g_leases set_table g_cursor].
    + apply (core_ext _ _ _ Hcore1); [simpl; congruence|done|done|simpl; congruence].
    + done.
    + intros o Ho. destruct (C6 o ltac:(lia)) as [-> ->]. apply Hsame. lia.
    + done.
    + done.
    + rewrite <- Hack by lia. by rewrite Cursor.is_acked_false in Hia by apply Hcore.
    + congruence.
    + unfold owned. simpl. rewrite C5. simpl. rewrite Z.eqb_refl. do 2 f_equal.
      by rewrite (sco_config _ _ Hcore).
    + congruence.
  - destruct Hcl as [-> C2]. cbn [control_spec fst snd]. apply Hready; [| |simpl; congruence|].
    + apply (core_ext _ _ _ Hcore1); [simpl; congruence|done|done|simpl; congruence].
    + apply passed_in_flight. congruence.
    + intros o Ho. simpl. done.
  - destruct Hcl as [-> C2]. cbn [control_spec fst snd]. split; [|done].
    apply (core_ext _ _ _ Hcore1); [simpl; congruence|done|done|simpl; congruence].
Qed.

(** The whole loop. *)
Lemma scan_spec n off s :
  scan_ready off s -> lo <= off -> off + Z.of_nat n <= Z.max off (lv_flushed lv) ->
  let '(s', c, off') := scan (scan_step k lv now filter) s off n in
  off <= off' <= off + Z.of_nat n /\ scan_core off' s' /\
  (control_spec off' s' c /\ c <> Next \/ c = Break NoCapture /\ off' = off + Z.of_nat n).
Proof.
  revert off s. induction n as [|n IH]; intros off s Hr Hlo2 Hn; cbn [scan].
  { split; [lia|]. split; [apply Hr|]. right. split; [done|lia]. }
  pose proof (scan_step_spec off s Hr ltac:(lia)) as Hs.
  destruct (scan_step k lv now filter s off) as [s1 c] eqn:E. cbn [fst snd] in Hs.
  destruct c as [|c|r].
  - cbn [control_spec] in Hs. specialize (IH (off + 1) s1 Hs ltac:(lia) ltac:(lia)).
    destruct (scan _ s1 (off + 1) n) as [[s' c] off']. destruct IH as (H1 & H2 & H3).
    split; [lia|]. split; [done|]. destruct H3 as [?|[-> ->]]; [by left|right]. split; [done|lia].
  - split; [lia|]. split; [|left; split; done]. destruct c; apply Hs.
  - split; [lia|]. split; [|left; split; done]. cbn [control_spec] in Hs.
    destruct r as [[]|[]|]; try apply Hs; done.
Qed.

End scan.

(** ** The invariant of the engine *)

Definition group_ok (g : WorkGroup) : Prop := Cursor.wf (g_cursor g) /\ Lease.wf (g_leases g).

Record engine_ok (e : Engine) : Prop := {
  eo_groups : map_Forall (fun _ g => group_ok g) (e_groups e);
  eo_cursor_ckpt : map_Forall (fun _ p => bytes_ok p) (e_cursor_ckpt e);
  eo_attempts_ckpt : map_Forall (fun _ p => bytes_ok p) (e_attempts_ckpt e)
}.

Definition config_ok (k : EngineConfig) : Prop :=
  0 <= visibility_nanos (k_lease k) /\ 0 <= hard_cap_nanos (k_lease k) /\ 0 <= k_max_in_flight k.

(** What the log promises: durable bounds, and reads that answer the record at
    an offset or the next one that survived compaction. *)
Record view_ok (lv : LogView) : Prop := {
  vo_bounds : 0 <= lv_earliest lv <= lv_flushed lv /\ lv_flushed lv <= u64_max;
  vo_read : forall o r, lv_read lv o = Ok (Some r) -> o <= r_offset r < lv_flushed lv;
  vo_next : forall p r o r', lv_read lv p = Ok (Some r) -> p <= o < r_offset r ->
              lv_read lv o = Ok (Some r') -> r_offset r' = r_offset r
}.

(** The group as the scan sees it: touched, with an elapsed pause settled. *)
Definition settled (g : WorkGroup) (now : Z) : WorkGroup := (pause_active (touch g now) now).1.

Definition filter_of (g : WorkGroup) : option SubjectPattern :=
  match g_filter g with
  | Some p => match parse_pattern p with Ok pat => Some pat | _ => None end
  | None => None
  end.

Lemma settled_ok g now : group_ok g -> group_ok (settled g now).
Proof.
  intros [Hc Hl]. unfold settled, pause_active. simpl. destruct (g_paused g) as [p|]; [|done].
  destruct (now <? until p); [done|]. split; [done|].
  exact (lstep_wf _ (OShift (sat_sub (until p) (paused_at p))) Hl I).
Qed.

Lemma group_resume_ok c cfg now :
  Cursor.wf c -> 0 <= visibility_nanos cfg -> 0 <= hard_cap_nanos cfg -> group_ok (group_resume c cfg now).
Proof. intros Hc Hv Hh. split; [done|]. by apply table_new_wf. Qed.

Section open.
Context `{Crc32c}.

Lemma resume_work_group_ok c p cfg now flushed :
  Cursor.wf c -> from_option bytes_ok True p -> 0 <= visibility_nanos cfg -> 0 <= hard_cap_nanos cfg ->
  group_ok (resume_work_group c p cfg now flushed).
Proof.
  intros Hc Hp Hv Hh. split; [done|]. unfold resume_work_group. simpl.
  set (l := resume_attempts_from_snapshot p (Cursor.committed c) flushed).
  assert (Hl : Forall (fun q => 0 <= q.2 <= u32_max) l).
  { unfold l, resume_attempts_from_snapshot. destruct p as [p|]; [|by constructor].
    destruct (decode_attempt_snapshot p) as [pairs|e|] eqn:E; [|by constructor..].
    apply Forall_forall. intros q [_ Hq]%list_elem_of_filter.
    destruct (attempt_canonical p pairs Hp E) as (Hok & _). rewrite Forall_forall in Hok. destruct (Hok q Hq). ulia. }
  assert (Hw : Lease.wf (table_new cfg)) by (by apply table_new_wf).
  assert (Hempty : leases (table_new cfg) = ∅) by done.
  clearbody l. revert Hw Hempty. generalize (table_new cfg). unfold resume_attempts.
  induction Hl as [|[o a] l Ha _ IH]; intros t Hw He; [done|]. simpl. simpl in Ha. apply IH.
  - destruct (Z.ltb_spec 0 a); [|done]. destruct Hw as [W1 W2 W3 W4 W5]. constructor; simpl; try done.
    + apply map_Forall_insert_2; [ulia|done].
    + intros off. rewrite He, lookup_empty. by intros [].
  - by destruct (0 <? a).
Qed.

Lemma encode_snapshot_bytes c : bytes_ok (encode_snapshot c []).
Proof.
  unfold encode_snapshot, snapshot_body, bytes_ok. rewrite !Forall_app.
  repeat split; try apply le_bytes_ok; try apply encode_ranges_bytes; unfold SNAPSHOT_VERSION; forall_concrete.
Qed.

Lemma snapshot_payload_bytes c : bytes_ok (snapshot_payload c).
Proof.
  unfold snapshot_payload. case_decide; apply encode_snapshot_bytes.
Qed.

Lemma evict_group_ok e dk name : engine_ok e -> engine_ok (evict_group e dk name).1.
Proof.
  intros [Hg Hc Ha]. unfold evict_group. destruct (e_groups e !! name) as [g|] eqn:E; [|done].
  unfold write_group_checkpoint. rewrite E.
  assert (Hd : map_Forall (fun _ g => group_ok g) (delete name (e_groups e))) by (by apply map_Forall_delete).
  destruct (g_ephemeral g); [by constructor|]. destruct (dk_ckpt dk name); [by constructor|].
  constructor; simpl; [done| |done]. apply map_Forall_insert_2; [apply snapshot_payload_bytes|done].
Qed.

Lemma evict_all_ok e dk names : engine_ok e -> engine_ok (evict_all e dk names).1.
Proof.
  revert e. induction names as [|name names IH]; intros e He; [done|]. cbn [evict_all].
  pose proof (evict_group_ok e dk name He) as H1. destruct (evict_group e dk name) as [e1 [[]| |]]; [by apply IH|done..].
Qed.

Lemma sweep_ok k lv dk e now : engine_ok e -> engine_ok (sweep_idle_groups k lv dk e now).1.
Proof.
  intros He. unfold sweep_idle_groups. destruct (_ =? 0); [done|]. apply evict_all_ok.
  destruct He as [Hg Hc Ha]. constructor; [|done|done]. simpl. apply map_Forall_fmap.
  intros n g Hn. simpl. destruct (Hg n g Hn) as [G1 G2]. unfold pause_active.
  destruct (g_paused g) as [p|]; [|done]. destruct (now <? until p); [done|]. split; [done|].
  exact (lstep_wf _ (OShift (sat_sub (until p) (paused_at p))) G2 I).
Qed.

Lemma ensure_ok k lv e name now :
  config_ok k -> view_ok lv -> engine_ok e -> engine_ok (ensure_group k lv e name now).
Proof.
  intros (Hv & Hh & _) Hl He. pose proof (vo_bounds _ Hl) as Hb. unfold ensure_group.
  destruct (e_groups e !! name) as [g|]; [done|]. destruct He as [Hg Hc Ha].
  destruct (bool_decide _); (constructor; cbn [set_group set_groups set_ckpt e_groups e_cursor_ckpt e_attempts_ckpt];
    [apply map_Forall_insert_2; [|exact Hg]|exact Hc|exact Ha]).
  - split; [apply Cursor.wf_new|by apply table_new_wf].
  - apply resume_work_group_ok; try done.
    + destruct (e_cursor_ckpt e !! name) as [p|] eqn:Ep; [|apply Cursor.wf_new].
      destruct (resume_is_clamped (Some p) (lv_flushed lv)) as (rc & Hrc & ->).
      * by apply (Hc name p).
      * ulia.
      * apply clamped_wf; [done|ulia].
    + destruct (e_attempts_ckpt e !! name) as [p|] eqn:Ep; [by apply (Ha name p)|done].
Qed.

Lemma open_poll_ok k lv dk e name now :
  config_ok k -> view_ok lv -> engine_ok e ->
  engine_ok (open_poll k lv dk e name now).1 /\
  ((open_poll k lv dk e name now).2 = Ok () -> is_Some (e_groups (open_poll k lv dk e name now).1 !! name)).
Proof.
  intros Hk Hl He. unfold open_poll.
  set (e0 := match e_groups e !! name with Some g => set_group e name (touch g now) | None => e end).
  assert (He0 : engine_ok e0).
  { unfold e0. destruct (e_groups e !! name) as [g|] eqn:E; [|done]. destruct He as [Hg Hc Ha].
    constructor; simpl; [|done|done]. apply map_Forall_insert_2; [|done]. apply (Hg name g E). }
  pose proof (sweep_ok k lv dk e0 now He0) as Hs.
  destruct (sweep_idle_groups k lv dk e0 now) as [e1 [[]| |]]; [|done..].
  destruct (e_groups e1 !! name) as [g|] eqn:E1; [simpl; rewrite E1; eauto|].
  destruct (validate_group_name name) as [[]| |]; [|done..].
  destruct (negb _ && _); [done|]. cbn [fst snd].
  split; [by apply ensure_ok|]. intros _. unfold ensure_group. rewrite E1.
  case_bool_decide; simpl; rewrite lookup_insert_eq; eauto.
Qed.

End open.

(** ** The shapes of a poll *)

Section poll.
Variables (k : EngineConfig) (lv : LogView) (dk : Disk).
Hypothesis Hk : config_ok k.
Hypothesis Hv : view_ok lv.

Lemma scan_start e g now :
  group_ok g -> scan_ready k lv now (filter_of g) g (Cursor.committed (g_cursor g))
    (Cursor.committed (g_cursor g)) (start_scan e g).
Proof.
  intros [Hc Hl]. split; [|split; [done|done]].
  constructor; simpl; try done; auto; intros; lia.
Qed.

(** Only the groups, the budget and the counters differ. *)
Definition same_rest (e e' : Engine) : Prop :=
  e_dlq e' = e_dlq e /\ e_cursor_ckpt e' = e_cursor_ckpt e /\ e_attempts_ckpt e' = e_attempts_ckpt e.

(** A poll answers idle because of a pause, hands out the stashed match, reports
    a truncation, or runs the scan. *)
Inductive poll_shape (e : Engine) (name : list Z) (g : WorkGroup) (now : Z) (out : Engine * res Poll EngineError) : Prop :=
| shape_paused :
    (pause_active (touch g now) now).2 = true -> out = (set_group e name (settled g now), Ok Idle) ->
    poll_shape e name g now out
| shape_stashed d :
    g_pending_match g = Some d -> out.2 = Ok (Message d) ->
    e_groups out.1 = <[name := set_pending_match (settled g now) None]> (e_groups e) ->
    same_rest e out.1 -> poll_shape e name g now out
| shape_truncated :
    Cursor.committed (g_cursor g) < lv_earliest lv ->
    out.2 = Ok (Truncated (lv_earliest lv) (lv_earliest lv - Cursor.committed (g_cursor g))) ->
    (exists g', e_groups out.1 = <[name := g']> (e_groups e) /\ group_ok g' /\
       g_cursor g' = Cursor.resume (lv_earliest lv)) ->
    same_rest e out.1 -> poll_shape e name g now out
| shape_scanned s c off :
    (pause_active (touch g now) now).2 = false -> g_pending_match g = None ->
    lv_earliest lv <= Cursor.committed (g_cursor g) ->
    let g1 := settled g now in
    let lo := Cursor.committed (g_cursor g1) in
    scan_core k lv now (filter_of g1) g1 lo off s ->
    lo <= off -> off <= Z.max lo (window_end k lv lo) ->
    (control_spec k lv now (filter_of g1) g1 lo off s c /\ c <> Next /\ off < window_end k lv lo \/
     c = Break NoCapture /\ off = Z.max lo (window_end k lv lo)) ->
    out = match c with
          | Return r => (put_scan e name s, r)
          | Next => (put_scan e name s, Panic)
          | Break c => finish_poll k dk (put_scan e name s) name off (sc_filtered_from s) c
          end ->
    poll_shape e name g now out.

Lemma settled_fields g now :
  g_cursor (settled g now) = g_cursor g /\ g_pending_match (settled g now) = g_pending_match g /\
  g_filter (settled g now) = g_filter g.
Proof. unfold settled, pause_active. simpl. destruct (g_paused g) as [p|]; [|done]. by destruct (now <? until p). Qed.

Lemma scan_stop (step : Scan -> Z -> Scan * Control) s off n :
  let '(_, c, off') := scan step s off n in c = Break NoCapture \/ off' < off + Z.of_nat n.
Proof.
  revert s off. induction n as [|n IH]; intros s off; cbn [scan]; [by left|].
  destruct (step s off) as [s1 []]; [|right; lia..]. specialize (IH s1 (off + 1)).
  destruct (scan step s1 (off + 1) n) as [[s2 c2] off2]. destruct IH; [by left|right; lia].
Qed.

Lemma poll_group_shape e name g now :
  e_groups e !! name = Some g -> group_ok g -> poll_shape e name g now (poll_group k lv dk e name now).
Proof.
  intros Hg Hok. pose proof (settled_ok g now Hok) as Hok1.
  destruct (settled_fields g now) as (F1 & F2 & F3).
  unfold poll_group. rewrite Hg. fold (settled g now) in *.
  destruct (pause_active (touch g now) now) as [g1 paused] eqn:Hp.
  assert (Hs : settled g now = g1) by (unfold settled; by rewrite Hp). rewrite Hs in *.
  destruct paused; [apply shape_paused; [by rewrite Hp|by rewrite Hs]|].
  destruct (g_pending_match g1) as [d|] eqn:Hpm.
  { apply (shape_stashed _ _ _ _ _ d); [congruence|done|simpl; by rewrite Hs|done]. }
  destruct (Z.ltb_spec (Cursor.committed (g_cursor g1)) (lv_earliest lv)) as [Hlt|Hge].
  { rewrite F1 in *. apply shape_truncated; [done|simpl; by rewrite F1| |done].
    eexists. split; [done|]. split; [|done]. destruct Hk as (K1 & K2 & _). destruct (vo_bounds _ Hv).
    split; [split; [simpl; ulia|done]|by apply table_new_wf]. }
  fold (filter_of g1). set (lo := Cursor.committed (g_cursor g1)).
  set (n := Z.to_nat (window_end k lv lo - lo)).
  assert (Hn : lo + Z.of_nat n = Z.max lo (window_end k lv lo)) by lia.
  assert (Hwin : window_end k lv lo <= lv_flushed lv) by (unfold window_end; lia).
  assert (Hlo0 : 0 <= lo) by (destruct Hok1 as [[? _] _]; ulia).
  pose proof (scan_spec k lv now (filter_of g1) g1 lo (vo_read _ Hv) (proj2 (vo_bounds _ Hv)) Hlo0 n lo
    (start_scan e g1) (scan_start e g1 now Hok1) ltac:(lia) ltac:(lia)) as Hsc.
  pose proof (scan_stop (scan_step k lv now (filter_of g1)) (start_scan e g1) lo n) as Hst.
  destruct (scan _ (start_scan e g1) lo n) as [[s c] off]. destruct Hsc as (H1 & H2 & H3).
  assert (Hge' : lv_earliest lv <= Cursor.committed (g_cursor g)) by (unfold lo in Hge; by rewrite <- F1).
  assert (Hpm' : g_pending_match g = None) by congruence.
  assert (Hp' : (pause_active (touch g now) now).2 = false) by (by rewrite Hp).
  apply (shape_scanned _ _ _ _ _ s c off Hp' Hpm' Hge'); rewrite ?Hs; fold lo; [done|lia|lia| |done].
  destruct H3 as [[Hcs Hne]|[-> ->]]; [|right; split; [done|lia]].
  destruct Hst as [->|Hst]; [|left; split; [done|split; [done|lia]]].
  destruct (decide (off < window_end k lv lo)); [by left|right; split; [done|lia]].
Qed.

Lemma present_not_in_hole o r : present lv o r -> ~ in_hole lv o.
Proof. intros [Hr Ho] (p & r' & Hp & Hin). pose proof (vo_next _ Hv p r' o r Hp Hin Hr). lia. Qed.

Lemma put_scan_fields e name s :
  e_groups (put_scan e name s) = <[name := sc_group s]> (e_groups e) /\ e_dlq (put_scan e name s) = e_dlq e.
Proof. done. Qed.

(** Only the scan's own return and the stash hand out a message. *)
Lemma dead_letter_not_message reason e name off attempt record e' d :
  dead_letter_with reason k dk e name off attempt record <> (e', Ok (Message d)).
Proof.
  unfold dead_letter_with. by destruct (fan_out_dead_letter _ _ _ _ _ _ _ _) as [e1 [[]| |]].
Qed.

Lemma finish_poll_not_message e name off f c e' d : finish_poll k dk e name off f c <> (e', Ok (Message d)).
Proof.
  unfold finish_poll. destruct f; [done|]. destruct c; [done| |]; apply dead_letter_not_message.
Qed.

End poll.

(** The dead-letter move commits the source past the offset only when every
    target holds its copy, and otherwise leaves the groups alone. *)
Lemma dead_letter_effect reason k dk (live : list Z -> Z -> Prop) e name off attempt record g :
  e_groups e !! name = Some g -> Forall (slot_inv live) (e_dlq e) -> live name off ->
  r_offset record = off -> source_ok name record attempt ->
  let '(e', r) := dead_letter_with reason k dk e name off attempt record in
  (r = Ok (Parked off record) /\
   (exists g', e_groups e' = <[name := g']> (e_groups e) /\ g_cursor g' = (Cursor.ack (g_cursor g) off).1) /\
   (forall s, s ∈ e_dlq e' -> (name, off) ∈ entries (slot_disk s))) \/
  ((forall p, r <> Ok p) /\ e_groups e' = e_groups e).
Proof.
  intros Hg Hslots Hlive Hoff Hsrc. unfold dead_letter_with, fan_out_dead_letter.
  pose proof (fan_out_loop_spec live k dk name off attempt record reason Hsrc Hoff Hlive (length (e_dlq e)) 0
    (e_dlq e) ltac:(lia) Hslots) as Hfan.
  destruct (fan_out_loop _ _ _ _ _ _ _ _ _ _) as [slots r]. destruct Hfan as [Hst Hall].
  destruct r as [[]|err|]; [|by right..]. left. split; [done|].
  unfold commit_dead_letter_past. cbn [e_groups set_dlq]. rewrite Hg. split.
  - eexists. destruct (bool_decide _); (split; [done|]); apply clear_router_fields.
  - intros s Hs. assert (Hs' : s ∈ prune_slots slots name
      (Cursor.committed (g_cursor (clear_router (set_cursor g (Cursor.ack (g_cursor g) off).1) off))))
      by (destruct (bool_decide (name = k_confirm_group k)); exact Hs).
    apply list_elem_of_fmap in Hs' as (s0 & -> & Hs0). rewrite prune_slot_disk.
    apply list_elem_of_lookup in Hs0 as [i Hi]. apply (Hall () eq_refl i s0); [|done].
    apply lookup_lt_Some in Hi. apply Forall2_length in Hst. lia.
Qed.

Section theorems.
Context `{Crc32c}.



(** An offset a live group has not committed past. *)
Definition engine_live (e : Engine) (name : list Z) (o : Z) : Prop :=
  exists g, e_groups e !! name = Some g /\ Cursor.committed (g_cursor g) <= o.

(** What a poll may make of a group's cursor: no ack is taken back unless a
    truncation is reported, and every offset newly committed past is below the
    earliest retained record, a hole, expired or unwanted, or parked now with a
    durable copy in every dead-letter target. *)
Definition accounted (k : EngineConfig) (lv : LogView) (name : list Z) (g : WorkGroup) (r : res Poll EngineError)
    (e' : Engine) (g' : WorkGroup) : Prop :=
  (forall o, Cursor.acked (g_cursor g) o -> Cursor.acked (g_cursor g') o \/ exists a b, r = Ok (Truncated a b)) /\
  (forall o, Cursor.acked (g_cursor g') o ->
     Cursor.acked (g_cursor g) o \/ o < lv_earliest lv \/ droppable k lv (filter_of g) o \/
     exists record, r = Ok (Parked o record) /\ forall s, s ∈ e_dlq e' -> (name, o) ∈ entries (slot_disk s)).

Lemma core_accounted k lv now name g lo off s r e' :
  let g1 := settled g now in
  scan_core k lv now (filter_of g1) g1 lo off s -> accounted k lv name g r e' (sc_group s).
Proof.
  intros g1 Hcore. destruct (settled_fields g now) as (F1 & _ & F3).
  assert (Ef : filter_of g1 = filter_of g) by (unfold filter_of, g1; by rewrite F3).
  split.
  - intros o Ho. left. apply (sco_acked _ _ _ _ _ _ _ _ Hcore). unfold g1. by rewrite F1.
  - intros o Ho. destruct (sco_new _ _ _ _ _ _ _ _ Hcore o Ho) as [Ha|[_ Hd]].
    + left. unfold g1 in Ha. by rewrite F1 in Ha.
    + right. right. left. by rewrite <- Ef.
Qed.

(** Parking the offset the scan stopped at. *)
Lemma parked_accounted reason k lv dk now e1 name g lo off s a record e' r :
  let g1 := settled g now in
  view_ok lv -> utf8_valid name = true ->
  Forall (slot_inv (engine_live e1)) (e_dlq e1) -> e_groups e1 !! name = Some g ->
  scan_core k lv now (filter_of g1) g1 lo off s -> lo = Cursor.committed (g_cursor g) -> 0 <= lo <= off ->
  candidate lv now g1 off record -> is_u32 a ->
  dead_letter_with reason k dk (put_scan e1 name s) name off a record = (e', r) ->
  exists g', e_groups e' = <[name := g']> (e_groups e1) /\ accounted k lv name g r e' g'.
Proof.
  intros g1 Hv Hu Hslots Hg Hcore -> Hlo [_ _ [Hread Hoff]] Ha Hdl.
  pose proof (vo_read _ Hv off record Hread). pose proof (vo_bounds _ Hv).
  pose proof (core_accounted k lv now name g _ off s r e' Hcore) as [Hkeep Hnew].
  pose proof (dead_letter_effect reason k dk (engine_live e1) (put_scan e1 name s) name off a record (sc_group s)) as Heff.
  rewrite Hdl in Heff. destruct Heff as [(-> & (g' & Hgr & Hcur) & Hall)|[Hne Hgr]].
  - by simpl; rewrite lookup_insert_eq.
  - done.
  - exists g. split; [done|lia].
  - done.
  - split; [done|]. split; [ulia|done].
  - exists g'. split; [rewrite Hgr; simpl; by rewrite insert_insert_eq|].
    destruct (ack_spec _ off (sco_cursor _ _ _ _ _ _ _ _ Hcore) ltac:(lia)) as (_ & _ & Hack).
    split; rewrite Hcur.
    + intros o Ho. destruct (Hkeep o Ho) as [Hs|[x [y [=]]]]. left. apply Hack. auto.
    + intros o Ho. apply Hack in Ho as [->|Ho]; [|by apply Hnew]. right. right. right. eauto.
  - exists (sc_group s). split; [by rewrite Hgr|]. split; [exact Hkeep|exact Hnew].
Qed.


End theorems.

(** ** A small engine

    Two records: the first one's lifetime of 1 ms is over, the second one is
    plain.  In [poison_engine] the second one has already been delivered five
    times, which is the cap. *)

Definition expired_demo : OwnedRecord := mk_record 0 0 0 0 [] (encode_ttl_headers 1 []) [7] [] [].
Definition plain_demo : OwnedRecord := mk_record 1 1 0 0 [] [] [8] [] [].

Definition demo_view (unix : Z) : LogView :=
  mk_view 0 2 unix 500
    (fun o => if o =? 0 then Ok (Some expired_demo) else if o =? 1 then Ok (Some plain_demo) else Ok None).

Lemma demo_view_ok unix : view_ok (demo_view unix).
Proof.
  constructor.
  - simpl. ulia.
  - intros o r. simpl. destruct (Z.eqb_spec o 0); [intros [= <-]; simpl; lia|].
    destruct (Z.eqb_spec o 1); [intros [= <-]; simpl; lia|done].
  - intros p r o r'. simpl. destruct (Z.eqb_spec p 0); [intros [= <-]; simpl; lia|].
    destruct (Z.eqb_spec p 1); [intros [= <-]; simpl; lia|done].
Qed.

Definition empty_engine (slots : nat) (groups : gmap (list Z) WorkGroup) : Engine :=
  mk_engine groups ∅ ∅ ∅ ∅ (replicate slots (SlotClosed [])) (registry_new confirm_default)
    (RetryBudget.budget_new 0 0) 0 (mk_counters 0 0 0 0 0 0 0 0 0) None 0.

Lemma dlq_config_ok : config_ok dlq_config.
Proof. vm_compute. repeat split; discriminate. Qed.

Definition poison_group : WorkGroup :=
  let g := group_new (k_lease dlq_config) 0 in
  set_table g (resume_attempts (g_leases g) [(1, 5)]).

Definition poison_engine : Engine := empty_engine 2 {[ str "g" := poison_group ]}.

Lemma poison_engine_ok : engine_ok poison_engine.
Proof.
  constructor; [|apply map_Forall_empty|apply map_Forall_empty].
  simpl. apply map_Forall_singleton. split; [apply Cursor.wf_new|].
  change (Lease.wf (g_leases (@resume_work_group castagnoli Cursor.new (Some (@encode_attempt_snapshot castagnoli [(1, 5)] []))
    (k_lease dlq_config) 0 10))).
  apply resume_work_group_ok; [apply Cursor.wf_new| |vm_compute; discriminate|vm_compute; discriminate].
  apply (bool_decide_unpack _). vm_compute. exact I.
Qed.


(** A group that has committed past both records. *)
Definition drained_group : WorkGroup := set_cursor (group_new (k_lease dlq_config) 0) (Cursor.resume 2).

Lemma drained_engine_ok : engine_ok (empty_engine 2 {[ str "g" := drained_group ]}).
Proof.
  constructor; [|apply map_Forall_empty|apply map_Forall_empty].
  simpl. apply map_Forall_singleton. split; [|apply table_new_wf; vm_compute; discriminate].
  unfold Cursor.wf. simpl. repeat split; try ulia. constructor.
Qed.


