(* ===== verification/EngineInv.v ===== *)
(** * The invariant of the engine's groups

    Every handler of the engine keeps every group's cursor and lease table well
    formed and every checkpoint readable, whatever the log and the disks
    answer. *)

From S2P Require Import Prelude Bytes Records Cursor CursorSnapshot Attempt Delivery Lease KeyShared Confirm Ttl Subject.
From S2P Require Import Backpressure Dlq WorkGroup Engine DeadLetter PollSafety.

Inductive engine_op :=
| OpPoll (name : list Z) (now : Z)
| OpPollMember (name : list Z) (member now : Z)
| OpAckMsg (name : list Z) (token : LeaseToken)
| OpCumulativeAck (name : list Z) (up_to : Z)
| OpNackMsg (name : list Z) (token : LeaseToken) (delay_ms : Z)
| OpProgress (name : list Z) (token : LeaseToken)
| OpTerm (name : list Z) (token : LeaseToken)
| OpPause (name : list Z) (pause_ms : Z)
| OpResealBatch (name : list Z) (first : Z) (staged : list Z) (generation : Z)
| OpJoin (name : list Z) (member : Z)
| OpLeave (name : list Z) (member : Z).

Section engine_ops.
Context `{Crc32c} `{Xxh3}.

Definition estep (k : EngineConfig) (lv : LogView) (dk : Disk) (e : Engine) (op : engine_op) : Engine :=
  match op with
  | OpPoll name now => (poll_in k lv dk e name now).1
  | OpPollMember name member now => (poll_in_member k lv dk e name member now).1
  | OpAckMsg name token => (ack_in k lv e name token).1
  | OpCumulativeAck name up_to => (cumulative_ack_in k lv e name up_to).1
  | OpNackMsg name token delay_ms => (nack_in k lv e name token delay_ms).1
  | OpProgress name token => (progress_in lv e name token).1
  | OpTerm name token => (term_in k lv dk e name token).1
  | OpPause name pause_ms => (pause_group_in k lv e name pause_ms).1
  | OpResealBatch name first staged generation => reseal_batch_in e name first staged generation
  | OpJoin name member => (join_member_in e name member).1
  | OpLeave name member => (leave_member_in e name member).1
  end.

(** Offsets are 64-bit, and a batch is resealed to a generation that has been
    drawn. *)
Definition eop_ok (e : Engine) (op : engine_op) : Prop :=
  match op with
  | OpAckMsg _ token | OpTerm _ token => is_u64 (tok_offset token)
  | OpCumulativeAck _ up_to => is_u64 up_to
  | OpResealBatch name _ _ generation =>
      forall g, e_groups e !! name = Some g -> 0 <= generation < next_generation (g_leases g)
  | _ => True
  end.

(** ** Groups *)

Lemma set_group_ok e name g : engine_ok e -> group_ok g -> engine_ok (set_group e name g).
Proof. intros [H1 H2 H3] Hg. constructor; [by apply map_Forall_insert_2|done|done]. Qed.

(** Fields no invariant speaks of. *)
Lemma engine_ok_ext e e' :
  engine_ok e -> e_groups e' = e_groups e -> e_cursor_ckpt e' = e_cursor_ckpt e ->
  e_attempts_ckpt e' = e_attempts_ckpt e -> engine_ok e'.
Proof. intros [H1 H2 H3] E1 E2 E3. constructor; by rewrite ?E1, ?E2, ?E3. Qed.

Lemma ack_group_ok g o :
  group_ok g -> 0 <= o < u64_max -> group_ok (set_cursor g (Cursor.ack (g_cursor g) o).1).
Proof. intros [Hc Hl] Ho. split; [|done]. by apply (ack_spec (g_cursor g) o). Qed.

Lemma clear_router_ok g o : group_ok g -> group_ok (clear_router g o).
Proof. intros [Hc Hl]. destruct (clear_router_fields g o) as [E1 E2]. split; by rewrite ?E1, ?E2. Qed.

Lemma set_table_ok g t : group_ok g -> Lease.wf t -> group_ok (set_table g t).
Proof. by intros [Hc _] Ht. Qed.

Lemma dead_letter_ok reason k dk e name off attempt record :
  engine_ok e -> 0 <= off < u64_max -> engine_ok (dead_letter_with reason k dk e name off attempt record).1.
Proof.
  intros He Hoff. unfold dead_letter_with, fan_out_dead_letter.
  destruct (fan_out_loop _ _ _ _ _ _ _ _ _ _) as [slots [[]|err|]]; [|by apply (engine_ok_ext e)..].
  unfold commit_dead_letter_past. cbn [e_groups set_dlq fst].
  destruct (e_groups e !! name) as [g|] eqn:Hg; [|by apply (engine_ok_ext e)].
  set (g' := clear_router _ off).
  assert (Hg' : group_ok g') by (apply clear_router_ok, ack_group_ok; [by apply (eo_groups _ He name)|done]).
  destruct (bool_decide _); apply (engine_ok_ext (set_group e name g')); try done; by apply set_group_ok.
Qed.

Lemma finish_poll_ok k dk e name off f c :
  engine_ok e -> match c with NoCapture => True | CapExpired o _ _ | CapDead o _ _ => 0 <= o < u64_max end ->
  engine_ok (finish_poll k dk e name off f c).1.
Proof. intros He Hc. unfold finish_poll. destruct f; [done|]. destruct c; [done|by apply dead_letter_ok..]. Qed.

Lemma poll_group_ok k lv dk e name g now :
  config_ok k -> view_ok lv -> engine_ok e -> e_groups e !! name = Some g ->
  engine_ok (poll_group k lv dk e name now).1.
Proof.
  intros Hk Hv He Hg. pose proof (eo_groups _ He name g Hg) as Hok. pose proof (settled_ok g now Hok) as Hok1.
  destruct (poll_group_shape k lv dk Hk Hv e name g now Hg Hok)
    as [_ ->|d' Hpm _ Hgr Hrest|Hlt _ (g' & Hgr & Hg' & _) Hrest|s c off _ Hpm _ g1 lo Hcore Hlo Hoff Hc Hout].
  - by apply set_group_ok.
  - destruct Hrest as (_ & E2 & E3). apply (engine_ok_ext (set_group e name (set_pending_match (settled g now) None)));
      [by apply set_group_ok|done..].
  - destruct Hrest as (_ & E2 & E3). apply (engine_ok_ext (set_group e name g')); [by apply set_group_ok|done..].
  - assert (Hput : engine_ok (put_scan e name s)).
    { apply (engine_ok_ext (set_group e name (sc_group s))); [|done..]. apply set_group_ok; [done|].
      split; [apply (sco_cursor _ _ _ _ _ _ _ _ Hcore)|apply (sco_leases _ _ _ _ _ _ _ _ Hcore)]. }
    assert (Hlo0 : 0 <= lo) by exact (proj1 (proj1 (proj1 Hok1))).
    rewrite Hout. destruct c as [|c|r]; [done| |done]. apply finish_poll_ok; [done|].
    destruct Hc as [(Hcs & _)|[[= ->] _]]; [|done]. pose proof (vo_bounds _ Hv) as Hb.
    destruct c as [|o a r|o a r]; [done| |]; cbn [control_spec] in Hcs.
    + destruct Hcs as (_ & -> & [_ _ [Hr Hro]] & _). pose proof (vo_read _ Hv off r Hr). lia.
    + destruct Hcs as (_ & -> & [[_ _ [Hr Hro]] _] & _). pose proof (vo_read _ Hv off r Hr). lia.
Qed.

Lemma poll_in_ok k lv dk e name now :
  config_ok k -> view_ok lv -> engine_ok e -> engine_ok (poll_in k lv dk e name now).1.
Proof.
  intros Hk Hv He. unfold poll_in. destruct (open_poll_ok k lv dk e name now Hk Hv He) as [He1 Hsome].
  destruct (open_poll k lv dk e name now) as [e1 [[]| |]]; cbn [fst snd] in *; [|done..].
  destruct (Hsome eq_refl) as [g Hg]. by apply (poll_group_ok _ _ _ _ _ g).
Qed.

(** ** The key-shared scan *)

Lemma retry_throttle_group_ok k s off now :
  group_ok (sc_group s) -> group_ok (sc_group (retry_throttle_defer k s off now).1).
Proof.
  intros [Hc Hl]. pose proof (throttle_spec k off s now Hl) as Ht.
  destruct (retry_throttle_defer k s off now) as [s' b]. destruct Ht as (E & _ & Hw & _). cbn [fst]. split; [by rewrite E|done].
Qed.

Lemma member_step_ok k lv member now s off :
  view_ok lv -> group_ok (sc_group s) -> 0 <= off < lv_flushed lv ->
  group_ok (sc_group (member_step k lv member now s off).1) /\
  match (member_step k lv member now s off).2 with
  | Break (CapExpired o _ _) | Break (CapDead o _ _) => o = off
  | _ => True
  end.
Proof.
  intros Hv Hg Hoff. pose proof (vo_bounds _ Hv) as Hb. unfold member_step.
  destruct (Cursor.is_acked _ _); [done|]. destruct (negb _); [done|].
  destruct (lv_read lv off) as [[r|]|err|] eqn:Hr; [|done..].
  destruct (negb (r_offset r =? off)).
  { split; [|done]. destruct Hg as [Hc Hl]. split; [|done]. pose proof (vo_read _ Hv off r Hr).
    apply (ack_hole_spec _ off); [done|lia|lia]. }
  destruct (record_is_expired _ _ r).
  { destruct (dead_letters_expired k); [done|]. split; [|done]. apply clear_router_ok, ack_group_ok; [done|lia]. }
  destruct (record_is_undue _ r); [done|]. destruct (g_router (sc_group s)) as [router|]; [|done].
  destruct (decide_route router member (r_key r) off); [|done..].
  pose proof (retry_throttle_group_ok k s off now Hg) as Hg1.
  destruct (retry_throttle_defer k s off now) as [s1 b]. cbn [fst] in Hg1. destruct b; [done|].
  pose proof (claim_cases (g_leases (sc_group s1)) off now (proj2 Hg1)) as Hcl.
  destruct (claim _ off now) as [t [tok d| |]].
  - destruct Hcl as (_ & _ & _ & Ht & _).
    destruct (disposition _ _); cbn [fst snd]; (split; [|done]); [split; [apply Hg1|done]|].
    apply clear_router_ok, set_table_ok; [by apply set_table_ok|].
    pose proof (lstep_wf t (OAck tok) Ht I) as Hw. unfold lstep in Hw. simpl. by destruct (lease_ack t tok).
  - destruct Hcl as [-> _]. split; [by apply set_table_ok; [|apply Hg1]|done].
  - destruct Hcl as [-> _]. split; [by apply set_table_ok; [|apply Hg1]|done].
Qed.

Lemma member_scan_ok k lv member now n s off :
  view_ok lv -> group_ok (sc_group s) -> 0 <= off -> off + Z.of_nat n <= Z.max off (lv_flushed lv) ->
  let '(s', c, _) := scan (member_step k lv member now) s off n in
  group_ok (sc_group s') /\
  match c with Break (CapExpired o _ _) | Break (CapDead o _ _) => 0 <= o < lv_flushed lv | _ => True end.
Proof.
  intros Hv. revert s off. induction n as [|n IH]; intros s off Hg Hz Hn; cbn [scan]; [done|].
  pose proof (member_step_ok k lv member now s off Hv Hg ltac:(lia)) as Hs.
  destruct (member_step k lv member now s off) as [s1 c]. cbn [fst snd] in Hs. destruct Hs as [Hs1 Hs2].
  destruct c as [|c|r]; [apply IH; [done|lia|lia]| |done].
  split; [done|]. destruct c; [done|subst; lia..].
Qed.

Lemma poll_in_member_ok k lv dk e name member now :
  config_ok k -> view_ok lv -> engine_ok e -> engine_ok (poll_in_member k lv dk e name member now).1.
Proof.
  intros Hk Hv He. pose proof (vo_bounds _ Hv) as Hb. unfold poll_in_member.
  destruct (key_ordering_in e name); [by apply poll_in_ok|].
  pose proof (sweep_ok k lv dk e now He) as He1. destruct (sweep_idle_groups k lv dk e now) as [e1 [[]| |]]; [|done..].
  cbn [fst] in He1. set (g := match e_groups e1 !! name with Some g => g | None => _ end).
  assert (Hg : group_ok g).
  { unfold g. destruct (e_groups e1 !! name) as [g0|] eqn:E; [by apply (eo_groups _ He1 name)|].
    destruct Hk as (? & ? & _). split; [apply Cursor.wf_new|by apply table_new_wf]. }
  pose proof (settled_ok g now Hg) as Hg1. unfold settled in Hg1.
  destruct (pause_active (touch g now) now) as [g1 paused]. cbn [fst] in Hg1.
  destruct paused; [by apply set_group_ok|]. set (lo := Cursor.committed (g_cursor g1)).
  assert (Hlo0 : 0 <= lo) by exact (proj1 (proj1 (proj1 Hg1))).
  destruct (Z.ltb_spec lo (lv_earliest lv)).
  { destruct Hk as (? & ? & _). apply (engine_ok_ext (set_group e1 name (set_router (set_table (set_cursor g1
      (Cursor.resume (lv_earliest lv))) (table_new (k_lease k))) ((fun r => retain_above r (lv_earliest lv)) <$> g_router g1))));
      [|done..]. apply set_group_ok; [done|]. split; [split; [simpl; ulia|done]|by apply table_new_wf]. }
  set (g2 := set_router g1 _). set (n := Z.to_nat (window_end k lv lo - lo)).
  assert (Hwin : window_end k lv lo <= lv_flushed lv) by (unfold window_end; lia).
  pose proof (member_scan_ok k lv member now n (start_scan e1 g2) lo Hv Hg1 Hlo0 ltac:(lia)) as Hsc.
  destruct (scan _ (start_scan e1 g2) lo n) as [[s c] off]. destruct Hsc as [Hs Hc].
  assert (Hput : engine_ok (put_scan e1 name s)).
  { apply (engine_ok_ext (set_group e1 name (sc_group s))); [by apply set_group_ok|done..]. }
  destruct c as [|c|r]; [done| |done]. apply finish_poll_ok; [done|]. destruct c; [done|lia..].
Qed.

(** ** The verbs *)

Lemma confirm_commit_ok k e name committed : engine_ok e -> engine_ok (confirm_designated_commit k e name committed).
Proof. intros He. unfold confirm_designated_commit. destruct (bool_decide _); [by apply (engine_ok_ext e)|done]. Qed.

Lemma ack_in_ok k lv e name token : engine_ok e -> is_u64 (tok_offset token) -> engine_ok (ack_in k lv e name token).1.
Proof.
  intros He Ho. unfold ack_in. destruct (e_groups e !! name) as [g|] eqn:Hg; [|done].
  destruct (eo_groups _ He name g Hg) as [Hc Hl]. cbn [g_leases touch].
  pose proof (lstep_wf _ (OAck token) Hl I) as Hw. unfold lstep in Hw.
  destruct (lease_ack (g_leases g) token) as [t out]. cbn [fst] in Hw.
  destruct out; [|by apply set_group_ok]. cbn [g_cursor set_table touch].
  pose proof (Cursor.ack_bounded_ok (g_cursor g) (tok_offset token) (k_max_acked_ahead_runs k) Hc Ho) as Hack.
  destruct (Cursor.ack_bounded _ _ _) as [c b]. destruct Hack as [Hcw _].
  set (g1 := set_cursor (set_table (touch g (lv_monotonic lv)) t) c).
  assert (Hg1 : group_ok g1) by done. cbn zeta.
  set (g2 := clear_router g1 (tok_offset token)). assert (Hg2 : group_ok g2) by (by apply clear_router_ok).
  destruct b; cbn [fst].
  1,2: apply confirm_commit_ok, (engine_ok_ext (set_group e name g2)); [by apply set_group_ok|done..].
  apply (engine_ok_ext (set_group e name g1)); [by apply set_group_ok|done..].
Qed.

Lemma cumulative_ack_ok k lv e name up_to : engine_ok e -> is_u64 up_to -> engine_ok (cumulative_ack_in k lv e name up_to).1.
Proof.
  intros He Hu. unfold cumulative_ack_in. destruct (negb _); [done|]. destruct (_ || _); [done|].
  destruct (e_groups e !! name) as [g|] eqn:Hg; [|done]. destruct (eo_groups _ He name g Hg) as [Hc Hl].
  cbn [g_cursor touch]. pose proof (Cursor.commit_up_to_spec (g_cursor g) up_to Hc Hu) as Hcs.
  destruct (Cursor.commit_up_to (g_cursor g) up_to) as [c moved]. destruct Hcs as [Hcw _].
  set (g1 := set_table _ _).
  assert (Hg1 : group_ok g1) by (split; [done|exact (lstep_wf _ (ORelease up_to) Hl I)]).
  apply confirm_commit_ok, (engine_ok_ext (set_group e name g1)); [by apply set_group_ok|done..].
Qed.

Lemma nack_in_ok k lv e name token delay_ms : engine_ok e -> engine_ok (nack_in k lv e name token delay_ms).1.
Proof.
  intros He. unfold nack_in. destruct (e_groups e !! name) as [g|] eqn:Hg; [|done].
  destruct (eo_groups _ He name g Hg) as [Hc Hl]. cbn [g_leases touch]. set (delay := default 0 _).
  pose proof (lstep_wf _ (ONack token (lv_monotonic lv) delay) Hl I) as Hw. unfold lstep in Hw.
  destruct (Lease.nack _ _ _ _) as [t out]. by apply set_group_ok.
Qed.

Lemma progress_in_ok lv e name token : engine_ok e -> engine_ok (progress_in lv e name token).1.
Proof.
  intros He. unfold progress_in. destruct (e_groups e !! name) as [g|] eqn:Hg; [|done].
  destruct (eo_groups _ He name g Hg) as [Hc Hl]. cbn [g_leases touch].
  pose proof (lstep_wf _ (OExtend token (lv_monotonic lv)) Hl I) as Hw. unfold lstep in Hw.
  destruct (extend _ _ _) as [t out]. by apply set_group_ok.
Qed.

Lemma term_in_ok k lv dk e name token :
  engine_ok e -> is_u64 (tok_offset token) -> engine_ok (term_in k lv dk e name token).1.
Proof.
  intros He Ho. unfold term_in.
  assert (Hfin : forall e0, engine_ok e0 -> engine_ok
    (let '(e1, result) := ack_in k lv e0 name token in
     match result, e_groups e1 !! name with
     | ResAcked, Some g => (set_dlq e1 (prune_slots (e_dlq e1) name (Cursor.committed (g_cursor g))), Ok result)
     | _, _ => (e1, Ok (E := EngineError) result)
     end).1).
  { intros e0 He0. pose proof (ack_in_ok k lv e0 name token He0 Ho) as Ha.
    destruct (ack_in k lv e0 name token) as [e1 []]; [|by destruct (e_groups e1 !! name)].
    destruct (e_groups e1 !! name); [by apply (engine_ok_ext e1)|done]. }
  destruct (k_exchange k); [|by apply Hfin].
  destruct (e_groups e !! name ≫= _) as [attempt|]; [|done].
  destruct (lv_read lv (tok_offset token)) as [[r|]|err|]; [|by apply Hfin|done..].
  destruct (r_offset r =? tok_offset token); [|by apply Hfin].
  unfold fan_out_dead_letter. destruct (fan_out_loop _ _ _ _ _ _ _ _ _ _) as [slots [[]|err|]].
  - apply Hfin. by apply (engine_ok_ext e).
  - by apply (engine_ok_ext e).
  - by apply (engine_ok_ext e).
Qed.

Lemma apply_pause_ok g now pause_ms : group_ok g -> group_ok (apply_pause g now pause_ms).1.
Proof.
  intros Hg. unfold apply_pause.
  assert (Hg1 : group_ok (pause_active g now).1).
  { destruct Hg as [Hc Hl]. unfold pause_active. destruct (g_paused g) as [p|]; [|done].
    destruct (now <? until p); [done|]. split; [done|].
    exact (lstep_wf _ (OShift (sat_sub (until p) (paused_at p))) Hl I). }
  destruct (pause_active g now) as [g1 b]. cbn [fst] in *. destruct Hg1 as [Hc Hl].
  destruct (_ =? 0); destruct (g_paused g1) as [p|]; try done.
  split; [done|]. exact (lstep_wf _ (OShift (sat_sub now (paused_at p))) Hl I).
Qed.

Lemma pause_group_ok k lv e name pause_ms :
  config_ok k -> view_ok lv -> engine_ok e -> engine_ok (pause_group_in k lv e name pause_ms).1.
Proof.
  intros Hk Hv He. unfold pause_group_in. destruct (validate_group_name name) as [[]|err|]; [|done..].
  destruct (negb _ && _); [done|]. pose proof (ensure_ok k lv e name (lv_monotonic lv) Hk Hv He) as He1.
  destruct (e_groups (ensure_group _ _ _ _ _) !! name) as [g|] eqn:Hg; [|done].
  pose proof (apply_pause_ok (stamp g (lv_monotonic lv)) (lv_monotonic lv) pause_ms (eo_groups _ He1 name g Hg)) as Hp.
  destruct (apply_pause _ _ _) as [g1 d]. by apply set_group_ok.
Qed.

Lemma reseal_run_wf t base i staged generation :
  Lease.wf t -> 0 <= generation < next_generation t -> Lease.wf (reseal_run t base i staged generation).
Proof.
  revert t i. induction staged as [|from staged IH]; intros t i Ht Hg; [done|]. cbn [reseal_run].
  apply IH.
  - exact (lstep_wf t (OReseal (sat_add64 base i) from generation) Ht Hg).
  - destruct (lstep_generation t (OReseal (sat_add64 base i) from generation)) as (_ & Hmono & _). simpl in Hmono. lia.
Qed.

Lemma estep_ok k lv dk e op :
  config_ok k -> view_ok lv -> engine_ok e -> eop_ok e op -> engine_ok (estep k lv dk e op).
Proof.
  intros Hk Hv He Hop.
  destruct op as [name now|name member now|name token|name up_to|name token delay_ms|name token|name token|
    name pause_ms|name first staged generation|name member|name member]; cbn [estep eop_ok] in *.
  - by apply poll_in_ok.
  - by apply poll_in_member_ok.
  - by apply ack_in_ok.
  - by apply cumulative_ack_ok.
  - by apply nack_in_ok.
  - by apply progress_in_ok.
  - by apply term_in_ok.
  - by apply pause_group_ok.
  - unfold reseal_batch_in. destruct (e_groups e !! name) as [g|] eqn:Hg; [|done].
    destruct (eo_groups _ He name g Hg). apply set_group_ok; [done|]. split; [done|].
    apply reseal_run_wf; [done|by apply Hop].
  - unfold join_member_in. destruct (e_groups e !! name) as [g|] eqn:Hg; [|done].
    destruct (g_router g) as [r|]; [|done]. destruct (KeyShared.join r member).
    apply set_group_ok; [done|]. by apply (eo_groups _ He name g Hg).
  - unfold leave_member_in. destruct (e_groups e !! name) as [g|] eqn:Hg; [|done].
    destruct (g_router g) as [r|]; [|done]. destruct (leave r member).
    apply set_group_ok; [done|]. by apply (eo_groups _ He name g Hg).
Qed.

(** A run of the engine: each operation under its own view of the log and its
    own disk answers. *)
Fixpoint erun (k : EngineConfig) (e : Engine) (ops : list (LogView * Disk * engine_op)) : Engine :=
  match ops with
  | [] => e
  | (lv, dk, op) :: ops => erun k (estep k lv dk e op) ops
  end.

Fixpoint erun_ok (k : EngineConfig) (e : Engine) (ops : list (LogView * Disk * engine_op)) : Prop :=
  match ops with
  | [] => True
  | (lv, dk, op) :: ops => view_ok lv /\ eop_ok e op /\ erun_ok k (estep k lv dk e op) ops
  end.


End engine_ops.

(** A poll delivers the live record, it is extended, acked, and the drained
    group polled again. *)
Definition demo_run : list (LogView * Disk * engine_op) :=
  [(demo_view 1000, disk_fine, OpPoll (str "g") 500);
   (demo_view 1000, disk_fine, OpProgress (str "g") (mk_token 1 1));
   (demo_view 1000, disk_fine, OpAckMsg (str "g") (mk_token 1 1));
   (demo_view 1000, disk_fine, OpPoll (str "g") 510)].

