(* ===== verification/Findings.v ===== *)
(** * Where the engine and its documentation part

    Concrete runs of the engine's definitions on which the code does something
    other than its comments say.  Each run is evaluated, together with the run
    the comment describes where there is one to compare it with. *)

From S2P Require Import Prelude Bytes Records Cursor Attempt Delivery Lease KeyShared Confirm Ttl Subject.
From S2P Require Import Backpressure Dlq WorkGroup Engine DeadLetter PollSafety.

Module Findings.

(** ** Logs and engines *)

Definition rec (off : Z) (subject headers : list Z) : OwnedRecord :=
  mk_record off off 0 0 [] headers [7] subject [].

(** The first record at or above an offset. *)
Definition read_records (records : list OwnedRecord) (o : Z) : res (option OwnedRecord) StorageError :=
  Ok (head (List.filter (fun r => o <=? r_offset r) records)).

Definition view (earliest flushed unix mono : Z) (records : list OwnedRecord) : LogView :=
  mk_view earliest flushed unix mono (read_records records).

Definition seconds (s : Z) : Z := s * 1000000000.

Definition fresh : WorkGroup := group_new default_config 0.
Definition with_filter (g : WorkGroup) (p : list Z) : WorkGroup :=
  mk_group (g_cursor g) (g_leases g) (g_router g) (g_broadcast g) (g_subscribers g) (g_last_activity g)
    (g_touched g) (g_streaming g) (Some p) (g_pending_match g) (g_paused g) (g_ephemeral g).
Definition with_attempts (g : WorkGroup) (l : list (Z * Z)) : WorkGroup :=
  set_table g (resume_attempts (g_leases g) l).

Definition engine (g : WorkGroup) : Engine := empty_engine 1 {[ str "g" := g ]}.

#[local] Existing Instance castagnoli.
#[local] Existing Instance sum64.

Definition poll (k : EngineConfig) (lv : LogView) (e : Engine) (now : Z) : Engine * res Poll EngineError :=
  poll_in k lv disk_fine e (str "g") now.

Definition cursor_of (e : Engine) : option Cursor.AckCursor := g_cursor <$> e_groups e !! str "g".

(** ** A pause and the lease's hard cap *)

Definition paused_engine : Engine :=
  let e := (poll dlq_config (view 0 1 0 0 [rec 0 [] []]) (engine fresh) 0).1 in
  (pause_group_in dlq_config (view 0 1 0 (seconds 10) [rec 0 [] []]) e (str "g") 400000).1.

(** A consumer takes a record at 0 s, the group is paused from 10 s to 410 s,
    and the consumer reports progress at 415 s.  Its lease has run for 15 s, yet
    the answer is that the 300 s cap is reached; had any poll come in between,
    the same report would have been granted. *)
Theorem progress_after_pause_hits_the_cap :
  let lv := view 0 1 0 (seconds 415) [rec 0 [] []] in
  (progress_in lv paused_engine (str "g") (mk_token 0 0)).2 = ResCapReached /\
  (progress_in lv (poll dlq_config lv paused_engine (seconds 415)).1 (str "g") (mk_token 0 0)).2 = ResExtended.
Proof. vm_compute. split; reflexivity. Qed.

(** ** A filtered run before a poison record *)

Definition capped : WorkGroup := with_attempts (with_filter fresh (str "a")) [(1, 5)].

(** Offset 1 has been delivered five times, the cap.  Behind a record the filter
    skips, the poll that meets it forgets the count, and the next poll delivers
    it as a first attempt; without the skipped record it is dead-lettered. *)
Theorem filtered_run_resets_the_delivery_count :
  let lv := view 0 2 0 0 [rec 0 (str "b") []; rec 1 (str "a") []] in
  let '(e1, r1) := poll dlq_config lv (engine capped) 0 in
  let '(e2, r2) := poll dlq_config lv e1 0 in
  r1 = Ok (Filtered 0 1) /\
  r2 = Ok (Message (mk_delivery 1 (mk_token 1 2) 1 (rec 1 (str "a") []))) /\
  (poll dlq_config lv (engine (set_cursor capped (Cursor.resume 1))) 0).2 = Ok (Parked 1 (rec 1 (str "a") [])).
Proof. vm_compute. repeat split; reflexivity. Qed.

(** The span reported as not matching the filter may hold a matching record
    that expired. *)
Theorem filtered_span_holds_an_expired_match :
  let records := [rec 0 (str "b") []; rec 1 (str "a") (encode_ttl_headers 1 [])] in
  let lv := view 0 2 1000 0 records in
  (poll dlq_config lv (engine (with_filter fresh (str "a"))) 0).2 = Ok (Filtered 0 2) /\
  exists p, parse_pattern (str "a") = Ok p /\ record_matches_subject_filter p (rec 1 (str "a") (encode_ttl_headers 1 [])) = true.
Proof. split; [vm_compute; reflexivity|]. eexists. split; vm_compute; reflexivity. Qed.

(** A run of skipped records that ends at a compaction hole is committed past
    and never reported. *)
Theorem filtered_run_lost_at_a_hole :
  let lv := view 0 3 0 0 [rec 0 (str "b") []; rec 2 (str "a") []] in
  let '(e1, r1) := poll dlq_config lv (engine (with_filter fresh (str "a"))) 0 in
  let '(e2, r2) := poll dlq_config lv e1 0 in
  r1 = Ok (Compacted 1 2) /\ cursor_of e1 = Some (Cursor.resume 2) /\
  r2 = Ok (Message (mk_delivery 2 (mk_token 2 2) 1 (rec 2 (str "a") []))).
Proof. vm_compute. repeat split; reflexivity. Qed.

(** ** An expired record with a lapsed lease in a key-shared group *)

Definition keyed : WorkGroup := set_router fresh (Some (KeyShared.join router_new 1).1).

(** Delivered to a member, then expired: once the lease has lapsed the scan
    commits past the record and leaves the lease in the table. *)
Theorem key_shared_expiry_keeps_the_lease :
  let records := [rec 0 [] (encode_ttl_headers 1000 [])] in
  let '(e1, r1) := poll_in_member dlq_config (view 0 1 0 0 records) disk_fine (engine keyed) (str "g") 1 0 in
  let '(e2, r2) := poll_in_member dlq_config (view 0 1 2000 (seconds 31) records) disk_fine e1 (str "g") 1 (seconds 31) in
  (exists d, r1 = Ok (Message d)) /\ r2 = Ok Idle /\ cursor_of e2 = Some (Cursor.resume 1) /\
  ((fun g => in_flight (g_leases g)) <$> e_groups e2 !! str "g") = Some 1%nat.
Proof. vm_compute. repeat split; try reflexivity. eexists. reflexivity. Qed.

(** ** Confirms behind a dead-lettered record *)

Definition confirming : EngineConfig :=
  mk_engine_config default_config (Delivery.mk_delivery 5 false [] 1) 10 None 0 0 0 true false (str "g") false.

(** Records 0 and 1; a producer waits for the consumption of 1, which is taken
    and acked while 0, at its delivery cap, is in flight. *)
Definition awaiting (e : Engine) : Engine :=
  set_confirm e (register (e_confirm e) 1 77 0).

Definition acked_behind : Engine :=
  let lv := view 0 2 0 0 [rec 0 [] []; rec 1 [] []] in
  let e := awaiting (engine (with_attempts fresh [(0, 4)])) in
  let e := (poll confirming lv e 0).1 in
  let e := (poll confirming lv e 0).1 in
  (ack_in confirming lv e (str "g") (mk_token 1 1)).1.

(** The dead letter of 0 commits the cursor past both records, yet the wait for
    1 stays pending; an ack of 0 would have answered it. *)
Theorem dead_letter_leaves_a_confirm_pending :
  let lv := view 0 2 0 (seconds 31) [rec 0 [] []; rec 1 [] []] in
  let '(e1, r1) := poll confirming lv acked_behind (seconds 31) in
  let e2 := (ack_in confirming lv acked_behind (str "g") (mk_token 0 0)).1 in
  r1 = Ok (Parked 0 (rec 0 [] [])) /\
  cursor_of e1 = Some (Cursor.resume 2) /\ pending_len (e_confirm e1) = 1%nat /\
  cursor_of e2 = Some (Cursor.resume 2) /\ pending_len (e_confirm e2) = 0%nat.
Proof. vm_compute. repeat split; reflexivity. Qed.

(** ** Truncation and retained records *)

(** Offset 2 is acked while 0 and 1 are outstanding; when 0 is reaped, the
    reset to offset 1 forgets the ack of 2, which is still in the log. *)
Theorem truncation_forgets_a_retained_ack :
  let records := [rec 1 [] []; rec 2 [] []] in
  let e := engine (set_cursor fresh (Cursor.ack Cursor.new 2).1) in
  let '(e1, r1) := poll dlq_config (view 1 3 0 0 records) e 0 in
  (flip Cursor.is_acked 2 <$> cursor_of e) = Some true /\ r1 = Ok (Truncated 1 1) /\
  (flip Cursor.is_acked 2 <$> cursor_of e1) = Some false.
Proof. vm_compute. repeat split; reflexivity. Qed.

End Findings.
